(* ===== verification/_CoqProject ===== *)
-Q . S2P
Prelude.v
Murmur.v
BitSet.v
Bloom.v
Sketch.v
TinyLfu.v
Lru.v
LinkedList.v
Collections.v
GoValue.v
FlashShard.v
FlashStore.v
FlashSpec.v
FlashProps.v
Workers.v
Features.v
Backoff.v
SqlText.v
Url.v
PgHelper.v
PgProps.v
MySqlHelper.v
CacheApi.v
FlashCache.v
Redis.v
RedisClient.v
RedisCache.v
RedisCacheProps.v
Memcached.v
MemcachedProps.v
Aerospike.v
AerospikeProps.v
CacheFactory.v
RedisLock.v
RedisLockProps.v
RedisLimiter.v
Elastic.v
ElasticProps.v
FeatureLifecycle.v
Minifier.v
Session.v
Http.v
HttpProps.v
Timeout.v
Compressor.v
HttpServer.v
ConfigManager.v
ConfigProps.v
AppConfig.v
Cloud.v
ObjectStorage.v
Messaging.v
Discovery.v
PgConn.v
MySqlConn.v
MongoConn.v
Qdrant.v
QdrantProps.v
Oidc.v
Jwt.v
FileSys.v
FileProps.v
SqlStruct.v
PgStruct.v
MyStruct.v
Conv.v
JsonCustom.v
Unicode.v
RestUrl.v
Rest.v
Encoding.v
SafeLru.v
StructMap.v
RequestLog.v
Notifiers.v
Email.v
I18n.v
Grpc.v
HttpStart.v
