(* ===== verification/Prelude.v ===== *)
(** * Photon: a verification development

    Photon is a Go toolkit for services. This library models its own logic in Rocq,
    definition by definition, and proves the properties that make each part correct.
    External systems (Redis, Memcached, Aerospike, Elasticsearch, SQL databases, S3, SQS,
    Consul, identity providers, the session library, compressors) are interfaces: a type class lists the calls the code
    makes, a second one the documented behaviour it relies on, and a finite-map instance
    shows that the laws can hold. [PROJECT.json] lists every part with its status.

    ** Files and the code they model

    Foundations and containers:
    - [Prelude.v]: Go's fixed-width integers with their wrap-around, bit lemmas, the
      [outcome] monad (a value or a run-time panic), slices, results, bytes.
    - [Murmur.v]: [src/utils/encoding/murmur.go]. The 64-bit hash.
    - [BitSet.v], [Bloom.v]: [src/utils/stdlib/bitset.go], [bloom.go]. The bit set is
      the storage of the Bloom filter, which hashes with Murmur.
    - [Sketch.v], [TinyLfu.v]: [src/utils/stdlib/sketch.go], [tiny_lfu.go]. The
      frequency sketch and the admission filter on top of it. [TinyLfu.v] declares the
      [Admission] interface the store is verified against.
    - [Lru.v], [SafeLru.v], [LinkedList.v], [Collections.v]: [src/utils/stdlib/lru.go],
      [linkedlist.go], [stack.go], [concurrent_map.go], and the packing functions of
      [src/utils/types/numbers.go]. [SafeLru.v] has goroutines that share the cache.
    - [GoValue.v]: values of type [any], [float64] (the executable IEEE 754 model of the
      Standard Library) and the size estimator of [src/utils/system/os.go].

    Stores and caches:
    - [FlashShard.v], [FlashStore.v], [FlashSpec.v], [FlashProps.v]:
      [src/storage/flashdb/]. Records and shards; the store's operations; their
      specifications and the invariant; the theorems for clients.
    - [CacheApi.v]: [src/caching/requests.go], [context.go]. What the adapters share.
    - [FlashCache.v]: [src/caching/flash.go]. The cache interface on top of the store:
      checks, composed keys, payloads, TTLs, batches.
    - [Redis.v], [RedisClient.v]: the commands and scripts of Redis as interfaces, with
      [src/storage/redis/redis.go], the registry of connections.
    - [RedisCache.v], [RedisCacheProps.v]: [src/caching/redis_cache.go].
    - [Memcached.v], [MemcachedProps.v]: [src/caching/memcached_cache.go],
      [src/storage/memcached/].
    - [Aerospike.v], [AerospikeProps.v]: [src/caching/aerospike_cache.go],
      [src/storage/aerospike/].
    - [CacheFactory.v]: [src/caching/factory.go], [options.go], [providers.go]. The choice
      of an adapter, on top of all four.
    - [Elastic.v], [ElasticProps.v]: [src/storage/elasticsearch/]. Connections, requests,
      bulk bodies and the paginated search.
    - [SqlText.v], [PgHelper.v], [PgProps.v]: [src/storage/postgres/pghelper.go],
      [dbcontext.go]. What the builders use of [strings], [strconv] and [sort];
      identifiers, named and positional parameters, IN clauses and the map-based
      statements; their properties.
    - [MySqlHelper.v]: [src/storage/mysql/helper.go], [dbcontext.go]. The same for
      MySQL, with its properties.
    - [SqlStruct.v], [PgStruct.v], [MyStruct.v]: the struct-based inserts and the reads of
      both helpers, over struct types with their tags; what the two share is in the first.

    Coordination and services:
    - [Workers.v]: [src/workers/]. The overseer: registry, failure signals, restart
      budget and backoff, statuses, watchdog.
    - [Features.v], [FeatureLifecycle.v]: [src/core/features/]. Evaluation and content
      validation of feature flags; loading, managers and the two watchers.
    - [Backoff.v]: [src/coordination/backoff/exponential.go]. The retry loop.
    - [RedisLock.v], [RedisLockProps.v]: [src/coordination/concurrency/lock/]. The
      distributed lock with its Lua scripts.
    - [RedisLimiter.v]: [src/coordination/concurrency/ratelimiter/]. The token bucket.
    - [Session.v]: [src/core/session/]. Configuration, Redis store, codec and manager,
      over the registry of [RedisClient.v].
    - [Minifier.v]: [src/utils/rest/minifier/]. Key renaming on a heap of values.
    - [Http.v], [HttpProps.v]: [src/middleware/] (the small handlers),
      [src/utils/rest/apiresponse/], [ip_utils.go]. They call the minifier and the
      limiter.
    - [Timeout.v], [Compressor.v]: [src/middleware/timeout.go], [compressor.go].
    - [HttpServer.v]: [src/server/http/]. Options, routes and the lifecycle of the server,
      with its session manager. [HttpStart.v] composes it with the overseer and the listener.
    - [ConfigManager.v], [ConfigProps.v]: [src/core/config/]. Options, loading, the manager
      and its watcher, environment variables.
    - [RequestLog.v]: [src/middleware/request_logger.go].
    - [Grpc.v]: [src/server/grpc/]. Interceptors and their chain, retries, options, start
      and stop.

    Databases, cloud and authentication:
    - [Url.v]: what the clients use of [net/url], [net] and [strconv]; percent-encoding.
    - [PgConn.v], [MySqlConn.v], [MongoConn.v]: [src/storage/postgres/postgres.go],
      [src/storage/mysql/mysql.go], [cast.go], [src/storage/mongo/]. Settings, data source
      names and the registries of pools and clients.
    - [Qdrant.v], [QdrantProps.v]: [src/storage/qdrant/]. The REST client and its retry
      loop.
    - [Cloud.v], [AppConfig.v], [ObjectStorage.v], [Messaging.v]: [src/cloud/] and
      [src/notifier/notifyrclient/]. Clients and providers, the AppConfig watcher, S3, SQS
      and SNS, and the notification publisher on top of the queue.
    - [Discovery.v]: [src/coordination/network/discovery/]. Registration, heartbeats and
      watching through Consul.
    - [Oidc.v], [Jwt.v]: [src/core/auth/]. The login flow over a session interface, and
      tokens over an interface of the JWT library.

    Utilities:
    - [FileSys.v], [FileProps.v]: [src/utils/filesys/filesystem.go]. Copies over inodes
      with what is synced to the disk, archives, globs and the small checks.
    - [Conv.v], [JsonCustom.v], [StructMap.v]: [src/utils/types/]. Conversions between
      dynamic values, decoding JSON into structs, structs from maps and back.
    - [Unicode.v], [Encoding.v]: [src/utils/encoding/]. UTF-8 and UTF-16, HTML, checksums,
      encryption and compression.
    - [RestUrl.v], [Rest.v]: [src/utils/rest/]. URLs and addresses; stubs, outgoing requests,
      parameters, forms and downloads.
    - [I18n.v]: [src/utils/i18n/i18n.go], [src/utils/cli/table.go].
    - [Email.v], [Notifiers.v]: [src/cloud/service/aws/ses.go], [src/notifier/slack],
      [src/notifier/teams].

    ** How state and effects are modelled

    A struct is a record and a method a function from the old state to the new one and
    its results. Code that can index out of range, dereference nil or call [panic]
    returns in [outcome], and totality theorems show that it does not panic, or when it
    does. Pointers are modelled where code shares them: the elements of the LRU list, the
    nodes of the linked list and the values the minifier walks live in a heap (in the
    last, by address and view, as a struct and its first field share an address); the query
    map of a search and the header of an Aerospike request come back as the call leaves
    them. Package variables (connection registries, feature managers) are records passed
    through. The clock, random bytes, the order in which a Go map is iterated and the
    answers of user code are arguments. A call to a server has a fate: delivered, lost,
    or executed with the answer lost. A mutex-protected critical section is one step;
    executions are sequences of such steps in any order ([FlashSpec.reachable],
    [Workers.sys_reachable], [RedisLockProps.step], [FeatureLifecycle],
    [Timeout.timeout_step], [HttpServer.life_step], [ConfigManager.config_step],
    [AppConfig.ac_step], [SafeLru.step], [Cloud.cloud_step], [Discovery.d_step], and [pg_step],
    [mysql_step] and [mongo_step] of the connection registries, where a call that tests
    under a read lock and acts under the write lock is two steps). HTTP handlers are functions on a request, the state of the
    process and a response writer. Values stored in FlashDB are immutable in the model:
    the shallow copies the code makes are the values themselves.

    ** What the theorems show

    - Hashing and filters: Murmur equals a block-wise reference and its finalizer is
      invertible; bit operations change exactly one bit and counting is exact; the
      Bloom filter has no false negatives and merges to the union; the sketch's
      estimates bound the aged counts from above and below; admission compares
      estimates.
    - Containers: the pointer-based LRU and linked list refine lists, whatever the
      sequence of operations; goroutines that share the LRU behind the lock its file
      declares get a sequential run when their calls do not overlap, and can break it when
      they do; the stack is last-in first-out; packing is a bijection.
    - FlashDB: the byte budget, the consistency of map, LRU order and byte counts, and
      the absence of panics in all reachable stores; write/read round trips; reads
      refine a map with expiry; evictions respect recency and admission; recorded
      sizes are exact except after a failing [Append]; the janitor removes only expired
      records.
    - Cache adapters: what a request stores a later one reads, until it expires, under
      each of the four providers; the Redis adapter refines a map with deadlines on every
      sequence of operations; batches answer as single reads; counters at their bounds;
      registries hand out open connections only; [GetProvider] on every input.
    - Locks and limits: in every interleaving with lost messages and expiry a grant comes
      only after the earlier ones were released or ran out, so that there is at most one
      holder; increasing fencing tokens; what decides the end of [Lock] and when a waiter
      gets the lock; the handlers are runs of the steps this is proved for;
      the rate bound of the token bucket, alone and behind the HTTP middleware.
    - Overseer: restart budget in every window, backoff bounds, one signal per failure,
      at most one restart per worker instance, precise watchdog ticks.
    - Features and retries: evaluation of validated configurations, rule logic, variant
      selection; every served configuration was validated; the retry loop's termination
      and outcome.
    - Sessions: [New] refuses exactly the invalid configurations and gives the settings
      asked for; committed sessions are
      found until they expire; the codec round trip.
    - Search and SQL: the paginated search returns the requested window, or panics past the end; accepted
      identifiers are plain and quoted; the Postgres converter implements a lexical
      grammar with strings, dollar quotes and casts, the MySQL one a single left-to-right
      pass; IN clauses round-trip; updates and inserts send one statement whose
      placeholders and values agree, or nothing; inserting structs one by one or together
      stores the same rows; reads give all the rows or none.
    - HTTP: the timeout middleware sends one whole response and returns whatever its
      handler does; what the client decodes by the announced encoding is what the handler
      wrote; panics end at the recoverer; the minifier terminates on cyclic data, renames
      keys and nothing else, and takes two views of one address for a cycle.
    - Servers and configuration: the server closes the session manager it made once, and
      only then; a signal stops it; one configuration watcher at a time, its updates reach
      the manager, a closed manager never watches.
    - Connections: under every interleaving the open pools are the registered ones, one
      per cluster; data source names of Postgres and MongoDB determine their settings, up
      to a leading slash of a Postgres database;
      the Qdrant client retries exactly the retryable answers, at most as often as it
      was told.
    - Cloud: provider services are made once and shared; listings return each object
      once when a page is full, and publishing accounts for every message; discovery
      reports the instances of the last answer.
    - Authentication: a callback is accepted only with the session's state, verifier and
      nonce, and once; a token exactly when a configured key of its own family signed it
      and its claims pass.
    - Files and data: an atomic copy leaves the old file or the whole new one at every step, and
      also when a crash loses what was not synced;
      archives unpack to what was packed and never outside their directory; conversions
      and decoders round-trip where they can, and where they cannot the theorems say what
      is lost; text in UTF-8 is recognised, repaired and converted exactly; a changed byte
      changes a checksum; what decrypts is what was encrypted.
    - Requests and calls: a stubbed request is never sent and any other at most once; a
      stub serves exactly its budget; queries and path segments round-trip; the name of a
      download cannot leave its header; the request log has what the client got; a gRPC
      handler that panics is answered, and retries are bounded.
    - Messages: placeholders are filled in any order when they follow the convention; the
      header of an email has its lines and no other when its fields have no line feed; a
      notification is sent at most once.
    - Defects: theorems that state what the code does where it departs from its
      documentation or evident intent; [PROJECT.json] lists them as findings.

    ** Bounds and fuel

    Loops that are not structurally recursive take fuel. Eviction loops get one round
    per LRU entry, which [FlashShard.trim_loop_spec] and [FlashSpec.admit_loop_spec] show
    to be enough; the bit count gets one round per bit; list traversals get one per
    node; the parameter converters one per byte ([PgProps.convert_loop_runs]) or per
    mark ([PgProps.where_loop_numbers]). [Lock] takes the list of its rounds and the
    minifier fuel, and both return [None] when they run out; the search panics then. The
    theorems give what is enough ([RedisLockProps.Lock_terminates],
    [ElasticProps.IncrementalSearch_window], [Minifier.MinifyApiKeys_terminates]). Theorems
    about FlashDB assume a store budget below 2^63 bytes and sizes that do not overflow
    int64; those about caches assume deadlines within the range of the server.

    ** Not modelled

    Logging, serialization (gob, and JSON but for decoding into structs), goroutine
    scheduling inside a critical section, Bloom filter sizing from a false-positive rate and
    JSON schema validation; of the sessions, the scs library behind its interface; of the
    middleware, request initialisation and telemetry; of Unicode, normalisation and ISO
    8859. [time.Parse], [math.Pow], [url.Parse], [strconv.ParseFloat], SHA-256, AES and gzip
    are parameters, with laws where a theorem needs them. What is left of the code only
    forwards to a library and has no logic of its own to verify: the methods of the SQL and
    MongoDB drivers and of the router, image recognition, telemetry, the logger, colours and
    prompts, mocks, tables of currencies and date formats, and the tools that run the
    tests. *)

From Stdlib Require Import ZArith Lia.
From stdpp Require Export base numbers strings gmap list.

(** ** Go's fixed-width integers

    A [uint64], [uint32], [uint8], [int64] or [int32] value is a [Z] in the
    range of its type; arithmetic is done in [Z] and brought back to the range
    by the conversions below, which are Go's wrap-around. *)

Declare Scope photon_scope.
Delimit Scope photon_scope with photon.
Local Open Scope Z_scope.

Definition wrap (w z : Z) : Z := z mod 2 ^ w.
Definition u64 (z : Z) : Z := wrap 64 z.
Definition u32 (z : Z) : Z := wrap 32 z.
Definition u8 (z : Z) : Z := wrap 8 z.

(** Two's complement: the representative of [z] modulo [2^w] in
    [[-2^(w-1), 2^(w-1))]. *)
Definition swrap (w z : Z) : Z := (z + 2 ^ (w - 1)) mod 2 ^ w - 2 ^ (w - 1).
Definition i64 (z : Z) : Z := swrap 64 z.
Definition i32 (z : Z) : Z := swrap 32 z.

Definition maxUint64 : Z := 2 ^ 64 - 1.
Definition maxUint32 : Z := 2 ^ 32 - 1.
Definition maxInt64 : Z := 2 ^ 63 - 1.
Definition minInt64 : Z := - 2 ^ 63.
Definition maxInt32 : Z := 2 ^ 31 - 1.
Definition minInt32 : Z := - 2 ^ 31.

Definition is_u64 (z : Z) : Prop := 0 <= z < 2 ^ 64.
Definition is_u32 (z : Z) : Prop := 0 <= z < 2 ^ 32.
Definition is_u8 (z : Z) : Prop := 0 <= z < 2 ^ 8.
Definition is_i64 (z : Z) : Prop := - 2 ^ 63 <= z < 2 ^ 63.
Definition is_i32 (z : Z) : Prop := - 2 ^ 31 <= z < 2 ^ 31.

Create HintDb photon.
#[export] Hint Unfold is_u64 is_u32 is_u8 is_i64 is_i32 : photon.

Lemma u64_range z : is_u64 (u64 z).
Proof. apply Z.mod_pos_bound. lia. Qed.

Lemma u32_range z : is_u32 (u32 z).
Proof. apply Z.mod_pos_bound. lia. Qed.

Lemma u64_id z : is_u64 z → u64 z = z.
Proof. apply Z.mod_small. Qed.

Lemma u32_id z : is_u32 z → u32 z = z.
Proof. apply Z.mod_small. Qed.

Lemma swrap_id w z : 0 < w → - 2 ^ (w - 1) <= z < 2 ^ (w - 1) → swrap w z = z.
Proof.
  intros Hw Hz. unfold swrap.
  assert (2 ^ w = 2 * 2 ^ (w - 1)) as Hp.
  { rewrite <-Z.pow_succ_r by lia. f_equal. lia. }
  rewrite Z.mod_small by lia. lia.
Qed.

Lemma i64_id z : is_i64 z → i64 z = z.
Proof. intros. apply swrap_id; [lia | assumption]. Qed.

Lemma i32_id z : is_i32 z → i32 z = z.
Proof. intros. apply swrap_id; [lia | assumption]. Qed.

Lemma i64_range z : is_i64 (i64 z).
Proof.
  unfold is_i64, i64, swrap.
  pose proof (Z.mod_pos_bound (z + 2 ^ (64 - 1)) (2 ^ 64)). lia.
Qed.

Lemma i64_add_l a b : i64 (i64 a + b) = i64 (a + b).
Proof.
  unfold i64, swrap. f_equal.
  replace ((a + 2 ^ (64 - 1)) mod 2 ^ 64 - 2 ^ (64 - 1) + b + 2 ^ (64 - 1))
    with ((a + 2 ^ (64 - 1)) mod 2 ^ 64 + b) by lia.
  rewrite Zplus_mod_idemp_l. f_equal. lia.
Qed.

Lemma i64_add_r a b : i64 (a + i64 b) = i64 (a + b).
Proof. by rewrite Z.add_comm, i64_add_l, Z.add_comm. Qed.

(** ** Bitwise facts shared by the hash functions and the bit set *)

Lemma testbit_high w z n : 0 <= z < 2 ^ w → w <= n → Z.testbit z n = false.
Proof.
  intros Hz Hn. destruct (decide (z = 0)) as [->|Hnz]; [apply Z.bits_0|].
  assert (0 <= w) by (destruct (Z.lt_ge_cases w 0); [rewrite Z.pow_neg_r in Hz; lia | lia]).
  apply Z.bits_above_log2; [lia|].
  apply Z.lt_le_trans with w; [|lia]. apply Z.log2_lt_pow2; lia.
Qed.

Lemma bits_bounded w z :
  0 <= w → 0 <= z → (∀ n, w <= n → Z.testbit z n = false) → z < 2 ^ w.
Proof.
  intros Hw Hz Hn. destruct (decide (z = 0)) as [->|Hnz]; [lia|].
  destruct (Z.lt_ge_cases z (2 ^ w)) as [|Hge]; [done|].
  assert (w <= Z.log2 z) as Hl by (apply Z.log2_le_pow2; lia).
  pose proof (Hn _ Hl) as Hb. rewrite Z.bit_log2 in Hb by lia. done.
Qed.

(** Any bitwise combination that is false on (false, false) stays in range. *)
Lemma land_u w x y : 0 <= w → 0 <= x < 2 ^ w → 0 <= Z.land x y < 2 ^ w.
Proof.
  intros Hw Hx. assert (0 <= Z.land x y) by (apply Z.land_nonneg; lia).
  split; [done|]. apply bits_bounded; [done..|].
  intros n Hn. rewrite Z.land_spec, (testbit_high w x) by done. done.
Qed.

Lemma lor_u w x y : 0 <= w → 0 <= x < 2 ^ w → 0 <= y < 2 ^ w → 0 <= Z.lor x y < 2 ^ w.
Proof.
  intros Hw Hx Hy. assert (0 <= Z.lor x y) by (apply Z.lor_nonneg; lia).
  split; [done|]. apply bits_bounded; [done..|].
  intros n Hn. rewrite Z.lor_spec, !(testbit_high w) by done. done.
Qed.

Lemma lxor_u w x y : 0 <= w → 0 <= x < 2 ^ w → 0 <= y < 2 ^ w → 0 <= Z.lxor x y < 2 ^ w.
Proof.
  intros Hw Hx Hy. assert (0 <= Z.lxor x y) by (apply Z.lxor_nonneg; lia).
  split; [done|]. apply bits_bounded; [done..|].
  intros n Hn. rewrite Z.lxor_spec, !(testbit_high w) by done. done.
Qed.

Lemma ldiff_u w x y : 0 <= w → 0 <= x < 2 ^ w → 0 <= Z.ldiff x y < 2 ^ w.
Proof.
  intros Hw Hx. assert (0 <= Z.ldiff x y) by (apply Z.ldiff_nonneg; lia).
  split; [done|]. apply bits_bounded; [done..|].
  intros n Hn. rewrite Z.ldiff_spec, (testbit_high w x) by done. done.
Qed.

Lemma shiftr_u w x k : 0 <= w → 0 <= k → 0 <= x < 2 ^ w → 0 <= Z.shiftr x k < 2 ^ w.
Proof.
  intros Hw Hk Hx. assert (0 <= Z.shiftr x k) by (apply Z.shiftr_nonneg; lia).
  split; [done|]. apply bits_bounded; [done..|].
  intros n Hn. rewrite Z.shiftr_spec by lia. apply (testbit_high w); [done | lia].
Qed.

Lemma lxor_u64 x y : is_u64 x → is_u64 y → is_u64 (Z.lxor x y).
Proof. apply lxor_u. lia. Qed.

Lemma lor_u64 x y : is_u64 x → is_u64 y → is_u64 (Z.lor x y).
Proof. apply lor_u. lia. Qed.

#[export] Hint Resolve u64_range u32_range i64_range lxor_u64 lor_u64 : photon.

Lemma u64_testbit z n : 0 <= n → Z.testbit (u64 z) n = (n <? 64) && Z.testbit z n.
Proof.
  intros Hn. unfold u64, wrap. destruct (Z.ltb_spec n 64).
  - by rewrite Z.mod_pow2_bits_low.
  - by rewrite Z.mod_pow2_bits_high by lia.
Qed.

(** [z & (2^w - 1)] is reduction modulo [2^w]. *)
Lemma land_mask w z : 0 <= w → Z.land z (2 ^ w - 1) = z mod 2 ^ w.
Proof.
  intros Hw. rewrite <-Z.land_ones by done. f_equal. rewrite Z.ones_equiv. lia.
Qed.

(** [x ^ (x >> s)] is its own inverse once [s] is at least half the width. *)
Lemma xorshift_involutive w s x :
  0 <= s → w <= 2 * s → 0 <= x < 2 ^ w →
  Z.lxor (Z.lxor x (Z.shiftr x s)) (Z.shiftr (Z.lxor x (Z.shiftr x s)) s) = x.
Proof.
  intros Hs Hw Hx. apply Z.bits_inj'. intros n Hn.
  rewrite !Z.lxor_spec, !Z.shiftr_spec, Z.lxor_spec, Z.shiftr_spec by lia.
  rewrite (testbit_high w x (n + s + s)) by lia.
  by destruct (Z.testbit x n), (Z.testbit x (n + s)).
Qed.

(** Multiplying by [a] and then by its inverse modulo [2^64] gives the input back. *)
Lemma u64_mul_inverse a b k : u64 (a * b) = 1 → is_u64 k → u64 (u64 (k * a) * b) = k.
Proof.
  intros Hab Hk. unfold u64, wrap in *.
  rewrite Z.mul_mod_idemp_l by lia.
  rewrite <-Z.mul_assoc, <-Z.mul_mod_idemp_r, Hab by lia.
  rewrite Z.mul_1_r. by apply Z.mod_small.
Qed.

(** ** Outcomes: a value, or a run-time panic

    Go code that can index out of range, dereference nil, divide by zero or call
    [panic] is modelled in this monad, with stdpp's [x ← m; k] notation. *)
Inductive outcome (A : Type) : Type :=
  | Ret (a : A)
  | Panic (why : string).
Arguments Ret {A} _.
Arguments Panic {A} _.

#[export] Instance outcome_ret : MRet outcome := @Ret.
#[export] Instance outcome_bind : MBind outcome := λ A B f m,
  match m with Ret a => f a | Panic w => Panic w end.

Definition index_out_of_range : string := "runtime error: index out of range".
Definition nil_dereference : string := "runtime error: nil pointer dereference".

(** [s[i]] and [s[i] = x] on a slice. *)
Definition slice_get {A} (l : list A) (i : Z) : outcome A :=
  if decide (0 <= i) then
    match l !! Z.to_nat i with Some x => Ret x | None => Panic index_out_of_range end
  else Panic index_out_of_range.

Definition slice_set {A} (l : list A) (i : Z) (x : A) : outcome (list A) :=
  if decide (0 <= i < Z.of_nat (length l)) then Ret (<[Z.to_nat i := x]> l)
  else Panic index_out_of_range.

Lemma slice_get_Ret {A} (l : list A) i x :
  0 <= i → l !! Z.to_nat i = Some x → slice_get l i = Ret x.
Proof. intros Hi Hx. unfold slice_get. by rewrite decide_True, Hx. Qed.

Lemma slice_set_Ret {A} (l : list A) i x :
  0 <= i < Z.of_nat (length l) → slice_set l i x = Ret (<[Z.to_nat i := x]> l).
Proof. intros Hi. unfold slice_set. by rewrite decide_True. Qed.

(** ** Results: Go's [(value, error)] pairs where only one of the two matters *)
Inductive result (E A : Type) : Type :=
  | Ok (a : A)
  | Err (e : E).
Arguments Ok {E A} _.
Arguments Err {E A} _.

#[export] Instance result_ret E : MRet (result E) := @Ok E.
#[export] Instance result_bind E : MBind (result E) := λ A B f m,
  match m with Ok a => f a | Err e => Err e end.

(** ** Lists *)

Lemma filter_all {A} (P : A → Prop) `{∀ x, Decision (P x)} (l : list A) :
  Forall P l → filter P l = l.
Proof.
  induction 1 as [|x l Hx Hl IH]; [done|]. by rewrite filter_cons, decide_True, IH.
Qed.

Lemma omap_reverse {A B} (f : A → option B) (l : list A) :
  omap f (reverse l) = reverse (omap f l).
Proof.
  induction l as [|x l IH]; [done|]. rewrite reverse_cons, omap_app, IH.
  change (omap f (x :: l)) with (match f x with Some y => y :: omap f l | None => omap f l end).
  cbn [omap list_omap]. destruct (f x); [by rewrite reverse_cons|by rewrite app_nil_r].
Qed.

(** ** Concatenation of strings *)

Lemma string_length_app (a b : string) : String.length (a +:+ b) = (String.length a + String.length b)%nat.
Proof. induction a as [|c a IH]; [done|]. change (String c a +:+ b) with (String c (a +:+ b)). cbn. by rewrite IH. Qed.

Lemma string_app_assoc (a b c : string) : (a +:+ b) +:+ c = a +:+ b +:+ c.
Proof.
  induction a as [|x a IH]; [done|].
  change (String x ((a +:+ b) +:+ c) = String x (a +:+ b +:+ c)). by rewrite IH.
Qed.

Lemma string_app_cancel (s a b : string) : s +:+ a = s +:+ b → a = b.
Proof. induction s as [|c s IH]; [done|]. intros E. apply IH. by injection E. Qed.

(** ** Strings as byte sequences *)
Definition byte_of_ascii (a : Ascii.ascii) : Z := Z.of_N (Ascii.N_of_ascii a).
Fixpoint bytes_of_string (s : string) : list Z :=
  match s with
  | EmptyString => []
  | String a s => byte_of_ascii a :: bytes_of_string s
  end.

Lemma byte_of_ascii_range a : is_u8 (byte_of_ascii a).
Proof.
  unfold is_u8, byte_of_ascii. pose proof (Ascii.N_ascii_bounded a). lia.
Qed.

Lemma bytes_of_string_range s : Forall is_u8 (bytes_of_string s).
Proof. induction s; simpl; constructor; auto using byte_of_ascii_range. Qed.

(** Decides a machine-integer range goal by unfolding the range and the
    conversion bounds. *)
Ltac in_range := autounfold with photon in *; unfold u64, u32, i64, i32 in *; lia.
