(* ===== verification/Murmur.v ===== *)
(** * MurmurHash64 ([src/utils/encoding/murmur.go])

    The 64-bit Murmur variant that the Bloom filter hashes keys with: the
    16-byte block loop, the tail switch with its fallthroughs, the rotation and
    the finalizer, at their widths. The theorems show that the finalizer is a
    bijection of [uint64] (an explicit inverse is given) and that the block loop
    and the tail switch compute a plain left-to-right absorption of the input. *)

From Stdlib Require Import ZArith Lia.
From S2P Require Import Prelude.
Local Open Scope Z_scope.

Definition c1 : Z := 0x87c37b91114253d5.
Definition c2 : Z := 0x4cf5ad432745937f.

(** [(x << r) | (x >> (64 - r))] on [uint64]. *)
Definition rotl64 (x r : Z) : Z := Z.lor (u64 (Z.shiftl x r)) (Z.shiftr x (u64 (64 - r))).

Definition fmix64 (k : Z) : Z :=
  let k := Z.lxor k (Z.shiftr k 33) in
  let k := u64 (k * 0xff51afd7ed558ccd) in
  let k := Z.lxor k (Z.shiftr k 33) in
  let k := u64 (k * 0xc4ceb9fe1a85ec53) in
  Z.lxor k (Z.shiftr k 33).

(** [binary.LittleEndian.Uint64]: eight bytes, the first one least significant. *)
Fixpoint le_combine (l : list Z) : Z :=
  match l with
  | [] => 0
  | b :: l => Z.lor b (Z.shiftl (le_combine l) 8)
  end.

Definition LittleEndian_Uint64 (b : list Z) : Z := le_combine (take 8 b).

(** [data[lo:hi]]; the callers stay inside the slice. *)
Definition subslice (data : list Z) (lo hi : nat) : list Z := take (hi - lo) (drop lo data).

(** The scrambling of the two halves of a block; the tail uses the same ones. *)
Definition mix_k1 (k1 : Z) : Z := u64 (rotl64 (u64 (k1 * c1)) 31 * c2).
Definition mix_k2 (k2 : Z) : Z := u64 (rotl64 (u64 (k2 * c2)) 33 * c1).

(** The body of the block loop, for one [i]. *)
Definition block (data : list Z) (h1 : Z) (i : nat) : Z :=
  let k1 := LittleEndian_Uint64 (subslice data (i * 16) (i * 16 + 8)) in
  let k2 := LittleEndian_Uint64 (subslice data (i * 16 + 8) (i * 16 + 16)) in
  let h1 := Z.lxor h1 (mix_k1 k1) in
  let h1 := rotl64 h1 27 in
  let h1 := u64 (u64 (h1 * 5) + 0x52dce729) in
  Z.lxor h1 (mix_k2 k2).

(** One [case] of the tail switch: every case falls through to the next lower
    one, so the body of [case c] runs exactly when the switched value is at least [c]. *)
Definition fall {A} (n c : nat) (body : A → A) (s : A) : A :=
  if bool_decide (c <= n)%nat then body s else s.

(** [k ^= uint64(tail[i]) << sh]. *)
Definition absorb_byte (tail : list Z) (i : nat) (sh : Z) (k : Z) : Z :=
  Z.lxor k (u64 (Z.shiftl (tail !!! i) sh)).

(** The tail switch on [(k1, k2, h1)], returning the new [h1]. *)
Definition tail_switch (tail : list Z) (h1 : Z) : Z :=
  let n := length tail in
  let k2 := 0 in
  let k2 := fall n 15 (absorb_byte tail 14 48) k2 in
  let k2 := fall n 14 (absorb_byte tail 13 40) k2 in
  let k2 := fall n 13 (absorb_byte tail 12 32) k2 in
  let k2 := fall n 12 (absorb_byte tail 11 24) k2 in
  let k2 := fall n 11 (absorb_byte tail 10 16) k2 in
  let k2 := fall n 10 (absorb_byte tail 9 8) k2 in
  let h1 := fall n 9 (λ h1, Z.lxor h1 (mix_k2 (absorb_byte tail 8 0 k2))) h1 in
  let k1 := 0 in
  let k1 := fall n 8 (absorb_byte tail 7 56) k1 in
  let k1 := fall n 7 (absorb_byte tail 6 48) k1 in
  let k1 := fall n 6 (absorb_byte tail 5 40) k1 in
  let k1 := fall n 5 (absorb_byte tail 4 32) k1 in
  let k1 := fall n 4 (absorb_byte tail 3 24) k1 in
  let k1 := fall n 3 (absorb_byte tail 2 16) k1 in
  let k1 := fall n 2 (absorb_byte tail 1 8) k1 in
  fall n 1 (λ h1, Z.lxor h1 (mix_k1 (absorb_byte tail 0 0 k1))) h1.

(** The accumulator after the whole input, before the finalizer. *)
Definition murmur_body (data : list Z) (seed : Z) : Z :=
  let nblocks := (length data / 16)%nat in
  let h1 := foldl (block data) seed (seq 0 nblocks) in
  tail_switch (drop (nblocks * 16) data) h1.

Definition MurmurHash64 (data : list Z) (seed : Z) : Z :=
  let h1 := murmur_body data seed in
  let h1 := Z.lxor h1 (u64 (Z.of_nat (length data))) in
  fmix64 h1.

(** ** Reference definition: absorb the input from left to right *)

Definition absorb_block (h1 k1 k2 : Z) : Z :=
  Z.lxor (u64 (u64 (rotl64 (Z.lxor h1 (mix_k1 k1)) 27 * 5) + 0x52dce729)) (mix_k2 k2).

Definition absorb_tail (tail : list Z) (h1 : Z) : Z :=
  let h1 := if bool_decide (8 < length tail)%nat
            then Z.lxor h1 (mix_k2 (le_combine (drop 8 tail))) else h1 in
  if bool_decide (0 < length tail)%nat
  then Z.lxor h1 (mix_k1 (le_combine (take 8 tail))) else h1.

Fixpoint absorb (data : list Z) (h1 : Z) : Z :=
  match data with
  | b0 :: b1 :: b2 :: b3 :: b4 :: b5 :: b6 :: b7 ::
    b8 :: b9 :: b10 :: b11 :: b12 :: b13 :: b14 :: b15 :: rest =>
      absorb rest (absorb_block h1 (le_combine [b0; b1; b2; b3; b4; b5; b6; b7])
                                   (le_combine [b8; b9; b10; b11; b12; b13; b14; b15]))
  | tail => absorb_tail tail h1
  end.

(** ** The finalizer is invertible *)

(** Multiplication by these undoes the finalizer's two multiplications modulo
    [2^64]. *)
Definition inv1 : Z := 0x4f74430c22a54005.
Definition inv2 : Z := 0x9cb4b2f8129337db.

Definition unmix64 (k : Z) : Z :=
  let k := Z.lxor k (Z.shiftr k 33) in
  let k := u64 (k * inv2) in
  let k := Z.lxor k (Z.shiftr k 33) in
  let k := u64 (k * inv1) in
  Z.lxor k (Z.shiftr k 33).

Example inv1_ok : u64 (0xff51afd7ed558ccd * inv1) = 1.
Proof. vm_compute. reflexivity. Qed.

Example inv2_ok : u64 (0xc4ceb9fe1a85ec53 * inv2) = 1.
Proof. vm_compute. reflexivity. Qed.

Lemma xorshift33_range k : is_u64 k → is_u64 (Z.lxor k (Z.shiftr k 33)).
Proof. intros Hk. apply lxor_u, shiftr_u; unfold is_u64 in *; lia. Qed.

#[export] Hint Resolve xorshift33_range : photon.

Lemma xorshift33_involutive k :
  is_u64 k →
  Z.lxor (Z.lxor k (Z.shiftr k 33)) (Z.shiftr (Z.lxor k (Z.shiftr k 33)) 33) = k.
Proof. intros Hk. apply (xorshift_involutive 64); [lia..|exact Hk]. Qed.

Ltac undo_xorshift := rewrite xorshift33_involutive by auto with photon.

Lemma fmix64_range k : is_u64 k → is_u64 (fmix64 k).
Proof. intros Hk. unfold fmix64. auto with photon. Qed.

Lemma unmix64_range k : is_u64 k → is_u64 (unmix64 k).
Proof. intros Hk. unfold unmix64. auto with photon. Qed.

Lemma unmix64_fmix64 k : is_u64 k → unmix64 (fmix64 k) = k.
Proof.
  intros Hk. unfold unmix64, fmix64. undo_xorshift.
  rewrite (u64_mul_inverse _ inv2) by auto using inv2_ok with photon. undo_xorshift.
  rewrite (u64_mul_inverse _ inv1) by auto using inv1_ok with photon.
  by undo_xorshift.
Qed.

Lemma inv1_ok' : u64 (inv1 * 0xff51afd7ed558ccd) = 1.
Proof. vm_compute. reflexivity. Qed.

Lemma inv2_ok' : u64 (inv2 * 0xc4ceb9fe1a85ec53) = 1.
Proof. vm_compute. reflexivity. Qed.

Lemma fmix64_unmix64 k : is_u64 k → fmix64 (unmix64 k) = k.
Proof.
  intros Hk. unfold unmix64, fmix64. undo_xorshift.
  rewrite (u64_mul_inverse inv1) by auto using inv1_ok' with photon. undo_xorshift.
  rewrite (u64_mul_inverse inv2) by auto using inv2_ok' with photon.
  by undo_xorshift.
Qed.

(** ** The tail switch loads the tail bytes in little-endian order *)

(** The value the switch accumulates: high bytes first, each shifted and xored in. *)
Fixpoint le_xor (sh : Z) (l : list Z) : Z :=
  match l with
  | [] => 0
  | b :: l => Z.lxor (le_xor (sh + 8) l) (u64 (Z.shiftl b sh))
  end.

Lemma shiftl_byte_range b sh : is_u8 b → 0 <= sh → sh + 8 <= 64 → is_u64 (Z.shiftl b sh).
Proof.
  unfold is_u8, is_u64. intros Hb Hs Hw. rewrite Z.shiftl_mul_pow2 by done.
  assert (2 ^ 64 = 2 ^ (64 - sh) * 2 ^ sh) as Hp
    by (rewrite <-Z.pow_add_r by lia; f_equal; lia).
  assert (2 ^ 8 <= 2 ^ (64 - sh)) by (apply Z.pow_le_mono_r; lia).
  assert (0 < 2 ^ sh) by (apply Z.pow_pos_nonneg; lia). nia.
Qed.

Lemma le_combine_cons b l :
  is_u8 b → le_combine (b :: l) = Z.lxor b (Z.shiftl (le_combine l) 8).
Proof.
  intros Hb. cbn. apply Z.bits_inj'. intros n Hn. rewrite Z.lor_spec, Z.lxor_spec.
  destruct (Z.lt_ge_cases n 8).
  - rewrite (Z.shiftl_spec_low _ 8) by lia. by destruct (Z.testbit b n).
  - by rewrite (testbit_high 8 b).
Qed.

Lemma le_xor_combine l sh :
  Forall is_u8 l → 0 <= sh → sh + 8 * Z.of_nat (length l) <= 64 →
  le_xor sh l = Z.shiftl (le_combine l) sh.
Proof.
  intros Hl. revert sh. induction Hl as [|b l Hb Hl IH]; intros sh Hs Hw.
  { by rewrite Z.shiftl_0_l. }
  simpl length in Hw. rewrite le_combine_cons by done. cbn [le_xor].
  rewrite IH by lia. rewrite u64_id by (apply shiftl_byte_range; [done|lia..]).
  rewrite Z.shiftl_lxor, Z.shiftl_shiftl by lia. rewrite Z.lxor_comm.
  by rewrite (Z.add_comm sh).
Qed.

Lemma tail_switch_le_xor tail h1 :
  (length tail < 16)%nat →
  tail_switch tail h1 =
    (let h1 := if bool_decide (8 < length tail)%nat
               then Z.lxor h1 (mix_k2 (le_xor 0 (drop 8 tail))) else h1 in
     if bool_decide (0 < length tail)%nat
     then Z.lxor h1 (mix_k1 (le_xor 0 (take 8 tail))) else h1).
Proof.
  intros Hl.
  do 16 (destruct tail as [|? tail]; [lazy -[Z.lxor Z.shiftl u64 mix_k1 mix_k2]; reflexivity|]).
  simpl in Hl. lia.
Qed.

Lemma tail_switch_absorb tail h1 :
  Forall is_u8 tail → (length tail < 16)%nat → tail_switch tail h1 = absorb_tail tail h1.
Proof.
  intros Hb Hl. rewrite tail_switch_le_xor by done. unfold absorb_tail.
  rewrite !le_xor_combine; rewrite ?Z.shiftl_0_r; try done; try lia.
  - by apply Forall_take.
  - rewrite length_take. lia.
  - by apply Forall_drop.
  - rewrite length_drop. lia.
Qed.

(** ** The block loop reads the input sixteen bytes at a time *)

Lemma subslice_app c rest lo hi :
  subslice (c ++ rest) (length c + lo) (length c + hi) = subslice rest lo hi.
Proof.
  unfold subslice. rewrite drop_app_add.
  by replace (length c + hi - (length c + lo))%nat with (hi - lo)%nat by lia.
Qed.

Lemma block_shift c rest h1 i :
  length c = 16%nat → block (c ++ rest) h1 (S i) = block rest h1 i.
Proof.
  intros Hc. unfold block.
  replace (S i * 16)%nat with (length c + i * 16)%nat by lia.
  by rewrite <-!Nat.add_assoc, !subslice_app.
Qed.

Lemma foldl_block_shift c rest l h1 :
  length c = 16%nat →
  foldl (λ a b, block (c ++ rest) a (S b)) h1 l = foldl (block rest) h1 l.
Proof.
  intros Hc. revert h1. induction l as [|i l IH]; intros h1; [done|].
  cbn. rewrite block_shift by done. apply IH.
Qed.

Lemma block_head c rest h1 :
  length c = 16%nat →
  block (c ++ rest) h1 0 = absorb_block h1 (le_combine (take 8 c)) (le_combine (drop 8 c)).
Proof. intros Hc. do 17 (destruct c as [|? c]; [try discriminate Hc|]); done. Qed.

Lemma absorb_chunk c rest h1 :
  length c = 16%nat →
  absorb (c ++ rest) h1 =
    absorb rest (absorb_block h1 (le_combine (take 8 c)) (le_combine (drop 8 c))).
Proof. intros Hc. do 17 (destruct c as [|? c]; [try discriminate Hc|]); done. Qed.

Lemma absorb_short tail h1 : (length tail < 16)%nat → absorb tail h1 = absorb_tail tail h1.
Proof.
  intros Hl. do 16 (destruct tail as [|? tail]; [reflexivity|]). simpl in Hl. lia.
Qed.

Lemma murmur_body_absorb data seed :
  Forall is_u8 data → murmur_body data seed = absorb data seed.
Proof.
  intros Hb. unfold murmur_body. remember (length data / 16)%nat as n eqn:Hn.
  revert data seed Hb Hn. induction n as [|n IH]; intros data seed Hb Hn.
  - symmetry in Hn. apply Nat.div_small_iff in Hn; [|lia].
    cbn. by rewrite drop_0, absorb_short, tail_switch_absorb.
  - assert (16 <= length data)%nat.
    { destruct (Nat.le_gt_cases 16 (length data)); [done|].
      rewrite Nat.div_small in Hn; lia. }
    rewrite <-(take_drop 16 data) in Hb |- *.
    set (c := take 16 data) in *. set (rest := drop 16 data) in *.
    assert (length c = 16%nat) as Hc by (unfold c; rewrite length_take; lia).
    apply Forall_app in Hb as [_ Hb].
    rewrite absorb_chunk by done. rewrite <-IH; [|done|].
    2:{ unfold rest. rewrite length_drop.
        replace (length data) with ((length data - 16) + 1 * 16)%nat in Hn by lia.
        rewrite Nat.div_add in Hn; lia. }
    cbn [seq foldl]. rewrite block_head by done.
    rewrite <-fmap_S_seq, foldl_fmap.
    replace (S n * 16)%nat with (length c + n * 16)%nat by lia.
    rewrite drop_app_add. f_equal. by apply foldl_block_shift.
Qed.

Lemma absorb_range data h1 : is_u64 h1 → is_u64 (absorb data h1).
Proof.
  assert (∀ tail h, is_u64 h → is_u64 (absorb_tail tail h)) as Htail.
  { intros tail h Hh. unfold absorb_tail, mix_k1, mix_k2.
    repeat case_bool_decide; auto with photon. }
  remember (length data) as n eqn:Hn. revert data h1 Hn.
  induction n as [n IH] using lt_wf_ind. intros data h1 Hn Hh.
  destruct (Nat.lt_ge_cases n 16); [rewrite absorb_short by lia; auto|].
  rewrite <-(take_drop 16 data), absorb_chunk by (rewrite length_take; lia).
  eapply IH; [|reflexivity|]; [rewrite length_drop; lia|].
  unfold absorb_block, mix_k2. auto with photon.
Qed.

(** ** Properties *)

(** (C11) On every byte string the block loop and the tail switch with its
    fifteen fallthrough cases absorb the input left to right, sixteen bytes at a
    time and the rest in little-endian order; the length is then mixed in and the
    finalizer, whose inverse is [unmix64], is applied. *)
Theorem MurmurHash64_reference data seed :
  Forall is_u8 data → is_u64 seed →
  MurmurHash64 data seed = fmix64 (Z.lxor (absorb data seed) (u64 (Z.of_nat (length data)))) ∧
  unmix64 (MurmurHash64 data seed) =
    Z.lxor (absorb data seed) (u64 (Z.of_nat (length data))).
Proof.
  intros Hb Hs. unfold MurmurHash64. rewrite murmur_body_absorb by done.
  split; [done|]. apply unmix64_fmix64. auto using absorb_range with photon.
Qed.

Lemma MurmurHash64_reference_witness :
  unmix64 (MurmurHash64 (bytes_of_string "murmur test, two blocks and a tail") 7) =
    Z.lxor (absorb (bytes_of_string "murmur test, two blocks and a tail") 7) (u64 34).
Proof.
  apply (MurmurHash64_reference (bytes_of_string "murmur test, two blocks and a tail") 7).
  - apply bytes_of_string_range.
  - split; lia.
Defined.
