(* ===== verification/BitSet.v ===== *)
(** * The bit set ([src/utils/stdlib/bitset.go])

    A slice of 64-bit words and a size in bits. Positions are checked against
    the size; the word index is a slice access that could panic. The theorems
    give the update law of every mutator on the bits, the correctness and
    termination of Kernighan's population count, and what [AllSet] computes. *)

From Stdlib Require Import ZArith Lia.
From S2P Require Import Prelude.
Local Open Scope Z_scope.

Record BitSet := mkBitSet { Bits : list Z; Size : Z }.

Inductive bitset_error := ErrPositionOutOfBounds.

Definition NewBitSet (size : Z) : BitSet :=
  let numWords := u64 (size + 63) / 64 in
  {| Bits := replicate (Z.to_nat numWords) 0; Size := size |}.

(** The shared shape of [Set], [Clear] and [Toggle]: bounds check, word and bit
    of the position, read-modify-write of one word with the mask [1 << bit]. *)
Definition BitSet_write (f : Z → Z → Z) (bs : BitSet) (pos : Z)
    : outcome (BitSet * option bitset_error) :=
  if bs.(Size) <=? pos then Ret (bs, Some ErrPositionOutOfBounds)
  else
    let word := pos / 64 in
    let bit := pos mod 64 in
    w ← slice_get bs.(Bits) word;
    bits ← slice_set bs.(Bits) word (f w (u64 (Z.shiftl 1 bit)));
    Ret ({| Bits := bits; Size := bs.(Size) |}, None).

Definition BitSet_Set : BitSet → Z → outcome (BitSet * option bitset_error) :=
  BitSet_write Z.lor.

Definition BitSet_Clear : BitSet → Z → outcome (BitSet * option bitset_error) :=
  BitSet_write Z.ldiff.

Definition BitSet_Toggle : BitSet → Z → outcome (BitSet * option bitset_error) :=
  BitSet_write Z.lxor.

Definition BitSet_ClearAll (b : BitSet) : BitSet :=
  {| Bits := replicate (length b.(Bits)) 0; Size := b.(Size) |}.

Definition BitSet_IsSet (bs : BitSet) (pos : Z) : outcome (bool * option bitset_error) :=
  if bs.(Size) <=? pos then Ret (false, Some ErrPositionOutOfBounds)
  else
    let word := pos / 64 in
    let bit := pos mod 64 in
    w ← slice_get bs.(Bits) word;
    Ret (negb (Z.land w (u64 (Z.shiftl 1 bit)) =? 0), None).

(** Kernighan's loop; 64 rounds are enough for a [uint64]
    ([popCount_ones] below). *)
Fixpoint popCount_loop (fuel : nat) (x count : Z) : option Z :=
  if x =? 0 then Some count
  else match fuel with
       | O => None
       | S fuel => popCount_loop fuel (Z.land x (u64 (x - 1))) (count + 1)
       end.

Definition popCount (x : Z) : option Z := popCount_loop 64 x 0.

Definition BitSet_CountSetBits (bs : BitSet) : option Z :=
  foldl (λ count word,
           count ← count; n ← popCount word; Some (u64 (count + u64 n)))
        (Some 0) bs.(Bits).

Definition BitSet_GetSize (bs : BitSet) : Z := bs.(Size).

(** The loop over the word indices, with its early [return false]. *)
Fixpoint AllSet_from (size : Z) (i : Z) (words : list Z) : bool :=
  match words with
  | [] => true
  | w :: words =>
      if negb (w =? maxUint64) && (u64 (i * 64) <? size) then false
      else AllSet_from size (i + 1) words
  end.

Definition BitSet_AllSet (bs : BitSet) : bool := AllSet_from bs.(Size) 0 bs.(Bits).

Definition BitSet_AnySet (bs : BitSet) : bool :=
  existsb (λ word, negb (word =? 0)) bs.(Bits).

Definition BitSet_NoneSet (bs : BitSet) : bool :=
  negb (existsb (λ word, negb (word =? 0)) bs.(Bits)).

(** [String]: the bits from position 0 upwards; a failed [IsSet] counts as 0. *)
Fixpoint BitSet_String_from (bs : BitSet) (i : Z) (n : nat) : outcome string :=
  match n with
  | O => Ret ""%string
  | S n =>
      r ← BitSet_IsSet bs i;
      rest ← BitSet_String_from bs (i + 1) n;
      Ret (String.append (if r.1 : bool then "1" else "0") rest)
  end.

Definition BitSet_String (bs : BitSet) : outcome string :=
  BitSet_String_from bs 0 (Z.to_nat bs.(Size)).

(** ** The abstract view: a predicate on positions *)

Definition bit (bs : BitSet) (p : Z) : bool :=
  Z.testbit (default 0 (bs.(Bits) !! Z.to_nat (p / 64))) (p mod 64).

Record BitSet_wf (bs : BitSet) : Prop := {
  wf_size : is_u64 bs.(Size);
  wf_length : Z.of_nat (length bs.(Bits)) = (bs.(Size) + 63) / 64;
  wf_words : Forall is_u64 bs.(Bits);
  wf_tail : ∀ p, bs.(Size) <= p → bit bs p = false
}.

(** The number of [i < n] with [f i]. *)
Fixpoint count_true (f : nat → bool) (n : nat) : nat :=
  match n with
  | O => 0
  | S n => count_true f n + (if f n then 1 else 0)
  end.

(** ** Words and masks *)

Lemma mask_testbit b n : 0 <= b < 64 → 0 <= n → Z.testbit (u64 (Z.shiftl 1 b)) n = (n =? b).
Proof.
  intros Hb Hn. rewrite u64_testbit, Z.shiftl_1_l, Z.pow2_bits_eqb by lia.
  destruct (Z.ltb_spec n 64), (Z.eqb_spec b n), (Z.eqb_spec n b); done || lia.
Qed.

Lemma land_mask_testbit w b :
  0 <= b < 64 → negb (Z.land w (u64 (Z.shiftl 1 b)) =? 0) = Z.testbit w b.
Proof.
  intros Hb. destruct (Z.testbit w b) eqn:Hw.
  - apply negb_true_iff, Z.eqb_neq. intros H0.
    assert (Z.testbit (Z.land w (u64 (Z.shiftl 1 b))) b = false) as Hf by (rewrite H0; apply Z.bits_0).
    rewrite Z.land_spec, Hw, mask_testbit, Z.eqb_refl in Hf by lia. done.
  - apply negb_false_iff, Z.eqb_eq, Z.bits_inj'. intros n Hn.
    rewrite Z.land_spec, mask_testbit, Z.bits_0 by lia.
    destruct (Z.eqb_spec n b) as [->|]; [by rewrite Hw|]. by rewrite andb_false_r.
Qed.

Lemma word_in_range bs p :
  BitSet_wf bs → 0 <= p < bs.(Size) → 0 <= p / 64 < Z.of_nat (length bs.(Bits)).
Proof.
  intros [_ Hl _ _] Hp. rewrite Hl. split; [apply Z.div_pos; lia|].
  pose proof (Z.div_mod (bs.(Size) + 63) 64). pose proof (Z.mod_pos_bound (bs.(Size) + 63) 64).
  apply Z.div_lt_upper_bound; lia.
Qed.

Lemma IsSet_bit bs p :
  BitSet_wf bs → 0 <= p < bs.(Size) → BitSet_IsSet bs p = Ret (bit bs p, None).
Proof.
  intros Hwf Hp. pose proof (word_in_range bs p Hwf Hp) as Hw.
  unfold BitSet_IsSet, bit. rewrite (proj2 (Z.leb_gt _ _)) by lia.
  destruct (bs.(Bits) !! Z.to_nat (p / 64)) as [w|] eqn:E.
  2:{ apply lookup_ge_None in E. lia. }
  rewrite (slice_get_Ret _ _ w) by (done || lia). cbn.
  by rewrite land_mask_testbit by (apply Z.mod_pos_bound; lia).
Qed.

Lemma IsSet_out_of_bounds bs p :
  bs.(Size) <= p → BitSet_IsSet bs p = Ret (false, Some ErrPositionOutOfBounds).
Proof. intros Hp. unfold BitSet_IsSet. by rewrite (proj2 (Z.leb_le _ _)). Qed.

(** ** The write law *)

Section write.
Context (f : Z → Z → Z) (g : bool → bool → bool).
Hypothesis f_bits : ∀ w m n, 0 <= n → Z.testbit (f w m) n = g (Z.testbit w n) (Z.testbit m n).
Hypothesis g_false : ∀ b, g b false = b.
Hypothesis f_range : ∀ w m, is_u64 w → is_u64 m → is_u64 (f w m).

Lemma BitSet_write_spec bs p :
  BitSet_wf bs → 0 <= p < bs.(Size) →
  ∃ bs', BitSet_write f bs p = Ret (bs', None) ∧ BitSet_wf bs' ∧ bs'.(Size) = bs.(Size) ∧
    ∀ q, 0 <= q → bit bs' q = if q =? p then g (bit bs p) true else bit bs q.
Proof.
  intros Hwf Hp. pose proof (word_in_range bs p Hwf Hp) as Hw. destruct Hwf as [Hs Hl Hws Ht].
  unfold BitSet_write. rewrite (proj2 (Z.leb_gt _ _)) by lia.
  destruct (bs.(Bits) !! Z.to_nat (p / 64)) as [w|] eqn:E.
  2:{ apply lookup_ge_None in E. lia. }
  rewrite (slice_get_Ret _ _ w) by (done || lia). cbn.
  rewrite slice_set_Ret by lia. cbn. set (w' := f w _).
  set (bs' := {| Bits := _; Size := _ |}).
  assert (∀ q, 0 <= q → bit bs' q = if q =? p then g (bit bs p) true else bit bs q) as Hbit.
  { intros q Hq. unfold bit, bs'. cbn.
    pose proof (Z.mod_pos_bound p 64). pose proof (Z.mod_pos_bound q 64).
    assert (0 <= q / 64) by (apply Z.div_pos; lia).
    destruct (decide (q / 64 = p / 64)) as [Hqw|Hqw].
    - rewrite Hqw, list_lookup_insert_eq, E by lia. cbn. unfold w'.
      rewrite f_bits, mask_testbit by lia.
      pose proof (Z.div_mod p 64). pose proof (Z.div_mod q 64).
      destruct (Z.eqb_spec (q mod 64) (p mod 64)), (Z.eqb_spec q p); subst; try lia; [done|].
      apply g_false.
    - rewrite list_lookup_insert_ne by lia.
      destruct (Z.eqb_spec q p); [by subst|done]. }
  exists bs'. split; [done|]. split; [|done]. split; cbn; [done|..].
  - by rewrite length_insert.
  - apply Forall_insert; [done|]. apply f_range; [|apply u64_range].
    by eapply Forall_lookup_1.
  - intros q Hq. change (bs.(Size) <= q) in Hq. rewrite Hbit by lia.
    destruct (Z.eqb_spec q p); [lia|]. auto.
Qed.
End write.

Lemma lor_bits w m n : 0 <= n → Z.testbit (Z.lor w m) n = orb (Z.testbit w n) (Z.testbit m n).
Proof. intros _. apply Z.lor_spec. Qed.

Lemma ldiff_bits w m n :
  0 <= n → Z.testbit (Z.ldiff w m) n = (λ a b, a && negb b) (Z.testbit w n) (Z.testbit m n).
Proof. intros _. apply Z.ldiff_spec. Qed.

Lemma lxor_bits w m n : 0 <= n → Z.testbit (Z.lxor w m) n = xorb (Z.testbit w n) (Z.testbit m n).
Proof. intros _. apply Z.lxor_spec. Qed.

Lemma ldiff_u64 w m : is_u64 w → is_u64 m → is_u64 (Z.ldiff w m).
Proof. intros Hw _. apply ldiff_u; [lia|done]. Qed.

Lemma BitSet_Set_spec bs p :
  BitSet_wf bs → 0 <= p < bs.(Size) →
  ∃ bs', BitSet_Set bs p = Ret (bs', None) ∧ BitSet_wf bs' ∧ bs'.(Size) = bs.(Size) ∧
    ∀ q, 0 <= q → bit bs' q = (q =? p) || bit bs q.
Proof.
  intros Hwf Hp.
  destruct (BitSet_write_spec Z.lor orb lor_bits orb_false_r lor_u64 bs p Hwf Hp)
    as (bs' & ? & ? & ? & Hb).
  exists bs'. split_and!; [done..|]. intros q Hq. rewrite Hb by done.
  destruct (q =? p); [by rewrite orb_true_r|done].
Qed.

Lemma BitSet_Clear_spec bs p :
  BitSet_wf bs → 0 <= p < bs.(Size) →
  ∃ bs', BitSet_Clear bs p = Ret (bs', None) ∧ BitSet_wf bs' ∧ bs'.(Size) = bs.(Size) ∧
    ∀ q, 0 <= q → bit bs' q = negb (q =? p) && bit bs q.
Proof.
  intros Hwf Hp.
  destruct (BitSet_write_spec Z.ldiff (λ a b, a && negb b) ldiff_bits andb_true_r ldiff_u64 bs p Hwf Hp)
    as (bs' & ? & ? & ? & Hb).
  exists bs'. split_and!; [done..|]. intros q Hq. rewrite Hb by done.
  destruct (q =? p); [by rewrite andb_false_r|done].
Qed.

Lemma BitSet_Toggle_spec bs p :
  BitSet_wf bs → 0 <= p < bs.(Size) →
  ∃ bs', BitSet_Toggle bs p = Ret (bs', None) ∧ BitSet_wf bs' ∧ bs'.(Size) = bs.(Size) ∧
    ∀ q, 0 <= q → bit bs' q = xorb (q =? p) (bit bs q).
Proof.
  intros Hwf Hp.
  destruct (BitSet_write_spec Z.lxor xorb lxor_bits xorb_false_r lxor_u64 bs p Hwf Hp)
    as (bs' & ? & ? & ? & Hb).
  exists bs'. split_and!; [done..|]. intros q Hq. rewrite Hb by done.
  destruct (q =? p) eqn:E; [|by destruct (bit bs q)].
  apply Z.eqb_eq in E as ->. by destruct (bit bs p).
Qed.

(** ** Fresh and cleared sets *)

Lemma zero_words_bit n size p : bit {| Bits := replicate n 0; Size := size |} p = false.
Proof.
  unfold bit. cbn. destruct (replicate n 0 !! Z.to_nat (p / 64)) as [w|] eqn:E; cbn.
  - apply lookup_replicate in E as [-> _]. apply Z.bits_0.
  - apply Z.bits_0.
Qed.

Lemma NewBitSet_wf size : 0 <= size <= 2 ^ 64 - 64 → BitSet_wf (NewBitSet size).
Proof.
  intros Hs. split; cbn.
  - in_range.
  - rewrite length_replicate, u64_id by in_range.
    rewrite Z2Nat.id; [done|]. apply Z.div_pos; lia.
  - apply Forall_replicate. in_range.
  - intros p _. apply zero_words_bit.
Qed.

Lemma NewBitSet_bit size p : bit (NewBitSet size) p = false.
Proof. apply zero_words_bit. Qed.

Lemma BitSet_ClearAll_spec bs :
  BitSet_wf bs → BitSet_wf (BitSet_ClearAll bs) ∧ ∀ p, bit (BitSet_ClearAll bs) p = false.
Proof.
  intros [Hs Hl Hw Ht]. split; [|intros p; apply zero_words_bit]. split; cbn; [done|..].
  - by rewrite length_replicate.
  - apply Forall_replicate. in_range.
  - intros p _. apply zero_words_bit.
Qed.

(** ** Kernighan's population count *)

Fixpoint pos_ones (p : positive) : nat :=
  match p with
  | xH => 1
  | xO p => pos_ones p
  | xI p => S (pos_ones p)
  end.

Definition ones (x : Z) : nat := match x with Zpos p => pos_ones p | _ => 0%nat end.

Lemma ones_div2 x : 0 <= x → ones x = ((if Z.odd x then 1 else 0) + ones (Z.div2 x))%nat.
Proof. by destruct x as [|[p|p|]|]. Qed.

Lemma ones_double x : 0 <= x → ones (2 * x) = ones x.
Proof. by destruct x. Qed.

Lemma land_odd_even a b : Z.land (2 * a + 1) (2 * b) = 2 * Z.land a b.
Proof.
  apply Z.bits_inj'. intros n Hn. destruct (decide (n = 0)) as [->|].
  { by rewrite Z.land_spec, !Z.bit0_odd, !Z.odd_mul, andb_false_r. }
  replace n with (Z.succ (n - 1)) by lia.
  rewrite Z.land_spec, !Z.double_bits_succ, Z.land_spec. by rewrite Z.testbit_odd_succ by lia.
Qed.

(** [x & (x - 1)] drops exactly one set bit. *)
Lemma ones_clear_lowest x : 0 < x → S (ones (Z.land x (x - 1))) = ones x.
Proof.
  destruct x as [|p|]; [lia| |lia]. intros _.
  induction p as [p _|p IH|]; [| |done].
  - replace (Z.pos p~1 - 1) with (2 * Z.pos p) by lia.
    replace (Z.pos p~1) with (2 * Z.pos p + 1) at 1 by lia.
    by rewrite land_odd_even, Z.land_diag.
  - replace (Z.pos p~0 - 1) with (2 * (Z.pos p - 1) + 1) by lia.
    replace (Z.pos p~0) with (2 * Z.pos p) at 1 by lia.
    rewrite Z.land_comm, land_odd_even, Z.land_comm, ones_double; [exact IH|].
    apply Z.land_nonneg. lia.
Qed.

Lemma count_true_S f n :
  count_true f (S n) = ((if f 0%nat then 1 else 0) + count_true (λ i, f (S i)) n)%nat.
Proof. induction n as [|n IH]; [cbn; lia|]. cbn [count_true] in *. rewrite IH. lia. Qed.

Lemma count_true_add f m n :
  count_true f (m + n) = (count_true f m + count_true (λ i, f (m + i)%nat) n)%nat.
Proof.
  induction n as [|n IH]; [by rewrite Nat.add_0_r; cbn|].
  rewrite Nat.add_succ_r. cbn. rewrite IH. lia.
Qed.

Lemma count_true_ext f g n : (∀ i, (i < n)%nat → f i = g i) → count_true f n = count_true g n.
Proof.
  induction n as [|n IH]; intros H; [done|]. cbn. rewrite IH, H by (auto with lia). done.
Qed.

Lemma count_true_false n : count_true (λ _, false) n = 0%nat.
Proof. induction n; cbn; lia. Qed.

Lemma count_true_le f n : (count_true f n <= n)%nat.
Proof. induction n as [|n IH]; cbn; [lia|]. destruct (f n); lia. Qed.

(** The ones of a [w]-bit number are its set positions below [w]. *)
Lemma ones_count w x :
  0 <= x < 2 ^ Z.of_nat w → ones x = count_true (λ i, Z.testbit x (Z.of_nat i)) w.
Proof.
  revert x. induction w as [|w IH]; intros x Hx; [by replace x with 0 by lia|].
  rewrite count_true_S, ones_div2, <-Z.bit0_odd by lia. f_equal.
  assert (2 ^ Z.of_nat (S w) = 2 * 2 ^ Z.of_nat w) by (rewrite <-Z.pow_succ_r; [f_equal|]; lia).
  rewrite IH; [|rewrite Z.div2_div; split; [apply Z.div_pos|apply Z.div_lt_upper_bound]; lia].
  apply count_true_ext. intros i _. rewrite Z.div2_spec, Z.shiftr_spec by lia. f_equal. lia.
Qed.

Lemma popCount_loop_spec fuel x c :
  is_u64 x → (ones x <= fuel)%nat → popCount_loop fuel x c = Some (c + Z.of_nat (ones x)).
Proof.
  revert x c. induction fuel as [|fuel IH]; intros x c Hx Hf; cbn.
  all: destruct (Z.eqb_spec x 0) as [->|]; [by rewrite Z.add_0_r|].
  all: assert (0 < x) as Hpos by (unfold is_u64 in Hx; lia).
  all: pose proof (ones_clear_lowest x Hpos) as Ho.
  - lia.
  - rewrite u64_id by in_range. rewrite IH; [f_equal; lia| |lia]. apply land_u; [lia|done].
Qed.

Lemma popCount_ones x : is_u64 x → popCount x = Some (Z.of_nat (ones x)).
Proof.
  intros Hx. apply popCount_loop_spec; [done|]. rewrite (ones_count 64) by exact Hx.
  apply count_true_le.
Qed.

(** ** Counting the bits of the whole set *)

Definition words_bit (l : list Z) (i : nat) : bool :=
  Z.testbit (default 0 (l !! (i / 64)%nat)) (Z.of_nat (i mod 64)%nat).

Lemma bit_words_bit bs i : bit bs (Z.of_nat i) = words_bit bs.(Bits) i.
Proof.
  unfold bit, words_bit. rewrite Nat2Z.inj_mod. change 64 with (Z.of_nat 64).
  by rewrite <-Nat2Z.inj_div, Nat2Z.id.
Qed.

Lemma words_count w l :
  is_u64 w →
  count_true (words_bit (w :: l)) (64 * S (length l)) =
    (ones w + count_true (words_bit l) (64 * length l))%nat.
Proof.
  intros Hw. replace (64 * S (length l))%nat with (64 + 64 * length l)%nat by lia.
  rewrite count_true_add, (ones_count 64 w) by exact Hw. apply f_equal2.
  - apply count_true_ext. intros i Hi. unfold words_bit.
    rewrite (Nat.div_small i), (Nat.mod_small i) by lia. done.
  - apply count_true_ext. intros i Hi. unfold words_bit.
    replace (64 + i)%nat with (i + 1 * 64)%nat by lia.
    by rewrite Nat.div_add, Nat.Div0.mod_add, Nat.add_comm by lia.
Qed.

Definition total_ones (l : list Z) : nat := sum_list_with ones l.

Lemma total_ones_count l :
  Forall is_u64 l → total_ones l = count_true (words_bit l) (64 * length l).
Proof.
  induction 1 as [|w l Hw Hl IH]; [done|].
  change (total_ones (w :: l)) with (ones w + total_ones l)%nat.
  change (length (w :: l)) with (S (length l)). by rewrite words_count, IH.
Qed.

Lemma CountSetBits_fold l c :
  Forall is_u64 l → is_u64 c →
  foldl (λ count word, count ← count; n ← popCount word; Some (u64 (count + u64 n)))
        (Some c) l = Some (u64 (c + Z.of_nat (total_ones l))).
Proof.
  intros Hl. revert c. induction Hl as [|w l Hw Hl IH]; intros c Hc.
  { cbn. by rewrite Z.add_0_r, u64_id. }
  change (total_ones (w :: l)) with (ones w + total_ones l)%nat.
  cbn [foldl]. rewrite popCount_ones by done.
  change (Some c ≫= _) with (Some (u64 (c + u64 (Z.of_nat (ones w))))).
  rewrite IH by apply u64_range. f_equal. unfold u64, wrap.
  rewrite Nat2Z.inj_add, Zplus_mod_idemp_l, Z.add_assoc.
  rewrite <-(Zplus_mod_idemp_l (c + Z.of_nat (ones w) mod 2 ^ 64)), Zplus_mod_idemp_r.
  by rewrite Zplus_mod_idemp_l.
Qed.

(** ** Properties *)

(** On a well-formed set and a position in range, [Set], [Clear] and
    [Toggle] succeed without panicking, keep the set well-formed, change the bit
    at that position to 1, to 0 or to its complement, and leave every other bit as
    it was; out of range they report the error and change nothing. *)
Theorem BitSet_write_law bs p :
  BitSet_wf bs → 0 <= p →
  (p < bs.(Size) →
   (∃ s, BitSet_Set bs p = Ret (s, None) ∧ BitSet_wf s ∧
      ∀ q, 0 <= q → bit s q = (q =? p) || bit bs q) ∧
   (∃ s, BitSet_Clear bs p = Ret (s, None) ∧ BitSet_wf s ∧
      ∀ q, 0 <= q → bit s q = negb (q =? p) && bit bs q) ∧
   (∃ s, BitSet_Toggle bs p = Ret (s, None) ∧ BitSet_wf s ∧
      ∀ q, 0 <= q → bit s q = xorb (q =? p) (bit bs q)) ∧
   BitSet_IsSet bs p = Ret (bit bs p, None)) ∧
  (bs.(Size) <= p →
   BitSet_Set bs p = Ret (bs, Some ErrPositionOutOfBounds) ∧
   BitSet_Clear bs p = Ret (bs, Some ErrPositionOutOfBounds) ∧
   BitSet_Toggle bs p = Ret (bs, Some ErrPositionOutOfBounds) ∧
   BitSet_IsSet bs p = Ret (false, Some ErrPositionOutOfBounds)).
Proof.
  intros Hwf Hp. split; intros Hs.
  - destruct (BitSet_Set_spec bs p) as (s1 & ? & ? & _ & ?); [done..|].
    destruct (BitSet_Clear_spec bs p) as (s2 & ? & ? & _ & ?); [done..|].
    destruct (BitSet_Toggle_spec bs p) as (s3 & ? & ? & _ & ?); [done..|].
    split_and!; eauto using IsSet_bit.
  - unfold BitSet_Set, BitSet_Clear, BitSet_Toggle, BitSet_write, BitSet_IsSet.
    by rewrite (proj2 (Z.leb_le _ _)) by done.
Qed.

Lemma BitSet_write_law_witness :
  (∃ s, BitSet_Set (NewBitSet 100) 70 = Ret (s, None) ∧ bit s 70 = true) ∧
  BitSet_Toggle (NewBitSet 100) 100 = Ret (NewBitSet 100, Some ErrPositionOutOfBounds).
Proof.
  assert (BitSet_wf (NewBitSet 100)) as Hwf by (apply NewBitSet_wf; lia).
  split.
  - destruct (proj1 (BitSet_write_law (NewBitSet 100) 70 Hwf ltac:(lia)) ltac:(reflexivity))
      as [(s & Hs & _ & Hb) _].
    exists s. split; [exact Hs|]. apply (Hb 70). lia.
  - apply (proj2 (BitSet_write_law (NewBitSet 100) 100 Hwf ltac:(lia)) ltac:(reflexivity)).
Defined.

(** [CountSetBits], which runs Kernighan's loop on every word, returns on
    every well-formed set (64 rounds per word are enough) and the result is the
    number of positions below the size whose bit is set. *)
Theorem BitSet_CountSetBits_spec bs :
  BitSet_wf bs →
  BitSet_CountSetBits bs =
    Some (Z.of_nat (count_true (λ i, bit bs (Z.of_nat i)) (Z.to_nat bs.(Size)))).
Proof.
  intros [Hs Hl Hw Ht]. unfold BitSet_CountSetBits.
  rewrite CountSetBits_fold, total_ones_count by (done || in_range).
  f_equal. rewrite Z.add_0_l.
  set (n := Z.to_nat bs.(Size)).
  assert (∃ k, 64 * length bs.(Bits) = n + k)%nat as [k Hk].
  { exists (64 * length bs.(Bits) - n)%nat.
    pose proof (Z.div_mod (bs.(Size) + 63) 64). pose proof (Z.mod_pos_bound (bs.(Size) + 63) 64).
    unfold is_u64 in Hs. lia. }
  rewrite Hk, count_true_add.
  rewrite (count_true_ext (λ i, words_bit _ (n + i)) (λ _, false)).
  - rewrite count_true_false, Nat.add_0_r.
    rewrite (count_true_ext _ (λ i, bit bs (Z.of_nat i)))
      by (intros; symmetry; apply bit_words_bit).
    apply u64_id. pose proof (count_true_le (λ i, bit bs (Z.of_nat i)) n).
    unfold is_u64 in *. lia.
  - intros i _. rewrite <-bit_words_bit. apply Ht. unfold is_u64 in Hs. lia.
Qed.

Lemma BitSet_CountSetBits_spec_witness :
  ∃ bs, BitSet_Set (NewBitSet 70) 68 = Ret (bs, None) ∧ BitSet_wf bs ∧
    BitSet_CountSetBits bs = Some 1.
Proof.
  destruct (BitSet_Set_spec (NewBitSet 70) 68) as (bs & Hs & Hwf & _);
    [apply NewBitSet_wf; lia | split; reflexivity || (cbn; lia) |].
  exists bs. split; [exact Hs|]. split; [exact Hwf|].
  rewrite (BitSet_CountSetBits_spec bs Hwf).
  vm_compute in Hs. injection Hs as <-. vm_compute. reflexivity.
Defined.

Lemma AllSet_from_false size i words :
  AllSet_from size i words = false ↔
  ∃ j w, words !! j = Some w ∧ w ≠ maxUint64 ∧ u64 ((i + Z.of_nat j) * 64) < size.
Proof.
  revert i. induction words as [|w words IH]; intros i; cbn.
  { split; [done|]. intros (j & w & Hj & _). done. }
  destruct (negb (w =? maxUint64) && (u64 (i * 64) <? size)) eqn:E.
  - apply andb_true_iff in E as [E1 E2]. apply negb_true_iff, Z.eqb_neq in E1.
    apply Z.ltb_lt in E2. split; [intros _|done]. exists 0%nat, w.
    rewrite Z.add_0_r. done.
  - rewrite IH. split.
    + intros (j & v & ? & ? & ?). exists (S j), v.
      replace (i + Z.of_nat (S j)) with (i + 1 + Z.of_nat j) by lia. done.
    + intros ([|j] & v & Hj & Hv & Hlt).
      * rewrite Z.add_0_r in Hlt. cbn in Hj. simplify_eq.
        apply andb_false_iff in E as [E|E].
        -- apply negb_false_iff, Z.eqb_eq in E. done.
        -- apply Z.ltb_ge in E. lia.
      * exists j, v. replace (i + 1 + Z.of_nat j) with (i + Z.of_nat (S j)) by lia. done.
Qed.

Lemma full_word w :
  is_u64 w → w = maxUint64 ↔ ∀ n, 0 <= n < 64 → Z.testbit w n = true.
Proof.
  intros Hw. change maxUint64 with (Z.ones 64). split.
  - intros -> n Hn. apply Z.ones_spec_low. lia.
  - intros Hb. apply Z.bits_inj'. intros n Hn. destruct (Z.lt_ge_cases n 64).
    + rewrite Z.ones_spec_low, Hb by lia. done.
    + rewrite Z.ones_spec_high by lia. by apply (testbit_high 64).
Qed.

(** [AllSet] asks every word to be all ones, including the bits of the last
    word that lie beyond the size: on a well-formed non-empty set it is true exactly
    when every bit below the size is set and the size is a multiple of 64. A set
    whose size is not a multiple of 64 is never reported as full. *)
Theorem BitSet_AllSet_spec bs :
  BitSet_wf bs → 0 < bs.(Size) <= 2 ^ 64 - 64 →
  BitSet_AllSet bs = true ↔
    bs.(Size) mod 64 = 0 ∧ ∀ p, 0 <= p < bs.(Size) → bit bs p = true.
Proof.
  intros Hwf Hs. destruct Hwf as [_ Hl Hw Ht].
  assert (∀ j w, bs.(Bits) !! j = Some w → u64 ((0 + Z.of_nat j) * 64) < bs.(Size)) as Hin.
  { intros j w Hj%lookup_lt_Some.
    pose proof (Z.div_mod (bs.(Size) + 63) 64). pose proof (Z.mod_pos_bound (bs.(Size) + 63) 64).
    rewrite u64_id by (unfold is_u64; lia). lia. }
  split.
  - intros Hall.
    assert (∀ j w, bs.(Bits) !! j = Some w → w = maxUint64) as Hfull.
    { intros j w Hj. destruct (decide (w = maxUint64)) as [|Hne]; [done|].
      assert (BitSet_AllSet bs = false) as Hf by (apply AllSet_from_false; eauto 6).
      congruence. }
    assert (∀ p, 0 <= p / 64 < Z.of_nat (length bs.(Bits)) → bit bs p = true) as Hbit.
    { intros p Hp. unfold bit.
      destruct (lookup_lt_is_Some_2 bs.(Bits) (Z.to_nat (p / 64))) as [w Hj]; [lia|].
      rewrite Hj. cbn [default from_option id].
      apply full_word; [by eapply (Forall_lookup_1 is_u64)|eauto|apply Z.mod_pos_bound; lia]. }
    split.
    + destruct (decide (bs.(Size) mod 64 = 0)) as [|Hm]; [done|].
      enough (bit bs bs.(Size) = true) by (rewrite Ht in *; done || lia).
      apply Hbit. rewrite Hl. pose proof (Z.mod_pos_bound bs.(Size) 64).
      pose proof (Z.div_mod bs.(Size) 64).
      split; [apply Z.div_pos; lia|].
      apply Z.lt_le_trans with (bs.(Size) / 64 + 1); [lia|].
      apply Z.div_le_lower_bound; lia.
    + intros p Hp. apply Hbit, word_in_range; [by split; try in_range|done].
  - intros [Hm Hbit]. destruct (BitSet_AllSet bs) eqn:E; [done|]. exfalso.
    apply AllSet_from_false in E as (j & w & Hj & Hne & _). apply Hne.
    pose proof (lookup_lt_Some _ _ _ Hj) as Hjl.
    assert (Z.of_nat j * 64 + 64 <= bs.(Size)).
    { pose proof (Z.div_mod bs.(Size) 64).
      assert ((bs.(Size) + 63) / 64 = bs.(Size) / 64) as Hd
        by (symmetry; apply Z.div_unique with 63; lia).
      rewrite Hd in Hl. lia. }
    apply full_word; [by eapply (Forall_lookup_1 is_u64)|]. intros n Hn.
    specialize (Hbit (Z.of_nat j * 64 + n)). unfold bit in Hbit.
    rewrite Z.div_add_l, (Z.div_small n), Z.add_0_r, Nat2Z.id, Hj in Hbit by lia.
    rewrite Z.add_comm, Z.mod_add, Z.mod_small in Hbit by lia. apply Hbit. lia.
Qed.

Lemma BitSet_AllSet_spec_witness :
  ∃ bs, BitSet_Set (NewBitSet 1) 0 = Ret (bs, None) ∧ bit bs 0 = true ∧ BitSet_AllSet bs ≠ true.
Proof.
  destruct (BitSet_Set_spec (NewBitSet 1) 0) as (bs & Hs & Hwf & Hsz & Hb);
    [apply NewBitSet_wf; lia | cbn; lia |].
  exists bs. split; [exact Hs|]. split; [apply (Hb 0); lia|].
  intros Ha. apply (BitSet_AllSet_spec bs Hwf) in Ha; [|rewrite Hsz; split; reflexivity || discriminate].
  destruct Ha as [Hm _]. rewrite Hsz in Hm. discriminate Hm.
Defined.
