(* ===== verification/Bloom.v ===== *)
(** * The Bloom filter ([src/utils/stdlib/bloom.go])

    [Add] sets and [Exists] tests one bit per seed of the prime table, at the
    Murmur hash of the key modulo the size; both loops return at the first error.
    The theorems show that a filter whose bit set has the filter's size never
    forgets a key, through any later [Add] and [Merge]; what [Merge] computes; and
    the two constructor arguments on which a filter does not work.
    The constructors that derive a hash count from a rate with floating-point
    logarithms, and the gob serialization, are not modelled. *)

From Stdlib Require Import ZArith Lia.
From S2P Require Import Prelude Murmur BitSet.
Local Open Scope Z_scope.

Definition primeSeeds : list Z := [
  2; 3; 5; 7; 11; 13; 17; 19; 23; 29; 31; 37; 41; 43; 47; 53; 59; 61; 67; 71;
  73; 79; 83; 89; 97; 101; 103; 107; 109; 113; 127; 131; 137; 139; 149; 151;
  157; 163; 167; 173; 179; 181; 191; 193; 197; 199; 211; 223; 227; 229; 233;
  239; 241; 251; 257; 263; 269; 271; 277; 281; 283; 293; 307; 311; 313; 317;
  331; 337; 347; 349; 353; 359; 367; 373; 379; 383; 389; 397; 401; 409; 419;
  421; 431; 433; 439; 443; 449; 457; 461; 463; 467; 479; 487; 491; 499; 503;
  509; 521; 523; 541; 547; 557; 563; 569; 571; 577; 587; 593; 599; 601; 607].

Record BloomFilter := mkBloomFilter { bfSize : Z; HashCount : Z; Bitset : BitSet }.

(** [types.MaxUint64] and [types.MaxUint8]. *)
Definition MaxUint64 (a b : Z) : Z := if b <? a then a else b.
Definition MaxUint8 (a b : Z) : Z := if b <? a then a else b.

Definition NewBloomFilter (size hashCount : Z) : BloomFilter :=
  {| bfSize := MaxUint64 size 1; HashCount := MaxUint8 hashCount 1; Bitset := NewBitSet size |}.

Definition with_bits (bf : BloomFilter) (bits : BitSet) : BloomFilter :=
  {| bfSize := bf.(bfSize); HashCount := bf.(HashCount); Bitset := bits |}.

Definition BloomFilter_Hash (bf : BloomFilter) (key : string) (seed : Z) : outcome Z :=
  let hash := MurmurHash64 (bytes_of_string key) seed in
  if bf.(bfSize) =? 0 then Panic "runtime error: integer divide by zero"
  else Ret (hash mod bf.(bfSize)).

(** [n] rounds of the loop of [Add] from round [i] on. *)
Fixpoint Add_loop (bf : BloomFilter) (key : string) (n : nat) (i : Z) : outcome BloomFilter :=
  match n with
  | O => Ret bf
  | S n =>
      seed ← slice_get primeSeeds (i mod bf.(HashCount));
      position ← BloomFilter_Hash bf key seed;
      r ← BitSet_Set bf.(Bitset) position;
      match r.2 with
      | Some _ => Ret bf
      | None => Add_loop (with_bits bf r.1) key n (i + 1)
      end
  end.

Definition BloomFilter_Add (bf : BloomFilter) (key : string) : outcome BloomFilter :=
  Add_loop bf key (Z.to_nat bf.(HashCount)) 0.

Fixpoint Exists_loop (bf : BloomFilter) (key : string) (n : nat) (i : Z) : outcome bool :=
  match n with
  | O => Ret true
  | S n =>
      seed ← slice_get primeSeeds (i mod bf.(HashCount));
      position ← BloomFilter_Hash bf key seed;
      r ← BitSet_IsSet bf.(Bitset) position;
      match r.2 with
      | Some _ => Ret false
      | None => if r.1 : bool then Exists_loop bf key n (i + 1) else Ret false
      end
  end.

Definition BloomFilter_Exists (bf : BloomFilter) (key : string) : outcome bool :=
  Exists_loop bf key (Z.to_nat bf.(HashCount)) 0.

Definition BloomFilter_ClearAll (bf : BloomFilter) : BloomFilter :=
  with_bits bf (BitSet_ClearAll bf.(Bitset)).

Inductive bloom_error := ErrShapeMismatch | ErrBitSet (e : bitset_error).

Fixpoint Merge_loop (bf other : BloomFilter) (n : nat) (i : Z)
    : outcome (BloomFilter * option bloom_error) :=
  match n with
  | O => Ret (bf, None)
  | S n =>
      r ← BitSet_IsSet other.(Bitset) i;
      let exists_ := match r.2 with Some _ => false | None => r.1 end in
      if exists_ then
        s ← BitSet_Set bf.(Bitset) i;
        match s.2 with
        | Some e => Ret (with_bits bf s.1, Some (ErrBitSet e))
        | None => Merge_loop (with_bits bf s.1) other n (i + 1)
        end
      else Merge_loop bf other n (i + 1)
  end.

Definition BloomFilter_Merge (bf other : BloomFilter)
    : outcome (BloomFilter * option bloom_error) :=
  if negb (bf.(bfSize) =? other.(bfSize)) || negb (bf.(HashCount) =? other.(HashCount))
  then Ret (bf, Some ErrShapeMismatch)
  else Merge_loop bf other (Z.to_nat bf.(bfSize)) 0.

Definition BloomFilter_MemoryUsage (bf : BloomFilter) : Z := bf.(bfSize) / 8.

(** ** Well-formed filters and probe positions *)

Record Bloom_wf (bf : BloomFilter) : Prop := {
  bf_bits : BitSet_wf bf.(Bitset);
  bf_size : bf.(Bitset).(Size) = bf.(bfSize);
  bf_pos : 0 < bf.(bfSize);
  bf_hashes : 1 <= bf.(HashCount) <= Z.of_nat (length primeSeeds)
}.

(** The bit that round [i] of [Add] and of [Exists] looks at. *)
Definition probe (size : Z) (key : string) (i : nat) : Z :=
  MurmurHash64 (bytes_of_string key) (primeSeeds !!! i) mod size.

(** The abstract filter: the set of positions whose bit is on. *)
Definition bf_bit (bf : BloomFilter) (p : Z) : bool := bit bf.(Bitset) p.

Definition same_shape (bf bf' : BloomFilter) : Prop :=
  bf'.(bfSize) = bf.(bfSize) ∧ bf'.(HashCount) = bf.(HashCount).

(** What may happen to a filter after a key was added: more keys, and merges with
    other well-formed filters. *)
Inductive grows : BloomFilter → BloomFilter → Prop :=
  | grows_add bf key bf' : BloomFilter_Add bf key = Ret bf' → grows bf bf'
  | grows_merge bf other bf' e :
      Bloom_wf other → BloomFilter_Merge bf other = Ret (bf', e) → grows bf bf'.

#[local] Opaque MurmurHash64.

Lemma probe_range size key i : 0 < size → 0 <= probe size key i < size.
Proof. intros. by apply Z.mod_pos_bound. Qed.

Lemma seed_of_round i hc :
  0 <= i < hc → hc <= Z.of_nat (length primeSeeds) →
  slice_get primeSeeds (i mod hc) = Ret (primeSeeds !!! Z.to_nat i).
Proof.
  intros Hi Hhc. rewrite Z.mod_small by done. apply slice_get_Ret; [lia|].
  apply list_lookup_lookup_total_lt. lia.
Qed.

Lemma Hash_probe bf key i :
  0 < bf.(bfSize) →
  BloomFilter_Hash bf key (primeSeeds !!! i) = Ret (probe bf.(bfSize) key i).
Proof.
  intros Hs. unfold BloomFilter_Hash, probe.
  destruct (Z.eqb_spec (bfSize bf) 0); [lia|reflexivity].
Qed.

Lemma NewBloomFilter_wf size hc :
  0 < size <= 2 ^ 64 - 64 → hc <= 111 → Bloom_wf (NewBloomFilter size hc).
Proof.
  intros Hs Hh. unfold NewBloomFilter, MaxUint64, MaxUint8. split; cbn -[length primeSeeds].
  - apply NewBitSet_wf. lia.
  - destruct (Z.ltb_spec 1 size); lia.
  - destruct (Z.ltb_spec 1 size); lia.
  - change (Z.of_nat (length primeSeeds)) with 111. destruct (Z.ltb_spec 1 hc); lia.
Qed.

(** ** [Add] sets every probe *)

Lemma Add_loop_spec bf key n i :
  Bloom_wf bf → 0 <= i → i + Z.of_nat n = bf.(HashCount) →
  ∃ bf', Add_loop bf key n i = Ret bf' ∧ Bloom_wf bf' ∧ same_shape bf bf' ∧
    ∀ q, 0 <= q → bf_bit bf' q =
      bf_bit bf q || existsb (λ j, q =? probe bf.(bfSize) key j) (seq (Z.to_nat i) n).
Proof.
  revert bf i. induction n as [|n IH]; intros bf i Hwf Hi Hn.
  { exists bf. split_and!; try done. intros q _. by rewrite orb_false_r. }
  destruct Hwf as [Hb Hsz Hpos Hh]. cbn [Add_loop].
  rewrite seed_of_round by lia. cbn. rewrite Hash_probe by done. cbn.
  set (p := probe (bfSize bf) key (Z.to_nat i)).
  assert (0 <= p < (Bitset bf).(Size)) as Hp by (rewrite Hsz; by apply probe_range).
  destruct (BitSet_Set_spec (Bitset bf) p Hb Hp) as (bs & -> & Hbs & Hs & Hbit). cbn.
  destruct (IH (with_bits bf bs) (i + 1)) as (bf' & -> & Hwf' & [E1 E2] & Hq).
  { split; cbn; [done|by rewrite Hs|done|done]. }
  { lia. } { cbn. lia. }
  exists bf'. split_and!; try done. intros q Hq0. rewrite Hq by done. unfold bf_bit. cbn.
  rewrite Hbit by done. replace (Z.to_nat (i + 1)) with (S (Z.to_nat i)) by lia.
  cbn. fold p. by destruct (q =? p), (bit (Bitset bf) q).
Qed.

Lemma Add_spec bf key :
  Bloom_wf bf →
  ∃ bf', BloomFilter_Add bf key = Ret bf' ∧ Bloom_wf bf' ∧ same_shape bf bf' ∧
    ∀ q, 0 <= q → bf_bit bf' q =
      bf_bit bf q || existsb (λ j, q =? probe bf.(bfSize) key j) (seq 0 (Z.to_nat bf.(HashCount))).
Proof.
  intros Hwf. pose proof (bf_hashes _ Hwf).
  destruct (Add_loop_spec bf key (Z.to_nat bf.(HashCount)) 0 Hwf) as (bf' & ?); [lia..|]; eauto.
Qed.

(** ** [Exists] tests every probe *)

Lemma Exists_loop_spec bf key n i :
  Bloom_wf bf → 0 <= i → i + Z.of_nat n = bf.(HashCount) →
  Exists_loop bf key n i =
    Ret (forallb (λ j, bf_bit bf (probe bf.(bfSize) key j)) (seq (Z.to_nat i) n)).
Proof.
  intros Hwf. revert i. induction n as [|n IH]; intros i Hi Hn; [done|].
  destruct Hwf as [Hb Hsz Hpos Hh]. cbn [Exists_loop].
  rewrite seed_of_round by lia. cbn. rewrite Hash_probe by done. cbn.
  rewrite IsSet_bit by (rewrite ?Hsz; auto using probe_range). cbn.
  unfold bf_bit at 1. destruct (bit _ _); [|done].
  rewrite IH by lia. by replace (Z.to_nat (i + 1)) with (S (Z.to_nat i)) by lia.
Qed.

Lemma Exists_spec bf key :
  Bloom_wf bf →
  BloomFilter_Exists bf key =
    Ret (forallb (λ j, bf_bit bf (probe bf.(bfSize) key j)) (seq 0 (Z.to_nat bf.(HashCount)))).
Proof.
  intros Hwf. pose proof (bf_hashes _ Hwf). apply Exists_loop_spec; [done|lia..].
Qed.

(** ** [Merge] is the union *)

Lemma Merge_loop_spec bf other n i :
  Bloom_wf bf → Bloom_wf other → bf.(bfSize) = other.(bfSize) →
  0 <= i → i + Z.of_nat n = bf.(bfSize) →
  ∃ bf', Merge_loop bf other n i = Ret (bf', None) ∧ Bloom_wf bf' ∧ same_shape bf bf' ∧
    ∀ q, 0 <= q → bf_bit bf' q = bf_bit bf q || ((i <=? q) && bf_bit other q).
Proof.
  intros Hwf Hwo. revert bf i Hwf.
  induction n as [|n IH]; intros bf i Hwf Hs Hi Hn; cbn [Merge_loop].
  { exists bf. split_and!; try done. intros q Hq.
    destruct (Z.leb_spec i q); [|by rewrite orb_false_r].
    unfold bf_bit at 3. rewrite (wf_tail _ (bf_bits _ Hwo)) by (rewrite (bf_size _ Hwo); lia).
    by rewrite orb_false_r. }
  assert (0 <= i < (Bitset bf).(Size)) as Hib by (rewrite (bf_size _ Hwf); lia).
  rewrite (IsSet_bit (Bitset other)); [|apply Hwo|rewrite (bf_size _ Hwo); lia]. cbn.
  assert (∀ q, (i <=? q) && bf_bit other q =
               ((q =? i) && bf_bit other i) || ((i + 1 <=? q) && bf_bit other q)) as Hsplit.
  { intros q. destruct (Z.leb_spec i q), (Z.eqb_spec q i), (Z.leb_spec (i + 1) q); subst; try lia;
      cbn; by rewrite ?orb_false_r. }
  fold (bf_bit other i). destruct (bf_bit other i) eqn:Eo; cbn.
  - destruct (BitSet_Set_spec (Bitset bf) i) as (bs & -> & Hbs & Hsz & Hbit);
      [apply Hwf|done|]. cbn.
    destruct (IH (with_bits bf bs) (i + 1)) as (bf' & -> & Hwf' & [E1 E2] & Hq).
    { destruct Hwf. split; cbn; [done|congruence|done|done]. }
    { done. } { lia. } { cbn. lia. }
    exists bf'. split_and!; try done. intros q Hq0. rewrite Hq, Hsplit by done.
    unfold bf_bit at 1. cbn. rewrite Hbit by done. fold (bf_bit bf q).
    by destruct (q =? i), (bf_bit bf q).
  - destruct (IH bf (i + 1)) as (bf' & -> & Hwf' & Hsh & Hq); [done|done|lia|lia|].
    exists bf'. split_and!; try done. intros q Hq0. rewrite Hq, Hsplit by done.
    by rewrite andb_false_r.
Qed.

Lemma Merge_spec bf other :
  Bloom_wf bf → Bloom_wf other → same_shape bf other →
  ∃ bf', BloomFilter_Merge bf other = Ret (bf', None) ∧ Bloom_wf bf' ∧ same_shape bf bf' ∧
    ∀ q, 0 <= q → bf_bit bf' q = bf_bit bf q || bf_bit other q.
Proof.
  intros Hwf Hwo [E1 E2]. unfold BloomFilter_Merge. rewrite E1, E2, !Z.eqb_refl. cbn.
  pose proof (bf_pos _ Hwf).
  destruct (Merge_loop_spec bf other (Z.to_nat (bfSize bf)) 0) as (bf' & ? & ? & ? & Hq);
    [done|done|done|lia|lia|].
  exists bf'. split_and!; try done. intros q Hq0. rewrite Hq by done.
  by rewrite (proj2 (Z.leb_le 0 q)).
Qed.

Lemma Merge_mismatch bf other :
  ¬ same_shape bf other → BloomFilter_Merge bf other = Ret (bf, Some ErrShapeMismatch).
Proof.
  intros Hne. unfold BloomFilter_Merge, same_shape in *.
  destruct (Z.eqb_spec (bfSize bf) (bfSize other)), (Z.eqb_spec (HashCount bf) (HashCount other));
    try done. exfalso. apply Hne. done.
Qed.

(** ** Growth never clears a bit *)

Lemma grows_mono bf bf' :
  Bloom_wf bf → grows bf bf' →
  Bloom_wf bf' ∧ same_shape bf bf' ∧ ∀ q, 0 <= q → bf_bit bf q = true → bf_bit bf' q = true.
Proof.
  intros Hwf Hg. revert Hwf. destruct Hg as [bf0 key bf1 Ha | bf0 other bf1 e Hwo Hm]; intros Hwf.
  - destruct (Add_spec bf0 key Hwf) as (bf2 & Ha' & ? & ? & Hq). rewrite Ha in Ha'. simplify_eq.
    split_and!; try done. intros q Hq0 Hb. by rewrite Hq, Hb.
  - destruct (decide (bfSize other = bfSize bf0 ∧ HashCount other = HashCount bf0)) as [Hs|Hs].
    + destruct (Merge_spec bf0 other Hwf Hwo Hs) as (bf2 & Hm' & ? & ? & Hq).
      rewrite Hm in Hm'. simplify_eq. split_and!; try done.
      intros q Hq0 Hb. by rewrite Hq, Hb.
    + rewrite Merge_mismatch in Hm by done. by simplify_eq.
Qed.

Lemma grows_star_mono bf bf' :
  rtc grows bf bf' → Bloom_wf bf →
  Bloom_wf bf' ∧ same_shape bf bf' ∧ ∀ q, 0 <= q → bf_bit bf q = true → bf_bit bf' q = true.
Proof.
  induction 1 as [bf|bf1 bf2 bf3 Hg _ IH]; intros Hwf; [done|].
  destruct (grows_mono _ _ Hwf Hg) as (Hwf2 & [? ?] & Hm).
  destruct (IH Hwf2) as (? & [? ?] & ?). split_and!; try done.
  - split; congruence.
  - auto.
Qed.

(** ** Properties *)

(** (C9) No false negatives: on a well-formed filter [Add] returns without
    panicking, and after it [Exists] reports the key as present, whatever keys are
    added and whatever filters are merged in afterwards. *)
Theorem BloomFilter_no_false_negatives bf key :
  Bloom_wf bf →
  ∃ bf1, BloomFilter_Add bf key = Ret bf1 ∧
    ∀ bf2, rtc grows bf1 bf2 → BloomFilter_Exists bf2 key = Ret true.
Proof.
  intros Hwf. destruct (Add_spec bf key Hwf) as (bf1 & Ha & Hwf1 & [E1 E2] & Hq).
  exists bf1. split; [done|]. intros bf2 Hg.
  destruct (grows_star_mono _ _ Hg Hwf1) as (Hwf2 & [E3 E4] & Hm).
  rewrite Exists_spec by done. f_equal. apply forallb_forall. intros j Hj.
  assert (0 <= probe (bfSize bf2) key j) by (apply probe_range; apply Hwf2).
  apply Hm; [done|]. rewrite Hq by done. apply orb_true_intro. right.
  apply existsb_exists. exists j. rewrite E3, E1, Z.eqb_refl.
  split; [|done]. by rewrite E4, E2 in Hj.
Qed.

Lemma BloomFilter_no_false_negatives_witness :
  ∃ bf1 bf2, BloomFilter_Add (NewBloomFilter 64 3) "alpha" = Ret bf1 ∧
    BloomFilter_Add bf1 "beta" = Ret bf2 ∧ BloomFilter_Exists bf2 "alpha" = Ret true.
Proof.
  assert (Bloom_wf (NewBloomFilter 64 3)) as Hwf by (apply NewBloomFilter_wf; lia).
  destruct (BloomFilter_no_false_negatives (NewBloomFilter 64 3) "alpha" Hwf) as (bf1 & H1 & Hg).
  assert (Bloom_wf bf1) as Hwf1.
  { apply (grows_mono (NewBloomFilter 64 3)); [exact Hwf|]. econstructor. exact H1. }
  destruct (Add_spec bf1 "beta" Hwf1) as (bf2 & H2 & _).
  exists bf1, bf2. split; [exact H1|]. split; [exact H2|].
  apply Hg. apply rtc_once. econstructor. exact H2.
Defined.

(** [Merge] of two well-formed filters of the same size and hash count
    succeeds and yields exactly the union of their bits, so every key either filter
    reports is reported afterwards; filters of different shapes are rejected and the
    receiver is unchanged. *)
Theorem BloomFilter_Merge_union bf other :
  Bloom_wf bf → Bloom_wf other →
  (same_shape bf other →
   ∃ bf', BloomFilter_Merge bf other = Ret (bf', None) ∧ Bloom_wf bf' ∧
     (∀ q, 0 <= q → bf_bit bf' q = bf_bit bf q || bf_bit other q) ∧
     (∀ key, BloomFilter_Exists bf key = Ret true ∨ BloomFilter_Exists other key = Ret true →
             BloomFilter_Exists bf' key = Ret true)) ∧
  (¬ same_shape bf other → BloomFilter_Merge bf other = Ret (bf, Some ErrShapeMismatch)).
Proof.
  intros Hwf Hwo. split; [|apply Merge_mismatch]. intros Hs.
  destruct (Merge_spec bf other Hwf Hwo Hs) as (bf' & ? & Hwf' & [E1 E2] & Hq).
  destruct Hs as [E3 E4]. exists bf'. split_and!; try done.
  intros key Hor. rewrite !Exists_spec in * by done. f_equal.
  apply forallb_forall. intros j Hj.
  assert (0 <= probe (bfSize bf') key j) by (apply probe_range; apply Hwf').
  rewrite Hq by done. apply orb_true_iff.
  rewrite E2 in Hj. rewrite E1. destruct Hor as [[= Ho]|[= Ho]]; [left|right].
  - by apply (proj1 (forallb_forall _ _) Ho).
  - rewrite <-E3. apply (proj1 (forallb_forall _ _) Ho). by rewrite E4.
Qed.

Lemma BloomFilter_Merge_union_witness :
  ∃ bf', BloomFilter_Merge (NewBloomFilter 64 3) (NewBloomFilter 64 3) = Ret (bf', None) ∧
    BloomFilter_Merge (NewBloomFilter 64 3) (NewBloomFilter 64 4) =
      Ret (NewBloomFilter 64 3, Some ErrShapeMismatch).
Proof.
  assert (∀ h, h <= 111 → Bloom_wf (NewBloomFilter 64 h)) as Hwf
    by (intros; apply NewBloomFilter_wf; lia).
  destruct (proj1 (BloomFilter_Merge_union (NewBloomFilter 64 3) (NewBloomFilter 64 3)
              (Hwf 3 ltac:(lia)) (Hwf 3 ltac:(lia))) ltac:(split; reflexivity)) as (bf' & H & _).
  exists bf'. split; [exact H|].
  apply (proj2 (BloomFilter_Merge_union (NewBloomFilter 64 3) (NewBloomFilter 64 4)
              (Hwf 3 ltac:(lia)) (Hwf 4 ltac:(lia)))).
  intros [_ H4]. discriminate H4.
Defined.

(** With an empty bit set the first round of [Add] fails and drops the key, and
    the first round of [Exists] fails and denies it. *)
Lemma empty_bitset_round bf key n i :
  0 < bf.(bfSize) → 0 <= i < bf.(HashCount) →
  bf.(HashCount) <= Z.of_nat (length primeSeeds) → (Bitset bf).(Size) = 0 →
  Add_loop bf key (S n) i = Ret bf ∧ Exists_loop bf key (S n) i = Ret false.
Proof.
  intros Hs Hi Hh H0. cbn [Add_loop Exists_loop].
  rewrite seed_of_round by done. cbn. rewrite Hash_probe by done. cbn.
  unfold BitSet_Set, BitSet_write, BitSet_IsSet.
  rewrite H0, (proj2 (Z.leb_le 0 _)) by (by apply probe_range). done.
Qed.

Lemma NewBloomFilter_zero_forgets hc key :
  1 <= hc <= 111 →
  BloomFilter_Add (NewBloomFilter 0 hc) key = Ret (NewBloomFilter 0 hc) ∧
  BloomFilter_Exists (NewBloomFilter 0 hc) key = Ret false.
Proof.
  intros Hh. unfold BloomFilter_Add, BloomFilter_Exists.
  assert (HashCount (NewBloomFilter 0 hc) = hc) as E
    by (cbn; unfold MaxUint8; destruct (Z.ltb_spec 1 hc); lia).
  rewrite E. replace (Z.to_nat hc) with (S (Z.to_nat hc - 1)) by lia.
  apply empty_bitset_round; rewrite ?E; [done|lia|exact (proj2 Hh)|done].
Qed.

(** Past the 111th round the seed table is exhausted. *)
Lemma Add_loop_exhausted bf key n i :
  BitSet_wf bf.(Bitset) → bf.(Bitset).(Size) = bf.(bfSize) → 0 < bf.(bfSize) →
  0 <= i <= 111 → 111 < bf.(HashCount) → i + Z.of_nat n = bf.(HashCount) →
  Add_loop bf key n i = Panic index_out_of_range.
Proof.
  revert bf i. induction n as [|n IH]; intros bf i Hb Hsz Hpos Hi Hh Hn; [lia|].
  cbn [Add_loop]. rewrite Z.mod_small by lia.
  destruct (decide (i = 111)) as [->|]; [done|].
  rewrite (slice_get_Ret _ _ (primeSeeds !!! Z.to_nat i)); [|lia|].
  2:{ apply list_lookup_lookup_total_lt. change (length primeSeeds) with 111%nat. lia. }
  cbn -[primeSeeds]. rewrite Hash_probe by done. cbn -[primeSeeds].
  set (p := probe (bfSize bf) key (Z.to_nat i)).
  assert (0 <= p < (Bitset bf).(Size)) as Hp by (rewrite Hsz; by apply probe_range).
  destruct (BitSet_Set_spec (Bitset bf) p Hb Hp) as (bs & -> & Hbs & Hs & _). cbn.
  apply IH; cbn; try done; lia || congruence.
Qed.

(** The constructor accepts sizes and hash counts on which the filter does
    not work: with size 0 it has one nominal slot and an empty bit set, so [Add]
    drops the key silently and [Exists] denies it; with a hash count above the
    length of the prime table (111) [Add] runs off the end of the table and
    panics. *)
Theorem NewBloomFilter_unusable_arguments hc key :
  (1 <= hc <= 111 →
     BloomFilter_Add (NewBloomFilter 0 hc) key = Ret (NewBloomFilter 0 hc) ∧
     BloomFilter_Exists (NewBloomFilter 0 hc) key = Ret false) ∧
  (111 < hc → ∀ size, 0 < size <= 2 ^ 64 - 64 →
     BloomFilter_Add (NewBloomFilter size hc) key = Panic index_out_of_range).
Proof.
  split; [apply NewBloomFilter_zero_forgets|]. intros Hh size Hs.
  destruct (NewBloomFilter_wf size 1) as [Hb Hsz Hp _]; [lia..|].
  apply Add_loop_exhausted; [exact Hb|exact Hsz|exact Hp|lia|..].
  all: cbn; unfold MaxUint8; destruct (Z.ltb_spec 1 hc); lia.
Qed.

Lemma NewBloomFilter_unusable_arguments_witness :
  BloomFilter_Exists (NewBloomFilter 0 4) "key" = Ret false ∧
  BloomFilter_Add (NewBloomFilter 64 200) "key" = Panic index_out_of_range.
Proof.
  split.
  - apply (proj1 (NewBloomFilter_unusable_arguments 4 "key")). lia.
  - apply (proj2 (NewBloomFilter_unusable_arguments 200 "key")); lia.
Defined.
