(* ===== verification/Sketch.v ===== *)
(** * The Count-Min Sketch ([src/utils/stdlib/sketch.go])

    A depth-by-width matrix of saturating 32-bit counters addressed by one salted
    hash per row, with periodic halving. Row and cell accesses are slice accesses
    that could panic. The theorems show that the masked fast path of [index] is
    reduction modulo the width, and that through any sequence of increments,
    agings and resets the estimate lies between the exact decayed count of the
    key and the number of increments since the last reset. *)

From Stdlib Require Import ZArith Lia.
From S2P Require Import Prelude BitSet.
Local Open Scope Z_scope.

Definition minimumCountMinSketchWidth : Z := 16.
Definition maximumCountMinSketchDepth : Z := 8.

Record CountMinSketch := mkCMS {
  depth : Z;
  width : Z;
  mask : Z;
  rows : list (list Z);
  salt : list Z;
  n : Z;
  agingEvery : Z
}.

Definition with_rows (c : CountMinSketch) (rs : list (list Z)) : CountMinSketch :=
  mkCMS c.(depth) c.(width) c.(mask) rs c.(salt) c.(n) c.(agingEvery).

Definition with_n (c : CountMinSketch) (k : Z) : CountMinSketch :=
  mkCMS c.(depth) c.(width) c.(mask) c.(rows) c.(salt) k c.(agingEvery).

Inductive sketch_error := ErrDepth | ErrWidth.

(** ** Hashes *)

(** [Hash64String] and [Hash64Bytes] have the same loop body. *)
Definition fnv_step (h b : Z) : Z := u64 (Z.lxor h b * 1099511628211).

Definition Hash64Bytes (b : list Z) : Z := foldl fnv_step 1469598103934665603 b.

Definition Hash64String (s : string) : Z :=
  foldl fnv_step 1469598103934665603 (bytes_of_string s).

Definition mix64 (z : Z) : Z :=
  let z := u64 (Z.lxor z (Z.shiftr z 30) * 0xbf58476d1ce4e5b9) in
  let z := u64 (Z.lxor z (Z.shiftr z 27) * 0x94d049bb133111eb) in
  Z.lxor z (Z.shiftr z 31).

Definition deriveSalts : list Z := [
  0x9e3779b97f4a7c15; 0xc2b2ae3d27d4eb4f; 0x165667b19e3779f9; 0x85ebca77c2b2ae63;
  0x27d4eb2f165667c5; 0x94d049bb133111eb; 0xbf58476d1ce4e5b9; 0x2545f4914f6cdd1d].

(** ** Operations *)

Definition NewCountMinSketch (dep wid aging : Z) : result sketch_error CountMinSketch :=
  if (dep <=? 0) || (maximumCountMinSketchDepth <? dep) then Err ErrDepth
  else if wid <? minimumCountMinSketchWidth then Err ErrWidth
  else
    let rs := replicate (Z.to_nat dep) (replicate (Z.to_nat wid) 0) in
    Ok {| depth := dep; width := wid;
          mask := if negb (Z.land wid (u64 (wid - 1)) =? 0) then 0 else u64 (wid - 1);
          rows := rs; salt := deriveSalts; n := 0; agingEvery := aging |}.

Definition index (c : CountMinSketch) (r h : Z) : outcome Z :=
  s ← slice_get c.(salt) r;
  let h2 := mix64 (Z.lxor h s) in
  if negb (c.(mask) =? 0) then Ret (Z.land h2 c.(mask))
  else if c.(width) =? 0 then Panic "runtime error: integer divide by zero"
  else Ret (h2 mod c.(width)).

(** [k] rounds of the row loop of [Increment] from row [r] on. *)
Fixpoint Increment_loop (c : CountMinSketch) (h : Z) (k : nat) (r : Z) : outcome CountMinSketch :=
  match k with
  | O => Ret c
  | S k =>
      idx ← index c r h;
      row ← slice_get c.(rows) r;
      v ← slice_get row idx;
      if negb (v =? maxUint32) then
        row' ← slice_set row idx (u32 (v + 1));
        rs ← slice_set c.(rows) r row';
        Increment_loop (with_rows c rs) h k (r + 1)
      else Increment_loop c h k (r + 1)
  end.

(** [row[i] >>= 1] for [k] cells from [i] on. *)
Fixpoint Age_row (k : nat) (i : Z) (row : list Z) : outcome (list Z) :=
  match k with
  | O => Ret row
  | S k =>
      v ← slice_get row i;
      row ← slice_set row i (Z.shiftr v 1);
      Age_row k (i + 1) row
  end.

Fixpoint Age_loop (c : CountMinSketch) (k : nat) (r : Z) : outcome CountMinSketch :=
  match k with
  | O => Ret c
  | S k =>
      row ← slice_get c.(rows) r;
      row ← Age_row (Z.to_nat c.(width)) 0 row;
      rs ← slice_set c.(rows) r row;
      Age_loop (with_rows c rs) k (r + 1)
  end.

Definition CountMinSketch_Age (c : CountMinSketch) : outcome CountMinSketch :=
  Age_loop c (Z.to_nat c.(depth)) 0.

Definition CountMinSketch_Increment (c : CountMinSketch) (h : Z) : outcome CountMinSketch :=
  c ← Increment_loop c h (Z.to_nat c.(depth)) 0;
  let c := with_n c (u64 (c.(n) + 1)) in
  if negb (c.(agingEvery) =? 0) && (c.(n) mod c.(agingEvery) =? 0)
  then CountMinSketch_Age c else Ret c.

Fixpoint Estimate_loop (c : CountMinSketch) (h : Z) (k : nat) (r min : Z) : outcome Z :=
  match k with
  | O => Ret min
  | S k =>
      idx ← index c r h;
      row ← slice_get c.(rows) r;
      v ← slice_get row idx;
      Estimate_loop c h k (r + 1) (if v <? min then v else min)
  end.

Definition CountMinSketch_Estimate (c : CountMinSketch) (h : Z) : outcome Z :=
  Estimate_loop c h (Z.to_nat c.(depth)) 0 maxUint32.

Fixpoint Reset_loop (c : CountMinSketch) (k : nat) (r : Z) : outcome CountMinSketch :=
  match k with
  | O => Ret c
  | S k =>
      row ← slice_get c.(rows) r;
      rs ← slice_set c.(rows) r (replicate (length row) 0);
      Reset_loop (with_rows c rs) k (r + 1)
  end.

Definition CountMinSketch_Reset (c : CountMinSketch) : outcome CountMinSketch :=
  c ← Reset_loop c (Z.to_nat c.(depth)) 0;
  Ret (with_n c 0).

(** ** Well-formed sketches *)

Definition shape_ok (c : CountMinSketch) : Prop :=
  1 <= c.(depth) <= 8 ∧ 16 <= c.(width) < 2 ^ 64 ∧ length c.(salt) = 8%nat ∧
  c.(mask) = (if negb (Z.land c.(width) (u64 (c.(width) - 1)) =? 0) then 0 else u64 (c.(width) - 1)).

Definition row_ok (c : CountMinSketch) (row : list Z) : Prop :=
  Z.of_nat (length row) = c.(width) ∧ Forall is_u32 row.

Record CMS_wf (c : CountMinSketch) : Prop := {
  cms_shape : shape_ok c;
  cms_depth : Z.of_nat (length c.(rows)) = c.(depth);
  cms_rows : Forall (row_ok c) c.(rows)
}.

(** The bucket of a hash in row [r], without the fast path. *)
Definition bucket (c : CountMinSketch) (r : nat) (h : Z) : nat :=
  Z.to_nat (mix64 (Z.lxor h (c.(salt) !!! r)) mod c.(width)).

(** The counter that row [r] keeps for hash [h]. *)
Definition cell (c : CountMinSketch) (h : Z) (r : nat) : Z :=
  (c.(rows) !!! r) !!! bucket c r h.

(** ** Powers of two *)

Lemma one_bit_pow2 p : pos_ones p = 1%nat → Zpos p = 2 ^ Z.log2 (Zpos p).
Proof.
  assert (∀ q, pos_ones q ≠ 0%nat) as Hnz by (intros q; induction q; cbn; lia).
  induction p as [p _|p IH|]; intros Hp; [|specialize (IH Hp)|done].
  - cbn in Hp. specialize (Hnz p). lia.
  - rewrite (Pos2Z.inj_xO p), Z.log2_double, Z.pow_succ_r; [congruence| |lia].
    apply Z.log2_nonneg.
Qed.

(** [w & (w - 1) == 0] characterizes the powers of two. *)
Lemma land_pred_zero w : 0 < w → Z.land w (w - 1) = 0 → w = 2 ^ Z.log2 w.
Proof.
  intros Hw H0. pose proof (ones_clear_lowest w Hw) as Ho. rewrite H0 in Ho.
  destruct w as [|p|]; [lia| |lia]. apply one_bit_pow2. symmetry. exact Ho.
Qed.

Lemma mix64_nonneg z : 0 <= mix64 z.
Proof.
  unfold mix64. apply Z.lxor_nonneg. rewrite Z.shiftr_nonneg. done.
Qed.

Lemma index_modulo c r h :
  shape_ok c → 0 <= r < c.(depth) → index c r h = Ret (Z.of_nat (bucket c (Z.to_nat r) h)).
Proof.
  intros (Hd & Hw & Hs & Hm) Hr. unfold index, bucket.
  rewrite (slice_get_Ret _ _ (salt c !!! Z.to_nat r)); [|lia|].
  2:{ apply list_lookup_lookup_total_lt. lia. }
  cbn. generalize (mix64 (Z.lxor h (salt c !!! Z.to_nat r))). intros z.
  pose proof (Z.mod_pos_bound z (width c)).
  rewrite Z2Nat.id by lia.
  rewrite u64_id in Hm by in_range. destruct (Z.eqb_spec (Z.land (width c) (width c - 1)) 0) as [E|E].
  - rewrite Hm. cbn. rewrite (proj2 (Z.eqb_neq _ _)) by lia. cbn. f_equal.
    pose proof (land_pred_zero (width c) ltac:(lia) E) as Hp. rewrite Hp.
    apply land_mask, Z.log2_nonneg.
  - rewrite Hm. cbn. by rewrite (proj2 (Z.eqb_neq _ _)) by lia.
Qed.

(** ** The row loops are row-wise maps *)

Definition from_row {A} (r : nat) (F : nat → A → A) (j : nat) (row : A) : A :=
  if bool_decide (r <= j)%nat then F j row else row.

Lemma imap_from_step {A} (F : nat → A → A) (rs : list A) r row :
  rs !! r = Some row →
  imap (from_row (S r) F) (<[r := F r row]> rs) = imap (from_row r F) rs.
Proof.
  intros Hr. apply list_eq. intros j. rewrite !list_lookup_imap. unfold from_row.
  destruct (decide (j = r)) as [->|Hne].
  - rewrite list_lookup_insert_eq, Hr by (by eapply lookup_lt_Some). cbn.
    rewrite bool_decide_false, bool_decide_true by lia. done.
  - rewrite list_lookup_insert_ne by done. destruct (rs !! j); cbn; [|done].
    f_equal. repeat case_bool_decide; done || lia.
Qed.

Lemma imap_from_end {A} (F : nat → A → A) (rs : list A) r :
  (length rs <= r)%nat → imap (from_row r F) rs = rs.
Proof.
  intros Hr. apply list_eq. intros j. rewrite list_lookup_imap.
  destruct (rs !! j) eqn:E; cbn; [|done]. f_equal. unfold from_row.
  apply lookup_lt_Some in E. rewrite bool_decide_false by lia. done.
Qed.

Lemma imap_from_0 {A} (F : nat → A → A) (rs : list A) : imap (from_row 0 F) rs = imap F rs.
Proof. apply imap_ext. intros j row _. unfold from_row. by rewrite bool_decide_true by lia. Qed.

(** A saturating increment of one counter, and of one row. *)
Definition sat_inc (v : Z) : Z := if v =? maxUint32 then v else v + 1.

Definition bump (c : CountMinSketch) (h : Z) (r : nat) (row : list Z) : list Z :=
  <[bucket c r h := sat_inc (row !!! bucket c r h)]> row.

Lemma bucket_lt c r h : shape_ok c → Z.of_nat (bucket c r h) < c.(width).
Proof.
  intros (_ & Hw & _). unfold bucket.
  pose proof (Z.mod_pos_bound (mix64 (Z.lxor h (salt c !!! r))) (width c)). lia.
Qed.

Lemma row_cell c row i :
  row_ok c row → (Z.of_nat i < c.(width)) → ∃ v, row !! i = Some v ∧ is_u32 v.
Proof.
  intros [Hl Hv] Hi. destruct (lookup_lt_is_Some_2 row i) as [v Hrv]; [lia|].
  exists v. split; [done|]. by eapply (Forall_lookup_1 is_u32).
Qed.

Lemma sat_inc_range v : is_u32 v → is_u32 (sat_inc v) ∧ v <= sat_inc v <= v + 1.
Proof.
  unfold is_u32, sat_inc, maxUint32. intros Hv. destruct (Z.eqb_spec v (2 ^ 32 - 1)); lia.
Qed.

Lemma bump_ok c h r row : shape_ok c → row_ok c row → row_ok c (bump c h r row).
Proof.
  intros Hsh Hrow. pose proof (bucket_lt c r h Hsh) as Hb.
  destruct (row_cell c row _ Hrow Hb) as (v & Hv & Hvr). destruct Hrow as [Hl Hf].
  unfold bump. rewrite (list_lookup_total_correct _ _ _ Hv). split.
  - by rewrite length_insert.
  - apply Forall_insert; [done|]. by apply sat_inc_range.
Qed.

(** Any row-wise map that keeps rows well-formed keeps the sketch well-formed. *)
Lemma with_rows_wf c F :
  CMS_wf c → (∀ r row, row_ok c row → row_ok c (F r row)) → CMS_wf (with_rows c (imap F c.(rows))).
Proof.
  intros [Hs Hd Hr] HF. split; [done|cbn; by rewrite length_imap|].
  cbn. apply Forall_lookup_2. intros j row. rewrite list_lookup_imap.
  destruct (rows c !! j) as [row0|] eqn:E; intros [= <-]. apply HF.
  by eapply (Forall_lookup_1 (row_ok c)).
Qed.

Lemma from_row_ok c F r j row :
  (∀ j row, row_ok c row → row_ok c (F j row)) → row_ok c row → row_ok c (from_row r F j row).
Proof. intros HF Hrow. unfold from_row. case_bool_decide; auto. Qed.

Lemma lookup_row c r :
  CMS_wf c → 0 <= r < c.(depth) → ∃ row, c.(rows) !! Z.to_nat r = Some row ∧ row_ok c row.
Proof.
  intros [_ Hd Hr] Hb. destruct (lookup_lt_is_Some_2 (rows c) (Z.to_nat r)) as [row E]; [lia|].
  exists row. split; [done|]. by eapply (Forall_lookup_1 (row_ok c)).
Qed.

(** Writing row [r] keeps the sketch well-formed. *)
Lemma insert_row_wf c r row :
  CMS_wf c → row_ok c row → CMS_wf (with_rows c (<[r := row]> c.(rows))).
Proof.
  intros [Hs Hd Hr] Hrow. split; [done|cbn; by rewrite length_insert|].
  cbn. by apply Forall_insert.
Qed.

Lemma Increment_loop_spec c h k r :
  CMS_wf c → 0 <= r → r + Z.of_nat k = c.(depth) →
  Increment_loop c h k r = Ret (with_rows c (imap (from_row (Z.to_nat r) (bump c h)) c.(rows))).
Proof.
  revert c r. induction k as [|k IH]; intros c r Hwf Hr Hk.
  { cbn. rewrite imap_from_end by (pose proof (cms_depth _ Hwf); lia). by destruct c. }
  pose proof (cms_shape _ Hwf) as Hsh.
  destruct (lookup_row c r Hwf) as (row & Hrow & Hok); [lia|].
  pose proof (bucket_lt c (Z.to_nat r) h Hsh) as Hb.
  destruct (row_cell c row _ Hok Hb) as (v & Hv & Hvr).
  cbn [Increment_loop]. rewrite index_modulo by (done || lia). cbn.
  rewrite (slice_get_Ret _ _ row) by (done || lia). cbn.
  rewrite (slice_get_Ret _ _ v) by (rewrite ?Nat2Z.id; done || lia). cbn.
  assert (bump c h (Z.to_nat r) row = <[bucket c (Z.to_nat r) h := sat_inc v]> row) as Hbump
    by (unfold bump; by rewrite (list_lookup_total_correct _ _ _ Hv)).
  rewrite <-(imap_from_step (bump c h) (rows c) (Z.to_nat r) row Hrow), Hbump.
  pose proof (lookup_lt_Some _ _ _ Hv) as Hvl. pose proof (lookup_lt_Some _ _ _ Hrow) as Hrl.
  unfold sat_inc. destruct (Z.eqb_spec v maxUint32) as [Emax|Emax]; cbn.
  - rewrite (list_insert_id row) by done. rewrite (list_insert_id (rows c)) by done.
    rewrite IH by (done || lia). by replace (Z.to_nat (r + 1)) with (S (Z.to_nat r)) by lia.
  - rewrite slice_set_Ret by lia. cbn. rewrite slice_set_Ret by lia. cbn.
    rewrite Nat2Z.id, (u32_id (v + 1)) by (unfold is_u32, maxUint32 in *; lia).
    rewrite IH.
    + by replace (Z.to_nat (r + 1)) with (S (Z.to_nat r)) by lia.
    + apply insert_row_wf; [done|]. pose proof (bump_ok c h (Z.to_nat r) row Hsh Hok) as Ho.
      rewrite Hbump in Ho. unfold sat_inc in Ho. by rewrite (proj2 (Z.eqb_neq _ _)) in Ho.
    + lia.
    + cbn. lia.
Qed.

Definition halve (_ : nat) (v : Z) : Z := Z.shiftr v 1.

Lemma Age_row_spec k i row :
  0 <= i → i + Z.of_nat k = Z.of_nat (length row) →
  Age_row k i row = Ret (imap (from_row (Z.to_nat i) halve) row).
Proof.
  revert i row. induction k as [|k IH]; intros i row Hi Hk.
  { cbn. by rewrite imap_from_end by lia. }
  destruct (lookup_lt_is_Some_2 row (Z.to_nat i)) as [v Hv]; [lia|].
  cbn [Age_row]. rewrite (slice_get_Ret _ _ v) by done. cbn.
  rewrite slice_set_Ret by lia. cbn. rewrite IH by (rewrite ?length_insert; lia).
  replace (Z.to_nat (i + 1)) with (S (Z.to_nat i)) by lia.
  by rewrite <-(imap_from_step halve row (Z.to_nat i) v Hv).
Qed.

Definition age_row (_ : nat) (row : list Z) : list Z := imap halve row.
Definition zero_row (_ : nat) (row : list Z) : list Z := replicate (length row) 0.

Lemma age_row_ok c r row : row_ok c row → row_ok c (age_row r row).
Proof.
  intros [Hl Hf]. split; [unfold age_row; by rewrite length_imap|].
  apply Forall_lookup_2. intros j v. unfold age_row. rewrite list_lookup_imap.
  destruct (row !! j) as [w|] eqn:E; intros [= <-].
  apply shiftr_u; [lia..|]. by eapply (Forall_lookup_1 is_u32).
Qed.

Lemma zero_row_ok c r row : row_ok c row → row_ok c (zero_row r row).
Proof.
  intros [Hl Hf]. split; [unfold zero_row; by rewrite length_replicate|].
  apply Forall_replicate. in_range.
Qed.

Lemma Age_loop_spec c k r :
  CMS_wf c → 0 <= r → r + Z.of_nat k = c.(depth) →
  Age_loop c k r = Ret (with_rows c (imap (from_row (Z.to_nat r) age_row) c.(rows))).
Proof.
  revert c r. induction k as [|k IH]; intros c r Hwf Hr Hk.
  { cbn. rewrite imap_from_end by (pose proof (cms_depth _ Hwf); lia). by destruct c. }
  destruct (lookup_row c r Hwf) as (row & Hrow & Hok); [lia|].
  pose proof (lookup_lt_Some _ _ _ Hrow) as Hrl.
  cbn [Age_loop]. rewrite (slice_get_Ret _ _ row) by done. cbn.
  rewrite Age_row_spec by (destruct Hok, (cms_shape _ Hwf); lia). cbn.
  change (Z.to_nat 0) with 0%nat. rewrite imap_from_0, slice_set_Ret by lia. cbn.
  rewrite IH; [|by apply insert_row_wf, (age_row_ok c 0)|lia|cbn; lia].
  replace (Z.to_nat (r + 1)) with (S (Z.to_nat r)) by lia.
  by rewrite <-(imap_from_step age_row (rows c) (Z.to_nat r) row Hrow).
Qed.

Lemma Reset_loop_spec c k r :
  CMS_wf c → 0 <= r → r + Z.of_nat k = c.(depth) →
  Reset_loop c k r = Ret (with_rows c (imap (from_row (Z.to_nat r) zero_row) c.(rows))).
Proof.
  revert c r. induction k as [|k IH]; intros c r Hwf Hr Hk.
  { cbn. rewrite imap_from_end by (pose proof (cms_depth _ Hwf); lia). by destruct c. }
  destruct (lookup_row c r Hwf) as (row & Hrow & Hok); [lia|].
  pose proof (lookup_lt_Some _ _ _ Hrow) as Hrl.
  cbn [Reset_loop]. rewrite (slice_get_Ret _ _ row) by done. cbn.
  rewrite slice_set_Ret by lia. cbn.
  rewrite IH; [|by apply insert_row_wf, (zero_row_ok c 0)|lia|cbn; lia].
  replace (Z.to_nat (r + 1)) with (S (Z.to_nat r)) by lia.
  by rewrite <-(imap_from_step zero_row (rows c) (Z.to_nat r) row Hrow).
Qed.

Section whole_loops.
Context (c : CountMinSketch) (Hwf : CMS_wf c).

Lemma depth_nat : 0 + Z.of_nat (Z.to_nat c.(depth)) = c.(depth).
Proof. destruct (cms_shape _ Hwf). lia. Qed.

Lemma Age_spec :
  CountMinSketch_Age c = Ret (with_rows c (imap age_row c.(rows))).
Proof.
  unfold CountMinSketch_Age. rewrite Age_loop_spec by (done || apply depth_nat).
  change (Z.to_nat 0) with 0%nat. by rewrite imap_from_0.
Qed.

Lemma Reset_spec :
  CountMinSketch_Reset c = Ret (with_n (with_rows c (imap zero_row c.(rows))) 0).
Proof.
  unfold CountMinSketch_Reset. rewrite Reset_loop_spec by (done || apply depth_nat).
  change (Z.to_nat 0) with 0%nat. by rewrite imap_from_0.
Qed.

(** One increment: bump every row, advance the operation counter, and halve
    everything when the counter hits a multiple of the aging interval. *)
Lemma Increment_spec h :
  CountMinSketch_Increment c h =
    let c1 := with_n (with_rows c (imap (bump c h) c.(rows))) (u64 (c.(n) + 1)) in
    Ret (if negb (c.(agingEvery) =? 0) && (c1.(n) mod c.(agingEvery) =? 0)
         then with_rows c1 (imap age_row c1.(rows)) else c1).
Proof.
  unfold CountMinSketch_Increment. rewrite Increment_loop_spec by (done || apply depth_nat).
  change (Z.to_nat 0) with 0%nat. rewrite imap_from_0. cbn.
  destruct (negb (agingEvery c =? 0) && _); [|done].
  unfold CountMinSketch_Age. rewrite Age_loop_spec; cbn.
  - change (Z.to_nat 0) with 0%nat. by rewrite imap_from_0.
  - assert (CMS_wf (with_rows c (imap (bump c h) (rows c)))) as [Hs Hd Hr].
    { apply with_rows_wf; [done|]. intros r row. apply bump_ok, Hwf. }
    by split.
  - lia.
  - apply depth_nat.
Qed.
End whole_loops.

(** ** The estimate is the minimum of the key's counters *)

Definition min_cell (c : CountMinSketch) (h : Z) : Z :=
  foldr (λ r m, Z.min (cell c h r) m) maxUint32 (seq 0 (Z.to_nat c.(depth))).

Lemma foldr_min_acc {A} (f : A → Z) (l : list A) a b :
  foldr (λ r m, Z.min (f r) m) (Z.min a b) l = Z.min a (foldr (λ r m, Z.min (f r) m) b l).
Proof. induction l as [|x l IH]; cbn; [done|]. rewrite IH. lia. Qed.

Lemma Estimate_loop_spec c h k r m :
  CMS_wf c → 0 <= r → r + Z.of_nat k = c.(depth) →
  Estimate_loop c h k r m =
    Ret (foldr (λ r m, Z.min (cell c h r) m) m (seq (Z.to_nat r) k)).
Proof.
  intros Hwf. revert r m. induction k as [|k IH]; intros r m Hr Hk; [done|].
  destruct (lookup_row c r Hwf) as (row & Hrow & Hok); [lia|].
  pose proof (bucket_lt c (Z.to_nat r) h (cms_shape _ Hwf)) as Hb.
  destruct (row_cell c row _ Hok Hb) as (v & Hv & Hvr).
  cbn [Estimate_loop]. rewrite index_modulo by (apply Hwf || lia). cbn.
  rewrite (slice_get_Ret _ _ row) by (done || lia). cbn.
  rewrite (slice_get_Ret _ _ v) by (rewrite ?Nat2Z.id; done || lia). cbn.
  rewrite IH by lia. replace (Z.to_nat (r + 1)) with (S (Z.to_nat r)) by lia.
  assert (cell c h (Z.to_nat r) = v) as ->.
  { unfold cell. by rewrite (list_lookup_total_correct _ _ _ Hrow), (list_lookup_total_correct _ _ _ Hv). }
  rewrite <-foldr_min_acc. do 2 f_equal. destruct (Z.ltb_spec v m); lia.
Qed.

Lemma Estimate_spec c h : CMS_wf c → CountMinSketch_Estimate c h = Ret (min_cell c h).
Proof.
  intros Hwf. unfold CountMinSketch_Estimate.
  rewrite Estimate_loop_spec by (done || by apply depth_nat). done.
Qed.

(** ** The exact decayed count of one key *)

Inductive sketch_op := OpIncrement (h : Z) | OpAge | OpReset.

Definition run_op (c : CountMinSketch) (op : sketch_op) : outcome CountMinSketch :=
  match op with
  | OpIncrement h => CountMinSketch_Increment c h
  | OpAge => CountMinSketch_Age c
  | OpReset => CountMinSketch_Reset c
  end.

Fixpoint run (c : CountMinSketch) (ops : list sketch_op) : outcome CountMinSketch :=
  match ops with
  | [] => Ret c
  | op :: ops => c ← run_op c op; run c ops
  end.

(** The count of key [x] kept exactly: incremented (saturating) only by its own
    observations, halved whenever the sketch ages, together with the operation
    counter and the number of increments since the last reset. *)
Record exact := mkExact { freq : Z; ops_n : Z; total : Z }.

Definition exact_step (x aging : Z) (e : exact) (op : sketch_op) : exact :=
  match op with
  | OpIncrement h =>
      let f := if x =? h then sat_inc e.(freq) else e.(freq) in
      let k := u64 (e.(ops_n) + 1) in
      let f := if negb (aging =? 0) && (k mod aging =? 0) then Z.shiftr f 1 else f in
      mkExact f k (e.(total) + 1)
  | OpAge => mkExact (Z.shiftr e.(freq) 1) e.(ops_n) e.(total)
  | OpReset => mkExact 0 0 0
  end.

Definition exact_run (x aging : Z) : exact → list sketch_op → exact := foldl (exact_step x aging).

(** The simulation relation between the sketch and the exact count of [x]. *)
Record tracks (x aging : Z) (c : CountMinSketch) (e : exact) : Prop := {
  tr_wf : CMS_wf c;
  tr_aging : c.(agingEvery) = aging;
  tr_n : c.(n) = e.(ops_n);
  tr_freq : 0 <= e.(freq) <= maxUint32;
  tr_cells : ∀ r, (r < length c.(rows))%nat → e.(freq) <= cell c x r <= e.(total)
}.

Lemma cell_imap c F k h r row :
  c.(rows) !! r = Some row →
  cell (with_n (with_rows c (imap F c.(rows))) k) h r = F r row !!! bucket c r h.
Proof.
  intros Hr. unfold cell. cbn.
  rewrite (list_lookup_total_correct (imap F (rows c)) r (F r row)); [done|].
  by rewrite list_lookup_imap, Hr.
Qed.

Lemma cell_lookup c h r :
  CMS_wf c → (r < length c.(rows))%nat →
  ∃ row, c.(rows) !! r = Some row ∧ row_ok c row ∧ row !! bucket c r h = Some (cell c h r) ∧
    is_u32 (cell c h r).
Proof.
  intros Hwf Hr. destruct (lookup_row c (Z.of_nat r) Hwf) as (row & E & Hok).
  { pose proof (cms_depth _ Hwf). lia. }
  rewrite Nat2Z.id in E. exists row.
  destruct (row_cell c row (bucket c r h) Hok) as (v & Hv & Hu); [apply bucket_lt, Hwf|].
  assert (cell c h r = v) as ->
    by (unfold cell; by rewrite (list_lookup_total_correct _ _ _ E), (list_lookup_total_correct _ _ _ Hv)).
  done.
Qed.

Lemma age_row_lookup row r i v : row !! i = Some v → age_row r row !!! i = Z.shiftr v 1.
Proof.
  intros Hv. apply list_lookup_total_correct. unfold age_row. by rewrite list_lookup_imap, Hv.
Qed.

(** Incrementing [h] raises the counter of [h] itself, and raises the counter of
    any other key by at most one. *)
Lemma bump_lookup c h x r row v :
  row !! bucket c r x = Some v → is_u32 v →
  (if x =? h then bump c h r row !!! bucket c r x = sat_inc v
   else v <= bump c h r row !!! bucket c r x <= v + 1).
Proof.
  intros Hv Hu. pose proof (sat_inc_range v Hu) as [_ Hsat]. unfold bump.
  destruct (decide (bucket c r h = bucket c r x)) as [E|E].
  - rewrite E, (list_lookup_total_correct _ _ _ Hv).
    rewrite (list_lookup_total_correct _ _ (sat_inc v)).
    + by destruct (x =? h).
    + apply list_lookup_insert_eq. by eapply lookup_lt_Some.
  - rewrite (list_lookup_total_correct _ _ v) by (by rewrite list_lookup_insert_ne).
    destruct (Z.eqb_spec x h); [by subst|lia].
Qed.

Lemma shiftr1_bounds a b t : 0 <= a <= b → b <= t → Z.shiftr a 1 <= Z.shiftr b 1 <= t.
Proof.
  intros Hab Hbt. rewrite !Z.shiftr_div_pow2 by lia. split.
  - apply Z.div_le_mono; lia.
  - apply Z.div_le_upper_bound; lia.
Qed.

Lemma age_tracks x aging c e :
  tracks x aging c e →
  tracks x aging (with_rows c (imap age_row c.(rows))) (exact_step x aging e OpAge).
Proof.
  intros [Hwf Ha Hn Hf Hc]. split; cbn; try done.
  - apply with_rows_wf; [done|]. intros; by apply age_row_ok.
  - pose proof (shiftr1_bounds e.(freq) e.(freq) e.(freq)).
    assert (0 <= Z.shiftr (freq e) 1) by (apply Z.shiftr_nonneg; lia). lia.
  - rewrite length_imap. intros r Hr.
    destruct (cell_lookup c x r Hwf Hr) as (row & E & _ & Hv & Hu).
    pose proof (cell_imap c age_row c.(n) x r row E) as Hcell.
    replace (with_n _ _) with (with_rows c (imap age_row (rows c))) in Hcell by done.
    rewrite Hcell, (age_row_lookup _ _ _ _ Hv). specialize (Hc r Hr). apply shiftr1_bounds; lia.
Qed.

Lemma bump_tracks x aging c e h :
  tracks x aging c e →
  tracks x aging (with_n (with_rows c (imap (bump c h) c.(rows))) (u64 (c.(n) + 1)))
    (mkExact (if x =? h then sat_inc e.(freq) else e.(freq)) (u64 (e.(ops_n) + 1)) (e.(total) + 1)).
Proof.
  intros [Hwf Ha Hn Hf Hc]. split; cbn; try done.
  - assert (CMS_wf (with_rows c (imap (bump c h) (rows c)))) as [Hs Hd Hr].
    { apply with_rows_wf; [done|]. intros r row. apply bump_ok, Hwf. }
    by split.
  - by rewrite Hn.
  - pose proof (sat_inc_range e.(freq)) as Hsat. unfold is_u32, maxUint32 in *.
    destruct (x =? h); lia.
  - rewrite length_imap. intros r Hr.
    destruct (cell_lookup c x r Hwf Hr) as (row & E & _ & Hv & Hu).
    rewrite (cell_imap c (bump c h) _ x r row E). pose proof (bump_lookup c h x r row _ Hv Hu) as Hb.
    specialize (Hc r Hr). destruct (x =? h); [rewrite Hb|lia].
    unfold sat_inc, is_u32, maxUint32 in *. repeat case_match; lia.
Qed.

Lemma step_tracks x aging c e op :
  tracks x aging c e → ∃ c', run_op c op = Ret c' ∧ tracks x aging c' (exact_step x aging e op).
Proof.
  intros Ht. pose proof (tr_wf _ _ _ _ Ht) as Hwf. destruct op as [h| |]; cbn [run_op].
  - rewrite Increment_spec by done. eexists. split; [done|].
    pose proof (bump_tracks x aging c e h Ht) as Hb. cbn.
    rewrite (tr_aging _ _ _ _ Ht), (tr_n _ _ _ _ Ht) in *.
    destruct (negb (aging =? 0) && _); [|done].
    exact (age_tracks _ _ _ _ Hb).
  - rewrite Age_spec by done. eexists. split; [done|]. by apply age_tracks.
  - rewrite Reset_spec by done. eexists. split; [done|].
    destruct Ht as [_ Ha Hn Hf Hc]. split; cbn; try done.
    + assert (CMS_wf (with_rows c (imap zero_row (rows c)))) as [Hs Hd Hr].
      { apply with_rows_wf; [done|]. intros; by apply zero_row_ok. }
      by split.
    + rewrite length_imap. intros r Hr.
      destruct (cell_lookup c x r Hwf Hr) as (row & E & _ & Hv & _).
      rewrite (cell_imap c zero_row 0 x r row E).
      rewrite (list_lookup_total_correct _ _ 0); [lia|]. apply lookup_replicate_2.
      by eapply lookup_lt_Some.
Qed.

Lemma run_tracks x aging c e ops :
  tracks x aging c e → ∃ c', run c ops = Ret c' ∧ tracks x aging c' (exact_run x aging e ops).
Proof.
  revert c e. induction ops as [|op ops IH]; intros c e Ht; [by exists c|].
  destruct (step_tracks x aging c e op Ht) as (c1 & E & Ht1).
  destruct (IH c1 _ Ht1) as (c' & E' & Ht'). exists c'. cbn. by rewrite E.
Qed.

Lemma New_wf d w a c : w < 2 ^ 64 → NewCountMinSketch d w a = Ok c → CMS_wf c.
Proof.
  unfold NewCountMinSketch, maximumCountMinSketchDepth, minimumCountMinSketchWidth.
  intros Hw. destruct (Z.leb_spec d 0), (Z.ltb_spec 8 d), (Z.ltb_spec w 16); try done.
  intros [= <-]. split; cbn.
  - unfold shape_ok. cbn. split_and!; (lia || done).
  - rewrite length_replicate. lia.
  - apply Forall_replicate. split; cbn; [rewrite length_replicate; lia|].
    apply Forall_replicate. in_range.
Qed.

Lemma New_tracks x d w a c :
  w < 2 ^ 64 → NewCountMinSketch d w a = Ok c → tracks x a c (mkExact 0 0 0).
Proof.
  intros Hw Hnew. pose proof (New_wf d w a c Hw Hnew) as Hwf.
  unfold NewCountMinSketch in Hnew. destruct (_ || _); [done|].
  destruct (w <? _); [done|]. injection Hnew as <-.
  split; cbn; try done.
  intros r Hr. rewrite length_replicate in Hr. unfold cell. cbn.
  rewrite lookup_total_replicate_2 by done.
  pose proof (bucket_lt _ r x (cms_shape _ Hwf)) as Hb. cbn in Hb.
  rewrite lookup_total_replicate_2; lia.
Qed.

Lemma min_cell_bounds c x lo hi :
  CMS_wf c → lo <= maxUint32 → (∀ r, (r < length c.(rows))%nat → lo <= cell c x r <= hi) →
  lo <= min_cell c x <= hi.
Proof.
  intros Hwf Hlo Hc. unfold min_cell. destruct (cms_shape _ Hwf) as [Hd _].
  pose proof (cms_depth _ Hwf) as Hlen.
  assert (∀ l, (∀ r, r ∈ l → (r < length c.(rows))%nat) →
    lo <= foldr (λ r m, Z.min (cell c x r) m) maxUint32 l) as Hge.
  { induction l as [|r l IH]; intros Hl; cbn; [done|].
    pose proof (Hc r (Hl r (list_elem_of_here r l))).
    pose proof (IH (λ y Hy, Hl y (list_elem_of_further y r l Hy))). lia. }
  assert (∀ r, r ∈ seq 0 (Z.to_nat (depth c)) → (r < length c.(rows))%nat) as Hseq.
  { intros r Hr%elem_of_seq. lia. }
  split; [by apply Hge|].
  destruct (Z.to_nat (depth c)) as [|k] eqn:E; [lia|]. cbn.
  specialize (Hc 0%nat ltac:(lia)). lia.
Qed.

(** ** Properties *)

(** The masked fast path is sound: on every well-formed sketch, whether or
    not its width is a power of two, [index] returns the mixed, salted hash modulo
    the width, so the bucket is always inside the row. *)
Theorem index_is_modulo c r h :
  CMS_wf c → 0 <= r < c.(depth) →
  index c r h = Ret (mix64 (Z.lxor h (c.(salt) !!! Z.to_nat r)) mod c.(width)) ∧
  0 <= mix64 (Z.lxor h (c.(salt) !!! Z.to_nat r)) mod c.(width) < c.(width).
Proof.
  intros Hwf Hr. pose proof (cms_shape _ Hwf) as Hsh.
  assert (0 < c.(width)) by (destruct Hsh as (_ & ? & _); lia).
  rewrite index_modulo by done. unfold bucket.
  pose proof (Z.mod_pos_bound (mix64 (Z.lxor h (salt c !!! Z.to_nat r))) (width c)).
  rewrite Z2Nat.id by lia. split; [done|lia].
Qed.

Lemma index_is_modulo_witness :
  ∃ c, NewCountMinSketch 4 16 0 = Ok c ∧ index c 3 12345 = Ret (mix64 (Z.lxor 12345 0x85ebca77c2b2ae63) mod 16).
Proof.
  eexists. split; [reflexivity|].
  refine (proj1 (index_is_modulo _ 3 12345 _ _)); [|cbn; lia].
  apply (New_wf 4 16 0); [lia|reflexivity].
Defined.

(** (C10) Refinement to an exact decayed counter: starting from a fresh sketch,
    every sequence of increments, agings and resets runs without panicking, and
    afterwards [Estimate] of any key is at least the exact saturating count of that
    key, halved whenever the sketch was, and at most the number of increments since
    the last reset. *)
Theorem CountMinSketch_estimate_bounds d w a c ops x :
  w < 2 ^ 64 → NewCountMinSketch d w a = Ok c →
  ∃ c' est, run c ops = Ret c' ∧ CountMinSketch_Estimate c' x = Ret est ∧
    (exact_run x a (mkExact 0 0 0) ops).(freq) <= est <= (exact_run x a (mkExact 0 0 0) ops).(total).
Proof.
  intros Hw Hnew. destruct (run_tracks x a c _ ops (New_tracks x d w a c Hw Hnew)) as (c' & Hrun & Ht).
  exists c', (min_cell c' x). destruct Ht as [Hwf _ _ Hf Hc].
  split; [done|]. split; [by apply Estimate_spec|]. apply min_cell_bounds; [done|lia|done].
Qed.

Lemma CountMinSketch_estimate_bounds_witness :
  ∃ c c' est, NewCountMinSketch 2 16 3 = Ok c ∧
    run c [OpIncrement 7; OpIncrement 7; OpIncrement 9; OpIncrement 7] = Ret c' ∧
    CountMinSketch_Estimate c' 7 = Ret est ∧ 2 <= est <= 4.
Proof.
  destruct (NewCountMinSketch 2 16 3) as [c|] eqn:E; [|discriminate E].
  destruct (CountMinSketch_estimate_bounds 2 16 3 c
    [OpIncrement 7; OpIncrement 7; OpIncrement 9; OpIncrement 7] 7 ltac:(lia) E)
    as (c' & est & H1 & H2 & H3).
  exists c, c', est. split; [reflexivity|]. split; [exact H1|]. split; [exact H2|]. exact H3.
Defined.
