(* ===== verification/TinyLfu.v ===== *)
(** * TinyLFU admission ([src/utils/stdlib/tiny_lfu.go])

    The admission filter: a Count-Min Sketch, a key hasher and the tie rule. The
    [Admission] class states what the in-process store needs of an admission
    policy (recording and deciding never panic and keep the policy usable);
    [TinyLFU_admission_laws] discharges it for this implementation. *)

From Stdlib Require Import ZArith Lia.
From S2P Require Import Prelude Sketch.
Local Open Scope Z_scope.

(** ** The interface the store is verified against *)

Class Admission (P K : Type) := {
  adm_record : P → K → outcome P;
  adm_should_admit : P → K → K → outcome bool
}.

Class AdmissionLaws (P K : Type) `{Admission P K} (ok : P → Prop) := {
  adm_record_total : ∀ p k, ok p → ∃ p', adm_record p k = Ret p' ∧ ok p';
  adm_should_admit_total : ∀ p k v, ok p → ∃ b, adm_should_admit p k v = Ret b
}.

(** ** TinyLFU *)

Record TinyLFUOptions (K : Type) := mkTinyLFUOptions {
  Depth : Z;
  Width : Z;
  AgingEvery : Z;
  AdmitOnEqual : bool;
  Hash : option (K → Z)
}.
Arguments mkTinyLFUOptions {K}.
Arguments Depth {K}.
Arguments Width {K}.
Arguments AgingEvery {K}.
Arguments AdmitOnEqual {K}.
Arguments Hash {K}.

Record TinyLFU (K : Type) := mkTinyLFU {
  cms : CountMinSketch;
  hash : K → Z;
  admitOnEq : bool
}.
Arguments mkTinyLFU {K}.
Arguments cms {K}.
Arguments hash {K}.
Arguments admitOnEq {K}.

Section tiny_lfu.
Context {K : Type}.

Definition with_cms (t : TinyLFU K) (c : CountMinSketch) : TinyLFU K :=
  mkTinyLFU c t.(hash) t.(admitOnEq).

Definition NewTinyLFUWithOptions (opt : TinyLFUOptions K)
    : outcome (result sketch_error (TinyLFU K)) :=
  match opt.(Hash) with
  | None => Panic "tinylfu: nil hash"
  | Some h =>
      match NewCountMinSketch opt.(Depth) opt.(Width) opt.(AgingEvery) with
      | Err e => Ret (Err e)
      | Ok c => Ret (Ok (mkTinyLFU c h opt.(AdmitOnEqual)))
      end
  end.

Definition NewTinyLFU (dep wid aging : Z) (h : option (K → Z))
    : outcome (result sketch_error (TinyLFU K)) :=
  NewTinyLFUWithOptions (mkTinyLFUOptions dep wid aging true h).

Definition TinyLFU_Record (t : TinyLFU K) (key : K) : outcome (TinyLFU K) :=
  c ← CountMinSketch_Increment t.(cms) (t.(hash) key);
  Ret (with_cms t c).

Fixpoint RecordN_loop (c : CountMinSketch) (h : Z) (k : nat) : outcome CountMinSketch :=
  match k with
  | O => Ret c
  | S k => c ← CountMinSketch_Increment c h; RecordN_loop c h k
  end.

Definition TinyLFU_RecordN (t : TinyLFU K) (key : K) (n : Z) : outcome (TinyLFU K) :=
  if n =? 0 then Ret t
  else
    let h := t.(hash) key in
    c ← RecordN_loop t.(cms) h (Z.to_nat n);
    Ret (with_cms t c).

Definition TinyLFU_Estimate (t : TinyLFU K) (key : K) : outcome Z :=
  CountMinSketch_Estimate t.(cms) (t.(hash) key).

Definition TinyLFU_VictimFreq (t : TinyLFU K) (victim : K) : outcome Z :=
  CountMinSketch_Estimate t.(cms) (t.(hash) victim).

Definition TinyLFU_ShouldAdmit (t : TinyLFU K) (incoming victim : K) : outcome bool :=
  fi ← CountMinSketch_Estimate t.(cms) (t.(hash) incoming);
  fv ← CountMinSketch_Estimate t.(cms) (t.(hash) victim);
  if t.(admitOnEq) then Ret (fv <=? fi) else Ret (fv <? fi).

Definition TinyLFU_ShouldAdmitAgainst (t : TinyLFU K) (incoming : K) (victimFreq : Z)
    : outcome bool :=
  fi ← CountMinSketch_Estimate t.(cms) (t.(hash) incoming);
  if t.(admitOnEq) then Ret (victimFreq <=? fi) else Ret (victimFreq <? fi).

Definition TinyLFU_Age (t : TinyLFU K) : outcome (TinyLFU K) :=
  c ← CountMinSketch_Age t.(cms); Ret (with_cms t c).

Definition TinyLFU_Reset (t : TinyLFU K) : outcome (TinyLFU K) :=
  c ← CountMinSketch_Reset t.(cms); Ret (with_cms t c).

Definition TinyLFU_ok (t : TinyLFU K) : Prop := CMS_wf t.(cms).

#[export] Instance TinyLFU_admission : Admission (TinyLFU K) K := {
  adm_record := TinyLFU_Record;
  adm_should_admit := TinyLFU_ShouldAdmit
}.

Lemma Increment_total c h :
  CMS_wf c → ∃ c', CountMinSketch_Increment c h = Ret c' ∧ CMS_wf c'.
Proof.
  intros Hwf.
  destruct (step_tracks h c.(agingEvery) c (mkExact 0 c.(n) (2 ^ 32)) (OpIncrement h))
    as (c' & E & Ht).
  { split; cbn; try done. intros r Hr.
    destruct (cell_lookup c h r Hwf Hr) as (_ & _ & _ & _ & Hu). unfold is_u32 in Hu. lia. }
  exists c'. split; [done|apply Ht].
Qed.

#[export] Instance TinyLFU_admission_laws : AdmissionLaws (TinyLFU K) K TinyLFU_ok.
Proof.
  split.
  - intros t k Hok. destruct (Increment_total t.(cms) (t.(hash) k) Hok) as (c' & E & Hwf).
    exists (with_cms t c'). split; [|done]. cbn. unfold TinyLFU_Record. by rewrite E.
  - intros t k v Hok. cbn. unfold TinyLFU_ShouldAdmit.
    rewrite !Estimate_spec by done. cbn. destruct (admitOnEq t); eauto.
Qed.

(** Iterating the single-access operation. *)
Fixpoint record_times (t : TinyLFU K) (key : K) (k : nat) : outcome (TinyLFU K) :=
  match k with
  | O => Ret t
  | S k => t ← TinyLFU_Record t key; record_times t key k
  end.

Lemma RecordN_loop_iterates t key k :
  (c ← RecordN_loop t.(cms) (t.(hash) key) k; Ret (with_cms t c)) = record_times t key k.
Proof.
  revert t. induction k as [|k IH]; intros t; [by destruct t|].
  cbn. unfold TinyLFU_Record.
  destruct (CountMinSketch_Increment (cms t) (hash t key)) as [c|w]; [|done].
  cbn. apply (IH (with_cms t c)).
Qed.

(** Admission is decided exactly by the two estimates: on a usable filter
    [ShouldAdmit] returns, and admits the incoming key when its estimate is larger
    than the victim's, or equal and ties admit; it agrees with
    [ShouldAdmitAgainst] on the victim's frequency, and a batch of [n] accesses is
    [n] single ones. *)
Theorem TinyLFU_ShouldAdmit_spec t incoming victim :
  TinyLFU_ok t →
  ∃ fi fv, TinyLFU_Estimate t incoming = Ret fi ∧ TinyLFU_VictimFreq t victim = Ret fv ∧
    (TinyLFU_ShouldAdmit t incoming victim = Ret true ↔
       fv < fi ∨ (fv = fi ∧ t.(admitOnEq) = true)) ∧
    TinyLFU_ShouldAdmit t incoming victim = TinyLFU_ShouldAdmitAgainst t incoming fv ∧
    ∀ k, 0 <= k → TinyLFU_RecordN t incoming k = record_times t incoming (Z.to_nat k).
Proof.
  intros Hok. exists (min_cell t.(cms) (t.(hash) incoming)), (min_cell t.(cms) (t.(hash) victim)).
  unfold TinyLFU_Estimate, TinyLFU_VictimFreq, TinyLFU_ShouldAdmit, TinyLFU_ShouldAdmitAgainst.
  rewrite !Estimate_spec by done. cbn. split_and!; try done.
  - destruct (admitOnEq t); rewrite <-?Z.lt_eq_cases; split.
    + intros [= H%Z.leb_le]. lia.
    + intros H. f_equal. apply Z.leb_le. lia.
    + intros [= H%Z.ltb_lt]. lia.
    + intros [H|[_ [=]]]. f_equal. by apply Z.ltb_lt.
  - intros k Hk. unfold TinyLFU_RecordN. destruct (Z.eqb_spec k 0) as [->|]; [done|].
    apply RecordN_loop_iterates.
Qed.
End tiny_lfu.

Lemma NewTinyLFU_ok {K} dep wid aging (h : option (K → Z)) t :
  wid < 2 ^ 64 → NewTinyLFU dep wid aging h = Ret (Ok t) → TinyLFU_ok t.
Proof.
  intros Hw. unfold NewTinyLFU, NewTinyLFUWithOptions. cbn. destruct h as [h|]; [|done].
  destruct (NewCountMinSketch dep wid aging) as [c|] eqn:E; [|done]. intros [= <-].
  by apply (New_wf dep wid aging).
Qed.

Lemma TinyLFU_ShouldAdmit_spec_witness :
  ∃ t, NewTinyLFU 4 16 0 (Some Hash64String) = Ret (Ok t) ∧
    TinyLFU_ShouldAdmit t "new" "old" = Ret true.
Proof.
  eexists. split; [reflexivity|].
  set (t := mkTinyLFU _ _ _).
  assert (TinyLFU_ok t) as Hok
    by (apply (NewTinyLFU_ok 4 16 0 (Some Hash64String)); [lia|reflexivity]).
  destruct (TinyLFU_ShouldAdmit_spec t "new" "old" Hok) as (fi & fv & H1 & H2 & H3 & _).
  apply H3. right. split; [|reflexivity].
  assert (fi = 0) as -> by (vm_compute in H1; congruence).
  vm_compute in H2. congruence.
Defined.
