(* ===== verification/Lru.v ===== *)
(** * The LRU cache ([src/utils/stdlib/lru.go])

    A hash map from keys to elements of a [container/list] list. Elements are
    pointers into a heap that holds their [Value] pairs, so that the map, the list
    and the in-place update of [e.Value] share them as the code does; the calls of
    the eviction hook are recorded in order. The theorems show that the map and the
    list stay consistent and that every operation refines the textbook cache, a
    list of entries in most-recently-used order. *)

From Stdlib Require Import ZArith Lia.
From S2P Require Import Prelude.
Local Open Scope Z_scope.

(** A [*list.Element]. *)
Abbreviation ptr := nat.

Record LRU (K V : Type) `{Countable K} := mkLRU {
  cap : Z;
  ll : list ptr;               (* front (MRU) first *)
  heap : gmap ptr (K * V);     (* the [Value] of every element *)
  items : gmap K ptr;
  evict : bool;                (* is an eviction hook installed? *)
  evictLog : list (K * V);     (* its calls so far, oldest first *)
  next : ptr                   (* the next fresh element *)
}.
Arguments mkLRU {K V _ _}.
Arguments cap {K V _ _}.
Arguments ll {K V _ _}.
Arguments heap {K V _ _}.
Arguments items {K V _ _}.
Arguments evict {K V _ _}.
Arguments evictLog {K V _ _}.
Arguments next {K V _ _}.

Section lru.
Context {K V : Type} `{Countable K}.
Implicit Types (c : LRU K V) (k : K) (v : V).

(** *** [container/list] on the element pointers *)

Definition list_remove (e : ptr) (l : list ptr) : list ptr := filter (λ x, x ≠ e) l.
Definition MoveToFront (e : ptr) (l : list ptr) : list ptr :=
  if decide (e ∈ l) then e :: list_remove e l else l.

(** *** Constructor and queries *)

Definition NewLRU (capacity : Z) (onEvict : bool) : outcome (LRU K V) :=
  if capacity <? 0 then Panic "lru: capacity must be >= 0"
  else Ret (mkLRU capacity [] ∅ ∅ onEvict [] 0%nat).

Definition LRU_Len c : Z := Z.of_nat (length c.(ll)).
Definition LRU_Capacity c : Z := c.(cap).

(** [e.Value.(pair).val] *)
Definition value_of c (e : ptr) : option V := snd <$> c.(heap) !! e.
Definition key_of c (e : ptr) : option K := fst <$> c.(heap) !! e.

Definition LRU_Peek c k : option V :=
  match c.(items) !! k with
  | Some e => value_of c e
  | None => None
  end.

Definition LRU_Keys c : list K := omap (key_of c) c.(ll).

Definition LRU_TailKey c : option K :=
  match last c.(ll) with
  | Some element => key_of c element
  | None => None
  end.

(** *** Mutators *)

Definition with_ll c (l : list ptr) : LRU K V :=
  mkLRU c.(cap) l c.(heap) c.(items) c.(evict) c.(evictLog) c.(next).

Definition LRU_Get c k : LRU K V * option V :=
  match c.(items) !! k with
  | Some e => (with_ll c (MoveToFront e c.(ll)), value_of c e)
  | None => (c, None)
  end.

(** Unlink the element, drop its key from the index, call the hook. The element
    keeps its [Value] after it is unlinked. *)
Definition removeElement c (e : ptr) (callEvict : bool) : LRU K V :=
  let l := list_remove e c.(ll) in
  match c.(heap) !! e with
  | Some p =>
      mkLRU c.(cap) l c.(heap) (delete p.1 c.(items)) c.(evict)
        (if callEvict && c.(evict) then c.(evictLog) ++ [p] else c.(evictLog)) c.(next)
  | None => with_ll c l
  end.

Definition evictTail c : LRU K V :=
  match last c.(ll) with
  | Some e => removeElement c e true
  | None => c
  end.

Definition LRU_Set c k v : LRU K V * bool :=
  match c.(items) !! k with
  | Some e =>
      (mkLRU c.(cap) (MoveToFront e c.(ll)) (<[e := (k, v)]> c.(heap)) c.(items)
         c.(evict) c.(evictLog) c.(next), false)
  | None =>
      let element := c.(next) in
      let c := mkLRU c.(cap) (element :: c.(ll)) (<[element := (k, v)]> c.(heap))
                 (<[k := element]> c.(items)) c.(evict) c.(evictLog) (S element) in
      if (0 <? c.(cap)) && (c.(cap) <? LRU_Len c) then (evictTail c, true)
      else (c, false)
  end.

Definition LRU_Delete c k : LRU K V * bool :=
  match c.(items) !! k with
  | Some e => (removeElement c e true, true)
  | None => (c, false)
  end.

Definition LRU_Purge c : LRU K V :=
  let log := if c.(evict) then c.(evictLog) ++ omap (c.(heap) !!.) (reverse c.(ll))
             else c.(evictLog) in
  mkLRU c.(cap) [] c.(heap) ∅ c.(evict) log c.(next).

(** ** Consistency of the index and the list *)

Record LRU_wf c : Prop := {
  wf_nodup : NoDup c.(ll);
  wf_fresh : ∀ e p, c.(heap) !! e = Some p → (e < c.(next))%nat;
  wf_listed : ∀ e, e ∈ c.(ll) → ∃ k v, c.(heap) !! e = Some (k, v) ∧ c.(items) !! k = Some e;
  wf_indexed : ∀ k e, c.(items) !! k = Some e → e ∈ c.(ll) ∧ ∃ v, c.(heap) !! e = Some (k, v)
}.

(** A positive capacity is never exceeded. *)
Definition LRU_bounded c : Prop :=
  0 <= c.(cap) ∧ (0 < c.(cap) → LRU_Len c <= c.(cap)).

(** ** The textbook cache: entries in most-recently-used order *)

Definition abs c : list (K * V) := omap (c.(heap) !!.) c.(ll).

Fixpoint spec_lookup k (l : list (K * V)) : option V :=
  match l with
  | [] => None
  | (k', v) :: l => if decide (k' = k) then Some v else spec_lookup k l
  end.

Definition nonempty (l : list (K * V)) : bool :=
  match l with [] => false | _ => true end.

Definition spec_remove k (l : list (K * V)) : list (K * V) := filter (λ p, p.1 ≠ k) l.

Definition spec_touch k (l : list (K * V)) : list (K * V) :=
  match spec_lookup k l with
  | Some v => (k, v) :: spec_remove k l
  | None => l
  end.

(** The new cache and the entries evicted. *)
Definition spec_set (capacity : Z) k v (l : list (K * V)) : list (K * V) * list (K * V) :=
  match spec_lookup k l with
  | Some _ => ((k, v) :: spec_remove k l, [])
  | None =>
      let l := (k, v) :: l in
      if (0 <? capacity) && (capacity <? Z.of_nat (length l))
      then (take (length l - 1) l, drop (length l - 1) l)
      else (l, [])
  end.

(** *** Generic facts about the element heap *)

Implicit Types (h : gmap ptr (K * V)) (l : list ptr).

(** Every listed element has a value, and only [e] carries key [k]. *)
Definition owns h k (e : ptr) l : Prop :=
  ∀ x, x ∈ l → ∃ p, h !! x = Some p ∧ (p.1 = k ↔ x = e).

Lemma omap_remove h k e l :
  owns h k e l → omap (h !!.) (list_remove e l) = spec_remove k (omap (h !!.) l).
Proof.
  unfold spec_remove, list_remove. induction l as [|x l IH]; intros Ho; [done|].
  destruct (Ho x) as (p & Hp & Hk); [set_solver|].
  assert (owns h k e l) as Ho' by (intros y Hy; apply Ho; set_solver).
  rewrite filter_cons. cbn. rewrite Hp, filter_cons, <-IH by done.
  destruct (decide (x ≠ e)), (decide (p.1 ≠ k)); cbn; rewrite ?Hp; tauto || done.
Qed.

Lemma omap_lookup h k e v l :
  owns h k e l → e ∈ l → h !! e = Some (k, v) → spec_lookup k (omap (h !!.) l) = Some v.
Proof.
  induction l as [|x l IH]; intros Ho He Hv; [set_solver|].
  destruct (Ho x) as ([k' v'] & Hp & Hk); [set_solver|]. cbn. rewrite Hp. cbn in *.
  destruct (decide (k' = k)) as [->|Hne].
  - assert (x = e) by tauto. by simplify_eq.
  - assert (owns h k e l) as Ho' by (intros y Hy; apply Ho; set_solver).
    apply IH; [done| |done].
    apply elem_of_cons in He as [->|]; [|done]. tauto.
Qed.

Lemma omap_lookup_None h k l :
  (∀ x p, x ∈ l → h !! x = Some p → p.1 ≠ k) → spec_lookup k (omap (h !!.) l) = None.
Proof.
  induction l as [|x l IH]; intros Hn; [done|]. cbn.
  destruct (h !! x) as [[k' v']|] eqn:E; [|apply IH; intros y p Hy; apply (Hn y); set_solver].
  cbn. rewrite decide_False by (apply (Hn x (k', v')); [set_solver|done]).
  apply IH. intros y p Hy. apply (Hn y). set_solver.
Qed.

(** Writing the value of an element outside the list changes nothing. *)
Lemma omap_insert_fresh h e p l :
  e ∉ l → omap ((<[e := p]> h) !!.) l = omap (h !!.) l.
Proof.
  induction l as [|x l IH]; intros He; [done|]. cbn.
  rewrite lookup_insert_ne by set_solver. rewrite IH by set_solver. done.
Qed.

Lemma length_omap_total h l :
  (∀ x, x ∈ l → is_Some (h !! x)) → length (omap (h !!.) l) = length l.
Proof.
  induction l as [|x l IH]; intros Hs; [done|]. cbn.
  destruct (Hs x) as [p ->]; [set_solver|]. cbn. rewrite IH; [done|]. set_solver.
Qed.

Lemma list_remove_nodup e l : NoDup l → NoDup (list_remove e l).
Proof. apply NoDup_filter. Qed.

Lemma elem_of_list_remove x e l : x ∈ list_remove e l ↔ x ≠ e ∧ x ∈ l.
Proof. unfold list_remove. by rewrite list_elem_of_filter. Qed.

(** *** The invariant gives ownership *)

Section wf.
Context c (Hwf : LRU_wf c).

Lemma wf_owns k e : c.(items) !! k = Some e → owns c.(heap) k e c.(ll).
Proof.
  intros Hk x Hx. destruct (wf_listed c Hwf x Hx) as (k' & v' & Hp & Hi).
  exists (k', v'). split; [done|]. cbn. split; [intros ->; congruence|].
  intros ->. destruct (wf_indexed c Hwf k e Hk) as [_ [v Hv]]. congruence.
Qed.

Lemma wf_lookup_hit k e :
  c.(items) !! k = Some e →
  ∃ v, c.(heap) !! e = Some (k, v) ∧ e ∈ c.(ll) ∧ spec_lookup k (abs c) = Some v.
Proof.
  intros Hk. destruct (wf_indexed c Hwf k e Hk) as [He [v Hv]]. exists v.
  split_and!; try done. eapply omap_lookup; eauto using wf_owns.
Qed.

Lemma wf_lookup_miss k : c.(items) !! k = None → spec_lookup k (abs c) = None.
Proof.
  intros Hk. apply omap_lookup_None. intros x p Hx Hp Hpk.
  destruct (wf_listed c Hwf x Hx) as (k' & v' & Hp' & Hi). by simplify_eq/=.
Qed.

Lemma wf_values x : x ∈ c.(ll) → is_Some (c.(heap) !! x).
Proof. intros Hx. destruct (wf_listed c Hwf x Hx) as (k & v & -> & _). eauto. Qed.

Lemma wf_length : length (abs c) = length c.(ll).
Proof. apply length_omap_total, wf_values. Qed.

Lemma wf_remove k e : c.(items) !! k = Some e →
  omap (c.(heap) !!.) (list_remove e c.(ll)) = spec_remove k (abs c).
Proof. intros Hk. by apply omap_remove, wf_owns. Qed.
End wf.

(** *** Moving to the front *)

Lemma MoveToFront_spec e l : e ∈ l → MoveToFront e l = e :: list_remove e l.
Proof. intros He. unfold MoveToFront. by rewrite decide_True. Qed.

Lemma elem_of_MoveToFront x e l : x ∈ MoveToFront e l ↔ x ∈ l.
Proof.
  unfold MoveToFront. case_decide; [|done]. rewrite elem_of_cons, elem_of_list_remove.
  destruct (decide (x = e)) as [->|]; tauto.
Qed.

Lemma length_list_remove e l : NoDup l → e ∈ l → length l = S (length (list_remove e l)).
Proof.
  intros Hn He. unfold list_remove. induction Hn as [|x l Hx Hn IH]; [set_solver|].
  rewrite filter_cons. destruct (decide (x ≠ e)) as [Hne|Heq]; cbn.
  - rewrite IH; [done|]. apply elem_of_cons in He as [->|]; done.
  - apply dec_stable in Heq as ->. f_equal. clear IH He Hn.
    induction l as [|y l IH]; [done|]. rewrite filter_cons, decide_True by set_solver.
    cbn. rewrite <-IH by set_solver. done.
Qed.

Lemma MoveToFront_nodup e l : NoDup l → NoDup (MoveToFront e l).
Proof.
  intros Hn. unfold MoveToFront. case_decide; [|done]. constructor.
  - rewrite elem_of_list_remove. tauto.
  - by apply list_remove_nodup.
Qed.

Lemma MoveToFront_length e l : NoDup l → length (MoveToFront e l) = length l.
Proof.
  intros Hn. unfold MoveToFront. case_decide; [|done]. cbn. by rewrite <-length_list_remove.
Qed.

(** Rearranging the list keeps the invariant. *)
Lemma with_ll_wf c e : LRU_wf c → LRU_wf (with_ll c (MoveToFront e c.(ll))).
Proof.
  intros [Hn Hf Hl Hi]. split; cbn.
  - by apply MoveToFront_nodup.
  - done.
  - intros x. rewrite elem_of_MoveToFront. auto.
  - intros k x Hk. rewrite elem_of_MoveToFront. auto.
Qed.

(** *** [Get] and [Peek] *)

Lemma LRU_Get_spec c k :
  LRU_wf c →
  LRU_wf (LRU_Get c k).1 ∧ (LRU_Get c k).2 = spec_lookup k (abs c) ∧
  abs (LRU_Get c k).1 = spec_touch k (abs c) ∧ evictLog (LRU_Get c k).1 = evictLog c.
Proof.
  intros Hwf. unfold LRU_Get. destruct (items c !! k) as [e|] eqn:E.
  - destruct (wf_lookup_hit c Hwf k e E) as (v & Hv & He & Hs).
    unfold spec_touch. rewrite Hs. unfold value_of. rewrite Hv. cbn.
    split_and!; try done; [by apply with_ll_wf|].
    unfold abs. cbn. rewrite MoveToFront_spec by done. cbn. rewrite Hv.
    f_equal. by apply wf_remove.
  - unfold spec_touch. by rewrite (wf_lookup_miss c Hwf k E).
Qed.

Lemma LRU_Peek_spec c k : LRU_wf c → LRU_Peek c k = spec_lookup k (abs c).
Proof.
  intros Hwf. unfold LRU_Peek. destruct (items c !! k) as [e|] eqn:E.
  - destruct (wf_lookup_hit c Hwf k e E) as (v & Hv & He & ->). unfold value_of. by rewrite Hv.
  - symmetry. by apply wf_lookup_miss.
Qed.

(** *** Removal *)

Lemma removeElement_spec c k v e b :
  LRU_wf c → c.(items) !! k = Some e → c.(heap) !! e = Some (k, v) →
  LRU_wf (removeElement c e b) ∧ abs (removeElement c e b) = spec_remove k (abs c) ∧
  evictLog (removeElement c e b) =
    evictLog c ++ (if b && c.(evict) then [(k, v)] else []).
Proof.
  intros Hwf Hk Hv. unfold removeElement. rewrite Hv. cbn.
  split_and!.
  - destruct (wf_indexed c Hwf k e Hk) as [He _].
    destruct Hwf as [Hn Hf Hl Hi]. split; cbn.
    + by apply list_remove_nodup.
    + done.
    + intros x [Hx Hxl]%elem_of_list_remove. destruct (Hl x Hxl) as (k' & v' & Hp & Hi').
      exists k', v'. split; [done|]. rewrite lookup_delete_ne by congruence. done.
    + intros k' e' [Hne Hk']%lookup_delete_Some. destruct (Hi k' e' Hk') as [He' Hv'].
      split; [|done]. apply elem_of_list_remove. split; [|done].
      intros ->. destruct Hv' as [v' Hv']. congruence.
  - unfold abs. cbn. by apply wf_remove.
  - destruct (b && evict c); [done|]. by rewrite app_nil_r.
Qed.

Lemma LRU_Delete_spec c k :
  LRU_wf c →
  LRU_wf (LRU_Delete c k).1 ∧
  (LRU_Delete c k).2 = bool_decide (is_Some (spec_lookup k (abs c))) ∧
  abs (LRU_Delete c k).1 = spec_remove k (abs c) ∧
  evictLog (LRU_Delete c k).1 =
    evictLog c ++ (if evict c then from_option (λ v, [(k, v)]) [] (spec_lookup k (abs c)) else []).
Proof.
  intros Hwf. unfold LRU_Delete. destruct (items c !! k) as [e|] eqn:E.
  - destruct (wf_lookup_hit c Hwf k e E) as (v & Hv & He & Hs).
    destruct (removeElement_spec c k v e true Hwf E Hv) as (? & ? & Hlog). cbn in *.
    rewrite Hs. split_and!; done.
  - rewrite (wf_lookup_miss c Hwf k E). cbn. split_and!; try done.
    + symmetry. apply filter_all, Forall_forall.
      intros p Hp. apply list_elem_of_omap in Hp as (x & Hx & Hp).
      destruct (wf_listed c Hwf x Hx) as (k' & v' & Hp' & Hi'). simplify_eq. cbn. congruence.
    + destruct (evict c); by rewrite app_nil_r.
Qed.

(** *** Eviction of the least recently used entry *)

Lemma list_remove_last e l : NoDup (l ++ [e]) → list_remove e (l ++ [e]) = l.
Proof.
  intros (_ & Hd & _)%NoDup_app. unfold list_remove. rewrite filter_app, filter_cons.
  rewrite decide_False by tauto. cbn. rewrite app_nil_r.
  apply filter_all, Forall_forall. intros x Hx ->. apply (Hd e Hx). set_solver.
Qed.

Lemma evictTail_spec c :
  LRU_wf c → c.(ll) ≠ [] →
  LRU_wf (evictTail c) ∧ abs (evictTail c) = take (length (abs c) - 1) (abs c) ∧
  length (evictTail c).(ll) = (length c.(ll) - 1)%nat ∧
  evictLog (evictTail c) =
    evictLog c ++ (if evict c then drop (length (abs c) - 1) (abs c) else []).
Proof.
  intros Hwf Hne. unfold evictTail. destruct (last c.(ll)) as [e|] eqn:El.
  2:{ apply last_None in El. done. }
  apply last_Some in El as [l El].
  destruct (wf_listed c Hwf e) as (k & v & Hv & Hk); [rewrite El; set_solver|].
  destruct (removeElement_spec c k v e true Hwf Hk Hv) as (Hwf' & _ & Hlog).
  pose proof (wf_length c Hwf) as Hlen.
  assert (abs c = omap (c.(heap) !!.) l ++ [(k, v)]) as Habs.
  { unfold abs. rewrite El, omap_app. cbn. by rewrite Hv. }
  assert ((removeElement c e true).(ll) = l) as Hll.
  { unfold removeElement. rewrite Hv. cbn. rewrite El. apply list_remove_last.
    rewrite <-El. apply Hwf. }
  assert (length (abs c) - 1 = length (omap (c.(heap) !!.) l))%nat as Hl1
    by (rewrite Habs, length_app; cbn; lia).
  split_and!; [done|..].
  - rewrite Hl1, Habs, take_app_length. unfold abs. rewrite Hll.
    unfold removeElement. by rewrite Hv.
  - rewrite Hll, El, length_app. cbn. lia.
  - rewrite Hl1, Habs, drop_app_length. exact Hlog.
Qed.

(** *** [Set] *)

Lemma LRU_Set_hit_spec c k v e v0 :
  LRU_wf c → c.(items) !! k = Some e → c.(heap) !! e = Some (k, v0) →
  LRU_wf (LRU_Set c k v).1 ∧ abs (LRU_Set c k v).1 = (k, v) :: spec_remove k (abs c).
Proof.
  intros Hwf Hk Hv. unfold LRU_Set. rewrite Hk. cbn.
  destruct (wf_indexed c Hwf k e Hk) as [He _]. split.
  - destruct Hwf as [Hn Hf Hl Hi]. split; cbn.
    + by apply MoveToFront_nodup.
    + intros x p. rewrite lookup_insert. case_decide; [subst; eauto|eauto].
    + intros x. rewrite elem_of_MoveToFront. intros Hx.
      destruct (decide (x = e)) as [->|].
      * exists k, v. by rewrite lookup_insert_eq.
      * rewrite lookup_insert_ne by done. auto.
    + intros k' x Hk'. rewrite elem_of_MoveToFront. destruct (Hi k' x Hk') as [Hx [v' Hv']].
      split; [done|]. destruct (decide (x = e)) as [->|].
      * exists v. rewrite lookup_insert_eq. congruence.
      * exists v'. by rewrite lookup_insert_ne.
  - unfold abs. cbn. rewrite MoveToFront_spec by done. cbn. rewrite lookup_insert_eq.
    rewrite omap_insert_fresh by (rewrite elem_of_list_remove; tauto).
    f_equal. by apply wf_remove.
Qed.

(** The state right after the insertion of a new key, before any eviction. *)
Definition inserted c k v : LRU K V :=
  mkLRU c.(cap) (c.(next) :: c.(ll)) (<[c.(next) := (k, v)]> c.(heap))
    (<[k := c.(next)]> c.(items)) c.(evict) c.(evictLog) (S c.(next)).

Lemma next_fresh c : LRU_wf c → c.(heap) !! c.(next) = None ∧ c.(next) ∉ c.(ll).
Proof.
  intros Hwf. split.
  - destruct (heap c !! next c) as [p|] eqn:E; [|done]. apply wf_fresh in E; [lia|done].
  - intros Hin. destruct (wf_values c Hwf _ Hin) as [p Hp]. apply wf_fresh in Hp; [lia|done].
Qed.

Lemma inserted_spec c k v :
  LRU_wf c → c.(items) !! k = None →
  LRU_wf (inserted c k v) ∧ abs (inserted c k v) = (k, v) :: abs c.
Proof.
  intros Hwf Hk. destruct (next_fresh c Hwf) as [Hfr Hnin]. split.
  - destruct Hwf as [Hn Hf Hl Hi]. split; cbn.
    + by constructor.
    + intros x p. rewrite lookup_insert. case_decide; [lia|]. intros Hx. apply Hf in Hx. lia.
    + intros x [->|Hx]%elem_of_cons.
      * exists k, v. by rewrite !lookup_insert_eq.
      * assert (x ≠ next c) by congruence. destruct (Hl x Hx) as (k' & v' & Hp & Hi').
        exists k', v'. rewrite !lookup_insert_ne by congruence. done.
    + intros k' x. rewrite lookup_insert. case_decide as Hkk.
      * intros [= <-]. split; [set_solver|]. exists v. rewrite lookup_insert_eq. congruence.
      * intros Hx. destruct (Hi k' x Hx) as [Hxl [v' Hv']]. split; [set_solver|].
        exists v'. rewrite lookup_insert_ne by congruence. done.
  - unfold abs, inserted. cbn. rewrite lookup_insert_eq. by rewrite omap_insert_fresh.
Qed.

Lemma LRU_Set_spec c k v :
  LRU_wf c →
  LRU_wf (LRU_Set c k v).1 ∧
  abs (LRU_Set c k v).1 = (spec_set c.(cap) k v (abs c)).1 ∧
  (LRU_Set c k v).2 = nonempty (spec_set c.(cap) k v (abs c)).2 ∧
  evictLog (LRU_Set c k v).1 =
    evictLog c ++ (if evict c then (spec_set c.(cap) k v (abs c)).2 else []).
Proof.
  intros Hwf. unfold spec_set. destruct (items c !! k) as [e|] eqn:E.
  - destruct (wf_lookup_hit c Hwf k e E) as (v0 & Hv & He & Hs). rewrite Hs.
    destruct (LRU_Set_hit_spec c k v e v0 Hwf E Hv) as [Hwf' Ha].
    split_and!; [done|done|..].
    + unfold LRU_Set. by rewrite E.
    + unfold LRU_Set. rewrite E. destruct (evict c); by rewrite app_nil_r.
  - rewrite (wf_lookup_miss c Hwf k E).
    destruct (inserted_spec c k v Hwf E) as [Hwfi Hai].
    pose proof (wf_length _ Hwfi) as Hlen. rewrite Hai in Hlen.
    unfold LRU_Set. rewrite E. fold (inserted c k v). unfold LRU_Len.
    cbv zeta. rewrite <-Hlen. change (cap (inserted c k v)) with (cap c).
    destruct ((0 <? cap c) && (cap c <? Z.of_nat (length ((k, v) :: abs c)))) eqn:Ec.
    + destruct (evictTail_spec (inserted c k v) Hwfi) as (Hwf' & Ha & _ & Hlog); [done|].
      rewrite Hai in Ha, Hlog. split_and!; [done|exact Ha| |exact Hlog].
      unfold nonempty. destruct (drop _ _) eqn:Ed; [|done].
      apply (f_equal length) in Ed. rewrite length_drop in Ed. cbn in Ed. lia.
    + cbn [fst snd nonempty]. split_and!; [done|exact Hai|done|].
      destruct (evict c); by rewrite app_nil_r.
Qed.

Lemma LRU_Purge_spec c :
  LRU_wf c →
  LRU_wf (LRU_Purge c) ∧ abs (LRU_Purge c) = [] ∧
  evictLog (LRU_Purge c) = evictLog c ++ (if evict c then reverse (abs c) else []).
Proof.
  intros Hwf. unfold LRU_Purge. split_and!; [|done|].
  - destruct Hwf as [Hn Hf Hl Hi]. split; cbn; [constructor|done|set_solver|].
    intros k e. by rewrite lookup_empty.
  - cbn. destruct (evict c); [|by rewrite app_nil_r]. f_equal. apply omap_reverse.
Qed.

Lemma LRU_Keys_spec c : LRU_Keys c = (abs c).*1.
Proof.
  unfold LRU_Keys, abs, key_of. induction c.(ll) as [|x l IH]; [done|].
  cbn. destruct (heap c !! x) as [[k v]|]; cbn; by rewrite IH.
Qed.

Lemma LRU_TailKey_spec c : LRU_wf c → LRU_TailKey c = last (abs c).*1.
Proof.
  intros Hwf. unfold LRU_TailKey. destruct (last c.(ll)) as [e|] eqn:El.
  - apply last_Some in El as [l El].
    destruct (wf_listed c Hwf e) as (k & v & Hv & _); [rewrite El; set_solver|].
    unfold key_of, abs. rewrite El, Hv, omap_app, fmap_app. cbn. rewrite Hv. cbn.
    by rewrite last_snoc.
  - apply last_None in El. unfold abs. by rewrite El.
Qed.

(** *** Whole histories *)

Inductive lru_op := OGet (k : K) | OPeek (k : K) | OSet (k : K) (v : V) | ODelete (k : K) | OPurge.

(** What an operation hands back: a looked-up value, or whether an eviction or a
    removal took place. *)
Inductive lru_res := RValue (o : option V) | RBool (b : bool) | RUnit.

Definition lru_step c (op : lru_op) : LRU K V * lru_res :=
  match op with
  | OGet k => let r := LRU_Get c k in (r.1, RValue r.2)
  | OPeek k => (c, RValue (LRU_Peek c k))
  | OSet k v => let r := LRU_Set c k v in (r.1, RBool r.2)
  | ODelete k => let r := LRU_Delete c k in (r.1, RBool r.2)
  | OPurge => (LRU_Purge c, RUnit)
  end.

(** The same step on the list of entries and the list of hook calls. *)
Definition spec_step (capacity : Z) (hook : bool) (s : list (K * V) * list (K * V)) (op : lru_op)
    : (list (K * V) * list (K * V)) * lru_res :=
  let '(l, log) := s in
  let call (es : list (K * V)) := if hook then log ++ es else log in
  match op with
  | OGet k => ((spec_touch k l, log), RValue (spec_lookup k l))
  | OPeek k => ((l, log), RValue (spec_lookup k l))
  | OSet k v => let r := spec_set capacity k v l in ((r.1, call r.2), RBool (nonempty r.2))
  | ODelete k =>
      let hit := spec_lookup k l in
      ((spec_remove k l, call (from_option (λ v, [(k, v)]) [] hit)),
       RBool (bool_decide (is_Some hit)))
  | OPurge => (([], call (reverse l)), RUnit)
  end.

Fixpoint run_lru {S} (step : S → lru_op → S * lru_res) (s : S) (ops : list lru_op)
    : S * list lru_res :=
  match ops with
  | [] => (s, [])
  | op :: ops =>
      let r := step s op in
      let rs := run_lru step r.1 ops in (rs.1, r.2 :: rs.2)
  end.

Definition lru_view c : list (K * V) * list (K * V) := (abs c, evictLog c).

Lemma LRU_config c op :
  cap (lru_step c op).1 = cap c ∧ evict (lru_step c op).1 = evict c.
Proof.
  destruct op; cbn; unfold LRU_Get, LRU_Set, LRU_Delete, evictTail, removeElement; cbn;
    repeat case_match; done.
Qed.

Lemma lru_step_refines c op :
  LRU_wf c →
  LRU_wf (lru_step c op).1 ∧
  (lru_view (lru_step c op).1, (lru_step c op).2) = spec_step c.(cap) c.(evict) (lru_view c) op.
Proof.
  intros Hwf. unfold lru_view. destruct op as [k|k|k v|k|]; cbn -[spec_set LRU_Purge].
  - destruct (LRU_Get_spec c k Hwf) as (? & -> & -> & ->). done.
  - by rewrite LRU_Peek_spec.
  - destruct (LRU_Set_spec c k v Hwf) as (? & -> & -> & ->).
    split; [done|]. destruct (evict c); by rewrite ?app_nil_r.
  - destruct (LRU_Delete_spec c k Hwf) as (? & -> & -> & ->).
    split; [done|]. destruct (evict c); by rewrite ?app_nil_r.
  - destruct (LRU_Purge_spec c Hwf) as (? & -> & ->).
    split; [done|]. destruct (evict c); by rewrite ?app_nil_r.
Qed.

Lemma run_lru_refines c ops :
  LRU_wf c →
  let r := run_lru lru_step c ops in
  let r' := run_lru (spec_step c.(cap) c.(evict)) (lru_view c) ops in
  LRU_wf r.1 ∧ lru_view r.1 = r'.1 ∧ r.2 = r'.2.
Proof.
  revert c. induction ops as [|op ops IH]; intros c Hwf; [done|]. cbn [run_lru].
  destruct (lru_step_refines c op Hwf) as [Hwf1 Heq].
  destruct (LRU_config c op) as [Ec Ee].
  destruct (spec_step (cap c) (evict c) (lru_view c) op) as [s' r'] eqn:Es.
  injection Heq as Hv Hr. cbn [fst snd] in *.
  destruct (IH (lru_step c op).1 Hwf1) as (? & Hv' & Hr').
  rewrite Ec, Ee, Hv in Hv', Hr'. cbn. split_and!; [done|done|congruence].
Qed.

(** The specification itself never exceeds a positive capacity. *)
Lemma spec_remove_length k (l : list (K * V)) : (length (spec_remove k l) <= length l)%nat.
Proof. apply length_filter. Qed.

Lemma spec_remove_hit_length k v (l : list (K * V)) :
  spec_lookup k l = Some v → (length (spec_remove k l) < length l)%nat.
Proof.
  unfold spec_remove. induction l as [|[k' v'] l IH]; [done|].
  intros Hs. cbn in Hs. rewrite filter_cons. destruct (decide (k' = k)) as [Hk|Hk].
  - rewrite decide_False by (cbn; tauto). pose proof (spec_remove_length k l) as Hl.
    unfold spec_remove in Hl. cbn [length]. lia.
  - rewrite decide_True by done. specialize (IH Hs). cbn [length]. lia.
Qed.

Lemma spec_step_bounded capacity hook s op :
  0 < capacity → Z.of_nat (length s.1) <= capacity →
  Z.of_nat (length (spec_step capacity hook s op).1.1) <= capacity.
Proof.
  intros Hc Hs. destruct s as [l log]. destruct op as [k|k|k v|k|]; cbn -[spec_set] in *; try lia.
  - unfold spec_touch. destruct (spec_lookup k l) as [v|] eqn:E; [|done].
    pose proof (spec_remove_hit_length k v l E). cbn. lia.
  - unfold spec_set. destruct (spec_lookup k l) as [v0|] eqn:E.
    + pose proof (spec_remove_hit_length k v0 l E). cbn. lia.
    + cbv zeta. rewrite (proj2 (Z.ltb_lt 0 capacity)) by done.
      destruct (Z.ltb_spec capacity (Z.of_nat (length ((k, v) :: l)))); cbn [andb fst]; [|lia].
      rewrite length_take. cbn [length] in *. lia.
  - pose proof (spec_remove_length k l). lia.
Qed.

Lemma run_spec_bounded capacity hook s ops :
  0 < capacity → Z.of_nat (length s.1) <= capacity →
  Z.of_nat (length (run_lru (spec_step capacity hook) s ops).1.1) <= capacity.
Proof.
  intros Hc. revert s. induction ops as [|op ops IH]; intros s Hs; [done|].
  cbn [run_lru fst]. apply IH. by apply spec_step_bounded.
Qed.

Lemma NewLRU_wf capacity hook c : NewLRU capacity hook = Ret c → LRU_wf c.
Proof.
  unfold NewLRU. destruct (capacity <? 0); intros [= <-].
  split; cbn; [constructor|done|set_solver|]. intros k e. by rewrite lookup_empty.
Qed.

(** (C5) Refinement: from a new cache, every sequence of [Get], [Peek], [Set],
    [Delete] and [Purge] returns the same results, leaves the same entries in the
    same recency order and makes the same eviction-hook calls in the same order as
    the textbook cache; map, list and element heap stay consistent, and a positive
    capacity is never exceeded. *)
Theorem LRU_refines_spec capacity hook c ops :
  NewLRU capacity hook = Ret c →
  let r := run_lru lru_step c ops in
  let r' := run_lru (spec_step capacity hook) ([], []) ops in
  lru_view r.1 = r'.1 ∧ r.2 = r'.2 ∧ LRU_wf r.1 ∧
  LRU_Keys r.1 = (r'.1.1).*1 ∧ LRU_TailKey r.1 = last (r'.1.1).*1 ∧
  LRU_Len r.1 = Z.of_nat (length r'.1.1) ∧ (0 < capacity → LRU_Len r.1 <= capacity).
Proof.
  intros Hnew. destruct (run_lru_refines c ops (NewLRU_wf _ _ _ Hnew)) as (Hwf & Hv & Hr).
  assert (cap c = capacity ∧ evict c = hook ∧ lru_view c = ([], [])) as (E1 & E2 & E3)
    by (unfold NewLRU in Hnew; destruct (capacity <? 0); by simplify_eq).
  rewrite E1, E2, E3 in *. cbv zeta.
  assert (LRU_Len (run_lru lru_step c ops).1 =
    Z.of_nat (length (run_lru (spec_step capacity hook) ([], []) ops).1.1)) as Hlen.
  { unfold LRU_Len. rewrite <-wf_length, <-Hv by done. done. }
  split_and!; try done.
  - by rewrite LRU_Keys_spec, <-Hv.
  - by rewrite LRU_TailKey_spec, <-Hv.
  - intros Hpos. rewrite Hlen. apply run_spec_bounded; cbn; lia.
Qed.
End lru.

Lemma LRU_refines_spec_witness :
  ∃ c, NewLRU 2 true = Ret c ∧
    lru_view (run_lru lru_step c [OSet "a"%string 1; OSet "b"%string 2; OGet "a"%string; OSet "c"%string 3]).1 =
      ([("c"%string, 3); ("a"%string, 1)], [("b"%string, 2)]).
Proof.
  eexists. split; [reflexivity|].
  rewrite (proj1 (LRU_refines_spec (K:=string) (V:=Z) 2 true _
    [OSet "a"%string 1; OSet "b"%string 2; OGet "a"%string; OSet "c"%string 3] eq_refl)).
  vm_compute. reflexivity.
Defined.
