(* ===== verification/LinkedList.v ===== *)
(** * The linked list ([src/utils/stdlib/linkedlist.go])

    Nodes live in a heap and are linked by pointers; every operation reads and
    writes [Next] fields through the heap as the code does, and a nil dereference
    panics. The loops carry fuel, one unit per node of the heap; the theorems show
    that it is enough and that every operation implements the corresponding
    operation on sequences, including the in-place reversals. *)

From Stdlib Require Import ZArith Lia.
From S2P Require Import Prelude.
Local Open Scope Z_scope.

Abbreviation ptr := nat.

Record Node (T : Type) := mkNode { Val : T; Next : option ptr }.
Arguments mkNode {T}.
Arguments Val {T}.
Arguments Next {T}.

Record LinkedList (T : Type) := mkLinkedList {
  length_ : Z;
  Head : option ptr;
  heap : gmap ptr (Node T);   (* the nodes allocated so far *)
  fresh : ptr                 (* the next address to allocate *)
}.
Arguments mkLinkedList {T}.
Arguments length_ {T}.
Arguments Head {T}.
Arguments heap {T}.
Arguments fresh {T}.

Definition out_of_fuel : string := "loop bound exceeded".

Inductive range_error := ErrLeftGreater | ErrLeftTooSmall | ErrRightTooLarge.

Section linked_list.
Context {T : Type} (zero : T).   (* [zero] is Go's zero value of the type *)
Implicit Types (l : LinkedList T) (h : gmap ptr (Node T)).

(** The node a pointer refers to; nil (or dangling) panics. *)
Definition load h (p : option ptr) : outcome (ptr * Node T) :=
  match p with
  | None => Panic nil_dereference
  | Some a => match h !! a with
              | Some nd => Ret (a, nd)
              | None => Panic nil_dereference
              end
  end.

Definition NewLinkedList : LinkedList T := mkLinkedList 0 None ∅ 0%nat.

Definition LinkedList_Count l : Z := l.(length_).

Definition AddAtBeg l (val : T) : LinkedList T :=
  mkLinkedList (l.(length_) + 1) (Some l.(fresh))
    (<[l.(fresh) := mkNode val l.(Head)]> l.(heap)) (S l.(fresh)).

(** [for ; cur.Next != nil; cur = cur.Next {}] *)
Fixpoint find_last (fuel : nat) h (cur : option ptr) : outcome (ptr * Node T) :=
  c ← load h cur;
  match c.2.(Next) with
  | None => Ret c
  | Some nx => match fuel with
               | O => Panic out_of_fuel
               | S fuel => find_last fuel h (Some nx)
               end
  end.

Definition AddAtEnd l (val : T) : outcome (LinkedList T) :=
  let n := l.(fresh) in
  let h := <[n := mkNode val None]> l.(heap) in
  match l.(Head) with
  | None => Ret (mkLinkedList (l.(length_) + 1) (Some n) h (S n))
  | Some _ =>
      cur ← find_last (size h) h l.(Head);
      Ret (mkLinkedList (l.(length_) + 1) l.(Head)
             (<[cur.1 := mkNode cur.2.(Val) (Some n)]> h) (S n))
  end.

Definition DelAtBeg l : outcome (LinkedList T * (T * bool)) :=
  match l.(Head) with
  | None => Ret (l, (zero, false))
  | Some _ =>
      cur ← load l.(heap) l.(Head);
      Ret (mkLinkedList (l.(length_) - 1) cur.2.(Next) l.(heap) l.(fresh), (cur.2.(Val), true))
  end.

(** [for ; cur.Next.Next != nil; cur = cur.Next {}], returning [cur] and [cur.Next]. *)
Fixpoint find_second_last (fuel : nat) h (cur : option ptr)
    : outcome ((ptr * Node T) * (ptr * Node T)) :=
  c ← load h cur;
  nx ← load h c.2.(Next);
  match nx.2.(Next) with
  | None => Ret (c, nx)
  | Some _ => match fuel with
              | O => Panic out_of_fuel
              | S fuel => find_second_last fuel h c.2.(Next)
              end
  end.

Definition DelAtEnd l : outcome (LinkedList T * (T * bool)) :=
  match l.(Head) with
  | None => Ret (l, (zero, false))
  | Some _ =>
      hd ← load l.(heap) l.(Head);
      match hd.2.(Next) with
      | None => DelAtBeg l
      | Some _ =>
          r ← find_second_last (size l.(heap)) l.(heap) l.(Head);
          let '(cur, nx) := r in
          Ret (mkLinkedList (l.(length_) - 1) l.(Head)
                 (<[cur.1 := mkNode cur.2.(Val) None]> l.(heap)) l.(fresh),
               (nx.2.(Val), true))
      end
  end.

(** [for count < pos-1 { prev = cur; cur = cur.Next; count++ }], [k] rounds. *)
Fixpoint advance (k : nat) h (prev cur : option ptr) : outcome (option ptr * option ptr) :=
  match k with
  | O => Ret (prev, cur)
  | S k => c ← load h cur; advance k h cur c.2.(Next)
  end.

Definition DelByPos l (pos : Z) : outcome (LinkedList T * (T * bool)) :=
  match l.(Head) with
  | None => Ret (l, (zero, false))
  | Some _ =>
      if l.(length_) <? pos - 1 then Ret (l, (zero, false))
      else if pos - 1 =? 0 then DelAtBeg l
      else if pos - 1 =? LinkedList_Count l then DelAtEnd l
      else
        r ← advance (Z.to_nat (pos - 1)) l.(heap) None l.(Head);
        let '(prev, cur) := r in
        c ← load l.(heap) cur;
        p ← load l.(heap) prev;
        Ret (mkLinkedList (l.(length_) - 1) l.(Head)
               (<[p.1 := mkNode p.2.(Val) c.2.(Next)]> l.(heap)) l.(fresh),
             (c.2.(Val), true))
  end.

Fixpoint Reverse_loop (fuel : nat) h (prev cur : option ptr)
    : outcome (gmap ptr (Node T) * option ptr) :=
  match cur with
  | None => Ret (h, prev)
  | Some _ =>
      match fuel with
      | O => Panic out_of_fuel
      | S fuel =>
          c ← load h cur;
          Reverse_loop fuel (<[c.1 := mkNode c.2.(Val) prev]> h) cur c.2.(Next)
      end
  end.

Definition LinkedList_Reverse l : outcome (LinkedList T) :=
  r ← Reverse_loop (size l.(heap)) l.(heap) None l.(Head);
  Ret (mkLinkedList l.(length_) r.2 r.1 l.(fresh)).

Definition CheckRangeFromIndex l (left right : Z) : option range_error :=
  if right <? left then Some ErrLeftGreater
  else if left <? 1 then Some ErrLeftTooSmall
  else if l.(length_) <? right then Some ErrRightTooLarge
  else None.

(** [for i := 0; i < left-1; i++ { pre = pre.Next }], [k] rounds. *)
Fixpoint skip (k : nat) h (pre : option ptr) : outcome (option ptr) :=
  match k with
  | O => Ret pre
  | S k => c ← load h pre; skip k h c.2.(Next)
  end.

(** The body of the second loop: unlink the node after [cur] and put it behind [pre]. *)
Definition rotate h (pre cur : option ptr) : outcome (gmap ptr (Node T)) :=
  c ← load h cur;
  let next := c.2.(Next) in
  nx ← load h next;
  let h := <[c.1 := mkNode c.2.(Val) nx.2.(Next)]> h in
  p ← load h pre;
  nx' ← load h next;
  let h := <[nx'.1 := mkNode nx'.2.(Val) p.2.(Next)]> h in
  p' ← load h pre;
  Ret (<[p'.1 := mkNode p'.2.(Val) next]> h).

Fixpoint rotate_loop (k : nat) h (pre cur : option ptr) : outcome (gmap ptr (Node T)) :=
  match k with
  | O => Ret h
  | S k => h ← rotate h pre cur; rotate_loop k h pre cur
  end.

Definition ReversePartition l (left right : Z) : outcome (LinkedList T * option range_error) :=
  match CheckRangeFromIndex l left right with
  | Some e => Ret (l, Some e)
  | None =>
      let tmpNode := l.(fresh) in
      let h := <[tmpNode := mkNode zero l.(Head)]> l.(heap) in
      pre ← skip (Z.to_nat (left - 1)) h (Some tmpNode);
      p ← load h pre;
      let cur := p.2.(Next) in
      h ← rotate_loop (Z.to_nat (right - left)) h pre cur;
      t ← load h (Some tmpNode);
      Ret (mkLinkedList l.(length_) t.2.(Next) h (S tmpNode), None)
  end.

(** The values [Display] prints, in order. *)
Fixpoint Display_loop (fuel : nat) h (cur : option ptr) : outcome (list T) :=
  match cur with
  | None => Ret []
  | Some _ =>
      match fuel with
      | O => Panic out_of_fuel
      | S fuel => c ← load h cur; rest ← Display_loop fuel h c.2.(Next); Ret (c.2.(Val) :: rest)
      end
  end.

Definition LinkedList_Display l : outcome (list T) := Display_loop (size l.(heap)) l.(heap) l.(Head).

(** ** Chains of nodes *)

(** The nodes from [p] up to (not including) [q], as address-value pairs. *)
Fixpoint chain h (p : option ptr) (cells : list (ptr * T)) (q : option ptr) : Prop :=
  match cells with
  | [] => p = q
  | (a, x) :: cells => p = Some a ∧ ∃ nx, h !! a = Some (mkNode x nx) ∧ chain h nx cells q
  end.

(** The list represents the sequence of values of its cells. *)
Record represents l (xs : list T) (cells : list (ptr * T)) : Prop := {
  rp_chain : chain l.(heap) l.(Head) cells None;
  rp_nodup : NoDup cells.*1;
  rp_vals : cells.*2 = xs;
  rp_length : l.(length_) = Z.of_nat (length xs);
  rp_fresh : ∀ a nd, l.(heap) !! a = Some nd → (a < l.(fresh))%nat
}.

Definition rep l xs : Prop := ∃ cells, represents l xs cells.

Lemma chain_app h p cs1 cs2 q :
  chain h p (cs1 ++ cs2) q ↔ ∃ m, chain h p cs1 m ∧ chain h m cs2 q.
Proof.
  revert p. induction cs1 as [|[a x] cs1 IH]; intros p; cbn.
  { split; [eauto|]. by intros (m & -> & ?). }
  setoid_rewrite IH. naive_solver.
Qed.

Lemma chain_insert h p cs q a nd : (a ∉ cs.*1) → chain h p cs q → chain (<[a := nd]> h) p cs q.
Proof.
  revert p. induction cs as [|[b x] cs IH]; intros p; cbn; [done|].
  intros Ha%not_elem_of_cons (-> & nx & Hb & Hc). split; [done|]. exists nx.
  rewrite lookup_insert_ne by naive_solver. naive_solver.
Qed.

Lemma chain_allocated h p cs q : chain h p cs q → ∀ a, (a ∈ cs.*1) → is_Some (h !! a).
Proof.
  revert p. induction cs as [|[b x] cs IH]; intros p; cbn; [intros _ a; set_solver|].
  intros (-> & nx & Hb & Hc) a [->|Ha]%elem_of_cons; [eauto|by eapply IH].
Qed.

(** Distinct cells are no more than the allocated nodes: the loop bound. *)
Lemma chain_size h p cs q : chain h p cs q → NoDup cs.*1 → (length cs <= size h)%nat.
Proof.
  intros Hc Hn. rewrite <-(length_fmap fst), <-(size_list_to_set (C:=gset ptr)) by done.
  rewrite <-(size_dom h). apply subseteq_size. intros a Ha%elem_of_list_to_set.
  apply elem_of_dom. by eapply chain_allocated.
Qed.

Lemma chain_head h p a x cs q : chain h p ((a, x) :: cs) q →
  p = Some a ∧ ∃ nx, load h (Some a) = Ret (a, mkNode x nx) ∧ chain h nx cs q.
Proof. intros (-> & nx & Hl & Hc). split; [done|]. exists nx. cbn. by rewrite Hl. Qed.

Lemma load_insert_eq h a nd : load (<[a := nd]> h) (Some a) = Ret (a, nd).
Proof. cbn. by rewrite lookup_insert_eq. Qed.

Lemma load_insert_ne h a b nd : a ≠ b → load (<[a := nd]> h) (Some b) = load h (Some b).
Proof. intros Hne. cbn. by rewrite lookup_insert_ne. Qed.

Lemma load_Some h a nd : h !! a = Some nd → load h (Some a) = Ret (a, nd).
Proof. intros Hl. cbn. by rewrite Hl. Qed.

(** *** Adding *)

Lemma fresh_not_in l xs cells : represents l xs cells → l.(fresh) ∉ cells.*1.
Proof.
  intros [Hc _ _ _ Hf] Hin. destruct (chain_allocated _ _ _ _ Hc _ Hin) as [nd Hnd].
  apply Hf in Hnd. lia.
Qed.

Lemma AddAtBeg_spec l xs val : rep l xs → rep (AddAtBeg l val) (val :: xs).
Proof.
  intros [cells Hr]. pose proof (fresh_not_in _ _ _ Hr) as Hfr. destruct Hr as [Hc Hn Hv Hl Hf].
  exists ((l.(fresh), val) :: cells). split; cbn.
  - split; [done|]. exists l.(Head). rewrite lookup_insert_eq. split; [done|]. by apply chain_insert.
  - by constructor.
  - by rewrite Hv.
  - rewrite Hl. lia.
  - intros a nd. rewrite lookup_insert. case_decide; [lia|]. intros Ha%Hf. lia.
Qed.

Lemma find_last_spec fuel h p cs a x :
  chain h p (cs ++ [(a, x)]) None → (length cs <= fuel)%nat →
  find_last fuel h p = Ret (a, mkNode x None).
Proof.
  revert fuel p. induction cs as [|[b y] cs IH]; intros fuel p Hc Hf.
  - cbn in Hc. destruct Hc as (-> & nx & Ha & ->). destruct fuel; cbn; by rewrite Ha.
  - destruct (chain_head _ _ _ _ _ _ Hc) as (-> & nx & Hl & Hc').
    destruct fuel as [|fuel]; [cbn in Hf; lia|]. cbn [find_last]. rewrite Hl. cbn.
    destruct nx as [nx|]; [|by destruct cs as [|[]]; destruct Hc'].
    apply IH; [done|cbn in Hf; lia].
Qed.

(** Relinking the last cell extends the chain. *)
Lemma chain_relink h p cs a x q nx :
  NoDup (cs ++ [(a, x)]).*1 → chain h p (cs ++ [(a, x)]) q →
  chain (<[a := mkNode x nx]> h) p (cs ++ [(a, x)]) nx.
Proof.
  rewrite fmap_app. intros (_ & Hd & _)%NoDup_app (m & H1 & H2)%chain_app.
  apply chain_app. exists m. split.
  - apply chain_insert; [|done]. intros Ha. apply (Hd a Ha). set_solver.
  - cbn in *. destruct H2 as (-> & ? & Ha & ->). split; [done|]. exists nx.
    by rewrite lookup_insert_eq.
Qed.

Lemma AddAtEnd_spec l xs val :
  rep l xs → ∃ l', AddAtEnd l val = Ret l' ∧ rep l' (xs ++ [val]).
Proof.
  intros [cells Hr]. pose proof (fresh_not_in _ _ _ Hr) as Hfr. destruct Hr as [Hc Hn Hv Hl Hf].
  unfold AddAtEnd. destruct cells as [|c0 cells] using rev_ind.
  - cbn in Hc. rewrite Hc. cbn in Hv. subst xs. eexists. split; [done|].
    exists [(l.(fresh), val)]. split; cbn.
    + split; [done|]. exists None. by rewrite lookup_insert_eq.
    + apply NoDup_singleton.
    + done.
    + rewrite Hl. done.
    + intros a nd. rewrite lookup_insert. case_decide; [lia|]. intros Ha%Hf. lia.
  - clear IHcells. destruct c0 as [a x]. set (n := l.(fresh)) in *.
    set (h := <[n := mkNode val None]> l.(heap)).
    assert (chain h l.(Head) (cells ++ [(a, x)]) None) as Hch by (by apply chain_insert).
    assert (is_Some l.(Head)) as [hd Hhd]
      by (destruct cells as [|[]]; cbn in Hc; destruct Hc as (-> & _); eauto).
    rewrite Hhd in Hch, Hc |- *.
    rewrite (find_last_spec _ h _ cells a x Hch).
    2:{ pose proof (chain_size _ _ _ _ Hch Hn) as Hs. rewrite length_app in Hs. lia. }
    cbn. eexists. split; [done|]. exists ((cells ++ [(a, x)]) ++ [(n, val)]).
    assert (a ≠ n) by (intros ->; apply Hfr; rewrite fmap_app; set_solver).
    split; cbn.
    + apply chain_app. exists (Some n). split; [by apply (chain_relink _ _ _ _ _ None)|].
      cbn. split; [done|]. exists None. rewrite lookup_insert_ne by done.
      unfold h. by rewrite lookup_insert_eq.
    + rewrite fmap_app. apply NoDup_app. split_and!; [done| |apply NoDup_singleton].
      intros b Hb ->%list_elem_of_singleton. done.
    + by rewrite fmap_app, Hv.
    + rewrite Hl, length_app. cbn. lia.
    + intros b nd. unfold h. rewrite !lookup_insert. repeat case_decide; subst; try lia.
      * intros _. assert (is_Some (l.(heap) !! b)) as [nd' Hb].
        { eapply chain_allocated; [exact Hc|]. rewrite fmap_app. set_solver. }
        apply Hf in Hb. unfold n. lia.
      * intros Hb%Hf. unfold n. lia.
Qed.

(** *** Deleting at the two ends *)

Lemma DelAtBeg_nil l : rep l [] → DelAtBeg l = Ret (l, (zero, false)).
Proof.
  intros [cells [Hc _ Hv _ _]]. destruct cells; [|done]. cbn in Hc. unfold DelAtBeg. by rewrite Hc.
Qed.

Lemma DelAtBeg_cons l x xs :
  rep l (x :: xs) → ∃ l', DelAtBeg l = Ret (l', (x, true)) ∧ rep l' xs.
Proof.
  intros [cells [Hc Hn Hv Hl Hf]]. destruct cells as [|[a y] cells]; [done|].
  cbn in Hv. simplify_eq. destruct (chain_head _ _ _ _ _ _ Hc) as (Hhd & nx & Hld & Hc').
  unfold DelAtBeg. rewrite Hhd, Hld. cbn. eexists. split; [done|].
  exists cells. apply NoDup_cons in Hn as [_ Hn]. split; cbn; try done.
  rewrite Hl. cbn. lia.
Qed.

Lemma find_second_last_spec fuel h p cs a x b y :
  chain h p (cs ++ [(a, x); (b, y)]) None → (length cs <= fuel)%nat →
  find_second_last fuel h p = Ret ((a, mkNode x (Some b)), (b, mkNode y None)).
Proof.
  revert fuel p. induction cs as [|[c z] cs IH]; intros fuel p Hc Hf.
  - cbn in Hc. destruct Hc as (-> & nx & Ha & -> & nx' & Hb & ->).
    destruct fuel; cbn; by rewrite Ha; cbn; rewrite Hb.
  - destruct (chain_head _ _ _ _ _ _ Hc) as (-> & nx & Hl & Hc').
    destruct fuel as [|fuel]; [cbn in Hf; lia|]. cbn [find_second_last]. rewrite Hl. cbn.
    assert (∃ d w nx', load h nx = Ret (d, mkNode w (Some nx'))) as (d & w & nx' & Hl').
    { destruct cs as [|[d w] cs]; cbn in Hc'.
      - destruct Hc' as (-> & nx' & Ha & -> & _). exists a, x, b. by apply load_Some.
      - destruct Hc' as (-> & nx' & Ha & Hc'').
        destruct nx' as [nx'|]; [|by destruct cs as [|[]]; destruct Hc''].
        exists d, w, nx'. by apply load_Some. }
    rewrite Hl'. cbn. apply IH; [done|cbn in Hf; lia].
Qed.

Lemma DelAtEnd_nil l : rep l [] → DelAtEnd l = Ret (l, (zero, false)).
Proof.
  intros [cells [Hc _ Hv _ _]]. destruct cells; [|done]. cbn in Hc. unfold DelAtEnd. by rewrite Hc.
Qed.

Lemma DelAtEnd_snoc l xs x :
  rep l (xs ++ [x]) → ∃ l', DelAtEnd l = Ret (l', (x, true)) ∧ rep l' xs.
Proof.
  intros Hrep. pose proof Hrep as [cells [Hc Hn Hv Hl Hf]].
  destruct cells as [|[b y] cells _] using rev_ind; [by destruct xs|].
  rewrite fmap_app in Hv. cbn in Hv. apply app_inj_tail in Hv as [Hv ->].
  destruct cells as [|[a z] cells _] using rev_ind.
  - cbn in Hv. subst xs. cbn in Hc. destruct Hc as (Hhd & nx & Hb & ->).
    unfold DelAtEnd. rewrite Hhd, (load_Some _ _ _ Hb). cbn.
    by apply DelAtBeg_cons.
  - rewrite <-app_assoc in Hc. cbn in Hc.
    assert (∃ hd nd nx, l.(Head) = Some hd ∧ load l.(heap) (Some hd) = Ret (hd, nd) ∧
              Next nd = Some nx) as (hd & nd & nx & Hhd & Hld & Hnx).
    { destruct cells as [|[c w] cells]; cbn in Hc.
      - destruct Hc as (-> & nx & Ha & -> & _). exists a, (mkNode z (Some b)), b. split_and!; try done.
        by apply load_Some.
      - destruct Hc as (-> & nx & Ha & Hc').
        destruct nx as [nx|]; [|by destruct cells as [|[]]; destruct Hc'].
        exists c, (mkNode w (Some nx)), nx. split_and!; try done. by apply load_Some. }
    unfold DelAtEnd. rewrite Hhd in Hc |- *. rewrite Hld. cbn. rewrite Hnx.
    rewrite (find_second_last_spec _ _ _ cells a z b x Hc).
    2:{ pose proof (chain_size _ _ _ _ Hc) as Hs. rewrite !fmap_app in *. cbn in *.
        rewrite <-app_assoc in Hn. specialize (Hs Hn). rewrite length_app in Hs. lia. }
    cbn. eexists. split; [done|]. exists (cells ++ [(a, z)]).
    rewrite !fmap_app in Hn. cbn in Hn. apply NoDup_app in Hn as (Hn & _ & _).
    split; cbn.
    + replace [(a, z); (b, x)] with ([(a, z)] ++ [(b, x)]) in Hc by done.
      rewrite app_assoc in Hc. apply chain_app in Hc as (m & Hc & _).
      eapply chain_relink; [by rewrite fmap_app|exact Hc].
    + by rewrite fmap_app.
    + done.
    + rewrite Hl, length_app. cbn. lia.
    + intros c nd'. rewrite lookup_insert. case_decide; [|apply Hf].
      intros _. subst c. assert (is_Some (l.(heap) !! a)) as [nd'' Ha]; [|by eapply Hf].
      eapply chain_allocated; [exact Hc|]. rewrite fmap_app. set_solver.
Qed.

(** *** Deleting by position *)

Lemma advance_spec h prev p cs a x q cs2 :
  chain h p (cs ++ (a, x) :: cs2) q →
  advance (length cs) h prev p =
    Ret (match last cs with Some c => Some c.1 | None => prev end, Some a).
Proof.
  revert prev p. induction cs as [|[b y] cs IH]; intros prev p Hc.
  - cbn in Hc. destruct Hc as (-> & _). done.
  - destruct (chain_head _ _ _ _ _ _ Hc) as (-> & nx & Hl & Hc').
    cbn [advance length]. rewrite Hl. cbn. rewrite (IH _ _ Hc').
    destruct cs as [|c cs]; [done|].
    change (last ((b, y) :: c :: cs)) with (last (c :: cs)).
    destruct (last (c :: cs)) eqn:El; [done|]. by apply last_None in El.
Qed.

Lemma represents_insert_fresh l xs cells a nd :
  represents l xs cells → (a ∈ cells.*1) →
  ∀ b nd', <[a := nd]> l.(heap) !! b = Some nd' → (b < l.(fresh))%nat.
Proof.
  intros [Hc _ _ _ Hf] Ha b nd'. rewrite lookup_insert. case_decide; [|apply Hf].
  intros _. subst b. destruct (chain_allocated _ _ _ _ Hc a Ha) as [nd'' Hnd]. by eapply Hf.
Qed.

Lemma DelByPos_middle l xs1 y x xs2 :
  rep l (xs1 ++ y :: x :: xs2) →
  ∃ l', DelByPos l (Z.of_nat (length xs1) + 2) = Ret (l', (x, true)) ∧ rep l' (xs1 ++ y :: xs2).
Proof.
  intros [cells Hr]. pose proof Hr as [Hc Hn Hv Hl Hf].
  apply fmap_app_inv in Hv as (cs1 & cs2 & Hv1 & Hv2 & ->).
  destruct cs2 as [|[b y'] [|[a x'] cs2]]; try done. cbn in Hv2.
  injection Hv2 as <- <- ->. subst xs1. rewrite length_app in Hl. cbn in Hl.
  assert (∃ hd, l.(Head) = Some hd) as [hd Hhd]
    by (destruct cs1 as [|[]]; cbn in Hc; destruct Hc as (-> & _); eauto).
  unfold DelByPos, LinkedList_Count. rewrite Hhd in Hc |- *.
  rewrite (proj2 (Z.ltb_ge _ _)), !(proj2 (Z.eqb_neq _ _)) by lia.
  assert (chain l.(heap) (Some hd) ((cs1 ++ [(b, y)]) ++ (a, x) :: cs2) None) as Hc1
    by (by rewrite <-app_assoc).
  replace (Z.to_nat _) with (length (cs1 ++ [(b, y)])) by (rewrite length_app, !length_fmap; cbn; lia).
  rewrite (advance_spec _ _ _ _ _ _ _ _ Hc1), last_snoc. cbn.
  pose proof Hc1 as (m & Hcb & Hca)%chain_app.
  destruct (chain_head _ _ _ _ _ _ Hca) as (-> & nx & Hla & Hc2).
  pose proof Hcb as (m' & _ & -> & nx' & Hb & Hnx')%chain_app. cbn in Hnx'. subst nx'.
  change (match heap l !! a with Some nd => Ret (a, nd) | None => _ end) with (load (heap l) (Some a)).
  rewrite Hla. cbn. rewrite Hb. cbn. eexists. split; [done|].
  assert (b ∈ (cs1 ++ (b, y) :: (a, x) :: cs2).*1) as Hbin by (rewrite fmap_app; set_solver).
  pose proof (represents_insert_fresh _ _ _ b (mkNode y nx) Hr Hbin) as Hfr.
  rewrite fmap_app in Hn. cbn in Hn.
  exists ((cs1 ++ [(b, y)]) ++ cs2). split; cbn.
  - apply chain_app. exists nx. rewrite !NoDup_app, !NoDup_cons in Hn. split.
    + eapply chain_relink; [|exact Hcb]. rewrite fmap_app. apply NoDup_app. cbn.
      split_and!; [apply Hn| |apply NoDup_singleton]. set_solver.
    + apply chain_insert; [set_solver|done].
  - rewrite !fmap_app. cbn. rewrite <-app_assoc. cbn.
    rewrite !NoDup_app, !NoDup_cons in *. set_solver.
  - by rewrite !fmap_app, <-app_assoc.
  - rewrite length_app in *. cbn. lia.
  - exact Hfr.
Qed.

(** *** Reversal *)

Lemma Reverse_loop_spec fuel h prev cur cs rs :
  chain h cur cs None → chain h prev rs None → NoDup (cs.*1 ++ rs.*1) →
  (length cs <= fuel)%nat →
  ∃ h' p', Reverse_loop fuel h prev cur = Ret (h', p') ∧ chain h' p' (reverse cs ++ rs) None ∧
    ∀ a, is_Some (h' !! a) → is_Some (h !! a).
Proof.
  revert fuel h prev cur rs. induction cs as [|[a x] cs IH]; intros fuel h prev cur rs Hc Hr Hn Hf.
  - cbn in Hc. subst cur. exists h, prev. split; [by destruct fuel|]. done.
  - destruct (chain_head _ _ _ _ _ _ Hc) as (-> & nx & Hl & Hc').
    destruct fuel as [|fuel]; [cbn in Hf; lia|]. cbn [Reverse_loop]. rewrite Hl.
    cbn [mbind outcome_bind fst snd Val Next]. cbn in Hn. apply NoDup_cons in Hn as [Ha Hn].
    destruct (IH fuel (<[a := mkNode x prev]> h) (Some a) nx ((a, x) :: rs))
      as (h' & p' & Hrun & Hch & Hdom).
    + apply chain_insert; [set_solver|done].
    + split; [done|]. exists prev. rewrite lookup_insert_eq. split; [done|].
      apply chain_insert; [set_solver|done].
    + cbn. apply NoDup_app in Hn as (Hn1 & Hn2 & Hn3).
      apply NoDup_app. rewrite NoDup_cons. set_solver.
    + cbn in Hf. lia.
    + exists h', p'. split; [done|]. rewrite reverse_cons, <-app_assoc. split; [done|].
      intros b Hb%Hdom. destruct (decide (a = b)) as [<-|].
      * destruct Hc as (_ & ? & -> & _). eauto.
      * by rewrite lookup_insert_ne in Hb.
Qed.

Lemma Reverse_spec l xs : rep l xs → ∃ l', LinkedList_Reverse l = Ret l' ∧ rep l' (reverse xs).
Proof.
  intros [cells [Hc Hn Hv Hl Hf]]. unfold LinkedList_Reverse.
  destruct (Reverse_loop_spec (size l.(heap)) l.(heap) None l.(Head) cells [])
    as (h' & p' & -> & Hch & Hdom); [done|done|by rewrite app_nil_r|by eapply chain_size|].
  rewrite app_nil_r in Hch. cbn. eexists. split; [done|]. exists (reverse cells). split; cbn.
  - done.
  - by rewrite fmap_reverse, reverse_Permutation.
  - by rewrite fmap_reverse, Hv.
  - by rewrite length_reverse.
  - intros a nd Ha. destruct (Hdom a) as [nd' Hnd]; eauto.
Qed.

Lemma skip_spec h p cs a x cs2 q :
  chain h p (cs ++ (a, x) :: cs2) q → skip (length cs) h p = Ret (Some a).
Proof.
  revert p. induction cs as [|[b y] cs IH]; intros p Hc.
  - cbn in Hc. by destruct Hc as (-> & _).
  - destruct (chain_head _ _ _ _ _ _ Hc) as (-> & nx & Hl & Hc').
    cbn [skip length]. rewrite Hl. cbn. by apply IH.
Qed.

(** One round: the node behind [cur] moves to the position behind [pre]. *)
Lemma rotate_spec h p A pre w R cur c nx y rest :
  NoDup (A ++ (pre, w) :: R ++ (cur, c) :: (nx, y) :: rest).*1 →
  chain h p (A ++ (pre, w) :: R ++ (cur, c) :: (nx, y) :: rest) None →
  ∃ h', rotate h (Some pre) (Some cur) = Ret h' ∧
    chain h' p (A ++ (pre, w) :: (nx, y) :: R ++ (cur, c) :: rest) None ∧
    ∀ a, is_Some (h' !! a) → is_Some (h !! a).
Proof.
  intros Hn (m & HA & Hm)%chain_app. cbn in Hm.
  destruct Hm as (-> & n0 & Hpre & (m' & HR & Hm)%chain_app). cbn in Hm.
  destruct Hm as (-> & nn & Hcur & -> & n1 & Hnx & Hrest).
  rewrite fmap_app in Hn. cbn in Hn. rewrite fmap_app in Hn. cbn in Hn.
  assert (∀ z, z ∈ [pre; cur; nx] → (z ∉ A.*1) ∧ (z ∉ R.*1) ∧ (z ∉ rest.*1)) as Hout.
  { rewrite !NoDup_app, !NoDup_cons, !NoDup_app, !NoDup_cons in Hn. set_solver. }
  assert (pre ≠ cur ∧ pre ≠ nx ∧ cur ≠ nx) as (? & ? & ?).
  { rewrite !NoDup_app, !NoDup_cons, !NoDup_app, !NoDup_cons in Hn. set_solver. }
  unfold rotate. rewrite (load_Some _ _ _ Hcur). cbn [mbind outcome_bind fst snd Next Val].
  rewrite (load_Some _ _ _ Hnx). cbn [mbind outcome_bind fst snd Next Val].
  rewrite !(load_insert_ne h cur) by done.
  rewrite (load_Some _ _ _ Hpre), (load_Some _ _ _ Hnx). cbn [mbind outcome_bind fst snd Next Val].
  rewrite (load_insert_ne _ nx), (load_insert_ne h cur), (load_Some _ _ _ Hpre) by done.
  cbn [mbind outcome_bind fst snd Next Val]. eexists. split; [reflexivity|]. split.
  - apply chain_app. exists (Some pre). split; [by repeat (apply chain_insert; [apply Hout; set_solver|])|].
    cbn. split; [done|]. exists (Some nx). rewrite lookup_insert_eq. split; [done|].
    split; [done|]. exists n0. rewrite lookup_insert_ne, lookup_insert_eq by done. split; [done|].
    apply chain_app. exists (Some cur). split; [by repeat (apply chain_insert; [apply Hout; set_solver|])|].
    cbn. split; [done|]. exists n1. rewrite !lookup_insert_ne, lookup_insert_eq by done.
    split; [done|]. by repeat (apply chain_insert; [apply Hout; set_solver|]).
  - intros a. rewrite !lookup_insert. repeat case_decide; subst; eauto.
Qed.

Lemma rotate_loop_spec h p A pre w R cur c S rest :
  NoDup (A ++ (pre, w) :: R ++ (cur, c) :: S ++ rest).*1 →
  chain h p (A ++ (pre, w) :: R ++ (cur, c) :: S ++ rest) None →
  ∃ h', rotate_loop (length S) h (Some pre) (Some cur) = Ret h' ∧
    chain h' p (A ++ (pre, w) :: reverse S ++ R ++ (cur, c) :: rest) None ∧
    ∀ a, is_Some (h' !! a) → is_Some (h !! a).
Proof.
  revert h R. induction S as [|[nx y] S IH]; intros h R Hn Hc; [by exists h|].
  cbn [rotate_loop length].
  destruct (rotate_spec h p A pre w R cur c nx y (S ++ rest) Hn Hc) as (h1 & -> & Hc1 & Hd1).
  destruct (IH h1 ((nx, y) :: R)) as (h' & Hrun & Hc' & Hd'); [|done|].
  - refine (proj1 (NoDup_Permutation_proper _ _ _) Hn). apply fmap_Permutation.
    apply Permutation_app_head, perm_skip. cbn [app].
    rewrite (Permutation_middle R ((cur, c) :: S ++ rest)).
    apply Permutation_app_head. apply perm_swap.
  - exists h'. split; [exact Hrun|]. split; [|eauto].
    rewrite reverse_cons, <-app_assoc. exact Hc'.
Qed.

Lemma ReversePartition_spec l xs1 x xs2 xs3 :
  rep l (xs1 ++ x :: xs2 ++ xs3) →
  ∃ l', ReversePartition l (Z.of_nat (length xs1) + 1) (Z.of_nat (length xs1) + 1 + Z.of_nat (length xs2))
          = Ret (l', None) ∧
    rep l' (xs1 ++ reverse (x :: xs2) ++ xs3).
Proof.
  intros [cells Hr]. pose proof (fresh_not_in _ _ _ Hr) as Hfr. destruct Hr as [Hc Hn Hv Hl Hf].
  apply fmap_app_inv in Hv as (C1 & C' & -> & Hv' & ->).
  destruct C' as [|[cur c] C']; [done|]. cbn in Hv'. injection Hv' as -> Hv'.
  symmetry in Hv'. apply fmap_app_inv in Hv' as (S & C3 & -> & -> & ->).
  unfold ReversePartition, CheckRangeFromIndex.
  rewrite !length_app, !length_fmap in *. cbn in Hl. rewrite length_app, !length_fmap in Hl.
  rewrite !(proj2 (Z.ltb_ge _ _)) by lia.
  set (tmp := l.(fresh)) in *. set (h := <[tmp := mkNode zero l.(Head)]> l.(heap)).
  assert (chain h (Some tmp) (((tmp, zero) :: C1) ++ (cur, c) :: S ++ C3) None) as Hch.
  { cbn. split; [done|]. exists l.(Head). split; [apply lookup_insert_eq|].
    by apply chain_insert. }
  assert (NoDup (((tmp, zero) :: C1) ++ (cur, c) :: S ++ C3).*1) as Hn' by (by constructor).
  destruct (exists_last (l:=(tmp, zero) :: C1)) as (A & [pre w] & HA); [done|].
  rewrite HA, <-app_assoc in Hch, Hn'. cbn in Hch, Hn'.
  assert (length C1 = length A) as HlA
    by (apply (f_equal length) in HA; rewrite length_app in HA; cbn in HA; lia).
  replace (Z.to_nat (Z.of_nat (length C1) + 1 - 1)) with (length A) by lia.
  rewrite (skip_spec _ _ _ _ _ _ _ Hch). cbn [mbind outcome_bind].
  pose proof Hch as (m & _ & -> & n0 & Hpre & Hc0)%chain_app. cbn in Hc0.
  destruct Hc0 as (-> & _). rewrite (load_Some _ _ _ Hpre). cbn [mbind outcome_bind fst snd Next].
  replace (Z.to_nat (_ + _ - _)) with (length S) by lia.
  destruct (rotate_loop_spec h (Some tmp) A pre w [] cur c S C3 Hn' Hch) as (h' & -> & Hc' & Hd').
  cbn [mbind outcome_bind app] in *.
  replace (A ++ (pre, w) :: reverse S ++ (cur, c) :: C3)
    with ((tmp, zero) :: C1 ++ reverse S ++ (cur, c) :: C3) in Hc'
    by (change (?a :: C1 ++ ?b) with ((a :: C1) ++ b); by rewrite HA, <-app_assoc).
  destruct (chain_head _ _ _ _ _ _ Hc') as (_ & nx & -> & Hc''). cbn [mbind outcome_bind fst snd Next].
  eexists. split; [reflexivity|]. exists (C1 ++ reverse S ++ (cur, c) :: C3). split; cbn [heap Head fresh length_].
  - done.
  - refine (proj1 (NoDup_Permutation_proper _ _ _) Hn). apply fmap_Permutation.
    apply Permutation_app_head. rewrite <-Permutation_middle. apply perm_skip.
    by rewrite reverse_Permutation.
  - by rewrite !fmap_app, fmap_reverse, reverse_cons, <-app_assoc.
  - rewrite !length_app, length_reverse, !length_fmap. cbn. rewrite !length_fmap. lia.
  - intros a nd Ha. destruct (Hd' a) as [nd' Hnd]; [eauto|]. unfold h in Hnd.
    rewrite lookup_insert in Hnd. case_decide; [lia|]. apply Hf in Hnd. lia.
Qed.

Lemma Display_loop_spec fuel h p cs :
  chain h p cs None → (length cs <= fuel)%nat → Display_loop fuel h p = Ret cs.*2.
Proof.
  revert fuel p. induction cs as [|[a x] cs IH]; intros fuel p Hc Hf.
  - cbn in Hc. subst p. by destruct fuel.
  - destruct (chain_head _ _ _ _ _ _ Hc) as (-> & nx & Hl & Hc').
    destruct fuel as [|fuel]; [cbn in Hf; lia|]. cbn [Display_loop]. rewrite Hl. cbn.
    rewrite IH; [done|done|cbn in Hf; lia].
Qed.

Lemma Display_spec l xs : rep l xs → LinkedList_Display l = Ret xs.
Proof.
  intros [cells [Hc Hn Hv Hl Hf]]. unfold LinkedList_Display.
  rewrite (Display_loop_spec _ _ _ cells); [by rewrite Hv|done|by eapply chain_size].
Qed.

Lemma NewLinkedList_rep : rep NewLinkedList [].
Proof. exists []. split; cbn; [done|constructor|done|done|]. intros a nd. by rewrite lookup_empty. Qed.

(** Refinement to sequences: on a list that represents [xs], insertion and
    deletion at either end, [Reverse], [ReversePartition] of a non-empty range and
    [Display] return without panicking or exhausting their loop bounds, hand back the
    expected values, and leave a list that represents the updated sequence (with its
    length field in step); deletion from an empty list reports failure. *)
Theorem LinkedList_refines_sequence l xs :
  rep l xs →
  rep NewLinkedList [] ∧ LinkedList_Count l = Z.of_nat (length xs) ∧ LinkedList_Display l = Ret xs ∧
  (∀ v, rep (AddAtBeg l v) (v :: xs)) ∧
  (∀ v, ∃ l', AddAtEnd l v = Ret l' ∧ rep l' (xs ++ [v])) ∧
  (∀ x ys, xs = x :: ys → ∃ l', DelAtBeg l = Ret (l', (x, true)) ∧ rep l' ys) ∧
  (∀ x ys, xs = ys ++ [x] → ∃ l', DelAtEnd l = Ret (l', (x, true)) ∧ rep l' ys) ∧
  (xs = [] → DelAtBeg l = Ret (l, (zero, false)) ∧ DelAtEnd l = Ret (l, (zero, false))) ∧
  (∃ l', LinkedList_Reverse l = Ret l' ∧ rep l' (reverse xs)) ∧
  (∀ xs1 x xs2 xs3, xs = xs1 ++ x :: xs2 ++ xs3 →
     ∃ l', ReversePartition l (Z.of_nat (length xs1) + 1)
             (Z.of_nat (length xs1) + 1 + Z.of_nat (length xs2)) = Ret (l', None) ∧
       rep l' (xs1 ++ reverse (x :: xs2) ++ xs3)).
Proof.
  intros Hr. split_and!; [apply NewLinkedList_rep|by destruct Hr as [? [? ? ? ? ?]]|by apply Display_spec|..].
  - intros v. by apply AddAtBeg_spec.
  - intros v. by apply AddAtEnd_spec.
  - intros x ys ->. by apply DelAtBeg_cons.
  - intros x ys ->. by apply DelAtEnd_snoc.
  - intros ->. split; [by apply DelAtBeg_nil|by apply DelAtEnd_nil].
  - by apply Reverse_spec.
  - intros xs1 x xs2 xs3 ->. by apply ReversePartition_spec.
Qed.

(** What [DelByPos] does at every position of a non-empty list of length [n]:
    positions 1 to [n] delete that element; position [n + 1] deletes the last one
    instead of being refused; larger positions are refused and change nothing;
    position 0 and below dereference nil. *)
Theorem DelByPos_behaviour l xs pos :
  rep l xs → xs ≠ [] →
  (1 <= pos <= Z.of_nat (length xs) →
     ∃ l' x, xs !! Z.to_nat (pos - 1) = Some x ∧ DelByPos l pos = Ret (l', (x, true)) ∧
       rep l' (delete (Z.to_nat (pos - 1)) xs)) ∧
  (pos = Z.of_nat (length xs) + 1 →
     ∃ l' x ys, xs = ys ++ [x] ∧ DelByPos l pos = Ret (l', (x, true)) ∧ rep l' ys) ∧
  (Z.of_nat (length xs) + 1 < pos → DelByPos l pos = Ret (l, (zero, false))) ∧
  (pos <= 0 → DelByPos l pos = Panic nil_dereference).
Proof.
  intros Hr Hne. pose proof Hr as [cells [Hc Hn Hv Hl Hf]].
  destruct cells as [|[a y] cells]; [by destruct xs|].
  destruct (chain_head _ _ _ _ _ _ Hc) as (Hhd & nx & Hld & _). split_and!.
  - intros Hp. destruct (decide (pos = 1)) as [->|].
    + destruct xs as [|x xs]; [done|]. destruct (DelAtBeg_cons l x xs Hr) as (l' & Hd & Hr').
      exists l', x. split_and!; [done| |done]. unfold DelByPos. rewrite Hhd.
      rewrite (proj2 (Z.ltb_ge _ _)) by (rewrite Hl; lia). done.
    + assert (∃ xs1 z x xs2, xs = xs1 ++ z :: x :: xs2 ∧ Z.of_nat (length xs1) + 2 = pos)
        as (xs1 & z & x & xs2 & -> & <-).
      { exists (take (Z.to_nat (pos - 2)) xs).
        destruct (drop (Z.to_nat (pos - 2)) xs) as [|z [|x xs2]] eqn:Ed;
          pose proof (f_equal length Ed) as El; rewrite length_drop in El; cbn in El; try lia.
        exists z, x, xs2. rewrite <-Ed, take_drop, length_take. split; [done|lia]. }
      destruct (DelByPos_middle l xs1 z x xs2 Hr) as (l' & Hd & Hr').
      exists l', x. replace (Z.to_nat (Z.of_nat (length xs1) + 2 - 1)) with (length xs1 + 1)%nat by lia.
      split_and!; [by rewrite lookup_app_r, Nat.add_comm, Nat.add_sub by lia|done|].
      rewrite delete_take_drop. replace (S (length xs1 + 1)) with (length xs1 + 2)%nat by lia.
      rewrite take_app_add, drop_app_add. cbn. by rewrite <-app_assoc.
  - intros ->. destruct xs as [|x xs _] using rev_ind; [done|].
    destruct (DelAtEnd_snoc l xs x Hr) as (l' & Hd & Hr'). exists l', x, xs. split_and!; try done.
    unfold DelByPos, LinkedList_Count. rewrite Hhd, Hl.
    rewrite (proj2 (Z.ltb_ge _ _)) by lia. rewrite length_app. cbn [length].
    rewrite (proj2 (Z.eqb_neq _ 0)), (proj2 (Z.eqb_eq _ _)) by lia. done.
  - intros Hp. unfold DelByPos. rewrite Hhd, Hl. by rewrite (proj2 (Z.ltb_lt _ _)) by lia.
  - intros Hp. unfold DelByPos, LinkedList_Count. rewrite Hhd, Hl.
    rewrite (proj2 (Z.ltb_ge _ _)), !(proj2 (Z.eqb_neq _ _)) by lia.
    replace (Z.to_nat (pos - 1)) with 0%nat by lia. cbn [advance mbind outcome_bind].
    rewrite Hld. done.
Qed.
End linked_list.

Lemma LinkedList_refines_sequence_witness :
  ∃ l', ReversePartition 0 (AddAtBeg (AddAtBeg (AddAtBeg NewLinkedList 30) 20) 10) 1 2 = Ret (l', None) ∧
    rep l' [20; 10; 30].
Proof.
  assert (rep (AddAtBeg (AddAtBeg (AddAtBeg NewLinkedList 30) 20) 10) [10; 20; 30]) as Hr
    by (repeat apply AddAtBeg_spec; apply NewLinkedList_rep).
  destruct (LinkedList_refines_sequence 0 _ _ Hr) as (_ & _ & _ & _ & _ & _ & _ & _ & _ & H).
  exact (H [] 10 [20] [30] eq_refl).
Defined.

Lemma DelByPos_behaviour_witness :
  (∃ l', DelByPos 0 (AddAtBeg (AddAtBeg NewLinkedList 20) 10) 3 = Ret (l', (20, true))) ∧
  DelByPos 0 (AddAtBeg (AddAtBeg NewLinkedList 20) 10) 0 = Panic nil_dereference.
Proof.
  assert (rep (AddAtBeg (AddAtBeg NewLinkedList 20) 10) [10; 20]) as Hr
    by (repeat apply AddAtBeg_spec; apply NewLinkedList_rep).
  split.
  - destruct (DelByPos_behaviour 0 _ _ 3 Hr ltac:(discriminate)) as (_ & H & _).
    destruct (H eq_refl) as (l' & x & ys & Hx & Hd & _).
    destruct ys as [|? [|? [|? ?]]]; try discriminate Hx. injection Hx as <- <-. exists l'. exact Hd.
  - apply (DelByPos_behaviour 0 _ _ 0 Hr ltac:(discriminate)). lia.
Defined.
