(* ===== verification/Collections.v ===== *)
(** * Small collections and number packing ([src/utils/stdlib/stack.go],
    [concurrent_map.go], [src/utils/types/numbers.go])

    The stack and the locked string dictionary as state transformers, and the
    packing of two int32 values into an int64 with its inverses. A nil dictionary
    reads as empty. *)

From Stdlib Require Import ZArith Lia.
From S2P Require Import Prelude.
Local Open Scope Z_scope.

(** ** Stack *)

Record Array (T : Type) := mkArray { elements : list T }.
Arguments mkArray {T}.
Arguments elements {T}.

Section stack.
Context {T : Type} (zero : T).
Implicit Types s : Array T.

Definition NewStack : Array T := mkArray [].
Definition Stack_Push s (value : T) : Array T := mkArray (s.(elements) ++ [value]).
Definition Stack_Length s : Z := Z.of_nat (length s.(elements)).
Definition Stack_IsEmpty s : bool := Stack_Length s =? 0.

Definition Stack_Peek s : outcome T :=
  if Stack_IsEmpty s then Ret zero else slice_get s.(elements) (Stack_Length s - 1).

Definition Stack_Pop s : outcome (Array T * T) :=
  if Stack_IsEmpty s then Ret (s, zero)
  else
    let index := Stack_Length s - 1 in
    popped ← slice_get s.(elements) index;
    Ret (mkArray (take (Z.to_nat index) s.(elements)), popped).

(** The stack as a list, top first. *)
Definition stack_abs s : list T := reverse s.(elements).

Lemma Stack_Push_abs s v : stack_abs (Stack_Push s v) = v :: stack_abs s.
Proof. apply reverse_snoc. Qed.

Lemma Stack_IsEmpty_abs s : Stack_IsEmpty s = bool_decide (stack_abs s = []).
Proof.
  unfold Stack_IsEmpty, Stack_Length, stack_abs. destruct (elements s) as [|x l] using rev_ind; [done|].
  rewrite reverse_snoc, length_app, bool_decide_false by done. cbn. apply Z.eqb_neq. lia.
Qed.

(** Reading the top element by its index. *)
Lemma stack_top l (v : T) : slice_get (l ++ [v]) (Z.of_nat (length (l ++ [v])) - 1) = Ret v.
Proof.
  apply slice_get_Ret; rewrite length_app; cbn; [lia|].
  replace (Z.to_nat _) with (length l) by lia. by rewrite list_lookup_middle.
Qed.
End stack.

(** The stack is last-in first-out: seen as a list with the top first, [Push]
    conses, [Peek] is the head and [Pop] takes it off; both answer the zero value on
    an empty stack and change nothing; no operation panics. *)
Theorem Stack_refines_list {T} (zero : T) (s : Array T) v :
  stack_abs (Stack_Push s v) = v :: stack_abs s ∧
  Stack_Length s = Z.of_nat (length (stack_abs s)) ∧
  Stack_Peek zero s = Ret (default zero (head (stack_abs s))) ∧
  ∃ s', Stack_Pop zero s = Ret (s', default zero (head (stack_abs s))) ∧ stack_abs s' = tail (stack_abs s).
Proof.
  split; [apply Stack_Push_abs|]. unfold Stack_Peek, Stack_Pop. rewrite Stack_IsEmpty_abs.
  destruct s as [l]. unfold stack_abs, Stack_Length. cbn [elements]. rewrite length_reverse. split; [done|].
  destruct l as [|x l _] using rev_ind; [split; [done|by eexists]|].
  rewrite reverse_snoc, bool_decide_false, stack_top by done. split; [done|]. eexists. split; [done|].
  cbn [elements]. rewrite length_app. cbn. replace (Z.to_nat _) with (length l) by lia.
  by rewrite take_app_length.
Qed.

(** ** The locked dictionary *)

Record ConcurrentMap := mkConcurrentMap { Data : option (gmap string string); Id : string }.

Definition Data_of (d : ConcurrentMap) : gmap string string := default ∅ d.(Data).

Definition CMap_Add (d : ConcurrentMap) (key value : string) : ConcurrentMap :=
  mkConcurrentMap (Some (<[key := value]> (Data_of d))) d.(Id).
Definition CMap_Remove (d : ConcurrentMap) (key : string) : ConcurrentMap * bool :=
  match Data_of d !! key with
  | Some _ => (mkConcurrentMap (Some (delete key (Data_of d))) d.(Id), true)
  | None => (d, false)
  end.
Definition CMap_Exist (d : ConcurrentMap) (key : string) : bool := bool_decide (is_Some (Data_of d !! key)).
Definition CMap_Get (d : ConcurrentMap) (key : string) : string := default "" (Data_of d !! key).
Definition CMap_Clear (d : ConcurrentMap) : ConcurrentMap := mkConcurrentMap (Some ∅) d.(Id).
Definition CMap_Size (d : ConcurrentMap) : Z := Z.of_nat (size (Data_of d)).

(** The order is the map's iteration order. *)
Definition CMap_GetKeys (d : ConcurrentMap) : list string := (map_to_list (Data_of d)).*1.
Definition CMap_GetValues (d : ConcurrentMap) : list string := (map_to_list (Data_of d)).*2.

(** ** Packing two numbers *)

Definition PackNumbers (num1 num2 : Z) : Z := i64 (Z.lor (i64 (Z.shiftl num1 32)) (u32 num2)).
Definition UnpackNumbers (packed : Z) : Z * Z := (i32 (Z.shiftr packed 32), i32 (Z.land packed 0xFFFFFFFF)).
Definition UnpackFirstNumber (packed : Z) : Z := i32 (Z.shiftr packed 32).
Definition UnpackSecondNumber (packed : Z) : Z := i32 (Z.land packed 0xFFFFFFFF).

Lemma lor_shiftl_add a b w : 0 <= w → 0 <= b < 2 ^ w → Z.lor (Z.shiftl a w) b = a * 2 ^ w + b.
Proof.
  intros Hw Hb. assert (Z.land (Z.shiftl a w) b = 0) as Hd.
  { apply Z.bits_inj'. intros n Hn. rewrite Z.land_spec, Z.bits_0, Z.shiftl_spec by done.
    destruct (Z.lt_ge_cases n w); [by rewrite Z.testbit_neg_r by lia|].
    by rewrite (testbit_high w b n), andb_false_r by lia. }
  rewrite <-Z.shiftl_mul_pow2 by done. by rewrite Z.add_nocarry_lxor, Z.lxor_lor by done.
Qed.

Lemma i32_u32 b : is_i32 b → i32 (u32 b) = b.
Proof.
  intros Hb. unfold i32, swrap, u32, wrap. rewrite Zplus_mod_idemp_l.
  apply (swrap_id 32 b); [lia|exact Hb].
Qed.

Lemma land_low32 p : Z.land p 0xFFFFFFFF = u32 p.
Proof. apply (land_mask 32 p). lia. Qed.

Lemma PackNumbers_eq a b : is_i32 a → PackNumbers a b = a * 2 ^ 32 + u32 b.
Proof.
  intros Ha. unfold PackNumbers. pose proof (u32_range b) as Hb. unfold is_i32, is_u32 in *.
  rewrite (i64_id (Z.shiftl a 32)) by (rewrite Z.shiftl_mul_pow2 by lia; unfold is_i64; lia).
  rewrite lor_shiftl_add by (done || lia). apply i64_id. unfold is_i64. lia.
Qed.

(** Packing is a bijection between pairs of int32 and int64: unpacking a
    packed pair gives it back, by either interface, and packing the two halves of
    any int64 gives that int64. *)
Theorem PackNumbers_roundtrip a b p :
  is_i32 a → is_i32 b → is_i64 p →
  UnpackNumbers (PackNumbers a b) = (a, b) ∧
  UnpackFirstNumber (PackNumbers a b) = a ∧ UnpackSecondNumber (PackNumbers a b) = b ∧
  PackNumbers (UnpackFirstNumber p) (UnpackSecondNumber p) = p ∧ is_i64 (PackNumbers a b).
Proof.
  intros Ha Hb Hp. pose proof (u32_range b) as Hu.
  assert (i32 (Z.shiftr (PackNumbers a b) 32) = a) as H1.
  { rewrite PackNumbers_eq by done. rewrite Z.shiftr_div_pow2, Z.div_add_l by lia.
    rewrite Z.div_small by exact Hu. rewrite Z.add_0_r. by apply i32_id. }
  assert (i32 (Z.land (PackNumbers a b) 0xFFFFFFFF) = b) as H2.
  { rewrite land_low32, PackNumbers_eq by done. unfold u32 at 1, wrap. rewrite Z.add_comm, Z_mod_plus_full.
    rewrite Z.mod_small by exact Hu. by apply i32_u32. }
  split_and!; [unfold UnpackNumbers; by rewrite H1, H2|done|done| |].
  - unfold UnpackFirstNumber, UnpackSecondNumber. rewrite land_low32, Z.shiftr_div_pow2 by lia.
    assert (is_i32 (p / 2 ^ 32)) as Hq.
    { unfold is_i64, is_i32 in *. split; [apply Z.div_le_lower_bound; lia|apply Z.div_lt_upper_bound; lia]. }
    rewrite (i32_id (p / 2 ^ 32)), PackNumbers_eq by done.
    assert (u32 (i32 (u32 p)) = u32 p) as ->.
    { unfold i32, swrap, u32, wrap.
      rewrite <-(Zminus_mod_idemp_l _ (2 ^ (32 - 1)) (2 ^ 32)), Z.mod_mod, Zminus_mod_idemp_l by lia.
      rewrite Z.add_simpl_r. by rewrite Z.mod_mod. }
    unfold u32, wrap. pose proof (Z.div_mod p (2 ^ 32)). lia.
  - rewrite PackNumbers_eq by done. unfold is_i64, is_i32, is_u32 in *. lia.
Qed.

Lemma PackNumbers_roundtrip_witness : UnpackNumbers (PackNumbers (-5) 7) = (-5, 7).
Proof. apply (PackNumbers_roundtrip (-5) 7 0); unfold is_i32, is_i64; lia. Defined.
