(* ===== verification/GoValue.v ===== *)
(** * Dynamic values, floats and the size estimator ([src/utils/system/os.go])

    Values of type [any] as the store and the feature evaluator see them, Go's
    [==] on interfaces, [float64] arithmetic (the binary64 instance of the
    standard library's executable IEEE 754 model) and [GetInMemorySizeInBytes].
    Struct, pointer and unsigned values, which no modelled component inspects,
    are left out of [any]; the kinds the estimator does not support are
    represented by nil. *)

From Stdlib Require Import ZArith Lia Floats.SpecFloat.
From S2P Require Import Prelude.
Local Open Scope Z_scope.

(** ** float64 *)

Abbreviation float64 := spec_float.

Definition f64_of_Z (z : Z) : float64 := binary_normalize 53 1024 z 0 false.
Definition f64_add : float64 → float64 → float64 := SFadd 53 1024.
Definition f64_sub : float64 → float64 → float64 := SFsub 53 1024.
Definition f64_mul : float64 → float64 → float64 := SFmul 53 1024.
Definition f64_div : float64 → float64 → float64 := SFdiv 53 1024.
Definition f64_leb : float64 → float64 → bool := SFleb.
Definition f64_ltb : float64 → float64 → bool := SFltb.
Definition f64_eqb : float64 → float64 → bool := SFeqb.

(** Conversion to an integer truncates toward zero; it is defined for finite
    values only. *)
Definition f64_trunc (f : float64) : option Z :=
  match f with
  | S754_zero _ => Some 0
  | S754_finite s m e =>
      let n := if 0 <=? e then Zpos m * 2 ^ e else Z.quot (Zpos m) (2 ^ (- e)) in
      Some (if s then - n else n)
  | _ => None
  end.

(** ** Dynamic values *)

#[warnings="-register-all"] Inductive any :=
  | AnyNil
  | AnyBool (b : bool)
  | AnyInt (z : Z)
  | AnyInt32 (z : Z)
  | AnyInt64 (z : Z)
  | AnyFloat64 (f : float64)
  | AnyString (s : string)
  | AnyList (l : list any)                  (* []any *)
  | AnyMap (m : list (string * any)).       (* map[string]any, entries in some order *)

Definition uncomparable : string := "runtime error: comparing uncomparable type".

(** [a == b] on two interface values: different dynamic types are unequal; equal
    uncomparable ones (slices, maps) panic. *)
Definition any_eq (a b : any) : outcome bool :=
  match a, b with
  | AnyNil, AnyNil => Ret true
  | AnyBool x, AnyBool y => Ret (Bool.eqb x y)
  | AnyInt x, AnyInt y => Ret (x =? y)
  | AnyInt32 x, AnyInt32 y => Ret (x =? y)
  | AnyInt64 x, AnyInt64 y => Ret (x =? y)
  | AnyFloat64 x, AnyFloat64 y => Ret (f64_eqb x y)
  | AnyString x, AnyString y => Ret (bool_decide (x = y))
  | AnyList _, AnyList _ => Panic uncomparable
  | AnyMap _, AnyMap _ => Panic uncomparable
  | _, _ => Ret false
  end.

(** ** The size estimator *)

(** [int64(len(s))], plus the string header. *)
Definition string_size (s : string) : Z := i64 (16 + Z.of_nat (String.length s)).

(** [GetInMemorySizeInBytes]: [None] is the "unsupported type" error, which the
    first unsupported element or value propagates. *)
Fixpoint GetInMemorySizeInBytes (v : any) : option Z :=
  match v with
  | AnyNil => None
  | AnyBool _ => Some 1
  | AnyInt _ => Some 8
  | AnyInt32 _ => Some 4
  | AnyInt64 _ => Some 8
  | AnyFloat64 _ => Some 8
  | AnyString s => Some (string_size s)
  | AnyList l =>
      (fix go (total : Z) (l : list any) {struct l} : option Z :=
         match l with
         | [] => Some total
         | x :: l =>
             match GetInMemorySizeInBytes x with
             | Some n => go (i64 (total + n)) l
             | None => None
             end
         end) 24 l
  | AnyMap m =>
      (fix go (total : Z) (m : list (string * any)) {struct m} : option Z :=
         match m with
         | [] => Some total
         | (k, x) :: m =>
             match GetInMemorySizeInBytes x with
             | Some n => go (i64 (total + i64 (string_size k + n))) m
             | None => None
             end
         end) 48 m
  end.

(** One nil value anywhere in a map makes the whole map unsupported. *)
Lemma size_of_map_with_nil k m1 m2 : GetInMemorySizeInBytes (AnyMap (m1 ++ (k, AnyNil) :: m2)) = None.
Proof.
  cbn. generalize 48. induction m1 as [|[k' x] m1 IH]; intros t; cbn; [done|].
  destruct (GetInMemorySizeInBytes x); [apply IH|done].
Qed.

(** The size of a map does not depend on the order of its entries. *)
Fixpoint entries_size (m : list (string * any)) : option Z :=
  match m with
  | [] => Some 0
  | (k, x) :: m =>
      match GetInMemorySizeInBytes x, entries_size m with
      | Some n, Some t => Some (string_size k + n + t)
      | _, _ => None
      end
  end.

Lemma size_of_map m :
  GetInMemorySizeInBytes (AnyMap m) = (λ t, i64 (48 + t)) <$> entries_size m.
Proof.
  cbn [GetInMemorySizeInBytes]. assert (i64 48 = 48) as H48 by reflexivity. revert H48.
  generalize 48. induction m as [|[k x] m IH]; intros t Ht; cbn; [by rewrite Z.add_0_r, Ht|].
  destruct (GetInMemorySizeInBytes x) as [n|]; [|done].
  rewrite IH by (apply i64_id, i64_range). destruct (entries_size m) as [t'|]; cbn; [|done].
  f_equal. rewrite i64_add_l. rewrite <-(Z.add_comm t'), Z.add_assoc, i64_add_r. f_equal. lia.
Qed.

#[export] Instance entries_size_Permutation : Proper ((≡ₚ) ==> eq) entries_size.
Proof.
  intros m m'. induction 1 as [|[k x] m m' _ IH|[k x] [k' x'] m|m1 m2 m3 _ IH1 _ IH2]; cbn;
    [done|by rewrite IH| |congruence].
  destruct (GetInMemorySizeInBytes x), (GetInMemorySizeInBytes x'), (entries_size m); try done.
  f_equal. lia.
Qed.

Example size_example :
  GetInMemorySizeInBytes (AnyMap [("id"%string, AnyInt 7); ("name"%string, AnyString "flash"%string)]) =
    Some (48 + (18 + 8) + (20 + 21)).
Proof. reflexivity. Qed.
