(* ===== verification/FlashShard.v ===== *)
(** * FlashDB records and shards ([src/storage/flashdb/record.go], [shard.go], [utils.go])

    A shard is a map from keys to records, an LRU over the same keys, a byte
    capacity and the bytes in use. Times are nanoseconds since Go's zero time, so 0
    is the zero [time.Time] ("no TTL"). This file holds the shard-level
    operations and the invariant they share: the LRU lists exactly the stored keys
    and the byte count is exactly the sum of the stored records' costs. *)

From Stdlib Require Import ZArith Lia.
From S2P Require Import Prelude GoValue Lru.
Local Open Scope Z_scope.

(** ** Helpers of [utils.go] and [store.go] *)

(** A [map[string]any]; [None] is the nil map. *)
Abbreviation fields := (option (gmap string any)).

(** A shallow copy; nil stays nil. Values are immutable here, so the copy is the
    map itself. *)
Definition clone (m : fields) : fields :=
  match m with
  | None => None
  | Some m => Some (list_to_map (map_to_list m))
  end.

Definition int64ToInt32 (v : Z) : option Z :=
  if (v <? minInt32) || (maxInt32 <? v) then None else Some (i32 v).

Definition nonNegativeInt64ToUint64 (v : Z) : Z := if v <=? 0 then 0 else u64 v.

(** [addInt]: [None] is the (nil, false) result. *)
Definition addInt (cur : any) (delta : Z) : option any :=
  match cur with
  | AnyInt x =>
      if (0 <? delta) && (i64 (maxInt64 - delta) <? x) then None
      else if (delta <? 0) && (x <? i64 (minInt64 - delta)) then None
      else Some (AnyInt (i64 (x + delta)))
  | AnyInt32 x =>
      if (0 <? delta) && (i64 (maxInt32 - delta) <? x) then None
      else if (delta <? 0) && (x <? i64 (minInt32 - delta)) then None
      else AnyInt32 <$> int64ToInt32 (i64 (x + delta))
  | AnyInt64 x => Some (AnyInt64 (i64 (x + delta)))
  | AnyFloat64 x => Some (AnyFloat64 (f64_add x (f64_of_Z delta)))
  | _ => None
  end.

(** The estimator never panics on these values, so the [recover] is not reached. *)
Definition safeDeepSize (v : fields) : Z :=
  match GetInMemorySizeInBytes (AnyMap (map_to_list (default ∅ v))) with
  | None => 0
  | Some size => if size <? 0 then 0 else size
  end.

Definition recordOverhead : Z := 96.

Definition computeSize (key : string) (value : fields) : Z :=
  i64 (i64 (Z.of_nat (String.length key) + recordOverhead) + safeDeepSize value).

(** ** Records and shards *)

Record record := mkRecord { value : fields; size : Z; expiry : Z }.

Definition isExpired (r : record) (now : Z) : bool := negb (r.(expiry) =? 0) && (r.(expiry) <? now).

Record shard := mkShard {
  data : gmap string record;
  lru : LRU string unit;
  capacity : Z;
  currentSize : Z
}.

Definition with_data (sh : shard) (d : gmap string record) : shard :=
  mkShard d sh.(lru) sh.(capacity) sh.(currentSize).
Definition with_lru (sh : shard) (l : LRU string unit) : shard :=
  mkShard sh.(data) l sh.(capacity) sh.(currentSize).
Definition with_size (sh : shard) (n : Z) : shard :=
  mkShard sh.(data) sh.(lru) sh.(capacity) n.

Definition tailKeyLocked (sh : shard) : option string := LRU_TailKey sh.(lru).

Definition removeLocked (sh : shard) (key : string) : shard :=
  let record := sh.(data) !! key in
  let sh := with_data sh (delete key sh.(data)) in
  let sh := with_lru sh (LRU_Delete sh.(lru) key).1 in
  match record with
  | Some r => with_size sh (u64 (sh.(currentSize) - nonNegativeInt64ToUint64 r.(size)))
  | None => sh
  end.

Definition isFull (sh : shard) : bool := sh.(capacity) <? sh.(currentSize).

Definition isFullAfter (sh : shard) (newSize : Z) : bool :=
  sh.(capacity) <? u64 (sh.(currentSize) + newSize).

(** [for shard.isFull() { ... }]: evict from the tail until the shard fits or is
    empty. One round more than there are entries is enough ([trim_spec]). *)
Fixpoint trim_loop (fuel : nat) (sh : shard) : option shard :=
  if isFull sh then
    match tailKeyLocked sh with
    | None => Some sh
    | Some vk => match fuel with
                 | O => None
                 | S fuel => trim_loop fuel (removeLocked sh vk)
                 end
    end
  else Some sh.

Definition trim (sh : shard) : option shard := trim_loop (length sh.(lru).(ll)) sh.

(** ** The byte accounting *)

Definition cost_of (r : record) : Z := Z.max 0 r.(size).

Definition cost (m : gmap string record) : Z := map_fold (λ _ r acc, cost_of r + acc) 0 m.

Lemma cost_insert m k r : m !! k = None → cost (<[k := r]> m) = cost_of r + cost m.
Proof. intros Hk. unfold cost. apply (map_fold_insert_L (λ _ r acc, cost_of r + acc)); [intros; lia|done]. Qed.

Lemma cost_delete m k r : m !! k = Some r → cost (delete k m) = cost m - cost_of r.
Proof.
  intros Hk. rewrite <-(insert_delete_id m k r Hk) at 2.
  rewrite cost_insert by apply lookup_delete_eq. lia.
Qed.

Lemma cost_update m k r r' : m !! k = Some r → cost (<[k := r']> m) = cost m - cost_of r + cost_of r'.
Proof.
  intros Hk. rewrite <-insert_delete_eq, cost_insert by apply lookup_delete_eq.
  rewrite (cost_delete m k r Hk). lia.
Qed.

Lemma cost_nonneg m : 0 <= cost m.
Proof.
  unfold cost. apply (map_fold_weak_ind (λ acc _, 0 <= acc)); [lia|].
  intros k r m' acc _ Hacc. unfold cost_of. lia.
Qed.

Lemma cost_lookup_le m k r : m !! k = Some r → cost_of r <= cost m.
Proof.
  intros Hk. pose proof (cost_nonneg (delete k m)) as Hn. rewrite (cost_delete m k r Hk) in Hn. lia.
Qed.

Lemma nonNegative_cost r : is_i64 r.(size) → nonNegativeInt64ToUint64 r.(size) = cost_of r.
Proof.
  unfold nonNegativeInt64ToUint64, cost_of, is_i64. intros Hr.
  destruct (Z.leb_spec (size r) 0); [lia|]. rewrite u64_id by (unfold is_u64; lia). lia.
Qed.

(** ** The shard invariant *)

(** The keys of the LRU, most recently used first. *)
Definition order (sh : shard) : list string := LRU_Keys sh.(lru).

(** The budget itself is a separate clause: it fails between a growing update and
    the trim that follows it. *)
Record shard_core (sh : shard) : Prop := {
  sc_lru : LRU_wf sh.(lru);
  sc_cap0 : sh.(lru).(cap) = 0;
  sc_dom : ∀ k, k ∈ order sh ↔ is_Some (sh.(data) !! k);
  sc_sizes : ∀ k r, sh.(data) !! k = Some r → 0 <= r.(size) < 2 ^ 63;
  sc_cost : sh.(currentSize) = cost sh.(data);
  sc_u64 : is_u64 sh.(currentSize);
  sc_capacity : 0 <= sh.(capacity) < 2 ^ 63
}.

Record shard_wf (sh : shard) : Prop := {
  sw_core : shard_core sh;
  sw_budget : sh.(currentSize) <= sh.(capacity)
}.

(** *** The LRU seen through its keys *)

Section keys.
Implicit Types c : LRU string unit.

Lemma keys_nodup c : LRU_wf c → NoDup (LRU_Keys c).
Proof.
  intros Hwf. rewrite LRU_Keys_spec. unfold abs.
  assert (∀ e, e ∈ ll c → ∃ k v, heap c !! e = Some (k, v) ∧ items c !! k = Some e) as Hl
    by apply Hwf.
  pose proof (wf_nodup c Hwf) as Hn. induction Hn as [|e l He Hn IH]; [constructor|].
  destruct (Hl e) as (k & v & Hv & Hi); [set_solver|]. cbn. rewrite Hv. cbn.
  constructor; [|apply IH; set_solver].
  rewrite list_elem_of_fmap. intros ([k' v'] & -> & (e' & He' & Hv')%list_elem_of_omap).
  destruct (Hl e') as (k2 & v2 & Hv2 & Hi2); [set_solver|].
  simplify_eq/=. set_solver.
Qed.

Lemma keys_lookup c k : is_Some (spec_lookup k (abs c)) ↔ k ∈ LRU_Keys c.
Proof.
  rewrite LRU_Keys_spec. induction (abs c) as [|[k' v] l IH]; cbn.
  - split; [by intros [? ?]|set_solver].
  - rewrite elem_of_cons. destruct (decide (k' = k)) as [->|]; [split; eauto|].
    rewrite IH. split; [tauto|]. intros [->|]; [done|tauto].
Qed.

Lemma keys_remove k (l : list (string * unit)) : (spec_remove k l).*1 = filter (λ x, x ≠ k) l.*1.
Proof.
  unfold spec_remove. induction l as [|[k' v] l IH]; [done|].
  rewrite fmap_cons, !filter_cons. cbn. destruct (decide (k' ≠ k)); cbn; by rewrite IH.
Qed.

Lemma keys_Delete c k :
  LRU_wf c → LRU_wf (LRU_Delete c k).1 ∧ (LRU_Delete c k).1.(cap) = c.(cap) ∧
  LRU_Keys (LRU_Delete c k).1 = filter (λ x, x ≠ k) (LRU_Keys c).
Proof.
  intros Hwf. destruct (LRU_Delete_spec c k Hwf) as (Hwf' & _ & Habs & _).
  split_and!; [done|apply (LRU_config c (ODelete k))|].
  by rewrite !LRU_Keys_spec, Habs, keys_remove.
Qed.

Lemma keys_Get c k :
  LRU_wf c → k ∈ LRU_Keys c →
  LRU_wf (LRU_Get c k).1 ∧ (LRU_Get c k).1.(cap) = c.(cap) ∧
  LRU_Keys (LRU_Get c k).1 = k :: filter (λ x, x ≠ k) (LRU_Keys c).
Proof.
  intros Hwf [v Hv]%keys_lookup. destruct (LRU_Get_spec c k Hwf) as (Hwf' & _ & Habs & _).
  split_and!; [done|apply (LRU_config c (OGet k))|].
  rewrite !LRU_Keys_spec, Habs. unfold spec_touch. rewrite Hv. cbn. by rewrite keys_remove.
Qed.

Lemma keys_Set c k :
  LRU_wf c → c.(cap) = 0 → k ∉ LRU_Keys c →
  LRU_wf (LRU_Set c k tt).1 ∧ (LRU_Set c k tt).1.(cap) = c.(cap) ∧
  LRU_Keys (LRU_Set c k tt).1 = k :: LRU_Keys c.
Proof.
  intros Hwf Hcap Hk. destruct (LRU_Set_spec c k tt Hwf) as (Hwf' & Habs & _).
  split_and!; [done|apply (LRU_config c (OSet k tt))|].
  rewrite !LRU_Keys_spec, Habs. unfold spec_set. rewrite Hcap.
  destruct (spec_lookup k (abs c)) eqn:E; [|done].
  exfalso. apply Hk, keys_lookup. eauto.
Qed.

Lemma keys_length c : LRU_wf c → length (LRU_Keys c) = length c.(ll).
Proof. intros Hwf. rewrite LRU_Keys_spec, length_fmap. by apply wf_length. Qed.
End keys.

(** *** Removing and evicting *)

(** The records whose keys are in [ks]. *)
Definition restrict (ks : list string) (m : gmap string record) : gmap string record :=
  filter (λ kr, kr.1 ∈ ks) m.

Lemma removeLocked_spec sh k :
  shard_core sh →
  shard_core (removeLocked sh k) ∧ (removeLocked sh k).(data) = delete k sh.(data) ∧
  order (removeLocked sh k) = filter (λ x, x ≠ k) (order sh) ∧
  (removeLocked sh k).(capacity) = sh.(capacity).
Proof.
  intros Hc. destruct Hc as [Hl H0 Hd Hs Hcost Hu Hcap].
  destruct (keys_Delete sh.(lru) k Hl) as (Hl' & Hcap' & Hk').
  assert ((removeLocked sh k).(lru) = (LRU_Delete sh.(lru) k).1 ∧
          (removeLocked sh k).(data) = delete k sh.(data) ∧
          (removeLocked sh k).(capacity) = sh.(capacity) ∧
          (removeLocked sh k).(currentSize) = cost (delete k sh.(data))) as (E1 & E2 & E3 & E4).
  { unfold removeLocked. destruct (data sh !! k) as [r|] eqn:E; cbn; split_and!; try done.
    - pose proof (cost_lookup_le _ _ _ E). pose proof (cost_nonneg (delete k (data sh))) as Hnn.
      rewrite (cost_delete _ _ _ E) in *. specialize (Hs k r E).
      rewrite nonNegative_cost by (unfold is_i64; lia). rewrite Hcost.
      apply u64_id. unfold is_u64, cost_of in *. lia.
    - by rewrite delete_id. }
  split_and!; try done; unfold order; [|by rewrite E1].
  assert (cost (delete k (data sh)) <= cost (data sh)).
  { destruct (data sh !! k) as [r|] eqn:E; [|by rewrite delete_id].
    rewrite (cost_delete _ _ _ E). unfold cost_of. lia. }
  pose proof (cost_nonneg (delete k (data sh))).
  split; unfold order in *; rewrite ?E1, ?E2, ?E3, ?E4; try done; try congruence; try (unfold is_u64 in *; lia).
  - intros x. rewrite Hk', list_elem_of_filter, Hd, lookup_delete_is_Some. naive_solver.
  - intros x r (_ & Hx)%lookup_delete_Some. by apply (Hs x).
Qed.

(** Touching a stored key only reorders. *)
Lemma touch_spec sh k :
  shard_core sh → is_Some (sh.(data) !! k) →
  let sh' := with_lru sh (LRU_Get sh.(lru) k).1 in
  shard_core sh' ∧ order sh' = k :: filter (λ x, x ≠ k) (order sh).
Proof.
  intros [Hl H0 Hd Hs Hcost Hu Hcap] Hk%Hd. destruct (keys_Get _ _ Hl Hk) as (Hl' & Hc' & Hk').
  split; [|done]. split; cbn; try done; [congruence|].
  unfold order in *. cbn. intros x. rewrite Hk', elem_of_cons, list_elem_of_filter, <-Hd.
  destruct (decide (x = k)) as [->|]; tauto.
Qed.

(** Overwriting a stored record, with the byte count set to match. *)
Lemma overwrite_spec sh k r n :
  shard_core sh → is_Some (sh.(data) !! k) → 0 <= r.(size) < 2 ^ 63 →
  n = cost (<[k := r]> sh.(data)) → is_u64 n →
  shard_core (with_size (with_data sh (<[k := r]> sh.(data))) n).
Proof.
  intros [Hl H0 Hd Hs Hcost Hu Hcap] Hk Hr Hn Hn'. split; cbn; try done.
  - intros x. rewrite Hd, lookup_insert_is_Some. destruct (decide (x = k)) as [->|]; naive_solver.
  - intros x r'. rewrite lookup_insert_Some. intros [[_ <-]|[_ Hx]]; [done|by apply (Hs x)].
Qed.

Lemma order_nodup sh : shard_core sh → NoDup (order sh).
Proof. intros Hc. apply keys_nodup, Hc. Qed.

Lemma restrict_order sh : shard_core sh → restrict (order sh) sh.(data) = sh.(data).
Proof.
  intros Hc. apply map_filter_id. intros k r Hk. apply (sc_dom sh Hc). eauto.
Qed.

Lemma filter_snoc_nodup (l : list string) x : NoDup (l ++ [x]) → filter (λ y, y ≠ x) (l ++ [x]) = l.
Proof.
  intros (_ & Hd & _)%NoDup_app. rewrite filter_app, filter_cons, decide_False by tauto. cbn.
  rewrite app_nil_r. apply filter_all, Forall_forall. intros y Hy ->. apply (Hd x Hy). set_solver.
Qed.

(** Evicting the tail drops the last key of the order. *)
Lemma evict_tail_spec sh vk :
  shard_core sh → tailKeyLocked sh = Some vk →
  ∃ kept, order sh = kept ++ [vk] ∧ order (removeLocked sh vk) = kept ∧
    shard_core (removeLocked sh vk) ∧
    (removeLocked sh vk).(data) = restrict kept sh.(data) ∧
    (removeLocked sh vk).(capacity) = sh.(capacity).
Proof.
  intros Hc Ht. unfold tailKeyLocked in Ht. rewrite LRU_TailKey_spec, <-LRU_Keys_spec in Ht by apply Hc.
  apply last_Some in Ht as [kept Hk]. fold (order sh) in Hk. exists kept.
  destruct (removeLocked_spec sh vk Hc) as (Hc' & Hd & Ho & Hcap).
  pose proof (order_nodup sh Hc) as Hn. rewrite Hk in Hn.
  assert (order (removeLocked sh vk) = kept) as Ho'
    by (rewrite Ho, Hk; by apply filter_snoc_nodup).
  split_and!; try done. rewrite <-(restrict_order _ Hc'), Ho', Hd.
  apply map_eq. intros x. unfold restrict.
  destruct (decide (x = vk)) as [->|Hx].
  - transitivity (@None record); [|symmetry]; apply map_lookup_filter_None; right.
    + by rewrite lookup_delete_eq.
    + intros r _ Hin. apply NoDup_app in Hn as (_ & Hd' & _). apply (Hd' vk Hin). set_solver.
  - by rewrite map_filter_delete, lookup_delete_ne.
Qed.

Lemma tail_None_empty sh : shard_core sh → tailKeyLocked sh = None → order sh = [] ∧ sh.(data) = ∅.
Proof.
  intros Hc Ht. unfold tailKeyLocked in Ht. rewrite LRU_TailKey_spec, <-LRU_Keys_spec in Ht by apply Hc.
  apply last_None in Ht. split; [done|]. fold (order sh) in Ht. apply map_eq. intros k.
  rewrite lookup_empty. apply eq_None_not_Some. rewrite <-(sc_dom sh Hc), Ht. set_solver.
Qed.

Lemma restrict_restrict ks ks' m : (∀ k, k ∈ ks → k ∈ ks') → restrict ks (restrict ks' m) = restrict ks m.
Proof.
  intros Hsub. unfold restrict. rewrite map_filter_filter. apply map_filter_ext. cbn.
  intros k r _. split; [tauto|]. eauto.
Qed.

Lemma cost_le_restrict ks m : cost (restrict ks m) <= cost m.
Proof.
  unfold restrict. induction m as [|k r m Hk IH] using map_ind; [by rewrite map_filter_empty|].
  rewrite cost_insert by done. assert (0 <= cost_of r) by (unfold cost_of; lia).
  destruct (decide (k ∈ ks)).
  - rewrite map_filter_insert_True by done.
    rewrite cost_insert by (apply map_lookup_filter_None; left; done). lia.
  - rewrite map_filter_insert_not' by (cbn; intros; congruence || done). lia.
Qed.

(** [sh'] is [sh] after evicting the least recently used [victims]. *)
Record evicted (sh sh' : shard) (victims : list string) : Prop := {
  ev_core : shard_core sh';
  ev_order : order sh = order sh' ++ victims;
  ev_data : sh'.(data) = restrict (order sh') sh.(data);
  ev_capacity : sh'.(capacity) = sh.(capacity)
}.

Lemma evicted_refl sh : shard_core sh → evicted sh sh [].
Proof. intros Hc. split; [done|by rewrite app_nil_r|by rewrite restrict_order|done]. Qed.

Lemma evicted_step sh sh' vk victims :
  shard_core sh → tailKeyLocked sh = Some vk → evicted (removeLocked sh vk) sh' victims →
  evicted sh sh' (victims ++ [vk]).
Proof.
  intros Hc Ht [Hc' Ho Hd Hcap]. destruct (evict_tail_spec sh vk Hc Ht) as (kept & E1 & E2 & _ & E3 & E4).
  split; [done| | |congruence].
  - rewrite E1, <-E2, Ho. by rewrite app_assoc.
  - rewrite Hd, E3, restrict_restrict; [done|]. intros k Hk. rewrite <-E2, Ho. set_solver.
Qed.

Lemma evicted_victims_after sh sh' vk v vs :
  shard_core sh → tailKeyLocked sh = Some vk → order (removeLocked sh vk) = order sh' ++ v :: vs →
  restrict (order sh' ++ [v]) (removeLocked sh vk).(data) = restrict (order sh' ++ [v]) sh.(data).
Proof.
  intros Hc Ht Ho. destruct (evict_tail_spec sh vk Hc Ht) as (kept & E1 & E2 & _ & -> & _).
  apply restrict_restrict. intros k Hk. rewrite <-E2, Ho. set_solver.
Qed.

Lemma isFull_spec sh : isFull sh = true ↔ sh.(capacity) < sh.(currentSize).
Proof. unfold isFull. apply Z.ltb_lt. Qed.

(** The budget loop ends within the budget, and evicts the shortest run of least
    recently used keys that gets there. *)
Lemma trim_loop_spec fuel sh :
  shard_core sh → (length (order sh) <= fuel)%nat →
  ∃ sh' victims, trim_loop fuel sh = Some sh' ∧ evicted sh sh' victims ∧ shard_wf sh' ∧
    ∀ v vs, victims = v :: vs → sh.(capacity) < cost (restrict (order sh' ++ [v]) sh.(data)).
Proof.
  revert sh. induction fuel as [|fuel IH]; intros sh Hc Hf;
    cbn [trim_loop]; destruct (isFull sh) eqn:Hfull; try apply isFull_spec in Hfull;
    try (exists sh, []; split_and!; [done|by apply evicted_refl|split; [done|]|done];
         unfold isFull in Hfull; lia).
  - destruct (order sh) as [|] eqn:Eo; cbn in Hf; [|lia].
    exfalso. pose proof (restrict_order sh Hc) as Hr. rewrite Eo in Hr.
    pose proof (sc_cost sh Hc) as Hcost. rewrite <-Hr in Hcost.
    assert (restrict [] sh.(data) = ∅) as E by (apply map_empty_filter_2; intros k r _ Hin; by apply elem_of_nil in Hin).
    rewrite E in Hcost. unfold cost in Hcost. rewrite map_fold_empty in Hcost.
    pose proof (sc_capacity sh Hc). unfold is_u64 in *. lia.
  - destruct (tailKeyLocked sh) as [vk|] eqn:Ht.
    + destruct (evict_tail_spec sh vk Hc Ht) as (kept & E1 & E2 & Hc' & E3 & E4).
      destruct (IH (removeLocked sh vk) Hc') as (sh' & victims & Htr & Hev & Hwf & Hmin).
      { rewrite E2. rewrite E1, length_app in Hf. cbn in Hf. lia. }
      exists sh', (victims ++ [vk]). split_and!; [done|by eapply evicted_step|done|].
      intros v vs Hv. destruct victims as [|v' vs']; simplify_eq/=.
      * destruct Hev as [_ Ho _ _]. rewrite app_nil_r in Ho. rewrite <-Ho, <-E1, restrict_order by done.
        rewrite <-(sc_cost sh Hc). done.
      * rewrite <-E4, <-(evicted_victims_after sh sh' vk v vs'); eauto. apply Hev.
    + destruct (tail_None_empty sh Hc Ht) as [_ Hd]. exists sh, [].
      split_and!; [done|by apply evicted_refl|split; [done|]|done].
      rewrite (sc_cost sh Hc), Hd. unfold cost. rewrite map_fold_empty.
      pose proof (sc_capacity sh Hc). unfold is_u64 in *. lia.
Qed.

Lemma trim_spec sh :
  shard_core sh →
  ∃ sh' victims, trim sh = Some sh' ∧ evicted sh sh' victims ∧ shard_wf sh' ∧
    ∀ v vs, victims = v :: vs → sh.(capacity) < cost (restrict (order sh' ++ [v]) sh.(data)).
Proof.
  intros Hc. apply trim_loop_spec; [done|]. unfold order. rewrite keys_length by apply Hc. done.
Qed.

(** Field arithmetic: on [int] and [int32] fields the sum is exact or the
    update is refused, never wrapped; on [int64] fields it is taken modulo [2^64],
    so it is wrong exactly when the true sum does not fit. The dynamic type of the
    field is kept. *)
Theorem addInt_exact_or_refused x delta :
  is_i64 delta →
  (is_i64 x →
     addInt (AnyInt x) delta = (if decide (is_i64 (x + delta)) then Some (AnyInt (x + delta)) else None)) ∧
  (is_i32 x →
     addInt (AnyInt32 x) delta = (if decide (is_i32 (x + delta)) then Some (AnyInt32 (x + delta)) else None)) ∧
  (is_i64 x →
     ∃ y, addInt (AnyInt64 x) delta = Some (AnyInt64 y) ∧ is_i64 y ∧
       (y = x + delta ↔ is_i64 (x + delta)) ∧ (y - (x + delta)) mod 2 ^ 64 = 0).
Proof.
  intros Hd. split_and!; intros Hx.
  - cbn. destruct (Z.ltb_spec 0 delta), (Z.ltb_spec delta 0); cbn [andb]; try lia;
      rewrite ?(i64_id (maxInt64 - delta)), ?(i64_id (minInt64 - delta))
        by (unfold is_i64, maxInt64, minInt64 in *; lia);
      unfold is_i64, maxInt64, minInt64 in *; case_decide; repeat case_match; try lia; try done;
      by rewrite i64_id.
  - cbn. unfold int64ToInt32.
    destruct (Z.ltb_spec 0 delta), (Z.ltb_spec delta 0); cbn [andb]; try lia;
      rewrite ?(i64_id (maxInt32 - delta)), ?(i64_id (minInt32 - delta))
        by (unfold is_i64, maxInt32, minInt32 in *; lia);
      try (destruct (Z.ltb_spec (maxInt32 - delta) x)); try (destruct (Z.ltb_spec x (minInt32 - delta)));
      try (rewrite (i64_id (x + delta)) by (unfold is_i64, is_i32, maxInt32, minInt32 in *; lia));
      unfold is_i64, is_i32, maxInt32, minInt32 in *; case_decide; repeat case_match; try lia; try done;
      cbn; by rewrite i32_id.
  - exists (i64 (x + delta)). split_and!; [done|apply i64_range| |].
    + split; [intros <-; apply i64_range|by apply i64_id].
    + unfold i64, swrap. pose proof (Z.div_mod (x + delta + 2 ^ (64 - 1)) (2 ^ 64)).
      replace (_ - _ - _) with (- ((x + delta + 2 ^ (64 - 1)) / 2 ^ 64) * 2 ^ 64) by lia.
      by apply Z.mod_mul.
Qed.

Lemma addInt_exact_or_refused_witness :
  addInt (AnyInt 41) 1 = Some (AnyInt 42) ∧ addInt (AnyInt maxInt64) 1 = None ∧
  addInt (AnyInt32 maxInt32) 1 = None ∧ addInt (AnyInt64 maxInt64) 1 = Some (AnyInt64 minInt64).
Proof.
  destruct (addInt_exact_or_refused 41 1) as (H1 & _); [unfold is_i64; lia|].
  destruct (addInt_exact_or_refused maxInt64 1) as (H2 & _); [unfold is_i64; lia|].
  destruct (addInt_exact_or_refused maxInt32 1) as (_ & H3 & _); [unfold is_i64; lia|].
  split_and!; [rewrite H1|rewrite H2|rewrite H3|reflexivity];
    solve [reflexivity | unfold is_i64, is_i32, maxInt64, maxInt32; lia].
Defined.
