(* ===== verification/FlashStore.v ===== *)
(** * The FlashDB store ([src/storage/flashdb/store.go], [options.go], [constants.go])

    A fixed array of shards, a shared admission filter and the options. Every
    operation takes the clock reading(s) it makes as arguments and returns in the
    [outcome] monad, so that an index out of range or a panic of the admission
    filter would show. The store is generic in the admission filter through the
    [Admission] interface; [New] instantiates it with TinyLFU. Every operation
    holds its shard's lock from the first access to the last, so it is one atomic
    step here, except [Exists], whose two critical sections are separate steps.
    Iteration over a Go map takes the order as an argument (an association
    list). *)

From Stdlib Require Import ZArith Lia.
From S2P Require Import Prelude GoValue Lru Sketch TinyLfu FlashShard.
Local Open Scope Z_scope.

Inductive store_error :=
  | ErrNotFound
  | ErrBadType
  | ErrIllegalField
  | ErrInvalidKey
  | ErrMaxStorageSize              (* errors.New("flashdb: MaxStorageSize must be > 0") *)
  | ErrSketch (e : sketch_error).

Record Options := mkOptions {
  Shards : Z;              (* uint8 *)
  MaxStorageSize : Z;      (* uint64 *)
  DefaultTTL : Z;          (* nanoseconds *)
  JanitorEvery : Z;        (* nanoseconds *)
  LFUDepth : Z;
  LFUWidth : Z;
  LFUAgingEvery : Z
}.

Definition ShardCount : Z := 128.
Definition maxDeletePerShard : Z := 1024.
Definition Minute : Z := 60 * 10 ^ 9.

Record Store (P : Type) := mkStore {
  shards : list shard;
  opts : Options;
  lfu : option P;            (* nil when admission is disabled *)
  stopped : bool             (* [stopCh] is closed *)
}.
Arguments mkStore {P}.
Arguments shards {P}.
Arguments opts {P}.
Arguments lfu {P}.
Arguments stopped {P}.

(** ** Construction *)

(** The defaults [New] fills in. *)
Definition with_defaults (o : Options) : Options :=
  mkOptions (if o.(Shards) <=? 0 then ShardCount else o.(Shards)) o.(MaxStorageSize) o.(DefaultTTL)
    (if o.(JanitorEvery) =? 0 then Minute else o.(JanitorEvery))
    (if o.(LFUDepth) =? 0 then 4 else o.(LFUDepth))
    (if o.(LFUWidth) =? 0 then 2 ^ 16 else o.(LFUWidth))
    (if o.(LFUAgingEvery) =? 0 then 200000 else o.(LFUAgingEvery)).

Fixpoint make_shards (n : nat) (perShard : Z) : outcome (list shard) :=
  match n with
  | O => Ret []
  | S n =>
      l ← NewLRU 0 false;
      rest ← make_shards n perShard;
      Ret (mkShard ∅ l perShard 0 :: rest)
  end.

(** The store, and whether the janitor goroutine was started. *)
Definition New (o : Options) : outcome (result store_error (Store (TinyLFU string) * bool)) :=
  let o := with_defaults o in
  l ← NewTinyLFU o.(LFUDepth) o.(LFUWidth) o.(LFUAgingEvery) (Some Hash64String);
  match l with
  | Err e => Ret (Err (ErrSketch e))
  | Ok l =>
      if o.(MaxStorageSize) =? 0 then Ret (Err ErrMaxStorageSize)
      else
        let perShard := o.(MaxStorageSize) / o.(Shards) in
        shs ← make_shards (Z.to_nat o.(Shards)) perShard;
        Ret (Ok (mkStore shs o (Some l) false, 0 <? o.(JanitorEvery)))
  end.

(** ** Choosing the shard *)

(** [hash/fnv]'s 32-bit FNV-1a. *)
Definition fnv32a (key : string) : Z :=
  foldl (λ h b, u32 (Z.lxor h b * 16777619)) 2166136261 (bytes_of_string key).

Section store.
Context {P : Type} `{Admission P string}.
Implicit Types (st : Store P) (sh : shard) (key : string).

Definition Close st : Store P := mkStore st.(shards) st.(opts) st.(lfu) true.

(** The index of the shard of [key]. *)
Definition shardFor st key : outcome Z :=
  let n := u32 (Z.of_nat (length st.(shards))) in
  if n =? 0 then Panic "runtime error: integer divide by zero"
  else Ret (fnv32a key mod n).

Definition put_shard st (i : Z) sh : Store P :=
  mkStore (<[Z.to_nat i := sh]> st.(shards)) st.(opts) st.(lfu) st.(stopped).

Definition with_lfu st (l : option P) : Store P := mkStore st.(shards) st.(opts) l st.(stopped).

(** [if s.lfu != nil { s.lfu.Record(key) }] *)
Definition lfu_record st key : outcome (Store P) :=
  match st.(lfu) with
  | None => Ret st
  | Some l => l ← adm_record l key; Ret (with_lfu st (Some l))
  end.

(** Runs [f] on the shard of [key] under its lock and stores the new shard. *)
Definition locked {A} st key (f : shard → outcome (shard * A)) : outcome (Store P * A) :=
  i ← shardFor st key;
  sh ← slice_get st.(shards) i;
  r ← f sh;
  Ret (put_shard st i r.1, r.2).

(** The fuel of an eviction loop is never exhausted ([trim_spec]). *)
Definition fueled {A} (o : option A) : outcome A :=
  match o with Some a => Ret a | None => Panic "eviction loop" end.

(** ** Get, Exists, Delete *)

(** A live record of the locked shard, after lazily dropping an expired one. *)
Definition lookup_live sh key (now : Z) : shard * option record :=
  match sh.(data) !! key with
  | None => (sh, None)
  | Some r => if isExpired r now then (removeLocked sh key, None) else (sh, Some r)
  end.

(** [shard.lru.Get(key)] *)
Definition touch sh key : shard := with_lru sh (LRU_Get sh.(lru) key).1.

Definition Get st key (now : Z) : outcome (Store P * result store_error fields) :=
  if bool_decide (key = "") then Ret (st, Err ErrInvalidKey)
  else
    r ← locked st key (λ sh,
      match lookup_live sh key now with
      | (sh, None) => Ret (sh, None)
      | (sh, Some r) => Ret (touch sh key, Some (clone r.(value)))
      end);
    match r with
    | (st, None) => Ret (st, Err ErrNotFound)
    | (st, Some v) => st ← lfu_record st key; Ret (st, Ok v)
    end.

(** The critical section under the read lock: found, expired. *)
Definition Exists_read st key (now : Z) : outcome (bool * bool) :=
  i ← shardFor st key;
  sh ← slice_get st.(shards) i;
  match sh.(data) !! key with
  | None => Ret (false, false)
  | Some r => Ret (true, isExpired r now)
  end.

(** The one under the write lock, which looks again. *)
Definition Exists_write st key (now : Z) : outcome (Store P * bool) :=
  locked st key (λ sh,
    match sh.(data) !! key with
    | Some r => if isExpired r now then Ret (removeLocked sh key, false) else Ret (sh, true)
    | None => Ret (sh, true)
    end).

(** [hook] is what other goroutines do between the two critical sections. *)
Definition Exists st key (now : Z) (hook : Store P → Store P)
    : outcome (Store P * result store_error bool) :=
  if bool_decide (key = "") then Ret (st, Err ErrInvalidKey)
  else
    r ← Exists_read st key now;
    match r with
    | (false, _) => Ret (st, Ok false)
    | (true, false) => Ret (st, Ok true)
    | (true, true) =>
        r ← Exists_write (hook st) key now;
        Ret (r.1, Ok r.2)
    end.

Definition Delete st key : outcome (Store P * result store_error bool) :=
  if bool_decide (key = "") then Ret (st, Err ErrInvalidKey)
  else
    r ← locked st key (λ sh,
      match sh.(data) !! key with
      | None => Ret (sh, false)
      | Some _ => Ret (removeLocked sh key, true)
      end);
    Ret (r.1, Ok r.2).

(** ** Set *)

(** [shard.currentSize] after a stored record went from [old] to [new] bytes. *)
Definition resize (cur old new : Z) : Z :=
  if old <=? new then u64 (cur + nonNegativeInt64ToUint64 (i64 (new - old)))
  else u64 (cur - nonNegativeInt64ToUint64 (i64 (old - new))).

Definition Set_update sh key (r : record) (v : fields) (newSize exp : Z) : outcome shard :=
  let sh := if 0 <=? newSize then with_size sh (resize sh.(currentSize) r.(size) newSize) else sh in
  let sh := with_data sh (<[key := mkRecord (clone v) newSize exp]> sh.(data)) in
  let sh := touch sh key in
  fueled (trim sh).

(** [s.lfu == nil || s.lfu.ShouldAdmit(key, vk)] *)
Definition lfu_admits (l : option P) key (vk : string) : outcome bool :=
  match l with
  | None => Ret true
  | Some l => adm_should_admit l key vk
  end.

(** [for shard.isFullAfter(newCost) { ... }]: [true] when room was made. *)
Fixpoint admit_loop (fuel : nat) (l : option P) sh key (newCost : Z) : outcome (shard * bool) :=
  if isFullAfter sh newCost then
    match tailKeyLocked sh with
    | None => Ret (sh, false)
    | Some vk =>
        admitted ← lfu_admits l key vk;
        match admitted with
        | true =>
            match fuel with
            | O => Panic "eviction loop"
            | S fuel => admit_loop fuel l (removeLocked sh vk) key newCost
            end
        | false => Ret (sh, false)
        end
    end
  else Ret (sh, true).

Definition Set_insert (l : option P) sh key (v : fields) (newSize exp : Z) : outcome (shard * bool) :=
  let newCost := nonNegativeInt64ToUint64 newSize in
  if sh.(capacity) <? newCost then Ret (sh, false)
  else
    r ← admit_loop (length sh.(lru).(ll)) l sh key newCost;
    match r with
    | (sh, false) => Ret (sh, false)
    | (sh, true) =>
        let sh := with_data sh (<[key := mkRecord (clone v) newSize exp]> sh.(data)) in
        let sh := with_size sh (u64 (sh.(currentSize) + newCost)) in
        Ret (with_lru sh (LRU_Set sh.(lru) key tt).1, true)
    end.

(** The expiry a write at [now] gives a record. *)
Definition expiry_for st (now ttl : Z) : Z :=
  let ttl := if (ttl =? 0) && (0 <? st.(opts).(DefaultTTL)) then st.(opts).(DefaultTTL) else ttl in
  if 0 <? ttl then now + ttl else 0.

Definition Set_ st key (v : fields) (ttl now : Z) : outcome (Store P * result store_error bool) :=
  if bool_decide (key = "") then Ret (st, Err ErrInvalidKey)
  else
    let exp := expiry_for st now ttl in
    let newSize := computeSize key v in
    st ← lfu_record st key;
    r ← locked st key (λ sh,
      match sh.(data) !! key with
      | Some r => sh ← Set_update sh key r v newSize exp; Ret (sh, true)
      | None => Set_insert st.(lfu) sh key v newSize exp
      end);
    Ret (r.1, Ok r.2).

(** ** In-place mutations *)

(** Entries are visited in map order; an error leaves the fields already
    visited updated. *)
Fixpoint Increment_loop (m : gmap string any) (offsets : list (string * Z))
    : gmap string any * option store_error :=
  match offsets with
  | [] => (m, None)
  | (field, delta) :: offsets =>
      match m !! field with
      | None => (m, Some ErrIllegalField)
      | Some cur =>
          match addInt cur delta with
          | None => (m, Some ErrBadType)
          | Some nxt => Increment_loop (<[field := nxt]> m) offsets
          end
      end
  end.

Fixpoint Append_loop (m : gmap string any) (appends : list (string * string))
    : gmap string any * option store_error :=
  match appends with
  | [] => (m, None)
  | (field, suffix) :: appends =>
      match m !! field with
      | None => (m, Some ErrIllegalField)
      | Some (AnyString base) => Append_loop (<[field := AnyString (base +:+ suffix)]> m) appends
      | Some _ => (m, Some ErrBadType)
      end
  end.

(** Writing back the fields of a record; a nil map has none, so that no field is
    ever written to it. *)
Definition with_fields (r : record) (m : gmap string any) : record :=
  mkRecord (match r.(value) with None => None | Some _ => Some m end) r.(size) r.(expiry).

Definition Increment st key (offsets : list (string * Z)) (now : Z)
    : outcome (Store P * option store_error) :=
  if bool_decide (key = "") then Ret (st, Some ErrInvalidKey)
  else
    r ← locked st key (λ sh,
      match lookup_live sh key now with
      | (sh, None) => Ret (sh, Some ErrNotFound)
      | (sh, Some r) =>
          let '(m, e) := Increment_loop (default ∅ r.(value)) offsets in
          let sh := with_data sh (<[key := with_fields r m]> sh.(data)) in
          match e with
          | Some e => Ret (sh, Some e)
          | None => Ret (touch sh key, None)
          end
      end);
    match r with
    | (st, Some e) => Ret (st, Some e)
    | (st, None) => st ← lfu_record st key; Ret (st, None)
    end.

(** [-delta] wraps on the least int64. *)
Definition Decrement st key (offsets : list (string * Z)) (now : Z)
    : outcome (Store P * option store_error) :=
  Increment st key ((λ fd, (fd.1, i64 (- fd.2))) <$> offsets) now.

Definition Append st key (appends : list (string * string)) (now : Z)
    : outcome (Store P * option store_error) :=
  if bool_decide (key = "") then Ret (st, Some ErrInvalidKey)
  else
    r ← locked st key (λ sh,
      match lookup_live sh key now with
      | (sh, None) => Ret (sh, Some ErrNotFound)
      | (sh, Some r) =>
          let '(m, e) := Append_loop (default ∅ r.(value)) appends in
          let r := with_fields r m in
          let sh := with_data sh (<[key := r]> sh.(data)) in
          match e with
          | Some e => Ret (sh, Some e)
          | None =>
              let newSize := computeSize key r.(value) in
              let sh := with_size sh (resize sh.(currentSize) r.(size) newSize) in
              let sh := with_data sh (<[key := mkRecord r.(value) newSize r.(expiry)]> sh.(data)) in
              let sh := touch sh key in
              sh ← fueled (trim sh);
              Ret (sh, None)
          end
      end);
    match r with
    | (st, Some e) => Ret (st, Some e)
    | (st, None) => st ← lfu_record st key; Ret (st, None)
    end.

(** ** TTLs *)

(** [int64(time.Until(expiry).Seconds())] at the clock reading [now]: the
    difference saturates at the [Duration] range; a float out of the int64 range
    cannot arise from it. *)
Definition ttlRemainingSecondsHook (expiry now : Z) : Z :=
  let d := Z.max minInt64 (Z.min maxInt64 (expiry - now)) in
  let secs := f64_add (f64_of_Z (Z.quot d (10 ^ 9)))
                (f64_div (f64_of_Z (Z.rem d (10 ^ 9))) (f64_of_Z (10 ^ 9))) in
  default 0 (f64_trunc secs).

Definition GetTTL st key (now now2 : Z) : outcome (Store P * result store_error Z) :=
  if bool_decide (key = "") then Ret (st, Err ErrInvalidKey)
  else
    locked st key (λ sh,
      match lookup_live sh key now with
      | (sh, None) => Ret (sh, Err ErrNotFound)
      | (sh, Some r) =>
          if r.(expiry) =? 0 then Ret (sh, Ok (-1))
          else
            let secs := ttlRemainingSecondsHook r.(expiry) now2 in
            if secs <? 0 then Ret (removeLocked sh key, Err ErrNotFound)
            else Ret (sh, Ok secs)
      end).

Definition SetTTL st key (ttl now : Z) : outcome (Store P * option store_error) :=
  if bool_decide (key = "") then Ret (st, Some ErrInvalidKey)
  else
    r ← locked st key (λ sh,
      match lookup_live sh key now with
      | (sh, None) => Ret (sh, Some ErrNotFound)
      | (sh, Some r) =>
          let exp := if ttl <=? 0 then 0 else now + ttl in
          let sh := with_data sh (<[key := mkRecord r.(value) r.(size) exp]> sh.(data)) in
          Ret (touch sh key, None)
      end);
    match r with
    | (st, Some e) => Ret (st, Some e)
    | (st, None) => st ← lfu_record st key; Ret (st, None)
    end.

(** ** Batches *)

(** Every key of a batch comes with the clock reading of its own operation. *)

Fixpoint MultiGet_loop st (keys : list (string * Z)) (out : gmap string fields)
    : outcome (Store P * gmap string fields) :=
  match keys with
  | [] => Ret (st, out)
  | (k, now) :: keys =>
      if bool_decide (k = "") then MultiGet_loop st keys out
      else
        r ← Get st k now;
        match r with
        | (st, Ok v) => MultiGet_loop st keys (<[k := v]> out)
        | (st, Err _) => MultiGet_loop st keys out
        end
  end.

Definition MultiGet st (keys : list (string * Z)) := MultiGet_loop st keys ∅.

Fixpoint MultiSet_loop st (items : list (string * fields * Z)) (ttl : Z) (res : gmap string bool)
    : outcome (Store P * gmap string bool) :=
  match items with
  | [] => Ret (st, res)
  | (key, v, now) :: items =>
      if bool_decide (key = "") then MultiSet_loop st items ttl (<[key := false]> res)
      else
        r ← Set_ st key v ttl now;
        match r with
        | (st, Ok b) => MultiSet_loop st items ttl (<[key := b]> res)
        | (st, Err _) => MultiSet_loop st items ttl (<[key := false]> res)
        end
  end.

Definition MultiSet st (items : list (string * fields * Z)) (ttl : Z) := MultiSet_loop st items ttl ∅.

Fixpoint MultiDelete_loop st (keys : list string) (res : gmap string bool)
    : outcome (Store P * gmap string bool) :=
  match keys with
  | [] => Ret (st, res)
  | key :: keys =>
      if bool_decide (key = "") then MultiDelete_loop st keys (<[key := false]> res)
      else
        r ← Delete st key;
        match r with
        | (st, Ok b) => MultiDelete_loop st keys (<[key := b]> res)
        | (st, Err _) => MultiDelete_loop st keys (<[key := false]> res)
        end
  end.

Definition MultiDelete st (keys : list string) := MultiDelete_loop st keys ∅.

(** ** The janitor *)

(** One shard: [entries] is its map in iteration order. *)
Fixpoint janitor_shard (entries : list (string * record)) (now deleted : Z) sh : shard :=
  match entries with
  | [] => sh
  | (k, rec) :: entries =>
      if negb (rec.(expiry) =? 0) && (rec.(expiry) <? now) then
        let sh := removeLocked sh k in
        let deleted := deleted + 1 in
        if maxDeletePerShard <=? deleted then sh else janitor_shard entries now deleted sh
      else janitor_shard entries now deleted sh
  end.

(** One tick: all shards in turn, each in the iteration order of its map. *)
Definition janitor_tick st (orders : list (list (string * record))) (now : Z) : Store P :=
  mkStore (zip_with (λ sh entries, janitor_shard entries now 0 sh) st.(shards) orders)
    st.(opts) st.(lfu) st.(stopped).

(** A closed store's janitor has returned. *)
Definition janitor st (orders : list (list (string * record))) (now : Z) : Store P :=
  if st.(stopped) then st else janitor_tick st orders now.
End store.
