(* ===== verification/FlashSpec.v ===== *)
(** * What FlashDB promises

    The store of [FlashStore.v] against its contract: the structural invariant
    (every record sits in its home shard, the LRU lists the stored keys, the byte
    count is the sum of the record sizes and within the shard's budget) is kept by
    every operation and no operation panics; single-key operations behave as
    operations on a map from keys to records with expiry; evictions only drop
    other keys of the same shard, from the cold end. The theorems are proved
    against the [Admission] interface. *)

From Stdlib Require Import ZArith Lia.
From S2P Require Import Prelude GoValue Lru Sketch TinyLfu FlashShard FlashStore.
Local Open Scope Z_scope.

Lemma clone_id m : clone m = m.
Proof. destruct m as [m|]; [|done]. cbn. by rewrite list_to_map_to_list. Qed.

(** ** Shard steps that keep the whole invariant *)

Lemma removeLocked_wf sh k : shard_wf sh → shard_wf (removeLocked sh k).
Proof.
  intros [Hc Hb]. destruct (removeLocked_spec sh k Hc) as (Hc' & Hd & _ & Hcap). split; [done|].
  rewrite Hcap, (sc_cost _ Hc'), Hd. rewrite (sc_cost _ Hc) in Hb.
  destruct (data sh !! k) as [r|] eqn:E; [|by rewrite delete_id].
  rewrite (cost_delete _ _ _ E). unfold cost_of. lia.
Qed.

Lemma touch_wf sh k : shard_wf sh → is_Some (sh.(data) !! k) → shard_wf (touch sh k).
Proof. intros [Hc Hb] Hk. split; [by apply touch_spec|done]. Qed.

(** Rewriting a record in place without changing its size. *)
Lemma rewrite_wf sh k r r' :
  shard_wf sh → sh.(data) !! k = Some r → r'.(size) = r.(size) →
  shard_wf (with_data sh (<[k := r']> sh.(data))).
Proof.
  intros [Hc Hb] Hk Hs. split; [|done].
  assert (cost_of r' = cost_of r) as Hco by (unfold cost_of; by rewrite Hs).
  destruct sh as [d l c n].
  apply (overwrite_spec (mkShard d l c n) k r' n Hc); cbn in *; [eauto| | |apply Hc].
  - rewrite Hs. by eapply (sc_sizes _ Hc).
  - rewrite (cost_update _ _ _ r' Hk), Hco, (sc_cost _ Hc : n = cost d). lia.
Qed.

(** *** Growing and shrinking a record *)

Lemma resize_spec cur old new :
  0 <= old < 2 ^ 63 → 0 <= new < 2 ^ 63 → old <= cur → cur + new - old < 2 ^ 64 →
  resize cur old new = cur - old + new.
Proof.
  intros Ho Hn Hc Hu. unfold resize, nonNegativeInt64ToUint64.
  destruct (Z.leb_spec old new); rewrite i64_id by (unfold is_i64; lia); case_match; try lia;
    rewrite ?(u64_id (new - old)), ?(u64_id (old - new)) by (unfold is_u64; lia);
    rewrite u64_id by (unfold is_u64; lia); lia.
Qed.

(** The state both [Set] (update) and [Append] trim. *)
Lemma resized_core sh k r r' :
  shard_wf sh → sh.(data) !! k = Some r → 0 <= r'.(size) < 2 ^ 63 →
  let sh1 := with_data (with_size sh (resize sh.(currentSize) r.(size) r'.(size)))
               (<[k := r']> sh.(data)) in
  shard_core (touch sh1 k) ∧
  order (touch sh1 k) = k :: filter (λ x, x ≠ k) (order sh).
Proof.
  intros [Hc Hb] Hk Hr. pose proof (sc_sizes _ Hc _ _ Hk) as Hs.
  pose proof (cost_lookup_le _ _ _ Hk) as Hle. pose proof (sc_capacity _ Hc).
  assert (cost_of r = r.(size) ∧ cost_of r' = r'.(size)) as [E1 E2] by (unfold cost_of; lia).
  assert (resize sh.(currentSize) r.(size) r'.(size) = cost (<[k := r']> sh.(data))) as Er.
  { rewrite (cost_update _ _ _ r' Hk), (sc_cost _ Hc) in *. rewrite resize_spec; lia. }
  assert (is_u64 (cost (<[k := r']> sh.(data)))) as Hu.
  { pose proof (cost_nonneg (<[k := r']> (data sh))). rewrite (cost_update _ _ _ r' Hk) in *.
    rewrite (sc_cost _ Hc) in Hb. unfold is_u64. lia. }
  rewrite Er. cbn zeta.
  pose proof (overwrite_spec sh k r' _ Hc ltac:(eauto) Hr eq_refl Hu) as Hc1.
  destruct (touch_spec _ k Hc1) as [Hc2 Ho2]; [cbn; rewrite lookup_insert_eq; eauto|].
  split; [exact Hc2|exact Ho2].
Qed.

Lemma restrict_singleton k r m : m !! k = Some r → restrict [k] m = {[ k := r ]}.
Proof.
  intros Hk. apply map_eq. intros x. unfold restrict. destruct (decide (x = k)) as [->|Hx].
  - rewrite lookup_singleton_eq. apply map_lookup_filter_Some. split; [done|]. cbn. set_solver.
  - rewrite lookup_singleton_ne by done. apply map_lookup_filter_None. right. cbn. set_solver.
Qed.

Lemma cost_singleton k r : cost {[ k := r ]} = cost_of r.
Proof.
  rewrite <-insert_empty, cost_insert by done. unfold cost. rewrite map_fold_empty. lia.
Qed.

Lemma restrict_lookup ks m k r :
  restrict ks m !! k = Some r ↔ k ∈ ks ∧ m !! k = Some r.
Proof. unfold restrict. rewrite map_lookup_filter_Some. cbn. tauto. Qed.

(** Trimming a shard whose most recent key is [k]: a record that fits alone
    survives, one that does not takes the whole shard with it. *)
Lemma trim_front sh k rest r :
  shard_core sh → order sh = k :: rest → sh.(data) !! k = Some r →
  ∃ sh' kept victims, trim sh = Some sh' ∧ shard_wf sh' ∧ order sh = kept ++ victims ∧
    sh'.(data) = restrict kept sh.(data) ∧ order sh' = kept ∧ sh'.(capacity) = sh.(capacity) ∧
    (r.(size) <= sh.(capacity) → sh'.(data) !! k = Some r) ∧
    (sh.(capacity) < r.(size) → sh'.(data) = ∅).
Proof.
  intros Hc Ho Hk. destruct (trim_spec sh Hc) as (sh' & victims & Ht & Hev & Hwf & Hmin).
  exists sh', (order sh'), victims. pose proof Hev as [Hc' Eo Ed Ecap].
  assert (cost_of r = r.(size)) as Ecost by (pose proof (sc_sizes _ Hc _ _ Hk); unfold cost_of; lia).
  split_and!; try done; intros Hsz.
  - rewrite Ed. apply restrict_lookup. split; [|done]. destruct (order sh') as [|k' ks] eqn:Eo'.
    + rewrite Ho in Eo. destruct victims as [|v vs]; simplify_eq/=.
      specialize (Hmin v vs eq_refl). cbn in Hmin.
      rewrite (restrict_singleton v r), cost_singleton in Hmin by done. lia.
    + rewrite Ho in Eo. simplify_eq/=. set_solver.
  - destruct (order sh') as [|k' ks] eqn:Eo'.
    + rewrite Ed. apply map_empty_filter_2. intros k' r' _ Hin. by apply elem_of_nil in Hin.
    + exfalso. rewrite Ho in Eo. simplify_eq/=.
      assert (data sh' !! k' = Some r) as Hk' by (rewrite Ed; apply restrict_lookup; set_solver).
      pose proof (cost_lookup_le _ _ _ Hk') as Hle. destruct Hwf as [_ Hb].
      rewrite (sc_cost _ Hc') in Hb. lia.
Qed.

(** What is left under [key] once the lock is taken at [now]. *)
Definition unexpired (o : option record) (now : Z) : option record :=
  match o with
  | Some r => if isExpired r now then None else Some r
  | None => None
  end.

Lemma lookup_live_spec sh key now :
  shard_wf sh →
  (lookup_live sh key now).2 = unexpired (sh.(data) !! key) now ∧
  shard_wf (lookup_live sh key now).1 ∧
  (lookup_live sh key now).1.(capacity) = sh.(capacity) ∧
  (lookup_live sh key now).1.(data) !! key = unexpired (sh.(data) !! key) now ∧
  ∀ k, k ≠ key → (lookup_live sh key now).1.(data) !! k = sh.(data) !! k.
Proof.
  intros Hwf. unfold lookup_live, unexpired.
  destruct (data sh !! key) as [r|] eqn:E; [|done].
  destruct (isExpired r now) eqn:Ex; [|done]. cbn. split_and!; [done|by apply removeLocked_wf|by apply removeLocked_spec, Hwf| |].
  - destruct (removeLocked_spec sh key (sw_core sh Hwf)) as (_ & -> & _). by rewrite lookup_delete_eq.
  - intros k Hk. destruct (removeLocked_spec sh key (sw_core sh Hwf)) as (_ & -> & _).
    by rewrite lookup_delete_ne.
Qed.

Section spec.
Context {P : Type} {ok : P → Prop} `{HL : AdmissionLaws P string ok}.
Implicit Types (st : Store P) (sh : shard) (key k : string).

(** The shard a key belongs to, and the record stored under it. *)
Definition home st k : nat := Z.to_nat (fnv32a k mod Z.of_nat (length st.(shards))).
Definition contents st k : option record :=
  match st.(shards) !! home st k with
  | Some sh => sh.(data) !! k
  | None => None
  end.

Record store_wf st : Prop := {
  st_size : 0 < Z.of_nat (length st.(shards)) < 2 ^ 32;
  st_count : Z.of_nat (length st.(shards)) = st.(opts).(Shards);
  st_caps : ∀ i sh, st.(shards) !! i = Some sh →
    sh.(capacity) = st.(opts).(MaxStorageSize) / st.(opts).(Shards);
  st_shards : ∀ i sh, st.(shards) !! i = Some sh → shard_wf sh;
  st_home : ∀ i sh k, st.(shards) !! i = Some sh → is_Some (sh.(data) !! k) → home st k = i;
  st_lfu : ∀ l, st.(lfu) = Some l → ok l
}.

Lemma home_lt st k : 0 < Z.of_nat (length st.(shards)) → (home st k < length st.(shards))%nat.
Proof.
  intros Hn. unfold home.
  pose proof (Z.mod_pos_bound (fnv32a k) _ Hn). lia.
Qed.

(** The shard a locked operation works on. *)
Lemma home_shard st k :
  store_wf st → ∃ sh, st.(shards) !! home st k = Some sh ∧ shard_wf sh ∧ contents st k = sh.(data) !! k.
Proof.
  intros Hwf. destruct (lookup_lt_is_Some_2 st.(shards) (home st k)) as [sh Hsh];
    [by apply home_lt, Hwf|].
  exists sh. split_and!; [done|by eapply st_shards|]. unfold contents. by rewrite Hsh.
Qed.

Lemma locked_eq {A} st k sh (f : shard → outcome (shard * A)) :
  store_wf st → st.(shards) !! home st k = Some sh →
  locked st k f = (r ← f sh; Ret (put_shard st (Z.of_nat (home st k)) r.1, r.2)).
Proof.
  intros Hwf Hsh. pose proof (st_size st Hwf) as Hn. unfold locked, shardFor.
  rewrite u32_id by (unfold is_u32; lia).
  destruct (Z.eqb_spec (Z.of_nat (length (shards st))) 0); [lia|]. cbn.
  pose proof (Z.mod_pos_bound (fnv32a k) (Z.of_nat (length (shards st)))) as Hb.
  rewrite (slice_get_Ret _ _ sh) by (unfold home in Hsh; done || lia). cbn.
  unfold home. rewrite Z2Nat.id by lia. done.
Qed.

Lemma home_put st i sh k : home (put_shard st i sh) k = home st k.
Proof. unfold home. cbn. by rewrite length_insert. Qed.

(** Replacing the home shard of [key] by one that stores no foreign key. *)
Lemma put_shard_spec st key sh sh' :
  store_wf st → st.(shards) !! home st key = Some sh → shard_wf sh' →
  sh'.(capacity) = sh.(capacity) →
  (∀ k, is_Some (sh'.(data) !! k) → k = key ∨ is_Some (sh.(data) !! k)) →
  let st' := put_shard st (Z.of_nat (home st key)) sh' in
  store_wf st' ∧
  ∀ k, contents st' k = if decide (home st k = home st key) then sh'.(data) !! k else contents st k.
Proof.
  intros Hwf Hsh Hsh' Hcap Hkeys st'. pose proof (home_lt st key (proj1 (st_size st Hwf))) as Hlt.
  assert (st'.(shards) = <[home st key := sh']> st.(shards)) as E
    by (cbn; by rewrite Nat2Z.id).
  split.
  - split.
    + rewrite E, length_insert. apply Hwf.
    + rewrite E, length_insert. apply Hwf.
    + intros i s. rewrite E, list_lookup_insert_Some.
      intros [(_ & -> & _)|[_ Hi]]; [rewrite Hcap|]; eapply (st_caps st Hwf); eauto.
    + intros i s. rewrite E, list_lookup_insert_Some. intros [(_ & -> & _)|[_ Hi]]; [done|].
      by eapply st_shards.
    + intros i s k. rewrite E, list_lookup_insert_Some. unfold st'. rewrite home_put.
      intros [(<- & <- & _)|[_ Hi]] Hk; [|by eapply st_home].
      destruct (Hkeys k Hk) as [->|Hk']; [done|]. by eapply st_home.
    + apply Hwf.
  - intros k. unfold contents. rewrite E. unfold st'. rewrite home_put.
    case_decide as Hd.
    + by rewrite Hd, list_lookup_insert_eq.
    + by rewrite list_lookup_insert_ne.
Qed.

Lemma lfu_record_spec st key :
  store_wf st → ∃ st', lfu_record st key = Ret st' ∧ store_wf st' ∧
    st'.(shards) = st.(shards) ∧ st'.(opts) = st.(opts) ∧ ∀ k, contents st' k = contents st k.
Proof.
  intros Hwf. unfold lfu_record. destruct (lfu st) as [l|] eqn:El.
  - destruct (adm_record_total l key (st_lfu st Hwf l El)) as (l' & -> & Hok). cbn.
    eexists. split_and!; [done| |done..]. destruct Hwf as [Hn Hcn Hcp Hs Hh _].
    split; cbn; [done..|]. by intros ? [= <-].
  - exists st. done.
Qed.

(** A shard operation that changes at most the record of [key]. *)
Lemma same_shard_contents st key sh sh' :
  store_wf st → st.(shards) !! home st key = Some sh → shard_wf sh' →
  sh'.(capacity) = sh.(capacity) →
  (∀ k, k ≠ key → sh'.(data) !! k = sh.(data) !! k) →
  let st' := put_shard st (Z.of_nat (home st key)) sh' in
  store_wf st' ∧ ∀ k, contents st' k = if decide (k = key) then sh'.(data) !! key else contents st k.
Proof.
  intros Hwf Hsh Hsh' Hcap Hk st'.
  destruct (put_shard_spec st key sh sh' Hwf Hsh Hsh' Hcap) as [Hwf' Hc].
  { intros k Hk'. destruct (decide (k = key)) as [|Hne]; [by left|right]. by rewrite <-Hk. }
  split; [done|]. intros k. rewrite Hc. destruct (decide (k = key)) as [->|Hne].
  - by rewrite decide_True.
  - case_decide as Hh; [|done]. rewrite Hk by done. unfold contents. by rewrite Hh, Hsh.
Qed.

(** A locked operation on a non-empty key that works on the live record: the
    common shape of [Get], [Increment], [GetTTL] and [SetTTL]. [upd] is what it
    leaves under the key. *)
Lemma locked_live {A} st key now (f : shard → option record → outcome (shard * A))
    (upd : option record → option record) (res : option record → A) :
  store_wf st →
  (∀ sh o, shard_wf sh → sh.(data) !! key = o →
     ∃ sh', f sh o = Ret (sh', res o) ∧ shard_wf sh' ∧ sh'.(capacity) = sh.(capacity) ∧
       sh'.(data) !! key = upd o ∧
       ∀ k, k ≠ key → sh'.(data) !! k = sh.(data) !! k) →
  ∃ st', locked st key (λ sh, f (lookup_live sh key now).1 (lookup_live sh key now).2) =
      Ret (st', res (unexpired (contents st key) now)) ∧
    store_wf st' ∧
    ∀ k, contents st' k =
      if decide (k = key) then upd (unexpired (contents st key) now) else contents st k.
Proof.
  intros Hwf Hf. destruct (home_shard st key Hwf) as (sh & Hsh & Hshwf & Hcont).
  destruct (lookup_live_spec sh key now Hshwf) as (E2 & Hwf1 & Ecap & E1 & Hother).
  destruct (Hf (lookup_live sh key now).1 (unexpired (data sh !! key) now) Hwf1 E1)
    as (sh' & Ef & Hwf' & Hcap' & Hkey & Hk).
  rewrite (locked_eq st key sh _ Hwf Hsh), E2, Ef. cbn.
  destruct (same_shard_contents st key sh sh' Hwf Hsh Hwf') as [Hst Hc]; [congruence| |].
  { intros k Hne. by rewrite Hk, Hother. }
  eexists. split_and!; [by rewrite Hcont|done|]. intros k. rewrite Hc, Hcont.
  by rewrite Hkey.
Qed.

Lemma locked_ext {A} st key (f g : shard → outcome (shard * A)) :
  (∀ sh, f sh = g sh) → locked st key f = locked st key g.
Proof.
  intros Hfg. unfold locked. destruct (shardFor st key); [|done]. cbn.
  destruct (slice_get (shards st) a); [|done]. cbn. by rewrite Hfg.
Qed.

(** Brings the code's match on [lookup_live] to the shape of [locked_live]. *)
Ltac use_live Hl :=
  erewrite locked_ext;
    [rewrite Hl | intros ?sh; cbn beta; by destruct (lookup_live _ _ _) as [? []]].

(** *** Functional behaviour of the single-key operations *)

Lemma Get_spec st key now :
  store_wf st → key ≠ "" →
  ∃ st', Get st key now =
      Ret (st', match unexpired (contents st key) now with
                | Some r => Ok r.(value) | None => Err ErrNotFound end) ∧
    store_wf st' ∧
    ∀ k, contents st' k =
      if decide (k = key) then unexpired (contents st key) now else contents st k.
Proof.
  intros Hwf Hne. unfold Get. rewrite bool_decide_false by done.
  destruct (locked_live st key now
    (λ sh o, match o with
             | None => Ret (sh, None)
             | Some r => Ret (touch sh key, Some (clone r.(value)))
             end) (λ o, o) (λ o, match o with None => None | Some r => Some r.(value) end) Hwf)
    as (st1 & Hl & Hwf1 & Hc1).
  { intros sh [r|] Hsh Ho; [|by exists sh]. exists (touch sh key). rewrite clone_id.
    split_and!; [done|apply touch_wf; eauto|done..]. }
  use_live Hl.
  cbn. destruct (unexpired (contents st key) now) as [r|] eqn:Eu; [|by exists st1].
  destruct (lfu_record_spec st1 key Hwf1) as (st2 & -> & Hwf2 & _ & _ & Hc2). cbn.
  exists st2. split_and!; [done|done|]. intros k. by rewrite Hc2, Hc1.
Qed.

Lemma SetTTL_spec st key ttl now :
  store_wf st → key ≠ "" →
  ∃ st', SetTTL st key ttl now =
      Ret (st', match unexpired (contents st key) now with
                | Some r => None | None => Some ErrNotFound end) ∧
    store_wf st' ∧
    ∀ k, contents st' k =
      if decide (k = key) then
        (λ r, mkRecord r.(value) r.(size) (if ttl <=? 0 then 0 else now + ttl)) <$>
          unexpired (contents st key) now
      else contents st k.
Proof.
  intros Hwf Hne. unfold SetTTL. rewrite bool_decide_false by done.
  set (newr := λ r, mkRecord r.(value) r.(size) (if ttl <=? 0 then 0 else now + ttl)).
  destruct (locked_live st key now
    (λ sh o, match o with
             | None => Ret (sh, Some ErrNotFound)
             | Some r => Ret (touch (with_data sh (<[key := newr r]> sh.(data))) key, None)
             end) (λ o, newr <$> o) (λ o, match o with None => Some ErrNotFound | Some r => None end) Hwf)
    as (st1 & Hl & Hwf1 & Hc1).
  { intros sh [r|] Hsh Ho; [|by exists sh]. eexists. split_and!; [done| |done| |].
    - apply touch_wf; [by eapply rewrite_wf|]. cbn. rewrite lookup_insert_eq. eauto.
    - cbn. by rewrite lookup_insert_eq.
    - intros k Hk. cbn. by rewrite lookup_insert_ne. }
  use_live Hl.
  cbn. destruct (unexpired (contents st key) now) as [r|] eqn:Eu; [|by exists st1].
  destruct (lfu_record_spec st1 key Hwf1) as (st2 & -> & Hwf2 & _ & _ & Hc2). cbn.
  exists st2. split_and!; [done|done|]. intros k. by rewrite Hc2, Hc1.
Qed.

(** The record after an [Increment], complete or cut short by an error. *)
Definition incremented (offsets : list (string * Z)) (r : record) : record :=
  with_fields r (Increment_loop (default ∅ r.(value)) offsets).1.

Lemma Store_Increment_spec st key offsets now :
  store_wf st → key ≠ "" →
  ∃ st', Increment st key offsets now =
      Ret (st', match unexpired (contents st key) now with
                | Some r => (Increment_loop (default ∅ r.(value)) offsets).2
                | None => Some ErrNotFound end) ∧
    store_wf st' ∧
    ∀ k, contents st' k =
      if decide (k = key) then incremented offsets <$> unexpired (contents st key) now
      else contents st k.
Proof.
  intros Hwf Hne. unfold Increment. rewrite bool_decide_false by done.
  set (loop := λ r, Increment_loop (default ∅ r.(value)) offsets).
  destruct (locked_live st key now
    (λ sh o, match o with
             | None => Ret (sh, Some ErrNotFound)
             | Some r =>
                 let sh' := with_data sh (<[key := incremented offsets r]> sh.(data)) in
                 match (loop r).2 with
                 | Some e => Ret (sh', Some e)
                 | None => Ret (touch sh' key, None)
                 end
             end) (λ o, incremented offsets <$> o)
    (λ o, match o with None => Some ErrNotFound | Some r => (loop r).2 end) Hwf)
    as (st1 & Hl & Hwf1 & Hc1).
  { intros sh [r|] Hsh Ho; [|by exists sh].
    assert (shard_wf (with_data sh (<[key := incremented offsets r]> sh.(data)))) as Hw
      by by eapply rewrite_wf.
    cbn. destruct (loop r).2; eexists; (split_and!; [done| |done| |]); try done;
      try (by cbn; rewrite lookup_insert_eq);
      try (by intros k Hk; cbn; rewrite lookup_insert_ne).
    apply touch_wf; [done|]. cbn. rewrite lookup_insert_eq. eauto. }
  erewrite locked_ext; [rewrite Hl|].
  2: { intros sh. cbn beta. destruct (lookup_live sh key now) as [sh1 [r|]]; [|done]. cbn.
       unfold loop, incremented. by destruct (Increment_loop _ _) as [m []]. }
  cbn. destruct (unexpired (contents st key) now) as [r|] eqn:Eu; [|by exists st1].
  fold (loop r). destruct (loop r).2 as [e|] eqn:El; [by exists st1|].
  destruct (lfu_record_spec st1 key Hwf1) as (st2 & -> & Hwf2 & _ & _ & Hc2). cbn.
  exists st2. split_and!; [done|done|]. intros k. by rewrite Hc2, Hc1.
Qed.

Lemma GetTTL_spec st key now now2 :
  store_wf st → key ≠ "" →
  let gone r := negb (r.(expiry) =? 0) && (ttlRemainingSecondsHook r.(expiry) now2 <? 0) in
  ∃ st', GetTTL st key now now2 =
      Ret (st', match unexpired (contents st key) now with
                | Some r => if r.(expiry) =? 0 then Ok (-1)
                            else if gone r then Err ErrNotFound
                            else Ok (ttlRemainingSecondsHook r.(expiry) now2)
                | None => Err ErrNotFound end) ∧
    store_wf st' ∧
    ∀ k, contents st' k =
      if decide (k = key) then
        match unexpired (contents st key) now with
        | Some r => if gone r then None else Some r
        | None => None
        end
      else contents st k.
Proof.
  intros Hwf Hne gone. unfold GetTTL. rewrite bool_decide_false by done.
  destruct (locked_live st key now
    (λ sh o, match o with
             | None => Ret (sh, Err ErrNotFound)
             | Some r =>
                 if r.(expiry) =? 0 then Ret (sh, Ok (-1))
                 else if ttlRemainingSecondsHook r.(expiry) now2 <? 0
                      then Ret (removeLocked sh key, Err ErrNotFound)
                      else Ret (sh, Ok (ttlRemainingSecondsHook r.(expiry) now2))
             end) (λ o, match o with Some r => if gone r then None else Some r | None => None end)
    (λ o, match o with
          | Some r => if r.(expiry) =? 0 then Ok (-1)
                      else if gone r then Err ErrNotFound
                      else Ok (ttlRemainingSecondsHook r.(expiry) now2)
          | None => Err ErrNotFound end) Hwf)
    as (st1 & Hl & Hwf1 & Hc1).
  { intros sh [r|] Hsh Ho; [|by exists sh]. unfold gone.
    destruct (expiry r =? 0); [by exists sh|]. cbn.
    destruct (ttlRemainingSecondsHook (expiry r) now2 <? 0); [|by exists sh].
    destruct (removeLocked_spec sh key (sw_core sh Hsh)) as (_ & Hd & _).
    exists (removeLocked sh key).
    split_and!; [done|by apply removeLocked_wf|by apply removeLocked_spec, Hsh| |]; rewrite Hd.
    - apply lookup_delete_eq.
    - intros k Hk. by apply lookup_delete_ne. }
  use_live Hl.
  by exists st1.
Qed.

Lemma Delete_spec st key :
  store_wf st → key ≠ "" →
  ∃ st', Delete st key = Ret (st', Ok (bool_decide (is_Some (contents st key)))) ∧
    store_wf st' ∧
    ∀ k, contents st' k = if decide (k = key) then None else contents st k.
Proof.
  intros Hwf Hne. unfold Delete. rewrite bool_decide_false by done.
  destruct (home_shard st key Hwf) as (sh & Hsh & Hshwf & Hcont).
  rewrite (locked_eq st key sh _ Hwf Hsh), Hcont.
  destruct (data sh !! key) as [r|] eqn:E; cbn.
  - destruct (removeLocked_spec sh key (sw_core sh Hshwf)) as (_ & Hd & _).
    destruct (same_shard_contents st key sh (removeLocked sh key) Hwf Hsh) as [Hst Hc].
    { by apply removeLocked_wf. }
    { by apply removeLocked_spec, Hshwf. }
    { intros k Hk. rewrite Hd. by apply lookup_delete_ne. }
    eexists. split_and!; [done|done|]. intros k. by rewrite Hc, Hd, lookup_delete_eq.
  - destruct (same_shard_contents st key sh sh Hwf Hsh Hshwf) as [Hst Hc]; [done|done|].
    eexists. split_and!; [done|done|]. intros k. by rewrite Hc, E.
Qed.

(** [Exists] with [hook] run between its two critical sections. *)
Lemma Store_Exists_spec st key now hook :
  store_wf st → key ≠ "" →
  match contents st key with
  | None => Exists st key now hook = Ret (st, Ok false)
  | Some r =>
      if isExpired r now then
        store_wf (hook st) →
        ∃ st', Exists st key now hook =
            Ret (st', Ok (match contents (hook st) key with
                          | Some r' => negb (isExpired r' now)
                          | None => true end)) ∧
          store_wf st' ∧
          ∀ k, contents st' k =
            if decide (k = key) then unexpired (contents (hook st) key) now else contents (hook st) k
      else Exists st key now hook = Ret (st, Ok true)
  end.
Proof.
  intros Hwf Hne. unfold Exists, Exists_read. rewrite bool_decide_false by done.
  destruct (home_shard st key Hwf) as (sh & Hsh & Hshwf & Hcont).
  assert (shardFor st key = Ret (Z.of_nat (home st key))) as Hi.
  { pose proof (st_size st Hwf) as Hn. unfold shardFor, home.
    rewrite u32_id by (unfold is_u32; lia). case_match; [lia|].
    pose proof (Z.mod_pos_bound (fnv32a key) (Z.of_nat (length (shards st)))).
    by rewrite Z2Nat.id by lia. }
  rewrite Hi. cbn. rewrite (slice_get_Ret _ _ sh) by (rewrite ?Nat2Z.id; done || lia). cbn.
  rewrite Hcont. destruct (data sh !! key) as [r|] eqn:E; [|done].
  cbn. destruct (isExpired r now) eqn:Ex; [|done]. intros Hwf'. unfold Exists_write.
  destruct (home_shard (hook st) key Hwf') as (sh' & Hsh' & Hshwf' & Hcont').
  rewrite (locked_eq (hook st) key sh' _ Hwf' Hsh'), Hcont'.
  destruct (lookup_live_spec sh' key now Hshwf') as (_ & Hw & Hcap & Hk & Ho). unfold lookup_live in Hw, Hk, Ho.
  destruct (same_shard_contents (hook st) key sh' (lookup_live sh' key now).1 Hwf' Hsh') as [Hst Hc];
    [done..|]. unfold lookup_live in Hst, Hc. unfold unexpired in *.
  destruct (data sh' !! key) as [r'|] eqn:E'; cbn in *.
  - destruct (isExpired r' now) eqn:Ex'; cbn in *; eexists; (split_and!; [done|done|]);
      intros k; by rewrite Hc, Hk.
  - eexists; (split_and!; [done|done|]); intros k; by rewrite Hc, Hk.
Qed.

(** *** Set *)

Lemma isFullAfter_spec sh n :
  shard_wf sh → 0 <= n < 2 ^ 63 → isFullAfter sh n = (sh.(capacity) <? sh.(currentSize) + n).
Proof.
  intros [Hc Hb] Hn. unfold isFullAfter. pose proof (sc_capacity _ Hc). pose proof (sc_u64 _ Hc).
  rewrite u64_id; [done|]. unfold is_u64 in *. lia.
Qed.

Lemma lfu_admits_total (l : option P) key vk :
  (∀ p, l = Some p → ok p) → ∃ b, lfu_admits l key vk = Ret b.
Proof.
  intros Hl. destruct l as [p|]; cbn; [|eauto]. apply adm_should_admit_total. by apply Hl.
Qed.

(** The admission loop evicts only keys the filter lets the newcomer replace, and
    either makes room or stops at a victim that may not be replaced. *)
Lemma admit_loop_spec fuel (l : option P) sh key n :
  shard_wf sh → 0 <= n < 2 ^ 63 → n <= sh.(capacity) → (∀ p, l = Some p → ok p) →
  (length (order sh) <= fuel)%nat →
  ∃ sh' b victims, admit_loop fuel l sh key n = Ret (sh', b) ∧ evicted sh sh' victims ∧
    shard_wf sh' ∧ (∀ v, v ∈ victims → lfu_admits l key v = Ret true) ∧
    if b then sh'.(currentSize) + n <= sh.(capacity)
    else ∃ v, last (order sh') = Some v ∧ lfu_admits l key v = Ret false.
Proof.
  intros Hwf Hn Hcap Hl. revert sh Hwf Hcap.
  induction fuel as [|fuel IH]; intros sh Hwf Hcap Hf; pose proof Hwf as [Hc Hb];
    cbn [admit_loop]; rewrite isFullAfter_spec by done;
    (destruct (Z.ltb_spec sh.(capacity) (sh.(currentSize) + n)) as [Hfull|];
     [|exists sh, true, []; split_and!; [done|by apply evicted_refl|done|by intros ? ?%elem_of_nil|done]]);
    (destruct (tailKeyLocked sh) as [vk|] eqn:Ht;
     [|exfalso; destruct (tail_None_empty sh Hc Ht) as [_ Hd];
       rewrite (sc_cost _ Hc), Hd in Hfull; unfold cost in Hfull; rewrite map_fold_empty in Hfull; lia]);
    destruct (evict_tail_spec sh vk Hc Ht) as (kept & E1 & E2 & Hc' & E3 & E4).
  - rewrite E1, length_app in Hf. cbn in Hf. lia.
  - destruct (lfu_admits_total l key vk Hl) as [[] Ha]; rewrite Ha; cbn.
    + destruct (IH (removeLocked sh vk)) as (sh' & b & victims & Hr & Hev & Hwf' & Hv & Hb').
      { by apply removeLocked_wf. }
      { by rewrite E4. }
      { rewrite E2. rewrite E1, length_app in Hf. cbn in Hf. lia. }
      exists sh', b, (victims ++ [vk]). rewrite E4 in Hb'.
      split_and!; [done|by eapply evicted_step|done| |done].
      intros v [?| ->%list_elem_of_singleton]%elem_of_app; auto.
    + exists sh, false, []. split_and!; [done|by apply evicted_refl|done|by intros ? ?%elem_of_nil|].
      exists vk. rewrite E1. by rewrite last_snoc.
Qed.

Lemma inserted_wf sh key r :
  shard_wf sh → sh.(data) !! key = None → 0 <= r.(size) < 2 ^ 63 →
  sh.(currentSize) + r.(size) <= sh.(capacity) →
  shard_wf (with_lru (with_size (with_data sh (<[key := r]> sh.(data)))
                        (u64 (sh.(currentSize) + r.(size)))) (LRU_Set sh.(lru) key tt).1).
Proof.
  intros [[Hl H0 Hd Hs Hcost Hu Hcap] Hb] Hk Hr Hfit.
  destruct (keys_Set sh.(lru) key Hl H0) as (Hl' & Hc' & Hk').
  { fold (order sh). rewrite Hd, Hk. by intros [? ?]. }
  rewrite u64_id by (unfold is_u64 in *; lia).
  split; [split|]; cbn; try done; try congruence.
  - unfold order in *. intros x. cbn. rewrite Hk', elem_of_cons, Hd, lookup_insert_is_Some.
    destruct (decide (x = key)) as [->|]; naive_solver.
  - intros x r'. rewrite lookup_insert_Some. intros [[_ <-]|[_ Hx]]; [done|by apply (Hs x)].
  - rewrite cost_insert, Hcost by done. unfold cost_of. lia.
  - unfold is_u64 in *. lia.
Qed.

Lemma evicted_lookup sh sh' victims k :
  evicted sh sh' victims → sh'.(data) !! k = sh.(data) !! k ∨ sh'.(data) !! k = None.
Proof.
  intros [_ _ Ed _]. destruct (data sh' !! k) as [r|] eqn:E; [|by right].
  rewrite Ed in E. apply restrict_lookup in E as [_ ->]. by left.
Qed.

(** Everything but [key] is as in [sh] or evicted. *)
Record shrinks sh sh' key : Prop := {
  shr_capacity : sh'.(capacity) = sh.(capacity);
  shr_others : ∀ k, k ≠ key → sh'.(data) !! k = sh.(data) !! k ∨ sh'.(data) !! k = None
}.

(** Trimming after the record of [key] was replaced by [r']. *)
Lemma trim_resized sh key r r' :
  shard_wf sh → sh.(data) !! key = Some r → 0 <= r'.(size) < 2 ^ 63 →
  let sh1 := with_data (with_size sh (resize sh.(currentSize) r.(size) r'.(size)))
               (<[key := r']> sh.(data)) in
  ∃ sh', trim (touch sh1 key) = Some sh' ∧ shard_wf sh' ∧ shrinks sh sh' key ∧
    sh'.(data) !! key = (if sh.(capacity) <? r'.(size) then None else Some r') ∧
    (sh.(capacity) < r'.(size) → sh'.(data) = ∅).
Proof.
  intros Hwf Hk Hr sh1. destruct (resized_core sh key r r' Hwf Hk Hr) as [Hc Ho].
  destruct (trim_front _ key _ r' Hc Ho) as (sh' & kept & victims & Ht & Hwf' & Eo & Ed & Eo' & Ecap & H1 & H2).
  { cbn. apply lookup_insert_eq. }
  cbn in Ed, Ecap, H1, H2. exists sh'. split_and!; try done.
  - split; [done|]. intros k Hne. destruct (data sh' !! k) as [x|] eqn:E; [left|by right].
    rewrite Ed, restrict_lookup, lookup_insert_ne in E by done. by destruct E as [_ ->].
  - destruct (Z.ltb_spec (capacity sh) (size r')); [|by apply H1].
    by rewrite (H2 H0).
Qed.

Lemma Set_update_spec sh key r v n exp :
  shard_wf sh → sh.(data) !! key = Some r → 0 <= n < 2 ^ 63 →
  ∃ sh', Set_update sh key r v n exp = Ret sh' ∧ shard_wf sh' ∧ shrinks sh sh' key ∧
    sh'.(data) !! key = (if sh.(capacity) <? n then None else Some (mkRecord v n exp)) ∧
    (sh.(capacity) < n → sh'.(data) = ∅).
Proof.
  intros Hwf Hk Hn. destruct (trim_resized sh key r (mkRecord v n exp) Hwf Hk Hn) as (sh' & Ht & Hrest).
  exists sh'. split; [|exact Hrest]. unfold Set_update. rewrite clone_id.
  destruct (Z.leb_spec 0 n); [|lia]. cbn in *. by rewrite Ht.
Qed.

Lemma Set_insert_spec (l : option P) sh key v n exp :
  shard_wf sh → sh.(data) !! key = None → 0 <= n < 2 ^ 63 → (∀ p, l = Some p → ok p) →
  ∃ sh' b, Set_insert l sh key v n exp = Ret (sh', b) ∧ shard_wf sh' ∧ shrinks sh sh' key ∧
    sh'.(data) !! key = (if b then Some (mkRecord v n exp) else None) ∧
    (sh.(capacity) < n → b = false ∧ sh' = sh) ∧
    (b = false → n <= sh.(capacity) → ∃ vk, is_Some (sh'.(data) !! vk) ∧ lfu_admits l key vk = Ret false) ∧
    ∀ k, k ≠ key → is_Some (sh.(data) !! k) → sh'.(data) !! k = None → lfu_admits l key k = Ret true.
Proof.
  intros Hwf Hk Hn Hl. pose proof Hwf as [Hc Hb]. unfold Set_insert.
  assert (nonNegativeInt64ToUint64 n = n) as ->.
  { unfold nonNegativeInt64ToUint64. case_match; [lia|]. apply u64_id. unfold is_u64. lia. }
  destruct (Z.ltb_spec sh.(capacity) n) as [Hbig|Hfit].
  { exists sh, false. split_and!; try done; [split; auto|lia|].
    intros k _ [r Hr] Hnone. congruence. }
  destruct (admit_loop_spec (length sh.(lru).(ll)) l sh key n) as (sh1 & b & victims & -> & Hev & Hwf1 & Hv & Hend);
    try done.
  { unfold order. by rewrite keys_length by apply Hc. }
  assert (data sh1 !! key = None) as Hk1 by (destruct (evicted_lookup _ _ _ key Hev) as [->|]; done).
  assert (∀ k, is_Some (sh.(data) !! k) → sh1.(data) !! k = None → lfu_admits l key k = Ret true) as Hvict.
  { intros k Hs Hnone. apply Hv. apply (sc_dom _ Hc) in Hs. rewrite (ev_order _ _ _ Hev) in Hs.
    apply elem_of_app in Hs as [Hs|]; [|done]. apply (sc_dom _ (ev_core _ _ _ Hev)) in Hs as [? ?]. congruence. }
  cbn. destruct b.
  - set (r := mkRecord (clone v) n exp). eexists _, true. split_and!; [done| | | |lia|done|].
    + apply (inserted_wf sh1 key r); try done. cbn. by rewrite (ev_capacity _ _ _ Hev).
    + split; [apply Hev|]. intros k Hne. cbn. rewrite lookup_insert_ne by done. by eapply evicted_lookup.
    + cbn. rewrite lookup_insert_eq. unfold r. by rewrite clone_id.
    + intros k Hne Hs. cbn. rewrite lookup_insert_ne by done. by apply Hvict.
  - exists sh1, false. split_and!; try done; try lia.
    + split; [apply Hev|]. intros k Hne. by eapply evicted_lookup.
    + intros _ _. destruct Hend as (vk & Hlast & Ha). exists vk. split; [|done].
      apply (sc_dom _ (ev_core _ _ _ Hev)). apply last_Some in Hlast as [? ->]. set_solver.
    + auto.
Qed.

(** The byte budget of the shard of [key]. *)
Definition budget st key : Z :=
  match st.(shards) !! home st key with
  | Some sh => sh.(capacity)
  | None => 0
  end.

(** Every other key is as it was, or was evicted from the shard of [key]. *)
Record evicts_only st st' key : Prop := {
  eo_others : ∀ k, k ≠ key →
    contents st' k = contents st k ∨ (contents st' k = None ∧ home st k = home st key);
  eo_budget : budget st' key = budget st key
}.

Lemma put_shrinks st key sh sh' :
  store_wf st → st.(shards) !! home st key = Some sh → shard_wf sh' → shrinks sh sh' key →
  let st' := put_shard st (Z.of_nat (home st key)) sh' in
  store_wf st' ∧ evicts_only st st' key ∧ contents st' key = sh'.(data) !! key ∧
  ∀ k, home st k = home st key → contents st' k = sh'.(data) !! k.
Proof.
  intros Hwf Hsh Hwf' [Hcap Hs] st'. destruct (put_shard_spec st key sh sh' Hwf Hsh Hwf' Hcap) as [Hst Hc].
  { intros k Hk. destruct (decide (k = key)) as [|Hne]; [by left|right].
    destruct (Hs k Hne) as [E|E]; rewrite E in Hk; [done|by destruct Hk]. }
  assert (∀ k, home st k = home st key → contents st' k = sh'.(data) !! k) as Hh
    by (intros k E; unfold st'; by rewrite Hc, decide_True).
  split_and!; [done| |by apply Hh|done]. split.
  - intros k Hne. destruct (decide (home st k = home st key)) as [E|E].
    + rewrite Hh by done. destruct (Hs k Hne) as [Ek|Ek]; [left|by right].
      rewrite Ek. unfold contents. by rewrite E, Hsh.
    + left. unfold st'. by rewrite Hc, decide_False.
  - unfold budget, st'. rewrite home_put. cbn.
    rewrite Nat2Z.id, list_lookup_insert_eq, Hsh by (by apply home_lt, Hwf). done.
Qed.

(** What [Set] writes. *)
Definition written st key v ttl now : record :=
  mkRecord v (computeSize key v) (expiry_for st now ttl).

Lemma Set_spec st key v ttl now :
  store_wf st → key ≠ "" → 0 <= computeSize key v →
  ∃ st' b, Set_ st key v ttl now = Ret (st', Ok b) ∧ store_wf st' ∧ evicts_only st st' key ∧
    match contents st key with
    | Some _ =>
        b = true ∧
        contents st' key =
          (if budget st key <? computeSize key v then None else Some (written st key v ttl now)) ∧
        (budget st key < computeSize key v → ∀ k, home st k = home st key → contents st' k = None)
    | None =>
        contents st' key = (if b then Some (written st key v ttl now) else None) ∧
        (budget st key < computeSize key v → b = false ∧ ∀ k, contents st' k = contents st k)
    end.
Proof.
  intros Hwf Hne Hsz. unfold Set_. rewrite bool_decide_false by done.
  destruct (lfu_record_spec st key Hwf) as (st1 & -> & Hwf1 & Es & _ & Hc1). cbn.
  assert (∀ k, home st1 k = home st k) as Hh by (intros k; unfold home; by rewrite Es).
  assert (0 <= computeSize key v < 2 ^ 63) as Hn
    by (split; [done|]; unfold computeSize; apply i64_range).
  destruct (home_shard st1 key Hwf1) as (sh & Hsh & Hshwf & Hcont).
  assert (budget st key = sh.(capacity)) as Eb by (unfold budget; by rewrite <-Es, <-Hh, Hsh).
  rewrite (locked_eq st1 key sh _ Hwf1 Hsh). fold (written st key v ttl now).
  assert (∀ st', evicts_only st1 st' key → evicts_only st st' key) as Hev.
  { intros st' [Ho Hbu]. split.
    - intros k Hk. specialize (Ho k Hk). by rewrite Hc1, !Hh in Ho.
    - rewrite Hbu. unfold budget. by rewrite Hh, Es. }
  rewrite <-Hc1, Hcont, Eb. destruct (data sh !! key) as [r|] eqn:E.
  - destruct (Set_update_spec sh key r v _ (expiry_for st now ttl) Hshwf E Hn)
      as (sh' & -> & Hwf' & Hshr & Hkey & Hbig). cbn.
    destruct (put_shrinks st1 key sh sh' Hwf1 Hsh Hwf' Hshr) as (Hst & He & Hk & Hall).
    eexists _, true. split_and!; [done|done|by apply Hev|done|by rewrite Hk, Hkey|].
    intros Hlt k Hkk. rewrite Hall by (rewrite !Hh; done). by rewrite Hbig.
  - destruct (Set_insert_spec st1.(lfu) sh key v _ (expiry_for st now ttl) Hshwf E Hn)
      as (sh' & b & -> & Hwf' & Hshr & Hkey & Hbig & _); [apply Hwf1|]. cbn.
    destruct (put_shrinks st1 key sh sh' Hwf1 Hsh Hwf' Hshr) as (Hst & He & Hk & Hall).
    eexists _, b. split_and!; [done|done|by apply Hev|by rewrite Hk, Hkey|].
    intros Hlt. destruct (Hbig Hlt) as [-> ->]. split; [done|].
    destruct (same_shard_contents st1 key sh sh Hwf1 Hsh Hshwf) as [_ Hc]; [done|done|].
    intros k. rewrite Hc, <-Hc1. case_decide as Hd; [by rewrite Hd, Hcont|done].
Qed.

(** The record after a successful [Append]. *)
Definition appended key (appends : list (string * string)) (r : record) : record :=
  let r := with_fields r (Append_loop (default ∅ r.(value)) appends).1 in
  mkRecord r.(value) (computeSize key r.(value)) r.(expiry).

Lemma Append_spec st key appends now :
  store_wf st → key ≠ "" →
  (∀ r, contents st key = Some r → 0 <= (appended key appends r).(size)) →
  ∃ st', store_wf st' ∧
    match unexpired (contents st key) now with
    | None =>
        Append st key appends now = Ret (st', Some ErrNotFound) ∧
        ∀ k, contents st' k = if decide (k = key) then None else contents st k
    | Some r =>
        Append st key appends now = Ret (st', (Append_loop (default ∅ r.(value)) appends).2) ∧
        match (Append_loop (default ∅ r.(value)) appends).2 with
        | Some _ => ∀ k, contents st' k =
            if decide (k = key) then Some (with_fields r (Append_loop (default ∅ r.(value)) appends).1)
            else contents st k
        | None =>
            evicts_only st st' key ∧
            contents st' key =
              (if budget st key <? (appended key appends r).(size) then None
               else Some (appended key appends r))
        end
    end.
Proof.
  intros Hwf Hne Hsz. unfold Append. rewrite bool_decide_false by done.
  destruct (home_shard st key Hwf) as (sh & Hsh & Hshwf & Hcont).
  rewrite (locked_eq st key sh _ Hwf Hsh), Hcont in *.
  destruct (lookup_live_spec sh key now Hshwf) as (E2 & Hwf1 & Ecap & E1 & Hother).
  destruct (lookup_live sh key now) as [sh1 o] eqn:El. cbn in E2, Hwf1, Ecap, E1, Hother. subst o.
  destruct (unexpired (data sh !! key) now) as [r|] eqn:Eu.
  2: { cbn. destruct (same_shard_contents st key sh sh1 Hwf Hsh Hwf1 Ecap Hother) as [Hst Hc].
       eexists. split_and!; [done|done|]. intros k. by rewrite Hc, E1. }
  assert (data sh !! key = Some r ∧ sh1 = sh) as [Er ->].
  { unfold unexpired, lookup_live in *. repeat case_match; simplify_eq. done. }
  specialize (Hsz r Er). destruct (Append_loop (default ∅ (value r)) appends) as [m [e|]] eqn:Ea.
  - destruct (same_shard_contents st key sh (with_data sh (<[key := with_fields r m]> sh.(data))) Hwf Hsh)
      as [Hst Hc]; [by eapply rewrite_wf|done| |].
    { intros k Hk. cbn. by rewrite lookup_insert_ne. }
    eexists. split_and!; [exact Hst|done|]. intros k. rewrite Hc. cbn. by rewrite lookup_insert_eq.
  - set (r' := appended key appends r) in *.
    assert (r' = mkRecord (with_fields r m).(value) (computeSize key (with_fields r m).(value)) r.(expiry)) as Er'
      by (unfold r', appended; by rewrite Ea).
    assert (0 <= r'.(size) < 2 ^ 63) as Hr'
      by (split; [done|]; rewrite Er'; cbn; unfold computeSize; apply i64_range).
    destruct (trim_resized sh key r r' Hshwf Er Hr') as (sh' & Ht & Hwf' & Hshr & Hkey & _).
    cbn [with_data with_size touch with_fields] in *. rewrite Er' in Ht. cbn in Ht.
    cbn. rewrite insert_insert_eq. unfold touch, with_lru, with_data, with_size in *. cbn in *.
    rewrite Ht. cbn.
    destruct (put_shrinks st key sh sh' Hwf Hsh Hwf' Hshr) as (Hst & He & Hk & _).
    destruct (lfu_record_spec _ key Hst) as (st2 & -> & Hwf2 & Es2 & _ & Hc2). cbn.
    exists st2. split_and!; [done|done| |].
    + destruct He as [Ho Hbu]. split.
      * intros k Hk'. rewrite Hc2. by apply Ho.
      * rewrite <-Hbu. unfold budget, home. by rewrite Es2.
    + rewrite Hc2, Hk, Hkey. unfold budget. by rewrite Hsh.
Qed.

(** *** The janitor *)

Definition expired_entry (now : Z) (kr : string * record) : Prop := isExpired kr.2 now = true.

#[export] Instance expired_entry_dec now kr : Decision (expired_entry now kr).
Proof. unfold expired_entry. apply _. Defined.

(** Removes expired records only, at most [maxDeletePerShard - deleted] of them,
    and all of them when that limit is not reached. *)
Record swept (entries : list (string * record)) (now deleted : Z) sh sh' : Prop := {
  sweep_wf : shard_wf sh';
  sweep_cap : sh'.(capacity) = sh.(capacity);
  sweep_only : ∀ k, sh'.(data) !! k = sh.(data) !! k ∨
    (sh'.(data) !! k = None ∧ ∃ r, sh.(data) !! k = Some r ∧ isExpired r now = true);
  sweep_limit : 0 <= deleted < maxDeletePerShard →
    Z.of_nat (base.size sh.(data)) <= Z.of_nat (base.size sh'.(data)) + (maxDeletePerShard - deleted);
  sweep_all : deleted + Z.of_nat (length (filter (expired_entry now) entries)) < maxDeletePerShard →
    ∀ k r, (k, r) ∈ entries → isExpired r now = true → sh'.(data) !! k = None
}.

Lemma janitor_shard_spec entries now deleted sh :
  shard_wf sh → NoDup entries.*1 → (∀ k r, (k, r) ∈ entries → sh.(data) !! k = Some r) →
  swept entries now deleted sh (janitor_shard entries now deleted sh).
Proof.
  revert deleted sh. induction entries as [|[k r] entries IH]; intros deleted sh Hwf Hnd Hin.
  { split; cbn; [done|done|by left|lia|set_solver]. }
  cbn in Hnd. apply NoDup_cons in Hnd as [Hk Hnd]. cbn [janitor_shard].
  fold (isExpired r now). assert (data sh !! k = Some r) as Hkr by (apply Hin; set_solver).
  destruct (isExpired r now) eqn:Ex.
  - destruct (removeLocked_spec sh k (sw_core sh Hwf)) as (_ & Hd & _ & Hcap).
    assert (Z.of_nat (base.size (data sh)) = Z.of_nat (base.size (data (removeLocked sh k))) + 1) as Hsz.
    { rewrite Hd, map_size_delete_Some by eauto.
      assert (base.size (data sh) ≠ 0%nat) by (by apply map_size_non_empty_iff; intros E; rewrite E in Hkr).
      lia. }
    assert (∀ k0 r0, (k0, r0) ∈ entries → data (removeLocked sh k) !! k0 = Some r0) as Hin'.
    { intros k0 r0 H0. rewrite Hd, lookup_delete_ne; [apply Hin; set_solver|].
      intros <-. apply Hk, list_elem_of_fmap. by exists (k, r0). }
    destruct (Z.leb_spec maxDeletePerShard (deleted + 1)) as [Hm|Hm].
    + split; [by apply removeLocked_wf|done| |lia|].
      * intros x. rewrite Hd. destruct (decide (x = k)) as [->|]; [|left; by rewrite lookup_delete_ne].
        right. rewrite lookup_delete_eq. eauto.
      * rewrite filter_cons_True by done. cbn. lia.
    + destruct (IH (deleted + 1) (removeLocked sh k)) as [Hw Hcw Ho Hl Ha]; [by apply removeLocked_wf|done|done|].
      split; [done|congruence| |lia|].
      * intros x. specialize (Ho x). rewrite Hd in Ho. destruct (decide (x = k)) as [->|].
        -- rewrite lookup_delete_eq in Ho. right. split; [|by eauto]. naive_solver.
        -- by rewrite lookup_delete_ne in Ho.
      * rewrite filter_cons_True by done. cbn. intros Hlt x rx [[= -> ->]|Hx]%elem_of_cons Hex.
        -- destruct (Ho k) as [E|[E _]]; [|done]. by rewrite E, Hd, lookup_delete_eq.
        -- apply (Ha ltac:(lia) x rx); done.
  - destruct (IH deleted sh Hwf Hnd) as [Hw Hcw Ho Hl Ha]; [intros; apply Hin; set_solver|].
    split; [done..|]. rewrite filter_cons_False by (unfold expired_entry; cbn; congruence).
    intros Hlt x rx [[= -> ->]|Hx]%elem_of_cons Hex; [congruence|]. by apply (Ha Hlt x rx).
Qed.

(** The iteration orders are orders of the shards' maps. *)
Definition orders_ok st (orders : list (list (string * record))) : Prop :=
  Forall2 (λ sh es, es ≡ₚ map_to_list sh.(data)) st.(shards) orders.

Lemma sweep_shard sh es now :
  shard_wf sh → es ≡ₚ map_to_list sh.(data) → swept es now 0 sh (janitor_shard es now 0 sh).
Proof.
  intros Hwf Hes. apply janitor_shard_spec; [done| |].
  - rewrite Hes. apply NoDup_fst_map_to_list.
  - intros k r. rewrite Hes. by rewrite elem_of_map_to_list.
Qed.

Lemma janitor_tick_spec st orders now :
  store_wf st → orders_ok st orders →
  store_wf (janitor_tick st orders now) ∧
  ∀ k, contents (janitor_tick st orders now) k = contents st k ∨
    (contents (janitor_tick st orders now) k = None ∧ unexpired (contents st k) now = None).
Proof.
  intros Hwf Ho. assert (length (zip_with (λ sh es, janitor_shard es now 0 sh) st.(shards) orders) =
    length st.(shards)) as Hlen by (apply Forall2_length in Ho; rewrite length_zip_with; lia).
  assert (∀ k, home (janitor_tick st orders now) k = home st k) as Hh
    by (intros k; unfold home; cbn; by rewrite Hlen).
  assert (∀ i sh', (janitor_tick st orders now).(shards) !! i = Some sh' →
    ∃ sh es, st.(shards) !! i = Some sh ∧ swept es now 0 sh sh') as Hsw.
  { intros i sh' Hi. cbn in Hi. apply lookup_zip_with_Some in Hi as (sh & es & -> & Hs & He).
    exists sh, es. split; [done|]. apply sweep_shard; [by eapply st_shards|].
    by eapply (Forall2_lookup_lr _ _ _ _ _ _ Ho Hs He). }
  split.
  - split; [cbn; rewrite Hlen; apply Hwf|cbn; rewrite Hlen; apply Hwf| | | |apply Hwf].
    + intros i sh' Hi. destruct (Hsw i sh' Hi) as (sh & es & Hs & [_ -> _ _ _]).
      by apply (st_caps st Hwf i).
    + intros i sh' Hi. destruct (Hsw i sh' Hi) as (sh & es & _ & Hs). apply Hs.
    + intros i sh' k Hi Hk. rewrite Hh. destruct (Hsw i sh' Hi) as (sh & es & Hsh & Hs).
      eapply st_home; [done|done|]. destruct (sweep_only _ _ _ _ _ Hs k) as [<-|[E _]]; [done|].
      rewrite E in Hk. by destruct Hk.
  - intros k. unfold contents. rewrite Hh.
    destruct (shards (janitor_tick st orders now) !! home st k) as [sh'|] eqn:E.
    + destruct (Hsw _ _ E) as (sh & es & -> & Hs).
      destruct (sweep_only _ _ _ _ _ Hs k) as [->|(-> & r & -> & Hx)]; [by left|right].
      split; [done|]. cbn. by rewrite Hx.
    + left. apply lookup_ge_None in E. cbn in E. rewrite Hlen in E.
      by rewrite lookup_ge_None_2.
Qed.

(** ** Executions: interleavings of critical sections *)

(** Batch operations are sequences of these, one per key; the second critical
    section of [Exists] is a step of its own. *)
Inductive op :=
  | OpGet key (now : Z)
  | OpExistsWrite key (now : Z)
  | OpSet key (v : fields) (ttl now : Z)
  | OpDelete key
  | OpIncrement key (offsets : list (string * Z)) (now : Z)
  | OpDecrement key (offsets : list (string * Z)) (now : Z)
  | OpAppend key (appends : list (string * string)) (now : Z)
  | OpGetTTL key (now now2 : Z)
  | OpSetTTL key (ttl now : Z)
  | OpJanitor (orders : list (list (string * record))) (now : Z)
  | OpClose.

Definition drop_reply {A} (m : outcome (Store P * A)) : outcome (Store P) := r ← m; Ret r.1.

Definition exec st (o : op) : outcome (Store P) :=
  match o with
  | OpGet key now => drop_reply (Get st key now)
  | OpExistsWrite key now => drop_reply (Exists_write st key now)
  | OpSet key v ttl now => drop_reply (Set_ st key v ttl now)
  | OpDelete key => drop_reply (Delete st key)
  | OpIncrement key offsets now => drop_reply (Increment st key offsets now)
  | OpDecrement key offsets now => drop_reply (Decrement st key offsets now)
  | OpAppend key appends now => drop_reply (Append st key appends now)
  | OpGetTTL key now now2 => drop_reply (GetTTL st key now now2)
  | OpSetTTL key ttl now => drop_reply (SetTTL st key ttl now)
  | OpJanitor orders now => Ret (janitor st orders now)
  | OpClose => Ret (Close st)
  end.

(** The sizes of what is written do not overflow int64; the janitor's orders are
    orders of the maps it visits. *)
Definition op_ok st (o : op) : Prop :=
  match o with
  | OpSet key v _ _ => 0 <= computeSize key v
  | OpAppend key appends _ => ∀ r, contents st key = Some r → 0 <= (appended key appends r).(size)
  | OpJanitor orders _ => orders_ok st orders
  | _ => True
  end.

Lemma Exists_write_wf st key now :
  store_wf st → ∃ st' b, Exists_write st key now = Ret (st', b) ∧ store_wf st'.
Proof.
  intros Hwf. unfold Exists_write. destruct (home_shard st key Hwf) as (sh & Hsh & Hshwf & _).
  rewrite (locked_eq st key sh _ Hwf Hsh).
  destruct (lookup_live_spec sh key now Hshwf) as (_ & Hw & Hcap & _ & Ho).
  destruct (same_shard_contents st key sh (lookup_live sh key now).1 Hwf Hsh Hw Hcap Ho) as [Hst _].
  unfold lookup_live in Hst. repeat case_match; cbn in *; eauto.
Qed.

(** Operations on the empty key fail without touching the store. *)
Lemma empty_key st now now2 ttl v offsets appends hook :
  Get st "" now = Ret (st, Err ErrInvalidKey) ∧ Exists st "" now hook = Ret (st, Err ErrInvalidKey) ∧
  Set_ st "" v ttl now = Ret (st, Err ErrInvalidKey) ∧ Delete st "" = Ret (st, Err ErrInvalidKey) ∧
  Increment st "" offsets now = Ret (st, Some ErrInvalidKey) ∧
  Append st "" appends now = Ret (st, Some ErrInvalidKey) ∧
  GetTTL st "" now now2 = Ret (st, Err ErrInvalidKey) ∧
  SetTTL st "" ttl now = Ret (st, Some ErrInvalidKey).
Proof. done. Qed.

Lemma exec_wf st o : store_wf st → op_ok st o → ∃ st', exec st o = Ret st' ∧ store_wf st'.
Proof.
  intros Hwf Hok. pose proof (empty_key st 0 0 0 None [] [] id) as _.
  destruct o as [key now|key now|key v ttl now|key|key offs now|key offs now|key apps now|key now now2|key ttl now|ords now|];
    cbn [exec op_ok] in *;
    try (destruct (decide (key = "")) as [->|Hne]; [try (exists st; by split)|]).
  - destruct (Get_spec st key now Hwf Hne) as (st' & -> & ? & _). by exists st'.
  - destruct (Exists_write_wf st "" now Hwf) as (st' & b & -> & ?). by exists st'.
  - destruct (Exists_write_wf st key now Hwf) as (st' & b & -> & ?). by exists st'.
  - destruct (Set_spec st key v ttl now Hwf Hne Hok) as (st' & b & -> & ? & _). by exists st'.
  - destruct (Delete_spec st key Hwf Hne) as (st' & -> & ? & _). by exists st'.
  - destruct (Store_Increment_spec st key offs now Hwf Hne) as (st' & -> & ? & _). by exists st'.
  - destruct (Store_Increment_spec st key ((λ fd, (fd.1, i64 (- fd.2))) <$> offs) now Hwf Hne)
      as (st' & E & ? & _). unfold Decrement. rewrite E. by exists st'.
  - destruct (Append_spec st key apps now Hwf Hne Hok) as (st' & Hst & E).
    destruct (unexpired (contents st key) now); destruct E as [-> _]; by exists st'.
  - destruct (GetTTL_spec st key now now2 Hwf Hne) as (st' & -> & ? & _). by exists st'.
  - destruct (SetTTL_spec st key ttl now Hwf Hne) as (st' & -> & ? & _). by exists st'.
  - eexists. split; [done|]. unfold janitor. destruct (stopped st); [done|]. by apply janitor_tick_spec.
  - eexists. split; [done|]. by destruct Hwf.
Qed.

Lemma locked_opts {A} st key (f : shard → outcome (shard * A)) st' a :
  locked st key f = Ret (st', a) → st'.(opts) = st.(opts).
Proof.
  unfold locked. destruct (shardFor st key); [|done]. cbn. destruct (slice_get _ _); [|done]. cbn.
  destruct (f _); [|done]. cbn. by intros [= <- _].
Qed.

Lemma lfu_record_opts st key st' : lfu_record st key = Ret st' → st'.(opts) = st.(opts).
Proof.
  unfold lfu_record. destruct (lfu st); [|by intros [= <-]]. destruct (adm_record _ _); [|done].
  by intros [= <-].
Qed.

(** Peels the binds of an operation that returned. *)
Ltac peel :=
  repeat match goal with
  | H : (if ?b then _ else _) = Ret _ |- _ => destruct b eqn:?
  | H : mbind _ ?m = Ret _ |- _ =>
      let E := fresh "E" in destruct m as [[? ?]|?] eqn:E; cbn in H; [|done]
  | H : mbind _ ?m = Ret _ |- _ =>
      let E := fresh "E" in destruct m as [?|?] eqn:E; cbn in H; [|done]
  | H : match ?o with _ => _ end = Ret _ |- _ => destruct o eqn:?
  | H : Ret _ = Ret _ |- _ => injection H as <-
  | H : (_, _) = (_, _) |- _ => injection H as ? ?; subst
  | H : locked _ _ _ = Ret _ |- _ => apply locked_opts in H
  | H : lfu_record _ _ = Ret _ |- _ => apply lfu_record_opts in H
  end; try congruence; try done.

Lemma exec_opts st o st' : exec st o = Ret st' → st'.(opts) = st.(opts).
Proof.
  intros He. destruct o; cbn [exec] in He;
    unfold drop_reply, Decrement, Get, Exists_write, Set_, Delete, Increment, Append, GetTTL, SetTTL in He;
    peel.
  unfold janitor. by destruct (stopped st).
Qed.

(** Bytes accounted to the whole store. *)
Definition total_size st : Z := foldr Z.add 0 ((λ sh, cost sh.(data)) <$> st.(shards)).

Lemma total_size_bound st :
  store_wf st → 0 <= total_size st <= st.(opts).(MaxStorageSize).
Proof.
  intros Hwf. assert (∀ (l : list shard) c, (∀ sh, sh ∈ l → cost sh.(data) <= c) →
    0 <= foldr Z.add 0 ((λ sh, cost sh.(data)) <$> l) <= Z.of_nat (length l) * c) as Hsum.
  { intros l c Hl. induction l as [|sh l IH]; [done|]. cbn [fmap list_fmap foldr].
    specialize (IH ltac:(set_solver)). specialize (Hl sh ltac:(set_solver)).
    pose proof (cost_nonneg sh.(data)). cbn [length]. lia. }
  pose proof (st_count st Hwf) as Hn. pose proof (st_size st Hwf) as Hs.
  specialize (Hsum st.(shards) (st.(opts).(MaxStorageSize) / st.(opts).(Shards))).
  destruct Hsum as [H0 H1].
  { intros sh [i Hi]%list_elem_of_lookup. destruct (st_shards st Hwf i sh Hi) as [Hc Hb].
    rewrite <-(st_caps st Hwf i sh Hi), <-(sc_cost _ Hc). done. }
  split; [done|]. etransitivity; [done|]. rewrite Hn. apply Z.mul_div_le. lia.
Qed.
End spec.

(** ** A new store *)

Definition options_ok (o : Options) : Prop :=
  is_u8 o.(Shards) ∧ 0 <= o.(MaxStorageSize) < 2 ^ 63 ∧ is_u64 o.(LFUWidth).

Definition empty_shard perShard : shard := mkShard ∅ (mkLRU 0 [] ∅ ∅ false [] 0%nat) perShard 0.

Lemma make_shards_eq n perShard : make_shards n perShard = Ret (replicate n (empty_shard perShard)).
Proof. induction n as [|n IH]; [done|]. cbn. by rewrite IH. Qed.

Lemma empty_shard_wf perShard : 0 <= perShard < 2 ^ 63 → shard_wf (empty_shard perShard).
Proof.
  intros Hp. split; [split|]; cbn; try done; try lia.
  - by apply (NewLRU_wf 0 false).
  - intros k. rewrite lookup_empty. split; [by intros ?%elem_of_nil|by intros [? ?]].
Qed.

Lemma New_store_wf o st j : options_ok o → New o = Ret (Ok (st, j)) → store_wf (ok:=TinyLFU_ok) st.
Proof.
  intros (Hs & Hm & Hw) HN. unfold New in HN. set (o' := with_defaults o) in *.
  assert (0 < o'.(Shards) < 256) as Hs'
    by (cbn; unfold is_u8 in Hs; destruct (Z.leb_spec (Shards o) 0); unfold ShardCount; lia).
  assert (o'.(LFUWidth) < 2 ^ 64) as Hw' by (cbn; unfold is_u64 in Hw; destruct (Z.eqb_spec (LFUWidth o) 0); lia).
  destruct (NewTinyLFU _ _ _ _) as [[l|e]|w] eqn:El; cbn in HN; try done.
  apply (NewTinyLFU_ok _ _ _ _ _ Hw') in El. case_match; [done|].
  rewrite make_shards_eq in HN. cbn in HN. simplify_eq.
  assert (0 <= o'.(MaxStorageSize) / o'.(Shards) < 2 ^ 63) as Hp.
  { change (o'.(MaxStorageSize)) with o.(MaxStorageSize). split; [apply Z.div_pos; lia|].
    apply Z.le_lt_trans with o.(MaxStorageSize); [|lia]. apply Z.div_le_upper_bound; [lia|].
    destruct Hm as [Hm _]. nia. }
  cbn in Hs', Hp. split; cbn.
  - rewrite length_replicate. lia.
  - rewrite length_replicate. lia.
  - intros i sh [-> _]%lookup_replicate. done.
  - intros i sh [-> _]%lookup_replicate. by apply empty_shard_wf.
  - intros i sh k [-> _]%lookup_replicate. cbn. rewrite lookup_empty. by intros [? ?].
  - by intros ? [= <-].
Qed.

(** ** Reachable stores *)

Inductive reachable (o : Options) : Store (TinyLFU string) → Prop :=
  | reach_new st j : New o = Ret (Ok (st, j)) → reachable o st
  | reach_step st st' x : reachable o st → op_ok st x → exec st x = Ret st' → reachable o st'.

Lemma reachable_opts o st : reachable o st → st.(opts) = with_defaults o.
Proof.
  induction 1 as [st j HN|st st' x _ IH Hok He]; [|by rewrite <-IH; eapply exec_opts].
  unfold New in HN. destruct (NewTinyLFU _ _ _ _) as [[l|e]|w]; cbn in HN; try done.
  case_match; [done|]. rewrite make_shards_eq in HN. cbn in HN. by simplify_eq.
Qed.

Lemma reachable_wf o st : options_ok o → reachable o st → store_wf (ok:=TinyLFU_ok) st.
Proof.
  intros Ho. induction 1 as [st j HN|st st' x _ IH Hok He]; [by eapply New_store_wf|].
  destruct (exec_wf st x IH Hok) as (st1 & E & Hwf). congruence.
Qed.
