(* ===== verification/FlashProps.v ===== *)
(** * Properties of FlashDB

    The theorems a client of the store relies on, proved from the specifications of
    [FlashSpec.v]: the invariant of all reachable stores, write/read round trips,
    the exactness of reads and of the byte accounting, evictions, in-place
    mutations and the janitor. *)

From Stdlib Require Import ZArith Lia.
From S2P Require Import Prelude GoValue Lru Sketch TinyLfu FlashShard FlashStore FlashSpec.
Local Open Scope Z_scope.

(** ** In-place mutations, field by field *)

Lemma Increment_loop_success m offs m' :
  NoDup offs.*1 → Increment_loop m offs = (m', None) →
  ∀ f, m' !! f = match (list_to_map offs : gmap string Z) !! f with
                 | Some d => m !! f ≫= λ c, addInt c d
                 | None => m !! f
                 end.
Proof.
  revert m. induction offs as [|[f0 d0] offs IH]; intros m Hnd HI f; cbn in *; [by simplify_eq|].
  apply NoDup_cons in Hnd as [Hf0 Hnd]. destruct (m !! f0) as [c|] eqn:Ec; [|done].
  destruct (addInt c d0) as [nx|] eqn:Ea; [|done]. rewrite (IH _ Hnd HI f).
  destruct (decide (f = f0)) as [->|Hne].
  - rewrite lookup_insert_eq, (not_elem_of_list_to_map_1 offs f0) by done.
    by rewrite lookup_insert_eq, Ec.
  - by rewrite !lookup_insert_ne by done.
Qed.

Lemma Increment_loop_error m offs m' e :
  Increment_loop m offs = (m', Some e) →
  ∃ pre f d post, offs = pre ++ (f, d) :: post ∧ Increment_loop m pre = (m', None) ∧
    match m' !! f with
    | None => e = ErrIllegalField
    | Some c => addInt c d = None ∧ e = ErrBadType
    end.
Proof.
  revert m. induction offs as [|[f0 d0] offs IH]; intros m HI; cbn in HI; [done|].
  destruct (m !! f0) as [c|] eqn:Ec; [destruct (addInt c d0) as [nx|] eqn:Ea|].
  - destruct (IH _ HI) as (pre & f & d & post & -> & Hp & He).
    exists ((f0, d0) :: pre), f, d, post. split_and!; [done| |done]. cbn. by rewrite Ec, Ea.
  - simplify_eq. exists [], f0, d0, offs. rewrite Ec. done.
  - simplify_eq. exists [], f0, d0, offs. rewrite Ec. done.
Qed.

(** ** The recorded sizes *)

Lemma computeSize_entries key v :
  computeSize key v = i64 (i64 (Z.of_nat (String.length key) + recordOverhead) +
    match entries_size (map_to_list (default ∅ v)) with
    | Some t => Z.max 0 (i64 (48 + t))
    | None => 0
    end).
Proof.
  unfold computeSize, safeDeepSize. rewrite size_of_map.
  destruct (entries_size _) as [t|]; cbn; [|done].
  destruct (Z.ltb_spec (i64 (48 + t)) 0); do 2 f_equal; lia.
Qed.

(** Arithmetic keeps the dynamic type, hence the size, of a field. *)
Lemma addInt_size c d nx : addInt c d = Some nx → GetInMemorySizeInBytes nx = GetInMemorySizeInBytes c.
Proof.
  destruct c; cbn; try done; repeat case_match; intros; simplify_eq; try done.
  by destruct (int64ToInt32 _); simplify_eq/=.
Qed.

Lemma entries_size_update (m : gmap string any) f c nx :
  m !! f = Some c → GetInMemorySizeInBytes nx = GetInMemorySizeInBytes c →
  entries_size (map_to_list (<[f := nx]> m)) = entries_size (map_to_list m).
Proof.
  intros Hf Hsz. rewrite <-(insert_delete_id m f c Hf) at 2. rewrite <-insert_delete_eq.
  rewrite !map_to_list_insert by apply lookup_delete_eq. cbn. by rewrite Hsz.
Qed.

Lemma Increment_loop_size m offs :
  entries_size (map_to_list (Increment_loop m offs).1) = entries_size (map_to_list m).
Proof.
  revert m. induction offs as [|[f d] offs IH]; intros m; [done|]. cbn.
  destruct (m !! f) as [c|] eqn:Ef; [|done]. destruct (addInt c d) as [nx|] eqn:Ea; [|done].
  rewrite IH. apply (entries_size_update m f c nx Ef). by eapply addInt_size.
Qed.

Lemma incremented_size key offs r :
  computeSize key (incremented offs r).(value) = computeSize key r.(value).
Proof.
  rewrite !computeSize_entries. unfold incremented, with_fields. cbn.
  destruct (value r) as [m|]; [|done]. cbn. by rewrite Increment_loop_size.
Qed.

(** ** The properties *)

(** (C1) Safety and budget: from a new store, under every interleaving of the
    critical sections of [Get], [Exists], [Set], [Delete], [Increment],
    [Decrement], [Append], [GetTTL], [SetTTL], [Close] and janitor ticks, no
    operation panics; every record is in its home shard; each shard's LRU lists
    exactly the stored keys and its byte count is exactly the sum of its records'
    sizes, within the shard's budget; and the bytes accounted to the whole store
    never exceed [MaxStorageSize]. *)
Theorem flashdb_invariant o st :
  options_ok o → reachable o st →
  (∀ x, op_ok st x → ∃ st', exec st x = Ret st') ∧
  (∀ i sh k, st.(shards) !! i = Some sh → is_Some (sh.(data) !! k) → home st k = i) ∧
  (∀ i sh, st.(shards) !! i = Some sh →
     NoDup (order sh) ∧ (∀ k, k ∈ order sh ↔ is_Some (sh.(data) !! k)) ∧
     sh.(currentSize) = cost sh.(data) ∧ sh.(currentSize) <= sh.(capacity)) ∧
  total_size st <= o.(MaxStorageSize).
Proof.
  intros Ho Hr. pose proof (reachable_wf o st Ho Hr) as Hwf. split_and!.
  - intros x Hok. destruct (exec_wf st x Hwf Hok) as (st' & ? & _). eauto.
  - apply Hwf.
  - intros i sh Hi. destruct (st_shards st Hwf i sh Hi) as [Hc Hb].
    split_and!; [by apply order_nodup|apply Hc|apply Hc|done].
  - destruct (total_size_bound st Hwf) as [_ Hb]. by rewrite (reachable_opts o st Hr) in Hb.
Qed.

Section properties.
Context {P : Type} {ok : P → Prop} `{HL : AdmissionLaws P string ok}.
Implicit Types (st : Store P) (key k : string).

(** (C2) Write, then read: when [Set] reports success and the record fits its
    shard's budget on its own, a [Get] at any time before the expiry returns the
    value written; when [Set] reports a rejection, the key is absent afterwards. *)
Theorem Set_then_Get st key v ttl now st1 b now' :
  store_wf (ok:=ok) st → key ≠ "" → 0 <= computeSize key v →
  Set_ st key v ttl now = Ret (st1, Ok b) →
  (b = true → computeSize key v <= budget st key →
   expiry_for st now ttl = 0 ∨ now' <= expiry_for st now ttl →
   ∃ st2, Get st1 key now' = Ret (st2, Ok v)) ∧
  (b = false → ∃ st2, Get st1 key now' = Ret (st2, Err ErrNotFound)).
Proof.
  intros Hwf Hne Hsz HS.
  destruct (Set_spec st key v ttl now Hwf Hne Hsz) as (st1' & b' & E & Hwf1 & _ & Hc).
  rewrite HS in E. simplify_eq.
  destruct (Get_spec st1' key now' Hwf1 Hne) as (st2 & HG & _ & _). rewrite HG.
  assert (∀ e, contents st1' key = Some e → e = written st key v ttl now) as He.
  { intros e Hin. destruct (contents st key); [destruct Hc as (_ & Hc & _)|destruct Hc as [Hc _]];
      rewrite Hc in Hin; case_match; by simplify_eq. }
  split; intros Hb.
  - intros Hfit Hexp. exists st2. do 2 f_equal.
    assert (contents st1' key = Some (written st key v ttl now)) as Hin.
    { destruct (contents st key); [destruct Hc as (_ & -> & _)|destruct Hc as [-> _]; by subst].
      by destruct (Z.ltb_spec (budget st key) (computeSize key v)); [lia|]. }
    rewrite Hin. cbn. unfold isExpired. cbn. destruct (expiry_for st now ttl =? 0) eqn:E0; [done|].
    destruct (Z.ltb_spec (expiry_for st now ttl) now'); [lia|done].
  - subst b'. exists st2. destruct (contents st key); [naive_solver|]. by destruct Hc as [-> _].
Qed.

(** An update that makes a record larger than its shard's whole budget
    still reports success, and leaves the shard empty: the record itself and
    every other key of the shard are gone. An insert of such a record is refused
    and changes nothing. *)
Theorem Set_oversized st key v ttl now :
  store_wf (ok:=ok) st → key ≠ "" → 0 <= computeSize key v → budget st key < computeSize key v →
  ∃ st' b, Set_ st key v ttl now = Ret (st', Ok b) ∧
    (is_Some (contents st key) →
       b = true ∧ ∀ k, home st k = home st key → contents st' k = None) ∧
    (contents st key = None → b = false ∧ ∀ k, contents st' k = contents st k).
Proof.
  intros Hwf Hne Hsz Hbig.
  destruct (Set_spec st key v ttl now Hwf Hne Hsz) as (st' & b & E & _ & _ & Hc).
  exists st', b. split; [done|]. destruct (contents st key) as [r|].
  - destruct Hc as (-> & _ & Hall). split; [|done]. auto.
  - destruct Hc as (_ & Hb). split; [by intros [? ?]|]. auto.
Qed.

(** (C6) Reads are exact and precise about expiry: [Get] returns the stored
    value exactly when the key is present and not expired, and its only effect on
    the contents is to drop the key when it has expired; [Delete] reports whether
    a record was there and removes only it; [Exists], run without interference,
    answers as [Get] would. *)
Theorem reads_refine_map st key now :
  store_wf (ok:=ok) st → key ≠ "" →
  (∃ st', Get st key now = Ret (st', match unexpired (contents st key) now with
                                     | Some r => Ok r.(value) | None => Err ErrNotFound end) ∧
     ∀ k, contents st' k = if decide (k = key) then unexpired (contents st key) now else contents st k) ∧
  (∃ st', Delete st key = Ret (st', Ok (bool_decide (is_Some (contents st key)))) ∧
     ∀ k, contents st' k = if decide (k = key) then None else contents st k) ∧
  (∃ st', Exists st key now id = Ret (st', Ok (bool_decide (is_Some (unexpired (contents st key) now)))) ∧
     ∀ k, contents st' k = if decide (k = key) then unexpired (contents st key) now else contents st k).
Proof.
  intros Hwf Hne. split_and!.
  - destruct (Get_spec st key now Hwf Hne) as (st' & ? & _ & ?). eauto.
  - destruct (Delete_spec st key Hwf Hne) as (st' & ? & _ & ?). eauto.
  - pose proof (Store_Exists_spec st key now id Hwf Hne) as HE. unfold unexpired in *. cbn [id] in HE.
    destruct (contents st key) as [r|] eqn:Ec.
    + destruct (isExpired r now) eqn:Ex.
      * destruct (HE Hwf) as (st' & E & _ & Hc). exists st'. split; [by rewrite E|done].
      * exists st. split; [done|]. intros k. case_decide; [by subst|done].
    + exists st. split; [done|]. intros k. case_decide; [by subst|done].
Qed.

(** The window of [Exists]: when another goroutine removes the expired
    record between the two critical sections, [Exists] answers that the key
    exists, although nothing is stored under it. *)
Theorem Exists_race st key now r st1 b :
  store_wf (ok:=ok) st → key ≠ "" →
  contents st key = Some r → isExpired r now = true →
  Delete st key = Ret (st1, b) →
  ∃ st', Exists st key now (λ _, st1) = Ret (st', Ok true) ∧ contents st' key = None.
Proof.
  intros Hwf Hne Hr Hx HD. destruct (Delete_spec st key Hwf Hne) as (st1' & E & Hwf1 & Hc).
  rewrite HD in E. simplify_eq. pose proof (Store_Exists_spec st key now (λ _, st1') Hwf Hne) as HE.
  rewrite Hr, Hx in HE. destruct (HE Hwf1) as (st' & E & _ & Hc').
  specialize (Hc key). rewrite decide_True in Hc by done.
  exists st'. rewrite E, Hc', decide_True, Hc by done. done.
Qed.

(** Every stored size is the size of the stored value. *)
Definition sizes_exact st : Prop :=
  ∀ k r, contents st k = Some r → r.(size) = computeSize k r.(value).

(** The operation is an [Append] that meets a missing or non-string field. *)
Definition append_fails st (x : op) : Prop :=
  match x with
  | OpAppend key appends now =>
      ∃ r e, unexpired (contents st key) now = Some r ∧
        (Append_loop (default ∅ r.(value)) appends).2 = Some e
  | _ => False
  end.

Lemma unexpired_Some o now r : unexpired o now = Some r → o = Some r.
Proof. unfold unexpired. by repeat case_match. Qed.

Lemma Exists_write_contents st key now st' k r :
  store_wf (ok:=ok) st → drop_reply (Exists_write st key now) = Ret st' →
  contents st' k = Some r → contents st k = Some r.
Proof.
  intros Hwf He Hk. destruct (home_shard st key Hwf) as (sh & Hsh & Hshwf & Hcont).
  destruct (lookup_live_spec sh key now Hshwf) as (_ & Hw & Hcap & Hkey & Ho).
  destruct (same_shard_contents st key sh (lookup_live sh key now).1 Hwf Hsh Hw Hcap Ho) as [_ Hc].
  unfold Exists_write in He. rewrite (locked_eq st key sh _ Hwf Hsh) in He.
  assert (st' = put_shard st (Z.of_nat (home st key)) (lookup_live sh key now).1) as ->
    by (unfold lookup_live; repeat case_match; by simplify_eq/=).
  rewrite Hc in Hk. case_decide; [|done]. subst k. rewrite Hkey in Hk.
  apply unexpired_Some in Hk. congruence.
Qed.

Lemma Increment_contents_size st st' key offs now k r' :
  (∀ k, contents st' k = if decide (k = key) then incremented offs <$> unexpired (contents st key) now
                         else contents st k) →
  contents st' k = Some r' →
  r'.(size) = computeSize k r'.(value) ∨
  ∃ r, contents st k = Some r ∧ r'.(size) = r.(size) ∧ computeSize k r'.(value) = computeSize k r.(value).
Proof.
  intros Hc Hk. rewrite Hc in Hk. right. case_decide; [subst k|by exists r'].
  apply fmap_Some in Hk as (r & Hr%unexpired_Some & ->). exists r.
  split_and!; [done|done|by apply incremented_size].
Qed.

Lemma Append_contents_size st st' key apps now k r' :
  store_wf (ok:=ok) st → key ≠ "" →
  (∀ r, contents st key = Some r → 0 <= (appended key apps r).(size)) →
  drop_reply (Append st key apps now) = Ret st' →
  ¬ (∃ r e, unexpired (contents st key) now = Some r ∧
       (Append_loop (default ∅ r.(value)) apps).2 = Some e) →
  contents st' k = Some r' →
  r'.(size) = computeSize k r'.(value) ∨
  ∃ r, contents st k = Some r ∧ r'.(size) = r.(size) ∧ computeSize k r'.(value) = computeSize k r.(value).
Proof.
  intros Hwf Hne Hok He Hnf Hk. destruct (Append_spec st key apps now Hwf Hne Hok) as (s & _ & HA).
  destruct (unexpired (contents st key) now) as [r|] eqn:Eu; destruct HA as [E HA];
    rewrite E in He; injection He as <-.
  - destruct ((Append_loop (default ∅ (value r)) apps).2) eqn:El; [exfalso; eauto|].
    destruct HA as [Hev Hkey]. destruct (decide (k = key)) as [->|Hkk].
    + left. rewrite Hkey in Hk. case_match; by simplify_eq.
    + right. exists r'. destruct (eo_others _ _ _ Hev k Hkk) as [E'|[E' _]]; rewrite E' in Hk; done.
  - rewrite HA in Hk. case_decide; [done|]. right. by exists r'.
Qed.

(** What an operation leaves under a key was there before, up to in-place
    changes that keep the size exact, or is a new record of exact size. *)
Lemma exec_sizes st x st' :
  store_wf (ok:=ok) st → op_ok st x → exec st x = Ret st' → ¬ append_fails st x →
  ∀ k r', contents st' k = Some r' →
    r'.(size) = computeSize k r'.(value) ∨
    ∃ r, contents st k = Some r ∧ r'.(size) = r.(size) ∧ computeSize k r'.(value) = computeSize k r.(value).
Proof.
  intros Hwf Hok He Hnf k r' Hk.
  assert (contents st k = Some r' → r'.(size) = computeSize k r'.(value) ∨
    ∃ r, contents st k = Some r ∧ r'.(size) = r.(size) ∧ computeSize k r'.(value) = computeSize k r.(value))
    as Hsame by (intros; right; by exists r').
  destruct x as [key now|key now|key v ttl now|key|key offs now|key offs now|key apps now|key now now2|key ttl now|ords now|];
    cbn [exec op_ok] in *.
  all: try (destruct (decide (key = "")) as [->|Hne];
    [try (injection He as <-; by apply Hsame)|]).
  - destruct (Get_spec st key now Hwf Hne) as (s & E & _ & Hc). rewrite E in He. injection He as <-.
    rewrite Hc in Hk. case_decide; [subst k; by apply unexpired_Some in Hk; auto|auto].
  - apply Hsame. by eapply Exists_write_contents.
  - apply Hsame. by eapply Exists_write_contents.
  - destruct (Set_spec st key v ttl now Hwf Hne Hok) as (s & b & E & _ & Hev & Hc).
    rewrite E in He. injection He as <-. destruct (decide (k = key)) as [->|Hkk].
    + left. destruct (contents st key); [destruct Hc as (_ & Hc & _)|destruct Hc as [Hc _]];
        rewrite Hc in Hk; case_match; by simplify_eq.
    + destruct (eo_others _ _ _ Hev k Hkk) as [E'|[E' _]]; rewrite E' in Hk; [auto|done].
  - destruct (Delete_spec st key Hwf Hne) as (s & E & _ & Hc). rewrite E in He. injection He as <-.
    rewrite Hc in Hk. case_decide; [done|auto].
  - destruct (Store_Increment_spec st key offs now Hwf Hne) as (s & E & _ & Hc). rewrite E in He. injection He as <-.
    eapply Increment_contents_size; eauto.
  - destruct (Store_Increment_spec st key ((λ fd, (fd.1, i64 (- fd.2))) <$> offs) now Hwf Hne) as (s & E & _ & Hc).
    unfold Decrement in He. rewrite E in He. injection He as <-. eapply Increment_contents_size; eauto.
  - eapply Append_contents_size; eauto.
  - destruct (GetTTL_spec st key now now2 Hwf Hne) as (s & E & _ & Hc). rewrite E in He. injection He as <-.
    rewrite Hc in Hk. case_decide; [|auto]. subst k. case_match eqn:Eu; [|done]. case_match; [done|].
    simplify_eq. apply unexpired_Some in Eu. auto.
  - destruct (SetTTL_spec st key ttl now Hwf Hne) as (s & E & _ & Hc). rewrite E in He. injection He as <-.
    rewrite Hc in Hk. case_decide; [|auto]. subst k.
    apply fmap_Some in Hk as (r & Hr%unexpired_Some & ->). right. by exists r.
  - injection He as <-. unfold janitor in Hk. destruct (stopped st); [auto|].
    destruct (proj2 (janitor_tick_spec st ords now Hwf Hok) k) as [E|[E _]]; rewrite E in Hk; [auto|done].
  - injection He as <-. auto.
Qed.

(** (C20) Exact accounting: if every stored size is the estimate of the stored
    value, it is still so after any operation but an [Append] that stops at a
    missing or non-string field; [Increment], complete or not, keeps it because
    arithmetic keeps the dynamic types. *)
Theorem sizes_stay_exact st x st' :
  store_wf (ok:=ok) st → op_ok st x → exec st x = Ret st' → ¬ append_fails st x →
  sizes_exact st → sizes_exact st'.
Proof.
  intros Hwf Hok He Hnf Hex k r' Hk.
  destruct (exec_sizes st x st' Hwf Hok He Hnf k r' Hk) as [|(r & Hr & -> & ->)]; [done|].
  by apply Hex.
Qed.

(** An [Append] that stops at a bad field keeps the suffixes already
    appended but not their bytes: it returns the error, the stored value is the
    partly extended one and the recorded size is still the old one. *)
Theorem Append_error_keeps_size st key appends now r m' e :
  store_wf (ok:=ok) st → key ≠ "" →
  (∀ r, contents st key = Some r → 0 <= (appended key appends r).(size)) →
  unexpired (contents st key) now = Some r →
  Append_loop (default ∅ r.(value)) appends = (m', Some e) →
  ∃ st', Append st key appends now = Ret (st', Some e) ∧
    contents st' key = Some (with_fields r m') ∧ (with_fields r m').(size) = r.(size).
Proof.
  intros Hwf Hne Hok Hu Hl. destruct (Append_spec st key appends now Hwf Hne Hok) as (st' & _ & HA).
  rewrite Hu, Hl in HA. cbn in HA. destruct HA as [E Hc]. exists st'. split_and!; [done| |done].
  by rewrite Hc, decide_True.
Qed.

(** Counters: a complete [Increment] adds each offset to its field and
    leaves the others; one that stops reports the field's fault, and the offsets
    before it in the iteration order stay applied. No other key changes, and an
    absent or expired key is reported and left absent. *)
Theorem Increment_behaviour st key offsets now :
  store_wf (ok:=ok) st → key ≠ "" → NoDup offsets.*1 →
  ∃ st' e, Increment st key offsets now = Ret (st', e) ∧
    (∀ k, k ≠ key → contents st' k = contents st k) ∧
    match unexpired (contents st key) now with
    | None => e = Some ErrNotFound ∧ contents st' key = None
    | Some r =>
        ∃ m', contents st' key = Some (with_fields r m') ∧
        match e with
        | None => ∀ f, m' !! f =
            match (list_to_map offsets : gmap string Z) !! f with
            | Some d => default ∅ r.(value) !! f ≫= λ c, addInt c d
            | None => default ∅ r.(value) !! f
            end
        | Some e => ∃ pre f d post, offsets = pre ++ (f, d) :: post ∧
            Increment_loop (default ∅ r.(value)) pre = (m', None) ∧
            match m' !! f with
            | None => e = ErrIllegalField
            | Some c => addInt c d = None ∧ e = ErrBadType
            end
        end
    end.
Proof.
  intros Hwf Hne Hnd. destruct (Store_Increment_spec st key offsets now Hwf Hne) as (st' & E & _ & Hc).
  eexists st', _. split_and!; [done|intros k Hk; by rewrite Hc, decide_False|].
  specialize (Hc key). rewrite decide_True in Hc by done. rewrite Hc.
  destruct (unexpired (contents st key) now) as [r|]; [|done]. cbn.
  destruct (Increment_loop (default ∅ (value r)) offsets) as [m' e] eqn:El.
  exists m'. unfold incremented. rewrite El. split; [done|]. cbn. destruct e as [e|].
  - by eapply Increment_loop_error.
  - by apply Increment_loop_success.
Qed.

(** Admission: an insert reports success exactly when the record is stored;
    every key it evicts is one the filter lets the newcomer replace, and when a
    record that could fit is refused, some resident key of the shard outranks it.
    The shard stays within its budget. *)
Theorem Set_insert_admission (l : option P) sh key v n exp :
  shard_wf sh → sh.(data) !! key = None → 0 <= n < 2 ^ 63 → (∀ p, l = Some p → ok p) →
  ∃ sh' b, Set_insert l sh key v n exp = Ret (sh', b) ∧ shard_wf sh' ∧
    sh'.(data) !! key = (if b then Some (mkRecord v n exp) else None) ∧
    (∀ k, k ≠ key → is_Some (sh.(data) !! k) → sh'.(data) !! k = None → lfu_admits l key k = Ret true) ∧
    (b = false → n <= sh.(capacity) → ∃ vk, is_Some (sh'.(data) !! vk) ∧ lfu_admits l key vk = Ret false).
Proof.
  intros Hwf Hk Hn Hl.
  destruct (Set_insert_spec l sh key v n exp Hwf Hk Hn Hl) as (sh' & b & E & Hw & _ & Hd & _ & Hrej & Hev).
  exists sh', b. split_and!; done.
Qed.

(** The janitor: a tick removes only expired records, and removes every
    expired record of a shard that holds fewer than 1024 of them. *)
Theorem janitor_sweeps st orders now :
  store_wf (ok:=ok) st → orders_ok st orders →
  let st' := janitor_tick st orders now in
  store_wf (ok:=ok) st' ∧
  (∀ k, contents st' k = contents st k ∨
     (contents st' k = None ∧ unexpired (contents st k) now = None)) ∧
  ∀ i sh es sh', st.(shards) !! i = Some sh → orders !! i = Some es → st'.(shards) !! i = Some sh' →
    Z.of_nat (length (filter (expired_entry now) es)) < maxDeletePerShard →
    ∀ k r, sh.(data) !! k = Some r → isExpired r now = true → sh'.(data) !! k = None.
Proof.
  intros Hwf Ho st'. destruct (janitor_tick_spec st orders now Hwf Ho) as [Hwf' Hc].
  split_and!; [done|done|]. intros i sh es sh' Hi Hes Hi' Hlt k r Hk Hx.
  pose proof (Forall2_lookup_lr _ _ _ _ _ _ Ho Hi Hes) as Hp.
  destruct (sweep_shard sh es now) as [_ _ _ _ Hall]; [by apply (st_shards st Hwf i)|done|].
  cbn in Hi'. rewrite lookup_zip_with, Hi, Hes in Hi'. cbn in Hi'. injection Hi' as <-.
  apply (Hall ltac:(lia) k r); [|done]. rewrite Hp. by apply elem_of_map_to_list.
Qed.
End properties.

(** ** Concrete runs: the hypotheses of the theorems above hold on them *)

Definition demo_opts : Options := mkOptions 1 200 0 0 2 16 0.

Definition state_of {A} (m : outcome (Store (TinyLFU string) * A)) : Store (TinyLFU string) :=
  match m with
  | Ret (st, _) => st
  | _ => mkStore [] demo_opts None false
  end.

(** One shard of 200 bytes, admission disabled; then with one record that expires
    at time 15. *)
Definition demo : Store (TinyLFU string) := mkStore [empty_shard 200] (with_defaults demo_opts) None false.
Definition small : fields := Some {[ "x" := AnyInt 1 ]}.
Definition large : fields := Some {[ "x" := AnyString "a string of more than forty characters ..." ]}.
Definition demo1 : Store (TinyLFU string) := state_of (Set_ demo "a" small 10 5).

Lemma demo_options : options_ok demo_opts.
Proof. unfold options_ok, is_u8, is_u64. cbn. lia. Qed.

Lemma demo_wf : store_wf (ok:=TinyLFU_ok) demo.
Proof.
  split; cbn; try done.
  - intros i sh Hi. destruct i; [|done]. by injection Hi as <-.
  - intros i sh Hi. destruct i; [|done]. injection Hi as <-. by apply empty_shard_wf.
  - intros i sh k Hi. destruct i; [|done]. injection Hi as <-. cbn. rewrite lookup_empty. by intros [? ?].
Qed.

Lemma demo1_set : Set_ demo "a" small 10 5 = Ret (demo1, Ok true).
Proof. vm_compute. reflexivity. Qed.

Lemma demo1_wf : store_wf (ok:=TinyLFU_ok) demo1.
Proof.
  destruct (Set_spec demo "a" small 10 5 demo_wf) as (st & b & E & Hwf & _); [done|by vm_compute|].
  rewrite demo1_set in E. apply (f_equal state_of) in E. cbn [state_of] in E. by rewrite E.
Qed.

Lemma flashdb_invariant_witness :
  ∃ st st', New demo_opts = Ret (Ok (st, true)) ∧ exec st (OpSet "a" small 10 5) = Ret st' ∧
    total_size st' <= 200.
Proof.
  eexists. assert (New demo_opts = Ret (Ok (_, true))) as HN by reflexivity.
  pose proof (New_store_wf _ _ _ demo_options HN) as Hwf.
  destruct (exec_wf _ (OpSet "a" small 10 5) Hwf) as (st' & E & _); [by vm_compute|].
  exists st'. split_and!; [exact HN|exact E|].
  apply (flashdb_invariant demo_opts st' demo_options).
  eapply (reach_step demo_opts _ st' (OpSet "a" small 10 5)); [|by vm_compute|exact E].
  eapply reach_new, HN.
Defined.

Lemma Set_then_Get_witness :
  ∃ st, Get demo1 "a" 15 = Ret (st, Ok small).
Proof.
  apply (proj1 (Set_then_Get (ok:=TinyLFU_ok) demo "a" small 10 5 demo1 true 15 demo_wf
    ltac:(done) ltac:(by vm_compute) demo1_set) eq_refl); [by vm_compute|right; by vm_compute].
Defined.

Lemma Set_oversized_witness :
  ∃ st, Set_ demo1 "a" large 0 7 = Ret (st, Ok true) ∧ contents st "a" = None.
Proof.
  destruct (Set_oversized (ok:=TinyLFU_ok) demo1 "a" large 0 7 demo1_wf) as (st & b & E & H1 & _);
    [done|by vm_compute|by vm_compute|].
  destruct H1 as [-> Hall]; [vm_compute; eauto|]. exists st. split; [exact E|by apply Hall].
Defined.

Lemma reads_refine_map_witness :
  ∃ st, Get demo1 "a" 16 = Ret (st, Err ErrNotFound) ∧ contents st "a" = None.
Proof.
  destruct (reads_refine_map (ok:=TinyLFU_ok) demo1 "a" 16 demo1_wf) as ((st & E & Hc) & _); [done|].
  exists st. specialize (Hc "a"). rewrite decide_True in Hc by done. rewrite Hc, E. split; by vm_compute.
Defined.

Lemma Exists_race_witness :
  ∃ st, Exists demo1 "a" 16 (λ _, state_of (Delete demo1 "a")) = Ret (st, Ok true) ∧
    contents st "a" = None.
Proof.
  apply (Exists_race (ok:=TinyLFU_ok) demo1 "a" 16 (mkRecord small 170 15)
    (state_of (Delete demo1 "a")) (Ok true) demo1_wf); [done|by vm_compute..].
Defined.

Lemma demo_sizes_exact : sizes_exact demo.
Proof.
  intros k r Hk. unfold contents in Hk. destruct (shards demo !! home demo k) as [sh|] eqn:E; [|done].
  apply list_elem_of_lookup_2, list_elem_of_singleton in E as ->.
  cbn in Hk. by rewrite lookup_empty in Hk.
Qed.

Lemma sizes_stay_exact_witness : sizes_exact demo ∧ sizes_exact demo1.
Proof.
  split; [exact demo_sizes_exact|].
  apply (sizes_stay_exact (ok:=TinyLFU_ok) demo (OpSet "a" small 10 5) demo1 demo_wf);
    [by vm_compute|unfold exec, drop_reply; by rewrite demo1_set|by intros []|exact demo_sizes_exact].
Defined.

(** A record with a string field. *)
Definition demo2 : Store (TinyLFU string) :=
  state_of (Set_ demo "a" (Some {[ "x" := AnyString "1" ]}) 0 5).

Lemma demo2_set : Set_ demo "a" (Some {[ "x" := AnyString "1" ]}) 0 5 = Ret (demo2, Ok true).
Proof. vm_compute. reflexivity. Qed.

Lemma demo2_wf : store_wf (ok:=TinyLFU_ok) demo2.
Proof.
  destruct (Set_spec demo "a" (Some {[ "x" := AnyString "1" ]}) 0 5 demo_wf) as (st & b & E & Hwf & _);
    [done|by vm_compute|]. rewrite demo2_set in E. apply (f_equal state_of) in E. cbn [state_of] in E. by rewrite E.
Qed.

(** The value grew by three bytes; the recorded size did not. *)
Lemma Append_error_keeps_size_witness :
  ∃ st r, Append demo2 "a" [("x", "234"); ("y", "")] 6 = Ret (st, Some ErrIllegalField) ∧
    contents st "a" = Some r ∧ r.(size) = 179 ∧ computeSize "a" r.(value) = 182.
Proof.
  destruct (Append_error_keeps_size (ok:=TinyLFU_ok) demo2 "a" [("x", "234"); ("y", "")] 6
    (mkRecord (Some {[ "x" := AnyString "1" ]}) 179 0) {[ "x" := AnyString "1234" ]} ErrIllegalField demo2_wf)
    as (st & E & Hc & _); [done| |by vm_compute..|].
  { intros r Hr. vm_compute in Hr. injection Hr as <-. by vm_compute. }
  eexists st, _. split_and!; [exact E|exact Hc|by vm_compute..].
Defined.

Lemma Increment_behaviour_witness :
  ∃ st e, Increment demo1 "a" [("x", 41); ("y", 1)] 6 = Ret (st, e) ∧ e = Some ErrIllegalField ∧
    contents st "a" = Some (mkRecord (Some {[ "x" := AnyInt 42 ]}) 170 15).
Proof.
  destruct (Increment_behaviour (ok:=TinyLFU_ok) demo1 "a" [("x", 41); ("y", 1)] 6 demo1_wf)
    as (st & e & E & _ & _); [done|by apply (bool_decide_unpack _)|].
  exists st, e. split; [exact E|]. vm_compute in E. injection E as <- <-. split; by vm_compute.
Defined.

Lemma Set_insert_admission_witness :
  ∃ sh', Set_insert (None : option (TinyLFU string)) (empty_shard 200) "a" small 170 0 = Ret (sh', true) ∧
    shard_wf sh'.
Proof.
  destruct (Set_insert_admission (ok:=TinyLFU_ok) None (empty_shard 200) "a" small 170 0)
    as (sh' & b & E & Hwf & _); [apply empty_shard_wf; lia|done|lia|done|].
  exists sh'. split; [|exact Hwf]. rewrite E. vm_compute in E. by injection E as _ <-.
Defined.

Lemma janitor_sweeps_witness :
  contents (janitor_tick demo1 [[("a", mkRecord small 170 15)]] 16) "a" = None.
Proof.
  assert (orders_ok demo1 [[("a", mkRecord small 170 15)]]) as Ho
    by (constructor; [by vm_compute|constructor]).
  destruct (janitor_sweeps (ok:=TinyLFU_ok) demo1 _ 16 demo1_wf Ho) as (_ & Hc & _).
  destruct (Hc "a") as [E|[E _]]; [|exact E]. vm_compute in E. done.
Defined.
