(* ===== verification/Workers.v ===== *)
(** * The worker overseer ([src/workers/])

    The overseer launches workers, learns of their failures through a bounded
    channel and a heartbeat watchdog, and restarts them under a per-name restart
    budget with exponential backoff. Its package variables are the fields of
    [Overseer]; every function that reads the clock takes the reading, and one that
    runs user code (a worker's [Run], a factory) takes what that code answered.
    Goroutines and timers are the [timers] and the events of [step]. *)

From Stdlib Require Import ZArith Lia Sorted.
From S2P Require Import Prelude.
Local Open Scope Z_scope.

Abbreviation error := (option string).

Definition Millisecond : Z := 10 ^ 6.
Definition Second : Z := 10 ^ 9.

(** ** Configuration ([workerconfig.go]) *)

(** [hasNew]: a factory is set. *)
Record WorkerConfig := mkWorkerConfig {
  cfgName : string;
  hasNew : bool;
  MaxCount : Z;
  IsEnabled : bool
}.

(** A worker as the overseer sees it through [WorkerInterface]. *)
Record Worker := mkWorker { workerName : string; workerId : string; executionErr : error }.

Definition Validate (cfg : option WorkerConfig) : error :=
  match cfg with
  | None => Some "worker config is nil"
  | Some cfg =>
      if bool_decide (cfg.(cfgName) = "") then Some "worker name is required"
      else if cfg.(MaxCount) <=? 0 then Some "worker has invalid MaxCount"
      else if negb cfg.(hasNew) then Some "worker has no New factory"
      else None
  end.

(** What calling a factory gives. *)
Inductive factory_answer :=
  | FactoryError (e : string)
  | FactoryNil
  | FactoryWorker (w : Worker).

Definition NewWorker (cfg : option WorkerConfig) (answer : factory_answer) : outcome (result string Worker) :=
  match cfg with
  | None => Ret (Err "worker config is nil")
  | Some cfg =>
      if negb cfg.(hasNew) then Panic nil_dereference
      else match answer with
           | FactoryError e => Ret (Err ("factory error: " +:+ e))
           | FactoryNil => Ret (Err "factory returned nil worker")
           | FactoryWorker w => Ret (Ok w)
           end
  end.

(** ** Options, events and statuses ([options.go], [status.go]) *)

Record RestartPolicy := mkRestartPolicy { Limit : Z; Window : Z; MinBackoff : Z; MaxBackoff : Z }.
Record WatchdogOptions := mkWatchdogOptions { Interval : Z; HeartbeatTimeout : Z }.

Inductive hook_kind := OnStart | OnStop | OnError | OnRestart.

(** Which hooks are set. *)
Abbreviation WorkerHooks := (hook_kind → bool).

Record WorkerEvent := mkEvent {
  evName : string; evID : string; evErr : error; evRestartCount : Z; evAt : Z
}.

Record OverseerOptions := mkOverseerOptions {
  oRestartPolicy : RestartPolicy;
  oHooks : WorkerHooks;
  oWatchdog : WatchdogOptions
}.

Record WorkerStatus := mkStatus {
  sName : string;
  sID : string;
  Running : bool;
  RestartCount : Z;
  LastError : string;
  LastStartedAt : Z;
  LastStoppedAt : Z
}.

Definition zero_status : WorkerStatus := mkStatus "" "" false 0 "" 0 0.

(** [runningWorkerState]; the run context is its last heartbeat. *)
Record runningWorkerState := mkRunning {
  rcfg : WorkerConfig;
  rworker : option Worker;
  rruntime : option Z;
  rcancel : bool
}.

(** ** The package variables ([overseer.go]) *)

Record Overseer := mkOverseer {
  workerList : list (option WorkerConfig);
  workerChan : option (list Worker * Z);       (* queued failures, capacity *)
  restartTimestamps : list Z;
  workerRestartHistory : gmap string (list Z);
  workerRestartLimit : Z;
  workerRestartWindow : Z;
  workerRestartBackoff : Z;
  workerRestartBackoffM : Z;
  workerConfigByID : gmap string WorkerConfig;
  workerByID : gmap string runningWorkerState;
  overseerSleepTimeout : Z;
  workerWatchdogEvery : Z;
  workerHeartbeatLimit : Z;
  workerFailureSignalSeen : gmap string Z;
  workerStatuses : option (gmap string WorkerStatus);
  hooks : WorkerHooks;
  hookLog : list (hook_kind * WorkerEvent);    (* hook calls so far *)
  cancelled : list string;                     (* run contexts cancelled so far *)
  timers : list (WorkerConfig * Z)             (* pending restarts *)
}.

Definition restartLimit : Z := 5.
Definition restartWindow : Z := 60 * Second.
Definition minOverseerSleep : Z := 100 * Millisecond.
Definition workerFailureSignalTTL : Z := 120 * Second.

(** Field updates. *)
Definition with_chan (s : Overseer) x : Overseer :=
  let '(mkOverseer a _ c d e f g h i j k l m n o p q r t) := s in mkOverseer a x c d e f g h i j k l m n o p q r t.
Definition with_timestamps (s : Overseer) x : Overseer :=
  let '(mkOverseer a b _ d e f g h i j k l m n o p q r t) := s in mkOverseer a b x d e f g h i j k l m n o p q r t.
Definition with_history (s : Overseer) x : Overseer :=
  let '(mkOverseer a b c _ e f g h i j k l m n o p q r t) := s in mkOverseer a b c x e f g h i j k l m n o p q r t.
Definition with_policy (s : Overseer) e f g h : Overseer :=
  let '(mkOverseer a b c d _ _ _ _ i j k l m n o p q r t) := s in mkOverseer a b c d e f g h i j k l m n o p q r t.
Definition with_registry (s : Overseer) i j : Overseer :=
  let '(mkOverseer a b c d e f g h _ _ k l m n o p q r t) := s in mkOverseer a b c d e f g h i j k l m n o p q r t.
Definition with_sleep (s : Overseer) x : Overseer :=
  let '(mkOverseer a b c d e f g h i j _ l m n o p q r t) := s in mkOverseer a b c d e f g h i j x l m n o p q r t.
Definition with_watchdog (s : Overseer) x : Overseer :=
  let '(mkOverseer a b c d e f g h i j k _ m n o p q r t) := s in mkOverseer a b c d e f g h i j k x m n o p q r t.
Definition with_heartbeat (s : Overseer) x : Overseer :=
  let '(mkOverseer a b c d e f g h i j k l _ n o p q r t) := s in mkOverseer a b c d e f g h i j k l x n o p q r t.
Definition with_seen (s : Overseer) x : Overseer :=
  let '(mkOverseer a b c d e f g h i j k l m _ o p q r t) := s in mkOverseer a b c d e f g h i j k l m x o p q r t.
Definition with_statuses (s : Overseer) x : Overseer :=
  let '(mkOverseer a b c d e f g h i j k l m n _ p q r t) := s in mkOverseer a b c d e f g h i j k l m n x p q r t.
Definition with_hooks (s : Overseer) x : Overseer :=
  let '(mkOverseer a b c d e f g h i j k l m n o _ q r t) := s in mkOverseer a b c d e f g h i j k l m n o x q r t.
Definition with_log (s : Overseer) x : Overseer :=
  let '(mkOverseer a b c d e f g h i j k l m n o p _ r t) := s in mkOverseer a b c d e f g h i j k l m n o p x r t.
Definition with_cancelled (s : Overseer) x : Overseer :=
  let '(mkOverseer a b c d e f g h i j k l m n o p q _ t) := s in mkOverseer a b c d e f g h i j k l m n o p q x t.
Definition with_timers (s : Overseer) x : Overseer :=
  let '(mkOverseer a b c d e f g h i j k l m n o p q r _) := s in mkOverseer a b c d e f g h i j k l m n o p q r x.

(** *** Setters *)

Definition SetOverseerSleepTimeout (s : Overseer) (timeout : Z) : Overseer :=
  let timeout := if timeout <=? 0 then 1 * Second else timeout in
  let timeout := if timeout <? minOverseerSleep then minOverseerSleep else timeout in
  with_sleep s timeout.

Definition SetWorkerWatchdogInterval (s : Overseer) (interval : Z) : Overseer :=
  let interval := if interval <=? 0 then 5 * Second else interval in
  let interval := if interval <? minOverseerSleep then minOverseerSleep else interval in
  with_watchdog s interval.

Definition SetWorkerHeartbeatTimeout (s : Overseer) (timeout : Z) : Overseer :=
  with_heartbeat s (if timeout <? 0 then 0 else timeout).

Definition no_hooks : WorkerHooks := λ _, false.

Definition applyOverseerOptions (s : Overseer) (options : option OverseerOptions) : Overseer :=
  match options with
  | None => with_hooks s no_hooks
  | Some o =>
      let p := o.(oRestartPolicy) in
      let s := with_policy s
        (if 0 <? p.(Limit) then p.(Limit) else s.(workerRestartLimit))
        (if 0 <? p.(Window) then p.(Window) else s.(workerRestartWindow))
        (if 0 <? p.(MinBackoff) then p.(MinBackoff) else s.(workerRestartBackoff))
        (if 0 <? p.(MaxBackoff) then p.(MaxBackoff) else s.(workerRestartBackoffM)) in
      let w := o.(oWatchdog) in
      let s := if 0 <? w.(Interval) then SetWorkerWatchdogInterval s w.(Interval) else s in
      let s := if 0 <? w.(HeartbeatTimeout) then SetWorkerHeartbeatTimeout s w.(HeartbeatTimeout) else s in
      with_hooks s o.(oHooks)
  end.

Definition callWorkerHook (s : Overseer) (k : hook_kind) (e : WorkerEvent) : Overseer :=
  if s.(hooks) k then with_log s (s.(hookLog) ++ [(k, e)]) else s.

(** ** Statuses *)

Definition SnapshotWorkerStatuses (s : Overseer) : list WorkerStatus :=
  (map_to_list (default ∅ s.(workerStatuses))).*2.

Definition updateWorkerStatusStarted (s : Overseer) (id name : string) (now : Z) : Overseer :=
  let m := default ∅ s.(workerStatuses) in
  let st := default zero_status (m !! id) in
  with_statuses s (Some (<[id := mkStatus name id true st.(RestartCount) st.(LastError) now st.(LastStoppedAt)]> m)).

Definition updateWorkerStatusStopped (s : Overseer) (id : string) (err : error) (now : Z) : Overseer :=
  if bool_decide (id = "") then s
  else match s.(workerStatuses) with
       | None => s
       | Some m =>
           let st := default zero_status (m !! id) in
           with_statuses s (Some (<[id := mkStatus st.(sName) st.(sID) false st.(RestartCount)
             (default st.(LastError) err) st.(LastStartedAt) now]> m))
       end.

Definition updateWorkerStatusRestart (s : Overseer) (name : string) (count : Z) : Overseer :=
  let m := default ∅ s.(workerStatuses) in
  with_statuses s (Some ((λ st, if bool_decide (st.(sName) = name)
    then mkStatus st.(sName) st.(sID) st.(Running) count st.(LastError) st.(LastStartedAt) st.(LastStoppedAt)
    else st) <$> m)).

(** ** The registry ([runtime.go]) *)

Definition registerRunningWorkerState (s : Overseer) (id : string) (cfg : option WorkerConfig)
    (w : option Worker) (rt : option Z) (cancel : bool) : Overseer :=
  match cfg with
  | None => s
  | Some cfg =>
      if bool_decide (id = "") then s
      else with_registry s (<[id := cfg]> s.(workerConfigByID))
             (<[id := mkRunning cfg w rt cancel]> s.(workerByID))
  end.

Definition unregisterRunningWorkerState (s : Overseer) (id : string) : Overseer * option runningWorkerState :=
  if bool_decide (id = "") then (s, None)
  else
    let state :=
      match s.(workerByID) !! id with
      | Some st => Some st
      | None => (λ cfg, mkRunning cfg None None false) <$> s.(workerConfigByID) !! id
      end in
    (with_registry s (delete id s.(workerConfigByID)) (delete id s.(workerByID)), state).

(** ** Failure signals *)

Definition shouldEmitWorkerFailureSignal (s : Overseer) (id : string) (now : Z) : Overseer * bool :=
  if bool_decide (id = "") then (s, true)
  else
    let seen := filter (λ kt, ¬ (workerFailureSignalTTL < now - kt.2)) s.(workerFailureSignalSeen) in
    match seen !! id with
    | Some ts =>
        if now - ts <=? workerFailureSignalTTL then (with_seen s seen, false)
        else (with_seen s (<[id := now]> seen), true)
    | None => (with_seen s (<[id := now]> seen), true)
    end.

(** The send does not block: a full channel drops the signal. *)
Definition signalWorkerFailure (s : Overseer) (w : Worker) (now : Z) : Overseer :=
  match s.(workerChan) with
  | None => s
  | Some (q, capacity) =>
      let '(s, emit) := shouldEmitWorkerFailureSignal s w.(workerId) now in
      if negb emit then s
      else if Z.of_nat (length q) <? capacity then with_chan s (Some (q ++ [w], capacity))
      else s
  end.

(** ** Restarts ([restart.go]) *)

Fixpoint backoff_loop (n : nat) (backoff M : Z) : Z :=
  match n with
  | O => backoff
  | S n => if Z.quot M 2 <=? backoff then M else backoff_loop n (i64 (backoff * 2)) M
  end.

Definition computeWorkerRestartBackoff (s : Overseer) (restartCount : Z) : Z :=
  if restartCount <=? 1 then s.(workerRestartBackoff)
  else backoff_loop (Z.to_nat (restartCount - 1)) s.(workerRestartBackoff) s.(workerRestartBackoffM).

(** The count, the delay and whether the restart is allowed. *)
Definition trackWorkerRestart (s : Overseer) (name : string) (now : Z) : Overseer * (Z * Z * bool) :=
  let history := default [] (s.(workerRestartHistory) !! name) in
  let pruned := filter (λ ts, now - ts <= s.(workerRestartWindow)) history ++ [now] in
  let s := with_history s (<[name := pruned]> s.(workerRestartHistory)) in
  let restartCount := Z.of_nat (length pruned) in
  if s.(workerRestartLimit) <? restartCount then (s, (restartCount, 0, false))
  else (s, (restartCount, computeWorkerRestartBackoff s restartCount, true)).

Definition workerIDFromFailure (w : option Worker) : string :=
  match w with None => "" | Some w => w.(workerId) end.

Definition errorFromFailure (w : option Worker) : error :=
  match w with None => None | Some w => w.(executionErr) end.

(** [done]: the overseer's context is cancelled. *)
Definition scheduleWorkerRestart (s : Overseer) (done : bool) (cfg : WorkerConfig)
    (failed : option Worker) (now : Z) : Overseer :=
  let name := match failed with
              | Some w => if bool_decide (w.(workerName) = "") then cfg.(cfgName) else w.(workerName)
              | None => cfg.(cfgName)
              end in
  if done then s
  else
    let '(s, (count, delay, allowed)) := trackWorkerRestart s name now in
    if negb allowed then s
    else
      let s := updateWorkerStatusRestart s name count in
      let s := callWorkerHook s OnRestart
        (mkEvent name (workerIDFromFailure failed) (errorFromFailure failed) count now) in
      with_timers s (s.(timers) ++ [(cfg, delay)]).

(** ** Launching *)

(** [id] is the fresh UUID. The goroutine that runs the worker is started. *)
Definition launchWorker (s : Overseer) (w : Worker) (cfg : WorkerConfig) (id : string) (now : Z)
    : Overseer * Worker :=
  let w := mkWorker w.(workerName) id None in
  let s := registerRunningWorkerState s id (Some cfg) (Some w) (Some now) true in
  let s := updateWorkerStatusStarted s id cfg.(cfgName) now in
  let s := callWorkerHook s OnStart (mkEvent cfg.(cfgName) id None 0 now) in
  (s, w).

Definition launchWorkerFromConfig (s : Overseer) (done : bool) (cfg : option WorkerConfig)
    (answer : factory_answer) (id : string) (now : Z) : outcome (Overseer * option Worker) :=
  match cfg with
  | None => Ret (s, None)
  | Some cfg =>
      r ← NewWorker (Some cfg) answer;
      match r with
      | Err _ => Ret (scheduleWorkerRestart s done cfg None now, None)
      | Ok w => let '(s, w) := launchWorker s w cfg id now in Ret (s, Some w)
      end
  end.

(** What the environment does around the [i]-th launch: is the context done before
    it, what the factory answers, the fresh id, the clock, and is the context done
    when a failed launch schedules its restart. *)
Record launch_env := mkLaunchEnv {
  leDone : bool; leAnswer : factory_answer; leId : string; leNow : Z; leDoneLater : bool
}.

(** One configuration, [n] instances; [true] when the context ended it. *)
Fixpoint launch_instances (s : Overseer) (cfg : WorkerConfig) (n : nat) (env : nat → launch_env) (i : nat)
    : outcome (Overseer * bool) :=
  match n with
  | O => Ret (s, false)
  | S n =>
      let e := env i in
      if e.(leDone) then Ret (s, true)
      else
        r ← launchWorkerFromConfig s e.(leDoneLater) (Some cfg) e.(leAnswer) e.(leId) e.(leNow);
        launch_instances r.1 cfg n env (S i)
  end.

(** [i] counts the launches so far. *)
Fixpoint startAllWorkers_loop (s : Overseer) (cfgs : list (option WorkerConfig)) (env : nat → launch_env) (i : nat)
    : outcome Overseer :=
  match cfgs with
  | [] => Ret s
  | c :: cfgs =>
      if (env i).(leDone) then Ret s
      else match c with
           | None => startAllWorkers_loop s cfgs env i
           | Some cfg =>
               if negb cfg.(IsEnabled) then startAllWorkers_loop s cfgs env i
               else match Validate (Some cfg) with
                    | Some _ => startAllWorkers_loop s cfgs env i
                    | None =>
                        r ← launch_instances s cfg (Z.to_nat cfg.(MaxCount)) env i;
                        match r with
                        | (s, true) => Ret s
                        | (s, false) => startAllWorkers_loop s cfgs env (i + Z.to_nat cfg.(MaxCount))%nat
                        end
                    end
           end
  end.

Definition startAllWorkers (s : Overseer) (env : nat → launch_env) : outcome Overseer :=
  startAllWorkers_loop s s.(workerList) env 0.

(** ** The worker goroutine *)

Inductive run_answer := RunOk | RunError (e : string) | RunPanic (r : string).

(** [ctxErr] is [runtime.Err()] when [Run] came back. *)
Definition runWorkerSafely (s : Overseer) (w : Worker) (answer : run_answer) (ctxErr : error) (now : Z)
    : Overseer :=
  let report w :=
    signalWorkerFailure
      (callWorkerHook s OnError (mkEvent w.(workerName) w.(workerId) w.(executionErr) 0 now)) w now in
  let with_err e := mkWorker w.(workerName) w.(workerId) (Some e) in
  match ctxErr with
  | Some _ => s
  | None =>
      match answer with
      | RunPanic r => report (with_err ("worker panic: " +:+ r))
      | RunError e => report (with_err e)
      | RunOk => report (with_err "worker exited unexpectedly without error")
      end
  end.

(** [Beat] of a registered worker. *)
Definition Beat (s : Overseer) (id : string) (now : Z) : Overseer :=
  with_registry s s.(workerConfigByID)
    (alter (λ r, mkRunning r.(rcfg) r.(rworker) (Some now) r.(rcancel)) id s.(workerByID)).

(** ** The monitor ([watchdog.go]) *)

(** [state.cancel()] *)
Definition cancel_state (s : Overseer) (id : string) (cancel : bool) : Overseer :=
  if cancel then with_cancelled s (s.(cancelled) ++ [id]) else s.

(** A failure taken from the channel; the flag tells whether a restart was
    requested. *)
Definition monitor_failure (s : Overseer) (done : bool) (w : Worker) (now : Z) : Overseer * bool :=
  let '(s, state) := unregisterRunningWorkerState s w.(workerId) in
  let s := match state with
           | Some st => cancel_state s w.(workerId) st.(rcancel)
           | None => s
           end in
  let s := updateWorkerStatusStopped s w.(workerId) w.(executionErr) now in
  let s := callWorkerHook s OnStop (mkEvent w.(workerName) w.(workerId) w.(executionErr) 0 now) in
  match state with
  | None => (s, false)
  | Some st => (scheduleWorkerRestart s done st.(rcfg) (Some w) now, true)
  end.

(** Receives one failure, if there is one. *)
Definition monitor_receive (s : Overseer) (done : bool) (now : Z) : Overseer * option string :=
  match s.(workerChan) with
  | Some (w :: q, capacity) =>
      let '(s, restarted) := monitor_failure (with_chan s (Some (q, capacity))) done w now in
      (s, if restarted then Some w.(workerId) else None)
  | _ => (s, None)
  end.

(** Is the registered worker overdue? *)
Definition is_stale (now timeout : Z) (st : runningWorkerState) : bool :=
  match st.(rruntime) with
  | None => false
  | Some beat => negb (now - beat <=? timeout)
  end.

(** The stale entries, removed from both maps; [order] is the iteration order of
    [workerByID]. *)
Definition staleRunningWorkers (s : Overseer) (now timeout : Z) (order : list (string * runningWorkerState))
    : Overseer * list (string * runningWorkerState) :=
  let stale := filter (λ e, is_stale now timeout e.2 = true) order in
  (with_registry s (foldr (λ e m, delete e.1 m) s.(workerConfigByID) stale)
     (foldr (λ e m, delete e.1 m) s.(workerByID) stale), stale).

Definition heartbeat_error : string := "worker heartbeat timed out".

(** The body of the loop over stale workers; a worker registered without a handle
    would be dereferenced as nil. *)
Definition restart_stale (s : Overseer) (done : bool) (id : string) (st : runningWorkerState) (now : Z)
    : outcome Overseer :=
  match st.(rworker) with
  | None => Panic nil_dereference
  | Some w =>
      let w := mkWorker w.(workerName) w.(workerId) (Some heartbeat_error) in
      let s := cancel_state s id st.(rcancel) in
      let s := updateWorkerStatusStopped s id (Some heartbeat_error) now in
      let s := callWorkerHook s OnError (mkEvent w.(workerName) id (Some heartbeat_error) 0 now) in
      let s := callWorkerHook s OnStop (mkEvent w.(workerName) id (Some heartbeat_error) 0 now) in
      Ret (scheduleWorkerRestart s done st.(rcfg) (Some w) now)
  end.

Fixpoint restart_all (s : Overseer) (done : bool) (stale : list (string * runningWorkerState)) (now : Z)
    : outcome Overseer :=
  match stale with
  | [] => Ret s
  | (id, st) :: stale => s ← restart_stale s done id st now; restart_all s done stale now
  end.

Definition checkWorkerHeartbeats (s : Overseer) (done : bool) (now : Z)
    (order : list (string * runningWorkerState)) : outcome (Overseer * list string) :=
  let timeout := s.(workerHeartbeatLimit) in
  if timeout <=? 0 then Ret (s, [])
  else
    let '(s, stale) := staleRunningWorkers s now timeout order in
    s ← restart_all s done stale now;
    Ret (s, stale.*1).

(** ** The overseer itself ([overseer.go]) *)

Fixpoint total_workers (cfgs : list (option WorkerConfig)) : Z :=
  match cfgs with
  | [] => 0
  | c :: cfgs =>
      match c with
      | None => total_workers cfgs
      | Some cfg =>
          if negb cfg.(IsEnabled) then total_workers cfgs
          else match Validate (Some cfg) with
               | Some _ => total_workers cfgs
               | None => i64 (cfg.(MaxCount) + total_workers cfgs)
               end
      end
  end.

(** The body of [executeOverseerWithContext] up to the monitor loop. *)
Definition executeOverseer (s : Overseer) (startWorkers : bool) (env : nat → launch_env)
    : outcome Overseer :=
  let total := total_workers s.(workerList) in
  let total := if total <? 1 then 1 else total in
  let s := with_chan s (Some ([], total)) in
  if startWorkers then startAllWorkers s env else Ret s.

(** The deferred recovery: whether the overseer restarts itself. *)
Definition executeOverseer_recover (s : Overseer) (done : bool) (now : Z) : Overseer * bool :=
  let pruned := filter (λ ts, now - ts <= restartWindow) s.(restartTimestamps) in
  let s := with_timestamps s (pruned ++ [now]) in
  if restartLimit <? Z.of_nat (length s.(restartTimestamps)) then (s, false)
  else (s, negb done).

(** [StartOverseerWithContext], first call: nil entries of the list stay nil. *)
Definition StartOverseer (s : Overseer) (workers : list (option WorkerConfig))
    (options : option OverseerOptions) : Overseer :=
  let s := applyOverseerOptions s options in
  mkOverseer workers s.(workerChan) s.(restartTimestamps) ∅
    s.(workerRestartLimit) s.(workerRestartWindow) s.(workerRestartBackoff) s.(workerRestartBackoffM)
    ∅ ∅ s.(overseerSleepTimeout) s.(workerWatchdogEvery) s.(workerHeartbeatLimit)
    ∅ (Some ∅) s.(hooks) s.(hookLog) s.(cancelled) s.(timers).

(** The values the package variables start with. *)
Definition initial_overseer : Overseer :=
  mkOverseer [] None [] ∅ 10 (60 * Second) (500 * Millisecond) (30 * Second) ∅ ∅
    (1 * Second) (5 * Second) (30 * Second) ∅ None no_hooks [] [] [].

(** ** Backoff *)

Lemma backoff_loop_spec n b M :
  0 < b <= M → is_i64 M →
  b <= backoff_loop n b M <= M ∧
  (b * 2 ^ Z.of_nat n < M - 1 → backoff_loop n b M = b * 2 ^ Z.of_nat n) ∧
  (M <= b * 2 ^ Z.of_nat n → backoff_loop n b M = M).
Proof.
  unfold is_i64. revert b. induction n as [|n IH]; intros b Hb HM.
  - cbn. rewrite Z.mul_1_r. lia.
  - cbn [backoff_loop]. rewrite Nat2Z.inj_succ, Z.pow_succ_r by lia.
    rewrite Z.quot_div_nonneg by lia.
    pose proof (Z.pow_pos_nonneg 2 (Z.of_nat n)). pose proof (Z.div_mod M 2).
    pose proof (Z.mod_pos_bound M 2).
    destruct (Z.leb_spec (M / 2) b) as [Hle|Hlt].
    + split_and!; [lia|lia| |done]. intros Hs. assert (b * 2 <= b * (2 * 2 ^ Z.of_nat n)) by nia. lia.
    + rewrite i64_id by (unfold is_i64; lia). destruct (IH (b * 2)) as (A1 & A2 & A3); [lia|lia|].
      replace (b * (2 * 2 ^ Z.of_nat n)) with (b * 2 * 2 ^ Z.of_nat n) by lia.
      split_and!; [lia|lia|done|done].
Qed.

Lemma backoff_loop_step n b M : 0 < b <= M → is_i64 M → backoff_loop n b M <= backoff_loop (S n) b M.
Proof.
  revert b. induction n as [|n IH]; intros b Hb HM.
  - apply (backoff_loop_spec 1 b M Hb HM).
  - change (backoff_loop (S n) b M) with (if Z.quot M 2 <=? b then M else backoff_loop n (i64 (b * 2)) M).
    change (backoff_loop (S (S n)) b M) with (if Z.quot M 2 <=? b then M else backoff_loop (S n) (i64 (b * 2)) M).
    destruct (Z.leb_spec (Z.quot M 2) b) as [|Hlt]; [lia|].
    rewrite Z.quot_div_nonneg in Hlt by lia. pose proof (Z.div_mod M 2). pose proof (Z.mod_pos_bound M 2).
    unfold is_i64 in *. rewrite i64_id by (unfold is_i64; lia). apply IH; lia.
Qed.

(** Backoff: with a policy [0 < min <= max], the delay before the [n]-th
    restart is at least the minimum and at most the maximum, never decreases with
    [n], is exactly [min * 2^(n-1)] while that stays below the maximum (by more
    than one) and exactly the maximum once the doubling reaches it; the doubling
    never overflows. *)
Theorem computeWorkerRestartBackoff_spec s n :
  let lo := s.(workerRestartBackoff) in
  let hi := s.(workerRestartBackoffM) in
  0 < lo <= hi → is_i64 hi → 1 <= n →
  let b := computeWorkerRestartBackoff s n in
  lo <= b <= hi ∧ b <= computeWorkerRestartBackoff s (n + 1) ∧
  (lo * 2 ^ (n - 1) < hi - 1 → b = lo * 2 ^ (n - 1)) ∧ (hi <= lo * 2 ^ (n - 1) → b = hi).
Proof.
  intros lo hi Hp Hi Hn.
  assert (∀ m, 1 <= m → computeWorkerRestartBackoff s m = backoff_loop (Z.to_nat (m - 1)) lo hi) as E.
  { intros m Hm. unfold computeWorkerRestartBackoff. destruct (Z.leb_spec m 1); [|done].
    replace (Z.to_nat (m - 1)) with 0%nat by lia. done. }
  cbv zeta. rewrite !E by lia.
  replace (Z.to_nat (n + 1 - 1)) with (S (Z.to_nat (n - 1))) by lia.
  destruct (backoff_loop_spec (Z.to_nat (n - 1)) lo hi Hp Hi) as (H1 & H2 & H3).
  rewrite Z2Nat.id in H2, H3 by lia. split_and!; [lia|lia|by apply backoff_loop_step|done|done].
Qed.

Lemma computeWorkerRestartBackoff_spec_witness :
  computeWorkerRestartBackoff initial_overseer 3 = 4 * (500 * Millisecond) ∧
  computeWorkerRestartBackoff initial_overseer 8 = 30 * Second.
Proof.
  split; apply (computeWorkerRestartBackoff_spec initial_overseer); vm_compute; first [done | split; congruence | congruence].
Defined.

(** ** The restart budget *)

(** A restart request: the name, the time and the decision. *)
Abbreviation request := (string * Z * bool)%type.

Definition track_step (acc : Overseer * list request) (x : string * Z) : Overseer * list request :=
  let '(s', (_, _, allowed)) := trackWorkerRestart acc.1 x.1 x.2 in
  (s', acc.2 ++ [(x.1, x.2, allowed)]).

(** A sequence of restart requests. *)
Definition run_restarts (s : Overseer) (attempts : list (string * Z)) : Overseer * list request :=
  foldl track_step (s, []) attempts.

(** Times at which [name] was requested. *)
Definition times_of (name : string) (l : list (string * Z)) : list Z :=
  (filter (λ x, x.1 = name) l).*2.

Definition nondecreasing (l : list (string * Z)) : Prop := StronglySorted Z.le l.*2.

Definition recent (W t : Z) (l : list Z) : list Z := filter (λ ts, t - ts <= W) l.

Lemma nondecreasing_snoc l x :
  nondecreasing (l ++ [x]) → nondecreasing l ∧ ∀ y, y ∈ l → y.2 <= x.2.
Proof.
  unfold nondecreasing. induction l as [|z l IH]; cbn; intros Hs; [split; [constructor|set_solver]|].
  apply StronglySorted_inv in Hs as [Hs Hz]. destruct (IH Hs) as [Hl Hx].
  rewrite fmap_app in Hz. apply Forall_app in Hz as [Hz1 Hz2]. split; [by constructor|].
  intros y [->|Hy]%elem_of_cons; [|by apply Hx]. by inversion Hz2.
Qed.

Lemma recent_recent W t t' l : t <= t' → recent W t' (recent W t l) = recent W t' l.
Proof.
  intros Ht. unfold recent. rewrite list_filter_filter_l; [done|]. intros x. lia.
Qed.

Lemma recent_app W t l l' : recent W t (l ++ l') = recent W t l ++ recent W t l'.
Proof. apply filter_app. Qed.

Lemma times_of_snoc name l x :
  times_of name (l ++ [x]) = times_of name l ++ (if decide (x.1 = name) then [x.2] else []).
Proof.
  unfold times_of. rewrite filter_app, fmap_app. f_equal. rewrite filter_cons. by case_decide.
Qed.

(** The history holds all requests that are still recent, whatever was decided. *)
Record tracks (s0 : Overseer) (past : list (string * Z)) (s : Overseer) : Prop := {
  tr_window : s.(workerRestartWindow) = s0.(workerRestartWindow);
  tr_limit : s.(workerRestartLimit) = s0.(workerRestartLimit);
  tr_history : ∀ name t, (∀ y, y ∈ past → y.2 <= t) →
    recent s0.(workerRestartWindow) t (default [] (s.(workerRestartHistory) !! name)) =
    recent s0.(workerRestartWindow) t (times_of name past)
}.

(** [trackWorkerRestart] in one equation. *)
Lemma trackWorkerRestart_eq s name now :
  let pruned := recent s.(workerRestartWindow) now (default [] (s.(workerRestartHistory) !! name)) ++ [now] in
  let s' := with_history s (<[name := pruned]> s.(workerRestartHistory)) in
  let count := Z.of_nat (length pruned) in
  trackWorkerRestart s name now =
    (s', (count, if count <=? s.(workerRestartLimit) then computeWorkerRestartBackoff s' count else 0,
          count <=? s.(workerRestartLimit))).
Proof.
  intros pruned s' count. unfold trackWorkerRestart. fold (recent s.(workerRestartWindow) now
    (default [] (s.(workerRestartHistory) !! name))). fold pruned s' count.
  replace (workerRestartLimit s') with (workerRestartLimit s) by (by destruct s).
  destruct (Z.ltb_spec (workerRestartLimit s) count), (Z.leb_spec count (workerRestartLimit s)); lia || done.
Qed.

Lemma with_history_fields s h :
  (with_history s h).(workerRestartWindow) = s.(workerRestartWindow) ∧
  (with_history s h).(workerRestartLimit) = s.(workerRestartLimit) ∧
  (with_history s h).(workerRestartHistory) = h.
Proof. by destruct s. Qed.

Lemma tracks_step s0 past s x :
  tracks s0 past s → nondecreasing (past ++ [x]) →
  tracks s0 (past ++ [x]) (trackWorkerRestart s x.1 x.2).1 ∧
  (trackWorkerRestart s x.1 x.2).2.2 =
    (Z.of_nat (length (recent s0.(workerRestartWindow) x.2 (times_of x.1 past))) + 1 <=? s0.(workerRestartLimit)).
Proof.
  intros [Hw Hl Hh] Hnd. apply nondecreasing_snoc in Hnd as [Hnd Hx].
  rewrite trackWorkerRestart_eq. cbn [fst snd]. rewrite Hw, Hl, Hh by done. split.
  - destruct (with_history_fields s (<[x.1 := recent s0.(workerRestartWindow) x.2 (times_of x.1 past) ++ [x.2]]>
      s.(workerRestartHistory))) as (F1 & F2 & F3).
    split; [congruence..|]. intros name t Ht. rewrite F3, times_of_snoc.
    assert (x.2 <= t) by (apply Ht; set_solver).
    destruct (decide (x.1 = name)) as [<-|Hne].
    + rewrite lookup_insert_eq. cbn [from_option id].
      rewrite !recent_app, recent_recent by done. done.
    + rewrite lookup_insert_ne, app_nil_r by done. apply Hh. intros y Hy. apply Ht. set_solver.
  - by rewrite length_app, Nat2Z.inj_add.
Qed.

(** The allowed requests for [name] in the closed interval from [a]. *)
Definition granted (name : string) (a W : Z) (r : request) : Prop :=
  r.1.1 = name ∧ r.2 = true ∧ a <= r.1.2 <= a + W.

#[export] Instance granted_dec name a W r : Decision (granted name a W r).
Proof. unfold granted. apply _. Defined.

Lemma run_restarts_snoc s l x :
  run_restarts s (l ++ [x]) =
    ((trackWorkerRestart (run_restarts s l).1 x.1 x.2).1,
     (run_restarts s l).2 ++ [(x.1, x.2, (trackWorkerRestart (run_restarts s l).1 x.1 x.2).2.2)]).
Proof.
  unfold run_restarts. rewrite foldl_app. cbn. unfold track_step at 1.
  by destruct (trackWorkerRestart _ _ _) as [? [[? ?] ?]].
Qed.

Lemma run_restarts_tracks s l :
  s.(workerRestartHistory) = ∅ → nondecreasing l →
  tracks s l (run_restarts s l).1 ∧ (run_restarts s l).2.*1 = l.
Proof.
  intros H0. induction l as [|x l IH] using rev_ind; intros Hnd.
  - split; [|done]. split; [done..|]. intros name t _. cbn. by rewrite H0, lookup_empty.
  - pose proof (nondecreasing_snoc _ _ Hnd) as [Hl _]. destruct (IH Hl) as [Ht He].
    rewrite run_restarts_snoc. cbn. split; [by apply tracks_step|].
    rewrite fmap_app, He. by destruct x.
Qed.

(** What is granted in the interval was requested in it. *)
Lemma granted_le_recent name a W t (evs : list request) :
  t <= a + W →
  (length (filter (granted name a W) evs) <= length (recent W t (times_of name evs.*1)))%nat.
Proof.
  intros Ht. unfold times_of, recent. induction evs as [|[[n ts] b] evs IH]; [done|].
  rewrite fmap_cons, !filter_cons. cbn [fst].
  destruct (decide (granted name a W (n, ts, b))) as [(Hn & _ & Hts)|]; cbn in *.
  - rewrite decide_True by done. rewrite fmap_cons, filter_cons, decide_True by (cbn; lia). cbn. lia.
  - case_decide; [|lia]. rewrite fmap_cons, filter_cons. case_decide; cbn; lia.
Qed.

(** (C7) Restart budget: whatever the requests and names, with a clock that does
    not go back, in no interval as long as the restart window are more than
    [Limit] restarts of one worker name allowed. *)
Theorem restart_budget s attempts name a :
  s.(workerRestartHistory) = ∅ → 0 <= s.(workerRestartLimit) → nondecreasing attempts →
  Z.of_nat (length (filter (granted name a s.(workerRestartWindow)) (run_restarts s attempts).2)) <=
    s.(workerRestartLimit).
Proof.
  intros H0 Hlim. induction attempts as [|x l IH] using rev_ind; intros Hnd; [done|].
  pose proof (nondecreasing_snoc _ _ Hnd) as [Hl _]. specialize (IH Hl).
  destruct (run_restarts_tracks s l H0 Hl) as [Ht He].
  destruct (tracks_step _ _ _ x Ht Hnd) as [_ Hdec].
  rewrite run_restarts_snoc. cbn [snd]. rewrite filter_app, filter_cons, length_app.
  case_decide as Hg; cbn [length]; [|rewrite filter_nil; cbn [length]; lia].
  destruct Hg as (Hn & Hb & Ha & Hw). cbn in Hn, Hb, Ha, Hw. rewrite Hb in Hdec.
  symmetry in Hdec. apply Z.leb_le in Hdec. subst name.
  pose proof (granted_le_recent x.1 a _ x.2 (run_restarts s l).2 Hw) as Hle. rewrite He in Hle.
  rewrite filter_nil. cbn [length]. lia.
Qed.

(** Twelve requests in one minute: ten are allowed. *)
Lemma restart_budget_witness :
  let reqs := (λ i, ("w"%string, Z.of_nat i * Second)) <$> seq 0 12 in
  let granted_now := filter (granted "w" 0 (60 * Second)) (run_restarts initial_overseer reqs).2 in
  length granted_now = 10%nat ∧ Z.of_nat (length granted_now) <= 10.
Proof.
  intros reqs granted_now. split; [vm_compute; reflexivity|].
  apply (restart_budget initial_overseer reqs "w" 0); [done|done|].
  unfold nondecreasing, reqs. cbn. repeat constructor; vm_compute; congruence.
Defined.

(** ** Failure signals are not repeated *)

Definition emit_step (acc : Overseer * list request) (x : string * Z) : Overseer * list request :=
  let '(s', emitted) := shouldEmitWorkerFailureSignal acc.1 x.1 x.2 in
  (s', acc.2 ++ [(x.1, x.2, emitted)]).

Definition run_signals (s : Overseer) (attempts : list (string * Z)) : Overseer * list request :=
  foldl emit_step (s, []) attempts.

Lemma run_signals_snoc s l x :
  run_signals s (l ++ [x]) =
    ((shouldEmitWorkerFailureSignal (run_signals s l).1 x.1 x.2).1,
     (run_signals s l).2 ++ [(x.1, x.2, (shouldEmitWorkerFailureSignal (run_signals s l).1 x.1 x.2).2)]).
Proof.
  unfold run_signals. rewrite foldl_app. cbn. unfold emit_step at 1.
  by destruct (shouldEmitWorkerFailureSignal _ _ _).
Qed.

(** Every emission that is still fresh is remembered. *)
Definition remembers (past : list (string * Z)) (evs : list request) (s : Overseer) : Prop :=
  ∀ id te t, (id, te, true) ∈ evs → id ≠ "" → (∀ y, y ∈ past → y.2 <= t) →
    t - te <= workerFailureSignalTTL →
    ∃ ts, s.(workerFailureSignalSeen) !! id = Some ts ∧ te <= ts ∧ t - ts <= workerFailureSignalTTL.

Lemma with_seen_seen s x : (with_seen s x).(workerFailureSignalSeen) = x.
Proof. by destruct s. Qed.

(** The map after a signal attempt: fresh entries, plus the new one if emitted. *)
Lemma shouldEmit_eq s id now :
  id ≠ "" →
  let fresh := filter (λ kt, ¬ (workerFailureSignalTTL < now - kt.2)) s.(workerFailureSignalSeen) in
  (shouldEmitWorkerFailureSignal s id now).2 = bool_decide (fresh !! id = None) ∧
  (shouldEmitWorkerFailureSignal s id now).1.(workerFailureSignalSeen) =
    match fresh !! id with None => <[id := now]> fresh | Some _ => fresh end.
Proof.
  intros Hid fresh. unfold shouldEmitWorkerFailureSignal. rewrite bool_decide_false by done.
  fold fresh. destruct (fresh !! id) as [ts|] eqn:E.
  - apply map_lookup_filter_Some in E as [_ Hts]. cbn in Hts.
    destruct (Z.leb_spec (now - ts) workerFailureSignalTTL); [|lia]. cbn. by rewrite with_seen_seen.
  - cbn. by rewrite with_seen_seen.
Qed.

Lemma remembers_step past evs s x :
  remembers past evs s → nondecreasing (past ++ [x]) → (∀ e, e ∈ evs → e.1.2 <= x.2) →
  remembers (past ++ [x]) (evs ++ [(x.1, x.2, (shouldEmitWorkerFailureSignal s x.1 x.2).2)])
    (shouldEmitWorkerFailureSignal s x.1 x.2).1.
Proof.
  intros Hr Hnd Hev id te t Hin Hid Ht Hfr. apply nondecreasing_snoc in Hnd as [Hnd Hx].
  assert (x.2 <= t) as Hxt by (apply Ht; set_solver).
  destruct (decide (x.1 = "")) as [Hx1|Hx1].
  { rewrite elem_of_app, list_elem_of_singleton in Hin. destruct Hin as [Hin|Heq]; [|congruence].
    unfold shouldEmitWorkerFailureSignal. rewrite bool_decide_true by done. cbn.
    apply (Hr id te t); try done. intros y Hy. apply Ht. set_solver. }
  destruct (shouldEmit_eq s x.1 x.2 Hx1) as [E1 E2]. rewrite E1 in Hin. rewrite E2.
  set (fresh := filter _ _) in *.
  assert (∀ id ts, workerFailureSignalSeen s !! id = Some ts → t - ts <= workerFailureSignalTTL →
    fresh !! id = Some ts) as Hfresh.
  { intros i ts Hi Hle. apply map_lookup_filter_Some. split; [done|]. cbn. lia. }
  rewrite elem_of_app, list_elem_of_singleton in Hin. destruct Hin as [Hin|Heq].
  - destruct (Hr id te t Hin Hid) as (ts & Hs & Hte & Hts); [intros y Hy; apply Ht; set_solver|done|].
    specialize (Hfresh id ts Hs Hts). destruct (fresh !! x.1) eqn:Ef; [by exists ts|].
    destruct (decide (id = x.1)) as [->|Hne]; [congruence|].
    exists ts. by rewrite lookup_insert_ne.
  - injection Heq as -> -> Hb. symmetry in Hb. apply bool_decide_eq_true in Hb. rewrite Hb.
    exists x.2. rewrite lookup_insert_eq. done.
Qed.

Lemma run_signals_remembers s l :
  nondecreasing l → remembers l (run_signals s l).2 (run_signals s l).1 ∧ (run_signals s l).2.*1 = l.
Proof.
  induction l as [|x l IH] using rev_ind; intros Hnd.
  - split; [|done]. intros id te t Hin. by apply elem_of_nil in Hin.
  - pose proof (nondecreasing_snoc _ _ Hnd) as [Hl Hx]. destruct (IH Hl) as [Hr He].
    rewrite run_signals_snoc. cbn. split.
    + apply remembers_step; [done|done|]. intros e Hin. apply Hx. rewrite <-He.
      apply list_elem_of_fmap. eauto.
    + rewrite fmap_app, He. by destruct x.
Qed.

(** One failure, one signal: of the attempts to signal the failure of one
    worker id, two that are let through are more than two minutes apart. *)
Theorem failure_signals_spaced s l1 l2 l3 id t1 t2 :
  id ≠ "" → nondecreasing (l1 ++ (id, t1) :: l2 ++ (id, t2) :: l3) →
  (run_signals s (l1 ++ (id, t1) :: l2 ++ (id, t2) :: l3)).2 !! length l1 = Some (id, t1, true) →
  (run_signals s (l1 ++ (id, t1) :: l2 ++ (id, t2) :: l3)).2 !! (length l1 + S (length l2))%nat = Some (id, t2, true) →
  workerFailureSignalTTL < t2 - t1.
Proof.
  intros Hid Hnd H1 H2.
  set (past := l1 ++ (id, t1) :: l2) in *.
  assert (l1 ++ (id, t1) :: l2 ++ (id, t2) :: l3 = (past ++ [(id, t2)]) ++ l3) as E
    by (unfold past; by rewrite <-!app_assoc, <-app_comm_cons).
  rewrite E in *. assert (∀ l s0 l', nondecreasing (l ++ l') → ∃ tail, (run_signals s0 (l ++ l')).2 = (run_signals s0 l).2 ++ tail) as Hpre.
  { intros l s0 l'. induction l' as [|y l' IH] using rev_ind; intros Hs; [exists []; by rewrite !app_nil_r|].
    rewrite app_assoc in Hs |- *. destruct (IH (proj1 (nondecreasing_snoc _ _ Hs))) as [tail Ht].
    rewrite run_signals_snoc. cbn. rewrite Ht. eexists. by rewrite <-app_assoc. }
  assert (nondecreasing (past ++ [(id, t2)])) as Hnd2.
  { clear -Hnd. induction l3 as [|y l3 IH] using rev_ind; [by rewrite app_nil_r in Hnd|].
    rewrite app_assoc in Hnd. apply IH, (nondecreasing_snoc _ _ Hnd). }
  destruct (nondecreasing_snoc _ _ Hnd2) as [Hnd1 Hx].
  destruct (Hpre _ s _ Hnd) as [tail Ht]. rewrite Ht, run_signals_snoc in H1, H2. cbn in H1, H2.
  destruct (run_signals_remembers s past Hnd1) as [Hr He].
  assert (length (run_signals s past).2 = (length l1 + S (length l2))%nat) as Hlen.
  { pose proof (f_equal length He) as Hl. rewrite length_fmap in Hl. rewrite Hl. unfold past.
    by rewrite length_app. }
  rewrite <-app_assoc, lookup_app_l in H1 by lia.
  rewrite <-app_assoc, lookup_app_r, <-Hlen, Nat.sub_diag in H2 by lia. cbn in H2.
  injection H2 as He2. destruct (Z.lt_ge_cases workerFailureSignalTTL (t2 - t1)); [done|exfalso].
  destruct (Hr id t1 t2) as (ts & Hs & Hle & Hts); [by eapply list_elem_of_lookup_2|done|done|lia|].
  destruct (shouldEmit_eq (run_signals s past).1 id t2 Hid) as [E1 _]. rewrite E1 in He2.
  apply bool_decide_eq_true in He2. apply map_lookup_filter_None in He2 as [He2|He2]; [congruence|].
  apply (He2 ts Hs). cbn. lia.
Qed.

Lemma failure_signals_spaced_witness :
  workerFailureSignalTTL < 121 * Second - 0.
Proof.
  apply (failure_signals_spaced initial_overseer [] [("w"%string, 5)] [] "w" 0 (121 * Second)
    ltac:(done)); [|by vm_compute..].
  unfold nondecreasing. cbn. repeat constructor; vm_compute; congruence.
Defined.

(** ** Executions of the overseer *)

(** One step: a launch (at start-up or by a timer), the end of a worker's [Run], a
    heartbeat, a failure received, a watchdog tick. *)
Inductive event :=
  | EvLaunch (done : bool) (cfg : WorkerConfig) (answer : factory_answer) (id : string) (now : Z)
  | EvRunEnds (w : Worker) (answer : run_answer) (ctxErr : error) (now : Z)
  | EvBeat (id : string) (now : Z)
  | EvReceive (done : bool) (now : Z)
  | EvTick (done : bool) (now : Z) (order : list (string * runningWorkerState)).

(** The state, the ids launched so far and the ids a restart was requested for. *)
Record system := mkSystem { sys : Overseer; launched : list string; restarted : list string }.

Definition sys_step (y : system) (e : event) : outcome system :=
  match e with
  | EvLaunch done cfg answer id now =>
      r ← launchWorkerFromConfig y.(sys) done (Some cfg) answer id now;
      Ret (mkSystem r.1 (id :: y.(launched)) y.(restarted))
  | EvRunEnds w answer ctxErr now =>
      Ret (mkSystem (runWorkerSafely y.(sys) w answer ctxErr now) y.(launched) y.(restarted))
  | EvBeat id now => Ret (mkSystem (Beat y.(sys) id now) y.(launched) y.(restarted))
  | EvReceive done now =>
      let '(s, o) := monitor_receive y.(sys) done now in
      Ret (mkSystem s y.(launched) (match o with Some id => id :: y.(restarted) | None => y.(restarted) end))
  | EvTick done now order =>
      r ← checkWorkerHeartbeats y.(sys) done now order;
      Ret (mkSystem r.1 y.(launched) (r.2 ++ y.(restarted)))
  end.

(** Launch ids are fresh UUIDs and factories are set; the order of a tick is an
    order of the map it visits. *)
Definition event_ok (y : system) (e : event) : Prop :=
  match e with
  | EvLaunch _ cfg _ id _ => cfg.(hasNew) = true ∧ id ≠ "" ∧ id ∉ y.(launched)
  | EvTick _ _ order => order ≡ₚ map_to_list y.(sys).(workerByID)
  | _ => True
  end.

Inductive sys_reachable : system → Prop :=
  | sys_start s workers options :
      sys_reachable (mkSystem (StartOverseer s workers options) [] [])
  | sys_next y e y' : sys_reachable y → event_ok y e → sys_step y e = Ret y' → sys_reachable y'.

(** *** What touches the registry *)

Abbreviation registry s := (s.(workerConfigByID), s.(workerByID)).

Ltac crush_registry :=
  repeat (first [ done | case_match | progress simplify_eq/=
    | match goal with s : Overseer |- _ => destruct s; cbn in * end ]); try done.

Lemma callWorkerHook_registry s k e : registry (callWorkerHook s k e) = registry s.
Proof. unfold callWorkerHook. crush_registry. Qed.

Lemma updateWorkerStatusStopped_registry s id err now :
  registry (updateWorkerStatusStopped s id err now) = registry s.
Proof. unfold updateWorkerStatusStopped. crush_registry. Qed.

Lemma updateWorkerStatusStarted_registry s id name now :
  registry (updateWorkerStatusStarted s id name now) = registry s.
Proof. unfold updateWorkerStatusStarted. crush_registry. Qed.

Lemma trackWorkerRestart_registry s name now : registry (trackWorkerRestart s name now).1 = registry s.
Proof. rewrite trackWorkerRestart_eq. cbn. by destruct s. Qed.

Lemma scheduleWorkerRestart_registry s done cfg w now :
  registry (scheduleWorkerRestart s done cfg w now) = registry s.
Proof.
  unfold scheduleWorkerRestart. destruct done; [done|]. set (name := match w with Some _ => _ | _ => _ end).
  pose proof (trackWorkerRestart_registry s name now) as Ht.
  destruct (trackWorkerRestart s name now) as [s1 [[c d] []]]; cbn in *; [|done].
  assert (registry (updateWorkerStatusRestart s1 name c) = registry s1) as Hu by (by destruct s1).
  rewrite <-Ht, <-Hu, <-(callWorkerHook_registry (updateWorkerStatusRestart s1 name c) OnRestart
    (mkEvent name (workerIDFromFailure w) (errorFromFailure w) c now)).
  by destruct (callWorkerHook _ _ _).
Qed.

Lemma cancel_state_registry s id c : registry (cancel_state s id c) = registry s.
Proof. unfold cancel_state. crush_registry. Qed.

Lemma signalWorkerFailure_registry s w now : registry (signalWorkerFailure s w now) = registry s.
Proof.
  unfold signalWorkerFailure. destruct (workerChan s) as [[q c]|]; [|done].
  assert (registry (shouldEmitWorkerFailureSignal s (workerId w) now).1 = registry s) as Hs
    by (unfold shouldEmitWorkerFailureSignal; crush_registry).
  destruct (shouldEmitWorkerFailureSignal _ _ _) as [s1 b]. cbn in Hs. rewrite <-Hs.
  destruct b; cbn; [|done]. destruct (_ <? c); [|done]. by destruct s1.
Qed.

Lemma runWorkerSafely_registry s w a e now : registry (runWorkerSafely s w a e now) = registry s.
Proof.
  unfold runWorkerSafely. destruct e; [done|]. destruct a;
    rewrite signalWorkerFailure_registry; apply callWorkerHook_registry.
Qed.

Lemma with_registry_registry s i j : registry (with_registry s i j) = (i, j).
Proof. by destruct s. Qed.

Lemma foldr_delete_lookup {A B} (m : gmap string A) (l : list (string * B)) k :
  foldr (λ e m, delete e.1 m) m l !! k = if decide (k ∈ l.*1) then None else m !! k.
Proof.
  induction l as [|[k' b] l IH]; cbn; [by case_decide as H; [apply elem_of_nil in H|]|].
  rewrite lookup_delete. destruct (decide (k' = k)) as [->|Hk].
  - by rewrite decide_True by (apply elem_of_cons; auto).
  - rewrite IH. destruct (decide (k ∈ l.*1));
      [by rewrite decide_True by (apply elem_of_cons; auto)|].
    rewrite decide_False; [done|]. intros [->|?]%elem_of_cons; done.
Qed.

(** *** The registry invariant *)

Record sys_inv (y : system) : Prop := {
  inv_same : ∀ id, is_Some (y.(sys).(workerConfigByID) !! id) ↔ is_Some (y.(sys).(workerByID) !! id);
  inv_live : ∀ id, is_Some (y.(sys).(workerByID) !! id) → id ∈ y.(launched) ∧ id ∉ y.(restarted);
  inv_restarted : ∀ id, id ∈ y.(restarted) → id ∈ y.(launched);
  inv_nodup : NoDup y.(restarted);
  inv_handles : ∀ id st, y.(sys).(workerByID) !! id = Some st → is_Some st.(rworker)
}.

(** The invariant only reads the registry. *)
Lemma sys_inv_ext s s' l r :
  registry s' = registry s → sys_inv (mkSystem s l r) → sys_inv (mkSystem s' l r).
Proof. intros [= E1 E2] [H1 H2 H3 H4 H5]. split; cbn in *; by rewrite ?E1, ?E2. Qed.

Lemma launchWorker_registry s w cfg id now :
  id ≠ "" → ∃ w', registry (launchWorker s w cfg id now).1 =
    (<[id := cfg]> s.(workerConfigByID), <[id := mkRunning cfg (Some w') (Some now) true]> s.(workerByID)).
Proof.
  intros Hid. eexists. unfold launchWorker. cbn [fst].
  rewrite callWorkerHook_registry, updateWorkerStatusStarted_registry.
  unfold registerRunningWorkerState. rewrite bool_decide_false by done. apply with_registry_registry.
Qed.

Lemma launch_inv y done cfg answer id now :
  sys_inv y → event_ok y (EvLaunch done cfg answer id now) →
  ∃ y', sys_step y (EvLaunch done cfg answer id now) = Ret y' ∧ sys_inv y'.
Proof.
  intros Hi (Hnew & Hid & Hfr). destruct y as [s l r]. cbn in *. unfold NewWorker. rewrite Hnew. cbn.
  assert (sys_inv (mkSystem s (id :: l) r)) as Hl.
  { destruct Hi as [H1 H2 H3 H4 H5]; split; cbn in *; try done.
    - intros id' [? ?]%H2. set_solver.
    - intros id' Hr%H3. set_solver. }
  destruct answer as [e| |w]; cbn.
  1,2: eexists; split; [done|]; eapply sys_inv_ext; [|done]; apply scheduleWorkerRestart_registry.
  eexists. split; [done|]. destruct (launchWorker_registry s w cfg id now Hid) as [w' [= E1 E2]].
  destruct Hl as [H1 H2 H3 H4 H5]. destruct Hi as [_ _ H3' _ _]. split; cbn -[launchWorker] in *;
    rewrite ?E1, ?E2; try done.
  - intros id'. rewrite !lookup_insert_is_Some. destruct (decide (id = id')); [tauto|]. by rewrite H1.
  - intros id'. rewrite lookup_insert_is_Some. intros [<-|[_ Hs]]; [|by apply H2].
    split; [set_solver|]. intros Hr%H3'. done.
  - intros id' st. rewrite lookup_insert_Some. intros [[_ <-]|[_ Hs]]; [cbn; eauto|by eapply H5].
Qed.

Lemma unregister_spec s id :
  (unregisterRunningWorkerState s id).2 =
    (if decide (id = "") then None else
     match s.(workerByID) !! id with
     | Some st => Some st
     | None => (λ cfg, mkRunning cfg None None false) <$> s.(workerConfigByID) !! id
     end) ∧
  registry (unregisterRunningWorkerState s id).1 =
    if decide (id = "") then registry s
    else (delete id s.(workerConfigByID), delete id s.(workerByID)).
Proof.
  unfold unregisterRunningWorkerState. case_decide; [by rewrite bool_decide_true|].
  rewrite bool_decide_false by done. cbn [fst snd]. split; [done|apply with_registry_registry].
Qed.

Lemma monitor_failure_registry s done w now :
  registry (monitor_failure s done w now).1 = registry (unregisterRunningWorkerState s w.(workerId)).1 ∧
  (monitor_failure s done w now).2 = bool_decide (is_Some (unregisterRunningWorkerState s w.(workerId)).2).
Proof.
  unfold monitor_failure. destruct (unregisterRunningWorkerState s (workerId w)) as [s1 [st|]]; cbn [fst snd].
  - split; [|done]. by rewrite scheduleWorkerRestart_registry, callWorkerHook_registry,
      updateWorkerStatusStopped_registry, cancel_state_registry.
  - split; [|done]. by rewrite callWorkerHook_registry, updateWorkerStatusStopped_registry.
Qed.

Lemma receive_inv y done now :
  sys_inv y → ∃ y', sys_step y (EvReceive done now) = Ret y' ∧ sys_inv y'.
Proof.
  intros Hi. destruct y as [s l r]. cbn. unfold monitor_receive.
  destruct (workerChan s) as [[[|w q] c]|]; try (eexists; split; [done|exact Hi]).
  assert (registry (with_chan s (Some (q, c))) = registry s) as Hc by (by destruct s).
  apply (sys_inv_ext s _ l r Hc) in Hi. set (s1 := with_chan s (Some (q, c))) in *.
  destruct (monitor_failure_registry s1 done w now) as [E1 E2].
  destruct (unregister_spec s1 (workerId w)) as [U1 U2]. rewrite U2 in E1. rewrite U1 in E2.
  destruct (monitor_failure s1 done w now) as [s2 b]. cbn in E1, E2. subst b.
  eexists. split; [done|]. destruct (decide (workerId w = "")) as [He|He]; cbn.
  { by apply (sys_inv_ext s1). }
  injection E1 as E1 E3. destruct Hi as [H1 H2 H3 H4 H5]. cbn in *.
  pose proof (H1 (workerId w)) as Hw. pose proof (H2 (workerId w)) as Hw2.
  destruct (workerByID s1 !! workerId w) as [st|] eqn:Eb.
  - rewrite bool_decide_true by eauto. destruct Hw2 as [Hin Hnin]; [eauto|].
    split; cbn; rewrite ?E1, ?E3.
    + intros id. by rewrite !lookup_delete_is_Some, H1.
    + intros id [Hne Hs]%lookup_delete_is_Some. destruct (H2 id Hs) as [? ?]. set_solver.
    + set_solver.
    + by constructor.
    + intros id st' [_ Hs]%lookup_delete_Some. by eapply H5.
  - assert (workerConfigByID s1 !! workerId w = None) as Ec
      by (apply eq_None_not_Some; rewrite Hw; by intros [? ?]).
    rewrite Ec, bool_decide_false by (by intros [? ?]). cbn.
    rewrite !delete_id in * by done. split; cbn; rewrite ?E1, ?E3; done.
Qed.

Lemma restart_all_spec s done stale now :
  (∀ id st, (id, st) ∈ stale → is_Some st.(rworker)) →
  ∃ s', restart_all s done stale now = Ret s' ∧ registry s' = registry s.
Proof.
  revert s. induction stale as [|[id st] stale IH]; intros s Hh; [by exists s|].
  destruct (Hh id st) as [w Hw]; [set_solver|]. cbn. unfold restart_stale. rewrite Hw. cbn.
  edestruct IH as (s' & E & Hr); [intros id' st' Hin; apply (Hh id'); set_solver|].
  rewrite E. exists s'. split; [done|]. rewrite Hr.
  by rewrite scheduleWorkerRestart_registry, !callWorkerHook_registry,
    updateWorkerStatusStopped_registry, cancel_state_registry.
Qed.

(** A watchdog tick: the entries it takes out, exactly. *)
Lemma tick_spec y done now order :
  sys_inv y → order ≡ₚ map_to_list y.(sys).(workerByID) →
  ∃ y', sys_step y (EvTick done now order) = Ret y' ∧
    let overdue st := (0 <? y.(sys).(workerHeartbeatLimit)) && is_stale now y.(sys).(workerHeartbeatLimit) st in
    y'.(launched) = y.(launched) ∧
    (∃ ids, y'.(restarted) = ids ++ y.(restarted) ∧ NoDup ids ∧
       ∀ id, id ∈ ids ↔ ∃ st, y.(sys).(workerByID) !! id = Some st ∧ overdue st = true) ∧
    (∀ id, y'.(sys).(workerByID) !! id =
       match y.(sys).(workerByID) !! id with
       | Some st => if overdue st then None else Some st
       | None => None
       end) ∧
    (∀ id, is_Some (y'.(sys).(workerConfigByID) !! id) ↔ is_Some (y'.(sys).(workerByID) !! id)).
Proof.
  intros Hi Ho. destruct y as [s l r]. cbn in *. unfold checkWorkerHeartbeats.
  destruct (Z.leb_spec (workerHeartbeatLimit s) 0), (Z.ltb_spec 0 (workerHeartbeatLimit s)); try lia; cbn.
  { eexists. split; [done|]. cbn. split_and!; [done| | |apply Hi].
    - exists []. split_and!; [done|constructor|]. intros id. rewrite elem_of_nil. naive_solver.
    - intros id. by destruct (workerByID s !! id). }
  set (T := workerHeartbeatLimit s) in *. set (stale := filter _ order).
  assert (∀ id st, (id, st) ∈ stale ↔ workerByID s !! id = Some st ∧ is_stale now T st = true) as Hst.
  { intros id st. unfold stale. rewrite list_elem_of_filter, Ho, elem_of_map_to_list. cbn. tauto. }
  assert (∀ id, id ∈ stale.*1 ↔ ∃ st, workerByID s !! id = Some st ∧ is_stale now T st = true) as Hids.
  { intros id. rewrite list_elem_of_fmap. split.
    - intros ([id' st] & -> & Hin%Hst). by exists st.
    - intros (st & Hs). exists (id, st). by rewrite Hst. }
  destruct (restart_all_spec (with_registry s (foldr (λ e m, delete e.1 m) s.(workerConfigByID) stale)
    (foldr (λ e m, delete e.1 m) s.(workerByID) stale)) done stale now) as (s' & -> & Hr).
  { intros id st [Hs _]%Hst. by eapply (inv_handles _ Hi). }
  rewrite with_registry_registry in Hr. injection Hr as E1 E2. cbn.
  assert (∀ id, workerByID s' !! id = match workerByID s !! id with
    | Some st => if is_stale now T st then None else Some st | None => None end) as Hby.
  { intros id. rewrite E2, foldr_delete_lookup. case_decide as Hd.
    - apply Hids in Hd as (st & -> & ->). done.
    - destruct (workerByID s !! id) as [st|] eqn:Es; [|done].
      destruct (is_stale now T st) eqn:Est; [|done]. exfalso. apply Hd, Hids. eauto. }
  eexists. split; [done|]. cbn. split_and!; [done| |done|].
  - exists stale.*1. split_and!; [done| |done]. unfold stale.
    apply (sublist_NoDup _ (order.*1)); [rewrite Ho; apply NoDup_fst_map_to_list|].
    apply fmap_sublist, sublist_filter.
  - intros id. rewrite E1, E2, !foldr_delete_lookup. case_decide; [|apply Hi]. split; by intros [? ?].
Qed.

Lemma tick_inv y done now order :
  sys_inv y → order ≡ₚ map_to_list y.(sys).(workerByID) →
  ∃ y', sys_step y (EvTick done now order) = Ret y' ∧ sys_inv y'.
Proof.
  intros Hi Ho. destruct (tick_spec y done now order Hi Ho) as (y' & E & El & (ids & Er & Hn & Hids) & Hby & Hc).
  exists y'. split; [done|]. destruct Hi as [H1 H2 H3 H4 H5].
  assert (∀ id st, workerByID (sys y') !! id = Some st → workerByID (sys y) !! id = Some st ∧ id ∉ ids) as Hkeep.
  { intros id st Hs. rewrite Hby in Hs. destruct (workerByID (sys y) !! id) as [st0|] eqn:Es; [|done].
    case_match eqn:Eo; [done|]. simplify_eq. split; [done|].
    intros (st' & Hs' & Ho')%Hids. simplify_eq. by rewrite Eo in Ho'. }
  split; [done| | | |].
  - intros id [st [Hs Hni]%Hkeep]. rewrite El, Er, not_elem_of_app. destruct (H2 id) as [? ?]; [eauto|]. done.
  - intros id. rewrite El, Er, elem_of_app. intros [(st & Hs & _)%Hids|Hr]; [|by apply H3].
    apply (H2 id). eauto.
  - rewrite Er. apply NoDup_app. split_and!; [done| |done].
    intros id (st & Hs & _)%Hids. apply (H2 id). eauto.
  - intros id st [Hs _]%Hkeep. by eapply H5.
Qed.

Lemma sys_step_inv y e : sys_inv y → event_ok y e → ∃ y', sys_step y e = Ret y' ∧ sys_inv y'.
Proof.
  intros Hi Hok. destruct e as [done cfg answer id now|w answer ctxErr now|id now|done now|done now order].
  - by apply launch_inv.
  - eexists. split; [done|]. destruct y as [s l r]. eapply sys_inv_ext; [|exact Hi].
    apply runWorkerSafely_registry.
  - eexists. split; [done|]. destruct y as [s l r]. destruct Hi as [H1 H2 H3 H4 H5].
    assert (registry (Beat s id now) = (workerConfigByID s,
      alter (λ r, mkRunning r.(rcfg) r.(rworker) (Some now) r.(rcancel)) id (workerByID s))) as [= E1 E2]
      by apply with_registry_registry.
    split; cbn in *; rewrite ?E1, ?E2; try done.
    + intros id'. by rewrite lookup_alter_is_Some.
    + intros id'. rewrite lookup_alter_is_Some. apply H2.
    + intros id' st. rewrite lookup_alter_Some. intros [(_ & st0 & Hs & ->)|[_ Hs]]; cbn; eauto.
  - by apply receive_inv.
  - by apply tick_inv.
Qed.

Lemma sys_reachable_inv y : sys_reachable y → sys_inv y.
Proof.
  induction 1 as [s ws o|y e y' _ IH Hok E].
  - assert (∀ A (P : Prop) (id : string), is_Some ((∅ : gmap string A) !! id) → P) as Hempty
      by (intros A P id; rewrite lookup_empty; by intros [? ?]).
    split; cbn.
    + intros id. split; apply Hempty.
    + intros id. apply Hempty.
    + by intros id ?%elem_of_nil.
    + apply NoDup_nil_2.
    + intros id st Hs. apply (Hempty runningWorkerState _ id). by rewrite Hs.
  - destruct (sys_step_inv y e IH Hok) as (y1 & E1 & Hi). congruence.
Qed.

(** (C3) One restart per instance: in every execution (launches with fresh ids,
    workers ending in any way, heartbeats, received failures, watchdog ticks, in
    any order) no step panics and a restart is requested at most once for each
    launched worker id, even when it both misses its heartbeat and reports a
    failure; the two registry maps always hold the same ids, all of them launched
    and not yet restarted. *)
Theorem overseer_restarts_once y :
  sys_reachable y →
  NoDup y.(restarted) ∧
  (∀ id, id ∈ y.(restarted) → id ∈ y.(launched)) ∧
  (∀ id, is_Some (y.(sys).(workerConfigByID) !! id) ↔ is_Some (y.(sys).(workerByID) !! id)) ∧
  (∀ id, is_Some (y.(sys).(workerByID) !! id) → id ∈ y.(launched) ∧ id ∉ y.(restarted)) ∧
  ∀ e, event_ok y e → ∃ y', sys_step y e = Ret y'.
Proof.
  intros Hr. pose proof (sys_reachable_inv y Hr) as Hi. split_and!; [apply Hi..|].
  intros e Hok. destruct (sys_step_inv y e Hi Hok) as (y' & E & _). eauto.
Qed.

(** The watchdog is precise: a tick requests a restart for exactly the
    registered workers whose last heartbeat is older than the timeout (none when
    the timeout is zero), takes exactly these out of the registry and leaves every
    other entry as it was. *)
Theorem watchdog_precise y done now order :
  sys_reachable y → order ≡ₚ map_to_list y.(sys).(workerByID) →
  let overdue st := (0 <? y.(sys).(workerHeartbeatLimit)) && is_stale now y.(sys).(workerHeartbeatLimit) st in
  ∃ y' ids, sys_step y (EvTick done now order) = Ret y' ∧ y'.(restarted) = ids ++ y.(restarted) ∧ NoDup ids ∧
    (∀ id, id ∈ ids ↔ ∃ st, y.(sys).(workerByID) !! id = Some st ∧ overdue st = true) ∧
    ∀ id, y'.(sys).(workerByID) !! id =
      match y.(sys).(workerByID) !! id with
      | Some st => if overdue st then None else Some st
      | None => None
      end.
Proof.
  intros Hr Ho overdue. apply sys_reachable_inv in Hr.
  destruct (tick_spec y done now order Hr Ho) as (y' & E & _ & (ids & Er & Hn & Hids) & Hby & _).
  by exists y', ids.
Qed.

(** *** A concrete execution *)

Definition demo_cfg : WorkerConfig := mkWorkerConfig "mailer" true 1 true.
Definition demo_worker : Worker := mkWorker "mailer" "" None.
Definition demo_start : system :=
  mkSystem (StartOverseer initial_overseer [Some demo_cfg] None) [] [].
Definition demo_running : system :=
  match sys_step demo_start (EvLaunch false demo_cfg (FactoryWorker demo_worker) "id-1" 0) with
  | Ret y => y
  | Panic _ => demo_start
  end.

Lemma demo_running_reachable : sys_reachable demo_running.
Proof.
  apply (sys_next demo_start (EvLaunch false demo_cfg (FactoryWorker demo_worker) "id-1" 0)).
  - apply sys_start.
  - split_and!; [done|done|]. intros H%elem_of_nil. done.
  - reflexivity.
Qed.

Lemma overseer_restarts_once_witness :
  NoDup demo_running.(restarted) ∧ demo_running.(launched) = ["id-1"%string] ∧
  ∃ y', sys_step demo_running (EvReceive false 5) = Ret y'.
Proof.
  destruct (overseer_restarts_once demo_running demo_running_reachable) as (H1 & _ & _ & _ & H5).
  split_and!; [exact H1|reflexivity|]. by apply H5.
Defined.

(** A worker silent for 31 seconds is restarted. *)
Lemma watchdog_precise_witness :
  ∃ y', sys_step demo_running (EvTick false (31 * Second) (map_to_list demo_running.(sys).(workerByID))) = Ret y' ∧
    "id-1"%string ∈ y'.(restarted) ∧ y'.(sys).(workerByID) !! "id-1"%string = None.
Proof.
  destruct (watchdog_precise demo_running false (31 * Second) (map_to_list demo_running.(sys).(workerByID)))
    as (y' & ids & E & Er & _ & Hids & Hby); [apply demo_running_reachable|done|].
  exists y'. split_and!; [exact E| |].
  - rewrite Er. apply elem_of_app. left. apply Hids.
    exists (mkRunning demo_cfg (Some (mkWorker "mailer" "id-1" None)) (Some 0) true). by split; vm_compute.
  - rewrite Hby. vm_compute. reflexivity.
Defined.
