(* ===== verification/Features.v ===== *)
(** * Feature flags ([src/core/features/evaluation.go], [validator.go], [entity.go])

    Evaluation of a feature (schedule, rollout, rules, weighted variant) and the
    content validation a configuration passes before it is served. The clock and
    the random source are arguments. [time.Parse(time.RFC3339, _)] is a parameter of
    the section, so every theorem holds for whatever it accepts. Strings are ASCII
    where they are upper-cased. *)

From Stdlib Require Import ZArith Lia Floats.SpecFloat.
From S2P Require Import Prelude GoValue.
Local Open Scope Z_scope.

(** ** Entities and constants *)

Record Attributes := mkAttributes { Platforms : list string; Environments : list string; Regions : list string }.
Record Variant := mkVariant { vName : string; Weight : float64 }.
Record Condition := mkCondition { cKey : string; Operator : string; cValue : any }.
Record Rules := mkRules { Conjunction : string; Conditions : list Condition }.
Record Rollout := mkRollout { rPlatform : string; rEnvironment : string; rRegion : string; Percentage : float64 }.
Record Schedule := mkSchedule { Start : string; End : string }.

Record Feature := mkFeature {
  Enabled : bool;
  fSchedule : option Schedule;
  Datatype : string;
  DefaultValue : any;
  Variants : list Variant;
  fRules : option Rules;
  Rollouts : list Rollout
}.

(** The attributes pointer may be nil. *)
Record FeatureConfig := mkFeatureConfig { fcAttributes : option Attributes; Features : gmap string Feature }.

Record EvaluationOptions := mkEvaluationOptions {
  Platform : string;
  Environment : string;
  Region : string;
  EvaluationBucketKey : string;
  RuleContext : gmap string any
}.

Definition WildCardValue : string := "*".
Definition ConjunctionAnd : string := "AND".
Definition ConjunctionOr : string := "OR".
Definition OperatorEquals : string := "EQUALS".
Definition OperatorNotEquals : string := "NOT_EQUALS".
Definition OperatorGreaterThan : string := "GREATER_THAN".
Definition OperatorLessThan : string := "LESS_THAN".
Definition OperatorGreaterThanOrEqual : string := "GREATER_THAN_OR_EQUAL".
Definition OperatorLessThanOrEqual : string := "LESS_THAN_OR_EQUAL".
Definition OperatorIn : string := "IN".
Definition OperatorNotIn : string := "NOT_IN".

#[export] Instance conditions_nil_dec (l : list Condition) : Decision (l = []).
Proof. destruct l; [by left|by right]. Defined.

Definition validConjunctions : list string := [ConjunctionAnd; ConjunctionOr].
Definition validOperators : list string :=
  [OperatorEquals; OperatorNotEquals; OperatorGreaterThan; OperatorLessThan;
   OperatorGreaterThanOrEqual; OperatorLessThanOrEqual; OperatorIn; OperatorNotIn].
Definition validDatatypes : list string := ["STRING"; "INTEGER"; "FLOAT"; "BOOLEAN"].

(** [strings.ToUpper] on ASCII. *)
Definition upper_ascii (a : Ascii.ascii) : Ascii.ascii :=
  let n := Ascii.nat_of_ascii a in
  if (97 <=? n)%nat && (n <=? 122)%nat then Ascii.ascii_of_nat (n - 32) else a.
Fixpoint ToUpper (s : string) : string :=
  match s with
  | EmptyString => EmptyString
  | String a s => String (upper_ascii a) (ToUpper s)
  end.

(** [types.ExistsInList] on strings. *)
Definition inList (s : string) (l : list string) : bool := bool_decide (s ∈ l).

(** ** Conditions *)

Definition toFloat64 (v : any) : option float64 :=
  match v with
  | AnyInt z => Some (f64_of_Z z)
  | AnyInt64 z => Some (f64_of_Z z)
  | AnyFloat64 f => Some f
  | _ => None
  end.

Definition f64_zero : float64 := S754_zero false.

(** The difference; 0 when a value is not numeric. *)
Definition compareFloats (a b : any) : float64 :=
  match toFloat64 a, toFloat64 b with
  | Some fa, Some fb => f64_sub fa fb
  | _, _ => f64_zero
  end.

(** [for _, item := range list { if item == val { return hit } }; return miss] *)
Fixpoint member_loop (items : list any) (val : any) (hit miss : bool) : outcome bool :=
  match items with
  | [] => Ret miss
  | item :: items =>
      eq ← any_eq item val;
      match eq with
      | true => Ret hit
      | false => member_loop items val hit miss
      end
  end.

Definition matchCondition (c : Condition) (val : any) : outcome bool :=
  let op := c.(Operator) in
  if bool_decide (op = OperatorEquals) then any_eq val c.(cValue)
  else if bool_decide (op = OperatorNotEquals) then b ← any_eq val c.(cValue); Ret (negb b)
  else if bool_decide (op = OperatorIn) then
    match c.(cValue) with AnyList items => member_loop items val true false | _ => Ret false end
  else if bool_decide (op = OperatorNotIn) then
    match c.(cValue) with AnyList items => member_loop items val false true | _ => Ret false end
  else if bool_decide (op = OperatorGreaterThan) then Ret (f64_ltb f64_zero (compareFloats val c.(cValue)))
  else if bool_decide (op = OperatorLessThan) then Ret (f64_ltb (compareFloats val c.(cValue)) f64_zero)
  else if bool_decide (op = OperatorGreaterThanOrEqual) then
    Ret (f64_leb f64_zero (compareFloats val c.(cValue)))
  else if bool_decide (op = OperatorLessThanOrEqual) then
    Ret (f64_leb (compareFloats val c.(cValue)) f64_zero)
  else Ret false.

(** [ruleCtx[key]]: nil when absent. *)
Definition ctx_get (ctx : gmap string any) (key : string) : any := default AnyNil (ctx !! key).

Fixpoint any_condition (cs : list Condition) (ctx : gmap string any) : outcome bool :=
  match cs with
  | [] => Ret false
  | c :: cs =>
      b ← matchCondition c (ctx_get ctx c.(cKey));
      match b with true => Ret true | false => any_condition cs ctx end
  end.

Fixpoint all_conditions (cs : list Condition) (ctx : gmap string any) : outcome bool :=
  match cs with
  | [] => Ret true
  | c :: cs =>
      b ← matchCondition c (ctx_get ctx c.(cKey));
      match b with true => all_conditions cs ctx | false => Ret false end
  end.

Definition evaluateConditions (cs : list Condition) (conjunction : string) (ctx : gmap string any)
    : outcome bool :=
  if bool_decide (ToUpper conjunction = ConjunctionOr) then any_condition cs ctx
  else if bool_decide (ToUpper conjunction = ConjunctionAnd) then all_conditions cs ctx
  else Ret false.

(** ** Randomness and variants *)

(** The eight random bytes as a big-endian integer; [None] when the source
    fails. *)
Definition cryptoUint64ToFloat64 (u : Z) : float64 := f64_div (f64_of_Z u) (f64_of_Z maxUint64).

Definition randomPercentage (rnd : option Z) : float64 :=
  match rnd with
  | None => f64_of_Z 100
  | Some u => f64_mul (cryptoUint64ToFloat64 u) (f64_of_Z 100)
  end.

(** [hash/fnv]'s 64-bit FNV-1a. *)
Definition fnv64a (key : string) : Z :=
  foldl (λ h b, u64 (Z.lxor h b * 1099511628211)) 14695981039346656037 (bytes_of_string key).

Definition roll_for (bucketKey : string) (rnd : option Z) : float64 :=
  if negb (bool_decide (bucketKey = "")) then f64_div (f64_of_Z (fnv64a bucketKey mod 10000)) (f64_of_Z 100)
  else randomPercentage rnd.

Fixpoint variant_loop (roll sum : float64) (vs : list Variant) (dflt : any) : any :=
  match vs with
  | [] => dflt
  | v :: vs =>
      let sum := f64_add sum v.(Weight) in
      if f64_leb roll sum then AnyString v.(vName) else variant_loop roll sum vs dflt
  end.

Definition selectVariant (f : Feature) (bucketKey : string) (rnd : option Z) : any :=
  variant_loop (roll_for bucketKey rnd) f64_zero f.(Variants) f.(DefaultValue).

(** The first matching rollout decides. *)
Fixpoint rollout_loop (rs : list Rollout) (o : EvaluationOptions) (rnd : option Z) : bool :=
  match rs with
  | [] => false
  | r :: rs =>
      let isPlatformEligible := bool_decide (o.(Platform) = r.(rPlatform)) || bool_decide (r.(rPlatform) = WildCardValue) in
      let isEnvironmentEligible :=
        bool_decide (o.(Environment) = r.(rEnvironment)) || bool_decide (r.(rEnvironment) = WildCardValue) in
      let isRegionEligible := bool_decide (o.(Region) = r.(rRegion)) || bool_decide (r.(rRegion) = WildCardValue) in
      if isPlatformEligible && isEnvironmentEligible && isRegionEligible
      then f64_leb (randomPercentage rnd) r.(Percentage)
      else rollout_loop rs o rnd
  end.

Definition isRolloutEligible (rs : list Rollout) (o : EvaluationOptions) (rnd : option Z) : bool :=
  match rs with
  | [] => true
  | _ => rollout_loop rs o rnd
  end.

Definition isFeatureActive (f : Feature) : bool := f.(Enabled).

(** [feature.Rules != nil && len(Conditions) > 0] implies the conditions hold. *)
Definition rules_pass (f : Feature) (o : EvaluationOptions) : outcome bool :=
  match f.(fRules) with
  | None => Ret true
  | Some r =>
      if decide (r.(Conditions) = []) then Ret true
      else evaluateConditions r.(Conditions) r.(Conjunction) o.(RuleContext)
  end.

Section features.
(** [time.Parse(time.RFC3339, value)], in nanoseconds. *)
Context (parseRFC3339 : string → option Z).

(** [Some None] is the (nil, nil) result for the empty string. *)
Definition parseTime (value : string) : option (option Z) :=
  if bool_decide (value = "") then Some None else Some <$> parseRFC3339 value.

Definition isScheduleValid (schedule : option Schedule) (now : Z) : bool :=
  match schedule with
  | None => true
  | Some s =>
      match parseTime s.(Start) with
      | None => false
      | Some start =>
          match parseTime s.(End) with
          | None => false
          | Some fin =>
              if from_option (λ t, now <? t) false start || from_option (λ t, t <? now) false fin
              then false else true
          end
      end
  end.

Inductive feature_error := NotInitialized | FeatureNotFound.

(** [store] is the package's configuration; the two random reads (rollout and
    variant) are [rnd1] and [rnd2]. *)
Definition GetFeatureValue (store : option FeatureConfig) (featureKey : string) (o : EvaluationOptions)
    (now : Z) (rnd1 rnd2 : option Z) : outcome (result feature_error any) :=
  match store with
  | None => Ret (Err NotInitialized)
  | Some cfg =>
      match cfg.(Features) !! featureKey with
      | None => Ret (Err FeatureNotFound)
      | Some f =>
          if negb (isFeatureActive f) then Ret (Ok f.(DefaultValue))
          else if negb (isScheduleValid f.(fSchedule) now) then Ret (Ok f.(DefaultValue))
          else if negb (isRolloutEligible f.(Rollouts) o rnd1) then Ret (Ok f.(DefaultValue))
          else
            pass ← rules_pass f o;
            match pass with
            | true => Ret (Ok (selectVariant f o.(EvaluationBucketKey) rnd2))
            | false => Ret (Ok f.(DefaultValue))
            end
      end
  end.

(** ** Validation *)

(** [None] is success; the messages are abbreviated. *)
Definition validateDatatype (datatype : string) : option string :=
  if inList (ToUpper datatype) validDatatypes then None else Some "invalid datatype".

Definition validateSchedule (s : Schedule) : option string :=
  let start := if bool_decide (s.(Start) = "") then Some None else parseTime s.(Start) in
  let fin := if bool_decide (s.(End) = "") then Some None else parseTime s.(End) in
  match start with
  | None => Some "invalid start time"
  | Some start =>
      match fin with
      | None => Some "invalid end time"
      | Some fin =>
          match start, fin with
          | Some a, Some b => if b <? a then Some "start time must be before end time" else None
          | _, _ => None
          end
      end
  end.

(** 0.001, correctly rounded: [4611686018427388 / 2^62]. *)
Definition f64_milli : float64 := S754_finite false 4611686018427388 (-62).

Fixpoint variants_sum (sum : float64) (vs : list Variant) : result string float64 :=
  match vs with
  | [] => Ok sum
  | v :: vs =>
      if f64_ltb v.(Weight) f64_zero then Err "variant weight must be non-negative"
      else if f64_ltb (f64_of_Z 100) v.(Weight) then Err "variant weight must be less than or equal to 100"
      else variants_sum (f64_add sum v.(Weight)) vs
  end.

Definition validateVariants (vs : list Variant) : option string :=
  match variants_sum f64_zero vs with
  | Err e => Some e
  | Ok sum =>
      if f64_ltb f64_milli (SFabs (f64_sub sum (f64_of_Z 100)))
      then Some "total variant weight must sum to 100" else None
  end.

Fixpoint validateConditions (cs : list Condition) : option string :=
  match cs with
  | [] => None
  | c :: cs =>
      if bool_decide (c.(cKey) = "") then Some "condition key cannot be empty"
      else match c.(cValue) with
           | AnyNil => Some "condition value cannot be nil"
           | v =>
               if negb (inList c.(Operator) validOperators) then Some "invalid operator"
               else if (bool_decide (c.(Operator) = OperatorIn) || bool_decide (c.(Operator) = OperatorNotIn)) &&
                       negb (match v with AnyList _ => true | _ => false end)
               then Some "condition must have an array value"
               else validateConditions cs
           end
  end.

Definition validateRules (r : Rules) : option string :=
  if bool_decide (r.(Conjunction) = "") && negb (match r.(Conditions) with [] => true | _ => false end)
  then Some "conjunction cannot be empty when conditions are present"
  else if negb (inList r.(Conjunction) (validConjunctions ++ [""])) then Some "conjunction must be one of"
  else validateConditions r.(Conditions).

(** [len(allowed) > 0 && !inList(v, allowed) && v != "*"] *)
Definition disallowed (v : string) (allowed : list string) : bool :=
  negb (match allowed with [] => true | _ => false end) && negb (inList v allowed) &&
  negb (bool_decide (v = WildCardValue)).

Fixpoint rollouts_loop (rs : list Rollout) (a : Attributes) : option string :=
  match rs with
  | [] => None
  | r :: rs =>
      if disallowed r.(rEnvironment) a.(Environments) then Some "rollout environment not in allowed environments"
      else if disallowed r.(rRegion) a.(Regions) then Some "rollout region not in allowed regions"
      else if disallowed r.(rPlatform) a.(Platforms) then Some "rollout platform not in allowed platforms"
      else if f64_ltb r.(Percentage) f64_zero || f64_ltb (f64_of_Z 100) r.(Percentage)
      then Some "rollout percentage must be between 0 and 100"
      else rollouts_loop rs a
  end.

(** Dereferences the attributes. *)
Definition validateRollout (rs : list Rollout) (attributes : option Attributes) : outcome (option string) :=
  match attributes with
  | None => Panic nil_dereference
  | Some a => Ret (rollouts_loop rs a)
  end.

Definition validateFeature (f : Feature) (attributes : option Attributes) : outcome (option string) :=
  match validateDatatype f.(Datatype) with
  | Some e => Ret (Some e)
  | None =>
      match (match f.(fSchedule) with Some s => validateSchedule s | None => None end) with
      | Some e => Ret (Some e)
      | None =>
          match (match f.(Variants) with [] => None | vs => validateVariants vs end) with
          | Some e => Ret (Some e)
          | None =>
              match (match f.(fRules) with Some r => validateRules r | None => None end) with
              | Some e => Ret (Some e)
              | None => match f.(Rollouts) with [] => Ret None | rs => validateRollout rs attributes end
              end
          end
      end
  end.

(** The loop over the features, in map order. *)
Fixpoint validations_loop (entries : list (string * Feature)) (attributes : option Attributes)
    : outcome (option string) :=
  match entries with
  | [] => Ret None
  | (name, f) :: entries =>
      e ← validateFeature f attributes;
      match e with
      | Some e => Ret (Some ("feature '" +:+ name +:+ "': " +:+ e))
      | None => validations_loop entries attributes
      end
  end.

Definition applyContentValidations (cfg : FeatureConfig) (order : list (string * Feature))
    : outcome (option string) :=
  validations_loop order cfg.(fcAttributes).
End features.

(** ** Rules *)

(** Values that [==] always compares. *)
Definition scalar (v : any) : bool :=
  match v with AnyList _ | AnyMap _ => false | _ => true end.

Lemma any_eq_scalar a b : scalar a = true ∨ scalar b = true → ∃ r, any_eq a b = Ret r.
Proof. destruct a, b; cbn; eauto; intros [?|?]; done. Qed.

Lemma member_loop_scalar items val hit miss :
  scalar val = true → ∃ r, member_loop items val hit miss = Ret r.
Proof.
  intros Hv. induction items as [|x items IH]; cbn; [eauto|].
  destruct (any_eq_scalar x val) as [[] ->]; [by right|cbn; eauto..].
Qed.

Lemma matchCondition_scalar c val : scalar val = true → ∃ b, matchCondition c val = Ret b.
Proof.
  intros Hv. unfold matchCondition.
  destruct (any_eq_scalar val c.(cValue)) as [r Hr]; [by left|]. rewrite Hr. cbn.
  repeat (case_bool_decide; [destruct c.(cValue); eauto using member_loop_scalar|]); eauto.
Qed.

(** What a rule means: the conjunction upper-cased is OR and some condition
    matches, or AND and all do. *)
Definition condition_holds (ctx : gmap string any) (c : Condition) : Prop :=
  matchCondition c (ctx_get ctx c.(cKey)) = Ret true.

Definition rules_hold (cs : list Condition) (conjunction : string) (ctx : gmap string any) : Prop :=
  (ToUpper conjunction = ConjunctionOr ∧ Exists (condition_holds ctx) cs) ∨
  (ToUpper conjunction = ConjunctionAnd ∧ Forall (condition_holds ctx) cs).

(** The rule context gives scalars for the keys the conditions ask for. *)
Definition scalar_context (cs : list Condition) (ctx : gmap string any) : Prop :=
  Forall (λ c, scalar (ctx_get ctx c.(cKey)) = true) cs.

Lemma any_condition_spec cs ctx :
  scalar_context cs ctx → ∃ b, any_condition cs ctx = Ret b ∧ (b = true ↔ Exists (condition_holds ctx) cs).
Proof.
  induction 1 as [|c cs Hc _ (b & Hb & Hiff)]; cbn.
  { exists false. split; [done|]. by rewrite Exists_nil. }
  destruct (matchCondition_scalar c _ Hc) as [r Hr]. rewrite Hr. cbn.
  destruct r; [exists true|exists b]; (split; [done|]); rewrite Exists_cons; unfold condition_holds at 1;
    rewrite Hr; [split; auto|]. rewrite Hiff. split; [auto|]. by intros [[=]|].
Qed.

Lemma all_conditions_spec cs ctx :
  scalar_context cs ctx → ∃ b, all_conditions cs ctx = Ret b ∧ (b = true ↔ Forall (condition_holds ctx) cs).
Proof.
  induction 1 as [|c cs Hc _ (b & Hb & Hiff)]; cbn.
  { exists true. split; [done|]. by rewrite Forall_nil. }
  destruct (matchCondition_scalar c _ Hc) as [r Hr]. rewrite Hr. cbn.
  destruct r; [exists b|exists false]; (split; [done|]); rewrite Forall_cons; unfold condition_holds at 1;
    rewrite Hr; [rewrite Hiff; tauto|]. split; [done|]. by intros [[=] _].
Qed.

Lemma evaluateConditions_spec cs conjunction ctx :
  scalar_context cs ctx →
  ∃ b, evaluateConditions cs conjunction ctx = Ret b ∧ (b = true ↔ rules_hold cs conjunction ctx).
Proof.
  intros Hs. unfold evaluateConditions, rules_hold. case_bool_decide as Hor.
  - destruct (any_condition_spec cs ctx Hs) as (b & -> & Hiff). exists b. split; [done|].
    rewrite Hiff, Hor. split; [auto|]. intros [[_ ?]|[[=] _]]. done.
  - case_bool_decide as Hand.
    + destruct (all_conditions_spec cs ctx Hs) as (b & -> & Hiff). exists b. split; [done|].
      rewrite Hiff. split; [auto|]. by intros [[? _]|[_ ?]].
    + exists false. split; [done|]. split; [done|]. by intros [[? _]|[? _]].
Qed.

(** Rule evaluation: over a context of scalar values the evaluation of a
    rule returns, and is true exactly when the conjunction is OR (in any case) and
    some condition matches or it is AND and all do; NOT_EQUALS is the negation of
    EQUALS, and NOT_IN of IN for an array value. *)
Theorem evaluateConditions_logic cs conjunction ctx :
  scalar_context cs ctx →
  (∃ b, evaluateConditions cs conjunction ctx = Ret b ∧ (b = true ↔ rules_hold cs conjunction ctx)) ∧
  ∀ k v val, scalar val = true →
    (∃ b, matchCondition (mkCondition k OperatorEquals v) val = Ret b ∧
       matchCondition (mkCondition k OperatorNotEquals v) val = Ret (negb b)) ∧
    ∀ items, ∃ b, matchCondition (mkCondition k OperatorIn (AnyList items)) val = Ret b ∧
       matchCondition (mkCondition k OperatorNotIn (AnyList items)) val = Ret (negb b).
Proof.
  intros Hs. split; [by apply evaluateConditions_spec|]. intros k v val Hv. split.
  - destruct (any_eq_scalar val v) as [b Hb]; [by left|]. exists b. unfold matchCondition. cbn.
    by rewrite Hb.
  - intros items. unfold matchCondition. cbn. induction items as [|x items (b & IH1 & IH2)]; cbn; [by exists false|].
    destruct (any_eq_scalar x val) as [[] ->]; [by right|by exists true|]. cbn. by exists b.
Qed.

Lemma evaluateConditions_logic_witness :
  evaluateConditions [mkCondition "tier" OperatorIn (AnyList [AnyString "gold"; AnyString "silver"])] "and"
    {[ "tier" := AnyString "gold" ]} = Ret true.
Proof.
  destruct (evaluateConditions_logic [mkCondition "tier" OperatorIn (AnyList [AnyString "gold"; AnyString "silver"])]
    "and" {[ "tier" := AnyString "gold" ]}) as [(b & E & Hiff) _].
  { constructor; [reflexivity|constructor]. }
  rewrite E. f_equal. apply Hiff. right. split; [reflexivity|]. constructor; [reflexivity|constructor].
Defined.

(** Order operators on values that are not numbers, an absent context key
    among them: the strict operators do not match, while GREATER_THAN_OR_EQUAL and
    LESS_THAN_OR_EQUAL both match. And a context value of type int is never EQUAL
    to a float64, the type every JSON number of a configuration has, although the
    order operators compare the two as numbers. *)
Theorem order_operators_on_non_numbers k v val :
  toFloat64 val = None ∨ toFloat64 v = None →
  matchCondition (mkCondition k OperatorGreaterThan v) val = Ret false ∧
  matchCondition (mkCondition k OperatorLessThan v) val = Ret false ∧
  matchCondition (mkCondition k OperatorGreaterThanOrEqual v) val = Ret true ∧
  matchCondition (mkCondition k OperatorLessThanOrEqual v) val = Ret true ∧
  ∀ x y, matchCondition (mkCondition k OperatorEquals (AnyFloat64 y)) (AnyInt x) = Ret false.
Proof.
  intros Hn. assert (compareFloats val v = f64_zero) as E.
  { unfold compareFloats. destruct Hn as [-> | ->]; [done|]. by destruct (toFloat64 val). }
  unfold matchCondition. cbn. rewrite E. done.
Qed.

Lemma order_operators_on_non_numbers_witness :
  matchCondition (mkCondition "age" OperatorGreaterThanOrEqual (AnyFloat64 (f64_of_Z 18)))
    (ctx_get ∅ "age") = Ret true.
Proof.
  apply (order_operators_on_non_numbers "age" (AnyFloat64 (f64_of_Z 18)) (ctx_get ∅ "age")).
  left. reflexivity.
Defined.

(** ** Variants *)

(** The running total after the variant at [i], added as the code adds. *)
Definition cumulative (vs : list Variant) (i : nat) : float64 :=
  foldl (λ s v, f64_add s v.(Weight)) f64_zero (take (S i) vs).

Lemma variant_loop_spec roll sum vs dflt :
  let cum i := foldl (λ s v, f64_add s v.(Weight)) sum (take (S i) vs) in
  (∃ i v, vs !! i = Some v ∧ variant_loop roll sum vs dflt = AnyString v.(vName) ∧
     f64_leb roll (cum i) = true ∧ ∀ j, (j < i)%nat → f64_leb roll (cum j) = false) ∨
  (variant_loop roll sum vs dflt = dflt ∧ ∀ j, (j < length vs)%nat → f64_leb roll (cum j) = false).
Proof.
  revert sum. induction vs as [|v vs IH]; intros sum; cbn [variant_loop].
  { right. split; [done|]. cbn. lia. }
  destruct (f64_leb roll (f64_add sum (Weight v))) eqn:E.
  - left. exists 0%nat, v. split_and!; [done|done|by cbn; rewrite take_0|lia].
  - destruct (IH (f64_add sum (Weight v))) as [(i & v' & Hi & Hv & Hc & Hj)|[Hd Hj]]; [left|right].
    + exists (S i), v'. split_and!; [done|done|done|]. intros [|j] Hlt; [by cbn; rewrite take_0|].
      apply (Hj j). lia.
    + split; [done|]. intros [|j] Hlt; [by cbn; rewrite take_0|]. cbn in Hlt. apply (Hj j). lia.
Qed.

(** Variant selection: the value is the name of the first variant whose
    running total of weights reaches the roll, and the default when none does; with
    a bucket key the choice depends on the key only, not on the random source. *)
Theorem selectVariant_first_reaching f bucketKey rnd :
  let roll := roll_for bucketKey rnd in
  ((∃ i v, f.(Variants) !! i = Some v ∧ selectVariant f bucketKey rnd = AnyString v.(vName) ∧
      f64_leb roll (cumulative f.(Variants) i) = true ∧
      ∀ j, (j < i)%nat → f64_leb roll (cumulative f.(Variants) j) = false) ∨
   (selectVariant f bucketKey rnd = f.(DefaultValue) ∧
      ∀ j, (j < length f.(Variants))%nat → f64_leb roll (cumulative f.(Variants) j) = false)) ∧
  (bucketKey ≠ "" → ∀ rnd', selectVariant f bucketKey rnd' = selectVariant f bucketKey rnd).
Proof.
  intros roll. split; [apply variant_loop_spec|]. intros Hk rnd'. unfold selectVariant, roll_for.
  by rewrite bool_decide_false.
Qed.

(** A variant of weight zero listed first, the other has all the weight. *)
Definition demo_feature : Feature :=
  mkFeature true (Some (mkSchedule "2024-01-01T00:00:00Z" "")) "string" (AnyString "off")
    [mkVariant "off" f64_zero; mkVariant "on" (f64_of_Z 100)]
    (Some (mkRules "AND" [mkCondition "tier" OperatorEquals (AnyString "gold")])) [].

Lemma selectVariant_first_reaching_witness :
  selectVariant demo_feature "user-1" None = selectVariant demo_feature "user-1" (Some 0).
Proof. apply (selectVariant_first_reaching demo_feature "user-1" (Some 0)). done. Defined.

(** A first variant of weight zero is still served: every bucket key whose
    hash is 0 modulo 10000 gets it. *)
Theorem selectVariant_zero_weight f bucketKey rnd v vs :
  bucketKey ≠ "" → fnv64a bucketKey mod 10000 = 0 → f.(Variants) = v :: vs → v.(Weight) = f64_zero →
  selectVariant f bucketKey rnd = AnyString v.(vName).
Proof.
  intros Hk Hh Hv Hw. unfold selectVariant, roll_for. rewrite bool_decide_false by done. cbn [negb].
  rewrite Hh, Hv. cbn [variant_loop]. rewrite Hw. reflexivity.
Qed.

Lemma selectVariant_zero_weight_witness :
  selectVariant demo_feature "user-13849" None = AnyString "off".
Proof.
  apply (selectVariant_zero_weight demo_feature "user-13849" None (mkVariant "off" f64_zero)
    [mkVariant "on" (f64_of_Z 100)]); [done|vm_compute; reflexivity|reflexivity|reflexivity].
Defined.

(** ** A validated feature *)

Section evaluation.
Context (parse : string → option Z).

(** The instant is inside the window; a missing bound leaves that side open. *)
Definition in_window (schedule : option Schedule) (now : Z) : Prop :=
  ∀ s, schedule = Some s →
    (s.(Start) ≠ "" → ∃ t, parse s.(Start) = Some t ∧ t <= now) ∧
    (s.(End) ≠ "" → ∃ t, parse s.(End) = Some t ∧ now <= t).

(** The gates a feature passes before a variant is chosen. *)
Definition gates_open (f : Feature) (o : EvaluationOptions) (now : Z) (rnd : option Z) : Prop :=
  f.(Enabled) = true ∧ in_window f.(fSchedule) now ∧ isRolloutEligible f.(Rollouts) o rnd = true ∧
  ∀ r, f.(fRules) = Some r → r.(Conditions) ≠ [] → rules_hold r.(Conditions) r.(Conjunction) o.(RuleContext).

(** One bound of a schedule. *)
Lemma parseTime_bound value (below : Z → Prop) :
  (parseTime parse value = None ∧ ¬ (value ≠ "" → ∃ t, parse value = Some t ∧ below t)) ∨
  (∃ b, parseTime parse value = Some b ∧
     ((value ≠ "" → ∃ t, parse value = Some t ∧ below t) ↔ ∀ t, b = Some t → below t)).
Proof.
  unfold parseTime. case_bool_decide as He.
  - right. exists None. split; [done|]. split; [done|]. by intros _ [].
  - destruct (parse value) as [t|]; cbn; [right|left].
    + exists (Some t). split; [done|]. split.
      * intros Hb t' [= <-]. destruct (Hb He) as (? & [= <-] & ?). done.
      * intros Hb _. exists t. auto.
    + split; [done|]. intros Hb. destruct (Hb He) as (? & [=] & _).
Qed.

Lemma isScheduleValid_spec schedule now :
  isScheduleValid parse schedule now = true ↔ in_window schedule now.
Proof.
  unfold isScheduleValid, in_window. destruct schedule as [s|]; [|split; [by intros _ ? [=]|done]].
  destruct (parseTime_bound s.(Start) (λ t, t <= now)) as [[-> Hno]|(a & -> & Ha)].
  { split; [done|]. intros Hw. by destruct Hno, (Hw s eq_refl). }
  destruct (parseTime_bound s.(End) (λ t, now <= t)) as [[-> Hno]|(b & -> & Hb)].
  { split; [done|]. intros Hw. by destruct Hno, (Hw s eq_refl). }
  transitivity ((∀ t, a = Some t → t <= now) ∧ ∀ t, b = Some t → now <= t).
  - destruct a as [a|], b as [b|]; cbn; rewrite ?orb_false_r;
      repeat match goal with |- context [?x <? ?y] => destruct (Z.ltb_spec x y) end; cbn;
      split; try done; try (by intros _; split; intros ? [= <-]);
      intros [H1 H2]; try (specialize (H1 _ eq_refl)); try (specialize (H2 _ eq_refl)); lia.
  - rewrite <-Ha, <-Hb. split; [by intros ? ? [= <-]|auto].
Qed.

Lemma rules_pass_spec f o :
  (∀ r, f.(fRules) = Some r → scalar_context r.(Conditions) o.(RuleContext)) →
  ∃ b, rules_pass f o = Ret b ∧
    (b = true ↔ ∀ r, f.(fRules) = Some r → r.(Conditions) ≠ [] →
       rules_hold r.(Conditions) r.(Conjunction) o.(RuleContext)).
Proof.
  intros Hctx. unfold rules_pass. destruct (fRules f) as [r|]; [|by exists true].
  case_decide as He; [exists true; split; [done|]; naive_solver|].
  destruct (evaluateConditions_spec (Conditions r) (Conjunction r) (RuleContext o)) as (b & E & Hiff); [auto|].
  exists b. split; [done|]. rewrite Hiff. naive_solver.
Qed.

Lemma validations_loop_spec entries attributes :
  validations_loop parse entries attributes = Ret None →
  ∀ name f, (name, f) ∈ entries → validateFeature parse f attributes = Ret None.
Proof.
  induction entries as [|[n g] entries IH]; cbn; intros Hv name f Hin; [by apply elem_of_nil in Hin|].
  destruct (validateFeature parse g attributes) as [[e|]|w] eqn:E; cbn in Hv; try done.
  apply elem_of_cons in Hin as [[= -> ->]|Hin]; [done|]. by apply (IH Hv name).
Qed.

(** What validation guarantees to the evaluation. *)
Lemma validateFeature_rules f attributes r :
  validateFeature parse f attributes = Ret None → f.(fRules) = Some r → r.(Conditions) ≠ [] →
  r.(Conjunction) = ConjunctionAnd ∨ r.(Conjunction) = ConjunctionOr.
Proof.
  unfold validateFeature. intros Hv Hr Hne. rewrite Hr in Hv. unfold validateRules in Hv.
  destruct (validateDatatype _); [done|]. destruct (match fSchedule f with Some _ => _ | None => _ end); [done|].
  destruct (match Variants f with [] => _ | _ :: _ => _ end); [done|].
  destruct (Conditions r) as [|c cs] eqn:Ec; [done|]. cbn [negb andb] in Hv.
  destruct (bool_decide (Conjunction r = "")) eqn:Eb; [done|]. apply bool_decide_eq_false in Eb. cbn in Hv.
  unfold inList in Hv. case_bool_decide as Hin; cbn in Hv; [|done].
  apply elem_of_cons in Hin as [?|Hin]; [by left|].
  apply elem_of_cons in Hin as [?|Hin]; [by right|]. by apply list_elem_of_singleton in Hin.
Qed.

(** (C13) Serving a validated configuration: for every feature of a configuration
    that passed content validation and a context of scalar values, evaluation
    returns without error; when the feature is enabled, the clock is inside its
    schedule window, its rollout admits the caller and its rules hold, the value is
    the selected variant, and otherwise the default value. Rules that passed
    validation are conjunctions or disjunctions of their conditions. *)
Theorem GetFeatureValue_validated cfg order key f o now rnd1 rnd2 :
  order ≡ₚ map_to_list cfg.(Features) → applyContentValidations parse cfg order = Ret None →
  cfg.(Features) !! key = Some f →
  (∀ r, f.(fRules) = Some r → scalar_context r.(Conditions) o.(RuleContext)) →
  ∃ v, GetFeatureValue parse (Some cfg) key o now rnd1 rnd2 = Ret (Ok v) ∧
    (gates_open f o now rnd1 → v = selectVariant f o.(EvaluationBucketKey) rnd2) ∧
    (¬ gates_open f o now rnd1 → v = f.(DefaultValue)) ∧
    ∀ r, f.(fRules) = Some r → r.(Conditions) ≠ [] →
      r.(Conjunction) = ConjunctionAnd ∨ r.(Conjunction) = ConjunctionOr.
Proof.
  intros Ho Hval Hf Hctx.
  assert (validateFeature parse f (fcAttributes cfg) = Ret None) as Hvf.
  { apply (validations_loop_spec order _ Hval key). by rewrite Ho, elem_of_map_to_list. }
  pose proof (λ r, validateFeature_rules f _ r Hvf) as Hrules.
  pose proof (isScheduleValid_spec (fSchedule f) now) as Hsched.
  destruct (rules_pass_spec f o Hctx) as (b & Eb & Hb).
  unfold GetFeatureValue. rewrite Hf, Eb. unfold isFeatureActive, gates_open.
  destruct (Enabled f); cbn [negb]; [|eexists; split_and!; naive_solver].
  destruct (isScheduleValid parse (fSchedule f) now); cbn [negb]; [|eexists; split_and!; naive_solver].
  destruct (isRolloutEligible (Rollouts f) o rnd1); cbn [negb]; [|eexists; split_and!; naive_solver].
  destruct b; eexists; split_and!; naive_solver.
Qed.
End evaluation.

Definition demo_parse (s : string) : option Z := if bool_decide (s = "2024-01-01T00:00:00Z") then Some 100 else None.
Definition demo_config : FeatureConfig := mkFeatureConfig None {[ "search" := demo_feature ]}.

Lemma GetFeatureValue_validated_witness :
  ∃ v, GetFeatureValue demo_parse (Some demo_config) "search"
    (mkEvaluationOptions "web" "prod" "eu" "user-1" {[ "tier" := AnyString "gold" ]}) 150 None None = Ret (Ok v) ∧
    v = AnyString "on".
Proof.
  destruct (GetFeatureValue_validated demo_parse demo_config (map_to_list demo_config.(Features)) "search"
    demo_feature (mkEvaluationOptions "web" "prod" "eu" "user-1" {[ "tier" := AnyString "gold" ]}) 150 None None)
    as (v & E & H1 & _); [done|vm_compute; reflexivity|done| |].
  { intros r [= <-]. constructor; [reflexivity|constructor]. }
  exists v. split; [exact E|]. rewrite H1; [vm_compute; reflexivity|].
  split_and!; [done| |done|].
  - intros s [= <-]. split; intros Hne; [exists 100; split; [reflexivity|lia]|by destruct Hne].
  - intros r [= <-] _. right. split; [reflexivity|]. constructor; [reflexivity|constructor].
Defined.
