(* ===== verification/Backoff.v ===== *)
(** * Retry with exponential backoff ([src/coordination/backoff/exponential.go])

    The retry loop and its configuration. What the retried function answers on each
    attempt and whether the caller's context is cancelled while waiting after it are
    functions of the attempt number; [math.Pow] and the random source are arguments
    of the delay computation. Logging is not modelled; the calls of the metrics hook
    are recorded. *)

From Stdlib Require Import ZArith Lia Floats.SpecFloat.
From S2P Require Import Prelude GoValue.
Local Open Scope Z_scope.

Section backoff.
Context {V E : Type}.

(** [DelayUsed] as [getDelay] gives it. *)
Record RetryContext := mkRetryContext { Attempt : Z; DelayUsed : option Z; RError : E }.

Record Backoff := mkBackoff {
  MinDelay : Z;
  MaxDelay : Z;
  MaxRetries : Z;
  Factor : float64;
  Jitter : bool;
  PerAttemptTimeout : Z;
  RetryIf : option (E → bool);
  Metrics : bool;                     (* is a hook installed? *)
  Strategy : option (Z → Z);
  Deterministic : bool
}.

Definition MinimumDelay : Z := 100 * 10 ^ 6.
Definition MaximumDelay : Z := 10 * 10 ^ 9.
Definition MaximumRetries : Z := 5.
Definition ExponentialFactor : float64 := f64_of_Z 2.
Definition DeterministicJitter : bool := true.

(** ** Options *)

Definition Option : Type := Backoff → Backoff.

Definition WithMinDelay (d : Z) : Option := λ b,
  mkBackoff d b.(MaxDelay) b.(MaxRetries) b.(Factor) b.(Jitter) b.(PerAttemptTimeout) b.(RetryIf) b.(Metrics) b.(Strategy) b.(Deterministic).
Definition WithMaxDelay (d : Z) : Option := λ b,
  mkBackoff b.(MinDelay) d b.(MaxRetries) b.(Factor) b.(Jitter) b.(PerAttemptTimeout) b.(RetryIf) b.(Metrics) b.(Strategy) b.(Deterministic).
Definition WithMaxRetries (n : Z) : Option := λ b,
  mkBackoff b.(MinDelay) b.(MaxDelay) n b.(Factor) b.(Jitter) b.(PerAttemptTimeout) b.(RetryIf) b.(Metrics) b.(Strategy) b.(Deterministic).
Definition WithFactor (f : float64) : Option := λ b,
  mkBackoff b.(MinDelay) b.(MaxDelay) b.(MaxRetries) f b.(Jitter) b.(PerAttemptTimeout) b.(RetryIf) b.(Metrics) b.(Strategy) b.(Deterministic).
Definition WithJitter (enabled : bool) : Option := λ b,
  mkBackoff b.(MinDelay) b.(MaxDelay) b.(MaxRetries) b.(Factor) enabled b.(PerAttemptTimeout) b.(RetryIf) b.(Metrics) b.(Strategy) b.(Deterministic).
Definition WithPerAttemptTimeout (timeout : Z) : Option := λ b,
  mkBackoff b.(MinDelay) b.(MaxDelay) b.(MaxRetries) b.(Factor) b.(Jitter) timeout b.(RetryIf) b.(Metrics) b.(Strategy) b.(Deterministic).
Definition WithRetryIf (predicate : option (E → bool)) : Option := λ b,
  mkBackoff b.(MinDelay) b.(MaxDelay) b.(MaxRetries) b.(Factor) b.(Jitter) b.(PerAttemptTimeout) predicate b.(Metrics) b.(Strategy) b.(Deterministic).
Definition WithMetrics (installed : bool) : Option := λ b,
  mkBackoff b.(MinDelay) b.(MaxDelay) b.(MaxRetries) b.(Factor) b.(Jitter) b.(PerAttemptTimeout) b.(RetryIf) installed b.(Strategy) b.(Deterministic).
Definition WithDelayStrategy (strategy : option (Z → Z)) : Option := λ b,
  mkBackoff b.(MinDelay) b.(MaxDelay) b.(MaxRetries) b.(Factor) b.(Jitter) b.(PerAttemptTimeout) b.(RetryIf) b.(Metrics) strategy b.(Deterministic).
Definition WithDeterministic (enabled : bool) : Option := λ b,
  mkBackoff b.(MinDelay) b.(MaxDelay) b.(MaxRetries) b.(Factor) b.(Jitter) b.(PerAttemptTimeout) b.(RetryIf) b.(Metrics) b.(Strategy) enabled.

Definition NewBackoff (opts : list Option) : Backoff :=
  foldl (λ b opt, opt b)
    (mkBackoff MinimumDelay MaximumDelay MaximumRetries ExponentialFactor DeterministicJitter 0 None false None false)
    opts.

(** ** Delays *)

(** The eight random bytes as an integer, [None] when the source fails. *)
Definition cryptoFloat64 (rnd : option Z) : float64 :=
  match rnd with
  | None => f64_of_Z 1
  | Some u => f64_div (f64_of_Z u) (f64_of_Z maxUint64)
  end.

Definition randFloat (b : Backoff) (rnd : option Z) : float64 :=
  if b.(Deterministic) then f64_of_Z 1 else cryptoFloat64 rnd.

(** Converting a float to a duration truncates; a float that is not finite has no
    defined conversion, [None]. *)
Definition getDelay (pow : float64 → float64 → float64) (b : Backoff) (attempt : Z) (rnd : option Z)
    : option Z :=
  match b.(Strategy) with
  | Some strategy => Some (strategy attempt)
  | None =>
      let delay := f64_mul (f64_of_Z b.(MinDelay)) (pow b.(Factor) (f64_of_Z (attempt - 1))) in
      let delay :=
        if b.(Jitter) then
          let jitter := f64_add (f64_div (f64_of_Z 3) (f64_of_Z 4))
                          (f64_mul (randFloat b rnd) (f64_div (f64_of_Z 1) (f64_of_Z 2))) in
          f64_mul delay jitter
        else delay in
      let delay := if f64_ltb (f64_of_Z b.(MaxDelay)) delay then f64_of_Z b.(MaxDelay) else delay in
      f64_trunc delay
  end.

(** ** The retry loop *)

(** What a call of the function gives. *)
Record answer := mkAnswer { aValue : V; aErr : option E }.

Inductive retry_result :=
  | Returned (v : V)                  (* (val, nil) *)
  | Refused (v : V) (e : E)           (* (val, err): not retryable *)
  | ContextDone                       (* (nil, ctx.Err()) *)
  | ErrMaxRetriesExceeded.            (* (nil, ErrMaxRetriesExceeded) *)

Definition retryable (b : Backoff) (e : E) : bool :=
  match b.(RetryIf) with
  | None => true
  | Some p => p e
  end.

Context (pow : float64 → float64 → float64).

(** [answers i], [rnds i] and [cancelled i]: the result of attempt [i], the random
    read after it and whether the context ends during the wait. The loop
    returns the result, the number of calls of the function and the metrics
    calls; [fuel] is the number of attempts left. *)
Fixpoint Retry_loop (fuel : nat) (b : Backoff) (answers : Z → answer) (rnds : Z → option Z) (cancelled : Z → bool)
    (attempt : Z) (metrics : list RetryContext) : retry_result * Z * list RetryContext :=
  match fuel with
  | O => (ErrMaxRetriesExceeded, attempt, metrics)
  | S fuel =>
      let a := answers attempt in
      match a.(aErr) with
      | None => (Returned a.(aValue), attempt + 1, metrics)
      | Some e =>
          if negb (retryable b e) then (Refused a.(aValue) e, attempt + 1, metrics)
          else if attempt <? b.(MaxRetries) then
            let metrics := if b.(Metrics) then metrics ++ [mkRetryContext (attempt + 1) (getDelay pow b (attempt + 1) (rnds attempt)) e]
                           else metrics in
            if cancelled attempt then (ContextDone, attempt + 1, metrics)
            else Retry_loop fuel b answers rnds cancelled (attempt + 1) metrics
          else Retry_loop fuel b answers rnds cancelled (attempt + 1) metrics
      end
  end.

Definition Retry (b : Backoff) (answers : Z → answer) (rnds : Z → option Z) (cancelled : Z → bool)
    : retry_result * Z * list RetryContext :=
  Retry_loop (Z.to_nat (b.(MaxRetries) + 1)) b answers rnds cancelled 0 [].

(** ** What the loop does *)

(** How attempt [i] ends the loop, if it does. *)
Definition ends (b : Backoff) (answers : Z → answer) (cancelled : Z → bool) (i : Z) : option retry_result :=
  match (answers i).(aErr) with
  | None => Some (Returned (answers i).(aValue))
  | Some e =>
      if negb (retryable b e) then Some (Refused (answers i).(aValue) e)
      else if (i <? b.(MaxRetries)) && cancelled i then Some ContextDone
      else None
  end.

Lemma Retry_loop_stop fuel b answers rnds cancelled attempt metrics r :
  ends b answers cancelled attempt = Some r →
  ∃ m, Retry_loop (S fuel) b answers rnds cancelled attempt metrics = (r, attempt + 1, metrics ++ m) ∧
    (length m <= 1)%nat.
Proof.
  unfold ends. cbn [Retry_loop]. intros Ee.
  assert (∃ m, (r, attempt + 1, metrics) = (r, attempt + 1, metrics ++ m) ∧ (length m <= 1)%nat) as Hnil
    by (exists []; rewrite app_nil_r; split; [done|cbn; lia]).
  destruct (aErr (answers attempt)) as [e|]; [|by simplify_eq].
  destruct (negb (retryable b e)); [by simplify_eq|]. destruct (attempt <? MaxRetries b); [|done].
  cbn in Ee. destruct (cancelled attempt); simplify_eq. destruct (Metrics b); [by eexists|done].
Qed.

Lemma Retry_loop_continue fuel b answers rnds cancelled attempt metrics :
  ends b answers cancelled attempt = None →
  ∃ m, Retry_loop (S fuel) b answers rnds cancelled attempt metrics =
      Retry_loop fuel b answers rnds cancelled (attempt + 1) (metrics ++ m) ∧ (length m <= 1)%nat.
Proof.
  unfold ends. cbn [Retry_loop]. intros Ee.
  destruct (aErr (answers attempt)) as [e|]; [|done]. destruct (negb (retryable b e)); [done|].
  destruct (attempt <? MaxRetries b); [|exists []; rewrite app_nil_r; split; [done|cbn; lia]].
  cbn in Ee. destruct (cancelled attempt); [done|].
  destruct (Metrics b); [by eexists|]. exists []. rewrite app_nil_r. split; [done|cbn; lia].
Qed.

Lemma Retry_loop_spec fuel b answers rnds cancelled attempt metrics :
  0 <= attempt →
  (∃ i r, attempt <= i < attempt + Z.of_nat fuel ∧ ends b answers cancelled i = Some r ∧
     (∀ j, attempt <= j < i → ends b answers cancelled j = None) ∧
     ∃ extra, Retry_loop fuel b answers rnds cancelled attempt metrics = (r, i + 1, metrics ++ extra) ∧
       Z.of_nat (length extra) <= i - attempt + 1) ∨
  ((∀ j, attempt <= j < attempt + Z.of_nat fuel → ends b answers cancelled j = None) ∧
     ∃ extra, Retry_loop fuel b answers rnds cancelled attempt metrics =
       (ErrMaxRetriesExceeded, attempt + Z.of_nat fuel, metrics ++ extra) ∧
       Z.of_nat (length extra) <= Z.of_nat fuel).
Proof.
  revert attempt metrics. induction fuel as [|fuel IH]; intros attempt metrics Ha.
  { right. split; [lia|]. exists []. cbn. rewrite app_nil_r. split; [|lia]. do 2 f_equal. lia. }
  destruct (ends b answers cancelled attempt) as [r|] eqn:Ee.
  - left. exists attempt, r. split_and!; [lia|lia|done|lia|].
    destruct (Retry_loop_stop fuel b answers rnds cancelled attempt metrics r Ee) as (m & -> & Hm).
    exists m. split; [done|lia].
  - destruct (Retry_loop_continue fuel b answers rnds cancelled attempt metrics Ee) as (m & -> & Hm).
    destruct (IH (attempt + 1) (metrics ++ m)) as [(i & r & Hi & Hr & Hj & extra & EL & Hl)|(Hj & extra & EL & Hl)];
      [lia|left|right].
    + exists i, r. split_and!; [lia|lia|done| |].
      * intros j Hlt. destruct (decide (j = attempt)) as [->|]; [done|]. apply Hj. lia.
      * exists (m ++ extra). rewrite EL, app_assoc, length_app. split; [done|lia].
    + split.
      * intros j Hlt. destruct (decide (j = attempt)) as [->|]; [done|]. apply Hj. lia.
      * exists (m ++ extra). rewrite EL, app_assoc, length_app. split; [|lia]. do 2 f_equal. lia.
Qed.

(** Bounded retries: the loop always ends, after at most [MaxRetries + 1]
    calls. It stops at the first attempt that succeeds, fails with an error the
    predicate does not retry, or is followed by a cancelled wait, returning that
    attempt's outcome; if there is none among the [MaxRetries + 1] attempts it
    has made them all and reports exhaustion. With a negative [MaxRetries] the
    function is never called. *)
Theorem Retry_spec b answers rnds cancelled :
  let '(r, calls, metrics) := Retry b answers rnds cancelled in
  0 <= calls <= Z.max 0 (b.(MaxRetries) + 1) ∧
  Z.of_nat (length metrics) <= calls ∧
  ((∃ i, calls = i + 1 ∧ 0 <= i <= b.(MaxRetries) ∧ ends b answers cancelled i = Some r ∧
      ∀ j, 0 <= j < i → ends b answers cancelled j = None) ∨
   (r = ErrMaxRetriesExceeded ∧ calls = Z.max 0 (b.(MaxRetries) + 1) ∧
      ∀ j, 0 <= j <= b.(MaxRetries) → ends b answers cancelled j = None)).
Proof.
  unfold Retry. set (n := Z.to_nat (MaxRetries b + 1)).
  assert (Z.of_nat n = Z.max 0 (MaxRetries b + 1)) as Hn by lia.
  destruct (Retry_loop_spec n b answers rnds cancelled 0 []) as
    [(i & r & Hi & Hr & Hj & extra & -> & Hl)|(Hj & extra & -> & Hl)]; [lia| |]; cbn.
  - split_and!; [lia|lia|lia|]. left. exists i. split_and!; [done|lia|lia|done|done].
  - split_and!; [lia|lia|lia|]. right. split_and!; [done|lia|]. intros j Hlt. apply Hj. lia.
Qed.
End backoff.

(** Two failures, then success. *)
Example Retry_example :
  Retry (V:=Z) (E:=string) (λ _ _, f64_of_Z 1) (NewBackoff [WithMaxRetries 3; WithMetrics true; WithJitter false])
    (λ i, if i <? 2 then mkAnswer 0 (Some "busy"%string) else mkAnswer 7 None) (λ _, None) (λ _, false) =
    (Returned 7, 3, [mkRetryContext 1 (Some MinimumDelay) "busy"%string;
                     mkRetryContext 2 (Some MinimumDelay) "busy"%string]).
Proof. vm_compute. reflexivity. Qed.
