(* ===== verification/SqlText.v ===== *)
(** * Text operations of the SQL helpers

    Go strings are byte sequences, here lists of [ascii]. This file models what the
    query builders of [src/storage/postgres/pghelper.go] and
    [src/storage/mysql/helper.go] use of the packages [strings], [strconv] and
    [sort], with the lemmas both developments share. *)

From Stdlib Require Import ZArith Lia Ascii.
From stdpp Require Import pretty sorting.
From S2P Require Import Prelude GoValue.
Local Open Scope Z_scope.

Abbreviation text := (list ascii).
Definition str (s : string) : text := String.list_ascii_of_string s.
Coercion str : string >-> list.
Arguments str !_ /.

Definition char (n : nat) : ascii := ascii_of_nat n.
Definition char_dot : ascii := char 46.
Definition char_mark : ascii := char 63.     (* ? *)
Definition char_colon : ascii := char 58.
Definition char_dollar : ascii := char 36.
Definition char_quote : ascii := char 39.
Definition char_dquote : ascii := char 34.
Definition char_backtick : ascii := char 96.

(** [lo <= c && c <= hi] on bytes. *)
Definition between (lo hi : Z) (c : ascii) : bool :=
  (lo <=? byte_of_ascii c) && (byte_of_ascii c <=? hi).

Definition isLetter (c : ascii) : bool := between 97 122 c || between 65 90 c.
Definition isDigit (c : ascii) : bool := between 48 57 c.

(** Letters, digits and the underscore. *)
Definition isWordChar (c : ascii) : bool := isLetter c || isDigit c || bool_decide (c = char 95).

(** ** [strings.TrimSpace]

    The UTF-8 encodings of the code points [unicode.IsSpace] accepts. *)
Definition space_encodings : list text :=
  (map char) <$>
    ([[9]; [10]; [11]; [12]; [13]; [32]; [194; 133]; [194; 160]; [225; 154; 128]] ++
     ((λ n, [226; 128; n]) <$> [128; 129; 130; 131; 132; 133; 134; 135; 136; 137; 138; 168; 169; 175]) ++
     [[226; 129; 159]; [227; 128; 128]])%nat.

Fixpoint strip_prefix (p s : text) : option text :=
  match p, s with
  | [], s => Some s
  | c :: p, d :: s => if bool_decide (c = d) then strip_prefix p s else None
  | _ :: _, [] => None
  end.

(** The first of [ps] that is a prefix of [s] is dropped. *)
Fixpoint strip_any (ps : list text) (s : text) : option text :=
  match ps with
  | [] => None
  | p :: ps => match strip_prefix p s with Some s' => Some s' | None => strip_any ps s end
  end.

Fixpoint trim_start (fuel : nat) (ps : list text) (s : text) : text :=
  match fuel with
  | O => s
  | S fuel => match strip_any ps s with Some s' => trim_start fuel ps s' | None => s end
  end.

Definition TrimSpace (s : text) : text :=
  let s := trim_start (length s) space_encodings s in
  reverse (trim_start (length s) (map reverse space_encodings) (reverse s)).

(** ** [strings.Split] on one byte, [strings.Join], [strings.Count], [strings.Replace] *)

Fixpoint Split (s : text) (sep : ascii) : list text :=
  match s with
  | [] => [[]]
  | c :: s =>
      if bool_decide (c = sep) then [] :: Split s sep
      else match Split s sep with
           | [] => [[c]]
           | part :: parts => (c :: part) :: parts
           end
  end.

Fixpoint Join (parts : list text) (sep : text) : text :=
  match parts with
  | [] => []
  | [part] => part
  | part :: parts => part ++ sep ++ Join parts sep
  end.

(** Occurrences of a single byte. *)
Definition Count (s : text) (c : ascii) : Z := Z.of_nat (length (filter (λ d, d = c) s)).

Definition HasPrefix (s p : text) : bool :=
  match strip_prefix p s with Some _ => true | None => false end.

(** [strings.Replace(s, old, new, 1)] for a non-empty [old]. *)
Fixpoint Replace1 (s old new : text) : text :=
  match strip_prefix old s with
  | Some rest => new ++ rest
  | None => match s with [] => [] | c :: s => c :: Replace1 s old new end
  end.

(** ** [strconv.Itoa] and [sort.Strings] *)

Definition Itoa (n : Z) : text := str (pretty n).

Fixpoint text_leb (s t : text) : bool :=
  match s, t with
  | [], _ => true
  | _ :: _, [] => false
  | c :: s, d :: t =>
      if byte_of_ascii c <? byte_of_ascii d then true
      else if byte_of_ascii d <? byte_of_ascii c then false
      else text_leb s t
  end.

(** The order of Go strings. *)
Definition text_le (s t : text) : Prop := text_leb s t = true.
#[export] Instance text_le_dec s t : Decision (text_le s t).
Proof. unfold text_le. apply _. Defined.

Definition Strings (keys : list text) : list text := merge_sort text_le keys.

(** The longest prefix of bytes that satisfy [p]. *)
Fixpoint take_while (p : ascii → bool) (s : text) : text :=
  match s with
  | [] => []
  | c :: s => if p c then c :: take_while p s else []
  end.

(** [strings.TrimSuffix(s, c)] for one byte. *)
Definition TrimSuffix (s : text) (c : ascii) : text :=
  match last s with
  | Some d => if bool_decide (d = c) then removelast s else s
  | None => s
  end.

(** ** IN clauses and map values, which both helpers build alike *)

(** [fmt.Sprintf(":%s%d", columnName, i+1)] *)
Definition in_key (columnName : text) (i : Z) : text := ":" ++ columnName ++ Itoa (i + 1).

Fixpoint in_clause_loop (columnName : text) (values : list any) (i : Z) (b : text) (m : gmap text any)
    : text * gmap text any :=
  match values with
  | [] => (b, m)
  | v :: values =>
      let key := in_key columnName i in
      in_clause_loop columnName values (i + 1) (b ++ key ++ ",") (<[key := v]> m)
  end.

(** [data[col]] *)
Definition column_value (data : list (text * any)) (col : text) : any :=
  default AnyNil ((list_to_map data : gmap text any) !! col).

(** ** Lemmas *)

Lemma byte_of_ascii_inj c d : byte_of_ascii c = byte_of_ascii d → c = d.
Proof.
  unfold byte_of_ascii. intros E. apply N2Z.inj in E.
  rewrite <-(ascii_N_embedding c), <-(ascii_N_embedding d). by rewrite E.
Qed.

Lemma text_leb_total s t : text_leb s t = true ∨ text_leb t s = true.
Proof.
  revert t. induction s as [|c s IH]; intros [|d t]; cbn; [by left|by left|by right|].
  destruct (Z.ltb_spec (byte_of_ascii c) (byte_of_ascii d)); [by left|].
  destruct (Z.ltb_spec (byte_of_ascii d) (byte_of_ascii c)); [by right|]. apply IH.
Qed.

Lemma text_leb_trans s t u : text_leb s t = true → text_leb t u = true → text_leb s u = true.
Proof.
  revert t u. induction s as [|c s IH]; intros [|d t] [|e u]; cbn; try done.
  repeat match goal with |- context [?a <? ?b] => destruct (Z.ltb_spec a b) end; try done; try lia; eauto.
Qed.

Lemma text_leb_antisym s t : text_leb s t = true → text_leb t s = true → s = t.
Proof.
  revert t. induction s as [|c s IH]; intros [|d t]; cbn; try done.
  repeat match goal with |- context [?a <? ?b] => destruct (Z.ltb_spec a b) end; try done; try lia.
  intros. f_equal; [apply byte_of_ascii_inj; lia|eauto].
Qed.

#[export] Instance text_le_total : Total text_le.
Proof. intros s t. apply text_leb_total. Qed.
#[export] Instance text_le_trans : Transitive text_le.
Proof. intros s t u. apply text_leb_trans. Qed.
#[export] Instance text_le_antisymm : AntiSymm eq text_le.
Proof. intros s t. apply text_leb_antisym. Qed.

Lemma Strings_perm keys : Strings keys ≡ₚ keys.
Proof. apply merge_sort_Permutation. Qed.

(** The sorted keys do not depend on the order in which the map was iterated. *)
#[export] Instance Strings_Permutation : Proper ((≡ₚ) ==> eq) Strings.
Proof.
  intros k k' E. apply (StronglySorted_unique text_le).
  - apply (StronglySorted_merge_sort text_le).
  - apply (StronglySorted_merge_sort text_le).
  - by rewrite (Strings_perm k), (Strings_perm k').
Qed.

Lemma Split_nonempty s sep : Split s sep ≠ [].
Proof. destruct s as [|c s]; cbn; [done|]. case_bool_decide; [done|]. by destruct (Split s sep). Qed.

Lemma Join_cons part parts sep :
  parts ≠ [] → Join (part :: parts) sep = part ++ sep ++ Join parts sep.
Proof. by destruct parts. Qed.

Lemma Join_Split s sep : Join (Split s sep) [sep] = s.
Proof.
  induction s as [|c s IH]; cbn [Split]; [done|]. case_bool_decide as E.
  - rewrite Join_cons by apply Split_nonempty. rewrite IH. cbn. by rewrite E.
  - destruct (Split s sep) as [|part parts] eqn:Es; [by destruct (Split_nonempty s sep)|].
    rewrite <-IH. by destruct parts.
Qed.

(** Splitting gives separator-free parts and undoes joining such parts. *)
Lemma Split_no_sep s sep : Forall (λ part, sep ∉ part) (Split s sep).
Proof.
  induction s as [|c s IH]; cbn [Split]; [constructor; [set_solver|done]|]. case_bool_decide.
  - constructor; [set_solver|done].
  - destruct (Split s sep) as [|part parts]; [constructor; [set_solver|done]|].
    inversion IH; subst. constructor; [set_solver|done].
Qed.

Lemma Split_single part sep : sep ∉ part → Split part sep = [part].
Proof.
  induction part as [|c part IH]; cbn [Split]; intros Hn; [done|].
  rewrite bool_decide_eq_false_2 by set_solver. by rewrite IH by set_solver.
Qed.

Lemma Split_app part s sep : sep ∉ part → Split (part ++ sep :: s) sep = part :: Split s sep.
Proof.
  induction part as [|c part IH]; cbn [Split app]; intros Hn; [by rewrite bool_decide_eq_true_2|].
  rewrite bool_decide_eq_false_2 by set_solver. by rewrite IH by set_solver.
Qed.

Lemma Split_Join parts sep :
  parts ≠ [] → Forall (λ part, sep ∉ part) parts → Split (Join parts [sep]) sep = parts.
Proof.
  induction parts as [|part parts IH]; [done|]. intros _ [Hp Hps]%Forall_cons.
  destruct parts as [|q qs]; [by apply Split_single|].
  rewrite Join_cons by done. cbn [app]. rewrite Split_app by done. by rewrite IH.
Qed.

Lemma strip_prefix_Some p s s' : strip_prefix p s = Some s' ↔ s = p ++ s'.
Proof.
  revert s. induction p as [|c p IH]; intros [|d s]; cbn; try naive_solver.
  case_bool_decide as E; [rewrite IH; naive_solver|naive_solver].
Qed.

Lemma HasPrefix_true s p : HasPrefix s p = true ↔ ∃ s', s = p ++ s'.
Proof.
  unfold HasPrefix. destruct (strip_prefix p s) as [s'|] eqn:E.
  - apply strip_prefix_Some in E. naive_solver.
  - split; [done|]. intros [s' E']. apply strip_prefix_Some in E'. congruence.
Qed.

(** Only digits (and a sign) are printed. *)
Lemma pretty_N_char_digit d : isDigit (pretty_N_char (d `mod` 10)%N) = true.
Proof.
  assert (d `mod` 10 < 10)%N as Hd by (apply N.mod_upper_bound; done).
  revert Hd. generalize (d `mod` 10)%N. intros x Hx.
  destruct x as [|p]; [done|]. do 4 (destruct p as [p|p|]; try done; try lia).
Qed.

Lemma pretty_N_go_digits n s :
  Forall (λ c, isDigit c = true) (str s) → Forall (λ c, isDigit c = true) (str (pretty_N_go n s)).
Proof.
  revert s. induction n as [n IH] using (well_founded_ind N.lt_wf_0). intros s Hs.
  destruct (decide (n = 0)%N) as [->|Hn]; [by rewrite pretty_N_go_0|].
  rewrite pretty_N_go_step by lia. apply IH; [apply N.div_lt; lia|].
  cbn. constructor; [apply pretty_N_char_digit|done].
Qed.

Lemma Itoa_digits n : 0 <= n → Forall (λ c, isDigit c = true) (Itoa n).
Proof.
  intros Hn. unfold Itoa. destruct n as [|p|p]; [|cbn|lia].
  - repeat constructor.
  - unfold pretty, pretty_N. cbn. by apply pretty_N_go_digits.
Qed.

Lemma pretty_N_go_nonempty n s : s ≠ "" → pretty_N_go n s ≠ "".
Proof.
  revert s. induction n as [n IH] using (well_founded_ind N.lt_wf_0). intros s Hs.
  destruct (decide (n = 0)%N) as [->|Hn]; [by rewrite pretty_N_go_0|].
  rewrite pretty_N_go_step by lia. apply IH; [apply N.div_lt; lia|done].
Qed.

Lemma Itoa_nonempty n : Itoa n ≠ [].
Proof.
  intros E. assert (pretty n = "") as E' by (unfold Itoa in E; by destruct (pretty n)).
  destruct n as [|p|p]; [done| |done]. change (pretty_N_go (Npos p) "" = "") in E'.
  rewrite pretty_N_go_step in E' by lia. by apply pretty_N_go_nonempty in E'.
Qed.

Lemma str_inj s t : str s = str t → s = t.
Proof.
  intros E. rewrite <-(String.string_of_list_ascii_of_string s), <-(String.string_of_list_ascii_of_string t).
  unfold str in E. by rewrite E.
Qed.

Lemma Itoa_inj m n : Itoa m = Itoa n → m = n.
Proof. intros E. apply (inj pretty), str_inj, E. Qed.

Definition starts_with (p : ascii → Prop) (s : text) : Prop := ∃ c s', s = c :: s' ∧ p c.

Definition word (w : text) : Prop := Forall (λ c, isWordChar c = true) w.

(** No occurrence of [p] starts in the first [n] bytes of [s]. *)
Definition absent_before (p : text) (n : nat) (s : text) : Prop :=
  ∀ i, (i < n)%nat → HasPrefix (drop i s) p = false.

Lemma Replace1_first pre p rest new :
  absent_before p (length pre) (pre ++ p ++ rest) → Replace1 (pre ++ p ++ rest) p new = pre ++ new ++ rest.
Proof.
  induction pre as [|c pre IH]; intros Ha.
  - assert (strip_prefix p (p ++ rest) = Some rest) as E by (by apply strip_prefix_Some).
    cbn [app]. destruct (p ++ rest) eqn:Ep; cbn [Replace1]; by rewrite E.
  - specialize (Ha 0%nat ltac:(cbn; lia)) as H0. unfold HasPrefix in H0. cbn [drop app] in H0 |- *.
    cbn [Replace1]. destruct (strip_prefix p (c :: pre ++ p ++ rest)); [done|]. f_equal. apply IH.
    intros i Hi. apply (Ha (S i)). cbn. lia.
Qed.

Lemma take_while_app w s :
  word w → ¬ starts_with (λ c, isWordChar c = true) s → take_while isWordChar (w ++ s) = w.
Proof.
  intros Hw Hs. induction Hw as [|c w Hc _ IH]; cbn.
  - destruct s as [|c s]; [done|]. cbn. destruct (isWordChar c) eqn:E; [|done]. destruct Hs. by repeat eexists.
  - by rewrite Hc, IH.
Qed.

Lemma word_split (s : text) :
  ∃ w rest, s = w ++ rest ∧ word w ∧ ¬ starts_with (λ c, isWordChar c = true) rest.
Proof.
  induction s as [|c s (w & rest & E & Hw & Hs)].
  - exists [], []. split_and!; [done|constructor|by intros (? & ? & ? & ?)].
  - destruct (isWordChar c) eqn:Hc.
    + exists (c :: w), rest. split_and!; [by rewrite E|by constructor|done].
    + exists [], (c :: s). split_and!; [done|constructor|]. intros (? & ? & [= -> ->] & ?). congruence.
Qed.

Fixpoint in_keys (col : text) (n : nat) (i : Z) : list text :=
  match n with O => [] | S n => in_key col i :: in_keys col n (i + 1) end.

Lemma in_key_inj col i j : in_key col i = in_key col j → i = j.
Proof. unfold in_key. intros E. apply app_inv_head, app_inv_head, Itoa_inj in E. lia. Qed.

Lemma elem_of_in_keys col n i k : k ∈ in_keys col n i → ∃ j, i <= j ∧ k = in_key col j.
Proof.
  revert i. induction n as [|n IH]; intros i; cbn; [by intros ?%elem_of_nil|].
  intros [->|(j & ? & ->)%IH]%elem_of_cons; [by exists i|]. exists j. split; [lia|done].
Qed.

Lemma in_keys_length col n i : length (in_keys col n i) = n.
Proof. revert i. induction n as [|n IH]; intros i; cbn; [done|by rewrite IH]. Qed.

Lemma in_keys_NoDup col n i : NoDup (in_keys col n i).
Proof.
  revert i. induction n as [|n IH]; intros i; cbn; [constructor|]. constructor; [|apply IH].
  intros (j & Hj & E%in_key_inj)%elem_of_in_keys. lia.
Qed.

Lemma TrimSuffix_Join (keys : list text) :
  Forall (λ k, k ≠ []) keys →
  TrimSuffix (concat ((λ k, k ++ str ",") <$> keys)) (char 44) = Join keys ",".
Proof.
  intros Hk. destruct keys as [|k keys]; [done|].
  assert (concat ((λ k, k ++ str ",") <$> (k :: keys)) = Join (k :: keys) "," ++ [char 44]) as ->.
  { clear Hk. revert k. induction keys as [|k' keys IH]; intros k; [cbn; by rewrite app_nil_r|].
    rewrite Join_cons by done. rewrite fmap_cons. cbn [concat]. rewrite IH. by rewrite <-!app_assoc. }
  unfold TrimSuffix. rewrite last_snoc. rewrite bool_decide_eq_true_2 by done. by rewrite removelast_last.
Qed.

Lemma in_clause_loop_text col values i b m :
  (in_clause_loop col values i b m).1 =
    b ++ concat ((λ k, k ++ str ",") <$> in_keys col (length values) i).
Proof.
  revert i b m. induction values as [|v values IH]; intros i b m; [cbn; by rewrite app_nil_r|].
  cbn [in_clause_loop length in_keys]. rewrite IH. cbn [fmap list_fmap concat]. by rewrite <-!app_assoc.
Qed.

Lemma in_clause_loop_keep col values i b m k :
  k ∉ in_keys col (length values) i → (in_clause_loop col values i b m).2 !! k = m !! k.
Proof.
  revert i b m. induction values as [|v values IH]; intros i b m; [done|]. cbn.
  intros [Hn1 Hn2]%not_elem_of_cons. by rewrite IH, lookup_insert_ne.
Qed.

Lemma in_clause_loop_values col values i b m :
  (λ k, default AnyNil ((in_clause_loop col values i b m).2 !! k)) <$> in_keys col (length values) i = values.
Proof.
  revert i b m. induction values as [|v values IH]; intros i b m; [done|]. cbn. f_equal; [|apply IH].
  rewrite in_clause_loop_keep, lookup_insert_eq; [done|].
  intros (j & Hj & E%in_key_inj)%elem_of_in_keys. lia.
Qed.

(** The values do not depend on the order of the entries. *)
Lemma column_value_perm data data' col :
  NoDup data.*1 → data ≡ₚ data' → column_value data col = column_value data' col.
Proof. intros Hn Hp. unfold column_value. by rewrite (list_to_map_proper data data'). Qed.

Example TrimSpace_example : TrimSpace (" " ++ char 9 :: " a b" ++ [char 194; char 160]) = str "a b".
Proof. reflexivity. Qed.

Example Split_example : Split "a.b." char_dot = [str "a"; str "b"; str ""].
Proof. reflexivity. Qed.

Example Strings_example : Strings [str "b"; str "ab"; str "a"] = [str "a"; str "ab"; str "b"].
Proof. reflexivity. Qed.
