(* ===== verification/Url.v ===== *)
(** * URLs and ports ([net/url], [net], [strconv])

    What the database clients use of the standard library to build the address of a
    server: percent-encoding ([url.escape] with its modes), [URL.String],
    [net.JoinHostPort], [url.PathEscape], [url.QueryEscape] and [strconv.Atoi]. Strings are
    byte sequences, as in [SqlText.v]. *)

From Stdlib Require Import ZArith Lia Ascii.
From stdpp Require Import base numbers strings list pretty.
From S2P Require Import Prelude SqlText.
Local Open Scope Z_scope.

Module Url.

(** ** Percent-encoding *)

Inductive encoding := encodePath | encodePathSegment | encodeHost | encodeUserPassword | encodeQueryComponent.
#[export] Instance encoding_eq_dec : EqDecision encoding.
Proof. solve_decision. Defined.

Definition one_of (cs : text) (c : ascii) : bool := existsb (Ascii.eqb c) cs.

(** [url.shouldEscape] *)
Definition shouldEscape (c : ascii) (mode : encoding) : bool :=
  if isLetter c || isDigit c then false
  else if bool_decide (mode = encodeHost) && one_of (char_dquote :: "!$&'()*+,;=:[]<>") c then false
  else if one_of "-_.~" c then false
  else if one_of "$&+,/:;=?@" c then
    match mode with
    | encodePath => one_of "?" c
    | encodePathSegment => one_of "/;,?" c
    | encodeUserPassword => one_of "@/?:" c
    | encodeQueryComponent | encodeHost => true
    end
  else true.

Definition char_percent : ascii := char 37.
Definition char_space : ascii := char 32.
Definition char_slash : ascii := char 47.
Definition char_at : ascii := char 64.
Definition upperhex (n : nat) : ascii := nth n (str "0123456789ABCDEF") char_percent.

Definition escape1 (mode : encoding) (c : ascii) : text :=
  if shouldEscape c mode then
    if bool_decide (c = char_space) && bool_decide (mode = encodeQueryComponent) then str "+"
    else [char_percent; upperhex (nat_of_ascii c / 16); upperhex (nat_of_ascii c mod 16)]
  else [c].

(** [url.escape] *)
Definition escape (mode : encoding) (s : text) : text := s ≫= escape1 mode.

Definition PathEscape (s : text) : text := escape encodePathSegment s.
Definition QueryEscape (s : text) : text := escape encodeQueryComponent s.

Definition unhex (c : ascii) : option nat :=
  if isDigit c then Some (nat_of_ascii c - 48)%nat
  else if between 97 102 c then Some (nat_of_ascii c - 87)%nat
  else if between 65 70 c then Some (nat_of_ascii c - 55)%nat
  else None.

(** [url.unescape] in the modes in which [+] stands for itself: how a server reads a path. *)
Fixpoint unescape (s : text) : option text :=
  match s with
  | [] => Some []
  | c :: s =>
      if Ascii.eqb c char_percent then
        match s with
        | a :: b :: rest =>
            match unhex a, unhex b with
            | Some x, Some y => cons (char (16 * x + y)) <$> unescape rest
            | _, _ => None
            end
        | _ => None
        end
      else cons c <$> unescape s
  end.

(** ** [URL.String] of a URL with a scheme *)

Record URL : Type := mkURL {
  Scheme : text;
  User : option (text * text);     (* [url.UserPassword] *)
  Host : text;
  Path : text;
  ForceQuery : bool;
  RawQuery : text;
  Fragment : text;
}.

(** [RawPath] is empty in every URL the code prints. *)
Definition EscapedPath (path : text) : text := if decide (path = str "*") then str "*" else escape encodePath path.

Definition starts_with (c : ascii) (s : text) : bool := match s with d :: _ => Ascii.eqb d c | [] => false end.

Definition Userinfo (up : text * text) : text :=
  escape encodeUserPassword up.1 ++ str ":" ++ escape encodeUserPassword up.2.

Definition String (u : URL) : text :=
  let path := EscapedPath (Path u) in
  Scheme u ++ str ":" ++
  (if bool_decide (Host u ≠ []) || bool_decide (Path u ≠ []) || bool_decide (User u ≠ None) then str "//" else []) ++
  match User u with Some up => Userinfo up ++ str "@" | None => [] end ++
  escape encodeHost (Host u) ++
  (if bool_decide (path ≠ []) && negb (starts_with char_slash path) && bool_decide (Host u ≠ []) then str "/" else []) ++
  path ++
  (if ForceQuery u || bool_decide (RawQuery u ≠ []) then str "?" ++ RawQuery u else []) ++
  (if bool_decide (Fragment u ≠ []) then str "#" ++ Fragment u else []).

(** [net.JoinHostPort] *)
Definition JoinHostPort (host port : text) : text :=
  if one_of host char_colon then str "[" ++ host ++ str "]:" ++ port else host ++ str ":" ++ port.

(** ** [strconv.Atoi] and [strconv.ParseInt(_, 10, 64)] *)

Fixpoint digits (acc : Z) (s : text) : option Z :=
  match s with
  | [] => Some acc
  | c :: s => if isDigit c then digits (10 * acc + (byte_of_ascii c - 48)) s else None
  end.

Definition Atoi (s : text) : option Z :=
  let '(neg, ds) := match s with
                    | c :: s' => if Ascii.eqb c (char 45) then (true, s')
                                 else if Ascii.eqb c (char 43) then (false, s') else (false, s)
                    | [] => (false, s)
                    end in
  match ds with
  | [] => None
  | _ => n ← digits 0 ds;
         let z := if neg : bool then - n else n in
         if (minInt64 <=? z) && (z <=? maxInt64) then Some z else None
  end.

(** ** Properties of the encoding *)

Definition all_ascii : list ascii := ascii_of_nat <$> seq 0 256.

Lemma elem_of_all_ascii c : c ∈ all_ascii.
Proof.
  unfold all_ascii. rewrite <- (ascii_nat_embedding c). apply list_elem_of_fmap_2, elem_of_seq.
  pose proof (nat_ascii_bounded c). lia.
Qed.

(** A claim about every byte is checked on the 256 of them. *)
Lemma every_byte (p : ascii → bool) : forallb p all_ascii = true → ∀ c, p c = true.
Proof.
  intros H c. rewrite forallb_forall in H. apply H, list_elem_of_In, elem_of_all_ascii.
Qed.

Definition decodes (m : encoding) (c : ascii) : bool :=
  match escape1 m c with
  | [a] => Ascii.eqb a c && negb (Ascii.eqb a char_percent)
  | [p; a; b] =>
      Ascii.eqb p char_percent &&
      match unhex a, unhex b with Some x, Some y => Ascii.eqb (char (16 * x + y)) c | _, _ => false end
  | _ => false
  end.

Lemma escape1_decodes m c : m ≠ encodeQueryComponent → decodes m c = true.
Proof. intros Hm. revert c. apply every_byte. destruct m; [by vm_compute..|done]. Qed.

Lemma unescape_escape1 m c rest :
  m ≠ encodeQueryComponent → unescape (escape1 m c ++ rest) = cons c <$> unescape rest.
Proof.
  intros Hm. pose proof (escape1_decodes m c Hm) as Hd. unfold decodes in Hd.
  destruct (escape1 m c) as [|a [|b [|d [|]]]]; try done.
  - apply andb_true_iff in Hd as [->%Ascii.eqb_eq Hp%negb_true_iff]. cbn. by rewrite Hp.
  - apply andb_true_iff in Hd as [->%Ascii.eqb_eq Hd]. cbn -[unhex].
    destruct (unhex b), (unhex d); try done. by apply Ascii.eqb_eq in Hd as <-.
Qed.

(** Decoding undoes encoding. *)
Lemma unescape_escape m s : m ≠ encodeQueryComponent → unescape (escape m s) = Some s.
Proof.
  intros Hm. induction s as [|c s IH]; [done|]. unfold escape in *. cbn [mbind list_bind].
  by rewrite unescape_escape1, IH.
Qed.

Lemma escape_inj m s t : m ≠ encodeQueryComponent → escape m s = escape m t → s = t.
Proof. intros Hm E. apply (f_equal unescape) in E. rewrite !unescape_escape in E by done. by injection E. Qed.

Lemma escape_app m s t : escape m (s ++ t) = escape m s ++ escape m t.
Proof. apply bind_app. Qed.

(** A byte no encoded byte contains. *)
Definition avoids (m : encoding) (d : ascii) : bool := forallb (λ c, negb (one_of (escape1 m c) d)) all_ascii.

Lemma one_of_spec cs c : one_of cs c = true ↔ c ∈ cs.
Proof.
  unfold one_of. rewrite existsb_exists. setoid_rewrite <- list_elem_of_In.
  split; [intros (x & Hx & ->%Ascii.eqb_eq); done|intros H; exists c; split; [done|apply Ascii.eqb_refl]].
Qed.

Lemma escape_avoids m d s : avoids m d = true → d ∉ escape m s.
Proof.
  intros H (c & Hd & _)%list_elem_of_bind. pose proof (every_byte _ H c) as Hn. cbn in Hn.
  apply one_of_spec in Hd. by rewrite Hd in Hn.
Qed.

(** Bytes that are not encoded are their own encoding. *)
Lemma escape_id m s : Forall (λ c, shouldEscape c m = false) s → escape m s = s.
Proof.
  unfold escape. induction 1 as [|c s Hc _ IH]; [done|]. cbn [mbind list_bind]. unfold escape1 at 1. rewrite Hc.
  cbn. f_equal. exact IH.
Qed.

(** Encoding never shortens, and leaves the length alone only when it changes nothing. *)
Lemma escape_length m s : m ≠ encodeQueryComponent →
  (length s ≤ length (escape m s))%nat ∧
  (length (escape m s) = length s → Forall (λ c, shouldEscape c m = false) s).
Proof.
  intros Hm. induction s as [|c s [IH1 IH2]]; [done|]. change (escape m (c :: s)) with (escape1 m c ++ escape m s).
  rewrite length_app. unfold escape1. destruct (shouldEscape c m) eqn:E; cbn.
  - case_match eqn:E2; cbn; [|split; [lia|intros; lia]].
    apply andb_true_iff in E2 as [_ E2%bool_decide_eq_true]. done.
  - split; [lia|]. intros ?. constructor; [done|]. apply IH2. lia.
Qed.

Lemma split_at (d : ascii) (a b a' b' : text) :
  d ∉ a → d ∉ a' → a ++ d :: b = a' ++ d :: b' → a = a' ∧ b = b'.
Proof.
  revert a'. induction a as [|x a IH]; intros [|y a'] Ha Ha' E; simplify_eq/=.
  - done.
  - by destruct Ha'; left.
  - by destruct Ha; left.
  - rewrite not_elem_of_cons in Ha, Ha'. destruct (IH a') as [-> ->]; tauto || done.
Qed.

Lemma Atoi_range s z : Atoi s = Some z → is_i64 z.
Proof.
  unfold Atoi. intros E. destruct (match s with [] => _ | _ => _ end) as [neg ds] in E.
  destruct ds; [done|]. destruct (digits 0 _); [|done]. cbn in E. destruct (_ && _) eqn:Er in E; [|done].
  injection E as <-. unfold maxInt64, minInt64 in Er. unfold is_i64. lia.
Qed.

(** Printing a number and reading it back. *)
Lemma digits_pretty_go x : ∀ s, digits 0 (str (pretty_N_go x s)) = digits (Z.of_N x) (str s).
Proof.
  induction (N.lt_wf_0 x) as [x _ IH]; intros s. destruct (decide (x = 0%N)) as [->|Hx]; [by rewrite pretty_N_go_0|].
  rewrite pretty_N_go_step by lia. rewrite IH by (apply N.div_lt; lia). cbn [str String.list_ascii_of_string digits].
  assert (isDigit (pretty_N_char (x mod 10)) = true ∧ byte_of_ascii (pretty_N_char (x mod 10)) - 48 = Z.of_N (x mod 10)) as [-> ->].
  { assert (x mod 10 < 10)%N as Hlt by (apply N.mod_lt; lia). revert Hlt. generalize (x mod 10)%N. intros d Hd.
    assert (d = 0 ∨ d = 1 ∨ d = 2 ∨ d = 3 ∨ d = 4 ∨ d = 5 ∨ d = 6 ∨ d = 7 ∨ d = 8 ∨ d = 9)%N as Hc by lia.
    repeat destruct Hc as [->|Hc]; [by vm_compute..|subst; by vm_compute]. }
  f_equal. pose proof (N.div_mod' x 10). lia.
Qed.

Lemma digits_pretty_N x : digits 0 (str (pretty x)) = Some (Z.of_N x) ∧ str (pretty x) ≠ [] ∧ isDigit <$> head (str (pretty x)) = Some true.
Proof.
  destruct (decide (x = 0%N)) as [->|Hx]; [by vm_compute|].
  assert (digits 0 (str (pretty x)) = Some (Z.of_N x)) as E.
  { unfold pretty, pretty_N. rewrite decide_False by done. by rewrite digits_pretty_go. }
  split; [done|]. destruct (str (pretty x)) as [|c s]; [by injection E; lia|]. split; [done|].
  cbn in *. by destruct (isDigit c).
Qed.

Lemma not_digit_sign c : isDigit c = true → Ascii.eqb c (char 45) = false ∧ Ascii.eqb c (char 43) = false.
Proof. intros H. split; apply Ascii.eqb_neq; intros ->; by vm_compute in H. Qed.

Lemma Itoa_cases z :
  (0 <= z ∧ Itoa z = str (pretty (Z.to_N z))) ∨ (z < 0 ∧ Itoa z = char 45 :: str (pretty (Z.to_N (- z)))).
Proof. unfold Itoa. destruct z as [|p|p]; [left|left|right]; (split; [lia|reflexivity]). Qed.

Lemma Atoi_Itoa z : is_i64 z → Atoi (Itoa z) = Some z.
Proof.
  intros Hz. destruct (Itoa_cases z) as [[Hs ->]|[Hs ->]]; unfold Atoi.
  - destruct (digits_pretty_N (Z.to_N z)) as (E & Hne & Hd). destruct (str (pretty (Z.to_N z))) as [|c s]; [done|].
    injection Hd as [-> ->]%not_digit_sign. rewrite E. cbn. rewrite Z2N.id by lia.
    unfold minInt64, maxInt64. destruct (_ && _) eqn:Er; [done|unfold is_i64 in Hz; lia].
  - destruct (digits_pretty_N (Z.to_N (- z))) as (E & Hne & Hd).
    replace (Ascii.eqb (char 45) (char 45)) with true by reflexivity.
    destruct (str (pretty (Z.to_N (- z)))) as [|c s]; [done|]. rewrite E. cbn -[Z.opp]. rewrite Z2N.id by lia. rewrite Z.opp_involutive.
    unfold minInt64, maxInt64. destruct (_ && _) eqn:Er; [done|unfold is_i64 in Hz; lia].
Qed.

End Url.
