(* ===== verification/PgHelper.v ===== *)
(** * The Postgres query helpers ([src/storage/postgres/pghelper.go], [dbcontext.go])

    Identifier quoting, the conversion of named and [?] parameters to positional
    ones, and the map-based statements. A statement reaches the database through
    [DBContext.ExecContext]; the database itself (a transaction, a connection, or
    what [Connect] finds for a cluster) is a function of the section's state type
    [W]. A Go map argument is the list of its entries in iteration order. Contexts
    and their deadlines are not modelled. *)

From Stdlib Require Import ZArith Lia Ascii.
From stdpp Require Import pretty.
From S2P Require Import Prelude GoValue SqlText.
Local Open Scope Z_scope.

Inductive pg_error :=
  | ErrNilContext
  | ErrEmptyIdent
  | ErrInvalidIdent (ident : text)
  | ErrEmptyMap
  | ErrPlaceholderMismatch (found given : Z)
  | ErrNoTarget                        (* DBContext has no Tx, no Conn, and empty Cluster *)
  | ErrExec (e : pg_error)             (* error executing query *)
  | ErrAffected (e : pg_error)         (* error fetching impacted rows *)
  | ErrDriver (why : string).

(** ** Identifiers *)

(** The runes [safeIdent] accepts; a byte of a multi-byte rune is none of them. *)
Definition isIdentChar (r : ascii) : bool := isLetter r || isDigit r || bool_decide (r = char 95) || bool_decide (r = char_dot).

Fixpoint quote_parts (ident : text) (parts : list text) : result pg_error (list text) :=
  match parts with
  | [] => Ok []
  | p :: parts =>
      if bool_decide (p = []) then Err (ErrInvalidIdent ident)
      else
        rest ← quote_parts ident parts;
        Ok ((char_dquote :: p ++ [char_dquote]) :: rest)
  end.

Definition safeIdent (ident : text) : result pg_error text :=
  let ident := TrimSpace ident in
  if bool_decide (ident = []) then Err ErrEmptyIdent
  else if negb (forallb isIdentChar ident) then Err (ErrInvalidIdent ident)
  else
    parts ← quote_parts ident (Split ident char_dot);
    Ok (Join parts [char_dot]).

(** ** WHERE clauses with [?] *)

(** The loop of [convertWhereParamsToPg]. [fuel] bounds the rounds; the number of
    marks is enough ([where_loop_numbers]). *)
Fixpoint where_loop (fuel : nat) (out : text) (pos : Z) : text :=
  if bool_decide (char_mark ∈ out) then
    match fuel with
    | O => out
    | S fuel => where_loop fuel (Replace1 out [char_mark] ("$" ++ Itoa pos)) (pos + 1)
    end
  else out.

Definition convertWhereParamsToPg (wher : text) (start : Z) (params : list any)
    : result pg_error (text * list any) :=
  if negb (bool_decide (char_mark ∈ wher)) then Ok (wher, params)
  else
    let count := Count wher char_mark in
    if negb (count =? Z.of_nat (length params)) then Err (ErrPlaceholderMismatch count (Z.of_nat (length params)))
    else Ok (where_loop (Z.to_nat count) wher start, params).

(** ** Named parameters *)

Definition isNamedParamChar (ch : ascii) : bool := isWordChar ch.

(** From [s[j:]] on: the bytes up to and including the closing [$]. *)
Fixpoint tag_scan (s : text) : option text :=
  match s with
  | [] => None
  | c :: s =>
      if bool_decide (c = char_dollar) then Some [c]
      else if isWordChar c then cons c <$> tag_scan s else None
  end.

Definition parseDollarTag (s : text) : option text :=
  match s with
  | c :: s => if bool_decide (c = char_dollar) then cons c <$> tag_scan s else None
  | [] => None
  end.

Record namedParamConverter := mkConverter {
  query : text;
  params : gmap text any;
  out : text;
  ordered : list any;
  seen : gmap text Z;
  argPos : Z;
  index : nat;
  inSingleQuote : bool;
  inDollarQuote : bool;
  dollarTag : text
}.

Definition newNamedParamConverter (query : text) (params : gmap text any) : namedParamConverter :=
  mkConverter query params [] [] ∅ 1 0 false false [].

(** Later maps override earlier ones. *)
Definition mergeNamedParams (params : list (gmap text any)) : gmap text any :=
  foldl (λ allParams mp, mp ∪ allParams) ∅ params.

(** [c.out.WriteString(t); c.index += n] *)
Definition write (c : namedParamConverter) (t : text) (n : nat) : namedParamConverter :=
  mkConverter c.(query) c.(params) (c.(out) ++ t) c.(ordered) c.(seen) c.(argPos)
    (c.(index) + n)%nat c.(inSingleQuote) c.(inDollarQuote) c.(dollarTag).

Definition with_quotes (c : namedParamConverter) (single dollar : bool) (tag : text) : namedParamConverter :=
  mkConverter c.(query) c.(params) c.(out) c.(ordered) c.(seen) c.(argPos) c.(index) single dollar tag.

(** [c.query[c.index:]] and [c.query[c.index] == ch] *)
Definition remaining (c : namedParamConverter) : text := drop c.(index) c.(query).
Definition at_char (c : namedParamConverter) (ch : ascii) : bool :=
  bool_decide (c.(query) !! c.(index) = Some ch).
Definition next_char (c : namedParamConverter) (ch : ascii) : bool :=
  bool_decide (c.(query) !! S c.(index) = Some ch).

(** The handlers: [None] when the byte is not theirs and nothing was done. *)

Definition handleDollarQuote (c : namedParamConverter) : option namedParamConverter :=
  if c.(inSingleQuote) || negb (at_char c char_dollar) then None
  else if c.(inDollarQuote) && negb (bool_decide (c.(dollarTag) = [])) && HasPrefix (remaining c) c.(dollarTag) then
    Some (with_quotes (write c c.(dollarTag) (length c.(dollarTag))) c.(inSingleQuote) false [])
  else if c.(inDollarQuote) then None
  else
    match parseDollarTag (remaining c) with
    | None => None
    | Some tag => Some (with_quotes (write c tag (length tag)) c.(inSingleQuote) true tag)
    end.

Definition handleSingleQuote (c : namedParamConverter) : option namedParamConverter :=
  if c.(inDollarQuote) || negb (at_char c char_quote) then None
  else if c.(inSingleQuote) && next_char c char_quote then Some (write c [char_quote; char_quote] 2)
  else Some (with_quotes (write c [char_quote] 1) (negb c.(inSingleQuote)) c.(inDollarQuote) c.(dollarTag)).

(** [c.out.WriteByte(c.query[c.index]); c.index++] *)
Definition copy_byte (c : namedParamConverter) : namedParamConverter := write c (take 1 (remaining c)) 1.

Definition copyQuotedByte (c : namedParamConverter) : option namedParamConverter :=
  if negb c.(inSingleQuote) && negb c.(inDollarQuote) then None else Some (copy_byte c).

Definition copyPostgresCast (c : namedParamConverter) : option namedParamConverter :=
  if negb (next_char c char_colon) then None else Some (write c [char_colon; char_colon] 2).

Definition writeNamedParam (c : namedParamConverter) (token : text) : namedParamConverter :=
  match c.(seen) !! token with
  | Some pos => write c ("$" ++ Itoa pos) 0
  | None =>
      mkConverter c.(query) c.(params) (c.(out) ++ "$" ++ Itoa c.(argPos))
        (c.(ordered) ++ [default AnyNil (c.(params) !! token)])
        (<[token := c.(argPos)]> c.(seen)) (c.(argPos) + 1) c.(index)
        c.(inSingleQuote) c.(inDollarQuote) c.(dollarTag)
  end.

Definition namedParamEnd (query : text) (start : nat) : nat := (start + length (take_while isNamedParamChar (drop start query)))%nat.

Definition handleNamedParam (c : namedParamConverter) : option namedParamConverter :=
  if negb (at_char c char_colon) then None
  else
    match copyPostgresCast c with
    | Some c => Some c
    | None =>
        let e := namedParamEnd c.(query) (S c.(index)) in
        if bool_decide (e = S c.(index)) then Some (write c [char_colon] 1)
        else
          let token := take (e - c.(index)) (remaining c) in
          Some (write (writeNamedParam c token) [] (e - c.(index)))
    end.

(** One round of the loop of [convert]: the first handler that applies. *)
Definition convert_step (c : namedParamConverter) : namedParamConverter :=
  match handleDollarQuote c with
  | Some c => c
  | None =>
      match handleSingleQuote c with
      | Some c => c
      | None =>
          match copyQuotedByte c with
          | Some c => c
          | None => match handleNamedParam c with Some c => c | None => copy_byte c end
          end
      end
  end.

(** Every round consumes a byte, so the length of the query is enough fuel
    ([convert_loop_runs]). *)
Fixpoint convert_loop (fuel : nat) (c : namedParamConverter) : namedParamConverter :=
  if decide (c.(index) < length c.(query))%nat then
    match fuel with
    | O => c
    | S fuel => convert_loop fuel (convert_step c)
    end
  else c.

Definition convert (c : namedParamConverter) : namedParamConverter := convert_loop (length c.(query)) c.

Definition ConvertQueryAndNamedParams (query : text) (params : list (gmap text any)) : text * list any :=
  let converter := convert (newNamedParamConverter query (mergeNamedParams params)) in
  (converter.(out), converter.(ordered)).

(** ** IN clauses *)

Definition GetParameterizedInClause (columnName : text) (values : list any) : text * gmap text any :=
  let r := in_clause_loop columnName values 0 [] ∅ in
  (TrimSuffix r.1 (char 44), r.2).

(** ** Executing statements *)

(** [sql.Result]: each accessor may fail. *)
Record sql_result := mkSqlResult {
  RowsAffected : Z * option pg_error;
  LastInsertId : Z * option pg_error
}.

Section exec.
Context {W : Type}.

(** [ExecContext] or [Exec] of a transaction, a connection or an override. *)
Definition exec_fn : Type := W → text → list any → W * result pg_error sql_result.

Record DBContext := mkDBContext {
  Tx : option exec_fn;
  Conn : option exec_fn;
  Cluster : string;
  ExecFn : option exec_fn
}.

(** What [Connect] finds for a cluster. *)
Context (Connect : string → result pg_error exec_fn).

Definition validateResolution (ctx : DBContext) : option pg_error :=
  match ctx.(Tx), ctx.(Conn) with
  | None, None => if bool_decide (ctx.(Cluster) = "") then Some ErrNoTarget else None
  | _, _ => None
  end.

Definition execContext (ctx : DBContext) (w : W) (q : text) (args : list any) : W * result pg_error sql_result :=
  match validateResolution ctx with
  | Some e => (w, Err e)
  | None =>
      match ctx.(Tx) with
      | Some tx => tx w q args
      | None =>
          match ctx.(Conn) with
          | Some conn => conn w q args
          | None =>
              match Connect ctx.(Cluster) with
              | Err e => (w, Err e)
              | Ok conn => conn w q args
              end
          end
      end
  end.

Definition ExecContext (ctx : DBContext) (w : W) (q : text) (args : list any) : W * result pg_error sql_result :=
  match ctx.(ExecFn) with
  | Some f => f w q args
  | None => execContext ctx w q args
  end.

(** The value of an accessor, or zero where the code replaces a failure by zero. *)
Definition or_zero (r : Z * option pg_error) : Z := match r.2 with Some _ => 0 | None => r.1 end.

Definition ExecuteWriteQueryContext (dbctx : option DBContext) (w : W) (q : text) (args : list any)
    : W * result pg_error (Z * Z) :=
  match dbctx with
  | None => (w, Err ErrNilContext)
  | Some ctx =>
      match ExecContext ctx w q args with
      | (w, Err e) => (w, Err (ErrExec e))
      | (w, Ok res) =>
          match res.(RowsAffected) with
          | (_, Some e) => (w, Err (ErrAffected e))
          | (rowsAffected, None) => (w, Ok (rowsAffected, or_zero res.(LastInsertId)))
          end
      end
  end.

(** The columns, placeholders and values of the sorted keys, from position [i]. *)
Fixpoint insert_columns (data : list (text * any)) (keys : list text) (i : Z)
    : result pg_error (list text * list text * list any) :=
  match keys with
  | [] => Ok ([], [], [])
  | col :: keys =>
      qc ← safeIdent col;
      '(cols, phs, vals) ← insert_columns data keys (i + 1);
      Ok (qc :: cols, ("$" ++ Itoa (i + 1)) :: phs, column_value data col :: vals)
  end.

Definition InsertFromMapContext (dbctx : option DBContext) (w : W) (tableName : text)
    (data : list (text * any)) : W * result pg_error (Z * Z) :=
  match dbctx with
  | None => (w, Err ErrNilContext)
  | Some ctx =>
      if bool_decide (data = []) then (w, Err ErrEmptyMap)
      else
        match (tbl ← safeIdent tableName;
               '(cols, phs, vals) ← insert_columns data (Strings data.*1) 0;
               Ok ("INSERT INTO " ++ tbl ++ " (" ++ Join cols ", " ++ ") VALUES (" ++ Join phs ", " ++ ")", vals)) with
        | Err e => (w, Err e)
        | Ok (q, vals) =>
            match ExecContext ctx w q vals with
            | (w, Err e) => (w, Err e)
            | (w, Ok res) => (w, Ok ((res.(RowsAffected)).1, or_zero res.(LastInsertId)))
            end
        end
  end.

(** The SET parts and values of the sorted keys, and the next position. *)
Fixpoint update_columns (data : list (text * any)) (keys : list text) (pos : Z)
    : result pg_error (list text * list any * Z) :=
  match keys with
  | [] => Ok ([], [], pos)
  | col :: keys =>
      qc ← safeIdent col;
      '(setParts, vals, next) ← update_columns data keys (pos + 1);
      Ok ((qc ++ " = $" ++ Itoa pos) :: setParts, column_value data col :: vals, next)
  end.

Definition UpdateFromMapContext (dbctx : option DBContext) (w : W) (tableName : text)
    (data : list (text * any)) (whereClause : text) (args : list any) : W * result pg_error Z :=
  match dbctx with
  | None => (w, Err ErrNilContext)
  | Some ctx =>
      if bool_decide (data = []) then (w, Err ErrEmptyMap)
      else
        match (tbl ← safeIdent tableName;
               '(setParts, values, pos) ← update_columns data (Strings data.*1) 1;
               '(convertedWhere, whereVals) ← convertWhereParamsToPg whereClause pos args;
               Ok ("UPDATE " ++ tbl ++ " SET " ++ Join setParts ", " ++ " WHERE " ++ convertedWhere,
                   values ++ whereVals)) with
        | Err e => (w, Err e)
        | Ok (q, values) =>
            match ExecContext ctx w q values with
            | (w, Err e) => (w, Err e)
            | (w, Ok res) => (w, Ok (res.(RowsAffected)).1)
            end
        end
  end.

Definition DeleteByPrimaryKeyContext (dbctx : option DBContext) (w : W) (tableName pkColumn : text)
    (pkValue : any) : W * result pg_error Z :=
  match dbctx with
  | None => (w, Err ErrNilContext)
  | Some ctx =>
      match (tbl ← safeIdent tableName; pk ← safeIdent pkColumn;
             Ok ("DELETE FROM " ++ tbl ++ " WHERE " ++ pk ++ " = $1")) with
      | Err e => (w, Err e)
      | Ok q =>
          match ExecContext ctx w q [pkValue] with
          | (w, Err e) => (w, Err e)
          | (w, Ok res) => (w, Ok (res.(RowsAffected)).1)
          end
      end
  end.

Definition SoftDeleteByPrimaryKeyContext (dbctx : option DBContext) (w : W) (tableName deleteCol pkCol : text)
    (value : any) : W * result pg_error Z :=
  match dbctx with
  | None => (w, Err ErrNilContext)
  | Some ctx =>
      match (tbl ← safeIdent tableName; del ← safeIdent deleteCol; pk ← safeIdent pkCol;
             Ok ("UPDATE " ++ tbl ++ " SET " ++ del ++ " = $1 WHERE " ++ pk ++ " = $2")) with
      | Err e => (w, Err e)
      | Ok q =>
          match ExecContext ctx w q [AnyBool true; value] with
          | (w, Err e) => (w, Err e)
          | (w, Ok res) => (w, Ok (res.(RowsAffected)).1)
          end
      end
  end.
End exec.
Arguments DBContext : clear implicits.
Arguments exec_fn : clear implicits.
