(* ===== verification/PgProps.v ===== *)
(** * Properties of the Postgres query helpers

    What [safeIdent] accepts and produces, the numbering of placeholders, the
    conversion of named parameters against a declarative lexical grammar, and the
    statements the map-based helpers send. *)

From Stdlib Require Import ZArith Lia Ascii.
From stdpp Require Import pretty.
From S2P Require Import Prelude GoValue SqlText PgHelper.
Local Open Scope Z_scope.

(** ** Identifiers *)

Definition quoted (seg : text) : text := char_dquote :: seg ++ [char_dquote].

(** Non-empty, and made of letters, digits and underscores only. *)
Definition plain_segment (seg : text) : Prop := seg ≠ [] ∧ Forall (λ c, isWordChar c = true) seg.

Lemma quote_parts_spec ident parts qs :
  quote_parts ident parts = Ok qs ↔ Forall (λ p, p ≠ []) parts ∧ qs = quoted <$> parts.
Proof.
  revert qs. induction parts as [|p parts IH]; intros qs; cbn.
  - split; [intros [= <-]; done|]. by intros [_ ->].
  - case_bool_decide as Hp; [split; [done|]; by intros [[? _]%Forall_cons _]|].
    destruct (quote_parts ident parts) as [rest|e]; cbn.
    + destruct (IH rest) as [[Hf ->] _]; [done|]. split.
      * intros [= <-]. by split; [constructor|].
      * by intros [_ ->].
    + split; [done|]. intros [[_ Hf]%Forall_cons _]. by destruct (IH (quoted <$> parts)) as [_ ?%(λ f, f (conj Hf eq_refl))].
Qed.

Lemma isIdentChar_word c : c ≠ char_dot → isIdentChar c = isWordChar c.
Proof.
  intros Hc. unfold isIdentChar, isWordChar. rewrite (bool_decide_eq_false_2 (c = char_dot)) by done.
  by rewrite orb_false_r.
Qed.

Lemma word_not_dot c : isWordChar c = true → c ≠ char_dot.
Proof. by intros Hc ->. Qed.

Lemma Join_elem parts sep c : c ∈ Join parts [sep] → c = sep ∨ ∃ p, p ∈ parts ∧ c ∈ p.
Proof.
  induction parts as [|p parts IH]; [by intros ?%elem_of_nil|].
  destruct parts as [|q qs]; [right; exists p; split; [apply list_elem_of_here|done]|].
  rewrite Join_cons by done. rewrite !elem_of_app, list_elem_of_singleton.
  intros [Hc|[->|Hc]]; [right; exists p; split; [apply list_elem_of_here|done]|by left|].
  destruct (IH Hc) as [->|(p' & ? & ?)]; [by left|]. right. exists p'. split; [by right|done].
Qed.

Lemma elem_of_Join parts sep p c : p ∈ parts → c ∈ p → c ∈ Join parts [sep].
Proof.
  induction parts as [|q qs IH]; [by intros ?%elem_of_nil|].
  intros Hp Hc. destruct qs as [|q' qs]; [apply list_elem_of_singleton in Hp as ->; done|].
  rewrite Join_cons, !elem_of_app by done. apply elem_of_cons in Hp as [->|Hp]; [by left|].
  right. right. by apply IH.
Qed.

(** [safeIdent] accepts exactly the texts that are, after trimming, one or more
    plain segments joined by dots, and its result is those segments, each between
    double quotes: nothing a caller passes can leave the quotes. *)
Theorem safeIdent_quotes ident q :
  safeIdent ident = Ok q ↔
  ∃ segs, segs ≠ [] ∧ Forall plain_segment segs ∧
    TrimSpace ident = Join segs [char_dot] ∧ q = Join (quoted <$> segs) [char_dot].
Proof.
  unfold safeIdent. split.
  - case_bool_decide as Ht; [done|]. destruct (forallb isIdentChar (TrimSpace ident)) eqn:Hf; [|done]. cbn.
    destruct (quote_parts _ _) as [qs|] eqn:Hq; [|done]. intros [= <-].
    apply quote_parts_spec in Hq as [Hne ->]. eexists. split_and!; [apply Split_nonempty| |by rewrite Join_Split|done].
    pose proof (Split_no_sep (TrimSpace ident) char_dot) as Hns. rewrite Forall_forall in Hne, Hns |- *.
    intros seg Hseg. split; [by apply Hne|]. apply Forall_forall. intros c Hc.
    rewrite <-isIdentChar_word by (intros ->; by apply (Hns seg Hseg)).
    rewrite forallb_forall in Hf. apply Hf, list_elem_of_In. rewrite <-(Join_Split (TrimSpace ident) char_dot).
    by apply (elem_of_Join _ _ seg).
  - intros (segs & Hne & Hp & Ht & ->). rewrite Ht.
    assert (Forall (λ part, char_dot ∉ part) segs) as Hns.
    { eapply Forall_impl; [exact Hp|]. intros seg [_ Hw] Hd. rewrite Forall_forall in Hw.
      by apply (word_not_dot char_dot (Hw _ Hd)). }
    rewrite Split_Join by done. case_bool_decide as He.
    { destruct segs as [|seg segs]; [done|]. apply Forall_cons in Hp as [[Hs _] _]. destruct seg; [done|].
      by destruct segs. }
    assert (forallb isIdentChar (Join segs [char_dot]) = true) as ->.
    { apply forallb_forall. intros c Hc%list_elem_of_In. apply Join_elem in Hc as [->|(p & Hpp & Hc)]; [done|].
      rewrite Forall_forall in Hp. destruct (Hp _ Hpp) as [_ Hw]. rewrite Forall_forall in Hw.
      rewrite isIdentChar_word by (apply word_not_dot, Hw, Hc). by apply Hw. }
    cbn. destruct (quote_parts_spec (Join segs [char_dot]) segs (quoted <$> segs)) as [_ ->]; [done|].
    split; [|done]. eapply Forall_impl; [exact Hp|]. by intros ? [? _].
Qed.

(** ** Placeholders of a WHERE clause *)

(** The marks replaced by [$pos], [$(pos+1)], ... from left to right. *)
Fixpoint number_marks (s : text) (pos : Z) : text :=
  match s with
  | [] => []
  | c :: s =>
      if bool_decide (c = char_mark) then "$" ++ Itoa pos ++ number_marks s (pos + 1)
      else c :: number_marks s pos
  end.

Lemma Replace1_mark pre rest new :
  char_mark ∉ pre → Replace1 (pre ++ char_mark :: rest) [char_mark] new = pre ++ new ++ rest.
Proof.
  induction pre as [|c pre IH]; intros Hn; [done|]. cbn.
  rewrite bool_decide_eq_false_2 by set_solver. by rewrite IH by set_solver.
Qed.

Lemma Itoa_no_mark pos : 0 <= pos → char_mark ∉ "$" ++ Itoa pos.
Proof.
  intros Hp Hm. apply elem_of_app in Hm as [Hm|Hm]; [by apply list_elem_of_singleton in Hm|].
  pose proof (Itoa_digits pos Hp) as Hd. rewrite Forall_forall in Hd. by apply Hd in Hm.
Qed.

Lemma number_marks_none s pos : char_mark ∉ s → number_marks s pos = s.
Proof.
  induction s as [|c s IH]; intros Hn; [done|]. cbn. rewrite bool_decide_eq_false_2 by set_solver.
  by rewrite IH by set_solver.
Qed.

Lemma where_loop_numbers s pre pos :
  0 <= pos → char_mark ∉ pre →
  where_loop (length (filter (λ d, d = char_mark) s)) (pre ++ s) pos = pre ++ number_marks s pos.
Proof.
  revert pre pos. induction s as [|c s IH]; intros pre pos Hp Hn; cbn [number_marks].
  - rewrite app_nil_r. cbn. by rewrite bool_decide_eq_false_2.
  - rewrite filter_cons. destruct (decide (c = char_mark)) as [->|Hc].
    + cbn [where_loop length]. rewrite bool_decide_eq_true_2 by set_solver.
      rewrite Replace1_mark by done. rewrite app_assoc, IH; [|lia|].
      * rewrite bool_decide_eq_true_2 by done. by rewrite <-!app_assoc.
      * rewrite elem_of_app. intros [?|?%Itoa_no_mark]; [done|lia|done].
    + rewrite bool_decide_eq_false_2 by done. change (c :: s) with ([c] ++ s). rewrite app_assoc, IH; [|lia|].
      * by rewrite <-app_assoc.
      * rewrite elem_of_app, list_elem_of_singleton. naive_solver.
Qed.

(** Both branches: the marks are numbered, one parameter each, or there are none. *)
Lemma convertWhere_spec wher start params :
  0 <= start →
  convertWhereParamsToPg wher start params =
    if bool_decide (char_mark ∈ wher ∧ Count wher char_mark ≠ Z.of_nat (length params))
    then Err (ErrPlaceholderMismatch (Count wher char_mark) (Z.of_nat (length params)))
    else Ok (number_marks wher start, params).
Proof.
  intros Hs. unfold convertWhereParamsToPg.
  destruct (decide (char_mark ∈ wher)) as [Hm|Hm].
  - rewrite (bool_decide_eq_true_2 _ Hm). cbn [negb].
    destruct (Z.eqb_spec (Count wher char_mark) (Z.of_nat (length params))); cbn [negb].
    + rewrite bool_decide_eq_false_2 by naive_solver. do 2 f_equal. unfold Count.
      rewrite Nat2Z.id. apply (where_loop_numbers wher [] start); [done|by intros ?%elem_of_nil].
    + by rewrite bool_decide_eq_true_2.
  - rewrite (bool_decide_eq_false_2 _ Hm), bool_decide_eq_false_2 by naive_solver.
    by rewrite number_marks_none.
Qed.

(** ** The lexical grammar of queries with named parameters *)

Inductive item := Lit (t : text) | Param (token : text).

Definition item_text (i : item) : text := match i with Lit t => t | Param token => token end.

(** [$tag$], possibly with an empty tag. *)
Definition dollar_tag (tag : text) : Prop := ∃ w, word w ∧ tag = char_dollar :: w ++ [char_dollar].

(** The bytes between single quotes: quotes come in pairs. *)
Inductive quoted_body : text → Prop :=
  | qb_nil : quoted_body []
  | qb_char c s : c ≠ char_quote → quoted_body s → quoted_body (c :: s)
  | qb_pair s : quoted_body s → quoted_body (char_quote :: char_quote :: s).

(** Dollar-quoted and single-quoted strings (closed or running to the end), casts,
    named parameters, and everything else byte by byte. *)
Inductive lexes : text → list item → Prop :=
  | lex_end : lexes [] []
  | lex_dollar tag body rest items :
      dollar_tag tag → absent_before tag (length body) (body ++ tag ++ rest) → lexes rest items →
      lexes (tag ++ body ++ tag ++ rest) (Lit (tag ++ body ++ tag) :: items)
  | lex_dollar_open tag body :
      dollar_tag tag → absent_before tag (length body) body → lexes (tag ++ body) [Lit (tag ++ body)]
  | lex_quote body rest items :
      quoted_body body → ¬ starts_with (λ c, c = char_quote) rest → lexes rest items →
      lexes (char_quote :: body ++ char_quote :: rest) (Lit (char_quote :: body ++ [char_quote]) :: items)
  | lex_quote_open body : quoted_body body → lexes (char_quote :: body) [Lit (char_quote :: body)]
  | lex_cast rest items :
      lexes rest items → lexes (char_colon :: char_colon :: rest) (Lit [char_colon; char_colon] :: items)
  | lex_param w rest items :
      word w → w ≠ [] → ¬ starts_with (λ c, isWordChar c = true) rest → lexes rest items →
      lexes (char_colon :: w ++ rest) (Param (char_colon :: w) :: items)
  | lex_colon rest items :
      ¬ starts_with (λ c, isWordChar c = true ∨ c = char_colon) rest → lexes rest items →
      lexes (char_colon :: rest) (Lit [char_colon] :: items)
  | lex_char c rest items :
      c ≠ char_quote → c ≠ char_colon →
      (c = char_dollar → ∀ tag rest', dollar_tag tag → c :: rest ≠ tag ++ rest') → lexes rest items →
      lexes (c :: rest) (Lit [c] :: items).

(** The distinct tokens in the order of their first occurrences. *)
Definition add_name (ns : list text) (i : item) : list text :=
  match i with
  | Param token => if decide (token ∈ ns) then ns else ns ++ [token]
  | Lit _ => ns
  end.
Definition names (items : list item) : list text := foldl add_name [] items.

(** [$k] for the [k]-th of [ns]. *)
Definition position (token : text) (ns : list text) : option Z :=
  (λ p, Z.of_nat p.1 + 1) <$> list_find (eq token) ns.

Definition render (ns : list text) (i : item) : text :=
  match i with
  | Lit t => t
  | Param token => "$" ++ Itoa (default 0 (position token ns))
  end.

(** The items of a query are its text. *)
Lemma lexes_text s items : lexes s items → s = concat (item_text <$> items).
Proof.
  induction 1; cbn [fmap list_fmap concat item_text]; rewrite <-?IHlexes; cbn [app]; rewrite <-?app_assoc;
    cbn [app]; rewrite ?app_nil_r; try done.
  all: by subst.
Qed.

(** *** Positions *)

Lemma names_grow ns items : ∃ suf, foldl add_name ns items = ns ++ suf.
Proof.
  revert ns. induction items as [|[t|tok] items IH]; intros ns; cbn; [exists []; by rewrite app_nil_r|apply IH|].
  destruct (decide (tok ∈ ns)); [apply IH|]. destruct (IH (ns ++ [tok])) as [suf ->].
  exists (tok :: suf). by rewrite <-app_assoc.
Qed.

Lemma names_NoDup ns items : NoDup ns → NoDup (foldl add_name ns items).
Proof.
  revert ns. induction items as [|[t|tok] items IH]; intros ns Hn; cbn; [done|by apply IH|].
  apply IH. case_decide; [done|]. apply NoDup_app. split_and!; [done| |apply NoDup_singleton].
  by intros x Hx ->%list_elem_of_singleton.
Qed.

Lemma position_grow tok ns suf p : position tok ns = Some p → position tok (ns ++ suf) = Some p.
Proof.
  unfold position. intros ([i t] & E & ->)%fmap_Some. by rewrite (list_find_app_l _ _ suf i t) by done.
Qed.

Lemma position_None tok ns : position tok ns = None ↔ tok ∉ ns.
Proof.
  unfold position. rewrite fmap_None, list_find_None, Forall_forall. naive_solver.
Qed.

Lemma position_new tok ns : tok ∉ ns → position tok (ns ++ [tok]) = Some (Z.of_nat (length ns) + 1).
Proof.
  intros Hn%position_None. unfold position in *. apply fmap_None in Hn.
  rewrite list_find_app_r by done. cbn. rewrite decide_True by done. cbn. done.
Qed.

Lemma position_other tok tok' ns : tok ≠ tok' → position tok (ns ++ [tok']) = position tok ns.
Proof.
  intros Hn. destruct (position tok ns) as [p|] eqn:E; [by apply position_grow|].
  apply position_None in E. apply position_None. rewrite elem_of_app, list_elem_of_singleton. naive_solver.
Qed.

(** *** The converter on each kind of item *)

Section run.
Context (q : text) (ps : gmap text any).

(** The converter has [s] left to read, has written [o] and numbered [ns]. *)
Record at_ (c : namedParamConverter) (s o : text) (ns : list text) (sq dq : bool) (tag : text) : Prop := {
  at_query : c.(query) = q;
  at_params : c.(params) = ps;
  at_rest : drop c.(index) q = s;
  at_le : (c.(index) <= length q)%nat;
  at_out : c.(out) = o;
  at_ordered : c.(ordered) = (λ t, default AnyNil (ps !! t)) <$> ns;
  at_pos : c.(argPos) = Z.of_nat (length ns) + 1;
  at_seen : ∀ t, c.(seen) !! t = position t ns;
  at_single : c.(inSingleQuote) = sq;
  at_dollar : c.(inDollarQuote) = dq;
  at_tag : c.(dollarTag) = tag
}.

Definition moves (c c' : namedParamConverter) : Prop :=
  (c.(index) < length c.(query))%nat ∧ c' = convert_step c.

Lemma at_write c s1 s o ns sq dq tag t n :
  n = length s1 → at_ c (s1 ++ s) o ns sq dq tag → at_ (write c t n) s (o ++ t) ns sq dq tag.
Proof.
  intros -> []. split; cbn; try done; [| |by rewrite at_out0].
  - rewrite <-drop_drop, at_rest0. by rewrite drop_app_length.
  - apply (f_equal length) in at_rest0. rewrite length_drop, length_app in at_rest0. lia.
Qed.

Lemma at_quotes c s o ns sq dq tag sq' dq' tag' :
  at_ c s o ns sq dq tag → at_ (with_quotes c sq' dq' tag') s o ns sq' dq' tag'.
Proof. by intros []. Qed.

Lemma at_lookup c ch s o ns sq dq tag : at_ c (ch :: s) o ns sq dq tag →
  c.(query) !! c.(index) = Some ch ∧ c.(query) !! S c.(index) = head s ∧ remaining c = ch :: s.
Proof.
  intros []. unfold remaining. rewrite at_query0, at_rest0. split_and!; [| |done].
  - rewrite <-(Nat.add_0_r (index c)), <-lookup_drop, at_rest0. done.
  - rewrite <-Nat.add_1_r, <-lookup_drop, at_rest0. cbn. by destruct s.
Qed.

Lemma at_moves c ch s o ns sq dq tag : at_ c (ch :: s) o ns sq dq tag → moves c (convert_step c).
Proof.
  intros Hat. split; [|done]. destruct (at_lookup _ _ _ _ _ _ _ _ Hat) as [Hl _].
  by apply lookup_lt_Some in Hl.
Qed.

Lemma at_copy c ch s o ns sq dq tag :
  at_ c (ch :: s) o ns sq dq tag → at_ (copy_byte c) s (o ++ [ch]) ns sq dq tag.
Proof.
  intros Hat. unfold copy_byte. destruct (at_lookup _ _ _ _ _ _ _ _ Hat) as (_ & _ & ->).
  apply (at_write c [ch]); [done|exact Hat].
Qed.

(** Decides the handlers of a state whose next bytes and flags are known. *)
Ltac handlers Hat :=
  let Hl := fresh "Hl" in let Hn := fresh "Hn" in let Hr := fresh "Hr" in
  destruct (at_lookup _ _ _ _ _ _ _ _ Hat) as (Hl & Hn & Hr);
  unfold convert_step, handleDollarQuote, handleSingleQuote, copyQuotedByte, handleNamedParam,
    copyPostgresCast, at_char, next_char;
  rewrite ?Hl, ?Hn, ?Hr, ?(at_single _ _ _ _ _ _ _ Hat), ?(at_dollar _ _ _ _ _ _ _ Hat),
    ?(at_tag _ _ _ _ _ _ _ Hat); cbn [orb andb negb].

Lemma dollar_tag_scan w s : word w → tag_scan (w ++ char_dollar :: s) = Some (w ++ [char_dollar]).
Proof.
  induction 1 as [|c w Hc _ IH]; [done|]. cbn. rewrite bool_decide_eq_false_2 by (by intros ->).
  by rewrite Hc, IH.
Qed.

Lemma parse_dollar_tag tag s : dollar_tag tag → parseDollarTag (tag ++ s) = Some tag.
Proof.
  intros (w & Hw & ->). cbn. rewrite <-app_assoc. cbn. by rewrite dollar_tag_scan.
Qed.

Lemma tag_scan_inv s t : tag_scan s = Some t → ∃ w s', word w ∧ t = w ++ [char_dollar] ∧ s = t ++ s'.
Proof.
  revert t. induction s as [|c s IH]; intros t; cbn; [done|]. case_bool_decide as Hc.
  - intros [= <-]. exists [], s. subst. split_and!; [constructor|done..].
  - destruct (isWordChar c) eqn:Hw; [|done]. intros (t' & Ht & ->)%fmap_Some.
    destruct (IH _ Ht) as (w & s' & Hws & -> & ->). exists (c :: w), s'. split_and!; [by constructor|done..].
Qed.

Lemma parse_dollar_tag_inv s tag : parseDollarTag s = Some tag → dollar_tag tag ∧ ∃ s', s = tag ++ s'.
Proof.
  destruct s as [|c s]; cbn; [done|]. case_bool_decide as Hc; [|done]. intros (t & Ht & ->)%fmap_Some.
  destruct (tag_scan_inv _ _ Ht) as (w & s' & Hw & -> & ->). subst c. split; [by exists w|]. by exists s'.
Qed.

Lemma dollar_tag_cons tag : dollar_tag tag → ∃ t, tag = char_dollar :: t.
Proof. intros (w & _ & ->). by eexists. Qed.

(** Inside a dollar quote every byte up to the tag is copied. *)
Lemma run_dollar_copy c b s o ns tag :
  at_ c (b :: s) o ns false true tag → HasPrefix (b :: s) tag = false →
  at_ (convert_step c) s (o ++ [b]) ns false true tag.
Proof.
  intros Hat Hp. handlers Hat. rewrite Hp, andb_false_r.
  assert (at_ (copy_byte c) s (o ++ [b]) ns false true tag) by (eapply at_copy, Hat).
  by destruct (bool_decide (Some b = Some char_dollar)).
Qed.

Lemma run_dollar c body rest o ns tag :
  dollar_tag tag → at_ c (body ++ tag ++ rest) o ns false true tag →
  absent_before tag (length body) (body ++ tag ++ rest) →
  ∃ c', rtc moves c c' ∧ at_ c' rest (o ++ body ++ tag) ns false false [].
Proof.
  intros Ht. revert c o. induction body as [|b body IH]; intros c o Hat Hab.
  - exists (convert_step c). destruct (dollar_tag_cons _ Ht) as [t Et].
    split; [apply rtc_once; eapply at_moves; rewrite Et in Hat; exact Hat|].
    assert (HasPrefix (tag ++ rest) tag = true) as Hp by (apply HasPrefix_true; by eexists).
    cbn [app] in Hat. assert (at_ c (char_dollar :: t ++ rest) o ns false true tag) as Hat' by (by rewrite Et in *).
    handlers Hat'. rewrite bool_decide_eq_true_2 by done. cbn [orb negb].
    change (char_dollar :: t ++ rest) with ((char_dollar :: t) ++ rest). rewrite <-Et, Hp.
    rewrite bool_decide_eq_false_2 by (by rewrite Et). cbn [andb negb].
    eapply at_quotes, at_write; [|exact Hat]. done.
  - assert (HasPrefix (b :: body ++ tag ++ rest) tag = false) as Hp by (apply (Hab 0%nat); cbn; lia).
    pose proof (run_dollar_copy _ _ _ _ _ _ Hat Hp) as Hat1.
    destruct (IH _ _ Hat1) as (c' & Hr & Hat').
    { intros i Hi. apply (Hab (S i)). cbn. lia. }
    exists c'. split; [eapply rtc_l; [eapply at_moves, Hat|exact Hr]|]. by rewrite <-app_assoc in Hat'.
Qed.

Lemma run_dollar_open c body o ns tag :
  at_ c body o ns false true tag → absent_before tag (length body) body →
  ∃ c', rtc moves c c' ∧ at_ c' [] (o ++ body) ns false true tag.
Proof.
  revert c o. induction body as [|b body IH]; intros c o Hat Hab.
  - exists c. split; [done|]. by rewrite app_nil_r.
  - assert (HasPrefix (b :: body) tag = false) as Hp by (apply (Hab 0%nat); cbn; lia).
    pose proof (run_dollar_copy _ _ _ _ _ _ Hat Hp) as Hat1.
    destruct (IH _ _ Hat1) as (c' & Hr & Hat').
    { intros i Hi. apply (Hab (S i)). cbn. lia. }
    exists c'. split; [eapply rtc_l; [eapply at_moves, Hat|exact Hr]|]. by rewrite <-app_assoc in Hat'.
Qed.

(** Inside single quotes: a byte, a pair of quotes, the closing quote. *)
Lemma run_quote_char c b s o ns :
  b ≠ char_quote → at_ c (b :: s) o ns true false [] → at_ (convert_step c) s (o ++ [b]) ns true false [].
Proof.
  intros Hb Hat. handlers Hat. rewrite (bool_decide_eq_false_2 (Some b = Some char_quote)) by congruence.
  cbn [negb]. eapply at_copy, Hat.
Qed.

Lemma run_quote_pair c s o ns :
  at_ c (char_quote :: char_quote :: s) o ns true false [] →
  at_ (convert_step c) s (o ++ [char_quote; char_quote]) ns true false [].
Proof.
  intros Hat. handlers Hat. rewrite bool_decide_eq_true_2 by done. cbn.
  by apply (at_write _ [char_quote; char_quote]).
Qed.

Lemma run_quote_close c rest o ns :
  ¬ starts_with (λ c, c = char_quote) rest → at_ c (char_quote :: rest) o ns true false [] →
  at_ (convert_step c) rest (o ++ [char_quote]) ns false false [].
Proof.
  intros Hns Hat. handlers Hat. rewrite bool_decide_eq_true_2 by done. cbn.
  rewrite bool_decide_eq_false_2 by (destruct rest; [done|]; intros [= ->]; apply Hns; by repeat eexists).
  eapply at_quotes. by apply (at_write _ [char_quote]).
Qed.

Lemma run_quote_body c body s o ns :
  quoted_body body → at_ c (body ++ s) o ns true false [] →
  ∃ c', rtc moves c c' ∧ at_ c' s (o ++ body) ns true false [].
Proof.
  intros Hb. revert c o. induction Hb as [|b body Hne Hb IH|body Hb IH]; intros c o Hat.
  - exists c. by rewrite app_nil_r.
  - pose proof (run_quote_char _ _ _ _ _ Hne Hat) as Hat1. destruct (IH _ _ Hat1) as (c' & Hr & Hat').
    exists c'. split; [eapply rtc_l; [eapply at_moves, Hat|exact Hr]|]. by rewrite <-app_assoc in Hat'.
  - pose proof (run_quote_pair _ _ _ _ Hat) as Hat1. destruct (IH _ _ Hat1) as (c' & Hr & Hat').
    exists c'. split; [eapply rtc_l; [eapply at_moves, Hat|exact Hr]|]. by rewrite <-app_assoc in Hat'.
Qed.

(** Outside quotes. *)
Lemma run_open_quote c s o ns :
  at_ c (char_quote :: s) o ns false false [] → at_ (convert_step c) s (o ++ [char_quote]) ns true false [].
Proof.
  intros Hat. handlers Hat. rewrite bool_decide_eq_false_2 by done. cbn.
  eapply at_quotes. by apply (at_write _ [char_quote]).
Qed.

Lemma run_open_dollar c tag s o ns :
  dollar_tag tag → at_ c (tag ++ s) o ns false false [] → at_ (convert_step c) s (o ++ tag) ns false true tag.
Proof.
  intros Ht Hat. destruct (dollar_tag_cons _ Ht) as [t Et].
  assert (at_ c (char_dollar :: t ++ s) o ns false false []) as Hat' by (by rewrite Et in *).
  handlers Hat'. rewrite bool_decide_eq_true_2 by done. cbn [orb negb].
  change (char_dollar :: t ++ s) with ((char_dollar :: t) ++ s). rewrite <-Et, parse_dollar_tag by done.
  eapply at_quotes, at_write; [done|exact Hat].
Qed.

Lemma run_cast c s o ns :
  at_ c (char_colon :: char_colon :: s) o ns false false [] →
  at_ (convert_step c) s (o ++ [char_colon; char_colon]) ns false false [].
Proof. intros Hat. handlers Hat. by apply (at_write _ [char_colon; char_colon]). Qed.

Lemma run_char c b s o ns :
  b ≠ char_quote → b ≠ char_colon →
  (b = char_dollar → ∀ tag s', dollar_tag tag → b :: s ≠ tag ++ s') →
  at_ c (b :: s) o ns false false [] → at_ (convert_step c) s (o ++ [b]) ns false false [].
Proof.
  intros Hq Hc Hd Hat. pose proof (at_copy _ _ _ _ _ _ _ _ Hat) as Hcp. handlers Hat.
  rewrite (bool_decide_eq_false_2 (Some b = Some char_quote)) by congruence.
  rewrite (bool_decide_eq_false_2 (Some b = Some char_colon)) by congruence. cbn [negb].
  case_bool_decide as Hb; cbn [negb]; [|done]. injection Hb as ->.
  destruct (parseDollarTag (char_dollar :: s)) as [tag|] eqn:E; [|done].
  apply parse_dollar_tag_inv in E as [Ht [s' E]]. by destruct (Hd eq_refl tag s' Ht).
Qed.

Lemma run_colon c s o ns :
  ¬ starts_with (λ c, isWordChar c = true ∨ c = char_colon) s →
  at_ c (char_colon :: s) o ns false false [] →
  at_ (convert_step c) s (o ++ [char_colon]) ns false false [].
Proof.
  intros Hs Hat. handlers Hat. rewrite (bool_decide_eq_true_2 (Some char_colon = Some char_colon)) by done.
  rewrite !(bool_decide_eq_false_2 (Some char_colon = Some _)) by done. cbn [negb].
  rewrite bool_decide_eq_false_2 by (destruct s; [done|]; intros [= ->]; apply Hs; repeat eexists; by right).
  assert (drop (S (index c)) (query c) = s) as Hd.
  { unfold remaining in Hr. rewrite <-Nat.add_1_r, <-drop_drop, Hr. done. }
  unfold namedParamEnd. rewrite Hd.
  assert (take_while isNamedParamChar s = []) as ->.
  { apply (take_while_app []); [constructor|]. intros (ch & s' & -> & ?). apply Hs. repeat eexists. by left. }
  cbn [length negb]. rewrite bool_decide_eq_true_2 by lia. by apply (at_write _ [char_colon]).
Qed.

Lemma at_named c s o ns tok :
  at_ c s o ns false false [] →
  at_ (writeNamedParam c tok) s (o ++ "$" ++ Itoa (default 0 (position tok (add_name ns (Param tok)))))
    (add_name ns (Param tok)) false false [].
Proof.
  intros Hat. unfold writeNamedParam. rewrite (at_seen _ _ _ _ _ _ _ Hat). cbn [add_name].
  destruct (position tok ns) as [p|] eqn:Ep.
  - rewrite decide_True by (apply dec_stable; intros ?%position_None; congruence). rewrite Ep. cbn [default].
    by apply (at_write c []).
  - apply position_None in Ep. rewrite decide_False, position_new by done. cbn [default].
    destruct Hat. split; cbn; try done.
    + by rewrite at_out0, at_pos0.
    + by rewrite at_ordered0, at_params0, fmap_app.
    + rewrite at_pos0, length_app. cbn. lia.
    + intros t. destruct (decide (tok = t)) as [->|Hne].
      * by rewrite lookup_insert_eq, position_new, at_pos0.
      * rewrite lookup_insert_ne, position_other by congruence. apply at_seen0.
Qed.

Lemma run_param c w rest o ns :
  word w → w ≠ [] → ¬ starts_with (λ c, isWordChar c = true) rest →
  at_ c (char_colon :: w ++ rest) o ns false false [] →
  let ns' := add_name ns (Param (char_colon :: w)) in
  at_ (convert_step c) rest (o ++ render ns' (Param (char_colon :: w))) ns' false false [].
Proof.
  intros Hw Hne Hs Hat ns'. handlers Hat.
  rewrite (bool_decide_eq_true_2 (Some char_colon = Some char_colon)) by done.
  rewrite !(bool_decide_eq_false_2 (Some char_colon = Some _)) by done. cbn [negb].
  destruct w as [|c0 w]; [done|]. cbn [head app].
  rewrite (bool_decide_eq_false_2 (Some c0 = Some char_colon))
    by (intros [= ->]; by apply Forall_cons in Hw as [? _]).
  assert (drop (S (index c)) (query c) = (c0 :: w) ++ rest) as Hd.
  { unfold remaining in Hr. rewrite <-Nat.add_1_r, <-drop_drop, Hr. done. }
  unfold namedParamEnd. rewrite Hd, take_while_app by done. cbn [negb].
  rewrite bool_decide_eq_false_2 by (cbn; lia).
  replace (S (index c) + length (c0 :: w) - index c)%nat with (length (char_colon :: c0 :: w)) by (cbn; lia).
  change (char_colon :: c0 :: w ++ rest) with ((char_colon :: c0 :: w) ++ rest). rewrite take_app_length.
  rewrite <-(app_nil_r (o ++ _)). eapply at_write; [reflexivity|]. by apply at_named.
Qed.

(** The whole query: the output renders its items. *)
Lemma run_lexes s items :
  lexes s items → ∀ c o ns, at_ c s o ns false false [] →
  let ns' := foldl add_name ns items in
  ∃ c' sq dq tag, rtc moves c c' ∧ at_ c' [] (o ++ concat (render ns' <$> items)) ns' sq dq tag.
Proof.
  induction 1 as [|tag body rest items Ht Hab _ IH|tag body Ht Hab|body rest items Hb Hs _ IH|body Hb|
    rest items _ IH|w rest items Hw Hne Hs _ IH|rest items Hs _ IH|b rest items Hq Hc Hd _ IH];
    intros c o ns Hat; cbn [foldl add_name fmap list_fmap concat render].
  - exists c, false, false, []. by rewrite app_nil_r.
  - pose proof (run_open_dollar _ _ _ _ _ Ht Hat) as H1.
    destruct (run_dollar _ _ _ _ _ _ Ht H1 Hab) as (c2 & Hr2 & H2).
    destruct (IH _ _ _ H2) as (c3 & sq & dq & t & Hr3 & H3). exists c3, sq, dq, t. split.
    + destruct (dollar_tag_cons _ Ht) as [? ->]. eapply rtc_l; [eapply at_moves, Hat|by etrans].
    + by rewrite <-!app_assoc in *.
  - pose proof (run_open_dollar _ _ _ _ _ Ht Hat) as H1.
    destruct (run_dollar_open _ _ _ _ _ H1 Hab) as (c2 & Hr2 & H2). exists c2, false, true, tag. split.
    + destruct (dollar_tag_cons _ Ht) as [? ->]. eapply rtc_l; [eapply at_moves, Hat|done].
    + rewrite app_nil_r. by rewrite <-!app_assoc in *.
  - pose proof (run_open_quote _ _ _ _ Hat) as H1.
    destruct (run_quote_body _ _ _ _ _ Hb H1) as (c2 & Hr2 & H2).
    pose proof (run_quote_close _ _ _ _ Hs H2) as H2'.
    destruct (IH _ _ _ H2') as (c3 & sq & dq & t & Hr3 & H3). exists c3, sq, dq, t. split.
    + eapply rtc_l; [eapply at_moves, Hat|]. etrans; [exact Hr2|]. eapply rtc_l; [eapply at_moves, H2|done].
    + cbn [app]. by rewrite <-!app_assoc in *.
  - pose proof (run_open_quote _ _ _ _ Hat) as H1. rewrite <-(app_nil_r body) in H1.
    destruct (run_quote_body _ _ _ _ _ Hb H1) as (c2 & Hr2 & H2). exists c2, true, false, []. split.
    + eapply rtc_l; [eapply at_moves, Hat|done].
    + rewrite app_nil_r. by rewrite <-!app_assoc in *.
  - destruct (IH _ _ _ (run_cast _ _ _ _ Hat)) as (c3 & sq & dq & t & Hr3 & H3). exists c3, sq, dq, t.
    split; [eapply rtc_l; [eapply at_moves, Hat|done]|]. by rewrite <-!app_assoc in *.
  - pose proof (run_param _ _ _ _ _ Hw Hne Hs Hat) as H1. cbn [add_name] in H1.
    destruct (IH _ _ _ H1) as (c3 & sq & dq & t & Hr3 & H3). exists c3, sq, dq, t.
    split; [eapply rtc_l; [eapply at_moves, Hat|done]|]. rewrite <-!app_assoc in H3.
    destruct (names_grow (if decide (char_colon :: w ∈ ns) then ns else ns ++ [char_colon :: w]) items) as [suf E].
    revert H3. cbn [render]. rewrite E.
    destruct (position (char_colon :: w) (if decide (char_colon :: w ∈ ns) then ns else ns ++ [char_colon :: w]))
      as [p|] eqn:Ep.
    + by rewrite (position_grow _ _ _ _ Ep).
    + apply position_None in Ep. destruct Ep. case_decide; [done|]. rewrite elem_of_app. right. set_solver.
  - destruct (IH _ _ _ (run_colon _ _ _ _ Hs Hat)) as (c3 & sq & dq & t & Hr3 & H3). exists c3, sq, dq, t.
    split; [eapply rtc_l; [eapply at_moves, Hat|done]|]. by rewrite <-!app_assoc in *.
  - destruct (IH _ _ _ (run_char _ _ _ _ _ Hq Hc Hd Hat)) as (c3 & sq & dq & t & Hr3 & H3). exists c3, sq, dq, t.
    split; [eapply rtc_l; [eapply at_moves, Hat|done]|]. by rewrite <-!app_assoc in *.
Qed.
End run.

(** *** The loop reads the query to its end *)

Lemma handlers_progress c :
  (c.(index) < length c.(query))%nat →
  (c.(index) < (convert_step c).(index))%nat ∧ (convert_step c).(query) = c.(query).
Proof.
  intros Hi. unfold convert_step.
  assert (∀ c', handleDollarQuote c = Some c' → (index c < index c')%nat ∧ query c' = query c) as H1.
  { intros c'. unfold handleDollarQuote. repeat case_match; try done; intros [= <-]; cbn; split; try done.
    - destruct (dollarTag c); cbn; [by rewrite andb_false_r in *|lia].
    - destruct (parse_dollar_tag_inv _ _ ltac:(done)) as [(w & _ & ->) _]. cbn. lia. }
  assert (∀ c', handleSingleQuote c = Some c' → (index c < index c')%nat ∧ query c' = query c) as H2.
  { intros c'. unfold handleSingleQuote. repeat case_match; try done; intros [= <-]; cbn; split; try done; lia. }
  assert (∀ c', handleNamedParam c = Some c' → (index c < index c')%nat ∧ query c' = query c) as H3.
  { intros c'. unfold handleNamedParam, copyPostgresCast, namedParamEnd, writeNamedParam.
    repeat case_match; try done; intros [= <-]; simplify_eq; cbn; split; try done; lia. }
  unfold copyQuotedByte.
  destruct (handleDollarQuote c); [by apply H1|]. destruct (handleSingleQuote c); [by apply H2|].
  destruct (negb _ && negb _); [|cbn; split; [lia|done]].
  destruct (handleNamedParam c); [by apply H3|]. cbn. split; [lia|done].
Qed.

Lemma convert_loop_runs fuel c c' :
  rtc moves c c' → (length c'.(query) <= c'.(index))%nat → (length c.(query) - c.(index) <= fuel)%nat →
  convert_loop fuel c = c'.
Proof.
  intros Hr. revert fuel. induction Hr as [c|c c1 c' [Hi ->] Hr IH]; intros fuel He Hf.
  - destruct fuel; cbn; rewrite decide_False by lia; done.
  - destruct (handlers_progress c Hi) as [Hp Hq]. destruct fuel; cbn; [lia|].
    rewrite decide_True by done. apply IH; [done|]. rewrite Hq. lia.
Qed.

(** *** Every query has items *)

Lemma first_occurrence (tag s : text) :
  absent_before tag (length s) s ∨
  ∃ body rest, s = body ++ tag ++ rest ∧ absent_before tag (length body) s.
Proof.
  induction s as [|c s IH]; [left; intros i; cbn; lia|].
  destruct (HasPrefix (c :: s) tag) eqn:Hp.
  - right. apply HasPrefix_true in Hp as [rest E]. exists [], rest. split; [done|]. intros i; cbn; lia.
  - destruct IH as [Ha|(body & rest & E & Ha)]; [left|right; exists (c :: body), rest; split; [by rewrite E|]];
      intros [|i] Hi; cbn in *; [done|apply Ha; lia|done|apply Ha; lia].
Qed.

Lemma quoted_split n s :
  (length s <= n)%nat →
  quoted_body s ∨ ∃ body rest, s = body ++ char_quote :: rest ∧ quoted_body body ∧
                               ¬ starts_with (λ c, c = char_quote) rest.
Proof.
  revert s. induction n as [|n IH]; intros s Hn; [destruct s; cbn in Hn; [left; constructor|lia]|].
  destruct s as [|c s]; [left; constructor|]. cbn in Hn. destruct (decide (c = char_quote)) as [->|Hc].
  - destruct s as [|d s]; [right; exists [], []; split_and!; [done|constructor|by intros (? & ? & ? & ?)]|].
    destruct (decide (d = char_quote)) as [->|Hd].
    + destruct (IH s) as [Hb|(body & rest & -> & Hb & Hs)]; [cbn in Hn; lia|left; by constructor|].
      right. exists (char_quote :: char_quote :: body), rest. split_and!; [done|by constructor|done].
    + right. exists [], (d :: s). split_and!; [done|constructor|]. intros (? & ? & [= -> ->] & ->). done.
  - destruct (IH s) as [Hb|(body & rest & -> & Hb & Hs)]; [lia|left; by constructor|].
    right. exists (c :: body), rest. split_and!; [done|by constructor|done].
Qed.

Lemma lexes_total_aux n s : (length s <= n)%nat → ∃ items, lexes s items.
Proof.
  revert s. induction n as [|n IH]; intros s Hn; [destruct s; cbn in Hn; [by exists []; constructor|lia]|].
  destruct s as [|c s]; [by exists []; constructor|]. cbn in Hn.
  destruct (decide (c = char_quote)) as [->|Hq].
  { destruct (quoted_split (length s) s) as [Hb|(body & rest & -> & Hb & Hs)]; [done|by eexists; constructor|].
    destruct (IH rest) as [items Hi]; [rewrite length_app in Hn; cbn in Hn; lia|]. eexists. by constructor. }
  destruct (decide (c = char_colon)) as [->|Hc].
  { destruct s as [|d s]; [eexists; apply lex_colon; [by intros (? & ? & ? & ?)|constructor]|].
    destruct (decide (d = char_colon)) as [->|Hd].
    { destruct (IH s) as [items Hi]; [cbn in Hn; lia|]. eexists. by constructor. }
    destruct (word_split (d :: s)) as (w & rest & E & Hw & Hs). destruct w as [|c0 w].
    - destruct (IH (d :: s)) as [items Hi]; [cbn in *; lia|]. eexists. apply lex_colon; [|done]. cbn in E. subst rest.
      intros (ch & s' & Es & [?| ->]); [apply Hs; by exists ch, s'|]. congruence.
    - destruct (IH rest) as [items Hi]; [apply (f_equal length) in E; rewrite length_app in E; cbn in *; lia|].
      rewrite E. eexists. by apply lex_param. }
  destruct (parseDollarTag (c :: s)) as [tag|] eqn:Et.
  - destruct (parse_dollar_tag_inv _ _ Et) as [Ht [s' E]]. rewrite E.
    destruct (first_occurrence tag s') as [Ha|(body & rest & -> & Ha)]; [eexists; by apply lex_dollar_open|].
    destruct (IH rest) as [items Hi]; [|eexists; by apply lex_dollar].
    apply (f_equal length) in E. rewrite !length_app in E. cbn in E.
    destruct (dollar_tag_cons _ Ht) as [? ->]. cbn in E. lia.
  - destruct (IH s) as [items Hi]; [lia|]. eexists. apply lex_char; [done|done| |done].
    intros _ tag rest' Ht E. rewrite E, parse_dollar_tag in Et; done.
Qed.

Lemma lexes_total s : ∃ items, lexes s items.
Proof. by apply (lexes_total_aux (length s)). Qed.

Lemma convert_items query params items :
  lexes query items →
  let c := convert (newNamedParamConverter query params) in
  c.(out) = concat (render (names items) <$> items) ∧
  c.(ordered) = (λ tok, default AnyNil (params !! tok)) <$> names items.
Proof.
  intros Hl. destruct (run_lexes query params query items Hl (newNamedParamConverter query params) [] [])
    as (c' & sq & dq & tag & Hr & Hat); [split; cbn; (done || lia)|].
  assert (convert (newNamedParamConverter query params) = c') as ->.
  { apply convert_loop_runs; [done| |cbn; lia]. rewrite (at_query _ _ _ _ _ _ _ _ _ Hat).
    pose proof (at_rest _ _ _ _ _ _ _ _ _ Hat) as E. apply (f_equal length) in E.
    rewrite length_drop in E. cbn in E. lia. }
  split; [apply (at_out _ _ _ _ _ _ _ _ _ Hat)|apply (at_ordered _ _ _ _ _ _ _ _ _ Hat)].
Qed.

(** (C12) Every query can be read by the lexical grammar, and however it is read, its
    items spell the query, and the conversion keeps the literal items (quoted
    strings, casts, plain text) byte for byte, replaces each occurrence of the k-th
    distinct named token by [$k], and returns the values of the distinct tokens in
    that order. *)
Theorem ConvertQueryAndNamedParams_renders query params :
  (∃ items, lexes query items) ∧
  ∀ items, lexes query items →
    concat (item_text <$> items) = query ∧ NoDup (names items) ∧
    ConvertQueryAndNamedParams query params =
      (concat (render (names items) <$> items),
       (λ tok, default AnyNil (mergeNamedParams params !! tok)) <$> names items).
Proof.
  split; [apply lexes_total|]. intros items Hl.
  split_and!; [by rewrite <-(lexes_text _ _ Hl)|apply names_NoDup; constructor|].
  unfold ConvertQueryAndNamedParams.
  by destruct (convert_items query (mergeNamedParams params) items Hl) as [-> ->].
Qed.

(** ** IN clauses *)

(** Text without quotes, colons and dollars: all of it is literal. *)
Definition plain (t : text) : Prop :=
  Forall (λ c, c ≠ char_quote ∧ c ≠ char_colon ∧ c ≠ char_dollar) t.
Definition lits (t : text) : list item := (λ c, Lit [c]) <$> t.

Lemma lexes_plain_app t s items : plain t → lexes s items → lexes (t ++ s) (lits t ++ items).
Proof.
  induction 1 as [|c t (Hq & Hc & Hd) _ IH]; intros Hl; [done|]. cbn. apply lex_char; [done..|by apply IH].
Qed.

Lemma names_lits ns t items : foldl add_name ns (lits t ++ items) = foldl add_name ns items.
Proof. induction t as [|c t IH]; [done|apply IH]. Qed.

Lemma render_lits ns t : concat (render ns <$> lits t) = t.
Proof. induction t as [|c t IH]; [done|]. unfold lits in *. cbn. by f_equal. Qed.

(** The items of a comma-separated list of tokens. *)
Fixpoint key_items (keys : list text) : list item :=
  match keys with
  | [] => []
  | [k] => [Param k]
  | k :: keys => Param k :: Lit "," :: key_items keys
  end.

Definition token (k : text) : Prop := ∃ w, word w ∧ w ≠ [] ∧ k = char_colon :: w.

Lemma lexes_keys keys rest items :
  Forall token keys → ¬ starts_with (λ c, isWordChar c = true) rest → lexes rest items →
  lexes (Join keys "," ++ rest) (key_items keys ++ items).
Proof.
  intros Hk Hs Hl. induction Hk as [|k keys (w & Hw & Hne & ->) Hk IH]; [done|].
  destruct keys as [|k' keys]; [cbn; by apply lex_param|].
  rewrite Join_cons by done. rewrite <-!app_assoc. cbn [app]. apply lex_param; [done|done| |].
  - by intros (? & ? & [= <- _] & ?).
  - apply lex_char; [done..|by intros [=]|]. apply IH.
Qed.

Lemma names_keys ns keys : NoDup (ns ++ keys) → foldl add_name ns (key_items keys) = ns ++ keys.
Proof.
  revert ns. induction keys as [|k keys IH]; intros ns Hn; [cbn; by rewrite app_nil_r|].
  assert (k ∉ ns) as Hk by (apply NoDup_app in Hn as (_ & Hn & _); intros ?; eapply Hn; [done|apply list_elem_of_here]).
  destruct keys as [|k' keys]; cbn [key_items foldl add_name]; rewrite decide_False by done; [done|].
  rewrite IH; rewrite <-app_assoc; done.
Qed.

(** [$i], [$(i+1)], ... *)
Fixpoint placeholders (n : nat) (i : Z) : list text :=
  match n with O => [] | S n => ("$" ++ Itoa i) :: placeholders n (i + 1) end.

Lemma render_keys pre keys :
  NoDup (pre ++ keys) →
  concat (render (pre ++ keys) <$> key_items keys) =
    Join (placeholders (length keys) (Z.of_nat (length pre) + 1)) ",".
Proof.
  revert pre. induction keys as [|k keys IH]; intros pre Hn; [done|].
  assert (position k (pre ++ k :: keys) = Some (Z.of_nat (length pre) + 1)) as Hp.
  { rewrite cons_middle, app_assoc. apply position_grow, position_new.
    apply NoDup_app in Hn as (_ & Hn & _). intros ?. eapply Hn; [done|apply list_elem_of_here]. }
  specialize (IH (pre ++ [k])). rewrite <-app_assoc in IH. specialize (IH Hn).
  rewrite length_app in IH. cbn [length app] in IH.
  replace (Z.of_nat (length pre + 1) + 1) with (Z.of_nat (length pre) + 1 + 1) in IH by lia.
  destruct keys as [|k' keys]; cbn [key_items fmap list_fmap concat render]; rewrite Hp; cbn [default];
    [cbn; by rewrite app_nil_r|].
  cbn [length placeholders]. rewrite Join_cons by done. by do 2 f_equal.
Qed.

Lemma in_keys_token col n i : word col → 0 <= i → Forall token (in_keys col n i).
Proof.
  intros Hw. revert i. induction n as [|n IH]; intros i Hi; cbn; constructor; [|apply IH; lia].
  exists (col ++ Itoa (i + 1)). split_and!; [|by destruct col; [apply Itoa_nonempty|]|done].
  apply Forall_app. split; [done|]. eapply Forall_impl; [apply Itoa_digits; lia|].
  intros c Hc. unfold isWordChar. by rewrite Hc, orb_true_r.
Qed.

(** IN clauses round-trip through the conversion: [GetParameterizedInClause] for a
    column name of word characters, spliced between plain texts, becomes the
    placeholders [$1,...,$n] with the values in order. *)
Theorem InClause_roundtrip col values pre post :
  word col → plain pre → plain post → ¬ starts_with (λ c, isWordChar c = true) post →
  let r := GetParameterizedInClause col values in
  ConvertQueryAndNamedParams (pre ++ r.1 ++ post) [r.2] =
    (pre ++ Join (placeholders (length values) 1) "," ++ post, values).
Proof.
  intros Hcol Hpre Hpost Hs r. set (ks := in_keys col (length values) 0).
  assert (r.1 = Join ks ",") as ->.
  { unfold r, GetParameterizedInClause. cbn [fst]. rewrite in_clause_loop_text. apply TrimSuffix_Join.
    eapply Forall_impl; [by apply (in_keys_token col (length values) 0)|]. by intros ? (? & _ & _ & ->). }
  assert (lexes (pre ++ Join ks "," ++ post) (lits pre ++ key_items ks ++ lits post)) as Hl.
  { apply lexes_plain_app; [done|]. apply lexes_keys; [by apply in_keys_token|done|].
    pose proof (lexes_plain_app post [] [] Hpost lex_end) as Hp. by rewrite !app_nil_r in Hp. }
  pose proof (in_keys_NoDup col (length values) 0) as Hn.
  assert (names (lits pre ++ key_items ks ++ lits post) = ks) as Hnames.
  { unfold names. rewrite names_lits, foldl_app, names_keys by done. rewrite <-(app_nil_r (lits post)).
    by rewrite names_lits. }
  unfold ConvertQueryAndNamedParams.
  destruct (convert_items _ (mergeNamedParams [r.2]) _ Hl) as [-> ->]. rewrite Hnames. f_equal.
  - rewrite !fmap_app, !concat_app, !render_lits. do 2 f_equal.
    pose proof (render_keys [] ks Hn) as Hrk. unfold ks in Hrk at 3. rewrite in_keys_length in Hrk. exact Hrk.
  - cbn [mergeNamedParams foldl]. rewrite (right_id_L ∅ (∪)). apply in_clause_loop_values.
Qed.

(** ** Statements *)

(** [qs] are the quoted forms of [ks]. *)
Definition quotes (ks qs : list text) : Prop := Forall2 (λ k q, safeIdent k = Ok q) ks qs.

Lemma update_columns_Ok data ks qs pos :
  quotes ks qs →
  update_columns data ks pos =
    Ok (zip_with (λ q p, q ++ str " = " ++ p) qs (placeholders (length ks) pos),
        column_value data <$> ks, pos + Z.of_nat (length ks)).
Proof.
  intros Hq. revert pos. induction Hq as [|k q ks qs Hk _ IH]; intros pos; cbn.
  - by rewrite Z.add_0_r.
  - rewrite Hk, IH. cbn. do 2 f_equal. lia.
Qed.

Lemma update_columns_Err data ks pos :
  (∃ k e, k ∈ ks ∧ safeIdent k = Err e) → ∃ e, update_columns data ks pos = Err e.
Proof.
  intros (k & e & Hk & He). revert pos. induction ks as [|k' ks IH]; intros pos; [by apply elem_of_nil in Hk|].
  cbn. destruct (safeIdent k') as [q|e'] eqn:Ek; [|by eexists]. cbn.
  apply elem_of_cons in Hk as [->|Hk]; [congruence|]. destruct (IH Hk (pos + 1)) as [e' ->]. by eexists.
Qed.

Lemma update_columns_pos data ks pos sp vs next :
  update_columns data ks pos = Ok (sp, vs, next) → next = pos + Z.of_nat (length ks).
Proof.
  revert pos sp vs. induction ks as [|k ks IH]; intros pos sp vs; cbn; [intros [= _ _ <-]; lia|].
  destruct (safeIdent k); [|done]. cbn. destruct (update_columns data ks (pos + 1)) as [[[? ?] ?]|] eqn:E; [|done].
  cbn. intros [= _ _ <-]. apply IH in E. lia.
Qed.

Lemma insert_columns_Ok data ks qs i :
  quotes ks qs →
  insert_columns data ks i = Ok (qs, placeholders (length ks) (i + 1), column_value data <$> ks).
Proof.
  intros Hq. revert i. induction Hq as [|k q ks qs Hk _ IH]; intros i; [done|]. cbn. by rewrite Hk, IH.
Qed.

Lemma insert_columns_Err data ks i :
  (∃ k e, k ∈ ks ∧ safeIdent k = Err e) → ∃ e, insert_columns data ks i = Err e.
Proof.
  intros (k & e & Hk & He). revert i. induction ks as [|k' ks IH]; intros i; [by apply elem_of_nil in Hk|].
  cbn. destruct (safeIdent k') as [q|e'] eqn:Ek; [|by eexists]. cbn.
  apply elem_of_cons in Hk as [->|Hk]; [congruence|]. destruct (IH Hk (i + 1)) as [e' ->]. by eexists.
Qed.

Section statements.
Context {W : Type} (Connect : string → result pg_error (exec_fn W)).

(** (C23) [UpdateFromMap] with a legal table, legal columns and matching placeholders
    sends exactly one statement: the columns in sorted order with [$1..$n], the marks
    of the WHERE clause numbered on from [$n+1], the values in the same order and then
    the caller's arguments. It does not depend on the iteration order of the map. In
    every other case it sends nothing and reports an error. *)
Theorem UpdateFromMap_statement ctx w tbl data wher args :
  NoDup data.*1 →
  let ks := Strings data.*1 in
  let n := Z.of_nat (length data) in
  (∀ qt qs, data ≠ [] → safeIdent tbl = Ok qt → quotes ks qs →
     (char_mark ∈ wher → Count wher char_mark = Z.of_nat (length args)) →
     ∀ data', data ≡ₚ data' →
     UpdateFromMapContext Connect (Some ctx) w tbl data' wher args =
       match ExecContext Connect ctx w
               ("UPDATE " ++ qt ++ " SET " ++
                Join (zip_with (λ q p, q ++ str " = " ++ p) qs (placeholders (length data) 1)) ", " ++
                " WHERE " ++ number_marks wher (n + 1))
               ((column_value data <$> ks) ++ args) with
       | (w, Err e) => (w, Err e)
       | (w, Ok res) => (w, Ok (res.(RowsAffected)).1)
       end) ∧
  (data = [] ∨ (∃ e, safeIdent tbl = Err e) ∨ (∃ k e, k ∈ ks ∧ safeIdent k = Err e) ∨
   (char_mark ∈ wher ∧ Count wher char_mark ≠ Z.of_nat (length args)) →
   ∃ e, UpdateFromMapContext Connect (Some ctx) w tbl data wher args = (w, Err e)).
Proof.
  intros Hn ks n. assert (length ks = length data) as Hlen
    by (unfold ks; rewrite (Strings_perm data.*1); apply length_fmap).
  split.
  - intros qt qs Hne Ht Hq Hc data' Hp. unfold UpdateFromMapContext.
    rewrite bool_decide_eq_false_2 by (intros ->; by apply Permutation_nil_r in Hp).
    rewrite Ht. cbn [mbind result_bind]. rewrite <-(Strings_Permutation _ _ (fmap_Permutation fst _ _ Hp)). fold ks.
    rewrite (update_columns_Ok _ _ qs) by done. cbn [mbind result_bind].
    rewrite convertWhere_spec by lia. rewrite bool_decide_eq_false_2 by naive_solver. cbn [mbind result_bind].
    rewrite Hlen. replace (1 + Z.of_nat (length data)) with (n + 1) by lia.
    replace (column_value data' <$> ks) with (column_value data <$> ks); [done|].
    apply list_fmap_ext. intros _ k _. by apply column_value_perm.
  - intros Hbad. unfold UpdateFromMapContext. case_bool_decide as Hd; [by eexists|].
    destruct (safeIdent tbl) as [qt|e] eqn:Et; [|by eexists]. cbn [mbind result_bind]. fold ks.
    destruct (update_columns data ks 1) as [[[sp vs] pos]|e] eqn:Eu; [|by eexists]. cbn [mbind result_bind].
    destruct Hbad as [?|[[e He]|[Hk|Hm]]]; [done|congruence| |].
    + apply (update_columns_Err data ks 1) in Hk as [e He]. congruence.
    + rewrite convertWhere_spec; [rewrite bool_decide_eq_true_2 by done; by eexists|].
      apply (update_columns_pos data ks 1) in Eu. lia.
Qed.

(** [InsertFromMap] likewise: one statement with the sorted, quoted columns,
    [$1..$n] and the values in the same order, independent of the iteration order, or
    nothing and an error. *)
Theorem InsertFromMap_statement ctx w tbl data :
  NoDup data.*1 →
  let ks := Strings data.*1 in
  (∀ qt qs, data ≠ [] → safeIdent tbl = Ok qt → quotes ks qs →
     ∀ data', data ≡ₚ data' →
     InsertFromMapContext Connect (Some ctx) w tbl data' =
       match ExecContext Connect ctx w
               ("INSERT INTO " ++ qt ++ " (" ++ Join qs ", " ++ ") VALUES (" ++
                Join (placeholders (length data) 1) ", " ++ ")")
               (column_value data <$> ks) with
       | (w, Err e) => (w, Err e)
       | (w, Ok res) => (w, Ok ((res.(RowsAffected)).1, or_zero res.(LastInsertId)))
       end) ∧
  (data = [] ∨ (∃ e, safeIdent tbl = Err e) ∨ (∃ k e, k ∈ ks ∧ safeIdent k = Err e) →
   ∃ e, InsertFromMapContext Connect (Some ctx) w tbl data = (w, Err e)).
Proof.
  intros Hn ks. assert (length ks = length data) as Hlen
    by (unfold ks; rewrite (Strings_perm data.*1); apply length_fmap).
  split.
  - intros qt qs Hne Ht Hq data' Hp. unfold InsertFromMapContext.
    rewrite bool_decide_eq_false_2 by (intros ->; by apply Permutation_nil_r in Hp).
    rewrite Ht. cbn [mbind result_bind]. rewrite <-(Strings_Permutation _ _ (fmap_Permutation fst _ _ Hp)). fold ks.
    rewrite (insert_columns_Ok _ _ qs) by done. cbn [mbind result_bind]. rewrite Hlen.
    replace (column_value data' <$> ks) with (column_value data <$> ks); [done|].
    apply list_fmap_ext. intros _ k _. by apply column_value_perm.
  - intros Hbad. unfold InsertFromMapContext. case_bool_decide as Hd; [by eexists|].
    destruct (safeIdent tbl) as [qt|e] eqn:Et; [|by eexists]. cbn [mbind result_bind]. fold ks.
    destruct Hbad as [?|[[e He]|Hk]]; [done|congruence|].
    apply (insert_columns_Err data ks 0) in Hk as [e ->]. by eexists.
Qed.
End statements.

(** ** Concrete instances *)

(** A connection that records what it is sent. *)
Definition log_conn : exec_fn (list (text * list any)) :=
  λ w q args, (w ++ [(q, args)], Ok (mkSqlResult (1, None) (0, Some (ErrDriver "unsupported")))).
Definition log_ctx : DBContext (list (text * list any)) := mkDBContext None (Some log_conn) "" None.
Definition no_cluster (_ : string) : result pg_error (exec_fn (list (text * list any))) := Err (ErrDriver "unknown").

Definition demo_row : list (text * any) := [(str "name", AnyString "x"); (str "age", AnyInt 3)].
Definition dq (s : string) : text := quoted s.

Lemma demo_row_NoDup : NoDup demo_row.*1.
Proof. apply (bool_decide_unpack _). vm_compute. exact I. Qed.

Example converter_example :
  ConvertQueryAndNamedParams "SELECT ':x', a::int FROM t WHERE a = :x AND b = :y OR c = :x"
    [{[ str ":x" := AnyInt 1; str ":y" := AnyInt 2 ]}] =
  (str "SELECT ':x', a::int FROM t WHERE a = $1 AND b = $2 OR c = $1", [AnyInt 1; AnyInt 2]).
Proof. vm_compute. reflexivity. Qed.

Lemma InClause_roundtrip_witness :
  let r := GetParameterizedInClause "id" [AnyInt 5; AnyInt 8] in
  ConvertQueryAndNamedParams ("id IN (" ++ r.1 ++ ")") [r.2] =
    (str "id IN ($1,$2)", [AnyInt 5; AnyInt 8]).
Proof.
  apply (InClause_roundtrip "id" [AnyInt 5; AnyInt 8] "id IN (" ")").
  - repeat constructor.
  - repeat constructor; discriminate.
  - repeat constructor; discriminate.
  - intros (c & s & [= <- _] & Hc). discriminate Hc.
Defined.

Lemma UpdateFromMap_statement_witness :
  UpdateFromMapContext no_cluster (Some log_ctx) [] "users" demo_row "id = ?" [AnyInt 7] =
    ([("UPDATE " ++ dq "users" ++ " SET " ++ dq "age" ++ " = $1, " ++ dq "name" ++ " = $2 WHERE id = $3",
       [AnyInt 3; AnyString "x"; AnyInt 7])], Ok 1).
Proof.
  rewrite (proj1 (UpdateFromMap_statement no_cluster log_ctx [] "users" demo_row "id = ?" [AnyInt 7] demo_row_NoDup)
    (dq "users") [dq "age"; dq "name"]);
    [vm_compute; reflexivity|discriminate|vm_compute; reflexivity| |vm_compute; reflexivity|reflexivity].
  repeat constructor.
Defined.

Lemma InsertFromMap_statement_witness :
  InsertFromMapContext no_cluster (Some log_ctx) [] "users" demo_row =
    ([("INSERT INTO " ++ dq "users" ++ " (" ++ dq "age" ++ ", " ++ dq "name" ++ ") VALUES ($1, $2)",
       [AnyInt 3; AnyString "x"])], Ok (1, 0)).
Proof.
  rewrite (proj1 (InsertFromMap_statement no_cluster log_ctx [] "users" demo_row demo_row_NoDup)
    (dq "users") [dq "age"; dq "name"]);
    [vm_compute; reflexivity|discriminate|vm_compute; reflexivity| |reflexivity].
  repeat constructor.
Defined.
