(* ===== verification/MySqlHelper.v ===== *)
(** * The MySQL query helpers ([src/storage/mysql/helper.go], [dbcontext.go])

    Identifier quoting, positional conversion of named parameters and the map-based
    statements, on the conventions of [PgHelper.v]. Unlike there, a nil context is
    noticed only after the statement was built. The operation hook, which only
    observes, is left out. *)

From Stdlib Require Import ZArith Lia Ascii.
From stdpp Require Import pretty.
From S2P Require Import Prelude GoValue SqlText.
Local Open Scope Z_scope.

Inductive mysql_error :=
  | MyNilContext
  | MyEmptyIdent
  | MyInvalidIdent (ident : text)
  | MyEmptyMap
  | MyEmptyWhere
  | MyExec (e : mysql_error)            (* error executing query *)
  | MyAffected (e : mysql_error)        (* error fetching impacted rows *)
  | MyDriver (why : string).

(** ** Identifiers *)

(** [^[A-Za-z_][A-Za-z0-9_]*$] *)
Definition mysqlIdentifierRegexp (s : text) : bool :=
  match s with
  | [] => false
  | c :: s => (isLetter c || bool_decide (c = char 95)) && forallb isWordChar s
  end.

Fixpoint backtick_parts (ident : text) (parts : list text) : result mysql_error (list text) :=
  match parts with
  | [] => Ok []
  | part :: parts =>
      if negb (mysqlIdentifierRegexp part) then Err (MyInvalidIdent ident)
      else
        rest ← backtick_parts ident parts;
        Ok ((char_backtick :: part ++ [char_backtick]) :: rest)
  end.

Definition safeMySQLIdent (ident : text) : result mysql_error text :=
  let ident := TrimSpace ident in
  if bool_decide (ident = []) then Err MyEmptyIdent
  else
    parts ← backtick_parts ident (Split ident char_dot);
    Ok (Join parts [char_dot]).

Fixpoint quoteMySQLIdentifiers (fields : list text) : result mysql_error (list text) :=
  match fields with
  | [] => Ok []
  | field :: fields =>
      identifier ← safeMySQLIdent field;
      quoted ← quoteMySQLIdentifiers fields;
      Ok (identifier :: quoted)
  end.

(** ** Named parameters *)

(** [regexp.MustCompile(":[a-zA-Z0-9_]+").FindAllString(query, -1)]: the leftmost
    longest matches that do not overlap; [skip] bytes belong to the last match. *)
Fixpoint FindAllString (s : text) (skip : nat) : list text :=
  match s with
  | [] => []
  | c :: s =>
      match skip with
      | S skip => FindAllString s skip
      | O =>
          let w := take_while isWordChar s in
          if bool_decide (c = char_colon) && negb (bool_decide (w = []))
          then (c :: w) :: FindAllString s (length w)
          else FindAllString s 0
      end
  end.

(** The loop over the matches: each replaces its first occurrence in the query. *)
Definition ConvertQueryAndNamedParams (query : text) (params : list (gmap text any)) : text * list any :=
  let allParams := foldl (λ all mp, mp ∪ all) (∅ : gmap text any) params in
  foldl (λ acc token, (Replace1 acc.1 token [char_mark], acc.2 ++ [default AnyNil (allParams !! token)]))
    (query, []) (FindAllString query 0).

Definition GetParameterizedInClause (columnName : text) (values : list any) : text * gmap text any :=
  let r := in_clause_loop columnName values 0 [] ∅ in
  (TrimSuffix r.1 (char 44), r.2).

(** ** Executing statements *)

Record sql_result := mkSqlResult {
  RowsAffected : Z * option mysql_error;
  LastInsertId : Z * option mysql_error
}.

Section exec.
Context {W : Type}.

Definition exec_fn : Type := W → text → list any → W * result mysql_error sql_result.

Record DBContext := mkDBContext {
  Tx : option exec_fn;
  Conn : option exec_fn;
  Cluster : string;
  ExecContextFn : option exec_fn
}.

(** What [ConnectContext] finds for a cluster. *)
Context (ConnectContext : string → result mysql_error exec_fn).

Definition execContext (ctx : DBContext) (w : W) (q : text) (args : list any) : W * result mysql_error sql_result :=
  match ctx.(Tx) with
  | Some tx => tx w q args
  | None =>
      match ctx.(Conn) with
      | Some conn => conn w q args
      | None =>
          match ConnectContext ctx.(Cluster) with
          | Err e => (w, Err e)
          | Ok conn => conn w q args
          end
      end
  end.

Definition ExecContext (ctx : DBContext) (w : W) (q : text) (args : list any) : W * result mysql_error sql_result :=
  match ctx.(ExecContextFn) with
  | Some f => f w q args
  | None => execContext ctx w q args
  end.

Definition or_zero (r : Z * option mysql_error) : Z := match r.2 with Some _ => 0 | None => r.1 end.

Definition ExecuteWriteQueryContext (dbctx : option DBContext) (w : W) (q : text) (args : list any)
    : W * result mysql_error (Z * Z) :=
  match dbctx with
  | None => (w, Err MyNilContext)
  | Some ctx =>
      match ExecContext ctx w q args with
      | (w, Err e) => (w, Err (MyExec e))
      | (w, Ok res) =>
          let lastInsertId := or_zero res.(LastInsertId) in
          match res.(RowsAffected) with
          | (_, Some e) => (w, Err (MyAffected e))
          | (rowsImpacted, None) => (w, Ok (rowsImpacted, lastInsertId))
          end
      end
  end.

Fixpoint insert_columns (data : list (text * any)) (keys : list text)
    : result mysql_error (list text * list text * list any) :=
  match keys with
  | [] => Ok ([], [], [])
  | column :: keys =>
      quotedColumn ← safeMySQLIdent column;
      '(columns, placeholders, values) ← insert_columns data keys;
      Ok (quotedColumn :: columns, [char_mark] :: placeholders, column_value data column :: values)
  end.

Definition InsertFromMapContext (dbctx : option DBContext) (w : W) (tableName : text)
    (data : list (text * any)) : W * result mysql_error (Z * Z) :=
  match (quotedTableName ← safeMySQLIdent tableName;
         _ ← (if bool_decide (data = []) then Err MyEmptyMap else Ok tt);
         '(columns, placeholders, values) ← insert_columns data (Strings data.*1);
         Ok ("INSERT INTO " ++ quotedTableName ++ " (" ++ Join columns ", " ++ ") VALUES (" ++
             Join placeholders ", " ++ ")", values)) with
  | Err e => (w, Err e)
  | Ok (q, values) =>
      match dbctx with
      | None => (w, Err MyNilContext)
      | Some ctx =>
          match ExecContext ctx w q values with
          | (w, Err e) => (w, Err e)
          | (w, Ok res) => (w, Ok (or_zero res.(RowsAffected), or_zero res.(LastInsertId)))
          end
      end
  end.

Fixpoint update_columns (data : list (text * any)) (keys : list text)
    : result mysql_error (list text * list any) :=
  match keys with
  | [] => Ok ([], [])
  | column :: keys =>
      quotedColumn ← safeMySQLIdent column;
      '(setParts, values) ← update_columns data keys;
      Ok ((quotedColumn ++ " = ?") :: setParts, column_value data column :: values)
  end.

Definition UpdateFromMapContext (dbctx : option DBContext) (w : W) (tableName : text)
    (data : list (text * any)) (wher : text) (params : list any) : W * result mysql_error Z :=
  match (quotedTableName ← safeMySQLIdent tableName;
         _ ← (if bool_decide (data = []) then Err MyEmptyMap else Ok tt);
         _ ← (if bool_decide (TrimSpace wher = []) then Err MyEmptyWhere else Ok tt);
         '(setParts, values) ← update_columns data (Strings data.*1);
         Ok ("UPDATE " ++ quotedTableName ++ " SET " ++ Join setParts ", " ++ " WHERE " ++ wher,
             values ++ params)) with
  | Err e => (w, Err e)
  | Ok (q, values) =>
      match dbctx with
      | None => (w, Err MyNilContext)
      | Some ctx =>
          match ExecContext ctx w q values with
          | (w, Err e) => (w, Err e)
          | (w, Ok res) => (w, Ok (or_zero res.(RowsAffected)))
          end
      end
  end.

Definition DeleteByPrimaryKeyContext (dbctx : option DBContext) (w : W) (tableName pkColumn : text)
    (pkValue : any) : W * result mysql_error Z :=
  match (tbl ← safeMySQLIdent tableName; pk ← safeMySQLIdent pkColumn;
         Ok ("DELETE FROM " ++ tbl ++ " WHERE " ++ pk ++ " = ?")) with
  | Err e => (w, Err e)
  | Ok q =>
      match dbctx with
      | None => (w, Err MyNilContext)
      | Some ctx =>
          match ExecContext ctx w q [pkValue] with
          | (w, Err e) => (w, Err e)
          | (w, Ok res) => (w, Ok (or_zero res.(RowsAffected)))
          end
      end
  end.

Definition SoftDeleteByPrimaryKeyContext (dbctx : option DBContext) (w : W) (tableName deleteCol pkCol : text)
    (value : any) : W * result mysql_error Z :=
  match (tbl ← safeMySQLIdent tableName; del ← safeMySQLIdent deleteCol; pk ← safeMySQLIdent pkCol;
         Ok ("UPDATE " ++ tbl ++ " SET " ++ del ++ " = 1 WHERE " ++ pk ++ " = ?")) with
  | Err e => (w, Err e)
  | Ok q =>
      match dbctx with
      | None => (w, Err MyNilContext)
      | Some ctx =>
          match ExecContext ctx w q [value] with
          | (w, Err e) => (w, Err e)
          | (w, Ok res) => (w, Ok (or_zero res.(RowsAffected)))
          end
      end
  end.
End exec.
Arguments DBContext : clear implicits.
Arguments exec_fn : clear implicits.

(** ** Identifiers, characterised *)

Definition backticked (seg : text) : text := char_backtick :: seg ++ [char_backtick].

(** A word that does not start with a digit. *)
Definition mysql_segment (seg : text) : Prop :=
  ∃ c s, seg = c :: s ∧ isWordChar c = true ∧ isDigit c = false ∧ word s.

Lemma letters_and_digits c : isDigit c = true → isLetter c = false ∧ c ≠ char 95.
Proof.
  unfold isDigit, isLetter, between. intros H. split; [lia|]. intros ->. done.
Qed.

Lemma mysqlIdentifierRegexp_spec s : mysqlIdentifierRegexp s = true ↔ mysql_segment s.
Proof.
  unfold mysql_segment, word. destruct s as [|c s]; cbn; [split; [done|]; by intros (? & ? & ? & _)|].
  rewrite andb_true_iff, forallb_forall. setoid_rewrite <-list_elem_of_In.
  setoid_rewrite Forall_forall. unfold isWordChar at 2. split.
  - intros [Hc Hs]. exists c, s. split_and!; [done| | |done].
    + apply orb_true_iff in Hc as [->| ->]; [done|by rewrite orb_true_r].
    + destruct (isDigit c) eqn:Hd; [|done]. apply letters_and_digits in Hd as [Hl Hu].
      rewrite Hl, bool_decide_eq_false_2 in Hc by done. done.
  - intros (c' & s' & [= <- <-] & Hw & Hd & Hs). split; [|done]. by rewrite Hd, orb_false_r in Hw.
Qed.

Lemma backtick_parts_spec ident parts qs :
  backtick_parts ident parts = Ok qs ↔ Forall mysql_segment parts ∧ qs = backticked <$> parts.
Proof.
  revert qs. induction parts as [|p parts IH]; intros qs; cbn.
  - split; [by intros [= <-]|]. by intros [_ ->].
  - rewrite Forall_cons, <-mysqlIdentifierRegexp_spec.
    destruct (mysqlIdentifierRegexp p); cbn; [|split; [done|by intros [[? _] _]]].
    destruct (backtick_parts ident parts) as [rest|e]; cbn.
    + destruct (IH rest) as [[Hf ->] _]; [done|]. split; [by intros [= <-]|]. by intros [_ ->].
    + split; [done|]. intros [[_ Hf] _]. by destruct (IH (backticked <$> parts)) as [_ ?%(λ f, f (conj Hf eq_refl))].
Qed.

Lemma mysql_segment_no_dot seg : mysql_segment seg → char_dot ∉ seg.
Proof.
  intros (c & s & -> & Hc & _ & Hs) [<-|Hd]%elem_of_cons; [done|].
  unfold word in Hs. rewrite Forall_forall in Hs. by apply Hs in Hd.
Qed.

(** [safeMySQLIdent] accepts exactly the texts that are, after trimming, one or
    more segments joined by dots, each a word that does not start with a digit, and
    its result is those segments between backticks. *)
Theorem safeMySQLIdent_quotes ident q :
  safeMySQLIdent ident = Ok q ↔
  ∃ segs, segs ≠ [] ∧ Forall mysql_segment segs ∧
    TrimSpace ident = Join segs [char_dot] ∧ q = Join (backticked <$> segs) [char_dot].
Proof.
  unfold safeMySQLIdent. split.
  - case_bool_decide; [done|]. destruct (backtick_parts _ _) as [qs|] eqn:Hq; [|done]. intros [= <-].
    apply backtick_parts_spec in Hq as [Hf ->]. eexists.
    split_and!; [apply Split_nonempty|exact Hf|by rewrite Join_Split|done].
  - intros (segs & Hne & Hp & Ht & ->). rewrite Ht. rewrite Split_Join by
      (done || (eapply Forall_impl; [exact Hp|apply mysql_segment_no_dot])).
    rewrite bool_decide_eq_false_2.
    + by rewrite (proj2 (backtick_parts_spec _ segs _) (conj Hp eq_refl)).
    + destruct segs as [|seg segs]; [done|]. apply Forall_cons in Hp as [(c & s & -> & _) _]. by destruct segs.
Qed.

(** ** Named parameters, read once *)

Inductive item := Lit (c : ascii) | Param (token : text).

(** A colon with a word behind it is a parameter; everything else is literal. *)
Inductive reads : text → list item → Prop :=
  | read_end : reads [] []
  | read_param w rest items :
      word w → w ≠ [] → ¬ starts_with (λ c, isWordChar c = true) rest → reads rest items →
      reads (char_colon :: w ++ rest) (Param (char_colon :: w) :: items)
  | read_char c rest items :
      (c = char_colon → ¬ starts_with (λ c, isWordChar c = true) rest) → reads rest items →
      reads (c :: rest) (Lit c :: items).

Definition positional (i : item) : text := match i with Lit c => [c] | Param _ => [char_mark] end.
Definition tokens (items : list item) : list text :=
  omap (λ i, match i with Param token => Some token | Lit _ => None end) items.

Lemma reads_total_aux n s : (length s <= n)%nat → ∃ items, reads s items.
Proof.
  revert s. induction n as [|n IH]; intros s Hn; [destruct s; cbn in Hn; [by exists []; constructor|lia]|].
  destruct s as [|c s]; [by exists []; constructor|]. cbn in Hn.
  destruct (word_split s) as (w & rest & -> & Hw & Hs). destruct (decide (c = char_colon ∧ w ≠ [])) as [[-> Hne]|Hc].
  - destruct (IH rest) as [items Hi]; [rewrite length_app in Hn; lia|]. eexists. by apply read_param.
  - destruct (IH (w ++ rest)) as [items Hi]; [lia|]. eexists. apply read_char; [|done].
    intros ->. destruct w; [done|]. by destruct Hc.
Qed.

Lemma FindAllString_skip w s : FindAllString (w ++ s) (length w) = FindAllString s 0.
Proof. by induction w. Qed.

Lemma FindAllString_tokens s items : reads s items → FindAllString s 0 = tokens items.
Proof.
  induction 1 as [|w rest items Hw Hne Hs _ IH|c rest items Hc _ IH]; [done| |].
  - cbn [FindAllString]. rewrite take_while_app by done. rewrite (bool_decide_eq_false_2 (w = [])) by done.
    cbn. by rewrite FindAllString_skip, IH.
  - change (tokens (Lit c :: items)) with (tokens items). rewrite <-IH. cbn [FindAllString].
    destruct (bool_decide_reflect (c = char_colon)) as [->|]; [|done]. cbn.
    destruct (take_while isWordChar rest) as [|d w] eqn:E; [done|].
    exfalso. apply (Hc eq_refl). destruct rest as [|d' rest]; [done|]. cbn in E.
    destruct (isWordChar d') eqn:Hd; [by repeat eexists|done].
Qed.

(** No parameter starts in the first [length pre] bytes. *)
Definition inert (pre s : text) : Prop :=
  ∀ i c, (i < length pre)%nat → (pre ++ s) !! i = Some char_colon → (pre ++ s) !! S i = Some c →
    isWordChar c = false.

Lemma inert_absent pre w s : word w → w ≠ [] → inert pre ((char_colon :: w) ++ s) →
  absent_before (char_colon :: w) (length pre) (pre ++ (char_colon :: w) ++ s).
Proof.
  intros Hw Hne Hi i Hlt. apply not_true_iff_false. intros [s' E]%HasPrefix_true.
  destruct w as [|c w]; [done|]. apply Forall_cons in Hw as [Hc _].
  assert (isWordChar c = false); [|congruence]. apply (Hi i c Hlt).
  - by rewrite <-(Nat.add_0_r i), <-lookup_drop, E.
  - by rewrite <-Nat.add_1_r, <-lookup_drop, E.
Qed.

(** A literal byte joins the inert prefix; so does the mark of a replaced parameter. *)
Lemma inert_char pre c s :
  inert pre (c :: s) → (c = char_colon → ¬ starts_with (λ c, isWordChar c = true) s) → inert (pre ++ [c]) s.
Proof.
  intros Hi Hc i d. rewrite length_app, <-app_assoc. cbn. intros Hlt H1 H2.
  destruct (decide (i < length pre)%nat) as [Hl|Hl]; [by apply (Hi i)|].
  assert (i = length pre) as -> by lia. rewrite lookup_app_r, Nat.sub_diag in H1 by lia. injection H1 as ->.
  rewrite lookup_app_r in H2 by lia. replace (S (length pre) - length pre)%nat with 1%nat in H2 by lia.
  destruct s as [|e s]; [done|]. injection H2 as ->. apply not_true_iff_false. intros Hd.
  apply (Hc eq_refl). by repeat eexists.
Qed.

Lemma inert_mark pre tok s : inert pre ((char_colon :: tok) ++ s) → inert (pre ++ [char_mark]) s.
Proof.
  intros Hi i d. rewrite length_app, <-app_assoc. cbn. intros Hlt H1 H2.
  destruct (decide (S i < length pre)%nat) as [Hl|Hl].
  { apply (Hi i); [lia| |]; by rewrite !lookup_app_l in * by lia. }
  destruct (decide (S i = length pre)) as [Hl'|Hl'].
  - rewrite lookup_app_r, Hl', Nat.sub_diag in H2 by lia. by injection H2 as <-.
  - assert (i = length pre) as -> by lia. by rewrite lookup_app_r, Nat.sub_diag in H1 by lia.
Qed.

Lemma replace_all f s items pre (vals : list any) :
  reads s items → inert pre s →
  foldl (λ acc token, (Replace1 acc.1 token [char_mark], acc.2 ++ [f token])) (pre ++ s, vals) (tokens items) =
    (pre ++ concat (positional <$> items), vals ++ (f <$> tokens items)).
Proof.
  intros Hr. revert pre vals. induction Hr as [|w rest items Hw Hne Hs _ IH|c rest items Hc _ IH]; intros pre vals Hi.
  - cbn. by rewrite !app_nil_r.
  - cbn [tokens omap list_omap foldl fst snd]. change (char_colon :: w ++ rest) with ((char_colon :: w) ++ rest) in *.
    rewrite Replace1_first by (by apply inert_absent). rewrite app_assoc. fold (tokens items).
    rewrite IH by (by eapply inert_mark). cbn. by rewrite <-!app_assoc.
  - change (c :: rest) with ([c] ++ rest). rewrite app_assoc. cbn [tokens omap list_omap]. fold (tokens items).
    rewrite IH by (by apply inert_char). cbn. by rewrite <-!app_assoc.
Qed.

(** The sequence of first-occurrence replacements is one left-to-right pass: every
    query can be read as literal bytes and named parameters, and the conversion puts a
    [?] for each parameter, keeps every other byte, and returns one value per [?], in
    order, repeated names repeated. *)
Theorem mysql_ConvertQueryAndNamedParams_positional query params :
  (∃ items, reads query items) ∧
  ∀ items, reads query items →
    ConvertQueryAndNamedParams query params =
      (concat (positional <$> items),
       (λ tok, default AnyNil (foldl (λ all mp, mp ∪ all) (∅ : gmap text any) params !! tok)) <$> tokens items).
Proof.
  split; [by apply (reads_total_aux (length query))|]. intros items Hr. unfold ConvertQueryAndNamedParams.
  rewrite (FindAllString_tokens _ _ Hr).
  apply (replace_all (λ tok, default AnyNil (foldl (λ all mp, mp ∪ all) ∅ params !! tok)) query items [] []); [done|].
  intros i c Hi. cbn in Hi. lia.
Qed.

(** ** Statements *)

Definition my_quotes (ks qs : list text) : Prop := Forall2 (λ k q, safeMySQLIdent k = Ok q) ks qs.

Lemma my_update_columns_Ok data ks qs :
  my_quotes ks qs →
  update_columns data ks = Ok ((λ q, q ++ str " = ?") <$> qs, column_value data <$> ks).
Proof. induction 1 as [|k q ks qs Hk _ IH]; [done|]. cbn. by rewrite Hk, IH. Qed.

Lemma my_quotes_dec ks : (∃ qs, my_quotes ks qs) ∨ ∃ k e, k ∈ ks ∧ safeMySQLIdent k = Err e.
Proof.
  induction ks as [|k ks [[qs Hq]|(k' & e & Hk & He)]].
  - left. exists []. constructor.
  - destruct (safeMySQLIdent k) as [q|e] eqn:Ek; [left; exists (q :: qs); by constructor|].
    right. exists k, e. split; [apply list_elem_of_here|done].
  - right. exists k', e. split; [by right|done].
Qed.

Lemma my_update_columns_inv data ks parts vals :
  update_columns data ks = Ok (parts, vals) →
  ∃ qs, my_quotes ks qs ∧ parts = (λ q, q ++ str " = ?") <$> qs ∧ vals = column_value data <$> ks.
Proof.
  revert parts vals. induction ks as [|k ks IH]; intros parts vals; cbn; [intros [= <- <-]; exists []; by repeat constructor|].
  destruct (safeMySQLIdent k) as [q|] eqn:Ek; [|done]. cbn.
  destruct (update_columns data ks) as [[ps vs]|]; [|done]. cbn. intros [= <- <-].
  destruct (IH ps vs eq_refl) as (qs & Hq & -> & ->). exists (q :: qs). split_and!; [by constructor|done..].
Qed.

(** An update sends a statement exactly when the table, the columns and the
    context are usable, the map is not empty and the WHERE clause is not blank; then it
    sends one, with the sorted columns, one value per [?] of the SET part followed by
    the caller's arguments. Otherwise the database is not touched: there is no
    unconditional update. *)
Theorem mysql_UpdateFromMap_statement {W} (connect : string → result mysql_error (exec_fn W))
    dbctx w tbl data wher args :
  let ks := Strings data.*1 in
  (∃ ctx qt qs, dbctx = Some ctx ∧ safeMySQLIdent tbl = Ok qt ∧ my_quotes ks qs ∧ data ≠ [] ∧
     TrimSpace wher ≠ [] ∧
     UpdateFromMapContext connect dbctx w tbl data wher args =
       match ExecContext connect ctx w
               ("UPDATE " ++ qt ++ " SET " ++ Join ((λ q, q ++ str " = ?") <$> qs) ", " ++ " WHERE " ++ wher)
               ((column_value data <$> ks) ++ args) with
       | (w, Err e) => (w, Err e)
       | (w, Ok res) => (w, Ok (or_zero res.(RowsAffected)))
       end) ∨
  ((dbctx = None ∨ (∃ e, safeMySQLIdent tbl = Err e) ∨ (∃ k e, k ∈ ks ∧ safeMySQLIdent k = Err e) ∨ data = [] ∨
    TrimSpace wher = []) ∧
   ∃ e, UpdateFromMapContext connect dbctx w tbl data wher args = (w, Err e)).
Proof.
  intros ks. unfold UpdateFromMapContext. destruct (safeMySQLIdent tbl) as [qt|e] eqn:Et; cbn;
    [|right; split; [right; left|]; by eexists].
  destruct (bool_decide_reflect (data = [])) as [Hd|Hd]; cbn;
    [right; split; [do 3 right; by left|by eexists]|].
  destruct (bool_decide_reflect (TrimSpace wher = [])) as [Hw|Hw]; cbn;
    [right; split; [by do 4 right|by eexists]|].
  fold ks. destruct (update_columns data ks) as [[parts vals]|e] eqn:Eu; cbn.
  - apply my_update_columns_inv in Eu as (qs & Hq & -> & ->). destruct dbctx as [ctx|].
    + left. exists ctx, qt, qs. done.
    + right. split; [by left|by eexists].
  - right. split; [|by eexists]. right. right. left.
    destruct (my_quotes_dec ks) as [[qs Hq]|?]; [|done]. rewrite (my_update_columns_Ok _ _ qs Hq) in Eu. done.
Qed.

(** ** Concrete instances *)

Example safeMySQLIdent_example : safeMySQLIdent " app.users " = Ok (backticked "app" ++ "." ++ backticked "users").
Proof. vm_compute. reflexivity. Qed.

(** A colon in a string literal is taken for a parameter too. *)
Example literal_colon :
  ConvertQueryAndNamedParams "SELECT * FROM t WHERE at > '10:30'" [∅] =
    (str "SELECT * FROM t WHERE at > '10?'", [AnyNil]).
Proof. vm_compute. reflexivity. Qed.
