(* ===== verification/CacheApi.v ===== *)
(** * What the cache adapters share ([src/caching/requests.go], [context.go])

    The context check every operation starts with and the request types. A Go map in a
    request is the list of its entries in iteration order; a nil map is [None]. In the
    batch requests of the FlashDB adapter each key or entry carries the clock reading of
    the store operation made for it. *)

From Stdlib Require Import ZArith.
From S2P Require Import Prelude GoValue.
Local Open Scope Z_scope.

(** A nil context, or one with its [Err()]. *)
Inductive context := NilContext | Context_ (err : option string).

Definition checkedCacheContext (ctx : context) : option string :=
  match ctx with
  | NilContext => None
  | Context_ err => err
  end.

(** ** Requests *)

Record cacheRequest := mkCacheRequest { Namespace : string; Collection : string }.

Record KeyRequest := mkKeyRequest { key_hdr : cacheRequest; Key : string }.
Record GetRequest := mkGetRequest { get_hdr : cacheRequest; get_key : string; Fields : list string }.
Record SetRequest := mkSetRequest {
  set_hdr : cacheRequest; set_key : string; set_value : any;
  set_fields : option (list (string * any)); set_ttl : Z
}.
Record MultiGetRequest := mkMultiGetRequest { mget_hdr : cacheRequest; mget_keys : list (string * Z) }.
Record MultiSetRequest := mkMultiSetRequest {
  mset_hdr : cacheRequest;
  FieldsMap : list (string * option (list (string * any)) * Z);
  ValueMap : list (string * any * Z);
  mset_ttl : Z
}.
Record MultiDeleteRequest := mkMultiDeleteRequest { mdel_hdr : cacheRequest; mdel_keys : list string }.
Record OffsetRequest := mkOffsetRequest {
  off_hdr : cacheRequest; off_key : string; off_fields : option (list (string * Z)); off_value : Z
}.
Record AppendRequest := mkAppendRequest {
  app_hdr : cacheRequest; app_key : string; app_fields : option (list (string * string)); app_value : string
}.
Record SetTTLRequest := mkSetTTLRequest { sttl_hdr : cacheRequest; sttl_key : string; sttl_ttl : Z }.

(** *** Requests of the adapters that keep bytes *)

(** Values of requests: [[]byte], or any other dynamic value. *)
Inductive cache_value : Type :=
  | CBytes (s : string)
  | CAny (a : any).

Record ValueRequest := mkValueRequest {
  val_hdr : cacheRequest; val_key : string; val_value : cache_value; val_ttl : Z
}.
Record KeysRequest := mkKeysRequest { keys_hdr : cacheRequest; keys_keys : list string }.
Record ValuesRequest := mkValuesRequest {
  vals_hdr : cacheRequest; vals_map : list (string * cache_value); vals_ttl : Z
}.
