(* ===== verification/FlashCache.v ===== *)
(** * The FlashDB cache adapter ([src/caching/flash.go])

    [FlashDBCache] puts the request-based cache interface on top of the store of
    [FlashStore.v]: it checks the context and the request, composes the namespaced
    key, wraps plain values and converts seconds. A request is [None] for a nil
    pointer. Operations take the clock readings of the store operations they make; a
    Go map in a request is the list of its entries in iteration order (for
    [MultiSet], with the clock reading of each write), a nil map is [None]. *)

From Stdlib Require Import ZArith Lia.
From S2P Require Import Prelude GoValue CacheApi Lru Sketch TinyLfu FlashShard FlashStore FlashSpec FlashProps.
Local Open Scope Z_scope.

Inductive cache_error :=
  | ErrContext (why : string)          (* the error of a cancelled context *)
  | ErrEmptyKey
  | ErrNilRequest
  | ErrStore (e : store_error).

(** ** Keys, durations, payloads *)

Definition composeKey (ns coll key : string) : result cache_error string :=
  if bool_decide (key = "") then Err ErrEmptyKey
  else if bool_decide (ns = "" ∧ coll = "") then Ok key
  else if bool_decide (ns = "") then Ok (coll +:+ "::" +:+ key)
  else if bool_decide (coll = "") then Ok (ns +:+ "::" +:+ key)
  else Ok (ns +:+ "::" +:+ coll +:+ "::" +:+ key).

Definition composed (h : cacheRequest) (key : string) : result cache_error string :=
  composeKey h.(Namespace) h.(Collection) key.

Definition secondsToDuration (s : Z) : Z := if s <=? 0 then 0 else i64 (s * 10 ^ 9).

(** A map value is stored as it is, any other value under the field [bin]. *)
Definition payload_of (v : any) : fields :=
  match v with
  | AnyMap m => Some (list_to_map m)
  | v => Some {[ "bin" := v ]}
  end.

Definition Set_payload (req : SetRequest) : fields :=
  match req.(set_fields) with
  | Some m => Some (list_to_map m)
  | None => match req.(set_value) with AnyNil => Some ∅ | v => payload_of v end
  end.

Definition FlashDbDefaultShardCount : Z := 128.
Definition FlashDbMaxSizeInBytes : Z := 2 ^ 30.
Definition FlashDbDefaultJanitorEvery : Z := 2 * Minute.

Record FlashDBCache (P : Type) := mkCache { store : Store P; defaultTTL : Z }.
Arguments mkCache {P}.
Arguments store {P}.
Arguments defaultTTL {P}.

(** The options the adapter derives for the store. *)
Definition flashdb_options (DefaultTTL : Z) : Options :=
  mkOptions FlashDbDefaultShardCount FlashDbMaxSizeInBytes (secondsToDuration (Z.max 0 DefaultTTL))
    FlashDbDefaultJanitorEvery 4 (2 ^ 16) 200000.

Definition NewFlashDBCache (DefaultTTL : Z) : outcome (result cache_error (FlashDBCache (TinyLFU string))) :=
  r ← New (flashdb_options DefaultTTL);
  match r with
  | Err e => Ret (Err (ErrStore e))
  | Ok (st, _) => Ret (Ok (mkCache st (secondsToDuration DefaultTTL)))
  end.

Section cache.
Context {P : Type} `{Admission P string}.
Implicit Types (c : FlashDBCache P).

Definition with_store c (st : Store P) : FlashDBCache P := mkCache st c.(defaultTTL).

Definition Cache_Close c : FlashDBCache P := with_store c (Close c.(store)).

(** The checks every operation starts with: the context, the request, the key. *)
Definition checked {R} (ctx : context) (req : option R) : result cache_error R :=
  match checkedCacheContext ctx, req with
  | Some e, _ => Err (ErrContext e)
  | None, None => Err ErrNilRequest
  | None, Some req => Ok req
  end.

Definition checked_key {R} (ctx : context) (req : option R) (hdr : R → cacheRequest) (key : R → string)
    : result cache_error (R * string) :=
  req ← checked ctx req;
  k ← composed (hdr req) (key req);
  Ok (req, k).

Definition lift_err {A} (r : result store_error A) : result cache_error A :=
  match r with Ok a => Ok a | Err e => Err (ErrStore e) end.

(** [error] results: [Ok tt] for nil. *)
Definition lift_opt (e : option store_error) : result cache_error unit :=
  match e with None => Ok tt | Some e => Err (ErrStore e) end.

Definition ExistsContext c ctx (req : option KeyRequest) (now : Z) (hook : Store P → Store P)
    : outcome (FlashDBCache P * result cache_error bool) :=
  match checked_key ctx req key_hdr Key with
  | Err e => Ret (c, Err e)
  | Ok (_, key) =>
      r ← Exists c.(store) key now hook;
      Ret (with_store c r.1, lift_err r.2)
  end.

(** The fields asked for, where present. *)
Definition select_fields (fs : list string) (m : gmap string any) : gmap string any :=
  foldl (λ out f, match m !! f with Some vv => <[f := vv]> out | None => out end) ∅ fs.

Definition GetContext c ctx (req : option GetRequest) (now : Z)
    : outcome (FlashDBCache P * result cache_error fields) :=
  match checked_key ctx req get_hdr get_key with
  | Err e => Ret (c, Err e)
  | Ok (req, k) =>
      r ← Get c.(store) k now;
      let c := with_store c r.1 in
      match r.2 with
      | Err e => Ret (c, Err (ErrStore e))
      | Ok v =>
          if bool_decide (req.(Fields) = []) then Ret (c, Ok v)
          else Ret (c, Ok (Some (select_fields req.(Fields) (default ∅ v))))
      end
  end.

(** [ttl := secondsToDuration(seconds); if ttl == 0 { ttl = c.defaultTTL }] *)
Definition ttl_or_default c (seconds : Z) : Z :=
  let ttl := secondsToDuration seconds in
  if ttl =? 0 then c.(defaultTTL) else ttl.

Definition SetContext c ctx (req : option SetRequest) (now : Z)
    : outcome (FlashDBCache P * result cache_error bool) :=
  match checked_key ctx req set_hdr set_key with
  | Err e => Ret (c, Err e)
  | Ok (req, k) =>
      r ← Set_ c.(store) k (Set_payload req) (ttl_or_default c req.(set_ttl)) now;
      Ret (with_store c r.1, lift_err r.2)
  end.

Definition DeleteContext c ctx (req : option KeyRequest) : outcome (FlashDBCache P * result cache_error bool) :=
  match checked_key ctx req key_hdr Key with
  | Err e => Ret (c, Err e)
  | Ok (_, k) =>
      r ← Delete c.(store) k;
      Ret (with_store c r.1, lift_err r.2)
  end.

(** The composed keys of a batch, and the original key of each. *)
Fixpoint full_keys {A} (h : cacheRequest) (keys : list (string * A)) (acc : list (string * A))
    (keyMap : gmap string string) : list (string * A) * gmap string string :=
  match keys with
  | [] => (acc, keyMap)
  | (k, a) :: keys =>
      if bool_decide (k = "") then full_keys h keys acc keyMap
      else
        match composed h k with
        | Err _ => full_keys h keys acc keyMap
        | Ok fk => full_keys h keys (acc ++ [(fk, a)]) (<[fk := k]> keyMap)
        end
  end.

(** Results under the original keys. *)
Definition map_back {B} (keyMap : gmap string string) (values : gmap string B) : gmap string B :=
  foldl (λ out fkv, match keyMap !! fkv.1 with Some k => <[k := fkv.2]> out | None => out end) ∅
    (map_to_list values).

Definition MultiGetContext c ctx (req : option MultiGetRequest)
    : outcome (FlashDBCache P * result cache_error (gmap string fields)) :=
  match checked ctx req with
  | Err e => Ret (c, Err e)
  | Ok req =>
      if bool_decide (req.(mget_keys) = []) then Ret (c, Ok ∅)
      else
        let '(fullKeys, keyMap) := full_keys req.(mget_hdr) req.(mget_keys) [] ∅ in
        if bool_decide (fullKeys = []) then Ret (c, Ok ∅)
        else
          r ← MultiGet c.(store) fullKeys;
          Ret (with_store c r.1, Ok (map_back keyMap r.2))
  end.

Definition MultiDeleteContext c ctx (req : option MultiDeleteRequest)
    : outcome (FlashDBCache P * result cache_error (gmap string bool)) :=
  match checked ctx req with
  | Err e => Ret (c, Err e)
  | Ok req =>
      if bool_decide (req.(mdel_keys) = []) then Ret (c, Ok ∅)
      else
        let '(fullKeys, keyMap) := full_keys req.(mdel_hdr) ((λ k, (k, tt)) <$> req.(mdel_keys)) [] ∅ in
        if bool_decide (fullKeys = []) then Ret (c, Ok ∅)
        else
          r ← MultiDelete c.(store) fullKeys.*1;
          Ret (with_store c r.1, Ok (map_back keyMap r.2))
  end.

(** [recordErr]: the first error stays. *)
Definition recordErr (firstErr err : option cache_error) : option cache_error :=
  match firstErr with Some _ => firstErr | None => err end.

(** One entry of either map: its key, payload and clock reading. *)
Definition MultiSet_entry c (h : cacheRequest) (ttl : Z) (key : string) (payload : fields) (now : Z)
    (res : gmap string bool) (firstErr : option cache_error)
    : outcome (FlashDBCache P * gmap string bool * option cache_error) :=
  if bool_decide (key = "") then Ret (c, <[key := false]> res, firstErr)
  else
    match composed h key with
    | Err e => Ret (c, <[key := false]> res, recordErr firstErr (Some e))
    | Ok fullKey =>
        r ← Set_ c.(store) fullKey payload ttl now;
        let c := with_store c r.1 in
        match r.2 with
        | Ok b => Ret (c, <[key := b]> res, firstErr)
        | Err e => Ret (c, <[key := false]> res, recordErr firstErr (Some (ErrStore e)))
        end
    end.

Fixpoint MultiSet_fields c (h : cacheRequest) (ttl : Z) (items : list (string * option (list (string * any)) * Z))
    (res : gmap string bool) (firstErr : option cache_error)
    : outcome (FlashDBCache P * gmap string bool * option cache_error) :=
  match items with
  | [] => Ret (c, res, firstErr)
  | (key, fs, now) :: items =>
      r ← MultiSet_entry c h ttl key (Some (list_to_map (default [] fs))) now res firstErr;
      let '(c, res, firstErr) := r in
      MultiSet_fields c h ttl items res firstErr
  end.

Fixpoint MultiSet_values c (h : cacheRequest) (ttl : Z) (items : list (string * any * Z))
    (res : gmap string bool) (firstErr : option cache_error)
    : outcome (FlashDBCache P * gmap string bool * option cache_error) :=
  match items with
  | [] => Ret (c, res, firstErr)
  | (key, val, now) :: items =>
      match res !! key with
      | Some _ => MultiSet_values c h ttl items res firstErr
      | None =>
          r ← MultiSet_entry c h ttl key (payload_of val) now res firstErr;
          let '(c, res, firstErr) := r in
          MultiSet_values c h ttl items res firstErr
      end
  end.

(** The results per key, and the first error. *)
Definition MultiSetContext c ctx (req : option MultiSetRequest)
    : outcome (FlashDBCache P * (gmap string bool * option cache_error)) :=
  match checked ctx req with
  | Err e => Ret (c, (∅, Some e))
  | Ok req =>
      if bool_decide (req.(FieldsMap) = [] ∧ req.(ValueMap) = []) then Ret (c, (∅, None))
      else
        let ttl := ttl_or_default c req.(mset_ttl) in
        r ← MultiSet_fields c req.(mset_hdr) ttl req.(FieldsMap) ∅ None;
        let '(c, res, firstErr) := r in
        r ← MultiSet_values c req.(mset_hdr) ttl req.(ValueMap) res firstErr;
        let '(c, res, firstErr) := r in
        Ret (c, (res, firstErr))
  end.

(** The offsets of an increment or decrement; [None] for nothing to do. *)
Definition offsets_of (req : OffsetRequest) : option (list (string * Z)) :=
  match req.(off_fields) with
  | Some m => Some m
  | None => if req.(off_value) =? 0 then None else Some [("bin", req.(off_value))]
  end.

Definition IncrementContext c ctx (req : option OffsetRequest) (now : Z)
    : outcome (FlashDBCache P * result cache_error unit) :=
  match checked_key ctx req off_hdr off_key with
  | Err e => Ret (c, Err e)
  | Ok (req, k) =>
      match offsets_of req with
      | None => Ret (c, Ok tt)
      | Some offs => r ← Increment c.(store) k offs now; Ret (with_store c r.1, lift_opt r.2)
      end
  end.

Definition DecrementContext c ctx (req : option OffsetRequest) (now : Z)
    : outcome (FlashDBCache P * result cache_error unit) :=
  match checked_key ctx req off_hdr off_key with
  | Err e => Ret (c, Err e)
  | Ok (req, k) =>
      match offsets_of req with
      | None => Ret (c, Ok tt)
      | Some offs => r ← Decrement c.(store) k offs now; Ret (with_store c r.1, lift_opt r.2)
      end
  end.

Definition AppendContext c ctx (req : option AppendRequest) (now : Z)
    : outcome (FlashDBCache P * result cache_error unit) :=
  match checked_key ctx req app_hdr app_key with
  | Err e => Ret (c, Err e)
  | Ok (req, k) =>
      match req.(app_fields) with
      | Some m => r ← Append c.(store) k m now; Ret (with_store c r.1, lift_opt r.2)
      | None =>
          if bool_decide (req.(app_value) = "") then Ret (c, Ok tt)
          else r ← Append c.(store) k [("bin", req.(app_value))] now; Ret (with_store c r.1, lift_opt r.2)
      end
  end.

Definition GetTTLContext c ctx (req : option KeyRequest) (now now2 : Z)
    : outcome (FlashDBCache P * result cache_error Z) :=
  match checked_key ctx req key_hdr Key with
  | Err e => Ret (c, Err e)
  | Ok (_, k) =>
      r ← GetTTL c.(store) k now now2;
      Ret (with_store c r.1, lift_err r.2)
  end.

Definition SetTTLContext c ctx (req : option SetTTLRequest) (now : Z)
    : outcome (FlashDBCache P * result cache_error unit) :=
  match checked_key ctx req sttl_hdr sttl_key with
  | Err e => Ret (c, Err e)
  | Ok (req, k) =>
      r ← SetTTL c.(store) k (ttl_or_default c req.(sttl_ttl)) now;
      Ret (with_store c r.1, lift_opt r.2)
  end.
End cache.

(** ** Composed keys *)

Lemma composeKey_nonempty ns coll key k : composeKey ns coll key = Ok k → k ≠ "" ∧ key ≠ "".
Proof.
  unfold composeKey. repeat case_bool_decide; try done; intros [= <-]; split; try done.
  all: first [by destruct coll; [naive_solver|]|by destruct ns|by destruct coll].
Qed.

Lemma composeKey_full ns coll key :
  ns ≠ "" → coll ≠ "" → key ≠ "" → composeKey ns coll key = Ok (ns +:+ "::" +:+ coll +:+ "::" +:+ key).
Proof. intros. unfold composeKey. rewrite !bool_decide_eq_false_2 by (done || by intros []). done. Qed.

(** A string without a colon. *)
Fixpoint no_colon (s : string) : bool :=
  match s with
  | EmptyString => true
  | String a s => negb (bool_decide (a = Ascii.ascii_of_nat 58)) && no_colon s
  end.

Lemma colon_split s t u v :
  no_colon s = true → no_colon t = true → s +:+ "::" +:+ u = t +:+ "::" +:+ v → s = t ∧ u = v.
Proof.
  revert t. induction s as [|a s IH]; intros [|b t]; cbn; intros Hs Ht E.
  - by injection E.
  - injection E as <- _. done.
  - injection E as -> _. done.
  - injection E as <- E. apply andb_true_iff in Hs as [_ Hs], Ht as [_ Ht].
    by destruct (IH t Hs Ht E) as [-> ->].
Qed.

(** Within one namespace and collection, distinct keys stay distinct; across
    requests that name both a namespace and a collection without colons, the composed
    key determines all three parts. A request that names only one of the two is not
    protected: its keys are those of the request that names the same string as the
    other one, and those of the bare key with the prefix written out. *)
Theorem composeKey_separates :
  (∀ ns coll key key' k, composeKey ns coll key = Ok k → composeKey ns coll key' = Ok k → key = key') ∧
  (∀ ns coll key ns' coll' key' k,
     composeKey ns coll key = Ok k → composeKey ns' coll' key' = Ok k →
     ns ≠ "" → coll ≠ "" → ns' ≠ "" → coll' ≠ "" →
     no_colon ns = true → no_colon coll = true → no_colon ns' = true → no_colon coll' = true →
     ns = ns' ∧ coll = coll' ∧ key = key') ∧
  (∀ a key, a ≠ "" → key ≠ "" →
     composeKey a "" key = composeKey "" a key ∧ composeKey a "" key = composeKey "" "" (a +:+ "::" +:+ key)).
Proof.
  split_and!.
  - intros ns coll key key' k. unfold composeKey.
    repeat case_bool_decide; try done; intros [= <-] E; injection E as E; [done|..];
      do 4 (try apply String.app_inj in E); done.
  - intros ns coll key ns' coll' key' k H1 H2 N1 N2 N3 N4 C1 C2 C3 C4.
    destruct (composeKey_nonempty _ _ _ _ H1) as [_ K1], (composeKey_nonempty _ _ _ _ H2) as [_ K2].
    rewrite composeKey_full in H1, H2 by done. injection H1 as <-. injection H2 as E.
    apply colon_split in E as [-> E]; [|done..]. by apply colon_split in E as [-> ->].
  - intros a key Ha Hk. unfold composeKey. rewrite (bool_decide_eq_false_2 (key = "")) by done.
    rewrite (bool_decide_eq_false_2 (a = "" ∧ _)), (bool_decide_eq_false_2 (_ ∧ a = "")) by (by intros []).
    rewrite (bool_decide_eq_false_2 (a = "")), (bool_decide_eq_false_2 (a +:+ _ = "")) by (done || by destruct a).
    by rewrite !bool_decide_eq_true_2.
Qed.

(** ** The adapter over a well-formed store *)

Lemma select_fields_lookup fs m f :
  select_fields fs m !! f = if decide (f ∈ fs) then m !! f else None.
Proof.
  unfold select_fields. assert (∀ out, foldl (λ out f, match m !! f with Some vv => <[f := vv]> out | None => out end)
    out fs !! f = if decide (f ∈ fs) then (match m !! f with Some v => Some v | None => out !! f end) else out !! f) as ->.
  - induction fs as [|f0 fs IH]; intros out; cbn [foldl]; [by rewrite decide_False by (by intros ?%elem_of_nil)|].
    rewrite IH. destruct (decide (f = f0)) as [->|Hne].
    + rewrite (decide_True (P := f0 ∈ f0 :: fs)) by (apply list_elem_of_here).
      destruct (m !! f0) eqn:Em; [rewrite lookup_insert_eq|]; by destruct (decide (f0 ∈ fs)).
    + assert (match m !! f0 with Some vv => <[f0:=vv]> out | None => out end !! f = out !! f) as ->
        by (destruct (m !! f0); [by rewrite lookup_insert_ne|done]).
      destruct (decide (f ∈ fs)); [rewrite decide_True by (by right)|rewrite decide_False by set_solver]; done.
  - case_decide; [|by rewrite lookup_empty]. destruct (m !! f); [done|by rewrite lookup_empty].
Qed.

Section props.
Context {P : Type} {ok : P → Prop} `{HL : AdmissionLaws P string ok}.
Implicit Types (c : FlashDBCache P) (st : Store P).

Lemma Set_stored st key v ttl now st1 :
  store_wf (ok:=ok) st → key ≠ "" → 0 <= computeSize key v → computeSize key v <= budget st key →
  Set_ st key v ttl now = Ret (st1, Ok true) →
  store_wf (ok:=ok) st1 ∧ evicts_only st st1 key ∧ contents st1 key = Some (written st key v ttl now).
Proof.
  intros Hwf Hne Hsz Hfit HS. destruct (Set_spec st key v ttl now Hwf Hne Hsz) as (st1' & b & E & Hwf1 & He & Hc).
  rewrite HS in E. injection E as <- <-. split_and!; [done..|].
  destruct (contents st key); [destruct Hc as (_ & -> & _)|by destruct Hc as [-> _]].
  by destruct (Z.ltb_spec (budget st key) (computeSize key v)); [lia|].
Qed.

Lemma checked_live {R} (req : R) : checked (Context_ None) (Some req) = Ok req.
Proof. done. Qed.

(** What a request stores, a later request reads: after a successful [Set] of a
    record that fits, a [Get] under the same namespace, collection and key returns the
    stored payload before it expires (the [Fields] of the request, the map given as
    value, or the value under [bin]), restricted to the fields asked for; every other
    composed key keeps its record or was evicted. *)
Theorem cache_Set_then_Get c req now c1 k now' fs :
  store_wf (ok:=ok) c.(store) → composed req.(set_hdr) req.(set_key) = Ok k →
  let v := Set_payload req in
  let expiry := expiry_for c.(store) now (ttl_or_default c req.(set_ttl)) in
  0 <= computeSize k v <= budget c.(store) k →
  SetContext c (Context_ None) (Some req) now = Ret (c1, Ok true) →
  expiry = 0 ∨ now' <= expiry →
  (∃ c2, GetContext c1 (Context_ None) (Some (mkGetRequest req.(set_hdr) req.(set_key) fs)) now' =
     Ret (c2, Ok (if decide (fs = []) then v else select_fields fs <$> v))) ∧
  ∀ h' key' k', composed h' key' = Ok k' → k' ≠ k →
    contents c1.(store) k' = contents c.(store) k' ∨ contents c1.(store) k' = None.
Proof.
  intros Hwf Hk v expiry [Hsz Hfit] HS Hexp. destruct (composeKey_nonempty _ _ _ _ Hk) as [Hne _].
  unfold SetContext, checked_key in HS. cbn in HS. rewrite Hk in HS. cbn in HS.
  destruct (Set_spec c.(store) k v (ttl_or_default c req.(set_ttl)) now Hwf Hne Hsz) as (st1 & b & E & _).
  fold v in HS. rewrite E in HS. cbn in HS. injection HS as <- ->. cbn [with_store store].
  destruct (Set_stored _ _ _ _ _ _ Hwf Hne Hsz Hfit E) as (Hwf1 & [Hev _] & Hst).
  split; [|intros h' key' k' _ Hk'; destruct (Hev k' Hk') as [?|[? _]]; auto].
  destruct (Get_spec st1 k now' Hwf1 Hne) as (st2 & HG & _ & _).
  exists (with_store (with_store c st1) st2). unfold GetContext, checked_key. cbn. rewrite Hk. cbn.
  rewrite HG, Hst. cbn. unfold isExpired. cbn. fold expiry.
  assert (negb (expiry =? 0) && (expiry <? now') = false) as -> by lia. cbn.
  destruct (decide (fs = [])) as [->|Hfs]; [done|]. rewrite bool_decide_eq_false_2 by done.
  assert (∃ m, v = Some m) as [m ->]; [|done]. unfold v, Set_payload, payload_of. repeat case_match; eauto.
Qed.

(** ** Batches *)

Lemma MultiGet_loop_spec st keys out :
  store_wf (ok:=ok) st → NoDup keys.*1 →
  ∃ st' out', MultiGet_loop st keys out = Ret (st', out') ∧ store_wf (ok:=ok) st' ∧
    ∀ k, k ≠ "" → out' !! k =
      match (list_to_map keys : gmap string Z) !! k with
      | Some now => match unexpired (contents st k) now with Some r => Some r.(value) | None => out !! k end
      | None => out !! k
      end.
Proof.
  revert st out. induction keys as [|[k0 now0] keys IH]; intros st out Hwf Hn; [by exists st, out|].
  apply NoDup_cons in Hn as [Hk0 Hn]. cbn [MultiGet_loop list_to_map foldr]. case_bool_decide as He.
  - destruct (IH st out Hwf Hn) as (st' & out' & E & Hwf' & Ho). exists st', out'. split_and!; [done..|].
    intros k Hk. rewrite Ho by done. cbn. by rewrite lookup_insert_ne by (by subst).
  - destruct (Get_spec st k0 now0 Hwf He) as (st1 & -> & Hwf1 & Hc1). cbn [mbind outcome_bind].
    assert (∀ out1, ∃ st' out', MultiGet_loop st1 keys out1 = Ret (st', out') ∧ store_wf (ok:=ok) st' ∧
      ∀ k, k ≠ "" → out' !! k =
        if decide (k = k0) then out1 !! k
        else match (list_to_map keys : gmap string Z) !! k with
             | Some now => match unexpired (contents st k) now with Some r => Some r.(value) | None => out1 !! k end
             | None => out1 !! k
             end) as Hrest.
    { intros out1. destruct (IH st1 out1 Hwf1 Hn) as (st' & out' & E & Hwf' & Ho).
      exists st', out'. split_and!; [done..|]. intros k Hk. rewrite Ho by done. destruct (decide (k = k0)) as [->|Hne].
      - by rewrite not_elem_of_list_to_map_1.
      - by rewrite Hc1, decide_False by done. }
    destruct (unexpired (contents st k0) now0) as [r|] eqn:Eu;
      [destruct (Hrest (<[k0 := r.(value)]> out)) as (st' & out' & E & Hwf' & Ho)|
       destruct (Hrest out) as (st' & out' & E & Hwf' & Ho)];
      exists st', out'; (split_and!; [done..|]); intros k Hk; rewrite Ho by done; cbn;
      destruct (decide (k = k0)) as [->|Hne]; rewrite ?lookup_insert_eq, ?Eu, ?(lookup_insert_ne _ k0 k) by done; done.
Qed.

Lemma full_keys_spec {A} h (keys : list (string * A)) acc km :
  full_keys h keys acc km =
    (acc ++ omap (λ ka, match composed h ka.1 with Ok fk => Some (fk, ka.2) | Err _ => None end) keys,
     foldl (λ km ka, match composed h ka.1 with Ok fk => <[fk := ka.1]> km | Err _ => km end) km keys).
Proof.
  revert acc km. induction keys as [|[k a] keys IH]; intros acc km; cbn; [by rewrite app_nil_r|].
  case_bool_decide as Hk.
  - subst k. cbn. apply IH.
  - destruct (composed h k) as [fk|e]; rewrite IH; [|done]. by rewrite <-app_assoc.
Qed.

Lemma composed_inj h k k' fk : composed h k = Ok fk → composed h k' = Ok fk → k = k'.
Proof.
  unfold composed, composeKey.
  repeat case_bool_decide; try done; intros [= <-] E; injection E as E; [done|..];
    do 4 (try apply String.app_inj in E); done.
Qed.

(** The key map of a batch inverts [composed] on its keys. *)
Lemma key_map_lookup {A} h (keys : list (string * A)) (km : gmap string string) fk k :
  composed h k = Ok fk →
  foldl (λ km ka, match composed h ka.1 with Ok fk => <[fk := ka.1]> km | Err _ => km end) km keys !! fk =
    if decide (k ∈ keys.*1) then Some k else km !! fk.
Proof.
  intros Hk. revert km. induction keys as [|[k0 a] keys IH]; intros km; cbn [foldl fmap list_fmap fst];
    [by rewrite decide_False by (by intros ?%elem_of_nil)|].
  rewrite IH. destruct (decide (k ∈ keys.*1)) as [Hin|Hin]; [by rewrite decide_True by (by right)|].
  destruct (decide (k = k0)) as [<-|Hne].
  - rewrite Hk, lookup_insert_eq, decide_True by (apply list_elem_of_here). done.
  - rewrite decide_False by (intros [?|?]%elem_of_cons; done).
    destruct (composed h k0) as [fk0|] eqn:E0; [|done]. rewrite lookup_insert_ne; [done|].
    intros ->. destruct Hne. by eapply composed_inj.
Qed.

Lemma map_back_lookup {B} (km : gmap string string) (values : gmap string B) k fk :
  km !! fk = Some k → (∀ fk', km !! fk' = Some k → fk' = fk) → map_back km values !! k = values !! fk.
Proof.
  intros Hk Hinj. unfold map_back. rewrite <-(list_to_map_to_list values) at 2.
  pose proof (NoDup_fst_map_to_list values) as Hn. revert Hn.
  assert (∀ l (out : gmap string B), NoDup l.*1 →
    foldl (λ out fkv, match km !! fkv.1 with Some k => <[k := fkv.2]> out | None => out end) out l !! k =
      match (list_to_map l : gmap string B) !! fk with Some v => Some v | None => out !! k end) as Hgen.
  - induction l as [|[fk0 v0] l IH]; intros out Hn; [done|]. apply NoDup_cons in Hn as [H0 Hn].
    cbn [foldl fst snd list_to_map foldr]. rewrite IH by done. cbn. destruct (decide (fk0 = fk)) as [->|Hne].
    + rewrite lookup_insert_eq, Hk, lookup_insert_eq. by rewrite not_elem_of_list_to_map_1.
    + rewrite (lookup_insert_ne _ fk0 fk) by done. case_match; [done|].
      destruct (km !! fk0) as [k0|] eqn:E0; [|done]. rewrite lookup_insert_ne; [done|]. intros ->. by apply Hne, Hinj.
  - intros Hn. rewrite Hgen by done. by case_match.
Qed.

Lemma map_back_None {B} (km : gmap string string) (values : gmap string B) k :
  (∀ fk, km !! fk ≠ Some k) → map_back km values !! k = None.
Proof.
  intros Hn. unfold map_back. generalize (map_to_list values). intros l. rewrite <-(lookup_empty (A:=B) k).
  generalize (∅ : gmap string B). induction l as [|[fk v] l IH]; intros out; cbn; [done|]. rewrite IH.
  destruct (km !! fk) as [k0|] eqn:E; [|done]. rewrite lookup_insert_ne; [done|]. intros ->. by apply (Hn fk).
Qed.

(** Every entry of the key map comes from a key of the batch. *)
Lemma key_map_inv {A} h (keys : list (string * A)) (km : gmap string string) fk k :
  foldl (λ km ka, match composed h ka.1 with Ok fk => <[fk := ka.1]> km | Err _ => km end) km keys !! fk = Some k →
  km !! fk = Some k ∨ (k ∈ keys.*1 ∧ composed h k = Ok fk).
Proof.
  revert km. induction keys as [|[k0 a] keys IH]; intros km E; [by left|]. cbn in E.
  destruct (IH _ E) as [Hkm|[Hin Hc]]; [|right; split; [by right|done]].
  destruct (composed h k0) as [fk0|] eqn:E0; [|by left]. destruct (decide (fk0 = fk)) as [->|Hne].
  - rewrite lookup_insert_eq in Hkm. injection Hkm as ->. right. split; [apply list_elem_of_here|done].
  - rewrite lookup_insert_ne in Hkm by done. by left.
Qed.

(** The entries of a batch under their composed keys. *)
Definition composed_keys {A} (h : cacheRequest) (keys : list (string * A)) : list (string * A) :=
  omap (λ ka, match composed h ka.1 with Ok fk => Some (fk, ka.2) | Err _ => None end) keys.

Lemma composed_keys_NoDup {A} h (keys : list (string * A)) : NoDup keys.*1 → NoDup (composed_keys h keys).*1.
Proof.
  induction keys as [|[k0 a] keys IH]; [constructor|]. intros [H0 Hn]%NoDup_cons. specialize (IH Hn).
  unfold composed_keys in *. cbn. destruct (composed h k0) as [fk0|e] eqn:E0; [|done]. cbn. constructor; [|done].
  intros ([fk1 a1] & E & Hin)%list_elem_of_fmap. cbn in E. subst fk1.
  apply list_elem_of_omap in Hin as ([k1 a1'] & Hin & E1). cbn in E1.
  destruct (composed h k1) as [fk1'|] eqn:Ek1; [|done]. injection E1 as -> ->.
  destruct (composed_inj _ _ _ _ E0 Ek1). destruct H0. apply list_elem_of_fmap. by exists (k0, a1).
Qed.

Lemma composed_keys_lookup {A} h (keys : list (string * A)) k fk :
  composed h k = Ok fk →
  (list_to_map (composed_keys h keys) : gmap string A) !! fk = (list_to_map keys : gmap string A) !! k.
Proof.
  intros Hk. induction keys as [|[k0 a] keys IH]; [done|]. unfold composed_keys in *. cbn.
  destruct (composed h k0) as [fk0|e] eqn:E0; cbn.
  - destruct (decide (k = k0)) as [->|Hne].
    + rewrite E0 in Hk. injection Hk as ->. by rewrite !lookup_insert_eq.
    + rewrite !lookup_insert_ne; [done|done|]. intros ->. destruct Hne. by eapply composed_inj.
  - rewrite lookup_insert_ne; [done|]. intros ->. congruence.
Qed.

(** [MultiGet] answers each distinct key of the request as [Get] would at that
    key's reading of the clock, under the original key; keys that are empty, absent or
    expired are left out. *)
Theorem cache_MultiGet_spec c req :
  store_wf (ok:=ok) c.(store) → NoDup req.(mget_keys).*1 →
  ∃ c' out, MultiGetContext c (Context_ None) (Some req) = Ret (c', Ok out) ∧
    ∀ k, out !! k =
      match (list_to_map req.(mget_keys) : gmap string Z) !! k, composed req.(mget_hdr) k with
      | Some now, Ok fk => value <$> unexpired (contents c.(store) fk) now
      | _, _ => None
      end.
Proof.
  intros Hwf Hn. destruct req as [h keys]. cbn in Hn |- *. unfold MultiGetContext.
  cbn [checked checkedCacheContext fmap option_fmap option_map mget_keys mget_hdr].
  case_bool_decide as Hk; [subst; exists c, ∅; by split|]. rewrite full_keys_spec. cbn [app].
  fold (composed_keys h keys). set (km := foldl _ _ _). case_bool_decide as Hf.
  { exists c, ∅. split; [done|]. intros k. destruct (composed h k) as [fk|] eqn:Ek; [|by case_match].
    by rewrite <-(composed_keys_lookup h keys k fk Ek), Hf. }
  destruct (MultiGet_loop_spec c.(store) (composed_keys h keys) ∅ Hwf (composed_keys_NoDup h keys Hn))
    as (st' & out & E & _ & Ho).
  unfold MultiGet. rewrite E. cbn. eexists _, _. split; [done|]. intros k.
  assert (∀ fk, km !! fk = Some k → k ∈ keys.*1 ∧ composed h k = Ok fk) as Hkm.
  { intros fk [Hl|?]%key_map_inv; [by rewrite lookup_empty in Hl|done]. }
  destruct (decide (k ∈ keys.*1)) as [Hin|Hin].
  - destruct (composed h k) as [fk|] eqn:Ek.
    + rewrite (map_back_lookup km out k fk).
      * rewrite Ho by (by destruct (composeKey_nonempty _ _ _ _ Ek)). rewrite (composed_keys_lookup h keys k fk Ek), lookup_empty.
        by destruct (list_to_map keys !! k) as [now|]; [destruct (unexpired _ _)|].
      * unfold km. by rewrite (key_map_lookup h keys ∅ fk k Ek), decide_True.
      * intros fk' [_ Hc]%Hkm. congruence.
    + rewrite map_back_None by (intros fk' [_ Hc]%Hkm; congruence). by case_match.
  - rewrite map_back_None by (by intros fk' [? _]%Hkm). by rewrite not_elem_of_list_to_map_1.
Qed.

(** TTLs at the adapter: [SetTTL] with a zero or negative TTL gives the key the
    cache's default TTL (no expiry only when there is no default), and [GetTTL] answers
    -1 for a key without expiry and an error for an absent one. *)
Theorem cache_TTL_behaviour c h key k now now2 :
  store_wf (ok:=ok) c.(store) → composed h key = Ok k →
  (∀ ttl r, ttl <= 0 → unexpired (contents c.(store) k) now = Some r →
     ∃ c', SetTTLContext c (Context_ None) (Some (mkSetTTLRequest h key ttl)) now = Ret (c', Ok tt) ∧
       contents c'.(store) k =
         Some (mkRecord r.(value) r.(size) (if c.(defaultTTL) <=? 0 then 0 else now + c.(defaultTTL)))) ∧
  (∀ r, unexpired (contents c.(store) k) now = Some r → r.(expiry) = 0 →
     ∃ c', GetTTLContext c (Context_ None) (Some (mkKeyRequest h key)) now now2 = Ret (c', Ok (-1))) ∧
  (unexpired (contents c.(store) k) now = None →
     ∃ c', GetTTLContext c (Context_ None) (Some (mkKeyRequest h key)) now now2 =
       Ret (c', Err (ErrStore ErrNotFound))).
Proof.
  intros Hwf Hk. destruct (composeKey_nonempty _ _ _ _ Hk) as [Hne _].
  destruct (GetTTL_spec c.(store) k now now2 Hwf Hne) as (st' & HG & _).
  split_and!.
  - intros ttl r Ht Hu. unfold SetTTLContext, checked_key. cbn. rewrite Hk. cbn.
    assert (ttl_or_default c ttl = c.(defaultTTL)) as ->
      by (unfold ttl_or_default, secondsToDuration; by destruct (Z.leb_spec ttl 0); [|lia]).
    destruct (SetTTL_spec c.(store) k c.(defaultTTL) now Hwf Hne) as (st1 & -> & _ & Hc). cbn.
    rewrite Hu in *. eexists. split; [done|]. cbn. by rewrite Hc, decide_True.
  - intros r Hu He. unfold GetTTLContext, checked_key. cbn. rewrite Hk. cbn. rewrite HG, Hu, He. by eexists.
  - intros Hu. unfold GetTTLContext, checked_key. cbn. rewrite Hk. cbn. rewrite HG, Hu. by eexists.
Qed.

(** Seconds become nanoseconds exactly up to 9223372036 of them, the longest
    duration an int64 holds; one second more wraps around to a negative duration. *)
Lemma secondsToDuration_range s :
  (s <= 0 → secondsToDuration s = 0) ∧
  (0 < s <= 9223372036 → secondsToDuration s = s * 10 ^ 9) ∧
  secondsToDuration 9223372037 < 0.
Proof.
  unfold secondsToDuration. split_and!; [| |vm_compute; done]; intros Hs.
  - by destruct (Z.leb_spec s 0); [|lia].
  - destruct (Z.leb_spec s 0); [lia|]. apply i64_id. unfold is_i64. lia.
Qed.
End props.

(** ** Concrete instances *)

Definition demo_cache : FlashDBCache (TinyLFU string) := mkCache demo (60 * 10 ^ 9).
Definition demo_hdr : cacheRequest := mkCacheRequest "n" "c".
Definition demo_set : SetRequest := mkSetRequest demo_hdr "a" (AnyInt 1) None 10.

Definition demo_cache1 : FlashDBCache (TinyLFU string) :=
  match SetContext demo_cache (Context_ None) (Some demo_set) 5 with Ret (c, _) => c | Panic _ => demo_cache end.

Lemma demo_cache1_set : SetContext demo_cache (Context_ None) (Some demo_set) 5 = Ret (demo_cache1, Ok true).
Proof. vm_compute. reflexivity. Qed.

Lemma cache_Set_then_Get_witness :
  ∃ c, GetContext demo_cache1 (Context_ None) (Some (mkGetRequest demo_hdr "a" ["bin"; "x"])) 6 =
    Ret (c, Ok (Some {[ "bin" := AnyInt 1 ]})).
Proof.
  destruct (cache_Set_then_Get (ok:=TinyLFU_ok) demo_cache demo_set 5 demo_cache1 "n::c::a" 6 ["bin"; "x"] demo_wf)
    as [[c HG] _]; [reflexivity|by vm_compute|exact demo_cache1_set|right; by vm_compute|].
  exists c. exact HG.
Defined.

Lemma cache_MultiGet_spec_witness :
  ∃ c out, MultiGetContext (mkCache demo1 0) (Context_ None)
      (Some (mkMultiGetRequest (mkCacheRequest "" "") [("a", 6); ("b", 7)])) = Ret (c, Ok out) ∧
    out !! "a" = Some small ∧ out !! "b" = None.
Proof.
  destruct (cache_MultiGet_spec (ok:=TinyLFU_ok) (mkCache demo1 0)
    (mkMultiGetRequest (mkCacheRequest "" "") [("a", 6); ("b", 7)]) demo1_wf) as (c & out & E & Ho).
  { apply (bool_decide_unpack _). vm_compute. exact I. }
  exists c, out. split_and!; [exact E|rewrite (Ho "a")|rewrite (Ho "b")]; by vm_compute.
Defined.

Lemma cache_TTL_behaviour_witness :
  (∃ c, SetTTLContext (mkCache demo1 7) (Context_ None) (Some (mkSetTTLRequest (mkCacheRequest "" "") "a" 0)) 6 =
     Ret (c, Ok tt) ∧ contents c.(store) "a" = Some (mkRecord small 170 13)) ∧
  (∃ c, GetTTLContext (mkCache demo1 7) (Context_ None) (Some (mkKeyRequest (mkCacheRequest "" "") "b")) 6 6 =
     Ret (c, Err (ErrStore ErrNotFound))).
Proof.
  split.
  - apply (proj1 (cache_TTL_behaviour (ok:=TinyLFU_ok) (mkCache demo1 7) (mkCacheRequest "" "") "a" "a" 6 6
      demo1_wf eq_refl) 0 (mkRecord small 170 15)); by vm_compute.
  - apply (proj2 (proj2 (cache_TTL_behaviour (ok:=TinyLFU_ok) (mkCache demo1 7) (mkCacheRequest "" "") "b" "b" 6 6
      demo1_wf eq_refl))). by vm_compute.
Defined.
