(* ===== verification/Redis.v ===== *)
(** * The Redis server, as an interface

    The distributed lock and the rate limiter run Lua scripts on a Redis server. Redis is
    not part of the repository: [RedisServer] lists the commands the scripts call, as
    operations on an abstract database [db], and [RedisLaws] states the documented
    behaviour the clients rely on. The clients' definitions and theorems are proved
    against these two classes; [mapdb] is a concrete server that satisfies the laws, used
    in the witnesses.

    The clock is the server's, in milliseconds, and does not move while a script runs. A
    script that fails halfway keeps the effects of the commands before the failure. *)

From Stdlib Require Import ZArith Lia.
From stdpp Require Import base numbers strings gmap list pretty.
From S2P Require Import Prelude.
Local Open Scope Z_scope.

(** What a key holds: of the data types of Redis, the two the scripts use. *)
Inductive rvalue : Type :=
  | RString (s : string)
  | RHash (h : gmap string string).

#[export] Instance rvalue_eq_dec : EqDecision rvalue.
Proof. solve_decision. Defined.

(** Errors as go-redis reports them: error replies of the server, the nil reply, and
    failures of the connection or of the context. *)
Inductive rerr : Type :=
  | EWrongType
  | ENotInteger
  | EOverflow
  | EInvalidExpire
  | EScript (why : string)
  | ENil
  | ENetwork (why : string).

(** What becomes of a request: the server may run it although the client sees an error. *)
Inductive fate : Type :=
  | Delivered
  | RequestLost (why : string)
  | ReplyLost (why : string).

(** The Lua values a script can return here, and what the client gets for them: the
    dynamic type of the value [Cmd.Result] returns. *)
Inductive lua : Type :=
  | LInt (n : Z)
  | LStr (s : string)
  | LBool (b : bool)
  | LNil.

Inductive greply : Type :=
  | GInt64 (n : Z)
  | GUint64 (n : Z)
  | GInt (n : Z)
  | GString (s : string)
  | GOther.

(** Numbers that Lua (a double each) and the protocol carry without rounding, and those
    that Lua's [..] prints in full (its format is ["%.14g"]). *)
Definition lua_exact (n : Z) : Prop := - 2 ^ 53 <= n <= 2 ^ 53.
Definition lua_printable (n : Z) : Prop := 0 <= n < 10 ^ 14.

Class RedisServer (db : Type) := {
  (** the stored value of a key with its deadline, expired or not *)
  r_entry : db → string → option (rvalue * option Z);
  EXISTS : Z → string → db → Z;
  GET : Z → string → db → result rerr (option string);
  DEL : Z → string → db → db * Z;
  INCR : Z → string → db → db * result rerr Z;
  PSETEX : Z → string → Z → string → db → db * result rerr unit;
  PEXPIRE : Z → string → Z → db → db * Z;
  HMGET : Z → string → list string → db → result rerr (list (option string));
  HMSET : Z → string → list (string * string) → db → db * result rerr unit;
  (** Lua's [..] on a number, a number as a command argument, [tonumber] on a string *)
  lua_tostring : Z → string;
  lua_arg : Z → string;
  lua_tonumber : string → option Z;
  (** the value a script returns, as the client sees it *)
  lua_reply : lua → result rerr greply;
}.

(** A key is alive until its deadline. *)
Definition alive (now : Z) (e : rvalue * option Z) : bool :=
  match e.2 with None => true | Some t => now <? t end.

Definition live {db} `{RedisServer db} (d : db) (now : Z) (k : string) : option rvalue :=
  match r_entry d k with
  | Some e => if alive now e then Some e.1 else None
  | None => None
  end.

Definition live_entry {db} `{RedisServer db} (d : db) (now : Z) (k : string)
  : option (rvalue * option Z) :=
  match r_entry d k with
  | Some e => if alive now e then Some e else None
  | None => None
  end.

(** [d'] differs from [d] at most at [k]. *)
Definition only_key {db} `{RedisServer db} (k : string) (d d' : db) : Prop :=
  ∀ k', k' ≠ k → r_entry d' k' = r_entry d k'.

Definition int_expiry (now ms : Z) : bool := (0 <? ms) && (now + ms <? 2 ^ 63).

Class RedisLaws (db : Type) `{RedisServer db} : Prop := {
  EXISTS_law now k d : EXISTS now k d = if live d now k is Some _ then 1 else 0;
  GET_law now k d :
    GET now k d = match live d now k with
                  | None => Ok None
                  | Some (RString s) => Ok (Some s)
                  | Some (RHash _) => Err EWrongType
                  end;
  DEL_result now k d : (DEL now k d).2 = if live d now k is Some _ then 1 else 0;
  DEL_entry now k d : r_entry (DEL now k d).1 k = None;
  DEL_only now k d : only_key k d (DEL now k d).1;

  INCR_only now k d : only_key k d (INCR now k d).1;
  INCR_absent now k d :
    live d now k = None →
    (INCR now k d).2 = Ok 1 ∧ r_entry (INCR now k d).1 k = Some (RString (pretty 1), None);
  INCR_number now k d n t :
    live_entry d now k = Some (RString (pretty n), t) →
    is_i64 n → n < maxInt64 →
    (INCR now k d).2 = Ok (n + 1) ∧
    r_entry (INCR now k d).1 k = Some (RString (pretty (n + 1)), t);
  INCR_not_number now k d s :
    live d now k = Some (RString s) → (∀ n, is_i64 n → s ≠ pretty n) →
    INCR now k d = (d, Err ENotInteger);

  PSETEX_only now k ms s d : only_key k d (PSETEX now k ms s d).1;
  PSETEX_law now k ms s d :
    int_expiry now ms = true →
    (PSETEX now k ms s d).2 = Ok () ∧
    r_entry (PSETEX now k ms s d).1 k = Some (RString s, Some (now + ms));

  PEXPIRE_only now k ms d : only_key k d (PEXPIRE now k ms d).1;
  PEXPIRE_absent now k ms d : live d now k = None → PEXPIRE now k ms d = (d, 0);
  PEXPIRE_live now k ms d v :
    live d now k = Some v → int_expiry now ms = true →
    (PEXPIRE now k ms d).2 = 1 ∧
    r_entry (PEXPIRE now k ms d).1 k = Some (v, Some (now + ms));
  PEXPIRE_past now k ms d v :
    live d now k = Some v → ms <= 0 →
    (PEXPIRE now k ms d).2 = 1 ∧ r_entry (PEXPIRE now k ms d).1 k = None;

  HMGET_law now k fs d :
    HMGET now k fs d = match live d now k with
                       | None => Ok (map (λ _, None) fs)
                       | Some (RString _) => Err EWrongType
                       | Some (RHash h) => Ok (map (λ f, h !! f) fs)
                       end;
  HMSET_only now k fvs d : only_key k d (HMSET now k fvs d).1;
  HMSET_wrong now k fvs d s :
    live d now k = Some (RString s) → HMSET now k fvs d = (d, Err EWrongType);
  HMSET_law now k fvs d :
    (∀ s, live d now k ≠ Some (RString s)) → fvs ≠ [] →
    (HMSET now k fvs d).2 = Ok () ∧
    r_entry (HMSET now k fvs d).1 k =
      Some (RHash (foldl (λ h fv, <[fv.1 := fv.2]> h)
                     (match live d now k with Some (RHash h) => h | _ => ∅ end) fvs),
            match live_entry d now k with Some (_, t) => t | None => None end);

  lua_tostring_law n : lua_printable n → lua_tostring n = pretty n;
  lua_arg_law n : lua_exact n → lua_arg n = pretty n;
  lua_tonumber_law n : lua_exact n → lua_tonumber (pretty n) = Some n;
  lua_reply_int n : lua_exact n → lua_reply (LInt n) = Ok (GInt64 n);
  lua_reply_true : lua_reply (LBool true) = Ok (GInt64 1);
  lua_reply_false : lua_reply (LBool false) = Err ENil;
  lua_reply_nil : lua_reply LNil = Err ENil;
}.

Section facts.
Context {db : Type} `{RedisLaws db}.
Implicit Types (d : db) (k : string).

Lemma live_entry_live d now k : live d now k = fst <$> live_entry d now k.
Proof. unfold live, live_entry. by destruct (r_entry d k) as [e|]; [destruct (alive now e)|]. Qed.

Lemma live_frame d d' now k : r_entry d' k = r_entry d k → live d' now k = live d now k.
Proof. intros E. unfold live. by rewrite E. Qed.

(** Time only removes: what is alive later, untouched, was alive before. *)
Lemma live_later d now now' k v :
  now <= now' → live d now' k = Some v → live d now k = Some v.
Proof.
  intros Hle. unfold live, alive. destruct (r_entry d k) as [[v' [t|]]|]; simpl; [|done..].
  destruct (Z.ltb_spec now' t), (Z.ltb_spec now t); try done; lia.
Qed.

Lemma live_expired d now k v t : r_entry d k = Some (v, Some t) → t <= now → live d now k = None.
Proof. intros E Ht. unfold live, alive. rewrite E. simpl. destruct (Z.ltb_spec now t); [lia|done]. Qed.

Lemma live_Some_entry d now k v : live d now k = Some v → ∃ t, r_entry d k = Some (v, t).
Proof.
  unfold live. destruct (r_entry d k) as [[v' t]|]; [|done].
  destruct (alive _ _); [|done]. simpl. intros [= ->]. eauto.
Qed.

Lemma live_fresh d now k ms v : r_entry d k = Some (v, Some (now + ms)) → 0 < ms → live d now k = Some v.
Proof.
  intros E Hms. unfold live, alive. rewrite E. simpl. destruct (Z.ltb_spec now (now + ms)); [done|lia].
Qed.

End facts.

(** ** A server that keeps its keys in a finite map *)

Abbreviation mapdb := (gmap string (rvalue * option Z)).

Definition map_live (d : mapdb) (now : Z) (k : string) : option (rvalue * option Z) :=
  match d !! k with
  | Some e => if alive now e then Some e else None
  | None => None
  end.

(** The decimal reading of a string, when printing the number gives the string back. *)
Fixpoint digits_value (acc : Z) (s : string) : option Z :=
  match s with
  | EmptyString => Some acc
  | String a s' =>
      let n := Z.of_nat (Ascii.nat_of_ascii a) in
      if decide (48 <= n <= 57) then digits_value (acc * 10 + (n - 48)) s' else None
  end.

Definition minus_sign : Ascii.ascii := Ascii.ascii_of_nat 45.

Definition read_int (s : string) : option Z :=
  match (match s with
         | String a r =>
             if decide (a = minus_sign) then Z.opp <$> digits_value 0 r else digits_value 0 s
         | EmptyString => None
         end) with
  | Some n => if decide (pretty n = s) then Some n else None
  | None => None
  end.

#[export] Instance mapdb_server : RedisServer mapdb := {
  r_entry d k := d !! k;
  EXISTS now k d := if map_live d now k is Some _ then 1 else 0;
  GET now k d :=
    match map_live d now k with
    | None => Ok None
    | Some (RString s, _) => Ok (Some s)
    | Some (RHash _, _) => Err EWrongType
    end;
  DEL now k d := (delete k d, if map_live d now k is Some _ then 1 else 0);
  INCR now k d :=
    match map_live d now k with
    | None => (<[k := (RString (pretty 1), None)]> d, Ok 1)
    | Some (RHash _, _) => (d, Err EWrongType)
    | Some (RString s, t) =>
        match read_int s with
        | Some n =>
            if decide (is_i64 n) then
              if n <? maxInt64 then (<[k := (RString (pretty (n + 1)), t)]> d, Ok (n + 1))
              else (d, Err EOverflow)
            else (d, Err ENotInteger)
        | None => (d, Err ENotInteger)
        end
    end;
  PSETEX now k ms s d :=
    if int_expiry now ms then (<[k := (RString s, Some (now + ms))]> d, Ok ())
    else (d, Err EInvalidExpire);
  PEXPIRE now k ms d :=
    match map_live d now k with
    | None => (d, 0)
    | Some (v, _) =>
        if ms <=? 0 then (delete k d, 1)
        else if int_expiry now ms then (<[k := (v, Some (now + ms))]> d, 1) else (d, 0)
    end;
  HMGET now k fs d :=
    match map_live d now k with
    | None => Ok (map (λ _, None) fs)
    | Some (RString _, _) => Err EWrongType
    | Some (RHash h, _) => Ok (map (λ f, h !! f) fs)
    end;
  HMSET now k fvs d :=
    match map_live d now k with
    | Some (RString _, _) => (d, Err EWrongType)
    | Some (RHash h, t) => (<[k := (RHash (foldl (λ h fv, <[fv.1 := fv.2]> h) h fvs), t)]> d, Ok ())
    | None => (<[k := (RHash (foldl (λ h fv, <[fv.1 := fv.2]> h) ∅ fvs), None)]> d, Ok ())
    end;
  lua_tostring := pretty;
  lua_arg := pretty;
  lua_tonumber := read_int;
  lua_reply v :=
    match v with
    | LInt n => Ok (GInt64 n)
    | LStr s => Ok (GString s)
    | LBool true => Ok (GInt64 1)
    | LBool false | LNil => Err ENil
    end;
}.

Lemma pretty_N_char_value m :
  (m < 10)%N → Z.of_nat (Ascii.nat_of_ascii (pretty_N_char m)) = 48 + Z.of_N m.
Proof.
  intros Hm.
  assert (m = 0 ∨ m = 1 ∨ m = 2 ∨ m = 3 ∨ m = 4 ∨ m = 5 ∨ m = 6 ∨ m = 7 ∨ m = 8 ∨ m = 9)%N as Hc by lia.
  by repeat destruct Hc as [->|Hc]; subst.
Qed.

Lemma pretty_N_char_not_minus n : pretty_N_char (n `mod` 10)%N ≠ minus_sign.
Proof.
  intros E. assert (n `mod` 10 < 10)%N as Hm by (apply N.mod_lt; lia).
  pose proof (pretty_N_char_value _ Hm) as Hv. rewrite E in Hv.
  assert (Z.of_nat (Ascii.nat_of_ascii minus_sign) = 45) as Hc by reflexivity.
  rewrite Hc in Hv. generalize dependent (n `mod` 10)%N. intros. lia.
Qed.

Lemma digits_value_go n s : digits_value 0 (pretty_N_go n s) = digits_value (Z.of_N n) s.
Proof.
  revert s. induction (N.lt_wf_0 n) as [n _ IH]; intros s.
  destruct (decide (n = 0)%N) as [->|Hn]; [by rewrite pretty_N_go_0|].
  rewrite pretty_N_go_step by lia. rewrite IH by (apply N.div_lt; lia). cbn [digits_value].
  assert (n `mod` 10 < 10)%N as Hm by (apply N.mod_lt; lia).
  pose proof (N.div_mod n 10 ltac:(lia)) as Hdm.
  rewrite pretty_N_char_value by done.
  generalize dependent (n `mod` 10)%N. generalize (n `div` 10)%N. intros q m Hm Hdm.
  rewrite decide_True by lia. f_equal. lia.
Qed.

Lemma pretty_N_head p : ∃ a r, pretty (Npos p) = String a r ∧ a ≠ minus_sign.
Proof.
  assert (∀ n s a r, s = String a r → a ≠ minus_sign →
    ∃ a' r', pretty_N_go n s = String a' r' ∧ a' ≠ minus_sign) as Hgo.
  { intros n. induction (N.lt_wf_0 n) as [n _ IH]; intros s a r -> Ha.
    destruct (decide (n = 0)%N) as [->|Hn]; [rewrite pretty_N_go_0; eauto|].
    rewrite pretty_N_go_step by lia. eapply IH; [apply N.div_lt; lia|done|].
    apply pretty_N_char_not_minus. }
  change (pretty (Npos p)) with (pretty_N_go (Npos p) ""). rewrite pretty_N_go_step by lia.
  eapply Hgo; [done|]. apply pretty_N_char_not_minus.
Qed.

Lemma read_int_pretty n : read_int (pretty n) = Some n.
Proof.
  unfold read_int. destruct n as [|p|p].
  - by vm_compute.
  - change (pretty (Zpos p)) with (pretty (Npos p)).
    destruct (pretty_N_head p) as (a & r & E & Ha). rewrite E.
    assert (digits_value 0 (String a r) = Some (Zpos p)) as Hd.
    { rewrite <-E. change (pretty (Npos p)) with (pretty_N_go (Npos p) ""). by rewrite digits_value_go. }
    assert (pretty (Zpos p) = String a r) as E' by exact E.
    rewrite decide_False by done. by rewrite Hd, decide_True.
  - assert (pretty (Zneg p) = String minus_sign (pretty_N_go (Npos p) "")) as E by done.
    rewrite E at 1. rewrite decide_True, digits_value_go by done.
    cbn [digits_value fmap option_fmap option_map Z.of_N Z.opp].
    by rewrite decide_True.
Qed.

Lemma read_int_Some s n : read_int s = Some n → s = pretty n.
Proof. unfold read_int. intros. repeat case_match; naive_solver. Qed.

Lemma map_live_entry (d : mapdb) now k : live_entry d now k = map_live d now k.
Proof. done. Qed.

Lemma map_live_live (d : mapdb) now k : live d now k = fst <$> map_live d now k.
Proof. rewrite <-map_live_entry. apply live_entry_live. Qed.

#[export] Instance mapdb_laws : RedisLaws mapdb.
Proof.
  split; intros; rewrite ?map_live_entry, ?map_live_live in *; unfold only_key, r_entry; simpl;
    intros; repeat case_match; simplify_eq/=;
    rewrite ?lookup_insert_eq, ?lookup_delete_eq, ?lookup_insert_ne, ?lookup_delete_ne by done;
    rewrite ?read_int_pretty in *; simplify_eq/=; try done; try lia.
  all: try (repeat case_match; simplify_eq/=; rewrite ?lookup_insert_eq; done).
  all: try match goal with E : read_int _ = Some _ |- _ => apply read_int_Some in E; naive_solver end.
  all: unfold int_expiry in *; try lia.
  naive_solver.
Qed.
