(* ===== verification/RedisClient.v ===== *)
(** * The Redis client and its connections ([src/storage/redis])

    The cache adapter and the session store call Redis commands one by one through
    go-redis. [RedisClient] adds to [RedisServer] the calls they make, with expirations
    as [time.Duration] values, and [ClientLaws] states what go-redis and Redis document
    of them. The second half is the package's own code: the registry of connections and
    their configurations, with [Connect], [SetConnectionConfig] and [Close]. *)

From Stdlib Require Import ZArith Lia.
From stdpp Require Import base numbers strings gmap list pretty.
From S2P Require Import Prelude CacheApi Redis.
Local Open Scope Z_scope.

Definition second : Z := 10 ^ 9.

Class RedisClient (db : Type) `{RedisServer db} := {
  (** [Set(key, value, expiration)], the expiration in nanoseconds *)
  Client_Set : Z → string → string → Z → db → db * result rerr unit;
  Client_MGet : Z → list string → db → result rerr (list (option string));
  Client_IncrBy : Z → string → Z → db → db * result rerr Z;
  Client_DecrBy : Z → string → Z → db → db * result rerr Z;
  Client_Append : Z → string → string → db → db * result rerr Z;
  Client_Expire : Z → string → Z → db → db * bool;
  (** [TTL(key)] as the client reports it, in nanoseconds *)
  Client_TTL : Z → string → db → Z;
}.

(** The string a key holds, with its deadline. *)
Definition string_entry {db} `{RedisServer db} (d : db) (now : Z) (k : string) : option (string * option Z) :=
  match live_entry d now k with
  | Some (RString s, t) => Some (s, t)
  | _ => None
  end.

Definition not_number (s : string) : Prop := ∀ n, is_i64 n → s ≠ pretty n.

(** Expirations are given for whole seconds; [-1] and [-2] nanoseconds are go-redis's
    readings of a key without deadline and of an absent key. *)
Class ClientLaws (db : Type) `{RedisLaws db} `{!RedisClient db} : Prop := {
  Set_only now k s e d : only_key k d (Client_Set now k s e d).1;
  Set_plain now k s d :
    (Client_Set now k s 0 d).2 = Ok () ∧ r_entry (Client_Set now k s 0 d).1 k = Some (RString s, None);
  Set_seconds now k s n d :
    int_expiry now (n * 1000) = true →
    (Client_Set now k s (n * second) d).2 = Ok () ∧
    r_entry (Client_Set now k s (n * second) d).1 k = Some (RString s, Some (now + n * 1000));
  Set_precise now k s e d :
    0 < e → int_expiry now (e / 10 ^ 6 + 1) = true →
    (Client_Set now k s e d).2 = Ok () ∧
    ∃ t, r_entry (Client_Set now k s e d).1 k = Some (RString s, Some (now + t)) ∧
         Z.max 1 (e / 10 ^ 6) <= t <= e / 10 ^ 6 + 1;

  MGet_law now ks d :
    ks ≠ [] →
    Client_MGet now ks d =
      Ok (map (λ k, match live d now k with Some (RString s) => Some s | _ => None end) ks);
  MGet_none now d : ∃ e, Client_MGet now [] d = Err e;

  IncrBy_only now k v d : only_key k d (Client_IncrBy now k v d).1;
  IncrBy_absent now k v d :
    live d now k = None → is_i64 v →
    (Client_IncrBy now k v d).2 = Ok v ∧
    r_entry (Client_IncrBy now k v d).1 k = Some (RString (pretty v), None);
  IncrBy_number now k v d n t :
    live_entry d now k = Some (RString (pretty n), t) → is_i64 n → is_i64 v →
    if bool_decide (is_i64 (n + v)) then
      (Client_IncrBy now k v d).2 = Ok (n + v) ∧
      r_entry (Client_IncrBy now k v d).1 k = Some (RString (pretty (n + v)), t)
    else Client_IncrBy now k v d = (d, Err EOverflow);
  IncrBy_not_number now k v d s :
    live d now k = Some (RString s) → not_number s → Client_IncrBy now k v d = (d, Err ENotInteger);
  DecrBy_law now k v d :
    Client_DecrBy now k v d = if decide (v = - 2 ^ 63) then (d, Err EOverflow) else Client_IncrBy now k (- v) d;

  Append_only now k s d : only_key k d (Client_Append now k s d).1;
  Append_absent now k s d :
    live d now k = None →
    (Client_Append now k s d).2 = Ok (Z.of_nat (String.length s)) ∧
    r_entry (Client_Append now k s d).1 k = Some (RString s, None);
  Append_string now k s d s0 t :
    live_entry d now k = Some (RString s0, t) →
    (Client_Append now k s d).2 = Ok (Z.of_nat (String.length (s0 +:+ s))) ∧
    r_entry (Client_Append now k s d).1 k = Some (RString (s0 +:+ s), t);

  Expire_only now k e d : only_key k d (Client_Expire now k e d).1;
  Expire_absent now k e d : live d now k = None → Client_Expire now k e d = (d, false);
  Expire_live now k n d v :
    live d now k = Some v → int_expiry now (n * 1000) = true →
    (Client_Expire now k (n * second) d).2 = true ∧
    r_entry (Client_Expire now k (n * second) d).1 k = Some (v, Some (now + n * 1000));
  Expire_past now k n d v :
    live d now k = Some v → n <= 0 →
    (Client_Expire now k (n * second) d).2 = true ∧ r_entry (Client_Expire now k (n * second) d).1 k = None;

  TTL_absent now k d : live d now k = None → Client_TTL now k d = -2;
  TTL_persistent now k d v : live_entry d now k = Some (v, None) → Client_TTL now k d = -1;
  TTL_remaining now k d v t :
    live_entry d now k = Some (v, Some t) →
    ∃ s, Client_TTL now k d = s * second ∧ 0 <= s ∧ t - now - 1000 < s * 1000 < t - now + 1000;
}.

(** ** The finite-map server *)

Definition map_set (now : Z) (k s : string) (e : Z) (d : mapdb) : mapdb * result rerr unit :=
  if e <=? 0 then (<[k := (RString s, None)]> d, Ok ())
  else
    let ms := if e mod second =? 0 then e / 10 ^ 6 else Z.max 1 (e / 10 ^ 6) in
    if int_expiry now ms then (<[k := (RString s, Some (now + ms))]> d, Ok ()) else (d, Err EInvalidExpire).

Definition map_incrby (now : Z) (k : string) (v : Z) (d : mapdb) : mapdb * result rerr Z :=
  match map_live d now k with
  | None => (<[k := (RString (pretty v), None)]> d, Ok v)
  | Some (RHash _, _) => (d, Err EWrongType)
  | Some (RString s, t) =>
      match read_int s with
      | Some n =>
          if decide (is_i64 n) then
            if decide (is_i64 (n + v)) then (<[k := (RString (pretty (n + v)), t)]> d, Ok (n + v))
            else (d, Err EOverflow)
          else (d, Err ENotInteger)
      | None => (d, Err ENotInteger)
      end
  end.

Definition map_expire (now : Z) (k : string) (n : Z) (d : mapdb) : mapdb * bool :=
  match map_live d now k with
  | None => (d, false)
  | Some (v, _) =>
      if n <=? 0 then (delete k d, true)
      else if int_expiry now (n * 1000) then (<[k := (v, Some (now + n * 1000))]> d, true) else (d, false)
  end.

Definition map_append (now : Z) (k s : string) (d : mapdb) : mapdb * result rerr Z :=
  match map_live d now k with
  | None => (<[k := (RString s, None)]> d, Ok (Z.of_nat (String.length s)))
  | Some (RHash _, _) => (d, Err EWrongType)
  | Some (RString s0, t) =>
      (<[k := (RString (s0 +:+ s), t)]> d, Ok (Z.of_nat (String.length (s0 +:+ s))))
  end.

Definition map_ttl (now : Z) (k : string) (d : mapdb) : Z :=
  match map_live d now k with
  | None => -2
  | Some (_, None) => -1
  | Some (_, Some t) => (t - now) / 1000 * second
  end.

#[export] Instance mapdb_client : RedisClient mapdb := {
  Client_Set := map_set;
  Client_MGet now ks d :=
    match ks with
    | [] => Err (EScript "wrong number of arguments")
    | _ => Ok (map (λ k, match map_live d now k with Some (RString s, _) => Some s | _ => None end) ks)
    end;
  Client_IncrBy := map_incrby;
  Client_DecrBy now k v d := if decide (v = - 2 ^ 63) then (d, Err EOverflow) else map_incrby now k (- v) d;
  Client_Append := map_append;
  Client_Expire now k e d := map_expire now k (Z.quot e second) d;
  Client_TTL := map_ttl;
}.

Lemma seconds_quot n : Z.quot (n * second) second = n.
Proof. apply Z.quot_mul. done. Qed.

Lemma map_set_seconds now k s n (d : mapdb) :
  int_expiry now (n * 1000) = true →
  map_set now k s (n * second) d = (<[k := (RString s, Some (now + n * 1000))]> d, Ok ()).
Proof.
  intros He. assert (0 < n) as Hn by (unfold int_expiry in He; lia).
  unfold map_set. destruct (Z.leb_spec (n * second) 0); [unfold second in *; lia|].
  rewrite Z.mod_mul by done. cbn [Z.eqb]. assert (n * second / 10 ^ 6 = n * 1000) as ->.
  { unfold second. replace (n * 10 ^ 9) with (n * 1000 * 10 ^ 6) by lia. by rewrite Z.div_mul. }
  by rewrite He.
Qed.

Lemma map_set_precise now k s e (d : mapdb) :
  0 < e → int_expiry now (e / 10 ^ 6 + 1) = true →
  ∃ t, map_set now k s e d = (<[k := (RString s, Some (now + t))]> d, Ok ()) ∧
       Z.max 1 (e / 10 ^ 6) <= t <= e / 10 ^ 6 + 1.
Proof.
  intros He Hi. pose proof (Z.div_pos e (10 ^ 6) ltac:(lia) ltac:(lia)) as Hp.
  unfold map_set. destruct (Z.leb_spec e 0); [lia|].
  destruct (Z.eqb_spec (e mod second) 0) as [Em|Em].
  - exists (e / 10 ^ 6). assert (1 <= e / 10 ^ 6) as Hge.
    { apply Z.mod_divide in Em as [q ->]; [|done].
      unfold second in *. replace (q * 10 ^ 9) with (q * 1000 * 10 ^ 6) by lia. rewrite Z.div_mul by done. lia. }
    split; [|lia]. replace (int_expiry now (e / 10 ^ 6)) with true; [done|]. unfold int_expiry in *. lia.
  - exists (Z.max 1 (e / 10 ^ 6)). split; [|lia].
    replace (int_expiry now (Z.max 1 (e / 10 ^ 6))) with true; [done|]. unfold int_expiry in *. lia.
Qed.

(** Case analysis on a finite-map operation and the entry of the changed key. *)
Ltac map_client :=
  intros; rewrite ?map_live_entry, ?map_live_live in *; unfold only_key, r_entry; simpl;
  unfold map_set, map_incrby, map_append, map_expire, map_ttl;
  intros; repeat case_match; simplify_eq/=;
  rewrite ?lookup_insert_eq, ?lookup_delete_eq, ?lookup_insert_ne, ?lookup_delete_ne by done;
  try done; try lia.

#[export] Instance mapdb_client_laws : ClientLaws mapdb.
Proof.
  split; rewrite ?seconds_quot.
  - map_client.
  - map_client.
  - intros. rewrite map_set_seconds by done. map_client.
  - intros now k s e d He Hi. destruct (map_set_precise now k s e d He Hi) as (t & E & Ht).
    cbn [Client_Set mapdb_client]. rewrite E. split; [done|]. exists t. split; [|done]. map_client.
  - intros now ks d Hks. destruct ks as [|k ks]; [done|]. cbn [Client_MGet mapdb_client]. f_equal.
    apply map_ext. intros k'. rewrite map_live_live. by destruct (map_live d now k') as [[[]]|].
  - intros. by eexists.
  - map_client.
  - map_client.
  - intros now k v d n t El Hn Hv. rewrite map_live_entry in El. cbn [Client_IncrBy mapdb_client].
    unfold map_incrby. rewrite El, read_int_pretty, decide_True by done.
    case_bool_decide; case_decide; try done. map_client.
  - intros now k v d s El Hs. rewrite map_live_live in El. cbn [Client_IncrBy mapdb_client]. unfold map_incrby.
    destruct (map_live d now k) as [[[s'|] t]|]; simplify_eq/=. destruct (read_int s) as [n|] eqn:En; [|done].
    apply read_int_Some in En. case_decide; [|done]. by destruct (Hs n).
  - done.
  - map_client.
  - map_client.
  - map_client.
  - map_client.
  - map_client.
  - intros now k n d v El He. rewrite map_live_live in El. cbn [Client_Expire mapdb_client].
    rewrite seconds_quot. unfold map_expire. destruct (map_live d now k) as [[v' t]|]; simplify_eq/=.
    destruct (Z.leb_spec n 0); [unfold int_expiry in He; lia|]. rewrite He. map_client.
  - intros now k n d v El Hn. rewrite map_live_live in El. cbn [Client_Expire mapdb_client].
    rewrite seconds_quot. unfold map_expire. destruct (map_live d now k) as [[v' t]|]; simplify_eq/=.
    destruct (Z.leb_spec n 0); [|lia]. map_client.
  - map_client.
  - map_client.
  - intros now k d v t El. assert (now < t) as Ht.
    { unfold live_entry, alive in El. case_match; [|done]. case_match; [|done]. simplify_eq/=. lia. }
    rewrite map_live_entry in El. cbn [Client_TTL mapdb_client]. unfold map_ttl. rewrite El.
    pose proof (Z.div_mod (t - now) 1000 ltac:(lia)). pose proof (Z.mod_pos_bound (t - now) 1000 ltac:(lia)).
    eexists. split; [done|]. split; [apply Z.div_pos; lia|lia].
Qed.

(** ** The registry of connections ([redis.go])

    The package variables [instances] and [connectionConfigMap]; a nil map behaves as an
    empty one. Connections are numbered as they are made, with the options they were made
    with and whether they were closed. *)

Record RedisConnectionConfig : Type := {
  Address : string;
  Username : string;
  Password : string;
  Database : Z;
  PoolSize : Z;
}.

#[export] Instance RedisConnectionConfig_eq_dec : EqDecision RedisConnectionConfig.
Proof. solve_decision. Defined.

Record connection : Type := { conn_options : RedisConnectionConfig; conn_closed : bool }.

Record redis_registry : Type := {
  instances : gmap string nat;
  connectionConfigMap : gmap string (option RedisConnectionConfig);
  connections : list connection;
}.

Definition no_connections : redis_registry :=
  {| instances := ∅; connectionConfigMap := ∅; connections := [] |}.

Definition Redis_cloneConnectionConfig (config : option RedisConnectionConfig) : option RedisConnectionConfig :=
  match config with
  | None => None
  | Some config =>
      Some {| Address := Address config; Username := Username config; Password := Password config;
              Database := Database config; PoolSize := PoolSize config |}
  end.

Definition Redis_SetConnectionConfig (clusterName : string) (config : option RedisConnectionConfig) (w : redis_registry)
  : redis_registry :=
  {| instances := instances w;
     connectionConfigMap := <[clusterName := Redis_cloneConnectionConfig config]> (connectionConfigMap w);
     connections := connections w |}.

Definition Redis_GetConnectionConfig (clusterName : string) (w : redis_registry) : option RedisConnectionConfig :=
  match connectionConfigMap w !! clusterName with
  | None => None
  | Some config => Redis_cloneConnectionConfig config
  end.

(** A connector: whether [New] gives a client for the options. [RedisConnector] always
    does. *)
Abbreviation connector := (RedisConnectionConfig → bool).
Definition RedisConnector : connector := λ _, true.

Definition Redis_newInstance (c : connector) (config : option RedisConnectionConfig) (w : redis_registry)
  : outcome (redis_registry * result string nat) :=
  match config with
  | None => Panic nil_dereference
  | Some opt =>
      if c opt then
        Ret ({| instances := instances w; connectionConfigMap := connectionConfigMap w;
                connections := connections w ++ [{| conn_options := opt; conn_closed := false |}] |},
             Ok (length (connections w)))
      else Ret (w, Err ("failed to create redis client for address '" +:+ Address opt +:+ "'"))
  end.

Definition not_configured (serverName : string) : string :=
  "connection config for server '" +:+ serverName +:+ "' not set".

Definition Redis_ConnectContext (ctx : context) (c : connector) (serverName : string) (w : redis_registry)
  : outcome (redis_registry * result string nat) :=
  match checkedCacheContext ctx with
  | Some e => Ret (w, Err e)
  | None =>
      match instances w !! serverName with
      | Some conn => Ret (w, Ok conn)
      | None =>
          match connectionConfigMap w !! serverName with
          | None => Ret (w, Err (not_configured serverName))
          | Some config =>
              r ← Redis_newInstance c config w;
              match r with
              | (w, Err e) => Ret (w, Err e)
              | (w, Ok newConn) =>
                  Ret ({| instances := <[serverName := newConn]> (instances w);
                          connectionConfigMap := connectionConfigMap w; connections := connections w |},
                       Ok newConn)
              end
          end
      end
  end.

Definition Redis_Connect (c : connector) (serverName : string) (w : redis_registry)
  : outcome (redis_registry * result string nat) :=
  Redis_ConnectContext (Context_ None) c serverName w.

Definition client_is_closed : string := "redis: client is closed".

(** [Close]: the client is closed, but stays in the registry. *)
Definition Redis_Close (conn : nat) (w : redis_registry) : redis_registry * option string :=
  match connections w !! conn with
  | None => (w, Some nil_dereference)
  | Some c =>
      if conn_closed c then (w, Some client_is_closed)
      else ({| instances := instances w; connectionConfigMap := connectionConfigMap w;
               connections := <[conn := {| conn_options := conn_options c; conn_closed := true |}]> (connections w) |},
            None)
  end.

(** What a call on a connection meets: a closed client refuses it. *)
Definition fate_on (conn : nat) (w : redis_registry) (f : fate) : fate :=
  match connections w !! conn with
  | Some c => if conn_closed c then RequestLost client_is_closed else f
  | None => RequestLost client_is_closed
  end.

(** Every registered instance is a connection. *)
Definition registry_ok (w : redis_registry) : Prop :=
  ∀ s i, instances w !! s = Some i → is_Some (connections w !! i).

Lemma Connect_registered c s w i : instances w !! s = Some i → Redis_Connect c s w = Ret (w, Ok i).
Proof. intros E. unfold Redis_Connect, Redis_ConnectContext. cbn. by rewrite E. Qed.

(** A successful [Connect] registers the connection, and later ones return it, whatever
    configuration was set in between. *)
Lemma Connect_Ok c s w w' i :
  registry_ok w → Redis_Connect c s w = Ret (w', Ok i) →
  registry_ok w' ∧ instances w' !! s = Some i ∧
  (w' = w ∨ ∃ opt, connections w' !! i = Some {| conn_options := opt; conn_closed := false |} ∧
                   connectionConfigMap w !! s = Some (Some opt)).
Proof.
  intros Hok. unfold Redis_Connect, Redis_ConnectContext. cbn [checkedCacheContext].
  destruct (instances w !! s) as [j|] eqn:Ei; [intros [= <- <-]; auto|].
  destruct (connectionConfigMap w !! s) as [[opt|]|] eqn:Ec; [|done..]. cbn [Redis_newInstance mbind outcome_bind].
  destruct (c opt); [|done]. intros [= <- <-]. cbn [instances connections]. split_and!.
  - intros s' i'. cbn. destruct (decide (s = s')) as [<-|Hne].
    + rewrite lookup_insert_eq. intros [= <-]. rewrite lookup_app_r, Nat.sub_diag by done. by eexists.
    + rewrite lookup_insert_ne by done. intros E. destruct (Hok s' i' E) as [x Hx].
      exists x. by apply lookup_app_l_Some.
  - apply lookup_insert_eq.
  - right. exists opt. by rewrite lookup_app_r, Nat.sub_diag.
Qed.

Lemma registry_ok_SetConfig s cfg w : registry_ok w → registry_ok (Redis_SetConnectionConfig s cfg w).
Proof. done. Qed.

Lemma registry_ok_Close i w : registry_ok w → registry_ok (Redis_Close i w).1.
Proof.
  intros Hok. unfold Redis_Close. destruct (connections w !! i) as [c|] eqn:Ei; [|done].
  destruct (conn_closed c); [done|]. intros s j Ej. cbn in *. destruct (Hok s j Ej) as [x Hx].
  destruct (decide (i = j)) as [<-|]; [rewrite list_lookup_insert_eq; eauto using lookup_lt_Some|].
  rewrite list_lookup_insert_ne by done. eauto.
Qed.
