(* ===== verification/RedisCache.v ===== *)
(** * The Redis cache adapter ([src/caching/redis_cache.go], [factory.go])

    [RedisCache] puts the request-based cache interface on Redis commands: it checks the
    context, formats the key, serialises the value and converts seconds. Operations take
    the fate of their server call and the server's clock; a nil request is dereferenced.
    The abstract cache [spec_op] is a finite map from formatted keys to strings with
    deadlines, and the operations are proved to implement it. [json.Marshal] is a
    parameter. *)

From Stdlib Require Import ZArith Lia.
From stdpp Require Import base numbers strings gmap list pretty.
From S2P Require Import Prelude GoValue CacheApi Redis RedisClient.
Local Open Scope Z_scope.

Inductive redis_cache_error : Type :=
  | CtxErr (why : string)
  | ServerErr (e : rerr)
  | NotSerialisable
  | NoPipelining.

Record RedisCache := mkRedisCache {
  rc_client : nat; rc_clusterName : string; rc_namespace : string; rc_collection : string
}.

Definition formatKey (namespace collection key : string) : string :=
  namespace +:+ ":" +:+ collection +:+ ":" +:+ key.

Definition formatted (h : cacheRequest) (key : string) : string := formatKey (Namespace h) (Collection h) key.

(** [time.Duration(ttl) * time.Second]. *)
Definition ttl_duration (ttl : Z) : Z := i64 (ttl * second).

Section adapter.
Context {db : Type} `{RedisServer db, !RedisClient db}.
Context (json_Marshal : any → option string).
Implicit Types (d : db).

Definition getSerialisedValue (v : cache_value) : result redis_cache_error string :=
  match v with
  | CBytes s => Ok s
  | CAny (AnyString s) => Ok s
  | CAny a => match json_Marshal a with Some b => Ok b | None => Err NotSerialisable end
  end.

(** A call to the server: what it does and answers, if it gets there and back. *)
Definition call {A} (f : fate) (cmd : db → db * result rerr A) (d : db) : db * result redis_cache_error A :=
  match f with
  | Delivered => let '(d, r) := cmd d in (d, match r with Ok a => Ok a | Err e => Err (ServerErr e) end)
  | RequestLost why => (d, Err (ServerErr (ENetwork why)))
  | ReplyLost why => ((cmd d).1, Err (ServerErr (ENetwork why)))
  end.

(** The context check, then the request's fields. *)
Definition with_request {R A} (ctx : context) (req : option R) (d : db)
    (body : R → db * result redis_cache_error A) : outcome (db * result redis_cache_error A) :=
  match checkedCacheContext ctx, req with
  | Some e, _ => Ret (d, Err (CtxErr e))
  | None, None => Panic nil_dereference
  | None, Some req => Ret (body req)
  end.

Definition rc_ExistsContext f now ctx (req : option KeyRequest) d : outcome (db * result redis_cache_error bool) :=
  with_request ctx req d (λ req,
    let key := formatted (key_hdr req) (Key req) in
    let '(d, r) := call f (λ d, (d, Ok (EXISTS now key d))) d in
    (d, count ← r; Ok (count =? 1))).

(** [None] is the nil result for an absent key. *)
Definition rc_GetContext f now ctx (req : option GetRequest) d
    : outcome (db * result redis_cache_error (option string)) :=
  with_request ctx req d (λ req,
    let key := formatted (get_hdr req) (get_key req) in
    call f (λ d, (d, GET now key d)) d).

Definition rc_SetContext f now ctx (req : option ValueRequest) d : outcome (db * result redis_cache_error bool) :=
  with_request ctx req d (λ req,
    let key := formatted (val_hdr req) (val_key req) in
    match getSerialisedValue (val_value req) with
    | Err e => (d, Err e)
    | Ok valueBytes =>
        let '(d, r) := call f (Client_Set now key valueBytes (ttl_duration (val_ttl req))) d in
        (d, _ ← r; Ok true)
    end).

Definition rc_DeleteContext f now ctx (req : option KeyRequest) d : outcome (db * result redis_cache_error bool) :=
  with_request ctx req d (λ req,
    let key := formatted (key_hdr req) (Key req) in
    let '(d, r) := call f (λ d, let '(d, n) := DEL now key d in (d, Ok n)) d in
    (d, count ← r; Ok (0 <? count))).

(** The result map of [MultiGet]: later duplicates of a key overwrite it. *)
Fixpoint collect_values (keys : list string) (values : list (option string)) (result : gmap string string)
  : gmap string string :=
  match keys, values with
  | k :: keys, v :: values =>
      collect_values keys values (match v with Some s => <[k := s]> result | None => result end)
  | _, _ => result
  end.

Definition rc_MultiGetContext f now ctx (req : option KeysRequest) d
    : outcome (db * result redis_cache_error (gmap string string)) :=
  with_request ctx req d (λ req,
    let formattedKeys := map (formatted (keys_hdr req)) (keys_keys req) in
    let '(d, r) := call f (λ d, (d, Client_MGet now formattedKeys d)) d in
    (d, values ← r; Ok (collect_values (keys_keys req) values ∅))).

(** *** MultiSet *)

Record redisSetCommand := mkSetCommand { cmd_key : string; cmd_value : string; cmd_expiration : Z }.

(** A pipeline may break off: the server ran [executed] commands, and the client read
    [replied] of the answers. A client without pipelining refuses. *)
Inductive pipe_fate := NoPipeline | Pipeline (executed replied : nat) (why : string).

Fixpoint run_commands (now : Z) (cmds : list redisSetCommand) d : db * list (result rerr unit) :=
  match cmds with
  | [] => (d, [])
  | c :: cmds =>
      let '(d, r) := Client_Set now (cmd_key c) (cmd_value c) (cmd_expiration c) d in
      let '(d, rs) := run_commands now cmds d in (d, r :: rs)
  end.

Fixpoint first_error (statuses : list (result rerr unit)) : option rerr :=
  match statuses with
  | [] => None
  | Err e :: _ => Some e
  | Ok _ :: statuses => first_error statuses
  end.

Definition redisPipelineSet (f : pipe_fate) now (commands : list redisSetCommand) d
    : db * list (result rerr unit) * option redis_cache_error :=
  match f with
  | NoPipeline => (d, [], Some NoPipelining)
  | Pipeline executed replied why =>
      let '(d, answers) := run_commands now (take executed commands) d in
      let statuses := take replied answers
        ++ replicate (length commands - length (take replied answers)) (Err (ENetwork why)) in
      (d, statuses, ServerErr <$> first_error statuses)
  end.

(** The first loop: serialise every value, or note its failure. *)
Fixpoint prepare (h : cacheRequest) (ttl : Z) (vm : list (string * cache_value))
    : gmap string bool * list string * list redisSetCommand * option redis_cache_error :=
  match vm with
  | [] => (∅, [], [], None)
  | (k, v) :: vm =>
      let '(result, logicalKeys, commands, firstErr) := prepare h ttl vm in
      match getSerialisedValue v with
      | Err e => (<[k := false]> result, logicalKeys, commands, Some e)
      | Ok b => (result, k :: logicalKeys, mkSetCommand (formatted h k) b (ttl_duration ttl) :: commands, firstErr)
      end
  end.

(** The last loop: the status of every command under its logical key. *)
Fixpoint settle (logicalKeys : list string) (statuses : list (result rerr unit)) (result : gmap string bool)
    (firstErr : option redis_cache_error) : gmap string bool * option redis_cache_error :=
  match logicalKeys with
  | [] => (result, firstErr)
  | k :: logicalKeys =>
      match statuses with
      | [] => settle logicalKeys [] (<[k := false]> result) firstErr
      | Ok _ :: statuses => settle logicalKeys statuses (<[k := true]> result) firstErr
      | Err e :: statuses =>
          settle logicalKeys statuses (<[k := false]> result)
            (match firstErr with None => Some (ServerErr e) | Some e => Some e end)
      end
  end.

Definition or_else (a b : option redis_cache_error) : option redis_cache_error :=
  match a with Some e => Some e | None => b end.

(** The answer is a map and an error side by side. *)
Definition rc_MultiSetContext (f : pipe_fate) now ctx (req : option ValuesRequest) d
    : outcome (db * gmap string bool * option redis_cache_error) :=
  match checkedCacheContext ctx, req with
  | Some e, _ => Ret (d, ∅, Some (CtxErr e))
  | None, None => Panic nil_dereference
  | None, Some req =>
      let '(result, logicalKeys, commands, firstErr) := prepare (vals_hdr req) (vals_ttl req) (vals_map req) in
      match commands with
      | [] => Ret (d, result, firstErr)
      | _ =>
          let '(d, statuses, err) := redisPipelineSet f now commands d in
          let '(result, firstErr) := settle logicalKeys statuses result (or_else firstErr err) in
          Ret (d, result, firstErr)
      end
  end.

(** One call per key, the n-th with the n-th fate; those left out are delivered. *)
Fixpoint MultiDelete_keys (h : cacheRequest) now (keys : list string) (fates : list fate) d
    (result : gmap string bool) (firstErr : option redis_cache_error)
    : db * gmap string bool * option redis_cache_error :=
  match keys with
  | [] => (d, result, firstErr)
  | k :: keys =>
      let '(d, r) :=
        call (hd Delivered fates) (λ d, let '(d, n) := DEL now (formatted h k) d in (d, Ok n)) d in
      match r with
      | Ok deleted => MultiDelete_keys h now keys (tl fates) d (<[k := 0 <? deleted]> result) firstErr
      | Err e => MultiDelete_keys h now keys (tl fates) d (<[k := false]> result) (or_else firstErr (Some e))
      end
  end.

Definition rc_MultiDeleteContext now ctx (req : option KeysRequest) (fates : list fate) d
    : outcome (db * gmap string bool * option redis_cache_error) :=
  match checkedCacheContext ctx, req with
  | Some e, _ => Ret (d, ∅, Some (CtxErr e))
  | None, None => Panic nil_dereference
  | None, Some req => Ret (MultiDelete_keys (keys_hdr req) now (keys_keys req) fates d ∅ None)
  end.

Definition rc_IncrementContext f now ctx (req : option OffsetRequest) d : outcome (db * result redis_cache_error unit) :=
  with_request ctx req d (λ req,
    let key := formatted (off_hdr req) (off_key req) in
    let '(d, r) := call f (Client_IncrBy now key (off_value req)) d in
    (d, _ ← r; Ok ())).

Definition rc_DecrementContext f now ctx (req : option OffsetRequest) d : outcome (db * result redis_cache_error unit) :=
  with_request ctx req d (λ req,
    let key := formatted (off_hdr req) (off_key req) in
    let '(d, r) := call f (Client_DecrBy now key (off_value req)) d in
    (d, _ ← r; Ok ())).

Definition rc_AppendContext f now ctx (req : option AppendRequest) d : outcome (db * result redis_cache_error unit) :=
  with_request ctx req d (λ req,
    let key := formatted (app_hdr req) (app_key req) in
    match getSerialisedValue (CAny (AnyString (app_value req))) with
    | Err e => (d, Err e)
    | Ok valueBytes =>
        let '(d, r) := call f (Client_Append now key valueBytes) d in
        (d, _ ← r; Ok ())
    end).

(** [int64(duration.Seconds())]. go-redis's durations are whole seconds or a few
    nanoseconds, for which the float arithmetic is exact. *)
Definition rc_GetTTLContext f now ctx (req : option KeyRequest) d : outcome (db * result redis_cache_error Z) :=
  with_request ctx req d (λ req,
    let key := formatted (key_hdr req) (Key req) in
    let '(d, r) := call f (λ d, (d, Ok (Client_TTL now key d))) d in
    (d, duration ← r; Ok (Z.quot duration second))).

Definition rc_SetTTLContext f now ctx (req : option SetTTLRequest) d : outcome (db * result redis_cache_error unit) :=
  with_request ctx req d (λ req,
    let key := formatted (sttl_hdr req) (sttl_key req) in
    let '(d, r) := call f (λ d, let '(d, b) := Client_Expire now key (ttl_duration (sttl_ttl req)) d in (d, Ok b)) d in
    (d, _ ← r; Ok ())).

End adapter.

(** ** The abstract cache *)

Abbreviation spec_state := (gmap string (string * option Z)).

Definition spec_live (now : Z) (M : spec_state) (k : string) : option (string * option Z) :=
  match M !! k with
  | Some (s, t) => if alive now (RString s, t) then Some (s, t) else None
  | None => None
  end.

Inductive answer : Type :=
  | AnsBool (r : result redis_cache_error bool)
  | AnsValue (r : result redis_cache_error (option string))
  | AnsUnit (r : result redis_cache_error unit)
  | AnsValues (r : result redis_cache_error (gmap string string))
  | AnsBatch (m : gmap string bool) (e : option redis_cache_error).

Inductive cache_op : Type :=
  | OpExists (h : cacheRequest) (k : string)
  | OpGet (h : cacheRequest) (k : string)
  | OpSet (h : cacheRequest) (k : string) (v : cache_value) (ttl : Z)
  | OpDelete (h : cacheRequest) (k : string)
  | OpMultiGet (h : cacheRequest) (ks : list string)
  | OpMultiSet (h : cacheRequest) (vm : list (string * cache_value)) (ttl : Z)
  | OpMultiDelete (h : cacheRequest) (ks : list string)
  | OpIncrement (h : cacheRequest) (k : string) (v : Z)
  | OpDecrement (h : cacheRequest) (k : string) (v : Z)
  | OpAppend (h : cacheRequest) (k s : string)
  | OpSetTTL (h : cacheRequest) (k : string) (ttl : Z).

Definition spec_deadline (now ttl : Z) : option Z :=
  if ttl =? 0 then None else Some (now + ttl * 1000).

Definition spec_incr (now : Z) (k : string) (v : Z) (M : spec_state) : spec_state * answer :=
  match spec_live now M k with
  | None => (<[k := (pretty v, None)]> M, AnsUnit (Ok ()))
  | Some (s, t) =>
      match read_int s with
      | Some n =>
          if bool_decide (is_i64 n) then
            if bool_decide (is_i64 (n + v)) then (<[k := (pretty (n + v), t)]> M, AnsUnit (Ok ()))
            else (M, AnsUnit (Err (ServerErr EOverflow)))
          else (M, AnsUnit (Err (ServerErr ENotInteger)))
      | None => (M, AnsUnit (Err (ServerErr ENotInteger)))
      end
  end.

Section spec.
Context (json_Marshal : any → option string).

Definition spec_put (h : cacheRequest) (now ttl : Z) (M : spec_state) (kv : string * cache_value) : spec_state :=
  match getSerialisedValue json_Marshal kv.2 with
  | Ok b => <[formatted h kv.1 := (b, spec_deadline now ttl)]> M
  | Err _ => M
  end.

Definition serialises (v : cache_value) : bool :=
  match getSerialisedValue json_Marshal v with Ok _ => true | Err _ => false end.

Definition spec_op (now : Z) (op : cache_op) (M : spec_state) : spec_state * answer :=
  match op with
  | OpExists h k => (M, AnsBool (Ok (bool_decide (is_Some (spec_live now M (formatted h k))))))
  | OpGet h k => (M, AnsValue (Ok (fst <$> spec_live now M (formatted h k))))
  | OpSet h k v ttl =>
      (spec_put h now ttl M (k, v), AnsBool (_ ← getSerialisedValue json_Marshal v; Ok true))
  | OpDelete h k =>
      (delete (formatted h k) M, AnsBool (Ok (bool_decide (is_Some (spec_live now M (formatted h k))))))
  | OpMultiGet h ks =>
      (M, AnsValues (Ok (list_to_map (omap (λ k, pair k ∘ fst <$> spec_live now M (formatted h k)) ks))))
  | OpMultiSet h vm ttl =>
      (foldl (spec_put h now ttl) M vm,
       AnsBatch (list_to_map (map (λ kv, (kv.1, serialises kv.2)) vm))
         (if forallb (λ kv, serialises kv.2) vm then None else Some NotSerialisable))
  | OpMultiDelete h ks =>
      (foldl (λ M k, delete (formatted h k) M) M ks,
       AnsBatch (list_to_map (map (λ k, (k, bool_decide (is_Some (spec_live now M (formatted h k))))) ks)) None)
  | OpIncrement h k v => spec_incr now (formatted h k) v M
  | OpDecrement h k v =>
      if decide (v = - 2 ^ 63) then (M, AnsUnit (Err (ServerErr EOverflow)))
      else spec_incr now (formatted h k) (- v) M
  | OpAppend h k s =>
      (<[formatted h k := match spec_live now M (formatted h k) with
                          | None => (s, None)
                          | Some (s0, t) => (s0 +:+ s, t)
                          end]> M, AnsUnit (Ok ()))
  | OpSetTTL h k ttl =>
      (match spec_live now M (formatted h k) with
       | None => M
       | Some (s, _) =>
           if ttl <=? 0 then delete (formatted h k) M
           else <[formatted h k := (s, Some (now + ttl * 1000))]> M
       end, AnsUnit (Ok ()))
  end.

End spec.

(** A TTL the server accepts, in a duration that does not overflow. *)
Definition ttl_ok (now ttl : Z) : Prop := is_i64 (ttl * second) ∧ int_expiry now (ttl * 1000) = true.

Definition op_ok (now : Z) (op : cache_op) : Prop :=
  match op with
  | OpSet _ _ _ ttl => ttl = 0 ∨ ttl_ok now ttl
  | OpMultiGet _ ks => ks ≠ []
  | OpMultiSet _ vm ttl => NoDup vm.*1 ∧ (ttl = 0 ∨ ttl_ok now ttl)
  | OpMultiDelete _ ks => NoDup ks
  | OpIncrement _ _ v | OpDecrement _ _ v => is_i64 v
  | OpSetTTL _ _ ttl => ttl <= 0 ∧ is_i64 (ttl * second) ∨ ttl_ok now ttl
  | _ => True
  end.

Section run.
Context {db : Type} `{RedisServer db, !RedisClient db}.
Context (json_Marshal : any → option string).

(** The adapter's operation with every message delivered. *)
Definition run_op (now : Z) (op : cache_op) (d : db) : outcome (db * answer) :=
  let ctx := Context_ None in
  match op with
  | OpExists h k => r ← rc_ExistsContext Delivered now ctx (Some (mkKeyRequest h k)) d; Ret (r.1, AnsBool r.2)
  | OpGet h k => r ← rc_GetContext Delivered now ctx (Some (mkGetRequest h k [])) d; Ret (r.1, AnsValue r.2)
  | OpSet h k v ttl =>
      r ← rc_SetContext json_Marshal Delivered now ctx (Some (mkValueRequest h k v ttl)) d; Ret (r.1, AnsBool r.2)
  | OpDelete h k => r ← rc_DeleteContext Delivered now ctx (Some (mkKeyRequest h k)) d; Ret (r.1, AnsBool r.2)
  | OpMultiGet h ks => r ← rc_MultiGetContext Delivered now ctx (Some (mkKeysRequest h ks)) d; Ret (r.1, AnsValues r.2)
  | OpMultiSet h vm ttl =>
      r ← rc_MultiSetContext json_Marshal (Pipeline (length vm) (length vm) "") now ctx
            (Some (mkValuesRequest h vm ttl)) d;
      Ret (r.1.1, AnsBatch r.1.2 r.2)
  | OpMultiDelete h ks =>
      r ← rc_MultiDeleteContext now ctx (Some (mkKeysRequest h ks)) [] d; Ret (r.1.1, AnsBatch r.1.2 r.2)
  | OpIncrement h k v =>
      r ← rc_IncrementContext Delivered now ctx (Some (mkOffsetRequest h k None v)) d; Ret (r.1, AnsUnit r.2)
  | OpDecrement h k v =>
      r ← rc_DecrementContext Delivered now ctx (Some (mkOffsetRequest h k None v)) d; Ret (r.1, AnsUnit r.2)
  | OpAppend h k s =>
      r ← rc_AppendContext json_Marshal Delivered now ctx (Some (mkAppendRequest h k None s)) d; Ret (r.1, AnsUnit r.2)
  | OpSetTTL h k ttl =>
      r ← rc_SetTTLContext Delivered now ctx (Some (mkSetTTLRequest h k ttl)) d; Ret (r.1, AnsUnit r.2)
  end.

Fixpoint run_ops (ops : list (Z * cache_op)) (d : db) : outcome (db * list answer) :=
  match ops with
  | [] => Ret (d, [])
  | (now, op) :: ops =>
      r ← run_op now op d;
      rs ← run_ops ops r.1;
      Ret (rs.1, r.2 :: rs.2)
  end.

End run.

Fixpoint spec_run (json_Marshal : any → option string) (ops : list (Z * cache_op)) (M : spec_state)
  : spec_state * list answer :=
  match ops with
  | [] => (M, [])
  | (now, op) :: ops =>
      let '(M, a) := spec_op json_Marshal now op M in
      let '(M, rs) := spec_run json_Marshal ops M in (M, a :: rs)
  end.
