(* ===== verification/RedisCacheProps.v ===== *)
(** * The Redis cache adapter implements the abstract cache

    Every sequence of operations gives the answers of a finite map with deadlines; what
    happens to the TTL of absent keys and for non-positive TTLs; partial failures of
    [MultiSet]; when formatted keys can collide. *)

From Stdlib Require Import ZArith Lia.
From stdpp Require Import base numbers strings gmap list pretty.
From S2P Require Import Prelude GoValue CacheApi Redis RedisClient RedisCache.
Local Open Scope Z_scope.

Lemma formatted_inj h k k' : formatted h k = formatted h k' → k = k'.
Proof. unfold formatted, formatKey. intros E. by do 4 apply string_app_cancel in E. Qed.

Section refinement.
Context {db : Type} `{ClientLaws db}.
Context (json_Marshal : any → option string).
Implicit Types (d : db) (M : spec_state) (k : string).

Definition to_entry (e : string * option Z) : rvalue * option Z := (RString e.1, e.2).

(** The database agrees with the abstract cache on every formatted key; its other keys
    are arbitrary. *)
Definition refines (now : Z) d M : Prop :=
  ∀ h k, live_entry d now (formatted h k) = to_entry <$> spec_live now M (formatted h k).

Lemma refines_later now now' d M : now <= now' → refines now d M → refines now' d M.
Proof.
  intros Hle Hr h k. specialize (Hr h k). revert Hr. unfold live_entry, spec_live, alive, to_entry.
  destruct (r_entry d (formatted h k)) as [[v [t|]]|], (M !! formatted h k) as [[s [t'|]]|]; simpl;
    repeat case_match; intros; simplify_eq/=; try done; lia.
Qed.

Lemma refines_put now d d' M h k s t :
  refines now d M → only_key (formatted h k) d d' → r_entry d' (formatted h k) = Some (RString s, t) →
  refines now d' (<[formatted h k := (s, t)]> M).
Proof.
  intros Hr Ho He h' k'. destruct (decide (formatted h' k' = formatted h k)) as [E|E].
  - rewrite E. unfold live_entry, spec_live. rewrite He, lookup_insert_eq. by case_match.
  - specialize (Hr h' k'). unfold live_entry, spec_live in *. by rewrite (Ho _ E), lookup_insert_ne.
Qed.

Lemma refines_remove now d d' M h k :
  refines now d M → only_key (formatted h k) d d' → r_entry d' (formatted h k) = None →
  refines now d' (delete (formatted h k) M).
Proof.
  intros Hr Ho He h' k'. destruct (decide (formatted h' k' = formatted h k)) as [E|E].
  - rewrite E. unfold live_entry, spec_live. by rewrite He, lookup_delete_eq.
  - specialize (Hr h' k'). unfold live_entry, spec_live in *. by rewrite (Ho _ E), lookup_delete_ne.
Qed.

Lemma refines_live now d M h k :
  refines now d M → live d now (formatted h k) = RString ∘ fst <$> spec_live now M (formatted h k).
Proof. intros Hr. rewrite live_entry_live, (Hr h k). by destruct (spec_live _ _ _) as [[]|]. Qed.

Lemma ttl_duration_id n : is_i64 (n * second) → ttl_duration n = n * second.
Proof. apply i64_id. Qed.

Lemma refines_Set now d M h k b ttl :
  refines now d M → ttl = 0 ∨ ttl_ok now ttl →
  ∃ d', Client_Set now (formatted h k) b (ttl_duration ttl) d = (d', Ok ()) ∧
        refines now d' (<[formatted h k := (b, spec_deadline now ttl)]> M).
Proof.
  intros Hr Httl. exists (Client_Set now (formatted h k) b (ttl_duration ttl) d).1.
  pose proof (Set_only now (formatted h k) b (ttl_duration ttl) d) as Ho.
  assert ((Client_Set now (formatted h k) b (ttl_duration ttl) d).2 = Ok () ∧
    r_entry (Client_Set now (formatted h k) b (ttl_duration ttl) d).1 (formatted h k)
      = Some (RString b, spec_deadline now ttl)) as [E1 E2].
  { unfold spec_deadline. destruct Httl as [->|[Hi He]].
    - change (ttl_duration 0) with 0. apply Set_plain.
    - rewrite ttl_duration_id by done. destruct (Z.eqb_spec ttl 0) as [->|]; [done|]. by apply Set_seconds. }
  split; [by rewrite <-E1; destruct (Client_Set _ _ _ _ _)|]. by eapply refines_put.
Qed.

Lemma refines_DEL now d M h k :
  refines now d M →
  ∃ d' n, DEL now (formatted h k) d = (d', n) ∧
    (0 <? n) = bool_decide (is_Some (spec_live now M (formatted h k))) ∧
    refines now d' (delete (formatted h k) M).
Proof.
  intros Hr. exists (DEL now (formatted h k) d).1, (DEL now (formatted h k) d).2.
  split; [by destruct (DEL _ _ _)|]. split.
  - rewrite DEL_result, (refines_live _ _ _ _ _ Hr). destruct (spec_live _ _ _) as [[]|]; done.
  - eapply refines_remove; [done|apply DEL_only|apply DEL_entry].
Qed.

Lemma refines_IncrBy now d M h k v :
  refines now d M → is_i64 v →
  ∃ d' r, Client_IncrBy now (formatted h k) v d = (d', r) ∧
    refines now d' (spec_incr now (formatted h k) v M).1 ∧
    (spec_incr now (formatted h k) v M).2 =
      AnsUnit (match r with Ok _ => Ok () | Err e => Err (ServerErr e) end).
Proof.
  intros Hr Hv. set (fk := formatted h k). pose proof (IncrBy_only now fk v d) as Ho.
  exists (Client_IncrBy now fk v d).1, (Client_IncrBy now fk v d).2.
  split; [by destruct (Client_IncrBy _ _ _ _)|]. unfold spec_incr.
  pose proof (Hr h k) as He. pose proof (refines_live _ _ _ h k Hr) as Hl. fold fk in He, Hl.
  destruct (spec_live now M fk) as [[s t]|] eqn:Es; cbn [fmap option_fmap option_map compose fst] in *.
  2: { destruct (IncrBy_absent now fk v d Hl Hv) as [-> E]. split; [|done]. by eapply refines_put. }
  destruct (read_int s) as [n|] eqn:En.
  - apply read_int_Some in En as ->. case_bool_decide as Hn.
    + pose proof (IncrBy_number now fk v d n t He Hn Hv) as Hlaw. case_bool_decide.
      * destruct Hlaw as [-> E]. split; [|done]. by eapply refines_put.
      * by rewrite Hlaw.
    + rewrite (IncrBy_not_number now fk v d _ Hl); [done|]. intros m Hm E.
      pose proof (f_equal read_int E) as E'. rewrite !read_int_pretty in E'. congruence.
  - rewrite (IncrBy_not_number now fk v d _ Hl); [done|]. intros m Hm E.
    rewrite E, read_int_pretty in En. done.
Qed.

(** *** The batches *)

Lemma collect_values_spec (g : string → option string) ks (acc : gmap string string) k :
  collect_values ks (map g ks) acc !! k = if decide (k ∈ ks) then g k ∪ acc !! k else acc !! k.
Proof.
  revert acc. induction ks as [|k0 ks IH]; intros acc; cbn [collect_values map]; [by rewrite decide_False by set_solver|].
  rewrite IH. destruct (decide (k = k0)) as [->|Hne].
  - rewrite (decide_True (P := k0 ∈ k0 :: ks)) by set_solver.
    destruct (g k0) as [s|]; rewrite ?lookup_insert_eq; destruct (acc !! k0), (decide (k0 ∈ ks)); done.
  - assert ((match g k0 with Some s => <[k0:=s]> acc | None => acc end) !! k = acc !! k) as ->.
    { destruct (g k0); [by rewrite lookup_insert_ne|done]. }
    destruct (decide (k ∈ ks)); [rewrite decide_True by set_solver|rewrite decide_False by set_solver]; done.
Qed.

Lemma omap_pairs_lookup (g : string → option string) ks k :
  (list_to_map (omap (λ k, pair k <$> g k) ks) : gmap string string) !! k
  = if decide (k ∈ ks) then g k else None.
Proof.
  induction ks as [|k0 ks IH]; [by rewrite decide_False by set_solver|].
  change (omap _ (k0 :: ks)) with
    (match pair k0 <$> g k0 with Some y => y :: omap (λ k, pair k <$> g k) ks | None => omap (λ k, pair k <$> g k) ks end).
  destruct (decide (k = k0)) as [->|Hne].
  - rewrite (decide_True (P := k0 ∈ k0 :: ks)) by set_solver.
    destruct (g k0) eqn:Eg; cbn [fmap option_fmap option_map list_to_map foldr uncurry].
    + by rewrite lookup_insert_eq.
    + rewrite IH. by case_decide.
  - destruct (g k0); cbn [fmap option_fmap option_map list_to_map foldr uncurry];
      rewrite ?lookup_insert_ne, IH by done; repeat case_decide; set_solver.
Qed.

Lemma refines_MGet now d M h ks :
  refines now d M → ks ≠ [] →
  Client_MGet now (map (formatted h) ks) d = Ok (map (λ k, fst <$> spec_live now M (formatted h k)) ks).
Proof.
  intros Hr Hks. rewrite MGet_law by by destruct ks. f_equal. rewrite map_map. apply map_ext. intros k.
  rewrite (refines_live _ _ _ _ _ Hr). by destruct (spec_live _ _ _) as [[]|].
Qed.

(** Against a pipeline that runs to its end, [MultiSet] is [Set] for each value. *)
Lemma prepare_Err h ttl vm :
  (prepare json_Marshal h ttl vm).2 =
    if forallb (λ kv, serialises json_Marshal kv.2) vm then None else Some NotSerialisable.
Proof.
  induction vm as [|[k v] vm IH]; [done|]. cbn [prepare forallb snd].
  destruct (prepare json_Marshal h ttl vm) as [[[res ks] cmds] e]. cbn [snd] in *. unfold serialises at 1.
  destruct (getSerialisedValue json_Marshal v) as [b|e'] eqn:E; cbn; [done|]. f_equal.
  unfold getSerialisedValue in E. repeat case_match; by simplify_eq.
Qed.

Lemma prepare_length h ttl vm :
  (length (prepare json_Marshal h ttl vm).1.2 ≤ length vm)%nat.
Proof.
  induction vm as [|[k v] vm IH]; [done|]. cbn [prepare].
  destruct (prepare json_Marshal h ttl vm) as [[[res ks] cmds] e].
  destruct (getSerialisedValue _ v); cbn in *; lia.
Qed.

Lemma refines_commands now h ttl vm d M :
  refines now d M → ttl = 0 ∨ ttl_ok now ttl →
  ∃ d', run_commands now (prepare json_Marshal h ttl vm).1.2 d
          = (d', replicate (length (prepare json_Marshal h ttl vm).1.2) (Ok ())) ∧
        refines now d' (foldl (spec_put json_Marshal h now ttl) M vm).
Proof.
  intros Hr Httl. revert d M Hr. induction vm as [|[k v] vm IH]; intros d M Hr; [by exists d|].
  cbn [prepare foldl]. unfold spec_put at 2. cbn [snd fst].
  destruct (prepare json_Marshal h ttl vm) as [[[res ks] cmds] e]. cbn [fst snd] in IH.
  destruct (getSerialisedValue json_Marshal v) as [b|e']; cbn [fst snd run_commands cmd_key cmd_value cmd_expiration].
  - destruct (refines_Set now d M h k b ttl Hr Httl) as (d1 & -> & Hr1).
    destruct (IH d1 _ Hr1) as (d2 & -> & Hr2). by exists d2.
  - apply (IH d M Hr).
Qed.

Lemma settle_Ok ks (res : gmap string bool) e :
  settle ks (replicate (length ks) (Ok ())) res e = (foldl (λ m k, <[k := true]> m) res ks, e).
Proof. revert res. induction ks as [|k ks IH]; intros res; [done|]. cbn. apply IH. Qed.

Lemma prepare_keys h ttl vm :
  length (prepare json_Marshal h ttl vm).1.1.2 = length (prepare json_Marshal h ttl vm).1.2.
Proof.
  induction vm as [|[k v] vm IH]; [done|]. cbn [prepare].
  destruct (prepare json_Marshal h ttl vm) as [[[res ks] cmds] e].
  destruct (getSerialisedValue _ v); cbn in *; lia.
Qed.

Lemma fold_insert_lookup (g : string → bool) ks (res : gmap string bool) k :
  foldl (λ m k, <[k := g k]> m) res ks !! k = if decide (k ∈ ks) then Some (g k) else res !! k.
Proof.
  revert res. induction ks as [|k0 ks IH]; intros res; [by rewrite decide_False by set_solver|].
  cbn [foldl]. rewrite IH. destruct (decide (k = k0)) as [->|Hne].
  - rewrite lookup_insert_eq. by rewrite (decide_True (P := k0 ∈ k0 :: ks)) by set_solver; case_decide.
  - rewrite lookup_insert_ne by done. repeat case_decide; set_solver.
Qed.

Lemma prepare_lookup h ttl vm k :
  NoDup vm.*1 →
  (if decide (k ∈ (prepare json_Marshal h ttl vm).1.1.2) then Some true
   else (prepare json_Marshal h ttl vm).1.1.1 !! k)
  = (list_to_map (map (λ kv, (kv.1, serialises json_Marshal kv.2)) vm) : gmap string bool) !! k
  ∧ (k ∉ vm.*1 → k ∉ (prepare json_Marshal h ttl vm).1.1.2).
Proof.
  induction vm as [|[k0 v] vm IH]; intros Hnd; [split; [done|set_solver]|].
  apply NoDup_cons in Hnd as [Hk0 Hnd]. cbn [fst] in Hk0. destruct (IH Hnd) as [IH1 IH2].
  cbn [prepare map list_to_map foldr fst snd]. unfold serialises at 1.
  destruct (prepare json_Marshal h ttl vm) as [[[res ks] cmds] e]. cbn [fst snd] in *.
  destruct (getSerialisedValue json_Marshal v); cbn [fst snd]; (split; [|set_solver]).
  - destruct (decide (k = k0)) as [->|Hne].
    + rewrite lookup_insert_eq. by rewrite decide_True by set_solver.
    + rewrite lookup_insert_ne by done. rewrite <-IH1. repeat case_decide; set_solver.
  - destruct (decide (k = k0)) as [->|Hne].
    + rewrite lookup_insert_eq. rewrite decide_False; [by rewrite lookup_insert_eq|]. by apply IH2.
    + rewrite !lookup_insert_ne by done. by rewrite <-IH1.
Qed.

Lemma refines_MultiDelete now h ks d M (res : gmap string bool) :
  refines now d M → NoDup ks →
  ∃ d', MultiDelete_keys h now ks [] d res None =
          (d', foldl (λ m k, <[k := bool_decide (is_Some (spec_live now M (formatted h k)))]> m) res ks, None) ∧
        refines now d' (foldl (λ M k, delete (formatted h k) M) M ks).
Proof.
  intros Hr Hnd. revert d M res Hr. induction Hnd as [|k ks Hk Hnd IH]; intros d M res Hr; [by exists d|].
  cbn [MultiDelete_keys hd tl foldl call].
  destruct (refines_DEL now d M h k Hr) as (d1 & n & -> & -> & Hr1).
  destruct (IH d1 _ (<[k := bool_decide (is_Some (spec_live now M (formatted h k)))]> res) Hr1) as (d2 & -> & Hr2).
  exists d2. split; [|done]. f_equal. f_equal.
  generalize (<[k := bool_decide (is_Some (spec_live now M (formatted h k)))]> res). clear - Hk.
  induction ks as [|k' ks IH]; intros m; [done|]. cbn [foldl].
  assert (spec_live now (delete (formatted h k) M) (formatted h k') = spec_live now M (formatted h k')) as ->.
  { unfold spec_live. rewrite lookup_delete_ne; [done|]. intros E%formatted_inj. set_solver. }
  apply IH. set_solver.
Qed.

Lemma fold_insert_list_to_map (g : string → bool) ks :
  foldl (λ m k, <[k := g k]> m) ∅ ks = (list_to_map (map (λ k, (k, g k)) ks) : gmap string bool).
Proof.
  apply map_eq. intros k. rewrite fold_insert_lookup, lookup_empty.
  induction ks as [|k0 ks IH]; [by rewrite decide_False by set_solver|].
  cbn [map list_to_map foldr fst snd]. destruct (decide (k = k0)) as [->|Hne].
  - rewrite lookup_insert_eq. by rewrite decide_True by set_solver.
  - rewrite lookup_insert_ne, <-IH by done. repeat case_decide; set_solver.
Qed.

Lemma refines_MultiSet now h vm ttl d M :
  refines now d M → NoDup vm.*1 → ttl = 0 ∨ ttl_ok now ttl →
  ∃ d', run_op json_Marshal now (OpMultiSet h vm ttl) d
          = Ret (d', (spec_op json_Marshal now (OpMultiSet h vm ttl) M).2) ∧
        refines now d' (foldl (spec_put json_Marshal h now ttl) M vm).
Proof.
  intros Hr Hnd Httl. destruct (refines_commands now h ttl vm d M Hr Httl) as (d' & Erun & Hr').
  exists d'. split; [|done]. cbn [run_op spec_op snd]. unfold rc_MultiSetContext. cbn [checkedCacheContext vals_hdr vals_ttl vals_map].
  pose proof (prepare_Err h ttl vm) as Herr. pose proof (prepare_length h ttl vm) as Hlen.
  pose proof (prepare_keys h ttl vm) as Hkeys.
  assert (∀ k, (if decide (k ∈ (prepare json_Marshal h ttl vm).1.1.2) then Some true
                else (prepare json_Marshal h ttl vm).1.1.1 !! k)
    = (list_to_map (map (λ kv, (kv.1, serialises json_Marshal kv.2)) vm) : gmap string bool) !! k) as Hres
    by (intros k; by apply prepare_lookup).
  destruct (prepare json_Marshal h ttl vm) as [[[res ks] cmds] e]. cbn [fst snd] in *. subst e.
  destruct cmds as [|c cmds].
  - cbn [mbind outcome_bind]. cbn in Erun. injection Erun as <-.
    cbn [fst snd]. do 3 f_equal. apply map_eq. intros k. rewrite <-Hres.
    destruct ks; [|done]. by rewrite decide_False by set_solver.
  - unfold redisPipelineSet. rewrite take_ge by done. rewrite Erun.
    rewrite take_ge by by rewrite length_replicate. rewrite length_replicate, Nat.sub_diag.
    cbn [replicate]. rewrite app_nil_r.
    assert (first_error (replicate (length (c :: cmds)) (Ok ())) = None) as ->
      by (generalize (length (c :: cmds)); clear; induction n; done).
    rewrite <-Hkeys, settle_Ok. cbn [mbind outcome_bind fst snd fmap option_fmap option_map].
    do 3 f_equal; [|by destruct (forallb _ vm)].
    apply map_eq. intros k. by rewrite (fold_insert_lookup (λ _, true)), Hres.
Qed.

(** One operation. *)
Lemma refines_op now op d M :
  refines now d M → op_ok now op →
  ∃ d', run_op json_Marshal now op d = Ret (d', (spec_op json_Marshal now op M).2) ∧
        refines now d' (spec_op json_Marshal now op M).1.
Proof.
  intros Hr Hok. destruct op as [h k|h k|h k v ttl|h k|h ks|h vm ttl|h ks|h k v|h k v|h k s|h k ttl];
    cbn [op_ok] in Hok.
  - exists d. split; [|done]. cbn. rewrite EXISTS_law, (refines_live _ _ _ _ _ Hr).
    by destruct (spec_live _ _ _) as [[]|].
  - exists d. split; [|done]. cbn. rewrite GET_law, (refines_live _ _ _ _ _ Hr).
    by destruct (spec_live _ _ _) as [[]|].
  - cbn. unfold spec_put. cbn [fst snd].
    destruct (getSerialisedValue json_Marshal v) as [b|e]; cbn; [|by exists d].
    destruct (refines_Set now d M h k b ttl Hr Hok) as (d' & -> & Hr'). by exists d'.
  - cbn. destruct (refines_DEL now d M h k Hr) as (d' & n & -> & En & Hr'). exists d'. cbn. by rewrite En.
  - exists d. split; [|done]. cbn. rewrite (refines_MGet now d M h ks Hr Hok). cbn. do 4 f_equal.
    apply map_eq. intros k. rewrite collect_values_spec, lookup_empty.
    transitivity ((list_to_map (omap (λ k, pair k <$> (fst <$> spec_live now M (formatted h k))) ks)
      : gmap string string) !! k).
    + rewrite (omap_pairs_lookup (λ k, fst <$> spec_live now M (formatted h k))).
      case_decide; [|done]. by destruct (fst <$> _).
    + f_equal. f_equal. apply list_omap_ext, Forall_Forall2_diag, Forall_true.
      intros k'. by destruct (spec_live _ _ _) as [[]|].
  - destruct Hok as [Hnd Httl]. by apply refines_MultiSet.
  - cbn. destruct (refines_MultiDelete now h ks d M ∅ Hr Hok) as (d' & -> & Hr'). exists d'. cbn.
    by rewrite (fold_insert_list_to_map (λ k, bool_decide (is_Some (spec_live now M (formatted h k))))).
  - cbn. destruct (refines_IncrBy now d M h k v Hr Hok) as (d' & r & -> & Hr' & ->). exists d'. split; [|done].
    by destruct r.
  - cbn. rewrite DecrBy_law. case_decide as Hv; [by exists d|].
    assert (is_i64 (- v)) as Hv' by (unfold is_i64 in *; lia).
    destruct (refines_IncrBy now d M h k (- v) Hr Hv') as (d' & r & -> & Hr' & ->). exists d'. split; [|done].
    by destruct r.
  - cbn. set (fk := formatted h k). exists (Client_Append now fk s d).1.
    pose proof (Append_only now fk s d) as Ho. pose proof (Hr h k) as He.
    pose proof (refines_live _ _ _ h k Hr) as Hl. fold fk in He, Hl.
    destruct (spec_live now M fk) as [[s0 t]|]; cbn [fmap option_fmap option_map compose fst] in *.
    + destruct (Append_string now fk s d s0 t He) as [E1 E2].
      destruct (Client_Append now fk s d) as [d' r]. cbn [fst snd] in *. subst r.
      split; [done|]. by eapply refines_put.
    + destruct (Append_absent now fk s d Hl) as [E1 E2].
      destruct (Client_Append now fk s d) as [d' r]. cbn [fst snd] in *. subst r.
      split; [done|]. by eapply refines_put.
  - cbn. set (fk := formatted h k). pose proof (refines_live _ _ _ h k Hr) as Hl. fold fk in Hl.
    assert (ttl_duration ttl = ttl * second) as -> by (apply ttl_duration_id; destruct Hok as [[]|[]]; done).
    pose proof (Expire_only now fk (ttl * second) d) as Ho.
    destruct (spec_live now M fk) as [[s t]|]; cbn [fmap option_fmap option_map compose fst] in *.
    2: { rewrite Expire_absent by done. by exists d. }
    exists (Client_Expire now fk (ttl * second) d).1.
    split; [by destruct (Client_Expire _ _ _ _)|]. destruct Hok as [[Hle _]|[Hi Hexp]].
    + destruct (Z.leb_spec ttl 0); [|lia].
      destruct (Expire_past now fk ttl d _ Hl Hle) as [_ E]. by eapply refines_remove.
    + destruct (Z.leb_spec ttl 0); [unfold int_expiry in Hexp; lia|].
      destruct (Expire_live now fk ttl d _ Hl Hexp) as [_ E]. by eapply refines_put.
Qed.

(** Clocks do not run backwards, and each operation is acceptable at its time. *)
Fixpoint ops_ok (start : Z) (ops : list (Z * cache_op)) : Prop :=
  match ops with
  | [] => True
  | (now, op) :: ops => start <= now ∧ op_ok now op ∧ ops_ok now ops
  end.

Lemma refines_ops ops : ∀ start d M,
  refines start d M → ops_ok start ops →
  ∃ d', run_ops json_Marshal ops d = Ret (d', (spec_run json_Marshal ops M).2) ∧
        ∀ now, Forall (λ o, o.1 <= now) ops → start <= now → refines now d' (spec_run json_Marshal ops M).1.
Proof.
  induction ops as [|[now op] ops IH]; intros start d M Hr Hok.
  - exists d. split; [done|]. intros now _ Hle. by eapply refines_later.
  - destruct Hok as (Hle & Hop & Hok).
    destruct (refines_op now op d M) as (d1 & E1 & Hr1); [by eapply refines_later|done|].
    cbn [run_ops spec_run]. rewrite E1. cbn [mbind outcome_bind fst snd].
    destruct (spec_op json_Marshal now op M) as [M1 a1]. cbn [fst snd] in *.
    destruct (IH now d1 M1 Hr1 Hok) as (d2 & E2 & Hr2). rewrite E2.
    destruct (spec_run json_Marshal ops M1) as [M2 as2]. cbn [fst snd mbind outcome_bind] in *.
    exists d2. split; [done|]. intros now' HF Hst. apply Forall_cons in HF as [Hn HF]. by apply Hr2.
Qed.

(** When every value serialises, the commands are one per entry, in order. *)
Lemma prepare_all h ttl vm :
  Forall (λ kv, serialises json_Marshal kv.2 = true) vm →
  (prepare json_Marshal h ttl vm).1.1 = (∅, vm.*1) ∧
  length (prepare json_Marshal h ttl vm).1.2 = length vm ∧
  ∀ n, (prepare json_Marshal h ttl (take n vm)).1.2 = take n (prepare json_Marshal h ttl vm).1.2.
Proof.
  induction 1 as [|[k v] vm Hv _ (IH1 & IH2 & IH3)]; [by split_and!; [done..|]; intros []|].
  unfold serialises in Hv. cbn [snd] in Hv. split_and!; [| |intros [|n]; [done|]; specialize (IH3 n)];
    cbn [prepare take fmap list_fmap fst snd]; destruct (prepare json_Marshal h ttl vm) as [[[res ks] cmds] e];
    try destruct (prepare json_Marshal h ttl (take n vm)) as [[[res' ks'] cmds'] e'];
    destruct (getSerialisedValue json_Marshal v); cbn in *; simplify_eq; done || lia.
Qed.

Lemma settle_Err ks e (res : gmap string bool) e0 :
  settle ks (replicate (length ks) (Err e)) res (Some e0) = (foldl (λ m k, <[k := false]> m) res ks, Some e0).
Proof. revert res. induction ks as [|k ks IH]; intros res; [done|]. cbn. apply IH. Qed.

End refinement.

(** (C21) The adapter implements the abstract cache. On any sequence of operations with messages
    delivered and clocks that do not run backwards, the answers (errors included) are
    those of a finite map from keys to strings with deadlines, no operation panics, and
    the database ends in the map's state on all formatted keys, up to expiry; the other
    keys of the server do not matter. *)
Theorem RedisCache_refines_map {db} `{ClientLaws db} json_Marshal start ops (d : db) M :
  refines start d M → ops_ok start ops →
  ∃ d', run_ops json_Marshal ops d = Ret (d', (spec_run json_Marshal ops M).2) ∧
        ∀ now, Forall (λ o, o.1 <= now) ops → start <= now → refines now d' (spec_run json_Marshal ops M).1.
Proof. apply refines_ops. Qed.

(** TTLs. [SetTTL] with a TTL that is not positive removes the key and reports success, as
    it does for an absent key, and [GetTTL] answers 0 both for an absent key and for one
    without deadline; otherwise its answer is within a second of the time that is left. *)
Theorem RedisCache_TTL_behaviour {db} `{ClientLaws db} (d : db) now h k :
  (∀ ttl, ttl <= 0 → is_i64 (ttl * second) →
     ∃ d', rc_SetTTLContext Delivered now (Context_ None) (Some (mkSetTTLRequest h k ttl)) d = Ret (d', Ok ()) ∧
           live d' now (formatted h k) = None) ∧
  (let get_ttl := rc_GetTTLContext Delivered now (Context_ None) (Some (mkKeyRequest h k)) d in
   match live_entry d now (formatted h k) with
   | None => get_ttl = Ret (d, Ok 0)
   | Some (_, None) => get_ttl = Ret (d, Ok 0)
   | Some (_, Some t) =>
       ∃ s, get_ttl = Ret (d, Ok s) ∧ 0 <= s ∧ t - now - 1000 < s * 1000 < t - now + 1000
   end).
Proof.
  split.
  - intros ttl Hle Hi. cbn. rewrite ttl_duration_id by done.
    destruct (live d now (formatted h k)) as [v|] eqn:El.
    + destruct (Expire_past now (formatted h k) ttl d v El Hle) as [_ E].
      destruct (Client_Expire now (formatted h k) (ttl * second) d) as [d' b]. cbn [fst snd] in *.
      exists d'. split; [done|]. unfold live. by rewrite E.
    + rewrite Expire_absent by done. by exists d.
  - cbn. destruct (live_entry d now (formatted h k)) as [[v [t|]]|] eqn:El.
    + destruct (TTL_remaining _ _ _ _ _ El) as (s & -> & Hs). exists s. by rewrite seconds_quot.
    + by rewrite (TTL_persistent _ _ _ _ El).
    + rewrite TTL_absent; [done|]. by rewrite live_entry_live, El.
Qed.

(** A pipeline that breaks off before any answer is read: every key is reported as failed,
    although the server has executed, and keeps, the commands that reached it. *)
Theorem MultiSet_broken_pipeline {db} `{ClientLaws db} json_Marshal (d : db) M now h vm ttl executed why :
  refines now d M → ttl = 0 ∨ ttl_ok now ttl →
  Forall (λ kv, serialises json_Marshal kv.2 = true) vm → vm ≠ [] →
  ∃ d', rc_MultiSetContext json_Marshal (Pipeline executed 0 why) now (Context_ None)
          (Some (mkValuesRequest h vm ttl)) d
        = Ret (d', list_to_map (map (λ kv, (kv.1, false)) vm), Some (ServerErr (ENetwork why))) ∧
        refines now d' (foldl (spec_put json_Marshal h now ttl) M (take executed vm)).
Proof.
  intros Hr Httl Hser Hne. destruct (prepare_all json_Marshal h ttl vm Hser) as (Ek & Hlen & Htake).
  destruct (refines_commands json_Marshal now h ttl (take executed vm) d M Hr Httl) as (d' & Erun & Hr').
  exists d'. split; [|done]. rewrite Htake in Erun. unfold rc_MultiSetContext.
  pose proof (prepare_Err json_Marshal h ttl vm) as Herr. cbn [checkedCacheContext vals_hdr vals_ttl vals_map].
  destruct (prepare json_Marshal h ttl vm) as [[[res ks] cmds] e]. cbn [fst snd] in *. simplify_eq.
  destruct cmds as [|c cmds]; [by destruct vm|]. unfold redisPipelineSet. rewrite Erun.
  rewrite take_0. cbn [app]. change (length []) with 0%nat. rewrite Nat.sub_0_r.
  rewrite <-(length_fmap fst vm) in Hlen. rewrite Hlen.
  assert (forallb (λ kv, serialises json_Marshal kv.2) vm = true) as ->.
  { apply forallb_forall. rewrite <-List.Forall_forall. done. }
  destruct vm as [|[k v] vm]; [done|]. cbn [fmap list_fmap length replicate first_error or_else fst snd].
  cbn [fmap option_fmap option_map settle]. rewrite settle_Err.
  do 3 f_equal. pose proof (fold_insert_list_to_map (λ _, false) ((k, v) :: vm).*1) as E.
  cbn [fmap list_fmap foldl fst] in E. rewrite E. f_equal. cbn. f_equal. by rewrite map_map.
Qed.

(** ** Witnesses *)

Module RedisCacheDemo.
Definition h : cacheRequest := mkCacheRequest "shop" "cart".
(** A marshaller for numbers only. *)
Definition marshal (a : any) : option string :=
  match a with AnyInt z => Some (pretty z) | _ => None end.
Definition ops : list (Z * cache_op) :=
  [(1000, OpSet h "a" (CAny (AnyInt 41)) 10);
   (2000, OpIncrement h "a" 1);
   (3000, OpMultiSet h [("b", CAny (AnyString "x")); ("c", CAny AnyNil)] 0);
   (4000, OpAppend h "b" "y");
   (5000, OpMultiGet h ["a"; "b"; "c"]);
   (11000, OpGet h "a");
   (11000, OpSetTTL h "b" 0);
   (11000, OpExists h "b")].
End RedisCacheDemo.

Lemma RedisCache_refines_map_witness :
  ∃ d', run_ops RedisCacheDemo.marshal RedisCacheDemo.ops (∅ : mapdb) =
    Ret (d', [AnsBool (Ok true); AnsUnit (Ok ());
              AnsBatch {["b" := true; "c" := false]} (Some NotSerialisable); AnsUnit (Ok ());
              AnsValues (Ok {["a" := "42"; "b" := "xy"]}); AnsValue (Ok None); AnsUnit (Ok ());
              AnsBool (Ok false)]).
Proof.
  destruct (RedisCache_refines_map (db := mapdb) RedisCacheDemo.marshal 0 RedisCacheDemo.ops ∅ ∅) as (d' & E & _).
  - intros h k. done.
  - cbn. unfold ttl_ok, is_i64. split_and!; try done; try lia.
    + right. split; [unfold second; lia|done].
    + apply NoDup_cons. split; [set_solver|]. apply NoDup_singleton.
  - exists d'. rewrite E. by vm_compute.
Defined.

Lemma RedisCache_TTL_behaviour_witness :
  ∃ d' : mapdb, rc_SetTTLContext Delivered 5 (Context_ None)
    (Some (mkSetTTLRequest RedisCacheDemo.h "a" 0)) {["shop:cart:a" := (RString "1", None)]} = Ret (d', Ok ()) ∧
    live d' 5 "shop:cart:a" = None.
Proof.
  destruct (RedisCache_TTL_behaviour (db := mapdb) {["shop:cart:a" := (RString "1", None)]} 5 RedisCacheDemo.h "a")
    as [H _]. apply (H 0); [lia|]. unfold is_i64, second. lia.
Defined.

Lemma MultiSet_broken_pipeline_witness :
  ∃ d' : mapdb, rc_MultiSetContext RedisCacheDemo.marshal (Pipeline 1 0 "EOF") 0 (Context_ None)
    (Some (mkValuesRequest RedisCacheDemo.h [("a", CAny (AnyInt 1)); ("b", CBytes "2")] 0)) ∅
    = Ret (d', {["a" := false; "b" := false]}, Some (ServerErr (ENetwork "EOF"))) ∧
    live_entry d' 0 "shop:cart:a" = Some (RString "1", None).
Proof.
  destruct (MultiSet_broken_pipeline (db := mapdb) RedisCacheDemo.marshal ∅ ∅ 0 RedisCacheDemo.h
    [("a", CAny (AnyInt 1)); ("b", CBytes "2")] 0 1 "EOF") as (d' & E & Hr).
  - intros h k. done.
  - by left.
  - repeat constructor.
  - done.
  - exists d'. split; [by rewrite E|]. transitivity (live_entry d' 0 (formatted RedisCacheDemo.h "a")); [done|].
    rewrite (Hr RedisCacheDemo.h "a"). by vm_compute.
Defined.
