(* ===== verification/Memcached.v ===== *)
(** * The Memcached cache adapter ([src/caching/memcached_cache.go], [src/storage/memcached])

    [MemcachedCache] on the calls of the gomemcache client. Memcached is not part of the
    repository: [MemcachedServer] lists the calls and [MemcachedLaws] the documented
    behaviour, in particular that an expiration above 30 days is an absolute Unix time.
    The clock is the server's, in seconds. Operations take the fate of their
    server call. [json.Marshal] is a parameter. The second half of the definitions is the
    registry of connections. *)

From Stdlib Require Import ZArith Lia.
From stdpp Require Import base numbers strings gmap list pretty.
From S2P Require Import Prelude GoValue CacheApi Redis.
Local Open Scope Z_scope.

(** ** The server *)

(** [memcache.ErrCacheMiss], [ErrNotStored], [ErrMalformedKey], error replies and failures
    of the connection. *)
Inductive merr : Type :=
  | ErrCacheMiss
  | ErrNotStored
  | ErrMalformedKey
  | ErrReply (why : string).

Record Item := mkItem { item_key : string; item_value : string; item_expiration : Z }.

Class MemcachedServer (db : Type) := {
  m_entry : db → string → option (string * option Z);
  mc_Get : Z → string → db → result merr string;
  mc_GetMulti : Z → list string → db → result merr (list (string * string));
  mc_Set : Z → Item → db → db * option merr;
  mc_Delete : Z → string → db → db * option merr;
  mc_Increment : Z → string → Z → db → db * result merr Z;
  mc_Decrement : Z → string → Z → db → db * result merr Z;
  mc_Append : Z → Item → db → db * option merr;
  mc_Touch : Z → string → Z → db → db * option merr;
  (** how the server reads a counter; a decrement may leave it padded with spaces *)
  mc_number : string → option Z;
}.

Definition m_alive (now : Z) (t : option Z) : bool :=
  match t with None => true | Some t => now <? t end.

Definition m_live {db} `{MemcachedServer db} (d : db) (now : Z) (k : string) : option (string * option Z) :=
  match m_entry d k with
  | Some (s, t) => if m_alive now t then Some (s, t) else None
  | None => None
  end.

(** At most 250 bytes, no spaces and no control characters. *)
Definition legal_char (a : Ascii.ascii) : bool :=
  let n := Z.of_nat (Ascii.nat_of_ascii a) in (32 <? n) && negb (n =? 127).

Fixpoint legal_chars (s : string) : bool :=
  match s with EmptyString => true | String a s => legal_char a && legal_chars s end.

Definition legal_key (k : string) : bool := (String.length k <=? 250)%nat && legal_chars k.

Definition thirty_days : Z := 60 * 60 * 24 * 30.

Definition m_deadline (now e : Z) : option Z :=
  if e =? 0 then None else if e <=? thirty_days then Some (now + e) else Some e.

Definition m_only {db} `{MemcachedServer db} (k : string) (d d' : db) : Prop :=
  ∀ k', k' ≠ k → m_entry d' k' = m_entry d k'.

Class MemcachedLaws (db : Type) `{MemcachedServer db} : Prop := {
  mc_number_law n : is_u64 n → mc_number (pretty n) = Some n;
  mc_malformed now k d : legal_key k = false → mc_Get now k d = Err ErrMalformedKey;
  mc_Get_law now k d :
    legal_key k = true →
    mc_Get now k d = match m_live d now k with Some (s, _) => Ok s | None => Err ErrCacheMiss end;
  (** the items found, in some order, once each *)
  mc_GetMulti_law now ks d :
    forallb legal_key ks = true →
    ∃ items, mc_GetMulti now ks d = Ok items ∧ NoDup items.*1 ∧
      ∀ k s, (k, s) ∈ items ↔ k ∈ ks ∧ fst <$> m_live d now k = Some s;
  mc_Set_only now it d : m_only (item_key it) d (mc_Set now it d).1;
  mc_Set_law now it d :
    legal_key (item_key it) = true → 0 <= item_expiration it →
    (mc_Set now it d).2 = None ∧
    m_entry (mc_Set now it d).1 (item_key it) = Some (item_value it, m_deadline now (item_expiration it));
  mc_Delete_only now k d : m_only k d (mc_Delete now k d).1;
  mc_Delete_law now k d :
    legal_key k = true →
    (mc_Delete now k d).2 = (match m_live d now k with Some _ => None | None => Some ErrCacheMiss end) ∧
    m_live (mc_Delete now k d).1 now k = None;
  mc_Increment_only now k v d : m_only k d (mc_Increment now k v d).1;
  mc_Increment_law now k v d s t n :
    legal_key k = true → is_u64 v → is_u64 n → m_live d now k = Some (s, t) → mc_number s = Some n →
    (mc_Increment now k v d).2 = Ok (u64 (n + v)) ∧
    ∃ s', m_entry (mc_Increment now k v d).1 k = Some (s', t) ∧ mc_number s' = Some (u64 (n + v));
  mc_Decrement_only now k v d : m_only k d (mc_Decrement now k v d).1;
  mc_Decrement_law now k v d s t n :
    legal_key k = true → is_u64 v → is_u64 n → m_live d now k = Some (s, t) → mc_number s = Some n →
    (mc_Decrement now k v d).2 = Ok (Z.max 0 (n - v)) ∧
    ∃ s', m_entry (mc_Decrement now k v d).1 k = Some (s', t) ∧ mc_number s' = Some (Z.max 0 (n - v));
  mc_counter_absent now k v d :
    legal_key k = true → m_live d now k = None →
    mc_Increment now k v d = (d, Err ErrCacheMiss) ∧ mc_Decrement now k v d = (d, Err ErrCacheMiss);
  mc_Append_only now it d : m_only (item_key it) d (mc_Append now it d).1;
  mc_Append_law now it d :
    legal_key (item_key it) = true →
    match m_live d now (item_key it) with
    | Some (s, t) =>
        (mc_Append now it d).2 = None ∧ m_entry (mc_Append now it d).1 (item_key it) = Some (s +:+ item_value it, t)
    | None => mc_Append now it d = (d, Some ErrNotStored)
    end;
  mc_Touch_only now k e d : m_only k d (mc_Touch now k e d).1;
  mc_Touch_law now k e d :
    legal_key k = true → 0 <= e →
    match m_live d now k with
    | Some (s, _) => (mc_Touch now k e d).2 = None ∧ m_entry (mc_Touch now k e d).1 k = Some (s, m_deadline now e)
    | None => mc_Touch now k e d = (d, Some ErrCacheMiss)
    end;
}.

(** ** The adapter *)

Inductive memcached_error : Type :=
  | MCtx (why : string)
  | MServer (e : merr)
  | MNotSerialisable
  | MTTLOutOfRange
  | MNegativeDelta
  | MTTLUnsupported.

Definition mc_formatKey (namespace collection key : string) : string :=
  namespace +:+ ":" +:+ collection +:+ ":" +:+ key.

Definition mc_formatted (h : cacheRequest) (key : string) : string :=
  mc_formatKey (Namespace h) (Collection h) key.

Definition memcachedTTL (ttl : Z) : result memcached_error Z :=
  if (ttl <? 0) || (2 ^ 31 - 1 <? ttl) then Err MTTLOutOfRange else Ok (i32 ttl).

Definition memcachedDelta (v : Z) : result memcached_error Z :=
  if v <? 0 then Err MNegativeDelta else Ok (u64 v).

(** [strings.SplitN(k, ":", 3)]: cut at the first two colons. *)
Definition colon_char : Ascii.ascii := Ascii.ascii_of_nat 58.

Fixpoint cut_colon (s : string) : option (string * string) :=
  match s with
  | EmptyString => None
  | String a s =>
      if decide (a = colon_char) then Some ("", s)
      else match cut_colon s with Some (x, y) => Some (String a x, y) | None => None end
  end.

Fixpoint SplitN (n : nat) (s : string) : list string :=
  match n with
  | O => []
  | S O => [s]
  | S n => match cut_colon s with Some (x, y) => x :: SplitN n y | None => [s] end
  end.

(** [parts[len(parts)-1]]. *)
Definition originalKey (k : string) : string := default k (last (SplitN 3 k)).

Section adapter.
Context {db : Type} `{MemcachedServer db}.
Context (json_Marshal : any → option string).
Implicit Types (d : db).

Definition mc_getSerialisedValue (v : cache_value) : result memcached_error string :=
  match v with
  | CBytes s => Ok s
  | CAny (AnyString s) => Ok s
  | CAny a => match json_Marshal a with Some b => Ok b | None => Err MNotSerialisable end
  end.

(** What the client gets for a call, by its fate. *)
Definition failing {A} (f : fate) (ok : db * result merr A) d : db * result merr A :=
  match f with
  | Delivered => ok
  | RequestLost why => (d, Err (ErrReply why))
  | ReplyLost why => (ok.1, Err (ErrReply why))
  end.

(** An [error] result as [Ok tt] or [Err]. *)
Definition of_error (r : db * option merr) : db * result merr unit :=
  (r.1, match r.2 with None => Ok tt | Some e => Err e end).

Definition mserver {A} (r : result merr A) : result memcached_error A :=
  match r with Ok a => Ok a | Err e => Err (MServer e) end.

Definition with_mrequest {R A} (ctx : context) (req : option R) d
    (body : R → db * result memcached_error A) : outcome (db * result memcached_error A) :=
  match checkedCacheContext ctx, req with
  | Some e, _ => Ret (d, Err (MCtx e))
  | None, None => Panic nil_dereference
  | None, Some req => Ret (body req)
  end.

Definition mc_ExistsContext f now ctx (req : option KeyRequest) d : outcome (db * result memcached_error bool) :=
  with_mrequest ctx req d (λ req,
    let key := mc_formatted (key_hdr req) (Key req) in
    match failing f (d, mc_Get now key d) d with
    | (d, Err ErrCacheMiss) => (d, Ok false)
    | (d, Err e) => (d, Err (MServer e))
    | (d, Ok _) => (d, Ok true)
    end).

Definition mc_GetContext f now ctx (req : option GetRequest) d
    : outcome (db * result memcached_error (option string)) :=
  with_mrequest ctx req d (λ req,
    let key := mc_formatted (get_hdr req) (get_key req) in
    match failing f (d, mc_Get now key d) d with
    | (d, Err ErrCacheMiss) => (d, Ok None)
    | (d, Err e) => (d, Err (MServer e))
    | (d, Ok s) => (d, Ok (Some s))
    end).

Definition mc_SetContext f now ctx (req : option ValueRequest) d : outcome (db * result memcached_error bool) :=
  with_mrequest ctx req d (λ req,
    let key := mc_formatted (val_hdr req) (val_key req) in
    match memcachedTTL (val_ttl req) with
    | Err e => (d, Err e)
    | Ok expiration =>
        match mc_getSerialisedValue (val_value req) with
        | Err e => (d, Err e)
        | Ok bytesValue =>
            let '(d, r) := failing f (of_error (mc_Set now (mkItem key bytesValue expiration) d)) d in
            (d, _ ← mserver r; Ok true)
        end
    end).

Definition mc_DeleteContext f now ctx (req : option KeyRequest) d : outcome (db * result memcached_error bool) :=
  with_mrequest ctx req d (λ req,
    let key := mc_formatted (key_hdr req) (Key req) in
    match failing f (of_error (mc_Delete now key d)) d with
    | (d, Err ErrCacheMiss) => (d, Ok false)
    | (d, Err e) => (d, Err (MServer e))
    | (d, Ok _) => (d, Ok true)
    end).

Definition mc_MultiGetContext f now ctx (req : option KeysRequest) d
    : outcome (db * result memcached_error (gmap string string)) :=
  with_mrequest ctx req d (λ req,
    let formattedKeys := map (mc_formatted (keys_hdr req)) (keys_keys req) in
    let '(d, r) := failing f (d, mc_GetMulti now formattedKeys d) d in
    (d, items ← mserver r; Ok (foldl (λ m it, <[originalKey it.1 := it.2]> m) ∅ items))).

(** The loop of [MultiSet], with the fate of each call; those left out are delivered. *)
Fixpoint MultiSet_items (h : cacheRequest) now (expiration : Z) (vm : list (string * cache_value))
    (fs : list fate) d (result : gmap string bool) (lastError : option memcached_error)
    : db * gmap string bool * option memcached_error :=
  match vm with
  | [] => (d, result, lastError)
  | (key, v) :: vm =>
      match mc_getSerialisedValue v with
      | Err e => MultiSet_items h now expiration vm fs d (<[key := false]> result) (Some e)
      | Ok bytesValue =>
          match failing (hd Delivered fs) (of_error (mc_Set now (mkItem (mc_formatted h key) bytesValue expiration) d)) d with
          | (d, Err e) => MultiSet_items h now expiration vm (tl fs) d (<[key := false]> result) (Some (MServer e))
          | (d, Ok _) => MultiSet_items h now expiration vm (tl fs) d (<[key := true]> result) lastError
          end
      end
  end.

Definition mc_MultiSetContext now ctx (req : option ValuesRequest) (fs : list fate) d
    : outcome (db * gmap string bool * option memcached_error) :=
  match checkedCacheContext ctx, req with
  | Some e, _ => Ret (d, ∅, Some (MCtx e))
  | None, None => Panic nil_dereference
  | None, Some req =>
      match memcachedTTL (vals_ttl req) with
      | Err e => Ret (d, ∅, Some e)
      | Ok expiration => Ret (MultiSet_items (vals_hdr req) now expiration (vals_map req) fs d ∅ None)
      end
  end.

(** The loop of [MultiDelete]; an error other than a miss discards the results. *)
Fixpoint MultiDelete_items (h : cacheRequest) now (keys : list string) (fs : list fate) d
    (result : gmap string bool) : db * gmap string bool * option memcached_error :=
  match keys with
  | [] => (d, result, None)
  | key :: keys =>
      match failing (hd Delivered fs) (of_error (mc_Delete now (mc_formatted h key) d)) d with
      | (d, Ok _) => MultiDelete_items h now keys (tl fs) d (<[key := true]> result)
      | (d, Err ErrCacheMiss) => MultiDelete_items h now keys (tl fs) d (<[key := false]> result)
      | (d, Err e) => (d, ∅, Some (MServer e))
      end
  end.

Definition mc_MultiDeleteContext now ctx (req : option KeysRequest) (fs : list fate) d
    : outcome (db * gmap string bool * option memcached_error) :=
  match checkedCacheContext ctx, req with
  | Some e, _ => Ret (d, ∅, Some (MCtx e))
  | None, None => Panic nil_dereference
  | None, Some req => Ret (MultiDelete_items (keys_hdr req) now (keys_keys req) fs d ∅)
  end.

Definition mc_IncrementContext f now ctx (req : option OffsetRequest) d
    : outcome (db * result memcached_error unit) :=
  with_mrequest ctx req d (λ req,
    let key := mc_formatted (off_hdr req) (off_key req) in
    match memcachedDelta (off_value req) with
    | Err e => (d, Err e)
    | Ok delta => let '(d, r) := failing f (mc_Increment now key delta d) d in (d, _ ← mserver r; Ok tt)
    end).

Definition mc_DecrementContext f now ctx (req : option OffsetRequest) d
    : outcome (db * result memcached_error unit) :=
  with_mrequest ctx req d (λ req,
    let key := mc_formatted (off_hdr req) (off_key req) in
    match memcachedDelta (off_value req) with
    | Err e => (d, Err e)
    | Ok delta => let '(d, r) := failing f (mc_Decrement now key delta d) d in (d, _ ← mserver r; Ok tt)
    end).

Definition mc_AppendContext f now ctx (req : option AppendRequest) d : outcome (db * result memcached_error unit) :=
  with_mrequest ctx req d (λ req,
    let key := mc_formatted (app_hdr req) (app_key req) in
    match mc_getSerialisedValue (CAny (AnyString (app_value req))) with
    | Err e => (d, Err e)
    | Ok valBytes => let '(d, r) := failing f (of_error (mc_Append now (mkItem key valBytes 0) d)) d in (d, mserver r)
    end).

Definition mc_GetTTLContext ctx (req : option KeyRequest) : result memcached_error Z :=
  match checkedCacheContext ctx with Some e => Err (MCtx e) | None => Err MTTLUnsupported end.

Definition mc_SetTTLContext f now ctx (req : option SetTTLRequest) d : outcome (db * result memcached_error unit) :=
  with_mrequest ctx req d (λ req,
    let key := mc_formatted (sttl_hdr req) (sttl_key req) in
    match memcachedTTL (sttl_ttl req) with
    | Err e => (d, Err e)
    | Ok expiration => let '(d, r) := failing f (of_error (mc_Touch now key expiration d)) d in (d, mserver r)
    end).

End adapter.

(** ** The registry of connections ([memcached.go]) *)

Record MemcachedConnectionConfig : Type := { Addresses : list string; Timeout : Z; MaxIdleConn : Z }.

(** A connection: the addresses it was made for, the settings of its raw client, and
    whether it was closed. *)
Record mconnection : Type := {
  mconn_addresses : list string; mconn_timeout : Z; mconn_maxIdle : Z; mconn_closed : bool
}.

Record mregistry : Type := {
  m_instances : gmap string nat;
  m_configs : gmap string (option MemcachedConnectionConfig);
  m_connections : list mconnection;
}.

Definition Memcached_cloneConnectionConfig (c : option MemcachedConnectionConfig) : option MemcachedConnectionConfig :=
  match c with
  | None => None
  | Some c => Some {| Addresses := [] ++ Addresses c; Timeout := Timeout c; MaxIdleConn := MaxIdleConn c |}
  end.

Definition Memcached_SetConnectionConfig (clusterName : string) (config : option MemcachedConnectionConfig)
    (w : mregistry) : mregistry :=
  {| m_instances := m_instances w;
     m_configs := <[clusterName := Memcached_cloneConnectionConfig config]> (m_configs w);
     m_connections := m_connections w |}.

Definition Memcached_GetConnectionConfig (clusterName : string) (w : mregistry) : option MemcachedConnectionConfig :=
  match m_configs w !! clusterName with
  | None => None
  | Some config => Memcached_cloneConnectionConfig config
  end.

(** A connector, nil or not: whether [New] gives a client for the addresses. *)
Definition Memcached_newInstance (connector : option (list string → bool)) (config : option MemcachedConnectionConfig)
    (w : mregistry) : mregistry * result string nat :=
  match connector, config with
  | None, _ => (w, Err "memcached: connector is required")
  | Some _, None => (w, Err "memcached: connection config is required")
  | Some new, Some config =>
      if new (Addresses config) then
        ({| m_instances := m_instances w; m_configs := m_configs w;
            m_connections := m_connections w ++
              [{| mconn_addresses := Addresses config; mconn_timeout := Timeout config;
                  mconn_maxIdle := MaxIdleConn config; mconn_closed := false |}] |},
         Ok (length (m_connections w)))
      else (w, Err "failed to create memcache client for server")
  end.

Definition Memcached_Connect (connector : option (list string → bool)) (serverName : string) (w : mregistry)
    : mregistry * result string nat :=
  match connector with
  | None => (w, Err "memcached: connector is required")
  | Some _ =>
      match m_instances w !! serverName with
      | Some i => (w, Ok i)
      | None =>
          match m_configs w !! serverName with
          | None | Some None => (w, Err ("connection config for server '" +:+ serverName +:+ "' not set"))
          | Some (Some config) =>
              match Memcached_newInstance connector (Some config) w with
              | (w, Err e) => (w, Err e)
              | (w, Ok newConn) =>
                  ({| m_instances := <[serverName := newConn]> (m_instances w); m_configs := m_configs w;
                      m_connections := m_connections w |}, Ok newConn)
              end
          end
      end
  end.

Definition close_connection (i : nat) (cs : list mconnection) : list mconnection :=
  alter (λ c, {| mconn_addresses := mconn_addresses c; mconn_timeout := mconn_timeout c;
                 mconn_maxIdle := mconn_maxIdle c; mconn_closed := true |}) i cs.

(** The error, if any, of closing each connection is a parameter. *)
Definition CloseCluster (closes : nat → option string) (serverName : string) (w : mregistry)
    : mregistry * option string :=
  match m_instances w !! serverName with
  | None => (w, None)
  | Some i =>
      ({| m_instances := delete serverName (m_instances w); m_configs := m_configs w;
          m_connections := close_connection i (m_connections w) |}, closes i)
  end.

(** The loop over the instances, in iteration order. *)
Fixpoint CloseAll_loop (closes : nat → option string) (order : list (string * nat)) (w : mregistry)
    (firstErr : option string) : mregistry * option string :=
  match order with
  | [] => (w, firstErr)
  | (serverName, i) :: order =>
      let firstErr := match firstErr, closes i with None, Some e => Some e | f, _ => f end in
      CloseAll_loop closes order
        {| m_instances := delete serverName (m_instances w); m_configs := m_configs w;
           m_connections := close_connection i (m_connections w) |} firstErr
  end.

Definition CloseAll (closes : nat → option string) (order : list (string * nat)) (w : mregistry)
    : mregistry * option string := CloseAll_loop closes order w None.
