(* ===== verification/MemcachedProps.v ===== *)
(** * The Memcached cache adapter: its guarantees

    A finite-map server that satisfies the laws; reading back what was set, within the
    TTLs memcached takes as relative; how [MultiGet] recovers the original keys; counters;
    and the registry of connections as a state machine. *)

From Stdlib Require Import ZArith Lia.
From stdpp Require Import base numbers strings gmap list pretty.
From S2P Require Import Prelude GoValue CacheApi Redis Memcached.
Local Open Scope Z_scope.

(** ** A server on a finite map *)

Abbreviation memdb := (gmap string (string * option Z)).

Definition mem_live (d : memdb) (now : Z) (k : string) : option (string * option Z) :=
  match d !! k with
  | Some (s, t) => if m_alive now t then Some (s, t) else None
  | None => None
  end.

Definition mem_number (s : string) : option Z :=
  match read_int s with Some n => if decide (is_u64 n) then Some n else None | None => None end.

Definition mem_arith (f : Z → Z) (now : Z) (k : string) (d : memdb) : memdb * result merr Z :=
  if legal_key k then
    match mem_live d now k with
    | None => (d, Err ErrCacheMiss)
    | Some (s, t) =>
        match mem_number s with
        | Some n => (<[k := (pretty (f n), t)]> d, Ok (f n))
        | None => (d, Err (ErrReply "cannot increment or decrement non-numeric value"))
        end
    end
  else (d, Err ErrMalformedKey).

Definition mem_found (d : memdb) (now : Z) (k : string) : option (string * string) :=
  match mem_live d now k with Some (s, _) => Some (k, s) | None => None end.

#[export] Instance memdb_server : MemcachedServer memdb := {
  m_entry d k := d !! k;
  mc_Get now k d :=
    if legal_key k then match mem_live d now k with Some (s, _) => Ok s | None => Err ErrCacheMiss end
    else Err ErrMalformedKey;
  mc_GetMulti now ks d :=
    if forallb legal_key ks then Ok (omap (mem_found d now) (remove_dups ks)) else Err ErrMalformedKey;
  mc_Set now it d :=
    if legal_key (item_key it) then
      (<[item_key it := (item_value it, m_deadline now (item_expiration it))]> d, None)
    else (d, Some ErrMalformedKey);
  mc_Delete now k d :=
    if legal_key k then (delete k d, match mem_live d now k with Some _ => None | None => Some ErrCacheMiss end)
    else (d, Some ErrMalformedKey);
  mc_Increment now k v d := mem_arith (λ n, u64 (n + v)) now k d;
  mc_Decrement now k v d := mem_arith (λ n, Z.max 0 (n - v)) now k d;
  mc_Append now it d :=
    match mem_live d now (item_key it) with
    | Some (s, t) => (<[item_key it := (s +:+ item_value it, t)]> d, None)
    | None => (d, Some ErrNotStored)
    end;
  mc_Touch now k e d :=
    match mem_live d now k with
    | Some (s, _) => (<[k := (s, m_deadline now e)]> d, None)
    | None => (d, Some ErrCacheMiss)
    end;
  mc_number := mem_number;
}.

Lemma mem_live_m (d : memdb) now k : m_live d now k = mem_live d now k.
Proof. done. Qed.

Lemma mem_number_pretty n : is_u64 n → mem_number (pretty n) = Some n.
Proof. intros Hn. unfold mem_number. by rewrite read_int_pretty, decide_True. Qed.

Lemma mem_found_items d now ks k s :
  (k, s) ∈ omap (mem_found d now) (remove_dups ks) ↔ k ∈ ks ∧ fst <$> mem_live d now k = Some s.
Proof.
  rewrite list_elem_of_omap. setoid_rewrite elem_of_remove_dups. unfold mem_found. split.
  - intros (k' & Hk & E). destruct (mem_live d now k') as [[]|] eqn:El; simplify_eq/=. by rewrite El.
  - intros [Hk E]. exists k. split; [done|]. destruct (mem_live d now k) as [[]|]; by simplify_eq/=.
Qed.

Lemma mem_found_nodup d now ks : NoDup (omap (mem_found d now) (remove_dups ks)).*1.
Proof.
  pose proof (NoDup_remove_dups ks) as Hnd. induction Hnd as [|k ks' Hk Hnd IH]; [constructor|].
  change (omap _ (k :: ks')) with
    (match mem_found d now k with Some y => y :: omap (mem_found d now) ks' | None => omap (mem_found d now) ks' end).
  destruct (mem_found d now k) as [[k' s]|] eqn:E; [|done]. cbn. apply NoDup_cons. split; [|done].
  unfold mem_found in E. repeat case_match; simplify_eq/=.
  intros ([k0 s0] & Ek & Hin)%list_elem_of_fmap. cbn in Ek. subst k0.
  apply list_elem_of_omap in Hin as (k1 & Hk1 & E1). unfold mem_found in E1. repeat case_match; by simplify_eq/=.
Qed.

Lemma mem_arith_law f now k (d : memdb) s t n :
  legal_key k = true → mem_live d now k = Some (s, t) → mem_number s = Some n → is_u64 (f n) →
  (mem_arith f now k d).2 = Ok (f n) ∧
  ∃ s', (mem_arith f now k d).1 !! k = Some (s', t) ∧ mem_number s' = Some (f n).
Proof.
  intros Hk El En Hf. unfold mem_arith. rewrite Hk, El, En. cbn. split; [done|]. eexists.
  rewrite lookup_insert_eq. split; [done|]. by apply mem_number_pretty.
Qed.

#[export] Instance memdb_laws : MemcachedLaws memdb.
Proof.
  split; intros; rewrite ?mem_live_m in *; unfold m_only, m_entry; simpl;
    repeat match goal with E : legal_key _ = _ |- _ => rewrite E end; intros;
    try (unfold mem_arith in *; repeat case_match; simplify_eq/=;
      rewrite ?lookup_insert_eq, ?lookup_delete_eq, ?lookup_insert_ne, ?lookup_delete_ne by done; done).
  - by apply mem_number_pretty.
  - exists (omap (mem_found d now) (remove_dups ks)).
    match goal with E : forallb _ _ = _ |- _ => rewrite E end.
    split_and!; [done|apply mem_found_nodup|apply mem_found_items].
  - split; [done|]. unfold m_live, m_entry. simpl. by rewrite lookup_delete_eq.
  - eapply (mem_arith_law (λ n, u64 (n + v))); [done..|apply u64_range].
  - eapply (mem_arith_law (λ n, Z.max 0 (n - v))); [done..|]. unfold is_u64 in *. lia.
Qed.

(** ** Keys *)

Fixpoint has_colon (s : string) : bool :=
  match s with EmptyString => false | String a s => bool_decide (a = colon_char) || has_colon s end.

Lemma cut_colon_app x y : has_colon x = false → cut_colon (x +:+ ":" +:+ y) = Some (x, y).
Proof.
  induction x as [|a x IH]; intros Hc; [by vm_compute|].
  cbn [has_colon] in Hc. apply orb_false_iff in Hc as [Ha Hx].
  change (String a x +:+ ":" +:+ y) with (String a (x +:+ ":" +:+ y)). cbn [cut_colon].
  rewrite decide_False by by apply bool_decide_eq_false in Ha. by rewrite IH.
Qed.

Lemma cut_colon_length s x y : cut_colon s = Some (x, y) → String.length s = S (String.length x + String.length y).
Proof.
  revert x y. induction s as [|a s IH]; intros x y; cbn [cut_colon]; [done|].
  case_decide; [intros [= <- <-]; done|]. destruct (cut_colon s) as [[x' y']|]; [|done].
  intros [= <- <-]. cbn. by rewrite (IH x' y').
Qed.

Lemma cut_colon_first x y : has_colon x = true → ∃ a b, cut_colon (x +:+ y) = Some (a, b +:+ y) ∧ cut_colon x = Some (a, b).
Proof.
  induction x as [|c x IH]; intros Hc; [done|]. cbn [has_colon] in Hc.
  change (String c x +:+ y) with (String c (x +:+ y)). cbn [cut_colon]. case_decide as Ec; [by eexists _, _|].
  rewrite bool_decide_eq_false_2 in Hc by done. destruct (IH Hc) as (a & b & -> & ->). by eexists _, _.
Qed.

Lemma longer_ne x k : x +:+ ":" +:+ k ≠ k.
Proof. intros E. apply (f_equal String.length) in E. rewrite !string_length_app in E. cbn in E. lia. Qed.

(** [SplitN] recovers the key exactly when neither the namespace nor the collection
    contains a colon. *)
Lemma originalKey_formatted h k :
  originalKey (mc_formatted h k) = k ↔ has_colon (Namespace h) = false ∧ has_colon (Collection h) = false.
Proof.
  unfold mc_formatted, mc_formatKey, originalKey. destruct h as [ns coll]. cbn [Namespace Collection]. split.
  - intros E. destruct (has_colon ns) eqn:En; [|destruct (has_colon coll) eqn:Ec; [|done]]; exfalso.
    + destruct (cut_colon_first ns (":" +:+ coll +:+ ":" +:+ k) En) as (a & b & E1 & _).
      cbn [SplitN] in E. rewrite E1 in E. destruct (has_colon b) eqn:Eb.
      * destruct (cut_colon_first b (":" +:+ coll +:+ ":" +:+ k) Eb) as (a' & b' & E2 & _).
        rewrite E2 in E. cbn [last default] in E. apply (longer_ne (b' +:+ ":" +:+ coll) k).
        rewrite <-E at 2. by rewrite !string_app_assoc.
      * rewrite (cut_colon_app b (coll +:+ ":" +:+ k) Eb) in E. by apply (longer_ne coll k).
    + cbn [SplitN] in E. rewrite (cut_colon_app ns _ En) in E.
      destruct (cut_colon_first coll (":" +:+ k) Ec) as (a & b & E1 & _). rewrite E1 in E. by apply (longer_ne b k).
  - intros [En Ec]. cbn [SplitN]. by rewrite (cut_colon_app ns _ En), (cut_colon_app coll _ Ec).
Qed.

Lemma mc_formatted_inj h k k' : mc_formatted h k = mc_formatted h k' → k = k'.
Proof.
  unfold mc_formatted, mc_formatKey. intros E. by do 4 apply string_app_cancel in E.
Qed.

Section adapter.
Context {db : Type} `{MemcachedLaws db}.
Context (json_Marshal : any → option string).
Implicit Types (d : db).

Lemma m_live_entry d now k s t :
  m_entry d k = Some (s, t) → m_live d now k = if m_alive now t then Some (s, t) else None.
Proof. intros E. unfold m_live. by rewrite E. Qed.

Lemma memcachedTTL_Ok ttl : 0 <= ttl <= 2 ^ 31 - 1 → memcachedTTL ttl = Ok ttl.
Proof.
  intros Ht. unfold memcachedTTL. destruct (Z.ltb_spec ttl 0); [lia|].
  destruct (Z.ltb_spec (2 ^ 31 - 1) ttl); [lia|]. cbn. by rewrite i32_id by (unfold is_i32; lia).
Qed.

Lemma Get_at d now h k s t :
  legal_key (mc_formatted h k) = true → m_entry d (mc_formatted h k) = Some (s, t) →
  mc_GetContext Delivered now (Context_ None) (Some (mkGetRequest h k [])) d
    = Ret (d, Ok (if m_alive now t then Some s else None)).
Proof.
  intros Hk He. cbn. rewrite mc_Get_law by done. rewrite (m_live_entry _ _ _ _ _ He). by destruct (m_alive now t).
Qed.

Lemma Set_stores d now h k v b ttl :
  legal_key (mc_formatted h k) = true → 0 <= ttl <= 2 ^ 31 - 1 → mc_getSerialisedValue json_Marshal v = Ok b →
  ∃ d', mc_SetContext json_Marshal Delivered now (Context_ None) (Some (mkValueRequest h k v ttl)) d = Ret (d', Ok true) ∧
        m_entry d' (mc_formatted h k) = Some (b, m_deadline now ttl) ∧
        m_only (mc_formatted h k) d d'.
Proof.
  intros Hk Httl Hv. cbn. rewrite memcachedTTL_Ok, Hv by done. cbn.
  destruct (mc_Set_law now (mkItem (mc_formatted h k) b ttl) d Hk ltac:(cbn; lia)) as [E1 E2].
  pose proof (mc_Set_only now (mkItem (mc_formatted h k) b ttl) d) as Ho.
  destruct (mc_Set now (mkItem (mc_formatted h k) b ttl) d) as [d' e]. cbn in *. subst e. by exists d'.
Qed.

(** The counters of [items] under their original keys. *)
Lemma fold_originals (items : list (string * string)) (m : gmap string string) h k :
  (∀ k', originalKey (mc_formatted h k') = k') →
  (∀ fk s, (fk, s) ∈ items → ∃ k', fk = mc_formatted h k') → NoDup items.*1 →
  foldl (λ m it, <[originalKey it.1 := it.2]> m) m items !! k
  = match list_find (λ it, it.1 = mc_formatted h k) items with Some (_, it) => Some it.2 | None => m !! k end.
Proof.
  intros Ho. revert m. induction items as [|[fk s] items IH]; intros m Hf Hnd; [done|].
  apply NoDup_cons in Hnd as [Hfk Hnd]. destruct (Hf fk s ltac:(by left)) as [k' ->].
  cbn [foldl fst snd list_find]. rewrite IH; [|intros fk' s' Hin; apply (Hf fk' s'); by right|done].
  rewrite Ho.
  case_decide as E.
  - apply mc_formatted_inj in E as ->. rewrite lookup_insert_eq.
    destruct (list_find _ items) as [[i it]|] eqn:El; [|done].
    apply list_find_Some in El as (Hi & Eit & _). exfalso. apply Hfk. apply list_elem_of_fmap.
    exists it. split; [done|]. by eapply list_elem_of_lookup_2.
  - rewrite lookup_insert_ne by congruence. by destruct (list_find _ items) as [[]|].
Qed.

End adapter.

(** Reading back what was set. With a TTL of at most thirty days (0: none) the value is
    found until its time is up and not afterwards, and no other key changes. A longer
    TTL, which the adapter accepts, is taken by the server for a point in time: if that
    lies in the past (every TTL up to [now]), [Set] reports success and the value is
    gone at once. *)
Theorem Memcached_Set_then_Get {db} `{MemcachedLaws db} json_Marshal (d : db) now h k v b ttl :
  legal_key (mc_formatted h k) = true → 0 <= ttl <= 2 ^ 31 - 1 → mc_getSerialisedValue json_Marshal v = Ok b →
  ∃ d', mc_SetContext json_Marshal Delivered now (Context_ None) (Some (mkValueRequest h k v ttl)) d = Ret (d', Ok true) ∧
    m_only (mc_formatted h k) d d' ∧
    let found later := mc_GetContext Delivered later (Context_ None) (Some (mkGetRequest h k [])) d' in
    (ttl <= thirty_days → ∀ later,
       found later = Ret (d', Ok (if (ttl =? 0) || (later <? now + ttl) then Some b else None))) ∧
    (thirty_days < ttl <= now → found now = Ret (d', Ok None)).
Proof.
  intros Hk Httl Hv. destruct (Set_stores json_Marshal d now h k v b ttl Hk Httl Hv) as (d' & E & He & Ho).
  exists d'. split; [done|]. split; [done|]. split.
  - intros Hle later. rewrite (Get_at d' later h k _ _ Hk He). unfold m_deadline.
    destruct (Z.eqb_spec ttl 0); [done|]. destruct (Z.leb_spec ttl thirty_days); [done|lia].
  - intros [Hgt Hnow]. rewrite (Get_at d' now h k _ _ Hk He). unfold m_deadline.
    assert (0 < thirty_days) by done. destruct (Z.eqb_spec ttl 0); [lia|].
    destruct (Z.leb_spec ttl thirty_days); [lia|]. cbn. by destruct (Z.ltb_spec now ttl); [lia|].
Qed.

(** [MultiGet] answers each key as [Get] does, if the namespace and the collection are
    free of colons. With a colon in one of them no key is found under its own name: the
    names are cut out of the formatted keys at the second colon. *)
Theorem Memcached_MultiGet_keys {db} `{MemcachedLaws db} (d : db) now h ks :
  forallb legal_key (map (mc_formatted h) ks) = true →
  ∃ m, mc_MultiGetContext Delivered now (Context_ None) (Some (mkKeysRequest h ks)) d = Ret (d, Ok m) ∧
    (has_colon (Namespace h) = false ∧ has_colon (Collection h) = false → ∀ k,
       m !! k = if decide (k ∈ ks) then fst <$> m_live d now (mc_formatted h k) else None) ∧
    (has_colon (Namespace h) = true ∨ has_colon (Collection h) = true → ∀ k, originalKey (mc_formatted h k) ≠ k).
Proof.
  intros Hks. cbn. destruct (mc_GetMulti_law now _ d Hks) as (items & -> & Hnd & Hin). cbn. eexists.
  split; [done|]. split.
  - intros Hc k. rewrite (fold_originals items ∅ h k); [|intros k'; by apply originalKey_formatted| |done].
    2: { intros fk s Hi. apply Hin in Hi as [Hi _]. apply list_elem_of_fmap in Hi as (k' & -> & _). eauto. }
    destruct (list_find _ items) as [[i [fk s]]|] eqn:El.
    + apply list_find_Some in El as (Hi & Eit & _). cbn in *. subst fk.
      apply list_elem_of_lookup_2, Hin in Hi as [Hi El]. apply list_elem_of_fmap in Hi as (k' & E & Hk').
      apply mc_formatted_inj in E as ->. by rewrite decide_True.
    + rewrite lookup_empty. case_decide as Hk; [|done].
      destruct (m_live d now (mc_formatted h k)) as [[s t]|] eqn:Es; [|done]. exfalso.
      apply list_find_None in El. rewrite Forall_forall in El.
      apply (El (mc_formatted h k, s)); [|done]. apply Hin. rewrite Es. split; [|done].
      apply list_elem_of_fmap. eauto.
  - intros Hc k E. apply originalKey_formatted in E as [E1 E2]. destruct Hc; congruence.
Qed.

(** Counters. Increments wrap at 2^64 and decrements stop at 0, both reported as
    successes; a negative offset and an absent key are refused without effect. *)
Theorem Memcached_counters {db} `{MemcachedLaws db} (d : db) now h k v :
  legal_key (mc_formatted h k) = true → is_i64 v →
  let incr := mc_IncrementContext Delivered now (Context_ None) (Some (mkOffsetRequest h k None v)) d in
  let decr := mc_DecrementContext Delivered now (Context_ None) (Some (mkOffsetRequest h k None v)) d in
  (v < 0 → incr = Ret (d, Err MNegativeDelta) ∧ decr = Ret (d, Err MNegativeDelta)) ∧
  (0 <= v → m_live d now (mc_formatted h k) = None →
     incr = Ret (d, Err (MServer ErrCacheMiss)) ∧ decr = Ret (d, Err (MServer ErrCacheMiss))) ∧
  (0 <= v → ∀ s t n, m_live d now (mc_formatted h k) = Some (s, t) → mc_number s = Some n → is_u64 n →
     (∃ d' s', incr = Ret (d', Ok tt) ∧ m_entry d' (mc_formatted h k) = Some (s', t) ∧
               mc_number s' = Some (u64 (n + v))) ∧
     (∃ d' s', decr = Ret (d', Ok tt) ∧ m_entry d' (mc_formatted h k) = Some (s', t) ∧
               mc_number s' = Some (Z.max 0 (n - v)))).
Proof.
  intros Hk Hv. cbn. unfold memcachedDelta. split_and!.
  - intros Hneg. by destruct (Z.ltb_spec v 0); [|lia].
  - intros Hpos Hl. destruct (Z.ltb_spec v 0); [lia|].
    destruct (mc_counter_absent now (mc_formatted h k) (u64 v) d Hk Hl) as [-> ->]. done.
  - intros Hpos s t n Hl Hs Hn. destruct (Z.ltb_spec v 0); [lia|].
    assert (is_u64 v) as Hu by (unfold is_u64, is_i64 in *; lia). rewrite u64_id by done.
    destruct (mc_Increment_law now _ v d s t n Hk Hu Hn Hl Hs) as [E1 (s1 & E2 & E3)].
    destruct (mc_Decrement_law now _ v d s t n Hk Hu Hn Hl Hs) as [E4 (s2 & E5 & E6)].
    destruct (mc_Increment now (mc_formatted h k) v d) as [d1 r1],
      (mc_Decrement now (mc_formatted h k) v d) as [d2 r2]. cbn in *. subst. cbn. eauto 10.
Qed.

(** ** The registry *)

Inductive mregistry_step : mregistry → mregistry → Prop :=
  | mstep_config w c cfg : mregistry_step w (Memcached_SetConnectionConfig c cfg w)
  | mstep_connect w con c : mregistry_step w (Memcached_Connect con c w).1
  | mstep_close w closes c : mregistry_step w (CloseCluster closes c w).1
  | mstep_close_all w closes order :
      order ≡ₚ map_to_list (m_instances w) → mregistry_step w (CloseAll closes order w).1.

Definition no_mconnections : mregistry := {| m_instances := ∅; m_configs := ∅; m_connections := [] |}.

(** Registered connections are open, and no two names share one. *)
Definition mregistry_ok (w : mregistry) : Prop :=
  (∀ c i, m_instances w !! c = Some i → ∃ x, m_connections w !! i = Some x ∧ mconn_closed x = false) ∧
  (∀ c c' i, m_instances w !! c = Some i → m_instances w !! c' = Some i → c = c').

Lemma close_one_ok w c i :
  mregistry_ok w → m_instances w !! c = Some i →
  mregistry_ok {| m_instances := delete c (m_instances w); m_configs := m_configs w;
                  m_connections := close_connection i (m_connections w) |}.
Proof.
  intros [Hop Hinj] Hc. split; cbn.
  - intros c' i' [Hne E]%lookup_delete_Some. destruct (Hop c' i' E) as (x & Hx & Hcl).
    exists x. split; [|done]. unfold close_connection. rewrite list_lookup_alter_ne; [done|].
    intros ->. by destruct Hne; eapply Hinj.
  - intros c1 c2 j [_ E1]%lookup_delete_Some [_ E2]%lookup_delete_Some. eauto.
Qed.

Lemma CloseAll_loop_ok closes order : ∀ w e,
  mregistry_ok w → NoDup order.*1 → (∀ c i, (c, i) ∈ order → m_instances w !! c = Some i) →
  mregistry_ok (CloseAll_loop closes order w e).1 ∧
  ∀ c, m_instances (CloseAll_loop closes order w e).1 !! c
       = if decide (c ∈ order.*1) then None else m_instances w !! c.
Proof.
  induction order as [|[c i] order IH]; intros w e Hok Hnd Hin.
  - split; [done|]. intros c. by rewrite decide_False by set_solver.
  - cbn [CloseAll_loop fmap list_fmap fst] in *. apply NoDup_cons in Hnd as [Hc Hnd].
    edestruct (IH {| m_instances := delete c (m_instances w); m_configs := m_configs w;
      m_connections := close_connection i (m_connections w) |}) as [H1 H2]; [|done| |].
    + apply close_one_ok; [done|]. apply Hin. set_solver.
    + intros c' i' Hi. cbn. rewrite lookup_delete_ne; [apply Hin; set_solver|].
      intros ->. apply Hc. apply list_elem_of_fmap. by exists (c', i').
    + split; [exact H1|]. intros c'. rewrite H2. cbn.
      destruct (decide (c = c')) as [<-|Hne].
      * rewrite lookup_delete_eq. rewrite (decide_True (P := c ∈ c :: order.*1)) by set_solver. by case_decide.
      * rewrite lookup_delete_ne by done. repeat case_decide; set_solver.
Qed.

Lemma Connect_new_ok w c cfg :
  mregistry_ok w → mregistry_ok
    {| m_instances := <[c := length (m_connections w)]> (m_instances w); m_configs := m_configs w;
       m_connections := m_connections w ++
         [{| mconn_addresses := Addresses cfg; mconn_timeout := Timeout cfg;
             mconn_maxIdle := MaxIdleConn cfg; mconn_closed := false |}] |}.
Proof.
  intros [Hop Hinj]. split; cbn.
  - intros c' i' [[<- <-]|[Hne E]]%lookup_insert_Some.
    + eexists. split; [by rewrite lookup_app_r, Nat.sub_diag|done].
    + destruct (Hop c' i' E) as (x & Hx & Hcl). exists x. split; [by apply lookup_app_l_Some|done].
  - assert (∀ c' i', m_instances w !! c' = Some i' → i' ≠ length (m_connections w)) as Hlt.
    { intros c' i' E ->. destruct (Hop c' _ E) as (x & Hx & _). apply lookup_lt_Some in Hx. lia. }
    intros c1 c2 j [[<- <-]|[H1 E1]]%lookup_insert_Some [[<- Ej]|[H2 E2]]%lookup_insert_Some; eauto.
    + by destruct (Hlt _ _ E2).
    + by destruct (Hlt _ _ E1).
Qed.

(** The registry never hands out a closed connection: in every state reachable by setting
    configurations, connecting and closing, registered connections are open and belong
    to one name each, a repeated [Connect] returns the same one, and after [CloseAll]
    none is registered. *)
Theorem memcached_registry_invariant w :
  rtc mregistry_step no_mconnections w →
  mregistry_ok w ∧
  (∀ con c w' i, Memcached_Connect (Some con) c w = (w', Ok i) →
     mregistry_ok w' ∧ (∃ x, m_connections w' !! i = Some x ∧ mconn_closed x = false) ∧
     Memcached_Connect (Some con) c w' = (w', Ok i)) ∧
  (∀ closes order, order ≡ₚ map_to_list (m_instances w) → m_instances (CloseAll closes order w).1 = ∅).
Proof.
  intros Hw. assert (∀ w closes order, mregistry_ok w → order ≡ₚ map_to_list (m_instances w) →
    mregistry_ok (CloseAll closes order w).1 ∧ m_instances (CloseAll closes order w).1 = ∅) as Hall.
  { intros w0 closes order Hok Hperm.
    destruct (CloseAll_loop_ok closes order w0 None Hok) as [H1 H2].
    - rewrite Hperm. apply NoDup_fst_map_to_list.
    - intros c i Hi. rewrite Hperm in Hi. by apply elem_of_map_to_list.
    - split; [exact H1|]. apply map_empty. intros c. unfold CloseAll. rewrite H2. case_decide as Hc; [done|].
      destruct (m_instances w0 !! c) as [i|] eqn:E; [|done]. destruct Hc. apply list_elem_of_fmap.
      exists (c, i). split; [done|]. rewrite Hperm. by apply elem_of_map_to_list. }
  assert (∀ w con c, mregistry_ok w → mregistry_ok (Memcached_Connect con c w).1) as Hcon.
  { intros w0 con c Hok. unfold Memcached_Connect. destruct con as [new|]; [|done].
    destruct (m_instances w0 !! c); [done|]. destruct (m_configs w0 !! c) as [[cfg|]|]; [|done..].
    cbn [Memcached_newInstance]. destruct (new (Addresses cfg)); [|done]. apply (Connect_new_ok w0 c cfg Hok). }
  assert (mregistry_ok w) as Hok.
  { revert w Hw. refine (rtc_ind_r mregistry_ok no_mconnections _ _); [by split|].
    intros w1 w2 _ Hs Hok. destruct Hs as [w0 c cfg|w0 con c|w0 closes c|w0 closes order]; [exact Hok|by apply Hcon| |by apply (Hall w0 closes order)].
    unfold CloseCluster. destruct (m_instances w0 !! c) eqn:E; [|done]. by apply close_one_ok. }
  split; [exact Hok|]. split; [|intros; by apply (Hall w)].
  intros con c w' i E. pose proof (Hcon w (Some con) c Hok) as Hok'. rewrite E in Hok'. cbn [fst] in Hok'.
  assert (m_instances w' !! c = Some i) as Hi.
  { unfold Memcached_Connect in E. destruct (m_instances w !! c) eqn:Ec; [by simplify_eq|].
    destruct (m_configs w !! c) as [[cfg|]|]; [|done..]. cbn [Memcached_newInstance] in E.
    destruct (con (Addresses cfg)); [|done]. simplify_eq. apply lookup_insert_eq. }
  split; [done|]. split; [by apply Hok' in Hi|]. unfold Memcached_Connect. by rewrite Hi.
Qed.

(** ** Witnesses *)

Module MemcachedDemo.
Definition h : cacheRequest := mkCacheRequest "shop" "cart".
Definition marshal : any → option string := λ _, None.
Definition cfg : MemcachedConnectionConfig := {| Addresses := ["mc1:11211"]; Timeout := 5; MaxIdleConn := 2 |}.
Definition w : mregistry :=
  (Memcached_Connect (Some (λ _, true)) "main" (Memcached_SetConnectionConfig "main" (Some cfg) no_mconnections)).1.
End MemcachedDemo.

(** A TTL of 31 days, set on 1 January 2024. *)
Lemma Memcached_Set_then_Get_witness :
  ∃ d' : memdb,
    mc_SetContext MemcachedDemo.marshal Delivered 1704067200 (Context_ None)
      (Some (mkValueRequest MemcachedDemo.h "a" (CBytes "x") 2678400)) ∅ = Ret (d', Ok true) ∧
    mc_GetContext Delivered 1704067200 (Context_ None) (Some (mkGetRequest MemcachedDemo.h "a" [])) d' = Ret (d', Ok None).
Proof.
  destruct (Memcached_Set_then_Get (db := memdb) MemcachedDemo.marshal ∅ 1704067200 MemcachedDemo.h "a" (CBytes "x") "x" 2678400)
    as (d' & E & _ & _ & Hlong); [by vm_compute|lia|done|].
  exists d'. split; [exact E|]. apply Hlong. unfold thirty_days. lia.
Defined.

Lemma Memcached_MultiGet_keys_witness :
  ∃ m, mc_MultiGetContext Delivered 7 (Context_ None) (Some (mkKeysRequest MemcachedDemo.h ["a"; "b:c"; "d"]))
         ({["shop:cart:a" := ("1", None); "shop:cart:b:c" := ("2", Some 8); "shop:cart:d" := ("3", Some 7)]} : memdb)
       = Ret ({["shop:cart:a" := ("1", None); "shop:cart:b:c" := ("2", Some 8); "shop:cart:d" := ("3", Some 7)]}, Ok m) ∧
    m !! "b:c" = Some "2" ∧ m !! "d" = None.
Proof.
  destruct (Memcached_MultiGet_keys (db := memdb)
    {["shop:cart:a" := ("1", None); "shop:cart:b:c" := ("2", Some 8); "shop:cart:d" := ("3", Some 7)]} 7
    MemcachedDemo.h ["a"; "b:c"; "d"]) as (m & E & Hm & _); [by vm_compute|].
  exists m. split; [exact E|]. rewrite !Hm by by vm_compute. by vm_compute.
Defined.

Lemma Memcached_counters_witness :
  ∃ d' s', mc_DecrementContext Delivered 0 (Context_ None) (Some (mkOffsetRequest MemcachedDemo.h "n" None 9))
      ({["shop:cart:n" := ("5", None)]} : memdb) = Ret (d', Ok tt) ∧
    m_entry d' "shop:cart:n" = Some (s', None) ∧ mc_number s' = Some 0.
Proof.
  destruct (Memcached_counters (db := memdb) {["shop:cart:n" := ("5", None)]} 0 MemcachedDemo.h "n" 9)
    as (_ & _ & H); [by vm_compute|unfold is_i64; lia|].
  destruct (H ltac:(lia) "5" None 5) as [_ Hd]; [by vm_compute|by vm_compute|unfold is_u64; lia|exact Hd].
Defined.

Lemma memcached_registry_invariant_witness :
  mregistry_ok MemcachedDemo.w ∧ m_instances MemcachedDemo.w !! "main" = Some 0%nat.
Proof.
  split; [|done]. apply (memcached_registry_invariant MemcachedDemo.w).
  eapply rtc_l; [apply (mstep_config no_mconnections "main" (Some MemcachedDemo.cfg))|].
  eapply rtc_l; [apply (mstep_connect _ (Some (λ _, true)) "main")|]. apply rtc_refl.
Defined.
