(* ===== verification/Aerospike.v ===== *)
(** * The Aerospike cache adapter ([src/caching/aerospike_cache.go], [src/storage/aerospike])

    [AerospikeCache] on the calls of the Aerospike client, and the registry of clusters.
    Aerospike is not part of the repository: [AerospikeServer] lists the calls, policies
    and keys the adapter uses and [AerospikeLaws] their documented behaviour for calls
    that are answered in time; the clock is the server's, in seconds. Each server call
    has a [acall]: its fate, its time and what is left of the context's deadline.

    Requests are pointers, and [verifyRequest] writes the cache's namespace and
    collection into them: every operation returns the header the request has afterwards. *)

From Stdlib Require Import ZArith Lia.
From stdpp Require Import base numbers strings gmap list.
From S2P Require Import Prelude GoValue CacheApi Redis.
Local Open Scope Z_scope.

(** ** The client *)

(** [types.KEY_NOT_FOUND_ERROR] and every other failure. *)
Inductive aerr : Type :=
  | KeyNotFound
  | AFailed (why : string).

(** Namespace, set and user key. *)
Definition akey : Type := string * string * string.
Definition bins : Type := gmap string any.

Record BasePolicy := mkBasePolicy { TotalTimeout : Z; SocketTimeout : Z }.

Inductive exists_action := UPDATE | UPDATE_ONLY | REPLACE | REPLACE_ONLY | CREATE_ONLY.

Record WritePolicy := mkWritePolicy {
  wp_base : BasePolicy;
  wp_Generation : Z;
  wp_Expiration : Z;
  wp_DurableDelete : bool;
  wp_RecordExistsAction : exists_action;
}.

Inductive operation : Type :=
  | AddOp (bin : string) (value : Z)
  | AppendOp (bin : string) (value : string).

Class AerospikeServer (db : Type) := {
  a_entry : db → akey → option (bins * option Z);
  as_NewPolicy : BasePolicy;
  as_NewBatchPolicy : BasePolicy;
  as_NewWritePolicy : Z → Z → WritePolicy;
  as_NewKey : string → string → string → result string akey;
  as_Exists : Z → BasePolicy → akey → db → result aerr bool;
  as_Get : Z → BasePolicy → akey → list string → db → result aerr bins;
  as_GetHeader : Z → BasePolicy → akey → db → result aerr Z;
  as_BatchGet : Z → BasePolicy → list akey → db → result aerr (list (option bins));
  as_Put : Z → WritePolicy → akey → bins → db → db * result aerr unit;
  as_Delete : Z → WritePolicy → akey → db → db * result aerr bool;
  (** the result code of each key, where there is one *)
  as_BatchDelete : Z → BasePolicy → list akey → db → db * result aerr (list (option Z));
  as_Operate : Z → WritePolicy → akey → list operation → db → db * result aerr unit;
  as_Touch : Z → WritePolicy → akey → db → db * result aerr unit;
}.

Definition a_live {db} `{AerospikeServer db} (d : db) (now : Z) (k : akey) : option (bins * option Z) :=
  match a_entry d k with
  | Some (b, t) => if match t with None => true | Some t => now <? t end then Some (b, t) else None
  | None => None
  end.

Definition a_only {db} `{AerospikeServer db} (k : akey) (d d' : db) : Prop :=
  ∀ k', k' ≠ k → a_entry d' k' = a_entry d k'.

(** Bins that come back as they were stored: names of at most 15 characters, with integers
    and strings. *)
Definition legal_bin (name : string) (v : any) : bool :=
  (String.length name <=? 15)%nat && match v with AnyInt _ | AnyString _ => true | _ => false end.

Definition legal_bins (b : bins) : Prop := b ≠ ∅ ∧ map_Forall (λ n v, legal_bin n v = true) b.

(** Expirations in seconds; the largest 32-bit number is "never". *)
Definition NeverExpire : Z := 2 ^ 32 - 1.

Definition a_deadline (now e : Z) : option Z := if e =? NeverExpire then None else Some (now + e).

(** 0 stands for the default of the server's namespace, and 2^32 - 2 leaves the deadline
    alone. *)
Definition plain_expiration (e : Z) : Prop := 0 < e <= NeverExpire ∧ e ≠ NeverExpire - 1.

Definition chosen_bins (names : list string) (b : bins) : bins :=
  if decide (names = []) then b else filter (λ nv, nv.1 ∈ names) b.

Class AerospikeLaws (db : Type) `{AerospikeServer db} : Prop := {
  as_NewKey_law ns set k : as_NewKey ns set k = Ok (ns, set, k);
  as_Exists_law now p k d : as_Exists now p k d = Ok (bool_decide (is_Some (a_live d now k)));
  as_Get_law now p k names d :
    as_Get now p k names d = match a_live d now k with Some (b, _) => Ok (chosen_bins names b) | None => Err KeyNotFound end;
  as_GetHeader_law now p k d :
    as_GetHeader now p k d =
      match a_live d now k with
      | Some (_, Some t) => Ok (t - now)
      | Some (_, None) => Ok NeverExpire
      | None => Err KeyNotFound
      end;
  as_BatchGet_law now p ks d : as_BatchGet now p ks d = Ok (map (λ k, fst <$> a_live d now k) ks);
  as_Put_only now p k b d : a_only k d (as_Put now p k b d).1;
  as_Put_replace now p k b d :
    wp_RecordExistsAction p = REPLACE → legal_bins b → plain_expiration (wp_Expiration p) →
    (as_Put now p k b d).2 = Ok tt ∧ a_entry (as_Put now p k b d).1 k = Some (b, a_deadline now (wp_Expiration p));
  as_Delete_only now p k d : a_only k d (as_Delete now p k d).1;
  as_Delete_law now p k d :
    (as_Delete now p k d).2 = Ok (bool_decide (is_Some (a_live d now k))) ∧ a_live (as_Delete now p k d).1 now k = None;
  as_Operate_only now p k ops d : a_only k d (as_Operate now p k ops d).1;
  as_Touch_only now p k d : a_only k d (as_Touch now p k d).1;
  as_Touch_law now p k d :
    plain_expiration (wp_Expiration p) →
    match a_live d now k with
    | Some (b, _) => (as_Touch now p k d).2 = Ok tt ∧ a_entry (as_Touch now p k d).1 k = Some (b, a_deadline now (wp_Expiration p))
    | None => as_Touch now p k d = (d, Err KeyNotFound)
    end;
}.

(** ** The registry of clusters ([storage/aerospike]) *)

Definition MinRequiredSeedNode : nat := 2.
Definition DefaultConnectionTimeout : Z := 20.
Definition DefaultRecordTTL : Z := 1800.

Record AerospikeConfig := mkAerospikeConfig { Hosts : list string; ConnectionTimeout : Z; DefaultTTL : Z }.

(** Connections are numbered as they are made, with the hosts, the timeout (nanoseconds)
    and the default write policy they were made with; [IsConnected] and whether they were
    closed change later. *)
Record aconnection := mkAConnection {
  aconn_hosts : list string; aconn_timeout : Z; aconn_policy : WritePolicy;
  aconn_connected : bool; aconn_closed : bool
}.

Record aregistry := mkARegistry {
  a_instances : gmap string nat;
  a_configs : gmap string (option AerospikeConfig);
  a_connections : list aconnection;
}.

Definition Aerospike_cloneConnectionConfig (config : option AerospikeConfig) : option AerospikeConfig :=
  match config with
  | None => None
  | Some c => Some (mkAerospikeConfig ([] ++ Hosts c) (ConnectionTimeout c) (DefaultTTL c))
  end.

Definition Aerospike_SetConnectionConfig (clusterName : string) (config : option AerospikeConfig) (w : aregistry) : aregistry :=
  mkARegistry (a_instances w) (<[clusterName := Aerospike_cloneConnectionConfig config]> (a_configs w)) (a_connections w).

(** A missing entry reads as nil. *)
Definition Aerospike_GetConnectionConfig (clusterName : string) (w : aregistry) : option AerospikeConfig :=
  Aerospike_cloneConnectionConfig (mjoin (a_configs w !! clusterName)).

Definition getClusterHostSlice (clusterName : string) (w : aregistry) : list string :=
  match a_configs w !! clusterName with Some (Some config) => [] ++ Hosts config | _ => [] end.

Definition getConnectionTimeout (clusterName : string) (w : aregistry) : Z :=
  match a_configs w !! clusterName with
  | Some (Some config) => i64 (ConnectionTimeout config * 10 ^ 9)
  | _ => DefaultConnectionTimeout * 10 ^ 9
  end.

Definition getDefaultRecordTTL (clusterName : string) (w : aregistry) : Z :=
  match a_configs w !! clusterName with Some (Some config) => DefaultTTL config | _ => DefaultRecordTTL end.

Definition newDefaultWritePolicy (NewWritePolicy : Z → Z → WritePolicy) (config : option AerospikeConfig) (ttl : Z)
    : WritePolicy :=
  let aeroTTL :=
    if (0 <=? ttl) && (ttl <=? 2 ^ 32 - 1) then u32 ttl
    else match config with
         | Some c => if 0 <? DefaultTTL c then DefaultTTL c else DefaultRecordTTL
         | None => DefaultRecordTTL
         end in
  let p := NewWritePolicy 0 aeroTTL in
  mkWritePolicy (wp_base p) (wp_Generation p) aeroTTL true REPLACE.

Definition GetClusterDefaultWritePolicy (NewWritePolicy : Z → Z → WritePolicy) (clusterName : string) (ttl : Z)
    (w : aregistry) : WritePolicy :=
  newDefaultWritePolicy NewWritePolicy (Aerospike_GetConnectionConfig clusterName w) ttl.

(** What dialling the hosts with a timeout comes to: an error, or a client. *)
Definition dialer : Type := list string → Z → option string.

Section registry.
(** [aero.NewHosts] checks the addresses. *)
Context (NewHosts : list string → option string) (NewWritePolicy : Z → Z → WritePolicy).

Definition newInstanceWithConfig (connector : option dialer) (config : option AerospikeConfig) (w : aregistry)
    : aregistry * result string nat :=
  match connector, config with
  | None, _ => (w, Err "aerospike: connector is required")
  | Some _, None => (w, Err "aerospike: connection config is required")
  | Some dial, Some config =>
      if (length (Hosts config) <? MinRequiredSeedNode)%nat then (w, Err "insufficient number of seed nodes")
      else
        match NewHosts (Hosts config) with
        | Some e => (w, Err e)
        | None =>
            let timeout := if ConnectionTimeout config <=? 0 then DefaultConnectionTimeout * 10 ^ 9
                           else i64 (ConnectionTimeout config * 10 ^ 9) in
            let writePolicy := newDefaultWritePolicy NewWritePolicy (Some config) (-1) in
            match dial (Hosts config) timeout with
            | Some e => (w, Err e)
            | None =>
                (mkARegistry (a_instances w) (a_configs w)
                   (a_connections w ++ [mkAConnection (Hosts config) timeout writePolicy true false]),
                 Ok (length (a_connections w)))
            end
        end
  end.

Definition cluster_not_set (clusterName : string) : string :=
  "connection config for cluster '" +:+ clusterName +:+ "' not set".

(** [newInstance], which reads a copy of the configuration first. *)
Definition Aerospike_newInstance (connector : option dialer) (clusterName : string) (w : aregistry)
    : aregistry * result string nat :=
  match Aerospike_GetConnectionConfig clusterName w with
  | None => (w, Err (cluster_not_set clusterName))
  | Some config => newInstanceWithConfig connector (Some config) w
  end.

(** The registered instance, if it is connected. *)
Definition connected (clusterName : string) (w : aregistry) : option nat :=
  i ← a_instances w !! clusterName; c ← a_connections w !! i; if aconn_connected c then Some i else None.

Definition Aerospike_Connect (connector : option dialer) (clusterName : string) (w : aregistry)
    : aregistry * result string nat :=
  match connector with
  | None => (w, Err "aerospike: connector is required")
  | Some _ =>
      match connected clusterName w with
      | Some i => (w, Ok i)
      | None =>
          match a_configs w !! clusterName with
          | None | Some None => (w, Err (cluster_not_set clusterName))
          | Some (Some config) =>
              match newInstanceWithConfig connector (Some config) w with
              | (w, Err e) => (w, Err e)
              | (w, Ok newConn) =>
                  (mkARegistry (<[clusterName := newConn]> (a_instances w)) (a_configs w) (a_connections w), Ok newConn)
              end
          end
      end
  end.

(** [Aerospike.Close]. *)
Definition Aerospike_Close (i : nat) (cs : list aconnection) : list aconnection :=
  alter (λ c, mkAConnection (aconn_hosts c) (aconn_timeout c) (aconn_policy c) false true) i cs.

Definition Aerospike_CloseCluster (clusterName : string) (w : aregistry) : aregistry :=
  match a_instances w !! clusterName with
  | None => w
  | Some i => mkARegistry (delete clusterName (a_instances w)) (a_configs w) (Aerospike_Close i (a_connections w))
  end.

(** The loop of [CloseAll] over the instances, in iteration order. *)
Definition Aerospike_CloseAll (order : list (string * nat)) (w : aregistry) : aregistry :=
  foldl (λ w ci, mkARegistry (delete ci.1 (a_instances w)) (a_configs w) (Aerospike_Close ci.2 (a_connections w))) w order.

End registry.

(** ** The adapter ([aerospike_cache.go]) *)

Inductive aerospike_error : Type :=
  | ACtx (why : string)
  | ANoNamespace
  | ANoCollection
  | ATTLOutOfRange
  | AKeyErr (why : string)                   (* failed to create aerospike key: ... *)
  | ACall (call : string) (e : aerr).        (* the failed call and its error *)

(** A server call: its fate, the server's clock, and [time.Until] of the context's
    deadline (nanoseconds), if it has one. *)
Record acall := mkCall { call_fate : fate; call_now : Z; call_until : option Z }.

Record AerospikeCache := mkAerospikeCache { ac_aero : nat; ac_namespace : string; ac_collection : string }.

Definition aerospikeTTL (ttl : Z) : result aerospike_error Z :=
  if ttl <? 0 then Ok DefaultRecordTTL
  else if 2 ^ 32 - 1 <? ttl then Err ATTLOutOfRange
  else Ok (u32 ttl).

(** [verifyRequest] on the header of a request. A nil pointer in a request makes its test
    of the interface pass, and the first method call panics. *)
Definition verifyRequest (a : AerospikeCache) (h : cacheRequest) : cacheRequest * option aerospike_error :=
  let h := if decide (Namespace h = "") then mkCacheRequest (ac_namespace a) (Collection h) else h in
  if decide (Namespace h = "") then (h, Some ANoNamespace)
  else
    let h := if decide (Collection h = "") then mkCacheRequest (Namespace h) (ac_collection a) else h in
    if decide (Collection h = "") then (h, Some ANoCollection) else (h, None).

Definition applyAerospikeDeadline (until : option Z) (policy : BasePolicy) : BasePolicy :=
  match until with
  | None => policy
  | Some timeout =>
      let timeout := if timeout <=? 0 then 1 else timeout in
      mkBasePolicy timeout
        (if (SocketTimeout policy =? 0) || (timeout <? SocketTimeout policy) then timeout else SocketTimeout policy)
  end.

Section adapter.
Context {db : Type} `{AerospikeServer db}.
Implicit Types (d : db) (a : AerospikeCache).

Definition aerospikeReadPolicyForContext (e : acall) : BasePolicy :=
  applyAerospikeDeadline (call_until e) as_NewPolicy.

Definition aerospikeBatchPolicyForContext (e : acall) : BasePolicy :=
  applyAerospikeDeadline (call_until e) as_NewBatchPolicy.

Definition with_deadline (e : acall) (p : WritePolicy) : WritePolicy :=
  mkWritePolicy (applyAerospikeDeadline (call_until e) (wp_base p)) (wp_Generation p) (wp_Expiration p)
    (wp_DurableDelete p) (wp_RecordExistsAction p).

Definition aerospikeWritePolicyForContext (e : acall) (clusterName : string) (ttl : Z) (w : aregistry) : WritePolicy :=
  with_deadline e (GetClusterDefaultWritePolicy as_NewWritePolicy clusterName ttl w).

(** [NewMultipleKey]. *)
Fixpoint NewMultipleKey (namespace setName : string) (keys : list string) : result string (list akey) :=
  match keys with
  | [] => Ok []
  | k :: keys =>
      match as_NewKey namespace setName k with
      | Err e => Err ("failed to create aerospike key for '" +:+ k +:+ "': " +:+ e)
      | Ok key => rest ← NewMultipleKey namespace setName keys; Ok (key :: rest)
      end
  end.

(** What the client gets for a call, by its fate. *)
Definition a_failing {A} (e : acall) (ok : db * result aerr A) d : db * result aerr A :=
  match call_fate e with
  | Delivered => ok
  | RequestLost why => (d, Err (AFailed why))
  | ReplyLost why => (ok.1, Err (AFailed why))
  end.

Definition a_checked {A} (call : string) (r : result aerr A) : result aerospike_error A :=
  match r with Ok x => Ok x | Err e => Err (ACall call e) end.

(** An operation's answer: the header left in the request, the database, the result. *)
Definition answered (A : Type) : Type := option cacheRequest * db * result aerospike_error A.

(** The context check and [verifyRequest], which every operation starts with. *)
Definition with_arequest {R A} a ctx (hdr : R → cacheRequest) (req : option R) d
    (body : cacheRequest → R → db * result aerospike_error A) : outcome (answered A) :=
  match checkedCacheContext ctx, req with
  | Some e, _ => Ret (hdr <$> req, d, Err (ACtx e))
  | None, None => Panic nil_dereference
  | None, Some req =>
      match verifyRequest a (hdr req) with
      | (h, Some e) => Ret (Some h, d, Err e)
      | (h, None) => let '(d, r) := body h req in Ret (Some h, d, r)
      end
  end.

(** [aerospikeNewKey] with its error. *)
Definition with_key {A} (h : cacheRequest) (k : string) d (body : akey → db * result aerospike_error A)
    : db * result aerospike_error A :=
  match as_NewKey (Namespace h) (Collection h) k with
  | Err e => (d, Err (AKeyErr e))
  | Ok key => body key
  end.

Definition ac_ExistsContext a (e : acall) ctx (req : option KeyRequest) d : outcome (answered bool) :=
  with_arequest a ctx key_hdr req d (λ h req,
    with_key h (Key req) d (λ key,
      let '(d, r) := a_failing e (d, as_Exists (call_now e) (aerospikeReadPolicyForContext e) key d) d in
      (d, a_checked "exists" r))).

Definition ac_GetContext a (e : acall) ctx (req : option GetRequest) d : outcome (answered bins) :=
  with_arequest a ctx get_hdr req d (λ h req,
    with_key h (get_key req) d (λ key,
      let '(d, r) := a_failing e (d, as_Get (call_now e) (aerospikeReadPolicyForContext e) key (Fields req) d) d in
      (d, a_checked "get" r))).

(** The map of a request's fields; nil reads as empty. *)
Definition bins_of (fields : option (list (string * any))) : bins := list_to_map (default [] fields).

Definition ac_SetContext a (w : aregistry) (e : acall) ctx (req : option SetRequest) d : outcome (answered bool) :=
  with_arequest a ctx set_hdr req d (λ h req,
    match aerospikeTTL (set_ttl req) with
    | Err err => (d, Err err)
    | Ok _ =>
        with_key h (set_key req) d (λ key,
          let writePolicy := aerospikeWritePolicyForContext e (Namespace h) (set_ttl req) w in
          let '(d, r) := a_failing e (as_Put (call_now e) writePolicy key (bins_of (set_fields req)) d) d in
          (d, _ ← a_checked "put" r; Ok true))
    end).

Definition ac_DeleteContext a (w : aregistry) (e : acall) ctx (req : option KeyRequest) d : outcome (answered bool) :=
  with_arequest a ctx key_hdr req d (λ h req,
    with_key h (Key req) d (λ key,
      let '(d, r) := a_failing e
        (as_Delete (call_now e) (aerospikeWritePolicyForContext e (Namespace h) (-1) w) key d) d in
      (d, a_checked "delete" r))).

(** The result maps of the batch operations: entry [i] of the reply under key [i]. *)
Fixpoint batch_results {A B} (f : A → B) (keys : list string) (records : list (option A)) (result : gmap string B)
    : gmap string B :=
  match keys, records with
  | k :: keys, record :: records =>
      batch_results f keys records (match record with Some x => <[k := f x]> result | None => result end)
  | _, _ => result
  end.

Definition ac_MultiGetContext a (e : acall) ctx (req : option KeysRequest) d : outcome (answered (gmap string bins)) :=
  with_arequest a ctx keys_hdr req d (λ h req,
    match NewMultipleKey (Namespace h) (Collection h) (keys_keys req) with
    | Err why => (d, Err (AKeyErr why))
    | Ok keys =>
        let '(d, r) := a_failing e (d, as_BatchGet (call_now e) (aerospikeBatchPolicyForContext e) keys d) d in
        (d, records ← a_checked "batchGet" r; Ok (batch_results id (keys_keys req) records ∅))
    end).

(** [types.OK]. *)
Definition ResultOK : Z := 0.

Definition ac_MultiDeleteContext a (e : acall) ctx (req : option KeysRequest) d : outcome (answered (gmap string bool)) :=
  with_arequest a ctx keys_hdr req d (λ h req,
    match NewMultipleKey (Namespace h) (Collection h) (keys_keys req) with
    | Err why => (d, Err (AKeyErr why))
    | Ok keys =>
        let '(d, r) := a_failing e (as_BatchDelete (call_now e) (aerospikeBatchPolicyForContext e) keys d) d in
        (d, records ← a_checked "batchDelete" r;
            Ok (batch_results (λ code, code =? ResultOK) (keys_keys req) records ∅))
    end).

Record FieldsRequest := mkFieldsRequest {
  flds_hdr : cacheRequest; flds_map : list (string * option (list (string * any))); flds_ttl : Z
}.

(** The loop of [MultiSet], with the call made for the [i]-th entry. A key that cannot be
    built ends it, and the results so far are dropped. *)
Fixpoint put_all (w : aregistry) (h : cacheRequest) (ttl : Z) (es : nat → acall) (i : nat)
    (entries : list (string * option (list (string * any)))) d
    (responseMap : gmap string bool) (lastError : option aerr)
    : db * result aerospike_error (gmap string bool * option aerr) :=
  match entries with
  | [] => (d, Ok (responseMap, lastError))
  | (k, fields) :: entries =>
      with_key h k d (λ key,
        match a_failing (es i)
          (as_Put (call_now (es i)) (aerospikeWritePolicyForContext (es i) (Namespace h) ttl w) key (bins_of fields) d) d with
        | (d, Ok _) => put_all w h ttl es (S i) entries d (<[k := true]> responseMap) lastError
        | (d, Err err) => put_all w h ttl es (S i) entries d (<[k := false]> responseMap) (Some err)
        end)
  end.

(** The results come with the last error, if any. *)
Definition ac_MultiSetContext a (w : aregistry) (es : nat → acall) ctx (req : option FieldsRequest) d
    : outcome (answered (gmap string bool * option aerr)) :=
  with_arequest a ctx flds_hdr req d (λ h req,
    match aerospikeTTL (flds_ttl req) with
    | Err err => (d, Err err)
    | Ok _ => put_all w h (flds_ttl req) es 0 (flds_map req) d ∅ None
    end).

Definition operate (w : aregistry) (e : acall) (call : string) (h : cacheRequest) (k : string) (ops : list operation) d
    : db * result aerospike_error unit :=
  with_key h k d (λ key,
    let '(d, r) := a_failing e
      (as_Operate (call_now e) (aerospikeWritePolicyForContext e (Namespace h) (-1) w) key ops d) d in
    (d, a_checked call r)).

Definition increment_ops (fields : option (list (string * Z))) : list operation :=
  map (λ kv, AddOp kv.1 kv.2) (default [] fields).

Definition decrement_ops (fields : option (list (string * Z))) : list operation :=
  map (λ kv, AddOp kv.1 (i64 (-1 * kv.2))) (default [] fields).

Definition append_ops (fields : option (list (string * string))) : list operation :=
  map (λ kv, AppendOp kv.1 kv.2) (default [] fields).

Definition ac_IncrementContext a w e ctx (req : option OffsetRequest) d : outcome (answered unit) :=
  with_arequest a ctx off_hdr req d (λ h req, operate w e "Add" h (off_key req) (increment_ops (off_fields req)) d).

Definition ac_DecrementContext a w e ctx (req : option OffsetRequest) d : outcome (answered unit) :=
  with_arequest a ctx off_hdr req d (λ h req,
    operate w e "Add in decrement" h (off_key req) (decrement_ops (off_fields req)) d).

Definition ac_AppendContext a w e ctx (req : option AppendRequest) d : outcome (answered unit) :=
  with_arequest a ctx app_hdr req d (λ h req, operate w e "Append" h (app_key req) (append_ops (app_fields req)) d).

Definition ac_GetTTLContext a (e : acall) ctx (req : option KeyRequest) d : outcome (answered Z) :=
  with_arequest a ctx key_hdr req d (λ h req,
    with_key h (Key req) d (λ key,
      let '(d, r) := a_failing e (d, as_GetHeader (call_now e) (aerospikeReadPolicyForContext e) key d) d in
      (d, a_checked "getHeader" r))).

Definition ac_SetTTLContext a (e : acall) ctx (req : option SetTTLRequest) d : outcome (answered unit) :=
  with_arequest a ctx sttl_hdr req d (λ h req,
    match aerospikeTTL (sttl_ttl req) with
    | Err err => (d, Err err)
    | Ok expiration =>
        with_key h (sttl_key req) d (λ key,
          let policy := with_deadline e (mkWritePolicy as_NewPolicy 0 expiration false UPDATE) in
          let '(d, r) := a_failing e (as_Touch (call_now e) policy key d) d in
          (d, a_checked "touch" r))
    end).

End adapter.
