(* ===== verification/AerospikeProps.v ===== *)
(** * Properties of the Aerospike adapter

    What [Set] stores is what [Get] finds, under the deadline the write policy sets; the
    effect of [verifyRequest] on requests that are used again; the invariant of the
    registry of clusters with connections that drop and recover. [mapaero] is a finite-map
    server that satisfies [AerospikeLaws]. *)

From Stdlib Require Import ZArith Lia.
From stdpp Require Import base numbers strings gmap list.
From S2P Require Import Prelude GoValue CacheApi Redis Aerospike.
Local Open Scope Z_scope.

(** ** A server *)

Definition mapaero : Type := gmap akey (bins * option Z).

Definition aero_live (d : mapaero) (now : Z) (k : akey) : option (bins * option Z) :=
  match d !! k with
  | Some (b, t) => if match t with None => true | Some t => now <? t end then Some (b, t) else None
  | None => None
  end.

Definition default_policy : BasePolicy := mkBasePolicy (10 ^ 9) (30 * 10 ^ 9).

Definition apply_op (b : bins) (o : operation) : bins :=
  match o with
  | AddOp n v => match b !! n with Some (AnyInt x) => <[n := AnyInt (x + v)]> b | None => <[n := AnyInt v]> b | _ => b end
  | AppendOp n s =>
      match b !! n with Some (AnyString x) => <[n := AnyString (x +:+ s)]> b | None => <[n := AnyString s]> b | _ => b end
  end.

(** A deletion, with the result code of the key. *)
Definition aero_delete (now : Z) (k : akey) (d : mapaero) : mapaero * bool :=
  (delete k d, bool_decide (is_Some (aero_live d now k))).

#[export] Instance mapaero_server : AerospikeServer mapaero := {
  a_entry d k := d !! k;
  as_NewPolicy := default_policy;
  as_NewBatchPolicy := default_policy;
  as_NewWritePolicy gen e := mkWritePolicy default_policy gen e false UPDATE;
  as_NewKey ns set k := Ok (ns, set, k);
  as_Exists now _ k d := Ok (bool_decide (is_Some (aero_live d now k)));
  as_Get now _ k names d := match aero_live d now k with Some (b, _) => Ok (chosen_bins names b) | None => Err KeyNotFound end;
  as_GetHeader now _ k d :=
    match aero_live d now k with
    | Some (_, Some t) => Ok (t - now)
    | Some (_, None) => Ok NeverExpire
    | None => Err KeyNotFound
    end;
  as_BatchGet now _ ks d := Ok (map (λ k, fst <$> aero_live d now k) ks);
  as_Put now p k b d := (<[k := (b, a_deadline now (wp_Expiration p))]> d, Ok tt);
  as_Delete now _ k d := let '(d, found) := aero_delete now k d in (d, Ok found);
  as_BatchDelete now _ ks d :=
    let '(d, codes) := foldl (λ acc k, let '(d, found) := aero_delete now k acc.1 in
                                       (d, acc.2 ++ [Some (if found : bool then 0 else 2)])) (d, []) ks in
    (d, Ok codes);
  as_Operate now p k ops d :=
    (<[k := (foldl apply_op (default ∅ (fst <$> aero_live d now k)) ops, a_deadline now (wp_Expiration p))]> d, Ok tt);
  as_Touch now p k d :=
    match aero_live d now k with
    | Some (b, _) => (<[k := (b, a_deadline now (wp_Expiration p))]> d, Ok tt)
    | None => (d, Err KeyNotFound)
    end;
}.

#[export] Instance mapaero_laws : AerospikeLaws mapaero.
Proof.
  split; try done; intros.
  - intros k' Hne. by apply lookup_insert_ne.
  - split; [done|]. apply lookup_insert_eq.
  - intros k' Hne. by apply lookup_delete_ne.
  - split; [done|]. change (aero_live (delete k d) now k = None). unfold aero_live, mapaero in *. by rewrite lookup_delete_eq.
  - intros k' Hne. by apply lookup_insert_ne.
  - intros k' Hne. cbn. destruct (aero_live d now k) as [[b t]|]; [by apply lookup_insert_ne|done].
  - cbn. change (a_live d now k) with (aero_live d now k). destruct (aero_live d now k) as [[b t]|]; [|done].
    split; [done|]. apply lookup_insert_eq.
Qed.

(** ** Reading back *)

(** The expiration of a write: the TTL asked for, or a default. The configuration consulted
    for the default is the one registered under the name of the namespace. *)
Definition set_expiration (w : aregistry) (namespace : string) (ttl : Z) : Z :=
  if 0 <=? ttl then ttl
  else match a_configs w !! namespace with
       | Some (Some c) => if 0 <? DefaultTTL c then DefaultTTL c else DefaultRecordTTL
       | _ => DefaultRecordTTL
       end.

Lemma write_policy_expiration {db} `{AerospikeServer db} e ns ttl w :
  ttl <= NeverExpire →
  wp_Expiration (aerospikeWritePolicyForContext e ns ttl w) = set_expiration w ns ttl ∧
  wp_RecordExistsAction (aerospikeWritePolicyForContext e ns ttl w) = REPLACE.
Proof.
  intros Ht. split; [|done]. cbn. unfold set_expiration, NeverExpire in *.
  destruct (Z.leb_spec 0 ttl) as [Hp|Hp]; cbn [andb].
  - destruct (Z.leb_spec ttl (2 ^ 32 - 1)); [|lia]. unfold u32, wrap. apply Z.mod_small. lia.
  - unfold Aerospike_GetConnectionConfig. by destruct (a_configs w !! ns) as [[c|]|].
Qed.

Lemma with_key_law {db} `{AerospikeLaws db} {A} h k (d : db) (body : akey → db * result aerospike_error A) :
  with_key h k d body = body (Namespace h, Collection h, k).
Proof. unfold with_key. by rewrite as_NewKey_law. Qed.

Lemma with_arequest_ok {db} `{AerospikeServer db} {R A} a (hdr : R → cacheRequest) req (d : db) body h d' (r : result _ A) :
  verifyRequest a (hdr req) = (h, None) → body h req = (d', r) →
  with_arequest a (Context_ None) hdr (Some req) d body = Ret (Some h, d', r).
Proof. intros Hv Hb. unfold with_arequest. cbn [checkedCacheContext]. by rewrite Hv, Hb. Qed.

Lemma Get_runs {db} `{AerospikeLaws db} a (d : db) e h0 h k names :
  verifyRequest a h0 = (h, None) →
  ac_GetContext a e (Context_ None) (Some (mkGetRequest h0 k names)) d =
    Ret (Some h, d, a_checked "get" (a_failing e (d, as_Get (call_now e) (aerospikeReadPolicyForContext e)
                                        (Namespace h, Collection h, k) names d) d).2).
Proof.
  intros Hv. unfold ac_GetContext. eapply with_arequest_ok; [done|]. rewrite with_key_law. cbn [get_key Fields].
  unfold a_failing. by destruct (call_fate e).
Qed.

Lemma Get_answer {db} `{AerospikeLaws db} a (d : db) now u h0 h k names :
  verifyRequest a h0 = (h, None) →
  ac_GetContext a (mkCall Delivered now u) (Context_ None) (Some (mkGetRequest h0 k names)) d =
    Ret (Some h, d, match a_live d now (Namespace h, Collection h, k) with
                    | Some (b, _) => Ok (chosen_bins names b)
                    | None => Err (ACall "get" KeyNotFound)
                    end).
Proof.
  intros Hv. rewrite (Get_runs a d _ h0 h) by done. cbn [a_failing call_fate call_now snd].
  rewrite as_Get_law. by destruct (a_live _ _ _) as [[]|].
Qed.

(** Reading back what was set. With fields the server can hold, a TTL beyond 32 bits is
    refused and nothing changes; otherwise [Set] stores the fields, replacing the record,
    and [Get] finds them, restricted to the names asked for, until the deadline and not
    afterwards, under the namespace and collection of the request or, where those are
    empty, of the cache; no other record changes. A negative TTL means half an hour, or the
    default of a cluster that happens to be registered under the name of the namespace. *)
Theorem Aerospike_Set_then_Get {db} `{AerospikeLaws db} a w (d : db) now u req h :
  verifyRequest a (set_hdr req) = (h, None) → legal_bins (bins_of (set_fields req)) →
  let set := ac_SetContext a w (mkCall Delivered now u) (Context_ None) (Some req) d in
  let e := set_expiration w (Namespace h) (set_ttl req) in
  (NeverExpire < set_ttl req → set = Ret (Some h, d, Err ATTLOutOfRange)) ∧
  (set_ttl req <= NeverExpire → plain_expiration e →
   ∃ d', set = Ret (Some h, d', Ok true) ∧
     (∀ later u' names,
        ac_GetContext a (mkCall Delivered later u') (Context_ None)
          (Some (mkGetRequest (set_hdr req) (set_key req) names)) d' =
        Ret (Some h, d', if match a_deadline now e with None => true | Some t => later <? t end
                         then Ok (chosen_bins names (bins_of (set_fields req)))
                         else Err (ACall "get" KeyNotFound))) ∧
     a_only (Namespace h, Collection h, set_key req) d d').
Proof.
  intros Hv Hb. cbn zeta. unfold NeverExpire. split.
  - intros Ht. unfold ac_SetContext. eapply with_arequest_ok; [done|]. unfold aerospikeTTL.
    destruct (Z.ltb_spec (set_ttl req) 0); [lia|]. by destruct (Z.ltb_spec (2 ^ 32 - 1) (set_ttl req)); [|lia].
  - intros Ht He.
    destruct (write_policy_expiration (mkCall Delivered now u) (Namespace h) (set_ttl req) w Ht) as [Ee Er].
    set (p := aerospikeWritePolicyForContext _ _ _ _) in *. set (k := (Namespace h, Collection h, set_key req)).
    rewrite <- Ee in *. destruct (as_Put_replace now p k _ d Er Hb He) as [E1 E2].
    pose proof (as_Put_only now p k (bins_of (set_fields req)) d) as E3.
    destruct (as_Put now p k (bins_of (set_fields req)) d) as [d' r] eqn:EP. cbn [fst snd] in *. subst r.
    exists d'. split; [|split; [|done]].
    + unfold ac_SetContext. eapply with_arequest_ok; [done|]. unfold aerospikeTTL.
      destruct (Z.ltb_spec (set_ttl req) 0); [|destruct (Z.ltb_spec (2 ^ 32 - 1) (set_ttl req)); [lia|]];
        rewrite with_key_law; cbn [a_failing call_fate call_now]; fold p k; by rewrite EP.
    + intros later u' names. rewrite (Get_answer a d' later u' _ h) by done. fold k. unfold a_live. rewrite E2.
      by destruct (a_deadline now (wp_Expiration p)) as [t|]; [destruct (later <? t)|].
Qed.

(** ** Batches *)

Lemma NewMultipleKey_law {db} `{AerospikeLaws db} ns set ks : NewMultipleKey ns set ks = Ok (map (λ k, (ns, set, k)) ks).
Proof. induction ks as [|k ks IH]; [done|]. cbn [NewMultipleKey]. by rewrite as_NewKey_law, IH. Qed.

Lemma batch_results_lookup {A B} (f : A → B) (g : string → option A) ks : ∀ m k,
  (k ∈ ks ∨ m !! k = None ∨ m !! k = f <$> g k) →
  (∀ k', is_Some (m !! k') → m !! k' = f <$> g k') →
  batch_results f ks (map g ks) m !! k = if decide (k ∈ ks) then f <$> g k else m !! k.
Proof.
  induction ks as [|k0 ks IH]; intros m k _ Hm; cbn [batch_results map].
  - by rewrite decide_False by set_solver.
  - assert (∀ k', is_Some ((match g k0 with Some x => <[k0 := f x]> m | None => m end) !! k') →
      (match g k0 with Some x => <[k0 := f x]> m | None => m end) !! k' = f <$> g k') as Hm'.
    { intros k'. destruct (g k0) as [x|] eqn:E; [|by auto].
      destruct (decide (k0 = k')) as [<-|Hne]; [by rewrite lookup_insert_eq, E|rewrite lookup_insert_ne by done; auto]. }
    destruct (decide (k = k0)) as [->|Hne].
    + rewrite (decide_True (P := k0 ∈ k0 :: ks)) by set_solver.
      destruct (decide (k0 ∈ ks)) as [Hin|Hin].
      { rewrite IH; [by rewrite decide_True|by left|exact Hm']. }
      rewrite IH; [|right|exact Hm'].
      * rewrite decide_False by done. destruct (g k0) as [x|] eqn:E; [by rewrite lookup_insert_eq|].
        destruct (m !! k0) eqn:E0; [|done]. rewrite <- E0, Hm by eauto. by rewrite E.
      * destruct (g k0) as [x|] eqn:E; [right; by rewrite lookup_insert_eq|].
        destruct (m !! k0) eqn:E0; [|by left]. exfalso. specialize (Hm k0 ltac:(eauto)). rewrite E in Hm. cbn in *. congruence.
    + rewrite IH; [| |exact Hm'].
      * assert ((match g k0 with Some x => <[k0 := f x]> m | None => m end) !! k = m !! k) as ->
          by (destruct (g k0); [by rewrite lookup_insert_ne|done]).
        destruct (decide (k ∈ ks)); [rewrite decide_True by set_solver|rewrite decide_False by set_solver]; done.
      * destruct ((match g k0 with Some x => <[k0 := f x]> m | None => m end) !! k) eqn:E; [|by auto].
        right. right. rewrite <- E. apply Hm'. by eauto.
Qed.

(** [MultiGet] answers every key as [Get] without field names does, with the absent ones
    left out; duplicates in the request make no difference. *)
Theorem Aerospike_MultiGet_answers {db} `{AerospikeLaws db} a (d : db) now u h0 h ks :
  verifyRequest a h0 = (h, None) →
  ∃ m, ac_MultiGetContext a (mkCall Delivered now u) (Context_ None) (Some (mkKeysRequest h0 ks)) d = Ret (Some h, d, Ok m) ∧
  ∀ k, ac_GetContext a (mkCall Delivered now u) (Context_ None) (Some (mkGetRequest h0 k [])) d =
         Ret (Some h, d, match (if decide (k ∈ ks) then m !! k else fst <$> a_live d now (Namespace h, Collection h, k)) with
                         | Some b => Ok b
                         | None => Err (ACall "get" KeyNotFound)
                         end) ∧
       (k ∉ ks → m !! k = None).
Proof.
  intros Hv. set (g := λ k, fst <$> a_live d now (Namespace h, Collection h, k)).
  exists (batch_results id ks (map g ks) ∅). split.
  - unfold ac_MultiGetContext. eapply with_arequest_ok; [done|]. cbn [keys_keys]. rewrite NewMultipleKey_law.
    cbn [a_failing call_fate call_now]. rewrite as_BatchGet_law. cbn. by rewrite map_map.
  - intros k. rewrite (batch_results_lookup id g) by (try (by intros k'; rewrite lookup_empty; intros []); by right; left).
    split.
    + rewrite (Get_answer a d now u h0 h) by done. unfold g. case_decide.
      * by destruct (a_live d now _) as [[]|].
      * by destruct (a_live d now _) as [[]|].
    + intros Hk. by rewrite decide_False, lookup_empty.
Qed.

(** ** Requests used twice *)

Lemma verifyRequest_full a h : Namespace h ≠ "" → Collection h ≠ "" → verifyRequest a h = (h, None).
Proof.
  intros Hn Hc. unfold verifyRequest. repeat case_decide; simplify_eq/=; done.
Qed.

(** A request belongs to the cache that saw it first. [verifyRequest] writes the namespace
    and the collection of the cache into a request that leaves them open, and the caller
    shares it: the same request, sent to any other cache afterwards, reads and writes the
    records of the first one. *)
Theorem reused_request_keeps_namespace {db} `{AerospikeLaws db} a b (d : db) w e1 e2 k names fields ttl :
  ac_namespace a ≠ "" → ac_collection a ≠ "" →
  let open := mkCacheRequest "" "" in
  ∃ h, (∃ r, ac_GetContext a e1 (Context_ None) (Some (mkGetRequest open k names)) d = Ret (Some h, d, r)) ∧
    h = mkCacheRequest (ac_namespace a) (ac_collection a) ∧
    ac_GetContext b e2 (Context_ None) (Some (mkGetRequest h k names)) d =
      ac_GetContext a e2 (Context_ None) (Some (mkGetRequest open k names)) d ∧
    ∃ d' r, ac_SetContext b w e2 (Context_ None) (Some (mkSetRequest h k AnyNil fields ttl)) d = Ret (Some h, d', r) ∧
      a_only (ac_namespace a, ac_collection a, k) d d'.
Proof.
  intros Hn Hc open. set (h := mkCacheRequest (ac_namespace a) (ac_collection a)).
  assert (verifyRequest a open = (h, None)) as Hv.
  { unfold verifyRequest. cbn. by rewrite !decide_False by done. }
  assert (verifyRequest b h = (h, None)) as Hb by by apply verifyRequest_full.
  exists h. split; [|split; [done|split]].
  - eexists. by apply (Get_runs a d e1).
  - by rewrite (Get_runs b d e2 h h), (Get_runs a d e2 open h).
  - unfold ac_SetContext, with_arequest. cbn [checkedCacheContext set_hdr set_ttl set_key]. rewrite Hb.
    destruct (aerospikeTTL ttl) as [x|x]; [|eexists _, _; split; [reflexivity|done]].
    rewrite with_key_law. cbn [Namespace Collection h].
    pose proof (as_Put_only (call_now e2) (aerospikeWritePolicyForContext e2 (ac_namespace a) ttl w)
      (ac_namespace a, ac_collection a, k) (bins_of fields) d) as Ho.
    unfold a_failing. cbn [set_fields]. destruct (as_Put _ _ _ _ d) as [d' r]. cbn [fst] in *.
    destruct (call_fate e2); eexists _, _; (split; [reflexivity|done]).
Qed.

(** ** The registry *)

Section registry.
Context (NewHosts : list string → option string) (NewWritePolicy : Z → Z → WritePolicy).
Abbreviation connect := (Aerospike_Connect NewHosts NewWritePolicy).

(** A connection loses its cluster, or finds it again. *)
Definition set_connected (b : bool) (i : nat) (w : aregistry) : aregistry :=
  mkARegistry (a_instances w) (a_configs w)
    (alter (λ c, mkAConnection (aconn_hosts c) (aconn_timeout c) (aconn_policy c)
                   (b && negb (aconn_closed c)) (aconn_closed c)) i (a_connections w)).

Inductive aregistry_step : aregistry → aregistry → Prop :=
  | astep_config w c cfg : aregistry_step w (Aerospike_SetConnectionConfig c cfg w)
  | astep_connect w con c : aregistry_step w (connect con c w).1
  | astep_network w b i : aregistry_step w (set_connected b i w)
  | astep_close w c : aregistry_step w (Aerospike_CloseCluster c w)
  | astep_close_all w order :
      order ≡ₚ map_to_list (a_instances w) → aregistry_step w (Aerospike_CloseAll order w).

Definition no_aconnections : aregistry := mkARegistry ∅ ∅ [].

(** Registered connections exist, are not closed, and belong to one cluster each; every
    connection was made with enough seed nodes. *)
Definition aregistry_ok (w : aregistry) : Prop :=
  (∀ c i, a_instances w !! c = Some i → ∃ x, a_connections w !! i = Some x ∧ aconn_closed x = false) ∧
  (∀ c c' i, a_instances w !! c = Some i → a_instances w !! c' = Some i → c = c') ∧
  Forall (λ x, (MinRequiredSeedNode <= length (aconn_hosts x))%nat) (a_connections w).

Lemma aclose_one_ok w c i :
  aregistry_ok w → a_instances w !! c = Some i →
  aregistry_ok (mkARegistry (delete c (a_instances w)) (a_configs w) (Aerospike_Close i (a_connections w))).
Proof.
  intros (Hop & Hinj & Hseed) Hc. split; [|split]; cbn.
  - intros c' i' [Hne E]%lookup_delete_Some. destruct (Hop c' i' E) as (x & Hx & Hcl).
    exists x. split; [|done]. unfold Aerospike_Close. rewrite list_lookup_alter_ne; [done|].
    intros ->. by destruct Hne; eapply Hinj.
  - intros c1 c2 j [_ E1]%lookup_delete_Some [_ E2]%lookup_delete_Some. eauto.
  - unfold Aerospike_Close. by apply Forall_alter.
Qed.

Lemma aclose_all_ok order : ∀ w,
  aregistry_ok w → NoDup order.*1 → (∀ c i, (c, i) ∈ order → a_instances w !! c = Some i) →
  aregistry_ok (Aerospike_CloseAll order w) ∧
  ∀ c, a_instances (Aerospike_CloseAll order w) !! c = if decide (c ∈ order.*1) then None else a_instances w !! c.
Proof.
  induction order as [|[c i] order IH]; intros w Hok Hnd Hin.
  - split; [done|]. intros c. by rewrite decide_False by set_solver.
  - cbn [fmap list_fmap fst] in Hnd. apply NoDup_cons in Hnd as [Hc Hnd].
    edestruct (IH (mkARegistry (delete c (a_instances w)) (a_configs w) (Aerospike_Close i (a_connections w))))
      as [H1 H2]; [|done| |].
    + apply aclose_one_ok; [done|]. apply Hin. set_solver.
    + intros c' i' Hi. cbn. rewrite lookup_delete_ne; [apply Hin; set_solver|].
      intros ->. apply Hc. apply list_elem_of_fmap. by exists (c', i').
    + split; [exact H1|]. intros c'. etransitivity; [exact (H2 c')|]. cbn. destruct (decide (c = c')) as [<-|Hne].
      * rewrite lookup_delete_eq. rewrite (decide_True (P := c ∈ c :: order.*1)) by set_solver. by case_decide.
      * rewrite lookup_delete_ne by done. repeat case_decide; set_solver.
Qed.

Lemma aclose_all_empty order w :
  aregistry_ok w → order ≡ₚ map_to_list (a_instances w) →
  aregistry_ok (Aerospike_CloseAll order w) ∧ a_instances (Aerospike_CloseAll order w) = ∅.
Proof.
  intros Hok Hperm. destruct (aclose_all_ok order w Hok) as [H1 H2].
  - rewrite Hperm. apply NoDup_fst_map_to_list.
  - intros c i Hi. rewrite Hperm in Hi. by apply elem_of_map_to_list.
  - split; [exact H1|]. apply map_empty. intros c. rewrite H2. case_decide as Hc; [done|].
    destruct (a_instances w !! c) as [i|] eqn:E; [|done]. destruct Hc. apply list_elem_of_fmap.
    exists (c, i). split; [done|]. rewrite Hperm. by apply elem_of_map_to_list.
Qed.

(** What [Connect] comes to: an error without effect, the connected instance, or a new
    connection that takes the name over. *)
Lemma aconnect_cases con c w :
  (∃ e, connect con c w = (w, Err e)) ∨
  (∃ i, connected c w = Some i ∧ connect con c w = (w, Ok i)) ∨
  (∃ x, aconn_connected x = true ∧ aconn_closed x = false ∧ (MinRequiredSeedNode <= length (aconn_hosts x))%nat ∧
        connected c w = None ∧
        connect con c w = (mkARegistry (<[c := length (a_connections w)]> (a_instances w)) (a_configs w)
                             (a_connections w ++ [x]), Ok (length (a_connections w)))).
Proof.
  unfold Aerospike_Connect. destruct con as [dial|]; [|eauto].
  destruct (connected c w) as [i|] eqn:Ec; [eauto|].
  destruct (a_configs w !! c) as [[cfg|]|]; [|eauto..]. cbn [newInstanceWithConfig].
  destruct (Nat.ltb_spec (length (Hosts cfg)) MinRequiredSeedNode); [eauto|].
  destruct (NewHosts (Hosts cfg)); [eauto|]. destruct (dial _ _); [eauto|].
  right. right. eexists. split_and!; [| | | |reflexivity]; done.
Qed.

Lemma aconnect_new_ok w c x :
  aregistry_ok w → aconn_closed x = false → (MinRequiredSeedNode <= length (aconn_hosts x))%nat →
  aregistry_ok (mkARegistry (<[c := length (a_connections w)]> (a_instances w)) (a_configs w) (a_connections w ++ [x])).
Proof.
  intros (Hop & Hinj & Hseed) Hx Hs.
  assert (∀ c' i', a_instances w !! c' = Some i' → i' ≠ length (a_connections w)) as Hlt.
  { intros c' i' E ->. destruct (Hop c' _ E) as (y & Hy & _). apply lookup_lt_Some in Hy. lia. }
  split; [|split]; cbn.
  - intros c' i' [[<- <-]|[Hne E]]%lookup_insert_Some.
    + exists x. split; [by rewrite lookup_app_r, Nat.sub_diag|done].
    + destruct (Hop c' i' E) as (y & Hy & Hcl). exists y. split; [by apply lookup_app_l_Some|done].
  - intros c1 c2 j [[<- <-]|[H1 E1]]%lookup_insert_Some [[<- Ej]|[H2 E2]]%lookup_insert_Some; eauto.
    + by destruct (Hlt _ _ E2).
    + by destruct (Hlt _ _ E1).
  - apply Forall_app. split; [done|]. by apply Forall_singleton.
Qed.

Lemma aregistry_step_ok w w' : aregistry_step w w' → aregistry_ok w → aregistry_ok w'.
Proof.
  intros Hs Hok. destruct Hs as [w c cfg|w con c|w b i|w c|w order Hp].
  - exact Hok.
  - destruct (aconnect_cases con c w) as [[e ->]|[(i & _ & ->)|(x & _ & Hx & Hl & _ & ->)]]; [done..|].
    by apply aconnect_new_ok.
  - destruct Hok as (Hop & Hinj & Hseed). split; [|split; [done|]]; cbn.
    + intros c j E. destruct (Hop c j E) as (x & Hx & Hcl). destruct (decide (i = j)) as [<-|Hne].
      * rewrite list_lookup_alter_eq, Hx. cbn. eauto.
      * rewrite list_lookup_alter_ne by done. eauto.
    + by apply Forall_alter.
  - unfold Aerospike_CloseCluster. destruct (a_instances w !! c) eqn:E; [|done]. by apply aclose_one_ok.
  - by apply aclose_all_empty.
Qed.

(** The registry of clusters, in every state reachable by setting configurations,
    connecting, closing and losing or regaining the network: registered connections are
    not closed and belong to one cluster each, and every connection ever made had at least
    two seed nodes. [Connect] answers with a connection that is up and registered and that
    later calls return while it stays up. When the registered connection is down, a new one
    takes its name, and the old one is neither registered under any name nor closed. *)
Theorem aerospike_registry_invariant w :
  rtc aregistry_step no_aconnections w →
  aregistry_ok w ∧
  (∀ con c w' i, connect con c w = (w', Ok i) →
     aregistry_ok w' ∧ connected c w' = Some i ∧ connect con c w' = (w', Ok i) ∧
     ∀ j, a_instances w !! c = Some j → j ≠ i →
       (∃ x, a_connections w' !! j = Some x ∧ aconn_closed x = false) ∧ ∀ c', a_instances w' !! c' ≠ Some j) ∧
  (∀ order, order ≡ₚ map_to_list (a_instances w) → a_instances (Aerospike_CloseAll order w) = ∅).
Proof.
  intros Hw. assert (aregistry_ok w) as Hok.
  { revert w Hw. refine (rtc_ind_r aregistry_ok no_aconnections _ _); [by split; [|split]|].
    intros w1 w2 _ Hs. by apply aregistry_step_ok. }
  split; [done|]. split; [|intros order Hp; by apply aclose_all_empty].
  intros con c w' i E. assert (aregistry_ok w') as Hok'.
  { apply (aregistry_step_ok w); [|done]. replace w' with (connect con c w).1 by by rewrite E. constructor. }
  split; [done|]. destruct con as [dial|]; [|done].
  destruct (aconnect_cases (Some dial) c w) as [[e E1]|[(i' & Hc & E1)|(x & Hup & Hx & _ & _ & E1)]];
    rewrite E1 in E; [done|injection E as <- <-|injection E as <- <-].
  - split; [done|]. split; [done|]. intros j Hj Hne. exfalso. unfold connected in Hc. rewrite Hj in Hc. cbn in Hc.
    destruct (a_connections w !! j); cbn in Hc; [|done]. case_match; simplify_eq.
  - set (w' := mkARegistry _ _ _) in *. assert (connected c w' = Some (length (a_connections w))) as Hc'.
    { unfold connected, w'. cbn. rewrite lookup_insert_eq. cbn. rewrite lookup_app_r, Nat.sub_diag by done. cbn. by rewrite Hup. }
    split; [done|]. split; [unfold Aerospike_Connect; by rewrite Hc'|]. intros j Hj Hne.
    destruct Hok as (Hop & Hinj & _). destruct (Hop c j Hj) as (y & Hy & Hcl). split.
    + exists y. split; [by apply lookup_app_l_Some|done].
    + intros c' E'. cbn in E'. apply lookup_insert_Some in E' as [[<- <-]|[Hne' E']]; [done|].
      apply Hne'. by eapply Hinj.
Qed.

End registry.

(** ** Witnesses *)

Module AerospikeDemo.
Definition a : AerospikeCache := mkAerospikeCache 0 "shop" "cart".
Definition b : AerospikeCache := mkAerospikeCache 0 "bank" "accounts".
Definition hosts : AerospikeConfig := mkAerospikeConfig ["as1:3000"; "as2:3000"] 5 60.
Definition w0 : aregistry := mkARegistry ∅ {["main" := Some hosts]} [].
Definition fields : option (list (string * any)) := Some [("n", AnyInt 1); ("s", AnyString "x")].
Definition dial : dialer := λ _ _, None.
Definition up : aregistry := (Aerospike_Connect (λ _, None) (as_NewWritePolicy (db := mapaero)) (Some dial) "main" w0).1.

Lemma fields_legal : legal_bins (bins_of fields).
Proof.
  split; [by vm_compute|]. intros n v E. apply elem_of_list_to_map_2 in E.
  repeat (apply elem_of_cons in E as [[= -> ->]|E]; [done|]). by apply elem_of_nil in E.
Qed.
End AerospikeDemo.

Lemma Aerospike_Set_then_Get_witness :
  ∃ d' : mapaero,
    ac_SetContext AerospikeDemo.a AerospikeDemo.w0 (mkCall Delivered 100 None) (Context_ None)
      (Some (mkSetRequest (mkCacheRequest "" "") "k" AnyNil AerospikeDemo.fields (-1))) ∅
      = Ret (Some (mkCacheRequest "shop" "cart"), d', Ok true) ∧
    ac_GetContext AerospikeDemo.a (mkCall Delivered 1899 None) (Context_ None)
      (Some (mkGetRequest (mkCacheRequest "" "") "k" [])) d'
      = Ret (Some (mkCacheRequest "shop" "cart"), d', Ok (bins_of AerospikeDemo.fields)).
Proof.
  destruct (Aerospike_Set_then_Get (db := mapaero) AerospikeDemo.a AerospikeDemo.w0 ∅ 100 None
    (mkSetRequest (mkCacheRequest "" "") "k" AnyNil AerospikeDemo.fields (-1)) (mkCacheRequest "shop" "cart"))
    as [_ Hs]; [done|apply AerospikeDemo.fields_legal|].
  destruct Hs as (d' & E & Hg & _); [done|split; [split; [done|by vm_compute]|by vm_compute]|].
  exists d'. split; [exact E|]. exact (Hg 1899 None []).
Defined.

Lemma Aerospike_MultiGet_answers_witness :
  ∃ m, ac_MultiGetContext AerospikeDemo.a (mkCall Delivered 0 None) (Context_ None)
         (Some (mkKeysRequest (mkCacheRequest "" "") ["k"; "l"; "k"])) (∅ : mapaero)
       = Ret (Some (mkCacheRequest "shop" "cart"), ∅, Ok m).
Proof.
  destruct (Aerospike_MultiGet_answers (db := mapaero) AerospikeDemo.a ∅ 0 None (mkCacheRequest "" "")
    (mkCacheRequest "shop" "cart") ["k"; "l"; "k"]) as (m & E & _); [done|]. by exists m.
Defined.

Lemma reused_request_keeps_namespace_witness :
  ∃ h, (∃ r, ac_GetContext AerospikeDemo.a (mkCall Delivered 0 None) (Context_ None)
          (Some (mkGetRequest (mkCacheRequest "" "") "k" [])) (∅ : mapaero) = Ret (Some h, ∅, r)) ∧
    h = mkCacheRequest "shop" "cart".
Proof.
  destruct (reused_request_keeps_namespace (db := mapaero) AerospikeDemo.a AerospikeDemo.b ∅ AerospikeDemo.w0
    (mkCall Delivered 0 None) (mkCall Delivered 1 None) "k" [] None 0) as (h & Hr & Hh & _); [done..|]. by exists h.
Defined.

Lemma aerospike_registry_invariant_witness :
  aregistry_ok AerospikeDemo.up ∧ connected "main" AerospikeDemo.up = Some 0%nat.
Proof.
  split; [|by vm_compute].
  apply (aerospike_registry_invariant (λ _, None) (as_NewWritePolicy (db := mapaero)) AerospikeDemo.up).
  apply (rtc_l _ _ AerospikeDemo.w0); [|apply rtc_once; apply astep_connect].
  exact (astep_config _ _ no_aconnections "main" (Some AerospikeDemo.hosts)).
Defined.
