(* ===== verification/CacheFactory.v ===== *)
(** * Choosing a cache adapter ([src/caching/factory.go], [options.go], [providers.go])

    Validation of the options and the constructors of the adapters on the registries of
    connections. What dialling an Aerospike cluster comes to, and the checks and defaults of
    the Aerospike client, are parameters. *)

From Stdlib Require Import ZArith Lia.
From stdpp Require Import base numbers strings gmap list.
From S2P Require Import Prelude Murmur Sketch GoValue CacheApi TinyLfu FlashStore FlashSpec FlashCache Redis RedisClient RedisCache Memcached Aerospike AerospikeProps.
Local Open Scope Z_scope.

Record CacheOptions : Type := {
  opt_Provider : string;
  opt_Cluster : string;
  opt_Hosts : list string;
  opt_ConnTimeout : Z;
  opt_DefaultTTL : Z;
  opt_Namespace : string;
  opt_Collection : string;
  opt_Username : string;
  opt_Password : string;
}.

Definition ProviderAerospike : string := "aerospike".
Definition ProviderRedis : string := "redis".
Definition ProviderMemcached : string := "memcached".
Definition ProviderFlashDB : string := "flashdb".

Definition validate (opts : option CacheOptions) : outcome (option string) :=
  match opts with
  | None => Panic nil_dereference
  | Some opts =>
      Ret (if decide (opt_Provider opts = "") then Some "Options.Provider is not set"
           else if decide (opt_Hosts opts = []) then Some "Options.Hosts is not set"
           else if opt_ConnTimeout opts =? 0 then Some "Options.ConnTimeout is not set"
           else if opt_DefaultTTL opts =? 0 then Some "Options.DefaultTTL is not set"
           else if decide (opt_Cluster opts = "") then Some "Options.Cluster is not set"
           else None)
  end.

(** The connections of the process. *)
Record cache_world : Type := { cw_redis : redis_registry; cw_memcached : mregistry; cw_aerospike : aregistry }.

Definition NewRedisCache (opts : CacheOptions) (c : connector) (w : redis_registry)
  : outcome (redis_registry * result string RedisCache) :=
  host ← slice_get (opt_Hosts opts) 0;
  let w := Redis_SetConnectionConfig (opt_Cluster opts)
             (Some {| Address := host; Username := opt_Username opts; Password := opt_Password opts;
                      Database := 0; PoolSize := 0 |}) w in
  r ← Redis_Connect c (opt_Cluster opts) w;
  match r with
  | (w, Err e) => Ret (w, Err e)
  | (w, Ok client) => Ret (w, Ok (mkRedisCache client (opt_Cluster opts) (opt_Namespace opts) (opt_Collection opts)))
  end.

Record MemcachedCache := mkMemcachedCache {
  mcc_memc : nat; mcc_clusterName : string; mcc_namespace : string; mcc_collection : string
}.

Definition MemcachedConnector : option (list string → bool) := Some (λ _, true).

Definition NewMemcachedCache (opts : CacheOptions) (c : option (list string → bool)) (w : mregistry)
  : mregistry * result string MemcachedCache :=
  let w := Memcached_SetConnectionConfig (opt_Cluster opts)
             (Some {| Addresses := opt_Hosts opts; Timeout := i64 (opt_ConnTimeout opts * second); MaxIdleConn := 0 |}) w in
  match Memcached_Connect c (opt_Cluster opts) w with
  | (w, Err e) => (w, Err e)
  | (w, Ok client) => (w, Ok (mkMemcachedCache client (opt_Cluster opts) (opt_Namespace opts) (opt_Collection opts)))
  end.

Section aerospike.
(** [aero.NewHosts], [aero.NewWritePolicy], and dialling a cluster. *)
Context (NewHosts : list string → option string) (NewWritePolicy : Z → Z → WritePolicy) (dial : dialer).

Definition NewAerospikeCache (opts : CacheOptions) (connector : option dialer) (w : aregistry)
  : aregistry * result string AerospikeCache :=
  match aerospikeTTL (opt_DefaultTTL opts) with
  | Err _ => (w, Err "aerospike: TTL out of range")
  | Ok sanitizedTTL =>
      let w := Aerospike_SetConnectionConfig (opt_Cluster opts)
                 (Some (mkAerospikeConfig (opt_Hosts opts) (opt_ConnTimeout opts) sanitizedTTL)) w in
      let connector := match connector with None => Some dial | Some c => Some c end in
      match Aerospike_Connect NewHosts NewWritePolicy connector (opt_Cluster opts) w with
      | (w, Err e) => (w, Err e)
      | (w, Ok aero) => (w, Ok (mkAerospikeCache aero (opt_Namespace opts) (opt_Collection opts)))
      end
  end.

End aerospike.

Inductive provider : Type :=
  | PAerospike (c : AerospikeCache)
  | PRedis (c : RedisCache)
  | PMemcached (c : MemcachedCache)
  | PFlashDB (c : FlashDBCache (TinyLFU string)).

(** The errors of [validate] and of the connections are texts; those of the in-process
    store are its own. *)
Inductive provider_error : Type := EMessage (s : string) | EFlashDB (e : cache_error).

Section factory.
Context (NewHosts : list string → option string) (NewWritePolicy : Z → Z → WritePolicy) (dial : dialer).

Definition GetProvider (opts : option CacheOptions) (w : cache_world)
  : outcome (cache_world * result provider_error provider) :=
  e ← validate opts;
  match e, opts with
  | Some e, _ => Ret (w, Err (EMessage e))
  | None, None => Panic nil_dereference
  | None, Some opts =>
      if decide (opt_Provider opts = ProviderAerospike) then
        let r := NewAerospikeCache NewHosts NewWritePolicy dial opts (Some dial) (cw_aerospike w) in
        Ret ({| cw_redis := cw_redis w; cw_memcached := cw_memcached w; cw_aerospike := r.1 |},
             match r.2 with Ok c => Ok (PAerospike c) | Err e => Err (EMessage e) end)
      else if decide (opt_Provider opts = ProviderRedis) then
        r ← NewRedisCache opts RedisConnector (cw_redis w);
        Ret ({| cw_redis := r.1; cw_memcached := cw_memcached w; cw_aerospike := cw_aerospike w |},
             match r.2 with Ok c => Ok (PRedis c) | Err e => Err (EMessage e) end)
      else if decide (opt_Provider opts = ProviderMemcached) then
        let r := NewMemcachedCache opts MemcachedConnector (cw_memcached w) in
        Ret ({| cw_redis := cw_redis w; cw_memcached := r.1; cw_aerospike := cw_aerospike w |},
             match r.2 with Ok c => Ok (PMemcached c) | Err e => Err (EMessage e) end)
      else if decide (opt_Provider opts = ProviderFlashDB) then
        r ← NewFlashDBCache (opt_DefaultTTL opts);
        Ret (w, match r with Ok c => Ok (PFlashDB c) | Err e => Err (EFlashDB e) end)
      else Ret (w, Err (EMessage ("unsupported cache provider: " +:+ opt_Provider opts)))
  end.

(** ** The constructors *)

(** What a connection to a Redis cluster is opened with. *)
Definition redis_options (opts : CacheOptions) (host : string) : RedisConnectionConfig :=
  {| Address := host; Username := opt_Username opts; Password := opt_Password opts; Database := 0; PoolSize := 0 |}.

Lemma NewRedisCache_connects opts host hosts w :
  opt_Hosts opts = host :: hosts →
  ∃ w' conn,
    NewRedisCache opts RedisConnector w =
      Ret (w', Ok (mkRedisCache conn (opt_Cluster opts) (opt_Namespace opts) (opt_Collection opts))) ∧
    instances w' !! opt_Cluster opts = Some conn ∧
    match instances w !! opt_Cluster opts with
    | Some i => conn = i ∧ connections w' = connections w
    | None => connections w' = connections w ++ [{| conn_options := redis_options opts host; conn_closed := false |}] ∧
              conn = length (connections w)
    end.
Proof.
  intros Eh. unfold NewRedisCache. rewrite (slice_get_Ret _ 0 host) by (lia || by rewrite Eh).
  cbn [mbind outcome_bind]. unfold Redis_Connect, Redis_ConnectContext, Redis_SetConnectionConfig.
  cbn [checkedCacheContext instances connectionConfigMap connections].
  destruct (instances w !! opt_Cluster opts) as [i|] eqn:Ei.
  - cbn [mbind outcome_bind]. eexists _, _. split; [reflexivity|]. auto.
  - rewrite lookup_insert_eq. cbn [Redis_cloneConnectionConfig Redis_newInstance RedisConnector mbind outcome_bind].
    eexists _, _. split; [reflexivity|]. cbn [instances connections]. by rewrite lookup_insert_eq.
Qed.

Lemma NewMemcachedCache_connects opts w :
  ∃ w' conn,
    NewMemcachedCache opts MemcachedConnector w =
      (w', Ok (mkMemcachedCache conn (opt_Cluster opts) (opt_Namespace opts) (opt_Collection opts))) ∧
    m_instances w' !! opt_Cluster opts = Some conn ∧
    match m_instances w !! opt_Cluster opts with
    | Some i => conn = i ∧ m_connections w' = m_connections w
    | None => mconn_addresses <$> m_connections w' !! conn = Some (opt_Hosts opts)
    end.
Proof.
  unfold NewMemcachedCache, MemcachedConnector, Memcached_Connect, Memcached_SetConnectionConfig.
  cbn [m_instances m_configs m_connections]. destruct (m_instances w !! opt_Cluster opts) as [i|] eqn:Ei.
  - eexists _, _. split; [reflexivity|]. by cbn [m_instances m_connections].
  - rewrite lookup_insert_eq. cbn [Memcached_cloneConnectionConfig Memcached_newInstance].
    eexists _, _. split; [reflexivity|]. cbn [m_instances m_connections].
    rewrite lookup_insert_eq, lookup_app_r, Nat.sub_diag by done. done.
Qed.

Lemma NewFlashDBCache_Ok ttl : ∃ c, NewFlashDBCache ttl = Ret (Ok c) ∧ defaultTTL c = secondsToDuration ttl.
Proof.
  unfold NewFlashDBCache, New. cbn [flashdb_options with_defaults Shards MaxStorageSize LFUDepth LFUWidth LFUAgingEvery].
  assert (match NewTinyLFU 4 (2 ^ 16) 200000 (Some Hash64String) with Ret (Ok _) => true | _ => false end = true)
    as Hl by (vm_compute; reflexivity).
  change (LFUDepth _) with 4. change (LFUWidth _) with (2 ^ 16)%Z. change (LFUAgingEvery _) with 200000.
  destruct (NewTinyLFU 4 (2 ^ 16) 200000 (Some Hash64String)) as [[l|]|]; [|done..].
  cbn [mbind outcome_bind]. change (MaxStorageSize _ =? 0) with false. cbn [mbind outcome_bind].
  rewrite make_shards_eq. cbn [mbind outcome_bind]. eexists. by split.
Qed.

Lemma NewAerospikeCache_cases opts w :
  let r := NewAerospikeCache NewHosts NewWritePolicy dial opts (Some dial) w in
  let answer := match r.2 with Ok c => Ok (PAerospike c) | Err e => Err (EMessage e) end in
  match connected (opt_Cluster opts) w with
  | Some i => opt_DefaultTTL opts <= NeverExpire →
              answer = Ok (PAerospike (mkAerospikeCache i (opt_Namespace opts) (opt_Collection opts)))
  | None => (length (opt_Hosts opts) < MinRequiredSeedNode)%nat → ∃ e, answer = Err (EMessage e)
  end.
Proof.
  unfold NewAerospikeCache, aerospikeTTL, Aerospike_Connect, NeverExpire.
  destruct (connected (opt_Cluster opts) w) as [i|] eqn:Ec.
  - intros Ht. destruct (Z.ltb_spec (opt_DefaultTTL opts) 0);
      [|destruct (Z.ltb_spec (2 ^ 32 - 1) (opt_DefaultTTL opts)); [lia|]]; cbn zeta iota;
      match goal with |- context [connected ?c (Aerospike_SetConnectionConfig ?c ?x w)] =>
        change (connected c (Aerospike_SetConnectionConfig c x w)) with (connected c w) end; by rewrite Ec.
  - intros Hl. apply Nat.ltb_lt in Hl.
    destruct (Z.ltb_spec (opt_DefaultTTL opts) 0);
      [|destruct (Z.ltb_spec (2 ^ 32 - 1) (opt_DefaultTTL opts)); [by eauto|]]; cbn zeta iota;
      match goal with |- context [connected ?c (Aerospike_SetConnectionConfig ?c ?x w)] =>
        change (connected c (Aerospike_SetConnectionConfig c x w)) with (connected c w) end;
      rewrite Ec; cbn [a_configs Aerospike_SetConnectionConfig]; rewrite lookup_insert_eq;
      cbn [Aerospike_cloneConnectionConfig newInstanceWithConfig Hosts app]; rewrite Hl; by eauto.
Qed.

(** With options that are not nil, [GetProvider] always returns. Options with a missing
    field and unknown providers are refused without touching any connection; otherwise the
    adapter of the named provider comes back. A Redis or Memcached adapter uses the
    connection registered for its cluster: when there is one already, the hosts and the
    credentials of the options play no part, otherwise a connection is opened with them
    and registered. An Aerospike adapter uses the registered connection if that is up, and
    is refused if it would need a new one with fewer than two hosts. *)
Theorem GetProvider_spec opts w :
  ∃ w' r, GetProvider (Some opts) w = Ret (w', r) ∧
  match validate (Some opts) with
  | Ret (Some e) => w' = w ∧ r = Err (EMessage e)
  | Ret None =>
      opt_Hosts opts ≠ [] ∧
      (opt_Provider opts = ProviderAerospike →
         cw_redis w' = cw_redis w ∧ cw_memcached w' = cw_memcached w ∧
         match connected (opt_Cluster opts) (cw_aerospike w) with
         | Some i => opt_DefaultTTL opts <= NeverExpire →
                     r = Ok (PAerospike (mkAerospikeCache i (opt_Namespace opts) (opt_Collection opts)))
         | None => (length (opt_Hosts opts) < MinRequiredSeedNode)%nat → ∃ e, r = Err (EMessage e)
         end) ∧
      (opt_Provider opts = ProviderRedis →
         ∃ conn, r = Ok (PRedis (mkRedisCache conn (opt_Cluster opts) (opt_Namespace opts) (opt_Collection opts))) ∧
         instances (cw_redis w') !! opt_Cluster opts = Some conn ∧ cw_memcached w' = cw_memcached w ∧
         match instances (cw_redis w) !! opt_Cluster opts with
         | Some i => conn = i ∧ connections (cw_redis w') = connections (cw_redis w)
         | None => conn_options <$> connections (cw_redis w') !! conn =
                   redis_options opts <$> head (opt_Hosts opts)
         end) ∧
      (opt_Provider opts = ProviderMemcached →
         ∃ conn, r = Ok (PMemcached (mkMemcachedCache conn (opt_Cluster opts) (opt_Namespace opts) (opt_Collection opts))) ∧
         m_instances (cw_memcached w') !! opt_Cluster opts = Some conn ∧ cw_redis w' = cw_redis w ∧
         match m_instances (cw_memcached w) !! opt_Cluster opts with
         | Some i => conn = i ∧ m_connections (cw_memcached w') = m_connections (cw_memcached w)
         | None => mconn_addresses <$> m_connections (cw_memcached w') !! conn = Some (opt_Hosts opts)
         end) ∧
      (opt_Provider opts = ProviderFlashDB →
         w' = w ∧ ∃ c, r = Ok (PFlashDB c) ∧ defaultTTL c = secondsToDuration (opt_DefaultTTL opts)) ∧
      (opt_Provider opts ∉ [ProviderAerospike; ProviderRedis; ProviderMemcached; ProviderFlashDB] →
         w' = w ∧ r = Err (EMessage ("unsupported cache provider: " +:+ opt_Provider opts)))
  | Panic _ => False
  end.
Proof.
  unfold GetProvider. destruct (validate (Some opts)) as [[e|]|] eqn:Ev;
    [by eexists _, _|cbn [mbind outcome_bind]|by unfold validate in Ev].
  assert (∃ host hosts, opt_Hosts opts = host :: hosts) as (host & hosts & Eh).
  { unfold validate in Ev. destruct (opt_Hosts opts) as [|host hosts]; [|by eauto].
    cbn in Ev. repeat case_match; done. }
  case_decide as Ea; [|case_decide as Er; [|case_decide as Em; [|case_decide as Ef]]].
  - eexists _, _. split; [reflexivity|]. rewrite Ea. split; [by rewrite Eh|].
    split; [|repeat split; set_solver]. intros _. split; [done|]. split; [done|]. apply NewAerospikeCache_cases.
  - destruct (NewRedisCache_connects opts host hosts (cw_redis w) Eh) as (w' & conn & -> & Ei & Hc).
    cbn [mbind outcome_bind fst snd]. eexists _, _. split; [reflexivity|]. rewrite Er, Eh.
    split; [done|]. split; [done|]. split; [intros _|repeat split; set_solver]. exists conn. repeat split; [done..|].
    cbn [cw_redis]. destruct (instances (cw_redis w) !! _); [done|]. destruct Hc as [-> ->].
    by rewrite lookup_app_r, Nat.sub_diag.
  - destruct (NewMemcachedCache_connects opts (cw_memcached w)) as (w' & conn & -> & Ei & Hc).
    eexists _, _. split; [reflexivity|]. rewrite Em, Eh. split; [done|]. split; [done|]. split; [done|].
    split; [intros _|repeat split; set_solver]. exists conn. rewrite <- Eh. repeat split; done.
  - destruct (NewFlashDBCache_Ok (opt_DefaultTTL opts)) as (c & -> & Hd).
    cbn [mbind outcome_bind]. eexists _, _. split; [reflexivity|]. rewrite Ef, Eh.
    split; [done|]. split; [done|]. split; [done|]. split; [done|]. split; [by eauto|set_solver].
  - eexists _, _. split; [reflexivity|]. rewrite Eh. repeat split; done.
Qed.

End factory.

(** The default TTL of an Aerospike cache is looked up in the wrong place. It is recorded under
    the name of the cluster, but the write policies look it up under the namespace of the
    request: unless a cluster is registered under the name of the namespace, writes without
    a TTL of their own expire after half an hour, whatever [DefaultTTL] says. *)
Theorem cluster_default_ttl_ignored {db} `{AerospikeServer db} NewHosts NewWritePolicy dial opts w w' c e ttl :
  NewAerospikeCache NewHosts NewWritePolicy dial opts (Some dial) w = (w', Ok c) →
  opt_Namespace opts ≠ opt_Cluster opts → a_configs w !! opt_Namespace opts = None →
  0 < opt_DefaultTTL opts → ttl < 0 →
  wp_Expiration (aerospikeWritePolicyForContext e (opt_Namespace opts) ttl w') = DefaultRecordTTL ∧
  wp_Expiration (aerospikeWritePolicyForContext e (opt_Cluster opts) ttl w') = opt_DefaultTTL opts.
Proof.
  intros Hn Hne Hns Hd Ht. unfold NewAerospikeCache, aerospikeTTL in Hn.
  destruct (Z.ltb_spec (opt_DefaultTTL opts) 0); [lia|].
  destruct (Z.ltb_spec (2 ^ 32 - 1) (opt_DefaultTTL opts)) as [|Hm]; [done|]. cbn zeta in Hn.
  set (w0 := Aerospike_SetConnectionConfig _ _ w) in Hn.
  assert (a_configs w' = a_configs w0) as Ew.
  { destruct (aconnect_cases NewHosts NewWritePolicy (Some dial) (opt_Cluster opts) w0)
      as [[err E]|[(i & _ & E)|(x & _ & _ & _ & _ & E)]]; rewrite E in Hn; by simplify_eq/=. }
  assert (u32 (opt_DefaultTTL opts) = opt_DefaultTTL opts) as Eu by (unfold u32, wrap; apply Z.mod_small; lia).
  split; (rewrite (proj1 (write_policy_expiration e _ ttl w' ltac:(unfold NeverExpire; lia))); unfold set_expiration;
    rewrite Ew; destruct (Z.leb_spec 0 ttl); [lia|]; unfold w0; cbn [a_configs Aerospike_SetConnectionConfig]).
  - rewrite lookup_insert_ne by done. by rewrite Hns.
  - rewrite lookup_insert_eq. cbn [Aerospike_cloneConnectionConfig DefaultTTL]. rewrite Eu.
    by destruct (Z.ltb_spec 0 (opt_DefaultTTL opts)); [|lia].
Qed.

(** ** Witnesses *)

Module FactoryDemo.
Definition opts : CacheOptions :=
  {| opt_Provider := "aerospike"; opt_Cluster := "main"; opt_Hosts := ["as1:3000"; "as2:3000"]; opt_ConnTimeout := 5;
     opt_DefaultTTL := 60; opt_Namespace := "shop"; opt_Collection := "cart"; opt_Username := ""; opt_Password := "" |}.
Definition dial : dialer := λ _ _, None.
End FactoryDemo.

Lemma cluster_default_ttl_ignored_witness :
  ∃ w' c, NewAerospikeCache (λ _, None) (as_NewWritePolicy (db := mapaero)) FactoryDemo.dial FactoryDemo.opts
            (Some FactoryDemo.dial) no_aconnections = (w', Ok c) ∧
    wp_Expiration (aerospikeWritePolicyForContext (db := mapaero) (mkCall Delivered 0 None) "shop" (-1) w') = 1800.
Proof.
  eexists _, _. split; [vm_compute; reflexivity|].
  refine (proj1 (cluster_default_ttl_ignored (db := mapaero) (λ _, None) (as_NewWritePolicy (db := mapaero))
    FactoryDemo.dial FactoryDemo.opts no_aconnections _ _ (mkCall Delivered 0 None) (-1) _ _ _ _ _));
    [vm_compute; reflexivity|done|done|done|done].
Defined.
