(* ===== verification/RedisLock.v ===== *)
(** * The distributed lock ([src/coordination/concurrency/lock])

    [RedisLocker] over the Redis interface: the three Lua scripts, the handlers [Lock],
    [Unlock], [Extend] and [FencingToken], and the factory. A call to the server is
    delivered, or lost on the way there or back. [system] runs any number of lockers, at
    the grain of single server calls and single accesses to a locker's local map, in any
    order, together with the passing of time and the activity of other Redis clients. *)

From Stdlib Require Import ZArith Lia.
From stdpp Require Import base numbers strings gmap list pretty.
From S2P Require Import Prelude Redis.
Local Open Scope Z_scope.

Definition Millisecond : Z := 10 ^ 6.
Definition Second : Z := 10 ^ 9.
Definition defaultLockRetryTimeout_var : Z := 10 * Second.
Definition defaultLockRetryInterval : Z := 100 * Millisecond.

(** [errors.go], the messages of [redis_locker.go], and errors of the client. *)
Inductive lock_error : Type :=
  | ErrLockNotAcquired
  | ErrLockNotHeld
  | ErrMessage (msg : string)
  | ErrRedis (e : rerr)
  | ErrAcquisition (key : string) (e : lock_error).

Record redisLockState : Type := { value : string; token : Z }.

(** The values of the [sync.Map] have type [any]. *)
Inductive stored : Type :=
  | StoredState (st : redisLockState)
  | StoredString (s : string)
  | StoredOther.

Record RedisLocker : Type := {
  defaultLockRetryTimeout : Z;
  lockStore : gmap string stored;
}.

Definition with_lockStore (l : RedisLocker) (s : gmap string stored) : RedisLocker :=
  {| defaultLockRetryTimeout := defaultLockRetryTimeout l; lockStore := s |}.

Definition lockStore_Store (l : RedisLocker) (key : string) (st : redisLockState) : RedisLocker :=
  with_lockStore l (<[key := StoredState st]> (lockStore l)).

Definition lockStore_Delete (l : RedisLocker) (key : string) : RedisLocker :=
  with_lockStore l (delete key (lockStore l)).

(** ** Helpers *)

Definition redisLockStateFromValue (v : stored) : redisLockState * bool :=
  match v with
  | StoredState typed => (typed, bool_decide (value typed ≠ ""))
  | StoredString typed => ({| value := typed; token := 0 |}, bool_decide (typed ≠ ""))
  | StoredOther => ({| value := ""; token := 0 |}, false)
  end.

Definition lockState (l : RedisLocker) (key : string) : redisLockState * bool :=
  match lockStore l !! key with
  | None => ({| value := ""; token := 0 |}, false)
  | Some valueRaw => redisLockStateFromValue valueRaw
  end.

Definition FencingToken (l : RedisLocker) (key : string) : Z * bool :=
  let '(state, ok) := lockState l key in
  if negb ok || (token state =? 0) then (0, false) else (token state, true).

(** [strconv.ParseUint(s, 10, 64)] on digit strings. *)
Definition ParseUint (s : string) : result lock_error Z :=
  match digits_value 0 s with
  | Some n =>
      if decide (s = "") then Err (ErrMessage "invalid syntax")
      else if n <? 2 ^ 64 then Ok n else Err (ErrMessage "value out of range")
  | None => Err (ErrMessage "invalid syntax")
  end.

Definition positiveUint64 (v : greply) : result lock_error Z :=
  match v with
  | GInt64 typed =>
      if typed <? 0 then Err (ErrMessage "unexpected negative fencing token")
      else ParseUint (pretty typed)
  | GUint64 typed => Ok typed
  | GInt typed =>
      if typed <? 0 then Err (ErrMessage "unexpected negative fencing token")
      else ParseUint (pretty typed)
  | _ => Err (ErrMessage "unexpected result type from Eval")
  end.

Definition durationMilliseconds (duration : Z) : Z :=
  let millis := Z.quot duration Millisecond in
  if Z.rem duration Millisecond =? 0 then millis else millis + 1.

Definition lockValue (token : Z) (owner : string) : string :=
  pretty token +:+ ":" +:+ owner.

Definition fencingCounterKey (key : string) : string := key +:+ ":fence".

Section locker.
Context {db : Type} `{RedisServer db}.
Implicit Types (d : db).

(** ** The scripts *)

Definition acquire_script (now : Z) (key fence : string) (expiryMillis : Z) (owner : string)
    (d : db) : db * result rerr lua :=
  if EXISTS now key d =? 1 then (d, Ok (LInt 0))
  else
    match INCR now fence d with
    | (d, Err e) => (d, Err e)
    | (d, Ok token) =>
        match PSETEX now key expiryMillis (lua_tostring token +:+ ":" +:+ owner) d with
        | (d, Err e) => (d, Err e)
        | (d, Ok _) => (d, Ok (LInt token))
        end
    end.

(** [redis.call("GET", KEYS[1]) == ARGV[1]]: an absent key reads as [false], which equals
    no string. *)
Definition unlock_script (now : Z) (key v : string) (d : db) : db * result rerr lua :=
  match GET now key d with
  | Err e => (d, Err e)
  | Ok cur =>
      if decide (cur = Some v) then let '(d, n) := DEL now key d in (d, Ok (LInt n))
      else (d, Ok (LInt 0))
  end.

Definition extend_script (now : Z) (key v : string) (millis : Z) (d : db)
  : db * result rerr lua :=
  match GET now key d with
  | Err e => (d, Err e)
  | Ok cur =>
      if decide (cur = Some v) then
        let '(d, n) := PEXPIRE now key millis d in (d, Ok (LInt n))
      else (d, Ok (LInt 0))
  end.

Definition Eval (f : fate) (script : db → db * result rerr lua) (d : db)
  : db * result rerr greply :=
  match f with
  | Delivered => let '(d, r) := script d in (d, r ≫= lua_reply)
  | RequestLost why => (d, Err (ENetwork why))
  | ReplyLost why => ((script d).1, Err (ENetwork why))
  end.

(** ** Lock *)

Definition tryAcquire (f : fate) (now : Z) (key owner : string) (expiryMillis : Z) (d : db)
  : db * result lock_error Z :=
  let '(d, res) :=
    Eval f (acquire_script now key (fencingCounterKey key) expiryMillis owner) d in
  match res with
  | Err e => (d, Err (ErrRedis e))
  | Ok r => (d, positiveUint64 r)
  end.

(** One round of the loop: what other clients did to the database since the last round,
    the server's clock and the fate of the request, the client's clock at the [select],
    whether the context was cancelled by then, and which case the [select] takes when
    the deadline and the timer fall together. *)
Record round : Type := {
  rd_others : db → db;
  rd_server : Z;
  rd_fate : fate;
  rd_client : Z;
  rd_cancelled : bool;
  rd_tie : bool;
}.

(** [select] between [ctx.Done()] and the timer. *)
Definition select_done (deadline retryInterval : Z) (r : round) : bool :=
  rd_cancelled r ||
  match Z.compare deadline (rd_client r + retryInterval) with
  | Lt => true
  | Eq => rd_tie r
  | Gt => false
  end.

Fixpoint Lock_loop (l : RedisLocker) (key owner : string)
    (expiryMillis retryInterval deadline : Z) (rounds : list round) (d : db)
  : option (RedisLocker * db * result lock_error Z) :=
  match rounds with
  | [] => None
  | r :: rounds =>
      let '(d, res) := tryAcquire (rd_fate r) (rd_server r) key owner expiryMillis (rd_others r d) in
      match res with
      | Err e => Some (l, d, Err (ErrAcquisition key e))
      | Ok tok =>
          if 0 <? tok then
            Some (lockStore_Store l key {| value := lockValue tok owner; token := tok |}, d, Ok tok)
          else if select_done deadline retryInterval r then Some (l, d, Err ErrLockNotAcquired)
          else Lock_loop l key owner expiryMillis retryInterval deadline rounds d
      end
  end.

(** [ctx.Deadline()], or the default timeout from the moment of the call. *)
Definition lock_deadline (l : RedisLocker) (ctx_deadline : option Z) (called : Z) : Z :=
  match ctx_deadline with
  | Some t => t
  | None =>
      called + (if defaultLockRetryTimeout l <=? 0 then defaultLockRetryTimeout_var
                else defaultLockRetryTimeout l)
  end.

Definition lock_interval (retryInterval : Z) : Z :=
  if retryInterval <=? 0 then defaultLockRetryInterval else retryInterval.

(** [owner] is the result of [uuid.NewString]. The result is [None] only when the list of
    rounds ends before the loop does. *)
Definition Lock (l : RedisLocker) (ctx_deadline : option Z) (called : Z) (key owner : string)
    (expiry retryInterval : Z) (rounds : list round) (d : db)
  : option (RedisLocker * db * result lock_error Z) :=
  if expiry <=? 0 then Some (l, d, Err (ErrMessage "lock expiry must be positive"))
  else
    Lock_loop l key owner (durationMilliseconds expiry) (lock_interval retryInterval)
      (lock_deadline l ctx_deadline called) rounds d.

(** ** Unlock and Extend *)

(** The part up to the answer of the server; [local] says whether the entry of the local
    map is then deleted. *)
Definition unlock_eval (f : fate) (now : Z) (l : RedisLocker) (key : string) (d : db)
  : db * (bool * result lock_error unit) :=
  match lockStore l !! key with
  | None => (d, (false, Err ErrLockNotHeld))
  | Some valueRaw =>
      let '(state, ok) := redisLockStateFromValue valueRaw in
      if negb ok then (d, (false, Err ErrLockNotHeld))
      else
        let '(d, res) := Eval f (unlock_script now key (value state)) d in
        match res with
        | Err e => (d, (false, Err (ErrRedis e)))
        | Ok (GInt64 intRes) =>
            if intRes =? 0 then (d, (true, Err ErrLockNotHeld)) else (d, (true, Ok ()))
        | Ok _ => (d, (false, Err (ErrMessage "unexpected result type from Eval")))
        end
  end.

Definition Unlock (f : fate) (now : Z) (l : RedisLocker) (key : string) (d : db)
  : RedisLocker * db * result lock_error unit :=
  let '(d, (local, r)) := unlock_eval f now l key d in
  (if local then lockStore_Delete l key else l, d, r).

Definition extend_eval (f : fate) (now : Z) (l : RedisLocker) (key : string) (extension : Z)
    (d : db) : db * (bool * result lock_error unit) :=
  if extension <=? 0 then (d, (false, Err (ErrMessage "lock extension must be positive")))
  else
    match lockStore l !! key with
    | None => (d, (false, Err ErrLockNotHeld))
    | Some valueRaw =>
        let '(state, ok) := redisLockStateFromValue valueRaw in
        if negb ok then (d, (false, Err ErrLockNotHeld))
        else
          let millis := durationMilliseconds extension in
          let '(d, res) := Eval f (extend_script now key (value state) millis) d in
          match res with
          | Err e => (d, (false, Err (ErrRedis e)))
          | Ok (GInt64 intRes) =>
              if intRes =? 0 then (d, (true, Err ErrLockNotHeld)) else (d, (false, Ok ()))
          | Ok _ => (d, (false, Err (ErrMessage "unexpected result type from Eval")))
          end
    end.

Definition Extend (f : fate) (now : Z) (l : RedisLocker) (key : string) (extension : Z) (d : db)
  : RedisLocker * db * result lock_error unit :=
  let '(d, (local, r)) := extend_eval f now l key extension d in
  (if local then lockStore_Delete l key else l, d, r).

End locker.

(** ** The factory *)

(** [opts.StorageClient.(redis.RedisInterface)]: [is_redis] is the outcome of the type
    assertion. *)
Record LockOptions : Type := {
  LockerProvider : string;
  StorageClient_is_redis : bool;
  DefaultLockRetryTimeout : Z;
}.

Definition RedisLockProvider : string := "redis".

Definition GetDistributedLocker (opts : option LockOptions) : result lock_error RedisLocker :=
  match opts with
  | None => Err (ErrMessage "options cannot be nil")
  | Some opts =>
      let timeout := if DefaultLockRetryTimeout opts =? 0 then defaultLockRetryTimeout_var
                     else DefaultLockRetryTimeout opts in
      if decide (LockerProvider opts = RedisLockProvider) then
        if StorageClient_is_redis opts then
          Ok {| defaultLockRetryTimeout := timeout; lockStore := ∅ |}
        else Err (ErrMessage "invalid storage client type for Redis locker")
      else Err (ErrMessage ("unsupported locker provider: " +:+ LockerProvider opts))
  end.
