(* ===== verification/RedisLockProps.v ===== *)
(** * Properties of the distributed lock

    The effect of each script under the laws of the server; the system of lockers with its
    invariant by rule induction; mutual exclusion and fencing; termination and liveness of
    [Lock]; the situations in which the protocol is weaker than its documentation. *)

From Stdlib Require Import ZArith Lia.
From stdpp Require Import base numbers strings gmap list pretty functions.
From S2P Require Import Prelude Redis RedisLock.
Local Open Scope Z_scope.

(** ** Durations *)

Lemma durationMilliseconds_ceil d :
  0 < d → d <= durationMilliseconds d * Millisecond < d + Millisecond.
Proof.
  intros Hd. unfold durationMilliseconds, Millisecond.
  rewrite Z.quot_div_nonneg, Z.rem_mod_nonneg by lia.
  pose proof (Z.div_mod d (10 ^ 6) ltac:(lia)). pose proof (Z.mod_pos_bound d (10 ^ 6) ltac:(lia)).
  destruct (Z.eqb_spec (d mod 10 ^ 6) 0); lia.
Qed.

(** The clock of the server, in milliseconds, is far from overflowing. *)
Definition clock_ok (now : Z) : Prop := 0 <= now < 2 ^ 62.

Lemma lease_expiry_valid now d :
  clock_ok now → 0 < d → is_i64 d → int_expiry now (durationMilliseconds d) = true.
Proof.
  intros Hn Hd Hi. pose proof (durationMilliseconds_ceil d Hd) as Hc.
  unfold clock_ok, is_i64, int_expiry, Millisecond in *.
  apply andb_true_intro. split; apply Z.ltb_lt; lia.
Qed.

(** ** Lock values determine their token *)

Fixpoint has_char (c : Ascii.ascii) (s : string) : Prop :=
  match s with EmptyString => False | String a s => a = c ∨ has_char c s end.

Definition colon : Ascii.ascii := Ascii.ascii_of_nat 58.

Lemma split_at_char c a b x y :
  ¬ has_char c a → ¬ has_char c b → a +:+ String c x = b +:+ String c y → a = b ∧ x = y.
Proof.
  revert b. induction a as [|h a IH]; intros [|h' b] Ha Hb E; simpl in *; simplify_eq.
  - done.
  - tauto.
  - tauto.
  - destruct (IH b) as [-> ->]; tauto.
Qed.

Lemma pretty_N_char_not_colon n : pretty_N_char (n `mod` 10)%N ≠ colon.
Proof.
  intros E. assert (n `mod` 10 < 10)%N as Hm by (apply N.mod_lt; lia).
  pose proof (pretty_N_char_value _ Hm) as Hv. rewrite E in Hv.
  assert (Z.of_nat (Ascii.nat_of_ascii colon) = 58) as Hc by reflexivity.
  rewrite Hc in Hv. generalize dependent (n `mod` 10)%N. intros. lia.
Qed.

Lemma pretty_no_colon n : 0 <= n → ¬ has_char colon (pretty n).
Proof.
  assert (∀ n s, ¬ has_char colon s → ¬ has_char colon (pretty_N_go n s)) as Hgo.
  { clear. intros n. induction (N.lt_wf_0 n) as [n _ IH]; intros s Hs.
    destruct (decide (n = 0)%N) as [->|Hn]; [by rewrite pretty_N_go_0|].
    rewrite pretty_N_go_step by lia. apply IH; [apply N.div_lt; lia|].
    intros [E|E]; [by apply pretty_N_char_not_colon in E|done]. }
  destruct n as [|p|p]; intros Hn; [|apply (Hgo (Npos p) ""); simpl; tauto|lia].
  simpl. intros [E|E]; done.
Qed.

Lemma lockValue_inj t t' o o' :
  0 <= t → 0 <= t' → lockValue t o = lockValue t' o' → t = t' ∧ o = o'.
Proof.
  intros Ht Ht' E. unfold lockValue in E.
  apply (split_at_char colon) in E as [E ->]; [|by apply pretty_no_colon..].
  split; [by apply (inj pretty)|done].
Qed.

Lemma lockValue_nonempty t o : lockValue t o ≠ "".
Proof. unfold lockValue. by destruct (pretty t). Qed.

Lemma ParseUint_pretty n : is_u64 n → ParseUint (pretty n) = Ok n.
Proof.
  intros Hn. unfold ParseUint, is_u64 in *. destruct n as [|p|p]; [done| |lia].
  assert (digits_value 0 (pretty (Zpos p)) = Some (Zpos p)) as ->.
  { change (pretty (Zpos p)) with (pretty_N_go (Npos p) ""). by rewrite digits_value_go. }
  rewrite decide_False.
  - destruct (Z.ltb_spec (Zpos p) (2 ^ 64)); [done|lia].
  - destruct (pretty_N_head p) as (a & r & E & _).
    change (pretty (Zpos p)) with (pretty (Npos p)). by rewrite E.
Qed.

Lemma string_app_inj_r s t u : s +:+ u = t +:+ u → s = t.
Proof.
  revert t. induction s as [|a s IH]; intros [|b t] E; [done|..].
  1, 2: apply (f_equal String.length) in E; rewrite !string_length_app in E; simpl in E; lia.
  change (String a (s +:+ u) = String b (t +:+ u)) in E. simplify_eq. by rewrite (IH t).
Qed.

Lemma fence_ne k : fencingCounterKey k ≠ k.
Proof.
  unfold fencingCounterKey. intros E. apply (f_equal String.length) in E.
  rewrite string_length_app in E. simpl in E. lia.
Qed.

Lemma fence_inj k k' : fencingCounterKey k = fencingCounterKey k' → k = k'.
Proof. apply string_app_inj_r. Qed.

(** ** The scripts under the laws *)

Section scripts.
Context {db : Type} `{RedisLaws db}.
Implicit Types (d : db) (k v owner : string).

(** The fencing counter of a key, as the number of tokens it has issued. *)
Definition counter_is (d : db) (fence : string) (n : Z) : Prop :=
  r_entry d fence = if decide (n = 0) then None else Some (RString (pretty n), None).

Lemma acquire_held d now k fence ms owner (v : rvalue) :
  live d now k = Some v → acquire_script now k fence ms owner d = (d, Ok (LInt 0)).
Proof. intros E. unfold acquire_script. by rewrite EXISTS_law, E. Qed.

Lemma INCR_counter d now fence n :
  counter_is d fence n → 0 <= n → lua_printable (n + 1) →
  ∃ d', INCR now fence d = (d', Ok (n + 1)) ∧ counter_is d' fence (n + 1) ∧ only_key fence d d'.
Proof.
  intros Hc Hn Hp. unfold counter_is, lua_printable in *. exists (INCR now fence d).1.
  rewrite (decide_False (P := n + 1 = 0)) by lia.
  destruct (decide (n = 0)) as [->|Hne].
  - destruct (INCR_absent now fence d) as [E1 E2]; [unfold live; by rewrite Hc|].
    destruct (INCR now fence d) as [d' r] eqn:E. simpl in *. subst r.
    split_and!; [done|done|]. pose proof (INCR_only now fence d) as Ho. by rewrite E in Ho.
  - destruct (INCR_number now fence d n None) as [E1 E2].
    { unfold live_entry. by rewrite Hc. } { unfold is_i64. lia. } { unfold maxInt64. lia. }
    destruct (INCR now fence d) as [d' r] eqn:E. simpl in *. subst r.
    split_and!; [done|done|]. pose proof (INCR_only now fence d) as Ho. by rewrite E in Ho.
Qed.

Lemma acquire_free d now k fence ms owner n :
  live d now k = None → fence ≠ k → counter_is d fence n → 0 <= n → lua_printable (n + 1) →
  int_expiry now ms = true →
  ∃ d', acquire_script now k fence ms owner d = (d', Ok (LInt (n + 1))) ∧
    r_entry d' k = Some (RString (lockValue (n + 1) owner), Some (now + ms)) ∧
    counter_is d' fence (n + 1) ∧
    (∀ k', k' ≠ k → k' ≠ fence → r_entry d' k' = r_entry d k').
Proof.
  intros Hl Hne Hc Hn Hp Hms. unfold acquire_script. rewrite EXISTS_law, Hl. simpl.
  destruct (INCR_counter d now fence n) as (d1 & -> & Hc1 & Ho1); [done..|].
  rewrite lua_tostring_law by done. fold (lockValue (n + 1) owner).
  destruct (PSETEX_law now k ms (lockValue (n + 1) owner) d1 Hms) as [E1 E2].
  pose proof (PSETEX_only now k ms (lockValue (n + 1) owner) d1) as Ho2.
  destruct (PSETEX now k ms (lockValue (n + 1) owner) d1) as [d2 r] eqn:E. simpl in *. subst r.
  exists d2. split_and!; [done|done| |].
  - unfold counter_is in *. by rewrite (Ho2 fence).
  - intros k' Hk Hf. by rewrite (Ho2 k'), (Ho1 k').
Qed.

Lemma unlock_other d now k v :
  (∀ h, live d now k ≠ Some (RHash h)) → live d now k ≠ Some (RString v) →
  unlock_script now k v d = (d, Ok (LInt 0)).
Proof.
  intros Hh Hv. unfold unlock_script. rewrite GET_law.
  destruct (live d now k) as [[s|h]|] eqn:E; [|by destruct (Hh h)|done].
  rewrite decide_False; [done|]. congruence.
Qed.

Lemma unlock_own d now k v :
  live d now k = Some (RString v) →
  ∃ d', unlock_script now k v d = (d', Ok (LInt 1)) ∧ r_entry d' k = None ∧ only_key k d d'.
Proof.
  intros E. unfold unlock_script. rewrite GET_law, E, decide_True by done.
  exists (DEL now k d).1. pose proof (DEL_result now k d) as Hr.
  pose proof (DEL_entry now k d). pose proof (DEL_only now k d). rewrite E in Hr.
  destruct (DEL now k d). simpl in *. by subst.
Qed.

Lemma extend_other d now k v ms :
  (∀ h, live d now k ≠ Some (RHash h)) → live d now k ≠ Some (RString v) →
  extend_script now k v ms d = (d, Ok (LInt 0)).
Proof.
  intros Hh Hv. unfold extend_script. rewrite GET_law.
  destruct (live d now k) as [[s|h]|] eqn:E; [|by destruct (Hh h)|done].
  rewrite decide_False; [done|]. congruence.
Qed.

Lemma extend_own d now k v ms :
  live d now k = Some (RString v) → int_expiry now ms = true →
  ∃ d', extend_script now k v ms d = (d', Ok (LInt 1)) ∧
    r_entry d' k = Some (RString v, Some (now + ms)) ∧ only_key k d d'.
Proof.
  intros E Hms. unfold extend_script. rewrite GET_law, E, decide_True by done.
  exists (PEXPIRE now k ms d).1. destruct (PEXPIRE_live now k ms d _ E Hms) as [Hr He].
  pose proof (PEXPIRE_only now k ms d). destruct (PEXPIRE now k ms d). simpl in *. by subst.
Qed.

Lemma lua_reply_small n : 0 <= n <= 2 ^ 53 → lua_reply (db := db) (LInt n) = Ok (GInt64 n).
Proof. intros. apply lua_reply_int. unfold lua_exact. lia. Qed.

(** A delivered attempt on a free key returns the next token. *)
Lemma tryAcquire_free d now k owner ms n :
  live d now k = None → counter_is d (fencingCounterKey k) n → 0 <= n → lua_printable (n + 1) →
  int_expiry now ms = true →
  ∃ d', tryAcquire Delivered now k owner ms d = (d', Ok (n + 1)) ∧
    r_entry d' k = Some (RString (lockValue (n + 1) owner), Some (now + ms)) ∧
    counter_is d' (fencingCounterKey k) (n + 1).
Proof.
  intros Hl Hc Hn Hp Hms.
  destruct (acquire_free d now k (fencingCounterKey k) ms owner n)
    as (d' & E & He & Hc' & _); [done|by apply fence_ne|done..|].
  exists d'. split_and!; [|done..]. unfold tryAcquire, Eval. rewrite E. cbn [mbind result_bind].
  unfold lua_printable in Hp. rewrite lua_reply_small by lia. cbn [positiveUint64].
  destruct (Z.ltb_spec (n + 1) 0); [lia|]. rewrite ParseUint_pretty; [done|unfold is_u64; lia].
Qed.

Lemma tryAcquire_held d now k owner ms (v : rvalue) :
  live d now k = Some v → tryAcquire Delivered now k owner ms d = (d, Ok 0).
Proof.
  intros E. unfold tryAcquire, Eval. rewrite (acquire_held _ _ _ _ _ _ v) by done.
  cbn [mbind result_bind]. by rewrite lua_reply_small by lia.
Qed.

End scripts.

(** ** The system of lockers *)

(** A grant: the server ran the acquire script to its end for this locker. *)
Record grant : Type := { g_locker : nat; g_key : string; g_token : Z; g_owner : string }.

Definition g_state (g : grant) : redisLockState :=
  {| value := lockValue (g_token g) (g_owner g); token := g_token g |}.

#[export] Instance redisLockState_eq_dec : EqDecision redisLockState.
Proof. solve_decision. Defined.

(** What the server did for the lockers, with the locker, the key and the lock state it
    used, and the deadlines it set. *)
Inductive lock_event : Type :=
  | Granted (g : grant) (now until : Z)
  | Extended (i : nat) (k : string) (st : redisLockState) (until : Z)
  | Released (i : nat) (k : string) (st : redisLockState).

(** The database and its clock, the lockers, the lock states received but not yet put in
    the local map, the local deletions not yet done, the grants, and the history of all
    that the server did, newest first. *)
Record system (db : Type) : Type := {
  sys_db : db;
  sys_now : Z;
  sys_lockers : nat → RedisLocker;
  sys_stores : list (nat * string * redisLockState);
  sys_deletes : list (nat * string);
  sys_grants : list grant;
  sys_history : list lock_event;
}.
Arguments sys_db {db} _.
Arguments sys_now {db} _.
Arguments sys_lockers {db} _.
Arguments sys_stores {db} _.
Arguments sys_deletes {db} _.
Arguments sys_grants {db} _.
Arguments sys_history {db} _.

Section system.
Context {db : Type} `{RedisServer db}.

(** The keys used for locks. *)
Context (lock_key : string → Prop).

(** The token the server issued, whether or not the client gets to see it. *)
Definition issued (f : fate) (now : Z) (k owner : string) (ms : Z) (d : db) : option Z :=
  match f with
  | RequestLost _ => None
  | _ =>
      match (acquire_script now k (fencingCounterKey k) ms owner d).2 with
      | Ok (LInt t) => if 0 <? t then Some t else None
      | _ => None
      end
  end.

(** The state with which the server ran the release, or the renewal, to a success. *)
Definition released (f : fate) (now : Z) (l : RedisLocker) (k : string) (d : db) : option redisLockState :=
  match f, lockState l k with
  | RequestLost _, _ | _, (_, false) => None
  | _, (st, true) =>
      match (unlock_script now k (value st) d).2 with
      | Ok (LInt n) => if n =? 0 then None else Some st
      | _ => None
      end
  end.

Definition extended (f : fate) (now : Z) (l : RedisLocker) (k : string) (extension : Z) (d : db) : option redisLockState :=
  match f, lockState l k with
  | RequestLost _, _ | _, (_, false) => None
  | _, (st, true) =>
      if extension <=? 0 then None
      else match (extend_script now k (value st) (durationMilliseconds extension) d).2 with
      | Ok (LInt n) => if n =? 0 then None else Some st
      | _ => None
      end
  end.

Inductive step : system db → system db → Prop :=
  | step_time s now' :
      sys_now s <= now' → clock_ok now' →
      step s {| sys_db := sys_db s; sys_now := now'; sys_lockers := sys_lockers s;
                sys_stores := sys_stores s; sys_deletes := sys_deletes s;
                sys_grants := sys_grants s; sys_history := sys_history s |}
  | step_foreign s d' :
      (∀ k, lock_key k → r_entry d' k = r_entry (sys_db s) k ∧
         r_entry d' (fencingCounterKey k) = r_entry (sys_db s) (fencingCounterKey k)) →
      step s {| sys_db := d'; sys_now := sys_now s; sys_lockers := sys_lockers s;
                sys_stores := sys_stores s; sys_deletes := sys_deletes s;
                sys_grants := sys_grants s; sys_history := sys_history s |}
  | step_acquire s i k owner expiry f d' res :
      lock_key k → 0 < expiry → is_i64 expiry →
      tryAcquire f (sys_now s) k owner (durationMilliseconds expiry) (sys_db s) = (d', res) →
      step s {| sys_db := d'; sys_now := sys_now s; sys_lockers := sys_lockers s;
                sys_stores :=
                  match res with
                  | Ok tok =>
                      if 0 <? tok then
                        (i, k, {| value := lockValue tok owner; token := tok |}) :: sys_stores s
                      else sys_stores s
                  | Err _ => sys_stores s
                  end;
                sys_deletes := sys_deletes s;
                sys_grants :=
                  match issued f (sys_now s) k owner (durationMilliseconds expiry) (sys_db s) with
                  | Some t => {| g_locker := i; g_key := k; g_token := t; g_owner := owner |}
                              :: sys_grants s
                  | None => sys_grants s
                  end;
                sys_history :=
                  match issued f (sys_now s) k owner (durationMilliseconds expiry) (sys_db s) with
                  | Some t => Granted {| g_locker := i; g_key := k; g_token := t; g_owner := owner |}
                                (sys_now s) (sys_now s + durationMilliseconds expiry) :: sys_history s
                  | None => sys_history s
                  end |}
  | step_store s i k st p1 p2 :
      sys_stores s = p1 ++ (i, k, st) :: p2 →
      step s {| sys_db := sys_db s; sys_now := sys_now s;
                sys_lockers := <[i := lockStore_Store (sys_lockers s i) k st]> (sys_lockers s);
                sys_stores := p1 ++ p2; sys_deletes := sys_deletes s;
                sys_grants := sys_grants s; sys_history := sys_history s |}
  | step_unlock s i k f d' local r :
      lock_key k →
      unlock_eval f (sys_now s) (sys_lockers s i) k (sys_db s) = (d', (local, r)) →
      step s {| sys_db := d'; sys_now := sys_now s; sys_lockers := sys_lockers s;
                sys_stores := sys_stores s;
                sys_deletes := if local : bool then (i, k) :: sys_deletes s else sys_deletes s;
                sys_grants := sys_grants s;
                sys_history :=
                  match released f (sys_now s) (sys_lockers s i) k (sys_db s) with
                  | Some st => Released i k st :: sys_history s
                  | None => sys_history s
                  end |}
  | step_extend s i k extension f d' local r :
      lock_key k → is_i64 extension →
      extend_eval f (sys_now s) (sys_lockers s i) k extension (sys_db s) = (d', (local, r)) →
      step s {| sys_db := d'; sys_now := sys_now s; sys_lockers := sys_lockers s;
                sys_stores := sys_stores s;
                sys_deletes := if local : bool then (i, k) :: sys_deletes s else sys_deletes s;
                sys_grants := sys_grants s;
                sys_history :=
                  match extended f (sys_now s) (sys_lockers s i) k extension (sys_db s) with
                  | Some st => Extended i k st (sys_now s + durationMilliseconds extension) :: sys_history s
                  | None => sys_history s
                  end |}
  | step_delete s i k p1 p2 :
      sys_deletes s = p1 ++ (i, k) :: p2 →
      step s {| sys_db := sys_db s; sys_now := sys_now s;
                sys_lockers := <[i := lockStore_Delete (sys_lockers s i) k]> (sys_lockers s);
                sys_stores := sys_stores s; sys_deletes := p1 ++ p2;
                sys_grants := sys_grants s; sys_history := sys_history s |}.

Definition initial (s : system db) : Prop :=
  clock_ok (sys_now s) ∧
  (∀ k, lock_key k → r_entry (sys_db s) k = None ∧
                      r_entry (sys_db s) (fencingCounterKey k) = None) ∧
  (∀ i, lockStore (sys_lockers s i) = ∅) ∧
  sys_stores s = [] ∧ sys_deletes s = [] ∧ sys_grants s = [] ∧ sys_history s = [].

Inductive lock_reachable : system db → Prop :=
  | reach_initial s : initial s → lock_reachable s
  | reach_step s s' : lock_reachable s → step s s' → lock_reachable s'.

(** Locker [i] holds [k]: the state in its map is the value the server has for the key. *)
Definition holds (s : system db) (i : nat) (k : string) : Prop :=
  ∃ st, lockStore (sys_lockers s i) !! k = Some (StoredState st) ∧
        live (sys_db s) (sys_now s) k = Some (RString (value st)).

End system.

(** ** Grants of a key, newest first, carry the tokens n, n-1, ..., 1 *)

Definition key_grants (k : string) (gs : list grant) : list grant := filter (λ g, g_key g = k) gs.

Fixpoint numbered (gs : list grant) : Prop :=
  match gs with
  | [] => True
  | g :: gs => g_token g = Z.of_nat (length gs) + 1 ∧ numbered gs
  end.

Lemma numbered_bound gs g : numbered gs → g ∈ gs → 1 <= g_token g <= Z.of_nat (length gs).
Proof.
  induction gs as [|h gs IH]; simpl; intros Hn Hin; [by apply elem_of_nil in Hin|].
  apply elem_of_cons in Hin as [->|Hin]; [lia|]. destruct Hn as [_ Hn]. specialize (IH Hn Hin). lia.
Qed.

Lemma numbered_inj gs g g' : numbered gs → g ∈ gs → g' ∈ gs → g_token g = g_token g' → g = g'.
Proof.
  induction gs as [|h gs IH]; simpl; intros Hn Hg Hg' E; [by apply elem_of_nil in Hg|].
  destruct Hn as [Hh Hn].
  apply elem_of_cons in Hg as [->|Hg], Hg' as [->|Hg']; [done| | |by apply IH].
  - pose proof (numbered_bound _ _ Hn Hg'). lia.
  - pose proof (numbered_bound _ _ Hn Hg). lia.
Qed.

Lemma key_grants_same k g gs : g_key g = k → key_grants k (g :: gs) = g :: key_grants k gs.
Proof. intros E. unfold key_grants. by rewrite filter_cons, decide_True. Qed.

Lemma key_grants_other k g gs : g_key g ≠ k → key_grants k (g :: gs) = key_grants k gs.
Proof. intros E. unfold key_grants. by rewrite filter_cons, decide_False. Qed.

Lemma key_grants_elem k g gs : g ∈ key_grants k gs ↔ g_key g = k ∧ g ∈ gs.
Proof. unfold key_grants. by rewrite list_elem_of_filter. Qed.

Lemma key_grants_length k gs : (length (key_grants k gs) ≤ length gs)%nat.
Proof. apply length_filter. Qed.

Lemma numbered_app gs gs' : numbered (gs ++ gs') → numbered gs'.
Proof. induction gs as [|g gs IH]; simpl; tauto. Qed.

Lemma key_grants_app k gs gs' : key_grants k (gs ++ gs') = key_grants k gs ++ key_grants k gs'.
Proof. apply filter_app. Qed.

(** ** Leases *)

Definition grants_of (h : list lock_event) : list grant :=
  omap (λ e, match e with Granted g _ _ => Some g | _ => None end) h.

(** The lease of a key after a history: its grant and its deadline. *)
Fixpoint lease (k : string) (h : list lock_event) : option (grant * Z) :=
  match h with
  | [] => None
  | Granted g _ until :: h => if decide (g_key g = k) then Some (g, until) else lease k h
  | Extended _ k' _ until :: h => if decide (k' = k) then (λ p, (p.1, until)) <$> lease k h else lease k h
  | Released _ k' _ :: h => if decide (k' = k) then None else lease k h
  end.

(** The last deadline set for a grant, [h] being what followed it. *)
Fixpoint deadline_of (g : grant) (until : Z) (h : list lock_event) : Z :=
  match h with
  | [] => until
  | Extended i k st u :: h =>
      if decide (i = g_locker g ∧ k = g_key g ∧ st = g_state g) then u else deadline_of g until h
  | _ :: h => deadline_of g until h
  end.

(** Each event of [k] fits the lease it found: a grant comes after its deadline and after
    all earlier grants, a renewal or release is that of the grant itself. *)
Definition fits (k : string) (e : lock_event) (h : list lock_event) : Prop :=
  match e with
  | Granted g now _ =>
      (g_key g = k → ∀ g' u, lease k h = Some (g', u) → u <= now) ∧
      (∀ g' now' u, Granted g' now' u ∈ h → now' <= now)
  | Extended i k' st _ | Released i k' st =>
      k' = k → ∃ g u, lease k h = Some (g, u) ∧ i = g_locker g ∧ st = g_state g
  end.

Fixpoint orderly (k : string) (h : list lock_event) : Prop :=
  match h with [] => True | e :: h => fits k e h ∧ orderly k h end.

Lemma orderly_app k h h' : orderly k (h ++ h') → orderly k h'.
Proof. induction h as [|e h IH]; [done|]. intros [_ H]. by apply IH. Qed.

Lemma lease_grant k h g u : lease k h = Some (g, u) → g_key g = k ∧ g ∈ grants_of h.
Proof.
  revert u. induction h as [|[g' now u'|i k' st u'|i k' st] h IH]; intros u; cbn; [done|..].
  - case_decide; [|naive_solver set_solver]. intros [= -> ->]. set_solver.
  - case_decide; [|apply IH]. destruct (lease k h) as [[g0 u0]|]; [|done]. cbn. intros [= -> ->]. by apply (IH u0).
  - case_decide; [done|]. apply IH.
Qed.

Lemma grants_of_app h h' : grants_of (h ++ h') = grants_of h ++ grants_of h'.
Proof. apply omap_app. Qed.

Lemma newer_token k g now u h g0 :
  numbered (key_grants k (grants_of (Granted g now u :: h))) → g_key g = k →
  g0 ∈ grants_of h → g_key g0 = k → g_token g0 < g_token g.
Proof.
  change (grants_of (Granted g now u :: h)) with (g :: grants_of h).
  intros Hn Hg Hin Hg0. rewrite key_grants_same in Hn by done. destruct Hn as [-> Hn].
  pose proof (numbered_bound _ g0 Hn (proj2 (key_grants_elem _ _ _) (conj Hg0 Hin))). lia.
Qed.

(** While a grant was neither released nor superseded the lease is its own, up to the last
    deadline set for it. *)
Lemma lease_lifetime k g0 now0 until0 mid earlier :
  let h := mid ++ Granted g0 now0 until0 :: earlier in
  g_key g0 = k → orderly k h → numbered (key_grants k (grants_of h)) →
  Released (g_locker g0) k (g_state g0) ∈ mid ∨
  lease k h = Some (g0, deadline_of g0 until0 mid) ∨
  (∃ g1 now1 u1, Granted g1 now1 u1 ∈ mid ∧ deadline_of g0 until0 mid <= now1 ∧
     ∀ g u, lease k h = Some (g, u) → g_token g0 < g_token g).
Proof.
  cbv zeta. intros Hk. induction mid as [|e mid IH]; cbn [app].
  { intros _ _. right. left. cbn. by rewrite decide_True. }
  intros [Hfit Ho] Hn. set (h := mid ++ Granted g0 now0 until0 :: earlier) in *.
  assert (numbered (key_grants k (grants_of h))) as Hn'.
  { change (e :: h) with ([e] ++ h) in Hn. rewrite grants_of_app, key_grants_app in Hn. by apply numbered_app in Hn. }
  assert (g0 ∈ grants_of h) as Hin by (unfold h; rewrite grants_of_app; cbn; set_solver).
  destruct (IH Ho Hn') as [Hr|[Hl|(g1 & now1 & u1 & Hg1 & Hd1 & Hl1)]]; [left; set_solver|..].
  - destruct e as [g now u|i k' st u|i k' st]; cbn [lease deadline_of fits] in *.
    + case_decide as Hgk; [|by right; left]. destruct Hfit as [Hfit _]. right. right. exists g, now, u.
      split_and!; [set_solver|by apply (Hfit Hgk g0)|]. intros g' u' [= <- <-].
      by apply (newer_token k g now u h).
    + case_decide as Hkk; [|rewrite decide_False by naive_solver; by right; left].
      destruct (Hfit Hkk) as (g & u' & Hlg & -> & ->). rewrite Hl in Hlg. simplify_eq.
      rewrite decide_True by done. right. left. by rewrite Hl.
    + case_decide as Hkk; [|by right; left]. destruct (Hfit Hkk) as (g & u' & Hlg & -> & ->).
      rewrite Hl in Hlg. simplify_eq. left. set_solver.
  - right. right. exists g1, now1, u1. split; [set_solver|].
    destruct e as [g now u|i k' st u|i k' st]; cbn [lease deadline_of fits] in *.
    + split; [done|]. case_decide as Hgk; [|done]. intros g' u' [= <- <-].
      by apply (newer_token k g now u h).
    + case_decide as Hg0.
      { destruct Hg0 as (-> & -> & ->). destruct (Hfit Hk) as (g & u' & Hlg & _ & Hst).
        specialize (Hl1 _ _ Hlg). apply (f_equal token) in Hst. cbn in Hst. lia. }
      split; [done|]. case_decide; [|done]. destruct (lease k h) as [[g u']|]; [|done].
      cbn. intros g' u2 [= <- <-]. by apply (Hl1 g u').
    + split; [done|]. case_decide; [done|]. done.
Qed.

(** ** The invariant *)

Section invariant.
Context {db : Type} `{RedisLaws db}.
Context (lock_key : string → Prop).

(** No lock key is the fencing counter of another one. *)
Hypothesis separate : ∀ k k', lock_key k → lock_key k' → fencingCounterKey k ≠ k'.

Definition key_inv (d : db) (gs : list grant) (k : string) : Prop :=
  let kg := key_grants k gs in
  numbered kg ∧
  counter_is d (fencingCounterKey k) (Z.of_nat (length kg)) ∧
  (∀ e, r_entry d k = Some e →
     ∃ g kg' t, kg = g :: kg' ∧ e = (RString (value (g_state g)), Some t)).

(** A lock state known to locker [i] for [k] is that of a grant to it. *)
Definition known (gs : list grant) (i : nat) (k : string) (st : redisLockState) : Prop :=
  ∃ g, g ∈ gs ∧ g_locker g = i ∧ g_key g = k ∧ st = g_state g.

Definition lock_inv (s : system db) : Prop :=
  clock_ok (sys_now s) ∧
  (∀ k, lock_key k → key_inv (sys_db s) (sys_grants s) k) ∧
  (∀ i k v, lockStore (sys_lockers s i) !! k = Some v →
     ∃ st, v = StoredState st ∧ known (sys_grants s) i k st) ∧
  (∀ i k st, (i, k, st) ∈ sys_stores s → known (sys_grants s) i k st).

Lemma known_mono gs g i k st : known gs i k st → known (g :: gs) i k st.
Proof. intros (g' & Hin & Hr). exists g'. split; [by apply elem_of_cons; right|done]. Qed.

Lemma key_inv_frame d d' gs k :
  r_entry d' k = r_entry d k →
  r_entry d' (fencingCounterKey k) = r_entry d (fencingCounterKey k) →
  key_inv d gs k → key_inv d' gs k.
Proof. intros E E' (Hn & Hc & He). unfold key_inv, counter_is in *. by rewrite E, E'. Qed.

Lemma key_inv_shrink d d' gs k :
  (∀ e, r_entry d' k = Some e → ∃ t, r_entry d k = Some (e.1, t) ∧ is_Some e.2) →
  r_entry d' (fencingCounterKey k) = r_entry d (fencingCounterKey k) →
  key_inv d gs k → key_inv d' gs k.
Proof.
  intros E E' (Hn & Hc & He). unfold key_inv, counter_is in *. rewrite E'. split_and!; [done..|].
  intros [v ot] Hv. destruct (E _ Hv) as (t & Ht & [t' Ht']). simpl in *. subst ot.
  destruct (He _ Ht) as (g & kg' & t0 & Hg & Hv'). simplify_eq. eauto 10.
Qed.

Lemma key_inv_live d gs k now v : key_inv d gs k → live d now k = Some v → ∃ s, v = RString s.
Proof.
  intros (_ & _ & He) Hl. apply live_Some_entry in Hl as [t Ht].
  destruct (He _ Ht) as (g & kg' & t' & _ & E). simplify_eq. eauto.
Qed.

(** Changing one lock key keeps the other keys and all counters. *)
Lemma only_key_others d d' k k' :
  only_key k d d' → lock_key k → lock_key k' →
  r_entry d' (fencingCounterKey k') = r_entry d (fencingCounterKey k') ∧
  (k' ≠ k → r_entry d' k' = r_entry d k').
Proof. intros Ho Hk Hk'. split; [apply Ho, separate|intros; apply Ho]; done. Qed.

(** What a run of the unlock or extend script can do to a lock key: nothing, remove the
    entry, or keep its value with another deadline. *)
Definition kept (k : string) (d d' : db) : Prop :=
  only_key k d d' ∧
  ∀ e, r_entry d' k = Some e →
    r_entry d k = Some e ∨ ∃ t, r_entry d k = Some (e.1, t) ∧ is_Some e.2.

Lemma kept_refl k d : kept k d d.
Proof. split; [done|eauto]. Qed.

Lemma kept_inv d d' gs k :
  lock_key k → kept k d d' →
  (∀ k', lock_key k' → key_inv d gs k') → ∀ k', lock_key k' → key_inv d' gs k'.
Proof.
  intros Hk [Ho Hkept] Hinv k' Hk'. destruct (only_key_others d d' k k') as [Hf Hne]; [done..|].
  destruct (decide (k' = k)) as [->|Hneq]; [|apply (key_inv_frame d); auto].
  apply (key_inv_shrink d); [|done|auto]. intros e He. destruct (Hkept e He) as [Hs|Hs]; [|done].
  destruct (Hinv k Hk) as (_ & _ & He'). destruct (He' _ Hs) as (g & kg' & t & _ & ->). eauto.
Qed.

Lemma unlock_script_kept now k v d gs : key_inv d gs k → kept k d (unlock_script now k v d).1.
Proof.
  intros Hinv. destruct (decide (live d now k = Some (RString v))) as [Hl|Hl].
  - destruct (unlock_own d now k v Hl) as (d' & -> & E & Ho). split; [done|]. simpl. by rewrite E.
  - rewrite unlock_other; [apply kept_refl| |done].
    intros h Hh. by destruct (key_inv_live _ _ _ _ _ Hinv Hh).
Qed.

Lemma extend_script_kept now k v ms d gs :
  key_inv d gs k → int_expiry now ms = true → kept k d (extend_script now k v ms d).1.
Proof.
  intros Hinv Hms. destruct (decide (live d now k = Some (RString v))) as [Hl|Hl].
  - destruct (extend_own d now k v ms Hl Hms) as (d' & -> & E & Ho). split; [done|].
    simpl. rewrite E. intros e [= <-]. right. apply live_Some_entry in Hl as [t Ht]. eauto.
  - rewrite extend_other; [apply kept_refl| |done].
    intros h Hh. by destruct (key_inv_live _ _ _ _ _ Hinv Hh).
Qed.

Lemma Eval_kept k f script d :
  kept k d (script d).1 → kept k d (Eval f script d).1.
Proof.
  intros Hk. destruct f; simpl; [|apply kept_refl|done]. by destruct (script d).
Qed.

Lemma tryAcquire_cases f now k owner ms d gs :
  key_inv d gs k → int_expiry now ms = true →
  let n := Z.of_nat (length (key_grants k gs)) in
  lua_printable (n + 1) →
  let '(d', res) := tryAcquire f now k owner ms d in
  (d' = d ∧ issued f now k owner ms d = None ∧ (∀ tok, res = Ok tok → tok = 0)) ∨
  (issued f now k owner ms d = Some (n + 1) ∧ (∀ tok, res = Ok tok → tok = n + 1) ∧
   r_entry d' k = Some (RString (lockValue (n + 1) owner), Some (now + ms)) ∧
   counter_is d' (fencingCounterKey k) (n + 1) ∧
   (∀ k', k' ≠ k → k' ≠ fencingCounterKey k → r_entry d' k' = r_entry d k')).
Proof.
  intros (Hn & Hc & He) Hms n Hp. destruct f as [|why|why]; [| simpl; left; naive_solver |].
  - destruct (live d now k) as [v|] eqn:El.
    + rewrite (tryAcquire_held _ _ _ _ _ v) by done. left. unfold issued.
      rewrite (acquire_held _ _ _ _ _ _ v) by done. naive_solver.
    + destruct (acquire_free d now k (fencingCounterKey k) ms owner n)
        as (d1 & E1 & E2 & E3 & E4); [done|by apply fence_ne|done|unfold n; lia|done|done|].
      destruct (tryAcquire_free d now k owner ms n) as (d' & E & _); [done|done|unfold n; lia|done|done|].
      assert (d' = d1) as ->.
      { unfold tryAcquire, Eval in E. rewrite E1 in E. simpl in E.
        by destruct (lua_reply (LInt (n + 1))); simplify_eq. }
      rewrite E. right. unfold issued. rewrite E1. simpl.
      destruct (Z.ltb_spec 0 (n + 1)); [naive_solver|unfold n in *; lia].
  - destruct (live d now k) as [v|] eqn:El; unfold tryAcquire, issued, Eval.
    + rewrite (acquire_held _ _ _ _ _ _ v) by done. left. naive_solver.
    + destruct (acquire_free d now k (fencingCounterKey k) ms owner n)
        as (d1 & E1 & E2 & E3 & E4); [done|by apply fence_ne|done|unfold n; lia|done|done|].
      rewrite E1. simpl. right.
      destruct (Z.ltb_spec 0 (n + 1)); [naive_solver|unfold n in *; lia].
Qed.

Lemma granted_key_inv d d' gs k k' t i owner :
  let n := Z.of_nat (length (key_grants k gs)) in
  lock_key k → lock_key k' →
  r_entry d' k = Some (RString (lockValue (n + 1) owner), Some t) →
  counter_is d' (fencingCounterKey k) (n + 1) →
  (∀ k'', k'' ≠ k → k'' ≠ fencingCounterKey k → r_entry d' k'' = r_entry d k'') →
  numbered (key_grants k gs) → key_inv d gs k' →
  key_inv d' ({| g_locker := i; g_key := k; g_token := n + 1; g_owner := owner |} :: gs) k'.
Proof.
  intros n Hk Hk' E Hc Hf Hn Hinv. destruct (decide (k' = k)) as [->|Hne].
  - unfold key_inv. rewrite key_grants_same by done. split_and!; [done| |].
    + cbn [length]. rewrite Nat2Z.inj_succ, <-Z.add_1_r. done.
    + rewrite E. intros e [= <-]. eauto 10.
  - assert (key_inv d' gs k') as Hi.
    { apply (key_inv_frame d); [| |done].
      - apply Hf; [done|]. intros ->. by apply (separate k (fencingCounterKey k)).
      - apply Hf; [by apply separate|]. intros Heq. by apply fence_inj in Heq. }
    unfold key_inv. by rewrite key_grants_other.
Qed.

(** Room for one more token that Lua prints in full. *)
Definition tokens_left (s : system db) : Prop := Z.of_nat (length (sys_grants s)) + 1 < 10 ^ 14.

Lemma tokens_left_printable s k :
  tokens_left s → lua_printable (Z.of_nat (length (key_grants k (sys_grants s))) + 1).
Proof.
  unfold tokens_left, lua_printable. pose proof (key_grants_length k (sys_grants s)). lia.
Qed.

Lemma lock_inv_acquire s i k owner expiry f d' res :
  lock_inv s → tokens_left s → lock_key k → 0 < expiry → is_i64 expiry →
  tryAcquire f (sys_now s) k owner (durationMilliseconds expiry) (sys_db s) = (d', res) →
  let gs' := match issued f (sys_now s) k owner (durationMilliseconds expiry) (sys_db s) with
             | Some t => {| g_locker := i; g_key := k; g_token := t; g_owner := owner |}
                         :: sys_grants s
             | None => sys_grants s
             end in
  (∀ k', lock_key k' → key_inv d' gs' k') ∧
  (∀ j k' st, known (sys_grants s) j k' st → known gs' j k' st) ∧
  (∀ tok, res = Ok tok → 0 < tok →
     known gs' i k {| value := lockValue tok owner; token := tok |}).
Proof.
  intros (Hclk & Hkeys & _ & _) Hlen Hk Hex Hi64 E. set (ms := durationMilliseconds expiry) in *.
  assert (int_expiry (sys_now s) ms = true) as Hms by (by apply lease_expiry_valid).
  pose proof (tryAcquire_cases f (sys_now s) k owner ms (sys_db s) (sys_grants s) (Hkeys k Hk) Hms
    (tokens_left_printable s k Hlen)) as Hcases.
  rewrite E in Hcases.
  destruct Hcases as [(-> & -> & Htok)|(-> & Htok & He & Hc & Hf)]; cbn zeta.
  - split_and!; [done|done|]. intros tok Hr ?. specialize (Htok tok Hr). lia.
  - split_and!.
    + intros k' Hk'. apply (granted_key_inv (sys_db s) _ _ _ _ (sys_now s + ms)); try done; [|by apply Hkeys].
      apply (Hkeys k Hk).
    + intros j k' st. apply known_mono.
    + intros tok Hr _. rewrite (Htok tok Hr). eexists. split; [apply list_elem_of_here|done].
Qed.

Lemma unlock_eval_kept f now l k d gs :
  key_inv d gs k → kept k d (unlock_eval f now l k d).1.
Proof.
  intros Hinv. unfold unlock_eval. destruct (lockStore l !! k) as [v|]; [|apply kept_refl].
  destruct (redisLockStateFromValue v) as [st []]; simpl; [|apply kept_refl].
  pose proof (Eval_kept k f (unlock_script now k (value st)) d (unlock_script_kept _ _ _ _ _ Hinv)) as Hk.
  destruct (Eval _ _ _) as [d' [[n| | | |]|e]]; try done. by destruct (n =? 0).
Qed.

Lemma extend_eval_kept f now l k ext d gs :
  key_inv d gs k → clock_ok now → is_i64 ext → kept k d (extend_eval f now l k ext d).1.
Proof.
  intros Hinv Hclk Hi. unfold extend_eval. destruct (Z.leb_spec ext 0); [apply kept_refl|].
  assert (int_expiry now (durationMilliseconds ext) = true) as Hms by (by apply lease_expiry_valid).
  destruct (lockStore l !! k) as [v|]; [|apply kept_refl].
  destruct (redisLockStateFromValue v) as [st []]; simpl; [|apply kept_refl].
  pose proof (Eval_kept k f (extend_script now k (value st) (durationMilliseconds ext)) d
    (extend_script_kept _ _ _ _ _ _ Hinv Hms)) as Hk.
  destruct (Eval _ _ _) as [d' [[n| | | |]|e]]; try done. by destruct (n =? 0).
Qed.

Lemma lock_inv_step s s' : lock_inv s → tokens_left s → step lock_key s s' → lock_inv s'.
Proof.
  intros Hinv Hlen Hstep. pose proof Hinv as (Hclk & Hkeys & Hstore & Hpend).
  destruct Hstep as [s now'|s d' Hd|s i k owner expiry f d' res Hk Hex Hi64 E
    |s i k st p1 p2 E|s i k f d' local r Hk E|s i k extension f d' local r Hk Hi64 E
    |s i k p1 p2 E]; unfold lock_inv; cbn [sys_db sys_now sys_lockers sys_stores sys_deletes sys_grants sys_history] in *.
  - by split_and!.
  - split_and!; [done| |done..]. intros k Hk. destruct (Hd k Hk).
    by apply (key_inv_frame (sys_db s)); auto.
  - destruct (lock_inv_acquire s i k owner expiry f d' res) as (Hk' & Hmono & Hnew); [done..|].
    split_and!; [done|done|naive_solver|]. intros j k' st Hin.
    destruct res as [tok|]; [|by auto]. destruct (Z.ltb_spec 0 tok); [|by auto].
    apply elem_of_cons in Hin as [Hin|Hin]; [simplify_eq; auto|auto].
  - split_and!; [done|done| |].
    + intros j k' v. destruct (decide (j = i)) as [->|Hne].
      * rewrite fn_lookup_insert. cbn. destruct (decide (k' = k)) as [->|Hkne].
        -- rewrite lookup_insert_eq. intros [= <-]. eexists. split; [done|]. apply Hpend. rewrite E. set_solver.
        -- rewrite lookup_insert_ne by done. apply Hstore.
      * rewrite fn_lookup_insert_ne by done. apply Hstore.
    + intros j k' st' Hin. apply Hpend. rewrite E. set_solver.
  - split_and!; [done| |done..]. pose proof (unlock_eval_kept f (sys_now s) (sys_lockers s i) k _ _ (Hkeys k Hk)) as Hkept.
    rewrite E in Hkept. by apply (kept_inv (sys_db s) d' _ k).
  - split_and!; [done| |done..].
    pose proof (extend_eval_kept f (sys_now s) (sys_lockers s i) k extension _ _ (Hkeys k Hk) Hclk Hi64) as Hkept.
    rewrite E in Hkept. by apply (kept_inv (sys_db s) d' _ k).
  - split_and!; [done|done| |done]. intros j k' v. destruct (decide (j = i)) as [->|Hne].
    + rewrite fn_lookup_insert. cbn. intros Hl. apply lookup_delete_Some in Hl as [_ Hl]. by apply Hstore.
    + rewrite fn_lookup_insert_ne by done. apply Hstore.
Qed.

Lemma initial_inv s : initial lock_key s → lock_inv s.
Proof.
  intros (Hclk & Hkeys & Hl & Hs & Hd & Hg & _). split_and!; [done|..].
  - intros k Hk. destruct (Hkeys k Hk) as [E1 E2]. unfold key_inv. rewrite Hg. cbn.
    split_and!; [done|exact E2|]. rewrite E1. done.
  - intros i k v. by rewrite Hl, lookup_empty.
  - intros i k st. rewrite Hs. by intros ?%elem_of_nil.
Qed.

Lemma step_grants s s' :
  step lock_key s s' → sys_grants s' = sys_grants s ∨ ∃ g, sys_grants s' = g :: sys_grants s.
Proof. destruct 1; simpl; auto. destruct (issued _ _ _ _ _ _); eauto. Qed.

Lemma tokens_left_before s s' : step lock_key s s' → tokens_left s' → tokens_left s.
Proof. unfold tokens_left. intros Hs. destruct (step_grants s s' Hs) as [E|[g E]]; rewrite E; simpl; lia. Qed.

Lemma reachable_inv s : lock_reachable lock_key s → tokens_left s → lock_inv s.
Proof.
  induction 1 as [s Hi|s s' Hr IH Hs]; intros Hlen; [by apply initial_inv|].
  pose proof (tokens_left_before s s' Hs Hlen) as Hlen'. apply (lock_inv_step s); auto.
Qed.

(** *** The history *)

Definition lease_entry (p : option (grant * Z)) : option (rvalue * option Z) :=
  (λ p, (RString (value (g_state p.1)), Some p.2)) <$> p.

(** The grants are those of the history, which is orderly, and the server has for each lock
    key what the history leaves it. *)
Definition history_inv (s : system db) : Prop :=
  sys_grants s = grants_of (sys_history s) ∧
  (∀ g now u, Granted g now u ∈ sys_history s → now <= sys_now s) ∧
  (∀ k, lock_key k → orderly k (sys_history s) ∧
     r_entry (sys_db s) k = lease_entry (lease k (sys_history s))).

Lemma unlock_eval_db f now l k d gs : key_inv d gs k →
  match released f now l k d with
  | Some st => lockState l k = (st, true) ∧ live d now k = Some (RString (value st)) ∧
      r_entry (unlock_eval f now l k d).1 k = None ∧ only_key k d (unlock_eval f now l k d).1
  | None => (unlock_eval f now l k d).1 = d
  end.
Proof.
  intros Hinv. unfold released, unlock_eval, lockState. destruct (lockStore l !! k) as [v|]; [|by destruct f].
  destruct (redisLockStateFromValue v) as [st []]; cbn [negb]; [|by destruct f].
  destruct (decide (live d now k = Some (RString (value st)))) as [Hl|Hl].
  - destruct (unlock_own d now k _ Hl) as (d' & E & He & Ho).
    destruct f; cbn [Eval]; rewrite ?E; cbn; [|done|done]. destruct (lua_reply (LInt 1)) as [[n| | | |]|]; try done. by destruct (n =? 0).
  - rewrite unlock_other; [| |done]; [|by intros h Hh; destruct (key_inv_live _ _ _ _ _ Hinv Hh)].
    destruct f; cbn [Eval]; [|done|by rewrite unlock_other by (done || (intros h Hh; by destruct (key_inv_live _ _ _ _ _ Hinv Hh)))].
    rewrite unlock_other; [| |done]; [|by intros h Hh; destruct (key_inv_live _ _ _ _ _ Hinv Hh)].
    cbn. destruct (lua_reply (LInt 0)) as [[n| | | |]|]; try done. by destruct (n =? 0).
Qed.

Lemma extend_eval_db f now l k ext d gs : key_inv d gs k → clock_ok now → is_i64 ext →
  match extended f now l k ext d with
  | Some st => lockState l k = (st, true) ∧ live d now k = Some (RString (value st)) ∧
      r_entry (extend_eval f now l k ext d).1 k = Some (RString (value st), Some (now + durationMilliseconds ext)) ∧
      only_key k d (extend_eval f now l k ext d).1
  | None => (extend_eval f now l k ext d).1 = d
  end.
Proof.
  intros Hinv Hclk Hi. unfold extended, extend_eval, lockState.
  destruct (Z.leb_spec ext 0) as [|Hext]; [by destruct f, (lockStore l !! k) as [v|]; try destruct (redisLockStateFromValue v) as [? []]|].
  destruct (lockStore l !! k) as [v|]; [|by destruct f].
  destruct (redisLockStateFromValue v) as [st []]; cbn [negb]; [|by destruct f].
  assert (∀ h, live d now k ≠ Some (RHash h)) as Hh by (intros h Hh; by destruct (key_inv_live _ _ _ _ _ Hinv Hh)).
  destruct (decide (live d now k = Some (RString (value st)))) as [Hl|Hl].
  - destruct (extend_own d now k _ _ Hl (lease_expiry_valid now ext Hclk Hext Hi)) as (d' & E & He & Ho).
    destruct f; cbn [Eval]; rewrite ?E; cbn; [|done|done]. destruct (lua_reply (LInt 1)) as [[n| | | |]|]; try done. by destruct (n =? 0).
  - destruct f; cbn [Eval]; rewrite ?extend_other by done; cbn; [|done|done].
    destruct (lua_reply (LInt 0)) as [[n| | | |]|]; try done. by destruct (n =? 0).
Qed.

(** A locker whose state the server has is the one of the lease. *)
Lemma live_lease s i k st :
  lock_inv s → history_inv s → lock_key k → lockState (sys_lockers s i) k = (st, true) →
  live (sys_db s) (sys_now s) k = Some (RString (value st)) →
  ∃ g u, lease k (sys_history s) = Some (g, u) ∧ i = g_locker g ∧ st = g_state g ∧ sys_now s < u.
Proof.
  intros (_ & Hkeys & Hst & _) (Hg & _ & Hh) Hk Hs Hl. destruct (Hh k Hk) as [_ He].
  unfold live in Hl. rewrite He in Hl. destruct (lease k (sys_history s)) as [[g u]|] eqn:El; [|done].
  cbn in Hl. destruct (Z.ltb_spec (sys_now s) u); [|done]. injection Hl as Hv.
  unfold lockState in Hs. destruct (lockStore (sys_lockers s i) !! k) as [v|] eqn:Ev; [|done].
  destruct (Hst _ _ _ Ev) as (st' & -> & g' & Hg' & Hi & Hgk & ->). injection Hs as <- _.
  destruct (lease_grant _ _ _ _ El) as [Hgk0 Hin]. rewrite <- Hg in Hin.
  destruct (Hkeys k Hk) as [Hn _].
  pose proof (proj2 (key_grants_elem k g (sys_grants s)) (conj Hgk0 Hin)) as Hin1.
  pose proof (proj2 (key_grants_elem k g' (sys_grants s)) (conj Hgk Hg')) as Hin2.
  pose proof (numbered_bound _ _ Hn Hin1). pose proof (numbered_bound _ _ Hn Hin2).
  cbn in Hv. apply lockValue_inj in Hv as [Ht _]; [|lia..].
  pose proof (numbered_inj _ _ _ Hn Hin1 Hin2 Ht) as <-. by exists g, u.
Qed.

Lemma history_inv_acquire s i k owner expiry f d' res :
  lock_inv s → tokens_left s → history_inv s → lock_key k → 0 < expiry → is_i64 expiry →
  let ms := durationMilliseconds expiry in
  tryAcquire f (sys_now s) k owner ms (sys_db s) = (d', res) →
  let h' := match issued f (sys_now s) k owner ms (sys_db s) with
            | Some t => Granted {| g_locker := i; g_key := k; g_token := t; g_owner := owner |}
                          (sys_now s) (sys_now s + ms) :: sys_history s
            | None => sys_history s
            end in
  (∀ g now u, Granted g now u ∈ h' → now <= sys_now s) ∧
  (∀ k', lock_key k' → orderly k' h' ∧ r_entry d' k' = lease_entry (lease k' h')).
Proof.
  intros (Hclk & Hkeys & _ & _) Hlen (_ & Ht & Hh) Hk Hex Hi64 ms E.
  assert (int_expiry (sys_now s) ms = true) as Hms by (by apply lease_expiry_valid).
  pose proof (tryAcquire_cases f (sys_now s) k owner ms (sys_db s) (sys_grants s) (Hkeys k Hk) Hms
    (tokens_left_printable s k Hlen)) as Hcases.
  rewrite E in Hcases. destruct Hcases as [(-> & -> & Htok)|(Hiss & Htok & He & Hc & Hf)]; [done|].
  assert (live (sys_db s) (sys_now s) k = None) as Hfree.
  { destruct (live (sys_db s) (sys_now s) k) as [v|] eqn:El; [|done]. unfold issued in Hiss. destruct f; [|done|];
      by rewrite (acquire_held _ _ _ _ _ _ v) in Hiss by done. }
  rewrite Hiss. split.
  - intros g now u [[= _ -> _]|?]%elem_of_cons; [lia|by apply (Ht g now u)].
  - intros k' Hk'. destruct (Hh k' Hk') as [Ho Hent]. cbn [orderly fits lease g_key]. split.
    + split; [|done]. split; [|done]. intros <- g' u El. unfold live in Hfree. rewrite Hent, El in Hfree. cbn in Hfree.
      by destruct (Z.ltb_spec (sys_now s) u).
    + case_decide as Hkk; [by subst k'|]. rewrite Hf; [done|done|]. intros ->. by apply (separate k (fencingCounterKey k)).
Qed.

(** A release or renewal of the lease that is there. *)
Lemma history_inv_own s k d' e :
  history_inv s → lock_key k →
  match e with Granted _ _ _ => False | Extended _ k' _ _ | Released _ k' _ => k' = k end →
  fits k e (sys_history s) → only_key k (sys_db s) d' →
  r_entry d' k = lease_entry (lease k (e :: sys_history s)) →
  grants_of (e :: sys_history s) = sys_grants s ∧
  (∀ g now u, Granted g now u ∈ e :: sys_history s → now <= sys_now s) ∧
  (∀ k', lock_key k' → orderly k' (e :: sys_history s) ∧
     r_entry d' k' = lease_entry (lease k' (e :: sys_history s))).
Proof.
  intros (Hg & Ht & Hh) Hk He Hfit Ho Hent. split; [by destruct e|]. split.
  { intros g now u [<-|Hin]%elem_of_cons; [done|by apply (Ht g now u)]. }
  intros k' Hk'. destruct (Hh k' Hk') as [Hord Hentry]. destruct (decide (k' = k)) as [->|Hne]; [done|].
  rewrite (Ho k') by done. destruct e as [|i k0 st u|i k0 st]; [done|subst k0..]; cbn [orderly fits lease];
    rewrite decide_False by done; done.
Qed.

Lemma history_inv_step s s' :
  lock_inv s → tokens_left s → history_inv s → step lock_key s s' → history_inv s'.
Proof.
  intros Hinv Hlen Hhist Hstep. pose proof Hinv as (Hclk & Hkeys & _ & _). pose proof Hhist as (Hg & Ht & Hh).
  destruct Hstep as [s now' Hnow|s d' Hd|s i k owner expiry f d' res Hk Hex Hi64 E
    |s i k st p1 p2 E|s i k f d' local r Hk E|s i k extension f d' local r Hk Hi64 E
    |s i k p1 p2 E]; unfold history_inv; cbn [sys_db sys_now sys_lockers sys_stores sys_deletes sys_grants sys_history] in *; [| | |done| | |done].
  - split_and!; [done| |done]. intros g now u Hin. specialize (Ht g now u Hin). lia.
  - split_and!; [done|done|]. intros k Hk. destruct (Hh k Hk) as [Ho Hent]. split; [done|]. by rewrite (proj1 (Hd k Hk)).
  - split; [by rewrite Hg; destruct (issued _ _ _ _ _ _)|].
    by apply (history_inv_acquire s i k owner expiry f d' res).
  - pose proof (unlock_eval_db f (sys_now s) (sys_lockers s i) k _ _ (Hkeys k Hk)) as Hu. rewrite E in Hu. cbn in Hu.
    destruct (released _ _ _ _ _) as [st|]; [|by subst d'].
    destruct Hu as (Hst & Hl & He & Ho). destruct (live_lease s i k st) as (g & u & Hlease & Hgi & Hgs & _); [done..|].
    destruct (history_inv_own s k d' (Released i k st)) as (Hg' & Hrest); [done..| |done| |by split; [symmetry|]].
    + intros _. by exists g, u.
    + cbn. by rewrite decide_True.
  - pose proof (extend_eval_db f (sys_now s) (sys_lockers s i) k extension _ _ (Hkeys k Hk) Hclk Hi64) as Hu. rewrite E in Hu. cbn in Hu.
    destruct (extended _ _ _ _ _ _) as [st|]; [|by subst d'].
    destruct Hu as (Hst & Hl & He & Ho). destruct (live_lease s i k st) as (g & u & Hlease & Hgi & Hgs & _); [done..|].
    destruct (history_inv_own s k d' (Extended i k st (sys_now s + durationMilliseconds extension))) as (Hg' & Hrest);
      [done..| |done| |by split; [symmetry|]].
    + intros _. by exists g, u.
    + cbn. rewrite decide_True, Hlease by done. cbn. by rewrite He, Hgs.
Qed.

Lemma reachable_history s : lock_reachable lock_key s → tokens_left s → history_inv s.
Proof.
  induction 1 as [s (_ & Hk & _ & _ & _ & Hg & Hh)|s s' Hr IH Hs]; intros Hlen.
  - unfold history_inv. rewrite Hg, Hh. split_and!; [done|by intros ? ? ? ?%elem_of_nil|]. intros k Hkk. split; [done|]. apply (Hk k Hkk).
  - pose proof (tokens_left_before s s' Hs Hlen) as Hlen'. apply (history_inv_step s); auto using reachable_inv.
Qed.

End invariant.

(** ** Mutual exclusion and fencing *)

Lemma FencingToken_state l k g :
  lockStore l !! k = Some (StoredState (g_state g)) → 1 <= g_token g →
  FencingToken l k = (g_token g, true).
Proof.
  intros E Hg. unfold FencingToken, lockState. rewrite E. cbn [redisLockStateFromValue].
  rewrite bool_decide_true by apply lockValue_nonempty. cbn.
  destruct (Z.eqb_spec (g_token g) 0); [lia|done].
Qed.

Section exclusion.
Context {db : Type} `{RedisLaws db} (lock_key : string → Prop).

(** A holder's state is that of the newest grant of the key. *)
Lemma holder_newest s i k :
  lock_inv lock_key s → lock_key k → holds s i k →
  ∃ g kg, key_grants k (sys_grants s) = g :: kg ∧ g_locker g = i ∧
          lockStore (sys_lockers s i) !! k = Some (StoredState (g_state g)).
Proof.
  intros (_ & Hkeys & Hst & _) Hk (st & Hs & Hl).
  destruct (Hkeys k Hk) as (Hn & _ & He).
  destruct (Hst _ _ _ Hs) as (st' & [= <-] & g & Hg & Hi & Hgk & ->).
  apply live_Some_entry in Hl as [t Ht].
  destruct (He _ Ht) as (g0 & kg & t0 & Hkg & [= Hv _]).
  assert (g ∈ key_grants k (sys_grants s)) as Hin by by apply key_grants_elem.
  assert (g0 ∈ key_grants k (sys_grants s)) as Hin0 by (rewrite Hkg; apply list_elem_of_here).
  pose proof (numbered_bound _ _ Hn Hin). pose proof (numbered_bound _ _ Hn Hin0).
  apply lockValue_inj in Hv as [Ht' _]; [|lia..].
  rewrite (numbered_inj _ g g0 Hn Hin Hin0 Ht') in *. eauto.
Qed.

(** And that of the running lease. *)
Lemma holder_lease s i k :
  lock_inv lock_key s → history_inv lock_key s → lock_key k → holds s i k →
  ∃ g u, lease k (sys_history s) = Some (g, u) ∧ g_locker g = i ∧ sys_now s < u.
Proof.
  intros Hinv Hhist Hk (st & Hs & Hl). pose proof Hinv as (_ & _ & Hst & _).
  destruct (Hst _ _ _ Hs) as (st' & [= <-] & g & _ & _ & _ & ->).
  destruct (live_lease lock_key s i k (g_state g)) as (g' & u & El & -> & _ & Hu); [done..| |done|by exists g', u].
  unfold lockState. rewrite Hs. cbn. by rewrite bool_decide_true by apply lockValue_nonempty.
Qed.

Lemma earlier_grant_over s later g now until between g0 now0 until0 earlier :
  lock_inv lock_key s → history_inv lock_key s →
  sys_history s = later ++ Granted g now until :: between ++ Granted g0 now0 until0 :: earlier →
  lock_key (g_key g) → g_key g0 = g_key g →
  Released (g_locker g0) (g_key g0) (g_state g0) ∈ between ∨ deadline_of g0 until0 between <= now.
Proof.
  intros (_ & Hkeys & _) (Hg & _ & Hh) E Hk Hg0. destruct (Hh _ Hk) as [Ho _]. destruct (Hkeys _ Hk) as [Hn _].
  rewrite Hg in Hn. rewrite E in Ho, Hn. apply orderly_app in Ho as [[Hfit Ht] Ho].
  rewrite grants_of_app, key_grants_app in Hn. apply numbered_app in Hn.
  change (grants_of (Granted g now until :: ?h)) with (grants_of ([Granted g now until] ++ h)) in Hn.
  rewrite grants_of_app, key_grants_app in Hn. apply numbered_app in Hn. rewrite Hg0.
  destruct (lease_lifetime (g_key g) g0 now0 until0 between earlier Hg0 Ho Hn)
    as [Hr|[Hl|(g1 & now1 & u1 & Hin & Hd & _)]]; [by left|right..].
  - by apply (Hfit eq_refl g0).
  - assert (now1 <= now) by (apply (Ht g1 now1 u1); set_solver). lia.
Qed.

End exclusion.

(** (C4) Mutual exclusion of the distributed lock. Whatever the interleaving of the steps of
    any number of lockers (attempts, releases and renewals with lost requests or replies,
    delayed accesses to the local maps, expiry, other clients of the server), the server
    grants a key only after every earlier grant of it is over: the locker of that grant
    released it itself, or the last deadline set for it, by the grant or by a renewal of its
    own, has passed. So at any time at most one locker holds the key, in the sense that its
    recorded value is the one the server has; it is the one of the running lease, and its
    fencing token is the number of tokens issued for the key so far, the greatest one. The
    lock keys must not be fencing counters of each other, and fewer than 10^14 tokens are
    issued (beyond that Lua prints them in exponent notation). *)
Theorem lock_mutual_exclusion {db} `{RedisLaws db} (lock_key : string → Prop) (s : system db) :
  (∀ k k', lock_key k → lock_key k' → fencingCounterKey k ≠ k') →
  lock_reachable lock_key s → tokens_left s →
  (∀ later g now until between g0 now0 until0 earlier,
     sys_history s = later ++ Granted g now until :: between ++ Granted g0 now0 until0 :: earlier →
     lock_key (g_key g) → g_key g0 = g_key g →
     Released (g_locker g0) (g_key g0) (g_state g0) ∈ between ∨ deadline_of g0 until0 between <= now) ∧
  (∀ i j k, lock_key k → holds s i k → holds s j k →
     i = j ∧ FencingToken (sys_lockers s i) k = (Z.of_nat (length (key_grants k (sys_grants s))), true) ∧
     ∃ g until, lease k (sys_history s) = Some (g, until) ∧ g_locker g = i ∧ sys_now s < until).
Proof.
  intros Hsep Hr Hlen. pose proof (reachable_inv lock_key Hsep s Hr Hlen) as Hinv.
  pose proof (reachable_history lock_key Hsep s Hr Hlen) as Hhist. split.
  - intros later g now until between g0 now0 until0 earlier E Hk Hg0.
    by apply (earlier_grant_over lock_key s later g now until between g0 now0 until0 earlier).
  - intros i j k Hk Hi Hj.
    destruct (holder_newest lock_key s i k) as (g & kg & Hkg & Hgi & Hs); [done..|].
    destruct (holder_newest lock_key s j k) as (g' & kg' & Hkg' & Hgj & _); [done..|].
    rewrite Hkg in Hkg'. injection Hkg' as <- <-. split; [congruence|]. split.
    + destruct (proj1 (proj2 Hinv) k Hk) as [Hn _]. rewrite Hkg in *. simpl in Hn.
      rewrite (FencingToken_state _ _ g) by (done || lia). f_equal. cbn [length]. lia.
    + by destruct (holder_lease lock_key s i k) as (g1 & u & ? & ? & ?); [done..|exists g1, u].
Qed.

(** (C8) Fencing. In any execution, of two grants of a key the one issued later carries the
    strictly greater token, also when the client never learned of one of them. *)
Theorem fencing_tokens_increase {db} `{RedisLaws db} (lock_key : string → Prop) (s : system db)
    later g between g' earlier :
  (∀ k k', lock_key k → lock_key k' → fencingCounterKey k ≠ k') →
  lock_reachable lock_key s → tokens_left s →
  sys_grants s = later ++ g :: between ++ g' :: earlier →
  lock_key (g_key g) → g_key g' = g_key g →
  1 <= g_token g' < g_token g.
Proof.
  intros Hsep Hr Hlen E Hk Hg.
  destruct (reachable_inv lock_key Hsep s Hr Hlen) as (_ & Hkeys & _).
  destruct (Hkeys _ Hk) as [Hn _]. rewrite E, key_grants_app in Hn. apply numbered_app in Hn.
  rewrite key_grants_same in Hn by done. destruct Hn as [Hg1 Hn].
  assert (g' ∈ key_grants (g_key g) (between ++ g' :: earlier)) as Hin
    by (apply key_grants_elem; set_solver).
  pose proof (numbered_bound _ _ Hn Hin). lia.
Qed.

(** ** Ownership *)

Lemma unlock_eval_state f now l k st (db : Type) `{RedisServer db} (d : db) :
  lockStore l !! k = Some (StoredState st) → value st ≠ "" →
  unlock_eval f now l k d =
    let '(d, res) := Eval f (unlock_script now k (value st)) d in
    match res with
    | Err e => (d, (false, Err (ErrRedis e)))
    | Ok (GInt64 intRes) =>
        if intRes =? 0 then (d, (true, Err ErrLockNotHeld)) else (d, (true, Ok ()))
    | Ok _ => (d, (false, Err (ErrMessage "unexpected result type from Eval")))
    end.
Proof.
  intros E Hv. unfold unlock_eval. rewrite E. cbn [redisLockStateFromValue].
  by rewrite bool_decide_true.
Qed.

(** Ownership. [Unlock] and [Extend] act on the server only for the owner: when the key
    carries the recorded value they remove it, or move its deadline; when the lease has
    run out or somebody else has the key they leave the database untouched, forget the
    local state and report [ErrLockNotHeld]. No other key changes. *)
Theorem Unlock_Extend_ownership {db} `{RedisLaws db} (d : db) now l k st ext :
  lockStore l !! k = Some (StoredState st) → value st ≠ "" →
  (∀ h, live d now k ≠ Some (RHash h)) → clock_ok now → 0 < ext → is_i64 ext →
  if decide (live d now k = Some (RString (value st))) then
    (∃ d', Unlock Delivered now l k d = (lockStore_Delete l k, d', Ok ()) ∧
           r_entry d' k = None ∧ only_key k d d') ∧
    (∃ d', Extend Delivered now l k ext d = (l, d', Ok ()) ∧
           r_entry d' k = Some (RString (value st), Some (now + durationMilliseconds ext)) ∧
           only_key k d d')
  else
    Unlock Delivered now l k d = (lockStore_Delete l k, d, Err ErrLockNotHeld) ∧
    Extend Delivered now l k ext d = (lockStore_Delete l k, d, Err ErrLockNotHeld).
Proof.
  intros Hs Hv Hh Hclk Hext Hi. unfold Unlock, Extend, extend_eval.
  rewrite (unlock_eval_state _ _ _ _ st), Hs by done. cbn [redisLockStateFromValue].
  rewrite bool_decide_true by done. cbn [negb].
  destruct (Z.leb_spec ext 0); [lia|]. unfold Eval.
  pose proof (lease_expiry_valid now ext Hclk Hext Hi) as Hms.
  destruct (decide _) as [Hl|Hl].
  - destruct (unlock_own d now k _ Hl) as (d1 & -> & E1 & O1).
    destruct (extend_own d now k _ _ Hl Hms) as (d2 & -> & E2 & O2).
    cbn [mbind result_bind]. rewrite lua_reply_small by lia. cbn. eauto 10.
  - rewrite unlock_other, extend_other by done. cbn [mbind result_bind].
    rewrite lua_reply_small by lia. done.
Qed.

(** ** Termination and liveness of [Lock] *)

Section waiting.
Context {db : Type} `{RedisLaws db}.

(** The [select] of each round comes at least [iv] after that of the previous one. *)
Fixpoint spaced (iv t : Z) (rounds : list (round (db := db))) : Prop :=
  match rounds with
  | [] => True
  | r :: rounds => t <= rd_client r ∧ spaced iv (rd_client r + iv) rounds
  end.

Lemma Lock_loop_returns l k owner ms iv deadline rounds t d :
  0 < iv → spaced iv t rounds → rounds ≠ [] →
  deadline - t < Z.of_nat (length rounds) * iv →
  is_Some (Lock_loop l k owner ms iv deadline rounds d).
Proof.
  intros Hiv. revert t d. induction rounds as [|r rounds IH]; intros t d Hsp Hne Hlen; [done|].
  cbn [Lock_loop]. destruct Hsp as [Hr Hsp]. cbn [length] in Hlen.
  destruct (tryAcquire _ _ _ _ _ _) as [d' [tok|e]]; [|eauto].
  destruct (0 <? tok); [eauto|]. destruct (select_done deadline iv r) eqn:Hdone; [eauto|].
  assert (rd_client r + iv <= deadline).
  { unfold select_done in Hdone. destruct (rd_cancelled r); [done|].
    destruct (Z.compare_spec deadline (rd_client r + iv)); [lia|done|lia]. }
  apply (IH (rd_client r + iv)); [done| |lia]. intros ->. cbn [length] in Hlen. lia.
Qed.

Lemma lock_interval_pos retry : 0 < lock_interval retry.
Proof. unfold lock_interval, defaultLockRetryInterval, Millisecond. destruct (Z.leb_spec retry 0); lia. Qed.

Lemma spaced_app iv t rs rs' : spaced iv t (rs ++ rs') → spaced iv t rs.
Proof. revert t. induction rs as [|r rs IH]; intros t; [done|]. intros [Hr Hs]. split; [done|by apply IH]. Qed.

Lemma Lock_loop_app l k owner ms iv deadline rs rs' d x :
  Lock_loop l k owner ms iv deadline rs d = Some x → Lock_loop l k owner ms iv deadline (rs ++ rs') d = Some x.
Proof.
  revert d. induction rs as [|r rs IH]; intros d; [done|]. cbn [Lock_loop app].
  destruct (tryAcquire _ _ _ _ _ _) as [d' [tok|e]]; [|done]. destruct (0 <? tok); [done|]. destruct (select_done _ _ _); [done|apply IH].
Qed.

(** How round [rd] ended the loop. *)
Definition decided l k owner ms iv deadline (rd : round (db := db)) l' (d' : db) (r : result lock_error Z) : Prop :=
  ∃ d0 res, tryAcquire (rd_fate rd) (rd_server rd) k owner ms d0 = (d', res) ∧
  match res with
  | Err e => l' = l ∧ r = Err (ErrAcquisition k e)
  | Ok tok =>
      if 0 <? tok then r = Ok tok ∧ FencingToken l' k = (tok, true) ∧ ∀ k', k' ≠ k → lockStore l' !! k' = lockStore l !! k'
      else l' = l ∧ r = Err ErrLockNotAcquired ∧ (rd_cancelled rd = true ∨ deadline <= rd_client rd + iv)
  end.

Lemma Lock_loop_decided l k owner ms iv deadline rs d l' d' r :
  Lock_loop l k owner ms iv deadline rs d = Some (l', d', r) →
  ∃ before rd rest, rs = before ++ rd :: rest ∧ decided l k owner ms iv deadline rd l' d' r.
Proof.
  revert d. induction rs as [|rd rs IH]; intros d; [done|]. cbn [Lock_loop].
  destruct (tryAcquire _ _ _ _ _ _) as [d1 [tok|e]] eqn:Et.
  2: { intros [= <- <- <-]. exists [], rd, rs. split; [done|]. by eexists _, _. }
  destruct (0 <? tok) eqn:Htok.
  { intros [= <- <- <-]. exists [], rd, rs. split; [done|]. eexists _, _. split; [exact Et|]. cbn. rewrite Htok. split_and!; [done| |].
    - apply (FencingToken_state _ _ {| g_locker := 0; g_key := k; g_token := tok; g_owner := owner |}); [apply lookup_insert_eq|cbn; lia].
    - intros k' Hk'. by apply lookup_insert_ne. }
  destruct (select_done deadline iv rd) eqn:Hdone.
  { intros [= <- <- <-]. exists [], rd, rs. split; [done|]. eexists _, _. split; [exact Et|]. cbn. rewrite Htok. split_and!; [done|done|].
    unfold select_done in Hdone. destruct (rd_cancelled rd); [by left|right].
    destruct (Z.compare_spec deadline (rd_client rd + iv)); [lia|lia|done]. }
  intros E. destruct (IH _ E) as (before & rd' & rest & -> & Hd). by exists (rd :: before), rd', rest.
Qed.

(** What a waiter needs of a round that starts at [t]: the request gets through, nobody
    cancels, other clients leave the lock and its counter alone, the server's clock has
    reached [t] (in milliseconds), and the round trip takes at most [lat]. *)
Definition quiet (k : string) (lat t : Z) (r : round (db := db)) : Prop :=
  rd_fate r = Delivered ∧ rd_cancelled r = false ∧
  (∀ d, r_entry (rd_others r d) k = r_entry d k ∧
        r_entry (rd_others r d) (fencingCounterKey k) = r_entry d (fencingCounterKey k)) ∧
  t / Millisecond <= rd_server r ∧ clock_ok (rd_server r) ∧
  t <= rd_client r <= t + lat.

Fixpoint quiet_rounds (k : string) (lat iv t : Z) (rounds : list round) : Prop :=
  match rounds with
  | [] => True
  | r :: rounds => quiet k lat t r ∧ quiet_rounds k lat iv (rd_client r + iv) rounds
  end.

Lemma Lock_loop_acquires l k owner expiry iv lat deadline rounds t d v lease n :
  0 < iv → 0 <= lat → 0 < expiry → is_i64 expiry → 0 <= n → lua_printable (n + 1) →
  r_entry d k = Some (v, Some lease) → counter_is d (fencingCounterKey k) n →
  quiet_rounds k lat iv t rounds → rounds ≠ [] →
  lease * Millisecond - t <= (Z.of_nat (length rounds) - 1) * iv →
  lease * Millisecond + lat + iv < deadline →
  ∃ d' rd, rd ∈ rounds ∧ Lock_loop l k owner (durationMilliseconds expiry) iv deadline rounds d =
    Some (lockStore_Store l k {| value := lockValue (n + 1) owner; token := n + 1 |}, d', Ok (n + 1)) ∧
    r_entry d' k = Some (RString (lockValue (n + 1) owner), Some (rd_server rd + durationMilliseconds expiry)) ∧
    rd_client rd <= Z.max t (lease * Millisecond + lat + iv) + lat.
Proof.
  intros Hiv Hlat Hex Hi Hn Hp. revert t d.
  induction rounds as [|r rounds IH]; intros t d He Hc Hq Hne Hlen Hdl; [done|].
  cbn [Lock_loop]. destruct Hq as [(Hf & Hcan & Ho & Hsrv & Hclk & Hcl) Hq]. rewrite Hf.
  destruct (Ho d) as [Ho1 Ho2]. set (d0 := rd_others r d) in *. rewrite <-Ho1 in He.
  assert (counter_is d0 (fencingCounterKey k) n) as Hc0 by (unfold counter_is in *; by rewrite Ho2).
  pose proof (lease_expiry_valid _ _ Hclk Hex Hi) as Hms.
  destruct (live d0 (rd_server r) k) as [v'|] eqn:El.
  - rewrite (tryAcquire_held _ _ _ _ _ v') by done. cbn.
    assert (rd_server r < lease) as Hlt.
    { destruct (Z.lt_ge_cases (rd_server r) lease); [done|]. by rewrite (live_expired _ _ _ v lease) in El. }
    pose proof (Z.div_mod t Millisecond ltac:(done)). pose proof (Z.mod_pos_bound t Millisecond ltac:(done)).
    assert (t < lease * Millisecond) by (unfold Millisecond in *; lia).
    assert (select_done deadline iv r = false) as ->.
    { unfold select_done. rewrite Hcan. destruct (Z.compare_spec deadline (rd_client r + iv)); [lia..|done]. }
    cbn [length] in Hlen. destruct rounds as [|r' rounds]; [cbn in Hlen; lia|].
    destruct (IH (rd_client r + iv) d0) as (d' & rd & Hin & EL & Hv & Hrd); [done..|lia|done|].
    exists d', rd. split_and!; [by apply list_elem_of_further|done|done|lia].
  - destruct (tryAcquire_free d0 (rd_server r) k owner (durationMilliseconds expiry) n)
      as (d' & -> & Hv & _); [done..|].
    destruct (Z.ltb_spec 0 (n + 1)); [|lia]. exists d', r. split_and!; [apply list_elem_of_here|done|done|lia].
Qed.

End waiting.

(** (C38) Termination of [Lock]. The retry loop ends after at most
    [(deadline - start) / interval + 1] attempts, where the deadline is the context's or the
    default timeout from the call on, and a non-positive interval is replaced by the
    default one. The last attempt decides: it got the lock, which is then recorded; the
    server, or the way to it, failed, and the error is reported; or the key was held and the
    call was cancelled or its deadline came within the next interval. Without a token the
    locker is unchanged; a lease that is not positive is refused without any attempt. *)
Theorem Lock_terminates {db} `{RedisLaws db} l ctx called k owner expiry retry start rounds (d : db) :
  let iv := lock_interval retry in
  let deadline := lock_deadline l ctx called in
  spaced iv start rounds →
  Z.max 0 ((deadline - start) / iv) < Z.of_nat (length rounds) →
  ∃ l' d' r, Lock l ctx called k owner expiry retry rounds d = Some (l', d', r) ∧
  if expiry <=? 0 then l' = l ∧ d' = d ∧ r = Err (ErrMessage "lock expiry must be positive")
  else ∃ before rd rest, rounds = before ++ rd :: rest ∧
    Z.of_nat (length before) <= Z.max 0 ((deadline - start) / iv) ∧
    decided l k owner (durationMilliseconds expiry) iv deadline rd l' d' r.
Proof.
  intros iv deadline Hsp Hlen. unfold Lock. destruct (expiry <=? 0); [by eexists _, _, _|]. fold iv deadline.
  pose proof (lock_interval_pos retry : 0 < iv) as Hiv. set (n := Z.max 0 ((deadline - start) / iv)) in *.
  rewrite <- (take_drop (S (Z.to_nat n)) rounds) in Hsp |- *.
  assert (length (take (S (Z.to_nat n)) rounds) = S (Z.to_nat n)) as Ht by (rewrite length_take; lia).
  apply spaced_app in Hsp. set (rs := take (S (Z.to_nat n)) rounds) in *. generalize (drop (S (Z.to_nat n)) rounds). intros more.
  destruct (Lock_loop_returns l k owner (durationMilliseconds expiry) iv deadline rs start d) as [[[l' d'] r] E]; [done..| | |].
  - by intros ->.
  - rewrite Ht. pose proof (Z.div_mod (deadline - start) iv ltac:(lia)).
    pose proof (Z.mod_pos_bound (deadline - start) iv Hiv). unfold n. nia.
  - exists l', d', r. split; [by apply Lock_loop_app|].
    destruct (Lock_loop_decided _ _ _ _ _ _ _ _ _ _ _ E) as (before & rd & rest & Hrs & Hd).
    exists before, rd, (rest ++ more). split; [by rewrite Hrs, <- app_assoc|]. split; [|done].
    rewrite Hrs, length_app in Ht. cbn in Ht. lia.
Qed.

(** (C16) Liveness of [Lock]. A waiter gets the lock: if the current lease ends one retry
    interval and one round trip before the waiter's deadline, its requests get through
    and no other client takes the key, then [Lock] returns the next fencing token, records
    it locally and the server stores the new owner's value. The attempt [rd] that succeeds
    is answered at most one retry interval and two round trips after the lease ended, or
    one round trip after the first attempt when that comes later. *)
Theorem waiter_acquires {db} `{RedisLaws db} l ctx called k owner expiry retry lat start rounds
    (d : db) v lease n :
  0 <= lat → 0 < expiry → is_i64 expiry → 0 <= n → n + 1 < 10 ^ 14 →
  r_entry d k = Some (v, Some lease) → counter_is d (fencingCounterKey k) n →
  quiet_rounds k lat (lock_interval retry) start rounds →
  rounds ≠ [] →
  lease * Millisecond - start <= (Z.of_nat (length rounds) - 1) * lock_interval retry →
  lease * Millisecond + lat + lock_interval retry < lock_deadline l ctx called →
  ∃ l' d' rd, rd ∈ rounds ∧
    Lock l ctx called k owner expiry retry rounds d = Some (l', d', Ok (n + 1)) ∧
    FencingToken l' k = (n + 1, true) ∧
    r_entry d' k = Some (RString (lockValue (n + 1) owner), Some (rd_server rd + durationMilliseconds expiry)) ∧
    rd_client rd <= Z.max start (lease * Millisecond + lat + lock_interval retry) + lat.
Proof.
  intros Hlat Hex Hi Hn Hp He Hc Hq Hne Hlen Hdl. unfold Lock.
  destruct (Z.leb_spec expiry 0); [lia|].
  destruct (Lock_loop_acquires l k owner expiry (lock_interval retry) lat (lock_deadline l ctx called)
    rounds start d v lease n) as (d' & rd & Hin & -> & Hv & Hrd); try done; [apply lock_interval_pos|unfold lua_printable; lia|].
  eexists _, d', rd. split_and!; [done|done| |done|done].
  apply (FencingToken_state _ _ {| g_locker := 0; g_key := k; g_token := n + 1; g_owner := owner |});
    [apply lookup_insert_eq|cbn; lia].
Qed.

(** ** The handlers are runs of the system *)

Section runs.
Context {db : Type} `{RedisLaws db} (lock_key : string → Prop).
Hypothesis separate : ∀ k k', lock_key k → lock_key k' → fencingCounterKey k ≠ k'.

(** What follows an event of locker [i]: the server's part is [s1], the handler's local
    deletion, if any, comes after it, and the other lockers are as before. *)
Definition after (s : system db) (i : nat) (l : RedisLocker) (d : db) (s' : system db) : Prop :=
  rtc (step lock_key) s s' ∧ sys_db s' = d ∧ sys_now s' = sys_now s ∧
  ∀ j, sys_lockers s' j = if decide (i = j) then l else sys_lockers s j.

Lemma after_lockers (f : nat → RedisLocker) i l j : <[i := l]> f j = if decide (i = j) then l else f j.
Proof. unfold insert, fn_insert. by destruct (decide _). Qed.

Lemma same_lockers (f : nat → RedisLocker) i j : f j = if decide (i = j) then f i else f j.
Proof. by destruct (decide (i = j)) as [->|]. Qed.

Lemma local_delete s s1 i k (local : bool) :
  step lock_key s s1 → sys_lockers s1 = sys_lockers s → sys_now s1 = sys_now s →
  sys_deletes s1 = (if local then (i, k) :: sys_deletes s else sys_deletes s) →
  ∃ s', after s i (if local then lockStore_Delete (sys_lockers s i) k else sys_lockers s i) (sys_db s1) s' ∧
    sys_history s' = sys_history s1.
Proof.
  intros Hs Hl Hn Hd. destruct local.
  - eexists. split; [split_and!|].
    + eapply rtc_l; [exact Hs|]. apply rtc_once. by apply (step_delete lock_key s1 i k [] (sys_deletes s)).
    + done.
    + done.
    + intros j. cbn [sys_lockers]. by rewrite Hl, after_lockers.
    + done.
  - exists s1. split; [|done]. split_and!; [by apply rtc_once|done|done|]. intros j. rewrite Hl. apply same_lockers.
Qed.

(** A success a handler reports is one of the server. *)
Lemma unlock_eval_ok f now l k (d d' : db) gs local :
  key_inv d gs k → unlock_eval f now l k d = (d', (local, Ok ())) →
  ∃ st, lockState l k = (st, true) ∧ released f now l k d = Some st.
Proof.
  intros Hinv. unfold unlock_eval, released, lockState. destruct (lockStore l !! k) as [v|]; [|done].
  destruct (redisLockStateFromValue v) as [st []]; cbn [negb]; [|done]. intros E. exists st. split; [done|].
  destruct f; cbn [Eval] in E; [|done|done].
  destruct (decide (live d now k = Some (RString (value st)))) as [Hl|Hl].
  - by destruct (unlock_own d now k _ Hl) as (d1 & -> & _).
  - rewrite unlock_other in E; [| |done]; [|by intros h Hh; destruct (key_inv_live _ _ _ _ _ Hinv Hh)].
    cbn [mbind result_bind] in E. by rewrite lua_reply_small in E by lia.
Qed.

Lemma extend_eval_ok f now l k ext (d d' : db) gs local :
  key_inv d gs k → clock_ok now → is_i64 ext → extend_eval f now l k ext d = (d', (local, Ok ())) →
  ∃ st, lockState l k = (st, true) ∧ extended f now l k ext d = Some st.
Proof.
  intros Hinv Hclk Hi. unfold extend_eval, extended, lockState. destruct (Z.leb_spec ext 0) as [|Hext]; [done|].
  destruct (lockStore l !! k) as [v|]; [|done].
  destruct (redisLockStateFromValue v) as [st []]; cbn [negb]; [|done]. intros E. exists st. split; [done|].
  destruct f; cbn [Eval] in E; [|done|done].
  destruct (decide (live d now k = Some (RString (value st)))) as [Hl|Hl].
  - by destruct (extend_own d now k _ _ Hl (lease_expiry_valid now ext Hclk Hext Hi)) as (d1 & -> & _).
  - rewrite extend_other in E; [| |done]; [|by intros h Hh; destruct (key_inv_live _ _ _ _ _ Hinv Hh)].
    cbn [mbind result_bind] in E. by rewrite lua_reply_small in E by lia.
Qed.

Lemma Unlock_run s i k f l d r :
  lock_inv lock_key s → lock_key k → Unlock f (sys_now s) (sys_lockers s i) k (sys_db s) = (l, d, r) →
  ∃ s', after s i l d s' ∧
    (r = Ok () → ∃ st, lockState (sys_lockers s i) k = (st, true) ∧ sys_history s' = Released i k st :: sys_history s).
Proof.
  intros (_ & Hkeys & _) Hk E. unfold Unlock in E.
  destruct (unlock_eval f _ _ k _) as [d' [local r']] eqn:Ev. simplify_eq.
  destruct (local_delete s _ i k local (step_unlock lock_key s i k f d local r Hk Ev)) as (s' & Ha & Hh); [done..|].
  exists s'. split; [done|]. intros ->. destruct (unlock_eval_ok _ _ _ _ _ _ _ _ (Hkeys k Hk) Ev) as (st & Hst & Hr).
  exists st. split; [done|]. rewrite Hh. cbn. by rewrite Hr.
Qed.

Lemma Extend_run s i k ext f l d r :
  lock_inv lock_key s → lock_key k → is_i64 ext → Extend f (sys_now s) (sys_lockers s i) k ext (sys_db s) = (l, d, r) →
  ∃ s', after s i l d s' ∧
    (r = Ok () → ∃ st, lockState (sys_lockers s i) k = (st, true) ∧
       sys_history s' = Extended i k st (sys_now s + durationMilliseconds ext) :: sys_history s).
Proof.
  intros (Hclk & Hkeys & _) Hk Hi E. unfold Extend in E.
  destruct (extend_eval f _ _ k ext _) as [d' [local r']] eqn:Ev. simplify_eq.
  destruct (local_delete s _ i k local (step_extend lock_key s i k ext f d local r Hk Hi Ev)) as (s' & Ha & Hh); [done..|].
  exists s'. split; [done|]. intros ->. destruct (extend_eval_ok _ _ _ _ _ _ _ _ _ (Hkeys k Hk) Hclk Hi Ev) as (st & Hst & Hr).
  exists st. split; [done|]. rewrite Hh. cbn. by rewrite Hr.
Qed.

(** The state after an attempt of locker [i]. *)
Definition attempted (s : system db) (i : nat) (k owner : string) (expiry : Z) (f : fate) (s' : system db) : Prop :=
  step lock_key s s' ∧ sys_lockers s' = sys_lockers s ∧ sys_now s' = sys_now s ∧
  sys_db s' = (tryAcquire f (sys_now s) k owner (durationMilliseconds expiry) (sys_db s)).1.

(** The rounds of a [Lock] call of locker [i] as the system sees them. Between two attempts
    there is any run of the system, in which other lockers may acquire, renew and release
    the key, but nobody else uses the local map of [i]. *)
Fixpoint system_rounds (i : nat) (k owner : string) (expiry : Z) (s : system db) (rounds : list (round (db := db))) : Prop :=
  match rounds with
  | [] => True
  | r :: rounds =>
      ∃ s1, rtc (step lock_key) s s1 ∧ sys_lockers s1 i = sys_lockers s i ∧
        sys_now s1 = rd_server r ∧ sys_db s1 = rd_others r (sys_db s) ∧
        ∀ s2, attempted s1 i k owner expiry (rd_fate r) s2 → system_rounds i k owner expiry s2 rounds
  end.

Lemma reachable_run s s' : lock_reachable lock_key s → rtc (step lock_key) s s' → lock_reachable lock_key s'.
Proof. intros Hr. induction 1 as [|s s1 s' Hs _ IH]; [done|]. apply IH. by apply (reach_step _ s). Qed.

Lemma tryAcquire_issued f now k owner ms (d d' : db) gs tok :
  key_inv d gs k → int_expiry now ms = true → lua_printable (Z.of_nat (length (key_grants k gs)) + 1) →
  tryAcquire f now k owner ms d = (d', Ok tok) → 0 < tok → issued f now k owner ms d = Some tok.
Proof.
  intros Hinv Hms Hp E Htok. pose proof (tryAcquire_cases f now k owner ms d gs Hinv Hms Hp) as Hc. rewrite E in Hc.
  destruct Hc as [(_ & _ & Hz)|(Hi & Ht & _)]; [specialize (Hz tok eq_refl); lia|]. by rewrite (Ht tok eq_refl).
Qed.

(** The grant a successful [Lock] reports is the newest event of the history. *)
Definition grant_recorded (s : system db) i k owner expiry (r : result lock_error Z) : Prop :=
  ∀ tok, r = Ok tok → ∃ earlier,
    sys_history s = Granted {| g_locker := i; g_key := k; g_token := tok; g_owner := owner |}
      (sys_now s) (sys_now s + durationMilliseconds expiry) :: earlier.

Lemma Lock_loop_run s i k owner expiry iv dl rounds l d r :
  lock_reachable lock_key s → lock_key k → 0 < expiry → is_i64 expiry → system_rounds i k owner expiry s rounds →
  Lock_loop (sys_lockers s i) k owner (durationMilliseconds expiry) iv dl rounds (sys_db s) = Some (l, d, r) →
  ∃ s', rtc (step lock_key) s s' ∧ sys_db s' = d ∧ sys_lockers s' i = l ∧
    (tokens_left s' → grant_recorded s' i k owner expiry r).
Proof.
  intros Hr Hk Hex Hi. revert s Hr. induction rounds as [|rd rounds IH]; intros s Hr Hrs E; [done|].
  cbn [Lock_loop] in E. destruct Hrs as (s1 & Hrun & Hl & Hnow & Hdb & Hnext). rewrite <- Hdb, <- Hnow in E.
  destruct (tryAcquire (rd_fate rd) (sys_now s1) k owner (durationMilliseconds expiry) (sys_db s1)) as [d1 res] eqn:Et.
  pose proof (step_acquire lock_key s1 i k owner expiry (rd_fate rd) d1 res Hk Hex Hi Et) as Hstep.
  set (s2 := Build_system _ _ _ _ _ _ _ _) in Hstep.
  assert (rtc (step lock_key) s s2) as Hrun2 by (by eapply rtc_r).
  pose proof (reachable_run s s1 Hr Hrun) as Hr1.
  assert (attempted s1 i k owner expiry (rd_fate rd) s2) as Hatt by (split_and!; [done|done|done|by rewrite Et]).
  destruct res as [tok|e]; [|by simplify_eq; exists s2]. destruct (0 <? tok) eqn:Htok.
  - simplify_eq. eexists. split_and!.
    + eapply rtc_r; [exact Hrun2|].
      apply (step_store lock_key s2 i k {| value := lockValue tok owner; token := tok |} [] (sys_stores s1)).
      subst s2. cbn [sys_stores]. done.
    + done.
    + cbn [sys_lockers]. rewrite fn_lookup_insert. subst s2. cbn [sys_lockers]. by rewrite Hl.
    + unfold tokens_left. cbn [sys_grants]. intros Hlen tok' [= <-].
      assert (tokens_left s1) as Hlen1 by (by apply (tokens_left_before lock_key s1 s2)).
      destruct (reachable_inv lock_key separate s1 Hr1 Hlen1) as (Hclk & Hkeys & _).
      subst s2. cbn [sys_history sys_now].
      rewrite (tryAcquire_issued _ _ _ _ _ _ _ (sys_grants s1) tok (Hkeys k Hk) (lease_expiry_valid _ _ Hclk Hex Hi)
        (tokens_left_printable s1 k Hlen1) Et) by lia. by eexists.
  - destruct (select_done dl iv rd); [by simplify_eq; exists s2|].
    destruct (IH s2 (reach_step _ _ _ Hr1 Hstep) (Hnext s2 Hatt)) as (s' & Hr' & Hd' & Hl' & Hg'); [by rewrite <- Hl in E|].
    exists s'. split_and!; [by etrans|done..].
Qed.

End runs.

(** (C19) The handlers implement the system. In a reachable state a call of [Unlock] or
    [Extend] by locker [i], with any fate of its request, ends in a state that steps of the
    system reach, with the database and the locker the handler left, the other lockers
    untouched; one of [Lock] does so whatever run of the system, with contending lockers,
    comes between its attempts, as long as no other goroutine uses its local map. A success
    is one of the server: the newest event of the history is the grant with the returned
    token and the whole lease, the release, or the renewal for the state the locker had. So
    mutual exclusion and fencing hold for programs made of these calls. *)
Theorem handlers_are_runs {db} `{RedisLaws db} (lock_key : string → Prop) (s : system db) i k :
  (∀ k k', lock_key k → lock_key k' → fencingCounterKey k ≠ k') →
  lock_reachable lock_key s → tokens_left s → lock_key k →
  (∀ ctx called owner expiry retry rounds l d r,
     is_i64 expiry → system_rounds lock_key i k owner expiry s rounds →
     Lock (sys_lockers s i) ctx called k owner expiry retry rounds (sys_db s) = Some (l, d, r) →
     ∃ s', rtc (step lock_key) s s' ∧ sys_db s' = d ∧ sys_lockers s' i = l ∧
       (tokens_left s' → grant_recorded s' i k owner expiry r)) ∧
  (∀ f l d r, Unlock f (sys_now s) (sys_lockers s i) k (sys_db s) = (l, d, r) →
     ∃ s', after lock_key s i l d s' ∧
       (r = Ok () → ∃ st, lockState (sys_lockers s i) k = (st, true) ∧ sys_history s' = Released i k st :: sys_history s)) ∧
  (∀ f ext l d r, is_i64 ext → Extend f (sys_now s) (sys_lockers s i) k ext (sys_db s) = (l, d, r) →
     ∃ s', after lock_key s i l d s' ∧
       (r = Ok () → ∃ st, lockState (sys_lockers s i) k = (st, true) ∧
          sys_history s' = Extended i k st (sys_now s + durationMilliseconds ext) :: sys_history s)).
Proof.
  intros Hsep Hr Hlen Hk. pose proof (reachable_inv lock_key Hsep s Hr Hlen) as Hinv. split_and!.
  - intros ctx called owner expiry retry rounds l d r Hi Hrs E. unfold Lock in E.
    destruct (Z.leb_spec expiry 0); [|by eapply Lock_loop_run].
    simplify_eq. exists s. split_and!; [apply rtc_refl|done..].
  - intros f l d r E. by apply (Unlock_run lock_key s i k f).
  - intros f ext l d r Hi E. by apply (Extend_run lock_key s i k ext f).
Qed.

(** ** Where the protocol is weaker than documented *)

(** The fencing counter of a key is itself a key that callers may lock, and the two
    collide. Once a token was issued for [k], a lock on ["k:fence"] can never be
    acquired, at any time; while ["k:fence"] is locked, locking [k] fails with an error. *)
Theorem fence_key_collision {db} `{RedisLaws db} (d : db) now k owner ms n v :
  (1 <= n → counter_is d (fencingCounterKey k) n →
   tryAcquire Delivered now (fencingCounterKey k) owner ms d = (d, Ok 0)) ∧
  (0 <= n → live d now k = None → live d now (fencingCounterKey k) = Some (RString (lockValue n v)) →
   tryAcquire Delivered now k owner ms d = (d, Err (ErrRedis ENotInteger))).
Proof.
  split.
  - intros Hn Hc. apply (tryAcquire_held _ _ _ _ _ (RString (pretty n))).
    unfold live, counter_is in *. rewrite Hc, decide_False by lia. done.
  - intros Hn Hk Hf. unfold tryAcquire, Eval, acquire_script. rewrite EXISTS_law, Hk. simpl.
    rewrite (INCR_not_number _ _ _ (lockValue n v)); [done|done|].
    intros m _ E. assert (has_char colon (pretty m)) as Hm.
    { rewrite <-E. unfold lockValue. generalize (pretty n). intros p.
      induction p as [|a p IH]; [by left|by right]. }
    destruct (Z.le_gt_cases 0 m); [by apply pretty_no_colon in Hm|].
    destruct m as [|p|p]; [lia..|].
    assert (has_char colon (pretty (Zpos p))) as Hm'.
    { assert (pretty (Zneg p) = String minus_sign (pretty (Zpos p))) as Ep by done.
      rewrite Ep in Hm. destruct Hm as [Hc|]; [|done]. by vm_compute in Hc. }
    by apply pretty_no_colon in Hm'.
Qed.

(** Two users of one [RedisLocker] are not protected from each other. The local map has
    one entry per key, so when a lease runs out and another goroutine acquires the key
    through the same locker, the first one's [Unlock] succeeds and removes the lock of the
    second. And when that acquisition falls between the server's answer to [Unlock] and
    its local deletion, the new lock stays on the server while the locker no longer knows
    it: [Unlock] reports [ErrLockNotHeld] and leaves the key until its lease ends. *)
Theorem shared_locker_hazards {db} `{RedisLaws db} (d : db) now l k owner expiry n :
  clock_ok now → 0 < expiry → is_i64 expiry → 0 <= n → n + 1 < 10 ^ 14 →
  live d now k = None → counter_is d (fencingCounterKey k) n →
  ∃ d', tryAcquire Delivered now k owner (durationMilliseconds expiry) d = (d', Ok (n + 1)) ∧
    let l' := lockStore_Store l k {| value := lockValue (n + 1) owner; token := n + 1 |} in
    (∃ d'', Unlock Delivered now l' k d' = (lockStore_Delete l' k, d'', Ok ()) ∧ live d'' now k = None) ∧
    (Unlock Delivered now (lockStore_Delete l' k) k d' = (lockStore_Delete l' k, d', Err ErrLockNotHeld) ∧
     live d' now k = Some (RString (lockValue (n + 1) owner))).
Proof.
  intros Hclk Hex Hi Hn Hp Hl Hc. pose proof (lease_expiry_valid _ _ Hclk Hex Hi) as Hms.
  destruct (tryAcquire_free d now k owner (durationMilliseconds expiry) n) as (d' & E & Hv & _);
    [done..|unfold lua_printable; lia|done|].
  exists d'. split; [done|]. intros l'. pose proof (durationMilliseconds_ceil _ Hex) as Hce.
  assert (live d' now k = Some (RString (lockValue (n + 1) owner))) as Hlive
    by (apply (live_fresh _ _ _ (durationMilliseconds expiry)); [done|unfold Millisecond in *; lia]).
  split.
  - unfold Unlock, l'. erewrite unlock_eval_state;
      [|apply lookup_insert_eq|apply lockValue_nonempty].
    cbn [value]. destruct (unlock_own d' now k _ Hlive) as (d2 & E2 & E3 & _). unfold Eval. rewrite E2.
    cbn [mbind result_bind]. rewrite lua_reply_small by lia. cbn. exists d2. split; [done|].
    unfold live. by rewrite E3.
  - split; [|done]. unfold Unlock, unlock_eval. cbn. by rewrite lookup_delete_eq.
Qed.

(** ** Witnesses: two lockers and the key "job" on the map-based server *)

Module LockDemo.
Definition is_job (k : string) : Prop := k = "job".
Definition idle : RedisLocker := {| defaultLockRetryTimeout := 0; lockStore := ∅ |}.
Definition st1 : redisLockState := {| value := "1:a"; token := 1 |}.
Definition st2 : redisLockState := {| value := "2:b"; token := 2 |}.
Definition g1 : grant := {| g_locker := 0; g_key := "job"; g_token := 1; g_owner := "a" |}.
Definition g2 : grant := {| g_locker := 1; g_key := "job"; g_token := 2; g_owner := "b" |}.

(** Locker 0 gets the lock at 1000 ms for one second; its lease is over at 3000 ms, when
    locker 1 gets it. *)
Definition db1 : mapdb :=
  {["job" := (RString "1:a", Some 2000); "job:fence" := (RString "1", None)]}.
Definition db2 : mapdb :=
  {["job" := (RString "2:b", Some 4000); "job:fence" := (RString "2", None)]}.
Definition sys (d : mapdb) now ls ps gs h : system mapdb :=
  {| sys_db := d; sys_now := now; sys_lockers := ls; sys_stores := ps; sys_deletes := [];
     sys_grants := gs; sys_history := h |}.
Definition h1 : list lock_event := [Granted g1 1000 2000].
Definition h2 : list lock_event := Granted g2 3000 4000 :: h1.
Definition ls0 : nat → RedisLocker := λ _, idle.
Definition ls1 : nat → RedisLocker := <[0%nat := lockStore_Store idle "job" st1]> ls0.
Definition ls2 : nat → RedisLocker := <[1%nat := lockStore_Store idle "job" st2]> ls1.
Definition s0 := sys ∅ 1000 ls0 [] [] [].
Definition s1 := sys db1 1000 ls0 [(0%nat, "job", st1)] [g1] h1.
Definition s2 := sys db1 1000 ls1 [] [g1] h1.
Definition s3 := sys db1 3000 ls1 [] [g1] h1.
Definition s4 := sys db2 3000 ls1 [(1%nat, "job", st2)] [g2; g1] h2.
Definition s5 := sys db2 3000 ls2 [] [g2; g1] h2.

Lemma separate_job k k' : is_job k → is_job k' → fencingCounterKey k ≠ k'.
Proof. unfold is_job. intros -> ->. done. Qed.

Lemma job_acquire s i owner tok ps gs h now d d' ls :
  s = sys d now ls ps gs h → is_i64 now →
  tryAcquire Delivered now "job" owner 1000 d = (d', Ok tok) → 0 < tok →
  issued Delivered now "job" owner 1000 d = Some tok →
  step is_job s (sys d' now ls ((i, "job", {| value := lockValue tok owner; token := tok |}) :: ps)
    ({| g_locker := i; g_key := "job"; g_token := tok; g_owner := owner |} :: gs)
    (Granted {| g_locker := i; g_key := "job"; g_token := tok; g_owner := owner |} now (now + 1000) :: h)).
Proof.
  intros -> _ E Htok Ei.
  pose proof (step_acquire is_job (sys d now ls ps gs h) i "job" owner Second Delivered d' (Ok tok)
    eq_refl ltac:(done) ltac:(done) E) as Hs.
  cbn [sys sys_db sys_now sys_lockers sys_stores sys_deletes sys_grants sys_history] in Hs.
  change (durationMilliseconds Second) with 1000 in Hs. rewrite Ei in Hs.
  destruct (Z.ltb_spec 0 tok); [done|lia].
Qed.

Lemma s5_reachable : lock_reachable is_job s5.
Proof.
  apply (reach_step _ s4); [apply (reach_step _ s3); [apply (reach_step _ s2);
    [apply (reach_step _ s1); [apply (reach_step _ s0)|]|]|]|].
  - apply reach_initial. split_and!; try done.
  - apply (job_acquire s0 0 "a" 1 [] [] [] 1000 ∅ db1 ls0); try done; by vm_compute.
  - by apply (step_store is_job s1 0 "job" st1 [] []).
  - by apply (step_time is_job s2 3000).
  - apply (job_acquire s3 1 "b" 2 [] [g1] h1 3000 db1 db2 ls1); try done; by vm_compute.
  - by apply (step_store is_job s4 1 "job" st2 [] []).
Qed.

Lemma s5_holds : holds s5 1 "job".
Proof. exists st2. split; by vm_compute. Qed.
End LockDemo.

(** The second grant came after the deadline of the first, and only its locker holds the key. *)
Lemma lock_mutual_exclusion_witness :
  deadline_of LockDemo.g1 2000 [] <= 3000 ∧ FencingToken (LockDemo.ls2 1%nat) "job" = (2, true) ∧ ¬ holds LockDemo.s5 0 "job".
Proof.
  destruct (lock_mutual_exclusion LockDemo.is_job LockDemo.s5 LockDemo.separate_job LockDemo.s5_reachable) as [Hover Hone]; [done|].
  split_and!.
  - destruct (Hover [] LockDemo.g2 3000 4000 [] LockDemo.g1 1000 2000 []) as [Hr|Hd]; [done..|by apply elem_of_nil in Hr|exact Hd].
  - apply (Hone 1%nat 1%nat "job"); [done|apply LockDemo.s5_holds..].
  - intros H0. destruct (Hone 0%nat 1%nat "job") as [? _]; [done|done|apply LockDemo.s5_holds|done].
Defined.

Lemma fencing_tokens_increase_witness : 1 <= g_token LockDemo.g1 < g_token LockDemo.g2.
Proof.
  by apply (fencing_tokens_increase LockDemo.is_job LockDemo.s5 [] LockDemo.g2 [] LockDemo.g1 []
    LockDemo.separate_job LockDemo.s5_reachable).
Defined.

(** At 3000 ms the lock of locker 0 is no longer its own: its [Unlock] and [Extend] fail. *)
Lemma Unlock_Extend_ownership_witness :
  Unlock Delivered 3000 (LockDemo.ls1 0%nat) "job" LockDemo.db2
    = (lockStore_Delete (LockDemo.ls1 0%nat) "job", LockDemo.db2, Err ErrLockNotHeld) ∧
  Extend Delivered 3000 (LockDemo.ls1 0%nat) "job" Second LockDemo.db2
    = (lockStore_Delete (LockDemo.ls1 0%nat) "job", LockDemo.db2, Err ErrLockNotHeld).
Proof.
  pose proof (Unlock_Extend_ownership LockDemo.db2 3000 (LockDemo.ls1 0%nat) "job" LockDemo.st1 Second)
    as Hspec.
  destruct (decide _) as [E|_] in Hspec; [by vm_compute in E|]. by apply Hspec.
Defined.

Definition poll (t : Z) : round (db := mapdb) :=
  {| rd_others := id; rd_server := t / Millisecond; rd_fate := Delivered; rd_client := t;
     rd_cancelled := false; rd_tie := false |}.

Definition polls : list round := map (λ i, poll (1500 * Millisecond + i * (100 * Millisecond))) (seqZ 0 7).

Lemma Lock_terminates_witness :
  ∃ l' d' r, Lock LockDemo.idle (Some (1900 * Millisecond)) 0 "job" "c" Second 0 polls LockDemo.db1
    = Some (l', d', r) ∧
  ∃ before rd rest, polls = before ++ rd :: rest ∧ Z.of_nat (length before) <= 4 ∧
    decided LockDemo.idle "job" "c" 1000 (100 * Millisecond) (1900 * Millisecond) rd l' d' r.
Proof.
  apply (Lock_terminates LockDemo.idle (Some (1900 * Millisecond)) 0 "job" "c" Second 0
    (1500 * Millisecond)); [|by vm_compute].
  by repeat split; vm_compute.
Defined.

(** Locker 0's lease ends at 2000 ms; a third locker polling every 100 ms from 1500 ms on
    gets token 2. *)
Lemma waiter_acquires_witness :
  ∃ l' d' rd, rd ∈ polls ∧
    Lock LockDemo.idle (Some (3000 * Millisecond)) 0 "job" "c" Second 0 polls LockDemo.db1
      = Some (l', d', Ok 2) ∧
    FencingToken l' "job" = (2, true) ∧
    r_entry d' "job" = Some (RString "2:c", Some (rd_server rd + 1000)) ∧
    rd_client rd <= 2100 * Millisecond.
Proof.
  apply (waiter_acquires LockDemo.idle (Some (3000 * Millisecond)) 0 "job" "c" Second 0 0
    (1500 * Millisecond) polls LockDemo.db1 (RString "1:a") 2000 1); done.
Defined.

(** A waiting [Lock]: the key is held at 3000 ms, its holder releases it, and the attempt at
    3100 ms gets it. *)
Definition contended : list (round (db := mapdb)) :=
  [{| rd_others := id; rd_server := 3000; rd_fate := Delivered; rd_client := 3000 * Millisecond; rd_cancelled := false; rd_tie := false |};
   {| rd_others := delete "job"; rd_server := 3100; rd_fate := Delivered; rd_client := 3100 * Millisecond; rd_cancelled := false; rd_tie := false |}].

Lemma contended_rounds : system_rounds LockDemo.is_job 2 "job" "c" Second LockDemo.s5 contended.
Proof.
  exists LockDemo.s5. split_and!; [apply rtc_refl|done..|]. intros s2 (_ & Hl & Hn & Hd).
  change (sys_now LockDemo.s5) with 3000 in Hn. assert (sys_db s2 = LockDemo.db2) as Hdb by (rewrite Hd; by vm_compute).
  assert (unlock_eval Delivered (sys_now s2) (sys_lockers s2 1%nat) "job" (sys_db s2) = (delete "job" (sys_db s2), (true, Ok ()))) as Eu.
  { rewrite Hl, Hn, Hdb. by vm_compute. }
  pose proof (step_unlock LockDemo.is_job s2 1 "job" Delivered _ _ _ eq_refl Eu) as Hu.
  eexists. split_and!; [eapply rtc_l; [exact Hu|]; apply rtc_once; apply (step_time _ _ 3100)|..]; try done.
  cbn [sys_now]. rewrite Hn. done.
Qed.

Lemma contended_result : ∃ l d,
  Lock (sys_lockers LockDemo.s5 2%nat) (Some (4000 * Millisecond)) 0 "job" "c" Second 0 contended (sys_db LockDemo.s5) = Some (l, d, Ok 3) ∧
  FencingToken l "job" = (3, true).
Proof. eexists _, _. split; [vm_compute; reflexivity|vm_compute; reflexivity]. Qed.

(** Locker 0, whose lease is over, and locker 1, which has the lock, call [Unlock]; locker 2
    waits for the key. *)
Lemma handlers_are_runs_witness :
  (∃ s', after LockDemo.is_job LockDemo.s5 0 (lockStore_Delete (LockDemo.ls1 0%nat) "job") LockDemo.db2 s') ∧
  (∃ s', after LockDemo.is_job LockDemo.s5 1 (lockStore_Delete (LockDemo.ls2 1%nat) "job") (delete "job" LockDemo.db2) s' ∧
     sys_history s' = Released 1 "job" LockDemo.st2 :: LockDemo.h2) ∧
  (∃ s', rtc (step LockDemo.is_job) LockDemo.s5 s' ∧ FencingToken (sys_lockers s' 2%nat) "job" = (3, true)).
Proof.
  split_and!.
  - destruct (handlers_are_runs LockDemo.is_job LockDemo.s5 0 "job" LockDemo.separate_job LockDemo.s5_reachable) as (_ & Hu & _); [done..|].
    destruct (Hu Delivered (lockStore_Delete (LockDemo.ls1 0%nat) "job") LockDemo.db2 (Err ErrLockNotHeld)) as (s' & Ha & _); [done|by exists s'].
  - destruct (handlers_are_runs LockDemo.is_job LockDemo.s5 1 "job" LockDemo.separate_job LockDemo.s5_reachable) as (_ & Hu & _); [done..|].
    destruct (Hu Delivered (lockStore_Delete (LockDemo.ls2 1%nat) "job") (delete "job" LockDemo.db2) (Ok ())) as (s' & Ha & Hh); [done|].
    exists s'. split; [exact Ha|]. destruct (Hh eq_refl) as (st & Hst & ->). vm_compute in Hst. by injection Hst as <-.
  - destruct (handlers_are_runs LockDemo.is_job LockDemo.s5 2 "job" LockDemo.separate_job LockDemo.s5_reachable) as (HL & _ & _); [done..|].
    destruct contended_result as (l & d & E & Ht).
    destruct (HL (Some (4000 * Millisecond)) 0 "c" Second 0 contended l d (Ok 3) ltac:(done) contended_rounds E) as (s' & Hr & _ & Hl & _).
    exists s'. split; [exact Hr|]. by rewrite Hl.
Defined.

Lemma fence_key_collision_witness :
  tryAcquire Delivered 3000 "job:fence" "c" 1000 LockDemo.db1 = (LockDemo.db1, Ok 0) ∧
  tryAcquire Delivered 3000 "x" "c" 1000 {["x:fence" := (RString "7:o", Some 9000)]}
    = ({["x:fence" := (RString "7:o", Some 9000)]} : mapdb, Err (ErrRedis ENotInteger)).
Proof.
  split.
  - by apply (fence_key_collision LockDemo.db1 3000 "job" "c" 1000 1 "o").
  - by apply (fence_key_collision ({["x:fence" := (RString "7:o", Some 9000)]} : mapdb) 3000 "x" "c" 1000 7 "o").
Defined.

Lemma shared_locker_hazards_witness :
  ∃ d', tryAcquire Delivered 3000 "job" "b" 1000 LockDemo.db1 = (d', Ok 2) ∧
    let l' := lockStore_Store (LockDemo.ls1 0%nat) "job" LockDemo.st2 in
    (∃ d'', Unlock Delivered 3000 l' "job" d' = (lockStore_Delete l' "job", d'', Ok ()) ∧ live d'' 3000 "job" = None) ∧
    (Unlock Delivered 3000 (lockStore_Delete l' "job") "job" d' = (lockStore_Delete l' "job", d', Err ErrLockNotHeld) ∧
     live d' 3000 "job" = Some (RString "2:b")).
Proof.
  by apply (shared_locker_hazards LockDemo.db1 3000 (LockDemo.ls1 0%nat) "job" "b" Second 1).
Defined.
