(* ===== verification/RedisLimiter.v ===== *)
(** * The rate limiter ([src/coordination/concurrency/ratelimiter])

    The token bucket script and [Allow], over the Redis interface, and the factory. Script
    numbers are Lua doubles: here integers within the range doubles represent exactly, on
    which [math.floor(delta / interval)] is integer division, plus the quotients by zero. *)

From Stdlib Require Import ZArith Lia.
From stdpp Require Import base numbers strings gmap list pretty.
From S2P Require Import Prelude Redis RedisLock RedisLockProps.
Local Open Scope Z_scope.

Inductive lua_quotient : Type :=
  | Fin (n : Z)
  | PosInf
  | NaN.

(** [math.floor(delta / refillInterval)] for [delta >= 0]. *)
Definition floor_quotient (delta refillInterval : Z) : lua_quotient :=
  if refillInterval =? 0 then (if delta =? 0 then NaN else PosInf)
  else Fin (Z.div delta refillInterval).

(** [if refill > 0]: the refilled bucket. *)
Definition refilled (maxTokens tokens lastRefill now : Z) (refill : lua_quotient) : Z * Z :=
  match refill with
  | Fin r => if 0 <? r then (Z.min maxTokens (tokens + r), now) else (tokens, lastRefill)
  | PosInf => (maxTokens, now)
  | NaN => (tokens, lastRefill)
  end.

Record RedisLimiter : Type := { maxTokens : Z; interval : Z }.

Definition NewRedisLimiter (max iv : Z) : RedisLimiter := {| maxTokens := max; interval := iv |}.

Inductive limiter_error : Type :=
  | ErrScript (e : rerr)
  | ErrReturnType
  | ErrConfig (msg : string).

Section limiter.
Context {db : Type} `{RedisServer db}.

(** The script from [local allowed = tokens > 0] on. *)
Definition limiter_consume (srv : Z) (key : string) (refillInterval tokens lastRefill : Z) (d : db)
  : db * result rerr lua :=
  let allowed := 0 <? tokens in
  let tokens := if allowed then tokens - 1 else tokens in
  match HMSET srv key [("tokens", lua_arg tokens); ("last", lua_arg lastRefill)] d with
  | (d, Err e) => (d, Err e)
  | (d, Ok _) =>
      let '(d, _) := PEXPIRE srv key (refillInterval * 2) d in (d, Ok (LBool allowed))
  end.

(** [srv] is the server's clock, the other arguments are [KEYS[1]] and [ARGV]. *)
Definition limiter_script (srv : Z) (key : string) (max refillInterval now : Z) (d : db)
  : db * result rerr lua :=
  match HMGET srv key ["tokens"; "last"] d with
  | Err e => (d, Err e)
  | Ok bucket =>
      let tokens := (mjoin (bucket !! 0%nat)) ≫= lua_tonumber in
      let lastRefill := (mjoin (bucket !! 1%nat)) ≫= lua_tonumber in
      let '(tokens, lastRefill) :=
        match tokens with None => (max, Some now) | Some t => (t, lastRefill) end in
      match lastRefill with
      | None => (d, Err (EScript "attempt to perform arithmetic on local 'lastRefill' (a nil value)"))
      | Some lastRefill =>
          let delta := Z.max 0 (now - lastRefill) in
          let refill := floor_quotient delta refillInterval in
          let '(tokens, lastRefill) := refilled max tokens lastRefill now refill in
          limiter_consume srv key refillInterval tokens lastRefill d
      end
  end.

(** [r.interval.Milliseconds()]. *)
Definition interval_ms (r : RedisLimiter) : Z := Z.quot (interval r) Millisecond.

(** [now] is the caller's clock in milliseconds. *)
Definition Allow (f : fate) (srv now : Z) (r : RedisLimiter) (key : string) (d : db)
  : db * result limiter_error bool :=
  let '(d, result) :=
    Eval f (limiter_script srv key (maxTokens r) (interval_ms r) now) d in
  match result with
  | Err e => (d, Err (ErrScript e))
  | Ok (GInt64 allowed) => (d, Ok (allowed =? 1))
  | Ok _ => (d, Err ErrReturnType)
  end.

End limiter.

Record LimiterOptions : Type := {
  Type_ : string;
  Client_is_redis : bool;
  MaxTokens : Z;
  Interval : Z;
}.

Definition RateLimiterTypeRedis : string := "redis".

Definition NewRateLimiter (opts : option LimiterOptions) : result limiter_error RedisLimiter :=
  match opts with
  | None => Err (ErrConfig "options cannot be nil")
  | Some opts =>
      if decide (Type_ opts = RateLimiterTypeRedis) then
        if Client_is_redis opts then Ok (NewRedisLimiter (MaxTokens opts) (Interval opts))
        else Err (ErrConfig "invalid client type for Redis rate limiter")
      else Err (ErrConfig ("unsupported rate limiter type: " +:+ Type_ opts))
  end.

(** ** The bucket *)

Section bucket.
Context {db : Type} `{RedisLaws db}.
Implicit Types (d : db).

(** The bucket of [key] as an idle server shows it at time [srv]: its tokens and the time
    of the last refill, or none. *)
Definition bucket_is (d : db) (srv : Z) (key : string) (b : option (Z * Z)) : Prop :=
  match b with
  | None => live d srv key = None
  | Some (tokens, last) =>
      ∃ h, live d srv key = Some (RHash h) ∧
        h !! "tokens" = Some (pretty tokens) ∧ h !! "last" = Some (pretty last)
  end.

(** The bucket a call decides on, and the one it leaves. *)
Definition at_call (max iv now : Z) (b : option (Z * Z)) : Z * Z :=
  let '(tokens, last) := default (max, now) b in
  refilled max tokens last now (floor_quotient (Z.max 0 (now - last)) iv).

Definition take_token (b : Z * Z) : Z * Z := (if 0 <? b.1 then b.1 - 1 else b.1, b.2).

Definition exact_bucket (b : option (Z * Z)) : Prop :=
  match b with None => True | Some (t, l) => 0 <= t <= 2 ^ 53 ∧ 0 <= l <= 2 ^ 53 end.

Lemma refilled_range max tokens last now q :
  0 <= max <= 2 ^ 53 → 0 <= now <= 2 ^ 53 → exact_bucket (Some (tokens, last)) →
  exact_bucket (Some (refilled max tokens last now q)).
Proof.
  intros Hm Hn [Ht Hl]. destruct q as [r| |]; cbn; [|lia..].
  destruct (Z.ltb_spec 0 r); cbn; lia.
Qed.

Lemma at_call_range max iv now b :
  0 <= max <= 2 ^ 53 → 0 <= now <= 2 ^ 53 → exact_bucket b → exact_bucket (Some (at_call max iv now b)).
Proof.
  intros Hm Hn Hb. unfold at_call. destruct b as [[t l]|]; cbn [default from_option id];
    by apply refilled_range.
Qed.

Lemma take_token_range b : exact_bucket (Some b) → exact_bucket (Some (take_token b)).
Proof. destruct b as [t l]. unfold take_token. cbn. destruct (Z.ltb_spec 0 t); cbn; lia. Qed.

Lemma limiter_consume_spec srv key iv c d :
  exact_bucket (Some c) → 0 <= iv → iv * 2 + srv < 2 ^ 63 →
  (∀ s, live d srv key ≠ Some (RString s)) →
  ∃ d', limiter_consume srv key iv c.1 c.2 d = (d', Ok (LBool (0 <? c.1))) ∧
    only_key key d d' ∧
    (if iv =? 0 then r_entry d' key = None
     else ∃ h, r_entry d' key = Some (RHash h, Some (srv + iv * 2)) ∧
          h !! "tokens" = Some (pretty (take_token c).1) ∧
          h !! "last" = Some (pretty (take_token c).2)).
Proof.
  intros Hc Hiv Hov Hns. pose proof (take_token_range c Hc) as Htk. destruct c as [t l].
  destruct Htk as [Ht Hl]. unfold limiter_consume. cbn [fst snd] in *.
  rewrite !lua_arg_law by (unfold lua_exact; lia).
  set (fvs := [("tokens", pretty (if 0 <? t then t - 1 else t)); ("last", pretty l)]).
  destruct (HMSET_law srv key fvs d Hns) as [E1 E2]; [done|].
  pose proof (HMSET_only srv key fvs d) as Ho1.
  destruct (HMSET srv key fvs d) as [d1 r1]. cbn [fst snd] in *. subst r1.
  set (h := foldl _ _ fvs) in E2.
  assert (live d1 srv key = Some (RHash h)) as Hlive.
  { unfold live. rewrite E2. unfold live_entry, alive.
    destruct (r_entry d key) as [[v [t'|]]|]; cbn; [|done|done].
    destruct (Z.ltb_spec srv t'); cbn; [|done]. by destruct (Z.ltb_spec srv t'); [|lia]. }
  pose proof (PEXPIRE_only srv key (iv * 2) d1) as Ho2.
  assert (∀ d2, only_key key d1 d2 → only_key key d d2) as Htrans
    by (intros d2 Ho k' Hk'; rewrite (Ho k' Hk'); by apply Ho1).
  destruct (Z.eqb_spec iv 0) as [->|Hne].
  - destruct (PEXPIRE_past srv key (0 * 2) d1 _ Hlive) as [_ E3]; [done|].
    destruct (PEXPIRE srv key (0 * 2) d1) as [d2 n]. cbn [fst] in *. eauto.
  - destruct (PEXPIRE_live srv key (iv * 2) d1 _ Hlive) as [_ E3].
    { unfold int_expiry. apply andb_true_intro. split; apply Z.ltb_lt; lia. }
    destruct (PEXPIRE srv key (iv * 2) d1) as [d2 n]. cbn [fst] in *.
    exists d2. split_and!; [done|by apply Htrans|]. exists h. split; [done|].
    split; unfold h, fvs; cbn [foldl fst snd take_token].
    + rewrite lookup_insert_ne by done. apply lookup_insert_eq.
    + apply lookup_insert_eq.
Qed.

(** What the script does to a bucket. *)
Lemma limiter_script_spec srv key max iv now d b :
  bucket_is d srv key b → exact_bucket b →
  0 <= max <= 2 ^ 53 → 0 <= now <= 2 ^ 53 → 0 <= iv → iv * 2 + srv < 2 ^ 63 →
  let c := at_call max iv now b in
  ∃ d', limiter_script srv key max iv now d = (d', Ok (LBool (0 <? c.1))) ∧
    only_key key d d' ∧
    (if iv =? 0 then r_entry d' key = None
     else ∃ h, r_entry d' key = Some (RHash h, Some (srv + iv * 2)) ∧
          h !! "tokens" = Some (pretty (take_token c).1) ∧
          h !! "last" = Some (pretty (take_token c).2)).
Proof.
  intros Hb Hx Hm Hn Hiv Hov c.
  pose proof (at_call_range max iv now b Hm Hn Hx) as Hc. fold c in Hc.
  assert (∀ s, live d srv key ≠ Some (RString s)) as Hns
    by (intros s; destruct b as [[t l]|]; [destruct Hb as (h & -> & _)|rewrite Hb]; done).
  assert (limiter_script srv key max iv now d = limiter_consume srv key iv c.1 c.2 d) as ->;
    [|by apply limiter_consume_spec].
  unfold limiter_script. rewrite HMGET_law. unfold c, at_call.
  destruct b as [[t l]|]; [destruct Hb as (h & -> & Et & El)|rewrite Hb].
  - destruct Hx as [Ht Hl]. cbn -[Z.pow]. rewrite Et, El. cbn -[Z.pow].
    rewrite !lua_tonumber_law by (unfold lua_exact; lia). by destruct (refilled _ _ _ _ _).
  - cbn. by destruct (refilled _ _ _ _ _).
Qed.

End bucket.

(** ** [Allow] *)

(** Limits within which the numbers of the script are exact. *)
Definition limiter_ok (r : RedisLimiter) : Prop :=
  0 <= maxTokens r <= 2 ^ 53 ∧ 0 < interval_ms r < 2 ^ 53.

Definition call_ok (srv now : Z) : Prop := 0 <= srv < 2 ^ 62 ∧ 0 <= now <= 2 ^ 53.

Section allow.
Context {db : Type} `{RedisLaws db}.
Implicit Types (d : db) (r : RedisLimiter).

Lemma Allow_call srv now r key d b :
  limiter_ok r → call_ok srv now → bucket_is d srv key b → exact_bucket b →
  let c := at_call (maxTokens r) (interval_ms r) now b in
  ∃ d', Allow Delivered srv now r key d
      = (d', if 0 <? c.1 then Ok true else Err (ErrScript ENil)) ∧
    exact_bucket (Some (take_token c)) ∧
    ∀ srv', bucket_is d' srv' key (if srv' <? srv + interval_ms r * 2 then Some (take_token c) else None).
Proof.
  intros [Hm Hiv] [Hs Hn] Hb Hx c.
  destruct (limiter_script_spec srv key (maxTokens r) (interval_ms r) now d b)
    as (d' & E & _ & Hd'); [done..|lia|lia|].
  fold c in E, Hd'. exists d'. split_and!.
  - unfold Allow, Eval. rewrite E. cbn [mbind result_bind].
    destruct (0 <? c.1); [by rewrite lua_reply_true|by rewrite lua_reply_false].
  - by apply take_token_range, at_call_range.
  - intros srv'. destruct (Z.eqb_spec (interval_ms r) 0); [lia|]. destruct Hd' as (h & He & Ht & Hl).
    unfold bucket_is, live. rewrite He. unfold alive. cbn [snd].
    destruct (srv' <? srv + interval_ms r * 2); [|done]. destruct (take_token c). eauto.
Qed.

(** A sequence of calls for a key, each with the server's and the caller's clock; the
    number of requests let through. *)
Fixpoint allow_run (r : RedisLimiter) (key : string) (calls : list (Z * Z)) (d : db) : db * Z :=
  match calls with
  | [] => (d, 0)
  | (srv, now) :: calls =>
      let '(d, res) := Allow Delivered srv now r key d in
      let '(d, n) := allow_run r key calls d in
      (d, match res with Ok true => n + 1 | _ => n end)
  end.

(** Clocks do not run backwards, and no two calls are two refill intervals apart. *)
Fixpoint steady (iv srv now last : Z) (calls : list (Z * Z)) : Prop :=
  match calls with
  | [] => now <= last
  | (srv', now') :: calls =>
      call_ok srv' now' ∧ srv <= srv' < srv + iv * 2 ∧ now <= now' ∧ steady iv srv' now' last calls
  end.

Lemma steady_last iv srv now last calls : steady iv srv now last calls → now <= last.
Proof.
  revert srv now. induction calls as [|[srv' now'] calls IH]; cbn; [done|].
  intros srv now (_ & _ & Hle & Hs). apply IH in Hs. lia.
Qed.

(** Refilling never gives more tokens than intervals passed since the last refill. *)
Lemma refill_budget max iv tokens last now stop :
  0 < iv → 0 <= tokens → last <= now <= stop →
  let c := at_call max iv now (Some (tokens, last)) in
  last <= c.2 <= now ∧ c.1 + (stop - c.2) / iv <= tokens + (stop - last) / iv.
Proof.
  intros Hiv Ht Hle. unfold at_call, floor_quotient. cbn [default from_option id].
  destruct (Z.eqb_spec iv 0); [lia|]. rewrite Z.max_r by lia. cbn [refilled].
  destruct (Z.ltb_spec 0 ((now - last) / iv)) as [Hr|Hr]; cbn [fst snd]; [|lia].
  split; [lia|].
  assert ((now - last) / iv + (stop - now) / iv <= (stop - last) / iv) as Hadd; [|lia].
  apply Z.div_le_lower_bound; [lia|].
  pose proof (Z.mul_div_le (now - last) iv Hiv). pose proof (Z.mul_div_le (stop - now) iv Hiv). lia.
Qed.

Lemma allow_run_budget r key calls d srv now stop tokens last :
  limiter_ok r → steady (interval_ms r) srv now stop calls →
  (∀ srv', srv' < srv + interval_ms r * 2 → bucket_is d srv' key (Some (tokens, last))) →
  exact_bucket (Some (tokens, last)) → last <= now →
  (allow_run r key calls d).2 <= tokens + (stop - last) / interval_ms r.
Proof.
  intros Hr. revert d srv now tokens last.
  induction calls as [|[srv' now'] calls IH]; intros d srv now tokens last Hs Hb Hx Hle.
  - cbn in *. destruct Hx. apply Z.add_nonneg_nonneg; [lia|]. destruct Hr. apply Z.div_pos; lia.
  - destruct Hs as (Hok & Hsrv & Hnow & Hs). pose proof (steady_last _ _ _ _ _ Hs) as Hstop.
    cbn [allow_run].
    destruct (Allow_call srv' now' r key d (Some (tokens, last))) as (d' & -> & Hx' & Hb');
      [done|done|apply Hb; lia|done|].
    destruct Hr as [Hm Hiv]. destruct Hx as [Ht Hl].
    pose proof (refill_budget (maxTokens r) (interval_ms r) tokens last now' stop
      ltac:(lia) ltac:(lia) ltac:(lia)) as [Hc2 Hbud].
    set (c := at_call (maxTokens r) (interval_ms r) now' (Some (tokens, last))) in *.
    destruct (take_token c) as [t' l'] eqn:Etk.
    assert (l' = c.2 ∧ t' = if 0 <? c.1 then c.1 - 1 else c.1) as [-> ->]
      by (unfold take_token in Etk; by simplify_eq).
    assert ((allow_run r key calls d').2 <= (if 0 <? c.1 then c.1 - 1 else c.1) + (stop - c.2) / interval_ms r).
    { apply (IH d' srv' now'); [done| |done|lia]. intros s'' Hlt. specialize (Hb' s'').
      by destruct (Z.ltb_spec s'' (srv' + interval_ms r * 2)); [|lia]. }
    destruct (allow_run r key calls d') as [d'' n]. cbn [snd] in *.
    destruct (0 <? c.1); cbn [snd]; lia.
Qed.

(** As long as the bucket has tokens, calls at one instant are let through. *)
Lemma allow_run_burst r key d srv now tokens k :
  limiter_ok r → call_ok srv now → bucket_is d srv key (Some (tokens, now)) →
  exact_bucket (Some (tokens, now)) → Z.of_nat k <= tokens →
  (allow_run r key (replicate k (srv, now)) d).2 = Z.of_nat k.
Proof.
  intros Hr Hok. revert d tokens. induction k as [|k IH]; intros d tokens Hb Hx Hk; [done|].
  cbn [replicate allow_run].
  destruct (Allow_call srv now r key d (Some (tokens, now))) as (d' & -> & Hx' & Hb'); [done..|].
  assert (at_call (maxTokens r) (interval_ms r) now (Some (tokens, now)) = (tokens, now)) as Hc.
  { unfold at_call, floor_quotient. cbn [default from_option id]. destruct Hr.
    destruct (Z.eqb_spec (interval_ms r) 0); [lia|]. rewrite Z.sub_diag, Z.max_id, Z.div_0_l by lia. done. }
  rewrite Hc in *. unfold take_token in *. cbn [fst snd] in *.
  destruct (Z.ltb_spec 0 tokens) as [_|]; [|lia].
  specialize (Hb' srv). destruct (Z.ltb_spec srv (srv + interval_ms r * 2)); [|destruct Hr; lia].
  pose proof (IH d' (tokens - 1) Hb' Hx' ltac:(lia)) as IH'.
  destruct (allow_run r key (replicate k (srv, now)) d') as [d'' n]. cbn [snd] in *. lia.
Qed.

Lemma allow_run_burst_absent r key d srv now :
  limiter_ok r → call_ok srv now → live d srv key = None →
  (allow_run r key (replicate (Z.to_nat (maxTokens r)) (srv, now)) d).2 = maxTokens r.
Proof.
  intros Hr Hok Hb. destruct (Z.to_nat (maxTokens r)) as [|k] eqn:Ek.
  { destruct Hr. cbn. lia. }
  cbn [replicate allow_run].
  destruct (Allow_call srv now r key d None) as (d' & -> & Hx' & Hb'); [done..|].
  assert (at_call (maxTokens r) (interval_ms r) now None = (maxTokens r, now)) as Hc.
  { unfold at_call, floor_quotient. cbn [default from_option id]. destruct Hr.
    destruct (Z.eqb_spec (interval_ms r) 0); [lia|]. rewrite Z.sub_diag, Z.max_id, Z.div_0_l by lia. done. }
  rewrite Hc in *. unfold take_token in *. cbn [fst snd] in *.
  destruct (Z.ltb_spec 0 (maxTokens r)) as [_|]; [|lia].
  specialize (Hb' srv). destruct (Z.ltb_spec srv (srv + interval_ms r * 2)); [|destruct Hr; lia].
  pose proof (allow_run_burst r key d' srv now (maxTokens r - 1) k Hr Hok Hb' Hx' ltac:(lia)) as Hrun.
  destruct (allow_run r key (replicate k (srv, now)) d') as [d'' n]. cbn [snd] in *. lia.
Qed.

(** The script answers with a boolean, whose [false] the client sees as an error. *)
Lemma Allow_not_false f srv now r key d : (Allow f srv now r key d).2 ≠ Ok false.
Proof.
  assert (∀ (d' : db) b, limiter_script srv key (maxTokens r) (interval_ms r) now d = (d', Ok b) →
    ∃ x, b = LBool x) as Hbool.
  { intros d' b. unfold limiter_script, limiter_consume.
    intros E. repeat case_match; simplify_eq; eauto. }
  unfold Allow, Eval. destruct f; [|done|done].
  destruct (limiter_script srv key (maxTokens r) (interval_ms r) now d) as [d' [b|e]] eqn:E; [|done].
  destruct (Hbool d' b eq_refl) as [[] ->]; cbn [mbind result_bind].
  - by rewrite lua_reply_true.
  - by rewrite lua_reply_false.
Qed.

(** A call for a key without bucket passes and touches no other key. *)
Lemma Allow_fresh srv now r key d :
  limiter_ok r → 0 < maxTokens r → call_ok srv now → live d srv key = None →
  ∃ d', Allow Delivered srv now r key d = (d', Ok true) ∧ only_key key d d'.
Proof.
  intros [Hm Hiv] Hpos [Hs Hn] Hl.
  destruct (limiter_script_spec srv key (maxTokens r) (interval_ms r) now d None)
    as (d' & E & Ho & _); [done..|lia|lia|].
  exists d'. split; [|done]. unfold Allow, Eval. rewrite E.
  assert ((0 <? (at_call (maxTokens r) (interval_ms r) now None).1) = true) as ->.
  { apply Z.ltb_lt. unfold at_call, floor_quotient. cbn [default from_option]. rewrite Z.sub_diag, Z.max_id.
    destruct (Z.eqb_spec (interval_ms r) 0); [lia|]. rewrite Z.div_0_l by done. done. }
  cbn [mbind result_bind]. by rewrite lua_reply_true.
Qed.

End allow.

(** (C18) The rate limit holds while a key is in use: starting without a bucket, if the
    clocks do not run backwards and no two calls are two refill intervals apart, at most
    [maxTokens] requests plus one per elapsed interval are let through. *)
Theorem Allow_rate_bound {db} `{RedisLaws db} (r : RedisLimiter) key (d : db) srv now calls stop :
  limiter_ok r → call_ok srv now → live d srv key = None →
  steady (interval_ms r) srv now stop calls →
  (allow_run r key ((srv, now) :: calls) d).2 <= maxTokens r + (stop - now) / interval_ms r.
Proof.
  intros Hr Hok Hl Hs. cbn [allow_run].
  destruct (Allow_call srv now r key d None) as (d' & -> & Hx' & Hb'); [done..|].
  assert (at_call (maxTokens r) (interval_ms r) now None = (maxTokens r, now)) as Hc.
  { unfold at_call, floor_quotient. cbn [default from_option id]. destruct Hr.
    destruct (Z.eqb_spec (interval_ms r) 0); [lia|]. rewrite Z.sub_diag, Z.max_id, Z.div_0_l by lia. done. }
  rewrite Hc in *. unfold take_token in *. cbn [fst snd] in *.
  pose proof (allow_run_budget r key calls d' srv now stop (if 0 <? maxTokens r then maxTokens r - 1 else maxTokens r) now) as Hb.
  assert ((allow_run r key calls d').2 <=
    (if 0 <? maxTokens r then maxTokens r - 1 else maxTokens r) + (stop - now) / interval_ms r).
  { apply Hb; try done. intros s' Hlt. specialize (Hb' s').
    by destruct (Z.ltb_spec s' (srv + interval_ms r * 2)); [|lia]. }
  destruct (allow_run r key calls d') as [d'' n]. cbn [snd] in *.
  destruct (0 <? maxTokens r); cbn [snd]; lia.
Qed.

(** A rejected request is reported as an error. The script returns the Lua boolean
    [allowed], and Redis turns [false] into a nil reply: [Allow] never returns
    [(false, nil)], the documented answer to a request over the limit, but fails with
    go-redis's [Nil] error exactly when the bucket is empty. *)
Theorem Allow_rejects_with_error {db} `{RedisLaws db} f srv now r key (d : db) :
  (Allow f srv now r key d).2 ≠ Ok false ∧
  (∀ b, limiter_ok r → call_ok srv now → bucket_is d srv key b → exact_bucket b →
     (at_call (maxTokens r) (interval_ms r) now b).1 <= 0 →
     (Allow Delivered srv now r key d).2 = Err (ErrScript ENil)).
Proof.
  split; [apply Allow_not_false|]. intros b Hr Hok Hb Hx Hc.
  destruct (Allow_call srv now r key d b) as (d' & -> & _); [done..|]. cbn [snd].
  by destruct (Z.ltb_spec 0 (at_call (maxTokens r) (interval_ms r) now b).1); [lia|].
Qed.

(** An idle bucket forgets its debt. The script gives the bucket a lifetime of two
    refill intervals, so two intervals after a request was rejected for lack of tokens,
    when two tokens are due, [maxTokens] requests pass at once. *)
Theorem idle_bucket_bursts {db} `{RedisLaws db} (r : RedisLimiter) key (d : db) srv now last srv' now' :
  limiter_ok r → call_ok srv now → call_ok srv' now' →
  bucket_is d srv key (Some (0, last)) → 0 <= last <= 2 ^ 53 →
  now - last < interval_ms r → srv + 2 * interval_ms r <= srv' →
  ∃ d', Allow Delivered srv now r key d = (d', Err (ErrScript ENil)) ∧
    (allow_run r key (replicate (Z.to_nat (maxTokens r)) (srv', now')) d').2 = maxTokens r.
Proof.
  intros Hr Hok Hok' Hb Hl Hnow Hsrv.
  destruct (Allow_call srv now r key d (Some (0, last))) as (d' & -> & _ & Hb'); [done..|split; lia|].
  assert (at_call (maxTokens r) (interval_ms r) now (Some (0, last)) = (0, last)) as ->.
  { unfold at_call, floor_quotient. cbn [default from_option id]. destruct Hr.
    destruct (Z.eqb_spec (interval_ms r) 0); [lia|]. cbn. rewrite Z.div_small by lia. done. }
  exists d'. split; [done|]. apply allow_run_burst_absent; [done..|].
  specialize (Hb' srv'). by destruct (Z.ltb_spec srv' (srv + interval_ms r * 2)); [lia|].
Qed.

(** An interval below a millisecond becomes 0, every bucket expires at once and the limiter
    lets everything through. *)
Lemma submillisecond_interval_unlimited {db} `{RedisLaws db} (r : RedisLimiter) key (d : db) srv now :
  0 <= interval r < Millisecond → 0 < maxTokens r <= 2 ^ 53 → call_ok srv now →
  live d srv key = None →
  ∃ d', Allow Delivered srv now r key d = (d', Ok true) ∧ ∀ srv', live d' srv' key = None.
Proof.
  intros Hiv Hm [Hs Hn] Hl. assert (interval_ms r = 0) as Hz.
  { unfold interval_ms. rewrite Z.quot_div_nonneg by (unfold Millisecond in *; lia).
    apply Z.div_small. done. }
  destruct (limiter_script_spec srv key (maxTokens r) 0 now d None) as (d' & E & _ & He);
    [done|done|lia|lia|lia|lia|].
  exists d'. split.
  - assert (at_call (maxTokens r) 0 now None = (maxTokens r, now)) as Hc
      by (unfold at_call, floor_quotient; cbn; by rewrite Z.sub_diag).
    rewrite Hc in E. cbn [fst] in E. unfold Allow, Eval. rewrite Hz, E.
    destruct (Z.ltb_spec 0 (maxTokens r)); [|lia].
    cbn [mbind result_bind]. by rewrite lua_reply_true.
  - intros srv'. unfold live. by rewrite He.
Qed.

(** ** Witnesses: three tokens, one per second *)

Module LimiterDemo.
Definition lim : RedisLimiter := {| maxTokens := 3; interval := Second |}.
Definition drained : mapdb :=
  {["k" := (RHash {["tokens" := "0"; "last" := "1000"]}, Some 5000)]}.
End LimiterDemo.

Lemma Allow_rate_bound_witness :
  (allow_run LimiterDemo.lim "k" [(1000, 1000); (1100, 1100); (2100, 2100)] (∅ : mapdb)).2 <= 3 + 1.
Proof.
  by apply (Allow_rate_bound LimiterDemo.lim "k" (∅ : mapdb) 1000 1000 [(1100, 1100); (2100, 2100)] 2100).
Defined.

Lemma Allow_rejects_with_error_witness :
  (Allow Delivered 1500 1500 LimiterDemo.lim "k" LimiterDemo.drained).2 = Err (ErrScript ENil).
Proof.
  apply (proj2 (Allow_rejects_with_error Delivered 1500 1500 LimiterDemo.lim "k" LimiterDemo.drained)
    (Some (0, 1000))); try done.
  eexists. split; [by vm_compute|]. split; by vm_compute.
Defined.

Lemma idle_bucket_bursts_witness :
  ∃ d', Allow Delivered 1500 1500 LimiterDemo.lim "k" LimiterDemo.drained = (d', Err (ErrScript ENil)) ∧
    (allow_run LimiterDemo.lim "k" (replicate 3 (3500, 3500)) d').2 = 3.
Proof.
  apply (idle_bucket_bursts LimiterDemo.lim "k" LimiterDemo.drained 1500 1500 1000 3500 3500); try done.
  eexists. split; [by vm_compute|]. split; by vm_compute.
Defined.
