(* ===== verification/Elastic.v ===== *)
(** * The Elasticsearch client ([src/storage/elasticsearch])

    The connection registry, the request helpers and the paginated search. The cluster
    behind the go-elasticsearch client and the JSON codec are parameters ([ESClient]).
    Handlers run in a small monad over a [world]: the registry, the server's state, and
    the caller's query map, which [IncrementalSearch] and its helpers share and update in
    place. A handler ends with a value, an error, or a run-time panic. *)

From Stdlib Require Import ZArith Lia.
From stdpp Require Import base numbers strings gmap list.
From S2P Require Import Prelude GoValue.
Local Open Scope Z_scope.

(** ** Data ([entity.go], [elasticsearch.go]) *)

Definition EsMaxFetchSize : Z := 10000.
Definition EsScrollApiDefaultTimeout : Z := 10.
Definition es_Second : Z := 10 ^ 9.
Definition StatusBadRequest : Z := 400.
Definition StatusNotFound : Z := 404.

(** [Transport] is left to the client library. *)
Record ConnectionConfig : Type := {
  Addresses : list string;
  Username : string;
  Password : string;
  MaxRetries : Z;
}.

Record BulkOperation : Type := {
  bo_Action : string;
  bo_Index : string;
  bo_ID : option string;
  bo_Document : any;  (* a map, or nil *)
}.

Definition ActionIndex : string := "index".
Definition ActionUpdate : string := "update".
Definition ActionDelete : string := "delete".

Record Hit : Type := {
  hit_Index : string;
  hit_ID : string;
  hit_Score : float64;
  hit_Source : list (string * any);
  hit_Sort : list any;
  hit_Fields : list (string * any);
}.

Record SearchResponse : Type := {
  sr_Total : Z;
  sr_Hits : list Hit;
  sr_Aggregations : list (string * any);
  sr_Took : Z;
  sr_TimedOut : bool;
  sr_ScrollID : string;
}.

Definition zeroSearchResponse : SearchResponse :=
  {| sr_Total := 0; sr_Hits := []; sr_Aggregations := []; sr_Took := 0; sr_TimedOut := false;
     sr_ScrollID := "" |}.

Record ShardInfo : Type := { sh_Total : Z; sh_Successful : Z; sh_Failed : Z }.
Record CountResponse : Type := { cr_Count : Z; cr_Shards : ShardInfo }.

(** [IndexResponse], [UpdateResponse] and [DeleteResponse] have the same fields. *)
Record IndexResponse : Type := {
  ir_Index : string; ir_ID : string; ir_Version : Z; ir_Result : string;
  ir_Shards : ShardInfo; ir_SeqNo : Z; ir_PrimaryTerm : Z;
}.

Record ErrorDetails : Type := { ed_Type : string; ed_Reason : string }.

Record BulkItemDetails : Type := {
  bi_Index : string; bi_ID : string; bi_Version : Z; bi_Status : Z; bi_Error : option ErrorDetails;
}.
Record BulkItem : Type := {
  item_Index : option BulkItemDetails; item_Update : option BulkItemDetails;
}.
Record BulkResponse : Type := { br_Took : Z; br_Errors : bool; br_Items : list BulkItem }.

Record Retries : Type := { rt_Bulk : Z; rt_Search : Z }.

(** [DeleteByQueryResponse] and [UpdateByQueryResponse]. *)
Record DeleteByQueryResponse : Type := {
  dq_Took : Z; dq_TimedOut : bool; dq_Total : Z; dq_Updated : Z; dq_Deleted : Z; dq_Batches : Z;
  dq_VersionConflicts : Z; dq_Noops : Z; dq_Retries : Retries; dq_ThrottledMillis : Z;
  dq_RequestsPerSecond : float64; dq_ThrottledUntilMillis : Z; dq_Failures : list ErrorDetails;
}.

Record SearchByDocIdResponse : Type := {
  sd_Index : string; sd_ID : string; sd_Source : list (string * any); sd_Found : bool;
}.

Record Query : Type := {
  q_Must : list any; q_Filter : list any; q_Should : list any; q_MustNot : list any;
  q_Sort : list (list (string * any)); q_From : Z; q_Size : Z;
  q_Aggregations : list (string * any); q_SearchAfter : list any; q_Source : list string;
}.

(** The values the helpers put in a query map, and those of the caller. *)
Inductive qval : Type :=
  | QInt64 (n : Z)
  | QInt (n : Z)
  | QSort (s : list (list (string * any)))
  | QStrings (l : list string)
  | QKey (k : list any)
  | QAny (a : any).

Abbreviation qmap := (gmap string qval).

(** [Query] itself is the caller's map, kept in the world. *)
Record SearchQuery : Type := {
  Sort : list (list (string * any));
  From : Z;
  Size : Z;
  FetchAllDocs : bool;
  ScrollTimeout : Z;
}.

Record JumpedDocumentResponse : Type := { jd_insufficient : bool; jd_from : Z }.

(** ** The client library and the codec *)

Inductive jsonval : Type :=
  | JMap (m : qmap)
  | JQuery (q : Query)
  | JAny (a : any)
  | JBulkMeta (action index : string) (id : option string).

Record esResponse : Type := { StatusCode : Z; esBody : string }.

Inductive esapi_request : Type :=
  | SearchRequest (index body : string) (scroll : Z)
  | GetRequest (index id : string)
  | IndexRequest (index id body refresh : string)
  | UpdateRequest (index id body refresh : string)
  | DeleteRequest (index id refresh : string)
  | CountRequest (index : string) (body : option string)
  | UpdateByQueryRequest (index body : string)
  | DeleteByQueryRequest (index body : string)
  | BulkRequest (body : string)
  | ScrollRequest (id : string) (timeout : Z)
  | ClearScrollRequest (ids : list string).

Class ESClient (srv : Type) := {
  (** [es8.NewTypedClient] and [req.Do] *)
  es_client : Type;
  NewTypedClient : ConnectionConfig → result string es_client;
  es_Do : es_client → esapi_request → srv → srv * result string esResponse;
  (** [json.Marshal], and [json.Decoder.Decode] at each response type *)
  json_Marshal : jsonval → result string string;
  decode_Search : string → option SearchResponse;
  decode_ById : string → option SearchByDocIdResponse;
  decode_Index : string → option IndexResponse;
  decode_Count : string → option CountResponse;
  decode_ByQuery : string → option DeleteByQueryResponse;
  decode_Bulk : string → option BulkResponse;
}.

(** ** The monad *)

Inductive es_error : Type :=
  | EsMsg (msg : string)
  | EsWrap (msg : string) (e : es_error).

Record world (srv : Type) `{ESClient srv} : Type := {
  w_instances : gmap string es_client;
  w_configs : gmap string (option ConnectionConfig);
  w_srv : srv;
  w_query : option qmap;
}.
Arguments w_instances {srv _} _.
Arguments w_configs {srv _} _.
Arguments w_srv {srv _} _.
Arguments w_query {srv _} _.

Section helper.
Context {srv : Type} `{ESClient srv}.

Definition es (A : Type) : Type := world srv → outcome (world srv * result es_error A).

Definition ret {A} (a : A) : es A := λ w, Ret (w, Ok a).
Definition fail {A} (e : es_error) : es A := λ w, Ret (w, Err e).
Definition panic {A} (why : string) : es A := λ _, Panic why.
Definition bind {A B} (m : es A) (k : A → es B) : es B := λ w,
  match m w with
  | Ret (w, Ok a) => k a w
  | Ret (w, Err e) => Ret (w, Err e)
  | Panic why => Panic why
  end.
Notation "'do' x <- m ; k" := (bind m (λ x, k)) (at level 60, x name, right associativity).

(** [if err != nil { return ..., fmt.Errorf(ctx + ": %w", err) }]. *)
Definition wrapping {A} (ctx : string) (m : es A) : es A := λ w,
  match m w with
  | Ret (w, Err e) => Ret (w, Err (EsWrap ctx e))
  | r => r
  end.

Definition lift {A} (r : result string A) : es A :=
  match r with Ok a => ret a | Err e => fail (EsMsg e) end.

Definition set_srv (w : world srv) (s : srv) : world srv :=
  {| w_instances := w_instances w; w_configs := w_configs w; w_srv := s; w_query := w_query w |}.
Definition set_query (w : world srv) (q : option qmap) : world srv :=
  {| w_instances := w_instances w; w_configs := w_configs w; w_srv := w_srv w; w_query := q |}.
Definition set_instances (w : world srv) (i : gmap string es_client) : world srv :=
  {| w_instances := i; w_configs := w_configs w; w_srv := w_srv w; w_query := w_query w |}.
Definition set_configs (w : world srv) (c : gmap string (option ConnectionConfig)) : world srv :=
  {| w_instances := w_instances w; w_configs := c; w_srv := w_srv w; w_query := w_query w |}.

(** [query[key] = v], [delete(query, key)] and reading the whole map. *)
Definition nil_map : string := "assignment to entry in nil map".
Definition query_set (key : string) (v : qval) : es unit := λ w,
  match w_query w with
  | Some q => Ret (set_query w (Some (<[key := v]> q)), Ok ())
  | None => Panic nil_map
  end.
Definition query_delete (key : string) : es unit := λ w,
  Ret (set_query w (delete key <$> w_query w), Ok ()).
Definition query_get : es qmap := λ w, Ret (w, Ok (default ∅ (w_query w))).

(** ** The connection registry *)

(** Cloning copies the slice of addresses: values here are immutable. *)
Definition cloneConnectionConfig (config : option ConnectionConfig) : option ConnectionConfig := config.

Definition SetConnectionConfig (clusterName : string) (config : option ConnectionConfig) : es unit := λ w,
  Ret (set_configs w (<[clusterName := cloneConnectionConfig config]> (w_configs w)), Ok ()).

Definition GetConnectionConfig (clusterName : string) : es (option ConnectionConfig) := λ w,
  Ret (w, Ok (cloneConnectionConfig (mjoin (w_configs w !! clusterName)))).

Definition newInstance (config : option ConnectionConfig) : result string es_client :=
  match config with
  | None => Err "elasticsearch: connection config is required"
  | Some config => NewTypedClient config
  end.

Definition Connect (clusterName : string) : es es_client := λ w,
  match w_instances w !! clusterName with
  | Some conn => Ret (w, Ok conn)
  | None =>
      match w_configs w !! clusterName with
      | None | Some None =>
          Ret (w, Err (EsMsg "initialise db config using elasticsearch.SetConnectionConfig() before use"))
      | Some (Some config) =>
          match newInstance (Some config) with
          | Err e => Ret (w, Err (EsMsg e))
          | Ok conn => Ret (set_instances w (<[clusterName := conn]> (w_instances w)), Ok conn)
          end
      end
  end.

Definition getClient (clusterName : string) : es es_client :=
  wrapping ("failed to connect to cluster " +:+ clusterName) (Connect clusterName).

(** [req.Do(ctx, client)]. *)
Definition Do (c : es_client) (req : esapi_request) : es esResponse := λ w,
  let '(s, r) := es_Do c req (w_srv w) in
  Ret (set_srv w s, match r with Ok a => Ok a | Err e => Err (EsMsg e) end).

(** ** Casts ([cast.go]) *)

Definition IsError (res : esResponse) : bool := 299 <? StatusCode res.

Definition cast_response {A} (decode : string → option A) (res : esResponse) : es A :=
  if IsError res then fail (EsMsg ("error response: " +:+ esBody res))
  else match decode (esBody res) with
       | Some a => ret a
       | None => fail (EsMsg "error parsing response body")
       end.

Definition CastEsApiResponseToSearchResponse := cast_response decode_Search.
Definition CastEsApiResponseToCountResponse := cast_response decode_Count.
Definition CastEsApiResponseToBulkResponse := cast_response decode_Bulk.
Definition CastEsApiResponseToIndexResponse := cast_response decode_Index.
Definition CastEsApiResponseToUpdateResponse := cast_response decode_Index.
Definition CastEsApiResponseToDeleteResponse := cast_response decode_Index.
Definition CastEsApiResponseToUpdateByQueryResponse := cast_response decode_ByQuery.
Definition CastEsApiResponseToDeleteByQueryResponse := cast_response decode_ByQuery.
Definition CastEsApiResponseToSearchByDocIdResponse := cast_response decode_ById.

(** ** Requests *)

Definition err_client : string := "error in getting client".

(** A bad request is answered with an empty response and no error. *)
Definition doSearchRequest (cluster index query : string) : es SearchResponse :=
  do client <- wrapping err_client (getClient cluster);
  do resp <- wrapping "error executing search" (Do client (SearchRequest index query 0));
  if StatusCode resp =? StatusBadRequest then ret zeroSearchResponse
  else wrapping "error in casting esapi response to search response"
         (CastEsApiResponseToSearchResponse resp).

Definition Search (cluster index : string) (query : Query) : es SearchResponse :=
  do body <- wrapping "error marshaling query" (lift (json_Marshal (JQuery query)));
  doSearchRequest cluster index body.

Definition zeroSearchByDocIdResponse : SearchByDocIdResponse :=
  {| sd_Index := ""; sd_ID := ""; sd_Source := []; sd_Found := false |}.

Definition SearchByDocId (cluster index docId : string) : es SearchByDocIdResponse :=
  do client <- wrapping err_client (getClient cluster);
  do resp <- wrapping "error executing search" (Do client (GetRequest index docId));
  if StatusCode resp =? StatusNotFound then ret zeroSearchByDocIdResponse
  else wrapping "error in casting esapi response to search response"
         (CastEsApiResponseToSearchByDocIdResponse resp).

Definition Helper_Index (cluster index docID : string) (document : any) : es IndexResponse :=
  do client <- getClient cluster;
  do body <- wrapping "error marshaling document" (lift (json_Marshal (JAny document)));
  do resp <- wrapping "error executing insert" (Do client (IndexRequest index docID body "true"));
  wrapping "error in casting esapi response to index response" (CastEsApiResponseToIndexResponse resp).

Definition Helper_Update (cluster index docID : string) (document : any) : es IndexResponse :=
  do client <- getClient cluster;
  let updatedDocument := AnyMap [("doc", document)] in
  do body <- wrapping "error marshaling document" (lift (json_Marshal (JAny updatedDocument)));
  do resp <- wrapping "error executing update" (Do client (UpdateRequest index docID body "true"));
  wrapping "error in casting esapi response to update response" (CastEsApiResponseToUpdateResponse resp).

Definition Helper_Delete (cluster index docID : string) : es IndexResponse :=
  do client <- getClient cluster;
  do resp <- wrapping "error executing delete" (Do client (DeleteRequest index docID "true"));
  wrapping "error in casting esapi response to delete response" (CastEsApiResponseToDeleteResponse resp).

Definition Helper_Count (cluster index : string) : es CountResponse :=
  do client <- getClient cluster;
  do resp <- wrapping "error executing count" (Do client (CountRequest index None));
  wrapping "error in casting esapi response to count response" (CastEsApiResponseToCountResponse resp).

Definition doCountByQueryRequest (cluster index query : string) : es CountResponse :=
  do client <- getClient cluster;
  do resp <- wrapping "error executing count by query" (Do client (CountRequest index (Some query)));
  wrapping "error in casting esapi response to count response" (CastEsApiResponseToCountResponse resp).

Definition CountByQuery (cluster index : string) (query : Query) : es CountResponse :=
  do body <- wrapping "error marshaling query" (lift (json_Marshal (JQuery query)));
  doCountByQueryRequest cluster index body.

Definition UpdateByQuery (cluster index : string) (query : any) : es DeleteByQueryResponse :=
  do client <- getClient cluster;
  do body <- wrapping "error marshaling query" (lift (json_Marshal (JAny query)));
  do resp <- wrapping "error executing update by query" (Do client (UpdateByQueryRequest index body));
  wrapping "error in casting esapi response to update by query response"
    (CastEsApiResponseToUpdateByQueryResponse resp).

Definition DeleteByQuery (cluster index : string) (query : any) : es DeleteByQueryResponse :=
  do client <- getClient cluster;
  do body <- wrapping "error marshaling query" (lift (json_Marshal (JAny query)));
  do resp <- wrapping "error executing delete by query" (Do client (DeleteByQueryRequest index body));
  wrapping "error in casting esapi response to update by delete response"
    (CastEsApiResponseToDeleteByQueryResponse resp).

Definition RawSearchQuery (cluster index query : string) : es SearchResponse :=
  doSearchRequest cluster index query.

Definition RawCountQuery (cluster index query : string) : es CountResponse :=
  doCountByQueryRequest cluster index query.

(** *** Bulk *)

Definition newline : string := String (Ascii.ascii_of_nat 10) "".

(** The loop that writes the request body: a metadata line for each operation, and a
    document line for [index] and [update]. *)
Fixpoint bulk_body (operations : list BulkOperation) (buf : string) : result es_error string :=
  match operations with
  | [] => Ok buf
  | op :: operations =>
      match json_Marshal (JBulkMeta (bo_Action op) (bo_Index op) (bo_ID op)) with
      | Err e => Err (EsWrap "error marshaling metadata" (EsMsg e))
      | Ok metaLine =>
          let buf := buf +:+ metaLine +:+ newline in
          if decide (bo_Action op = ActionIndex ∨ bo_Action op = ActionUpdate) then
            match json_Marshal (JAny (bo_Document op)) with
            | Err e => Err (EsWrap "error marshaling document" (EsMsg e))
            | Ok docLine => bulk_body operations (buf +:+ docLine +:+ newline)
            end
          else bulk_body operations buf
      end
  end.

Definition Bulk (cluster : string) (operations : list BulkOperation) : es BulkResponse :=
  do client <- getClient cluster;
  do body <- (match bulk_body operations "" with Ok b => ret b | Err e => fail e end);
  do resp <- wrapping "error executing bulk operation" (Do client (BulkRequest body));
  wrapping "error in casting esapi response to update by delete response"
    (CastEsApiResponseToBulkResponse resp).

(** ** Paginated search *)

Definition searchRequestWithQuery (cluster index : string) : es SearchResponse :=
  do query <- query_get;
  do body <- wrapping "error while marshaling the query" (lift (json_Marshal (JMap query)));
  doSearchRequest cluster index body.

(** [s[lo:]] and [s[lo:hi]]. *)
Definition slice_out_of_range : string := "runtime error: slice bounds out of range".
Definition slice_from {A} (l : list A) (lo : Z) : es (list A) :=
  if decide (0 <= lo <= Z.of_nat (length l)) then ret (drop (Z.to_nat lo) l)
  else panic slice_out_of_range.
Definition slice_range {A} (l : list A) (lo hi : Z) : es (list A) :=
  if decide (0 <= lo <= hi ∧ hi <= Z.of_nat (length l)) then
    ret (take (Z.to_nat (hi - lo)) (drop (Z.to_nat lo) l))
  else panic slice_out_of_range.

(** [s[len(s)-1]]. *)
Definition last_of {A} (l : list A) : es A :=
  match last l with Some x => ret x | None => panic index_out_of_range end.

Definition out_of_fuel : string := "out of fuel".

(** The loop [for from >= EsMaxFetchSize]: the offset left and whether documents ran out. *)
Fixpoint jump_loop (fuel : nat) (cluster index : string) (from : Z) : es (Z * bool) :=
  match fuel with
  | O => panic out_of_fuel
  | S fuel =>
      if from <? EsMaxFetchSize then ret (from, false)
      else
        do resp <- wrapping "error while executing search query" (searchRequestWithQuery cluster index);
        if sr_Total resp =? 0 then ret (from, true)
        else
          do lastHit <- last_of (sr_Hits resp);
          do _ <- query_set "search_after" (QKey (hit_Sort lastHit));
          jump_loop fuel cluster index (from - EsMaxFetchSize)
  end.

(** The number of rounds [jump_loop] can take. *)
Definition jump_fuel (from : Z) : nat := S (Z.to_nat (from / EsMaxFetchSize)).

Definition jumpToActiveBatchOfDocuments (cluster index : string) (searchQuery : SearchQuery)
  : es JumpedDocumentResponse :=
  do query <- query_get;
  do sourceToFetch <-
    (match query !! "_source" with
     | Some (QStrings src) => ret (Some src)
     | Some _ => fail (EsMsg "invalid type for _source, expected []string")
     | None => ret None
     end);
  do res <-
    (if From searchQuery <? EsMaxFetchSize then ret (From searchQuery, false)
     else
       do _ <- query_set "_source" (QStrings ["_id"]);
       do _ <- query_set "size" (QInt64 EsMaxFetchSize);
       jump_loop (jump_fuel (From searchQuery)) cluster index (From searchQuery));
  do _ <- (match sourceToFetch with
           | Some src => query_set "_source" (QStrings src)
           | None => query_delete "_source"
           end);
  ret {| jd_insufficient := res.2; jd_from := res.1 |}.

(** The loop [for searchQuery.FetchAllDocs || totalDocsToFetch > 0]. *)
Fixpoint search_after_loop (fuel : nat) (cluster index : string) (all : bool)
    (fetchFrom totalDocsToFetch : Z) (docs : list Hit) : es (list Hit) :=
  match fuel with
  | O => panic out_of_fuel
  | S fuel =>
      if all || (0 <? totalDocsToFetch) then
        let batchSize :=
          if negb all && (totalDocsToFetch <? EsMaxFetchSize) then totalDocsToFetch
          else EsMaxFetchSize in
        do _ <- query_set "size" (QInt64 batchSize);
        do resp <- wrapping "error executing search request" (searchRequestWithQuery cluster index);
        let hits := sr_Hits resp in
        if Z.of_nat (length hits) <? batchSize then
          if fetchFrom <? Z.of_nat (length hits) then
            do tail <- slice_from hits fetchFrom; ret (docs ++ tail)
          else ret docs
        else
          do lastHit <- last_of hits;
          do _ <- query_set "search_after" (QKey (hit_Sort lastHit));
          do tail <- slice_from hits fetchFrom;
          search_after_loop fuel cluster index all 0
            (if all then totalDocsToFetch else totalDocsToFetch - batchSize) (docs ++ tail)
      else ret docs
  end.

Definition getDocumentsWithSearchAfter (fuel : nat) (cluster index : string)
    (searchQuery : SearchQuery) : es (list Hit) :=
  match Sort searchQuery with
  | [] => fail (EsMsg "sort order should not be empty")
  | _ =>
      do _ <- query_set "sort" (QSort (Sort searchQuery));
      do _ <- query_delete "from";
      do jumpedDocs <- wrapping "error while jumping to active batch of documents"
                         (jumpToActiveBatchOfDocuments cluster index searchQuery);
      if jd_insufficient jumpedDocs then ret []
      else search_after_loop fuel cluster index (FetchAllDocs searchQuery) (jd_from jumpedDocs)
             (i64 (jd_from jumpedDocs + Size searchQuery)) []
  end.

Definition initiateScrollApiSearchRequest (client : es_client) (index : string) (scrollTimeout : Z)
  : es esResponse :=
  do query <- query_get;
  do body <- wrapping "error while marshaling the query" (lift (json_Marshal (JMap query)));
  wrapping "error executing search" (Do client (SearchRequest index body scrollTimeout)).

(** The loop [for scrollID != ""]. *)
Fixpoint scroll_loop (fuel : nat) (client : es_client) (all : bool) (from size : Z)
    (scrollID : string) (scrollTimeout fetchSize : Z) (docs : list Hit) : es (list Hit * string) :=
  match fuel with
  | O => panic out_of_fuel
  | S fuel =>
      if decide (scrollID = "") then ret (docs, scrollID)
      else
        do res <- wrapping "error executing search" (Do client (ScrollRequest scrollID scrollTimeout));
        if StatusCode res =? StatusBadRequest then ret (docs, scrollID)
        else
          do searchResponse <- wrapping "error in casting esapi response"
                                 (CastEsApiResponseToSearchResponse res);
          let hits := sr_Hits searchResponse in
          let totalDocsFound :=
            if Z.of_nat (length hits) <? fetchSize then Z.of_nat (length hits) else fetchSize in
          let next := sr_ScrollID searchResponse in
          if all then
            if totalDocsFound <? fetchSize then ret (docs ++ hits, next)
            else scroll_loop fuel client all from size next scrollTimeout fetchSize (docs ++ hits)
          else if from <? totalDocsFound then
            if from + size <=? totalDocsFound then
              do part <- slice_range hits from (from + size); ret (docs ++ part, scrollID)
            else
              do tail <- slice_from hits from;
              if totalDocsFound <? fetchSize then ret (docs ++ tail, scrollID)
              else scroll_loop fuel client all 0 (size - (fetchSize - from)) next scrollTimeout fetchSize
                     (docs ++ tail)
          else if totalDocsFound <? fetchSize then ret (docs, scrollID)
          else scroll_loop fuel client all (from - fetchSize) size next scrollTimeout fetchSize docs
  end.

Definition getDocumentsWithScrollSession (fuel : nat) (client : es_client) (all : bool)
    (from size : Z) (scrollID : string) (scrollTimeout fetchSize : Z) : es (list Hit * string) :=
  scroll_loop fuel client all from size scrollID scrollTimeout fetchSize [].

(** [math.Ceil(float64(a) / float64(b))] for integers in the exact range of doubles. *)
Definition ceil_div (a b : Z) : Z := (a + b - 1) / b.

Definition scroll_fetch_size (all : bool) (from size : Z) : Z :=
  let numberOfIterations := ceil_div (from + size) EsMaxFetchSize in
  if all then EsMaxFetchSize else ceil_div (from + size) numberOfIterations.

Definition getDocumentsWithScrollApi (fuel : nat) (cluster index : string) (searchQuery : SearchQuery)
  : es (list Hit) :=
  let '(from, size, all) := (From searchQuery, Size searchQuery, FetchAllDocs searchQuery) in
  do client <- wrapping err_client (getClient cluster);
  let scrollTimeout :=
    if ScrollTimeout searchQuery =? 0 then EsScrollApiDefaultTimeout * es_Second
    else i64 (ScrollTimeout searchQuery * es_Second) in
  let fetchSize := scroll_fetch_size all from size in
  do _ <- query_set "size" (QInt fetchSize);
  do _ <- query_delete "from";
  do res <- initiateScrollApiSearchRequest client index scrollTimeout;
  if StatusCode res =? StatusBadRequest then ret []
  else
    do searchResponse <- wrapping "error in casting esapi response" (CastEsApiResponseToSearchResponse res);
    let hits := sr_Hits searchResponse in
    let totalDocsFound :=
      if Z.of_nat (length hits) <? fetchSize then Z.of_nat (length hits) else fetchSize in
    let scrollID := sr_ScrollID searchResponse in
    let finish (docs : list Hit) (from size : Z) : es (list Hit) :=
      do r <- (if totalDocsFound =? fetchSize then
                 do s <- getDocumentsWithScrollSession fuel client all from size scrollID scrollTimeout fetchSize;
                 ret (docs ++ s.1, s.2)
               else ret (docs, scrollID));
      do _ <- wrapping "error clearing scroll session" (Do client (ClearScrollRequest [r.2]));
      ret r.1 in
    if from <? totalDocsFound then
      do docs <- slice_from hits from; finish docs 0 (size - (fetchSize - from))
    else if totalDocsFound <? fetchSize then ret []
    else finish [] (from - fetchSize) size.

Definition getBulkDocuments (fuel : nat) (cluster index : string) (searchQuery : SearchQuery)
  : es SearchResponse :=
  do docs <- wrapping "error while getting documents"
    (match Sort searchQuery with
     | [] => getDocumentsWithScrollApi fuel cluster index searchQuery
     | _ => getDocumentsWithSearchAfter fuel cluster index searchQuery
     end);
  ret {| sr_Total := Z.of_nat (length docs); sr_Hits := docs; sr_Aggregations := []; sr_Took := 0;
         sr_TimedOut := false; sr_ScrollID := "" |}.

Definition query_is_nil : es bool := λ w,
  Ret (w, Ok (match w_query w with None => true | Some _ => false end)).

Definition IncrementalSearch (fuel : nat) (cluster index : string) (searchQuery : SearchQuery)
  : es SearchResponse :=
  let all := FetchAllDocs searchQuery in
  if negb all && ((From searchQuery <? 0) || (Size searchQuery <=? 0)) then
    fail (EsMsg "invalid parameters: 'from' must be >= 0 and 'size' must be > 0")
  else
    do isnil <- query_is_nil;
    if isnil : bool then fail (EsMsg "query cannot be nil")
    else
      let searchQuery :=
        if all then {| Sort := Sort searchQuery; From := 0; Size := 0; FetchAllDocs := all;
                       ScrollTimeout := ScrollTimeout searchQuery |}
        else searchQuery in
      if all || (EsMaxFetchSize <? i64 (From searchQuery + Size searchQuery)) then
        getBulkDocuments fuel cluster index searchQuery
      else
        do _ <- query_set "size" (QInt64 (Size searchQuery));
        do _ <- query_set "from" (QInt64 (From searchQuery));
        do _ <- (match Sort searchQuery with
                 | [] => ret ()
                 | _ => query_set "sort" (QSort (Sort searchQuery))
                 end);
        searchRequestWithQuery cluster index.

End helper.
