(* ===== verification/ElasticProps.v ===== *)
(** * Properties of the Elasticsearch client

    What an index promises to its readers ([ESIndex]: paging by offset, by [search_after] and
    by scrolling), a list-based server that keeps the promise, and the theorem that
    [IncrementalSearch] returns the requested window of the matching documents on each of
    its three paths; the inputs on which it does not. *)

From Stdlib Require Import ZArith Lia.
From stdpp Require Import base numbers strings gmap list pretty countable.
From S2P Require Import Prelude GoValue Redis Elastic.
Local Open Scope Z_scope.

(** The keys of a query map that select a page. *)
Definition paging_key (k : string) : Prop :=
  k = "size" ∨ k = "from" ∨ k = "search_after" ∨ k = "_source".

(** Where in the matching documents [docs] the page of query [q] starts. Elasticsearch
    documents that [search_after] needs a sort order without ties. *)
Inductive page_start (q : qmap) (docs : list Hit) : nat → Prop :=
  | start_first : q !! "search_after" = None → q !! "from" = None → page_start q docs 0
  | start_from m :
      q !! "search_after" = None → q !! "from" = Some (QInt64 (Z.of_nat m)) → page_start q docs m
  | start_after i h :
      q !! "search_after" = Some (QKey (hit_Sort h)) → q !! "from" = None →
      docs !! i = Some h → NoDup (map hit_Sort docs) → page_start q docs (S i).

(** The promise of an index to client [c]. *)
Class ESIndex {srv : Type} `{ESClient srv} (c : es_client) (index : string) := {
  (** the documents a query matches, in its sort order, with all their fields; the fields
      returned for a [_source] entry; queries the server accepts; open scrolls *)
  docs_of : srv → qmap → list Hit;
  project : option qval → Hit → Hit;
  accepted : srv → qmap → Prop;
  cursor : srv → string → option (list Hit * nat);

  docs_of_insert s q k v : paging_key k → docs_of s (<[k := v]> q) = docs_of s q;
  docs_of_delete s q k : paging_key k → docs_of s (delete k q) = docs_of s q;
  accepted_insert s q k v : paging_key k → accepted s q → accepted s (<[k := v]> q);
  accepted_delete s q k : paging_key k → accepted s q → accepted s (delete k q);
  project_sort src h : hit_Sort (project src h) = hit_Sort h;

  search_page s q (n : nat) i :
    accepted s q → q !! "size" = Some (QInt64 (Z.of_nat n)) →
    page_start q (docs_of s q) i → (q !! "from" ≠ None → Z.of_nat (i + n) <= EsMaxFetchSize) →
    (0 < n)%nat → Z.of_nat n <= EsMaxFetchSize →
    ∃ body resp r, json_Marshal (JMap q) = Ok body ∧
      es_Do c (SearchRequest index body 0) s = (s, Ok resp) ∧ StatusCode resp = 200 ∧
      decode_Search (esBody resp) = Some r ∧
      sr_Hits r = map (project (q !! "_source")) (take n (drop i (docs_of s q))) ∧
      (sr_Total r = 0 ↔ docs_of s q = []);

  search_conflict s q k m :
    accepted s q → q !! "search_after" = Some (QKey k) → q !! "from" = Some (QInt64 m) → 0 < m →
    ∃ body resp, json_Marshal (JMap q) = Ok body ∧
      es_Do c (SearchRequest index body 0) s = (s, Ok resp) ∧ StatusCode resp = StatusBadRequest;

  scroll_first s q (n : nat) timeout :
    accepted s q → q !! "size" = Some (QInt (Z.of_nat n)) →
    q !! "search_after" = None → q !! "from" = None →
    (0 < n)%nat → Z.of_nat n <= EsMaxFetchSize → timeout ≠ 0 →
    ∃ body s' resp r, json_Marshal (JMap q) = Ok body ∧
      es_Do c (SearchRequest index body timeout) s = (s', Ok resp) ∧ StatusCode resp = 200 ∧
      decode_Search (esBody resp) = Some r ∧
      sr_Hits r = map (project (q !! "_source")) (take n (docs_of s q)) ∧ sr_ScrollID r ≠ "" ∧
      cursor s' (sr_ScrollID r) = Some (map (project (q !! "_source")) (drop n (docs_of s q)), n);

  scroll_next s id timeout rest n :
    cursor s id = Some (rest, n) →
    ∃ s' resp r, es_Do c (ScrollRequest id timeout) s = (s', Ok resp) ∧ StatusCode resp = 200 ∧
      decode_Search (esBody resp) = Some r ∧ sr_Hits r = take n rest ∧ sr_ScrollID r ≠ "" ∧
      cursor s' (sr_ScrollID r) = Some (drop n rest, n);

  scroll_clear s ids : ∃ s' resp, es_Do c (ClearScrollRequest ids) s = (s', Ok resp);
}.

(** ** Windows *)

(** The documents asked for: all of them, or [size] from [from] on. *)
Definition window {A} (all : bool) (from size : nat) (l : list A) : list A :=
  if all then drop from l else take size (drop from l).

Lemma window_map {A B} (f : A → B) all from size l :
  window all from size (map f l) = map f (window all from size l).
Proof. unfold window. by destruct all; rewrite ?skipn_map, ?firstn_map. Qed.

(** A page of [b], taken from offset [from], and the window left after it. *)
Lemma window_split {A} all (from size b : nat) (l : list A) :
  (from ≤ b)%nat → (all = false → b ≤ from + size)%nat →
  window all from size l = drop from (take b l) ++ window all 0 (from + size - b) (drop b l).
Proof.
  intros Hf Hb. unfold window. rewrite drop_0, skipn_firstn_comm.
  assert (drop b l = drop (b - from) (drop from l)) as -> by (rewrite drop_drop; f_equal; lia).
  destruct all; [by rewrite take_drop|]. specialize (Hb eq_refl).
  rewrite take_take_drop. f_equal. lia.
Qed.

Lemma window_short {A} all (from size : nat) (l : list A) :
  (all = false → length l ≤ from + size)%nat → window all from size l = drop from l.
Proof.
  intros Hl. unfold window. destruct all; [done|]. apply take_ge. rewrite length_drop. specialize (Hl eq_refl). lia.
Qed.

(** ** One search *)

Section search.
Context {srv : Type} `{ESClient srv} (c : es_client) (cluster index : string) `{!ESIndex c index}.
Implicit Types (w : world srv) (q : qmap).

Definition connected w : Prop := w_instances w !! cluster = Some c.

Lemma getClient_connected w : connected w → getClient cluster w = Ret (w, Ok c).
Proof. intros E. unfold getClient, wrapping, Connect. by rewrite E. Qed.

Lemma searchRequest_page w q (n : nat) i :
  connected w → w_query w = Some q → accepted (w_srv w) q →
  q !! "size" = Some (QInt64 (Z.of_nat n)) → page_start q (docs_of (w_srv w) q) i →
  (q !! "from" ≠ None → Z.of_nat (i + n) <= EsMaxFetchSize) → (0 < n)%nat → Z.of_nat n <= EsMaxFetchSize →
  ∃ r, searchRequestWithQuery cluster index w = Ret (w, Ok r) ∧
    sr_Hits r = map (project (q !! "_source")) (take n (drop i (docs_of (w_srv w) q))) ∧
    (sr_Total r = 0 ↔ docs_of (w_srv w) q = []).
Proof.
  intros Hc Hq Ha Hs Hp Hf Hn Hmax.
  destruct (search_page (w_srv w) q n i Ha Hs Hp Hf Hn Hmax) as (body & resp & r & Em & Ed & Es & Ej & Hh & Ht).
  exists r. split; [|done].
  unfold searchRequestWithQuery, query_get, bind, wrapping, lift, ret. rewrite Hq. cbn [default from_option id].
  rewrite Em. cbn beta iota. unfold doSearchRequest, bind at 1. unfold wrapping at 1.
  rewrite getClient_connected by done. unfold bind, wrapping, Do. rewrite Ed. cbn beta iota. rewrite Es. cbn.
  unfold CastEsApiResponseToSearchResponse, cast_response, IsError. rewrite Es. cbn. rewrite Ej.
  by destruct w.
Qed.

(** The world while a search walks through [docs]: connected, the query map selects the
    fields [src] and the page size [sz], and its page starts at position [i]. *)
Definition reading (s : srv) (w : world srv) (docs : list Hit) (src sz : option qval) (i : nat) : Prop :=
  connected w ∧ w_srv w = s ∧
  ∃ q, w_query w = Some q ∧ accepted s q ∧ docs_of s q = docs ∧ q !! "_source" = src ∧
       q !! "size" = sz ∧ q !! "from" = None ∧ page_start q docs i.

Lemma page_start_insert q docs i k v :
  k ≠ "search_after" → k ≠ "from" → page_start q docs i → page_start (<[k := v]> q) docs i.
Proof.
  intros Hk Hk'. destruct 1; econstructor; rewrite ?lookup_insert_ne by done; done.
Qed.

Lemma page_start_delete q docs i k :
  k ≠ "search_after" → k ≠ "from" → page_start q docs i → page_start (delete k q) docs i.
Proof.
  intros Hk Hk'. destruct 1; econstructor; rewrite ?lookup_delete_ne by done; done.
Qed.

Lemma reading_set_size s w docs src sz i v :
  reading s w docs src sz i →
  ∃ w', query_set "size" v w = Ret (w', Ok ()) ∧ reading s w' docs src (Some v) i.
Proof.
  intros (Hc & Hs & q & Hq & Ha & Hd & Hsrc & Hsz & Hf & Hp). unfold query_set. rewrite Hq.
  eexists. split; [done|]. split; [done|]. split; [done|]. eexists. split; [done|].
  assert (paging_key "size") as Hk by (unfold paging_key; auto). rewrite docs_of_insert by done.
  split_and!; [by apply accepted_insert|done|by simplify_map_eq..|by apply page_start_insert].
Qed.

Lemma reading_set_source s w docs src sz i v :
  reading s w docs src sz i →
  ∃ w', query_set "_source" v w = Ret (w', Ok ()) ∧ reading s w' docs (Some v) sz i.
Proof.
  intros (Hc & Hs & q & Hq & Ha & Hd & Hsrc & Hsz & Hf & Hp). unfold query_set. rewrite Hq.
  assert (paging_key "_source") as Hk by (unfold paging_key; auto).
  eexists. split; [done|]. split; [done|]. split; [done|]. eexists. split; [done|].
  rewrite docs_of_insert by done.
  split_and!; [by apply accepted_insert|done|by simplify_map_eq..|by apply page_start_insert].
Qed.

Lemma reading_delete_source s w docs src sz i :
  reading s w docs src sz i →
  ∃ w', query_delete "_source" w = Ret (w', Ok ()) ∧ reading s w' docs None sz i.
Proof.
  intros (Hc & Hs & q & Hq & Ha & Hd & Hsrc & Hsz & Hf & Hp). unfold query_delete. rewrite Hq.
  assert (paging_key "_source") as Hk by (unfold paging_key; auto).
  eexists. split; [done|]. split; [done|]. split; [done|]. eexists. split; [done|].
  rewrite docs_of_delete by done.
  split_and!; [by apply accepted_delete|done|by simplify_map_eq..|by apply page_start_delete].
Qed.

Lemma reading_advance s w docs src sz i j h :
  reading s w docs src sz i → docs !! j = Some h → NoDup (map hit_Sort docs) →
  ∃ w', query_set "search_after" (QKey (hit_Sort h)) w = Ret (w', Ok ()) ∧
        reading s w' docs src sz (S j).
Proof.
  intros (Hc & Hs & q & Hq & Ha & Hd & Hsrc & Hsz & Hf & Hp) Hj Hnd. unfold query_set. rewrite Hq.
  assert (paging_key "search_after") as Hk by (unfold paging_key; auto).
  eexists. split; [done|]. split; [done|]. split; [done|]. eexists. split; [done|].
  rewrite docs_of_insert by done.
  split_and!; [by apply accepted_insert|done|by simplify_map_eq..|].
  apply (start_after _ _ j h); [by rewrite lookup_insert_eq|by rewrite lookup_insert_ne|done|done].
Qed.

Lemma reading_page s w docs src (n : nat) i :
  reading s w docs src (Some (QInt64 (Z.of_nat n))) i → (0 < n)%nat → Z.of_nat n <= EsMaxFetchSize →
  ∃ r, searchRequestWithQuery cluster index w = Ret (w, Ok r) ∧
    sr_Hits r = map (project src) (take n (drop i docs)) ∧ (sr_Total r = 0 ↔ docs = []).
Proof.
  intros (Hc & Hs & q & Hq & Ha & Hd & Hsrc & Hsz & Hf & Hp) Hn Hmax. subst s src docs.
  by apply searchRequest_page.
Qed.

(** The last hit of a non-empty page stands at the position before the next page. *)
Lemma last_of_page {A} (n i : nat) (docs : list A) :
  (0 < n)%nat → (i < length docs)%nat →
  ∃ j h, last (take n (drop i docs)) = Some h ∧ docs !! j = Some h ∧
         S j = (i + length (take n (drop i docs)))%nat.
Proof.
  intros Hn Hi. set (page := take n (drop i docs)).
  assert (length page = Nat.min n (length docs - i))%nat as Hlen
    by (unfold page; by rewrite length_take, length_drop).
  rewrite last_lookup. destruct (lookup_lt_is_Some_2 page (pred (length page))) as [h Hh]; [lia|].
  exists (i + pred (length page))%nat, h. split_and!; [done| |lia].
  rewrite <-lookup_drop, <-Hh. symmetry. apply lookup_take_lt. lia.
Qed.

Lemma last_of_hits w docs src i (n : nat) r :
  (0 < n)%nat → (i < length docs)%nat → sr_Hits r = map (project src) (take n (drop i docs)) →
  ∃ j h, last_of (sr_Hits r) w = Ret (w, Ok (project src h)) ∧ docs !! j = Some h ∧
         S j = (i + length (take n (drop i docs)))%nat.
Proof.
  intros Hn Hi Hr. destruct (last_of_page n i docs Hn Hi) as (j & h & Hl & Hj & Hlen).
  exists j, h. split_and!; [|done..]. unfold last_of. rewrite Hr, fmap_last, Hl. done.
Qed.

(** *** Jumping over whole batches *)

#[local] Abbreviation M := (Z.to_nat EsMaxFetchSize).

Lemma jump_loop_lands fuel s w docs src i from :
  reading s w docs src (Some (QInt64 EsMaxFetchSize)) i → NoDup (map hit_Sort docs) → 0 <= from →
  (Z.to_nat (from / EsMaxFetchSize) < fuel)%nat → docs ≠ [] →
  (EsMaxFetchSize <= from → Z.of_nat i + (from / EsMaxFetchSize - 1) * EsMaxFetchSize < Z.of_nat (length docs)) →
  ∃ w', jump_loop fuel cluster index from w = Ret (w', Ok (from mod EsMaxFetchSize, false)) ∧
    reading s w' docs src (Some (QInt64 EsMaxFetchSize))
      (if from <? EsMaxFetchSize then i
       else Nat.min (i + Z.to_nat (from / EsMaxFetchSize) * M) (length docs)).
Proof.
  intros Hrd Hnd Hf Hfuel Hne Hin. revert w i from Hrd Hf Hfuel Hin.
  induction fuel as [|fuel IH]; intros w i from Hrd Hf Hfuel Hin; [lia|].
  assert (0 < EsMaxFetchSize) as HM by done.
  cbn [jump_loop]. destruct (Z.ltb_spec from EsMaxFetchSize) as [Hlt|Hge].
  { exists w. rewrite Z.mod_small by lia. done. }
  assert (1 <= from / EsMaxFetchSize) as Hq by (apply Z.div_le_lower_bound; lia).
  assert ((from - EsMaxFetchSize) / EsMaxFetchSize = from / EsMaxFetchSize - 1) as Hdiv.
  { replace (from - EsMaxFetchSize) with (from + (-1) * EsMaxFetchSize) by lia. rewrite Z.div_add by lia. lia. }
  assert ((from - EsMaxFetchSize) mod EsMaxFetchSize = from mod EsMaxFetchSize) as Hmod.
  { replace (from - EsMaxFetchSize) with (from + (-1) * EsMaxFetchSize) by lia. by rewrite Z.mod_add by lia. }
  specialize (Hin Hge).
  destruct (reading_page s w docs src M i) as (r & Er & Hh & Ht); [done|lia|lia|].
  unfold bind at 1. unfold wrapping at 1. rewrite Er.
  destruct (Z.eqb_spec (sr_Total r) 0) as [Hz|Hz]; [by apply Ht in Hz|].
  destruct (last_of_hits w docs src i M r) as (j & h & El & Hj & Hlen); [lia|nia|done|].
  unfold bind at 1. rewrite El. rewrite project_sort.
  destruct (reading_advance s w docs src _ i j h Hrd Hj Hnd) as (w' & Es & Hrd').
  unfold bind at 1. rewrite Es. rewrite Hlen, length_take, length_drop in Hrd'.
  destruct (IH w' _ (from - EsMaxFetchSize) Hrd') as (w2 & E2 & Hrd2); [lia|lia|nia|].
  exists w2. split; [by rewrite E2, Hmod|].
  destruct (Z.ltb_spec (from - EsMaxFetchSize) EsMaxFetchSize) as [Hl2|Hg2].
  - assert (from / EsMaxFetchSize = 1) as ->; [|replace (Nat.min _ _) with (i + Nat.min M (length docs - i))%nat by nia; done].
    assert ((from - EsMaxFetchSize) / EsMaxFetchSize = 0) by (apply Z.div_small; lia). lia.
  - rewrite Hdiv in Hrd2.
    replace (Nat.min (i + Z.to_nat (from / EsMaxFetchSize) * M) (length docs)) with
      (Nat.min (i + Nat.min M (length docs - i) + Z.to_nat (from / EsMaxFetchSize - 1) * M) (length docs)) by nia.
    done.
Qed.

(** The [_source] entry a caller may give. *)
Definition source_ok (src : option qval) : Prop :=
  match src with None => True | Some (QStrings _) => True | Some _ => False end.

Lemma restore_source s w docs src src' sz i :
  source_ok src → reading s w docs src' sz i →
  ∃ w', (match src with
         | Some (QStrings l) => query_set "_source" (QStrings l)
         | _ => query_delete "_source"
         end) w = Ret (w', Ok ()) ∧ reading s w' docs src sz i.
Proof.
  intros Hok Hrd. destruct src as [[]|]; try done.
  - by apply (reading_set_source s w docs src').
  - by apply (reading_delete_source s w docs src').
Qed.

(** Jumping succeeds unless a whole batch lies past the end of the documents. *)
Lemma jump_lands s w docs src sz sq :
  reading s w docs src sz 0 → source_ok src → NoDup (map hit_Sort docs) → 0 <= From sq →
  docs ≠ [] →
  (From sq / EsMaxFetchSize - 1) * EsMaxFetchSize < Z.of_nat (length docs) →
  ∃ w' sz', jumpToActiveBatchOfDocuments cluster index sq w
      = Ret (w', Ok {| jd_insufficient := false; jd_from := From sq mod EsMaxFetchSize |}) ∧
    reading s w' docs src sz' (Nat.min (Z.to_nat (From sq / EsMaxFetchSize) * M) (length docs)).
Proof.
  intros Hrd Hok Hnd Hf Hne Hin. unfold jumpToActiveBatchOfDocuments.
  pose proof Hrd as (Hc & Hs & q & Hq & Ha & Hd & Hsrc & Hsz & Hfr & Hp).
  unfold bind at 1, query_get. rewrite Hq. cbn [default from_option id]. rewrite Hsrc.
  unfold bind at 1.
  assert ((match src with
           | Some (QStrings src) => ret (Some src)
           | Some _ => fail (EsMsg "invalid type for _source, expected []string")
           | None => ret None
           end) w = Ret (w, Ok (match src with Some (QStrings l) => Some l | _ => None end))) as ->
    by (by destruct src as [[]|]).
  assert (∃ w1 sz1, (if From sq <? EsMaxFetchSize then ret (From sq, false)
     else bind (query_set "_source" (QStrings ["_id"])) (λ _, bind (query_set "size" (QInt64 EsMaxFetchSize))
       (λ _, jump_loop (jump_fuel (From sq)) cluster index (From sq)))) w
     = Ret (w1, Ok (From sq mod EsMaxFetchSize, false)) ∧
     ∃ src1, reading s w1 docs src1 sz1 (Nat.min (Z.to_nat (From sq / EsMaxFetchSize) * M) (length docs)))
    as (w1 & sz1 & E1 & src1 & Hrd1).
  { destruct (Z.ltb_spec (From sq) EsMaxFetchSize) as [Hlt|Hge].
    - exists w, sz. rewrite Z.mod_small, Z.div_small by lia. split; [done|]. exists src. done.
    - destruct (reading_set_source s w docs src sz 0 (QStrings ["_id"]) Hrd) as (wa & Ea & Hra).
      destruct (reading_set_size s wa docs _ sz 0 (QInt64 EsMaxFetchSize) Hra) as (wb & Eb & Hrb).
      unfold bind at 1. rewrite Ea. unfold bind at 1. rewrite Eb.
      destruct (jump_loop_lands (jump_fuel (From sq)) s wb docs _ 0 (From sq) Hrb Hnd Hf) as (wc & Ec & Hrc);
        [unfold jump_fuel; lia|done|lia|].
      exists wc. eexists. split; [exact Ec|]. eexists.
      destruct (Z.ltb_spec (From sq) EsMaxFetchSize); [lia|]. exact Hrc. }
  unfold bind at 1. rewrite E1.
  destruct (restore_source s w1 docs src src1 sz1 _ Hok Hrd1) as (w2 & E2 & Hrd2).
  exists w2, sz1. split; [|done]. cbn [snd fst]. unfold bind at 1.
  destruct src as [[]|]; try done; by rewrite E2.
Qed.

(** Without documents the jump reports that they are insufficient, or there is none. *)
Lemma jump_empty s w src sz sq :
  reading s w [] src sz 0 → source_ok src → 0 <= From sq →
  ∃ w' sz' b f, jumpToActiveBatchOfDocuments cluster index sq w
      = Ret (w', Ok {| jd_insufficient := b; jd_from := f |}) ∧ reading s w' [] src sz' 0 ∧
      (b = false → f = From sq ∧ f < EsMaxFetchSize).
Proof.
  assert (0 < EsMaxFetchSize) as HM by done.
  intros Hrd Hok Hf. unfold jumpToActiveBatchOfDocuments.
  pose proof Hrd as (Hc & Hs & q & Hq & Ha & Hd & Hsrc & Hsz & Hfr & Hp).
  unfold bind at 1, query_get. rewrite Hq. cbn [default from_option id]. rewrite Hsrc.
  unfold bind at 1.
  assert ((match src with
           | Some (QStrings src) => ret (Some src)
           | Some _ => fail (EsMsg "invalid type for _source, expected []string")
           | None => ret None
           end) w = Ret (w, Ok (match src with Some (QStrings l) => Some l | _ => None end))) as ->
    by (by destruct src as [[]|]).
  assert (∃ w1 sz1 b, (if From sq <? EsMaxFetchSize then ret (From sq, false)
     else bind (query_set "_source" (QStrings ["_id"])) (λ _, bind (query_set "size" (QInt64 EsMaxFetchSize))
       (λ _, jump_loop (jump_fuel (From sq)) cluster index (From sq)))) w
     = Ret (w1, Ok (From sq, b)) ∧ (b = false → From sq < EsMaxFetchSize) ∧
     ∃ src1, reading s w1 [] src1 sz1 0)
    as (w1 & sz1 & b & E1 & Hb & src1 & Hrd1).
  { destruct (Z.ltb_spec (From sq) EsMaxFetchSize) as [Hlt|Hge].
    - exists w, sz, false. split; [done|]. split; [done|]. exists src. done.
    - destruct (reading_set_source s w [] src sz 0 (QStrings ["_id"]) Hrd) as (wa & Ea & Hra).
      destruct (reading_set_size s wa [] _ sz 0 (QInt64 EsMaxFetchSize) Hra) as (wb & Eb & Hrb).
      unfold bind at 1. rewrite Ea. unfold bind at 1. rewrite Eb. unfold jump_fuel. cbn [jump_loop].
      destruct (Z.ltb_spec (From sq) EsMaxFetchSize); [lia|].
      destruct (reading_page s wb [] (Some (QStrings ["_id"])) M 0) as (r & Er & _ & Ht); [done|lia|lia|].
      unfold bind at 1, wrapping. rewrite Er. rewrite (proj2 Ht) by done. cbn.
      exists wb. eexists _, true. split; [done|]. split; [done|]. eexists. exact Hrb. }
  unfold bind at 1. rewrite E1.
  destruct (restore_source s w1 [] src src1 sz1 _ Hok Hrd1) as (w2 & E2 & Hrd2).
  exists w2, sz1, b, (From sq). split; [|split; [done|]]; [|intros; auto]. cbn [snd fst]. unfold bind at 1.
  destruct src as [[]|]; try done; by rewrite E2.
Qed.

(** *** Fetching the batches *)

Lemma search_after_collects fuel s w docs src sz i all (from total : nat) acc :
  reading s w docs src sz i → NoDup (map hit_Sort docs) → (i ≤ length docs)%nat →
  (from ≤ M)%nat → (all = false → from ≤ total)%nat → (length docs - i < fuel)%nat →
  ∃ w' sz' i', search_after_loop fuel cluster index all (Z.of_nat from) (Z.of_nat total) acc w
    = Ret (w', Ok (acc ++ map (project src) (window all from (total - from) (drop i docs)))) ∧
    (i ≤ i')%nat ∧ reading s w' docs src sz' i'.
Proof.
  assert (0 < EsMaxFetchSize) as HM by done.
  intros Hrd Hnd Hi Hfm Hft Hfuel.
  revert w sz i from total acc Hrd Hi Hfm Hft Hfuel.
  induction fuel as [|fuel IH]; intros w sz i from total acc Hrd Hi Hfm Hft Hfuel; [lia|].
  cbn [search_after_loop].
  destruct (all || (0 <? Z.of_nat total)) eqn:Hgo.
  2: { destruct all; [done|]. cbn in Hgo. apply Z.ltb_ge in Hgo. exists w, sz, i.
       specialize (Hft eq_refl). assert (total = 0%nat) as -> by lia. by rewrite app_nil_r. }
  set (b := if all then M else Nat.min total M).
  assert ((if negb all && (Z.of_nat total <? EsMaxFetchSize) then Z.of_nat total else EsMaxFetchSize)
    = Z.of_nat b) as ->.
  { unfold b. destruct all; cbn; [lia|]. destruct (Z.ltb_spec (Z.of_nat total) EsMaxFetchSize); lia. }
  assert (0 < b ≤ M)%nat as Hb.
  { unfold b. destruct all; cbn in Hgo; [lia|]. apply Z.ltb_lt in Hgo. lia. }
  assert (all = false → b ≤ total)%nat as Hbt by (intros Hall; unfold b; rewrite Hall; lia).
  destruct (reading_set_size s w docs src sz i (QInt64 (Z.of_nat b)) Hrd) as (w1 & E1 & Hrd1).
  unfold bind at 1. rewrite E1.
  destruct (reading_page s w1 docs src b i Hrd1) as (r & Er & Hh & _); [lia|lia|].
  unfold bind at 1, wrapping at 1. rewrite Er. cbv zeta. rewrite Hh, length_map.
  assert (length (take b (drop i docs)) = Nat.min b (length docs - i)) as Hlen
    by (by rewrite length_take, length_drop).
  destruct (Z.ltb_spec (Z.of_nat (length (take b (drop i docs)))) (Z.of_nat b)) as [Hshort|Hfull].
  - assert (length docs - i < b)%nat as Hend by lia.
    rewrite (window_short all from) by (intros Hall; specialize (Hft Hall); specialize (Hbt Hall); rewrite length_drop; lia).
    assert (take b (drop i docs) = drop i docs) as Hpage by (apply take_ge; rewrite length_drop; lia).
    rewrite Hpage in *.
    assert (map (project src) (drop from (drop i docs)) = drop from (map (project src) (drop i docs))) as ->
      by (by rewrite skipn_map).
    destruct (Z.ltb_spec (Z.of_nat from) (Z.of_nat (length (drop i docs)))) as [Hin|Hout].
    + unfold bind, slice_from. rewrite length_map, decide_True by lia. rewrite Nat2Z.id.
      exists w1. eexists _, i. split; [done|]. split; [done|]. exact Hrd1.
    + exists w1. eexists _, i. split; [|split; [done|exact Hrd1]]. rewrite (drop_ge (map _ _)) by (rewrite length_map; lia). by rewrite app_nil_r.
  - destruct (last_of_hits w1 docs src i b r) as (j & h & El & Hj & Hjl); [lia|lia|done|].
    rewrite Hh in El. unfold bind at 1. rewrite El, project_sort.
    destruct (reading_advance s w1 docs src _ i j h Hrd1 Hj Hnd) as (w2 & E2 & Hrd2).
    unfold bind at 1. rewrite E2. rewrite Hjl, Hlen in Hrd2.
    assert (Nat.min b (length docs - i) = b) as Hmin by lia. rewrite Hmin in Hrd2.
    assert (from ≤ b)%nat as Hfb.
    { unfold b. destruct all; [done|]. specialize (Hft eq_refl). lia. }
    unfold bind at 1, slice_from at 1. rewrite length_map, Hlen, decide_True by lia. cbn [ret].
    assert ((if all then Z.of_nat total else Z.of_nat total - Z.of_nat b)
      = Z.of_nat (if all then total else total - b)) as ->.
    { destruct all; [done|]. specialize (Hbt eq_refl). lia. }
    destruct (IH w2 _ (i + b)%nat 0%nat (if all then total else total - b)%nat
      (acc ++ drop (Z.to_nat (Z.of_nat from)) (map (project src) (take b (drop i docs)))) Hrd2)
      as (w3 & sz3 & i3 & E3 & Hi3 & Hrd3); [lia|lia|lia|lia|].
    exists w3, sz3, i3. split; [|split; [lia|done]].
    unfold ret. change 0 with (Z.of_nat 0). rewrite E3. do 3 f_equal.
    rewrite Nat2Z.id, <-app_assoc. f_equal.
    rewrite (window_split all from (total - from) b) by (done || (intros Hall; specialize (Hbt Hall); specialize (Hft Hall); lia)).
    rewrite map_app, skipn_map, drop_drop. do 2 f_equal.
    unfold window. destruct all; [done|]. specialize (Hft eq_refl). specialize (Hbt eq_refl). f_equal. lia.
Qed.

(** *** Scrolling *)

Lemma Do_scroll w id timeout rest n :
  cursor (w_srv w) id = Some (rest, n) →
  ∃ w' res r, Do c (ScrollRequest id timeout) w = Ret (w', Ok res) ∧
    (StatusCode res =? StatusBadRequest) = false ∧
    CastEsApiResponseToSearchResponse res w' = Ret (w', Ok r) ∧
    sr_Hits r = take n rest ∧ sr_ScrollID r ≠ "" ∧
    cursor (w_srv w') (sr_ScrollID r) = Some (drop n rest, n).
Proof.
  intros Hcur. destruct (scroll_next (w_srv w) id timeout rest n Hcur)
    as (s' & resp & r & Ed & Es & Ej & Hh & Hid & Hc').
  exists (set_srv w s'), resp, r. unfold Do. rewrite Ed. split; [done|]. rewrite Es.
  unfold CastEsApiResponseToSearchResponse, cast_response, IsError. rewrite Es, Ej. done.
Qed.

Lemma scroll_collects fuel w all (zfrom zsize : Z) (from size n : nat) id timeout rest acc :
  (all = false → zfrom = Z.of_nat from ∧ zsize = Z.of_nat size) →
  cursor (w_srv w) id = Some (rest, n) → id ≠ "" → (0 < n)%nat → (length rest < fuel)%nat →
  ∃ w' id', scroll_loop fuel c all zfrom zsize id timeout (Z.of_nat n) acc w
    = Ret (w', Ok (acc ++ window all (if all then 0 else from) size rest, id')).
Proof.
  revert w zfrom zsize from size id rest acc.
  induction fuel as [|fuel IH]; intros w zfrom zsize from size id rest acc Hz Hcur Hid Hn Hfuel; [lia|].
  cbn [scroll_loop]. rewrite decide_False by done.
  destruct (Do_scroll w id timeout rest n Hcur) as (w1 & res & r & Ed & Es & Ec & Hh & Hid' & Hcur').
  unfold bind at 1, wrapping at 1. rewrite Ed, Es.
  unfold bind at 1, wrapping at 1. rewrite Ec. cbv zeta. rewrite Hh.
  assert (length (take n rest) = Nat.min n (length rest)) as Hlen by apply length_take.
  assert ((if Z.of_nat (length (take n rest)) <? Z.of_nat n then Z.of_nat (length (take n rest))
    else Z.of_nat n) = Z.of_nat (Nat.min n (length rest))) as ->.
  { rewrite Hlen. destruct (Z.ltb_spec (Z.of_nat (n `min` length rest)) (Z.of_nat n)); lia. }
  destruct all.
  { destruct (Z.ltb_spec (Z.of_nat (n `min` length rest)) (Z.of_nat n)) as [Hshort|Hfull].
    - exists w1. eexists. unfold ret, window. rewrite drop_0, take_ge by lia. done.
    - destruct (IH w1 zfrom zsize from size _ _ (acc ++ take n rest) Hz Hcur' Hid' Hn) as (w2 & id2 & E2);
        [rewrite length_drop; lia|].
      exists w2, id2. rewrite E2. unfold window. by rewrite !drop_0, <-app_assoc, take_drop. }
  destruct (Hz eq_refl) as [-> ->].
  destruct (Z.ltb_spec (Z.of_nat from) (Z.of_nat (n `min` length rest))) as [Hin|Hout].
  - rewrite <-Nat2Z.inj_add.
    destruct (Z.leb_spec (Z.of_nat (from + size)) (Z.of_nat (n `min` length rest))) as [Hall|Hmore].
    + unfold bind, slice_range. rewrite Hlen, decide_True by lia. exists w1. eexists. unfold ret, window.
      rewrite Nat2Z.id. replace (Z.to_nat (Z.of_nat (from + size) - Z.of_nat from)) with size by lia.
      rewrite skipn_firstn_comm, take_take. by replace (size `min` (n - from))%nat with size by lia.
    + unfold bind at 1, slice_from. rewrite Hlen, decide_True by lia. cbn [ret]. rewrite Nat2Z.id.
      unfold ret at 1. cbv beta iota.
      destruct (Z.ltb_spec (Z.of_nat (n `min` length rest)) (Z.of_nat n)) as [Hshort|Hfull].
      * exists w1. eexists. rewrite (take_ge rest) by lia. rewrite window_short by lia. done.
      * destruct (IH w1 _ _ 0%nat (size - (n - from))%nat _ _ (acc ++ drop from (take n rest)) (λ _, conj eq_refl eq_refl) Hcur' Hid' Hn)
          as (w2 & id2 & E2); [rewrite length_drop; lia|].
        exists w2, id2. change 0 with (Z.of_nat 0).
        replace (Z.of_nat size - (Z.of_nat n - Z.of_nat from)) with (Z.of_nat (size - (n - from))) by lia.
        rewrite E2. rewrite <-app_assoc.
        cbv iota. rewrite (window_split false from size n) by lia.
        by replace (from + size - n)%nat with (size - (n - from))%nat by lia.
  - destruct (Z.ltb_spec (Z.of_nat (n `min` length rest)) (Z.of_nat n)) as [Hshort|Hfull].
    + exists w1. eexists. unfold window. cbv iota. rewrite (drop_ge rest from), take_nil, app_nil_r by lia. done.
    + destruct (IH w1 _ _ (from - n)%nat size _ _ acc (λ _, conj eq_refl eq_refl) Hcur' Hid' Hn) as (w2 & id2 & E2);
        [rewrite length_drop; lia|].
      exists w2, id2. replace (Z.of_nat from - Z.of_nat n) with (Z.of_nat (from - n)) by lia.
      rewrite E2. unfold window. rewrite drop_drop. by replace (n + (from - n))%nat with from by lia.
Qed.

(** *** The two ways to read past the window limit *)

(** Offsets [from] and [from mod M] after [from / M] whole batches select the same window. *)
Lemma window_after_jump {A} all (from size : nat) (l : list A) :
  (all = true → from = 0%nat) →
  window all (from mod M) size (drop (Nat.min (from / M * M) (length l)) l) = window all from size l.
Proof.
  intros Hall. assert (M ≠ 0)%nat as HM by (unfold EsMaxFetchSize; lia).
  assert (from = from / M * M + from mod M)%nat as Hfrom
    by (pose proof (Nat.div_mod from M HM); lia).
  assert (drop (from mod M) (drop (Nat.min (from / M * M) (length l)) l) = drop from l) as E.
  { rewrite drop_drop. destruct (Nat.le_gt_cases (from / M * M) (length l)).
    - f_equal. lia.
    - rewrite !drop_ge by lia. done. }
  unfold window. by rewrite E.
Qed.

Lemma search_after_window fuel w docs src sz sq :
  reading (w_srv w) (set_query w (delete "from" <$> (<["sort" := QSort (Sort sq)]> <$> w_query w)))
    docs src sz 0 →
  is_Some (w_query w) → source_ok src → NoDup (map hit_Sort docs) → Sort sq ≠ [] →
  0 <= From sq → 0 <= Size sq < 2 ^ 62 → (FetchAllDocs sq = true → From sq = 0) →
  (docs = [] ∨ (From sq / EsMaxFetchSize - 1) * EsMaxFetchSize < Z.of_nat (length docs)) →
  (length docs < fuel)%nat →
  ∃ w', getDocumentsWithSearchAfter fuel cluster index sq w
    = Ret (w', Ok (map (project src)
        (window (FetchAllDocs sq) (Z.to_nat (From sq)) (Z.to_nat (Size sq)) docs))) ∧
    (docs ≠ [] → EsMaxFetchSize <= From sq →
     ∃ sz' i, reading (w_srv w) w' docs src sz' (S i)).
Proof.
  assert (0 < EsMaxFetchSize) as HM by done. assert (EsMaxFetchSize < 2 ^ 62) as HM' by done.
  intros Hrd [q Hq] Hok Hnd Hsort Hf Hsz Hall Hin Hfuel. unfold getDocumentsWithSearchAfter.
  destruct (Sort sq) as [|s0 ss] eqn:Es; [done|].
  unfold bind at 1, query_set at 1. rewrite Hq. unfold bind at 1, query_delete at 1.
  change (w_query (set_query w (Some (<["sort":=QSort (s0 :: ss)]> q)))) with (Some (<["sort":=QSort (s0 :: ss)]> q)).
  rewrite Hq in Hrd. cbn [fmap option_fmap option_map] in *.
  set (w1 := set_query (set_query w _) _) in *.
  assert (reading (w_srv w) w1 docs src sz 0) as Hrd1 by exact Hrd. clear Hrd.
  unfold bind at 1, wrapping at 1.
  destruct docs as [|h0 docs'] eqn:Hdocs.
  { destruct (jump_empty _ _ _ _ sq Hrd1 Hok Hf) as (w2 & sz2 & b & f & -> & Hrd2 & Hb). cbn [jd_insufficient jd_from].
    assert (window (FetchAllDocs sq) (Z.to_nat (From sq)) (Z.to_nat (Size sq)) ([] : list Hit) = []) as ->
      by (unfold window; rewrite drop_nil; destruct (FetchAllDocs sq); [done|apply take_nil]).
    destruct b; [by exists w2|]. destruct (Hb eq_refl) as [-> Hlt].
    rewrite i64_id by (unfold is_i64; lia).
    destruct (search_after_collects fuel _ w2 [] src sz2 0 (FetchAllDocs sq) (Z.to_nat (From sq))
      (Z.to_nat (From sq + Size sq)) [] Hrd2) as (w3 & sz3 & i3 & E3 & _); [done|done|lia|intros; lia|done|].
    rewrite !Z2Nat.id in E3 by lia. rewrite E3. exists w3. split; [|done].
    unfold window. rewrite !drop_nil, take_nil. by destruct (FetchAllDocs sq). }
  rewrite <-Hdocs in *. assert (docs ≠ []) as Hne by (by rewrite Hdocs).
  destruct Hin as [Hin|Hin]; [done|].
  destruct (jump_lands _ _ _ _ _ sq Hrd1 Hok Hnd Hf Hne Hin) as (w2 & sz2 & -> & Hrd2). cbn [jd_insufficient jd_from].
  pose proof (Z.mod_pos_bound (From sq) EsMaxFetchSize HM) as Hmod.
  rewrite i64_id by (unfold is_i64; lia).
  destruct (search_after_collects fuel _ w2 docs src sz2 _ (FetchAllDocs sq)
    (Z.to_nat (From sq mod EsMaxFetchSize)) (Z.to_nat (From sq mod EsMaxFetchSize + Size sq)) [] Hrd2)
    as (w3 & sz3 & i3 & E3 & Hi3 & Hrd3); [done|lia|lia|intros; lia|lia|].
  rewrite !Z2Nat.id in E3 by lia. rewrite E3. exists w3. split.
  2: { intros _ Hge. assert (1 <= From sq / EsMaxFetchSize) by (apply Z.div_le_lower_bound; lia).
       assert (0 < length docs)%nat by (rewrite Hdocs; cbn; lia).
       destruct i3 as [|i3]; [nia|]. eauto. }
  do 4 f_equal. rewrite app_nil_l. f_equal.
  replace (Z.to_nat (From sq mod EsMaxFetchSize + Size sq) - Z.to_nat (From sq mod EsMaxFetchSize))%nat
    with (Z.to_nat (Size sq)) by lia.
  rewrite Z2Nat.inj_mod, Z2Nat.inj_div by lia. apply window_after_jump. intros E. rewrite (Hall E). done.
Qed.

Lemma scroll_fetch_size_bounds all from size :
  0 <= from → 0 <= size → (all = false → EsMaxFetchSize < from + size) →
  0 < scroll_fetch_size all from size <= EsMaxFetchSize ∧
  (all = false → scroll_fetch_size all from size <= from + size).
Proof.
  assert (0 < EsMaxFetchSize) as HM by done.
  intros Hf Hs Hbig. unfold scroll_fetch_size, ceil_div. destruct all; [split; [lia|done]|].
  specialize (Hbig eq_refl). set (T := from + size) in *. set (it := (T + EsMaxFetchSize - 1) / EsMaxFetchSize).
  assert (1 <= it) as Hit by (apply Z.div_le_lower_bound; lia).
  assert (T <= it * EsMaxFetchSize) as Hup.
  { pose proof (Z.div_mod (T + EsMaxFetchSize - 1) EsMaxFetchSize ltac:(lia)) as Hdm. fold it in Hdm.
    pose proof (Z.mod_pos_bound (T + EsMaxFetchSize - 1) EsMaxFetchSize HM). lia. }
  split; [split|intros _].
  - apply Z.div_str_pos. lia.
  - apply Z.lt_succ_r, Z.div_lt_upper_bound; [lia|]. nia.
  - apply Z.lt_succ_r, Z.div_lt_upper_bound; [lia|]. nia.
Qed.
(** The scroll request at the start and its clean-up at the end. *)
Lemma initiate_scroll w q (n : nat) timeout :
  w_query w = Some q → accepted (w_srv w) q → q !! "size" = Some (QInt (Z.of_nat n)) →
  q !! "search_after" = None → q !! "from" = None → (0 < n)%nat → Z.of_nat n <= EsMaxFetchSize → timeout ≠ 0 →
  ∃ w' res r, initiateScrollApiSearchRequest c index timeout w = Ret (w', Ok res) ∧
    (StatusCode res =? StatusBadRequest) = false ∧
    CastEsApiResponseToSearchResponse res w' = Ret (w', Ok r) ∧
    sr_Hits r = map (project (q !! "_source")) (take n (docs_of (w_srv w) q)) ∧ sr_ScrollID r ≠ "" ∧
    cursor (w_srv w') (sr_ScrollID r) = Some (map (project (q !! "_source")) (drop n (docs_of (w_srv w) q)), n).
Proof.
  intros Hq Ha Hs Hsa Hf Hn Hmax Ht.
  destruct (scroll_first (w_srv w) q n timeout Ha Hs Hsa Hf Hn Hmax Ht)
    as (body & s' & resp & r & Em & Ed & Es & Ej & Hh & Hid & Hc').
  exists (set_srv w s'), resp, r.
  unfold initiateScrollApiSearchRequest, bind, wrapping, query_get, lift, ret, Do. rewrite Hq.
  cbn [default from_option id]. rewrite Em. cbv beta iota. rewrite Ed. split; [done|]. rewrite Es.
  unfold CastEsApiResponseToSearchResponse, cast_response, IsError. rewrite Es, Ej. done.
Qed.

Lemma clear_scroll {A} w ids (a : A) :
  ∃ w', bind (wrapping "error clearing scroll session" (Do c (ClearScrollRequest ids))) (λ _, ret a) w
    = Ret (w', Ok a).
Proof.
  destruct (scroll_clear (w_srv w) ids) as (s' & resp & E). unfold bind, wrapping, Do. rewrite E. eauto.
Qed.

Lemma scroll_window fuel w q sq :
  connected w → w_query w = Some q → accepted (w_srv w) q → q !! "search_after" = None →
  0 <= From sq → 0 <= Size sq → (FetchAllDocs sq = true → From sq = 0) →
  (FetchAllDocs sq = false → EsMaxFetchSize < From sq + Size sq) →
  i64 (ScrollTimeout sq * es_Second) ≠ 0 ∨ ScrollTimeout sq = 0 →
  (length (docs_of (w_srv w) q) < fuel)%nat →
  ∃ w', getDocumentsWithScrollApi fuel cluster index sq w
    = Ret (w', Ok (map (project (q !! "_source"))
        (window (FetchAllDocs sq) (Z.to_nat (From sq)) (Z.to_nat (Size sq)) (docs_of (w_srv w) q)))).
Proof.
  intros Hc Hq Ha Hsa Hf Hs Hall Hbig Hto Hfuel. unfold getDocumentsWithScrollApi.
  set (all := FetchAllDocs sq) in *. set (docs := docs_of (w_srv w) q) in *.
  destruct (scroll_fetch_size_bounds all (From sq) (Size sq) Hf Hs Hbig) as [Hn1 Hn2].
  unfold bind at 1, wrapping at 1. rewrite getClient_connected by done. cbv zeta.
  set (to := if ScrollTimeout sq =? 0 then _ else _).
  assert (to ≠ 0) as Hto'.
  { unfold to. destruct (Z.eqb_spec (ScrollTimeout sq) 0); [done|]. destruct Hto; done. }
  set (fs := scroll_fetch_size all (From sq) (Size sq)) in *. set (n := Z.to_nat fs).
  assert (fs = Z.of_nat n) as Hfs by (unfold n; lia). rewrite Hfs in *. clearbody n. clear fs Hfs.
  unfold bind at 1, query_set at 1. rewrite Hq. unfold bind at 1, query_delete at 1.
  set (q1 := delete "from" (<["size" := QInt (Z.of_nat n)]> q)).
  set (w1 := set_query (set_query w _) _). change (w_query (set_query w _)) with (Some (<["size" := QInt (Z.of_nat n)]> q)) in w1.
  assert (paging_key "size" ∧ paging_key "from") as [Hk1 Hk2] by (unfold paging_key; auto).
  assert (docs_of (w_srv w1) q1 = docs) as Hd1
    by (unfold q1; by rewrite docs_of_delete, docs_of_insert).
  assert (q1 !! "_source" = q !! "_source") as Hsrc by (unfold q1; by simplify_map_eq).
  destruct (initiate_scroll w1 q1 n to) as (w2 & res & r & E2 & Est & Ecast & Hh & Hid & Hcur);
    [done|by apply accepted_delete, accepted_insert|unfold q1; by simplify_map_eq..|lia|lia|done|].
  rewrite Hd1, Hsrc in *. unfold bind at 1. rewrite E2, Est.
  unfold bind at 1, wrapping at 1. rewrite Ecast. cbv zeta. rewrite Hh, length_map.
  assert (length (take n docs) = Nat.min n (length docs)) as Hlen by apply length_take.
  assert ((if Z.of_nat (length (take n docs)) <? Z.of_nat n then Z.of_nat (length (take n docs))
    else Z.of_nat n) = Z.of_nat (Nat.min n (length docs))) as ->.
  { rewrite Hlen. destruct (Z.ltb_spec (Z.of_nat (n `min` length docs)) (Z.of_nat n)); lia. }
  set (P := project (q !! "_source")) in *.
  assert (∀ zf zs (from size : nat) acc, (all = false → zf = Z.of_nat from ∧ zs = Z.of_nat size) → ∃ w3, (λ dcs f s, bind
      (if Z.of_nat (n `min` length docs) =? Z.of_nat n then
         bind (getDocumentsWithScrollSession fuel c all f s (sr_ScrollID r) to (Z.of_nat n))
           (λ s0, ret (dcs ++ s0.1, s0.2))
       else ret (dcs, sr_ScrollID r))
      (λ r0, bind (wrapping "error clearing scroll session" (Do c (ClearScrollRequest [r0.2]))) (λ _, ret r0.1)))
      acc zf zs w2
      = Ret (w3, Ok (acc ++ map P (window all (if all then 0 else from) size (drop n docs))))) as Hfinish.
  { intros zf zs from size acc Hz. cbv beta. destruct (Z.eqb_spec (Z.of_nat (n `min` length docs)) (Z.of_nat n)) as [Hfull|Hshort].
    - destruct (scroll_collects fuel w2 all zf zs from size n (sr_ScrollID r) to _ [] Hz Hcur Hid) as (w3 & id3 & E3);
        [lia|rewrite length_map, length_drop; lia|].
      destruct (clear_scroll w3 [id3] (acc ++ map P (window all (if all then 0 else from) size (drop n docs))))
        as (w4 & E4).
      exists w4. unfold bind at 1. unfold bind at 1, getDocumentsWithScrollSession. rewrite E3.
      rewrite app_nil_l, window_map. exact E4.
    - destruct (clear_scroll w2 [sr_ScrollID r] acc) as (w4 & E4). exists w4.
      unfold bind at 1, ret at 1. rewrite drop_ge by lia.
      assert (window all (if all then 0 else from) size ([] : list Hit) = []) as ->
        by (unfold window; rewrite drop_nil, take_nil; by destruct all).
      rewrite app_nil_r. exact E4. }
  assert (Z.of_nat (Z.to_nat (From sq)) = From sq) as Hfn by lia. rewrite <-Hfn. set (from := Z.to_nat (From sq)) in *.
  assert (Z.of_nat (Z.to_nat (Size sq)) = Size sq) as Hsn by lia. rewrite <-Hsn. set (size := Z.to_nat (Size sq)) in *.
  rewrite ?Nat2Z.id.
  destruct (Z.ltb_spec (Z.of_nat from) (Z.of_nat (n `min` length docs))) as [Hin|Hout].
  - unfold bind at 1, slice_from. rewrite length_map, Hlen, decide_True by lia. unfold ret at 1. rewrite ?Nat2Z.id.
    destruct (Hfinish 0 (Z.of_nat size - (Z.of_nat n - Z.of_nat from)) 0%nat (from + size - n)%nat
      (drop from (map P (take n docs)))) as (w3 & E3).
    { intros E. split; [done|]. specialize (Hn2 E). lia. }
    exists w3. etrans; [exact E3|]. do 3 f_equal.
    rewrite (window_split all from size n), map_app, skipn_map by (lia || (intros E; specialize (Hn2 E); lia)).
    by destruct all.
  - destruct (Z.ltb_spec (Z.of_nat (n `min` length docs)) (Z.of_nat n)) as [Hshort|Hfull].
    + exists w2. unfold ret, window. rewrite drop_ge, take_nil by lia. by destruct all.
    + assert (all = false) as Hallf.
      { destruct all; [|done]. rewrite (Hall eq_refl) in Hfn. lia. }
      rewrite Hallf in *.
      destruct (Hfinish (Z.of_nat from - Z.of_nat n) (Z.of_nat size) (from - n)%nat size []) as (w3 & E3).
      { intros _. split; lia. }
      exists w3. etrans; [exact E3|]. rewrite app_nil_l. do 4 f_equal. unfold window.
      rewrite drop_drop. by replace (n + (from - n))%nat with from by lia.
Qed.

(** The query the server sees, apart from paging. *)
Definition sorted_query (sq : SearchQuery) q : qmap :=
  match Sort sq with [] => q | _ => <["sort" := QSort (Sort sq)]> q end.

Lemma sorted_reading w q sq :
  connected w → w_query w = Some q → q !! "search_after" = None → Sort sq ≠ [] →
  accepted (w_srv w) (sorted_query sq q) →
  ∃ sz, reading (w_srv w) (set_query w (delete "from" <$> (<["sort" := QSort (Sort sq)]> <$> w_query w)))
    (docs_of (w_srv w) (sorted_query sq q)) (q !! "_source") sz 0.
Proof.
  intros Hc Hq Hsa Hne Ha. unfold sorted_query in *. destruct (Sort sq) as [|s0 ss]; [done|].
  rewrite Hq. eexists. split; [done|]. split; [done|]. eexists. split; [done|].
  assert (paging_key "from") as Hk by (unfold paging_key; auto). rewrite docs_of_delete by done.
  split_and!; [by apply accepted_delete|done|by simplify_map_eq|done|by simplify_map_eq|].
  apply start_first; by simplify_map_eq.
Qed.

(** The request below the window limit. *)
Lemma small_search w q sq :
  connected w → w_query w = Some q → q !! "search_after" = None →
  accepted (w_srv w) (sorted_query sq q) → 0 <= From sq → 0 < Size sq →
  From sq + Size sq <= EsMaxFetchSize →
  ∃ w' r, bind (query_set "size" (QInt64 (Size sq))) (λ _,
      bind (query_set "from" (QInt64 (From sq))) (λ _,
      bind (match Sort sq with [] => ret () | _ => query_set "sort" (QSort (Sort sq)) end) (λ _,
      searchRequestWithQuery cluster index))) w = Ret (w', Ok r) ∧
    sr_Hits r = map (project (q !! "_source"))
      (window false (Z.to_nat (From sq)) (Z.to_nat (Size sq)) (docs_of (w_srv w) (sorted_query sq q))).
Proof.
  intros Hc Hq Hsa Ha Hf Hs Hmax.
  set (q1 := <["from" := QInt64 (From sq)]> (<["size" := QInt64 (Size sq)]> (sorted_query sq q))).
  set (w1 := set_query w (Some q1)).
  assert (bind (query_set "size" (QInt64 (Size sq))) (λ _,
      bind (query_set "from" (QInt64 (From sq))) (λ _,
      bind (match Sort sq with [] => ret () | _ => query_set "sort" (QSort (Sort sq)) end) (λ _,
      searchRequestWithQuery cluster index))) w = searchRequestWithQuery cluster index w1) as ->.
  { unfold bind at 1, query_set at 1. rewrite Hq. unfold bind at 1, query_set at 1. cbn [set_query w_query].
    unfold w1, q1, sorted_query. destruct (Sort sq) as [|s0 ss]; [done|].
    unfold bind, query_set. cbn [set_query w_query].
    by rewrite (insert_insert_ne _ "sort" "from"), (insert_insert_ne _ "sort" "size") by done. }
  assert (paging_key "size" ∧ paging_key "from") as [Hk1 Hk2] by (unfold paging_key; auto).
  assert (docs_of (w_srv w1) q1 = docs_of (w_srv w) (sorted_query sq q)) as Hd
    by (unfold q1; by rewrite !docs_of_insert).
  assert (∀ k, k ≠ "sort" → sorted_query sq q !! k = q !! k) as Hsq.
  { intros k Hk. unfold sorted_query. destruct (Sort sq); [done|]. by rewrite lookup_insert_ne. }
  destruct (searchRequest_page w1 q1 (Z.to_nat (Size sq)) (Z.to_nat (From sq))) as (r & E & Hh & _).
  - done.
  - done.
  - by apply accepted_insert, accepted_insert.
  - unfold q1. rewrite Z2Nat.id by lia. by simplify_map_eq.
  - apply start_from; unfold q1; [|rewrite Z2Nat.id by lia; by simplify_map_eq].
    rewrite !lookup_insert_ne, Hsq by done. done.
  - lia.
  - lia.
  - lia.
  - exists w1, r. split; [done|]. rewrite Hh, Hd. unfold q1. rewrite !lookup_insert_ne, Hsq by done. done.
Qed.

(** *** Running past the end *)

Lemma jump_loop_overruns fuel s w docs src i from :
  reading s w docs src (Some (QInt64 EsMaxFetchSize)) i → NoDup (map hit_Sort docs) → docs ≠ [] →
  EsMaxFetchSize <= from → (Z.to_nat (from / EsMaxFetchSize) < fuel)%nat →
  Z.of_nat (length docs) <= Z.of_nat i + (from / EsMaxFetchSize - 1) * EsMaxFetchSize →
  jump_loop fuel cluster index from w = Panic index_out_of_range.
Proof.
  intros Hrd Hnd Hne Hge Hfuel Hout. revert w i from Hrd Hge Hfuel Hout.
  induction fuel as [|fuel IH]; intros w i from Hrd Hge Hfuel Hout; [lia|].
  assert (0 < EsMaxFetchSize) as HM by done.
  cbn [jump_loop]. destruct (Z.ltb_spec from EsMaxFetchSize) as [|_]; [lia|].
  destruct (reading_page s w docs src M i) as (r & Er & Hh & Ht); [by rewrite Z2Nat.id by lia|lia|lia|].
  unfold bind at 1, wrapping at 1. rewrite Er.
  destruct (Z.eqb_spec (sr_Total r) 0) as [Hz|Hz]; [by apply Ht in Hz|].
  destruct (Nat.le_gt_cases (length docs) i) as [Hend|Hmore].
  { unfold bind at 1, last_of. rewrite Hh, drop_ge, take_nil by lia. done. }
  destruct (last_of_hits w docs src i M r) as (j & h & El & Hj & Hlen); [lia|lia|done|].
  unfold bind at 1. rewrite El, project_sort.
  destruct (reading_advance s w docs src _ i j h Hrd Hj Hnd) as (w' & Es & Hrd').
  unfold bind at 1. rewrite Es. rewrite Hlen, length_take, length_drop in Hrd'.
  assert ((from - EsMaxFetchSize) / EsMaxFetchSize = from / EsMaxFetchSize - 1) as Hdiv.
  { replace (from - EsMaxFetchSize) with (from + (-1) * EsMaxFetchSize) by lia. rewrite Z.div_add by lia. lia. }
  assert (2 <= from / EsMaxFetchSize) as H2 by nia.
  assert (2 * EsMaxFetchSize <= from).
  { pose proof (Z.mul_div_le from EsMaxFetchSize HM). nia. }
  apply (IH w' _ (from - EsMaxFetchSize) Hrd'); [lia|lia|]. nia.
Qed.

End search.

(** An offset more than one batch past the last document crashes the process. With a
    sort order, when at least one whole batch of 10,000 lies between the end of the
    documents and [From], the jump gets an empty page, whose total is not zero, and
    indexes its last hit: the handler panics instead of returning no documents. *)
Theorem IncrementalSearch_overrun_panics {srv} `{ESClient srv} c cluster index `{!ESIndex c index} fuel
    (w : world srv) q sq :
  connected c cluster w → w_query w = Some q → q !! "search_after" = None → source_ok (q !! "_source") →
  accepted (w_srv w) (sorted_query sq q) →
  let docs := docs_of (w_srv w) (sorted_query sq q) in
  Sort sq ≠ [] → NoDup (map hit_Sort docs) → FetchAllDocs sq = false →
  0 < Size sq < 2 ^ 61 → From sq < 2 ^ 61 →
  0 < Z.of_nat (length docs) <= (From sq / EsMaxFetchSize - 1) * EsMaxFetchSize →
  IncrementalSearch fuel cluster index sq w = Panic index_out_of_range.
Proof.
  intros Hc Hq Hsa Hsrc Ha docs Hne Hnd Hall Hs Hf Hout. unfold IncrementalSearch.
  assert (0 < EsMaxFetchSize) as HM by done.
  assert (2 * EsMaxFetchSize <= From sq) as Hge.
  { pose proof (Z.mul_div_le (From sq) EsMaxFetchSize HM).
    assert (2 <= From sq / EsMaxFetchSize) by nia. nia. }
  assert (negb (FetchAllDocs sq) && ((From sq <? 0) || (Size sq <=? 0)) = false) as ->.
  { destruct (Z.ltb_spec (From sq) 0), (Z.leb_spec (Size sq) 0); try lia; by destruct (FetchAllDocs sq). }
  unfold bind at 1, query_is_nil. rewrite Hq, Hall. cbv beta iota zeta. cbn [orb].
  rewrite i64_id by (unfold is_i64; lia). destruct (Z.ltb_spec EsMaxFetchSize (From sq + Size sq)); [|lia].
  unfold getBulkDocuments. unfold bind at 1, wrapping at 1.
  destruct (sorted_reading c cluster index w q sq) as [sz Hrd]; [done..|]. fold docs in Hrd.
  destruct (Sort sq) as [|s0 ss] eqn:Es; [done|].
  unfold getDocumentsWithSearchAfter. rewrite Es.
  unfold bind at 1, query_set at 1. rewrite Hq. unfold bind at 1, query_delete at 1.
  change (w_query (set_query w (Some (<["sort":=QSort (s0 :: ss)]> q)))) with (Some (<["sort":=QSort (s0 :: ss)]> q)).
  rewrite Hq in Hrd. cbn [fmap option_fmap option_map] in *.
  set (w1 := set_query (set_query w _) _) in *.
  assert (reading c cluster index (w_srv w) w1 docs (q !! "_source") sz 0) as Hrd1 by exact Hrd. clear Hrd.
  unfold bind at 1, wrapping at 1, jumpToActiveBatchOfDocuments.
  pose proof Hrd1 as (_ & _ & q1 & Hq1 & _ & _ & Hsrc1 & _ & _ & _).
  unfold bind at 1, query_get. rewrite Hq1. cbn [default from_option id]. rewrite Hsrc1.
  unfold bind at 1.
  assert ((match q !! "_source" with
           | Some (QStrings src) => ret (Some src)
           | Some _ => fail (EsMsg "invalid type for _source, expected []string")
           | None => ret None
           end) w1 = Ret (w1, Ok (match q !! "_source" with Some (QStrings l) => Some l | _ => None end))) as ->
    by (by destruct (q !! "_source") as [[]|]).
  destruct (Z.ltb_spec (From sq) EsMaxFetchSize); [lia|].
  destruct (reading_set_source c cluster index _ w1 docs _ sz 0 (QStrings ["_id"]) Hrd1) as (wa & Ea & Hra).
  destruct (reading_set_size c cluster index _ wa docs _ sz 0 (QInt64 EsMaxFetchSize) Hra) as (wb & Eb & Hrb).
  unfold bind at 1. unfold bind at 1. rewrite Ea. unfold bind at 1. rewrite Eb.
  rewrite (jump_loop_overruns c cluster index (jump_fuel (From sq)) _ wb docs _ 0 (From sq) Hrb Hnd); [done|..].
  - intros E. rewrite E in Hout. cbn in Hout. lia.
  - lia.
  - unfold jump_fuel. lia.
  - lia.
Qed.

(** With a sort order, a whole batch of 10,000 lies between the end of the documents and the
    offset: [jumpToActiveBatchOfDocuments] then gets an empty page whose total is not zero,
    and indexes its last hit. *)
Definition overrun (sq : SearchQuery) (docs : list Hit) : bool :=
  negb (bool_decide (Sort sq = [])) && negb (FetchAllDocs sq) && negb (bool_decide (docs = [])) &&
  (Z.of_nat (length docs) <=? (From sq / EsMaxFetchSize - 1) * EsMaxFetchSize).


(** The caller's query map is changed, and cannot be used again. A search with an offset
    of 10,000 or more leaves its [search_after] entry in the map, so a later search with
    the same map and an offset below the limit combines [search_after] with [from]; the
    server rejects that, and the rejection is reported as an empty result without error. *)
Theorem reused_query_map_loses_results {srv} `{ESClient srv} c cluster index `{!ESIndex c index}
    fuel fuel' (w : world srv) q sq sq' :
  connected c cluster w → w_query w = Some q → q !! "search_after" = None → source_ok (q !! "_source") →
  accepted (w_srv w) (sorted_query sq q) →
  let docs := docs_of (w_srv w) (sorted_query sq q) in
  Sort sq ≠ [] → NoDup (map hit_Sort docs) → docs ≠ [] → FetchAllDocs sq = false →
  EsMaxFetchSize <= From sq < 2 ^ 61 → 0 < Size sq < 2 ^ 61 →
  (From sq / EsMaxFetchSize - 1) * EsMaxFetchSize < Z.of_nat (length docs) → (length docs < fuel)%nat →
  Sort sq' = [] → FetchAllDocs sq' = false → 0 < From sq' → 0 < Size sq' →
  From sq' + Size sq' <= EsMaxFetchSize →
  ∃ w1 r w2, IncrementalSearch fuel cluster index sq w = Ret (w1, Ok r) ∧
    IncrementalSearch fuel' cluster index sq' w1 = Ret (w2, Ok zeroSearchResponse).
Proof.
  intros Hc Hq Hsa Hsrc Ha docs Hne Hnd Hdocs Hall Hf Hs Hin Hfuel Hs' Hall' Hf' Hz' Hle.
  assert (0 < EsMaxFetchSize) as HM by done.
  destruct (sorted_reading c cluster index w q sq) as [sz Hrd]; [done..|]. fold docs in Hrd.
  destruct (search_after_window c cluster index fuel w docs (q !! "_source") sz sq) as (w1 & E1 & Hleft);
    [done|by eexists|done|done|done|lia|lia|by rewrite Hall|by right|done|].
  destruct (Hleft Hdocs) as (sz' & i & Hc1 & Hsrv & q1 & Hq1 & Ha1 & _ & _ & _ & Hfr & Hp); [lia|].
  assert (∃ k, q1 !! "search_after" = Some (QKey k)) as [k Hk]
    by (inversion Hp; simplify_eq; eauto).
  exists w1.
  set (q2 := <["from" := QInt64 (From sq')]> (<["size" := QInt64 (Size sq')]> q1)).
  assert (paging_key "size" ∧ paging_key "from") as [Hk1 Hk2] by (unfold paging_key; auto).
  destruct (search_conflict (w_srv w1) q2 k (From sq')) as (body & resp & Em & Ed & Es);
    [rewrite Hsrv; by apply accepted_insert, accepted_insert|unfold q2; by simplify_map_eq..|done|].
  eexists _, (set_query w1 (Some q2)). split.
  - unfold IncrementalSearch. rewrite Hall. cbn [negb andb].
    destruct (Z.ltb_spec (From sq) 0); [lia|]. destruct (Z.leb_spec (Size sq) 0); [lia|]. cbn [orb].
    unfold bind at 1, query_is_nil. rewrite Hq. cbv beta iota zeta.
    rewrite i64_id by (unfold is_i64; lia). destruct (Z.ltb_spec EsMaxFetchSize (From sq + Size sq)); [|lia].
    unfold getBulkDocuments, bind at 1, wrapping at 1. destruct (Sort sq) as [|s0 ss] eqn:Esort; [done|].
    rewrite E1. done.
  - unfold IncrementalSearch. rewrite Hall'. cbn [negb andb].
    destruct (Z.ltb_spec (From sq') 0); [lia|]. destruct (Z.leb_spec (Size sq') 0); [lia|]. cbn [orb].
    unfold bind at 1, query_is_nil. rewrite Hq1. cbv beta iota zeta.
    assert (EsMaxFetchSize < 2 ^ 62) by done.
    rewrite i64_id by (unfold is_i64; lia). destruct (Z.ltb_spec EsMaxFetchSize (From sq' + Size sq')); [lia|].
    unfold bind at 1, query_set at 1. rewrite Hq1. unfold bind at 1, query_set at 1. cbn [set_query w_query].
    rewrite Hs'. unfold bind at 1, ret at 1. fold q2.
    unfold searchRequestWithQuery, bind at 1, query_get. cbn [w_query set_query default from_option id].
    unfold bind at 1, wrapping at 1, lift. rewrite Em. unfold ret at 1.
    unfold doSearchRequest, bind at 1, wrapping at 1. rewrite (getClient_connected c cluster) by done.
    unfold bind, wrapping, Do. cbn [w_srv set_query]. rewrite Ed, Es. done.
Qed.

(** ** The bulk body *)

(** The lines of one operation. *)
Definition bulk_lines {srv} `{ESClient srv} (op : BulkOperation) : result es_error (list string) :=
  match json_Marshal (JBulkMeta (bo_Action op) (bo_Index op) (bo_ID op)) with
  | Err e => Err (EsWrap "error marshaling metadata" (EsMsg e))
  | Ok metaLine =>
      if decide (bo_Action op = ActionIndex ∨ bo_Action op = ActionUpdate) then
        match json_Marshal (JAny (bo_Document op)) with
        | Err e => Err (EsWrap "error marshaling document" (EsMsg e))
        | Ok docLine => Ok [metaLine; docLine]
        end
      else Ok [metaLine]
  end.

Definition unlines (ls : list string) : string := foldr (λ l acc, l +:+ newline +:+ acc) "" ls.

Lemma string_app_nil_r (a : string) : a +:+ "" = a.
Proof. induction a as [|x a IH]; [done|]. unfold String.append. fold String.append. by f_equal. Qed.

Fixpoint concat_results {E A} (rs : list (result E (list A))) : result E (list A) :=
  match rs with
  | [] => Ok []
  | r :: rs =>
      match r with
      | Err e => Err e
      | Ok l => match concat_results rs with Ok ls => Ok (l ++ ls) | Err e => Err e end
      end
  end.

(** The body is the newline-terminated lines of the operations in order, one or two each,
    and the first line that cannot be marshalled stops the request. *)
Lemma bulk_body_lines {srv} `{ESClient srv} ops buf :
  bulk_body ops buf =
    match concat_results (map bulk_lines ops) with
    | Ok ls => Ok (buf +:+ unlines ls)
    | Err e => Err e
    end.
Proof.
  revert buf. induction ops as [|op ops IH]; intros buf; [by cbn; rewrite string_app_nil_r|].
  cbn [bulk_body map concat_results]. unfold bulk_lines at 1.
  destruct (json_Marshal (JBulkMeta _ _ _)) as [meta|e]; [|done].
  destruct (decide _).
  - destruct (json_Marshal (JAny _)) as [doc|e]; [|done]. rewrite IH.
    destruct (concat_results _) as [ls|e]; [|done]. cbn [unlines foldr app]. by rewrite !string_app_assoc.
  - rewrite IH. destruct (concat_results _) as [ls|e]; [|done]. cbn [unlines foldr app].
    by rewrite !string_app_assoc.
Qed.

(** ** An index kept in a list

    Numbered documents, one open scroll; requests and responses are the encodings of
    their paging parameters. *)

Module ListIndex.
Definition enc {A} `{Countable A} (a : A) : string := pretty (Zpos (encode a)).
Definition dec {A} `{Countable A} (s : string) : option A :=
  match read_int s with Some (Zpos p) => decode p | _ => None end.

Lemma dec_enc {A} `{Countable A} (a : A) : dec (enc a) = Some a.
Proof. unfold dec, enc. rewrite read_int_pretty. apply decode_encode. Qed.

Definition doc (i : nat) : Hit :=
  {| hit_Index := "demo"; hit_ID := pretty i; hit_Score := GoValue.f64_of_Z 0; hit_Source := [("n", AnyInt64 (Z.of_nat i))];
     hit_Sort := [AnyInt64 (Z.of_nat i)]; hit_Fields := [] |}.
Definition count : nat := Z.to_nat 20005.
Definition docs : list Hit := map doc (seq 0 count).

Lemma docs_length : length docs = count.
Proof. unfold docs. by rewrite length_map, length_seq. Qed.

Definition without_source (h : Hit) : Hit :=
  {| hit_Index := hit_Index h; hit_ID := hit_ID h; hit_Score := hit_Score h; hit_Source := [];
     hit_Sort := hit_Sort h; hit_Fields := hit_Fields h |}.
Definition projected (filtered : bool) (h : Hit) : Hit := if filtered then without_source h else h.

(** Page size, offset, position of the [search_after] document, fields filtered. *)
Abbreviation params := (option Z * option Z * option Z * bool)%type.

Definition number (v : option qval) : option Z :=
  match v with Some (QInt64 n) | Some (QInt n) => Some n | _ => None end.
Definition after_of (v : option qval) : option Z :=
  match v with Some (QKey [AnyInt64 z]) => Some z | Some _ => Some (-1) | None => None end.
Definition params_of (q : qmap) : params :=
  (number (q !! "size"), number (q !! "from"), after_of (q !! "search_after"),
   bool_decide (q !! "_source" ≠ None)).

(** The open scroll: position, page size, fields filtered. *)
Abbreviation server := (option (nat * nat * bool)).

Definition answer (start n : nat) (f : bool) : esResponse :=
  {| StatusCode := 200; esBody := enc (start, n, f) |}.
Definition rejected : esResponse := {| StatusCode := 400; esBody := "" |}.

Definition serve (req : esapi_request) (s : server) : server * result string esResponse :=
  match req with
  | SearchRequest _ body timeout =>
      match dec body : option params with
      | Some (Some n, from, after, f) =>
          match after, from with
          | Some _, Some _ => (s, Ok rejected)
          | _, _ =>
              let start := match after, from with
                           | Some z, _ => S (Z.to_nat z)
                           | None, Some m => Z.to_nat m
                           | None, None => 0%nat
                           end in
              (if timeout =? 0 then s else Some ((start + Z.to_nat n)%nat, Z.to_nat n, f),
               Ok (answer start (Z.to_nat n) f))
          end
      | _ => (s, Ok rejected)
      end
  | ScrollRequest _ _ =>
      match s with
      | Some (p, n, f) => (Some ((p + n)%nat, n, f), Ok (answer p n f))
      | None => (s, Ok rejected)
      end
  | ClearScrollRequest _ => (None, Ok {| StatusCode := 200; esBody := "" |})
  | _ => (s, Err "unsupported request")
  end.

Definition read_answer (body : string) : option SearchResponse :=
  match dec body : option (nat * nat * bool) with
  | Some (start, n, f) =>
      Some {| sr_Total := Z.of_nat (length docs);
              sr_Hits := map (projected f) (take n (drop start docs)); sr_Aggregations := [];
              sr_Took := 1; sr_TimedOut := false; sr_ScrollID := "s" |}
  | None => None
  end.

#[export] Instance list_client : ESClient server := {
  es_client := unit;
  NewTypedClient _ := Ok ();
  es_Do _ := serve;
  json_Marshal v := match v with JMap q => Ok (enc (params_of q)) | _ => Err "unsupported value" end;
  decode_Search := read_answer;
  decode_ById _ := None;
  decode_Index _ := None;
  decode_Count _ := None;
  decode_ByQuery _ := None;
  decode_Bulk _ := None;
}.

Definition client : es_client (srv := server) := ().

Lemma docs_sort i h : docs !! i = Some h → hit_Sort h = [AnyInt64 (Z.of_nat i)].
Proof.
  unfold docs. intros E. change (map doc (seq 0 count)) with (doc <$> seq 0 count) in E.
  apply list_lookup_fmap_Some in E as (j & -> & E). apply lookup_seq in E as [-> _]. done.
Qed.

Lemma read_answer_enc start n f :
  read_answer (enc (start, n, f)) =
    Some {| sr_Total := Z.of_nat (length docs); sr_Hits := map (projected f) (take n (drop start docs));
            sr_Aggregations := []; sr_Took := 1; sr_TimedOut := false; sr_ScrollID := "s" |}.
Proof. unfold read_answer. by rewrite dec_enc. Qed.

Definition open_scroll (s : server) (id : string) : option (list Hit * nat) :=
  if decide (id = "s") then
    match s with Some (p, n, f) => Some (map (projected f) (drop p docs), n) | None => None end
  else None.

#[export] Program Instance list_index : ESIndex (srv := server) client "demo" := {
  docs_of _ _ := docs;
  project src := projected (bool_decide (src ≠ None));
  accepted _ _ := True;
  cursor := open_scroll;
}.
Next Obligation. done. Qed.
Next Obligation. done. Qed.
Next Obligation. done. Qed.
Next Obligation. done. Qed.
Next Obligation. intros src h. unfold projected. by case_match. Qed.
Next Obligation.
  intros s q n i _ Hsize Hp _ Hn Hmax. eexists _, _, _. split; [reflexivity|].
  cbn [es_Do list_client serve]. rewrite dec_enc. unfold params_of. rewrite Hsize. cbn [number].
  assert (∃ after from, number (q !! "from") = from ∧ after_of (q !! "search_after") = after ∧
    (after = None ∨ from = None) ∧
    match after, from with
    | Some z, _ => S (Z.to_nat z) | None, Some m => Z.to_nat m | None, None => 0%nat end = i)
    as (after & from & -> & -> & Hor & Hstart).
  { destruct Hp as [Hsa Hf|m Hsa Hf|j h Hsa Hf Hj _]; rewrite Hsa, Hf; cbn [number after_of].
    - exists None, None. split_and!; auto.
    - exists None, (Some (Z.of_nat m)). split_and!; auto using Nat2Z.id.
    - rewrite (docs_sort _ _ Hj). exists (Some (Z.of_nat j)), None. split_and!; auto using Nat2Z.id. }
  assert (∀ (x y : server * result string esResponse), (match after, from with Some _, Some _ => x | _, _ => y end) = y)
    as -> by (intros; by destruct Hor as [->| ->]; [|destruct after]).
  rewrite Hstart, Nat2Z.id. split; [reflexivity|]. split; [done|].
  cbn [esBody answer decode_Search list_client]. rewrite read_answer_enc. split; [done|].
  cbn [sr_Hits sr_Total]. split; [done|]. split; done.
Qed.
Next Obligation.
  intros s q k m _ Hsa Hf Hm. eexists _, _. split; [reflexivity|].
  cbn [es_Do list_client serve]. rewrite dec_enc. unfold params_of. rewrite Hsa, Hf. cbn [number].
  assert (∃ z, after_of (Some (QKey k)) = Some z) as [z ->].
  { destruct k as [|[] []]; cbn; eauto. }
  by destruct (number (q !! "size")).
Qed.
Next Obligation.
  intros s q n timeout _ Hsize Hsa Hf Hn Hmax Ht. unfold open_scroll. eexists _, _, _, _. split; [reflexivity|].
  cbn [es_Do list_client serve]. rewrite dec_enc. unfold params_of. rewrite Hsize, Hsa, Hf.
  cbn [number after_of]. destruct (Z.eqb_spec timeout 0); [done|]. rewrite Nat2Z.id.
  split; [reflexivity|]. split; [done|]. cbn [esBody answer decode_Search list_client].
  rewrite read_answer_enc. split; [done|]. cbn [sr_Hits sr_ScrollID].
  split; [done|]. split; [done|]. by rewrite decide_True.
Qed.
Next Obligation.
  intros s id timeout rest n Hcur. unfold open_scroll in *. case_decide; [|done].
  destruct s as [[[p n'] f]|]; [|done]. simplify_eq. eexists _, _, _.
  cbn [es_Do list_client serve]. split; [reflexivity|]. split; [done|].
  cbn [esBody answer decode_Search list_client]. rewrite read_answer_enc. split; [done|].
  cbn [sr_Hits sr_ScrollID]. rewrite firstn_map, skipn_map, drop_drop.
  split; [done|]. split; [done|]. by rewrite decide_True.
Qed.
Next Obligation. intros s ids. by eexists _, _. Qed.

(** A connected client and a query map with one entry of the caller's. *)
Definition start : world server :=
  {| w_instances := {["main" := ()]}; w_configs := ∅; w_srv := None;
     w_query := Some {["query" := QAny (AnyMap [("match_all", AnyMap [])])]} |}.

Definition deep_page (from size : Z) : SearchQuery :=
  {| Sort := [[("n", AnyString "asc")]]; From := from; Size := size; FetchAllDocs := false; ScrollTimeout := 0 |}.

Definition page (from size : Z) : SearchQuery :=
  {| Sort := []; From := from; Size := size; FetchAllDocs := false; ScrollTimeout := 0 |}.

Lemma docs_nodup : NoDup (map hit_Sort docs).
Proof.
  apply NoDup_alt. intros i j k Hi Hj. change (map hit_Sort docs) with (hit_Sort <$> docs) in Hi, Hj.
  apply list_lookup_fmap_Some in Hi as (h & -> & Hi), Hj as (h' & E & Hj).
  rewrite (docs_sort _ _ Hi), (docs_sort _ _ Hj) in E. injection E. lia.
Qed.

Lemma docs_from i : drop i docs = map doc (seq i (count - i)).
Proof. unfold docs. by rewrite skipn_map, skipn_seq. Qed.
End ListIndex.
Import ListIndex.


Lemma IncrementalSearch_overrun_panics_witness :
  IncrementalSearch 6 "main" "demo" (ListIndex.deep_page 40000 10) ListIndex.start = Panic index_out_of_range.
Proof.
  apply (IncrementalSearch_overrun_panics ListIndex.client "main" "demo" 6 ListIndex.start
    {["query" := QAny (AnyMap [("match_all", AnyMap [])])]} (ListIndex.deep_page 40000 10));
    [done|done|done|done|done|done|apply ListIndex.docs_nodup|done|done|done|].
  change (0 < Z.of_nat (length ListIndex.docs) <= 30000). rewrite ListIndex.docs_length. done.
Defined.

Lemma reused_query_map_loses_results_witness :
  ∃ w1 r w2,
    IncrementalSearch (S ListIndex.count) "main" "demo" (ListIndex.deep_page 10000 10) ListIndex.start = Ret (w1, Ok r) ∧
    IncrementalSearch 6 "main" "demo" (ListIndex.page 1 3) w1 = Ret (w2, Ok zeroSearchResponse).
Proof.
  apply (reused_query_map_loses_results ListIndex.client "main" "demo" (S ListIndex.count) 6 ListIndex.start
    {["query" := QAny (AnyMap [("match_all", AnyMap [])])]} (ListIndex.deep_page 10000 10) (ListIndex.page 1 3));
    [done|done|done|done|done|done|apply ListIndex.docs_nodup| |done|done|done| | |done..].
  - intros E. pose proof ListIndex.docs_length as Hl. change (docs_of _ _) with ListIndex.docs in E. rewrite E in Hl. discriminate Hl.
  - change (0 < Z.of_nat (length ListIndex.docs)). rewrite ListIndex.docs_length. done.
  - change (length ListIndex.docs < S ListIndex.count)%nat. rewrite ListIndex.docs_length. lia.
Defined.
