(* ===== verification/FeatureLifecycle.v ===== *)
(** * The life cycle of feature configurations ([src/core/features])

    Loading, validating and serving a configuration ([init.go], [options.go],
    [validator.go]), the manager that owns it and its watcher goroutine ([manager.go],
    [watcher.go]). Files are a map from paths to their mode and content; the JSON schema
    validator (a third-party library) and the JSON decoder are parameters. The watcher
    goroutine and the callers of [Init] and [Close] interleave at the grain of the
    critical sections: a reload and the publication of its result are two steps. *)

From Stdlib Require Import ZArith Lia.
From stdpp Require Import base numbers strings gmap list relations.
From S2P Require Import Prelude GoValue Features.
Local Open Scope Z_scope.

(** ** Files *)

Record fileinfo : Type := { f_perm : Z; f_dir : bool; f_regular : bool; f_content : string }.
Abbreviation filesystem := (gmap string fileinfo).

(** [mode.IsRegular() && (mode.Perm()&400) != 0], with 400 in decimal. *)
Definition IsReadableFile (fs : filesystem) (path : string) : result string unit :=
  match fs !! path with
  | None => Err "file does not exist at provided path"
  | Some f =>
      if f_dir f then Err "directory found instead of file at provided path"
      else if f_regular f && negb (Z.land (f_perm f) 400 =? 0) then Ok ()
      else Err "file exists, but not readable"
  end.

(** [os.ReadFile] for the owner of the file: the owner's read bit is 0400, octal. *)
Definition ReadFile (fs : filesystem) (path : string) : result string string :=
  match fs !! path with
  | None => Err "no such file or directory"
  | Some f =>
      if f_dir f then Err "is a directory"
      else if Z.testbit (f_perm f) 8 then Ok (f_content f) else Err "permission denied"
  end.

(** [filesys.WriteFile]: it succeeds, or fails leaving whatever it leaves at the path. *)
Inductive write_outcome : Type := WriteOk | WriteFailed (why : string) (left_behind : option fileinfo).

Definition WriteFile (o : write_outcome) (fs : filesystem) (path content : string) (mode : Z)
  : filesystem * result string unit :=
  match o with
  | WriteOk =>
      let perm := match fs !! path with Some f => f_perm f | None => mode end in
      (<[path := {| f_perm := perm; f_dir := false; f_regular := true; f_content := content |}]> fs, Ok ())
  | WriteFailed why l => (partial_alter (λ _, l) path fs, Err why)
  end.

(** ** Options *)

Definition FeatureSourceFile : Z := 15.      (* iota in its const block *)
Definition FeatureSourceRawBytes : Z := 16.
Definition FeatureContentFormatJson : Z := 1.

(** Of [watcher.WatcherOptions], what this package uses: whether there is a logger and a
    callback, and the content source and format it sets. *)
Record WatcherOptions : Type := {
  wo_Logger : bool;
  wo_OnUpdateCallback : bool;
  wo_ContentSource : Z;
  wo_ContentFormat : Z;
}.

Record InitOptions : Type := {
  SourceType : Z;
  Input : string;
  EnableWatch : bool;
  WatcherOpts : option WatcherOptions;
}.

Record UpdaterSchema : Type := { ContentSource : Z; ContentFormat : Z; Content : string }.

Definition with_Input (o : InitOptions) (input : string) : InitOptions :=
  {| SourceType := SourceType o; Input := input; EnableWatch := EnableWatch o; WatcherOpts := WatcherOpts o |}.
Definition with_watcher (o : InitOptions) (w : option WatcherOptions) : InitOptions :=
  {| SourceType := SourceType o; Input := Input o; EnableWatch := EnableWatch o; WatcherOpts := w |}.

(** [InitOptions.IsValid]; [None] is the nil pointer. *)
Definition IsValid (fs : filesystem) (o : option InitOptions) : result string unit :=
  match o with
  | None => Err "feature init options are required"
  | Some o =>
      if negb (bool_decide (SourceType o ∈ [FeatureSourceFile; FeatureSourceRawBytes])) then
        Err "invalid config source provided"
      else if (SourceType o =? FeatureSourceFile) &&
              (match IsReadableFile fs (Input o) with Ok _ => false | Err _ => true end) then
        Err "filePath must be a readable file when feature source is of type file"
      else if EnableWatch o && bool_decide (WatcherOpts o = None) then
        Err "watcher options must be set when EnableWatch is true"
      else Ok ()
  end.

Definition populateRequiredOptionsProperties (o : option InitOptions) : outcome (option InitOptions) :=
  match o with
  | None => Ret None
  | Some o =>
      if EnableWatch o then
        match WatcherOpts o with
        | None => Panic nil_dereference
        | Some w =>
            Ret (Some (with_watcher o (Some
              {| wo_Logger := true; wo_OnUpdateCallback := wo_OnUpdateCallback w;
                 wo_ContentSource := wo_ContentSource w; wo_ContentFormat := wo_ContentFormat w |})))
        end
      else Ret (Some o)
  end.

#[export] Instance WatcherOptions_eq_dec : EqDecision WatcherOptions.
Proof. solve_decision. Defined.

Section lifecycle.
(** [gojsonschema] against the embedded schema; [json.Unmarshal]; [time.Parse]; the order in
    which the features of a configuration are visited. *)
Context (schema_error : string → option string).
Context (unmarshal : string → option FeatureConfig).
Context (parse : string → option Z).
Context (map_order : FeatureConfig → list (string * Feature)).

Definition validateSchema (configJSON : string) : option string :=
  match schema_error configJSON with
  | Some e => Some ("schema validation error: " +:+ e)
  | None => None
  end.

Definition ValidateFeatureConfig (configJSON : string) : outcome (option string) :=
  match validateSchema configJSON with
  | Some e => Ret (Some ("schema validation error: " +:+ e))
  | None =>
      match unmarshal configJSON with
      | None => Ret (Some "failed to unmarshal feature config")
      | Some cfg =>
          e ← applyContentValidations parse cfg (map_order cfg);
          match e with
          | Some e => Ret (Some ("content validation error: " +:+ e))
          | None => Ret None
          end
      end
  end.

(** ** Loading *)

Definition loadFeatureConfig (fs : filesystem) (opts : option InitOptions)
  : outcome (result string (FeatureConfig * InitOptions)) :=
  opts ← populateRequiredOptionsProperties opts;
  match IsValid fs opts, opts with
  | Err e, _ => Ret (Err ("invalid options provided: " +:+ e))
  | Ok _, None => Panic nil_dereference
  | Ok _, Some opts =>
      match (if SourceType opts =? FeatureSourceFile then ReadFile fs (Input opts)
             else Ok (Input opts)) with
      | Err e => Ret (Err ("failed to read config file: " +:+ e))
      | Ok configData =>
          e ← ValidateFeatureConfig configData;
          match e with
          | Some e => Ret (Err ("invalid feature config: " +:+ e))
          | None =>
              match unmarshal configData with
              | None => Ret (Err "failed to unmarshal validated feature config")
              | Some cfg => Ret (Ok (cfg, opts))
              end
          end
      end
  end.

(** ** Managers *)

(** Where the watcher goroutine is: waiting for an update, between the reload and the
    publication of its result, or finished. *)
Inductive watch_pc : Type :=
  | Waiting
  | Publishing (entry : option UpdaterSchema)
  | Stopped.

Record Manager : Type := {
  m_options : InitOptions;
  m_config : option FeatureConfig;
  m_cancel : bool;          (* [cancel != nil] *)
  m_done : bool;            (* the watch context is done *)
  m_watch : option watch_pc; (* the goroutine, if started *)
}.

Definition set_config (m : Manager) (o : InitOptions) (c : option FeatureConfig) : Manager :=
  {| m_options := o; m_config := c; m_cancel := m_cancel m; m_done := m_done m; m_watch := m_watch m |}.
Definition set_watch (m : Manager) (p : option watch_pc) : Manager :=
  {| m_options := m_options m; m_config := m_config m; m_cancel := m_cancel m; m_done := m_done m;
     m_watch := p |}.

Definition cloneInitOptions (opts : option InitOptions) : option InitOptions := opts.

Definition startWatcher (m : Manager) : Manager :=
  match WatcherOpts (m_options m) with
  | Some w =>
      if EnableWatch (m_options m) then
        {| m_options := with_watcher (m_options m) (Some
             {| wo_Logger := wo_Logger w; wo_OnUpdateCallback := wo_OnUpdateCallback w;
                wo_ContentSource := SourceType (m_options m);
                wo_ContentFormat := FeatureContentFormatJson |});
           m_config := m_config m; m_cancel := true; m_done := false; m_watch := Some Waiting |}
      else m
  | None => m
  end.

Definition NewManager (fs : filesystem) (opts : option InitOptions) : outcome (result string Manager) :=
  r ← loadFeatureConfig fs (cloneInitOptions opts);
  match r with
  | Err e => Ret (Err e)
  | Ok (config, populatedOpts) =>
      Ret (Ok (startWatcher {| m_options := populatedOpts; m_config := Some config; m_cancel := false;
                               m_done := false; m_watch := None |}))
  end.

Definition Manager_GetFeatureConfigStore (m : option Manager) : result string FeatureConfig :=
  match m with
  | None => Err "feature config is not initialized"
  | Some m => match m_config m with
              | None => Err "feature config is not initialized"
              | Some cfg => Ok cfg
              end
  end.

Definition Manager_Close (m : Manager) : Manager :=
  {| m_options := m_options m; m_config := None; m_cancel := false;
     m_done := m_done m || m_cancel m; m_watch := m_watch m |}.

(** [applyFeatureUpdateToOptions] changes the options in place, or the file they name. *)
Definition applyFeatureUpdateToOptions (o : write_outcome) (fs : filesystem) (options : InitOptions)
    (entry : option UpdaterSchema) : filesystem * InitOptions * result string unit :=
  match entry with
  | None => (fs, options, Ok ())
  | Some entry =>
      if ContentSource entry =? FeatureSourceFile then
        let '(fs, r) := WriteFile o fs (Input options) (Content entry) 420 in (fs, options, r)
      else if ContentSource entry =? FeatureSourceRawBytes then
        (fs, with_Input options (Content entry), Ok ())
      else (fs, options, Ok ())
  end.

Definition reload (o : write_outcome) (fs : filesystem) (m : Manager) (entry : option UpdaterSchema)
  : outcome (filesystem * Manager * result string unit) :=
  let '(fs, options, r) := applyFeatureUpdateToOptions o fs (m_options m) entry in
  let m := set_config m options (m_config m) in
  match r with
  | Err e => Ret (fs, m, Err e)
  | Ok _ =>
      l ← loadFeatureConfig fs (Some options);
      match l with
      | Err e => Ret (fs, m, Err e)
      | Ok (config, opts) => Ret (fs, set_config m opts (Some config), Ok ())
      end
  end.

(** ** The package *)

Record package : Type := {
  p_fs : filesystem;
  areFeaturesInitialized : bool;
  configCache : option FeatureConfig;
  featureManager : option nat;
  managers : gmap nat Manager;    (* the managers allocated so far *)
  callbacks : nat;                (* calls of update callbacks *)
}.

Definition upd_managers (p : package) (ms : gmap nat Manager) : package :=
  {| p_fs := p_fs p; areFeaturesInitialized := areFeaturesInitialized p; configCache := configCache p;
     featureManager := featureManager p; managers := ms; callbacks := callbacks p |}.

Definition close_manager (p : package) (i : option nat) : gmap nat Manager :=
  match i with
  | None => managers p
  | Some i => alter Manager_Close i (managers p)
  end.

(** [Init]; [i] is the address of the manager it allocates. *)
Definition Init (p : package) (i : nat) (opts : option InitOptions) : outcome (package * result string unit) :=
  if areFeaturesInitialized p then Ret (p, Ok ())
  else
    r ← NewManager (p_fs p) opts;
    match r with
    | Err e => Ret (p, Err e)
    | Ok m =>
        Ret ({| p_fs := p_fs p; areFeaturesInitialized := true; configCache := m_config m;
                featureManager := Some i; managers := <[i := m]> (close_manager p (featureManager p));
                callbacks := callbacks p |}, Ok ())
    end.

(** [GetFeatureConfigStore]: the result may be a nil configuration. *)
Definition GetFeatureConfigStore (p : package) : result string (option FeatureConfig) :=
  if areFeaturesInitialized p then Ok (configCache p) else Err "feature config is not initialized".

Definition Features_Close (p : package) : package :=
  {| p_fs := p_fs p; areFeaturesInitialized := false; configCache := None; featureManager := None;
     managers := close_manager p (featureManager p); callbacks := callbacks p |}.

Definition updateDefaultFeatureStore (p : package) (cfg : option FeatureConfig) : package :=
  {| p_fs := p_fs p; areFeaturesInitialized := true; configCache := cfg;
     featureManager := featureManager p; managers := managers p; callbacks := callbacks p |}.

Definition callFeatureUpdateCallback (p : package) (options : InitOptions) : package :=
  match WatcherOpts options with
  | Some w =>
      if wo_OnUpdateCallback w then
        {| p_fs := p_fs p; areFeaturesInitialized := areFeaturesInitialized p; configCache := configCache p;
           featureManager := featureManager p; managers := managers p; callbacks := S (callbacks p) |}
      else p
  | None => p
  end.

(** A round of [Manager.watchUpdaterChannel] up to [reload]. Errors are logged. *)
Definition watch_receive (o : write_outcome) (p : package) (i : nat) (m : Manager)
    (entry : option UpdaterSchema) : outcome package :=
  r ← reload o (p_fs p) m entry;
  let '(fs, m, res) := r in
  let m := match res with Ok _ => set_watch m (Some (Publishing entry)) | Err _ => m end in
  Ret {| p_fs := fs; areFeaturesInitialized := areFeaturesInitialized p; configCache := configCache p;
         featureManager := featureManager p; managers := <[i := m]> (managers p); callbacks := callbacks p |}.

(** The rest of the round: publish, call back, log the length of the entry's content. *)
Definition watch_publish (p : package) (i : nat) (m : Manager) (entry : option UpdaterSchema)
  : outcome package :=
  let p := updateDefaultFeatureStore p (m_config m) in
  let p := callFeatureUpdateCallback p (m_options m) in
  let p := upd_managers p (<[i := set_watch m (Some Waiting)]> (managers p)) in
  match WatcherOpts (m_options m), entry with
  | Some w, None => if wo_Logger w then Panic nil_dereference else Ret p
  | _, _ => Ret p
  end.

(** A round of the package-level [watchUpdaterChannelContext], which keeps its own options: a
    panic is recovered and the loop restarted with the options as they are then. *)
Definition legacy_round (o : write_outcome) (p : package) (options : InitOptions)
    (entry : option UpdaterSchema) : package * InitOptions :=
  let '(fs, options, r) := applyFeatureUpdateToOptions o (p_fs p) options entry in
  let p := {| p_fs := fs; areFeaturesInitialized := areFeaturesInitialized p; configCache := configCache p;
              featureManager := featureManager p; managers := managers p; callbacks := callbacks p |} in
  match r with
  | Err _ => (p, options)
  | Ok _ =>
      match loadFeatureConfig fs (Some options) with
      | Panic _ | Ret (Err _) => (p, options)
      | Ret (Ok (cfg, populatedOpts)) =>
          (callFeatureUpdateCallback (updateDefaultFeatureStore p (Some cfg)) populatedOpts, populatedOpts)
      end
  end.

(** [AwsAppConfigWatcher.OnContentUpdate]: the update it pushes, if any. *)
Definition OnContentUpdate (w : WatcherOptions) (content : option string) : option UpdaterSchema :=
  match content with
  | None => None
  | Some c =>
      if decide (c = "") then None
      else Some {| ContentSource := wo_ContentSource w; ContentFormat := wo_ContentFormat w; Content := c |}
  end.

(** The steps of a process. When the context is done and an update is waiting, the [select]
    of the goroutine may take either. *)
Inductive lifecycle_step : package → package → Prop :=
  | life_init p i opts p' r :
      managers p !! i = None → Init p i opts = Ret (p', r) → lifecycle_step p p'
  | life_close p : lifecycle_step p (Features_Close p)
  | life_receive o p i m entry p' :
      managers p !! i = Some m → m_watch m = Some Waiting →
      watch_receive o p i m entry = Ret p' → lifecycle_step p p'
  | life_publish p i m entry p' :
      managers p !! i = Some m → m_watch m = Some (Publishing entry) →
      watch_publish p i m entry = Ret p' → lifecycle_step p p'
  | life_legacy o p options entry : lifecycle_step p (legacy_round o p options entry).1
  | life_stop p i m :
      managers p !! i = Some m → m_watch m = Some Waiting → m_done m = true →
      lifecycle_step p (upd_managers p (<[i := set_watch m (Some Stopped)]> (managers p))).

Definition fresh_package (fs : filesystem) : package :=
  {| p_fs := fs; areFeaturesInitialized := false; configCache := None; featureManager := None;
     managers := ∅; callbacks := 0 |}.

(** ** Served configurations are validated *)

(** The configuration comes from data that passed every validation. *)
Definition validated (cfg : FeatureConfig) : Prop :=
  ∃ data, ValidateFeatureConfig data = Ret None ∧ unmarshal data = Some cfg.

Definition config_ok (c : option FeatureConfig) : Prop := ∀ cfg, c = Some cfg → validated cfg.

Definition package_ok (p : package) : Prop :=
  config_ok (configCache p) ∧ ∀ i m, managers p !! i = Some m → config_ok (m_config m).

Lemma loadFeatureConfig_validated fs opts cfg opts' :
  loadFeatureConfig fs opts = Ret (Ok (cfg, opts')) → validated cfg.
Proof.
  unfold loadFeatureConfig, mbind, outcome_bind. intros E.
  destruct (populateRequiredOptionsProperties opts) as [o|]; [|done].
  destruct (IsValid fs o) as [u|]; [|done]. destruct o as [o|]; [|done].
  destruct (if SourceType o =? FeatureSourceFile then ReadFile fs (Input o) else Ok (Input o)) as [data|]; [|done].
  destruct (ValidateFeatureConfig data) as [[e|]|] eqn:Ev; [done| |done].
  destruct (unmarshal data) as [c|] eqn:Eu; [|done]. simplify_eq. by exists data.
Qed.

Lemma NewManager_ok fs opts m : NewManager fs opts = Ret (Ok m) → config_ok (m_config m).
Proof.
  unfold NewManager, mbind, outcome_bind, cloneInitOptions. intros E.
  destruct (loadFeatureConfig fs opts) as [[[cfg o]|]|] eqn:El; [|done|done]. simplify_eq.
  intros c. unfold startWatcher. cbn.
  destruct (WatcherOpts o); [destruct (EnableWatch o)|]; cbn; intros [= <-];
    by eapply loadFeatureConfig_validated.
Qed.

Lemma reload_ok o fs m entry fs' m' r :
  config_ok (m_config m) → reload o fs m entry = Ret (fs', m', r) → config_ok (m_config m').
Proof.
  intros Hm. unfold reload.
  destruct (applyFeatureUpdateToOptions o fs (m_options m) entry) as [[fs1 o1] [u|e]]; intros E; [|by simplify_eq].
  unfold mbind, outcome_bind in E. destruct (loadFeatureConfig fs1 (Some o1)) as [[[cfg o2]|]|] eqn:El; [| |done].
  - simplify_eq. intros c [= <-]. by eapply loadFeatureConfig_validated.
  - by simplify_eq.
Qed.

Lemma insert_ok (ms : gmap nat Manager) i m :
  (∀ j x, ms !! j = Some x → config_ok (m_config x)) → config_ok (m_config m) →
  ∀ j x, <[i := m]> ms !! j = Some x → config_ok (m_config x).
Proof.
  intros Hms Hm j x. rewrite lookup_insert_Some. intros [[-> ->]|[_ Hx]]; [done|by eapply Hms].
Qed.

Lemma close_ok p i :
  (∀ j x, managers p !! j = Some x → config_ok (m_config x)) →
  ∀ j x, close_manager p i !! j = Some x → config_ok (m_config x).
Proof.
  intros Hms j x. destruct i as [i|]; [|apply Hms]. unfold close_manager.
  rewrite lookup_alter_Some. intros [(-> & y & _ & ->)|[_ Hx]]; [done|by eapply Hms].
Qed.

Lemma package_ok_step p p' : package_ok p → lifecycle_step p p' → package_ok p'.
Proof.
  intros [Hc Hms] Hs. destruct Hs as [p i opts p' r Hi E|p|o p i m entry p' Hm Hw E|p i m entry p' Hm Hw E|o p options entry|p i m Hm Hw Hd].
  - unfold Init in E. destruct (areFeaturesInitialized p); [by simplify_eq|].
    unfold mbind, outcome_bind in E. destruct (NewManager (p_fs p) opts) as [[m|e]|] eqn:En; [| |done]; simplify_eq; [|done].
    pose proof (NewManager_ok _ _ _ En) as Hm. split; [done|]. apply insert_ok; [|done]. by apply close_ok.
  - split; [done|]. by apply close_ok.
  - unfold watch_receive, mbind, outcome_bind in E.
    destruct (reload o (p_fs p) m entry) as [[[fs' m'] res]|] eqn:Er; [|done]. simplify_eq.
    pose proof (reload_ok _ _ _ _ _ _ _ (Hms i m Hm) Er) as Hm'.
    split; [done|]. cbn. apply insert_ok; [done|]. by destruct res.
  - pose proof (Hms i m Hm) as Hmc.
    assert (package_ok (upd_managers (callFeatureUpdateCallback (updateDefaultFeatureStore p (m_config m)) (m_options m))
      (<[i := set_watch m (Some Waiting)]> (managers p)))) as Hok.
    { split; [|apply insert_ok; done]. unfold callFeatureUpdateCallback.
      destruct (WatcherOpts (m_options m)) as [w|]; [destruct (wo_OnUpdateCallback w)|]; done. }
    assert (managers (callFeatureUpdateCallback (updateDefaultFeatureStore p (m_config m)) (m_options m)) = managers p) as Em.
    { unfold callFeatureUpdateCallback. destruct (WatcherOpts (m_options m)) as [w|]; [destruct (wo_OnUpdateCallback w)|]; done. }
    unfold watch_publish in E. cbv zeta in E. rewrite Em in E. revert E Hok. generalize (WatcherOpts (m_options m)).
    intros ow E Hok. destruct ow as [w|], entry as [e|]; [| destruct (wo_Logger w)| |]; simplify_eq; exact Hok.
  - unfold legacy_round.
    destruct (applyFeatureUpdateToOptions o (p_fs p) options entry) as [[fs1 o1] [u|e]]; [|by split].
    destruct (loadFeatureConfig fs1 (Some o1)) as [[[cfg o2]|e]|why] eqn:El; [|by split..].
    apply loadFeatureConfig_validated in El. cbn [fst].
    assert (∀ q, package_ok q → package_ok (callFeatureUpdateCallback q o2)) as Hcb.
    { intros q Hq. unfold callFeatureUpdateCallback.
      destruct (WatcherOpts o2) as [w|]; [destruct (wo_OnUpdateCallback w)|]; done. }
    apply Hcb. split; [|done]. intros c [= <-]. done.
  - split; [done|]. apply insert_ok; [done|]. exact (Hms i m Hm).
Qed.

Lemma package_ok_run p p' : package_ok p → rtc lifecycle_step p p' → package_ok p'.
Proof. intros Hp Hr. induction Hr; [done|]. eauto using package_ok_step. Qed.

End lifecycle.

(** (C17) Every configuration the package serves was validated. From a fresh process, through
    any interleaving of [Init], [Close] and the rounds of watcher goroutines, with updates
    of any content and failing writes, a configuration that [GetFeatureConfigStore] or a
    manager returns comes from data that passed the schema and the content validations. *)
Theorem served_config_validated schema_error unmarshal parse map_order fs p cfg :
  rtc (lifecycle_step schema_error unmarshal parse map_order) (fresh_package fs) p →
  GetFeatureConfigStore p = Ok (Some cfg) ∨
    (∃ i, Manager_GetFeatureConfigStore (managers p !! i) = Ok cfg) →
  ∃ data, ValidateFeatureConfig schema_error unmarshal parse map_order data = Ret None ∧
    unmarshal data = Some cfg ∧
    applyContentValidations parse cfg (map_order cfg) = Ret None.
Proof.
  intros Hrun Hserved.
  assert (package_ok schema_error unmarshal parse map_order p) as [Hc Hms].
  { eapply package_ok_run; [|done]. by split. }
  assert (validated schema_error unmarshal parse map_order cfg) as (data & Hv & Hu).
  { destruct Hserved as [E|[i E]].
    - unfold GetFeatureConfigStore in E. destruct (areFeaturesInitialized p); [|done]. apply Hc. congruence.
    - unfold Manager_GetFeatureConfigStore in E. destruct (managers p !! i) as [m|] eqn:Em; [|done].
      apply (Hms i m Em). destruct (m_config m); congruence. }
  exists data. split_and!; [done..|].
  unfold ValidateFeatureConfig in Hv. destruct (validateSchema _ data); [done|]. rewrite Hu in Hv.
  unfold mbind, outcome_bind in Hv.
  destruct (applyContentValidations parse cfg (map_order cfg)) as [[e|]|]; done.
Qed.

(** A rejected update does not disturb the served configuration, but it outlives the
    process. When an update for a file source is written but its content does not load,
    the package and the manager keep serving what they served; the file now holds the
    rejected content, and a new process that starts from the same options fails with the
    same error. *)
Theorem rejected_update_persists schema_error unmarshal parse map_order p i m content e :
  managers p !! i = Some m →
  SourceType (m_options m) = FeatureSourceFile →
  let entry := {| ContentSource := FeatureSourceFile; ContentFormat := FeatureContentFormatJson;
                  Content := content |} in
  let fs' := (WriteFile WriteOk (p_fs p) (Input (m_options m)) content 420).1 in
  loadFeatureConfig schema_error unmarshal parse map_order fs' (Some (m_options m)) = Ret (Err e) →
  ∃ p', watch_receive schema_error unmarshal parse map_order WriteOk p i m (Some entry) = Ret p' ∧
    GetFeatureConfigStore p' = GetFeatureConfigStore p ∧
    Manager_GetFeatureConfigStore (managers p' !! i) = Manager_GetFeatureConfigStore (Some m) ∧
    f_content <$> (p_fs p' !! Input (m_options m)) = Some content ∧
    ∀ j, Init schema_error unmarshal parse map_order (fresh_package (p_fs p')) j (Some (m_options m))
           = Ret (fresh_package (p_fs p'), Err e).
Proof.
  intros Hm Hsrc entry fs' Hload. unfold watch_receive, reload, applyFeatureUpdateToOptions.
  cbn [entry ContentSource Content]. rewrite Z.eqb_refl.
  assert (WriteFile WriteOk (p_fs p) (Input (m_options m)) content 420 = (fs', Ok ())) as -> by done.
  unfold mbind, outcome_bind. rewrite Hload. eexists. split; [done|].
  cbn [GetFeatureConfigStore areFeaturesInitialized configCache managers p_fs]. split_and!; [done| | |].
  - rewrite lookup_insert_eq. done.
  - unfold fs', WriteFile. cbn. by rewrite lookup_insert_eq.
  - intros j. unfold Init, NewManager, mbind, outcome_bind, cloneInitOptions.
    cbn [areFeaturesInitialized fresh_package p_fs]. by rewrite Hload.
Qed.

(** [Close] races with a reload in flight. If [Close] runs while the watcher goroutine
    stands between its reload and the publication, the goroutine then publishes the nil
    configuration it finds in the closed manager: [GetFeatureConfigStore] answers with nil
    and no error, and [Init] returns without initialising anything, whatever its options. *)
Theorem Close_race_publishes_nil schema_error unmarshal parse map_order p i m entry :
  featureManager p = Some i → managers p !! i = Some m → m_watch m = Some (Publishing (Some entry)) →
  let m' := Manager_Close m in
  managers (Features_Close p) !! i = Some m' ∧ m_watch m' = Some (Publishing (Some entry)) ∧
  GetFeatureConfigStore (Features_Close p) = Err "feature config is not initialized" ∧
  ∃ p', watch_publish (Features_Close p) i m' (Some entry) = Ret p' ∧
    GetFeatureConfigStore p' = Ok None ∧
    ∀ j opts, Init schema_error unmarshal parse map_order p' j opts = Ret (p', Ok ()).
Proof.
  intros Hf Hm Hw m'. split_and!.
  - cbn. rewrite Hf. cbn. by rewrite lookup_alter_eq, Hm.
  - done.
  - done.
  - unfold watch_publish. cbv zeta.
    exists (upd_managers (callFeatureUpdateCallback (updateDefaultFeatureStore (Features_Close p) (m_config m')) (m_options m'))
      (<[i := set_watch m' (Some Waiting)]>
         (managers (callFeatureUpdateCallback (updateDefaultFeatureStore (Features_Close p) (m_config m')) (m_options m'))))).
    split; [by destruct (WatcherOpts (m_options m'))|].
    unfold callFeatureUpdateCallback.
    destruct (WatcherOpts (m_options m')) as [w|]; [destruct (wo_OnUpdateCallback w)|]; done.
Qed.

(** [IsReadableFile] tests the permission bits with decimal 400, which is octal 620: a file
    its owner may write but not read passes. *)
Lemma IsReadableFile_write_only (fs : filesystem) path content :
  fs !! path = Some {| f_perm := 128; f_dir := false; f_regular := true; f_content := content |} →
  IsReadableFile fs path = Ok () ∧ ReadFile fs path = Err "permission denied".
Proof. intros E. unfold IsReadableFile, ReadFile. by rewrite E. Qed.

(** ** Witnesses: documents named by their content, one of them valid *)

Module LifecycleDemo.
Definition unmarshal (data : string) : option FeatureConfig :=
  if decide (data = "good") then Some demo_config else None.
Definition schema_error (data : string) : option string := None.
Definition order (cfg : FeatureConfig) : list (string * Feature) := map_to_list (Features cfg).

Definition watcher : WatcherOptions :=
  {| wo_Logger := false; wo_OnUpdateCallback := true; wo_ContentSource := 0; wo_ContentFormat := 0 |}.
Definition options : InitOptions :=
  {| SourceType := FeatureSourceFile; Input := "f.json"; EnableWatch := true; WatcherOpts := Some watcher |}.
Definition file (content : string) : fileinfo :=
  {| f_perm := 420; f_dir := false; f_regular := true; f_content := content |}.
Definition fs : filesystem := {["f.json" := file "good"]}.

Definition after_init : package :=
  match Init schema_error unmarshal demo_parse order (fresh_package fs) 0 (Some options) with
  | Ret (p, _) => p
  | Panic _ => fresh_package fs
  end.

Lemma init_step : lifecycle_step schema_error unmarshal demo_parse order (fresh_package fs) after_init.
Proof. apply (life_init _ _ _ _ _ 0 (Some options) _ (Ok ())); by vm_compute. Qed.

Definition manager : Manager :=
  startWatcher {| m_options := with_watcher options (Some
      {| wo_Logger := true; wo_OnUpdateCallback := true; wo_ContentSource := 0; wo_ContentFormat := 0 |});
     m_config := Some demo_config; m_cancel := false; m_done := false; m_watch := None |}.
Definition publishing : Manager :=
  set_watch manager (Some (Publishing (Some {| ContentSource := 15; ContentFormat := 1; Content := "good" |}))).
Definition in_flight : package :=
  upd_managers after_init (<[0%nat := publishing]> (managers after_init)).
End LifecycleDemo.

Lemma served_config_validated_witness :
  ∃ data, ValidateFeatureConfig LifecycleDemo.schema_error LifecycleDemo.unmarshal demo_parse LifecycleDemo.order data
      = Ret None ∧
    LifecycleDemo.unmarshal data = Some demo_config ∧
    applyContentValidations demo_parse demo_config (LifecycleDemo.order demo_config) = Ret None.
Proof.
  apply (served_config_validated LifecycleDemo.schema_error LifecycleDemo.unmarshal demo_parse LifecycleDemo.order
    LifecycleDemo.fs LifecycleDemo.after_init demo_config).
  - apply rtc_once, LifecycleDemo.init_step.
  - left. by vm_compute.
Defined.

Lemma rejected_update_persists_witness :
  ∃ p', watch_receive LifecycleDemo.schema_error LifecycleDemo.unmarshal demo_parse LifecycleDemo.order WriteOk
      LifecycleDemo.after_init 0 LifecycleDemo.manager
      (Some {| ContentSource := 15; ContentFormat := 1; Content := "bad" |}) = Ret p' ∧
    GetFeatureConfigStore p' = Ok (Some demo_config) ∧
    Manager_GetFeatureConfigStore (managers p' !! 0%nat) = Ok demo_config ∧
    f_content <$> (p_fs p' !! "f.json") = Some "bad" ∧
    ∀ j, Init LifecycleDemo.schema_error LifecycleDemo.unmarshal demo_parse LifecycleDemo.order
           (fresh_package (p_fs p')) j (Some (m_options LifecycleDemo.manager))
         = Ret (fresh_package (p_fs p'), Err "invalid feature config: failed to unmarshal feature config").
Proof.
  apply (rejected_update_persists LifecycleDemo.schema_error LifecycleDemo.unmarshal demo_parse LifecycleDemo.order
    LifecycleDemo.after_init 0 LifecycleDemo.manager "bad"); [by vm_compute|done|by vm_compute].
Defined.

Lemma Close_race_publishes_nil_witness :
  ∃ p', watch_publish (Features_Close LifecycleDemo.in_flight) 0 (Manager_Close LifecycleDemo.publishing)
      (Some {| ContentSource := 15; ContentFormat := 1; Content := "good" |}) = Ret p' ∧
    GetFeatureConfigStore p' = Ok None.
Proof.
  destruct (Close_race_publishes_nil LifecycleDemo.schema_error LifecycleDemo.unmarshal demo_parse LifecycleDemo.order
    LifecycleDemo.in_flight 0 LifecycleDemo.publishing {| ContentSource := 15; ContentFormat := 1; Content := "good" |})
    as (_ & _ & _ & p' & E & Hs & _); [by vm_compute|by vm_compute|done|].
  by exists p'.
Defined.
