(* ===== verification/Minifier.v ===== *)
(** * The API key minifier ([src/utils/rest/minifier/apikeyminifier.go])

    The recursion over Go values by reflection, on an explicit heap, so that pointers, maps
    and slices may be shared or cyclic. A reference is a machine address and the view of the
    memory there (the type, and for a slice the length): a struct, its first field, and the
    slices of one array that start at one element are views of the same address. The
    engine's visit keys hold the kind and the address, not the view. The set of references being visited is the
    engine's [visiting] map: [enter] adds a key that was absent and the returned function
    removes it again, so passing the set down the recursion is the same. Fuel bounds the
    recursion; [None] means it ran out. *)

From Stdlib Require Import ZArith Lia.
From stdpp Require Import base numbers strings gmap list countable.
From S2P Require Import Prelude GoValue.
Local Open Scope Z_scope.

(** ** Values as [reflect] shows them *)

Abbreviation ref := (Z * Z)%type.           (* machine address, view *)

#[warnings="-register-all"] Inductive rval : Type :=
  | VInvalid                                        (* the zero [reflect.Value] *)
  | VNilPointer
  | VPointer (r : ref)
  | VNilInterface
  | VInterface (v : rval)
  | VStruct (fields : list (string * bool * rval))  (* name, exported, value *)
  | VNilMap (string_keys : bool)
  | VMap (string_keys : bool) (r : ref)
  | VNilSlice
  | VSlice (r : ref)
  | VArray (elems : list rval)
  | VOther (a : any) (can_interface : bool).

(** What a reference points to: a variable, the entries of a map in the order [MapKeys]
    returns them, or the elements a slice covers. *)
Inductive cell : Type :=
  | CVar (v : rval)
  | CMap (entries : list (string * rval))
  | CArray (elems : list rval).

Abbreviation heap := (gmap ref cell).

Inductive kind : Type := KMap | KSlice | KPointer.
#[export] Instance kind_eq_dec : EqDecision kind.
Proof. solve_decision. Defined.
#[export] Instance kind_countable : Countable kind.
Proof.
  refine (inj_countable' (λ k, match k with KMap => 0%nat | KSlice => 1%nat | KPointer => 2%nat end)
    (λ n, match n with 0%nat => KMap | 1%nat => KSlice | _ => KPointer end) _).
  by intros [].
Defined.

Abbreviation visitKey := (kind * Z)%type.

(** ** Results *)

Inductive minify_error : Type :=
  | errMinifierDisabled
  | errInvalidInput
  | errMapKeyNotString
  | errCycleDetected
  | errDangling.          (* a reference outside the heap: not a Go value *)

(** The values built: maps with string keys, slices, and leaves. *)
#[warnings="-register-all"] Inductive out : Type :=
  | ONil
  | ONilMap
  | OMap (entries : list (string * out))
  | ONilSlice
  | OSlice (elems : list out)
  | OLeaf (a : any).

(** [m[k] = v] on a map kept as its entries. *)
Fixpoint put {A} (k : string) (v : A) (m : list (string * A)) : list (string * A) :=
  match m with
  | [] => [(k, v)]
  | (k', v') :: m => if decide (k = k') then (k, v) :: m else (k', v') :: put k v m
  end.

(** The key map ([sync.Map]): values that are not strings are of no use. *)
Abbreviation keymap := (gmap string (option string)).

Definition minifyKey (km : option keymap) (originalKey : string) : string :=
  match km with
  | None => originalKey
  | Some km =>
      match km !! originalKey with
      | None => originalKey
      | Some None => originalKey
      | Some (Some mappedKey) => if decide (mappedKey = "") then originalKey else mappedKey
      end
  end.

(** [enter]: the set with the new key, or the cycle error. *)
Definition enter (visiting : gset visitKey) (k : visitKey) : result minify_error (gset visitKey) :=
  if decide (k ∈ visiting) then Err errCycleDetected else Ok ({[k]} ∪ visiting).

Section engine.
Context (h : heap) (km : option keymap).

(** The loops of [minifyStruct] and [minifyMap], and of [minifySlice], over a function for
    the elements. *)
Fixpoint minify_entries (f : rval → option (result minify_error out)) (es : list (string * rval))
    (acc : list (string * out)) : option (result minify_error (list (string * out))) :=
  match es with
  | [] => Some (Ok acc)
  | (k, v) :: es =>
      match f v with
      | None => None
      | Some (Err e) => Some (Err e)
      | Some (Ok o) => minify_entries f es (put (minifyKey km k) o acc)
      end
  end.

Fixpoint minify_elems (f : rval → option (result minify_error out)) (vs : list rval)
    (acc : list out) : option (result minify_error (list out)) :=
  match vs with
  | [] => Some (Ok acc)
  | v :: vs =>
      match f v with
      | None => None
      | Some (Err e) => Some (Err e)
      | Some (Ok o) => minify_elems f vs (acc ++ [o])
      end
  end.

Definition as_map (r : option (result minify_error (list (string * out)))) : option (result minify_error out) :=
  match r with
  | None => None
  | Some (Err e) => Some (Err e)
  | Some (Ok es) => Some (Ok (OMap es))
  end.

Definition as_slice (r : option (result minify_error (list out))) : option (result minify_error out) :=
  match r with
  | None => None
  | Some (Err e) => Some (Err e)
  | Some (Ok es) => Some (Ok (OSlice es))
  end.

Definition exported_fields (fields : list (string * bool * rval)) : list (string * rval) :=
  omap (λ f, let '(name, exported, v) := f in if exported : bool then Some (name, v) else None) fields.

Fixpoint minifyValue (fuel : nat) (visiting : gset visitKey) (value : rval) (isRoot : bool)
  : option (result minify_error out) :=
  match fuel with
  | O => None
  | S fuel =>
      let nested vis v := minifyValue fuel vis v false in
      match value with
      | VInvalid => Some (if isRoot then Err errInvalidInput else Ok ONil)
      | VNilPointer | VNilInterface => Some (if isRoot then Err errInvalidInput else Ok ONil)
      | VPointer r =>
          match enter visiting (KPointer, r.1) with
          | Err e => Some (Err e)
          | Ok vis =>
              match h !! r with
              | Some (CVar v) => minifyValue fuel vis v isRoot
              | _ => Some (Err errDangling)
              end
          end
      | VInterface v => minifyValue fuel visiting v isRoot
      | VStruct fields => as_map (minify_entries (nested visiting) (exported_fields fields) [])
      | VNilMap string_keys => Some (if string_keys then Ok ONilMap else Err errMapKeyNotString)
      | VMap string_keys r =>
          if negb string_keys then Some (Err errMapKeyNotString)
          else
            match enter visiting (KMap, r.1) with
            | Err e => Some (Err e)
            | Ok vis =>
                match h !! r with
                | Some (CMap es) => as_map (minify_entries (nested vis) es [])
                | _ => Some (Err errDangling)
                end
            end
      | VNilSlice => Some (Ok ONilSlice)
      | VSlice r =>
          match enter visiting (KSlice, r.1) with
          | Err e => Some (Err e)
          | Ok vis =>
              match h !! r with
              | Some (CArray vs) => as_slice (minify_elems (nested vis) vs [])
              | _ => Some (Err errDangling)
              end
          end
      | VArray vs => as_slice (minify_elems (nested visiting) vs [])
      | VOther a can =>
          Some (if isRoot then Err errInvalidInput
                else if can : bool then Ok (OLeaf a) else Err errInvalidInput)
      end
  end.

(** [minifyRecursiveValue]: the loop through pointers and interfaces calls [done] before it
    goes on, so nothing is ever being visited when [enter] is called. *)
Fixpoint strip (fuel : nat) (value : rval) : option (result minify_error rval) :=
  match fuel with
  | O => None
  | S fuel =>
      match value with
      | VInvalid | VNilPointer | VNilInterface => Some (Err errInvalidInput)
      | VInterface v => strip fuel v
      | VPointer r =>
          match enter ∅ (KPointer, r.1) with
          | Err e => Some (Err e)
          | Ok _ => match h !! r with Some (CVar v) => strip fuel v | _ => Some (Err errDangling) end
          end
      | v => Some (Ok v)
      end
  end.

Definition minifyRecursiveValue (fuel : nat) (value : rval) : option (result minify_error out) :=
  match strip fuel value with
  | None => None
  | Some (Err e) => Some (Err e)
  | Some (Ok v) =>
      match v with
      | VStruct _ | VNilMap _ | VMap _ _ => minifyValue fuel ∅ v false
      | _ => Some (Err errInvalidInput)
      end
  end.

End engine.

(** ** Configuration and entry points *)

Record minifierConfig : Type := { enabled : bool; keyMap : keymap }.

(** The package variables; a nil [keymap] installs an empty one. *)
Definition SetupApiKeyMinifierConfig (isEnabled : bool) (km : option keymap) : minifierConfig :=
  {| enabled := isEnabled; keyMap := default ∅ km |}.

Definition IsApiKeyMinifierEnabled (c : minifierConfig) : bool := enabled c.

Definition MinifyApiKeys (c : minifierConfig) (h : heap) (fuel : nat) (input : rval)
  : option (result minify_error out) :=
  if negb (enabled c) then Some (Err errMinifierDisabled)
  else minifyValue h (Some (keyMap c)) fuel ∅ input true.

Definition handleNestedValues (c : minifierConfig) (h : heap) (fuel : nat) (value : rval)
  : option (result minify_error out) :=
  minifyValue h (Some (keyMap c)) fuel ∅ value false.

Definition minifyRecursive (c : minifierConfig) (h : heap) (fuel : nat) (input : rval)
  : option (result minify_error out) :=
  minifyRecursiveValue h (Some (keyMap c)) fuel input.

(** ** Termination *)

Section termination.
Context (h : heap) (km : option keymap).

(** Every reference kind at every address: what can still be entered. *)
Definition references : gset visitKey :=
  set_map (λ r : ref, (KMap, r.1)) (dom h) ∪ set_map (λ r : ref, (KSlice, r.1)) (dom h) ∪
  set_map (λ r : ref, (KPointer, r.1)) (dom h).

Fixpoint depth (v : rval) : nat :=
  match v with
  | VInterface v => S (depth v)
  | VStruct fields => S (foldr (λ f n, Nat.max (depth f.2) n) 0%nat fields)
  | VArray vs => S (foldr (λ v n, Nat.max (depth v) n) 0%nat vs)
  | _ => 0%nat
  end.

(** Enough fuel, and any more, gives an answer. *)
Definition answers (visiting : gset visitKey) (v : rval) (root : bool) : Prop :=
  ∃ f, ∀ f', (f ≤ f')%nat → is_Some (minifyValue h km f' visiting v root).

Lemma elems_answer visiting vs :
  Forall (λ v, answers visiting v false) vs →
  ∃ f, ∀ f' acc, (f ≤ f')%nat → is_Some (minify_elems (λ v, minifyValue h km f' visiting v false) vs acc).
Proof.
  induction 1 as [|v vs [f1 H1] Hvs [f2 H2]]; [by exists 0%nat; eauto|].
  exists (Nat.max f1 f2). intros f' acc Hf. cbn [minify_elems].
  destruct (H1 f' ltac:(lia)) as [[o|e] ->]; [|eauto]. apply H2. lia.
Qed.

Lemma entries_answer visiting es :
  Forall (λ e, answers visiting e.2 false) es →
  ∃ f, ∀ f' acc, (f ≤ f')%nat → is_Some (minify_entries km (λ v, minifyValue h km f' visiting v false) es acc).
Proof.
  induction 1 as [|[k v] es [f1 H1] Hes [f2 H2]]; [by exists 0%nat; eauto|].
  exists (Nat.max f1 f2). intros f' acc Hf. cbn [minify_entries]. cbn [snd] in H1.
  destruct (H1 f' ltac:(lia)) as [[o|e] ->]; [|eauto]. apply H2. lia.
Qed.

(** One more unit of fuel for the call itself. *)
Lemma answers_step visiting v root :
  (∃ f, ∀ f', (f ≤ f')%nat → is_Some (minifyValue h km (S f') visiting v root)) → answers visiting v root.
Proof.
  intros [f Hf]. exists (S f). intros [|f'] Hle; [lia|]. apply Hf. lia.
Qed.

Lemma map_answers visiting es :
  Forall (λ e, answers visiting e.2 false) es →
  ∃ f, ∀ f', (f ≤ f')%nat →
    is_Some (as_map (minify_entries km (λ v, minifyValue h km f' visiting v false) es [])).
Proof.
  intros Hes. destruct (entries_answer visiting es Hes) as [f Hf]. exists f. intros f' Hle.
  destruct (Hf f' [] Hle) as [[o|e] ->]; cbn; eauto.
Qed.

Lemma slice_answers visiting vs :
  Forall (λ v, answers visiting v false) vs →
  ∃ f, ∀ f', (f ≤ f')%nat →
    is_Some (as_slice (minify_elems (λ v, minifyValue h km f' visiting v false) vs [])).
Proof.
  intros Hvs. destruct (elems_answer visiting vs Hvs) as [f Hf]. exists f. intros f' Hle.
  destruct (Hf f' [] Hle) as [[o|e] ->]; cbn; eauto.
Qed.

Lemma enter_smaller visiting k vis a :
  enter visiting k = Ok vis → k ∈ references → k.2 = a →
  (size (references ∖ vis) < size (references ∖ visiting))%nat.
Proof.
  unfold enter. destruct (decide (k ∈ visiting)) as [|Hk]; [done|]. intros [= <-] Hr _.
  apply subset_size. split; [set_solver|]. intros Hs.
  assert (k ∈ references ∖ ({[k]} ∪ visiting)) as Hin by (apply Hs; set_solver). set_solver.
Qed.

Lemma reference_in r c : h !! r = Some c → ∀ k, (k, r.1) ∈ references.
Proof.
  intros E k. assert (r ∈ dom h) by (by apply elem_of_dom). unfold references.
  destruct k; set_solver.
Qed.

Lemma minify_answers n : ∀ m visiting v root,
  (size (references ∖ visiting) ≤ n)%nat → (depth v ≤ m)%nat → answers visiting v root.
Proof.
  induction n as [n IHn] using lt_wf_ind. induction m as [m IHm] using lt_wf_ind.
  intros visiting v root Hn Hm. apply answers_step.
  assert (∀ k a vis w r, enter visiting (k, a) = Ok vis → (k, a) ∈ references → answers vis w r) as Hfollow.
  { intros k a vis w r He Hin. pose proof (enter_smaller _ _ _ a He Hin eq_refl).
    eapply (IHn (size (references ∖ vis))); [lia|reflexivity|reflexivity]. }
  destruct v; cbn [minifyValue]; try (exists 0%nat; by eauto).
  - destruct (enter visiting (KPointer, r.1)) as [vis|e] eqn:He; [|exists 0%nat; eauto].
    destruct (h !! r) as [[v| |]|] eqn:Ea; try (exists 0%nat; by eauto).
    by apply (Hfollow KPointer r.1 vis v root He), (reference_in r (CVar v)).
  - apply (IHm (depth v)); [cbn in Hm; lia|done|done].
  - apply map_answers. apply Forall_forall. intros [k w] Hin. cbn [snd].
    apply (IHm (depth w)); [|done|done]. cbn in Hm.
    apply list_elem_of_omap in Hin as ([[k' ex] w'] & Hf & Hsome). destruct ex; [|done]. simplify_eq.
    clear -Hf Hm. assert (depth w ≤ foldr (λ (f : string * bool * rval) n, Nat.max (depth f.2) n) 0%nat fields)%nat; [|lia].
    clear Hm. induction fields as [|f fields IH]; [by apply elem_of_nil in Hf|].
    apply elem_of_cons in Hf as [<-|Hf]; cbn; [lia|]. specialize (IH Hf). lia.
  - destruct string_keys; [|exists 0%nat; eauto].
    destruct (enter visiting (KMap, r.1)) as [vis|e] eqn:He; [|exists 0%nat; eauto].
    destruct (h !! r) as [[| es|]|] eqn:Ea; try (exists 0%nat; by eauto).
    apply map_answers. apply Forall_forall. intros e _.
    by apply (Hfollow KMap r.1 vis e.2 false He), (reference_in r (CMap es)).
  - destruct (enter visiting (KSlice, r.1)) as [vis|e] eqn:He; [|exists 0%nat; eauto].
    destruct (h !! r) as [[| |vs]|] eqn:Ea; try (exists 0%nat; by eauto).
    apply slice_answers. apply Forall_forall. intros w _.
    by apply (Hfollow KSlice r.1 vis w false He), (reference_in r (CArray vs)).
  - apply slice_answers. apply Forall_forall. intros w Hin.
    apply (IHm (depth w)); [|done|done]. cbn in Hm.
    assert (depth w ≤ foldr (λ v n, Nat.max (depth v) n) 0%nat elems)%nat; [|lia].
    clear -Hin. induction elems as [|v vs IH]; [by apply elem_of_nil in Hin|].
    apply elem_of_cons in Hin as [<-|Hin]; cbn; [lia|]. specialize (IH Hin). lia.
Qed.

End termination.

(** ** More fuel gives the same answer *)

Section fuel.
Context (h : heap) (km : option keymap).

Lemma minify_entries_mono (f g : rval → option (result minify_error out)) es acc r :
  (∀ v r, f v = Some r → g v = Some r) →
  minify_entries km f es acc = Some r → minify_entries km g es acc = Some r.
Proof.
  intros Hfg. revert acc. induction es as [|[k v] es IH]; intros acc; cbn [minify_entries]; [done|].
  destruct (f v) as [[o|e]|] eqn:E; [| |done]; rewrite (Hfg _ _ E); [apply IH|done].
Qed.

Lemma minify_elems_mono (f g : rval → option (result minify_error out)) vs acc r :
  (∀ v r, f v = Some r → g v = Some r) →
  minify_elems f vs acc = Some r → minify_elems g vs acc = Some r.
Proof.
  intros Hfg. revert acc. induction vs as [|v vs IH]; intros acc; cbn [minify_elems]; [done|].
  destruct (f v) as [[o|e]|] eqn:E; [| |done]; rewrite (Hfg _ _ E); [apply IH|done].
Qed.

Lemma minifyValue_mono f : ∀ f' visiting v root r,
  (f ≤ f')%nat → minifyValue h km f visiting v root = Some r →
  minifyValue h km f' visiting v root = Some r.
Proof.
  induction f as [|f IH]; intros f' visiting v root r Hle; [done|].
  destruct f' as [|f']; [lia|].
  assert (∀ vis v r, minifyValue h km f vis v false = Some r → minifyValue h km f' vis v false = Some r) as Hn
    by (intros; apply IH; [lia|done]).
  assert (∀ vis es, as_map (minify_entries km (λ v, minifyValue h km f vis v false) es []) = Some r →
    as_map (minify_entries km (λ v, minifyValue h km f' vis v false) es []) = Some r) as Hmap.
  { intros vis es. destruct (minify_entries _ _ es []) as [x|] eqn:E; [|done].
    by rewrite (minify_entries_mono _ _ es [] x (Hn vis) E). }
  assert (∀ vis vs, as_slice (minify_elems (λ v, minifyValue h km f vis v false) vs []) = Some r →
    as_slice (minify_elems (λ v, minifyValue h km f' vis v false) vs []) = Some r) as Hslice.
  { intros vis vs. destruct (minify_elems _ vs []) as [x|] eqn:E; [|done].
    by rewrite (minify_elems_mono _ _ vs [] x (Hn vis) E). }
  destruct v as [| |r0| | | | |string_keys r0| |r0| |]; cbn [minifyValue]; try done.
  - destruct (enter visiting (KPointer, r0.1)); [|done]. destruct (h !! r0) as [[v| |]|]; [|done..].
    apply IH. lia.
  - apply IH. lia.
  - apply Hmap.
  - destruct string_keys; [|done]. cbn [negb]. destruct (enter visiting (KMap, r0.1)); [|done].
    destruct (h !! r0) as [[|es|]|]; [done| |done..]. apply Hmap.
  - destruct (enter visiting (KSlice, r0.1)); [|done]. destruct (h !! r0) as [[| |vs]|]; [done|done| |done].
    apply Hslice.
  - apply Hslice.
Qed.

End fuel.

(** ** The reference: renaming the keys of a tree *)

#[warnings="-register-all"] Inductive tree : Type :=
  | TNil
  | TNilMap
  | TMap (entries : list (string * tree))
  | TNilSlice
  | TSlice (elems : list tree)
  | TLeaf (a : any).

(** The tree a value stands for, when it has at most [n] levels: references followed, the
    exported fields of structs as entries. *)
Fixpoint unfold_value (h : heap) (n : nat) (v : rval) : option tree :=
  match n with
  | O => None
  | S n =>
      let entries es := mapM (λ e : string * rval, t ← unfold_value h n e.2; Some (e.1, t)) es in
      match v with
      | VInvalid | VNilPointer | VNilInterface => Some TNil
      | VPointer r => match h !! r with Some (CVar v) => unfold_value h n v | _ => None end
      | VInterface v => unfold_value h n v
      | VStruct fields => TMap <$> entries (exported_fields fields)
      | VNilMap string_keys => if string_keys : bool then Some TNilMap else None
      | VMap string_keys r =>
          if string_keys : bool then
            match h !! r with Some (CMap es) => TMap <$> entries es | _ => None end
          else None
      | VNilSlice => Some TNilSlice
      | VSlice r => match h !! r with Some (CArray vs) => TSlice <$> mapM (unfold_value h n) vs | _ => None end
      | VArray vs => TSlice <$> mapM (unfold_value h n) vs
      | VOther a can => if can : bool then Some (TLeaf a) else None
      end
  end.

(** The kind and address of a reference, and the values right below a value. *)
Definition visit_key (v : rval) : option visitKey :=
  match v with
  | VPointer r => Some (KPointer, r.1)
  | VMap _ r => Some (KMap, r.1)
  | VSlice r => Some (KSlice, r.1)
  | _ => None
  end.

Definition children (h : heap) (v : rval) : list rval :=
  match v with
  | VPointer r => match h !! r with Some (CVar v) => [v] | _ => [] end
  | VInterface v => [v]
  | VStruct fields => (exported_fields fields).*2
  | VMap _ r => match h !! r with Some (CMap es) => es.*2 | _ => [] end
  | VSlice r => match h !! r with Some (CArray vs) => vs | _ => [] end
  | VArray vs => vs
  | _ => []
  end.

(** Within [n] levels below [v] there is a reference with the kind and address of one in
    [above], or of one it is reached through. *)
Fixpoint revisits (h : heap) (n : nat) (above : gset visitKey) (v : rval) : bool :=
  match n with
  | O => false
  | S n =>
      match visit_key v with
      | Some k => bool_decide (k ∈ above) || existsb (revisits h n ({[k]} ∪ above)) (children h v)
      | None => existsb (revisits h n above) (children h v)
      end
  end.

Fixpoint rename (km : option keymap) (t : tree) : out :=
  match t with
  | TNil => ONil
  | TNilMap => ONilMap
  | TMap es => OMap (foldl (λ m e, put (minifyKey km e.1) e.2 m) [] (map (λ e, (e.1, rename km e.2)) es))
  | TNilSlice => ONilSlice
  | TSlice ts => OSlice (map (rename km) ts)
  | TLeaf a => OLeaf a
  end.

Section reference.
Context (h : heap) (km : option keymap).

(** *** The result on a tree *)

(** The cycle error, or the result. *)
Definition unless_cycle {A} (b : bool) (r : result minify_error A) : result minify_error A :=
  if b then Err errCycleDetected else r.

Lemma minify_elems_rename f (b : rval → bool) vs ts acc :
  Forall2 (λ v t, f v = Some (unless_cycle (b v) (Ok (rename km t)))) vs ts →
  minify_elems f vs acc = Some (unless_cycle (existsb b vs) (Ok (acc ++ map (rename km) ts))).
Proof.
  intros HF. revert acc. induction HF as [|v t vs ts Hv _ IH]; intros acc; cbn; [by rewrite app_nil_r|].
  rewrite Hv. destruct (b v); [done|]. cbn. by rewrite IH, <-app_assoc.
Qed.

Lemma minify_entries_rename f (b : rval → bool) es ts acc :
  Forall2 (λ e t, t.1 = e.1 ∧ f e.2 = Some (unless_cycle (b e.2) (Ok (rename km t.2)))) es ts →
  minify_entries km f es acc =
    Some (unless_cycle (existsb b es.*2)
      (Ok (foldl (λ m e, put (minifyKey km e.1) e.2 m) acc (map (λ e, (e.1, rename km e.2)) ts)))).
Proof.
  intros HF. revert acc. induction HF as [|[k v] [k' t] es ts [Hk Hv] _ IH]; intros acc; [done|].
  cbn in *. subst k'. rewrite Hv. destruct (b v); [done|]. cbn. by rewrite IH.
Qed.

(** At the root, nothing and leaves are refused. *)
Definition at_root (root : bool) (t : tree) : result minify_error out :=
  match t with
  | TNil | TLeaf _ => if root then Err errInvalidInput else Ok (rename km t)
  | _ => Ok (rename km t)
  end.

Lemma at_root_nested t : at_root false t = Ok (rename km t).
Proof. by destruct t. Qed.

Lemma enter_revisit {A : Type} (above : gset visitKey) (k : visitKey) (f : gset visitKey → option (result minify_error A)) b r :
  f ({[k]} ∪ above) = Some (unless_cycle b r) →
  (match enter above k with Err e => Some (Err e) | Ok vis => f vis end) =
  Some (unless_cycle (bool_decide (k ∈ above) || b) r).
Proof. intros Hf. unfold enter. case_decide; case_bool_decide; done. Qed.

(** On a value that unfolds, the answer is the renamed tree, or the cycle error if some
    reference is met again below itself. *)
Lemma minify_unfolded n : ∀ above v t root,
  unfold_value h n v = Some t →
  minifyValue h km n above v root = Some (unless_cycle (revisits h n above v) (at_root root t)).
Proof.
  induction n as [|n IH]; intros above v t root E; [done|].
  assert (∀ vis v t, unfold_value h n v = Some t →
    minifyValue h km n vis v false = Some (unless_cycle (revisits h n vis v) (Ok (rename km t)))) as Hn
    by (intros vis w u Hu; rewrite (IH vis w u false Hu); by rewrite at_root_nested).
  assert (∀ vis es u, TMap <$> mapM (λ e : string * rval, t ← unfold_value h n e.2; Some (e.1, t)) es = Some u →
    as_map (minify_entries km (λ v, minifyValue h km n vis v false) es []) =
    Some (unless_cycle (existsb (revisits h n vis) es.*2) (at_root root u))) as Hmap.
  { intros vis es u Eu. apply fmap_Some in Eu as (ts & Eu & ->). apply mapM_Some in Eu.
    rewrite (minify_entries_rename _ (revisits h n vis) es ts); [by destruct (existsb _ _)|]. eapply Forall2_impl; [exact Eu|].
    intros e [k' t']. cbn. destruct (unfold_value h n e.2) as [t1|] eqn:E1; [|done]. cbn. intros [= <- <-].
    split; [done|]. by apply Hn. }
  assert (∀ vis vs u, TSlice <$> mapM (unfold_value h n) vs = Some u →
    as_slice (minify_elems (λ v, minifyValue h km n vis v false) vs []) =
    Some (unless_cycle (existsb (revisits h n vis) vs) (at_root root u))) as Hslice.
  { intros vis vs u Eu. apply fmap_Some in Eu as (ts & Eu & ->). apply mapM_Some in Eu.
    rewrite (minify_elems_rename _ (revisits h n vis) vs ts); [by destruct (existsb _ _)|]. eapply Forall2_impl; [exact Eu|].
    intros w t' Ew. by apply Hn. }
  destruct v as [| |r| |v|fields|string_keys|string_keys r| |r|vs|a can]; cbn [unfold_value] in E; cbn [minifyValue revisits visit_key children existsb].
  - by simplify_eq.
  - by simplify_eq.
  - destruct (h !! r) as [[v| |]|] eqn:Er; [|done..]. apply (enter_revisit above _ (λ vis, minifyValue h km n vis v root)).
    cbn [existsb]. rewrite orb_false_r. by apply IH.
  - by simplify_eq.
  - rewrite orb_false_r. by apply IH.
  - by apply Hmap.
  - destruct string_keys; [|done]. by simplify_eq.
  - destruct string_keys; [|done]. destruct (h !! r) as [[|es|]|] eqn:Er; [done| |done..]. cbn [negb].
    apply (enter_revisit above _ (λ vis, as_map (minify_entries km (λ v, minifyValue h km n vis v false) es []))). by apply Hmap.
  - by simplify_eq.
  - destruct (h !! r) as [[| |vs]|] eqn:Er; [done..| |done].
    apply (enter_revisit above _ (λ vis, as_slice (minify_elems (λ v, minifyValue h km n vis v false) vs []))). by apply Hslice.
  - by apply Hslice.
  - destruct can; [|done]. simplify_eq. by destruct root.
Qed.

(** *** Distinct addresses *)

Definition cell_kind (c : cell) : kind := match c with CVar _ => KPointer | CMap _ => KMap | CArray _ => KSlice end.

(** No address is viewed in two ways through references of one kind. *)
Definition separate : Prop :=
  ∀ r r' c c', h !! r = Some c → h !! r' = Some c' → cell_kind c = cell_kind c' → r.1 = r'.1 → r = r'.

Lemma mapM_mono {A B} (f g : A → option B) (l : list A) k :
  (∀ x y, f x = Some y → g x = Some y) → mapM f l = Some k → mapM g l = Some k.
Proof.
  intros Hfg. rewrite !mapM_Some. intros HF. eapply Forall2_impl; [exact HF|done].
Qed.

Lemma unfold_mono n : ∀ n' v t, (n ≤ n')%nat → unfold_value h n v = Some t → unfold_value h n' v = Some t.
Proof.
  induction n as [|n IH]; intros n' v t Hle; [done|]. destruct n' as [|n']; [lia|].
  assert (∀ v t, unfold_value h n v = Some t → unfold_value h n' v = Some t) as Hn by (intros; apply IH; [lia|done]).
  assert (∀ e e', (t ← unfold_value h n (e : string * rval).2; Some (e.1, t)) = Some e' →
    (t ← unfold_value h n' e.2; Some (e.1, t)) = Some e') as He.
  { intros e e'. destruct (unfold_value h n e.2) as [u|] eqn:E; [|done]. by rewrite (Hn _ _ E). }
  assert (∀ es, TMap <$> mapM (λ e : string * rval, t ← unfold_value h n e.2; Some (e.1, t)) es = Some t →
    TMap <$> mapM (λ e : string * rval, t ← unfold_value h n' e.2; Some (e.1, t)) es = Some t) as Hm.
  { intros es E. apply fmap_Some in E as (x & E & ->). by rewrite (mapM_mono _ _ es x He E). }
  assert (∀ vs, TSlice <$> mapM (unfold_value h n) vs = Some t → TSlice <$> mapM (unfold_value h n') vs = Some t) as Hs.
  { intros vs E. apply fmap_Some in E as (x & E & ->). by rewrite (mapM_mono _ _ vs x Hn E). }
  destruct v as [| |r| |v|fields|string_keys|string_keys r| |r|vs|a can]; cbn [unfold_value]; try done.
  - destruct (h !! r) as [[v| |]|]; [apply Hn|done..].
  - apply Hn.
  - apply Hm.
  - destruct string_keys; [|done]. destruct (h !! r) as [[|es|]|]; [done|apply Hm|done..].
  - destruct (h !! r) as [[| |vs]|]; [done..|apply Hs|done].
  - apply Hs.
Qed.

(** The values below one that unfolds unfold within one level less. *)
Lemma unfold_children n v t w : unfold_value h (S n) v = Some t → w ∈ children h v → is_Some (unfold_value h n w).
Proof.
  assert (∀ es u, TMap <$> mapM (λ e : string * rval, t ← unfold_value h n e.2; Some (e.1, t)) es = Some u →
    w ∈ es.*2 → is_Some (unfold_value h n w)) as Hm.
  { intros es u Eu Hw. apply fmap_Some in Eu as (ts & Eu & ->). apply mapM_Some in Eu.
    apply list_elem_of_fmap in Hw as (e & -> & He). apply list_elem_of_lookup in He as [i Hi].
    destruct (Forall2_lookup_l _ _ _ _ _ Eu Hi) as (e' & _ & Ee). destruct (unfold_value h n e.2); [eauto|done]. }
  assert (∀ vs u, TSlice <$> mapM (unfold_value h n) vs = Some u → w ∈ vs → is_Some (unfold_value h n w)) as Hs.
  { intros vs u Eu Hw. apply fmap_Some in Eu as (ts & Eu & ->). apply mapM_Some in Eu.
    apply list_elem_of_lookup in Hw as [i Hi]. destruct (Forall2_lookup_l _ _ _ _ _ Eu Hi) as (e' & _ & ->). eauto. }
  destruct v as [| |r| |v|fields|string_keys|string_keys r| |r|vs|a can]; cbn [unfold_value children]; try (by intros _ ?%elem_of_nil).
  - destruct (h !! r) as [[v| |]|]; [|done..]. intros E ->%list_elem_of_singleton. eauto.
  - intros E ->%list_elem_of_singleton. eauto.
  - apply Hm.
  - destruct string_keys; [|done]. destruct (h !! r) as [[|es|]|]; [done|apply Hm|done..].
  - destruct (h !! r) as [[| |vs]|]; [done..|apply Hs|done].
  - apply Hs.
Qed.

(** What is above has no unfolding within [n] levels. *)
Definition deeper (n : nat) (above : gset visitKey) : Prop :=
  ∀ k v t, k ∈ above → visit_key v = Some k → unfold_value h n v ≠ Some t.

Lemma deeper_mono n n' above : (n' ≤ n)%nat → deeper n above → deeper n' above.
Proof. intros Hle Hd k v t Hk Hr E. eapply Hd; [done..|]. by eapply unfold_mono. Qed.

(** References with one key that unfold are the same value. *)
Lemma visit_key_eq n n' k v w t t' :
  separate → visit_key v = Some k → visit_key w = Some k → unfold_value h n v = Some t → unfold_value h n' w = Some t' → v = w.
Proof.
  intros Hsep Hv Hw E E'. destruct n as [|n], n' as [|n']; try done.
  destruct v as [| |r| | | | |[] r| |r| |], w as [| |r'| | | | |[] r'| |r'| |]; try done; cbn in Hv, Hw; simplify_eq;
    cbn [unfold_value] in *; destruct (h !! r) as [[]|] eqn:Er; try done; destruct (h !! r') as [[]|] eqn:Er'; try done;
    f_equal; by eapply Hsep.
Qed.

Lemma deeper_enter n above k v t :
  separate → deeper (S n) above → visit_key v = Some k → unfold_value h (S n) v = Some t → unfold_value h n v = None →
  deeper n ({[k]} ∪ above).
Proof.
  intros Hsep Hd Hr E Hmin k' w t' Hin Hw E'. apply elem_of_union in Hin as [->%elem_of_singleton|Hin].
  - rewrite (visit_key_eq _ _ _ _ _ _ _ Hsep Hr Hw E E') in Hmin. congruence.
  - apply (Hd k' w t' Hin Hw). eapply unfold_mono; [|exact E']. lia.
Qed.

Lemma existsb_false {A} (f : A → bool) l : (∀ x, x ∈ l → f x = false) → existsb f l = false.
Proof. induction l as [|x l IH]; intros Hl; [done|]. cbn. rewrite Hl, IH by set_solver. done. Qed.

(** More levels meet no more references below a value that has unfolded. *)
Lemma revisits_stable n : ∀ n' above v t, (n ≤ n')%nat → unfold_value h n v = Some t → revisits h n' above v = revisits h n above v.
Proof.
  induction n as [|n IH]; intros n' above v t Hle E; [done|]. destruct n' as [|n']; [lia|]. cbn [revisits].
  assert (∀ vis, existsb (revisits h n' vis) (children h v) = existsb (revisits h n vis) (children h v)) as Hc.
  { intros vis. assert (∀ w, w ∈ children h v → revisits h n' vis w = revisits h n vis w) as Hw.
    { intros w Hw. destruct (unfold_children n v t w E Hw) as [u Hu]. apply (IH n' vis w u); [lia|done]. }
    clear E. induction (children h v) as [|w l IHl]; [done|]. cbn. rewrite Hw, IHl by set_solver. done. }
  by destruct (visit_key v); rewrite Hc.
Qed.

Lemma separate_no_revisit n : ∀ above v t,
  separate → unfold_value h n v = Some t → deeper n above → revisits h n above v = false.
Proof.
  induction n as [|n IH]; intros above v t Hsep E Hd; [done|].
  destruct (unfold_value h n v) as [t0|] eqn:E0.
  { rewrite (revisits_stable n (S n) above v t0) by (lia || done). apply (IH above v t0 Hsep E0). eapply deeper_mono; [|done]. lia. }
  cbn [revisits]. destruct (visit_key v) as [k|] eqn:Ek.
  - rewrite bool_decide_eq_false_2 by (intros Hin; by apply (Hd k v t Hin Ek)). cbn [orb]. apply existsb_false. intros w Hw.
    destruct (unfold_children n v t w E Hw) as [u Hu]. apply (IH _ w u Hsep Hu). by eapply deeper_enter.
  - apply existsb_false. intros w Hw. destruct (unfold_children n v t w E Hw) as [u Hu]. apply (IH _ w u Hsep Hu).
    eapply deeper_mono; [|done]. lia.
Qed.

End reference.

(** The minifier terminates on every value, cyclic ones included: there is an answer that
    every sufficiently large bound on the recursion gives. *)
Theorem MinifyApiKeys_terminates c h input :
  ∃ fuel r, ∀ fuel', (fuel ≤ fuel')%nat → MinifyApiKeys c h fuel' input = Some r.
Proof.
  unfold MinifyApiKeys. destruct (enabled c); cbn [negb]; [|by exists 0%nat; eauto].
  destruct (minify_answers h (Some (keyMap c)) _ _ ∅ input true (le_n _) (le_n _)) as [f Hf].
  destruct (Hf f (le_n f)) as [r Er]. exists f, r. intros f' Hle. by apply (minifyValue_mono h _ f).
Qed.

(** (C15) The minifier renames keys and nothing else. On a value that unfolds to a finite tree,
    however its parts are shared, the result is that tree with every key mapped (a later
    entry replacing an earlier one that got the same key) and all leaves kept, and at the
    root leaves and nil are refused; unless a reference is reached through one of its kind
    and address, which is reported as a cycle. That never happens when no address is viewed
    in two ways, as a struct and as its first field, or as slices of different lengths. The
    depth of the tree bounds the recursion. *)
Theorem MinifyApiKeys_renames c h n input t fuel :
  enabled c = true → unfold_value h n input = Some t → (n ≤ fuel)%nat →
  MinifyApiKeys c h fuel input =
    Some (if revisits h n ∅ input then Err errCycleDetected else at_root (Some (keyMap c)) true t) ∧
  (separate h → revisits h n ∅ input = false).
Proof.
  intros Hen Hu Hle. unfold MinifyApiKeys. rewrite Hen. cbn [negb]. split.
  - apply (minifyValue_mono h _ n); [done|]. by apply minify_unfolded.
  - intros Hsep. apply (separate_no_revisit h n ∅ input t Hsep Hu). intros k v t' Hin. set_solver.
Qed.

(** A struct whose pointer field points to its own first field holds no cycle, but is taken
    for one: the first field has the address of the struct. *)
Theorem first_field_taken_for_cycle c h a name field x :
  enabled c = true →
  h !! (a, 0) = Some (CVar (VStruct [(name, true, VOther x true); (field, true, VPointer (a, 1))])) →
  h !! (a, 1) = Some (CVar (VOther x true)) →
  unfold_value h 4 (VPointer (a, 0)) = Some (TMap [(name, TLeaf x); (field, TLeaf x)]) ∧
  ∀ fuel, (4 ≤ fuel)%nat → MinifyApiKeys c h fuel (VPointer (a, 0)) = Some (Err errCycleDetected).
Proof.
  intros Hen H0 H1. split; [cbn [unfold_value]; rewrite H0; cbn; by rewrite H1|].
  intros fuel Hle. unfold MinifyApiKeys. rewrite Hen. cbn [negb].
  apply (minifyValue_mono h _ 4); [done|]. cbn [minifyValue]. unfold enter at 1.
  rewrite decide_False by set_solver. rewrite H0. cbn [exported_fields omap list_omap minify_entries]. unfold enter. cbn [fst].
  by rewrite decide_True by set_solver.
Qed.

(** Cycles. A pointer that leads back to itself is reported by [MinifyApiKeys] but makes
    [minifyRecursive], whose loop forgets each reference before following it, run forever. *)
Theorem pointer_cycle_behaviour c h a :
  enabled c = true → h !! a = Some (CVar (VInterface (VPointer a))) →
  (∀ fuel, (3 ≤ fuel)%nat → MinifyApiKeys c h fuel (VPointer a) = Some (Err errCycleDetected)) ∧
  (∀ fuel, minifyRecursive c h fuel (VPointer a) = None).
Proof.
  intros Hen Ha. split.
  - intros fuel Hle. unfold MinifyApiKeys. rewrite Hen. cbn [negb].
    apply (minifyValue_mono h _ 3); [done|]. cbn [minifyValue]. unfold enter.
    rewrite decide_False by set_solver. rewrite Ha. rewrite decide_True by set_solver. done.
  - intros fuel. unfold minifyRecursive, minifyRecursiveValue.
    assert (∀ f, strip h f (VPointer a) = None ∧ strip h f (VInterface (VPointer a)) = None) as Hs.
    { induction f as [|f [IH1 IH2]]; [done|]. cbn [strip]. rewrite Ha. split; [|done].
      unfold enter. by rewrite decide_False by set_solver. }
    by rewrite (proj1 (Hs fuel)).
Qed.

(** A slice stored in its own array under a shorter length is no cycle either, and is taken
    for one: the keys of [visiting] ignore the length. *)
Lemma subslice_taken_for_cycle c h a :
  enabled c = true → h !! (a, 1) = Some (CArray [VSlice (a, 0)]) →
  ∀ fuel, (3 ≤ fuel)%nat → MinifyApiKeys c h fuel (VSlice (a, 1)) = Some (Err errCycleDetected).
Proof.
  intros Hen Ha fuel Hle. unfold MinifyApiKeys. rewrite Hen. cbn [negb].
  apply (minifyValue_mono h _ 3); [done|]. cbn [minifyValue]. unfold enter at 1.
  rewrite decide_False by set_solver. rewrite Ha. cbn [minify_elems]. unfold enter.
  rewrite decide_True by set_solver. done.
Qed.

(** ** Witnesses *)

Module MinifierDemo.
Definition config : minifierConfig := SetupApiKeyMinifierConfig true (Some {["name" := Some "n"]}).
Definition x : rval := VOther (AnyString "x") true.
(** A map that is shared by two exported fields, a pointer that leads back to itself, and a
    struct with a pointer to its first field. *)
Definition h : heap :=
  {[(1, 0) := CMap [("name", x)]; (2, 0) := CVar (VInterface (VPointer (2, 0)));
    (3, 0) := CVar (VStruct [("name", true, x); ("ref", true, VPointer (3, 1))]); (3, 1) := CVar x]}.
Definition input : rval :=
  VStruct [("A", true, VMap true (1, 0)); ("hidden", false, VMap true (1, 0)); ("B", true, VInterface (VMap true (1, 0)))].
(** The shared map alone: no address has two views. *)
Definition h1 : heap := {[(1, 0) := CMap [("name", x)]]}.
Lemma h1_separate : separate h1.
Proof. unfold h1. intros r r' c c' [<- _]%lookup_singleton_Some [<- _]%lookup_singleton_Some _ _. done. Qed.
End MinifierDemo.

Lemma MinifyApiKeys_renames_witness :
  MinifyApiKeys MinifierDemo.config MinifierDemo.h1 5 MinifierDemo.input
  = Some (Ok (OMap [("A", OMap [("n", OLeaf (AnyString "x"))]); ("B", OMap [("n", OLeaf (AnyString "x"))])])) ∧
  MinifyApiKeys MinifierDemo.config MinifierDemo.h 5 (VPointer (3, 0)) = Some (Err errCycleDetected).
Proof.
  split.
  - destruct (MinifyApiKeys_renames MinifierDemo.config MinifierDemo.h1 4 MinifierDemo.input
      (TMap [("A", TMap [("name", TLeaf (AnyString "x"))]); ("B", TMap [("name", TLeaf (AnyString "x"))])]) 5) as [E Hr];
      [done|by vm_compute|lia|]. rewrite E, Hr; [done|apply MinifierDemo.h1_separate].
  - destruct (MinifyApiKeys_renames MinifierDemo.config MinifierDemo.h 4 (VPointer (3, 0))
      (TMap [("name", TLeaf (AnyString "x")); ("ref", TLeaf (AnyString "x"))]) 5) as [E _]; [done|by vm_compute|lia|].
    rewrite E. by vm_compute.
Defined.

Lemma first_field_taken_for_cycle_witness :
  MinifyApiKeys MinifierDemo.config MinifierDemo.h 4 (VPointer (3, 0)) = Some (Err errCycleDetected).
Proof.
  apply (first_field_taken_for_cycle MinifierDemo.config MinifierDemo.h 3 "name" "ref" (AnyString "x") eq_refl eq_refl eq_refl). lia.
Defined.

Lemma pointer_cycle_behaviour_witness :
  MinifyApiKeys MinifierDemo.config MinifierDemo.h 3 (VPointer (2, 0)) = Some (Err errCycleDetected) ∧
  minifyRecursive MinifierDemo.config MinifierDemo.h 1000 (VPointer (2, 0)) = None.
Proof.
  destruct (pointer_cycle_behaviour MinifierDemo.config MinifierDemo.h (2, 0)) as [H1 H2]; [done|done|].
  split; [apply H1; lia|apply H2].
Defined.
