(* ===== verification/Session.v ===== *)
(** * Sessions ([src/core/session])

    The configuration defaults and checks, the construction of the store (with the Redis
    connection it shares through the registry of [RedisClient.v]), the Redis session
    store, the JSON codec and the guarded calls of [Manager]. The session library (scs)
    and its memory store are not part of the repository: [SCS] lists the calls. Times are
    in nanoseconds since the epoch; the zero [time.Time] is [None]. *)

From Stdlib Require Import ZArith Lia.
From stdpp Require Import base numbers strings gmap list pretty.
From S2P Require Import Prelude GoValue CacheApi Redis RedisClient.
Local Open Scope Z_scope.

Definition DefaultSessionName : string := "GFRRSESSID".
Definition StoreMemory : string := "memory".
Definition StoreRedis : string := "redis".
Definition EncodingGob : string := "gob".
Definition EncodingJSON : string := "json".
Definition session_Hour : Z := 3600 * second.

(** [http.SameSite]. *)
Definition SameSiteLaxMode : Z := 2.
Definition SameSiteNoneMode : Z := 4.

Inductive session_error : Type :=
  | ErrNotInitialized
  | ErrNilConfig
  | ErrInvalidStore
  | ErrInvalidEncoding
  | ErrInvalidCookie
  | ErrNoSessionInContext
  | ErrInvalidPayload
  | ErrConnection (why : string)
  | ErrRedisStore (e : rerr)
  | ErrJson
  | ErrScs (why : string).

(** ** Configuration ([config.go]); a nil pointer is [None]. *)

Record StoreOptions := {
  so_Name : string;
  so_Address : string;
  so_Username : string;
  so_Password : string;
  so_DB : Z;
  so_KeyPrefix : string;
  so_PoolSize : Z;
  so_PingOnInit : option bool;
}.

Record StoreConfig := { sc_Type : string; sc_Options : StoreOptions }.

Record CookieConfig := {
  ck_Name : string;
  ck_Domain : string;
  ck_Path : string;
  ck_SameSite : Z;
  ck_Secure : option bool;
  ck_HttpOnly : option bool;
  ck_Persist : option bool;
  ck_Partitioned : option bool;
}.

Record Config := {
  cfg_Store : StoreConfig;
  cfg_Cookie : CookieConfig;
  cfg_Lifetime : Z;
  cfg_IdleTimeout : Z;
  cfg_HashTokenInStore : option bool;
  cfg_Encoding : string;
  cfg_ErrorHandler : bool;    (* whether there is one *)
}.

Definition isValidStore (store : string) : bool :=
  bool_decide (store = StoreMemory) || bool_decide (store = StoreRedis).

Definition isValidEncoding (enc : string) : bool :=
  bool_decide (enc = EncodingGob) || bool_decide (enc = EncodingJSON).

(** [if s == "" { s = d }] and [if p == nil { p = boolPtr(d) }]. *)
Definition or_default (d s : string) : string := if decide (s = "") then d else s.
Definition or_true (d : bool) (p : option bool) : option bool := match p with None => Some d | p => p end.

Definition applyCookieDefaults (c : CookieConfig) : outcome (result session_error CookieConfig) :=
  let c := {| ck_Name := or_default DefaultSessionName (ck_Name c);
              ck_Domain := ck_Domain c;
              ck_Path := or_default "/" (ck_Path c);
              ck_SameSite := if ck_SameSite c =? 0 then SameSiteLaxMode else ck_SameSite c;
              ck_Secure := or_true true (ck_Secure c);
              ck_HttpOnly := or_true true (ck_HttpOnly c);
              ck_Persist := or_true true (ck_Persist c);
              ck_Partitioned := or_true false (ck_Partitioned c) |} in
  if ck_SameSite c =? SameSiteNoneMode then
    match ck_Secure c with
    | None => Panic nil_dereference
    | Some secure => Ret (if secure then Ok c else Err ErrInvalidCookie)
    end
  else Ret (Ok c).

Definition applyRedisDefaults (o : StoreOptions) : StoreOptions :=
  {| so_Name := or_default "default" (so_Name o);
     so_Address := or_default "127.0.0.1:6379" (so_Address o);
     so_Username := so_Username o;
     so_Password := so_Password o;
     so_DB := so_DB o;
     so_KeyPrefix := or_default (DefaultSessionName +:+ ":") (so_KeyPrefix o);
     so_PoolSize := so_PoolSize o;
     so_PingOnInit := or_true true (so_PingOnInit o) |}.

Definition applyDefaults (cfg : option Config) : outcome (result session_error Config) :=
  match cfg with
  | None => Ret (Err ErrNilConfig)
  | Some cfg =>
      let type := or_default StoreMemory (sc_Type (cfg_Store cfg)) in
      let encoding := or_default EncodingGob (cfg_Encoding cfg) in
      if negb (isValidEncoding encoding) then Ret (Err ErrInvalidEncoding)
      else
        let lifetime := if cfg_Lifetime cfg =? 0 then 24 * session_Hour else cfg_Lifetime cfg in
        let hash := or_true true (cfg_HashTokenInStore cfg) in
        r ← applyCookieDefaults (cfg_Cookie cfg);
        match r with
        | Err e => Ret (Err e)
        | Ok cookie =>
            let options := if decide (type = StoreRedis) then applyRedisDefaults (sc_Options (cfg_Store cfg))
                           else sc_Options (cfg_Store cfg) in
            if negb (isValidStore type) then Ret (Err ErrInvalidStore)
            else Ret (Ok {| cfg_Store := {| sc_Type := type; sc_Options := options |};
                            cfg_Cookie := cookie; cfg_Lifetime := lifetime;
                            cfg_IdleTimeout := cfg_IdleTimeout cfg; cfg_HashTokenInStore := hash;
                            cfg_Encoding := encoding; cfg_ErrorHandler := cfg_ErrorHandler cfg |})
        end
  end.

(** ** Stores ([store_builder.go], [store_redis.go]) *)

Record redisStore := { rs_client : nat; rs_prefix : string }.

(** [client.Ping]: a closed client answers with an error, an open one by its fate. *)
Definition Ping (f : fate) (conn : nat) (w : redis_registry) : result session_error unit :=
  match fate_on conn w f with
  | Delivered => Ok ()
  | RequestLost why | ReplyLost why => Err (ErrConnection why)
  end.

Definition newRedisStore (f : fate) (cfg : StoreOptions) (w : redis_registry)
  : outcome (redis_registry * result session_error redisStore) :=
  let w := Redis_SetConnectionConfig (so_Name cfg)
             (Some {| Address := so_Address cfg; Username := so_Username cfg; Password := so_Password cfg;
                      Database := so_DB cfg; PoolSize := so_PoolSize cfg |}) w in
  r ← Redis_Connect RedisConnector (so_Name cfg) w;
  match r with
  | (w, Err e) => Ret (w, Err (ErrConnection e))
  | (w, Ok conn) =>
      let store := {| rs_client := conn; rs_prefix := so_KeyPrefix cfg |} in
      match so_PingOnInit cfg with
      | Some true =>
          match Ping f conn w with
          | Err e => Ret ((Redis_Close conn w).1, Err e)
          | Ok _ => Ret (w, Ok store)
          end
      | _ => Ret (w, Ok store)
      end
  end.

Inductive session_store := MemStore | RedisStore (s : redisStore).

Definition buildStore (f : fate) (cfg : Config) (w : redis_registry)
  : outcome (redis_registry * result session_error session_store) :=
  if decide (sc_Type (cfg_Store cfg) = StoreMemory) then Ret (w, Ok MemStore)
  else if decide (sc_Type (cfg_Store cfg) = StoreRedis) then
    r ← newRedisStore f (applyRedisDefaults (sc_Options (cfg_Store cfg))) w;
    match r with
    | (w, Err e) => Ret (w, Err e)
    | (w, Ok s) => Ret (w, Ok (RedisStore s))
    end
  else Ret (w, Err ErrInvalidStore).

(** The settings [Session_New] gives to scs. *)
Record scs_settings := {
  scs_Store : session_store;
  scs_Lifetime : Z;
  scs_IdleTimeout : Z;
  scs_HashTokenInStore : bool;
  scs_Cookie : string * string * string * Z;   (* name, domain, path, same site *)
  scs_Secure : bool;
  scs_HttpOnly : bool;
  scs_Persist : bool;
  scs_Partitioned : bool;
  scs_jsonCodec : bool;
  scs_ErrorFunc : bool;
}.

(** [*p]. *)
Definition deref (p : option bool) : outcome bool :=
  match p with Some b => Ret b | None => Panic nil_dereference end.

Definition Session_New (f : fate) (config : option Config) (w : redis_registry)
  : outcome (redis_registry * result session_error scs_settings) :=
  r ← applyDefaults config;
  match r with
  | Err e => Ret (w, Err e)
  | Ok cfg =>
      b ← buildStore f cfg w;
      match b with
      | (w, Err e) => Ret (w, Err e)
      | (w, Ok store) =>
          hash ← deref (cfg_HashTokenInStore cfg);
          let ck := cfg_Cookie cfg in
          secure ← deref (ck_Secure ck);
          httpOnly ← deref (ck_HttpOnly ck);
          persist ← deref (ck_Persist ck);
          partitioned ← deref (ck_Partitioned ck);
          Ret (w, Ok {| scs_Store := store; scs_Lifetime := cfg_Lifetime cfg; scs_IdleTimeout := cfg_IdleTimeout cfg;
                        scs_HashTokenInStore := hash;
                        scs_Cookie := (ck_Name ck, ck_Domain ck, ck_Path ck, ck_SameSite ck);
                        scs_Secure := secure; scs_HttpOnly := httpOnly; scs_Persist := persist;
                        scs_Partitioned := partitioned;
                        scs_jsonCodec := bool_decide (cfg_Encoding cfg = EncodingJSON);
                        scs_ErrorFunc := cfg_ErrorHandler cfg |})
      end
  end.

(** *** The Redis store *)

Section store.
Context {db : Type} `{RedisServer db, !RedisClient db}.
Implicit Types (d : db).

Definition session_key (s : redisStore) (token : string) : string :=
  if decide (rs_prefix s = "") then token else rs_prefix s +:+ token.

(** [time.Until(expiry)] on the client's clock. *)
Definition expiryToTTL (clock : Z) (expiry : option Z) : Z :=
  match expiry with
  | None => 0
  | Some expiry => let ttl := expiry - clock in if ttl <=? 0 then second else ttl
  end.

(** A command, by the fate of its message on the store's connection. *)
Definition on_server {A} (f : fate) (s : redisStore) (w : redis_registry) (cmd : db → db * result rerr A) d
  : db * result session_error A :=
  match fate_on (rs_client s) w f with
  | Delivered => let '(d, r) := cmd d in (d, match r with Ok a => Ok a | Err e => Err (ErrRedisStore e) end)
  | RequestLost why => (d, Err (ErrConnection why))
  | ReplyLost why => ((cmd d).1, Err (ErrConnection why))
  end.

Definition FindCtx f (w : redis_registry) now (s : redisStore) (token : string) d
  : db * result session_error (option string) :=
  if decide (token = "") then (d, Ok None)
  else on_server f s w (λ d, (d, GET now (session_key s token) d)) d.

Definition CommitCtx f (w : redis_registry) now (s : redisStore) (clock : Z) (token b : string) (expiry : option Z) d
  : db * result session_error unit :=
  if decide (token = "") then (d, Ok ())
  else on_server f s w (Client_Set now (session_key s token) b (expiryToTTL clock expiry)) d.

Definition DeleteCtx f (w : redis_registry) now (s : redisStore) (token : string) d : db * result session_error unit :=
  if decide (token = "") then (d, Ok ())
  else
    let '(d, r) := on_server f s w (λ d, let '(d, n) := DEL now (session_key s token) d in (d, Ok n)) d in
    (d, _ ← r; Ok ()).

End store.

(** ** The JSON codec ([codec_json.go]) *)

Record jsonPayload := { Deadline : Z; Values : option (list (string * any)) }.

Section codec.
Context (json_Marshal : jsonPayload → option string) (json_Unmarshal : string → option jsonPayload).

(** [deadline.Unix()]: whole seconds, rounded down. *)
Definition Unix (deadline : Z) : Z := deadline / second.

Definition Encode (deadline : Z) (values : option (list (string * any))) : result session_error string :=
  match json_Marshal {| Deadline := Unix deadline; Values := values |} with
  | Some b => Ok b
  | None => Err ErrJson
  end.

(** The deadline, [None] for the zero time, and the values. *)
Definition Decode (b : string) : result session_error (option Z * list (string * any)) :=
  if decide (b = "") then Ok (None, [])
  else
    match json_Unmarshal b with
    | None => Err ErrJson
    | Some payload =>
        if Deadline payload =? 0 then Err ErrInvalidPayload
        else Ok (Some (Deadline payload * second), match Values payload with None => [] | Some v => v end)
    end.

End codec.

(** ** The manager ([manager.go]) *)

(** The calls of scs on a session state [sm] for a request context; each may panic, as scs
    does without session data in the context. *)
Class SCS (sm ctx : Type) := {
  scs_Put : ctx → string → any → sm → sm * outcome unit;
  scs_Get : ctx → string → sm → sm * outcome any;
  scs_GetString : ctx → string → sm → sm * outcome string;
  scs_GetInt : ctx → string → sm → sm * outcome Z;
  scs_GetBool : ctx → string → sm → sm * outcome bool;
  scs_Exists : ctx → string → sm → sm * outcome bool;
  scs_Pop : ctx → string → sm → sm * outcome any;
  scs_Remove : ctx → string → sm → sm * outcome unit;
  scs_Clear : ctx → sm → sm * outcome (result session_error unit);
  scs_RenewToken : ctx → sm → sm * outcome (result session_error unit);
  scs_Destroy : ctx → sm → sm * outcome (result session_error unit);
  scs_Token : ctx → sm → sm * outcome string;
  scs_Deadline : ctx → sm → sm * outcome Z;
}.

Section manager.
Context {sm ctx : Type} `{SCS sm ctx}.

(** A manager: nil, without scs manager, or with one. *)
Definition SessionManager : Type := option (option sm).

Definition with_sm (m : SessionManager) (s : sm) : SessionManager := match m with Some (Some _) => Some (Some s) | m => m end.

(** A body of [guard]: a function on the state that may panic. *)
Abbreviation body A := (sm → sm * outcome A).

Definition guard {A} (m : SessionManager) (fn : body (result session_error A)) : SessionManager * result session_error A :=
  match m with
  | None | Some None => (m, Err ErrNotInitialized)
  | Some (Some s) =>
      let '(s', r) := fn s in
      (Some (Some s'), match r with Panic _ => Err ErrNoSessionInContext | Ret r => r end)
  end.

Definition then_ {A B} (x : body A) (k : A → body B) : body B := λ s,
  let '(s, r) := x s in match r with Ret a => k a s | Panic w => (s, Panic w) end.

Definition finish {A} (x : body A) : body (result session_error A) :=
  then_ x (λ a s, (s, Ret (Ok a))).

Definition Session_Put (m : SessionManager) (c : ctx) (key : string) (val : any) := guard m (finish (scs_Put c key val)).
Definition Session_Get (m : SessionManager) (c : ctx) (key : string) : SessionManager * result session_error (any * bool) :=
  guard m (finish (then_ (scs_Get c key) (λ v, then_ (scs_Exists c key) (λ ok s, (s, Ret (v, ok)))))).
Definition Session_Pop (m : SessionManager) (c : ctx) (key : string) : SessionManager * result session_error (any * bool) :=
  guard m (finish (then_ (scs_Exists c key) (λ ok, then_ (scs_Pop c key) (λ v s, (s, Ret (v, ok)))))).
Definition Session_Remove (m : SessionManager) (c : ctx) (key : string) := guard m (finish (scs_Remove c key)).
Definition Session_Clear (m : SessionManager) (c : ctx) := guard m (scs_Clear c).
Definition Session_Renew (m : SessionManager) (c : ctx) := guard m (scs_RenewToken c).
Definition Session_Destroy (m : SessionManager) (c : ctx) := guard m (scs_Destroy c).

(** [return val, m.guard(func() error { val = ... })]: Go does not say whether the variable
    is read before or after the call; [call_first] is the compiler's choice. *)
Definition assigned {A} (call_first : bool) (zero : A) (r : SessionManager * result session_error A)
  : SessionManager * (A * option session_error) :=
  (r.1, match r.2 with
        | Ok v => (if call_first then v else zero, None)
        | Err e => (zero, Some e)
        end).

Definition Session_GetString (call_first : bool) (m : SessionManager) (c : ctx) (key : string) :=
  assigned call_first "" (guard m (finish (scs_GetString c key))).
Definition Session_GetInt (call_first : bool) (m : SessionManager) (c : ctx) (key : string) :=
  assigned call_first 0 (guard m (finish (scs_GetInt c key))).
Definition Session_GetBool (call_first : bool) (m : SessionManager) (c : ctx) (key : string) :=
  assigned call_first false (guard m (finish (scs_GetBool c key))).
Definition Session_Exists (call_first : bool) (m : SessionManager) (c : ctx) (key : string) :=
  assigned call_first false (guard m (finish (scs_Exists c key))).
Definition Session_Token (call_first : bool) (m : SessionManager) (c : ctx) :=
  assigned call_first "" (guard m (finish (scs_Token c))).
Definition Session_Deadline (call_first : bool) (m : SessionManager) (c : ctx) :=
  assigned call_first 0 (guard m (finish (scs_Deadline c))).

End manager.

(** [Close]: [closeFn] is nil for the memory store. *)
Definition Session_Close (s : option scs_settings) (w : redis_registry) : redis_registry * option string :=
  match s with
  | None => (w, None)
  | Some s =>
      match scs_Store s with
      | MemStore => (w, None)
      | RedisStore st => Redis_Close (rs_client st) w
      end
  end.

(** ** Properties *)

Lemma or_default_idem d s : d ≠ "" → or_default d (or_default d s) = or_default d s.
Proof. intros Hd. unfold or_default. repeat case_decide; congruence. Qed.

Lemma or_default_ne d s : d ≠ "" → or_default d s ≠ "".
Proof. intros Hd. unfold or_default. by case_decide. Qed.

Lemma or_true_idem d p : or_true d (or_true d p) = or_true d p.
Proof. by destruct p. Qed.

Lemma or_true_Some d p : ∃ b, or_true d p = Some b.
Proof. destruct p; by eexists. Qed.

(** A cookie after [applyCookieDefaults]: nothing is missing, and a cookie for cross-site
    requests is marked secure. *)
Definition cookie_ok (c : CookieConfig) : Prop :=
  ck_Name c ≠ "" ∧ ck_Path c ≠ "" ∧ ck_SameSite c ≠ 0 ∧
  is_Some (ck_HttpOnly c) ∧ is_Some (ck_Persist c) ∧ is_Some (ck_Partitioned c) ∧
  ∃ secure, ck_Secure c = Some secure ∧ (ck_SameSite c = SameSiteNoneMode → secure = true).

Lemma applyCookieDefaults_ok c :
  applyCookieDefaults c = Ret (Err ErrInvalidCookie) ∨
  ∃ c', applyCookieDefaults c = Ret (Ok c') ∧ cookie_ok c' ∧ applyCookieDefaults c' = Ret (Ok c').
Proof.
  destruct c as [n dm p ss se ho pe pa]. unfold applyCookieDefaults.
  cbn [ck_Name ck_Domain ck_Path ck_SameSite ck_Secure ck_HttpOnly ck_Persist ck_Partitioned].
  set (ss' := if ss =? 0 then SameSiteLaxMode else ss).
  assert (ss' ≠ 0) as Hss by (unfold ss'; destruct (Z.eqb_spec ss 0); done).
  assert ((if ss' =? 0 then SameSiteLaxMode else ss') = ss') as Hss' by (by destruct (Z.eqb_spec ss' 0)).
  destruct (or_true_Some true se) as [secure Hse]. rewrite Hse.
  destruct (Z.eqb_spec ss' SameSiteNoneMode) as [Hn|Hn]; [destruct secure; [|by left]|];
    right; (eexists; split; [done|]);
    cbn [ck_Name ck_Domain ck_Path ck_SameSite ck_Secure ck_HttpOnly ck_Persist ck_Partitioned];
    rewrite !or_default_idem, !or_true_idem, Hss' by done.
  - rewrite Hn. cbn. split; [|done]. unfold cookie_ok. cbn.
    split_and!; [by apply or_default_ne|by apply or_default_ne|done|apply or_true_Some|
      apply or_true_Some|apply or_true_Some|by exists true].
  - assert ((ss' =? SameSiteNoneMode) = false) as -> by by apply Z.eqb_neq. split; [|done]. unfold cookie_ok. cbn.
    split_and!; [by apply or_default_ne|by apply or_default_ne|done|apply or_true_Some|
      apply or_true_Some|apply or_true_Some|by exists secure].
Qed.

Lemma applyRedisDefaults_idem o : applyRedisDefaults (applyRedisDefaults o) = applyRedisDefaults o.
Proof. unfold applyRedisDefaults. cbn. by rewrite !or_default_idem, or_true_idem. Qed.

Definition config_ok (c : Config) : Prop :=
  isValidStore (sc_Type (cfg_Store c)) = true ∧ isValidEncoding (cfg_Encoding c) = true ∧
  cfg_Lifetime c ≠ 0 ∧ is_Some (cfg_HashTokenInStore c) ∧ cookie_ok (cfg_Cookie c).

Lemma applyDefaults_ok config :
  ∃ r, applyDefaults config = Ret r ∧
    ∀ c, r = Ok c → config_ok c ∧ applyDefaults (Some c) = Ret (Ok c).
Proof.
  unfold applyDefaults at 1. destruct config as [cfg|]; [|by eexists].
  set (ty := or_default StoreMemory (sc_Type (cfg_Store cfg))).
  set (en := or_default EncodingGob (cfg_Encoding cfg)).
  set (lt := if cfg_Lifetime cfg =? 0 then 24 * session_Hour else cfg_Lifetime cfg).
  destruct (isValidEncoding en) eqn:Een; cbn [negb]; [|by eexists].
  destruct (applyCookieDefaults_ok (cfg_Cookie cfg)) as [->|(ck & -> & Hck & Hidem)]; cbn [mbind outcome_bind]; [by eexists|].
  destruct (isValidStore ty) eqn:Est; cbn [negb]; [|by eexists]. eexists. split; [done|].
  intros c [= <-]. assert (lt ≠ 0) as Hlt by (unfold lt; destruct (Z.eqb_spec (cfg_Lifetime cfg) 0); done).
  split.
  - unfold config_ok. cbn. split; [done|]. split; [done|]. split; [done|]. split; [apply or_true_Some|done].
  - unfold applyDefaults. cbn [cfg_Store cfg_Cookie cfg_Lifetime cfg_IdleTimeout cfg_HashTokenInStore cfg_Encoding
      cfg_ErrorHandler sc_Type sc_Options].
    assert (or_default StoreMemory ty = ty) as -> by by apply or_default_idem.
    assert (or_default EncodingGob en = en) as -> by by apply or_default_idem.
    rewrite Een, Hidem, Est. cbn [negb mbind outcome_bind]. rewrite or_true_idem.
    assert ((if lt =? 0 then 24 * session_Hour else lt) = lt) as -> by (by destruct (Z.eqb_spec lt 0)).
    do 4 f_equal. case_decide; [by rewrite applyRedisDefaults_idem|done].
Qed.

Lemma newRedisStore_total f o w : ∃ w' r, newRedisStore f o w = Ret (w', r).
Proof.
  unfold newRedisStore, Redis_Connect, Redis_ConnectContext. cbn [checkedCacheContext].
  set (w0 := Redis_SetConnectionConfig _ _ w).
  assert (∃ opt, connectionConfigMap w0 !! so_Name o = Some (Some opt)) as [opt Hc]
    by (eexists; apply lookup_insert_eq).
  destruct (instances w0 !! so_Name o) as [i|]; [|rewrite Hc]; cbn [Redis_newInstance RedisConnector mbind outcome_bind];
    (destruct (so_PingOnInit o) as [[]|]; [|eauto..]); destruct (Ping _ _ _); eauto.
Qed.

Lemma buildStore_total f c w : ∃ w' r, buildStore f c w = Ret (w', r).
Proof.
  unfold buildStore. destruct (decide _); [eauto|]. destruct (decide _); [|eauto].
  destruct (newRedisStore_total f (applyRedisDefaults (sc_Options (cfg_Store c))) w) as (w' & r & ->).
  destruct r; cbn [mbind outcome_bind]; eauto.
Qed.

(** [New] returns, and a manager has the settings of the completed configuration. *)
Lemma Session_New_total f config w :
  ∃ w' r, Session_New f config w = Ret (w', r) ∧ (config = None → r = Err ErrNilConfig) ∧
    ∀ s, r = Ok s → ∃ c, applyDefaults config = Ret (Ok c) ∧ scs_Lifetime s = cfg_Lifetime c ∧
      scs_Cookie s = (ck_Name (cfg_Cookie c), ck_Domain (cfg_Cookie c), ck_Path (cfg_Cookie c), ck_SameSite (cfg_Cookie c)) ∧
      ck_Secure (cfg_Cookie c) = Some (scs_Secure s).
Proof.
  destruct (applyDefaults_ok config) as (r & E & Hr). unfold Session_New. rewrite E. cbn [mbind outcome_bind].
  destruct r as [c|e]; [|eexists _, _; split; [done|]; split; [|done]].
  2: { intros ->. by injection E as <-. }
  destruct (Hr c eq_refl) as [(_ & _ & _ & [hash Hh] & _ & _ & _ & [ho Eho] & [pe Epe] & [pa Epa] & se & Ese & _) _].
  destruct (buildStore_total f c w) as (w' & r & ->).
  destruct r as [store|e]; [|eexists _, _; split; [done|]; split; [by intros ->|done]].
  rewrite Hh, Ese, Eho, Epe, Epa. cbn [deref mbind outcome_bind]. eexists _, _. split; [done|].
  split; [by intros ->|]. intros s [= <-]. exists c. cbn. by rewrite Ese.
Qed.

(** What is wrong with a configuration, in the order the checks are made. *)
Definition config_problem (config : option Config) : option session_error :=
  match config with
  | None => Some ErrNilConfig
  | Some cfg =>
      if decide (cfg_Encoding cfg ∉ [""; "gob"; "json"]) then Some ErrInvalidEncoding
      else if decide (ck_SameSite (cfg_Cookie cfg) = SameSiteNoneMode ∧ ck_Secure (cfg_Cookie cfg) = Some false) then Some ErrInvalidCookie
      else if decide (sc_Type (cfg_Store cfg) ∉ [""; "memory"; "redis"]) then Some ErrInvalidStore
      else None
  end.

(** The settings a configuration asks for. *)
Definition asked_settings (cfg : Config) (s : scs_settings) : Prop :=
  let ck := cfg_Cookie cfg in
  match scs_Store s with
  | MemStore => sc_Type (cfg_Store cfg) ∈ [""; "memory"]
  | RedisStore st => sc_Type (cfg_Store cfg) = "redis" ∧ rs_prefix st = or_default "GFRRSESSID:" (so_KeyPrefix (sc_Options (cfg_Store cfg)))
  end ∧
  scs_Lifetime s = (if decide (cfg_Lifetime cfg = 0) then 24 * session_Hour else cfg_Lifetime cfg) ∧
  scs_IdleTimeout s = cfg_IdleTimeout cfg ∧ scs_HashTokenInStore s = default true (cfg_HashTokenInStore cfg) ∧
  scs_Cookie s = (or_default "GFRRSESSID" (ck_Name ck), ck_Domain ck, or_default "/" (ck_Path ck),
                  if decide (ck_SameSite ck = 0) then SameSiteLaxMode else ck_SameSite ck) ∧
  scs_Secure s = default true (ck_Secure ck) ∧ scs_HttpOnly s = default true (ck_HttpOnly ck) ∧
  scs_Persist s = default true (ck_Persist ck) ∧ scs_Partitioned s = default false (ck_Partitioned ck) ∧
  scs_jsonCodec s = bool_decide (cfg_Encoding cfg = "json") ∧ scs_ErrorFunc s = cfg_ErrorHandler cfg.

Lemma valid_encoding e : isValidEncoding (or_default EncodingGob e) = bool_decide (e ∈ [""; "gob"; "json"]).
Proof.
  apply Bool.eq_iff_eq_true. unfold isValidEncoding, or_default, EncodingGob, EncodingJSON.
  rewrite orb_true_iff, !bool_decide_eq_true. case_decide; subst; set_solver.
Qed.

Lemma valid_store t : isValidStore (or_default StoreMemory t) = bool_decide (t ∈ [""; "memory"; "redis"]).
Proof.
  apply Bool.eq_iff_eq_true. unfold isValidStore, or_default, StoreMemory, StoreRedis.
  rewrite orb_true_iff, !bool_decide_eq_true. case_decide; subst; set_solver.
Qed.

Lemma or_true_default d p : or_true d p = Some (default d p).
Proof. by destruct p. Qed.

(** The cookie of a configuration. *)
Definition asked_cookie (c : CookieConfig) : CookieConfig :=
  {| ck_Name := or_default DefaultSessionName (ck_Name c); ck_Domain := ck_Domain c; ck_Path := or_default "/" (ck_Path c);
     ck_SameSite := if decide (ck_SameSite c = 0) then SameSiteLaxMode else ck_SameSite c;
     ck_Secure := Some (default true (ck_Secure c)); ck_HttpOnly := Some (default true (ck_HttpOnly c));
     ck_Persist := Some (default true (ck_Persist c)); ck_Partitioned := Some (default false (ck_Partitioned c)) |}.

Lemma applyCookieDefaults_asked c :
  applyCookieDefaults c =
    Ret (if decide (ck_SameSite c = SameSiteNoneMode ∧ ck_Secure c = Some false) then Err ErrInvalidCookie else Ok (asked_cookie c)).
Proof.
  unfold applyCookieDefaults, asked_cookie. rewrite !or_true_default. cbn [ck_SameSite ck_Secure].
  assert ((if ck_SameSite c =? 0 then SameSiteLaxMode else ck_SameSite c) = (if decide (ck_SameSite c = 0) then SameSiteLaxMode else ck_SameSite c)) as ->
    by (destruct (Z.eqb_spec (ck_SameSite c) 0); by case_decide).
  unfold SameSiteNoneMode, SameSiteLaxMode. destruct (decide (ck_SameSite c = 0)) as [E0|E0].
  { cbn. rewrite decide_False; [done|]. rewrite E0. naive_solver. }
  destruct (Z.eqb_spec (ck_SameSite c) 4) as [E4|E4]; [|rewrite decide_False; [done|naive_solver]].
  destruct (ck_Secure c) as [[]|]; cbn; [rewrite decide_False|rewrite decide_True|rewrite decide_False]; done || naive_solver.
Qed.

(** A store that cannot be built is a Redis one whose connection failed. *)
Lemma newRedisStore_result f o w :
  ∃ w' r, newRedisStore f o w = Ret (w', r) ∧
    match r with Err e => ∃ why, e = ErrConnection why | Ok s => rs_prefix s = so_KeyPrefix o end.
Proof.
  unfold newRedisStore, Redis_Connect, Redis_ConnectContext. cbn [checkedCacheContext].
  set (w0 := Redis_SetConnectionConfig _ _ w).
  assert (∃ opt, connectionConfigMap w0 !! so_Name o = Some (Some opt)) as [opt Hc]
    by (eexists; apply lookup_insert_eq).
  destruct (instances w0 !! so_Name o) as [i|]; [|rewrite Hc]; cbn [Redis_newInstance RedisConnector mbind outcome_bind];
    (destruct (so_PingOnInit o) as [[]|]; [|by eexists _, _..]);
    (match goal with |- context [Ping ?f ?c ?w] => unfold Ping; destruct (fate_on c w f) end); eexists _, _; (split; [done|]); cbn; eauto.
Qed.

(** The configuration the manager is made of. *)
Definition completed (cfg : Config) : Config :=
  let type := or_default StoreMemory (sc_Type (cfg_Store cfg)) in
  {| cfg_Store := {| sc_Type := type;
                     sc_Options := if decide (type = StoreRedis) then applyRedisDefaults (sc_Options (cfg_Store cfg)) else sc_Options (cfg_Store cfg) |};
     cfg_Cookie := asked_cookie (cfg_Cookie cfg);
     cfg_Lifetime := if decide (cfg_Lifetime cfg = 0) then 24 * session_Hour else cfg_Lifetime cfg;
     cfg_IdleTimeout := cfg_IdleTimeout cfg; cfg_HashTokenInStore := Some (default true (cfg_HashTokenInStore cfg));
     cfg_Encoding := or_default EncodingGob (cfg_Encoding cfg); cfg_ErrorHandler := cfg_ErrorHandler cfg |}.

Lemma applyDefaults_asked cfg :
  applyDefaults (Some cfg) = Ret (match config_problem (Some cfg) with Some e => Err e | None => Ok (completed cfg) end).
Proof.
  unfold config_problem, applyDefaults. rewrite valid_encoding, valid_store, applyCookieDefaults_asked, or_true_default.
  destruct (decide (cfg_Encoding cfg ∉ _)) as [He|He]; [by rewrite bool_decide_false|].
  rewrite bool_decide_true by (by apply dec_stable). cbn [negb mbind outcome_bind].
  destruct (decide (ck_SameSite (cfg_Cookie cfg) = SameSiteNoneMode ∧ _)) as [Hc|Hc]; [done|].
  destruct (decide (sc_Type (cfg_Store cfg) ∉ _)) as [Ht|Ht]; [by rewrite bool_decide_false|].
  rewrite bool_decide_true by (by apply dec_stable). cbn [negb]. unfold completed. do 3 f_equal.
  destruct (Z.eqb_spec (cfg_Lifetime cfg) 0); by case_decide.
Qed.

Lemma buildStore_result f cfg w : sc_Type (cfg_Store cfg) ∈ [""; "memory"; "redis"] →
  ∃ w' r, buildStore f (completed cfg) w = Ret (w', r) ∧
    match r with
    | Err e => sc_Type (cfg_Store cfg) = "redis" ∧ ∃ why, e = ErrConnection why
    | Ok MemStore => sc_Type (cfg_Store cfg) ∈ [""; "memory"]
    | Ok (RedisStore st) => sc_Type (cfg_Store cfg) = "redis" ∧ rs_prefix st = or_default "GFRRSESSID:" (so_KeyPrefix (sc_Options (cfg_Store cfg)))
    end.
Proof.
  intros Ht. unfold buildStore, completed. cbn [cfg_Store sc_Type sc_Options].
  destruct (decide (sc_Type (cfg_Store cfg) ∈ [""; "memory"])) as [Hm|Hm].
  - rewrite decide_True; [by eexists _, _|]. unfold or_default, StoreMemory. case_decide; set_solver.
  - assert (sc_Type (cfg_Store cfg) = "redis") as -> by set_solver.
    change (or_default StoreMemory "redis") with StoreRedis. rewrite decide_False, !decide_True, applyRedisDefaults_idem by done.
    destruct (newRedisStore_result f (applyRedisDefaults (sc_Options (cfg_Store cfg))) w) as (w' & [st|e] & -> & Hr);
      cbn [mbind outcome_bind]; eexists _, _; (split; [done|]); by split.
Qed.


(** An open connection passes messages on. *)
Definition open_connection (i : nat) (w : redis_registry) : Prop :=
  ∃ c, connections w !! i = Some c ∧ conn_closed c = false.

Lemma fate_on_open i w f : open_connection i w → fate_on i w f = f.
Proof. intros (c & E & Hc). unfold fate_on. by rewrite E, Hc. Qed.

Lemma session_key_inj s t t' : session_key s t = session_key s t' → t = t'.
Proof. unfold session_key. case_decide; [done|]. apply string_app_cancel. Qed.

Section store_properties.
Context {db : Type} `{ClientLaws db}.
Implicit Types (d : db).

Lemma Find_live w now s token d :
  open_connection (rs_client s) w → token ≠ "" →
  FindCtx Delivered w now s token d =
    (d, match live d now (session_key s token) with
        | None => Ok None
        | Some (RString b) => Ok (Some b)
        | Some (RHash _) => Err (ErrRedisStore EWrongType)
        end).
Proof.
  intros Ho Ht. unfold FindCtx, on_server. rewrite decide_False, fate_on_open, GET_law by done.
  by destruct (live d now (session_key s token)) as [[]|].
Qed.

(** The lifetime the server keeps a committed session for: the time left, or a second. *)
Lemma Commit_entry w now s clock token b expiry d :
  open_connection (rs_client s) w → token ≠ "" →
  int_expiry now (expiryToTTL clock expiry / 10 ^ 6 + 1) = true ∨ expiry = None →
  ∃ d', CommitCtx Delivered w now s clock token b expiry d = (d', Ok ()) ∧
    only_key (session_key s token) d d' ∧
    match expiry with
    | None => r_entry d' (session_key s token) = Some (RString b, None)
    | Some _ => ∃ t, r_entry d' (session_key s token) = Some (RString b, Some (now + t)) ∧
        Z.max 1 (expiryToTTL clock expiry / 10 ^ 6) <= t <= expiryToTTL clock expiry / 10 ^ 6 + 1
    end.
Proof.
  intros Ho Ht He. unfold CommitCtx, on_server. rewrite decide_False, fate_on_open by done.
  set (k := session_key s token). set (ttl := expiryToTTL clock expiry) in *.
  pose proof (Set_only now k b ttl d) as Honly. exists (Client_Set now k b ttl d).1.
  destruct expiry as [e|].
  - destruct He as [He|]; [|done].
    assert (0 < ttl) as Hpos.
    { unfold ttl, expiryToTTL, second. destruct (Z.leb_spec (e - clock) 0); lia. }
    destruct (Set_precise now k b ttl d Hpos He) as (E1 & E2).
    destruct (Client_Set now k b ttl d) as [d' r]. cbn [fst snd] in *. subst r. by split_and!.
  - destruct (Set_plain now k b d) as (E1 & E2). change ttl with 0 in *.
    destruct (Client_Set now k b 0 d) as [d' r]. cbn [fst snd] in *. subst r. by split_and!.
Qed.

End store_properties.

(** (C25) Committed sessions are found again. Over an open connection, the bytes committed under a
    token are found until the expiry (to the millisecond) and not afterwards; without
    expiry they stay; no other token's data changes. A session whose expiry has passed is
    not dropped but kept for one more second. *)
Theorem redisStore_roundtrip {db} `{ClientLaws db} w now s clock token b expiry (d : db) :
  open_connection (rs_client s) w → token ≠ "" →
  int_expiry now (expiryToTTL clock expiry / 10 ^ 6 + 1) = true ∨ expiry = None →
  ∃ d', CommitCtx Delivered w now s clock token b expiry d = (d', Ok ()) ∧
    (∀ later, let found := FindCtx Delivered w later s token d' in
       match expiry with
       | None => found = (d', Ok (Some b))
       | Some e =>
           let left_ms := (if e <=? clock then second else e - clock) / 10 ^ 6 in
           (later < now + Z.max 1 left_ms → found = (d', Ok (Some b))) ∧
           (now + left_ms + 1 <= later → found = (d', Ok None))
       end) ∧
    (∀ later token', token' ≠ token → token' ≠ "" →
       (FindCtx Delivered w later s token' d').2 = (FindCtx Delivered w later s token' d).2).
Proof.
  intros Ho Ht He. destruct (Commit_entry w now s clock token b expiry d Ho Ht He) as (d' & E & Honly & Hent).
  exists d'. split; [done|]. split.
  - intros later. rewrite Find_live by done. cbn zeta. destruct expiry as [e|].
    + destruct Hent as (t & Hent & Hb). unfold live. rewrite Hent. unfold alive. cbn [fst snd].
      assert (expiryToTTL clock (Some e) = if e <=? clock then second else e - clock) as Ettl.
      { unfold expiryToTTL. destruct (Z.leb_spec (e - clock) 0), (Z.leb_spec e clock); lia. }
      rewrite Ettl in Hb. destruct (Z.ltb_spec later (now + t)); split; intros Hl; done || lia.
    + unfold live. by rewrite Hent.
  - intros later token' Hne Hne'. rewrite !Find_live by done. cbn [snd].
    rewrite (live_frame d d'); [done|]. apply Honly. intros Ek. by apply session_key_inj in Ek.
Qed.

(** A failed start cannot be repeated. When the ping of a new Redis store fails, the
    connection is closed but stays registered under its name: every later store of that
    name gets the closed connection, and with it the error "client is closed", although
    the server may be reachable again and whatever the new options are. *)
Theorem failed_ping_sticks f o w w' e :
  registry_ok w → so_PingOnInit o = Some true → f ≠ Delivered →
  newRedisStore f o w = Ret (w', Err e) →
  ∀ f' o', so_Name o' = so_Name o → so_PingOnInit o' = Some true →
    ∃ w'', newRedisStore f' o' w' = Ret (w'', Err (ErrConnection client_is_closed)).
Proof.
  intros Hok Hping Hf. unfold newRedisStore at 1.
  set (cfg := Some _). set (w0 := Redis_SetConnectionConfig (so_Name o) cfg w).
  destruct (Redis_Connect RedisConnector (so_Name o) w0) as [[w1 r]|] eqn:Ec; [|done].
  cbn [mbind outcome_bind]. destruct r as [i|e'].
  2: { exfalso. unfold Redis_Connect, Redis_ConnectContext in Ec. cbn [checkedCacheContext] in Ec.
       destruct (instances w0 !! so_Name o); [done|].
       assert (connectionConfigMap w0 !! so_Name o = Some cfg) as Ecfg by apply lookup_insert_eq.
       rewrite Ecfg in Ec. done. }
  assert (registry_ok w0) as Hok0 by exact Hok.
  destruct (Connect_Ok _ _ _ _ _ Hok0 Ec) as (Hok1 & Hi & _). rewrite Hping.
  destruct (Hok1 _ _ Hi) as [c Hc].
  assert (∃ why, Ping f i w1 = Err (ErrConnection why)) as [why ->].
  { unfold Ping, fate_on. rewrite Hc. destruct (conn_closed c); [by eexists|]. destruct f; [done|by eexists..]. }
  intros [= <- <-] f' o' Hname Hping'. unfold newRedisStore. rewrite Hname.
  set (cfg' := Some _). set (w2 := Redis_SetConnectionConfig (so_Name o) cfg' (Redis_Close i w1).1).
  assert (instances w2 !! so_Name o = Some i) as Hi2.
  { unfold w2, Redis_Close. rewrite Hc. by destruct (conn_closed c). }
  rewrite (Connect_registered _ _ _ _ Hi2). cbn [mbind outcome_bind]. rewrite Hping'.
  assert (fate_on i w2 f' = RequestLost client_is_closed) as Hfate.
  { unfold fate_on, w2, Redis_Close. rewrite Hc. destruct (conn_closed c) eqn:Ecl; cbn.
    - by rewrite Hc, Ecl.
    - by rewrite list_lookup_insert_eq by by eapply lookup_lt_Some. }
  unfold Ping. rewrite Hfate. by eexists.
Qed.

(** The JSON codec gives back the values, and the deadline rounded down to seconds, hence at
    most a second early; a deadline in the first second of 1970 is refused. *)
Theorem jsonCodec_roundtrip json_Marshal json_Unmarshal deadline values b :
  (∀ p b, json_Marshal p = Some b → b ≠ "" ∧ json_Unmarshal b = Some p) →
  Encode json_Marshal deadline values = Ok b →
  Decode json_Unmarshal b =
    (if Unix deadline =? 0 then Err ErrInvalidPayload
     else Ok (Some (Unix deadline * second), default [] values)) ∧
  0 <= deadline - Unix deadline * second < second.
Proof.
  intros Hjson. unfold Encode. destruct (json_Marshal _) as [b'|] eqn:E; [|done]. intros [= <-].
  destruct (Hjson _ _ E) as [Hne Hu]. unfold Decode. rewrite decide_False, Hu by done. cbn [Deadline Values].
  split; [destruct (Unix deadline =? 0); [done|by destruct values]|].
  unfold Unix. pose proof (Z.div_mod deadline second ltac:(done)).
  pose proof (Z.mod_pos_bound deadline second ltac:(done)). lia.
Qed.

(** What the typed getters return depends on the compiler: with the variable read before
    the call they return the zero value for every session. *)
Lemma GetString_order {sm ctx} `{SCS sm ctx} (s s' : sm) (c : ctx) key v :
  scs_GetString c key s = (s', Ret v) →
  Session_GetString true (Some (Some s)) c key = (Some (Some s'), (v, None)) ∧
  Session_GetString false (Some (Some s)) c key = (Some (Some s'), ("", None)).
Proof.
  intros E. unfold Session_GetString, guard, finish, then_. by rewrite E.
Qed.

(** ** Witnesses *)

Module SessionDemo.
Definition options : StoreOptions :=
  {| so_Name := ""; so_Address := "redis:6379"; so_Username := ""; so_Password := ""; so_DB := 0;
     so_KeyPrefix := ""; so_PoolSize := 10; so_PingOnInit := None |}.
Definition store : redisStore := {| rs_client := 0; rs_prefix := "GFRRSESSID:" |}.
Definition w : redis_registry :=
  match newRedisStore Delivered (applyRedisDefaults options) no_connections with
  | Ret (w, _) => w
  | Panic _ => no_connections
  end.
Definition w_failed : redis_registry :=
  match newRedisStore (RequestLost "connection refused") (applyRedisDefaults options) no_connections with
  | Ret (w, _) => w
  | Panic _ => no_connections
  end.
(** A marshaller for one payload. *)
Definition payload : jsonPayload := {| Deadline := 1700000000; Values := None |}.
Definition marshal (p : jsonPayload) : option string :=
  match p with
  | {| Deadline := d; Values := None |} => if d =? 1700000000 then Some "p" else None
  | _ => None
  end.
Definition unmarshal (b : string) : option jsonPayload := if decide (b = "p") then Some payload else None.
End SessionDemo.

Lemma redisStore_roundtrip_witness :
  ∃ d' : mapdb,
    CommitCtx Delivered SessionDemo.w 1000 SessionDemo.store (10 ^ 18) "tok" "data" (Some (10 ^ 18 + 60 * second)) ∅
      = (d', Ok ()) ∧
    FindCtx Delivered SessionDemo.w 50000 SessionDemo.store "tok" d' = (d', Ok (Some "data")) ∧
    FindCtx Delivered SessionDemo.w 70000 SessionDemo.store "tok" d' = (d', Ok None).
Proof.
  destruct (redisStore_roundtrip (db := mapdb) SessionDemo.w 1000 SessionDemo.store (10 ^ 18) "tok" "data"
    (Some (10 ^ 18 + 60 * second)) ∅) as (d' & E & Hf & _).
  - eexists. split; [by vm_compute|done].
  - done.
  - left. by vm_compute.
  - exists d'. split; [exact E|]. split.
    + apply (Hf 50000). by vm_compute.
    + apply (Hf 70000). by vm_compute.
Defined.

Lemma failed_ping_sticks_witness :
  ∃ w'', newRedisStore Delivered (applyRedisDefaults SessionDemo.options) SessionDemo.w_failed
    = Ret (w'', Err (ErrConnection client_is_closed)).
Proof.
  apply (failed_ping_sticks (RequestLost "connection refused") (applyRedisDefaults SessionDemo.options)
    no_connections SessionDemo.w_failed (ErrConnection "connection refused")); [|done..].
  intros s i E. done.
Defined.

Lemma jsonCodec_roundtrip_witness :
  Decode SessionDemo.unmarshal "p" = Ok (Some (1700000000 * second), []).
Proof.
  destruct (jsonCodec_roundtrip SessionDemo.marshal SessionDemo.unmarshal (1700000000 * second + 5) None "p") as [E _];
    [|by vm_compute|by rewrite E].
  intros [dl [v|]] b; cbn; [done|]. destruct (Z.eqb_spec dl 1700000000) as [->|]; [|done].
  intros [= <-]. split; [done|]. unfold SessionDemo.unmarshal. by rewrite decide_True.
Defined.
