(* ===== verification/Http.v ===== *)
(** * HTTP handlers, responses and the simple middleware

    A response writer as net/http documents it, requests, and handlers as functions on a
    state of the process, the response written so far and a possible panic. On top of
    them: [src/utils/rest/apiresponse] (the JSON envelope, with the API key minifier of
    [Minifier.v]), [src/utils/rest/ip_utils.go] ([GetClientIP]) and the middleware of
    [src/middleware] that wraps one handler: request ids, security headers, real IPs,
    heartbeats, HEAD requests, minification, rate limiting and panic recovery.
    [json.Marshal], [net.ParseIP], [path.Clean], [strings.EqualFold] and the UUID
    generator are parameters. *)

From Stdlib Require Import ZArith Lia Ascii.
From stdpp Require Import base numbers strings gmap list.
From S2P Require Import Prelude GoValue SqlText Minifier.
Local Open Scope Z_scope.

(** ** Headers *)

Definition upper (c : ascii) : ascii := if between 97 122 c then ascii_of_nat (nat_of_ascii c - 32) else c.
Definition lower (c : ascii) : ascii := if between 65 90 c then ascii_of_nat (nat_of_ascii c + 32) else c.

(** Bytes allowed in a header name. *)
Definition token_char (c : ascii) : bool :=
  isLetter c || isDigit c || bool_decide (c ∈ str "!#$%&'*+-.^_`|~").

Fixpoint canonical (up : bool) (s : string) : string :=
  match s with
  | EmptyString => ""
  | String c s =>
      String (if up then upper c else lower c) (canonical (bool_decide (c = ascii_of_nat 45)) s)
  end.

(** [textproto.CanonicalMIMEHeaderKey]: names with other bytes are left alone. *)
Definition CanonicalHeaderKey (s : string) : string :=
  if forallb token_char (str s) then canonical true s else s.

Abbreviation header := (gmap string (list string)).

Definition Header_Get (h : header) (key : string) : string :=
  match h !! CanonicalHeaderKey key with Some (v :: _) => v | _ => "" end.
Definition Header_Set (h : header) (key v : string) : header := <[CanonicalHeaderKey key := [v]]> h.
Definition Header_Add (h : header) (key v : string) : header :=
  <[CanonicalHeaderKey key := default [] (h !! CanonicalHeaderKey key) ++ [v]]> h.
Definition Header_Del (h : header) (key : string) : header := delete (CanonicalHeaderKey key) h.

(** ** The response writer

    The header map handlers may change, the status and header that were sent (the first
    [WriteHeader] counts), and the body. *)
Record rw : Type := {
  rw_header : header;
  rw_sent : option (Z * header);
  rw_body : string;
}.

Definition new_rw : rw := {| rw_header := ∅; rw_sent := None; rw_body := "" |}.

Definition set_header (w : rw) (h : header) : rw := {| rw_header := h; rw_sent := rw_sent w; rw_body := rw_body w |}.

Definition WriteHeader (w : rw) (code : Z) : rw :=
  match rw_sent w with
  | Some _ => w
  | None => {| rw_header := rw_header w; rw_sent := Some (code, rw_header w); rw_body := rw_body w |}
  end.

Definition Write (w : rw) (p : string) : rw :=
  let w := WriteHeader w 200 in
  {| rw_header := rw_header w; rw_sent := rw_sent w; rw_body := rw_body w +:+ p |}.

(** What the client gets when the handler returns: 200 if nothing was sent. *)
Definition response (w : rw) : Z * header * string :=
  match rw_sent w with
  | Some (code, h) => (code, h, rw_body w)
  | None => (200, rw_header w, rw_body w)
  end.

Record request : Type := {
  r_Method : string;
  r_Path : string;
  r_RemoteAddr : string;
  r_Header : header;
  r_values : gmap string string;    (* the context's string values *)
}.

Definition set_Method (r : request) (x : string) : request :=
  {| r_Method := x; r_Path := r_Path r; r_RemoteAddr := r_RemoteAddr r; r_Header := r_Header r; r_values := r_values r |}.
Definition set_Path (r : request) (x : string) : request :=
  {| r_Method := r_Method r; r_Path := x; r_RemoteAddr := r_RemoteAddr r; r_Header := r_Header r; r_values := r_values r |}.
Definition set_RemoteAddr (r : request) (x : string) : request :=
  {| r_Method := r_Method r; r_Path := r_Path r; r_RemoteAddr := x; r_Header := r_Header r; r_values := r_values r |}.
Definition with_value (r : request) (k v : string) : request :=
  {| r_Method := r_Method r; r_Path := r_Path r; r_RemoteAddr := r_RemoteAddr r; r_Header := r_Header r;
     r_values := <[k := v]> (r_values r) |}.

(** ** Handlers: the state of the process, the response, and a panic if there was one *)

Abbreviation handler S := (request → S → rw → S * rw * option string).

(** ** The JSON envelope ([apiresponse.go], [codes.go]) *)

Definition codesMap : gmap string (Z * string) := list_to_map
  [("S200", (200, "OK")); ("S201", (201, "Created")); ("S202", (202, "Accepted"));
   ("E204", (204, "No Content")); ("E205", (205, "Reset Content")); ("E206", (206, "Partial Content"));
   ("E301", (301, "Moved Permanently")); ("E302", (302, "Found")); ("E307", (307, "Temporary Redirect"));
   ("E308", (308, "Permanent Redirect")); ("E400", (400, "Bad Request")); ("E403", (403, "Forbidden"));
   ("E404", (404, "Not Found")); ("E406", (406, "Not Acceptable")); ("E408", (408, "Request Timeout"));
   ("E409", (409, "Conflict")); ("E415", (415, "Unsupported Media Type")); ("E422", (422, "Unprocessable Entity"));
   ("E429", (429, "Too Many Requests")); ("E500", (500, "Internal Server Error")); ("E502", (502, "Bad Gateway"));
   ("E503", (503, "Service Unavailable")); ("E504", (504, "Gateway Timeout")); ("E401", (401, "Unauthorized"))].

Definition RequestTimeout : string := "E408".
Definition TooManyRequests : string := "E429".
Definition InternalServerError : string := "E500".

Definition ToHttpCode (appcode : string) : Z :=
  match codesMap !! appcode with Some (code, _) => code | None => 200 end.

(** The data of a response: a Go value on the heap, or what the minifier built. *)
Inductive payload : Type :=
  | PValue (v : rval)
  | PMinified (o : out).

Record ApiResponse : Type := { Success : bool; Code : string; Data : payload; Message : string }.

Definition blank (s : string) : bool := bool_decide (TrimSpace (str s) = []).

Definition ApiResponse_New (success : bool) (code : string) (data : payload) (message : string) : ApiResponse :=
  {| Success := success; Code := code; Data := data;
     Message := if blank message then match codesMap !! code with Some (_, m) => m | None => "" end else message |}.

Definition ApiResponse_GetStruct (r : ApiResponse) (success : bool) (code : string) (data : payload) (message : string)
  : ApiResponse := ApiResponse_New success code data message.

Definition HeaderContentType : string := "Content-Type".
Definition HeaderXApiMinifier : string := "X-API-Minify".
Definition XAPIMinifierValue : string := "Y".
Definition ContentTypeJSON : string := "application/json".

(** The process as [Send] sees it: the minifier's configuration and the heap the data
    lives on, with a bound on the minifier's recursion. *)
Record api_env : Type := { env_minifier : minifierConfig; env_heap : heap; env_fuel : nat }.

Section api.
Context (json_Marshal : api_env → ApiResponse → string).

Definition minified (e : api_env) (w : rw) (r : ApiResponse) : ApiResponse :=
  if IsApiKeyMinifierEnabled (env_minifier e) && bool_decide (Header_Get (rw_header w) HeaderXApiMinifier = XAPIMinifierValue)
  then match Data r with
       | PValue v =>
           match MinifyApiKeys (env_minifier e) (env_heap e) (env_fuel e) v with
           | Some (Ok o) => {| Success := Success r; Code := Code r; Data := PMinified o; Message := Message r |}
           | _ => r
           end
       | PMinified _ => r
       end
  else r.

Definition Send (e : api_env) (r : ApiResponse) (w : rw) (httpCode : Z) : rw :=
  let w := set_header w (Header_Set (rw_header w) HeaderContentType (ContentTypeJSON +:+ "; charset=UTF-8")) in
  let httpCode := if httpCode =? 0 then ToHttpCode (Code r) else httpCode in
  let w := WriteHeader w httpCode in
  Write w (json_Marshal e (minified e w r)).

End api.

(** ** Client addresses ([ip_utils.go]) *)

Definition trimmed (s : string) : string := String.string_of_list_ascii (TrimSpace (str s)).

Definition has (c : ascii) (s : text) : bool := bool_decide (c ∈ s).

(** The position of the last occurrence of a byte. *)
Fixpoint last_index (c : ascii) (s : text) : option nat :=
  match s with
  | [] => None
  | d :: s =>
      match last_index c s with
      | Some i => Some (S i)
      | None => if decide (d = c) then Some 0%nat else None
      end
  end.

Fixpoint first_index (c : ascii) (s : text) : option nat :=
  match s with
  | [] => None
  | d :: s => if decide (d = c) then Some 0%nat else S <$> first_index c s
  end.

Definition char_open : ascii := char 91.
Definition char_close : ascii := char 93.

(** [net.SplitHostPort], the host; [None] for its errors. *)
Definition SplitHost (hostport : text) : option text :=
  match last_index char_colon hostport with
  | None => None
  | Some i =>
      match hostport with
      | c :: _ =>
          if decide (c = char_open) then
            match first_index char_close hostport with
            | None => None
            | Some e =>
                if decide (S e = i) then
                  if has char_open (drop 1 hostport) || has char_close (drop (S e) hostport) then None
                  else Some (take (e - 1) (drop 1 hostport))
                else None
            end
          else
            let host := take i hostport in
            if has char_colon host || has char_open hostport || has char_close hostport then None else Some host
      | [] => None
      end
  end.

(** The first non-blank element of a comma-separated list. *)
Fixpoint first_nonblank (parts : list text) : option text :=
  match parts with
  | [] => None
  | p :: parts => match TrimSpace p with [] => first_nonblank parts | ip => Some ip end
  end.

Definition char_comma : ascii := char 44.

Definition GetClientIP (r : request) : string :=
  let xff := Header_Get (r_Header r) "X-Forwarded-For" in
  match (if decide (xff = "") then None else first_nonblank (Split (str xff) char_comma)) with
  | Some ip => String.string_of_list_ascii ip
  | None =>
      let xrip := trimmed (Header_Get (r_Header r) "X-Real-Ip") in
      if decide (xrip = "") then
        match SplitHost (TrimSpace (str (r_RemoteAddr r))) with
        | Some host => String.string_of_list_ascii host
        | None => trimmed (r_RemoteAddr r)
        end
      else xrip
  end.

(** ** Middleware *)

Definition IsHttpRequest (r : request) : bool :=
  bool_decide (r_Method r ∈ ["GET"; "POST"; "DELETE"; "POST"; "PATCH"; "OPTIONS"; "HEAD"; "TRACE"; "CONNECT"]).

Section middleware.
Context {S : Type}.
Implicit Types (next : handler S) (s : S).

Definition GetHead next : handler S := λ r s w,
  next (if decide (r_Method r = "HEAD") then set_Method r "GET" else r) s w.

Definition CleanPath (path_Clean : string → string) next : handler S := λ r s w,
  next (if decide (r_Path r = "") then r else set_Path r (path_Clean (r_Path r))) s w.

Definition Heartbeat (EqualFold : string → string → bool) (endpoint : string) next : handler S := λ r s w,
  if (bool_decide (r_Method r = "GET") || bool_decide (r_Method r = "HEAD")) && EqualFold (r_Path r) endpoint then
    let w := set_header w (Header_Set (rw_header w) HeaderContentType "text/plain") in
    (s, Write (WriteHeader w 200) ".", None)
  else next r s w.

Definition GetRequestID (r : request) : string := default "" (r_values r !! "request_id").

(** [uuid] is the identifier the generator gives. *)
Definition RequestId (uuid : string) next : handler S := λ r s w,
  let rid := Header_Get (r_Header r) "X-Request-ID" in
  let rid := if decide (rid = "") then uuid else rid in
  next (with_value r "request_id" rid) s (set_header w (Header_Add (rw_header w) "X-Request-ID" rid)).

Definition realIP (ParseIP : string → bool) (r : request) : string :=
  let tcip := Header_Get (r_Header r) "True-Client-IP" in
  let xrip := Header_Get (r_Header r) "X-Real-IP" in
  let xff := Header_Get (r_Header r) "X-Forwarded-For" in
  let ip :=
    if decide (tcip ≠ "") then tcip
    else if decide (xrip ≠ "") then xrip
    else if decide (xff ≠ "") then String.string_of_list_ascii (hd [] (Split (str xff) char_comma))
    else "" in
  if bool_decide (ip = "") || negb (ParseIP ip) then "" else ip.

Definition RealIP (ParseIP : string → bool) next : handler S := λ r s w,
  let rip := realIP ParseIP r in
  next (if decide (rip = "") then r else set_RemoteAddr r rip) s w.

Record SecurityHeadersOptions := {
  XFrameOptions : string;
  XContentTypeOptions : string;
  ReferrerPolicy : string;
  PermissionsPolicy : string;
  CrossOriginOpenerPolicy : string;
  XSSProtection : string;
  ContentSecurityPolicy : string;
}.

Definition or_value (d v : string) : string := if decide (v = "") then d else v.

Definition normalizeSecurityHeadersOptions (o : SecurityHeadersOptions) : SecurityHeadersOptions :=
  {| XFrameOptions := or_value "DENY" (XFrameOptions o);
     XContentTypeOptions := or_value "nosniff" (XContentTypeOptions o);
     ReferrerPolicy := or_value "no-referrer" (ReferrerPolicy o);
     PermissionsPolicy := or_value "camera=(), microphone=(), geolocation=()" (PermissionsPolicy o);
     CrossOriginOpenerPolicy := or_value "same-origin" (CrossOriginOpenerPolicy o);
     XSSProtection := or_value "0" (XSSProtection o);
     ContentSecurityPolicy := ContentSecurityPolicy o |}.

Definition setHeaderIfConfigured (h : header) (key value : string) : header :=
  if decide (value = "-") then h else if decide (value = "") then h else Header_Set h key value.

Definition SecurityHeadersWithOptions (options : SecurityHeadersOptions) next : handler S := λ r s w,
  let n := normalizeSecurityHeadersOptions options in
  let h := rw_header w in
  let h := setHeaderIfConfigured h "X-Frame-Options" (XFrameOptions n) in
  let h := setHeaderIfConfigured h "X-XSS-Protection" (XSSProtection n) in
  let h := setHeaderIfConfigured h "X-Content-Type-Options" (XContentTypeOptions n) in
  let h := setHeaderIfConfigured h "Referrer-Policy" (ReferrerPolicy n) in
  let h := setHeaderIfConfigured h "Permissions-Policy" (PermissionsPolicy n) in
  let h := setHeaderIfConfigured h "Cross-Origin-Opener-Policy" (CrossOriginOpenerPolicy n) in
  let h := setHeaderIfConfigured h "Content-Security-Policy" (ContentSecurityPolicy n) in
  next r s (set_header w h).

Definition SecurityHeaders next : handler S :=
  SecurityHeadersWithOptions
    {| XFrameOptions := ""; XContentTypeOptions := ""; ReferrerPolicy := ""; PermissionsPolicy := "";
       CrossOriginOpenerPolicy := ""; XSSProtection := ""; ContentSecurityPolicy := "" |} next.

(** The routes are copied with cleaned paths; of two paths with one clean form, the later
    in iteration order counts. *)
Definition clean_routes (path_Clean : string → string) (httproutes : list (string * bool)) : gmap string bool :=
  foldl (λ m pv, <[path_Clean pv.1 := pv.2]> m) ∅ httproutes.

Definition ApiMinifier (path_Clean : string → string) (c : minifierConfig) (httproutes : list (string * bool)) next
  : handler S := λ r s w,
  next r s
    (if IsApiKeyMinifierEnabled c && default false (clean_routes path_Clean httproutes !! path_Clean (r_Path r))
     then set_header w (Header_Set (rw_header w) HeaderXApiMinifier XAPIMinifierValue) else w).

(** *** Rate limiting *)

Definition extractClientKey (r : request) : string := "ratelimit:http:" +:+ GetClientIP r.

(** [allow] is the limiter's [Allow] on the state. *)
Definition RateLimitMiddleware {E} (json_Marshal : api_env → ApiResponse → string) (env : api_env)
    (allow : string → S → S * result E bool) next : handler S := λ r s w,
  let '(s, allowed) := allow (extractClientKey r) s in
  match allowed with
  | Err _ => (s, Send json_Marshal env (ApiResponse_New false InternalServerError (PValue VInvalid) "") w 500, None)
  | Ok false => (s, Send json_Marshal env (ApiResponse_New false TooManyRequests (PValue VInvalid) "") w 429, None)
  | Ok true => next r s w
  end.

(** *** Panics *)

Definition panic_message : string := "Error: An internal server error occurred.".

(** [data] is the value of [new(any)]. *)
Definition Recoverer (json_Marshal : api_env → ApiResponse → string) (env : api_env) (data : rval) next : handler S :=
  λ r s w,
  let '(s, w, p) := next r s w in
  match p with
  | None => (s, w, None)
  | Some _ =>
      if IsHttpRequest r then
        (s, Send json_Marshal env (ApiResponse_New false InternalServerError (PValue data) panic_message) w 500, None)
      else (s, w, None)
  end.

End middleware.
