(* ===== verification/HttpProps.v ===== *)
(** * The middleware: guarantees, alone and on top of the rate limiter *)

From Stdlib Require Import ZArith Lia.
From stdpp Require Import base numbers strings gmap list.
From S2P Require Import Prelude GoValue SqlText Minifier Redis RedisLimiter Http.
Local Open Scope Z_scope.

Lemma Send_unsent jm e r w code :
  rw_sent w = None → code ≠ 0 →
  ∃ h b, Send jm e r w code = {| rw_header := h; rw_sent := Some (code, h); rw_body := rw_body w +:+ b |} ∧
         h = Header_Set (rw_header w) HeaderContentType (ContentTypeJSON +:+ "; charset=UTF-8").
Proof.
  intros Hs Hc. unfold Send. destruct (Z.eqb_spec code 0); [done|]. unfold Write, WriteHeader, set_header.
  cbn [rw_sent rw_header rw_body]. rewrite Hs. cbn [rw_sent rw_header rw_body]. by eexists _, _.
Qed.

Lemma Send_status jm e r w code :
  rw_sent w = None → code ≠ 0 → (response (Send jm e r w code)).1.1 = code.
Proof. intros Hs Hc. by destruct (Send_unsent jm e r w code Hs Hc) as (h & b & -> & _). Qed.

(** Panics end at [Recoverer]: whatever the wrapped handler does, the middleware returns
    normally and without a panic changes nothing. If the handler panicked before it sent
    anything, the client of a GET or POST request (and of the other methods
    [IsHttpRequest] lists) gets the error envelope with status 500. PUT is missing from
    the list: there the panic is swallowed and the client gets an empty success. *)
Theorem Recoverer_contains_panics {S} jm env data (next : handler S) r s w s' w' p :
  next r s w = (s', w', p) →
  let '(s2, w2, p2) := Recoverer jm env data next r s w in
  s2 = s' ∧ p2 = None ∧
  match p with
  | None => w2 = w'
  | Some _ =>
      (rw_sent w' = None → IsHttpRequest r = true → (response w2).1.1 = 500) ∧
      (r_Method r = "PUT" → w2 = w' ∧ (rw_sent w' = None → (response w2).1.1 = 200))
  end.
Proof.
  intros E. unfold Recoverer. rewrite E. destruct p as [why|]; [|done].
  destruct (IsHttpRequest r) eqn:Eh; (split; [done|]; split; [done|]; split).
  - intros Hs _. by apply Send_status.
  - intros Hput. unfold IsHttpRequest in Eh. rewrite Hput in Eh. by vm_compute in Eh.
  - done.
  - intros _. split; [done|]. intros Hs. unfold response. by rewrite Hs.
Qed.

(** The rate limiting middleware on the Redis limiter: either the limiter let the request
    through and the handler answers, or the handler is not called and the client gets
    status 500, also when it has used up its tokens; 429 is never sent. *)
Theorem RateLimit_on_redis {db} `{RedisLaws db} jm env f srv now lim (next : handler db) r (d : db) w :
  rw_sent w = None →
  let '(d', allowed) := Allow f srv now lim (extractClientKey r) d in
  let served := RateLimitMiddleware jm env (Allow f srv now lim) next r d w in
  (allowed = Ok true ∧ served = next r d' w) ∨
  (∃ e w', allowed = Err e ∧ served = (d', w', None) ∧ (response w').1.1 = 500).
Proof.
  intros Hs. pose proof (Allow_not_false f srv now lim (extractClientKey r) d) as Hnf.
  unfold RateLimitMiddleware.
  destruct (Allow f srv now lim (extractClientKey r) d) as [d' [[]|e]]; cbn [snd] in Hnf; [by left|done|].
  right. eexists _, _. split; [done|]. split; [done|]. by apply Send_status.
Qed.

(** A list of requests handled one after the other; the statuses of the responses. *)
Fixpoint serve_all {S} (h : handler S) (rs : list request) (s : S) : S * list Z :=
  match rs with
  | [] => (s, [])
  | r :: rs =>
      let '(s, w, _) := h r s new_rw in
      let '(s, codes) := serve_all h rs s in
      (s, (response w).1.1 :: codes)
  end.

(** A handler that answers 200. *)
Definition ok_handler {S} : handler S := λ _ s w, (s, WriteHeader w 200, None).

(** The limit is per value of a header the client chooses. Any number of requests from one
    address pass, in the same instant, if each brings its own [X-Forwarded-For]. *)
Theorem forwarded_for_evades_limit {db} `{RedisLaws db} jm env srv now lim (rs : list request) (d : db) :
  limiter_ok lim → 0 < maxTokens lim → call_ok srv now →
  NoDup (map extractClientKey rs) → Forall (λ r, live d srv (extractClientKey r) = None) rs →
  (serve_all (RateLimitMiddleware jm env (Allow Delivered srv now lim) ok_handler) rs d).2 = replicate (length rs) 200.
Proof.
  intros Hl Hm Hc Hnd. revert d. induction rs as [|r rs IH]; intros d Hf; [done|].
  cbn [map] in Hnd. apply NoDup_cons in Hnd as [Hr Hnd]. apply Forall_cons in Hf as [Hlive Hf].
  cbn [serve_all length replicate]. unfold RateLimitMiddleware at 1.
  destruct (Allow_fresh srv now lim (extractClientKey r) d Hl Hm Hc Hlive) as (d' & -> & Ho).
  unfold ok_handler at 1. specialize (IH Hnd d').
  destruct (serve_all _ rs d') as [d'' codes]. cbn [snd] in *. rewrite IH; [done|].
  rewrite Forall_forall in Hf |- *. intros r' Hin. rewrite (live_frame d d'); [by apply Hf|].
  apply Ho. intros Ek. apply Hr. rewrite <-Ek. apply list_elem_of_fmap. eauto.
Qed.

(** The client address comes from the first non-blank element of [X-Forwarded-For]. *)
Lemma GetClientIP_forwarded r ip rest :
  Header_Get (r_Header r) "X-Forwarded-For" = ip +:+ "," +:+ rest →
  char_comma ∉ str ip → TrimSpace (str ip) = str ip → ip ≠ "" →
  GetClientIP r = ip.
Proof.
  intros Eh Hc Ht Hne. unfold GetClientIP. rewrite Eh. rewrite decide_False.
  2: { intros E. apply (f_equal String.length) in E. rewrite !string_length_app in E. cbn in E. lia. }
  assert (str (ip +:+ "," +:+ rest) = str ip ++ char_comma :: str rest) as ->.
  { clear. induction ip as [|c ip IH]; [done|]. change (c :: str (ip +:+ "," +:+ rest) = c :: (str ip ++ char_comma :: str rest)).
    by rewrite IH. }
  rewrite Split_app by done. cbn [first_nonblank]. rewrite Ht.
  destruct ip as [|c ip]; [done|]. cbn [str String.list_ascii_of_string].
  change (c :: String.list_ascii_of_string ip) with (String.list_ascii_of_string (String c ip)).
  apply String.string_of_list_ascii_of_string.
Qed.

Lemma Header_Get_Set h k v k' :
  Header_Get (Header_Set h k v) k' = if decide (CanonicalHeaderKey k = CanonicalHeaderKey k') then v else Header_Get h k'.
Proof.
  unfold Header_Get, Header_Set. case_decide as E; [by rewrite E, lookup_insert_eq|by rewrite lookup_insert_ne].
Qed.

(** Security headers are set for every option that is not switched off, before the handler
    runs. *)
Lemma SecurityHeaders_defaults {S} (next : handler S) r s w :
  ∃ h, SecurityHeaders next r s w = next r s (set_header w h) ∧
    Header_Get h "X-Frame-Options" = "DENY" ∧ Header_Get h "X-Content-Type-Options" = "nosniff" ∧
    Header_Get h "Referrer-Policy" = "no-referrer" ∧ Header_Get h "Cross-Origin-Opener-Policy" = "same-origin".
Proof.
  exists (Header_Set (Header_Set (Header_Set (Header_Set (Header_Set (Header_Set (rw_header w)
    "X-Frame-Options" "DENY") "X-XSS-Protection" "0") "X-Content-Type-Options" "nosniff")
    "Referrer-Policy" "no-referrer") "Permissions-Policy" "camera=(), microphone=(), geolocation=()")
    "Cross-Origin-Opener-Policy" "same-origin").
  split; [done|]. rewrite !Header_Get_Set. by vm_compute.
Qed.

(** ** Witnesses *)

Module HttpDemo.
Definition env : api_env :=
  {| env_minifier := SetupApiKeyMinifierConfig false None; env_heap := ∅; env_fuel := 0 |}.
Definition marshal : api_env → ApiResponse → string := λ _ r, Message r.
Definition req (method xff : string) : request :=
  {| r_Method := method; r_Path := "/"; r_RemoteAddr := "10.0.0.1:4242";
     r_Header := {["X-Forwarded-For" := [xff]]}; r_values := ∅ |}.
Definition crash : handler unit := λ _ s w, (s, w, Some "boom").
Definition limiter : RedisLimiter := {| maxTokens := 1; interval := 10 ^ 9 |}.
End HttpDemo.

Lemma Recoverer_contains_panics_witness :
  (response (Recoverer HttpDemo.marshal HttpDemo.env VInvalid HttpDemo.crash (HttpDemo.req "GET" "") tt new_rw).1.2).1.1 = 500 ∧
  (response (Recoverer HttpDemo.marshal HttpDemo.env VInvalid HttpDemo.crash (HttpDemo.req "PUT" "") tt new_rw).1.2).1.1 = 200.
Proof.
  pose proof (Recoverer_contains_panics HttpDemo.marshal HttpDemo.env VInvalid HttpDemo.crash (HttpDemo.req "GET" "")
    tt new_rw tt new_rw (Some "boom") eq_refl) as Hget.
  pose proof (Recoverer_contains_panics HttpDemo.marshal HttpDemo.env VInvalid HttpDemo.crash (HttpDemo.req "PUT" "")
    tt new_rw tt new_rw (Some "boom") eq_refl) as Hput.
  destruct (Recoverer HttpDemo.marshal HttpDemo.env VInvalid HttpDemo.crash (HttpDemo.req "GET" "") tt new_rw) as [[s1 w1] p1].
  destruct (Recoverer HttpDemo.marshal HttpDemo.env VInvalid HttpDemo.crash (HttpDemo.req "PUT" "") tt new_rw) as [[s2 w2] p2].
  destruct Hget as (_ & _ & H1 & _). destruct Hput as (_ & _ & _ & H2).
  split; [by apply H1; vm_compute|by apply H2].
Defined.

Lemma RateLimit_on_redis_witness :
  ∃ e w', (Allow Delivered 0 0 {| maxTokens := 0; interval := 10 ^ 9 |} (extractClientKey (HttpDemo.req "GET" "1.2.3.4")) (∅ : mapdb)).2
      = Err e ∧
    (RateLimitMiddleware HttpDemo.marshal HttpDemo.env (Allow Delivered 0 0 {| maxTokens := 0; interval := 10 ^ 9 |})
       ok_handler (HttpDemo.req "GET" "1.2.3.4") (∅ : mapdb) new_rw).1.2 = w' ∧
    (response w').1.1 = 500.
Proof.
  pose proof (RateLimit_on_redis HttpDemo.marshal HttpDemo.env Delivered 0 0 {| maxTokens := 0; interval := 10 ^ 9 |}
    ok_handler (HttpDemo.req "GET" "1.2.3.4") (∅ : mapdb) new_rw eq_refl) as H.
  destruct (Allow Delivered 0 0 {| maxTokens := 0; interval := 10 ^ 9 |}
    (extractClientKey (HttpDemo.req "GET" "1.2.3.4")) (∅ : mapdb)) as [d' a] eqn:Ea.
  destruct H as [[Ha _]|(e & w' & Ha & Hs & Hr)].
  - exfalso. assert (a = Err (ErrScript ENil)) as Hc by (by apply (f_equal snd) in Ea; vm_compute in Ea).
    congruence.
  - exists e, w'. split; [done|]. split; [by rewrite Hs|done].
Defined.

Lemma forwarded_for_evades_limit_witness :
  (serve_all (RateLimitMiddleware HttpDemo.marshal HttpDemo.env (Allow Delivered 0 0 HttpDemo.limiter) ok_handler)
     (map (HttpDemo.req "GET") ["1.1.1.1"; "1.1.1.2"; "1.1.1.3"]) (∅ : mapdb)).2 = [200; 200; 200].
Proof.
  apply (forwarded_for_evades_limit (db := mapdb) HttpDemo.marshal HttpDemo.env 0 0 HttpDemo.limiter
    (map (HttpDemo.req "GET") ["1.1.1.1"; "1.1.1.2"; "1.1.1.3"]) ∅).
  - unfold limiter_ok. by vm_compute.
  - done.
  - unfold call_ok. lia.
  - vm_compute. repeat (apply NoDup_cons; split; [set_solver|]). apply NoDup_nil_2.
  - repeat constructor.
Defined.
