(* ===== verification/Timeout.v ===== *)
(** * The timeout middleware ([src/middleware/timeout.go])

    The handler runs in a goroutine of its own on a buffering response writer, while the
    middleware waits for it, for a panic or for the context. [timeout_step] interleaves the
    goroutine's actions (each locked access is one), the clock, the client and the
    middleware's [select]; the response to the client is written by the middleware only.
    A handler is the list of what it does; handlers that react to write errors are
    covered, since the theorems hold for every list. *)

From Stdlib Require Import ZArith Lia.
From stdpp Require Import base numbers strings gmap list.
From S2P Require Import Prelude GoValue Minifier Http.
Local Open Scope Z_scope.

Record timeoutResponseWriter : Type := {
  t_header : header;
  t_body : string;
  t_statusCode : Z;
  t_wroteHeader : bool;
  t_timedOut : bool;
}.

Definition newTimeoutResponseWriter : timeoutResponseWriter :=
  {| t_header := ∅; t_body := ""; t_statusCode := 200; t_wroteHeader := false; t_timedOut := false |}.

Definition t_WriteHeader (t : timeoutResponseWriter) (code : Z) : timeoutResponseWriter :=
  if t_timedOut t || t_wroteHeader t then t
  else {| t_header := t_header t; t_body := t_body t; t_statusCode := code; t_wroteHeader := true;
          t_timedOut := t_timedOut t |}.

Definition errHandlerTimedOut : string := "http handler timed out".

(** [Write] and [ReadFrom] (of a reader that yields [body]): the same buffering. *)
Definition t_Write (t : timeoutResponseWriter) (body : string) : timeoutResponseWriter * result string Z :=
  if t_timedOut t then (t, Err errHandlerTimedOut)
  else
    ({| t_header := t_header t; t_body := t_body t +:+ body;
        t_statusCode := if t_wroteHeader t then t_statusCode t else 200; t_wroteHeader := true;
        t_timedOut := t_timedOut t |}, Ok (Z.of_nat (String.length body))).

Definition t_ReadFrom := t_Write.

Definition t_Flush (t : timeoutResponseWriter) : timeoutResponseWriter := t.

Definition markTimedOut (t : timeoutResponseWriter) : timeoutResponseWriter :=
  {| t_header := t_header t; t_body := t_body t; t_statusCode := t_statusCode t; t_wroteHeader := t_wroteHeader t;
     t_timedOut := true |}.

(** [copyTo], with the iteration order of the header map. *)
Definition copyTo (t : timeoutResponseWriter) (order : list (string * list string)) (w : rw) : rw :=
  if t_timedOut t then w
  else
    let h := foldl (λ h kv, foldl (λ h v, Header_Add h kv.1 v) h kv.2) (rw_header w) order in
    Write (WriteHeader (set_header w h) (t_statusCode t)) (t_body t).

(** ** The handler's goroutine *)

Inductive action : Type :=
  | ASet (k v : string)
  | AAdd (k v : string)
  | ADel (k : string)
  | AWriteHeader (code : Z)
  | AWrite (body : string)
  | AReadFrom (body : string)
  | AFlush.

Definition with_theader (t : timeoutResponseWriter) (h : header) : timeoutResponseWriter :=
  {| t_header := h; t_body := t_body t; t_statusCode := t_statusCode t; t_wroteHeader := t_wroteHeader t;
     t_timedOut := t_timedOut t |}.

Definition act (t : timeoutResponseWriter) (a : action) : timeoutResponseWriter :=
  match a with
  | ASet k v => with_theader t (Header_Set (t_header t) k v)
  | AAdd k v => with_theader t (Header_Add (t_header t) k v)
  | ADel k => with_theader t (Header_Del (t_header t) k)
  | AWriteHeader code => t_WriteHeader t code
  | AWrite body => (t_Write t body).1
  | AReadFrom body => (t_ReadFrom t body).1
  | AFlush => t_Flush t
  end.

(** What is left to do, and whether the goroutine ends in a panic. *)
Record goroutine : Type := { g_todo : list action; g_panics : option string }.

Inductive ctx_state := Live | DeadlineExceeded | Canceled.

(** The middleware: waiting in [select]; past [markTimedOut]; returned, or panicking. *)
Inductive outer_state := Waiting | Marked | Returned | Panicking (why : string).

Record sys : Type := {
  s_go : goroutine;
  s_done : bool;                 (* [done] holds a value *)
  s_panic : option string;       (* [panicCh] holds a value *)
  s_tw : timeoutResponseWriter;
  s_ctx : ctx_state;
  s_outer : outer_state;
  s_w : rw;                      (* the client's response writer *)
}.

Section system.
Context (json_Marshal : api_env → ApiResponse → string) (env : api_env).

Definition timeout_response : ApiResponse := ApiResponse_New false RequestTimeout (PValue VInvalid) "".

Inductive timeout_step : sys → sys → Prop :=
  | step_act a todo p dn pc t c o w :
      timeout_step {| s_go := {| g_todo := a :: todo; g_panics := p |}; s_done := dn; s_panic := pc; s_tw := t;
              s_ctx := c; s_outer := o; s_w := w |}
           {| s_go := {| g_todo := todo; g_panics := p |}; s_done := dn; s_panic := pc; s_tw := act t a;
              s_ctx := c; s_outer := o; s_w := w |}
  | step_finish t c o w :
      timeout_step {| s_go := {| g_todo := []; g_panics := None |}; s_done := false; s_panic := None; s_tw := t;
              s_ctx := c; s_outer := o; s_w := w |}
           {| s_go := {| g_todo := []; g_panics := None |}; s_done := true; s_panic := None; s_tw := t;
              s_ctx := c; s_outer := o; s_w := w |}
  | step_panic why t c o w :
      timeout_step {| s_go := {| g_todo := []; g_panics := Some why |}; s_done := false; s_panic := None; s_tw := t;
              s_ctx := c; s_outer := o; s_w := w |}
           {| s_go := {| g_todo := []; g_panics := Some why |}; s_done := false; s_panic := Some why; s_tw := t;
              s_ctx := c; s_outer := o; s_w := w |}
  | step_deadline g dn pc t o w :
      timeout_step {| s_go := g; s_done := dn; s_panic := pc; s_tw := t; s_ctx := Live; s_outer := o; s_w := w |}
           {| s_go := g; s_done := dn; s_panic := pc; s_tw := t; s_ctx := DeadlineExceeded; s_outer := o; s_w := w |}
  | step_cancel g dn pc t o w :
      timeout_step {| s_go := g; s_done := dn; s_panic := pc; s_tw := t; s_ctx := Live; s_outer := o; s_w := w |}
           {| s_go := g; s_done := dn; s_panic := pc; s_tw := t; s_ctx := Canceled; s_outer := o; s_w := w |}
  | select_panic g dn why t c w :
      timeout_step {| s_go := g; s_done := dn; s_panic := Some why; s_tw := t; s_ctx := c; s_outer := Waiting; s_w := w |}
           {| s_go := g; s_done := dn; s_panic := Some why; s_tw := t; s_ctx := c; s_outer := Panicking why; s_w := w |}
  | select_done g pc t c order w :
      order ≡ₚ map_to_list (t_header t) →
      timeout_step {| s_go := g; s_done := true; s_panic := pc; s_tw := t; s_ctx := c; s_outer := Waiting; s_w := w |}
           {| s_go := g; s_done := true; s_panic := pc; s_tw := t; s_ctx := c; s_outer := Returned; s_w := copyTo t order w |}
  | select_deadline g dn pc t w :
      timeout_step {| s_go := g; s_done := dn; s_panic := pc; s_tw := t; s_ctx := DeadlineExceeded; s_outer := Waiting; s_w := w |}
           {| s_go := g; s_done := dn; s_panic := pc; s_tw := markTimedOut t; s_ctx := DeadlineExceeded; s_outer := Marked; s_w := w |}
  | select_cancelled g dn pc t w :
      timeout_step {| s_go := g; s_done := dn; s_panic := pc; s_tw := t; s_ctx := Canceled; s_outer := Waiting; s_w := w |}
           {| s_go := g; s_done := dn; s_panic := pc; s_tw := t; s_ctx := Canceled; s_outer := Returned; s_w := w |}
  | step_send g dn pc t c w :
      timeout_step {| s_go := g; s_done := dn; s_panic := pc; s_tw := t; s_ctx := c; s_outer := Marked; s_w := w |}
           {| s_go := g; s_done := dn; s_panic := pc; s_tw := t; s_ctx := c; s_outer := Returned;
              s_w := Send json_Marshal env timeout_response w 408 |}.

(** [Timeout(duration)] with a positive duration starts here; otherwise the handler runs on
    the client's writer directly. *)
Definition timeout_start (g : goroutine) (w : rw) : sys :=
  {| s_go := g; s_done := false; s_panic := None; s_tw := newTimeoutResponseWriter; s_ctx := Live;
     s_outer := Waiting; s_w := w |}.

Definition bypassed (duration : Z) : bool := duration <=? 0.

(** ** Invariant *)

(** The buffer after a list of actions. *)
Definition buffered (done : list action) : timeoutResponseWriter := foldl act newTimeoutResponseWriter done.

(** Of the program [g], the prefix [ran] was executed. Until the deadline is marked the
    buffer holds exactly its output; the client's writer is untouched until the middleware
    returns, and then holds the whole output of the handler, the timeout response, or
    nothing. *)
Definition inv (g : goroutine) (w : rw) (s : sys) : Prop :=
  g_panics (s_go s) = g_panics g ∧
  (∃ ran, ran ++ g_todo (s_go s) = g_todo g ∧
     (t_timedOut (s_tw s) = false → s_tw s = buffered ran)) ∧
  (s_done s = true → g_todo (s_go s) = [] ∧ g_panics g = None) ∧
  (∀ why, s_panic s = Some why → g_todo (s_go s) = [] ∧ g_panics g = Some why) ∧
  match s_outer s with
  | Waiting => s_w s = w ∧ t_timedOut (s_tw s) = false
  | Marked => s_w s = w ∧ t_timedOut (s_tw s) = true ∧ s_ctx s = DeadlineExceeded
  | Panicking why => s_w s = w ∧ g_panics g = Some why
  | Returned =>
      (g_panics g = None ∧ ∃ order, order ≡ₚ map_to_list (t_header (buffered (g_todo g))) ∧
         s_w s = copyTo (buffered (g_todo g)) order w) ∨
      (s_ctx s = DeadlineExceeded ∧ s_w s = Send json_Marshal env timeout_response w 408) ∨
      (s_ctx s = Canceled ∧ s_w s = w)
  end.

Lemma act_timedOut t a : t_timedOut (act t a) = t_timedOut t.
Proof.
  destruct a; cbn; unfold t_WriteHeader, t_ReadFrom, t_Write, t_Flush; try done;
    repeat case_match; cbn in *; congruence.
Qed.

Lemma buffered_timedOut l : t_timedOut (buffered l) = false.
Proof.
  unfold buffered. induction l as [|a l IH] using rev_ind; [done|]. rewrite foldl_app. cbn. by rewrite act_timedOut.
Qed.

Lemma inv_start g w : inv g w (timeout_start g w).
Proof. split_and!; try done. exists []. by destruct g. Qed.

Lemma inv_step g w s s' : timeout_step s s' → inv g w s → inv g w s'.
Proof.
  destruct 1 as [a todo p dn pc t c o w0| | | | | |g' pc t c order w0 Hord|g' dn pc t w0|g' dn pc t w0|g' dn pc t c w0];
    intros (Hp & (ran & Hran & Hbuf) & Hdone & Hpan & Ho); unfold inv; cbn in *.
  - split; [done|]. split; [|split; [by intros []%Hdone|split; [by intros why []%Hpan|]]].
    + exists (ran ++ [a]). split; [by rewrite <-app_assoc|]. intros Ht. rewrite act_timedOut in Ht.
      unfold buffered. rewrite foldl_app. cbn. by rewrite Hbuf.
    + destruct o; cbn in *; rewrite ?act_timedOut; done.
  - split_and!; eauto.
  - split_and!; eauto. intros w' [= <-]. eauto.
  - split_and!; eauto. destruct o; cbn in *; naive_solver.
  - split_and!; eauto. destruct o; cbn in *; naive_solver.
  - split_and!; eauto; [apply Ho|]. by apply Hpan.
  - destruct Ho as [-> Ht]. destruct (Hdone eq_refl) as [Htodo Hnp]. split_and!; eauto.
    left. split; [done|]. rewrite Htodo, app_nil_r in Hran. subst ran. rewrite (Hbuf Ht) in Hord |- *.
    by exists order.
  - destruct Ho as [-> Ht]. split_and!; eauto. by exists ran.
  - destruct Ho as [-> Ht]. split_and!; eauto.
  - destruct Ho as (-> & Ht & ->). split_and!; eauto.
Qed.

End system.

(** ** What a handler's actions amount to *)

Fixpoint out_body (l : list action) : string :=
  match l with
  | [] => ""
  | (AWrite b | AReadFrom b) :: l => b +:+ out_body l
  | _ :: l => out_body l
  end.

Fixpoint out_status (l : list action) : Z :=
  match l with
  | [] => 200
  | AWriteHeader code :: _ => code
  | (AWrite _ | AReadFrom _) :: _ => 200
  | _ :: l => out_status l
  end.

(** The headers of the whole run, those set after the status included. *)
Definition out_header (l : list action) : header :=
  foldl (λ h a, match a with
                | ASet k v => Header_Set h k v
                | AAdd k v => Header_Add h k v
                | ADel k => Header_Del h k
                | _ => h
                end) ∅ l.

Lemma buffered_header l : t_header (buffered l) = out_header l.
Proof.
  unfold buffered, out_header. induction l as [|a l IH] using rev_ind; [done|]. rewrite !foldl_app. cbn [foldl]. rewrite <- IH.
  destruct a; cbn; try done; unfold t_WriteHeader, t_ReadFrom, t_Write, t_Flush; repeat case_match; done.
Qed.

Lemma string_app_empty_r (s : string) : s +:+ "" = s.
Proof. induction s as [|c s IH]; [done|]. change (String c (s +:+ "") = String c s). by rewrite IH. Qed.

Lemma act_body t a : t_timedOut t = false → t_body (act t a) = t_body t +:+ out_body [a].
Proof.
  intros Ht. destruct a; cbn; unfold t_WriteHeader, t_ReadFrom, t_Write, t_Flush; rewrite ?Ht; cbn;
    rewrite ?string_app_empty_r; try done. by destruct (t_wroteHeader t).
Qed.

Lemma foldl_act_body t l : t_timedOut t = false → t_body (foldl act t l) = t_body t +:+ out_body l.
Proof.
  revert t. induction l as [|a l IH]; intros t Ht; cbn [foldl]; [by rewrite string_app_empty_r|].
  rewrite IH by by rewrite act_timedOut. rewrite act_body by done. rewrite string_app_assoc. f_equal.
  destruct a; cbn [out_body]; rewrite ?string_app_empty_r; done.
Qed.

(** Once the status is written it stays; before, it is 200. *)
Lemma foldl_act_status t l :
  t_timedOut t = false → (t_wroteHeader t = false → t_statusCode t = 200) →
  t_statusCode (foldl act t l) = if t_wroteHeader t then t_statusCode t else out_status l.
Proof.
  revert t. induction l as [|a l IH]; intros t Ht Hd; cbn [foldl].
  - destruct (t_wroteHeader t) eqn:E; [done|]. by apply Hd.
  - rewrite IH; [|by rewrite act_timedOut|];
      destruct a; cbn; unfold t_WriteHeader, t_ReadFrom, t_Write, t_Flush; rewrite ?Ht; cbn;
      destruct (t_wroteHeader t) eqn:E; cbn; rewrite ?E; auto; try done.
Qed.

Lemma buffered_output l :
  t_body (buffered l) = out_body l ∧ t_statusCode (buffered l) = out_status l.
Proof. unfold buffered. by rewrite foldl_act_body, foldl_act_status. Qed.

(** ** Header names are canonical once stored *)

Lemma ascii_forall (P : Ascii.ascii → bool) :
  forallb (λ n, P (Ascii.ascii_of_nat n)) (seq 0 256) = true → ∀ c, P c = true.
Proof.
  intros H c. rewrite forallb_forall in H. rewrite <-(Ascii.ascii_nat_embedding c).
  apply H, in_seq. pose proof (Ascii.nat_ascii_bounded c). lia.
Qed.

Definition case_ok (c : Ascii.ascii) : bool :=
  bool_decide (upper (upper c) = upper c) && bool_decide (lower (lower c) = lower c) &&
  Bool.eqb (bool_decide (upper c = Ascii.ascii_of_nat 45)) (bool_decide (c = Ascii.ascii_of_nat 45)) &&
  Bool.eqb (bool_decide (lower c = Ascii.ascii_of_nat 45)) (bool_decide (c = Ascii.ascii_of_nat 45)) &&
  Bool.eqb (token_char (upper c)) (token_char c) && Bool.eqb (token_char (lower c)) (token_char c).

Lemma case_facts c :
  upper (upper c) = upper c ∧ lower (lower c) = lower c ∧
  bool_decide (upper c = Ascii.ascii_of_nat 45) = bool_decide (c = Ascii.ascii_of_nat 45) ∧
  bool_decide (lower c = Ascii.ascii_of_nat 45) = bool_decide (c = Ascii.ascii_of_nat 45) ∧
  token_char (upper c) = token_char c ∧ token_char (lower c) = token_char c.
Proof.
  assert (case_ok c = true) as H by (apply ascii_forall; by vm_compute).
  unfold case_ok in H. rewrite !andb_true_iff, !bool_decide_eq_true, !Bool.eqb_true_iff in H. tauto.
Qed.

Lemma canonical_idem up s : canonical up (canonical up s) = canonical up s.
Proof.
  revert up. induction s as [|c s IH]; intros up; [done|]. cbn [canonical].
  destruct (case_facts c) as (Hu & Hl & Hud & Hld & _). destruct up.
  - by rewrite Hu, Hud, IH.
  - by rewrite Hl, Hld, IH.
Qed.

Lemma canonical_tokens up s : forallb token_char (SqlText.str (canonical up s)) = forallb token_char (SqlText.str s).
Proof.
  revert up. induction s as [|c s IH]; intros up; [done|]. cbn [canonical].
  change (token_char (if up then upper c else lower c) &&
    forallb token_char (SqlText.str (canonical (bool_decide (c = Ascii.ascii_of_nat 45)) s))
    = token_char c && forallb token_char (SqlText.str s)).
  rewrite IH. destruct (case_facts c) as (_ & _ & _ & _ & Hu & Hl). destruct up; by rewrite ?Hu, ?Hl.
Qed.

Lemma CanonicalHeaderKey_idem k : CanonicalHeaderKey (CanonicalHeaderKey k) = CanonicalHeaderKey k.
Proof.
  unfold CanonicalHeaderKey. destruct (forallb token_char (SqlText.str k)) eqn:E; [|by rewrite E].
  by rewrite canonical_tokens, E, canonical_idem.
Qed.

Definition canonical_keys (h : header) : Prop := ∀ k vs, h !! k = Some vs → CanonicalHeaderKey k = k.

Lemma canonical_keys_insert h k vs : canonical_keys h → canonical_keys (<[CanonicalHeaderKey k := vs]> h).
Proof.
  intros Hc k' vs' [[<- _]|[_ E]]%lookup_insert_Some; [apply CanonicalHeaderKey_idem|by eapply Hc].
Qed.

Lemma buffered_canonical l : canonical_keys (t_header (buffered l)).
Proof.
  unfold buffered. induction l as [|a l IH] using rev_ind; [by intros k vs|]. rewrite foldl_app. cbn.
  set (t := foldl act newTimeoutResponseWriter l) in *.
  destruct a; cbn; unfold t_WriteHeader, t_ReadFrom, t_Write, t_Flush, Header_Set, Header_Add, Header_Del;
    try (by apply canonical_keys_insert); try (repeat case_match; done).
  intros k' vs' [_ E]%lookup_delete_Some. by eapply IH.
Qed.

(** Adding all values of some headers to others. *)
Lemma add_values h k vs k' :
  foldl (λ h v, Header_Add h k v) h vs !! k' =
    if decide (CanonicalHeaderKey k = k' ∧ vs ≠ []) then Some (default [] (h !! k') ++ vs) else h !! k'.
Proof.
  revert h. induction vs as [|v vs IH]; intros h; [by rewrite decide_False by naive_solver|].
  cbn [foldl]. rewrite IH. unfold Header_Add. destruct (decide (CanonicalHeaderKey k = k')) as [->|Hne].
  - rewrite lookup_insert_eq. cbn [default from_option id]. rewrite (decide_True (P := k' = k' ∧ v :: vs ≠ [])) by done.
    destruct vs as [|v' vs]; [by rewrite decide_False by naive_solver|].
    rewrite decide_True by done. by rewrite <-app_assoc.
  - rewrite lookup_insert_ne by done. by rewrite !decide_False by naive_solver.
Qed.

Lemma copy_headers order h k :
  NoDup order.*1 → (∀ k vs, (k, vs) ∈ order → CanonicalHeaderKey k = k) →
  foldl (λ h kv, foldl (λ h v, Header_Add h kv.1 v) h kv.2) h order !! k =
    match (list_to_map order : header) !! k with
    | Some (v :: vs) => Some (default [] (h !! k) ++ v :: vs)
    | _ => h !! k
    end.
Proof.
  intros Hnd Hc. revert h. induction order as [|[k0 vs] order IH]; intros h; [done|].
  cbn [fmap list_fmap fst] in Hnd. apply NoDup_cons in Hnd as [Hk0 Hnd].
  assert (CanonicalHeaderKey k0 = k0) as Hcan by (apply (Hc k0 vs); by left).
  cbn [foldl fst snd list_to_map foldr uncurry]. rewrite IH; [|done|intros k' vs' Hin; apply (Hc k' vs'); by right].
  rewrite add_values, Hcan. destruct (decide (k0 = k)) as [->|Hne].
  - rewrite lookup_insert_eq. rewrite (not_elem_of_list_to_map_1 (M := gmap string) order k Hk0).
    destruct vs as [|v vs]; [by rewrite decide_False by naive_solver|by rewrite decide_True].
  - rewrite lookup_insert_ne by done. by rewrite decide_False by naive_solver.
Qed.

Lemma copyTo_header l order w k :
  order ≡ₚ map_to_list (t_header (buffered l)) →
  rw_header (copyTo (buffered l) order w) !! k =
    match t_header (buffered l) !! k with
    | Some (v :: vs) => Some (default [] (rw_header w !! k) ++ v :: vs)
    | _ => rw_header w !! k
    end.
Proof.
  intros Hord. unfold copyTo. rewrite buffered_timedOut. unfold Write, WriteHeader, set_header. cbn [rw_sent].
  assert (NoDup order.*1) as Hnd by (rewrite Hord; apply NoDup_fst_map_to_list).
  assert ((list_to_map order : header) = t_header (buffered l)) as Hm.
  { rewrite (list_to_map_proper order (map_to_list (t_header (buffered l)))) by done. apply list_to_map_to_list. }
  destruct (rw_sent w); cbn [rw_header rw_sent]; rewrite copy_headers; try done; try (by rewrite Hm);
    intros k' vs' Hin; rewrite Hord in Hin; apply elem_of_map_to_list in Hin; by eapply buffered_canonical.
Qed.

Lemma inv_reachable jm env g w s : rtc (timeout_step jm env) (timeout_start g w) s → inv jm env g w s.
Proof.
  intros Hs. assert (∀ s0, rtc (timeout_step jm env) s0 s → inv jm env g w s0 → inv jm env g w s) as H.
  { intros s0. induction 1 as [s0|s0 s1 s2 Hstep _ IH]; [done|]. intros Hi. by apply IH, (inv_step _ _ _ _ s0). }
  by apply (H (timeout_start g w)), inv_start.
Qed.

Lemma returned_stays jm env s s' : s_outer s = Returned → timeout_step jm env s s' → s_outer s' = Returned ∧ s_w s' = s_w s.
Proof. intros Ho Hs. by destruct Hs; cbn in *; simplify_eq. Qed.

(** The response of a buffered run: what [WriteHeader] fixed. *)
Lemma copyTo_response l order w :
  rw_sent w = None → rw_body w = "" → order ≡ₚ map_to_list (t_header (buffered l)) →
  ∃ h, response (copyTo (buffered l) order w) = (out_status l, h, out_body l) ∧
    ∀ k, h !! k = match out_header l !! k with
                  | Some (v :: vs) => Some (default [] (rw_header w !! k) ++ v :: vs)
                  | _ => rw_header w !! k
                  end.
Proof.
  intros Hsent Hbody Hord. destruct (buffered_output l) as [Eb Es]. exists (rw_header (copyTo (buffered l) order w)). split.
  - unfold copyTo, Write, WriteHeader, set_header. rewrite buffered_timedOut. cbn [rw_sent rw_header rw_body]. rewrite Hsent.
    cbn [rw_sent rw_header rw_body response]. by rewrite Hbody, Eb, Es.
  - intros k. rewrite copyTo_header by done. by rewrite buffered_header.
Qed.

(** (C22) The client gets all of one response and nothing of another, under every
    interleaving. When the middleware returns, what the client receives is one of these: the
    response of the handler, complete, with the status, the headers and the body of its
    actions (headers set by outer middleware are kept and come first, and those the handler
    set after the status are sent too); the timeout envelope with status 408, with no header
    or byte of the handler, and only after the deadline; or an empty response with status
    200, only after the client's context was cancelled. It does not change afterwards,
    whatever the handler still does. If the handler panics, either the panic is passed on
    with nothing written, or the deadline or a cancellation came first. *)
Theorem Timeout_all_or_nothing jm env g w s :
  rw_sent w = None → rw_body w = "" → rtc (timeout_step jm env) (timeout_start g w) s →
  match s_outer s with
  | Returned =>
      (g_panics g = None ∧ ∃ h, response (s_w s) = (out_status (g_todo g), h, out_body (g_todo g)) ∧
       ∀ k, h !! k = match out_header (g_todo g) !! k with
                     | Some (v :: vs) => Some (default [] (rw_header w !! k) ++ v :: vs)
                     | _ => rw_header w !! k
                     end) ∨
      (s_ctx s = DeadlineExceeded ∧ ∃ h body, response (s_w s) = (408, h, body) ∧
         h = Header_Set (rw_header w) HeaderContentType "application/json; charset=UTF-8" ∧
         body = jm env (minified env (set_header w h) timeout_response)) ∨
      (s_ctx s = Canceled ∧ response (s_w s) = (200, rw_header w, ""))
  | Panicking why => g_panics g = Some why ∧ s_w s = w
  | _ => s_w s = w
  end ∧
  (s_outer s = Returned → ∀ s', rtc (timeout_step jm env) s s' → s_outer s' = Returned ∧ s_w s' = s_w s).
Proof.
  intros Hsent Hbody Hs. split.
  - destruct (inv_reachable _ _ _ _ _ Hs) as (_ & _ & _ & _ & Ho). destruct (s_outer s); [apply Ho|apply Ho| |].
    2: { by destruct Ho as [-> ->]. }
    destruct Ho as [(Hp & order & Hord & Hw)|[[Hc Hw]|[Hc Hw]]]; [left|right; left|right; right].
    + split; [done|]. rewrite Hw. by apply copyTo_response.
    + split; [done|]. eexists _, _. rewrite Hw. split; [|by split]. unfold Send, Write, WriteHeader, set_header.
      cbn [rw_sent rw_header rw_body Z.eqb]. rewrite Hsent. cbn [rw_sent rw_header rw_body response]. by rewrite Hbody.
    + split; [done|]. rewrite Hw. unfold response. by rewrite Hsent, Hbody.
  - intros Ho s'. induction 1 as [s0|s0 s1 s2 Hstep _ IH]; [done|].
    destruct (returned_stays _ _ _ _ Ho Hstep) as [Ho1 Hw1].
    destruct IH as [Ho2 Hw2]; [|done|]. 2: by rewrite Hw2. by eapply rtc_r.
Qed.

(** The middleware does not wait for the handler: from every reachable state in which the
    deadline has passed or the request was cancelled, it can return, without any action
    of the handler's goroutine, which may be blocked forever. *)
Theorem Timeout_returns jm env g w s :
  rtc (timeout_step jm env) (timeout_start g w) s → s_ctx s ≠ Live →
  ∃ s', rtc (timeout_step jm env) s s' ∧ s_go s' = s_go s ∧
    (s_outer s' = Returned ∨ ∃ why, s_outer s' = Panicking why).
Proof.
  intros Hs Hctx. pose proof (inv_reachable _ _ _ _ _ Hs) as (_ & _ & _ & _ & Ho).
  destruct s as [go dn pc t c o w0]. cbn in *. destruct o as [| | |why].
  - destruct c; [done| |].
    + eexists. split; [eapply rtc_l; [apply select_deadline|]; eapply rtc_l; [apply step_send|apply rtc_refl]|].
      cbn. auto.
    + eexists. split; [eapply rtc_l; [apply select_cancelled|apply rtc_refl]|]. cbn. auto.
  - eexists. split; [eapply rtc_l; [apply step_send|apply rtc_refl]|]. cbn. auto.
  - eexists. split; [apply rtc_refl|]. auto.
  - eexists. split; [apply rtc_refl|]. cbn. eauto.
Qed.

(** A request whose client went away gets an empty success: nothing is written when the
    context is cancelled, which net/http sends as status 200. *)
Lemma cancelled_answers_200 jm env g :
  ∃ s, rtc (timeout_step jm env) (timeout_start g new_rw) s ∧ s_outer s = Returned ∧ response (s_w s) = (200, ∅, "").
Proof.
  eexists. split; [eapply rtc_l; [apply step_cancel|]; eapply rtc_l; [apply select_cancelled|apply rtc_refl]|]. done.
Qed.

(** ** Witnesses *)

Module TimeoutDemo.
Definition env : api_env :=
  {| env_minifier := SetupApiKeyMinifierConfig false None; env_heap := ∅; env_fuel := 0 |}.
Definition marshal : api_env → ApiResponse → string := λ _ r, Message r.
Definition g : goroutine := {| g_todo := [ASet "x-a" "1"; AWriteHeader 201; AWrite "a"; AWrite "b"]; g_panics := None |}.
(** The handler finishes, and the middleware copies its response. *)
Definition finished : sys :=
  {| s_go := {| g_todo := []; g_panics := None |}; s_done := true; s_panic := None;
     s_tw := buffered (g_todo g); s_ctx := Live; s_outer := Returned;
     s_w := copyTo (buffered (g_todo g)) [("X-A", ["1"])] new_rw |}.
(** The deadline passes after one write. *)
Definition late : sys :=
  {| s_go := {| g_todo := [AWrite "b"]; g_panics := None |}; s_done := false; s_panic := None;
     s_tw := buffered [ASet "x-a" "1"; AWriteHeader 201; AWrite "a"]; s_ctx := DeadlineExceeded; s_outer := Waiting; s_w := new_rw |}.
End TimeoutDemo.

Lemma Timeout_all_or_nothing_witness :
  ∃ h, response (s_w TimeoutDemo.finished) = (201, h, "ab") ∧ h !! "X-A" = Some ["1"].
Proof.
  destruct (Timeout_all_or_nothing TimeoutDemo.marshal TimeoutDemo.env TimeoutDemo.g new_rw TimeoutDemo.finished) as [H _];
    [done|done| |].
  - do 5 (eapply rtc_l; [constructor|]). eapply rtc_l; [apply (select_done _ _ _ None _ Live [("X-A", ["1"])]); by vm_compute|].
    apply rtc_refl.
  - cbn [s_outer TimeoutDemo.finished] in H. destruct H as [(_ & h & Hr & Hh)|[[Hc _]|[Hc _]]]; [|discriminate Hc..].
    exists h. split; [exact Hr|]. rewrite Hh. by vm_compute.
Defined.

Lemma Timeout_returns_witness :
  ∃ s', rtc (timeout_step TimeoutDemo.marshal TimeoutDemo.env) TimeoutDemo.late s' ∧ s_go s' = s_go TimeoutDemo.late ∧
    (s_outer s' = Returned ∨ ∃ why, s_outer s' = Panicking why).
Proof.
  apply (Timeout_returns TimeoutDemo.marshal TimeoutDemo.env TimeoutDemo.g new_rw TimeoutDemo.late); [|done].
  do 3 (eapply rtc_l; [apply step_act|]). eapply rtc_l; [apply step_deadline|]. apply rtc_refl.
Defined.
