(* ===== verification/Compressor.v ===== *)
(** * The compression middleware ([src/middleware/compressor.go])

    Registration and negotiation of encoders, the response writer that decides at the
    first [WriteHeader] whether to compress, and the whole handler. The compression
    algorithms belong to the Go library: whether a constructor accepts the level, and what
    a stream of bytes becomes when the encoder is closed, are parameters. A wrapped handler
    is the list of its actions on the writer ([Timeout.v]). *)

From Stdlib Require Import ZArith Lia Ascii.
From stdpp Require Import base numbers strings gmap list.
From S2P Require Import Prelude GoValue SqlText Minifier Http Timeout.
Local Open Scope Z_scope.

Definition lowercase (s : string) : string := String.string_of_list_ascii (map lower (str s)).

(** [strings.Contains]. *)
Fixpoint contains (s sub : text) : bool :=
  HasPrefix s sub || match s with [] => false | _ :: s => contains s sub end.

Definition has_suffix (s suffix : text) : bool := HasPrefix (reverse s) (reverse suffix).
Definition trim_suffix (s suffix : text) : text :=
  if has_suffix s suffix then take (length s - length suffix) s else s.

(** ** Encoders *)

(** An [EncoderFunc]: the algorithm, the levels its constructor accepts (it returns nil for
    others) and whether its writers can be reset. *)
Record EncoderFunc : Type := {
  fn_algorithm : string;
  fn_accepts : Z → bool;
  fn_resets : bool;
}.

Record Compressor : Type := {
  encoders : gmap string EncoderFunc;
  pooledEncoders : gmap string EncoderFunc;
  allowedTypes : gset string;
  allowedWildcards : gset string;
  encodingPrecedence : list string;
  level : Z;
}.

(** Names are registered once each, so the loop finds at most one entry to drop. *)
Definition drop_name (name : string) (l : list string) : list string := filter (λ v, v ≠ name) l.

Definition SetEncoder (c : Compressor) (encoding : string) (fn : option EncoderFunc) : outcome Compressor :=
  let encoding := lowercase encoding in
  if decide (encoding = "") then Panic "the encoding can not be empty"
  else
    match fn with
    | None => Panic "attempted to set a nil encoder function"
    | Some fn =>
        let pooled := delete encoding (pooledEncoders c) in
        let plain := delete encoding (encoders c) in
        let pooled := if fn_accepts fn (level c) then <[encoding := fn]> pooled else pooled in
        let plain := if pooled !! encoding is Some _ then plain else <[encoding := fn]> plain in
        Ret {| encoders := plain; pooledEncoders := pooled; allowedTypes := allowedTypes c;
               allowedWildcards := allowedWildcards c;
               encodingPrecedence := encoding :: drop_name encoding (encodingPrecedence c); level := level c |}
    end.

Definition defaultCompressibleContentTypes : list string :=
  ["text/html"; "text/css"; "text/plain"; "application/javascript"; "application/json"; "text/javascript";
   "application/x-javascript"; "application/atom+xml"; "application/rss+xml"; "image/svg+xml"].

Definition wildcard : text := str "/*".
Definition star : ascii := char 42.

Fixpoint content_types (types : list string) (ts ws : gset string) : outcome (gset string * gset string) :=
  match types with
  | [] => Ret (ts, ws)
  | t :: types =>
      if has star (trim_suffix (str t) wildcard) then
        Panic "middleware/compress: Unsupported content-type wildcard pattern"
      else if has_suffix (str t) wildcard then
        content_types types ts ({[String.string_of_list_ascii (trim_suffix (str t) wildcard)]} ∪ ws)
      else content_types types ({[t]} ∪ ts) ws
  end.

(** The writer constructors of the Go library. *)
Record go_library : Type := {
  flate_accepts : Z → bool;
  gzip_accepts : Z → bool;
  compressed : string → Z → string → string;    (* algorithm, level, bytes written *)
}.

Section compressor.
Context (lib : go_library).

Definition encoderDeflate : EncoderFunc :=
  {| fn_algorithm := "deflate"; fn_accepts := flate_accepts lib; fn_resets := true |}.
Definition encoderGzip : EncoderFunc :=
  {| fn_algorithm := "gzip"; fn_accepts := gzip_accepts lib; fn_resets := true |}.

Definition NewCompressor (lvl : Z) (types : list string) : outcome Compressor :=
  tw ← (match types with
        | [] => Ret (list_to_set defaultCompressibleContentTypes, ∅)
        | _ => content_types types ∅ ∅
        end);
  let c := {| encoders := ∅; pooledEncoders := ∅; allowedTypes := tw.1; allowedWildcards := tw.2;
              encodingPrecedence := []; level := lvl |} in
  c ← SetEncoder c "deflate" (Some encoderDeflate);
  SetEncoder c "gzip" (Some encoderGzip).

(** ** Negotiation *)

Definition matchAcceptEncoding (accepted : list text) (encoding : string) : bool :=
  existsb (λ v, contains v (str encoding)) accepted.

(** The encoder (with what it wraps), if any, and its name. An encoder that cannot be reset
    panics when it is taken from its pool; a constructor that refuses the level returns a
    nil encoder with the name. *)
Fixpoint select_from (c : Compressor) (accepted : list text) (names : list string)
  : outcome (option EncoderFunc * string) :=
  match names with
  | [] => Ret (None, "")
  | name :: names =>
      if matchAcceptEncoding accepted name then
        match pooledEncoders c !! name with
        | Some fn => if fn_resets fn then Ret (Some fn, name) else Panic "interface conversion: missing method Reset"
        | None =>
            match encoders c !! name with
            | Some fn => Ret (if fn_accepts fn (level c) then Some fn else None, name)
            | None => select_from c accepted names
            end
        end
      else select_from c accepted names
  end.

Definition selectEncoder (c : Compressor) (h : header) : outcome (option EncoderFunc * string) :=
  select_from c (Split (map lower (str (Header_Get h "Accept-Encoding"))) char_comma) (encodingPrecedence c).

(** ** The writer *)

Record compressResponseWriter : Type := {
  cw_rw : rw;                        (* the embedded response writer *)
  cw_encoder : option EncoderFunc;   (* [cw.w], if it is an encoder *)
  cw_encoding : string;
  cw_wroteHeader : bool;
  cw_compressable : bool;
  cw_stream : string;                (* the bytes the encoder was given *)
}.

Definition cw_with_rw (cw : compressResponseWriter) (w : rw) : compressResponseWriter :=
  {| cw_rw := w; cw_encoder := cw_encoder cw; cw_encoding := cw_encoding cw; cw_wroteHeader := cw_wroteHeader cw;
     cw_compressable := cw_compressable cw; cw_stream := cw_stream cw |}.

Definition until (sep : ascii) (s : text) : text := hd [] (Split s sep).

Definition isCompressable (c : Compressor) (h : header) : bool :=
  let contentType := until (char 59) (str (Header_Get h HeaderContentType)) in
  if decide (String.string_of_list_ascii contentType ∈ allowedTypes c) then true
  else
    match first_index (char 47) contentType with
    | Some (S i) => bool_decide (String.string_of_list_ascii (take (S i) contentType) ∈ allowedWildcards c)
    | _ => false
    end.

Definition HeaderContentEncoding : string := "Content-Encoding".

Definition cw_WriteHeader (c : Compressor) (cw : compressResponseWriter) (code : Z) : compressResponseWriter :=
  if cw_wroteHeader cw then cw_with_rw cw (WriteHeader (cw_rw cw) code)
  else
    let h := rw_header (cw_rw cw) in
    let finish (comp : bool) (h : header) :=
      {| cw_rw := WriteHeader (set_header (cw_rw cw) h) code; cw_encoder := cw_encoder cw;
         cw_encoding := cw_encoding cw; cw_wroteHeader := true; cw_compressable := comp; cw_stream := cw_stream cw |} in
    if negb (bool_decide (Header_Get h HeaderContentEncoding = "")) then finish (cw_compressable cw) h
    else if negb (isCompressable c h) then finish false h
    else if decide (cw_encoding cw = "") then finish (cw_compressable cw) h
    else
      let h := Header_Set h HeaderContentEncoding (cw_encoding cw) in
      let h := Header_Add h "Vary" HeaderContentEncoding in
      let h := Header_Del h "Content-Length" in
      finish true h.

(** [cw.writer().Write(p)]: to the encoder, or straight on. *)
Definition cw_Write (c : Compressor) (cw : compressResponseWriter) (p : string) : compressResponseWriter :=
  let cw := if cw_wroteHeader cw then cw else cw_WriteHeader c cw 200 in
  if cw_compressable cw then
    match cw_encoder cw with
    | Some _ =>
        {| cw_rw := cw_rw cw; cw_encoder := cw_encoder cw; cw_encoding := cw_encoding cw;
           cw_wroteHeader := cw_wroteHeader cw; cw_compressable := cw_compressable cw; cw_stream := cw_stream cw +:+ p |}
    | None => cw_with_rw cw (Write (cw_rw cw) p)
    end
  else cw_with_rw cw (Write (cw_rw cw) p).

(** [Flush]: before the first [WriteHeader] it reaches the embedded writer, which sends the
    header; afterwards it changes only when bytes are sent. *)
Definition cw_Flush (cw : compressResponseWriter) : compressResponseWriter :=
  cw_with_rw cw (WriteHeader (cw_rw cw) 200).

(** [Close]: the encoder writes what it made of its input. *)
Definition cw_Close (c : Compressor) (cw : compressResponseWriter) : compressResponseWriter :=
  if cw_compressable cw then
    match cw_encoder cw with
    | Some fn => cw_with_rw cw (Write (cw_rw cw) (compressed lib (fn_algorithm fn) (level c) (cw_stream cw)))
    | None => cw
    end
  else cw.

Definition cw_act (c : Compressor) (cw : compressResponseWriter) (a : action) : compressResponseWriter :=
  let on_header f := cw_with_rw cw (set_header (cw_rw cw) (f (rw_header (cw_rw cw)))) in
  match a with
  | ASet k v => on_header (λ h, Header_Set h k v)
  | AAdd k v => on_header (λ h, Header_Add h k v)
  | ADel k => on_header (λ h, Header_Del h k)
  | AWriteHeader code => cw_WriteHeader c cw code
  | AWrite p | AReadFrom p => cw_Write c cw p
  | AFlush => cw_Flush cw
  end.

(** [Handler]. *)
Definition Compressor_Handler (c : Compressor) (r : request) (program : list action) (w : rw) : outcome rw :=
  e ← selectEncoder c (r_Header r);
  let cw := {| cw_rw := w; cw_encoder := e.1; cw_encoding := e.2; cw_wroteHeader := false;
               cw_compressable := false; cw_stream := "" |} in
  Ret (cw_rw (cw_Close c (foldl (cw_act c) cw program))).

End compressor.

(** ** What the client receives *)

(** The header at the first [WriteHeader] or write, and whether there is one. *)
Fixpoint header_at (h : header) (l : list action) : header :=
  match l with
  | [] => h
  | ASet k v :: l => header_at (Header_Set h k v) l
  | AAdd k v :: l => header_at (Header_Add h k v) l
  | ADel k :: l => header_at (Header_Del h k) l
  | AFlush :: l => header_at h l
  | _ => h
  end.

Fixpoint writes (l : list action) : bool :=
  match l with
  | [] => false
  | (AWriteHeader _ | AWrite _ | AReadFrom _) :: _ => true
  | _ :: l => writes l
  end.

(** No [Flush] before that. *)
Fixpoint no_early_flush (l : list action) : bool :=
  match l with
  | [] => true
  | AFlush :: _ => false
  | (ASet _ _ | AAdd _ _ | ADel _) :: l => no_early_flush l
  | _ => true
  end.

Section proofs.
Context (lib : go_library) (c : Compressor).

(** After the header: writes are appended to the encoder's input or to the body. *)
Lemma acts_after_header l cw x :
  cw_wroteHeader cw = true → rw_sent (cw_rw cw) = Some x →
  let cw' := foldl (cw_act c) cw l in
  rw_sent (cw_rw cw') = Some x ∧ cw_compressable cw' = cw_compressable cw ∧ cw_encoder cw' = cw_encoder cw ∧
  if cw_compressable cw && (if cw_encoder cw is Some _ then true else false) then
    cw_stream cw' = cw_stream cw +:+ out_body l ∧ rw_body (cw_rw cw') = rw_body (cw_rw cw)
  else rw_body (cw_rw cw') = rw_body (cw_rw cw) +:+ out_body l.
Proof.
  revert cw. induction l as [|a l IH]; intros cw Hw Hs; cbn [foldl].
  - rewrite !string_app_empty_r. split_and!; try done. by case_match.
  - assert (cw_wroteHeader (cw_act c cw a) = true ∧ rw_sent (cw_rw (cw_act c cw a)) = Some x ∧
      cw_compressable (cw_act c cw a) = cw_compressable cw ∧ cw_encoder (cw_act c cw a) = cw_encoder cw ∧
      if cw_compressable cw && (if cw_encoder cw is Some _ then true else false) then
        cw_stream (cw_act c cw a) = cw_stream cw +:+ out_body [a] ∧ rw_body (cw_rw (cw_act c cw a)) = rw_body (cw_rw cw)
      else rw_body (cw_rw (cw_act c cw a)) = rw_body (cw_rw cw) +:+ out_body [a]) as (H1 & H2 & H3 & H4 & H5).
    { destruct cw as [w e en wr comp st]. cbn in Hw, Hs. subst wr.
      destruct a, comp, e; cbn; unfold cw_Write, cw_WriteHeader, cw_Flush, cw_with_rw, Write, WriteHeader, set_header; cbn;
        rewrite ?Hs; cbn; rewrite ?string_app_empty_r; done. }
    destruct (IH _ H1 H2) as (H6 & H7 & H8 & H9). rewrite H3, H4 in *.
    assert (out_body (a :: l) = out_body [a] +:+ out_body l) as Hb
      by (destruct a; cbn [out_body]; rewrite ?string_app_empty_r; done).
    rewrite Hb. split_and!; try done. case_match.
    + destruct H5 as [H5 H5'], H9 as [H9 H9']. rewrite H9, H5, H9', string_app_assoc. done.
    + by rewrite H9, H5, string_app_assoc.
Qed.

(** The decision. *)
Definition squeezes (h : header) (name : string) : bool :=
  bool_decide (Header_Get h HeaderContentEncoding = "") && isCompressable c h && bool_decide (name ≠ "").

Definition squeezed_header (h : header) (name : string) : header :=
  Header_Del (Header_Add (Header_Set h HeaderContentEncoding name) "Vary" HeaderContentEncoding) "Content-Length".

Definition fresh_cw (w : rw) (e : option EncoderFunc) (name : string) : compressResponseWriter :=
  {| cw_rw := w; cw_encoder := e; cw_encoding := name; cw_wroteHeader := false; cw_compressable := false; cw_stream := "" |}.

Lemma first_WriteHeader w e name code :
  let h := rw_header w in
  let h' := if squeezes h name then squeezed_header h name else h in
  cw_WriteHeader c (fresh_cw w e name) code =
    {| cw_rw := WriteHeader (set_header w h') code;
       cw_encoder := e; cw_encoding := name; cw_wroteHeader := true; cw_compressable := squeezes h name; cw_stream := "" |}.
Proof.
  unfold cw_WriteHeader, fresh_cw, squeezes, squeezed_header.
  cbn [cw_wroteHeader cw_rw cw_encoding cw_encoder cw_compressable cw_stream].
  destruct (bool_decide (Header_Get (rw_header w) HeaderContentEncoding = "")); cbn [negb andb]; [|done].
  destruct (isCompressable c (rw_header w)); cbn [negb andb]; [|done].
  case_decide; [by rewrite bool_decide_eq_false_2 by tauto|by rewrite bool_decide_eq_true_2].
Qed.

(** Finishing a response whose header was just written. *)
Lemma finish_response l cw x :
  cw_wroteHeader cw = true → rw_sent (cw_rw cw) = Some x → rw_body (cw_rw cw) = "" → cw_stream cw = "" →
  let w' := cw_rw (cw_Close lib c (foldl (cw_act c) cw l)) in
  rw_sent w' = Some x ∧
  rw_body w' = match cw_encoder cw with
               | Some fn => if cw_compressable cw then compressed lib (fn_algorithm fn) (level c) (out_body l) else out_body l
               | None => out_body l
               end.
Proof.
  intros Hw Hs Hb Hst. destruct (acts_after_header l cw x Hw Hs) as (H1 & H2 & H3 & H4).
  unfold cw_Close. rewrite H2, H3, Hb, Hst in *.
  destruct (cw_compressable cw), (cw_encoder cw) as [fn|]; cbn [andb] in H4.
  - destruct H4 as [H4 H5]. unfold cw_with_rw, Write, WriteHeader. cbn [cw_rw]. rewrite H1. cbn [rw_sent rw_body].
    by rewrite H4, H5.
  - by rewrite H1, H4.
  - by rewrite H1, H4.
  - by rewrite H1, H4.
Qed.

Lemma started_response l w e name code :
  rw_sent w = None → rw_body w = "" →
  let w' := cw_rw (cw_Close lib c (foldl (cw_act c) (cw_WriteHeader c (fresh_cw w e name) code) l)) in
  let h := rw_header w in
  let sq := squeezes h name in
  rw_sent w' = Some (code, if sq then squeezed_header h name else h) ∧
  rw_body w' = match e with
               | Some fn => if sq then compressed lib (fn_algorithm fn) (level c) (out_body l) else out_body l
               | None => out_body l
               end.
Proof.
  intros Hs Hb. rewrite first_WriteHeader. unfold WriteHeader. cbn [set_header rw_sent]. rewrite Hs.
  by apply finish_response.
Qed.

(** A write before the header is a [WriteHeader(200)] and the write. *)
Lemma first_Write w e name p :
  cw_Write c (fresh_cw w e name) p = cw_Write c (cw_WriteHeader c (fresh_cw w e name) 200) p.
Proof.
  unfold cw_Write. cbn [fresh_cw cw_wroteHeader]. fold (fresh_cw w e name). by rewrite first_WriteHeader.
Qed.

Lemma handler_response l : ∀ w e name,
  rw_sent w = None → rw_body w = "" → no_early_flush l = true →
  let w' := cw_rw (cw_Close lib c (foldl (cw_act c) (fresh_cw w e name) l)) in
  let h := header_at (rw_header w) l in
  if writes l then
    let sq := squeezes h name in
    rw_sent w' = Some (out_status l, if sq then squeezed_header h name else h) ∧
    rw_body w' = match e with
                 | Some fn => if sq then compressed lib (fn_algorithm fn) (level c) (out_body l) else out_body l
                 | None => out_body l
                 end
  else rw_sent w' = None ∧ rw_body w' = "".
Proof.
  induction l as [|a l IH]; intros w e name Hs Hb Hf; [done|].
  destruct a as [k v|k v|k|code|p|p|]; cbn [foldl writes header_at out_status no_early_flush cw_act] in *; [| | | | | |done].
  - apply (IH (set_header w (Header_Set (rw_header w) k v)) e name); done.
  - apply (IH (set_header w (Header_Add (rw_header w) k v)) e name); done.
  - apply (IH (set_header w (Header_Del (rw_header w) k)) e name); done.
  - apply (started_response l w e name code); done.
  - rewrite first_Write. apply (started_response (AWrite p :: l) w e name 200); done.
  - rewrite first_Write. apply (started_response (AReadFrom p :: l) w e name 200); done.
Qed.

Lemma squeezed_encoding h name : Header_Get (squeezed_header h name) HeaderContentEncoding = name.
Proof.
  unfold squeezed_header, Header_Get, Header_Del, Header_Add, Header_Set.
  rewrite lookup_delete_ne by by vm_compute. rewrite lookup_insert_ne by by vm_compute. by rewrite lookup_insert_eq.
Qed.

Lemma squeezed_length h name : Header_Get (squeezed_header h name) "Content-Length" = "".
Proof. unfold squeezed_header, Header_Get, Header_Del. by rewrite lookup_delete_eq. Qed.

(** *** Negotiation *)

(** Registered names: distinct, each with an encoder in one of the maps. *)
Definition compressor_ok : Prop :=
  NoDup (encodingPrecedence c) ∧
  ∀ name, name ∈ encodingPrecedence c ↔ is_Some (pooledEncoders c !! name) ∨ is_Some (encoders c !! name).

End proofs.

Lemma SetEncoder_ok c name fn c' :
  compressor_ok c → SetEncoder c name (Some fn) = Ret c' → compressor_ok c' ∧ lowercase name ∈ encodingPrecedence c'.
Proof.
  intros [Hnd Hreg]. unfold SetEncoder. case_decide; [done|]. set (n := lowercase name). intros [= <-].
  unfold compressor_ok. cbn [encodingPrecedence pooledEncoders encoders]. split; [|by left]. split.
  - apply NoDup_cons. split; [|by apply NoDup_filter]. unfold drop_name. rewrite list_elem_of_filter. naive_solver.
  - intros m. rewrite elem_of_cons. unfold drop_name. rewrite list_elem_of_filter, Hreg.
    destruct (decide (m = n)) as [->|Hne].
    + split; [intros _|by left]. destruct (fn_accepts fn (level c)); [left; rewrite lookup_insert_eq; by eexists|].
      right. rewrite lookup_delete_eq, lookup_insert_eq. by eexists.
    + assert ((if fn_accepts fn (level c) then <[n:=fn]> (delete n (pooledEncoders c)) else delete n (pooledEncoders c)) !! m
        = pooledEncoders c !! m) as ->.
      { case_match; rewrite ?lookup_insert_ne, lookup_delete_ne by done; done. }
      assert ((if (if fn_accepts fn (level c) then <[n:=fn]> (delete n (pooledEncoders c)) else delete n (pooledEncoders c)) !! n
        is Some _ then delete n (encoders c) else <[n:=fn]> (delete n (encoders c))) !! m = encoders c !! m) as ->.
      { case_match; rewrite ?lookup_insert_ne, lookup_delete_ne by done; done. }
      naive_solver.
Qed.

(** A new compressor prefers gzip; with a level the library accepts both its encoders are
    pooled. *)
Lemma NewCompressor_encoders lib lvl types c :
  NewCompressor lib lvl types = Ret c → gzip_accepts lib lvl = true → flate_accepts lib lvl = true →
  encodingPrecedence c = ["gzip"; "deflate"] ∧ level c = lvl ∧
  pooledEncoders c !! "gzip" = Some (encoderGzip lib) ∧ pooledEncoders c !! "deflate" = Some (encoderDeflate lib).
Proof.
  unfold NewCompressor. destruct (match types with [] => _ | _ => _ end) as [tw|]; [cbn [mbind outcome_bind]|done].
  unfold SetEncoder. change (lowercase "deflate") with "deflate". change (lowercase "gzip") with "gzip".
  cbn [mbind outcome_bind fn_accepts encoderDeflate encoderGzip level pooledEncoders encoders fst snd].
  repeat (rewrite decide_False by done). cbn [mbind outcome_bind level pooledEncoders encoders encodingPrecedence].
  rewrite decide_False by done. intros [= <-] Hg Hd. cbn [level pooledEncoders encodingPrecedence]. rewrite Hg, Hd.
  split_and!; [done|done|by rewrite lookup_insert_eq|].
  rewrite lookup_insert_ne, lookup_delete_ne by done. by rewrite lookup_insert_eq.
Qed.

(** The encoding the request asks for, gzip first. *)
Definition wanted (r : request) : string :=
  let accepted := Split (map lower (str (Header_Get (r_Header r) "Accept-Encoding"))) char_comma in
  if matchAcceptEncoding accepted "gzip" then "gzip"
  else if matchAcceptEncoding accepted "deflate" then "deflate" else "".

Lemma wanted_cases r : wanted r = "gzip" ∨ wanted r = "deflate" ∨ wanted r = "".
Proof. unfold wanted. repeat case_match; auto. Qed.

Lemma selectEncoder_wanted lib lvl types c r :
  NewCompressor lib lvl types = Ret c → gzip_accepts lib lvl = true → flate_accepts lib lvl = true →
  selectEncoder c (r_Header r) =
    Ret (if decide (wanted r = "gzip") then Some (encoderGzip lib) else if decide (wanted r = "deflate") then Some (encoderDeflate lib) else None, wanted r).
Proof.
  intros Hc Hg Hd. destruct (NewCompressor_encoders _ _ _ _ Hc Hg Hd) as (Hp & _ & Eg & Ed).
  unfold selectEncoder, wanted. rewrite Hp. cbn [select_from]. rewrite Eg, Ed. by repeat case_match.
Qed.


(** The default compressor: gzip is preferred, and built only for accepted levels. *)
Lemma NewCompressor_default lib lvl c :
  NewCompressor lib lvl [] = Ret c →
  encodingPrecedence c = ["gzip"; "deflate"] ∧ level c = lvl ∧
  allowedTypes c = list_to_set defaultCompressibleContentTypes ∧
  (pooledEncoders c !! "gzip" = if gzip_accepts lib lvl then Some (encoderGzip lib) else None) ∧
  (encoders c !! "gzip" = if gzip_accepts lib lvl then None else Some (encoderGzip lib)).
Proof.
  unfold NewCompressor, SetEncoder. cbn [mbind outcome_bind].
  change (lowercase "deflate") with "deflate". change (lowercase "gzip") with "gzip".
  cbn [mbind outcome_bind fn_accepts encoderDeflate encoderGzip level pooledEncoders encoders fst snd].
  repeat (rewrite decide_False by done). cbn [mbind outcome_bind level pooledEncoders encoders encodingPrecedence].
  rewrite decide_False by done. intros [= <-]. cbn [level pooledEncoders encoders encodingPrecedence allowedTypes].
  split; [done|]. split; [done|]. split; [done|]. destruct (gzip_accepts lib lvl); rewrite ?lookup_insert_eq; split;
    rewrite ?lookup_delete_eq; try done; by rewrite lookup_insert_eq.
Qed.

Lemma select_gzip lib lvl c h :
  NewCompressor lib lvl [] = Ret c → Header_Get h "Accept-Encoding" = "gzip" →
  selectEncoder c h = Ret (if gzip_accepts lib lvl then Some (encoderGzip lib) else None, "gzip").
Proof.
  intros Hc Hacc. destruct (NewCompressor_default lib lvl c Hc) as (Hp & Hl & _ & Hpool & Henc).
  unfold selectEncoder. rewrite Hacc, Hp. cbn [select_from].
  assert (matchAcceptEncoding (Split (map lower (str "gzip")) char_comma) "gzip" = true) as -> by by vm_compute.
  rewrite Hpool, Henc, Hl. destruct (gzip_accepts lib lvl) eqn:E; [done|]. cbn. by rewrite E.
Qed.

Lemma json_compressable lib lvl c :
  NewCompressor lib lvl [] = Ret c →
  isCompressable c (Header_Set ∅ "Content-Type" "application/json") = true.
Proof.
  intros Hc. destruct (NewCompressor_default lib lvl c Hc) as (_ & _ & Ht & _). unfold isCompressable. rewrite Ht.
  by rewrite decide_True by by vm_compute.
Qed.

(** Two ways to a response that cannot be decoded. With a compression level the library
    refuses, the middleware still announces gzip and sends the plain body. And a handler
    that flushes before it writes has its header sent without [Content-Encoding], after
    which the body is compressed all the same. *)
Theorem Compressor_mislabels lib lvl c r body :
  NewCompressor lib lvl [] = Ret c → Header_Get (r_Header r) "Accept-Encoding" = "gzip" →
  let json := ASet "Content-Type" "application/json" in
  (gzip_accepts lib lvl = false →
     ∃ w', Compressor_Handler lib c r [json; AWrite body] new_rw = Ret w' ∧
       Header_Get (response w').1.2 HeaderContentEncoding = "gzip" ∧ rw_body w' = body) ∧
  (gzip_accepts lib lvl = true →
     ∃ w', Compressor_Handler lib c r [json; AFlush; AWrite body] new_rw = Ret w' ∧
       Header_Get (response w').1.2 HeaderContentEncoding = "" ∧ rw_body w' = compressed lib "gzip" lvl body).
Proof.
  intros Hc Hacc json. pose proof (json_compressable lib lvl c Hc) as Hjson.
  destruct (NewCompressor_default lib lvl c Hc) as (_ & Hl & _).
  unfold Compressor_Handler. rewrite (select_gzip lib lvl c _ Hc Hacc).
  set (h := Header_Set ∅ "Content-Type" "application/json") in *.
  assert (squeezes c h "gzip" = true) as Hsq by (unfold squeezes; rewrite Hjson; by vm_compute).
  split; intros Hg; rewrite Hg; cbn [mbind outcome_bind fst snd]; eexists; (split; [done|]).
  - destruct (handler_response lib c [json; AWrite body] new_rw None "gzip" eq_refl eq_refl eq_refl) as [H1 H2].
    change (header_at (rw_header new_rw) [json; AWrite body]) with h in H1. rewrite Hsq in H1.
    unfold response. fold (fresh_cw new_rw None "gzip"). rewrite H1, H2.
    split; [by vm_compute|]. apply string_app_empty_r.
  - set (w := {| rw_header := h; rw_sent := Some (200, h); rw_body := "" |}).
    fold (fresh_cw new_rw (Some (encoderGzip lib)) "gzip").
    change (foldl (cw_act c) (fresh_cw new_rw (Some (encoderGzip lib)) "gzip") [json; AFlush; AWrite body])
      with (cw_Write c (fresh_cw w (Some (encoderGzip lib)) "gzip") body).
    rewrite first_Write, first_WriteHeader. change (rw_header w) with h. rewrite Hsq.
    destruct (finish_response lib c [AWrite body]
      {| cw_rw := WriteHeader (set_header w (squeezed_header h "gzip")) 200; cw_encoder := Some (encoderGzip lib);
         cw_encoding := "gzip"; cw_wroteHeader := true; cw_compressable := true; cw_stream := "" |}
      (200, h) eq_refl eq_refl eq_refl eq_refl) as [H1 H2].
    cbn [foldl cw_act] in H1, H2. unfold response. rewrite H1, H2, Hl. split; [by vm_compute|].
    cbn [cw_encoder cw_compressable encoderGzip fn_algorithm out_body]. by rewrite string_app_empty_r.
Qed.

(** ** Witnesses *)

Module CompressorDemo.
(** A library that accepts levels up to 9 and marks what it compressed. *)
Definition lib : go_library :=
  {| flate_accepts := λ l, l <=? 9; gzip_accepts := λ l, l <=? 9; compressed := λ a _ b, a +:+ ":" +:+ b |}.
Definition decode (name body : string) : option string :=
  if decide (name = "") then Some body
  else if decide (name = "gzip") then Some (String.substring 5 (String.length body - 5) body)
  else Some (String.substring 8 (String.length body - 8) body).
Lemma substring_full b : String.substring 0 (String.length b) b = b.
Proof. induction b as [|x b IH]; [done|]. cbn. by rewrite IH. Qed.

Lemma decode_gzip b : decode "gzip" (compressed lib "gzip" 5 b) = Some b.
Proof.
  change (Some (String.substring 0 (String.length b - 0) b) = Some b). by rewrite Nat.sub_0_r, substring_full.
Qed.
Lemma decode_deflate b : decode "deflate" (compressed lib "deflate" 5 b) = Some b.
Proof.
  change (Some (String.substring 0 (String.length b - 0) b) = Some b). by rewrite Nat.sub_0_r, substring_full.
Qed.
Definition c (lvl : Z) : Compressor :=
  match NewCompressor lib lvl [] with
  | Ret c => c
  | Panic _ => {| encoders := ∅; pooledEncoders := ∅; allowedTypes := ∅; allowedWildcards := ∅;
                  encodingPrecedence := []; level := 0 |}
  end.
Definition req : request :=
  {| r_Method := "GET"; r_Path := "/"; r_RemoteAddr := ""; r_Header := {["Accept-Encoding" := ["gzip"]]}; r_values := ∅ |}.
Definition program : list action := [ASet "Content-Type" "text/html; charset=UTF-8"; AWrite "a"; AWrite "b"].
Definition served : rw :=
  match Compressor_Handler lib (c 5) req program new_rw with Ret w => w | Panic _ => new_rw end.
End CompressorDemo.


Lemma Compressor_mislabels_witness :
  ∃ w', Compressor_Handler CompressorDemo.lib (CompressorDemo.c 42) CompressorDemo.req
      [ASet "Content-Type" "application/json"; AWrite "{}"] new_rw = Ret w' ∧
    Header_Get (response w').1.2 HeaderContentEncoding = "gzip" ∧ rw_body w' = "{}".
Proof.
  apply (Compressor_mislabels CompressorDemo.lib 42 (CompressorDemo.c 42) CompressorDemo.req "{}"); [|done..].
  by vm_compute.
Defined.
