(* ===== verification/HttpServer.v ===== *)
(** * The HTTP server ([src/server/http/httpserver.go], [serverconfig.go])

    Configuration defaults and validation, registration of middleware and routes, and the
    life of a server from construction to shutdown. The router (chi) is not part of the
    repository: a router is the list of the registrations made on it. Sessions are those of
    [Session.v] and the minifier's package state that of [Minifier.v]. The TLS, context and
    log values of the configuration, which are only handed on, are left out, and a logger
    is whether it is set. *)

From Stdlib Require Import ZArith Lia.
From stdpp Require Import base numbers strings gmap list relations.
From S2P Require Import Prelude CacheApi Redis RedisClient Minifier Session Http.
Local Open Scope Z_scope.

(** ** Configuration *)

Definition RouterCHI : string := "chi".
Definition DefaultServerPort : Z := 8080.
Definition DefaultReadTimeout : Z := 5 * second.
Definition DefaultReadHeaderTimeout : Z := 2 * second.
Definition DefaultWriteTimeout : Z := 10 * second.
Definition DefaultIdleTimeout : Z := 120 * second.
Definition DefaultShutdownTimeout : Z := 10 * second.
Definition DefaultMaxHeaderBytes : Z := Z.shiftl 1 20.

Record HttpRoute (S : Type) := mkHttpRoute {
  UrlRoute : string;
  RequestMethod : string;
  HttpHandler : option (handler S);
  route_Middlewares : list (handler S → handler S);
  EnableMinify : bool;
}.
Arguments mkHttpRoute {S}. Arguments UrlRoute {S}. Arguments RequestMethod {S}. Arguments HttpHandler {S}.
Arguments route_Middlewares {S}. Arguments EnableMinify {S}.

Record CorsOptions := mkCorsOptions {
  MaxAge : Z; AllowedOrigins : list string; AllowedMethods : list string; AllowedHeaders : list string;
  AllowCredentials : bool;
}.

Record ApiMinifyConfig := mkApiMinifyConfig { am_IsEnabled : bool; am_KeyMap : option keymap }.

Record ServerConfig (S : Type) := mkServerConfig {
  ServerPort : Z;
  ReadTimeout : Z;
  ReadHeaderTimeout : Z;
  WriteTimeout : Z;
  IdleTimeout : Z;
  ShutdownTimeout : Z;
  MaxHeaderBytes : Z;
  TLSCertFile : string;
  TLSKeyFile : string;
  SessionConfig : option Config;
  SessionManager_ : option scs_settings;
  RouteProvider : string;
  HttpRoutes : list (option (HttpRoute S));
  Middlewares : list (handler S → handler S);
  CorsOptions_ : option CorsOptions;
  ApiMinifyConfig_ : option ApiMinifyConfig;
  AccessLogger : bool;
  ErrorLogger : bool;
  ServerLogger : bool;
  ShutdownHook : bool;
}.
Arguments mkServerConfig {S}.
Arguments ServerPort {S}. Arguments ReadTimeout {S}. Arguments ReadHeaderTimeout {S}. Arguments WriteTimeout {S}.
Arguments IdleTimeout {S}. Arguments ShutdownTimeout {S}. Arguments MaxHeaderBytes {S}. Arguments TLSCertFile {S}.
Arguments TLSKeyFile {S}. Arguments SessionConfig {S}. Arguments SessionManager_ {S}. Arguments RouteProvider {S}.
Arguments HttpRoutes {S}. Arguments Middlewares {S}. Arguments CorsOptions_ {S}. Arguments ApiMinifyConfig_ {S}.
Arguments AccessLogger {S}. Arguments ErrorLogger {S}. Arguments ServerLogger {S}. Arguments ShutdownHook {S}.

Inductive config_error : Type :=
  | ENilConfig
  | ERouteProvider (provider : string)
  | EPort (port : Z)
  | ENegative (what : string)
  | ETLSPair
  | ETwoSessions
  | ELogger (which : string)
  | ECorsWildcard
  | ENilRoute (idx : nat)
  | ENoUrl (idx : nat)
  | ENoHandler (url : string).

Section config.
Context {S : Type}.

(** [if x == 0 { x = d }] *)
Definition or_number (d x : Z) : Z := if x =? 0 then d else x.

(** The loop over the routes. *)
Fixpoint Validate_routes (idx : nat) (routes : list (option (HttpRoute S))) : option config_error :=
  match routes with
  | [] => None
  | None :: _ => Some (ENilRoute idx)
  | Some r :: routes =>
      if decide (UrlRoute r = "") then Some (ENoUrl idx)
      else match HttpHandler r with
           | None => Some (ENoHandler (UrlRoute r))
           | Some _ => Validate_routes (idx + 1) routes
           end
  end.

Definition cors_conflict (c : CorsOptions) : bool :=
  existsb (λ origin, bool_decide (origin = "*") && AllowCredentials c) (AllowedOrigins c).

Definition ServerConfig_Validate (s : ServerConfig S) : option config_error :=
  if decide (RouteProvider s ≠ RouterCHI) then Some (ERouteProvider (RouteProvider s))
  else if (ServerPort s <? 1) || (65535 <? ServerPort s) then Some (EPort (ServerPort s))
  else if ReadTimeout s <? 0 then Some (ENegative "read timeout")
  else if ReadHeaderTimeout s <? 0 then Some (ENegative "read header timeout")
  else if WriteTimeout s <? 0 then Some (ENegative "write timeout")
  else if IdleTimeout s <? 0 then Some (ENegative "idle timeout")
  else if ShutdownTimeout s <? 0 then Some (ENegative "shutdown timeout")
  else if MaxHeaderBytes s <? 0 then Some (ENegative "max header bytes")
  else if negb (Bool.eqb (bool_decide (TLSCertFile s = "")) (bool_decide (TLSKeyFile s = ""))) then Some ETLSPair
  else if bool_decide (is_Some (SessionConfig s)) && bool_decide (is_Some (SessionManager_ s)) then Some ETwoSessions
  else if negb (AccessLogger s) then Some (ELogger "access")
  else if negb (ErrorLogger s) then Some (ELogger "error")
  else if negb (ServerLogger s) then Some (ELogger "server")
  else if match CorsOptions_ s with Some c => cors_conflict c | None => false end then Some ECorsWildcard
  else Validate_routes 0 (HttpRoutes s).

(** The defaults [Normalize] writes into the configuration. *)
Definition with_server_defaults (s : ServerConfig S) : ServerConfig S :=
  mkServerConfig (or_number DefaultServerPort (ServerPort s)) (or_number DefaultReadTimeout (ReadTimeout s))
    (or_number DefaultReadHeaderTimeout (ReadHeaderTimeout s)) (or_number DefaultWriteTimeout (WriteTimeout s))
    (or_number DefaultIdleTimeout (IdleTimeout s)) (or_number DefaultShutdownTimeout (ShutdownTimeout s))
    (or_number DefaultMaxHeaderBytes (MaxHeaderBytes s)) (TLSCertFile s) (TLSKeyFile s) (SessionConfig s)
    (SessionManager_ s) (or_value RouterCHI (RouteProvider s)) (HttpRoutes s) (Middlewares s) (CorsOptions_ s)
    (ApiMinifyConfig_ s) true true true (ShutdownHook s).

(** The configuration as [Normalize] leaves it, also when it reports an error. *)
Definition Normalize (s : option (ServerConfig S)) : option (ServerConfig S) * option config_error :=
  match s with
  | None => (None, Some ENilConfig)
  | Some s => let s := with_server_defaults s in (Some s, ServerConfig_Validate s)
  end.

(** ** The router *)

(** The middleware of the default stack, by name, and the application's own. *)
Inductive middleware : Type :=
  | MCors (options : option CorsOptions)
  | MRealIP | MCleanPath | MCompressor | MGetHead | MHeartbeat (endpoint : string) | MRequestId
  | MRecoverer | MSecurityHeaders | MRequestLogger | MRequestInit
  | MApiMinifier (routes : gmap string bool)
  | MCustom (f : handler S → handler S)
  | MSession (m : scs_settings).

(** A call on the router: [Use], a method registration, or [HandleFunc], which serves every
    method. *)
Inductive registration : Type :=
  | Use (m : middleware)
  | Route (method pattern : string) (h : handler S)
  | HandleFunc (pattern : string) (h : handler S).

Abbreviation router := (list registration).

Definition NewRouter (provider : string) : option router :=
  if decide (provider = RouterCHI) then Some [] else None.

Definition minifier_input (routes : list (option (HttpRoute S))) : gmap string bool :=
  foldl (λ m r, match r with Some r => <[UrlRoute r := EnableMinify r]> m | None => m end) ∅ routes.

Definition handleMiddlewares (r : router) (s : ServerConfig S) : router :=
  let r := r ++ [Use (MCors (CorsOptions_ s))] in
  let r := r ++ map Use [MRealIP; MCleanPath; MCompressor; MGetHead; MHeartbeat "/heartbeat"; MRequestId; MRecoverer;
                         MSecurityHeaders; MRequestLogger; MRequestInit] in
  let input := minifier_input (HttpRoutes s) in
  let r := if decide (input = ∅) then r else r ++ [Use (MApiMinifier input)] in
  r ++ map (λ f, Use (MCustom f)) (Middlewares s).

(** [applyMiddlewareAndRoute]: the handler the method is registered with. *)
Definition applyMiddlewareAndRoute (h : handler S) (mws : list (handler S → handler S)) : handler S :=
  match mws with
  | [] => h
  | _ => foldl (λ finalHandler middleware, middleware finalHandler) h mws
  end.

Definition routed_methods : list string := ["GET"; "POST"; "PUT"; "DELETE"; "OPTIONS"; "HEAD"].

(** The registration of one route; nil routes and handlers were refused by [Validate]. *)
Definition register_route (r : HttpRoute S) : outcome registration :=
  match HttpHandler r with
  | None => Panic nil_dereference
  | Some h =>
      Ret (if decide (RequestMethod r ∈ routed_methods)
           then Route (RequestMethod r) (UrlRoute r) (applyMiddlewareAndRoute h (route_Middlewares r))
           else HandleFunc (UrlRoute r) h)
  end.

Fixpoint register_routes (routes : list (option (HttpRoute S))) (r : router) : outcome router :=
  match routes with
  | [] => Ret r
  | None :: _ => Panic nil_dereference
  | Some route :: routes => x ← register_route route; register_routes routes (r ++ [x])
  end.

(** ** Construction *)

Inductive server_error : Type :=
  | EOldRuntime
  | EConfig (e : config_error)
  | ERouter (provider : string)
  | ESession (e : session_error).

Record server_world := mkWorld { w_minifier : minifierConfig; w_redis : redis_registry }.

Record HTTPServer := mkHTTPServer {
  hs_router : router;
  hs_config : ServerConfig S;
  hs_sessionManager : option scs_settings;
  hs_ownsSessionManager : bool;
  hs_closed : bool;                     (* [sessionCloseOnce] has run *)
  hs_sessionCloseErr : option string;
}.

(** The router, the session manager and whether the server made it; the fate is that of the
    ping [session.New] may send. *)
Definition handleHttpRoutes (f : fate) (r : router) (s : ServerConfig S) (w : redis_registry)
    : outcome (redis_registry * result session_error (router * option scs_settings * bool)) :=
  m ← match SessionManager_ s, SessionConfig s with
      | None, Some cfg =>
          x ← Session_New f (Some cfg) w;
          Ret (x.1, match x.2 with Ok m => Ok (Some m, true) | Err e => Err e end)
      | sm, _ => Ret (w, Ok (sm, false))
      end;
  match m with
  | (w, Err e) => Ret (w, Err e)
  | (w, Ok (sm, owns)) =>
      let r := match sm with Some m => r ++ [Use (MSession m)] | None => r end in
      r ← register_routes (HttpRoutes s) r;
      Ret (w, Ok (r, sm, owns))
  end.

Definition setupApiKeyMinifier (s : ServerConfig S) (c : minifierConfig) : minifierConfig :=
  match ApiMinifyConfig_ s with
  | Some a => SetupApiKeyMinifierConfig (am_IsEnabled a) (am_KeyMap a)
  | None => c
  end.

(** [recent]: the Go runtime is not older than the minimum. *)
Definition NewHTTPServer (recent : bool) (f : fate) (config : option (ServerConfig S)) (w : server_world)
    : outcome (server_world * result server_error HTTPServer) :=
  if negb recent then Ret (w, Err EOldRuntime)
  else match Normalize config with
       | (_, Some e) => Ret (w, Err (EConfig e))
       | (None, None) => Panic nil_dereference
       | (Some s, None) =>
           match NewRouter (RouteProvider s) with
           | None => Ret (w, Err (ERouter (RouteProvider s)))
           | Some r =>
               x ← handleHttpRoutes f (handleMiddlewares r s) s (w_redis w);
               match x with
               | (redis, Err e) => Ret (mkWorld (w_minifier w) redis, Err (ESession e))
               | (redis, Ok (r, sm, owns)) =>
                   Ret (mkWorld (setupApiKeyMinifier s (w_minifier w)) redis,
                        Ok (mkHTTPServer r s sm owns false None))
               end
           end
       end.

End config.
Arguments registration S : clear implicits.
Arguments middleware S : clear implicits.
Arguments HTTPServer S : clear implicits.

(** ** What construction gives *)

Section construction.
Context {S : Type}.
Implicit Types (s : ServerConfig S).

(** A configuration the server can run with. *)
Definition served_config s : Prop :=
  RouteProvider s = RouterCHI ∧ 1 <= ServerPort s <= 65535 ∧
  Forall (λ t, 0 < t) [ReadTimeout s; ReadHeaderTimeout s; WriteTimeout s; IdleTimeout s; ShutdownTimeout s; MaxHeaderBytes s] ∧
  (TLSCertFile s = "" ↔ TLSKeyFile s = "") ∧ (SessionConfig s = None ∨ SessionManager_ s = None) ∧
  (AccessLogger s && ErrorLogger s && ServerLogger s) = true ∧
  (∀ c, CorsOptions_ s = Some c → "*" ∈ AllowedOrigins c → AllowCredentials c = false) ∧
  Forall (λ r, ∃ route, r = Some route ∧ UrlRoute route ≠ "" ∧ is_Some (HttpHandler route)) (HttpRoutes s).

Lemma Validate_routes_ok (routes : list (option (HttpRoute S))) : ∀ idx,
  Validate_routes idx routes = None →
  Forall (λ r, ∃ route, r = Some route ∧ UrlRoute route ≠ "" ∧ is_Some (HttpHandler route)) routes.
Proof.
  induction routes as [|[r|] routes IH]; intros idx; cbn [Validate_routes]; [by constructor| |done].
  case_decide; [done|]. destruct (HttpHandler r) eqn:Eh; [|done]. intros E. constructor; [|by eapply IH].
  exists r. by rewrite Eh.
Qed.

Lemma cors_conflict_spec c : cors_conflict c = false → "*" ∈ AllowedOrigins c → AllowCredentials c = false.
Proof.
  unfold cors_conflict. intros E Hin. destruct (AllowCredentials c) eqn:Ec; [|done].
  rewrite <- E. symmetry. apply existsb_exists. exists "*". split; [by apply list_elem_of_In|]. by rewrite bool_decide_true.
Qed.

Lemma or_number_pos d x : 0 < d → (or_number d x <? 0) = false → 0 < or_number d x.
Proof. unfold or_number. destruct (Z.eqb_spec x 0); lia. Qed.

(** The next guard of a validation that found no error. *)
Ltac next_guard E H :=
  match type of E with (if ?b then _ else _) = None => destruct b eqn:H; [discriminate E|] end.

Lemma Validate_served s : ServerConfig_Validate (with_server_defaults s) = None → served_config (with_server_defaults s).
Proof.
  set (s' := with_server_defaults s). unfold ServerConfig_Validate. intros E.
  destruct (decide (RouteProvider s' ≠ RouterCHI)) as [|Hrp]; [discriminate E|]. apply dec_stable in Hrp.
  next_guard E Hport. next_guard E H1. next_guard E H2. next_guard E H3. next_guard E H4. next_guard E H5. next_guard E H6.
  next_guard E Htls. next_guard E Hsess. next_guard E Hl1. next_guard E Hl2. next_guard E Hl3. next_guard E Hcors.
  unfold served_config. split; [done|]. split; [lia|]. split.
  { repeat constructor; unfold s'; cbn; apply or_number_pos; done. }
  split; [|split; [|split; [|split]]].
  - apply negb_false_iff, eqb_prop in Htls. split; intros Ht; [rewrite (bool_decide_true (TLSCertFile s' = "")) in Htls by done
      |rewrite (bool_decide_true (TLSKeyFile s' = "")) in Htls by done].
    + by symmetry in Htls; apply bool_decide_eq_true in Htls.
    + by apply bool_decide_eq_true in Htls.
  - destruct (SessionConfig s') as [c|] eqn:Ec; [right|by left].
    destruct (SessionManager_ s') as [m|] eqn:Em; [|done].
    rewrite !bool_decide_true in Hsess by eauto. done.
  - by destruct (AccessLogger s'), (ErrorLogger s'), (ServerLogger s').
  - intros c Hc. rewrite Hc in Hcors. by apply cors_conflict_spec.
  - by apply (Validate_routes_ok _ 0).
Qed.

Lemma with_server_defaults_idem s : with_server_defaults (with_server_defaults s) = with_server_defaults s.
Proof.
  assert (∀ d x, d ≠ 0 → or_number d (or_number d x) = or_number d x) as Hn.
  { intros d x Hd. unfold or_number. destruct (Z.eqb_spec x 0); [destruct (Z.eqb_spec d 0)|destruct (Z.eqb_spec x 0)]; done. }
  unfold with_server_defaults. cbn. rewrite !Hn by done. f_equal. unfold or_value. by repeat case_decide.
Qed.

(** The registration of a configured route. *)
Definition registered (route : option (HttpRoute S)) (x : registration S) : Prop :=
  ∃ r h, route = Some r ∧ HttpHandler r = Some h ∧
    if decide (RequestMethod r ∈ routed_methods)
    then x = Route (RequestMethod r) (UrlRoute r) (foldr (λ m f, m f) h (rev (route_Middlewares r)))
    else x = HandleFunc (UrlRoute r) h.

Lemma applyMiddlewareAndRoute_foldr (h : handler S) mws :
  applyMiddlewareAndRoute h mws = foldr (λ m f, m f) h (rev mws).
Proof.
  assert (∀ h, foldl (λ f m, m f) h mws = foldr (λ m f, m f) h (rev mws)) as Hf
    by (clear h; induction mws as [|m mws IH]; intros h; [done|]; cbn [foldl rev]; by rewrite IH, foldr_app).
  destruct mws as [|m mws]; [done|]. apply Hf.
Qed.

Lemma register_routes_ok (routes : list (option (HttpRoute S))) : ∀ r0,
  Forall (λ r, ∃ route, r = Some route ∧ UrlRoute route ≠ "" ∧ is_Some (HttpHandler route)) routes →
  ∃ regs, register_routes routes r0 = Ret (r0 ++ regs) ∧ Forall2 registered routes regs.
Proof.
  induction routes as [|x routes IH]; intros r0 Hr.
  - exists []. by rewrite app_nil_r.
  - apply Forall_cons in Hr as [(r & -> & _ & h & Eh) Hr]. cbn [register_routes].
    unfold register_route. rewrite Eh. cbn [mbind outcome_bind].
    match goal with |- context [register_routes routes (r0 ++ [?x])] =>
      destruct (IH (r0 ++ [x]) Hr) as (regs & -> & Hregs); exists (x :: regs) end.
    rewrite <- app_assoc. split; [reflexivity|].
    constructor; [|done]. exists r, h. split; [done|]. split; [done|]. case_decide; [|done].
    by rewrite applyMiddlewareAndRoute_foldr.
Qed.

Definition is_use (x : registration S) : Prop := match x with Use _ => True | _ => False end.

(** The default stack is registered by [Use], and nothing else is. *)
Lemma handleMiddlewares_uses s : Forall is_use (handleMiddlewares [] s).
Proof.
  unfold handleMiddlewares. apply Forall_app. split.
  - case_decide; [|apply Forall_app; split]; repeat constructor.
  - by apply Forall_map, Forall_true.
Qed.

(** Construction never panics. A configuration that is refused, by validation or by the
    session manager, leaves the minifier alone. Otherwise the server runs with a complete
    configuration (a port, positive limits, certificate and key together, at most one
    source of sessions, no credentials for wildcard origins), which validates again
    unchanged; all middleware is registered before the first route; each configured route
    is registered once, in order. A route for one of the six methods the switch knows is
    wrapped in its own middleware, the last one outermost. Any other route, such as one for
    PATCH, is registered for every method and without its middleware. The server owns its
    session manager exactly when it made it. *)
Theorem NewHTTPServer_spec f config w :
  ∃ w' r, NewHTTPServer (S := S) true f config w = Ret (w', r) ∧
  match r with
  | Err _ => w_minifier w' = w_minifier w
  | Ok hs =>
      served_config (hs_config hs) ∧ Normalize (Some (hs_config hs)) = (Some (hs_config hs), None) ∧
      hs_closed hs = false ∧
      (∃ uses regs, hs_router hs = uses ++ regs ∧ Forall is_use uses ∧
         Forall2 registered (HttpRoutes (hs_config hs)) regs) ∧
      (hs_ownsSessionManager hs = true ↔
         SessionManager_ (hs_config hs) = None ∧ is_Some (SessionConfig (hs_config hs))) ∧
      w_minifier w' = setupApiKeyMinifier (hs_config hs) (w_minifier w)
  end.
Proof.
  unfold NewHTTPServer. cbn [negb]. destruct config as [s|]; [|by eexists _, _]. cbn [Normalize].
  destruct (ServerConfig_Validate (with_server_defaults s)) as [e|] eqn:Ev; [by eexists _, _|].
  pose proof (Validate_served s Ev) as Hs. pose proof (with_server_defaults_idem s) as Hidem.
  set (s' := with_server_defaults s) in *. pose proof Hs as (Hrp & _ & _ & _ & _ & _ & _ & Hroutes).
  unfold NewRouter. rewrite decide_True by done. unfold handleHttpRoutes.
  assert (∃ w1 r, (match SessionManager_ s', SessionConfig s' with
      | None, Some cfg => x ← Session_New f (Some cfg) (w_redis w);
          Ret (x.1, match x.2 with Ok m => Ok (Some m, true) | Err e => Err e end)
      | sm, _ => Ret (w_redis w, Ok (sm, false)) end) = Ret (w1, r) ∧
    ∀ sm owns, r = Ok (sm, owns) → (owns = true ↔ SessionManager_ s' = None ∧ is_Some (SessionConfig s')))
    as (w1 & r & -> & Hown).
  { destruct (SessionManager_ s') as [m|]; [eexists _, _; split; [reflexivity|]; intros ? ? [= <- <-]; naive_solver|].
    destruct (SessionConfig s') as [cfg|]; [|eexists _, _; split; [reflexivity|]; intros ? ? [= <- <-]; naive_solver].
    destruct (Session_New_total f (Some cfg) (w_redis w)) as (w1 & r & -> & _). cbn [mbind outcome_bind fst snd].
    eexists _, _. split; [reflexivity|]. intros sm owns E. destruct r; simplify_eq. naive_solver. }
  cbn [mbind outcome_bind]. destruct r as [[sm owns]|e]; [|by eexists _, _].
  set (r0 := match sm with Some m => handleMiddlewares [] s' ++ [Use (MSession m)] | None => handleMiddlewares [] s' end).
  assert (Forall is_use r0) as Hr0.
  { pose proof (handleMiddlewares_uses s'). destruct sm; [apply Forall_app; split; [done|by repeat constructor]|done]. }
  destruct (register_routes_ok (HttpRoutes s') r0 Hroutes) as (regs & -> & Hregs).
  cbn [mbind outcome_bind]. eexists _, _. split; [reflexivity|].
  cbn [hs_config hs_closed hs_router hs_ownsSessionManager w_minifier].
  split; [done|]. split; [cbn [Normalize]; rewrite Hidem; unfold s' in *; by rewrite Ev|]. split; [done|].
  split; [by exists r0, regs|]. split; [by apply (Hown sm)|done].
Qed.

End construction.

(** ** Life of a server

    [startHttpServer] as steps of one state. The goroutine that serves answers on
    [errChan]; the main function waits for it or for a signal, then shuts down. Other parts
    of the application, which hold the server, may call [Shutdown] at any time. What the
    listener and the closing of connections come to is up to the environment. *)

Section life.
Context {S : Type}.
Implicit Types (s : HTTPServer S).

(** Whether [closeOwnedSession] has a manager to close. *)
Definition owned s : bool := hs_ownsSessionManager s && bool_decide (is_Some (hs_sessionManager s)).

(** With the number of times the manager's [Close] was called. *)
Definition closeOwnedSession s (w : redis_registry) : HTTPServer S * redis_registry * nat * option string :=
  if negb (owned s) then (s, w, 0%nat, None)
  else if hs_closed s then (s, w, 0%nat, hs_sessionCloseErr s)
  else
    let '(w, e) := Session_Close (hs_sessionManager s) w in
    (mkHTTPServer (hs_router s) (hs_config s) (hs_sessionManager s) (hs_ownsSessionManager s) true e, w, 1%nat, e).

Inductive http_state := Fresh | Listening | ShutDown.
Inductive goroutine_state := GoReady | GoServing | GoDone.

Inductive main_state :=
  | Selecting
  | Stopping                            (* the signal was taken and the hook has run *)
  | HttpDown (err : option string)      (* the listener is shut down *)
  | MainReturned (stopped : bool) (errs : list string)
      (* after a signal, with the errors [Shutdown] joined, or with the listener closed elsewhere *)
  | MainPanicked (why : string).

Record life := mkLife {
  l_server : HTTPServer S;
  l_redis : redis_registry;
  l_http : http_state;
  l_go : goroutine_state;
  l_errChan : option (option string);
  l_signal : bool;
  l_main : main_state;
  l_others : nat;                       (* other calls of [Shutdown] about to close the session *)
  l_hooks : nat;                        (* how often the hook ran *)
  l_closes : nat;                       (* how often the session manager was closed *)
}.

Definition with_go (x : life) (h : http_state) (g : goroutine_state) (e : option (option string)) : life :=
  mkLife (l_server x) (l_redis x) h g e (l_signal x) (l_main x) (l_others x) (l_hooks x) (l_closes x).

Definition with_main (x : life) (m : main_state) (e : option (option string)) (sig : bool) (hooks : nat) : life :=
  mkLife (l_server x) (l_redis x) (l_http x) (l_go x) e sig m (l_others x) hooks (l_closes x).

Definition with_http (x : life) (h : http_state) (m : main_state) (others : nat) : life :=
  mkLife (l_server x) (l_redis x) h (l_go x) (l_errChan x) (l_signal x) m others (l_hooks x) (l_closes x).

(** A call of [closeOwnedSession], and what the caller does with its error. *)
Definition closing (x : life) (m : option string → main_state) (e : option (option string)) (others : nat) : life :=
  let '(s, w, n, err) := closeOwnedSession (l_server x) (l_redis x) in
  mkLife s w (l_http x) (l_go x) e (l_signal x) (m err) others (l_hooks x) (l_closes x + n).

Definition joined (errs : list (option string)) : list string := omap id errs.

Inductive life_step : life → life → Prop :=
  (* the serving goroutine *)
  | step_listen x :
      l_go x = GoReady → l_http x = Fresh → life_step x (with_go x Listening GoServing (l_errChan x))
  | step_listen_late x :
      l_go x = GoReady → l_http x = ShutDown → life_step x (with_go x ShutDown GoDone (Some None))
  | step_listen_fails x e :
      l_go x = GoReady ∨ l_go x = GoServing ∧ l_http x ≠ ShutDown →
      life_step x (with_go x (l_http x) GoDone (Some (Some e)))
  | step_listen_ends x :
      l_go x = GoServing → l_http x = ShutDown → life_step x (with_go x ShutDown GoDone (Some None))
  (* the process receives a signal *)
  | step_signal x : life_step x (with_main x (l_main x) (l_errChan x) true (l_hooks x))
  (* the main function *)
  | step_listener_closed x :
      l_main x = Selecting → l_errChan x = Some None →
      life_step x (with_main x (MainReturned false []) None (l_signal x) (l_hooks x))
  | step_listener_failed x e :
      l_main x = Selecting → l_errChan x = Some (Some e) →
      life_step x (closing x (λ _, MainPanicked e) None (l_others x))
  | step_stop x :
      l_main x = Selecting → l_signal x = true →
      life_step x (with_main x Stopping (l_errChan x) false
                     (l_hooks x + if ShutdownHook (hs_config (l_server x)) then 1 else 0))
  | step_shutdown x err :
      l_main x = Stopping → life_step x (with_http x ShutDown (HttpDown err) (l_others x))
  | step_close x err :
      l_main x = HttpDown err →
      life_step x (closing x (λ e, MainReturned true (joined [err; e])) (l_errChan x) (l_others x))
  (* [Shutdown] elsewhere *)
  | step_other_shutdown x : life_step x (with_http x ShutDown (l_main x) (1 + l_others x))
  | step_other_close x n :
      l_others x = (1 + n)%nat → life_step x (closing x (λ _, l_main x) (l_errChan x) n).

Definition starting s (w : redis_registry) : life := mkLife s w Fresh GoReady None false Selecting 0 0 0.

(** ** The invariant *)

Definition session_done (x : life) : Prop := owned (l_server x) = true → hs_closed (l_server x) = true.

Definition life_ok s (w : redis_registry) (x : life) : Prop :=
  owned (l_server x) = owned s ∧ hs_config (l_server x) = hs_config s ∧
  l_closes x = (if hs_closed (l_server x) then 1 else 0)%nat ∧
  (hs_closed (l_server x) = true → owned s = true) ∧
  (owned s = false → l_redis x = w) ∧
  (l_errChan x = Some None → l_http x = ShutDown) ∧
  match l_main x with
  | Selecting => l_hooks x = 0%nat
  | Stopping => l_hooks x = (if ShutdownHook (hs_config s) then 1 else 0)%nat
  | HttpDown _ => l_http x = ShutDown ∧ l_hooks x = (if ShutdownHook (hs_config s) then 1 else 0)%nat
  | MainReturned stopped _ => l_http x = ShutDown ∧
      if stopped then l_hooks x = (if ShutdownHook (hs_config s) then 1 else 0)%nat ∧ session_done x
      else l_hooks x = 0%nat
  | MainPanicked _ => l_hooks x = 0%nat ∧ session_done x
  end.

Lemma closing_effect x m e others :
  let y := closing x m e others in
  owned (l_server y) = owned (l_server x) ∧ hs_config (l_server y) = hs_config (l_server x) ∧
  session_done y ∧ l_http y = l_http x ∧ l_hooks y = l_hooks x ∧ l_errChan y = e ∧
  (owned (l_server x) = false → l_redis y = l_redis x ∧ hs_closed (l_server y) = hs_closed (l_server x)) ∧
  (hs_closed (l_server y) = true → hs_closed (l_server x) = true ∨ owned (l_server x) = true) ∧
  (l_closes x = (if hs_closed (l_server x) then 1 else 0)%nat →
   l_closes y = (if hs_closed (l_server y) then 1 else 0)%nat) ∧
  ∃ err, l_main y = m err.
Proof.
  unfold closing, closeOwnedSession, session_done. destruct (owned (l_server x)) eqn:Eo; cbn [negb].
  - destruct (hs_closed (l_server x)) eqn:Ec; cbn.
    + rewrite Eo, Ec. split_and!; try done; try lia; eauto.
    + destruct (Session_Close _ _) as [w e'] eqn:Es. cbn. unfold owned in *. cbn.
      split_and!; try done; try lia; eauto.
  - cbn. rewrite Eo. split_and!; try done; try lia; eauto.
Qed.

Lemma life_ok_closing s w x m e others :
  life_ok s w x → (e = l_errChan x ∨ e = None) →
  let y := closing x m e others in
  (∀ err, l_main y = m err → session_done y →
     match m err with
     | Selecting => l_hooks x = 0%nat
     | Stopping => l_hooks x = (if ShutdownHook (hs_config s) then 1 else 0)%nat
     | HttpDown _ => l_http x = ShutDown ∧ l_hooks x = (if ShutdownHook (hs_config s) then 1 else 0)%nat
     | MainReturned stopped _ => l_http x = ShutDown ∧
         if stopped then l_hooks x = (if ShutdownHook (hs_config s) then 1 else 0)%nat ∧ session_done y
         else l_hooks x = 0%nat
     | MainPanicked _ => l_hooks x = 0%nat ∧ session_done y
     end) →
  life_ok s w y.
Proof.
  intros (H1 & H2 & H3 & H4 & H5 & H6 & _) He y Hm.
  destruct (closing_effect x m e others) as (E1 & E2 & E3 & E4 & E5 & E6 & E7 & E8 & E9 & err & E10).
  fold y in E1, E2, E3, E4, E5, E6, E7, E8, E9, E10. unfold life_ok.
  rewrite E1, E2, E4, E5, E6, E10. split; [done|]. split; [done|]. split; [auto|]. split; [|split; [|split]].
  - intros Hc. destruct (E8 Hc) as [Hc'|Ho]; [auto|congruence].
  - intros Ho. destruct E7 as [Ew _]; [congruence|]. rewrite Ew. auto.
  - destruct He as [->| ->]; [done|discriminate].
  - by apply Hm.
Qed.

Lemma life_step_ok s w x y : life_step x y → life_ok s w x → life_ok s w y.
Proof.
  intros Hs Hok. pose proof Hok as (H1 & H2 & H3 & H4 & H5 & H6 & H7).
  destruct Hs as [x Eg Eh|x Eg Eh|x e Eg|x Eg Eh|x|x Em Ee|x e Em Ee|x Em Es|x err Em|x err Em|x|x n En].
  - unfold life_ok, session_done in *. cbn. split_and!; try done.
    + intros E. rewrite H6 in Eh by done. done.
    + destruct (l_main x) as [| | |[] ?|]; try done; rewrite Eh in H7; destruct H7; done.
  - unfold life_ok, session_done in *. cbn. split_and!; try done.
    destruct (l_main x) as [| | |[] ?|]; try done; destruct H7; done.
  - unfold life_ok, session_done in *. cbn. split_and!; done.
  - unfold life_ok, session_done in *. cbn. split_and!; try done.
    destruct (l_main x) as [| | |[] ?|]; try done; destruct H7; done.
  - exact Hok.
  - rewrite Em in H7. unfold life_ok, session_done in *. cbn. rewrite H7. split_and!; try done. auto.
  - rewrite Em in H7. apply life_ok_closing; [done|by right|]. intros err _ Hd. by split.
  - rewrite Em in H7. unfold life_ok in *. cbn. rewrite H7, H2. split_and!; done.
  - rewrite Em in H7. unfold life_ok in *. cbn. split_and!; try done.
  - rewrite Em in H7. apply life_ok_closing; [done|by left|]. intros err' _ Hd. destruct H7 as [Hh Hk]. exact (conj Hh (conj Hk Hd)).
  - unfold life_ok, session_done in *. cbn. split_and!; try done.
    destruct (l_main x) as [| | |[] ?|]; try done; by destruct H7.
  - apply life_ok_closing; [done|by left|]. intros err _ Hd.
    destruct (l_main x) as [| |e|[] errs|why]; [exact H7|exact H7|exact H7| |exact H7|].
    + destruct H7 as (Hh & Hk & _). exact (conj Hh (conj Hk Hd)).
    + destruct H7 as [Hk _]. exact (conj Hk Hd).
Qed.

End life.

(** (C37) The life of a server, in every interleaving of the listener, signals, the main function
    and calls of [Shutdown] elsewhere. A session manager the server made is closed at most
    once, and one the application supplied never, nor is any connection touched then. When
    the main function returns after a signal or panics because the listener failed, the
    owned manager is closed; when it returns otherwise, the listener had been shut down
    elsewhere. The shutdown hook runs exactly once on the way out after a signal, and not
    in the other cases. *)
Theorem server_lifecycle {S} (s : HTTPServer S) w x :
  hs_closed s = false → rtc life_step (starting s w) x →
  (l_closes x <= 1)%nat ∧
  (owned s = false → l_closes x = 0%nat ∧ l_redis x = w) ∧
  (∀ why, l_main x = MainPanicked why → l_hooks x = 0%nat ∧ (owned s = true → l_closes x = 1%nat)) ∧
  (∀ errs, l_main x = MainReturned true errs →
     l_http x = ShutDown ∧ l_hooks x = (if ShutdownHook (hs_config s) then 1 else 0)%nat ∧
     (owned s = true → l_closes x = 1%nat)) ∧
  (∀ errs, l_main x = MainReturned false errs → l_http x = ShutDown ∧ l_hooks x = 0%nat).
Proof.
  intros Hs Hx. assert (life_ok s w x) as (H1 & H2 & H3 & H4 & H5 & H6 & H7).
  { revert x Hx. refine (rtc_ind_r (life_ok s w) (starting s w) _ _).
    - unfold life_ok. cbn. rewrite Hs. split_and!; done.
    - intros x y _ Hstep. by apply life_step_ok. }
  unfold session_done in H7. rewrite H1 in H7. rewrite H3. split_and!.
  - destruct (hs_closed (l_server x)); lia.
  - intros Ho. split; [|auto]. destruct (hs_closed (l_server x)); [|done]. rewrite H4 in Ho by done. done.
  - intros why E. rewrite E in H7. destruct H7 as [? Hd]. split; [done|]. intros Ho. by rewrite Hd.
  - intros errs E. rewrite E in H7. destruct H7 as (? & ? & Hd). split_and!; [done..|]. intros Ho. by rewrite Hd.
  - intros errs E. by rewrite E in H7.
Qed.

(** A signal always stops the server: whatever the listener, the connections and the other
    goroutines do, while the main function waits and a signal has arrived it can return,
    by steps of its own alone. *)
Theorem signal_stops_server {S} (x : life (S := S)) :
  l_main x = Selecting → l_signal x = true →
  ∃ y errs, rtc life_step x y ∧ l_main y = MainReturned true errs ∧ l_go y = l_go x ∧ l_others y = l_others x.
Proof.
  intros Hm Hs. set (x1 := with_main x Stopping (l_errChan x) false
    (l_hooks x + if ShutdownHook (hs_config (l_server x)) then 1 else 0)).
  set (x2 := with_http x1 ShutDown (HttpDown None) (l_others x1)).
  set (x3 := closing x2 (λ e, MainReturned true (joined [None; e])) (l_errChan x2) (l_others x2)).
  assert (rtc life_step x x3) as Hr.
  { apply (rtc_l _ _ x1); [by constructor|]. apply (rtc_l _ _ x2); [by constructor|]. apply rtc_once. by constructor. }
  exists x3. destruct (closing_effect x2 (λ e, MainReturned true (joined [None; e])) (l_errChan x2) (l_others x2))
    as (_ & _ & _ & _ & _ & _ & _ & _ & _ & err & Em).
  eexists. split; [exact Hr|]. split; [exact Em|]. unfold x3, closing.
  by destruct (closeOwnedSession _ _) as [[[s w] n] e].
Qed.

(** ** Witnesses *)

Module ServerDemo.
Definition config : ServerConfig unit :=
  with_server_defaults (mkServerConfig 0 0 0 0 0 0 0 "" "" None None "" [] [] None None false false false true).
(** A manager on the first Redis connection. *)
Definition manager : scs_settings :=
  {| scs_Store := RedisStore {| rs_client := 0; rs_prefix := "s:" |}; scs_Lifetime := 60; scs_IdleTimeout := 0;
     scs_HashTokenInStore := false; scs_Cookie := ("id", "", "/", 2); scs_Secure := true; scs_HttpOnly := true;
     scs_Persist := true; scs_Partitioned := false; scs_jsonCodec := false; scs_ErrorFunc := false |}.
Definition server : HTTPServer unit := mkHTTPServer [] config (Some manager) true false None.
Definition redis : redis_registry :=
  {| instances := ∅; connectionConfigMap := ∅;
     connections := [{| conn_options := {| Address := ""; Username := ""; Password := ""; Database := 0; PoolSize := 0 |};
                        conn_closed := false |}] |}.
(** The server is listening and has received a signal. *)
Definition signalled : life :=
  mkLife server redis Listening GoServing None true Selecting 0 0 0.
Definition stopping : life := mkLife server redis ShutDown GoServing None false (HttpDown None) 0 1 0.
Definition stopped : life := closing stopping (λ e, MainReturned true (joined [None; e])) None 0.

Lemma run_signalled : rtc life_step (starting server redis) signalled.
Proof.
  apply (rtc_l _ _ (mkLife server redis Listening GoServing None false Selecting 0 0 0)); [exact (step_listen (starting server redis) eq_refl eq_refl)|].
  apply rtc_once. exact (step_signal (mkLife server redis Listening GoServing None false Selecting 0 0 0)).
Qed.
End ServerDemo.

Lemma server_lifecycle_witness :
  rtc life_step (starting ServerDemo.server ServerDemo.redis) ServerDemo.stopped ∧ l_closes ServerDemo.stopped = 1%nat.
Proof.
  assert (rtc life_step (starting ServerDemo.server ServerDemo.redis) ServerDemo.stopped) as Hr.
  { etransitivity; [exact ServerDemo.run_signalled|].
    eapply rtc_l; [exact (step_stop ServerDemo.signalled eq_refl eq_refl)|].
    apply (rtc_l _ _ ServerDemo.stopping);
      [exact (step_shutdown (with_main ServerDemo.signalled Stopping None false 1) None eq_refl)|].
    apply rtc_once. exact (step_close ServerDemo.stopping None eq_refl). }
  split; [exact Hr|].
  destruct (server_lifecycle ServerDemo.server ServerDemo.redis ServerDemo.stopped eq_refl Hr) as (_ & _ & _ & H & _).
  apply (H [] eq_refl). reflexivity.
Defined.

Lemma signal_stops_server_witness :
  ∃ y errs, rtc life_step ServerDemo.signalled y ∧ l_main y = MainReturned true errs ∧ l_go y = GoServing.
Proof.
  destruct (signal_stops_server ServerDemo.signalled eq_refl eq_refl) as (y & errs & Hr & Hm & Hg & _).
  exists y, errs. split; [exact Hr|]. split; [exact Hm|]. exact Hg.
Defined.
