(* ===== verification/ConfigManager.v ===== *)
(** * Configuration ([src/core/config])

    Options and their validation ([options.go]), the koanf-backed configuration and the
    goroutine that applies updates to it ([koanf.go]), the manager that owns both
    ([manager.go]) and the package-level singleton ([loader.go]). The koanf library is a
    parameter: the store type and what loading a document into a fresh store gives. Files are
    those of [FeatureLifecycle]. Pointers that are shared are addresses in a heap: the options
    of a manager are also those of its configurations and, after [Init], of the package.
    Goroutines and callers interleave at the grain of the critical sections; an update is
    received, reloaded and published in three steps. A context is the list of the cancel
    functions that end it. *)

From Stdlib Require Import ZArith Lia.
From stdpp Require Import base numbers strings gmap list relations.
From S2P Require Import Prelude GoValue SqlText Http FeatureLifecycle.
Local Open Scope Z_scope.

(** ** Options *)

Definition SourceFile : Z := 1.
Definition SourceRawBytes : Z := 2.
Definition FormatJson : Z := 1.
Definition DefaultConfigPathDelimiter : string := ".".
Definition ConfigProviderKoanf : string := "koanf".
Definition allowedProviders : list string := [ConfigProviderKoanf].

(** Cancel functions are named by numbers; [context.Background] is the empty list. *)
Abbreviation Ctx := (list nat).

(** Of [watcher.WatcherOptions], what this package reads or sets. *)
Record CfgWatcherOptions : Type := {
  cw_Logger : bool;
  cw_OnUpdateCallback : bool;
  cw_WatchContext : option Ctx;
  cw_ContentSource : Z;
  cw_ContentFormat : Z;
  cw_UpdateChannel : option nat;
}.

Record ConfigOptions : Type := {
  o_Source : Z;
  o_Format : Z;
  o_FilePath : string;
  o_Content : string;
  o_Delimiter : string;
  o_EnableWatch : bool;
  o_WatcherOptions : option CfgWatcherOptions;
}.

#[export] Instance CfgWatcherOptions_eq_dec : EqDecision CfgWatcherOptions.
Proof. solve_decision. Defined.

Definition with_Content (o : ConfigOptions) (content : string) : ConfigOptions :=
  {| o_Source := o_Source o; o_Format := o_Format o; o_FilePath := o_FilePath o; o_Content := content;
     o_Delimiter := o_Delimiter o; o_EnableWatch := o_EnableWatch o; o_WatcherOptions := o_WatcherOptions o |}.
Definition with_WatcherOptions (o : ConfigOptions) (w : option CfgWatcherOptions) : ConfigOptions :=
  {| o_Source := o_Source o; o_Format := o_Format o; o_FilePath := o_FilePath o; o_Content := o_Content o;
     o_Delimiter := o_Delimiter o; o_EnableWatch := o_EnableWatch o; o_WatcherOptions := w |}.
Definition with_Delimiter (o : ConfigOptions) (d : string) : ConfigOptions :=
  {| o_Source := o_Source o; o_Format := o_Format o; o_FilePath := o_FilePath o; o_Content := o_Content o;
     o_Delimiter := d; o_EnableWatch := o_EnableWatch o; o_WatcherOptions := o_WatcherOptions o |}.

(** [Options.Validate]; [None] is the nil pointer. *)
Definition Options_Validate (fs : filesystem) (o : option ConfigOptions) : result string unit :=
  match o with
  | None => Err "config options are required"
  | Some o =>
      if negb (bool_decide (o_Source o ∈ [SourceFile; SourceRawBytes])) then
        Err "invalid config source provided"
      else if negb (bool_decide (o_Format o ∈ [FormatJson])) then
        Err "invalid config format provided"
      else if (o_Source o =? SourceFile) &&
              (match IsReadableFile fs (o_FilePath o) with Ok _ => false | Err _ => true end) then
        Err "filePath must be a readable file when Source is of type file"
      else if (o_Source o =? SourceRawBytes) && blank (o_Content o) then
        Err "content must be set when Source is of type raw bytes"
      else if o_EnableWatch o && bool_decide (o_WatcherOptions o = None) then
        Err "watcher options must be set when EnableWatch is true"
      else Ok ()
  end.

Definition Options_IsValid (fs : filesystem) (o : option ConfigOptions) : result string unit := Options_Validate fs o.

Definition with_Logger (w : CfgWatcherOptions) : CfgWatcherOptions :=
  {| cw_Logger := true; cw_OnUpdateCallback := cw_OnUpdateCallback w; cw_WatchContext := cw_WatchContext w;
     cw_ContentSource := cw_ContentSource w; cw_ContentFormat := cw_ContentFormat w;
     cw_UpdateChannel := cw_UpdateChannel w |}.

Definition config_populateRequiredOptionsProperties (o : option ConfigOptions) : outcome (option ConfigOptions) :=
  match o with
  | None => Ret None
  | Some o =>
      let o := if decide (o_Delimiter o = "") then with_Delimiter o DefaultConfigPathDelimiter else o in
      if o_EnableWatch o then
        match o_WatcherOptions o with
        | None => Panic nil_dereference
        | Some w => Ret (Some (with_WatcherOptions o (Some (with_Logger w))))
        end
      else Ret (Some o)
  end.

(** A copy at a new address: [NewManager] stores it in the manager it allocates. *)
Definition cloneOptions (o : option ConfigOptions) : option ConfigOptions := o.

Definition typesExistsInAllowedProviders (provider : string) : bool :=
  existsb (String.eqb provider) allowedProviders.

Section config.
(** The koanf store, and [k.Load] of a JSON document into [koanf.New(delimiter)]. *)
Context {Store : Type} (koanf_load : string → string → result string Store).

(** ** Configurations, managers, goroutines *)

(** Addresses of managers stand for their options and their update channels too. *)
Record Koanf : Type := {
  k_opts : nat;
  k_koanf : Store;
  k_updates : option nat;
  k_onReload : option nat;   (* [m.setConfig] of that manager *)
}.

Record CfgManager : Type := {
  c_config : option nat;
  c_provider : string;
  c_options : ConfigOptions;
  c_cancel : option nat;
}.

(** Where an updater goroutine stands. *)
Inductive updater_pc : Type :=
  | UWaiting
  | UReloading (entry : UpdaterSchema)
  | UPublishing (cfg : nat) (entry : UpdaterSchema)
  | UStopped.

Record updater : Type := { u_koanf : nat; u_ctx : Ctx; u_pc : updater_pc }.

Record heap : Type := {
  h_fs : filesystem;
  h_managers : gmap nat CfgManager;
  h_configs : gmap nat Koanf;
  h_updaters : gmap nat updater;
  h_watches : list Ctx;         (* the contexts [go w.Watch(ctx)] was called with *)
  h_cancelled : gset nat;       (* the cancel functions called so far *)
  h_next : nat;                 (* the next address *)
  h_callbacks : nat;            (* calls of [OnUpdateCallback] *)
}.

Definition on_fs (h : heap) fs : heap :=
  {| h_fs := fs; h_managers := h_managers h; h_configs := h_configs h; h_updaters := h_updaters h;
     h_watches := h_watches h; h_cancelled := h_cancelled h; h_next := h_next h; h_callbacks := h_callbacks h |}.
Definition on_managers (h : heap) ms : heap :=
  {| h_fs := h_fs h; h_managers := ms; h_configs := h_configs h; h_updaters := h_updaters h;
     h_watches := h_watches h; h_cancelled := h_cancelled h; h_next := h_next h; h_callbacks := h_callbacks h |}.
Definition on_configs (h : heap) ks : heap :=
  {| h_fs := h_fs h; h_managers := h_managers h; h_configs := ks; h_updaters := h_updaters h;
     h_watches := h_watches h; h_cancelled := h_cancelled h; h_next := h_next h; h_callbacks := h_callbacks h |}.
Definition on_updaters (h : heap) us : heap :=
  {| h_fs := h_fs h; h_managers := h_managers h; h_configs := h_configs h; h_updaters := us;
     h_watches := h_watches h; h_cancelled := h_cancelled h; h_next := h_next h; h_callbacks := h_callbacks h |}.
Definition on_watches (h : heap) ws : heap :=
  {| h_fs := h_fs h; h_managers := h_managers h; h_configs := h_configs h; h_updaters := h_updaters h;
     h_watches := ws; h_cancelled := h_cancelled h; h_next := h_next h; h_callbacks := h_callbacks h |}.
Definition on_cancelled (h : heap) c : heap :=
  {| h_fs := h_fs h; h_managers := h_managers h; h_configs := h_configs h; h_updaters := h_updaters h;
     h_watches := h_watches h; h_cancelled := c; h_next := h_next h; h_callbacks := h_callbacks h |}.
Definition on_callbacks (h : heap) n : heap :=
  {| h_fs := h_fs h; h_managers := h_managers h; h_configs := h_configs h; h_updaters := h_updaters h;
     h_watches := h_watches h; h_cancelled := h_cancelled h; h_next := h_next h; h_callbacks := n |}.
Definition bump (h : heap) : heap :=
  {| h_fs := h_fs h; h_managers := h_managers h; h_configs := h_configs h; h_updaters := h_updaters h;
     h_watches := h_watches h; h_cancelled := h_cancelled h; h_next := S (h_next h); h_callbacks := h_callbacks h |}.

(** A context is done when one of its cancel functions was called. *)
Definition ctx_done (h : heap) (c : Ctx) : bool := existsb (λ x, bool_decide (x ∈ h_cancelled h)) c.

Definition with_config (m : CfgManager) (c : option nat) : CfgManager :=
  {| c_config := c; c_provider := c_provider m; c_options := c_options m; c_cancel := c_cancel m |}.
Definition with_options (m : CfgManager) (o : ConfigOptions) : CfgManager :=
  {| c_config := c_config m; c_provider := c_provider m; c_options := o; c_cancel := c_cancel m |}.
Definition with_cancel (m : CfgManager) (c : option nat) : CfgManager :=
  {| c_config := c_config m; c_provider := c_provider m; c_options := c_options m; c_cancel := c |}.

(** ** koanf.go *)

(** [newKoanf(options)]: what it loads from; the caller allocates the [Koanf]. *)
Definition newKoanf (fs : filesystem) (o : ConfigOptions) : result string Store :=
  match Options_Validate fs (Some o) with
  | Err e => Err e
  | Ok _ =>
      match (if o_Source o =? SourceFile then ReadFile fs (o_FilePath o) else Ok (o_Content o)) with
      | Err e => Err ("error loading config: " +:+ e)
      | Ok data =>
          match koanf_load (o_Delimiter o) data with
          | Err e => Err ("error loading config: " +:+ e)
          | Ok s => Ok s
          end
      end
  end.

(** ** manager.go *)

Definition config_NewManager (h : heap) (provider : string) (options : option ConfigOptions)
  : outcome (heap * result string nat) :=
  let provider := if decide (provider = "") then ConfigProviderKoanf else provider in
  if negb (typesExistsInAllowedProviders provider) then
    Ret (h, Err ("invalid config provider " +:+ provider +:+ " provided"))
  else
    match Options_Validate (h_fs h) options with
    | Err e => Ret (h, Err ("error in config options: " +:+ e))
    | Ok _ =>
        opts ← config_populateRequiredOptionsProperties (cloneOptions options);
        match opts with
        | None => Panic nil_dereference
        | Some opts =>
            let m := {| c_config := None; c_provider := provider; c_options := opts; c_cancel := None |} in
            Ret (bump (on_managers h (<[h_next h := m]> (h_managers h))), Ok (h_next h))
        end
    end.

Definition newConfigLocked (h : heap) (i : nat) (m : CfgManager) : heap * result string nat :=
  if decide (c_provider m = ConfigProviderKoanf) then
    match newKoanf (h_fs h) (c_options m) with
    | Err e => (h, Err e)
    | Ok s =>
        let k := {| k_opts := i; k_koanf := s; k_updates := Some i; k_onReload := Some i |} in
        (bump (on_configs h (<[h_next h := k]> (h_configs h))), Ok (h_next h))
    end
  else (h, Err ("invalid config provider " +:+ c_provider m +:+ " provided")).

(** What [startWatcherLocked] leaves in the watcher options. *)
Definition watching_options (m : CfgManager) (i : nat) (w : CfgWatcherOptions) (ctx : Ctx) : ConfigOptions :=
  with_WatcherOptions (c_options m) (Some
    {| cw_Logger := cw_Logger w; cw_OnUpdateCallback := cw_OnUpdateCallback w;
       cw_WatchContext := Some ctx; cw_ContentSource := o_Source (c_options m);
       cw_ContentFormat := o_Format (c_options m); cw_UpdateChannel := Some i |}).

Definition startWatcherLocked (h : heap) (i : nat) (m : CfgManager) (cfg : nat) : heap :=
  match c_cancel m, o_WatcherOptions (c_options m) with
  | None, Some w =>
      if o_EnableWatch (c_options m) then
        let ctx := h_next h :: default [] (cw_WatchContext w) in
        let m := with_cancel (with_options m (watching_options m i w ctx)) (Some (h_next h)) in
        let u := {| u_koanf := cfg; u_ctx := ctx; u_pc := UWaiting |} in
        bump (on_watches (on_updaters (on_managers h (<[i := m]> (h_managers h)))
                            (<[h_next h := u]> (h_updaters h)))
                (h_watches h ++ [ctx]))
      else h
  | _, _ => h
  end.

(** [Manager.Load]; [None] is the nil manager. *)
Definition Manager_Load (h : heap) (i : option nat) : outcome (heap * result string nat) :=
  match i with
  | None => Ret (h, Err "config manager is nil")
  | Some i =>
      match h_managers h !! i with
      | None => Panic nil_dereference
      | Some m =>
          match c_config m with
          | Some cfg => Ret (h, Ok cfg)
          | None =>
              let '(h, r) := newConfigLocked h i m in
              match r with
              | Err e => Ret (h, Err e)
              | Ok cfg =>
                  let m := with_config m (Some cfg) in
                  let h := on_managers h (<[i := m]> (h_managers h)) in
                  Ret (startWatcherLocked h i m cfg, Ok cfg)
              end
          end
      end
  end.

Definition CfgManager_Close (h : heap) (i : option nat) : heap :=
  match i with
  | None => h
  | Some i =>
      match h_managers h !! i with
      | None => h
      | Some m =>
          let h := match c_cancel m with
                   | Some c => on_cancelled h ({[ c ]} ∪ h_cancelled h)
                   | None => h
                   end in
          on_managers h (<[i := with_cancel (with_config m None) None]> (h_managers h))
      end
  end.

Definition setConfig (h : heap) (i : nat) (cfg : option nat) : heap :=
  on_managers h (alter (λ m, with_config m cfg) i (h_managers h)).

(** ** loader.go *)

(** A call of [LoadE] that released [cMutex] after creating manager [m], or after
    [manager.Load] returned. *)
Inductive load_pc : Type :=
  | LCreated (m : nat)
  | LLoaded (cfg : nat).

Record process : Type := {
  heap_of : heap;
  instance : option nat;
  cProvider : string;
  cOptions : option nat;   (* the options of that manager *)
  cManager : option nat;
  loads : gmap nat load_pc; (* calls of [LoadE] in flight *)
}.

Definition on_heap (p : process) (h : heap) : process :=
  {| heap_of := h; instance := instance p; cProvider := cProvider p; cOptions := cOptions p;
     cManager := cManager p; loads := loads p |}.
Definition on_loads (p : process) (l : gmap nat load_pc) : process :=
  {| heap_of := heap_of p; instance := instance p; cProvider := cProvider p; cOptions := cOptions p;
     cManager := cManager p; loads := l |}.
Definition on_instance (p : process) (i : option nat) : process :=
  {| heap_of := heap_of p; instance := i; cProvider := cProvider p; cOptions := cOptions p;
     cManager := cManager p; loads := loads p |}.

Definition config_Init (p : process) (provider : string) (options : option ConfigOptions)
  : outcome (process * result string unit) :=
  let provider := if decide (provider = "") then ConfigProviderKoanf else provider in
  r ← config_NewManager (heap_of p) provider options;
  match r with
  | (h, Err e) => Ret (on_heap p h, Err e)
  | (h, Ok m) =>
      Ret ({| heap_of := CfgManager_Close h (cManager p); instance := None; cProvider := provider;
              cOptions := Some m; cManager := Some m; loads := loads p |}, Ok ())
  end.

(** [LoadE] up to its second release of [cMutex]: an answer, or a new manager to load. *)
Definition LoadE_begin (p : process) : outcome (process * (result string nat + nat)) :=
  match instance p with
  | Some cfg => Ret (p, inl (Ok cfg))
  | None =>
      match cOptions p with
      | None => Ret (p, inl (Err "config has not been initialized"))
      | Some oi =>
          let h := CfgManager_Close (heap_of p) (cManager p) in
          r ← config_NewManager h (cProvider p) (c_options <$> h_managers h !! oi);
          match r with
          | (h, Err e) => Ret (on_heap p h, inl (Err e))
          | (h, Ok m) =>
              Ret ({| heap_of := h; instance := instance p; cProvider := cProvider p;
                      cOptions := cOptions p; cManager := Some m; loads := loads p |}, inr m)
          end
      end
  end.

Definition LoadE_end (p : process) (cfg : nat) : process := on_instance p (Some cfg).

(** [LoadE] without interference. *)
Definition LoadE (p : process) : outcome (process * result string nat) :=
  r ← LoadE_begin p;
  match r with
  | (p, inl r) => Ret (p, r)
  | (p, inr m) =>
      r ← Manager_Load (heap_of p) (Some m);
      match r with
      | (h, Err e) => Ret (on_heap p h, Err e)
      | (h, Ok cfg) => Ret (LoadE_end (on_heap p h) cfg, Ok cfg)
      end
  end.

(** [Load]: the fatal hook on an error, then nil. *)
Definition config_Load (p : process) : outcome (process * option nat * bool) :=
  r ← LoadE p;
  match r with
  | (p, Ok cfg) => Ret (p, Some cfg, false)
  | (p, Err _) => Ret (p, None, true)
  end.

Definition config_Close (p : process) : process :=
  {| heap_of := CfgManager_Close (heap_of p) (cManager p); instance := None;
     cProvider := ConfigProviderKoanf; cOptions := None; cManager := None; loads := loads p |}.

(** ** The updater goroutine *)

Definition updateChannel (h : heap) (k : Koanf) : option nat :=
  match k_updates k with
  | Some c => Some c
  | None =>
      m ← h_managers h !! k_opts k;
      w ← o_WatcherOptions (c_options m);
      cw_UpdateChannel w   (* [None] is the package-level [ContentUpdateChannel] *)
  end.

Definition at_pc (u : updater) (pc : updater_pc) : updater :=
  {| u_koanf := u_koanf u; u_ctx := u_ctx u; u_pc := pc |}.
Definition goto (h : heap) (g : nat) (u : updater) (pc : updater_pc) : heap :=
  on_updaters h (<[g := at_pc u pc]> (h_updaters h)).

(** [applyUpdate] up to the reload: the update reaches the file or the options. *)
Definition applyUpdate_store (o : write_outcome) (h : heap) (g : nat) (u : updater) (k : Koanf) (m : CfgManager)
    (entry : option UpdaterSchema) : heap :=
  match entry with
  | None => h
  | Some e =>
      if ContentSource e =? SourceFile then
        let '(fs, r) := WriteFile o (h_fs h) (o_FilePath (c_options m)) (Content e) 420 in
        let h := on_fs h fs in
        match r with
        | Err _ => h
        | Ok _ => goto h g u (UReloading e)
        end
      else if ContentSource e =? SourceRawBytes then
        let m := with_options m (with_Content (c_options m) (Content e)) in
        goto (on_managers h (<[k_opts k := m]> (h_managers h))) g u (UReloading e)
      else goto h g u (UReloading e)
  end.

(** [newKoanf(k.opts)]: an error is logged and the loop goes on. *)
Definition applyUpdate_reload (h : heap) (g : nat) (u : updater) (k : Koanf) (m : CfgManager)
    (entry : UpdaterSchema) : heap :=
  match newKoanf (h_fs h) (c_options m) with
  | Err _ => goto h g u UWaiting
  | Ok s =>
      let k' := {| k_opts := k_opts k; k_koanf := s; k_updates := None; k_onReload := None |} in
      goto (bump (on_configs h (<[h_next h := k']> (h_configs h)))) g u (UPublishing (h_next h) entry)
  end.

(** The rest: publish, call back. [cb] says whether the callback panics. *)
Definition applyUpdate_publish (cb : bool) (p : process) (k : Koanf) (m : CfgManager) (cfg : nat)
  : process * outcome unit :=
  let p := match k_onReload k with
           | Some i => on_heap p (setConfig (heap_of p) i (Some cfg))
           | None => on_instance p (Some cfg)
           end in
  match o_WatcherOptions (c_options m) with
  | None => (p, Panic nil_dereference)
  | Some w =>
      if cw_OnUpdateCallback w then
        (on_heap p (on_callbacks (heap_of p) (S (h_callbacks (heap_of p)))),
         if cb then Panic "OnUpdateCallback" else Ret tt)
      else (p, Ret tt)
  end.

(** After [applyUpdate]: the loop goes on, or the deferred function recovers. [hook] says
    whether [watchUpdaterRestartHook] is set; if so it runs instead of a new loop. *)
Definition after_update (hook : bool) (h : heap) (u : updater) (r : outcome unit) : updater_pc :=
  match r with
  | Ret _ => UWaiting
  | Panic _ => if hook || ctx_done h (u_ctx u) then UStopped else UWaiting
  end.

Definition watch_publish_round (cb hook : bool) (p : process) (g : nat) (u : updater) (k : Koanf)
    (m : CfgManager) (cfg : nat) : process :=
  let '(p, r) := applyUpdate_publish cb p k m cfg in
  on_heap p (goto (heap_of p) g u (after_update hook (heap_of p) u r)).

(** [Koanf.Set] changes the store of one configuration. *)
Definition Koanf_Set {V} (koanf_set : Store → string → V → result string Store) (h : heap) (a : nat)
    (key : string) (v : V) : heap * result string unit :=
  match h_configs h !! a with
  | None => (h, Err "nil configuration")
  | Some k =>
      match koanf_set (k_koanf k) key v with
      | Err e => (h, Err e)
      | Ok s => (on_configs h (<[a := {| k_opts := k_opts k; k_koanf := s; k_updates := k_updates k;
                                         k_onReload := k_onReload k |}]> (h_configs h)), Ok ())
      end
  end.

(** The steps of an updater goroutine. When an update waits and the context is done, its
    [select] may take either. *)
Inductive updater_step : process → process → Prop :=
  | us_store o p g u k m entry :
      h_updaters (heap_of p) !! g = Some u → u_pc u = UWaiting →
      h_configs (heap_of p) !! u_koanf u = Some k → h_managers (heap_of p) !! k_opts k = Some m →
      updater_step p (on_heap p (applyUpdate_store o (heap_of p) g u k m entry))
  | us_reload p g u k m entry :
      h_updaters (heap_of p) !! g = Some u → u_pc u = UReloading entry →
      h_configs (heap_of p) !! u_koanf u = Some k → h_managers (heap_of p) !! k_opts k = Some m →
      updater_step p (on_heap p (applyUpdate_reload (heap_of p) g u k m entry))
  | us_publish cb hook p g u k m cfg entry :
      h_updaters (heap_of p) !! g = Some u → u_pc u = UPublishing cfg entry →
      h_configs (heap_of p) !! u_koanf u = Some k → h_managers (heap_of p) !! k_opts k = Some m →
      updater_step p (watch_publish_round cb hook p g u k m cfg)
  | us_stop p g u :
      h_updaters (heap_of p) !! g = Some u → u_pc u = UWaiting → ctx_done (heap_of p) (u_ctx u) = true →
      updater_step p (on_heap p (goto (heap_of p) g u UStopped)).

(** The steps of a process: callers of the package and of managers, the three sections of
    [LoadE] (call [t]), goroutines, and whoever else writes files. *)
Inductive config_step : process → process → Prop :=
  | cs_init p provider opts p' r : config_Init p provider opts = Ret (p', r) → config_step p p'
  | cs_close p : config_step p (config_Close p)
  | cs_load_begin p t p' m :
      loads p !! t = None → LoadE_begin p = Ret (p', inr m) →
      config_step p (on_loads p' (<[t := LCreated m]> (loads p')))
  | cs_load_answer p p' r : LoadE_begin p = Ret (p', inl r) → config_step p p'
  | cs_load_manager p t m h cfg :
      loads p !! t = Some (LCreated m) → Manager_Load (heap_of p) (Some m) = Ret (h, Ok cfg) →
      config_step p (on_loads (on_heap p h) (<[t := LLoaded cfg]> (loads p)))
  | cs_load_fail p t m h e :
      loads p !! t = Some (LCreated m) → Manager_Load (heap_of p) (Some m) = Ret (h, Err e) →
      config_step p (on_loads (on_heap p h) (delete t (loads p)))
  | cs_load_end p t cfg :
      loads p !! t = Some (LLoaded cfg) →
      config_step p (on_loads (LoadE_end p cfg) (delete t (loads p)))
  | cs_new p provider opts h r :
      config_NewManager (heap_of p) provider opts = Ret (h, r) → config_step p (on_heap p h)
  | cs_manager_load p i h r :
      Manager_Load (heap_of p) i = Ret (h, r) → config_step p (on_heap p h)
  | cs_manager_close p i : config_step p (on_heap p (CfgManager_Close (heap_of p) i))
  | cs_set (V : Type) (koanf_set : Store → string → V → result string Store) p a key v h r :
      Koanf_Set koanf_set (heap_of p) a key v = (h, r) → config_step p (on_heap p h)
  | cs_cancel p c : (* whoever holds a parent context cancels it *)
      (c < h_next (heap_of p))%nat →
      config_step p (on_heap p (on_cancelled (heap_of p) ({[ c ]} ∪ h_cancelled (heap_of p))))
  | cs_files p fs : config_step p (on_heap p (on_fs (heap_of p) fs))
  | cs_updater p p' : updater_step p p' → config_step p p'.

Definition fresh_process (fs : filesystem) (ctxs : nat) : process :=
  {| heap_of := {| h_fs := fs; h_managers := ∅; h_configs := ∅; h_updaters := ∅; h_watches := [];
                   h_cancelled := ∅; h_next := ctxs; h_callbacks := 0 |};
     instance := None; cProvider := ConfigProviderKoanf; cOptions := None; cManager := None; loads := ∅ |}.

(** ** Well-formed heaps *)

(** What [Validate] checked once and no operation changes. *)
Definition options_ok (o : ConfigOptions) : Prop :=
  o_Source o ∈ [SourceFile; SourceRawBytes] ∧ o_Format o ∈ [FormatJson] ∧
  (o_EnableWatch o = true → is_Some (o_WatcherOptions o)).

Definition config_of (h : heap) (i : nat) (a : nat) : Prop :=
  ∃ k, h_configs h !! a = Some k ∧ k_opts k = i.

Definition watch_ctx (m : CfgManager) : option Ctx := o_WatcherOptions (c_options m) ≫= cw_WatchContext.

Definition manager_ok (h : heap) (i : nat) (m : CfgManager) : Prop :=
  (i < h_next h)%nat ∧ c_provider m = ConfigProviderKoanf ∧ options_ok (c_options m) ∧
  (∀ a, c_config m = Some a → config_of h i a) ∧
  ∀ c, c_cancel m = Some c → c ∈ default [] (watch_ctx m) ∧ (c < h_next h)%nat.

Definition koanf_ok (h : heap) (a : nat) (k : Koanf) : Prop :=
  (a < h_next h)%nat ∧ is_Some (h_managers h !! k_opts k).

(** A goroutine serves a configuration built by its manager, is ended by the cancel function
    of its own address, and that function was called or is the manager's current one. *)
Definition updater_ok (h : heap) (g : nat) (u : updater) : Prop :=
  (g < h_next h)%nat ∧
  ∃ k m rest, h_configs h !! u_koanf u = Some k ∧ h_managers h !! k_opts k = Some m ∧
    k_onReload k = Some (k_opts k) ∧ k_updates k = Some (k_opts k) ∧
    o_EnableWatch (c_options m) = true ∧ u_ctx u = g :: rest ∧
    (g ∈ h_cancelled h ∨ c_cancel m = Some g ∧ watch_ctx m = Some (u_ctx u)) ∧
    ∀ a e, u_pc u = UPublishing a e → config_of h (k_opts k) a.

Definition heap_ok (h : heap) : Prop :=
  (∀ i m, h_managers h !! i = Some m → manager_ok h i m) ∧
  (∀ a k, h_configs h !! a = Some k → koanf_ok h a k) ∧
  (∀ g u, h_updaters h !! g = Some u → updater_ok h g u) ∧
  (∀ c, c ∈ h_cancelled h → (c < h_next h)%nat).

(** Later heaps: nothing is freed, links stay, cancelled functions stay cancelled. *)
Definition same_links (k k' : Koanf) : Prop :=
  k_opts k' = k_opts k ∧ k_onReload k' = k_onReload k ∧ k_updates k' = k_updates k.
Definition manager_le (h' : heap) (m m' : CfgManager) : Prop :=
  o_EnableWatch (c_options m') = o_EnableWatch (c_options m) ∧
  default [] (watch_ctx m) ⊆ default [] (watch_ctx m') ∧
  ∀ c, c_cancel m = Some c → c ∈ h_cancelled h' ∨ c_cancel m' = Some c ∧ watch_ctx m' = watch_ctx m.
Definition heap_le (h h' : heap) : Prop :=
  (h_next h ≤ h_next h')%nat ∧ h_cancelled h ⊆ h_cancelled h' ∧
  (∀ i m, h_managers h !! i = Some m → ∃ m', h_managers h' !! i = Some m' ∧ manager_le h' m m') ∧
  (∀ a k, h_configs h !! a = Some k → ∃ k', h_configs h' !! a = Some k' ∧ same_links k k').

(** A goroutine of manager [i] that has not been told to stop. *)
Definition active_updater (h : heap) (i g : nat) : Prop :=
  ∃ u k, h_updaters h !! g = Some u ∧ h_configs h !! u_koanf u = Some k ∧ k_opts k = i ∧
    ctx_done h (u_ctx u) = false.

Definition process_ok (p : process) : Prop :=
  heap_ok (heap_of p) ∧
  (∀ i, cOptions p = Some i → is_Some (h_managers (heap_of p) !! i)) ∧
  (∀ i, cManager p = Some i → is_Some (h_managers (heap_of p) !! i)) ∧
  (∀ a, instance p = Some a → is_Some (h_configs (heap_of p) !! a)) ∧
  cProvider p = ConfigProviderKoanf ∧
  (∀ t l, loads p !! t = Some l → match l with
     | LCreated m => is_Some (h_managers (heap_of p) !! m)
     | LLoaded a => is_Some (h_configs (heap_of p) !! a)
     end).

End config.

(** ** env.go: the build environment *)

Record environment : Type := { e_vars : gmap string string; buildEnv : string }.
Definition buildEnvKey : string := "BuildEnvMode".
Definition EnvProduction : string := "production".
Definition EnvDevelopment : string := "development".

(** [os.Setenv]: a name is not empty and holds neither [=] nor NUL, a value no NUL. *)
Definition env_key_ok (key : string) : bool :=
  negb (bool_decide (key = "")) &&
  forallb (λ c, negb (Ascii.eqb c (Ascii.ascii_of_nat 61)) && negb (Ascii.eqb c Ascii.zero)) (String.list_ascii_of_string key).
Definition env_value_ok (value : string) : bool :=
  forallb (λ c, negb (Ascii.eqb c Ascii.zero)) (String.list_ascii_of_string value).

Definition GetEnv (e : environment) (key : string) : string := default "" (e_vars e !! key).

Definition SetEnv (e : environment) (key value : string) : environment * result string unit :=
  if env_key_ok key && env_value_ok value
  then ({| e_vars := <[key := value]> (e_vars e); buildEnv := buildEnv e |}, Ok ())
  else (e, Err "invalid argument").

Definition SetBuildEnvironment (e : environment) (mode : string) : environment * result string unit :=
  SetEnv {| e_vars := e_vars e; buildEnv := mode |} buildEnvKey mode.

Definition GetBuildEnvironment (e : environment) : string :=
  if decide (buildEnv e = "") then GetEnv e buildEnvKey else buildEnv e.

(** Setting the build environment and reading it back, in the process or in a child that
    inherits its variables. *)
Lemma BuildEnvironment_roundtrip e mode :
  GetBuildEnvironment (SetBuildEnvironment e mode).1 = mode ∧
  (env_value_ok mode = true →
   GetBuildEnvironment {| e_vars := e_vars (SetBuildEnvironment e mode).1; buildEnv := "" |} = mode).
Proof.
  unfold SetBuildEnvironment, SetEnv, GetBuildEnvironment, GetEnv.
  assert (env_key_ok buildEnvKey = true) as -> by done. destruct (env_value_ok mode) eqn:Ev; cbn [andb fst buildEnv e_vars].
  - rewrite lookup_insert_eq. cbn. split; [by case_decide|done].
  - split; [|done]. case_decide as Hm; [|done]. by rewrite Hm in Ev.
Qed.
