(* ===== verification/ConfigProps.v ===== *)
(** * What the configuration package guarantees

    The invariant of [ConfigManager] along any interleaving: no operation panics, and a manager
    has at most one updater goroutine that is not told to stop. What an update does to the
    manager and to the package, and the races of [Close], [LoadE] and updates in flight. *)

From Stdlib Require Import ZArith Lia.
From stdpp Require Import base numbers strings gmap list relations.
From S2P Require Import Prelude GoValue SqlText Http FeatureLifecycle ConfigManager.
Local Open Scope Z_scope.

Section props.
Context {Store : Type} (koanf_load : string → string → result string Store).
Implicit Types (h : heap (Store := Store)) (p : process (Store := Store)) (m : CfgManager) (k : Koanf (Store := Store)).

(** ** Later heaps *)

Lemma manager_le_same h m m' :
  o_EnableWatch (c_options m') = o_EnableWatch (c_options m) → watch_ctx m' = watch_ctx m →
  c_cancel m' = c_cancel m → manager_le h m m'.
Proof. intros E1 E2 E3. unfold manager_le. rewrite E1, E2, E3. auto. Qed.

(** A change that leaves managers and configurations alone. *)
Lemma heap_le_same h h' :
  (h_next h ≤ h_next h')%nat → h_cancelled h ⊆ h_cancelled h' → h_managers h' = h_managers h →
  h_configs h' = h_configs h → heap_le h h'.
Proof.
  intros Hn Hc Em Ek. unfold heap_le. rewrite Em, Ek. split; [done|]. split; [done|]. split.
  - intros i m E. exists m. split; [done|]. by apply manager_le_same.
  - intros a k E. by exists k.
Qed.

#[export] Instance heap_le_preorder : PreOrder (heap_le (Store := Store)).
Proof.
  split.
  - intros h. by apply heap_le_same.
  - intros h1 h2 h3 (Hn & Hc & Hm & Hk) (Hn' & Hc' & Hm' & Hk'). split; [lia|]. split; [set_solver|]. split.
    + intros i m E. destruct (Hm i m E) as (m2 & E2 & He & Hx & Hcan).
      destruct (Hm' i m2 E2) as (m3 & E3 & He' & Hx' & Hcan').
      exists m3. split; [done|]. split; [congruence|]. split; [by etrans|]. intros c Ec.
      destruct (Hcan c Ec) as [?|[Ec2 Ew]]; [left; set_solver|]. rewrite <-Ew. auto.
    + intros a k E. destruct (Hk a k E) as (k2 & E2 & ? & ? & ?). destruct (Hk' a k2 E2) as (k3 & E3 & ? & ? & ?).
      exists k3. split; [done|]. repeat split; congruence.
Qed.

Lemma config_of_mono h h' i a : heap_le h h' → config_of h i a → config_of h' i a.
Proof.
  intros (_ & _ & _ & Hk) (k & E & <-). destruct (Hk a k E) as (k' & E' & ? & _). by exists k'.
Qed.

Lemma manager_ok_mono h h' i m : heap_le h h' → manager_ok h i m → manager_ok h' i m.
Proof.
  intros Hle (Hi & Hp & Ho & Hc & Hcan). split; [destruct Hle; lia|]. split; [done|]. split; [done|].
  split; [eauto using config_of_mono|].
  intros c Ec. destruct (Hcan c Ec). split; [done|]. destruct Hle; lia.
Qed.

Lemma koanf_ok_mono h h' a k : heap_le h h' → koanf_ok h a k → koanf_ok h' a k.
Proof.
  intros (Hn & _ & Hm & _) (Ha & m & E). destruct (Hm _ _ E) as (m' & E' & _). split; [lia|by exists m'].
Qed.

Lemma updater_ok_mono h h' g u : heap_le h h' → updater_ok h g u → updater_ok h' g u.
Proof.
  intros Hle (Hg & k & m & rest & Ek & Em & Hr & Hu & Hw & Hctx & Hc & Hpc).
  pose proof Hle as (Hn & Hcan & Hms & Hks). split; [lia|].
  destruct (Hms _ _ Em) as (m' & Em' & Hw' & _ & Hcc). destruct (Hks _ _ Ek) as (k' & Ek' & Eo & Er & Eu).
  exists k', m', rest. rewrite Eo. split; [done|]. split; [done|]. split; [congruence|]. split; [congruence|].
  split; [congruence|]. split; [done|]. split.
  - destruct Hc as [?|[E Ew]]; [left; set_solver|]. rewrite <-Ew. by apply Hcc.
  - eauto using config_of_mono.
Qed.

(** A later heap is well formed when what it changed is. *)
Lemma heap_ok_later h h' :
  heap_ok h → heap_le h h' →
  (∀ i m, h_managers h' !! i = Some m → h_managers h !! i = Some m ∨ manager_ok h' i m) →
  (∀ a k, h_configs h' !! a = Some k → h_configs h !! a = Some k ∨ koanf_ok h' a k) →
  (∀ g u, h_updaters h' !! g = Some u → h_updaters h !! g = Some u ∨ updater_ok h' g u) →
  (∀ c, c ∈ h_cancelled h' → c ∈ h_cancelled h ∨ (c < h_next h')%nat) →
  heap_ok h'.
Proof.
  intros (Hm & Hk & Hu & Hc) Hle Hm' Hk' Hu' Hc'. split; [|split; [|split]].
  - intros i m E. destruct (Hm' i m E); [eauto using manager_ok_mono|done].
  - intros a k E. destruct (Hk' a k E); [eauto using koanf_ok_mono|done].
  - intros g u E. destruct (Hu' g u E); [eauto using updater_ok_mono|done].
  - intros c E. destruct (Hc' c E) as [H|]; [|done]. apply Hc in H. destruct Hle. lia.
Qed.

Lemma fresh_lookup {A} (P : nat → A → Prop) (mp : gmap nat A) n :
  (∀ i x, mp !! i = Some x → P i x) → (∀ x, P n x → False) → mp !! n = None.
Proof. intros H Hn. destruct (mp !! n) as [x|] eqn:E; [|done]. exfalso. eauto. Qed.

Lemma fresh_manager h : heap_ok h → h_managers h !! h_next h = None.
Proof. intros (Hm & _ & _). eapply fresh_lookup; [exact Hm|]. intros x [H _]. lia. Qed.
Lemma fresh_config h : heap_ok h → h_configs h !! h_next h = None.
Proof. intros (_ & Hk & _). eapply fresh_lookup; [exact Hk|]. intros x [H _]. lia. Qed.

(** ** Every operation on the heap *)

(** The links of managers survive a change of one manager that keeps what matters. *)
Lemma heap_le_manager h i m m' :
  h_managers h !! i = Some m → manager_le h m m' → heap_le h (on_managers h (<[i := m']> (h_managers h))).
Proof.
  intros E Hle. split; [done|]. split; [done|]. split; [|intros a k Ek; exists k; done].
  intros j x Ex. cbn [on_managers h_managers]. destruct (decide (i = j)) as [<-|Hne].
  - exists m'. rewrite lookup_insert_eq. simplify_eq. done.
  - exists x. rewrite lookup_insert_ne by done. split; [done|]. by apply manager_le_same.
Qed.

(** Changing one manager. *)
Lemma heap_ok_manager h i m m' :
  heap_ok h → h_managers h !! i = Some m → manager_le h m m' →
  c_provider m' = c_provider m → options_ok (c_options m') → (∀ a, c_config m' = Some a → config_of h i a) →
  (∀ c, c_cancel m' = Some c → c ∈ default [] (watch_ctx m') ∧ (c < h_next h)%nat) →
  heap_ok (on_managers h (<[i := m']> (h_managers h))).
Proof.
  intros Hok E Hle Hp Ho Hc Hcan. pose proof (heap_le_manager _ _ _ _ E Hle) as Hl.
  apply (heap_ok_later h); [done..| |auto|auto|auto].
  intros j x. cbn. rewrite lookup_insert_Some. intros [[<- <-]|[_ Hx]]; [|auto]. right.
  destruct Hok as (Hms & _). destruct (Hms i m E) as (? & ? & _). split; [done|]. split; [congruence|].
  split; [done|]. split; [|done]. intros a Ha. eapply config_of_mono; eauto.
Qed.

Lemma heap_le_goto h g u pc : heap_le h (goto h g u pc).
Proof. by apply heap_le_same. Qed.

(** Moving a goroutine. *)
Lemma heap_ok_goto h g u pc :
  heap_ok h → h_updaters h !! g = Some u →
  (∀ a e, pc = UPublishing a e → ∃ k, h_configs h !! u_koanf u = Some k ∧ config_of h (k_opts k) a) →
  heap_ok (goto h g u pc).
Proof.
  intros Hok E Hpc. apply (heap_ok_later h); [done|apply heap_le_goto|auto|auto| |auto].
  intros g' u'. cbn. rewrite lookup_insert_Some. intros [[<- <-]|[_ Hu]]; [|auto]. right.
  destruct Hok as (_ & _ & Hu & _). destruct (Hu g u E) as (Hg & k & m & rest & Ek & Em & Hr & Hup & Hw & Hctx & Hc & _).
  split; [done|]. exists k, m, rest. repeat (split; [done|]). intros a e Hp. cbn in Hp.
  destruct (Hpc a e Hp) as (k' & Ek' & Hcf). simplify_eq. done.
Qed.

Lemma heap_le_fs h fs : heap_le h (on_fs h fs).
Proof. by apply heap_le_same. Qed.
Lemma heap_ok_fs h fs : heap_ok h → heap_ok (on_fs h fs).
Proof. intros H. apply (heap_ok_later h); [done|apply heap_le_fs|auto..]. Qed.

(** Allocating a configuration of a manager. *)
Definition alloc_config h k : heap := bump (on_configs h (<[h_next h := k]> (h_configs h))).
Lemma heap_le_alloc_config h k : heap_ok h → heap_le h (alloc_config h k).
Proof.
  intros Hok. split; [cbn; lia|]. split; [done|]. split; [intros i m E; exists m; split; [done|by apply manager_le_same]|].
  intros a k' E. exists k'. split; [|done]. cbn. rewrite lookup_insert_ne; [done|].
  intros <-. by rewrite (fresh_config _ Hok) in E.
Qed.
Lemma heap_ok_alloc_config h k :
  heap_ok h → is_Some (h_managers h !! k_opts k) → heap_ok (alloc_config h k).
Proof.
  intros Hok Hm. apply (heap_ok_later h); [done|by apply heap_le_alloc_config|auto| |auto|auto].
  intros a k'. cbn. rewrite lookup_insert_Some. intros [[<- <-]|[_ Hu]]; [|auto]. right. split; [cbn; lia|done].
Qed.

(** Validation gives what the invariant keeps. *)
Lemma Validate_Ok fs o : Options_Validate fs (Some o) = Ok () → options_ok o.
Proof.
  unfold Options_Validate. case_bool_decide as H1; [|done]. case_bool_decide as H2; [|done]. cbn [negb].
  destruct (_ && _); [done|]. destruct (_ && _); [done|]. intros E. split; [done|]. split; [done|].
  intros Hw. rewrite Hw in E. cbn in E. case_bool_decide as H3; [done|]. by apply not_eq_None_Some.
Qed.

Lemma populate_total o : options_ok o →
  ∃ o', config_populateRequiredOptionsProperties (Some o) = Ret (Some o') ∧ options_ok o'.
Proof.
  intros (Hs & Hf & Hw). unfold config_populateRequiredOptionsProperties.
  set (o1 := if decide (o_Delimiter o = "") then _ else o).
  assert (o_EnableWatch o1 = o_EnableWatch o ∧ o_WatcherOptions o1 = o_WatcherOptions o ∧
    o_Source o1 = o_Source o ∧ o_Format o1 = o_Format o) as (E1 & E2 & E3 & E4) by (unfold o1; by case_decide).
  rewrite E1, E2. destruct (o_EnableWatch o) eqn:Ew.
  - destruct (Hw eq_refl) as [w ->]. eexists. split; [done|]. unfold options_ok. cbn. rewrite E3, E4. eauto.
  - exists o1. split; [done|]. unfold options_ok. rewrite E1, E2, E3, E4. eauto.
Qed.

(** ** manager.go keeps heaps well formed and never panics *)

Lemma allowed_provider provider :
  typesExistsInAllowedProviders provider = true → provider = ConfigProviderKoanf.
Proof. unfold typesExistsInAllowedProviders. cbn. rewrite orb_false_r. apply String.eqb_eq. Qed.

Lemma NewManager_keeps h provider opts :
  heap_ok h → ∃ h' r, config_NewManager h provider opts = Ret (h', r) ∧ heap_ok h' ∧ heap_le h h' ∧
    match r with
    | Err _ => h' = h
    | Ok i => i = h_next h ∧ is_Some (h_managers h' !! i) ∧
        typesExistsInAllowedProviders (if decide (provider = "") then ConfigProviderKoanf else provider) = true
    end.
Proof.
  intros Hok. unfold config_NewManager. set (pr := if decide (provider = "") then _ else provider).
  destruct (typesExistsInAllowedProviders pr) eqn:Ep; cbn [negb];
    [|eexists _, _; split; [done|]; split; [done|]; split; [reflexivity|done]].
  apply allowed_provider in Ep as Ep'.
  destruct (Options_Validate (h_fs h) opts) as [[]|e] eqn:Ev;
    [|eexists _, _; split; [done|]; split; [done|]; split; [reflexivity|done]].
  destruct opts as [o|]; [|done]. apply Validate_Ok in Ev. destruct (populate_total o Ev) as (o' & Eo & Ho).
  unfold cloneOptions, mbind, outcome_bind. rewrite Eo. eexists _, _. split; [done|].
  set (m := {| c_config := None; c_provider := pr; c_options := o'; c_cancel := None |}).
  assert (heap_le h (bump (on_managers h (<[h_next h := m]> (h_managers h))))) as Hle.
  { split; [cbn; lia|]. split; [done|]. split; [|intros a k E; exists k; done].
    intros i x E. exists x. split; [|by apply manager_le_same]. cbn. rewrite lookup_insert_ne; [done|].
    intros <-. by rewrite (fresh_manager _ Hok) in E. }
  split; [|split; [done|split; [done|split; [cbn; by rewrite lookup_insert_eq|done]]]].
  apply (heap_ok_later h); [done|done| |auto|auto|auto].
  intros i x. cbn. rewrite lookup_insert_Some. intros [[<- <-]|[_ Hx]]; [|auto]. right.
  split; [cbn; lia|]. by repeat (split; [done|]).
Qed.

Lemma startWatcherLocked_keeps h i m cfg :
  heap_ok h → h_managers h !! i = Some m →
  (∃ k, h_configs h !! cfg = Some k ∧ k_opts k = i ∧ k_onReload k = Some i ∧ k_updates k = Some i) →
  heap_ok (startWatcherLocked h i m cfg) ∧ heap_le h (startWatcherLocked h i m cfg) ∧
  h_configs (startWatcherLocked h i m cfg) = h_configs h.
Proof.
  intros Hok Em (k & Ek & Eo & Er & Eu). unfold startWatcherLocked.
  destruct (c_cancel m) eqn:Ec; [done|]. destruct (o_WatcherOptions (c_options m)) as [w|] eqn:Ew; [|done].
  destruct (o_EnableWatch (c_options m)) eqn:Een; [|done]. cbv zeta.
  set (ctx := h_next h :: _). set (m' := with_cancel _ _). set (u := {| u_koanf := cfg |}).
  pose proof Hok as (Hms & _ & Hus & _). destruct (Hms i m Em) as (Hi & Hp & Ho & Hc & Hcan).
  set (h' := bump _).
  assert (heap_le h h') as Hle.
  { split; [cbn; lia|]. split; [done|]. split; [|intros a k' E; exists k'; done].
    intros j x E. cbn. destruct (decide (i = j)) as [<-|Hne].
    - exists m'. rewrite lookup_insert_eq. split; [done|]. simplify_eq. split; [done|]. split; [|congruence].
      unfold watch_ctx at 1. rewrite Ew. cbn. set_solver.
    - exists x. rewrite lookup_insert_ne by done. split; [done|]. by apply manager_le_same. }
  split; [|done]. apply (heap_ok_later h); [done|done| |auto| |auto].
  - intros j x. cbn. rewrite lookup_insert_Some. intros [[<- <-]|[_ Hx]]; [|auto]. right.
    split; [cbn; lia|]. split; [done|]. split; [|split; [intros a Ha; eapply config_of_mono; eauto|intros c [= <-]; cbn; split; [set_solver|lia]]].
    destruct Ho as (? & ? & ?). split; [done|]. split; [done|]. by exists
      {| cw_Logger := cw_Logger w; cw_OnUpdateCallback := cw_OnUpdateCallback w;
       cw_WatchContext := Some ctx; cw_ContentSource := o_Source (c_options m);
       cw_ContentFormat := o_Format (c_options m); cw_UpdateChannel := Some i |}.
  - intros g x. cbn. rewrite lookup_insert_Some. intros [[<- <-]|[_ Hx]]; [|auto]. right.
    split; [cbn; lia|]. exists k, m', (default [] (cw_WatchContext w)). rewrite Eo, Er, Eu.
    split; [done|]. split; [cbn; by rewrite lookup_insert_eq|]. repeat (split; [done|]). split; [by right|done].
Qed.

Lemma Manager_Load_keeps h i :
  heap_ok h → is_Some (h_managers h !! i) →
  ∃ h' r, Manager_Load koanf_load h (Some i) = Ret (h', r) ∧ heap_ok h' ∧ heap_le h h' ∧
    ∀ a, r = Ok a → is_Some (h_configs h' !! a).
Proof.
  intros Hok [m Em]. unfold Manager_Load. rewrite Em. pose proof Hok as (Hms & _ & _).
  destruct (Hms i m Em) as (Hi & Hp & Ho & Hc & Hcan).
  destruct (c_config m) as [a|] eqn:Ecfg.
  { eexists _, _. split; [done|]. split; [done|]. split; [reflexivity|].
    intros b [= <-]. destruct (Hc a eq_refl) as (k & -> & _). eauto. }
  unfold newConfigLocked. rewrite decide_True by done.
  destruct (newKoanf koanf_load (h_fs h) (c_options m)) as [s|e];
    [|eexists _, _; split; [done|]; split; [done|]; split; [reflexivity|done]].
  set (k := {| k_opts := i |}). change (bump _) with (alloc_config h k).
  assert (is_Some (h_managers h !! k_opts k)) as Hk by eauto.
  pose proof (heap_le_alloc_config h k Hok) as Hle1. pose proof (heap_ok_alloc_config h k Hok Hk) as Hok1.
  set (m1 := with_config m (Some (h_next h))). cbv zeta.
  assert (h_configs (alloc_config h k) !! h_next h = Some k) as Ek by (cbn; by rewrite lookup_insert_eq).
  assert (manager_le (alloc_config h k) m m1) as Hml by (by apply manager_le_same).
  pose proof (heap_le_manager (alloc_config h k) i m m1 Em Hml) as Hle2.
  assert (heap_ok (on_managers (alloc_config h k) (<[i := m1]> (h_managers (alloc_config h k))))) as Hok2.
  { eapply heap_ok_manager; [done|exact Em|done|done|done| |].
    - intros a [= <-]. by exists k.
    - intros c Ec. destruct (Hcan c Ec). split; [done|cbn; lia]. }
  edestruct (startWatcherLocked_keeps _ i m1 (h_next h) Hok2) as (Hok3 & Hle3 & Hcf).
  { cbn. by rewrite lookup_insert_eq. }
  { by exists k. }
  eexists _, _. split; [reflexivity|]. split; [done|]. split; [by do 2 (etrans; [done|])|].
  intros a [= <-]. rewrite Hcf. exists k. exact Ek.
Qed.

Lemma Close_keeps h i : heap_ok h → heap_ok (CfgManager_Close h i) ∧ heap_le h (CfgManager_Close h i).
Proof.
  intros Hok. unfold CfgManager_Close. destruct i as [i|]; [|done].
  destruct (h_managers h !! i) as [m|] eqn:Em; [|done]. cbv zeta.
  set (h1 := match c_cancel m with Some c => _ | None => h end).
  assert (heap_le h h1) as Hle1.
  { unfold h1. destruct (c_cancel m) as [c|]; [|done].
    apply heap_le_same; cbn; [done|set_solver|done|done]. }
  assert (h_managers h1 = h_managers h ∧ h_configs h1 = h_configs h ∧ h_updaters h1 = h_updaters h) as (E1 & E2 & E3).
  { unfold h1. by destruct (c_cancel m). }
  pose proof Hok as (Hms & _ & _). destruct (Hms i m Em) as (_ & _ & _ & _ & Hcan0).
  assert (heap_ok h1) as Hok1.
  { apply (heap_ok_later h); [done|done|rewrite ?E1, ?E2, ?E3; auto..|].
    intros c. unfold h1. destruct (c_cancel m) as [c'|]; [|auto]. cbn. rewrite elem_of_union, elem_of_singleton.
    intros [->|?]; [|auto]. right. by apply Hcan0. }
  clear Hms Hcan0. pose proof Hok1 as (Hms & _ & _). rewrite <-E1 in Em. destruct (Hms i m Em) as (Hi & Hp & Ho & Hc & Hcan).
  assert (manager_le h1 m (with_cancel (with_config m None) None)) as Hml.
  { split; [done|]. split; [done|]. intros c Ec. left. unfold h1. rewrite Ec. cbn. set_solver. }
  split.
  - eapply heap_ok_manager; [done|exact Em|done..].
  - etrans; [exact Hle1|]. eapply heap_le_manager; eauto.
Qed.

Lemma setConfig_keeps h i a : heap_ok h → config_of h i a → heap_ok (setConfig h i (Some a)) ∧ heap_le h (setConfig h i (Some a)).
Proof.
  intros Hok Ha. pose proof Hok as (Hms & Hks & _). destruct Ha as (k & Ek & Eo).
  destruct (Hks a k Ek) as (_ & m & Em). rewrite Eo in Em. destruct (Hms i m Em) as (Hi & Hp & Ho & Hc & Hcan).
  unfold setConfig. assert (alter (λ m, with_config m (Some a)) i (h_managers h) =
    <[i := with_config m (Some a)]> (h_managers h)) as ->.
  { apply map_eq. intros j. destruct (decide (i = j)) as [<-|Hne].
    - by rewrite lookup_alter_eq, lookup_insert_eq, Em.
    - by rewrite lookup_alter_ne, lookup_insert_ne. }
  assert (manager_le h m (with_config m (Some a))) as Hml by (by apply manager_le_same).
  split; [|by eapply heap_le_manager].
  eapply heap_ok_manager; [done|exact Em|done|done|done| |done]. intros b [= <-]. by exists k.
Qed.

(** ** So does the updater goroutine *)

Lemma store_keeps o h g u k m entry :
  heap_ok h → h_updaters h !! g = Some u → u_pc u = UWaiting →
  h_configs h !! u_koanf u = Some k → h_managers h !! k_opts k = Some m →
  heap_ok (applyUpdate_store o h g u k m entry) ∧ heap_le h (applyUpdate_store o h g u k m entry).
Proof.
  intros Hok Eu Hpc Ek Em. unfold applyUpdate_store. destruct entry as [e|]; [|done].
  destruct (ContentSource e =? SourceFile).
  { destruct (WriteFile o (h_fs h) (o_FilePath (c_options m)) (Content e) 420) as [fs [[]|er]].
    - split; [apply heap_ok_goto; [by apply heap_ok_fs|done|done]|].
      etrans; [apply heap_le_fs|apply heap_le_goto].
    - split; [by apply heap_ok_fs|apply heap_le_fs]. }
  destruct (ContentSource e =? SourceRawBytes); [|split; [by apply heap_ok_goto|apply heap_le_goto]].
  cbv zeta. set (m' := with_options m _). pose proof Hok as (Hms & _ & _).
  destruct (Hms _ m Em) as (Hi & Hp & Ho & Hc & Hcan).
  assert (manager_le h m m') as Hml by (by apply manager_le_same).
  split.
  - apply heap_ok_goto; [|done|done]. eapply heap_ok_manager; eauto.
  - etrans; [by eapply heap_le_manager|apply heap_le_goto].
Qed.

Lemma reload_keeps h g u k m entry :
  heap_ok h → h_updaters h !! g = Some u →
  h_configs h !! u_koanf u = Some k → h_managers h !! k_opts k = Some m →
  heap_ok (applyUpdate_reload koanf_load h g u k m entry) ∧
  heap_le h (applyUpdate_reload koanf_load h g u k m entry).
Proof.
  intros Hok Eu Ek Em. unfold applyUpdate_reload.
  destruct (newKoanf koanf_load (h_fs h) (c_options m)) as [s|e]; [|split; [by apply heap_ok_goto|apply heap_le_goto]].
  cbv zeta. set (k' := {| k_opts := k_opts k |}). change (bump _) with (alloc_config h k').
  assert (is_Some (h_managers h !! k_opts k')) as Hm by eauto.
  pose proof (heap_le_alloc_config h k' Hok) as Hle. pose proof (heap_ok_alloc_config h k' Hok Hm) as Hok'.
  split; [|by etrans; [exact Hle|apply heap_le_goto]].
  apply heap_ok_goto; [done|done|]. intros a e [= <- <-]. exists k. split.
  - cbn. rewrite lookup_insert_ne; [done|]. intros Heq. rewrite <-Heq, (fresh_config _ Hok) in Ek. done.
  - exists k'. split; [cbn; by rewrite lookup_insert_eq|done].
Qed.

Lemma heap_le_callbacks h n : heap_le h (on_callbacks h n).
Proof. by apply heap_le_same. Qed.
Lemma heap_ok_callbacks h n : heap_ok h → heap_ok (on_callbacks h n).
Proof. intros H. apply (heap_ok_later h); [done|apply heap_le_callbacks|auto..]. Qed.

(** A goroutine started by a manager publishes to that manager only, and [applyUpdate] does
    not panic unless the callback does. *)
Lemma publish_keeps cb hook p g u k m cfg entry :
  heap_ok (heap_of p) → h_updaters (heap_of p) !! g = Some u → u_pc u = UPublishing cfg entry →
  h_configs (heap_of p) !! u_koanf u = Some k → h_managers (heap_of p) !! k_opts k = Some m →
  let p' := watch_publish_round cb hook p g u k m cfg in
  heap_ok (heap_of p') ∧ heap_le (heap_of p) (heap_of p') ∧ p' = on_heap p (heap_of p') ∧
  h_configs (heap_of p') = h_configs (heap_of p) ∧
  c_config <$> (h_managers (heap_of p') !! k_opts k) = Some (Some cfg) ∧
  ∀ why, (applyUpdate_publish cb p k m cfg).2 = Panic why → cb = true ∧ why ≠ nil_dereference.
Proof.
  intros Hok Eu Hpc Ek Em. pose proof Hok as (Hms & _ & Hus & _).
  destruct (Hus g u Eu) as (Hg & k' & m' & rest & Ek' & Em' & Hr & Hup & Hw & Hctx & Hc & Hcf). simplify_eq.
  specialize (Hcf cfg entry Hpc).
  destruct (Hms _ m Em) as (_ & _ & (_ & _ & Hsome) & _). destruct (Hsome Hw) as [w Ew].
  unfold watch_publish_round, applyUpdate_publish. rewrite Hr, Ew. cbv zeta.
  destruct (setConfig_keeps (heap_of p) (k_opts k) cfg Hok Hcf) as (Hok1 & Hle1).
  set (p1 := on_heap p _).
  assert (∀ n pc, heap_ok (goto (on_callbacks (heap_of p1) n) g u pc) ∨ ∃ a e, pc = UPublishing a e) as Hgo.
  { intros n pc. destruct pc as [| |a e|] eqn:Epc; [left|left|right; eauto|left];
      (apply heap_ok_goto; [by apply heap_ok_callbacks|done|done]). }
  assert (h_managers (heap_of p1) !! k_opts k = Some (with_config m (Some cfg))) as Ep1.
  { cbn. by rewrite lookup_alter_eq, Em. }
  destruct (cw_OnUpdateCallback w).
  - set (h2 := on_callbacks _ _).
    set (pc := after_update _ _ _ _). assert (pc = UWaiting ∨ pc = UStopped) as Hpcs.
    { unfold pc, after_update. destruct cb; [destruct (_ || _)|]; auto. }
    cbn [heap_of on_heap]. split.
    { destruct (Hgo (S (h_callbacks (heap_of p1))) pc) as [?|(? & ? & ?)]; [done|]. destruct Hpcs; congruence. }
    split; [etrans; [exact Hle1|]; etrans; [apply heap_le_callbacks|apply heap_le_goto]|].
    split; [done|]. split; [done|]. split; [by cbn; rewrite lookup_alter_eq, Em|].
    intros why. destruct cb; [|done]. by intros [= <-].
  - cbn [after_update]. cbn [heap_of on_heap]. split.
    { apply heap_ok_goto; [exact Hok1|done|done]. }
    split; [etrans; [exact Hle1|apply heap_le_goto]|]. split; [done|]. split; [done|].
    split; [by cbn; rewrite lookup_alter_eq, Em|done].
Qed.

Lemma Koanf_Set_keeps {V} (koanf_set : Store → string → V → result string Store) h a key v h' r :
  heap_ok h → Koanf_Set koanf_set h a key v = (h', r) → heap_ok h' ∧ heap_le h h'.
Proof.
  intros Hok. unfold Koanf_Set. destruct (h_configs h !! a) as [k|] eqn:Ek; [|by intros [= <- <-]].
  destruct (koanf_set (k_koanf k) key v) as [s|e]; [|by intros [= <- <-]]. intros [= <- <-].
  set (k' := {| k_opts := k_opts k |}).
  assert (heap_le h (on_configs h (<[a := k']> (h_configs h)))) as Hle.
  { split; [done|]. split; [done|]. split; [intros i m E; exists m; split; [done|by apply manager_le_same]|].
    intros b x E. cbn. destruct (decide (a = b)) as [<-|Hne].
    - exists k'. rewrite lookup_insert_eq. by simplify_eq.
    - exists x. by rewrite lookup_insert_ne. }
  split; [|done]. apply (heap_ok_later h); [done|done|auto| |auto|auto].
  intros b x. cbn. rewrite lookup_insert_Some. intros [[<- <-]|[_ Hx]]; [|auto]. right.
  destruct Hok as (_ & Hks & _). exact (Hks a k Ek).
Qed.

(** ** The process *)

Lemma process_ok_heap p h : process_ok p → heap_ok h → heap_le (heap_of p) h → process_ok (on_heap p h).
Proof.
  intros (_ & Ho & Hm & Hi & Hp & Hl) Hok (_ & _ & Hms & Hks).
  assert (∀ i, is_Some (h_managers (heap_of p) !! i) → is_Some (h_managers h !! i)) as HM.
  { intros i [m E]. destruct (Hms i m E) as (m' & -> & _). eauto. }
  assert (∀ a, is_Some (h_configs (heap_of p) !! a) → is_Some (h_configs h !! a)) as HK.
  { intros a [k E]. destruct (Hks a k E) as (k' & -> & _). eauto. }
  split; [done|]. cbn [on_heap heap_of cOptions cManager instance cProvider loads].
  split; [eauto|]. split; [eauto|]. split; [eauto|]. split; [done|].
  intros t l E. specialize (Hl t l E). destruct l; eauto.
Qed.

Lemma Close_managers h i j : is_Some (h_managers h !! j) → heap_ok h → is_Some (h_managers (CfgManager_Close h i) !! j).
Proof.
  intros [m E] Hok. destruct (Close_keeps h i Hok) as (_ & _ & _ & Hms & _). destruct (Hms j m E) as (m' & -> & _). eauto.
Qed.

Lemma Init_keeps p provider opts : process_ok p →
  ∃ p' r, config_Init p provider opts = Ret (p', r) ∧ process_ok p' ∧ heap_le (heap_of p) (heap_of p').
Proof.
  intros Hp. pose proof Hp as (Hok & Ho & Hm & Hi & Hpr & Hl). unfold config_Init.
  set (pr := if decide (provider = "") then _ else provider).
  destruct (NewManager_keeps (heap_of p) pr opts Hok) as (h & r & E & Hok' & Hle & Hr).
  unfold mbind, outcome_bind. rewrite E. destruct r as [m|e].
  - destruct Hr as (-> & Hm' & Hal). eexists _, _. split; [done|].
    destruct (Close_keeps h (cManager p) Hok') as (Hok2 & Hle2).
    pose proof (process_ok_heap p _ Hp Hok2 (transitivity Hle Hle2)) as (_ & Ho2 & Hm2 & Hi2 & _ & Hl2).
    split; [|by etrans]. split; [done|]. cbn [heap_of cOptions cManager instance cProvider loads].
    assert (is_Some (h_managers (CfgManager_Close h (cManager p)) !! h_next (heap_of p))) as HM by (by apply Close_managers).
    split; [by intros i [= <-]|]. split; [by intros i [= <-]|]. split; [done|]. split; [|exact Hl2].
    apply allowed_provider in Hal. unfold pr in *. revert Hal. by repeat case_decide.
  - rewrite Hr. eexists _, _. split; [done|]. split; [by apply process_ok_heap|reflexivity].
Qed.

Lemma LoadE_begin_keeps p : process_ok p →
  ∃ p' r, LoadE_begin p = Ret (p', r) ∧ process_ok p' ∧ heap_le (heap_of p) (heap_of p') ∧ loads p' = loads p ∧
    match r with
    | inr m => is_Some (h_managers (heap_of p') !! m) ∧ cManager p' = Some m
    | inl _ => True
    end.
Proof.
  intros Hp. pose proof Hp as (Hok & Ho & Hm & Hi & Hpr & Hl). unfold LoadE_begin.
  destruct (instance p) as [a|]; [by eexists _, _|]. destruct (cOptions p) as [oi|] eqn:Eo; [|by eexists _, _]. cbv zeta.
  destruct (Close_keeps (heap_of p) (cManager p) Hok) as (Hok1 & Hle1).
  set (h1 := CfgManager_Close (heap_of p) (cManager p)) in *.
  destruct (NewManager_keeps h1 (cProvider p) (c_options <$> h_managers h1 !! oi) Hok1) as (h & r & E & Hok' & Hle & Hr).
  unfold mbind, outcome_bind. rewrite E.
  pose proof (transitivity Hle1 Hle) as Hle2. pose proof (process_ok_heap p h Hp Hok' Hle2) as Hp'. destruct r as [m|e].
  - destruct Hr as (-> & Hm' & _). eexists _, _. split; [done|].
    destruct Hp' as (_ & Ho2 & Hm2 & Hi2 & Hpr2 & Hl2). split; [|done].
    split; [done|]. split; [by rewrite <-Eo|]. split; [by intros i [= <-]|]. done.
  - by eexists _, _.
Qed.

Lemma process_ok_loads p t l :
  process_ok p → match l with LCreated m => is_Some (h_managers (heap_of p) !! m)
                            | LLoaded a => is_Some (h_configs (heap_of p) !! a) end →
  process_ok (on_loads p (<[t := l]> (loads p))).
Proof.
  intros (Hok & Ho & Hm & Hi & Hpr & Hl) H. repeat (split; [done|]). intros t' l'. cbn.
  rewrite lookup_insert_Some. intros [[_ <-]|[_ E]]; [done|]. exact (Hl t' l' E).
Qed.

Lemma process_ok_unload p t : process_ok p → process_ok (on_loads p (delete t (loads p))).
Proof.
  intros (Hok & Ho & Hm & Hi & Hpr & Hl). repeat (split; [done|]). intros t' l'. cbn.
  rewrite lookup_delete_Some. intros [_ E]. exact (Hl t' l' E).
Qed.

(** Every step keeps the invariant and leads to a later heap. *)
Definition keeps p p' : Prop := process_ok p' ∧ heap_le (heap_of p) (heap_of p').

Lemma keeps_heap p h : process_ok p → heap_ok h ∧ heap_le (heap_of p) h → keeps p (on_heap p h).
Proof. intros Hp [Hok Hle]. split; [by apply process_ok_heap|done]. Qed.

Lemma updater_step_keeps p p' : process_ok p → updater_step koanf_load p p' → keeps p p'.
Proof.
  intros Hp Hs. pose proof Hp as (Hok & _).
  destruct Hs as [o p g u k m entry Eu Hpc Ek Em|p g u k m entry Eu Hpc Ek Em
    |cb hook p g u k m cfg entry Eu Hpc Ek Em|p g u Eu Hpc Hd].
  - apply keeps_heap; [done|]. by apply store_keeps.
  - apply keeps_heap; [done|]. by apply reload_keeps.
  - destruct (publish_keeps cb hook p _ _ _ _ _ _ Hok Eu Hpc Ek Em) as (Hok' & Hle & -> & _). by apply keeps_heap.
  - apply keeps_heap; [done|]. split; [by apply heap_ok_goto|apply heap_le_goto].
Qed.

Lemma config_step_keeps p p' : process_ok p → config_step koanf_load p p' → keeps p p'.
Proof.
  intros Hp Hs. pose proof Hp as (Hok & Ho & Hm & Hi & Hpr & Hl).
  destruct Hs as [p provider opts p' r E|p|p t p' m Et E|p p' r E|p t m h cfg Et E|p t m h e Et E|p t cfg Et
    |p provider opts h r E|p i h r E|p i|V koanf_set p a key v h r E|p c Hc|p fs|p p' Hs].
  - destruct (Init_keeps p provider opts Hp) as (q & r' & E' & Hq & Hle). rewrite E in E'. by simplify_eq.
  - destruct (Close_keeps (heap_of p) (cManager p) Hok) as (Hok' & Hle). split; [|done].
    destruct (process_ok_heap p _ Hp Hok' Hle) as (_ & _ & _ & _ & _ & Hl'). by repeat (split; [done|]).
  - destruct (LoadE_begin_keeps p Hp) as (q & r & E' & Hq & Hle & _ & Hr). rewrite E in E'. simplify_eq.
    destruct Hr. split; [by apply process_ok_loads|done].
  - destruct (LoadE_begin_keeps p Hp) as (q & r' & E' & Hq & Hle & _). rewrite E in E'. by simplify_eq.
  - pose proof (Hl t _ Et) as Hmm. destruct (Manager_Load_keeps (heap_of p) m Hok Hmm) as (h' & r & E' & Hok' & Hle & Hr).
    rewrite E in E'. simplify_eq. split; [|done].
    apply (process_ok_loads (on_heap p _)); [by apply process_ok_heap|]. exact (Hr _ eq_refl).
  - pose proof (Hl t _ Et) as Hmm. destruct (Manager_Load_keeps (heap_of p) m Hok Hmm) as (h' & r & E' & Hok' & Hle & Hr).
    rewrite E in E'. simplify_eq. split; [|done]. apply (process_ok_unload (on_heap p _)). by apply process_ok_heap.
  - split; [|reflexivity]. apply (process_ok_unload (LoadE_end p cfg)). pose proof (Hl t _ Et) as Hc.
    repeat (split; [done|]). split; [by intros a [= <-]|]. done.
  - destruct (NewManager_keeps (heap_of p) provider opts Hok) as (h' & r' & E' & Hok' & Hle & _). rewrite E in E'. simplify_eq.
    by apply keeps_heap.
  - destruct i as [i|]; [|cbn in E; simplify_eq; by apply keeps_heap].
    destruct (h_managers (heap_of p) !! i) as [m|] eqn:Em; [|unfold Manager_Load in E; by rewrite Em in E].
    destruct (Manager_Load_keeps (heap_of p) i Hok) as (h' & r' & E' & Hok' & Hle & _); [eauto|]. rewrite E in E'. simplify_eq.
    by apply keeps_heap.
  - apply keeps_heap; [done|]. by apply Close_keeps.
  - apply keeps_heap; [done|]. by eapply Koanf_Set_keeps.
  - apply keeps_heap; [done|].
    assert (heap_le (heap_of p) (on_cancelled (heap_of p) ({[ c ]} ∪ h_cancelled (heap_of p)))) as Hle.
    { apply heap_le_same; cbn; [done|set_solver|done|done]. }
    split; [|done]. apply (heap_ok_later (heap_of p)); [done|done|auto..|].
    intros x. cbn. rewrite elem_of_union, elem_of_singleton. intros [->|?]; auto.
  - apply keeps_heap; [done|]. split; [by apply heap_ok_fs|apply heap_le_fs].
  - by eapply updater_step_keeps.
Qed.

Lemma fresh_process_ok fs n : process_ok (Store := Store) (fresh_process fs n).
Proof. split; [split; [|split; [|split]]; [intros i x E; cbn in E; by rewrite lookup_empty in E..|done]|].
  repeat (split; [done|]). intros t l E. cbn in E. by rewrite lookup_empty in E. Qed.

Lemma keeps_run p p' : process_ok p → rtc (config_step koanf_load) p p' → keeps p p'.
Proof.
  intros Hp Hr. revert Hp. induction Hr as [p|p q r Hs _ IH]; intros Hp; [by split|].
  destruct (config_step_keeps p q Hp Hs) as [Hq Hle]. destruct (IH Hq) as [Hr Hle']. split; [done|by etrans].
Qed.

Lemma reachable_ok fs n p : rtc (config_step koanf_load) (fresh_process fs n) p → process_ok p.
Proof. intros Hr. by apply (keeps_run _ _ (fresh_process_ok fs n)) in Hr as []. Qed.

(** ** Consequences of the invariant *)

Lemma ctx_done_in h c x : x ∈ c → x ∈ h_cancelled h → ctx_done h c = true.
Proof.
  intros Hx Hc. unfold ctx_done. apply existsb_exists. exists x.
  split; [by apply list_elem_of_In|by apply bool_decide_eq_true_2].
Qed.

(** An active goroutine is the one its manager would cancel, on its current context. *)
Lemma active_is_current h i g : heap_ok h → active_updater h i g →
  ∃ m u, h_managers h !! i = Some m ∧ h_updaters h !! g = Some u ∧ c_cancel m = Some g ∧
    watch_ctx m = Some (u_ctx u) ∧ ctx_done h (u_ctx u) = false.
Proof.
  intros (_ & _ & Hus & _) (u & k & Eu & Ek & <- & Hd).
  destruct (Hus g u Eu) as (_ & k' & m & rest & Ek' & Em & _ & _ & _ & Hctx & Hc & _). simplify_eq.
  destruct Hc as [Hc|[Hc Hw]]; [|by exists m, u].
  rewrite (ctx_done_in h (u_ctx u) g) in Hd; [done|rewrite Hctx; set_solver|done].
Qed.

(** A manager one of whose cancel functions was called has no active goroutine. *)
Lemma cancelled_not_active h i m c g :
  heap_ok h → h_managers h !! i = Some m → c ∈ default [] (watch_ctx m) → c ∈ h_cancelled h →
  ¬ active_updater h i g.
Proof.
  intros Hok Em Hc Hcan Ha. destruct (active_is_current h i g Hok Ha) as (m' & u & Em' & _ & _ & Hw & Hd).
  simplify_eq. rewrite Hw in Hc. cbn in Hc. by rewrite (ctx_done_in h _ c) in Hd.
Qed.

End props.

(** ** Theorems *)

(** (C28) A manager has at most one updater goroutine that has not been told to stop, through any
    interleaving of callers, [LoadE] calls, goroutines, cancelled parent contexts and file
    changes; it is the one whose cancel function the manager holds, and [Manager.Close]
    leaves none. *)
Theorem config_single_watcher {Store} (koanf_load : string → string → result string Store) fs n p i :
  rtc (config_step koanf_load) (fresh_process fs n) p →
  (∀ g g', active_updater (heap_of p) i g → active_updater (heap_of p) i g' → g = g') ∧
  (∀ g, active_updater (heap_of p) i g → c_cancel <$> h_managers (heap_of p) !! i = Some (Some g)) ∧
  ∀ g, ¬ active_updater (CfgManager_Close (heap_of p) (Some i)) i g.
Proof.
  intros Hr. apply reachable_ok in Hr as (Hok & _). split; [|split].
  - intros g g' Hg Hg'. destruct (active_is_current _ _ _ Hok Hg) as (m & u & Em & _ & Hc & _).
    destruct (active_is_current _ _ _ Hok Hg') as (m' & u' & Em' & _ & Hc' & _). congruence.
  - intros g Hg. destruct (active_is_current _ _ _ Hok Hg) as (m & u & Em & _ & Hc & _). rewrite Em. cbn. congruence.
  - intros g Hg. destruct (Close_keeps (heap_of p) (Some i) Hok) as (Hok' & _).
    destruct (active_is_current _ _ _ Hok' Hg) as (m & u & Em & _ & Hc & _). revert Em Hc.
    unfold CfgManager_Close. destruct (h_managers (heap_of p) !! i) as [m0|] eqn:E0; [|congruence].
    cbn. rewrite lookup_insert_eq. by intros [= <-].
Qed.

(** Nothing in the package panics: in any reachable state [Init], [LoadE] and the [Load] of
    an existing manager return, and the rest of an update that a goroutine is publishing
    panics only where the user's callback does (the watcher options are never nil there). *)
Theorem config_never_panics {Store} (koanf_load : string → string → result string Store) fs n p :
  rtc (config_step koanf_load) (fresh_process fs n) p →
  (∀ provider opts, ∃ p' r, config_Init p provider opts = Ret (p', r)) ∧
  (∃ p' r, LoadE koanf_load p = Ret (p', r)) ∧
  (∀ i, is_Some (h_managers (heap_of p) !! i) → ∃ h r, Manager_Load koanf_load (heap_of p) (Some i) = Ret (h, r)) ∧
  ∀ cb g u k m cfg entry why,
    h_updaters (heap_of p) !! g = Some u → u_pc u = UPublishing cfg entry →
    h_configs (heap_of p) !! u_koanf u = Some k → h_managers (heap_of p) !! k_opts k = Some m →
    (applyUpdate_publish cb p k m cfg).2 = Panic why → cb = true ∧ why ≠ nil_dereference.
Proof.
  intros Hr. apply reachable_ok in Hr as Hp. pose proof Hp as (Hok & _). split; [|split; [|split]].
  - intros provider opts. destruct (Init_keeps p provider opts Hp) as (p' & r & E & _). eauto.
  - unfold LoadE. destruct (LoadE_begin_keeps p Hp) as (q & r & E & Hq & _ & _ & Hm).
    unfold mbind, outcome_bind. rewrite E. destruct r as [r|m]; [eauto|]. destruct Hm as [Hm _]. destruct Hq as (Hokq & _).
    destruct (Manager_Load_keeps koanf_load (heap_of q) m Hokq Hm) as (h & r & -> & _). destruct r; eauto.
  - intros i Hi. destruct (Manager_Load_keeps koanf_load (heap_of p) i Hok Hi) as (h & r & E & _). eauto.
  - intros cb g u k m cfg entry why Eu Hpc Ek Em.
    destruct (publish_keeps cb false p g u k m cfg entry Hok Eu Hpc Ek Em) as (_ & _ & _ & _ & _ & H). apply H.
Qed.

(** A closed manager never watches again. Once a manager that watches is closed, no call
    whatsoever gives it an active updater: [Manager.Load] loads and serves a configuration
    again, but derives its watch context from the cancelled one. *)
Theorem closed_manager_never_watches {Store} (koanf_load : string → string → result string Store) fs n p i m c p' g :
  rtc (config_step koanf_load) (fresh_process fs n) p →
  h_managers (heap_of p) !! i = Some m → c_cancel m = Some c →
  rtc (config_step koanf_load) (on_heap p (CfgManager_Close (heap_of p) (Some i))) p' →
  ¬ active_updater (heap_of p') i g.
Proof.
  intros Hr Em Hc Hr'. apply reachable_ok in Hr as Hp. pose proof Hp as (Hok & _).
  destruct (proj1 Hok i m Em) as (_ & _ & _ & _ & Hcan). destruct (Hcan c Hc) as [Hin _].
  set (p1 := on_heap p _) in *. assert (process_ok p1) as Hp1 by (apply keeps_heap; [done|by apply Close_keeps]).
  destruct (keeps_run koanf_load p1 p' Hp1 Hr') as [(Hok' & _) (_ & Hcs & Hms & _)].
  assert (h_managers (heap_of p1) !! i = Some (with_cancel (with_config m None) None)) as E1.
  { cbn. unfold CfgManager_Close. rewrite Em. cbn. by rewrite lookup_insert_eq. }
  assert (c ∈ h_cancelled (heap_of p1)) as E2.
  { cbn. unfold CfgManager_Close. rewrite Em, Hc. cbn. set_solver. }
  destruct (Hms i _ E1) as (m' & Em' & _ & Hsub & _).
  eapply cancelled_not_active; [done|exact Em'|exact (Hsub c Hin)|by apply Hcs].
Qed.

Lemma updater_step_frame {Store} (koanf_load : string → string → result string Store) p p' :
  process_ok p → updater_step koanf_load p p' →
  instance p' = instance p ∧
  ∀ a k, h_configs (heap_of p) !! a = Some k → h_configs (heap_of p') !! a = Some k.
Proof.
  intros Hp Hs. pose proof Hp as (Hok & _).
  destruct Hs as [o p g u k m entry Eu Hpc Ek Em|p g u k m entry Eu Hpc Ek Em
    |cb hook p g u k m cfg entry Eu Hpc Ek Em|p g u Eu Hpc Hd]; [| | |done].
  - split; [done|]. intros a x E. cbn. unfold applyUpdate_store. destruct entry as [e|]; [|done].
    destruct (ContentSource e =? SourceFile); [by destruct (WriteFile _ _ _ _ _) as [? []]|].
    by destruct (ContentSource e =? SourceRawBytes).
  - split; [done|]. intros a x E. cbn. unfold applyUpdate_reload. destruct (newKoanf _ _ _); [|done].
    cbn. rewrite lookup_insert_ne; [done|]. intros <-. by rewrite (fresh_config _ Hok) in E.
  - destruct (publish_keeps cb hook p _ _ _ _ _ _ Hok Eu Hpc Ek Em) as (_ & _ & Ep & Hcf & _).
    split; [by rewrite Ep|]. intros a x E. by rewrite Hcf.
Qed.

Lemma updater_run_frame {Store} (koanf_load : string → string → result string Store) p p' :
  process_ok p → rtc (updater_step koanf_load) p p' →
  process_ok p' ∧ instance p' = instance p ∧
  ∀ a k, h_configs (heap_of p) !! a = Some k → h_configs (heap_of p') !! a = Some k.
Proof.
  intros Hp Hr. revert Hp. induction Hr as [p|p q r Hs _ IH]; intros Hp; [done|].
  destruct (updater_step_keeps _ _ _ Hp Hs) as [Hq _]. destruct (updater_step_frame _ _ _ Hp Hs) as [Ei Hc].
  destruct (IH Hq) as (Hr' & Ei' & Hc'). split; [done|]. split; [congruence|]. eauto.
Qed.

(** Updates never reach [Load]. Whatever updates the goroutines receive and publish, the
    package-level [LoadE] keeps answering with the configuration it first returned, holding
    the data it held then: a goroutine publishes to its manager and nobody copies the
    manager's configuration to the package variable. *)
Theorem Load_ignores_updates {Store} (koanf_load : string → string → result string Store) fs n p a p' :
  rtc (config_step koanf_load) (fresh_process fs n) p → instance p = Some a →
  rtc (updater_step koanf_load) p p' →
  LoadE koanf_load p' = Ret (p', Ok a) ∧ h_configs (heap_of p') !! a = h_configs (heap_of p) !! a.
Proof.
  intros Hr Ha Hu. apply reachable_ok in Hr as Hp. destruct (updater_run_frame _ _ _ Hp Hu) as (_ & Ei & Hc).
  split; [unfold LoadE, LoadE_begin; by rewrite Ei, Ha|].
  destruct Hp as (_ & _ & _ & Hi & _). destruct (Hi a Ha) as [k E]. rewrite E. by apply Hc.
Qed.

(** What is loadable stays loadable when an update with a usable document replaces it. *)
Lemma newKoanf_update {Store} (koanf_load : string → string → result string Store) fs o s0 c s :
  newKoanf koanf_load fs o = Ok s0 → blank c = false → koanf_load (o_Delimiter o) c = Ok s →
  (o_Source o = SourceFile → newKoanf koanf_load (WriteFile WriteOk fs (o_FilePath o) c 420).1 o = Ok s) ∧
  (o_Source o = SourceRawBytes → newKoanf koanf_load fs (with_Content o c) = Ok s).
Proof.
  unfold newKoanf, Options_Validate. cbn [with_Content o_Source o_Format o_FilePath o_Content o_Delimiter o_EnableWatch o_WatcherOptions].
  intros E Hb Hl. case_bool_decide; [|done]. case_bool_decide; [|done]. cbn [negb] in *.
  destruct (o_EnableWatch o && bool_decide (o_WatcherOptions o = None)) eqn:Ew.
  { by repeat destruct (_ && _). }
  split; intros Es; rewrite Es in *; cbn [SourceFile SourceRawBytes Z.eqb Pos.eqb andb] in *.
  - unfold WriteFile. cbn [fst]. unfold IsReadableFile, ReadFile in *. rewrite lookup_insert_eq.
    destruct (fs !! o_FilePath o) as [f|]; [|done].
    destruct (f_dir f) eqn:Ed; [done|]. cbn [f_dir f_regular f_perm f_content].
    destruct (f_regular f); [|done]. cbn [andb] in *.
    destruct (negb (Z.land (f_perm f) 400 =? 0)); [|done].
    destruct (Z.testbit (f_perm f) 8); [|done]. by rewrite Hl.
  - rewrite Hb. by rewrite Hl.
Qed.

(** (C36) An update is applied. When a goroutine receives an update for the source its options
    name, over a configuration that loads, with a non-blank document that koanf accepts, then
    its next steps publish the document: [Manager.Load] answers with a configuration that
    holds it. The package variable does not change. *)
Theorem update_reaches_manager {Store} (koanf_load : string → string → result string Store) fs n p g u k m e s0 s :
  rtc (config_step koanf_load) (fresh_process fs n) p →
  h_updaters (heap_of p) !! g = Some u → u_pc u = UWaiting →
  h_configs (heap_of p) !! u_koanf u = Some k → h_managers (heap_of p) !! k_opts k = Some m →
  newKoanf koanf_load (h_fs (heap_of p)) (c_options m) = Ok s0 →
  ContentSource e = o_Source (c_options m) → blank (Content e) = false →
  koanf_load (o_Delimiter (c_options m)) (Content e) = Ok s →
  ∃ p' a k', rtc (updater_step koanf_load) p p' ∧
    Manager_Load koanf_load (heap_of p') (Some (k_opts k)) = Ret (heap_of p', Ok a) ∧
    h_configs (heap_of p') !! a = Some k' ∧ k_koanf k' = s ∧ instance p' = instance p.
Proof.
  intros Hr Eu Hpc Ek Em Hnow He Hb Hl. apply reachable_ok in Hr as Hp.
  destruct (newKoanf_update koanf_load _ _ _ _ _ Hnow Hb Hl) as [Hfile Hraw].
  set (h1 := applyUpdate_store WriteOk (heap_of p) g u k m (Some e)).
  pose proof (us_store koanf_load WriteOk p g u k m (Some e) Eu Hpc Ek Em) as S1. fold h1 in S1.
  assert (∃ m1, h_updaters h1 !! g = Some (at_pc u (UReloading e)) ∧ h_managers h1 !! k_opts k = Some m1 ∧
    h_configs h1 = h_configs (heap_of p) ∧ newKoanf koanf_load (h_fs h1) (c_options m1) = Ok s)
    as (m1 & Eu1 & Em1 & Ec1 & Hk1).
  { unfold h1, applyUpdate_store. rewrite He. destruct (proj1 (proj1 Hp) _ _ Em) as (_ & _ & (Hs & _) & _).
    rewrite elem_of_cons, list_elem_of_singleton in Hs. destruct Hs as [Hs|Hs]; rewrite Hs.
    - cbn [SourceFile SourceRawBytes Z.eqb Pos.eqb]. specialize (Hfile Hs).
      destruct (WriteFile WriteOk (h_fs (heap_of p)) (o_FilePath (c_options m)) (Content e) 420) as [fs1 r] eqn:Ew.
      assert (r = Ok ()) as -> by (unfold WriteFile in Ew; congruence).
      exists m. split; [apply lookup_insert_eq|]. done.
    - cbn [SourceFile SourceRawBytes Z.eqb Pos.eqb]. eexists. split; [apply lookup_insert_eq|].
      split; [apply lookup_insert_eq|]. split; [done|]. exact (Hraw Hs). }
  set (u1 := at_pc u (UReloading e)) in *.
  assert (h_configs h1 !! u_koanf u1 = Some k) as Ek1 by (by rewrite Ec1).
  set (h2 := applyUpdate_reload koanf_load h1 g u1 k m1 e).
  pose proof (us_reload koanf_load (on_heap p h1) g u1 k m1 e Eu1 eq_refl Ek1 Em1) as S2.
  change (on_heap (on_heap p h1) _) with (on_heap p h2) in S2.
  set (k2 := {| k_opts := k_opts k; k_koanf := s; k_updates := None; k_onReload := None |}).
  assert (h2 = goto (alloc_config h1 k2) g u1 (UPublishing (h_next h1) e)) as E2.
  { unfold h2, applyUpdate_reload. by rewrite Hk1. }
  pose proof (updater_step_keeps _ _ _ Hp S1) as [Hp1 _].
  pose proof (updater_step_keeps _ _ _ Hp1 S2) as [Hp2 _].
  pose proof (proj2 (updater_step_frame _ _ _ Hp1 S2) _ _ Ek1) as Ek2. cbn [on_heap heap_of] in Ek2.
  assert (h_updaters h2 !! g = Some (at_pc u1 (UPublishing (h_next h1) e))) as Eu2.
  { rewrite E2. apply lookup_insert_eq. }
  assert (h_managers h2 !! k_opts k = Some m1) as Em2 by (by rewrite E2).
  pose proof (us_publish koanf_load false false (on_heap p h2) g _ k m1 (h_next h1) e Eu2 eq_refl Ek2 Em2) as S3.
  destruct (publish_keeps false false (on_heap p h2) g _ k m1 (h_next h1) e (proj1 Hp2) Eu2 eq_refl Ek2 Em2)
    as (_ & _ & Ep & Ecf & Emf & _).
  set (p3 := watch_publish_round _ _ _ _ _ _ _ _) in *. exists p3, (h_next h1), k2. split.
  { eapply rtc_l; [exact S1|]. eapply rtc_l; [exact S2|]. by apply rtc_once. }
  split; [|split; [|split; [done|by rewrite Ep]]].
  - unfold Manager_Load. destruct (h_managers (heap_of p3) !! k_opts k) as [m3|] eqn:E3; [|done].
    cbn in Emf. injection Emf as ->. done.
  - rewrite Ecf. cbn [on_heap heap_of]. rewrite E2. apply lookup_insert_eq.
Qed.

(** What [Manager.Load] does for a manager that holds no configuration and does not watch. *)
Lemma Manager_Load_fresh {Store} (koanf_load : string → string → result string Store) h i m w s :
  heap_ok h → h_managers h !! i = Some m → c_config m = None → c_cancel m = None →
  o_EnableWatch (c_options m) = true → o_WatcherOptions (c_options m) = Some w →
  newKoanf koanf_load (h_fs h) (c_options m) = Ok s →
  ctx_done h (default [] (cw_WatchContext w)) = false →
  ∃ h', Manager_Load koanf_load h (Some i) = Ret (h', Ok (h_next h)) ∧
    h_cancelled h' = h_cancelled h ∧ active_updater h' i (S (h_next h)).
Proof.
  intros Hok Em Hc Hcan Hen Hw Hk Hd. destruct (proj1 Hok i m Em) as (_ & Hp & _).
  unfold Manager_Load, newConfigLocked. rewrite Em, Hc, decide_True, Hk by done. cbv zeta.
  unfold startWatcherLocked. cbn [with_config c_cancel c_options]. rewrite Hcan, Hw, Hen. cbv zeta.
  eexists. split; [reflexivity|]. split; [done|].
  eexists _, _. split; [apply lookup_insert_eq|]. split; [apply lookup_insert_eq|]. split; [done|].
  unfold ctx_done in *. cbn [u_ctx existsb h_cancelled on_watches on_updaters on_managers on_configs bump h_next].
  rewrite Hd, orb_false_r. apply bool_decide_eq_false_2. intros Hin.
  destruct Hok as (_ & _ & _ & Ho). apply Ho in Hin. lia.
Qed.

Lemma Close_closed {Store} (p : process (Store := Store)) : cManager p = None → heap_of (config_Close p) = heap_of p.
Proof. intros E. unfold config_Close. cbn [heap_of]. by rewrite E. Qed.

(** [Close] during [LoadE] leaks. If [Close] runs after a call of [LoadE] created its manager
    and released the lock, the call still loads that manager and stores its configuration:
    the package, closed, serves a configuration, and the watcher goroutine stays active
    through any number of further calls of [Close], none of which can reach its manager. *)
Theorem Close_during_LoadE_leaks {Store} (koanf_load : string → string → result string Store) fs n p t i m w s :
  rtc (config_step koanf_load) (fresh_process fs n) p →
  loads p !! t = Some (LCreated i) → cManager p = Some i → h_managers (heap_of p) !! i = Some m →
  c_config m = None → c_cancel m = None → o_EnableWatch (c_options m) = true →
  o_WatcherOptions (c_options m) = Some w → newKoanf koanf_load (h_fs (heap_of p)) (c_options m) = Ok s →
  ctx_done (heap_of p) (default [] (cw_WatchContext w)) = false →
  ∃ p' a g, rtc (config_step koanf_load) (config_Close p) p' ∧
    LoadE koanf_load p' = Ret (p', Ok a) ∧ cManager p' = None ∧ cOptions p' = None ∧
    ∀ times, active_updater (heap_of (Nat.iter times config_Close p')) i g.
Proof.
  intros Hr Ht Hcm Em Hc Hcan Hen Hw Hk Hd. apply reachable_ok in Hr as Hp. pose proof Hp as (Hok & _).
  set (q := config_Close p).
  assert (process_ok q) as Hq by (apply (config_step_keeps koanf_load p); [done|constructor]).
  assert (heap_of q = on_managers (heap_of p) (<[i := with_cancel (with_config m None) None]> (h_managers (heap_of p)))) as Eq.
  { unfold q, config_Close. cbn [heap_of]. rewrite Hcm. unfold CfgManager_Close. by rewrite Em, Hcan. }
  destruct (Manager_Load_fresh koanf_load (heap_of q) i (with_cancel (with_config m None) None) w s)
    as (h' & El & Ecs & Ha); [apply Hq|rewrite Eq; apply lookup_insert_eq|done|done|done|done|by rewrite Eq|by rewrite Eq|].
  set (a := h_next (heap_of q)) in *. set (g := S a) in *.
  set (q1 := on_loads (on_heap q h') (<[t := LLoaded a]> (loads q))).
  set (q2 := on_loads (LoadE_end q1 a) (delete t (loads q1))).
  exists q2, a, g. split; [|split; [done|split; [done|split; [done|]]]].
  - eapply rtc_l; [eapply (cs_load_manager koanf_load q t i h' a); [done|exact El]|]. fold q1.
    apply rtc_once, cs_load_end. cbn. by rewrite lookup_insert_eq.
  - assert (∀ times, heap_of (Nat.iter times config_Close q2) = h' ∧ cManager (Nat.iter times config_Close q2) = None) as Hit.
    { intros times. induction times as [|times [IH1 IH2]]; [done|].
      exact (conj (eq_trans (Close_closed _ IH2) IH1) eq_refl). }
    intros times. rewrite (proj1 (Hit times)). exact Ha.
Qed.

(** An update in flight outlives [Close]: a goroutine that is publishing when its manager is
    closed stores its configuration afterwards; [Manager.Load] then serves it without loading
    anything and without watching. *)
Theorem update_in_flight_outlives_Close {Store} (koanf_load : string → string → result string Store) fs n p cb hook g u k m cfg e :
  rtc (config_step koanf_load) (fresh_process fs n) p →
  h_updaters (heap_of p) !! g = Some u → u_pc u = UPublishing cfg e →
  h_configs (heap_of p) !! u_koanf u = Some k → h_managers (heap_of p) !! k_opts k = Some m →
  let p1 := on_heap p (CfgManager_Close (heap_of p) (Some (k_opts k))) in
  let m1 := with_cancel (with_config m None) None in
  let p2 := watch_publish_round cb hook p1 g u k m1 cfg in
  updater_step koanf_load p1 p2 ∧
  Manager_Load koanf_load (heap_of p2) (Some (k_opts k)) = Ret (heap_of p2, Ok cfg) ∧
  ∀ g', ¬ active_updater (heap_of p2) (k_opts k) g'.
Proof.
  intros Hr Eu Hpc Ek Em p1 m1 p2. apply reachable_ok in Hr as Hp. pose proof Hp as (Hok & _).
  destruct (Close_keeps (heap_of p) (Some (k_opts k)) Hok) as (Hok1 & Hle1).
  assert (h_updaters (heap_of p1) = h_updaters (heap_of p) ∧ h_configs (heap_of p1) = h_configs (heap_of p) ∧
    h_managers (heap_of p1) !! k_opts k = Some m1) as (E1 & E2 & E3).
  { unfold p1. cbn [on_heap heap_of]. unfold CfgManager_Close. rewrite Em.
    destruct (c_cancel m); (split; [done|]); (split; [done|]); apply lookup_insert_eq. }
  change (heap_ok (heap_of p1)) in Hok1. clear Hle1. clearbody p1.
  rewrite <-E1 in Eu. rewrite <-E2 in Ek.
  destruct (publish_keeps cb hook p1 g u k m1 cfg e Hok1 Eu Hpc Ek E3) as (Hok2 & Hle2 & Ep & Ecf & Emf & _).
  fold p2 in Hok2, Hle2, Ep, Ecf, Emf.
  split; [by eapply us_publish|]. split.
  - unfold Manager_Load. destruct (h_managers (heap_of p2) !! k_opts k) as [m3|] eqn:Em3; [|done].
    cbn in Emf. injection Emf as ->. done.
  - intros g' Ha. destruct (active_is_current _ _ _ Hok2 Ha) as (m2 & u2 & Em2 & Eu2 & Hc2 & _).
    assert (c_cancel m2 = c_cancel m1) as Ecan; [|rewrite Ecan in Hc2; done].
    revert Em2. unfold p2, watch_publish_round, applyUpdate_publish.
    destruct (proj1 (proj2 (proj2 Hok1)) g u Eu) as (_ & k' & m' & rest & Ek' & Em' & Hrl & _).
    assert (k' = k) as -> by (apply (inj Some); exact (eq_trans (eq_sym Ek') Ek)). rewrite Hrl.
    destruct (o_WatcherOptions (c_options m1)) as [w|]; [destruct (cw_OnUpdateCallback w)|];
      cbn; rewrite lookup_alter_eq, E3; by intros [= <-].
Qed.

(** ** Witnesses: a store is its document; one document is malformed *)

Module ConfigDemo.
Definition load (delim content : string) : result string string :=
  if decide (content = "bad") then Err "malformed" else Ok content.
Definition watcher : CfgWatcherOptions :=
  {| cw_Logger := false; cw_OnUpdateCallback := true; cw_WatchContext := None; cw_ContentSource := 0;
     cw_ContentFormat := 0; cw_UpdateChannel := None |}.
Definition options : ConfigOptions :=
  {| o_Source := SourceRawBytes; o_Format := FormatJson; o_FilePath := ""; o_Content := "v1";
     o_Delimiter := ""; o_EnableWatch := true; o_WatcherOptions := Some watcher |}.

Definition fresh : process (Store := string) := fresh_process ∅ 0.
Definition initialised : process :=
  match config_Init fresh "" (Some options) with Ret (p, _) => p | Panic _ => fresh end.
Definition begun : process := match LoadE_begin initialised with Ret (p, _) => p | _ => fresh end.
Definition created : process := on_loads begun (<[0%nat := LCreated 1]> (loads begun)).
Definition loading_heap : heap :=
  match Manager_Load load (heap_of created) (Some 1%nat) with Ret (h, _) => h | _ => heap_of fresh end.
Definition loading : process := on_loads (on_heap created loading_heap) (<[0%nat := LLoaded 2]> (loads created)).
Definition loaded : process := on_loads (LoadE_end loading 2) (delete 0%nat (loads loading)).

Lemma config_init_step : config_step load fresh initialised.
Proof. apply (cs_init load fresh "" (Some options) initialised (Ok ())). by vm_compute. Qed.
Lemma create_step : config_step load initialised created.
Proof. apply (cs_load_begin load initialised 0 begun 1); by vm_compute. Qed.
Lemma loading_step : config_step load created loading.
Proof. apply (cs_load_manager load created 0 1 loading_heap 2); by vm_compute. Qed.
Lemma loaded_step : config_step load loading loaded.
Proof. apply (cs_load_end load loading 0 2). by vm_compute. Qed.

Lemma reach_created : rtc (config_step load) fresh created.
Proof. eapply rtc_l; [apply config_init_step|]. apply rtc_once, create_step. Qed.
Lemma reach_loaded : rtc (config_step load) fresh loaded.
Proof. etrans; [apply reach_created|]. eapply rtc_l; [apply loading_step|]. apply rtc_once, loaded_step. Qed.

Definition manager : CfgManager :=
  default {| c_config := None; c_provider := ""; c_options := options; c_cancel := None |}
    (h_managers (heap_of loaded) !! 1%nat).
Definition goroutine : updater :=
  default {| u_koanf := 0; u_ctx := []; u_pc := UStopped |} (h_updaters (heap_of loaded) !! 3%nat).
Definition koanf : Koanf :=
  default {| k_opts := 0; k_koanf := ""; k_updates := None; k_onReload := None |}
    (h_configs (heap_of loaded) !! 2%nat).
Definition update : UpdaterSchema := {| ContentSource := 2; ContentFormat := 1; Content := "v2" |}.

Definition stored_update : process :=
  on_heap loaded (applyUpdate_store WriteOk (heap_of loaded) 3 goroutine koanf manager (Some update)).
Definition updated_manager : CfgManager := default manager (h_managers (heap_of stored_update) !! 1%nat).
Definition reloaded : process :=
  on_heap stored_update (applyUpdate_reload load (heap_of stored_update) 3 (at_pc goroutine (UReloading update)) koanf updated_manager update).

Definition reopened : heap :=
  match Manager_Load load (CfgManager_Close (heap_of loaded) (Some 1%nat)) (Some 1%nat) with
  | Ret (h, _) => h
  | _ => heap_of fresh
  end.

Lemma store_step : updater_step load loaded stored_update.
Proof. apply us_store; by vm_compute. Qed.
Lemma reload_step : updater_step load stored_update reloaded.
Proof. apply us_reload; by vm_compute. Qed.
Lemma reach_reloaded : rtc (config_step load) fresh reloaded.
Proof.
  etrans; [apply reach_loaded|]. eapply rtc_l; [apply cs_updater, store_step|]. apply rtc_once, cs_updater, reload_step.
Qed.
End ConfigDemo.

Lemma config_single_watcher_witness :
  active_updater (heap_of ConfigDemo.loaded) 1 3 ∧
  ∀ g, active_updater (heap_of ConfigDemo.loaded) 1 g → 3%nat = g.
Proof.
  assert (active_updater (heap_of ConfigDemo.loaded) 1 3) as Ha.
  { exists ConfigDemo.goroutine, ConfigDemo.koanf. by vm_compute. }
  split; [exact Ha|]. intros g Hg.
  apply (config_single_watcher ConfigDemo.load ∅ 0 ConfigDemo.loaded 1 ConfigDemo.reach_loaded); [exact Ha|exact Hg].
Defined.

Lemma config_never_panics_witness :
  ∃ p' r, LoadE ConfigDemo.load ConfigDemo.loaded = Ret (p', r).
Proof. apply (config_never_panics ConfigDemo.load ∅ 0 ConfigDemo.loaded ConfigDemo.reach_loaded). Defined.

(** Closed and loaded again, the manager serves its configuration and does not watch. *)
Lemma closed_manager_never_watches_witness :
  let closed := on_heap ConfigDemo.loaded (CfgManager_Close (heap_of ConfigDemo.loaded) (Some 1%nat)) in
  ∃ h, Manager_Load ConfigDemo.load (heap_of closed) (Some 1%nat) = Ret (h, Ok 4%nat) ∧
    ∀ g, ¬ active_updater h 1 g.
Proof.
  intros closed.
  exists ConfigDemo.reopened. split; [by vm_compute|]. intros g.
  apply (closed_manager_never_watches ConfigDemo.load ∅ 0 ConfigDemo.loaded 1 ConfigDemo.manager 3
    (on_heap closed ConfigDemo.reopened) g ConfigDemo.reach_loaded); [by vm_compute|by vm_compute|].
  apply rtc_once, (cs_manager_load _ _ (Some 1%nat) _ (Ok 4%nat)). by vm_compute.
Defined.

Lemma update_reaches_manager_witness :
  ∃ p' a k', rtc (updater_step ConfigDemo.load) ConfigDemo.loaded p' ∧
    Manager_Load ConfigDemo.load (heap_of p') (Some 1%nat) = Ret (heap_of p', Ok a) ∧
    h_configs (heap_of p') !! a = Some k' ∧ k_koanf k' = "v2" ∧ instance p' = Some 2%nat.
Proof.
  destruct (update_reaches_manager ConfigDemo.load ∅ 0 ConfigDemo.loaded 3 ConfigDemo.goroutine ConfigDemo.koanf
    ConfigDemo.manager ConfigDemo.update "v1" "v2" ConfigDemo.reach_loaded) as (p' & a & k' & H1 & H2 & H3 & H4 & H5);
    [by vm_compute..|].
  exists p', a, k'. split; [exact H1|]. split; [exact H2|]. split; [exact H3|]. split; [exact H4|]. rewrite H5. by vm_compute.
Defined.

Lemma Load_ignores_updates_witness :
  LoadE ConfigDemo.load ConfigDemo.reloaded = Ret (ConfigDemo.reloaded, Ok 2%nat) ∧
  h_configs (heap_of ConfigDemo.reloaded) !! 2%nat = Some ConfigDemo.koanf.
Proof.
  destruct (Load_ignores_updates ConfigDemo.load ∅ 0 ConfigDemo.loaded 2 ConfigDemo.reloaded ConfigDemo.reach_loaded) as [H1 H2].
  - by vm_compute.
  - eapply rtc_l; [apply ConfigDemo.store_step|]. apply rtc_once, ConfigDemo.reload_step.
  - split; [exact H1|]. rewrite H2. by vm_compute.
Defined.

Lemma Close_during_LoadE_leaks_witness :
  ∃ p' a g, rtc (config_step ConfigDemo.load) (config_Close ConfigDemo.created) p' ∧
    LoadE ConfigDemo.load p' = Ret (p', Ok a) ∧ cManager p' = None ∧ cOptions p' = None ∧
    ∀ times, active_updater (heap_of (Nat.iter times config_Close p')) 1 g.
Proof.
  apply (Close_during_LoadE_leaks ConfigDemo.load ∅ 0 ConfigDemo.created 0 1
    (default ConfigDemo.manager (h_managers (heap_of ConfigDemo.created) !! 1%nat))
    (with_Logger ConfigDemo.watcher) "v1" ConfigDemo.reach_created); by vm_compute.
Defined.

Lemma update_in_flight_outlives_Close_witness :
  let closed := on_heap ConfigDemo.reloaded (CfgManager_Close (heap_of ConfigDemo.reloaded) (Some (k_opts ConfigDemo.koanf))) in
  ∃ p', updater_step ConfigDemo.load closed p' ∧
    Manager_Load ConfigDemo.load (heap_of p') (Some (k_opts ConfigDemo.koanf)) = Ret (heap_of p', Ok 4%nat).
Proof.
  intros closed. eexists.
  destruct (update_in_flight_outlives_Close ConfigDemo.load ∅ 0 ConfigDemo.reloaded false false 3
    (at_pc ConfigDemo.goroutine (UPublishing 4 ConfigDemo.update)) ConfigDemo.koanf ConfigDemo.updated_manager 4
    ConfigDemo.update ConfigDemo.reach_reloaded) as (H1 & H2 & _); [by vm_compute..|exact (conj H1 H2)].
Defined.
