(* ===== verification/AppConfig.v ===== *)
(** * Watching AWS AppConfig ([src/cloud/service/aws/appconfig.go], [src/coordination/network/watcher])

    The service that polls AppConfig for changes: its maps of watchers, current
    configurations and hashes, and the goroutine per watcher with its two nested loops, as
    steps that interleave at the grain of the mutex. What the AWS client answers is chosen by
    the environment; SHA-256 in hexadecimal is a parameter. The watcher that connects the
    service to the update channels is modelled with its identifier and its callback. *)

From Stdlib Require Import ZArith Lia.
From stdpp Require Import base numbers strings gmap list relations.
From S2P Require Import Prelude GoValue.
Local Open Scope Z_scope.

(** ** Entities *)

Record FetchConfigInput : Type := {
  fi_ApplicationName : string;
  fi_EnvironmentName : string;
  fi_ConfigProfile : string;
}.

Record WatchConfigInput : Type := {
  wi_UniqueConfigID : string;
  wi_Application : string;
  wi_Environment : string;
  wi_ConfigProfile : string;
  wi_PollInterval : Z;
}.

Record FetchConfigResult : Type := {
  fr_ConfigID : string;
  fr_ConfigProfile : string;
  fr_Content : string;
  fr_ContentType : string;
}.

(** What the AWS client answers: a session with a token (that may be nil) or an error; a
    configuration with the token for the next poll, or an error, which may be the
    cancellation of the context. *)
Abbreviation session_answer := (result string (option string)).
Inductive poll_answer : Type :=
  | PollFailed (e : string) (canceled : bool)
  | Polled (next : option string) (configuration : string) (contentType : option string).

Section appconfig.
(** [fmt.Sprintf("%x", sha256.Sum256(content))] *)
Context (sha256hex : string → string).

(** [FetchConfig]; the second answer is asked for with the token of the first. *)
Definition FetchConfig (input : FetchConfigInput) (session : session_answer)
    (latest : string → poll_answer) : result string FetchConfigResult :=
  match session with
  | Err e => Err ("failed to start configuration session: " +:+ e)
  | Ok None => Err "received nil InitialConfigurationToken"
  | Ok (Some token) =>
      match latest token with
      | PollFailed e _ => Err ("failed to fetch configuration: " +:+ e)
      | Polled _ content ctype =>
          Ok {| fr_ConfigID := ""; fr_ConfigProfile := fi_ConfigProfile input; fr_Content := content;
                fr_ContentType := default "" ctype |}
      end
  end.

(** ** The service and its goroutines *)

Record AppConfig : Type := {
  watchers : gmap string nat;            (* the cancel functions, by number *)
  watchedConfigs : gmap string FetchConfigResult;
  lastHashes : gmap string string;
}.

(** Where a goroutine stands: at the head of the loop of [startConfigWatcherLoop], in the
    select of [watchConfigOnce], before its call of the callback, in the restart delay, or
    returned. *)
Inductive loop_pc : Type :=
  | LHead
  | LPolling
  | LCallback (r : FetchConfigResult)
  | LDelay
  | LReturned.

Record watch_loop : Type := {
  l_input : WatchConfigInput;
  l_ctx : list nat;
  l_token : option string;
  l_pc : loop_pc;
}.

(** The process: the service, the goroutines by the number of their cancel function, the
    cancel functions called; and, as history, the non-empty contents polled and the calls of
    callbacks, each with the identifier of its configuration, the oldest first. *)
Record ac_state : Type := {
  service : AppConfig;
  loops : gmap nat watch_loop;
  cancelled : gset nat;
  fresh_ctx : nat;
  polled : list (string * string);
  called : list (string * string);
}.

Definition set_service (s : ac_state) (a : AppConfig) : ac_state :=
  {| service := a; loops := loops s; cancelled := cancelled s; fresh_ctx := fresh_ctx s;
     polled := polled s; called := called s |}.
Definition set_loops (s : ac_state) (l : gmap nat watch_loop) : ac_state :=
  {| service := service s; loops := l; cancelled := cancelled s; fresh_ctx := fresh_ctx s;
     polled := polled s; called := called s |}.
Definition cancel (s : ac_state) (c : gset nat) : ac_state :=
  {| service := service s; loops := loops s; cancelled := c ∪ cancelled s; fresh_ctx := fresh_ctx s;
     polled := polled s; called := called s |}.
Definition log_polled (s : ac_state) (x : string * string) : ac_state :=
  {| service := service s; loops := loops s; cancelled := cancelled s; fresh_ctx := fresh_ctx s;
     polled := polled s ++ [x]; called := called s |}.
Definition log_called (s : ac_state) (x : string * string) : ac_state :=
  {| service := service s; loops := loops s; cancelled := cancelled s; fresh_ctx := fresh_ctx s;
     polled := polled s; called := called s ++ [x] |}.
Definition with_fresh (s : ac_state) : ac_state :=
  {| service := service s; loops := loops s; cancelled := cancelled s; fresh_ctx := S (fresh_ctx s);
     polled := polled s; called := called s |}.

Definition ended (s : ac_state) (ctx : list nat) : bool := existsb (λ c, bool_decide (c ∈ cancelled s)) ctx.

Definition with_watchers (a : AppConfig) (w : gmap string nat) : AppConfig :=
  {| watchers := w; watchedConfigs := watchedConfigs a; lastHashes := lastHashes a |}.

(** [WatchConfig]: the mutex is held throughout, the session request included. *)
Definition WatchConfig (s : ac_state) (ctx : list nat) (input : WatchConfigInput) (session : session_answer)
  : ac_state * result string unit :=
  let a := service s in
  let id := wi_UniqueConfigID input in
  match watchers a !! id with
  | Some _ => (s, Err ("watcher for config " +:+ wi_ConfigProfile input +:+ "[" +:+ id +:+ "] already exists"))
  | None =>
      let g := fresh_ctx s in
      let s := with_fresh (set_service s (with_watchers a (<[id := g]> (watchers a)))) in
      let undo := cancel (set_service s (with_watchers (service s) (delete id (watchers (service s))))) {[ g ]} in
      match session with
      | Err e => (undo, Err ("failed to start configuration session for " +:+ id +:+ ": " +:+ e))
      | Ok None => (undo, Err ("received nil InitialConfigurationToken for " +:+ id))
      | Ok (Some token) =>
          let l := {| l_input := input; l_ctx := g :: ctx; l_token := Some token; l_pc := LHead |} in
          (set_loops s (<[g := l]> (loops s)), Ok ())
      end
  end.

Definition GetCurrentConfiguration (a : AppConfig) (id : string) : result string FetchConfigResult :=
  match watchedConfigs a !! id with
  | None => Err ("no configuration found for " +:+ id)
  | Some r => Ok r
  end.

Definition StopWatching (s : ac_state) (id : string) : ac_state * result string unit :=
  match watchers (service s) !! id with
  | Some g =>
      (cancel (set_service s (with_watchers (service s) (delete id (watchers (service s))))) {[ g ]}, Ok ())
  | None => (s, Err ("no watcher found for config " +:+ id))
  end.

(** The range deletes every entry it visits; the hashes stay. *)
Definition StopAllWatching (s : ac_state) : ac_state :=
  cancel (set_service s {| watchers := ∅; watchedConfigs := ∅; lastHashes := lastHashes (service s) |})
    (list_to_set (map_to_list (watchers (service s))).*2).

Definition at_loop (l : watch_loop) (token : option string) (pc : loop_pc) : watch_loop :=
  {| l_input := l_input l; l_ctx := l_ctx l; l_token := token; l_pc := pc |}.
Definition goto_loop (s : ac_state) (g : nat) (l : watch_loop) (token : option string) (pc : loop_pc) : ac_state :=
  set_loops s (<[g := at_loop l token pc]> (loops s)).

(** The head of the loop: return if the context is done, else enter [watchConfigOnce]. Its
    [time.NewTicker] panics on a period that is not positive; the deferred function turns the
    panic into an error, and the token, not yet assigned, is nil. *)
Definition loop_head (s : ac_state) (g : nat) (l : watch_loop) : ac_state :=
  if ended s (l_ctx l) then goto_loop s g l (l_token l) LReturned
  else if wi_PollInterval (l_input l) <=? 0 then goto_loop s g l None LDelay
  else goto_loop s g l (l_token l) LPolling.

(** [watchConfigOnce] returns on an error or the end of its context: the loop returns if the
    error is [context.Canceled], else it waits and starts again with the same token. *)
Definition once_failed (s : ac_state) (g : nat) (l : watch_loop) (canceled : bool) : ac_state :=
  goto_loop s g l (l_token l) (if canceled then LReturned else LDelay).

(** A round of [watchConfigOnce]. *)
Definition poll_round (s : ac_state) (g : nat) (l : watch_loop) (answer : poll_answer) : ac_state :=
  match answer with
  | PollFailed _ canceled => once_failed s g l canceled
  | Polled next content ctype =>
      if decide (content = "") then goto_loop s g l next LPolling
      else
        let id := wi_UniqueConfigID (l_input l) in
        let hash := sha256hex content in
        let r := {| fr_ConfigID := id; fr_ConfigProfile := wi_ConfigProfile (l_input l); fr_Content := content;
                    fr_ContentType := default "" ctype |} in
        let s := log_polled s (id, content) in
        let a := service s in
        if decide (lastHashes a !! id = Some hash) then goto_loop s g l next LPolling
        else
          let a := {| watchers := watchers a; watchedConfigs := <[id := r]> (watchedConfigs a);
                      lastHashes := <[id := hash]> (lastHashes a) |} in
          goto_loop (set_service s a) g l next (LCallback r)
  end.

(** The call of the callback (which may be nil): a panic ends [watchConfigOnce] with an error. *)
Definition call_back (s : ac_state) (g : nat) (l : watch_loop) (r : FetchConfigResult) (panics : bool) : ac_state :=
  let s := log_called s (fr_ConfigID r, fr_Content r) in
  if panics then once_failed s g l false else goto_loop s g l (l_token l) LPolling.

Inductive ac_step : ac_state → ac_state → Prop :=
  | ac_watch s ctx input session s' r : WatchConfig s ctx input session = (s', r) → ac_step s s'
  | ac_stop s id s' r : StopWatching s id = (s', r) → ac_step s s'
  | ac_stop_all s : ac_step s (StopAllWatching s)
  | ac_cancel s c : (c < fresh_ctx s)%nat → ac_step s (cancel s {[ c ]})
  | ac_head s g l : loops s !! g = Some l → l_pc l = LHead → ac_step s (loop_head s g l)
  | ac_poll s g l answer : loops s !! g = Some l → l_pc l = LPolling → ac_step s (poll_round s g l answer)
  | ac_done s g l canceled :
      (* the select of [watchConfigOnce] takes [ctx.Done()]; a deadline is not a cancellation *)
      loops s !! g = Some l → l_pc l = LPolling → ended s (l_ctx l) = true → ac_step s (once_failed s g l canceled)
  | ac_call s g l r panics :
      loops s !! g = Some l → l_pc l = LCallback r → ac_step s (call_back s g l r panics)
  | ac_restart s g l : loops s !! g = Some l → l_pc l = LDelay → ac_step s (goto_loop s g l (l_token l) LHead)
  | ac_quit s g l :
      loops s !! g = Some l → l_pc l = LDelay → ended s (l_ctx l) = true → ac_step s (goto_loop s g l (l_token l) LReturned).

Definition fresh_service (ctxs : nat) : ac_state :=
  {| service := {| watchers := ∅; watchedConfigs := ∅; lastHashes := ∅ |}; loops := ∅; cancelled := ∅;
     fresh_ctx := ctxs; polled := []; called := [] |}.

(** ** What the callbacks should see *)

(** The contents of one configuration. *)
Definition contents_of (id : string) (log : list (string * string)) : list string :=
  (filter (λ x, x.1 = id) log).*2.

(** The contents whose hash differs from the hash of the one before. *)
Fixpoint changes (last : option string) (contents : list string) : list string :=
  match contents with
  | [] => []
  | c :: rest =>
      if decide (last = Some (sha256hex c)) then changes last rest
      else c :: changes (Some (sha256hex c)) rest
  end.

(** The changes still to be handed to a callback. *)
Definition in_flight (id : string) (l : watch_loop) : list string :=
  match l_pc l with
  | LCallback r => if decide (fr_ConfigID r = id) then [fr_Content r] else []
  | _ => []
  end.
Definition pending (id : string) (ls : gmap nat watch_loop) : list string :=
  (map_to_list ls).*2 ≫= in_flight id.

(** A goroutine that polls the configuration [id] and has not been told to stop. *)
Definition active_loop (s : ac_state) (id : string) (g : nat) : Prop :=
  ∃ l, loops s !! g = Some l ∧ wi_UniqueConfigID (l_input l) = id ∧ ended s (l_ctx l) = false.

(** ** Histories *)

Lemma contents_of_snoc id log x :
  contents_of id (log ++ [x]) = contents_of id log ++ (if decide (x.1 = id) then [x.2] else []).
Proof. unfold contents_of. rewrite filter_app, fmap_app. cbn. by case_decide. Qed.

Lemma changes_snoc last cs c :
  changes last (cs ++ [c]) = changes last cs ++
    (if decide (match list.last cs with Some x => Some (sha256hex x) | None => last end = Some (sha256hex c))
     then [] else [c]).
Proof.
  revert last. induction cs as [|x cs IH]; intros last; [cbn; by case_decide|].
  cbn [app changes]. assert (∀ o, match list.last (x :: cs) with Some y => Some (sha256hex y) | None => o end =
    match list.last cs with Some y => Some (sha256hex y) | None => Some (sha256hex x) end) as Hl.
  { intros o. destruct cs; [done|]. rewrite last_cons. by destruct (list.last _) eqn:E. }
  rewrite Hl. destruct (decide (last = Some (sha256hex x))) as [->|]; rewrite IH; done.
Qed.

Lemma pending_insert_new id ls g l : ls !! g = None → pending id (<[g := l]> ls) ≡ₚ in_flight id l ++ pending id ls.
Proof. intros E. unfold pending. by rewrite map_to_list_insert. Qed.

Lemma pending_move id ls g l l' :
  ls !! g = Some l → in_flight id l ++ pending id (<[g := l']> ls) ≡ₚ in_flight id l' ++ pending id ls.
Proof.
  intros E. rewrite <-(insert_delete_id ls g l E) at 2. rewrite <-insert_delete_eq.
  rewrite !pending_insert_new by apply lookup_delete_eq. by rewrite Permutation_app_swap_app.
Qed.

(** ** The invariant *)

Definition loop_ok (s : ac_state) (g : nat) (l : watch_loop) : Prop :=
  (g < fresh_ctx s)%nat ∧ (∃ rest, l_ctx l = g :: rest) ∧
  (g ∈ cancelled s ∨ watchers (service s) !! wi_UniqueConfigID (l_input l) = Some g) ∧
  ∀ r, l_pc l = LCallback r → fr_ConfigID r = wi_UniqueConfigID (l_input l).

Definition shape_ok (s : ac_state) : Prop :=
  (∀ g l, loops s !! g = Some l → loop_ok s g l) ∧
  (∀ id g, watchers (service s) !! id = Some g →
     ∃ l, loops s !! g = Some l ∧ wi_UniqueConfigID (l_input l) = id) ∧
  (∀ c, c ∈ cancelled s → (c < fresh_ctx s)%nat).

Definition history_ok (s : ac_state) : Prop :=
  (∀ id, lastHashes (service s) !! id = sha256hex <$> last (contents_of id (polled s))) ∧
  (∀ id, contents_of id (called s) ++ pending id (loops s) ≡ₚ changes None (contents_of id (polled s))).

Definition ac_ok (s : ac_state) : Prop := shape_ok s ∧ history_ok s.

Lemma shape_goto s g l token pc :
  shape_ok s → loops s !! g = Some l →
  (∀ r, pc = LCallback r → fr_ConfigID r = wi_UniqueConfigID (l_input l)) →
  shape_ok (goto_loop s g l token pc).
Proof.
  intros (Hl & Hw & Hc) E Hpc. split; [|split; [|done]].
  - intros g' l'. cbn. rewrite lookup_insert_Some. intros [[<- <-]|[_ E']]; [|exact (Hl g' l' E')].
    destruct (Hl g l E) as (? & ? & ? & _). split; [done|]. split; [done|]. split; [done|exact Hpc].
  - intros id g' E'. destruct (Hw id g' E') as (l' & El & Hid). cbn. destruct (decide (g = g')) as [<-|Hne].
    + exists (at_loop l token pc). rewrite lookup_insert_eq. by simplify_eq.
    + exists l'. by rewrite lookup_insert_ne.
Qed.

Lemma in_flight_none id l token pc : (∀ r, pc ≠ LCallback r) → in_flight id (at_loop l token pc) = [].
Proof. intros H. unfold in_flight. cbn. destruct pc as [| |r| |]; [done|done|by destruct (H r)|done|done]. Qed.

Lemma history_goto s g l token pc :
  history_ok s → loops s !! g = Some l → (∀ id, in_flight id l = []) → (∀ r, pc ≠ LCallback r) →
  history_ok (goto_loop s g l token pc).
Proof.
  intros [Hh Hp] E Hl Hpc. split; [done|]. intros id. cbn [called loops polled goto_loop set_loops]. rewrite <-Hp.
  pose proof (pending_move id (loops s) g l (at_loop l token pc) E) as Hmv.
  assert (in_flight id (at_loop l token pc) = []) as Hfl by (by apply in_flight_none).
  rewrite Hl, Hfl in Hmv. cbn [app] in Hmv. by rewrite Hmv.
Qed.

Lemma ac_ok_goto s g l token pc :
  ac_ok s → loops s !! g = Some l → (∀ id, in_flight id l = []) → (∀ r, pc ≠ LCallback r) →
  ac_ok (goto_loop s g l token pc).
Proof.
  intros [Hs Hh] E Hl Hpc. split; [|by apply history_goto].
  apply shape_goto; [done|done|]. intros r Hr. by destruct (Hpc r).
Qed.

Lemma shape_cancel s w c :
  shape_ok s → (∀ x, x ∈ c → (x < fresh_ctx s)%nat) →
  (∀ id g, w !! id = Some g → watchers (service s) !! id = Some g) →
  (∀ id g, watchers (service s) !! id = Some g → w !! id = Some g ∨ g ∈ c) →
  ∀ wc, shape_ok (cancel (set_service s {| watchers := w; watchedConfigs := wc; lastHashes := lastHashes (service s) |}) c).
Proof.
  intros (Hl & Hw & Hc) Hlt Hsub Hsup wc. split; [|split].
  - intros g l E. destruct (Hl g l E) as (? & ? & Hor & ?). split; [done|]. split; [done|]. split; [|done]. cbn.
    destruct Hor as [?|Hg]; [left; set_solver|]. destruct (Hsup _ _ Hg); [by right|left; set_solver].
  - intros id g E. apply Hw. by apply Hsub.
  - intros x. cbn. rewrite elem_of_union. intros [?|?]; auto.
Qed.

Lemma watchers_lt s id g : shape_ok s → watchers (service s) !! id = Some g → (g < fresh_ctx s)%nat.
Proof. intros (Hl & Hw & _) E. destruct (Hw id g E) as (l & El & _). by destruct (Hl g l El). Qed.

Lemma stop_shape s id g :
  shape_ok s → watchers (service s) !! id = Some g →
  shape_ok (cancel (set_service s (with_watchers (service s) (delete id (watchers (service s))))) {[ g ]}).
Proof.
  intros Hs E. apply shape_cancel; [done| | |].
  - intros x ->%elem_of_singleton. by eapply watchers_lt.
  - intros id' g'. rewrite lookup_delete_Some. by intros [].
  - intros id' g' E'. destruct (decide (id = id')) as [<-|]; [right; set_solver|left; by rewrite lookup_delete_ne].
Qed.

Lemma stop_all_shape s : shape_ok s → shape_ok (StopAllWatching s).
Proof.
  intros Hs. apply shape_cancel; [done| | |].
  - intros x. rewrite elem_of_list_to_set, list_elem_of_fmap. intros ([id g] & -> & Hin%elem_of_map_to_list).
    by eapply watchers_lt.
  - intros id g. by rewrite lookup_empty.
  - intros id g E. right. rewrite elem_of_list_to_set, list_elem_of_fmap.
    exists (id, g). split; [done|]. by apply elem_of_map_to_list.
Qed.

(** A failed [WatchConfig] leaves the watchers as they were. *)
Lemma watch_undo_shape s id :
  shape_ok s → watchers (service s) !! id = None →
  let s1 := with_fresh (set_service s (with_watchers (service s) (<[id := fresh_ctx s]> (watchers (service s))))) in
  shape_ok (cancel (set_service s1 (with_watchers (service s1) (delete id (watchers (service s1))))) {[ fresh_ctx s ]}).
Proof.
  intros (Hl & Hw & Hc) E s1. cbn. rewrite delete_insert_id by done. split; [|split].
  - intros g l El. destruct (Hl g l El) as (? & ? & Hor & ?). split; [cbn; lia|]. split; [done|]. split; [|done]. cbn.
    destruct Hor; [left; set_solver|by right].
  - exact Hw.
  - intros x. cbn. rewrite elem_of_union, elem_of_singleton. intros [->|Hx]; [lia|]. apply Hc in Hx. lia.
Qed.

Lemma loops_fresh s : shape_ok s → loops s !! fresh_ctx s = None.
Proof. intros (Hl & _ & _). destruct (loops s !! fresh_ctx s) as [l|] eqn:E; [|done]. destruct (Hl _ _ E). lia. Qed.

Lemma watch_shape s input token ctx :
  shape_ok s → watchers (service s) !! wi_UniqueConfigID input = None →
  let s1 := with_fresh (set_service s (with_watchers (service s)
    (<[wi_UniqueConfigID input := fresh_ctx s]> (watchers (service s))))) in
  let l := {| l_input := input; l_ctx := fresh_ctx s :: ctx; l_token := token; l_pc := LHead |} in
  shape_ok (set_loops s1 (<[fresh_ctx s := l]> (loops s1))).
Proof.
  intros Hs E s1 l. pose proof (loops_fresh s Hs) as Hf. destruct Hs as (Hl & Hw & Hc). split; [|split].
  - intros g l'. cbn. rewrite lookup_insert_Some. intros [[<- <-]|[Hne El]].
    + split; [cbn; lia|]. split; [by exists ctx|]. split; [right; cbn; by rewrite lookup_insert_eq|done].
    + destruct (Hl g l' El) as (? & ? & Hor & ?). split; [cbn; lia|]. split; [done|]. split; [|done]. cbn.
      destruct Hor as [?|Hg]; [by left|right]. rewrite lookup_insert_ne; [done|]. intros Heq. congruence.
  - intros id g. cbn. rewrite lookup_insert_Some. intros [[<- <-]|[Hne Hg]].
    + exists l. by rewrite lookup_insert_eq.
    + destruct (Hw id g Hg) as (l' & El & Hid). exists l'. rewrite lookup_insert_ne; [done|]. intros Heq. congruence.
  - intros x Hx. cbn in *. apply Hc in Hx. lia.
Qed.

Lemma WatchConfig_ok s ctx input session s' r :
  ac_ok s → WatchConfig s ctx input session = (s', r) → ac_ok s'.
Proof.
  intros [Hs Hh]. unfold WatchConfig. destruct (watchers (service s) !! wi_UniqueConfigID input) eqn:E; [by intros [= <- <-]|].
  pose proof (loops_fresh s Hs) as Hf. cbv zeta. destruct session as [[token|]|e]; intros [= <- <-].
  - split; [by apply watch_shape|]. destruct Hh as [Hh Hp]. split; [done|]. intros id. cbn.
    rewrite pending_insert_new by done. apply Hp.
  - split; [by apply watch_undo_shape|done].
  - split; [by apply watch_undo_shape|done].
Qed.

Lemma poll_round_ok s g l answer :
  ac_ok s → loops s !! g = Some l → l_pc l = LPolling → ac_ok (poll_round s g l answer).
Proof.
  intros Hok E Hpc. assert (∀ id, in_flight id l = []) as Hin by (intros id; unfold in_flight; by rewrite Hpc).
  unfold poll_round, once_failed. destruct answer as [e canceled|next content ctype].
  { apply ac_ok_goto; [done|done|done|]. by destruct canceled. }
  case_decide as Hce; [by apply ac_ok_goto|]. cbv zeta. set (id0 := wi_UniqueConfigID (l_input l)).
  destruct Hok as [Hs [Hh Hp]]. change (lastHashes (service (log_polled s _))) with (lastHashes (service s)).
  assert (∀ id, contents_of id (polled s ++ [(id0, content)]) =
    contents_of id (polled s) ++ (if decide (id0 = id) then [content] else [])) as Hsnoc.
  { intros id. by rewrite contents_of_snoc. }
  assert (∀ id, last (contents_of id (polled s)) = None → contents_of id (polled s) = []) as Hnil.
  { intros id. apply last_None. }
  case_decide as Hsame.
  - apply ac_ok_goto; [|done|done|done]. split; [done|]. split; intros id; cbn [polled log_polled service called loops];
      rewrite Hsnoc; case_decide as Hid; rewrite ?app_nil_r; [|apply Hh| |apply Hp]; subst id.
    + by rewrite last_snoc, Hsame.
    + rewrite changes_snoc, Hp. rewrite Hh in Hsame. destruct (last (contents_of id0 (polled s))) as [x|]; [|done].
      cbn in Hsame. by rewrite decide_True, app_nil_r.
  - set (r := {| fr_ConfigID := id0 |}). split; [apply shape_goto; [exact Hs|done|by intros r' [= <-]]|].
    split; intros id; cbn [polled log_polled service called loops goto_loop set_loops set_service lastHashes]; rewrite Hsnoc.
    + case_decide as Hid; [subst id; by rewrite lookup_insert_eq, last_snoc|].
      rewrite lookup_insert_ne, app_nil_r by done. apply Hh.
    + assert (in_flight id (at_loop l next (LCallback r)) = if decide (id0 = id) then [content] else []) as Hfl by done.
      pose proof (pending_move id (loops s) g l (at_loop l next (LCallback r)) E) as Hmv. rewrite Hin, Hfl in Hmv.
      cbn [app] in Hmv. rewrite Hmv. case_decide as Hid; [subst id|by rewrite app_nil_r, Hp].
      rewrite changes_snoc, <-Hp, decide_False; [solve_Permutation|].
      intros Heq. apply Hsame. rewrite Hh. by destruct (last (contents_of id0 (polled s))).
Qed.

Lemma call_back_ok s g l r panics :
  ac_ok s → loops s !! g = Some l → l_pc l = LCallback r → ac_ok (call_back s g l r panics).
Proof.
  intros [Hs [Hh Hp]] E Hpc.
  assert (∀ pc, (∀ r, pc ≠ LCallback r) →
    ac_ok (goto_loop (log_called s (fr_ConfigID r, fr_Content r)) g l (l_token l) pc)) as H.
  { intros pc Hn. split.
    - apply shape_goto; [exact Hs|done|]. intros r' ->. by destruct (Hn r').
    - split; [exact Hh|]. intros id. cbn [called loops polled goto_loop set_loops log_called]. rewrite contents_of_snoc, <-Hp.
      pose proof (pending_move id (loops s) g l (at_loop l (l_token l) pc) E) as Hmv.
      assert (in_flight id (at_loop l (l_token l) pc) = []) as Hfl by (by apply in_flight_none).
      assert (in_flight id l = if decide (fr_ConfigID r = id) then [fr_Content r] else []) as Hfl'.
      { unfold in_flight. by rewrite Hpc. }
      rewrite Hfl, Hfl' in Hmv. cbn [app] in Hmv. by rewrite <-app_assoc, Hmv. }
  unfold call_back, once_failed. cbv zeta. by destruct panics; apply H.
Qed.

Lemma ac_ok_step s s' : ac_ok s → ac_step s s' → ac_ok s'.
Proof.
  intros Hok Hst. pose proof Hok as [Hs Hh].
  destruct Hst as [s ctx input session s' r E|s id s' r E|s|s c Hc|s g l E Hpc|s g l answer E Hpc|s g l canceled E Hpc Hd
    |s g l r panics E Hpc|s g l E Hpc|s g l E Hpc Hd].
  - by eapply WatchConfig_ok.
  - unfold StopWatching in E. destruct (watchers (service s) !! id) as [g|] eqn:Ew; simplify_eq; [|done].
    split; [by apply stop_shape|done].
  - split; [by apply stop_all_shape|done].
  - split; [|done]. destruct Hs as (Hl & Hw & Hcn). split; [|split; [done|]].
    + intros g l E. destruct (Hl g l E) as (? & ? & Hor & ?). split; [done|]. split; [done|]. split; [|done]. cbn.
      destruct Hor; [left; set_solver|by right].
    + intros x. cbn. rewrite elem_of_union, elem_of_singleton. intros [->|?]; [done|auto].
  - assert (∀ id, in_flight id l = []) as Hin by (intros id; unfold in_flight; by rewrite Hpc).
    unfold loop_head. by repeat case_match; apply ac_ok_goto.
  - by apply poll_round_ok.
  - apply ac_ok_goto; [done|done| |by destruct canceled]. intros id; unfold in_flight; by rewrite Hpc.
  - by apply call_back_ok.
  - apply ac_ok_goto; [done|done| |done]. intros id; unfold in_flight; by rewrite Hpc.
  - apply ac_ok_goto; [done|done| |done]. intros id; unfold in_flight; by rewrite Hpc.
Qed.

Lemma ac_reachable n s : rtc ac_step (fresh_service n) s → ac_ok s.
Proof.
  intros Hr. assert (ac_ok (fresh_service n)) as H0.
  { split; [split; [|split]|split]; cbn.
    - intros g l. by rewrite lookup_empty.
    - intros id g. by rewrite lookup_empty.
    - set_solver.
    - intros id. by rewrite lookup_empty.
    - intros id. done. }
  revert H0. induction Hr; [done|]. eauto using ac_ok_step.
Qed.

End appconfig.

(** ** Theorems *)

Lemma ended_in s ctx c : c ∈ ctx → c ∈ cancelled s → ended s ctx = true.
Proof.
  intros Hx Hc. unfold ended. apply existsb_exists. exists c.
  split; [by apply list_elem_of_In|by apply bool_decide_eq_true_2].
Qed.

(** An active goroutine is the registered one. *)
Lemma active_registered s id g : shape_ok s → active_loop s id g → watchers (service s) !! id = Some g.
Proof.
  intros (Hl & _ & _) (l & E & <- & Hd). destruct (Hl g l E) as (_ & (rest & Hr) & [Hc|Hw] & _); [|done].
  rewrite (ended_in s (l_ctx l) g) in Hd; [done|rewrite Hr; set_solver|done].
Qed.

(** At most one goroutine polls a configuration, the registered one; [StopWatching] and
    [StopAllWatching] leave none. *)
Theorem appconfig_single_watcher sha256hex n s id :
  rtc (ac_step sha256hex) (fresh_service n) s →
  (∀ g g', active_loop s id g → active_loop s id g' → g = g') ∧
  (∀ g, active_loop s id g → watchers (service s) !! id = Some g) ∧
  (∀ g, ¬ active_loop (StopWatching s id).1 id g) ∧
  (∀ g, ¬ active_loop (StopAllWatching s) id g).
Proof.
  intros Hr. apply ac_reachable in Hr as [Hs _]. split; [|split; [|split]].
  - intros g g' Hg Hg'. apply (active_registered _ _ _ Hs) in Hg, Hg'. congruence.
  - intros g Hg. by apply active_registered.
  - intros g. unfold StopWatching. destruct (watchers (service s) !! id) as [g0|] eqn:E.
    + intros Hg. apply active_registered in Hg; [|by apply stop_shape]. cbn in Hg. by rewrite lookup_delete_eq in Hg.
    + intros Hg. apply (active_registered _ _ _ Hs) in Hg. cbn in Hg. congruence.
  - intros g Hg. apply active_registered in Hg; [|by apply stop_all_shape]. cbn in Hg. by rewrite lookup_empty in Hg.
Qed.

(** Every change is handed to a callback exactly once. Through any interleaving of watchers
    started and stopped, polls, failures, restarts and panics of callbacks, the contents
    handed over for a configuration, with those a goroutine is about to hand over, are the
    non-empty contents polled for it whose hash differs from the one polled before. *)
Theorem appconfig_changes_called_once sha256hex n s id :
  rtc (ac_step sha256hex) (fresh_service n) s →
  contents_of id (called s) ++ pending id (loops s) ≡ₚ changes sha256hex None (contents_of id (polled s)).
Proof. intros Hr. apply ac_reachable in Hr as [_ [_ Hp]]. apply Hp. Qed.

(** After [StopAllWatching] the hashes still suppress what the map forgot: as long as the polls
    of new watchers see the content last seen, [GetCurrentConfiguration] finds nothing and no
    callback is due. *)
Definition stale_ok (sha256hex : string → string) (id c : string) (before : list string) (s : ac_state) : Prop :=
  ∃ tail, contents_of id (polled s) = before ++ tail ∧
    (Forall (eq c) tail → watchedConfigs (service s) !! id = None ∧
      lastHashes (service s) !! id = Some (sha256hex c)).

Lemma stale_step sha256hex id c before s s' :
  stale_ok sha256hex id c before s → ac_step sha256hex s s' → stale_ok sha256hex id c before s'.
Proof.
  intros (tail & Et & Hs) Hst.
  assert (∀ s2, polled s2 = polled s → watchedConfigs (service s2) !! id = watchedConfigs (service s) !! id →
    lastHashes (service s2) = lastHashes (service s) → stale_ok sha256hex id c before s2) as Hsame.
  { intros s2 E1 E2 E3. exists tail. by rewrite E1, E2, E3. }
  destruct Hst as [s ctx input session s' r E|s id' s' r E|s|s x Hc|s g l E Hpc|s g l answer E Hpc|s g l canceled E Hpc Hd
    |s g l r panics E Hpc|s g l E Hpc|s g l E Hpc Hd]; [| | | | | |by apply Hsame| |by apply Hsame|by apply Hsame].
  - unfold WatchConfig in E. destruct (watchers (service s) !! wi_UniqueConfigID input); [injection E as <- <-; by apply Hsame|].
    cbv zeta in E. destruct session as [[token|]|e]; injection E as <- <-; by apply Hsame.
  - unfold StopWatching in E. destruct (watchers (service s) !! id'); injection E as <- <-; by apply Hsame.
  - exists tail. split; [done|]. intros Hf. destruct (Hs Hf) as [_ Hh]. done.
  - by apply Hsame.
  - unfold loop_head. repeat case_match; by apply Hsame.
  - unfold poll_round, once_failed. destruct answer as [e canceled|next content ctype]; [by apply Hsame|].
    case_decide; [by apply Hsame|]. cbv zeta. set (id0 := wi_UniqueConfigID (l_input l)).
    exists (tail ++ if decide (id0 = id) then [content] else []). split.
    { case_decide; cbn [polled log_polled goto_loop set_loops set_service]; rewrite contents_of_snoc, Et, app_assoc; done. }
    intros [Hf1 Hf2]%Forall_app. destruct (Hs Hf1) as [Hw Hh].
    change (lastHashes (service (log_polled s _))) with (lastHashes (service s)).
    change (watchedConfigs (service (log_polled s _))) with (watchedConfigs (service s)).
    destruct (decide (id0 = id)) as [->|Hne].
    + apply Forall_singleton in Hf2 as <-. by rewrite decide_True.
    + case_decide; cbn [service goto_loop set_loops set_service watchedConfigs lastHashes]; [done|].
      by rewrite !lookup_insert_ne.
  - unfold call_back, once_failed. destruct panics; by apply Hsame.
Qed.

Theorem StopAllWatching_hides_configuration sha256hex n s id c s' k :
  rtc (ac_step sha256hex) (fresh_service n) s → last (contents_of id (polled s)) = Some c →
  rtc (ac_step sha256hex) (StopAllWatching s) s' →
  contents_of id (polled s') = contents_of id (polled s) ++ replicate k c →
  GetCurrentConfiguration (service s') id = Err ("no configuration found for " +:+ id) ∧
  changes sha256hex None (contents_of id (polled s')) = changes sha256hex None (contents_of id (polled s)).
Proof.
  intros Hr Hc Hr' Hk. apply ac_reachable in Hr as [_ [Hh _]].
  assert (stale_ok sha256hex id c (contents_of id (polled s)) (StopAllWatching s)) as H0.
  { exists []. rewrite app_nil_r. split; [done|]. intros _. split; [apply lookup_empty|]. cbn. by rewrite Hh, Hc. }
  assert (stale_ok sha256hex id c (contents_of id (polled s)) s') as (tail & Et & Hs).
  { clear Hk. revert H0. induction Hr' as [|? ? ? ? ? IH]; [done|]. intros H0. apply IH. by eapply stale_step. }
  rewrite Hk in Et. apply app_inv_head in Et as <-. destruct Hs as [Hw _]; [by apply Forall_replicate|].
  split; [unfold GetCurrentConfiguration; by rewrite Hw|]. rewrite Hk. clear Hk Hw. revert Hc.
  generalize (contents_of id (polled s)). intros cs Hc. induction k as [|k IH]; [by rewrite app_nil_r|].
  rewrite replicate_S_end, app_assoc, changes_snoc, IH, decide_True; [by rewrite app_nil_r|].
  destruct k as [|k]; [cbn; by rewrite app_nil_r, Hc|]. by rewrite replicate_S_end, app_assoc, last_snoc.
Qed.

(** A watcher that ended blocks its successor. When a parent context of a polling goroutine
    is cancelled the goroutine returns, but its entry stays: every later [WatchConfig] for the
    identifier is refused, with whatever context, until somebody calls [StopWatching]. *)
Theorem ended_watcher_blocks_restart sha256hex n s id g l c rest :
  rtc (ac_step sha256hex) (fresh_service n) s → watchers (service s) !! id = Some g →
  loops s !! g = Some l → l_pc l = LPolling → l_ctx l = g :: c :: rest → (c < fresh_ctx s)%nat →
  let s1 := cancel s {[ c ]} in
  let s2 := once_failed s1 g l true in
  rtc (ac_step sha256hex) s s2 ∧ l_pc <$> loops s2 !! g = Some LReturned ∧
  ∀ ctx input session, wi_UniqueConfigID input = id →
    (WatchConfig s2 ctx input session).1 = s2 ∧ ∃ e, (WatchConfig s2 ctx input session).2 = Err e.
Proof.
  intros Hr Hw El Hpc Hctx Hc s1 s2. split; [|split].
  - eapply rtc_l; [by apply ac_cancel|]. apply rtc_once, ac_done; [done|done|].
    apply (ended_in _ _ c); [rewrite Hctx; set_solver|cbn; set_solver].
  - cbn. by rewrite lookup_insert_eq.
  - intros ctx input session <-. unfold WatchConfig. cbn [service s2 s1 once_failed goto_loop set_loops cancel].
    rewrite Hw. split; [done|]. by eexists.
Qed.

(** ** The watcher that feeds update channels *)

(** Of [watcher.WatcherOptions], what identifies the content. *)
Record AcWatcherOptions : Type := {
  aw_Application : string;
  aw_Environment : string;
  aw_ContentScope : string;
  aw_ClientID : string;
  aw_PollInterval : Z;
}.

Definition raw_id (w : AcWatcherOptions) : string :=
  aw_Application w +:+ "-" +:+ aw_Environment w +:+ "-" +:+ aw_ContentScope w +:+ "-" +:+ aw_ClientID w.
Definition generateUniqueID (sha256hex : string → string) (w : AcWatcherOptions) : string := sha256hex (raw_id w).

(** [AwsAppConfigWatcher.Watch] on a service. *)
Definition Watch (sha256hex : string → string) (s : ac_state) (ctx : list nat) (w : AcWatcherOptions)
    (session : session_answer) : ac_state * result string unit :=
  WatchConfig s ctx
    {| wi_UniqueConfigID := generateUniqueID sha256hex w; wi_Application := aw_Application w;
       wi_Environment := aw_Environment w; wi_ConfigProfile := aw_ContentScope w;
       wi_PollInterval := aw_PollInterval w |} session.

(** The parts of the identifier are joined with a character they may hold: whatever the hash,
    two different contents share an identifier, and the second is not watched. *)
Theorem generateUniqueID_ambiguous sha256hex n ctx t :
  let w1 := {| aw_Application := "shop-eu"; aw_Environment := "prod"; aw_ContentScope := "flags";
               aw_ClientID := "a"; aw_PollInterval := 1 |} in
  let w2 := {| aw_Application := "shop"; aw_Environment := "eu-prod"; aw_ContentScope := "flags";
               aw_ClientID := "a"; aw_PollInterval := 1 |} in
  let s := (Watch sha256hex (fresh_service n) ctx w1 (Ok (Some t))).1 in
  (Watch sha256hex (fresh_service n) ctx w1 (Ok (Some t))).2 = Ok () ∧
  (Watch sha256hex s ctx w2 (Ok (Some t))).1 = s ∧
  ∃ e, (Watch sha256hex s ctx w2 (Ok (Some t))).2 = Err e.
Proof.
  intros w1 w2 s.
  assert (generateUniqueID sha256hex w2 = generateUniqueID sha256hex w1) as Hid by done.
  assert (watchers (service s) !! generateUniqueID sha256hex w1 = Some n) as Hw.
  { unfold s, Watch, WatchConfig. cbn [wi_UniqueConfigID service fresh_service watchers]. rewrite lookup_empty.
    cbn. by rewrite lookup_insert_eq. }
  split; [unfold Watch, WatchConfig; cbn [wi_UniqueConfigID service fresh_service watchers]; by rewrite lookup_empty|].
  clearbody s. unfold Watch, WatchConfig. cbn [wi_UniqueConfigID]. rewrite Hid, Hw. split; [done|]. by eexists.
Qed.

(** ** Witnesses *)

Module AppConfigDemo.
Definition hash (c : string) : string := c.
Definition input : WatchConfigInput :=
  {| wi_UniqueConfigID := "id"; wi_Application := "app"; wi_Environment := "prod"; wi_ConfigProfile := "flags";
     wi_PollInterval := 5 |}.
Definition started : ac_state := (WatchConfig (fresh_service 1) [0%nat] input (Ok (Some "t0"))).1.
Definition loop (token : string) (pc : loop_pc) : watch_loop :=
  {| l_input := input; l_ctx := [1; 0]%nat; l_token := Some token; l_pc := pc |}.
Definition polling : ac_state := loop_head started 1 (loop "t0" LHead).
Definition changed : ac_state := poll_round hash polling 1 (loop "t0" LPolling) (Polled (Some "t1") "v1" None).
Definition result1 : FetchConfigResult :=
  {| fr_ConfigID := "id"; fr_ConfigProfile := "flags"; fr_Content := "v1"; fr_ContentType := "" |}.
Definition notified : ac_state := call_back changed 1 (loop "t1" (LCallback result1)) result1 false.

Lemma reach_polling : rtc (ac_step hash) (fresh_service 1) polling.
Proof.
  eapply rtc_l; [apply (ac_watch hash _ [0%nat] input (Ok (Some "t0")) started (Ok ())); by vm_compute|].
  apply rtc_once, ac_head; by vm_compute.
Qed.
Lemma reach_notified : rtc (ac_step hash) (fresh_service 1) notified.
Proof.
  etrans; [apply reach_polling|]. apply (rtc_l _ _ changed); [apply ac_poll; by vm_compute|].
  apply rtc_once, ac_call; by vm_compute.
Qed.

(** Stopped, watched again, polled: the same content. *)
Definition stopped : ac_state := StopAllWatching notified.
Definition restarted : ac_state := (WatchConfig stopped [0%nat] input (Ok (Some "u0"))).1.
Definition loop2 (token : string) (pc : loop_pc) : watch_loop :=
  {| l_input := input; l_ctx := [2; 0]%nat; l_token := Some token; l_pc := pc |}.
Definition polling2 : ac_state := loop_head restarted 2 (loop2 "u0" LHead).
Definition polled2 : ac_state := poll_round hash polling2 2 (loop2 "u0" LPolling) (Polled (Some "u1") "v1" None).
Lemma reach_polled2 : rtc (ac_step hash) stopped polled2.
Proof.
  eapply rtc_l; [apply (ac_watch hash _ [0%nat] input (Ok (Some "u0")) restarted (Ok ())); by vm_compute|].
  apply (rtc_l _ _ polling2); [apply ac_head; by vm_compute|]. apply rtc_once, ac_poll; by vm_compute.
Qed.
End AppConfigDemo.

Lemma appconfig_single_watcher_witness :
  active_loop AppConfigDemo.notified "id" 1 ∧ ∀ g, ¬ active_loop (StopWatching AppConfigDemo.notified "id").1 "id" g.
Proof.
  split; [exists (AppConfigDemo.loop "t1" LPolling); by vm_compute|].
  apply (appconfig_single_watcher AppConfigDemo.hash 1 AppConfigDemo.notified "id" AppConfigDemo.reach_notified).
Defined.

Lemma appconfig_changes_called_once_witness :
  contents_of "id" (called AppConfigDemo.notified) ++ pending "id" (loops AppConfigDemo.notified) ≡ₚ ["v1"].
Proof.
  apply (appconfig_changes_called_once AppConfigDemo.hash 1 AppConfigDemo.notified "id" AppConfigDemo.reach_notified).
Defined.

Lemma StopAllWatching_hides_configuration_witness :
  GetCurrentConfiguration (service AppConfigDemo.notified) "id" = Ok AppConfigDemo.result1 ∧
  GetCurrentConfiguration (service AppConfigDemo.polled2) "id" = Err "no configuration found for id".
Proof.
  split; [by vm_compute|].
  apply (StopAllWatching_hides_configuration AppConfigDemo.hash 1 AppConfigDemo.notified "id" "v1" AppConfigDemo.polled2 1
    AppConfigDemo.reach_notified); [by vm_compute|apply AppConfigDemo.reach_polled2|by vm_compute].
Defined.

Lemma ended_watcher_blocks_restart_witness :
  let s2 := once_failed (cancel AppConfigDemo.polling {[ 0%nat ]}) 1 (AppConfigDemo.loop "t0" LPolling) true in
  ∃ e, (WatchConfig s2 [] AppConfigDemo.input (Ok (Some "t"))).2 = Err e.
Proof.
  apply (ended_watcher_blocks_restart AppConfigDemo.hash 1 AppConfigDemo.polling "id" 1 (AppConfigDemo.loop "t0" LPolling) 0 []
    AppConfigDemo.reach_polling); [by vm_compute|by vm_compute|done|done|vm_compute; lia|done].
Defined.
