(* ===== verification/Cloud.v ===== *)
(** * Cloud clients ([src/cloud/cloud.go], [src/cloud/providers/awscloud.go])

    The package-level default configuration, clients, and the AWS provider that loads its
    configuration once and keeps one client per service. Loading the AWS configuration is a
    parameter of the AWS SDK. Providers and services are objects with an address; a Go
    interface that holds a nil pointer is not the nil interface. *)

From Stdlib Require Import ZArith Lia.
From stdpp Require Import base numbers strings gmap list relations.
From S2P Require Import Prelude GoValue AppConfig.
Local Open Scope Z_scope.

Definition CloudVendorDefault : string := "aws".
Definition CloudVendorAws : string := "aws".

Definition AuthTypeAccessKey : Z := 0.
Definition AuthTypeIAMRole : Z := 1.

Record CloudAuthArguments : Type := {
  AuthMode : Z;
  AccessKey : string;
  SecretKey : string;
  SessionId : string;
  IAMRole : string;
  Region : string;
}.

Record CloudConfig : Type := { Vendor : string; AuthArguments : option CloudAuthArguments }.

(** The credentials an AWS configuration ends up with. *)
Inductive aws_credentials : Type :=
  | DefaultChain
  | AssumeRole (role : string)
  | StaticKeys (access secret session : string).
Record aws_config : Type := { ac_Region : string; ac_Credentials : aws_credentials }.

Inductive service_kind : Type :=
  | KObjectStorage | KMessageQueue | KPublishSubscribe | KEmail | KAppConfig | KVisualAnalysis.
#[export] Instance service_kind_eq_dec : EqDecision service_kind.
Proof. solve_decision. Defined.
#[export] Instance service_kind_countable : Countable service_kind.
Proof.
  refine (inj_countable'
    (λ k, match k with KObjectStorage => 0 | KMessageQueue => 1 | KPublishSubscribe => 2 | KEmail => 3
                     | KAppConfig => 4 | KVisualAnalysis => 5 end%nat)
    (λ n, match n with 0 => KObjectStorage | 1 => KMessageQueue | 2 => KPublishSubscribe | 3 => KEmail
                     | 4 => KAppConfig | _ => KVisualAnalysis end%nat) _).
  by intros [].
Defined.

Record AwsCloud : Type := {
  aws_Auth : option CloudAuthArguments;
  aws_cfg : option aws_config;           (* [cfg] when [cfgLoaded] *)
  aws_services : gmap service_kind nat;  (* the service fields that are not nil *)
}.

(** A result of interface type: the nil interface, or a pointer, nil or not, with its type. *)
Inductive iface : Type :=
  | INil
  | IPointer (p : option nat).

(** Providers by address, the next address of a service, the calls of the loader so far, and
    the package's default configuration. *)
Record cloud_state : Type := {
  providers : gmap nat AwsCloud;
  next_provider : nat;
  next_service : nat;
  loader_calls : nat;
  defaultConfig : CloudConfig;
}.

Definition set_providers (s : cloud_state) (ps : gmap nat AwsCloud) : cloud_state :=
  {| providers := ps; next_provider := next_provider s; next_service := next_service s;
     loader_calls := loader_calls s; defaultConfig := defaultConfig s |}.
Definition set_default (s : cloud_state) (c : CloudConfig) : cloud_state :=
  {| providers := providers s; next_provider := next_provider s; next_service := next_service s;
     loader_calls := loader_calls s; defaultConfig := c |}.

Section cloud.
(** [config.LoadDefaultConfig] with a region and, in key mode, static credentials. *)
Context (load : string → option aws_credentials → result string aws_config).

(** ** awscloud.go *)

Definition cloneAndValidateAuthArguments (args : option CloudAuthArguments) : result string CloudAuthArguments :=
  match args with
  | None => Err "cloud auth arguments cannot be nil"
  | Some a =>
      if decide (Region a = "") then Err "cloud auth region is required"
      else if (AuthMode a =? AuthTypeAccessKey) &&
              (bool_decide (AccessKey a = "") || bool_decide (SecretKey a = "")) then
        Err "access key and secret key are required for access-key auth"
      else Ok a
  end.

Definition NewAwsCloud (s : cloud_state) (args : option CloudAuthArguments) : cloud_state * result string nat :=
  match cloneAndValidateAuthArguments args with
  | Err e => (s, Err e)
  | Ok a =>
      let p := {| aws_Auth := Some a; aws_cfg := None; aws_services := ∅ |} in
      ({| providers := <[next_provider s := p]> (providers s); next_provider := S (next_provider s);
          next_service := next_service s; loader_calls := loader_calls s; defaultConfig := defaultConfig s |},
       Ok (next_provider s))
  end.

Definition sanitiseAuthMode (mode : Z) : Z :=
  if (mode =? AuthTypeAccessKey) || (mode =? AuthTypeIAMRole) then mode else AuthTypeIAMRole.

Definition getAwsConfigForIAMAuthMode (a : CloudAuthArguments) : result string aws_config :=
  match load (Region a) None with
  | Err e => Err e
  | Ok cfg =>
      if decide (IAMRole a = "") then Ok cfg
      else Ok {| ac_Region := ac_Region cfg; ac_Credentials := AssumeRole (IAMRole a) |}
  end.

Definition getAwsConfigForKeyBasedAuthMode (a : CloudAuthArguments) : result string aws_config :=
  load (Region a) (Some (StaticKeys (AccessKey a) (SecretKey a) (SessionId a))).

(** The configuration a provider should load; it depends on its arguments only. *)
Definition load_config (a : CloudAuthArguments) : result string aws_config :=
  match (if sanitiseAuthMode (AuthMode a) =? AuthTypeIAMRole then getAwsConfigForIAMAuthMode a
         else getAwsConfigForKeyBasedAuthMode a) with
  | Err e => Err e
  | Ok cfg => if decide (ac_Region cfg = "") then Err "loaded AWS config is missing region" else Ok cfg
  end.

Definition getClientArguments (s : cloud_state) (i : nat) (p : AwsCloud) : cloud_state * AwsCloud * result string aws_config :=
  match aws_cfg p with
  | Some cfg => (s, p, Ok cfg)
  | None =>
      match cloneAndValidateAuthArguments (aws_Auth p) with
      | Err e => (s, p, Err e)
      | Ok auth =>
          let p := {| aws_Auth := Some auth; aws_cfg := None; aws_services := aws_services p |} in
          let s := {| providers := <[i := p]> (providers s); next_provider := next_provider s;
                      next_service := next_service s; loader_calls := S (loader_calls s);
                      defaultConfig := defaultConfig s |} in
          match load_config auth with
          | Err e => (s, p, Err e)
          | Ok cfg =>
              let p := {| aws_Auth := aws_Auth p; aws_cfg := Some cfg; aws_services := aws_services p |} in
              (set_providers s (<[i := p]> (providers s)), p, Ok cfg)
          end
      end
  end.

Definition service_name (k : service_kind) : string :=
  match k with
  | KObjectStorage => "object storage" | KMessageQueue => "message queue"
  | KPublishSubscribe => "publish-subscribe" | KEmail => "email service"
  | KAppConfig => "app config" | KVisualAnalysis => "visual analysis"
  end.

(** The six getters of [AwsCloud] differ in the field and the SDK constructor. *)
Definition get_service (k : service_kind) (s : cloud_state) (i : nat) : outcome (cloud_state * result string nat) :=
  match providers s !! i with
  | None => Panic nil_dereference
  | Some p =>
      match aws_services p !! k with
      | Some svc => Ret (s, Ok svc)
      | None =>
          let '(s, p, r) := getClientArguments s i p in
          match r with
          | Err e => Ret (s, Err ("failed to initialize AWS " +:+ service_name k +:+ ": " +:+ e))
          | Ok _ =>
              let svc := next_service s in
              let p := {| aws_Auth := aws_Auth p; aws_cfg := aws_cfg p; aws_services := <[k := svc]> (aws_services p) |} in
              Ret ({| providers := <[i := p]> (providers s); next_provider := next_provider s;
                      next_service := S svc; loader_calls := loader_calls s; defaultConfig := defaultConfig s |},
                   Ok svc)
          end
      end
  end.
Definition AwsCloud_GetObjectStorage := get_service KObjectStorage.
Definition AwsCloud_GetMessageQueue := get_service KMessageQueue.
Definition AwsCloud_GetPublishSubscribe := get_service KPublishSubscribe.
Definition AwsCloud_GetEmailService := get_service KEmail.
Definition AwsCloud_GetAppConfigService := get_service KAppConfig.
Definition AwsCloud_GetVisualAnalysisService := get_service KVisualAnalysis.

(** ** cloud.go *)

Record Client : Type := { cl_vendor : string; cl_provider : option nat }.

Definition getAllowedCloudVendors : gmap string bool := {[ CloudVendorAws := true ]}.
Definition IsValidCloudVendor (vendor : string) : bool :=
  bool_decide (is_Some (getAllowedCloudVendors !! vendor)) && negb (bool_decide (vendor = "")).

(** Copies, at new addresses. *)
Definition cloneAuthArguments (a : option CloudAuthArguments) : option CloudAuthArguments := a.
Definition cloneConfig (c : CloudConfig) : CloudConfig :=
  {| Vendor := Vendor c; AuthArguments := cloneAuthArguments (AuthArguments c) |}.

Definition NewClient (s : cloud_state) (config : CloudConfig) : cloud_state * result string Client :=
  let config := cloneConfig config in
  let vendor := if decide (Vendor config = "") then CloudVendorDefault else Vendor config in
  if negb (IsValidCloudVendor vendor) then (s, Err ("invalid cloud vendor `" +:+ vendor +:+ "` configured"))
  else
    match AuthArguments config with
    | None => (s, Err "cloud auth arguments cannot be nil")
    | Some auth =>
        if decide (vendor = CloudVendorAws) then
          match NewAwsCloud s (Some auth) with
          | (s, Err e) => (s, Err e)
          | (s, Ok p) => (s, Ok {| cl_vendor := vendor; cl_provider := Some p |})
          end
        else (s, Err "cannot find provider for configured cloud type")
    end.

Definition MustNewClient (s : cloud_state) (config : CloudConfig) : outcome (cloud_state * Client) :=
  match NewClient s config with
  | (_, Err e) => Panic e
  | (s, Ok c) => Ret (s, c)
  end.

(** A method of [Client]: its result has interface type, so a nil service pointer returned
    with an error becomes an interface that is not nil. *)
Definition client_service (k : service_kind) (s : cloud_state) (c : option Client)
  : outcome (cloud_state * iface * option string) :=
  match c with
  | Some {| cl_provider := Some p |} =>
      r ← get_service k s p;
      match r with
      | (s, Ok svc) => Ret (s, IPointer (Some svc), None)
      | (s, Err e) => Ret (s, IPointer None, Some e)
      end
  | _ => Ret (s, INil, Some "cloud client is not initialized")
  end.
Definition Client_GetObjectStorage := client_service KObjectStorage.
Definition Client_GetMessageQueue := client_service KMessageQueue.
Definition Client_GetPublishSubscribe := client_service KPublishSubscribe.
Definition Client_GetEmailService := client_service KEmail.
Definition Client_GetAppConfigService := client_service KAppConfig.
Definition Client_GetVisualAnalysisService := client_service KVisualAnalysis.

Definition SetCloudAuthArguments (s : cloud_state) (args : option CloudAuthArguments) : cloud_state :=
  set_default s {| Vendor := Vendor (defaultConfig s); AuthArguments := cloneAuthArguments args |}.
Definition SetCloudVendor (s : cloud_state) (vendor : string) : cloud_state :=
  set_default s {| Vendor := vendor; AuthArguments := AuthArguments (defaultConfig s) |}.

Definition defaultConfigSnapshot (s : cloud_state) : CloudConfig := cloneConfig (defaultConfig s).
Definition defaultClient (s : cloud_state) : cloud_state * result string Client := NewClient s (defaultConfigSnapshot s).
Definition sanitiseInitStatus (s : cloud_state) : cloud_state * option string :=
  match NewClient s (defaultConfigSnapshot s) with
  | (s, Err e) => (s, Some e)
  | (s, Ok _) => (s, None)
  end.

(** The package-level getters. *)
Definition package_service (k : service_kind) (s : cloud_state) : outcome (cloud_state * iface * option string) :=
  match defaultClient s with
  | (s, Err e) => Ret (s, INil, Some e)
  | (s, Ok c) => client_service k s (Some c)
  end.
Definition GetObjectStorage := package_service KObjectStorage.
Definition GetMessageQueue := package_service KMessageQueue.
Definition GetPublishSubscribe := package_service KPublishSubscribe.
Definition GetEmailService := package_service KEmail.
Definition GetAppConfigService := package_service KAppConfig.
Definition GetVisualAnalysisService := package_service KVisualAnalysis.

End cloud.

(** ** Theorems *)

(** Which arguments make a client. *)
Definition auth_valid (a : CloudAuthArguments) : Prop :=
  Region a ≠ "" ∧ (AuthMode a = AuthTypeAccessKey → AccessKey a ≠ "" ∧ SecretKey a ≠ "").

Lemma cloneAndValidate_Ok args a :
  cloneAndValidateAuthArguments args = Ok a ↔ args = Some a ∧ auth_valid a.
Proof.
  unfold cloneAndValidateAuthArguments, auth_valid. destruct args as [x|]; [|naive_solver].
  case_decide as Hr; [naive_solver|].
  destruct (Z.eqb_spec (AuthMode x) AuthTypeAccessKey) as [Hm|Hm]; cbn [andb]; [|naive_solver].
  repeat case_bool_decide; cbn [orb]; naive_solver.
Qed.

Lemma IsValidCloudVendor_spec v : IsValidCloudVendor v = true ↔ v = CloudVendorAws.
Proof.
  unfold IsValidCloudVendor, getAllowedCloudVendors. rewrite andb_true_iff, negb_true_iff, bool_decide_eq_true, bool_decide_eq_false.
  split.
  - intros [[b Hb] _]. apply lookup_singleton_Some in Hb as [<- _]. done.
  - intros ->. split; [|done]. rewrite lookup_singleton_eq. eauto.
Qed.

(** [NewClient] succeeds exactly for the AWS vendor (or none) with valid arguments; then it
    allocates a provider that has loaded nothing. *)
Theorem NewClient_spec s c :
  ((∃ c', (NewClient s c).2 = Ok c') ↔
     (Vendor c = "" ∨ Vendor c = CloudVendorAws) ∧ ∃ a, AuthArguments c = Some a ∧ auth_valid a) ∧
  ∀ c', (NewClient s c).2 = Ok c' →
    cl_vendor c' = CloudVendorAws ∧ cl_provider c' = Some (next_provider s) ∧
    providers (NewClient s c).1 !! next_provider s =
      Some {| aws_Auth := AuthArguments c; aws_cfg := None; aws_services := ∅ |}.
Proof.
  unfold NewClient, cloneConfig, cloneAuthArguments. cbn [Vendor AuthArguments].
  set (v := if decide (Vendor c = "") then CloudVendorDefault else Vendor c).
  assert (v = CloudVendorAws ↔ Vendor c = "" ∨ Vendor c = CloudVendorAws) as Hv.
  { unfold v. case_decide; naive_solver. }
  destruct (IsValidCloudVendor v) eqn:Ev; cbn [negb].
  - apply IsValidCloudVendor_spec in Ev. destruct (AuthArguments c) as [a|]; [|cbn; naive_solver].
    rewrite decide_True by done. unfold NewAwsCloud.
    destruct (cloneAndValidateAuthArguments (Some a)) as [a'|e] eqn:Ea.
    + apply cloneAndValidate_Ok in Ea as [[= <-] Ha]. cbn. rewrite lookup_insert_eq. naive_solver.
    + cbn. split; [|done]. split; [naive_solver|]. intros (_ & a' & [= <-] & Ha).
      assert (cloneAndValidateAuthArguments (Some a) = Ok a) by (by apply cloneAndValidate_Ok). congruence.
  - cbn. split; [|done]. split; [naive_solver|]. intros [Hw _]. apply Hv in Hw.
    apply IsValidCloudVendor_spec in Hw. congruence.
Qed.

(** ** The life of providers and services *)

Inductive cloud_step (load : string → option aws_credentials → result string aws_config) : cloud_state → cloud_state → Prop :=
  | c_client s c : cloud_step load s (NewClient s c).1
  | c_get k s i s' r : get_service load k s i = Ret (s', r) → cloud_step load s s'
  | c_package k s s' r e : package_service load k s = Ret (s', r, e) → cloud_step load s s'
  | c_auth s a : cloud_step load s (SetCloudAuthArguments s a)
  | c_vendor s v : cloud_step load s (SetCloudVendor s v).

Definition fresh_cloud : cloud_state :=
  {| providers := ∅; next_provider := 0; next_service := 0; loader_calls := 0;
     defaultConfig := {| Vendor := ""; AuthArguments := None |} |}.

Section invariant.
Context (load : string → option aws_credentials → result string aws_config).

(** A provider has services only once it has its configuration, which is what its arguments
    load to. *)
Definition provider_ok (s : cloud_state) (i : nat) (p : AwsCloud) : Prop :=
  (i < next_provider s)%nat ∧
  (∃ a, aws_Auth p = Some a ∧ auth_valid a ∧ ∀ c, aws_cfg p = Some c → load_config load a = Ok c) ∧
  (∀ k svc, aws_services p !! k = Some svc → is_Some (aws_cfg p) ∧ (svc < next_service s)%nat).

Definition cloud_ok (s : cloud_state) : Prop :=
  (∀ i p, providers s !! i = Some p → provider_ok s i p) ∧
  (∀ i j p q k k' svc, providers s !! i = Some p → providers s !! j = Some q →
     aws_services p !! k = Some svc → aws_services q !! k' = Some svc → i = j ∧ k = k').

(** Services stay where they are. *)
Definition keeps_services (s s' : cloud_state) : Prop :=
  (next_service s ≤ next_service s')%nat ∧
  ∀ i p, providers s !! i = Some p → ∃ p', providers s' !! i = Some p' ∧
    ∀ k svc, aws_services p !! k = Some svc → aws_services p' !! k = Some svc.

Lemma getClientArguments_ok s i p s' p' r :
  cloud_ok s → providers s !! i = Some p → getClientArguments load s i p = (s', p', r) →
  cloud_ok s' ∧ providers s' !! i = Some p' ∧ aws_services p' = aws_services p ∧ keeps_services s s' ∧
  next_service s' = next_service s ∧ next_provider s' = next_provider s ∧
  (∀ c, r = Ok c → aws_cfg p' = Some c) ∧
  (∀ j, j ≠ i → providers s' !! j = providers s !! j).
Proof.
  intros [Hp Hd] Ei. destruct (Hp i p Ei) as (Hi & (a & Ha & Hv & Hc) & Hs). unfold getClientArguments.
  assert (keeps_services s s) as Hrefl by (split; [done|]; intros j q Eq; by exists q).
  destruct (aws_cfg p) as [c|] eqn:Ec.
  { intros [= <- <- <-]. split; [by split|]. repeat (split; [done|]). split; [by intros c' [= <-]|done]. }
  rewrite Ha. assert (cloneAndValidateAuthArguments (Some a) = Ok a) as -> by (by apply cloneAndValidate_Ok).
  assert (∀ q, providers s !! i = Some p → aws_services q = aws_services p →
    (∃ a, aws_Auth q = Some a ∧ auth_valid a ∧ ∀ c, aws_cfg q = Some c → load_config load a = Ok c) →
    ∀ s2, next_service s2 = next_service s → next_provider s2 = next_provider s →
    providers s2 = <[i := q]> (providers s) → cloud_ok s2 ∧ keeps_services s s2) as Hput.
  { intros q _ Eq Hq s2 En Enp Eps.
    assert (∀ k svc, aws_services p !! k = Some svc → False) as Hno.
    { intros k svc Hk. destruct (Hs k svc Hk) as [[? ?] _]. congruence. }
    split; [split|].
    - intros j x. rewrite Eps, lookup_insert_Some. intros [[<- <-]|[Hne Ex]].
      + split; [lia|]. split; [done|]. rewrite Eq. intros k svc Hk. by destruct (Hno k svc).
      + destruct (Hp j x Ex) as (? & ? & Hsv). split; [lia|]. split; [done|]. by rewrite En.
    - intros j1 j2 x y k k' svc. rewrite Eps, !lookup_insert_Some.
      intros [[<- <-]|[Hn1 E1]] [[<- <-]|[Hn2 E2]] K1 K2; rewrite ?Eq in *; try (by destruct (Hno k svc));
        try (by destruct (Hno k' svc)). by eapply (Hd j1 j2 x y).
    - split; [lia|]. intros j x Ex. rewrite Eps. destruct (decide (i = j)) as [<-|Hne].
      + exists q. rewrite lookup_insert_eq. split; [done|]. simplify_eq. by rewrite Eq.
      + exists x. by rewrite lookup_insert_ne. }
  cbv zeta. set (p1 := {| aws_Auth := Some a; aws_cfg := None; aws_services := aws_services p |}).
  destruct (load_config load a) as [c|e] eqn:El; intros [= <- <- <-].
  - set (p2 := {| aws_Auth := aws_Auth p1; aws_cfg := Some c; aws_services := aws_services p1 |}).
    match goal with |- cloud_ok ?S ∧ _ => destruct (Hput p2 Ei eq_refl) with (s2 := S) as [Hok Hk] end.
    { exists a. split; [done|]. split; [done|]. by intros c' [= <-]. }
    { done. }
    { done. }
    { cbn. by rewrite insert_insert_eq. }
    split; [exact Hok|]. split; [cbn; by rewrite lookup_insert_eq|]. split; [done|]. split; [exact Hk|].
    split; [done|]. split; [done|]. split; [by intros c' [= <-]|]. intros j Hj. cbn. by rewrite !lookup_insert_ne.
  - match goal with |- cloud_ok ?S ∧ _ => destruct (Hput p1 Ei eq_refl) with (s2 := S) as [Hok Hk] end;
      [exists a; by repeat (split; [done|])|done..|].
    split; [exact Hok|]. split; [cbn; by rewrite lookup_insert_eq|]. split; [done|]. split; [exact Hk|].
    split; [done|]. split; [done|]. split; [done|]. intros j Hj. cbn. by rewrite lookup_insert_ne.
Qed.

Lemma get_service_ok k s i s' r :
  cloud_ok s → get_service load k s i = Ret (s', r) →
  cloud_ok s' ∧ keeps_services s s' ∧
  (∀ svc, r = Ok svc → ∃ p, providers s' !! i = Some p ∧ aws_services p !! k = Some svc) ∧
  (∀ p, providers s !! i = Some p → aws_services p !! k = None → ∀ svc, r = Ok svc → svc = next_service s).
Proof.
  intros Hok. pose proof Hok as [Hp Hd]. unfold get_service. destruct (providers s !! i) as [p|] eqn:Ei; [|done].
  destruct (aws_services p !! k) as [svc|] eqn:Ek.
  { intros [= <- <-]. split; [done|]. split; [split; [done|]; intros j q Eq; by exists q|].
    split; [intros svc' [= <-]; by exists p|]. intros q [= <-]. congruence. }
  destruct (getClientArguments load s i p) as [[s1 p1] r1] eqn:Eg.
  destruct (getClientArguments_ok _ _ _ _ _ _ Hok Ei Eg) as ([Hp1 Hd1] & Ei1 & Esv & [Hn1 Hk1] & En & Enp & Hcfg & Hoth).
  destruct r1 as [c|e]; intros [= <- <-]; [|by split].
  assert (is_Some (aws_cfg p1)) as Hsome by (exists c; by apply Hcfg).
  set (svc := next_service s1). set (p2 := {| aws_Auth := aws_Auth p1; aws_cfg := aws_cfg p1; aws_services := _ |}).
  destruct (Hp1 i p1 Ei1) as (Hlt & Hauth & Hsv1).
  assert (∀ j q k' x, providers s1 !! j = Some q → aws_services q !! k' = Some x → (x < svc)%nat) as Hlts.
  { intros j q k' x Eq Ex. destruct (Hp1 j q Eq) as (_ & _ & H). by destruct (H k' x Ex). }
  split; [split|].
  - intros j x. cbn [providers]. rewrite lookup_insert_Some. intros [[<- <-]|[Hne Ex]].
    + split; [cbn; lia|]. split; [exact Hauth|]. intros k' x. cbn [aws_services p2 aws_cfg next_service].
      rewrite lookup_insert_Some. intros [[<- <-]|[_ Hx]]; [split; [done|lia]|]. split; [done|]. pose proof (Hlts _ _ _ _ Ei1 Hx). lia.
    + destruct (Hp1 j x Ex) as (? & ? & Hsx). split; [cbn; lia|]. split; [done|]. intros k' y Hy. cbn.
      destruct (Hsx k' y Hy). split; [done|lia].
  - intros j1 j2 x y k1 k2 z. cbn [providers]. rewrite !lookup_insert_Some.
    intros [[<- <-]|[Hn1' E1]] [[<- <-]|[Hn2 E2]]; cbn [aws_services p2].
    + rewrite !lookup_insert_Some. intros [[<- <-]|[Hk1' K1]] [[<- Hz]|[Hk2 K2]].
      * done.
      * pose proof (Hlts _ _ _ _ Ei1 K2). lia.
      * subst z. pose proof (Hlts _ _ _ _ Ei1 K1). lia.
      * by eapply (Hd1 i i p1 p1).
    + rewrite lookup_insert_Some. intros [[<- <-]|[Hk1' K1]] K2.
      * apply (Hlts _ _ _ _ E2) in K2. lia.
      * by eapply (Hd1 i j2 p1 y).
    + rewrite lookup_insert_Some. intros K1 [[<- <-]|[Hk2 K2]].
      * apply (Hlts _ _ _ _ E1) in K1. lia.
      * by eapply (Hd1 j1 i x p1).
    + intros K1 K2. by eapply (Hd1 j1 j2 x y).
  - split; [|split].
    + split; [cbn; lia|]. intros j q Eq. destruct (decide (j = i)) as [->|Hne].
      * exists p2. cbn [providers]. rewrite lookup_insert_eq. split; [done|]. simplify_eq. intros k' x Hx. cbn [p2 aws_services].
        rewrite Esv, lookup_insert_ne; [done|]. intros ->. congruence.
      * exists q. cbn [providers]. rewrite lookup_insert_ne, Hoth by done. done.
    + intros x [= <-]. exists p2. cbn [providers]. rewrite lookup_insert_eq. split; [done|]. cbn. by rewrite lookup_insert_eq.
    + intros q [= <-] _ x [= <-]. exact En.
Qed.

Lemma NewClient_ok s c : cloud_ok s → cloud_ok (NewClient s c).1 ∧ keeps_services s (NewClient s c).1.
Proof.
  intros Hok. pose proof Hok as [Hp Hd].
  assert (keeps_services s s) as Hrefl by (split; [done|]; intros j q Eq; by exists q).
  unfold NewClient. cbv zeta. destruct (negb _); [done|]. destruct (AuthArguments _) as [a|]; [|done].
  case_decide; [|done]. unfold NewAwsCloud. destruct (cloneAndValidateAuthArguments (Some a)) as [a'|e] eqn:Ea; [|done].
  apply cloneAndValidate_Ok in Ea as [[= <-] Hv]. cbn [fst].
  assert (providers s !! next_provider s = None) as Hfresh.
  { destruct (providers s !! next_provider s) as [q|] eqn:Eq; [|done]. destruct (Hp _ _ Eq). lia. }
  split; [split|].
  - intros i p. cbn [providers]. rewrite lookup_insert_Some. intros [[<- <-]|[_ Ep]].
    + split; [cbn; lia|]. split; [by exists a|]. intros k svc. cbn. by rewrite lookup_empty.
    + destruct (Hp i p Ep) as (? & ? & ?). split; [cbn; lia|done].
  - intros i j p q k k' svc. cbn [providers]. rewrite !lookup_insert_Some.
    intros [[<- <-]|[Hn1 E1]] [[<- <-]|[Hn2 E2]]; cbn [aws_services]; rewrite ?lookup_empty; try done.
    by eapply (Hd i j p q).
  - split; [done|]. intros i p Ep. exists p. cbn [providers]. rewrite lookup_insert_ne; [done|]. congruence.
Qed.

Lemma keeps_services_trans s1 s2 s3 : keeps_services s1 s2 → keeps_services s2 s3 → keeps_services s1 s3.
Proof.
  intros [Hn1 H1] [Hn2 H2]. split; [lia|]. intros i p Ep. destruct (H1 i p Ep) as (q & Eq & Hq).
  destruct (H2 i q Eq) as (r & Er & Hr). exists r. eauto.
Qed.

(** A package-level getter allocates: a new provider, and on success a new service. *)
Lemma package_service_ok k s s' r e :
  cloud_ok s → package_service load k s = Ret (s', r, e) →
  cloud_ok s' ∧ keeps_services s s' ∧ (∀ svc, r = IPointer (Some svc) → svc = next_service s).
Proof.
  intros Hok. unfold package_service, defaultClient.
  destruct (NewClient_ok s (defaultConfigSnapshot s) Hok) as [Hok1 Hk1].
  destruct (NewClient_spec s (defaultConfigSnapshot s)) as [_ Hnew].
  assert (next_service (NewClient s (defaultConfigSnapshot s)).1 = next_service s) as Hn.
  { unfold NewClient. cbv zeta. destruct (negb _); [done|]. destruct (AuthArguments _); [|done]. case_decide; [|done].
    unfold NewAwsCloud. by destruct (cloneAndValidateAuthArguments _). }
  destruct (NewClient s (defaultConfigSnapshot s)) as [s1 [c|er]]; cbn [fst snd] in *; [|by intros [= <- <- <-]].
  destruct (Hnew c eq_refl) as (_ & Hpr & Hlook). unfold client_service. destruct c as [v op]; cbn [cl_provider] in Hpr.
  subst op. unfold mbind, outcome_bind. destruct (get_service load k s1 (next_provider s)) as [[s2 r2]|w] eqn:Eg; [|done].
  destruct (get_service_ok k s1 _ s2 r2 Hok1 Eg) as (Hok2 & Hk2 & _ & Hfresh).
  pose proof (keeps_services_trans _ _ _ Hk1 Hk2) as Hk.
  destruct r2 as [svc|er]; intros [= <- <- <-]; (split; [done|]; split; [done|]); intros x [= <-].
  rewrite <-Hn. eapply Hfresh; [exact Hlook|apply lookup_empty|done].
Qed.

Lemma cloud_step_ok s s' : cloud_ok s → cloud_step load s s' → cloud_ok s' ∧ keeps_services s s'.
Proof.
  intros Hok Hs. destruct Hs as [s c|k s i s' r E|k s s' r e E|s a|s v].
  - by apply NewClient_ok.
  - destruct (get_service_ok k s i s' r Hok E) as (? & ? & _). done.
  - destruct (package_service_ok k s s' r e Hok E) as (? & ? & _). done.
  - split; [done|]. split; [done|]. intros i p Ep. by exists p.
  - split; [done|]. split; [done|]. intros i p Ep. by exists p.
Qed.

Lemma cloud_run_ok s s' : cloud_ok s → rtc (cloud_step load) s s' → cloud_ok s' ∧ keeps_services s s'.
Proof.
  intros Hok Hr. revert Hok. induction Hr as [s|s t u Hs _ IH]; intros Hok.
  - split; [done|]. split; [done|]. intros i p Ep. by exists p.
  - destruct (cloud_step_ok s t Hok Hs) as [Ht Hk]. destruct (IH Ht) as [Hu Hk']. split; [done|]. by eapply keeps_services_trans.
Qed.

Lemma fresh_cloud_ok : cloud_ok fresh_cloud.
Proof. split; [intros i p|intros i j p q k k' svc]; cbn; by rewrite lookup_empty. Qed.

End invariant.

(** A provider keeps its services. Once a getter of a provider has answered with a service, it
    answers with the same one for ever, whatever else happens; no other getter, of this or of
    any other provider, ever answers with that service; and the configuration the service was
    made with is the one the arguments of the provider load to. *)
Theorem provider_services_cached load s s1 s2 k i svc :
  rtc (cloud_step load) fresh_cloud s → get_service load k s i = Ret (s1, Ok svc) →
  rtc (cloud_step load) s1 s2 →
  get_service load k s2 i = Ret (s2, Ok svc) ∧
  (∀ k' j s3, get_service load k' s2 j = Ret (s3, Ok svc) → j = i ∧ k' = k) ∧
  ∃ p a c, providers s2 !! i = Some p ∧ aws_Auth p = Some a ∧ aws_cfg p = Some c ∧ load_config load a = Ok c.
Proof.
  intros Hr Eg Hr2. destruct (cloud_run_ok load _ _ (fresh_cloud_ok load) Hr) as [Hok _].
  destruct (get_service_ok load k s i s1 _ Hok Eg) as (Hok1 & _ & Hin & _). destruct (Hin svc eq_refl) as (p1 & Ep1 & Ek1).
  destruct (cloud_run_ok load _ _ Hok1 Hr2) as [Hok2 [_ Hk]]. destruct (Hk i p1 Ep1) as (p2 & Ep2 & Hsv).
  specialize (Hsv k svc Ek1). split; [|split].
  - unfold get_service. by rewrite Ep2, Hsv.
  - intros k' j s3 Eg'. destruct (get_service_ok load k' s2 j s3 _ Hok2 Eg') as ([_ Hd] & [_ Hk3] & Hin' & _).
    destruct (Hin' svc eq_refl) as (q & Eq & Ekq). destruct (Hk3 i p2 Ep2) as (p3 & Ep3 & Hsv3).
    by destruct (Hd j i q p3 k' k svc Eq Ep3 Ekq (Hsv3 k svc Hsv)).
  - destruct Hok2 as [Hp _]. destruct (Hp i p2 Ep2) as (_ & (a & Ha & _ & Hc) & Hs). destruct (Hs k svc Hsv) as [[c Ec] _].
    exists p2, a, c. split; [done|]. split; [done|]. split; [done|]. by apply Hc.
Qed.

(** The package-level getters share nothing. Every successful call answers with a service that
    nobody holds: a watcher started through [GetAppConfigService] is not on the service the next
    call returns, which knows no watcher and no configuration. *)
Theorem package_services_never_shared load s k s' svc e :
  rtc (cloud_step load) fresh_cloud s → package_service load k s = Ret (s', IPointer (Some svc), e) →
  (∀ i p k', providers s !! i = Some p → aws_services p !! k' ≠ Some svc) ∧
  (∀ s1 svc1 e1, package_service load k s' = Ret (s1, IPointer (Some svc1), e1) → svc1 ≠ svc) ∧
  ∀ n id, StopWatching (fresh_service n) id = (fresh_service n, Err ("no watcher found for config " +:+ id)).
Proof.
  intros Hr Eg. destruct (cloud_run_ok load _ _ (fresh_cloud_ok load) Hr) as [Hok _].
  destruct (package_service_ok load k s s' _ _ Hok Eg) as (Hok' & Hk & Hsvc). specialize (Hsvc svc eq_refl).
  split; [|split].
  - intros i p k' Ep Ek. destruct Hok as [Hp _]. destruct (Hp i p Ep) as (_ & _ & Hs). destruct (Hs k' svc Ek). lia.
  - intros s1 svc1 e1 E1. destruct (package_service_ok load k s' s1 _ _ Hok' E1) as (_ & _ & Hsvc1).
    specialize (Hsvc1 svc1 eq_refl). rewrite Hsvc1. rewrite Hsvc.
    (* the service was recorded in the provider the call allocated *)
    assert (next_service s < next_service s')%nat as Hlt; [|lia]. clear E1 Hsvc1 Hk Hok' Hr.
    unfold package_service in Eg. destruct (defaultClient s) as [s0 [c|er]] eqn:Ec; [|done].
    assert (next_service s0 = next_service s) as Hn0.
    { unfold defaultClient, NewClient in Ec. cbv zeta in Ec. destruct (negb _); [by simplify_eq|].
      destruct (AuthArguments _); [|by simplify_eq]. case_decide; [|by simplify_eq].
      unfold NewAwsCloud in Ec. by destruct (cloneAndValidateAuthArguments _); simplify_eq. }
    unfold client_service in Eg. destruct c as [v [p|]]; [|done]. unfold mbind, outcome_bind in Eg.
    destruct (get_service load k s0 p) as [[s2 [x|er]]|w] eqn:Egs; [|done|done]. injection Eg as -> -> _.
    destruct (get_service_ok load k s0 p s' (Ok svc)) as ([Hp' _] & _ & Hin & _); [|done|].
    { unfold defaultClient in Ec. destruct (NewClient_ok load s (defaultConfigSnapshot s) Hok) as [H _]. by rewrite Ec in H. }
    destruct (Hin svc eq_refl) as (q & Eq & Ekq). destruct (Hp' p q Eq) as (_ & _ & Hs). destruct (Hs k svc Ekq). lia.
  - intros n id. unfold StopWatching. cbn. by rewrite lookup_empty.
Qed.

(** A getter that fails answers with an interface that is not nil: it holds a nil pointer. *)
Lemma failed_getter_not_nil load k s p s' e :
  get_service load k s p = Ret (s', Err e) →
  client_service load k s (Some {| cl_vendor := CloudVendorAws; cl_provider := Some p |}) = Ret (s', IPointer None, Some e) ∧
  IPointer None ≠ INil.
Proof. intros E. split; [|done]. cbn. unfold mbind, outcome_bind. by rewrite E. Qed.

(** ** Witnesses *)

Module CloudDemo.
Definition load (region : string) (c : option aws_credentials) : result string aws_config :=
  Ok {| ac_Region := region; ac_Credentials := default DefaultChain c |}.
Definition auth : CloudAuthArguments :=
  {| AuthMode := AuthTypeAccessKey; AccessKey := "AK"; SecretKey := "SK"; SessionId := ""; IAMRole := "";
     Region := "eu-west-1" |}.
Definition with_auth : cloud_state := SetCloudAuthArguments fresh_cloud (Some auth).
Definition with_client : cloud_state := (NewClient with_auth {| Vendor := ""; AuthArguments := Some auth |}).1.
Definition with_service : cloud_state :=
  match get_service load KObjectStorage with_client 0 with Ret (s, _) => s | Panic _ => with_client end.
Lemma reach_client : rtc (cloud_step load) fresh_cloud with_client.
Proof. eapply rtc_l; [apply c_auth|]. apply rtc_once, c_client. Qed.
End CloudDemo.

Lemma provider_services_cached_witness :
  get_service CloudDemo.load KObjectStorage CloudDemo.with_service 0 = Ret (CloudDemo.with_service, Ok 0%nat).
Proof.
  apply (provider_services_cached CloudDemo.load CloudDemo.with_client CloudDemo.with_service CloudDemo.with_service
    KObjectStorage 0 0 CloudDemo.reach_client); [by vm_compute|done].
Defined.

Lemma package_services_never_shared_witness :
  ∃ s' e, package_service CloudDemo.load KAppConfig CloudDemo.with_client = Ret (s', IPointer (Some 0%nat), e) ∧
    ∀ s1 svc1 e1, package_service CloudDemo.load KAppConfig s' = Ret (s1, IPointer (Some svc1), e1) → svc1 ≠ 0%nat.
Proof.
  eexists _, _. split; [by vm_compute|].
  eapply (package_services_never_shared CloudDemo.load CloudDemo.with_client KAppConfig _ 0 None CloudDemo.reach_client).
  by vm_compute.
Defined.
