(* ===== verification/ObjectStorage.v ===== *)
(** * Object storage ([src/cloud/service/aws/s3.go])

    The operations of [ObjectStorage] over the S3 client, an interface ([S3Client]) with the
    documented behaviour of S3 as laws ([S3Laws]): what is put is got, a copy has the content
    of its source, and a listing is a sequence of pages of at most 1000 keys joined by
    continuation tokens. [types.CreateChunks] of [src/utils/types/lists.go] is modelled here
    with the concurrent reads that use it. *)

From Stdlib Require Import ZArith Lia.
From stdpp Require Import base numbers strings gmap list relations.
From S2P Require Import Prelude GoValue.
Local Open Scope Z_scope.

(** ** The S3 client *)

(** Attributes that the SDK gives as pointers are options. *)
Record s3_object_output : Type := {
  so_Body : string;
  so_ContentLength : option Z;
  so_ContentType : option string;
  so_ETag : option string;
  so_LastModified : option Z;
}.
Record s3_put_input : Type := {
  sp_Bucket : string;
  sp_Key : string;
  sp_ContentType : string;
  sp_Body : string;
  sp_CacheControl : option string;
  sp_ACL : option string;
}.
Record s3_item : Type := { si_Key : option string; si_LastModified : option Z; si_Size : option Z }.
Record s3_list_output : Type := {
  sl_Contents : list s3_item;
  sl_IsTruncated : option bool;
  sl_NextContinuationToken : option string;
}.

Class S3Client := {
  s3_state : Type;
  s3_GetObject : s3_state → string → string → result string s3_object_output;
  s3_HeadObject : s3_state → string → string → result string s3_object_output;
  (* the error, or the ETag *)
  s3_PutObject : s3_state → s3_put_input → s3_state * result string (option string);
  (* bucket, source, key *)
  s3_CopyObject : s3_state → string → string → string → s3_state * result string unit;
  (* bucket, prefix, maximum, token *)
  s3_ListObjectsV2 : s3_state → string → string → Z → option string → result string s3_list_output;
  (* [PresignGetObject] and [PresignPutObject]: bucket, key, expiry *)
  s3_PresignGet : string → string → Z → result string string;
  s3_PresignPut : string → string → string → string → Z → result string string;
}.

(** ** Results *)

Record GetObjectResult : Type := {
  gr_ContentBody : string;
  gr_ContentLength : Z;
  gr_ContentType : string;
  gr_ETag : string;
  gr_LastModified : Z;
}.
Record HeadObjectResult : Type := {
  hr_ContentLength : Z; hr_ContentType : string; hr_ETag : string; hr_LastModified : Z;
}.
Record PutObjectInput : Type := {
  pi_Bucket : string;
  pi_Source : string;
  pi_TargetPath : string;
  pi_Acl : string;
  pi_MimeType : string;
  pi_CacheControl : string;
  pi_DisableACL : bool;
}.
Record PutObjectResult : Type := { pr_IsUploaded : bool; pr_ETag : string; pr_ObjectKey : string }.
Record CopyObjectResult : Type := { cr_IsCopied : bool; cr_ObjectKey : string }.
Record S3Object : Type := { o_Key : string; o_LastModified : Z; o_Size : Z }.
Record ListObjectResult : Type := { lr_Objects : list S3Object; lr_ObjectCount : Z }.
Record PresignedPutObjectInput : Type := {
  pp_Bucket : string; pp_Key : string; pp_ContentType : string; pp_TTL : Z; pp_SSE : string;
}.
Record PresignedUrlResult : Type := { pu_TTL : Z; pu_Url : string; pu_At : Z }.

Definition MAX_OBJECT_PROCESSING_LIMIT : Z := 1000.
Definition MAX_GET_OBJECT_BATCH_LIMIT : Z := 50.
Definition ObjectCannedACLPrivate : string := "private".
Definition five_minutes : Z := 300000000000.

(** [*p] *)
Definition deref {A} (p : option A) : outcome A :=
  match p with Some x => Ret x | None => Panic nil_dereference end.

(** ** [types.CreateChunks] *)

(** [int(math.Ceil(float64(length) / float64(size)))]; the quotient is exact enough while the
    length is below 2^53. *)
Definition chunk_count (length size : Z) : Z := (length + size - 1) / size.

(** [s[lo:hi]] *)
Definition slice_range {A} (s : list A) (lo hi : Z) : outcome (list A) :=
  if decide (0 <= lo <= hi ∧ hi <= Z.of_nat (length s)) then Ret (take (Z.to_nat (hi - lo)) (drop (Z.to_nat lo) s))
  else Panic "runtime error: slice bounds out of range".

Fixpoint chunk_loop {A} (s : list A) (size : Z) (i : Z) (chunks : nat) : outcome (list (list A)) :=
  match chunks with
  | O => Ret []
  | S chunks =>
      let e := (i + 1) * size in
      let e := if Z.of_nat (length s) <? e then Z.of_nat (length s) else e in
      c ← slice_range s (i * size) e;
      rest ← chunk_loop s size (i + 1) chunks;
      Ret (c :: rest)
  end.

Definition CreateChunks {A} (s : list A) (size : Z) : outcome (result string (list (list A))) :=
  if size <? 1 then Ret (Err "size cannot be less than 1")
  else
    n ← chunk_loop s size 0 (Z.to_nat (chunk_count (Z.of_nat (length s)) size));
    Ret (Ok n).

Section storage.
Context `{S3Client}.

Definition GetObject (s : s3_state) (bucket key : string) : outcome (result string GetObjectResult) :=
  match s3_GetObject s bucket key with
  | Err e => Ret (Err e)
  | Ok r =>
      len ← deref (so_ContentLength r);
      ty ← deref (so_ContentType r);
      etag ← deref (so_ETag r);
      modified ← deref (so_LastModified r);
      Ret (Ok {| gr_ContentBody := so_Body r; gr_ContentLength := len; gr_ContentType := ty; gr_ETag := etag;
                 gr_LastModified := modified |})
  end.

Definition HeadObject (s : s3_state) (bucket key : string) : result string HeadObjectResult :=
  match s3_HeadObject s bucket key with
  | Err e => Err e
  | Ok r => Ok {| hr_ContentLength := default 0 (so_ContentLength r); hr_ContentType := default "" (so_ContentType r);
                  hr_ETag := default "" (so_ETag r); hr_LastModified := default 0 (so_LastModified r) |}
  end.

(** What a goroutine of [GetMultipleObjects] sends: nothing when the read fails. *)
Definition fetch_one (s : s3_state) (bucket key : string) : outcome (list GetObjectResult) :=
  r ← GetObject s bucket key;
  Ret match r with Ok x => [x] | Err _ => [] end.

Fixpoint fetch_all (s : s3_state) (bucket : string) (keys : list string) : outcome (list GetObjectResult) :=
  match keys with
  | [] => Ret []
  | k :: keys => x ← fetch_one s bucket k; rest ← fetch_all s bucket keys; Ret (x ++ rest)
  end.

(** [GetMultipleObjects]: one goroutine per key, all started at once whatever the batches;
    [finish] is the order in which they finish, given what they were started with. *)
Definition GetMultipleObjects (finish : list string → list string) (s : s3_state) (bucket : string)
    (keys : list string) : outcome (result string (list GetObjectResult)) :=
  b ← CreateChunks keys MAX_GET_OBJECT_BATCH_LIMIT;
  match b with
  | Err e => Ret (Err e)
  | Ok batches =>
      results ← fetch_all s bucket (finish (concat batches));
      Ret (Ok results)
  end.

Definition put_input (i : PutObjectInput) : s3_put_input :=
  {| sp_Bucket := pi_Bucket i; sp_Key := pi_TargetPath i; sp_ContentType := pi_MimeType i; sp_Body := pi_Source i;
     sp_CacheControl := if decide (pi_CacheControl i = "") then None else Some (pi_CacheControl i);
     sp_ACL := if pi_DisableACL i then None
               else Some (if decide (pi_Acl i = "") then ObjectCannedACLPrivate else pi_Acl i) |}.

Definition PutObject (s : s3_state) (i : PutObjectInput) : outcome (s3_state * result string PutObjectResult) :=
  let '(s, r) := s3_PutObject s (put_input i) in
  match r with
  | Err e => Ret (s, Err e)
  | Ok etag =>
      etag ← deref etag;
      Ret (s, Ok {| pr_IsUploaded := true; pr_ETag := etag; pr_ObjectKey := pi_TargetPath i |})
  end.

Definition CopyObject (s : s3_state) (srcBucket srcObject destBucket destObject : string)
  : s3_state * result string CopyObjectResult :=
  let '(s, r) := s3_CopyObject s destBucket (srcBucket +:+ "/" +:+ srcObject) (destBucket +:+ "/" +:+ destObject) in
  match r with
  | Err e => (s, Err e)
  | Ok _ => (s, Ok {| cr_IsCopied := true; cr_ObjectKey := destObject |})
  end.

Definition GetPresignedUrl (now : Z) (bucket key : string) (ttl : Z) : result string PresignedUrlResult :=
  match s3_PresignGet bucket key ttl with
  | Err e => Err e
  | Ok url => Ok {| pu_TTL := ttl; pu_Url := url; pu_At := now |}
  end.

Definition GetPresignedPutUrl (now : Z) (input : option PresignedPutObjectInput) : result string PresignedUrlResult :=
  match input with
  | None => Err "presigned put input is required"
  | Some i =>
      let ttl := if pp_TTL i <=? 0 then five_minutes else pp_TTL i in
      match s3_PresignPut (pp_Bucket i) (pp_Key i) (pp_ContentType i) (pp_SSE i) ttl with
      | Err e => Err e
      | Ok url => Ok {| pu_TTL := ttl; pu_Url := url; pu_At := now |}
      end
  end.

(** ** Listing *)

Fixpoint items (l : list s3_item) : outcome (list S3Object) :=
  match l with
  | [] => Ret []
  | x :: l =>
      key ← deref (si_Key x);
      modified ← deref (si_LastModified x);
      size ← deref (si_Size x);
      rest ← items l;
      Ret ({| o_Key := key; o_LastModified := modified; o_Size := size |} :: rest)
  end.

(** The loop of [ListObject]: the remaining batch size (an int32), the token in the
    parameters, the objects so far. [None] is out of fuel. *)
Fixpoint ListObject_loop (fuel : nat) (s : s3_state) (bucket prefix : string) (batchSize : Z) (token : option string)
    (objects : list S3Object) : option (outcome (result string (list S3Object))) :=
  if batchSize <=? 0 then Some (Ret (Ok objects))
  else
    match fuel with
    | O => None
    | S fuel =>
        let maxKeys := if MAX_OBJECT_PROCESSING_LIMIT <=? batchSize then MAX_OBJECT_PROCESSING_LIMIT else batchSize in
        let batchSize := if MAX_OBJECT_PROCESSING_LIMIT <=? batchSize then batchSize - maxKeys else 0 in
        match s3_ListObjectsV2 s bucket prefix maxKeys token with
        | Err e => Some (Ret (Err e))
        | Ok r =>
            match items (sl_Contents r) with
            | Panic w => Some (Panic w)
            | Ret [] => Some (Ret (Ok objects))
            | Ret page =>
                match sl_IsTruncated r with
                | None => Some (Panic nil_dereference)
                | Some true => ListObject_loop fuel s bucket prefix batchSize (sl_NextContinuationToken r) (objects ++ page)
                | Some false => ListObject_loop fuel s bucket prefix batchSize token (objects ++ page)
                end
            end
        end
    end.

(** A round takes 1000 off the batch size or ends it: [maxObjects/1000 + 1] rounds are enough. *)
Definition ListObject_fuel (maxObjects : Z) : nat := S (Z.to_nat (maxObjects / MAX_OBJECT_PROCESSING_LIMIT)).

Definition ListObject (s : s3_state) (bucket prefix : string) (maxObjects : Z)
  : option (outcome (result string ListObjectResult)) :=
  r ← ListObject_loop (ListObject_fuel maxObjects) s bucket prefix maxObjects None [];
  Some match r with
       | Panic w => Panic w
       | Ret (Err e) => Ret (Err e)
       | Ret (Ok l) => Ret (Ok {| lr_Objects := l; lr_ObjectCount := Z.of_nat (length l) |})
       end.

End storage.

(** ** What S3 documents *)

(** The items of a listing page carry their attributes. *)
Definition item_of (o : S3Object) : s3_item :=
  {| si_Key := Some (o_Key o); si_LastModified := Some (o_LastModified o); si_Size := Some (o_Size o) |}.

(** The name of a bucket holds no slash. *)
Definition bucket_name (b : string) : Prop := Ascii.ascii_of_nat 47 ∉ String.list_ascii_of_string b.

Class S3Laws (C : S3Client) := {
  (* an upload that succeeds is what a read returns, with its metadata *)
  s3_put_get s i s' etag : s3_PutObject s i = (s', Ok etag) →
    ∃ e m, etag = Some e ∧
      s3_GetObject s' (sp_Bucket i) (sp_Key i) =
        Ok {| so_Body := sp_Body i; so_ContentLength := Some (Z.of_nat (String.length (sp_Body i)));
              so_ContentType := Some (sp_ContentType i); so_ETag := Some e; so_LastModified := Some m |};
  s3_put_other s i s' r b k : s3_PutObject s i = (s', r) → (b, k) ≠ (sp_Bucket i, sp_Key i) →
    s3_GetObject s' b k = s3_GetObject s b k;
  (* a copy names its source "bucket/key"; the target has its content *)
  s3_copy_get s sb sk db dk s' : bucket_name sb → s3_CopyObject s db (sb +:+ "/" +:+ sk) dk = (s', Ok ()) →
    so_Body <$> (match s3_GetObject s' db dk with Ok x => Some x | Err _ => None end) =
    so_Body <$> (match s3_GetObject s sb sk with Ok x => Some x | Err _ => None end);
  s3_copy_other s db src dk s' r b k : s3_CopyObject s db src dk = (s', r) → (b, k) ≠ (db, dk) →
    s3_GetObject s' b k = s3_GetObject s b k;
  (* the objects under a prefix, in the order of their keys, and the place a token stands for *)
  s3_objects : s3_state → string → string → list S3Object;
  s3_place : s3_state → string → string → option string → nat;
  s3_start s b p : s3_place s b p None = 0%nat;
  s3_page s b p n token : 0 < n →
    ∃ next, let here := s3_place s b p token in
      let page := take (Z.to_nat (Z.min n MAX_OBJECT_PROCESSING_LIMIT)) (drop here (s3_objects s b p)) in
      let more := bool_decide (here + length page < length (s3_objects s b p))%nat in
      s3_ListObjectsV2 s b p n token =
        Ok {| sl_Contents := item_of <$> page; sl_IsTruncated := Some more; sl_NextContinuationToken := next |} ∧
      (more = true → s3_place s b p next = (here + length page)%nat);
}.

(** ** Chunks *)

Lemma chunk_loop_spec {A} (s : list A) size i n :
  1 <= size → 0 <= i → Z.of_nat n = chunk_count (Z.of_nat (length s)) size - i →
  ∃ cs, chunk_loop s size i n = Ret cs ∧ concat cs = drop (Z.to_nat (i * size)) s ∧
    Forall (λ c, 0 < Z.of_nat (length c) <= size) cs.
Proof.
  intros Hs. unfold chunk_count. set (len := Z.of_nat (length s)). revert i. induction n as [|n IH]; intros i Hi Hn.
  - exists []. split; [done|]. split; [|done]. cbn. rewrite drop_ge; [done|].
    assert (len <= i * size) by (pose proof (Z.div_mod (len + size - 1) size); pose proof (Z.mod_pos_bound (len + size - 1) size); nia).
    lia.
  - assert (i * size < len) as Hlt.
    { pose proof (Z.div_mod (len + size - 1) size). pose proof (Z.mod_pos_bound (len + size - 1) size). nia. }
    cbn [chunk_loop]. fold len. cbv zeta. set (e := if len <? (i + 1) * size then len else (i + 1) * size).
    assert (i * size < e <= len ∧ e <= (i + 1) * size) as He.
    { unfold e. destruct (Z.ltb_spec len ((i + 1) * size)); nia. }
    unfold slice_range. rewrite decide_True by (fold len; nia).
    unfold mbind, outcome_bind. destruct (IH (i + 1)) as (cs & -> & Hc & Hf); [lia|lia|].
    eexists. split; [done|]. cbn [concat]. rewrite Hc. split.
    + destruct (Z.le_gt_cases ((i + 1) * size) len) as [Hle|Hgt].
      * assert (e = (i + 1) * size) as -> by (unfold e; destruct (Z.ltb_spec len ((i + 1) * size)); lia).
        replace (Z.to_nat ((i + 1) * size)) with (Z.to_nat (i * size) + Z.to_nat ((i + 1) * size - i * size))%nat
          by (assert (0 <= i * size) by (by apply Z.mul_nonneg_nonneg; lia); lia).
        rewrite <-drop_drop. apply take_drop.
      * assert (e = len) as -> by (unfold e; destruct (Z.ltb_spec len ((i + 1) * size)); lia).
        rewrite (drop_ge s (Z.to_nat ((i + 1) * size))) by lia. rewrite app_nil_r. apply take_ge. rewrite length_drop. lia.
    + constructor; [|done]. rewrite length_take, length_drop. nia.
Qed.

(** [CreateChunks] cuts a list into non-empty pieces of at most [size] elements that give the
    list back, for every size but those below one; it never slices out of range. *)
Theorem CreateChunks_spec {A} (s : list A) size :
  (size < 1 → CreateChunks s size = Ret (Err "size cannot be less than 1")) ∧
  (1 <= size → ∃ cs, CreateChunks s size = Ret (Ok cs) ∧ concat cs = s ∧
     Forall (λ c, 0 < Z.of_nat (length c) <= size) cs).
Proof.
  unfold CreateChunks. split; intros Hs.
  - by rewrite (proj2 (Z.ltb_lt size 1)).
  - rewrite (proj2 (Z.ltb_ge size 1)) by done.
    destruct (chunk_loop_spec s size 0 (Z.to_nat (chunk_count (Z.of_nat (length s)) size))) as (cs & E & Hc & Hf); [done|done| |].
    { unfold chunk_count. pose proof (Z.div_pos (Z.of_nat (length s) + size - 1) size). lia. }
    exists cs. unfold mbind, outcome_bind. rewrite E. split; [done|]. by rewrite Hc.
Qed.

(** ** Uploads and copies *)

Section laws.
Context `{C : S3Client} `{!S3Laws C}.

(** What is uploaded is what a read returns. *)
Lemma PutObject_roundtrip s i s' r :
  PutObject s i = Ret (s', Ok r) →
  pr_IsUploaded r = true ∧
  ∃ m, GetObject s' (pi_Bucket i) (pr_ObjectKey r) =
    Ret (Ok {| gr_ContentBody := pi_Source i; gr_ContentLength := Z.of_nat (String.length (pi_Source i));
               gr_ContentType := pi_MimeType i; gr_ETag := pr_ETag r; gr_LastModified := m |}).
Proof.
  unfold PutObject. destruct (s3_PutObject s (put_input i)) as [s1 [etag|e]] eqn:Ep; [|done].
  destruct (s3_put_get _ _ _ _ Ep) as (e & m & -> & Hg). intros [= <- <-]. split; [done|]. exists m.
  unfold GetObject. cbn [pr_ObjectKey]. cbn [put_input sp_Bucket sp_Key sp_Body sp_ContentType] in Hg. by rewrite Hg.
Qed.

Lemma PutObject_total s i : ∃ s' r, PutObject s i = Ret (s', r).
Proof.
  unfold PutObject. destruct (s3_PutObject s (put_input i)) as [s1 [etag|e]] eqn:Ep; [|eauto].
  destruct (s3_put_get _ _ _ _ Ep) as (e & m & -> & _). eauto.
Qed.

(** The key [CopyObject] writes to is not the key it reports. *)
Lemma copy_key_ne b o : b +:+ "/" +:+ o ≠ o.
Proof. intros E. apply (f_equal String.length) in E. rewrite !string_length_app in E. cbn in E. lia. Qed.

Lemma CopyObject_places s sb so db o s' r :
  bucket_name sb → CopyObject s sb so db o = (s', Ok r) →
  cr_ObjectKey r = o ∧
  so_Body <$> (match s3_GetObject s' db (db +:+ "/" +:+ o) with Ok x => Some x | Err _ => None end) =
  so_Body <$> (match s3_GetObject s sb so with Ok x => Some x | Err _ => None end) ∧
  s3_GetObject s' db o = s3_GetObject s db o.
Proof.
  intros Hsb. unfold CopyObject. destruct (s3_CopyObject s db (sb +:+ "/" +:+ so) (db +:+ "/" +:+ o)) as [s1 [[]|e]] eqn:Ec; [|done].
  intros [= <- <-]. split; [done|]. split; [by apply s3_copy_get|]. eapply s3_copy_other; [exact Ec|].
  intros [= E]. by apply (copy_key_ne db o).
Qed.

(** ** Reading many objects *)

Lemma fetch_all_perm s b ks ks' l :
  ks ≡ₚ ks' → fetch_all s b ks = Ret l → ∃ l', fetch_all s b ks' = Ret l' ∧ l ≡ₚ l'.
Proof.
  intros Hp. revert l. induction Hp as [|k ks ks' _ IH|k1 k2 ks|ks1 ks2 ks3 _ IH1 _ IH2]; intros l.
  - intros [= <-]. by exists [].
  - cbn [fetch_all]. unfold mbind, outcome_bind. destruct (fetch_one s b k) as [x|w]; [|done].
    destruct (fetch_all s b ks) as [y|w]; [|done]. intros [= <-]. destruct (IH y eq_refl) as (y' & -> & Hy).
    eexists. split; [done|]. by rewrite Hy.
  - cbn [fetch_all]. unfold mbind, outcome_bind. destruct (fetch_one s b k1) as [x1|w]; [|by destruct (fetch_one s b k2)].
    destruct (fetch_one s b k2) as [x2|w]; [|done]. destruct (fetch_all s b ks) as [y|w]; [|done]. intros [= <-].
    eexists. split; [done|]. rewrite !app_assoc. by rewrite (Permutation_app_comm x2 x1).
  - intros E. destruct (IH1 l E) as (l2 & E2 & H2). destruct (IH2 l2 E2) as (l3 & E3 & H3).
    exists l3. split; [done|]. by etrans.
Qed.

End laws.

(** Reading many objects gives the objects that can be read, in the order the reads finish,
    and never an error: failures are dropped, whatever their number. *)
Theorem GetMultipleObjects_drops_failures `{C : S3Client} finish s bucket keys l :
  (∀ ks, finish ks ≡ₚ ks) → fetch_all s bucket keys = Ret l →
  ∃ l', GetMultipleObjects finish s bucket keys = Ret (Ok l') ∧ l' ≡ₚ l.
Proof.
  intros Hf Hl. unfold GetMultipleObjects.
  destruct (CreateChunks_spec keys MAX_GET_OBJECT_BATCH_LIMIT) as [_ H].
  destruct H as (cs & -> & Hc & _); [done|]. unfold mbind, outcome_bind. rewrite Hc.
  destruct (fetch_all_perm s bucket keys (finish keys) l) as (l' & -> & Hp); [by rewrite Hf|done|].
  by exists l'.
Qed.

(** An upload is read back: after a successful [PutObject], [GetObject] under the key it
    reports returns the body, its length and its content type; no upload panics. *)
Theorem Put_then_Get `{C : S3Client} `{!S3Laws C} s i :
  (∃ s' r, PutObject s i = Ret (s', r)) ∧
  ∀ s' r, PutObject s i = Ret (s', Ok r) →
    pr_IsUploaded r = true ∧
    ∃ m, GetObject s' (pi_Bucket i) (pr_ObjectKey r) =
      Ret (Ok {| gr_ContentBody := pi_Source i; gr_ContentLength := Z.of_nat (String.length (pi_Source i));
                 gr_ContentType := pi_MimeType i; gr_ETag := pr_ETag r; gr_LastModified := m |}).
Proof. split; [apply PutObject_total|]. intros s' r. apply PutObject_roundtrip. Qed.

(** [CopyObject] puts the copy elsewhere. A successful copy of [sb/so] to [db/o] stores the
    content under the key [db/o] inside the bucket [db], reports the key [o], and leaves what
    is under [o] as it was. *)
Theorem CopyObject_misplaces `{C : S3Client} `{!S3Laws C} s sb so db o s' r body :
  bucket_name sb → CopyObject s sb so db o = (s', Ok r) →
  so_Body <$> (match s3_GetObject s sb so with Ok x => Some x | Err _ => None end) = Some body →
  so_Body <$> (match s3_GetObject s' db (db +:+ "/" +:+ o) with Ok x => Some x | Err _ => None end) = Some body ∧
  cr_ObjectKey r = o ∧ GetObject s' db (cr_ObjectKey r) = GetObject s db o.
Proof.
  intros Hsb E Hb. destruct (CopyObject_places s sb so db o s' r Hsb E) as (Hk & Hc & Ho).
  split; [by rewrite Hc|]. split; [done|]. rewrite Hk. unfold GetObject. by rewrite Ho.
Qed.

(** ** Listing *)

Lemma items_of_objects os : items (item_of <$> os) = Ret os.
Proof.
  induction os as [|o os IH]; [done|]. rewrite fmap_cons. cbn [items item_of si_Key si_LastModified si_Size deref].
  unfold mbind, outcome_bind. rewrite IH. by destruct o.
Qed.

Lemma div_less_1000 B : (B - 1000) / 1000 = B / 1000 - 1.
Proof. replace (B - 1000) with (B + (-1) * 1000) by lia. rewrite Z.div_add by lia. lia. Qed.

Lemma ListObject_loop_total `{C : S3Client} s b p fuel B token acc :
  B <= 0 ∨ B / MAX_OBJECT_PROCESSING_LIMIT < Z.of_nat fuel → ListObject_loop fuel s b p B token acc ≠ None.
Proof.
  unfold MAX_OBJECT_PROCESSING_LIMIT. revert B token acc. induction fuel as [|fuel IH]; intros B token acc HB; cbn [ListObject_loop].
  - destruct (Z.leb_spec B 0) as [|Hpos]; [done|]. exfalso. destruct HB as [?|HB]; [lia|].
    pose proof (Z.div_pos B 1000). lia.
  - destruct (Z.leb_spec B 0) as [|Hpos]; [done|]. destruct HB as [?|HB]; [lia|]. cbv zeta. unfold MAX_OBJECT_PROCESSING_LIMIT.
    destruct (s3_ListObjectsV2 _ _ _ _ _) as [r|e]; [|done]. destruct (items (sl_Contents r)) as [[|x page]|w]; [done| |done].
    destruct (sl_IsTruncated r) as [[]|]; [| |done]; apply IH;
      (destruct (Z.leb_spec 1000 B); [right|left; lia]; rewrite div_less_1000; lia).
Qed.

Section listing.
Context `{C : S3Client} `{!S3Laws C}.

(** A round over a page. *)
Lemma ListObject_round s b p fuel B token acc :
  0 < B →
  let here := s3_place s b p token in
  let n := Z.min B MAX_OBJECT_PROCESSING_LIMIT in
  let page := take (Z.to_nat n) (drop here (s3_objects s b p)) in
  ∃ next,
    ((here + length page < length (s3_objects s b p))%nat → s3_place s b p next = (here + length page)%nat) ∧
    ((here + length page < length (s3_objects s b p))%nat ∨ next = token) ∧
    ListObject_loop (S fuel) s b p B token acc =
      match page with
      | [] => Some (Ret (Ok acc))
      | _ => ListObject_loop fuel s b p (B - n) next (acc ++ page)
      end.
Proof.
  intros HB here n page.
  assert ((if MAX_OBJECT_PROCESSING_LIMIT <=? B then MAX_OBJECT_PROCESSING_LIMIT else B) = n) as En.
  { unfold n, MAX_OBJECT_PROCESSING_LIMIT. destruct (Z.leb_spec 1000 B); lia. }
  assert ((if MAX_OBJECT_PROCESSING_LIMIT <=? B then B - n else 0) = B - n) as Eb.
  { unfold n, MAX_OBJECT_PROCESSING_LIMIT. destruct (Z.leb_spec 1000 B); lia. }
  destruct (s3_page s b p n token) as (next & Hl & Hn); [unfold n, MAX_OBJECT_PROCESSING_LIMIT; lia|].
  assert (Z.min n MAX_OBJECT_PROCESSING_LIMIT = n) as Em by (unfold n; lia). rewrite Em in Hl, Hn. fold here page in Hl, Hn.
  cbn [ListObject_loop]. rewrite (proj2 (Z.leb_gt B 0)) by done. cbv zeta. rewrite En, Eb, Hl.
  cbn [sl_Contents sl_IsTruncated sl_NextContinuationToken]. rewrite items_of_objects.
  destruct (bool_decide (here + length page < length (s3_objects s b p))%nat) eqn:Ed.
  - apply bool_decide_eq_true in Ed. exists next. split; [by intros; apply Hn|]. split; [by left|]. by destruct page.
  - apply bool_decide_eq_false in Ed. exists token. split; [done|]. split; [by right|]. by destruct page.
Qed.

(** Enough objects ahead: the loop takes exactly the batch. *)
Lemma ListObject_loop_exact s b p fuel B token acc :
  0 <= B → B / MAX_OBJECT_PROCESSING_LIMIT < Z.of_nat fuel →
  (s3_place s b p token + Z.to_nat B <= length (s3_objects s b p))%nat →
  ListObject_loop fuel s b p B token acc =
    Some (Ret (Ok (acc ++ take (Z.to_nat B) (drop (s3_place s b p token) (s3_objects s b p))))).
Proof.
  revert B token acc. induction fuel as [|fuel IH]; intros B token acc HB Hf Hle.
  { unfold MAX_OBJECT_PROCESSING_LIMIT in *. pose proof (Z.div_pos B 1000). lia. }
  destruct (Z.eq_dec B 0) as [->|Hne]; [cbn; by rewrite app_nil_r|].
  destruct (ListObject_round s b p fuel B token acc) as (next & Hplace & Hsame & ->); [lia|].
  set (objs := s3_objects s b p) in *. set (here := s3_place s b p token) in *.
  set (n := Z.min B MAX_OBJECT_PROCESSING_LIMIT) in *. set (page := take (Z.to_nat n) (drop here objs)) in *.
  assert (0 < n <= B) as Hn by (unfold n, MAX_OBJECT_PROCESSING_LIMIT; lia).
  assert (length page = Z.to_nat n) as Hlen by (unfold page; rewrite length_take, length_drop; lia).
  assert (take (Z.to_nat B) (drop here objs) = page ++ take (Z.to_nat (B - n)) (drop (here + Z.to_nat n) objs)) as Hsplit.
  { unfold page. rewrite <-drop_drop. replace (Z.to_nat B) with (Z.to_nat n + Z.to_nat (B - n))%nat by lia.
    by rewrite take_take_drop. }
  assert (match page with [] => Some (Ret (Ok acc)) | _ :: _ => ListObject_loop fuel s b p (B - n) next (acc ++ page) end =
    ListObject_loop fuel s b p (B - n) next (acc ++ page)) as -> by (destruct page; [cbn in Hlen; lia|done]).
  destruct (Z.eq_dec (B - n) 0) as [Hz|Hz].
  - rewrite Hz, Hsplit, Hz. cbn [Z.to_nat]. rewrite take_0, app_nil_r. by destruct fuel.
  - assert (n = 1000) as Hk by (unfold n, MAX_OBJECT_PROCESSING_LIMIT in *; lia).
    rewrite IH.
    + rewrite Hplace by lia. rewrite Hlen, Hsplit, app_assoc. done.
    + lia.
    + unfold MAX_OBJECT_PROCESSING_LIMIT in *. rewrite Hk, div_less_1000. lia.
    + rewrite Hplace by lia. lia.
Qed.

(** A listing that fits a page is read again in every round. *)
Lemma ListObject_loop_repeats s b p fuel B acc :
  (length (s3_objects s b p) ≤ 1000)%nat →
  0 <= B → B / MAX_OBJECT_PROCESSING_LIMIT < Z.of_nat fuel →
  ListObject_loop fuel s b p B None acc =
    Some (Ret (Ok (acc ++ concat (replicate (Z.to_nat (B / MAX_OBJECT_PROCESSING_LIMIT)) (s3_objects s b p)) ++
                   take (Z.to_nat (B mod MAX_OBJECT_PROCESSING_LIMIT)) (s3_objects s b p)))).
Proof.
  intros Hsmall. unfold MAX_OBJECT_PROCESSING_LIMIT. revert B acc. induction fuel as [|fuel IH]; intros B acc HB Hf.
  { pose proof (Z.div_pos B 1000). lia. }
  destruct (Z.eq_dec B 0) as [->|Hne]; [cbn; by rewrite app_nil_r|].
  destruct (ListObject_round s b p fuel B None acc) as (next & Hplace & Hsame & ->); [lia|].
  rewrite s3_start, drop_0 in *. cbn [Nat.add] in *. set (objs := s3_objects s b p) in *. unfold MAX_OBJECT_PROCESSING_LIMIT in *.
  destruct (Z.le_gt_cases 1000 B) as [Hbig|Hlt].
  - rewrite Z.min_r in * by lia. rewrite (take_ge objs (Z.to_nat 1000)) in * by lia.
    destruct Hsame as [Hlt| ->]; [lia|].
    assert (Z.to_nat (B / 1000) = S (Z.to_nat ((B - 1000) / 1000))) as Ek.
    { rewrite div_less_1000. assert (1 <= B / 1000) by (apply Z.div_le_lower_bound; lia). lia. }
    assert (B mod 1000 = (B - 1000) mod 1000) as Em.
    { replace (B - 1000) with (B + (-1) * 1000) by lia. by rewrite Z.mod_add. }
    destruct objs as [|o os] eqn:Eobjs.
    { rewrite take_nil, app_nil_r. assert (∀ n, concat (replicate n (@nil S3Object)) = []) as ->.
      { intros n. induction n; [done|]. done. }
      by rewrite app_nil_r. }
    rewrite <-Eobjs in *. rewrite IH.
    + rewrite Ek, Em. cbn [replicate concat]. by rewrite !app_assoc.
    + lia.
    + rewrite div_less_1000. lia.
  - rewrite Z.min_l by lia. rewrite Z.sub_diag, Z.div_small, Z.mod_small by lia. cbn [Z.to_nat replicate concat app].
    destruct (take (Z.to_nat B) objs) as [|o os] eqn:Et; [by rewrite app_nil_r|]. by destruct fuel.
Qed.

End listing.

(** [ListObject] always returns, whatever the client answers. *)
Theorem ListObject_terminates `{C : S3Client} s b p n : ∃ r, ListObject s b p n = Some r.
Proof.
  unfold ListObject, ListObject_fuel. unfold mbind, option_bind.
  destruct (ListObject_loop _ s b p n None []) as [r|] eqn:E; [eauto|]. exfalso. revert E. apply ListObject_loop_total.
  destruct (Z.le_gt_cases n 0); [by left|right]. rewrite Nat2Z.inj_succ, Z2Nat.id by (apply Z.div_pos; [lia|done]). lia.
Qed.

(** A listing with as many objects as asked for is exact: the first [n] objects under the
    prefix in the order of their keys, over as many pages as needed. *)
Theorem ListObject_exact `{C : S3Client} `{!S3Laws C} s b p n :
  0 <= n → n <= 1000 ∨ n <= Z.of_nat (length (s3_objects s b p)) →
  let objs := take (Z.to_nat n) (s3_objects s b p) in
  ListObject s b p n = Some (Ret (Ok {| lr_Objects := objs; lr_ObjectCount := Z.of_nat (length objs) |})).
Proof.
  intros Hn Hor objs. unfold ListObject, ListObject_fuel.
  assert (ListObject_loop (S (Z.to_nat (n / MAX_OBJECT_PROCESSING_LIMIT))) s b p n None [] = Some (Ret (Ok objs))) as ->; [|done].
  assert (n / MAX_OBJECT_PROCESSING_LIMIT < Z.of_nat (S (Z.to_nat (n / MAX_OBJECT_PROCESSING_LIMIT)))) as Hf.
  { rewrite Nat2Z.inj_succ, Z2Nat.id by (apply Z.div_pos; done). lia. }
  destruct (Z.le_gt_cases n (Z.of_nat (length (s3_objects s b p)))) as [Hle|Hgt].
  - rewrite ListObject_loop_exact; [by rewrite s3_start|done|done|]. rewrite s3_start. lia.
  - destruct Hor as [Hor|]; [|lia]. rewrite ListObject_loop_repeats; [|lia|done|done]. unfold MAX_OBJECT_PROCESSING_LIMIT. cbn [app].
    destruct (Z.eq_dec n 1000) as [->|Hne].
    + change (Z.to_nat (1000 / 1000)) with 1%nat. change (Z.to_nat (1000 mod 1000)) with 0%nat. cbn [replicate concat].
      rewrite take_0, !app_nil_r. unfold objs. by rewrite take_ge by lia.
    + by rewrite Z.div_small, Z.mod_small by lia.
Qed.

(** A listing with fewer objects than asked for repeats them. When at most a page of objects
    matches and more than 1000 are asked for, every thousand asked for reads the same page
    again, because the loop does not stop at the last page: the result counts objects that do
    not exist and holds each object more than once. *)
Theorem ListObject_repeats `{C : S3Client} `{!S3Laws C} s b p n :
  1000 < n → (0 < length (s3_objects s b p) ≤ 1000)%nat →
  ∃ objs, ListObject s b p n = Some (Ret (Ok {| lr_Objects := objs; lr_ObjectCount := Z.of_nat (length objs) |})) ∧
    objs = concat (replicate (Z.to_nat (n / 1000)) (s3_objects s b p)) ++ take (Z.to_nat (n mod 1000)) (s3_objects s b p) ∧
    (length (s3_objects s b p) < length objs)%nat ∧ ¬ NoDup objs.
Proof.
  intros Hn Hlen. unfold ListObject, ListObject_fuel. rewrite ListObject_loop_repeats; [|lia|lia|].
  2: { rewrite Nat2Z.inj_succ, Z2Nat.id by (apply Z.div_pos; [lia|done]). lia. }
  unfold MAX_OBJECT_PROCESSING_LIMIT. cbn [app]. eexists. split; [done|]. split; [done|].
  assert (1 <= n / 1000) as Hk by (apply Z.div_le_lower_bound; lia).
  destruct (s3_objects s b p) as [|o os] eqn:Eo; [cbn in Hlen; lia|]. rewrite <-Eo in *.
  destruct (Z.to_nat (n / 1000)) as [|k] eqn:Ek; [lia|]. cbn [replicate concat]. rewrite <-app_assoc.
  assert (∃ rest, concat (replicate k (s3_objects s b p)) ++ take (Z.to_nat (n mod 1000)) (s3_objects s b p) = o :: rest) as [rest ->].
  { destruct k as [|k]; [|cbn [replicate concat]; rewrite Eo; cbn [app]; eauto].
    assert (n mod 1000 = n - 1000) as Hm by (pose proof (Z.div_mod n 1000); lia).
    rewrite Hm, Eo. cbn [replicate concat app]. destruct (Z.to_nat (n - 1000)) as [|x] eqn:Ex; [lia|]. cbn [take]. eauto. }
  split; [rewrite length_app; cbn; lia|]. rewrite Eo. cbn [app]. intros [Hin _]%NoDup_cons. apply Hin. set_solver.
Qed.

(** ** A store in memory: the laws hold of it *)

Module MemoryS3.
(** Body and content type of every object. *)
Abbreviation state := (gmap (string * string) (string * string)).

Definition output (x : string * string) : s3_object_output :=
  {| so_Body := x.1; so_ContentLength := Some (Z.of_nat (String.length x.1)); so_ContentType := Some x.2;
     so_ETag := Some "etag"; so_LastModified := Some 0 |}.
Definition get (s : state) (b k : string) : result string s3_object_output :=
  match s !! (b, k) with Some x => Ok (output x) | None => Err "NoSuchKey" end.
Definition store_object (s : state) (i : s3_put_input) : state * result string (option string) :=
  (<[(sp_Bucket i, sp_Key i) := (sp_Body i, sp_ContentType i)]> s, Ok (Some "etag")).

Fixpoint split_source (src : string) : string * string :=
  match src with
  | EmptyString => ("", "")
  | String c rest =>
      if decide (c = Ascii.ascii_of_nat 47) then ("", rest)
      else let '(b, k) := split_source rest in (String c b, k)
  end.
Definition copy (s : state) (db src dk : string) : state * result string unit :=
  match s !! split_source src with
  | Some x => (<[(db, dk) := x]> s, Ok ())
  | None => (s, Err "NoSuchKey")
  end.

Definition objects (s : state) (b p : string) : list S3Object :=
  omap (λ kv : (string * string) * (string * string),
    if decide (kv.1.1 = b) then
      if String.prefix p kv.1.2
      then Some {| o_Key := kv.1.2; o_LastModified := 0; o_Size := Z.of_nat (String.length kv.2.1) |}
      else None
    else None) (map_to_list s).
Definition place (token : option string) : nat := match token with Some t => String.length t | None => 0 end.
Fixpoint marker (n : nat) : string := match n with O => "" | S n => String Ascii.zero (marker n) end.
Definition list_objects (s : state) (b p : string) (n : Z) (token : option string) : result string s3_list_output :=
  let here := place token in
  let page := take (Z.to_nat (Z.min n MAX_OBJECT_PROCESSING_LIMIT)) (drop here (objects s b p)) in
  Ok {| sl_Contents := item_of <$> page;
        sl_IsTruncated := Some (bool_decide (here + length page < length (objects s b p))%nat);
        sl_NextContinuationToken := Some (marker (here + length page)) |}.

#[export] Instance client : S3Client := {|
  s3_state := state; s3_GetObject := get; s3_HeadObject := get; s3_PutObject := store_object; s3_CopyObject := copy;
  s3_ListObjectsV2 := list_objects; s3_PresignGet b k ttl := Ok (b +:+ "/" +:+ k);
  s3_PresignPut b k ty sse ttl := Ok (b +:+ "/" +:+ k) |}.

Lemma split_source_join b k : bucket_name b → split_source (b +:+ "/" +:+ k) = (b, k).
Proof.
  unfold bucket_name. induction b as [|c b IH]; intros Hb.
  - change ("" +:+ "/" +:+ k) with (String (Ascii.ascii_of_nat 47) k). cbn [split_source]. by rewrite decide_True.
  - change (String c b +:+ "/" +:+ k) with (String c (b +:+ "/" +:+ k)). cbn [split_source].
    cbn [String.list_ascii_of_string] in Hb. apply not_elem_of_cons in Hb as [Hc Hb].
    rewrite decide_False by (intros ->; by apply Hc). by rewrite IH.
Qed.

Lemma marker_length n : String.length (marker n) = n.
Proof. induction n as [|n IH]; [done|]. cbn. by rewrite IH. Qed.

Lemma copy_get (s : state) sb sk db dk s' :
  bucket_name sb → copy s db (sb +:+ "/" +:+ sk) dk = (s', Ok ()) →
  so_Body <$> (match get s' db dk with Ok x => Some x | Err _ => None end) =
  so_Body <$> (match get s sb sk with Ok x => Some x | Err _ => None end).
Proof.
  intros Hsb. unfold copy. rewrite split_source_join by done. unfold get.
  destruct (s !! (sb, sk)) as [x|] eqn:E; [|done]. intros [= <-]. by rewrite lookup_insert_eq.
Qed.

Lemma copy_other (s : state) db src dk s' r b k :
  copy s db src dk = (s', r) → (b, k) ≠ (db, dk) → get s' b k = get s b k.
Proof.
  unfold copy, get. destruct (s !! split_source src); intros [= <- <-] Hne; [|done]. by rewrite lookup_insert_ne.
Qed.

#[export] Instance laws : S3Laws client.
Proof.
  unshelve refine {| s3_objects := objects : s3_state → _; s3_place := λ _ _ _, place |}.
  - intros s i s' etag. cbn. unfold store_object. intros [= <- <-]. exists "etag", 0. split; [done|]. unfold get. by rewrite lookup_insert_eq.
  - intros s i s' r b k. cbn. unfold store_object. intros [= <- <-] Hne. unfold get. by rewrite lookup_insert_ne.
  - intros s sb sk db dk s' Hsb. exact (copy_get s sb sk db dk s' Hsb).
  - intros s db src dk s' r b k. exact (copy_other s db src dk s' r b k).
  - done.
  - intros s b p n token _. eexists. split; [done|]. intros _. apply marker_length.
Defined.

Definition store : state := {[ ("src", "a.txt") := ("hello", "text/plain") ]}.
Lemma src_name : bucket_name "src".
Proof.
  unfold bucket_name. refine (bool_decide_unpack (Ascii.ascii_of_nat 47 ∉ String.list_ascii_of_string "src") _). by vm_compute.
Qed.
Lemma copy_store : copy store "dst" ("src" +:+ "/" +:+ "a.txt") "dst/b.txt" =
  (<[("dst", "dst/b.txt") := ("hello", "text/plain")]> store, Ok ()).
Proof. unfold copy. rewrite split_source_join by apply src_name. unfold store at 1. by rewrite lookup_singleton_eq. Qed.
Definition copied : state := <[("dst", "dst/b.txt") := ("hello", "text/plain")]> store.
End MemoryS3.
#[local] Existing Instances MemoryS3.client MemoryS3.laws.

Lemma GetMultipleObjects_drops_failures_witness :
  ∃ l', GetMultipleObjects reverse (MemoryS3.store : s3_state) "src" ["a.txt"; "missing"] = Ret (Ok l') ∧ length l' = 1%nat.
Proof.
  destruct (GetMultipleObjects_drops_failures (C := MemoryS3.client) reverse MemoryS3.store "src" ["a.txt"; "missing"]
    [{| gr_ContentBody := "hello"; gr_ContentLength := 5; gr_ContentType := "text/plain"; gr_ETag := "etag"; gr_LastModified := 0 |}])
    as (l' & E & Hp); [intros ks; apply reverse_Permutation|by vm_compute|].
  exists l'. split; [exact E|]. by rewrite Hp.
Defined.

Lemma Put_then_Get_witness :
  let i := {| pi_Bucket := "b"; pi_Source := "data"; pi_TargetPath := "k"; pi_Acl := ""; pi_MimeType := "text/plain";
              pi_CacheControl := ""; pi_DisableACL := false |} in
  ∃ s' r m, PutObject (∅ : s3_state (S3Client := MemoryS3.client)) i = Ret (s', Ok r) ∧
    GetObject s' "b" (pr_ObjectKey r) =
      Ret (Ok {| gr_ContentBody := "data"; gr_ContentLength := 4; gr_ContentType := "text/plain";
                 gr_ETag := pr_ETag r; gr_LastModified := m |}).
Proof.
  intros i. destruct (Put_then_Get (C := MemoryS3.client) ∅ i) as [_ H].
  set (s' := <[("b", "k") := ("data", "text/plain")]> ∅ : MemoryS3.state).
  set (r := {| pr_IsUploaded := true; pr_ETag := "etag"; pr_ObjectKey := "k" |}).
  assert (PutObject (∅ : s3_state (S3Client := MemoryS3.client)) i = Ret (s', Ok r)) as E by reflexivity.
  destruct (H s' r E) as [_ [m Hm]]. exists s', r, m. split; [exact E|exact Hm].
Defined.

(** Copied to "dst/b.txt", the object is not under the key that [CopyObject] reports. *)
Lemma CopyObject_misplaces_witness :
  let r := {| cr_IsCopied := true; cr_ObjectKey := "b.txt" |} in
  CopyObject (MemoryS3.store : s3_state) "src" "a.txt" "dst" "b.txt" = (MemoryS3.copied, Ok r) ∧
  GetObject (MemoryS3.copied : s3_state) "dst" (cr_ObjectKey r) = Ret (Err "NoSuchKey").
Proof.
  intros r. assert (CopyObject (MemoryS3.store : s3_state) "src" "a.txt" "dst" "b.txt" = (MemoryS3.copied, Ok r)) as E.
  { unfold CopyObject. change (@s3_CopyObject MemoryS3.client) with MemoryS3.copy.
    change ("dst" +:+ "/" +:+ "b.txt") with "dst/b.txt". by rewrite MemoryS3.copy_store. }
  split; [exact E|].
  destruct (CopyObject_misplaces (C := MemoryS3.client) MemoryS3.store "src" "a.txt" "dst" "b.txt" MemoryS3.copied r "hello"
    MemoryS3.src_name E) as (_ & _ & Hg); [by vm_compute|].
  etrans; [exact Hg|]. by vm_compute.
Defined.

Lemma ListObject_exact_witness :
  ListObject (MemoryS3.store : s3_state) "src" "a" 10 =
    Some (Ret (Ok {| lr_Objects := [{| o_Key := "a.txt"; o_LastModified := 0; o_Size := 5 |}]; lr_ObjectCount := 1 |})).
Proof.
  etrans; [apply (ListObject_exact (C := MemoryS3.client) MemoryS3.store "src" "a" 10); [done|left; done]|]. by vm_compute.
Defined.

(** One object, 3500 asked for: it is listed four times. *)
Lemma ListObject_repeats_witness :
  ∃ objs, ListObject (MemoryS3.store : s3_state) "src" "a" 3500 =
      Some (Ret (Ok {| lr_Objects := objs; lr_ObjectCount := Z.of_nat (length objs) |})) ∧
    length objs = 4%nat.
Proof.
  destruct (ListObject_repeats (C := MemoryS3.client) MemoryS3.store "src" "a" 3500) as (objs & E & Ho & _);
    [done|by vm_compute; lia|].
  exists objs. split; [exact E|]. rewrite Ho. by vm_compute.
Defined.
