(* ===== verification/Messaging.v ===== *)
(** * Queues, topics and the notification publisher

    [src/cloud/service/aws/sqs.go] and [sns.go] over the clients of the SDK, and the publisher
    of [src/notifier/notifyrclient] with its messages ([src/notifier/contracts]) over the queue.
    The SQS client is an interface ([SqsClient]) whose laws ([SqsLaws]) are the documented
    delivery rules of standard and FIFO queues; [json.Marshal] is a parameter. *)

From Stdlib Require Import ZArith Lia Ascii.
From stdpp Require Import base numbers strings gmap list relations.
From S2P Require Import Prelude GoValue SqlText Http Compressor ObjectStorage.
Local Open Scope Z_scope.

(** ** The SQS client *)

Record sqs_send_input : Type := {
  sq_QueueUrl : string;
  sq_MessageBody : string;
  sq_MessageGroupId : option string;
  sq_MessageDeduplicationId : option string;
}.
Record sqs_send_output : Type := { sqo_MessageId : option string; sqo_MD5 : option string }.
Record sqs_received : Type := {
  sqr_MessageId : option string;
  sqr_Body : option string;
  sqr_MD5OfBody : option string;
  sqr_ReceiptHandle : option string;
}.

Class SqsClient := {
  sqs_state : Type;
  (* at a time, in nanoseconds *)
  sqs_SendMessage : sqs_state → Z → sqs_send_input → sqs_state * result string sqs_send_output;
  (* queue, maximum, seconds to wait *)
  sqs_ReceiveMessage : sqs_state → string → Z → Z → sqs_state * result string (list sqs_received);
  sqs_DeleteMessage : sqs_state → string → string → sqs_state * result string unit;
  sqs_ChangeVisibility : sqs_state → string → string → Z → sqs_state * result string unit;
  sqs_GetQueueAttributes : sqs_state → string → result string (gmap string string);
}.

Record SendMessageResult : Type := { sm_MessageId : string; sm_MessageBodyMd5 : string }.
Record ReceiveMessageResult : Type := {
  rm_MessageId : string; rm_MessageBody : string; rm_MessageBodyMd5 : string; rm_ReceiptHandle : string;
}.

Definition FifoQueueSuffix : string := ".fifo".
Definition is_fifo (url : string) : bool := has_suffix (str url) (str FifoQueueSuffix).

(** ** Random strings ([src/utils/types/strings.go]) *)

(** The characters of [base64.URLEncoding]. *)
Definition base64_url : list ascii := str "ABCDEFGHIJKLMNOPQRSTUVWXYZabcdefghijklmnopqrstuvwxyz0123456789-_".
Definition letterBytes : list ascii := str "abcdefghijklmnopqrstuvwxyz0123456789ABCDEFGHIJKLMNOPQRSTUVWXYZ".

(** The alphabet character of a 6-bit group. *)
Definition b64_char (n : Z) : ascii := nth (Z.to_nat (Z.land n 63)) base64_url "A"%char.

(** [base64.URLEncoding.EncodeToString]: three bytes to four characters, padded with [=]. *)
Fixpoint base64_encode (bs : list Z) : list ascii :=
  match bs with
  | [] => []
  | [a] => [b64_char (Z.shiftr a 2); b64_char (Z.shiftl a 4); "="%char; "="%char]
  | [a; b] => [b64_char (Z.shiftr a 2); b64_char (Z.lor (Z.shiftl a 4) (Z.shiftr b 4)); b64_char (Z.shiftl b 2); "="%char]
  | a :: b :: c :: bs =>
      b64_char (Z.shiftr a 2) :: b64_char (Z.lor (Z.shiftl a 4) (Z.shiftr b 4)) ::
      b64_char (Z.lor (Z.shiftl b 2) (Z.shiftr c 6)) :: b64_char c :: base64_encode bs
  end.

(** [random n] is what [crypto/rand.Read] answers for a slice of [n] bytes. *)
Definition GetCryptoSafeRandomString (random : Z → option (list Z)) (length : Z) : outcome (result string string) :=
  match random length with
  | None => Ret (Err "crypto/rand")
  | Some bytes =>
      s ← slice_range (base64_encode bytes) 0 length;
      Ret (Ok (String.string_of_list_ascii s))
  end.

Definition GetRandomString (random : Z → option (list Z)) (length : Z) : string :=
  if length <=? 0 then ""
  else match random length with
       | None => ""
       | Some bytes =>
           String.string_of_list_ascii ((λ b, nth (Z.to_nat (b mod 62)) letterBytes "a"%char) <$> bytes)
       end.

Section sqs.
Context `{SqsClient}.

Definition send_input (queueUrl messageBody messageGroupId dedupeID : string) : sqs_send_input :=
  {| sq_QueueUrl := queueUrl; sq_MessageBody := messageBody;
     sq_MessageGroupId := if is_fifo queueUrl then Some messageGroupId else None;
     sq_MessageDeduplicationId := if is_fifo queueUrl then Some dedupeID else None |}.

Definition sendMessage (s : sqs_state) (now : Z) (queueUrl messageBody messageGroupId dedupeID : string)
  : outcome (sqs_state * result string SendMessageResult) :=
  let '(s, r) := sqs_SendMessage s now (send_input queueUrl messageBody messageGroupId dedupeID) in
  match r with
  | Err e => Ret (s, Err e)
  | Ok o =>
      id ← deref (sqo_MessageId o);
      md5 ← deref (sqo_MD5 o);
      Ret (s, Ok {| sm_MessageId := id; sm_MessageBodyMd5 := md5 |})
  end.

Definition SendMessageWithDedupe := sendMessage.

(** The deduplication identifier [SendMessage] makes up. *)
Definition dedupe_id (random : Z → option (list Z)) (queueUrl : string) : outcome string :=
  if is_fifo queueUrl then
    r ← GetCryptoSafeRandomString random 32;
    let randomstr := match r with Ok x => x | Err _ => GetRandomString random 32 end in
    Ret ("dedup-" +:+ randomstr)
  else Ret "".

Definition SendMessage (random : Z → option (list Z)) (s : sqs_state) (now : Z)
    (queueUrl messageBody messageGroupId : string) : outcome (sqs_state * result string SendMessageResult) :=
  dedupeID ← dedupe_id random queueUrl;
  sendMessage s now queueUrl messageBody messageGroupId dedupeID.

Fixpoint received (l : list sqs_received) : outcome (list ReceiveMessageResult) :=
  match l with
  | [] => Ret []
  | m :: l =>
      id ← deref (sqr_MessageId m);
      body ← deref (sqr_Body m);
      md5 ← deref (sqr_MD5OfBody m);
      handle ← deref (sqr_ReceiptHandle m);
      rest ← received l;
      Ret ({| rm_MessageId := id; rm_MessageBody := body; rm_MessageBodyMd5 := md5; rm_ReceiptHandle := handle |} :: rest)
  end.

Definition ReceiveMessages (s : sqs_state) (queueUrl : string) (maxItems : Z)
  : outcome (sqs_state * result string (list ReceiveMessageResult)) :=
  let '(s, r) := sqs_ReceiveMessage s queueUrl maxItems 20 in
  match r with
  | Err e => Ret (s, Err e)
  | Ok l => results ← received l; Ret (s, Ok results)
  end.

Definition MessageQueue_DeleteMessage (s : sqs_state) (queueUrl receiptHandle : string) : sqs_state * result string unit :=
  sqs_DeleteMessage s queueUrl receiptHandle.
Definition ChangeMessageVisibility (s : sqs_state) (queueUrl receiptHandle : string) (seconds : Z)
  : sqs_state * result string unit := sqs_ChangeVisibility s queueUrl receiptHandle seconds.
Definition GetQueueAttributes (s : sqs_state) (queueUrl : string) : result string (gmap string string) :=
  sqs_GetQueueAttributes s queueUrl.

End sqs.

(** ** What SQS documents

    A message sent to a standard queue is delivered. In a FIFO queue a message whose
    deduplication identifier was accepted in the last five minutes is acknowledged and not
    delivered; the others are delivered in the order they were sent. *)
Definition deduplication_interval : Z := 300000000000.

Class SqsLaws (C : SqsClient) := {
  (* the messages a queue has accepted for delivery, body and group, the oldest first *)
  sqs_delivered : sqs_state → string → list (string * option string);
  (* when a deduplication identifier was last accepted *)
  sqs_accepted : sqs_state → string → string → option Z;
  sqs_sent s now i s' o : sqs_SendMessage s now i = (s', Ok o) →
    (∃ id md5, o = {| sqo_MessageId := Some id; sqo_MD5 := Some md5 |}) ∧
    let url := sq_QueueUrl i in
    let fresh := match sq_MessageDeduplicationId i with
                 | Some d => if is_fifo url then match sqs_accepted s url d with
                                                 | Some t => negb (now - t <? deduplication_interval)
                                                 | None => true
                                                 end
                             else true
                 | None => true
                 end in
    sqs_delivered s' url = sqs_delivered s url ++ (if fresh then [(sq_MessageBody i, sq_MessageGroupId i)] else []) ∧
    (∀ d, is_fifo url = true → sqs_accepted s' url d =
       if bool_decide (sq_MessageDeduplicationId i = Some d) && fresh then Some now else sqs_accepted s url d);
  sqs_sent_other s now i s' r url : sqs_SendMessage s now i = (s', r) → url ≠ sq_QueueUrl i →
    sqs_delivered s' url = sqs_delivered s url;
  sqs_failed s now i s' e : sqs_SendMessage s now i = (s', Err e) →
    sqs_delivered s' (sq_QueueUrl i) = sqs_delivered s (sq_QueueUrl i);
}.

(** ** The SNS client *)

Record PublishInput : Type := {
  pb_Message : string;
  pb_TopicId : string;
  pb_MessageGroupId : string;
  pb_MessageDedupeId : string;
  pb_MessageAttributes : gmap string string;
  pb_DeviceEndpointId : string;
  pb_PhoneNumber : string;
  pb_Subject : string;
}.
Record sns_publish_input : Type := {
  sn_Message : string;
  sn_TargetArn : option string;
  sn_MessageGroupId : option string;
  sn_MessageDeduplicationId : option string;
  sn_PhoneNumber : option string;
  sn_Subject : option string;
  sn_MessageAttributes : gmap string string;   (* values of data type String *)
}.

(** [types.IsEmpty] of a string. *)
Definition IsEmpty (s : string) : bool := bool_decide (s = "").
Definition unless_empty (s : string) (old : option string) : option string := if IsEmpty s then old else Some s.

Definition sns_input (i : PublishInput) : sns_publish_input :=
  {| sn_Message := pb_Message i;
     sn_TargetArn := unless_empty (pb_DeviceEndpointId i) (unless_empty (pb_TopicId i) None);
     sn_MessageGroupId := unless_empty (pb_MessageGroupId i) None;
     sn_MessageDeduplicationId := unless_empty (pb_MessageDedupeId i) None;
     sn_PhoneNumber := unless_empty (pb_PhoneNumber i) None;
     sn_Subject := unless_empty (pb_Subject i) None;
     sn_MessageAttributes := filter (λ kv, kv.1 ≠ "" ∧ kv.2 ≠ "") (pb_MessageAttributes i) |}.

(** [PublishSubscribe.Publish]: [client] answers with the identifier of the message. *)
Definition sns_Publish (client : sns_publish_input → result string (option string)) (i : PublishInput)
  : outcome (result string string) :=
  match client (sns_input i) with
  | Err e => Ret (Err e)
  | Ok id => id ← deref id; Ret (Ok id)
  end.

(** ** Notification messages *)

Definition ChannelEmail : string := "email".
Definition ChannelSMS : string := "sms".
Definition PriorityHigh : string := "high".
Definition PriorityLow : string := "low".

Record Recipient : Type := { rc_Email : string; rc_PhoneE164 : string }.
Record Scope : Type := {
  sc_AppScope : string; sc_ClientID : string; sc_RestaurantID : string; sc_LocationID : string; sc_Locale : string;
}.
Record TemplateReference : Type := {
  tr_Mode : string; tr_Channel : string; tr_Purpose : string; tr_SubjectTemplate : string; tr_TextTemplate : string;
  tr_HTMLTemplate : string; tr_FromAddress : string; tr_ReplyToAddresses : list string; tr_SenderName : string;
}.
Record NotificationMessage : Type := {
  nm_MessageID : string;
  nm_IdempotencyKey : string;
  nm_Priority : string;
  nm_Channel : string;
  nm_Purpose : string;
  nm_ProviderHint : string;
  nm_Recipient : Recipient;
  nm_Scope : Scope;
  nm_Template : TemplateReference;
  nm_Variables : gmap string string;
  nm_Metadata : gmap string any;
  nm_SourceService : string;
}.

Definition NotificationMessage_Validate (m : option NotificationMessage) : result string NotificationMessage :=
  match m with
  | None => Err "notification message is required"
  | Some m =>
      if blank (nm_MessageID m) then Err "message_id is required"
      else if blank (nm_IdempotencyKey m) then Err "idempotency_key is required"
      else if blank (nm_Purpose m) then Err "purpose is required"
      else if negb (bool_decide (nm_Channel m ∈ [ChannelEmail; ChannelSMS])) then Err ("unsupported channel: " +:+ nm_Channel m)
      else if negb (bool_decide (nm_Priority m ∈ [PriorityHigh; PriorityLow])) then Err ("unsupported priority: " +:+ nm_Priority m)
      else Ok m
  end.

(** ** The publisher *)

Record QueueConfig : Type := {
  EmailHighPriorityURL : string;
  EmailLowPriorityURL : string;
  SMSHighPriorityURL : string;
  SMSLowPriorityURL : string;
}.

Definition QueueConfig_Validate (q : QueueConfig) : result string unit :=
  if existsb (λ url, negb (bool_decide (url = "")) && blank url)
       [EmailHighPriorityURL q; EmailLowPriorityURL q; SMSHighPriorityURL q; SMSLowPriorityURL q]
  then Err "queue url cannot be only whitespace" else Ok ().

(** An audit event, less its times. *)
Record PublishAuditEvent : Type := {
  ae_MessageID : string;
  ae_IdempotencyKey : string;
  ae_QueueURL : string;
  ae_Channel : string;
  ae_Priority : string;
  ae_Purpose : string;
  ae_Success : bool;
  ae_ProviderID : string;
  ae_Err : option string;
}.

(** Whether the queue has [SendMessageWithDedupe] and whether there is an audit hook. *)
Record Publisher : Type := { pub_queues : QueueConfig; pub_dedupe : bool; pub_audit : bool }.

(** [NewPublisherWithOptions]; [mq] is whether the queue is not nil, and has deduplication. *)
Definition NewPublisherWithOptions (mq : option bool) (queues : QueueConfig) (audit : bool) : result string Publisher :=
  match mq with
  | None => Err "message queue is required"
  | Some dedupe =>
      match QueueConfig_Validate queues with
      | Err e => Err e
      | Ok _ => Ok {| pub_queues := queues; pub_dedupe := dedupe; pub_audit := audit |}
      end
  end.
Definition NewPublisher (mq : option bool) (queues : QueueConfig) : result string Publisher :=
  NewPublisherWithOptions mq queues false.

(** The queue of a channel and a priority, and what to say when it is not configured. *)
Definition queue_of (q : QueueConfig) (m : NotificationMessage) : string * string :=
  if decide (nm_Channel m = ChannelEmail) then
    if decide (nm_Priority m = PriorityHigh) then (EmailHighPriorityURL q, "email high-priority queue is not configured")
    else if decide (nm_Priority m = PriorityLow) then (EmailLowPriorityURL q, "email low-priority queue is not configured")
    else ("", "")
  else if decide (nm_Channel m = ChannelSMS) then
    if decide (nm_Priority m = PriorityHigh) then (SMSHighPriorityURL q, "sms high-priority queue is not configured")
    else if decide (nm_Priority m = PriorityLow) then (SMSLowPriorityURL q, "sms low-priority queue is not configured")
    else ("", "")
  else ("", "").

Definition resolveQueueURL (p : Publisher) (m : NotificationMessage) : result string string :=
  match NotificationMessage_Validate (Some m) with
  | Err e => Err e
  | Ok _ =>
      let '(url, missing) := queue_of (pub_queues p) m in
      let url := trimmed url in
      if decide (url = "") then Err missing else Ok url
  end.

(** The width in bytes of the first rune of a text; an invalid byte is a rune of its own. *)
Definition code (c : ascii) : Z := Z.of_N (Ascii.N_of_ascii c).
Definition between (lo hi x : Z) : bool := (lo <=? x) && (x <=? hi).
Definition rune_width (s : text) : nat :=
  match code <$> s with
  | b0 :: b1 :: b2 :: b3 :: _ =>
      if between 194 223 b0 && between 128 191 b1 then 2
      else if between 224 239 b0 && between (if b0 =? 224 then 160 else 128) (if b0 =? 237 then 159 else 191) b1 &&
              between 128 191 b2 then 3
      else if between 240 244 b0 && between (if b0 =? 240 then 144 else 128) (if b0 =? 244 then 143 else 191) b1 &&
              between 128 191 b2 && between 128 191 b3 then 4
      else 1
  | b0 :: b1 :: b2 :: [] =>
      if between 194 223 b0 && between 128 191 b1 then 2
      else if between 224 239 b0 && between (if b0 =? 224 then 160 else 128) (if b0 =? 237 then 159 else 191) b1 &&
              between 128 191 b2 then 3
      else 1
  | b0 :: b1 :: [] => if between 194 223 b0 && between 128 191 b1 then 2 else 1
  | _ => 1
  end.

Definition group_char (c : ascii) : bool :=
  let n := code c in between 97 122 n || between 65 90 n || between 48 57 n || (n =? 95) || (n =? 45).

(** The loop over the runes; the text is long enough as fuel. *)
Fixpoint sanitize_runes (fuel : nat) (s : text) : text :=
  match fuel, s with
  | S fuel, c :: _ =>
      (if group_char c && (rune_width s =? 1)%nat then c else "-"%char) :: sanitize_runes fuel (drop (rune_width s) s)
  | _, _ => []
  end.

Definition sanitizeMessageGroupPart (value : string) : string :=
  let value := TrimSpace (str value) in
  if bool_decide (value = []) then "default"
  else String.string_of_list_ascii (sanitize_runes (length value) value).

Definition auditEvent (m : NotificationMessage) (queueURL : string) (success : bool) (providerID : string)
    (err : option string) : PublishAuditEvent :=
  {| ae_MessageID := nm_MessageID m; ae_IdempotencyKey := nm_IdempotencyKey m; ae_QueueURL := queueURL;
     ae_Channel := nm_Channel m; ae_Priority := nm_Priority m; ae_Purpose := nm_Purpose m; ae_Success := success;
     ae_ProviderID := providerID; ae_Err := err |}.

Definition invalid_event (e : string) : PublishAuditEvent :=
  {| ae_MessageID := ""; ae_IdempotencyKey := ""; ae_QueueURL := ""; ae_Channel := ""; ae_Priority := "";
     ae_Purpose := ""; ae_Success := false; ae_ProviderID := ""; ae_Err := Some e |}.

Definition emitAudit (p : Publisher) (log : list PublishAuditEvent) (e : PublishAuditEvent) : list PublishAuditEvent :=
  if pub_audit p then log ++ [e] else log.

Definition message_group (queueURL : string) (m : NotificationMessage) : string :=
  if has_suffix (TrimSpace (str queueURL)) (str FifoQueueSuffix)
  then nm_Channel m +:+ "-" +:+ nm_Priority m +:+ "-" +:+ sanitizeMessageGroupPart (nm_Purpose m) else "".

Section publisher.
Context `{SqsClient} (random : Z → option (list Z)) (marshal : NotificationMessage → result string string).

(** [Publish]: the queue, the audit events so far, the time; the answer is the error if any. *)
Definition Publish (p : Publisher) (s : sqs_state) (log : list PublishAuditEvent) (now : Z) (msg : option NotificationMessage)
  : outcome (sqs_state * list PublishAuditEvent * option string) :=
  match NotificationMessage_Validate msg with
  | Err e => Ret (s, emitAudit p log (invalid_event e), Some e)
  | Ok m =>
      match resolveQueueURL p m with
      | Err e => Ret (s, emitAudit p log (auditEvent m "" false "" (Some e)), Some e)
      | Ok queueURL =>
          match marshal m with
          | Err e =>
              let e := "marshal notification message: " +:+ e in
              Ret (s, emitAudit p log (auditEvent m queueURL false "" (Some e)), Some e)
          | Ok payload =>
              let group := message_group queueURL m in
              r ← (if negb (bool_decide (group = "")) && pub_dedupe p
                   then SendMessageWithDedupe s now queueURL payload group (nm_IdempotencyKey m)
                   else SendMessage random s now queueURL payload group);
              match r with
              | (s, Err e) =>
                  let e := "publish notification message: " +:+ e in
                  Ret (s, emitAudit p log (auditEvent m queueURL false "" (Some e)), Some e)
              | (s, Ok result) =>
                  Ret (s, emitAudit p log (auditEvent m queueURL true (sm_MessageId result) None), None)
              end
          end
      end
  end.

End publisher.

(** ** Text *)

Lemma has_suffix_true s t : has_suffix s t = true ↔ ∃ x, s = x ++ t.
Proof.
  unfold has_suffix. rewrite HasPrefix_true. split.
  - intros [s' E]. exists (reverse s'). apply (inj reverse). by rewrite E, reverse_app, reverse_involutive.
  - intros [x ->]. exists (reverse x). by rewrite reverse_app.
Qed.

Lemma strip_prefix_keep p x c t s' :
  c ∉ p → strip_prefix p (x ++ c :: t) = Some s' → ∃ x', s' = x' ++ c :: t.
Proof.
  revert x. induction p as [|d p IH]; intros x Hc; [intros [= <-]; by exists x|].
  apply not_elem_of_cons in Hc as [Hd Hp]. destruct x as [|y x]; cbn.
  - case_bool_decide; [congruence|done].
  - case_bool_decide; [by apply IH|done].
Qed.

Lemma strip_any_keep ps x c t s' :
  Forall (λ p, c ∉ p) ps → strip_any ps (x ++ c :: t) = Some s' → ∃ x', s' = x' ++ c :: t.
Proof.
  induction 1 as [|p ps Hp _ IH]; [done|]. cbn [strip_any].
  destruct (strip_prefix p (x ++ c :: t)) as [y|] eqn:E; [|exact IH]. intros [= <-]. by eapply strip_prefix_keep.
Qed.

Lemma trim_start_keep ps x c t fuel :
  Forall (λ p, c ∉ p) ps → ∃ x', trim_start fuel ps (x ++ c :: t) = x' ++ c :: t.
Proof.
  intros Hps. revert x. induction fuel as [|fuel IH]; intros x; [by exists x|]. cbn [trim_start].
  destruct (strip_any ps (x ++ c :: t)) as [y|] eqn:E; [|by exists x].
  destruct (strip_any_keep _ _ _ _ _ Hps E) as [x' ->]. apply IH.
Qed.

(** Trimming a text that ends in [.fifo] leaves the end. *)
Lemma TrimSpace_fifo s : has_suffix s (str FifoQueueSuffix) = true → has_suffix (TrimSpace s) (str FifoQueueSuffix) = true.
Proof.
  rewrite !has_suffix_true. intros [x ->]. unfold TrimSpace. change (str FifoQueueSuffix) with ("."%char :: str "fifo").
  destruct (trim_start_keep space_encodings x "."%char (str "fifo") (length (x ++ "."%char :: str "fifo"))) as [x' ->].
  { refine (bool_decide_unpack (Forall (λ p, "."%char ∉ p) space_encodings) _). by vm_compute. }
  set (l := x' ++ "."%char :: str "fifo"). exists x'.
  assert (∀ fuel, trim_start fuel (map reverse space_encodings) (reverse l) = reverse l) as ->.
  { intros fuel. destruct fuel; [done|]. cbn [trim_start].
    assert (reverse l = "o"%char :: reverse (x' ++ str ".fif")) as ->.
    { unfold l. rewrite !reverse_app. done. }
    assert (∀ r, strip_any (map reverse space_encodings) ("o"%char :: r) = None) as -> by (intros r; by vm_compute). done. }
  apply reverse_involutive.
Qed.

(** ** Sanitized groups *)

Lemma sanitize_runes_chars fuel s : Forall (λ c, group_char c = true) (sanitize_runes fuel s).
Proof.
  revert s. induction fuel as [|fuel IH]; intros [|c s]; cbn [sanitize_runes]; [constructor..|].
  constructor; [|apply IH]. destruct (group_char c) eqn:E; cbn [andb]; [by destruct (_ =? 1)%nat|done].
Qed.

(** The group part of any purpose is not empty and has only characters that SQS accepts in a
    message group. *)
Theorem sanitizeMessageGroupPart_chars value :
  sanitizeMessageGroupPart value ≠ "" ∧
  Forall (λ c, group_char c = true) (String.list_ascii_of_string (sanitizeMessageGroupPart value)).
Proof.
  unfold sanitizeMessageGroupPart. case_bool_decide as Hv; [split; [done|];
    cbn [String.list_ascii_of_string]; repeat (constructor; [reflexivity|]); constructor|].
  rewrite String.list_ascii_of_string_of_list_ascii. split; [|apply sanitize_runes_chars].
  destruct (TrimSpace (str value)) as [|c v]; [done|]. done.
Qed.

(** ** The publisher *)

Section guarantees.
Context `{C : SqsClient} `{!SqsLaws C}.
Context (random : Z → option (list Z)) (marshal : NotificationMessage → result string string).
(** [crypto/rand.Read] fills the slice or fails. *)
Hypothesis random_fills : ∀ n bs, random n = Some bs → Z.of_nat (length bs) = n.

Lemma base64_encode_length bs : (length bs ≤ length (base64_encode bs))%nat.
Proof.
  revert bs. fix IH 1. intros [|a [|b [|c bs]]]; [done|cbn; lia|cbn; lia|]. cbn [base64_encode length].
  specialize (IH bs). lia.
Qed.

Lemma dedupe_id_total url : ∃ d, dedupe_id random url = Ret d.
Proof.
  unfold dedupe_id. destruct (is_fifo url); [|eauto]. unfold GetCryptoSafeRandomString, mbind, outcome_bind.
  destruct (random 32) as [bs|] eqn:E; [|eauto]. unfold slice_range. pose proof (base64_encode_length bs).
  apply random_fills in E. rewrite decide_True by lia. eauto.
Qed.

(** Sending returns; what is accepted is delivered unless its identifier is recent. *)
Lemma sendMessage_total s now url body group d :
  ∃ s' r, sendMessage s now url body group d = Ret (s', r) ∧
    sqs_SendMessage s now (send_input url body group d) =
      (s', match r with Ok x => Ok {| sqo_MessageId := Some (sm_MessageId x); sqo_MD5 := Some (sm_MessageBodyMd5 x) |}
                      | Err e => Err e end).
Proof.
  unfold sendMessage. destruct (sqs_SendMessage s now (send_input url body group d)) as [s' [o|e]] eqn:E.
  - destruct (sqs_sent _ _ _ _ _ E) as ((id & md5 & ->) & _). eexists _, _. split; [done|]. done.
  - by eexists _, (Err e).
Qed.

Definition recently (s : sqs_state) (url d : string) (now : Z) : bool :=
  match sqs_accepted s url d with Some t => now - t <? deduplication_interval | None => false end.

Lemma sendMessage_fifo s now url body group d s' x :
  is_fifo url = true → sendMessage s now url body group d = Ret (s', Ok x) →
  sqs_delivered s' url = sqs_delivered s url ++ (if recently s url d now then [] else [(body, Some group)]) ∧
  sqs_accepted s' url d = (if recently s url d now then sqs_accepted s url d else Some now).
Proof.
  intros Hf E. destruct (sendMessage_total s now url body group d) as (s1 & r & E1 & Hs). rewrite E in E1.
  injection E1 as <- <-. apply sqs_sent in Hs as (_ & Hd & Ha).
  cbn [send_input sq_QueueUrl sq_MessageBody sq_MessageGroupId sq_MessageDeduplicationId] in Hd, Ha.
  specialize (Ha d Hf). rewrite Hf in Hd, Ha. unfold recently.
  rewrite bool_decide_eq_true_2 in Ha by done. cbn [andb] in Ha.
  destruct (sqs_accepted s url d) as [t|]; [|by split]. destruct (now - t <? deduplication_interval); by split.
Qed.

Lemma Validate_message m m' : NotificationMessage_Validate m = Ok m' → m = Some m'.
Proof. unfold NotificationMessage_Validate. destruct m as [m|]; [|done]. repeat case_match; congruence. Qed.

(** The queue named by the channel and the priority of a message. *)
Lemma resolveQueueURL_Ok p m url :
  resolveQueueURL p m = Ok url →
  NotificationMessage_Validate (Some m) = Ok m ∧ url = trimmed (queue_of (pub_queues p) m).1 ∧ url ≠ "".
Proof.
  unfold resolveQueueURL. destruct (NotificationMessage_Validate (Some m)) as [m'|] eqn:Ev; [|done].
  apply Validate_message in Ev as Hm. injection Hm as <-. destruct (queue_of (pub_queues p) m) as [u e]. cbn [fst].
  case_decide; [done|]. by intros [= <-].
Qed.

(** The send that [Publish] makes. *)
Definition publish_send p s now url payload m : outcome (sqs_state * result string SendMessageResult) :=
  let group := message_group url m in
  if negb (bool_decide (group = "")) && pub_dedupe p
  then SendMessageWithDedupe s now url payload group (nm_IdempotencyKey m)
  else SendMessage random s now url payload group.

Lemma publish_send_total p s now url payload m : ∃ s' r, publish_send p s now url payload m = Ret (s', r) ∧
  ∃ d, sendMessage s now url payload (message_group url m) d = Ret (s', r).
Proof.
  unfold publish_send. cbv zeta. destruct (_ && _).
  - unfold SendMessageWithDedupe. destruct (sendMessage_total s now url payload (message_group url m) (nm_IdempotencyKey m)) as (s' & r & E & _).
    rewrite E. eexists _, _. split; [done|eauto].
  - unfold SendMessage. destruct (dedupe_id_total url) as [d ->]. unfold mbind, outcome_bind.
    destruct (sendMessage_total s now url payload (message_group url m) d) as (s' & r & E & _). rewrite E. eexists _, _. eauto.
Qed.

End guarantees.

Lemma sendMessage_delivers `{C : SqsClient} `{!SqsLaws C} s now url body group d s' r :
  sendMessage s now url body group d = Ret (s', r) →
  (∀ u, u ≠ url → sqs_delivered s' u = sqs_delivered s u) ∧
  match r with
  | Err _ => sqs_delivered s' url = sqs_delivered s url
  | Ok _ => sqs_delivered s' url = sqs_delivered s url ∨
      sqs_delivered s' url = sqs_delivered s url ++ [(body, if is_fifo url then Some group else None)]
  end.
Proof.
  intros E. destruct (sendMessage_total s now url body group d) as (s1 & r1 & E1 & Hs). rewrite E in E1. injection E1 as <- <-.
  split; [intros u Hu; by eapply sqs_sent_other|]. destruct r as [x|e].
  - apply sqs_sent in Hs as (_ & Hd & _). cbn [send_input sq_QueueUrl sq_MessageBody sq_MessageGroupId] in Hd. rewrite Hd.
    case_match; [by right|left; by rewrite app_nil_r].
  - by apply sqs_failed in Hs.
Qed.

(** [Publish] always returns, and accounts for what it did. With an audit hook it emits one
    event, whose status and error are those it returns. An error means that no queue received
    anything; success means that the message was valid, its payload went to the queue of its
    channel and priority and to no other, and was delivered there unless that queue
    deduplicated it. *)
Theorem Publish_accounts `{C : SqsClient} `{!SqsLaws C} random marshal p s log now msg :
  (∀ n bs, random n = Some bs → Z.of_nat (length bs) = n) →
  ∃ s' log' err, Publish random marshal p s log now msg = Ret (s', log', err) ∧
    (if pub_audit p then ∃ ev, log' = log ++ [ev] ∧ ae_Err ev = err ∧ ae_Success ev = bool_decide (err = None)
     else log' = log) ∧
    match err with
    | Some _ => ∀ url, sqs_delivered s' url = sqs_delivered s url
    | None => ∃ m payload url, msg = Some m ∧ NotificationMessage_Validate msg = Ok m ∧ marshal m = Ok payload ∧
        url = trimmed (queue_of (pub_queues p) m).1 ∧ url ≠ "" ∧
        (∀ u, u ≠ url → sqs_delivered s' u = sqs_delivered s u) ∧
        (sqs_delivered s' url = sqs_delivered s url ∨
         sqs_delivered s' url = sqs_delivered s url ++ [(payload, if is_fifo url then Some (message_group url m) else None)])
    end.
Proof.
  intros Hr. unfold Publish.
  assert (∀ ev err, ae_Err ev = err → ae_Success ev = bool_decide (err = None) →
    if pub_audit p then ∃ ev0, emitAudit p log ev = log ++ [ev0] ∧ ae_Err ev0 = err ∧ ae_Success ev0 = bool_decide (err = None)
    else emitAudit p log ev = log) as Hev.
  { intros ev err He Hs. unfold emitAudit. destruct (pub_audit p); [by exists ev|done]. }
  destruct (NotificationMessage_Validate msg) as [m|e] eqn:Ev; [|eexists _, _, _; split; [done|]; split; [by apply Hev|done]].
  apply Validate_message in Ev as Hm. subst msg.
  destruct (resolveQueueURL p m) as [url|e] eqn:Eu; [|eexists _, _, _; split; [done|]; split; [by apply Hev|done]].
  apply resolveQueueURL_Ok in Eu as (_ & Hurl & Hne).
  destruct (marshal m) as [payload|e] eqn:Em; [|eexists _, _, _; split; [done|]; split; [by apply Hev|done]].
  cbv zeta. fold (publish_send random p s now url payload m).
  destruct (publish_send_total random Hr p s now url payload m) as (s' & r & Es & d & Ed).
  apply sendMessage_delivers in Ed as [Ho Hd]. unfold mbind, outcome_bind. rewrite Es.
  destruct r as [x|e]; eexists _, _, _; (split; [done|]; split; [by apply Hev|]).
  - exists m, payload, url. by repeat (split; [done|]).
  - intros u. destruct (decide (u = url)) as [->|Hu]; [done|by apply Ho].
Qed.

(** Publishing is idempotent on FIFO queues. When a publisher over a deduplicating queue
    publishes a message twice within five minutes, and its idempotency key was not used in the
    five minutes before, both calls succeed and the queue delivers the message once. *)
Theorem Publish_idempotent `{C : SqsClient} `{!SqsLaws C} random marshal p s log t1 t2 m payload url s1 log1 s2 log2 :
  (∀ n bs, random n = Some bs → Z.of_nat (length bs) = n) →
  pub_dedupe p = true → resolveQueueURL p m = Ok url → is_fifo url = true → marshal m = Ok payload →
  recently s url (nm_IdempotencyKey m) t1 = false → t1 <= t2 < t1 + deduplication_interval →
  Publish random marshal p s log t1 (Some m) = Ret (s1, log1, None) →
  Publish random marshal p s1 log1 t2 (Some m) = Ret (s2, log2, None) →
  sqs_delivered s1 url = sqs_delivered s url ++ [(payload, Some (message_group url m))] ∧
  sqs_delivered s2 url = sqs_delivered s1 url.
Proof.
  intros Hr Hdd Hu Hf Hm Hrec Ht E1 E2. destruct (resolveQueueURL_Ok _ _ _ Hu) as (Hv & _ & _).
  assert (negb (bool_decide (message_group url m = "")) && pub_dedupe p = true) as Hg.
  { rewrite Hdd, andb_true_r. apply negb_true_iff, bool_decide_eq_false_2. unfold message_group, is_fifo in *.
    rewrite (TrimSpace_fifo _ Hf). intros Heq. apply (f_equal String.length) in Heq.
    rewrite !string_length_app in Heq. cbn in Heq. lia. }
  assert (∀ s log t s' log', Publish random marshal p s log t (Some m) = Ret (s', log', None) →
    ∃ x, sendMessage s t url payload (message_group url m) (nm_IdempotencyKey m) = Ret (s', Ok x)) as Hpub.
  { clear E1 E2 Hrec. intros s0 log0 t s' log'. unfold Publish. rewrite Hv, Hu, Hm. cbv zeta. rewrite Hg. unfold SendMessageWithDedupe, mbind, outcome_bind.
    destruct (sendMessage s0 t url payload (message_group url m) (nm_IdempotencyKey m)) as [[s3 [x|e]]|w]; [|done|done].
    intros [= <- <-]. by exists x. }
  destruct (Hpub _ _ _ _ _ E1) as [x1 S1]. destruct (Hpub _ _ _ _ _ E2) as [x2 S2].
  destruct (sendMessage_fifo _ _ _ _ _ _ _ _ Hf S1) as [Hd1 Ha1]. destruct (sendMessage_fifo _ _ _ _ _ _ _ _ Hf S2) as [Hd2 _].
  rewrite Hrec in Hd1, Ha1. split; [done|]. unfold recently in Hd2. rewrite Ha1 in Hd2.
  rewrite (proj2 (Z.ltb_lt (t2 - t1) deduplication_interval)) in Hd2 by lia. by rewrite app_nil_r in Hd2.
Qed.

(** Without randomness messages are lost. When the random source fails, [SendMessage] gives
    every message of every FIFO queue the same deduplication identifier, so of two different
    messages sent within five minutes the queue delivers the first, and both calls succeed. *)
Theorem SendMessage_without_random_loses `{C : SqsClient} `{!SqsLaws C} random s t1 t2 url b1 b2 g1 g2 s1 s2 x1 x2 :
  random 32 = None → is_fifo url = true → recently s url "dedup-" t1 = false →
  t1 <= t2 < t1 + deduplication_interval →
  SendMessage random s t1 url b1 g1 = Ret (s1, Ok x1) → SendMessage random s1 t2 url b2 g2 = Ret (s2, Ok x2) →
  sqs_delivered s2 url = sqs_delivered s url ++ [(b1, Some g1)].
Proof.
  intros Hr Hf Hrec Ht. unfold SendMessage, dedupe_id, GetCryptoSafeRandomString, GetRandomString. rewrite Hf, Hr.
  unfold mbind, outcome_bind. cbn [Z.leb Z.compare]. change ("dedup-" +:+ "") with "dedup-". intros S1 S2.
  destruct (sendMessage_fifo _ _ _ _ _ _ _ _ Hf S1) as [Hd1 Ha1]. destruct (sendMessage_fifo _ _ _ _ _ _ _ _ Hf S2) as [Hd2 _].
  rewrite Hrec in Hd1, Ha1. unfold recently in Hd2. rewrite Ha1 in Hd2.
  rewrite (proj2 (Z.ltb_lt (t2 - t1) deduplication_interval)) in Hd2 by lia. rewrite app_nil_r in Hd2. by rewrite Hd2.
Qed.

(** [sns_Publish] does not refuse a message with several targets: a topic and a phone number
    are both sent, and a device endpoint replaces the topic. *)
Theorem sns_targets_not_exclusive client i :
  pb_TopicId i ≠ "" → pb_PhoneNumber i ≠ "" →
  sn_PhoneNumber (sns_input i) = Some (pb_PhoneNumber i) ∧
  sn_TargetArn (sns_input i) = Some (if IsEmpty (pb_DeviceEndpointId i) then pb_TopicId i else pb_DeviceEndpointId i) ∧
  ∀ id, client (sns_input i) = Ok (Some id) → sns_Publish client i = Ret (Ok id).
Proof.
  intros Ht Hp. unfold sns_Publish. split; [|split; [|by intros id ->]];
    cbn [sns_input sn_PhoneNumber sn_TargetArn]; unfold unless_empty, IsEmpty; [by rewrite bool_decide_eq_false_2|].
  rewrite (bool_decide_eq_false_2 _ Ht). by case_bool_decide.
Qed.

(** ** A queue service in memory: the laws hold of it *)

Module MemorySqs.
Record state : Type := {
  delivered : string → list (string * option string);
  accepted : string → string → option Z;
}.

Definition fresh (s : state) (now : Z) (i : sqs_send_input) : bool :=
  match sq_MessageDeduplicationId i with
  | Some d => if is_fifo (sq_QueueUrl i) then match accepted s (sq_QueueUrl i) d with
                                              | Some t => negb (now - t <? deduplication_interval)
                                              | None => true
                                              end
              else true
  | None => true
  end.

Definition send (s : state) (now : Z) (i : sqs_send_input) : state * result string sqs_send_output :=
  let f := fresh s now i in
  ({| delivered url := if decide (url = sq_QueueUrl i)
                       then delivered s url ++ (if f then [(sq_MessageBody i, sq_MessageGroupId i)] else [])
                       else delivered s url;
      accepted url d := if decide (url = sq_QueueUrl i)
                        then if bool_decide (sq_MessageDeduplicationId i = Some d) && f then Some now else accepted s url d
                        else accepted s url d |},
   Ok {| sqo_MessageId := Some "id"; sqo_MD5 := Some "md5" |}).

#[export] Instance client : SqsClient := {|
  sqs_state := state; sqs_SendMessage := send;
  sqs_ReceiveMessage s _ _ _ := (s, Ok []); sqs_DeleteMessage s _ _ := (s, Ok ());
  sqs_ChangeVisibility s _ _ _ := (s, Ok ()); sqs_GetQueueAttributes _ _ := Ok ∅ |}.

#[export] Instance laws : SqsLaws client.
Proof.
  unshelve refine {| sqs_delivered := delivered : sqs_state → _; sqs_accepted := accepted : sqs_state → _ |}.
  - intros s now i s' o. cbn. unfold send. intros [= <- <-]. split; [by eexists _, _|]. cbn [delivered accepted].
    split; [by rewrite decide_True|]. intros d _. by rewrite decide_True.
  - intros s now i s' r url. cbn. unfold send. intros [= <- <-] Hne. cbn. by rewrite decide_False.
  - intros s now i s' e. done.
Defined.

Definition empty : state := {| delivered _ := []; accepted _ _ := None |}.
End MemorySqs.
#[local] Existing Instances MemorySqs.client MemorySqs.laws.

Module PublisherDemo.
Definition queues : QueueConfig :=
  {| EmailHighPriorityURL := " https://sqs/mail.fifo "; EmailLowPriorityURL := ""; SMSHighPriorityURL := "";
     SMSLowPriorityURL := "" |}.
Definition publisher : Publisher := {| pub_queues := queues; pub_dedupe := true; pub_audit := true |}.
Definition message : NotificationMessage :=
  {| nm_MessageID := "m1"; nm_IdempotencyKey := "k1"; nm_Priority := PriorityHigh; nm_Channel := ChannelEmail;
     nm_Purpose := "order ready"; nm_ProviderHint := ""; nm_Recipient := {| rc_Email := "a@b.c"; rc_PhoneE164 := "" |};
     nm_Scope := {| sc_AppScope := ""; sc_ClientID := ""; sc_RestaurantID := ""; sc_LocationID := ""; sc_Locale := "" |};
     nm_Template := {| tr_Mode := "resolve"; tr_Channel := ""; tr_Purpose := ""; tr_SubjectTemplate := "";
                       tr_TextTemplate := ""; tr_HTMLTemplate := ""; tr_FromAddress := ""; tr_ReplyToAddresses := [];
                       tr_SenderName := "" |};
     nm_Variables := ∅; nm_Metadata := ∅; nm_SourceService := "" |}.
Definition marshal (m : NotificationMessage) : result string string := Ok (nm_MessageID m).
Definition no_random (n : Z) : option (list Z) := None.
Definition sent (s : MemorySqs.state) (now : Z) : MemorySqs.state :=
  (MemorySqs.send s now (send_input "https://sqs/mail.fifo" "m1" "email-high-order-ready" "k1")).1.
Definition event : PublishAuditEvent := auditEvent message "https://sqs/mail.fifo" true "id" None.

Lemma publish s log now :
  Publish (H := MemorySqs.client) no_random marshal publisher s log now (Some message) = Ret (sent s now, log ++ [event], None).
Proof.
  unfold Publish. assert (NotificationMessage_Validate (Some message) = Ok message) as -> by (by vm_compute).
  assert (resolveQueueURL publisher message = Ok "https://sqs/mail.fifo") as -> by (by vm_compute).
  cbn [marshal]. cbv zeta. assert (message_group "https://sqs/mail.fifo" message = "email-high-order-ready") as -> by (by vm_compute).
  reflexivity.
Qed.
End PublisherDemo.

Lemma Publish_accounts_witness :
  ∃ s' log' err, Publish PublisherDemo.no_random PublisherDemo.marshal PublisherDemo.publisher
      (MemorySqs.empty : sqs_state) [] 0 (Some PublisherDemo.message) = Ret (s', log', err) ∧
    ∃ ev, log' = [] ++ [ev] ∧ ae_Err ev = err ∧ ae_Success ev = bool_decide (err = None).
Proof.
  destruct (Publish_accounts (C := MemorySqs.client) PublisherDemo.no_random PublisherDemo.marshal PublisherDemo.publisher
    MemorySqs.empty [] 0 (Some PublisherDemo.message)) as (s' & log' & err & E & Hev & _); [done|].
  exists s', log', err. split; [exact E|exact Hev].
Defined.

(** Published twice, ten seconds apart: delivered once. *)
Lemma Publish_idempotent_witness :
  let s1 := PublisherDemo.sent MemorySqs.empty 0 in
  let s2 := PublisherDemo.sent s1 10000000000 in
  MemorySqs.delivered s2 "https://sqs/mail.fifo" = [("m1", Some "email-high-order-ready")].
Proof.
  intros s1 s2.
  destruct (Publish_idempotent (C := MemorySqs.client) PublisherDemo.no_random PublisherDemo.marshal PublisherDemo.publisher
    MemorySqs.empty [] 0 10000000000 PublisherDemo.message "m1" "https://sqs/mail.fifo" s1 [PublisherDemo.event]
    s2 ([PublisherDemo.event] ++ [PublisherDemo.event])) as [H1 H2];
    [done|done|by vm_compute|by vm_compute|done|done|unfold deduplication_interval; lia|apply PublisherDemo.publish..|].
  etrans; [exact H2|]. etrans; [exact H1|]. by vm_compute.
Defined.

Lemma SendMessage_without_random_loses_witness :
  ∃ s1 s2 : MemorySqs.state,
    SendMessage (H := MemorySqs.client) PublisherDemo.no_random MemorySqs.empty 0 "q.fifo" "first" "g" = Ret (s1, Ok {| sm_MessageId := "id"; sm_MessageBodyMd5 := "md5" |}) ∧
    SendMessage (H := MemorySqs.client) PublisherDemo.no_random s1 1 "q.fifo" "second" "g" = Ret (s2, Ok {| sm_MessageId := "id"; sm_MessageBodyMd5 := "md5" |}) ∧
    MemorySqs.delivered s2 "q.fifo" = [("first", Some "g")].
Proof.
  set (s1 := (MemorySqs.send MemorySqs.empty 0 (send_input "q.fifo" "first" "g" "dedup-")).1).
  set (s2 := (MemorySqs.send s1 1 (send_input "q.fifo" "second" "g" "dedup-")).1). exists s1, s2.
  assert (SendMessage (H := MemorySqs.client) PublisherDemo.no_random MemorySqs.empty 0 "q.fifo" "first" "g" = Ret (s1, Ok {| sm_MessageId := "id"; sm_MessageBodyMd5 := "md5" |})) as E1 by reflexivity.
  assert (SendMessage (H := MemorySqs.client) PublisherDemo.no_random s1 1 "q.fifo" "second" "g" = Ret (s2, Ok {| sm_MessageId := "id"; sm_MessageBodyMd5 := "md5" |})) as E2 by reflexivity.
  split; [exact E1|]. split; [exact E2|].
  pose proof (SendMessage_without_random_loses (C := MemorySqs.client) PublisherDemo.no_random MemorySqs.empty 0 1 "q.fifo"
    "first" "second" "g" "g" s1 s2 {| sm_MessageId := "id"; sm_MessageBodyMd5 := "md5" |} {| sm_MessageId := "id"; sm_MessageBodyMd5 := "md5" |} eq_refl) as H.
  exact (H eq_refl eq_refl ltac:(unfold deduplication_interval; lia) E1 E2).
Defined.

Lemma sns_targets_not_exclusive_witness :
  let i := {| pb_Message := "hi"; pb_TopicId := "arn:topic"; pb_MessageGroupId := ""; pb_MessageDedupeId := "";
              pb_MessageAttributes := ∅; pb_DeviceEndpointId := ""; pb_PhoneNumber := "+491"; pb_Subject := "" |} in
  sns_Publish (λ _, Ok (Some "id")) i = Ret (Ok "id").
Proof. intros i. apply (sns_targets_not_exclusive (λ _, Ok (Some "id")) i); done. Defined.
