(* ===== verification/Discovery.v ===== *)
(** * Service discovery ([src/coordination/network/discovery])

    The Consul implementation: registration with its heartbeat goroutine, deregistration,
    discovery and watching, and the options of the package. The Consul agent is an interface
    ([ConsulClient]) whose laws ([ConsulLaws]) are its documented behaviour: a TTL check starts
    critical and passes while its last update is younger than its TTL, and a health query for
    passing services returns those. Time is in nanoseconds. *)

From Stdlib Require Import ZArith Lia.
From stdpp Require Import base numbers strings gmap list relations.
From S2P Require Import Prelude GoValue.
Local Open Scope Z_scope.

(** ** Options *)

Definition ProviderConsul : string := "consul".

Record DiscoveryTLSConfig : Type := {
  tls_CAFile : string; tls_CertFile : string; tls_KeyFile : string;
  tls_InsecureSkipVerify : bool; tls_AllowInsecureTLS : bool;
}.

Record DiscoveryOptions : Type := {
  do_Provider : string;
  do_Address : string;
  do_Token : string;
  do_Scheme : string;
  do_Datacenter : string;
  do_HTTPClient : bool;   (* not nil *)
  do_TLSConfig : option DiscoveryTLSConfig;
  do_WaitTime : Z;
  do_Logger : bool;
}.

Definition Discovery_Validate (o : DiscoveryOptions) : result string unit :=
  if decide (do_Provider o = "") then Err "provider type is required"
  else if decide (do_Address o = "") then Err "address is required"
  else if negb (do_Logger o) then Err "logger is required"
  else match do_TLSConfig o with
       | Some t => if tls_InsecureSkipVerify t && negb (tls_AllowInsecureTLS t)
                   then Err "insecure TLS verification requires AllowInsecureTLS" else Ok ()
       | None => Ok ()
       end.

(** Of [api.Config], what the package sets. *)
Record consul_config : Type := {
  cc_Address : string; cc_Scheme : string; cc_Token : string; cc_Datacenter : string; cc_HttpClient : bool;
  cc_TLS : option (string * string * string * bool); cc_WaitTime : Z;
}.

Definition or_else (s d : string) : string := if decide (s = "") then d else s.

(** [populateConsulConfig] over the default configuration of the library. *)
Definition populateConsulConfig (d : consul_config) (o : DiscoveryOptions) : consul_config :=
  {| cc_Address := or_else (do_Address o) (cc_Address d); cc_Scheme := or_else (do_Scheme o) (cc_Scheme d);
     cc_Token := or_else (do_Token o) (cc_Token d); cc_Datacenter := or_else (do_Datacenter o) (cc_Datacenter d);
     cc_HttpClient := do_HTTPClient o || cc_HttpClient d;
     cc_TLS := match do_TLSConfig o with
               | Some t => Some (tls_CAFile t, tls_CertFile t, tls_KeyFile t, tls_InsecureSkipVerify t)
               | None => cc_TLS d
               end;
     cc_WaitTime := if do_WaitTime o =? 0 then cc_WaitTime d else do_WaitTime o |}.

(** [NewConsulDiscovery] and [New]; [client] is [api.NewClient]. *)
Definition NewConsulDiscovery (client : consul_config → result string unit) (d : consul_config) (o : DiscoveryOptions)
  : result string consul_config :=
  match client (populateConsulConfig d o) with
  | Err e => Err ("failed to create consul client: " +:+ e)
  | Ok _ => Ok (populateConsulConfig d o)
  end.

Definition Discovery_New (client : consul_config → result string unit) (d : consul_config) (o : DiscoveryOptions)
  : result string consul_config :=
  match Discovery_Validate o with
  | Err e => Err e
  | Ok _ =>
      if decide (do_Provider o = ProviderConsul) then NewConsulDiscovery client d o
      else Err ("unsupported discovery provider: " +:+ do_Provider o)
  end.

(** ** The Consul client *)

Definition second : Z := 1000000000.
Definition DefaultHealthCheckTTL : Z := 5 * second.
Definition DefaultTTLUpdateInterval : Z := 5 * second.
Definition DefaultDeregisterCriticalAfter : Z := 300 * second.
Definition watchIterationSleepTime : Z := second.
Definition watchBlockingWaitTime : Z := 300 * second.

Record ServiceInstance : Type := {
  si_ID : string;
  si_Name : string;
  si_Address : string;
  si_Port : Z;
  si_Tags : list string;
  si_Metadata : gmap string string;
}.

(** A registration: the instance, its TTL and the time after which it is dropped. *)
Record registration : Type := { reg_instance : ServiceInstance; reg_TTL : Z; reg_Drop : Z }.

Class ConsulClient := {
  consul_state : Type;
  (* the error, if any *)
  agent_ServiceRegister : consul_state → Z → registration → consul_state * option string;
  agent_ServiceDeregister : consul_state → string → consul_state * option string;
  agent_UpdateTTL : consul_state → Z → string → consul_state * option string;
  (* the passing entries of a service (the service of an entry may be nil) and the index *)
  health_Service : consul_state → Z → string → Z → result string (list (option ServiceInstance) * option Z);
}.

Class ConsulLaws (C : ConsulClient) := {
  (* what is registered under an identifier, and when its check last passed *)
  registered : consul_state → string → option (registration * option Z);
  register_ok s now r s' : agent_ServiceRegister s now r = (s', None) →
    ∀ id, registered s' id = if decide (id = si_ID (reg_instance r)) then Some (r, None) else registered s id;
  register_failed s now r s' e : agent_ServiceRegister s now r = (s', Some e) → ∀ id, registered s' id = registered s id;
  deregister_ok s x s' : agent_ServiceDeregister s x = (s', None) →
    ∀ id, registered s' id = if decide (id = x) then None else registered s id;
  deregister_failed s x s' e : agent_ServiceDeregister s x = (s', Some e) → ∀ id, registered s' id = registered s id;
  update_ok s now x s' : agent_UpdateTTL s now ("service:" +:+ x) = (s', None) →
    ∃ r t, registered s x = Some (r, t) ∧
      ∀ id, registered s' id = if decide (id = x) then Some (r, Some now) else registered s id;
  update_failed s now x s' e : agent_UpdateTTL s now ("service:" +:+ x) = (s', Some e) → ∀ id, registered s' id = registered s id;
  (* a health query for passing services *)
  health_passing s now name w entries index : health_Service s now name w = Ok (entries, index) →
    ∀ i, Some i ∈ entries ↔ ∃ r t, registered s (si_ID i) = Some (r, Some t) ∧ reg_instance r = i ∧ si_Name i = name ∧
      now - t < reg_TTL r;
}.

Section discovery.
Context `{ConsulClient}.

(** ** Registration *)

Definition registration_of (i : ServiceInstance) : registration :=
  {| reg_instance := i; reg_TTL := DefaultHealthCheckTTL; reg_Drop := DefaultDeregisterCriticalAfter |}.

(** The heartbeat goroutine of a registration: its instance, its context, the time of its next
    tick, whether it has returned. *)
Record heartbeat : Type := { hb_instance : ServiceInstance; hb_ctx : nat; hb_next : Z; hb_returned : bool }.

Record dstate : Type := {
  consul : consul_state;
  now : Z;
  beats : list heartbeat;
  d_cancelled : gset nat;
}.

Definition with_consul (s : dstate) (c : consul_state) : dstate :=
  {| consul := c; now := now s; beats := beats s; d_cancelled := d_cancelled s |}.
Definition with_beats (s : dstate) (b : list heartbeat) : dstate :=
  {| consul := consul s; now := now s; beats := b; d_cancelled := d_cancelled s |}.

Definition Register (s : dstate) (ctx : nat) (instance : option ServiceInstance) : dstate * result string unit :=
  match instance with
  | None => (s, Err "service instance cannot be nil")
  | Some i =>
      if decide (si_ID i = "" ∨ si_Name i = "") then (s, Err "service ID and Name are required")
      else
        match agent_ServiceRegister (consul s) (now s) (registration_of i) with
        | (c, Some e) => (with_consul s c, Err ("failed to register service: " +:+ e))
        | (c, None) =>
            let b := {| hb_instance := i; hb_ctx := ctx; hb_next := now s + DefaultTTLUpdateInterval; hb_returned := false |} in
            (with_beats (with_consul s c) (beats s ++ [b]), Ok ())
        end
  end.

(** [Deregister]: the request is made in a goroutine; [in_time] says whether its answer comes
    before the context ends (the request goes on either way). *)
Definition Deregister (s : dstate) (in_time : bool) (id : string) : dstate * result string unit :=
  if decide (id = "") then (s, Err "service instance ID cannot be empty")
  else
    let '(c, r) := agent_ServiceDeregister (consul s) id in
    (with_consul s c,
     if in_time then match r with
                     | None => Ok ()
                     | Some e => Err ("failed to deregister service " +:+ id +:+ ": " +:+ e)
                     end
     else Err ("failed to deregister service " +:+ id +:+ ": context deadline exceeded")).

(** A tick of a heartbeat: errors are logged. *)
Definition beat (s : dstate) (n : nat) (b : heartbeat) : dstate :=
  let '(c, _) := agent_UpdateTTL (consul s) (now s) ("service:" +:+ si_ID (hb_instance b)) in
  with_beats (with_consul s c)
    (<[n := {| hb_instance := hb_instance b; hb_ctx := hb_ctx b; hb_next := hb_next b + DefaultTTLUpdateInterval;
               hb_returned := false |}]> (beats s)).

(** The end of its context: deregister and return. *)
Definition beat_end (s : dstate) (in_time : bool) (n : nat) (b : heartbeat) : dstate :=
  let s' := (Deregister s in_time (si_ID (hb_instance b))).1 in
  with_beats s' (<[n := {| hb_instance := hb_instance b; hb_ctx := hb_ctx b; hb_next := hb_next b; hb_returned := true |}]> (beats s')).

(** Steps: calls, the passing of time, contexts that end, ticks and ends of heartbeats. A tick
    is handled at its time or later. *)
Inductive d_step : dstate → dstate → Prop :=
  | d_register s ctx i : d_step s (Register s ctx i).1
  | d_deregister s in_time id : d_step s (Deregister s in_time id).1
  | d_time s t : 0 <= t →
      d_step s {| consul := consul s; now := now s + t; beats := beats s; d_cancelled := d_cancelled s |}
  | d_cancel s c : d_step s {| consul := consul s; now := now s; beats := beats s; d_cancelled := {[ c ]} ∪ d_cancelled s |}
  | d_beat s n b : beats s !! n = Some b → hb_returned b = false → hb_next b <= now s → d_step s (beat s n b)
  | d_end s in_time n b : beats s !! n = Some b → hb_returned b = false → hb_ctx b ∈ d_cancelled s →
      d_step s (beat_end s in_time n b).

(** ** Discovery *)

Fixpoint instances (entries : list (option ServiceInstance)) : outcome (list ServiceInstance) :=
  match entries with
  | [] => Ret []
  | None :: _ => Panic nil_dereference
  | Some i :: entries => rest ← instances entries; Ret (i :: rest)
  end.

Definition Discover (s : dstate) (name : string) : outcome (result string (list ServiceInstance)) :=
  if decide (name = "") then Ret (Err "service name cannot be empty")
  else match health_Service (consul s) (now s) name 0 with
       | Err e => Ret (Err ("failed to discover service " +:+ name +:+ ": " +:+ e))
       | Ok (entries, _) => l ← instances entries; Ret (Ok l)
       end.

End discovery.

(** ** Watching *)

(** An answer to the blocking query of [Watch]: an error, or entries and an index (the
    metadata may be nil). *)
Abbreviation watch_answer := (result string (list (option ServiceInstance) * option Z)).

(** Entries whose service is nil are skipped. *)
Definition watch_instances (entries : list (option ServiceInstance)) : list ServiceInstance := omap id entries.

(** A round of the loop: the last index, the calls of [onChange] so far (a panic of the
    callback is recovered, so a call counts whether it panics or not), the sleeps. *)
Record watch_state : Type := { lastIndex : Z; changes_seen : list (list ServiceInstance); sleeps : nat }.

Definition watch_round (w : watch_state) (a : watch_answer) : watch_state :=
  match a with
  | Err _ => {| lastIndex := lastIndex w; changes_seen := changes_seen w; sleeps := S (sleeps w) |}
  | Ok (entries, meta) =>
      match meta with
      | None => w
      | Some index =>
          if index =? lastIndex w then w
          else {| lastIndex := index; changes_seen := changes_seen w ++ [watch_instances entries]; sleeps := sleeps w |}
      end
  end.

Definition watch_run (answers : list watch_answer) : watch_state :=
  fold_left watch_round answers {| lastIndex := 0; changes_seen := []; sleeps := 0 |}.

(** The checks of [Watch] before it starts the loop. *)
Definition Discovery_Watch (serviceName : string) (onChange : bool) : result string unit :=
  if decide (serviceName = "") then Err "service name cannot be empty"
  else if negb onChange then Err "onChange callback must be provided"
  else Ok ().

Definition watchWaitTime (configured : option Z) : Z :=
  match configured with Some t => if 0 <? t then t else watchBlockingWaitTime | None => watchBlockingWaitTime end.
Definition watchSleepTime (configured : option Z) : Z :=
  match configured with Some t => if 0 <? t then t else watchIterationSleepTime | None => watchIterationSleepTime end.

(** ** What the callbacks of a watch see *)

(** The entries at the changes of the index. *)
Fixpoint index_changes (last : Z) (answers : list watch_answer) : list (list ServiceInstance) :=
  match answers with
  | [] => []
  | Ok (entries, Some index) :: rest =>
      if decide (index = last) then index_changes last rest else watch_instances entries :: index_changes index rest
  | _ :: rest => index_changes last rest
  end.

Definition no_index (a : watch_answer) : Prop :=
  match a with Ok (_, Some _) => False | _ => True end.

Lemma watch_fold answers w :
  changes_seen (fold_left watch_round answers w) = changes_seen w ++ index_changes (lastIndex w) answers.
Proof.
  revert w. induction answers as [|a rest IH]; intros w; [cbn; by rewrite app_nil_r|]. cbn [fold_left]. rewrite IH.
  destruct a as [[entries [index|]]|e]; cbn [watch_round index_changes]; [|done|done].
  destruct (Z.eqb_spec index (lastIndex w)) as [->|Hne]; [by rewrite decide_True|].
  rewrite decide_False by done. cbn [changes_seen lastIndex]. by rewrite <-app_assoc.
Qed.

Lemma watch_fold_quiet post w : Forall no_index post → 
  changes_seen (fold_left watch_round post w) = changes_seen w ∧ lastIndex (fold_left watch_round post w) = lastIndex w.
Proof.
  revert w. induction post as [|a post IH]; intros w Hp; [done|]. apply Forall_cons in Hp as [Ha Hp]. cbn [fold_left].
  destruct a as [[entries [index|]]|e]; [done| |]; destruct (IH (watch_round w a) Hp) as [H1 H2] || idtac; cbn [watch_round].
  - by apply IH.
  - destruct (IH {| lastIndex := lastIndex w; changes_seen := changes_seen w; sleeps := S (sleeps w) |} Hp) as [-> ->]. done.
Qed.

(** A watch is up to date. When Consul answers equal indices with equal entries and no index
    is zero, then after any answers, errors and answers without metadata among them, the last
    call of [onChange] had the instances of the last answer with an index, and the calls are
    exactly the answers at which the index changed. *)
Theorem Watch_current answers pre post entries index :
  (∀ e i, Ok (e, Some i) ∈ answers → i ≠ 0) →
  (∀ e1 e2 i, Ok (e1, Some i) ∈ answers → Ok (e2, Some i) ∈ answers → e1 = e2) →
  answers = pre ++ Ok (entries, Some index) :: post → Forall no_index post →
  changes_seen (watch_run answers) = index_changes 0 answers ∧
  last (changes_seen (watch_run answers)) = Some (watch_instances entries).
Proof.
  intros Hz Hsame -> Hpost. split; [apply watch_fold|].
  assert (∀ l w, (∀ a, a ∈ l → a ∈ pre ++ Ok (entries, Some index) :: post) →
    (lastIndex w = 0 ∧ changes_seen w = [] ∨
     ∃ e, Ok (e, Some (lastIndex w)) ∈ pre ++ Ok (entries, Some index) :: post ∧ last (changes_seen w) = Some (watch_instances e)) →
    let w' := fold_left watch_round l w in
    lastIndex w' = 0 ∧ changes_seen w' = [] ∨
    ∃ e, Ok (e, Some (lastIndex w')) ∈ pre ++ Ok (entries, Some index) :: post ∧ last (changes_seen w') = Some (watch_instances e)) as Hinv.
  { induction l as [|a l IH]; intros w Hin Hw; [done|]. cbn [fold_left]. apply IH; [intros x Hx; apply Hin; set_solver|].
    assert (a ∈ pre ++ Ok (entries, Some index) :: post) as Ha by (apply Hin; set_solver).
    destruct a as [[e [i|]]|er]; cbn [watch_round]; [|done|done].
    destruct (Z.eqb_spec i (lastIndex w)) as [->|Hne]; [done|]. right. exists e. cbn [lastIndex changes_seen].
    split; [done|]. apply last_snoc. }
  unfold watch_run. rewrite fold_left_app. cbn [fold_left]. set (w := fold_left watch_round pre _).
  destruct (watch_fold_quiet post (watch_round w (Ok (entries, Some index))) Hpost) as [-> _].
  assert (lastIndex w = 0 ∧ changes_seen w = [] ∨
    ∃ e, Ok (e, Some (lastIndex w)) ∈ pre ++ Ok (entries, Some index) :: post ∧ last (changes_seen w) = Some (watch_instances e)) as Hw.
  { apply Hinv; [intros a Ha; set_solver|]. by left. }
  cbn [watch_round]. destruct (Z.eqb_spec index (lastIndex w)) as [Heq|Hne]; [|cbn; apply last_snoc].
  destruct Hw as [[H0 _]|(e & He & Hl)].
  - exfalso. apply (Hz entries index); [set_solver|]. congruence.
  - rewrite Hl, <-Heq in *. do 2 f_equal. apply (Hsame e entries index); [done|set_solver].
Qed.

(** ** Heartbeats and the registry *)

Section health.
Context `{C : ConsulClient} `{!ConsulLaws C}.

Lemma instances_Ret entries l : instances entries = Ret l → ∀ i, i ∈ l ↔ Some i ∈ entries.
Proof.
  revert l. induction entries as [|[x|] entries IH]; intros l; [intros [= <-]; set_solver| |done].
  cbn [instances]. unfold mbind, outcome_bind. destruct (instances entries) as [r|]; [|done]. intros [= <-] i.
  rewrite !elem_of_cons. rewrite (IH r eq_refl i). split; intros [?|?]; auto; left; congruence.
Qed.

(** Discovery returns the instances whose check passes at that time. *)
Lemma Discover_passing s name l : Discover s name = Ret (Ok l) →
  ∀ i, i ∈ l ↔ ∃ r t, registered (consul s) (si_ID i) = Some (r, Some t) ∧ reg_instance r = i ∧ si_Name i = name ∧
    now s - t < reg_TTL r.
Proof.
  unfold Discover. case_decide; [done|]. destruct (health_Service (consul s) (now s) name 0) as [[entries index]|e] eqn:E; [|done].
  unfold mbind, outcome_bind. destruct (instances entries) as [x|] eqn:Ei; [|done]. intros [= <-] i.
  rewrite (instances_Ret _ _ Ei i). by eapply health_passing.
Qed.

Lemma Deregister_registered s in_time x id :
  registered (consul (Deregister s in_time x).1) id = registered (consul s) id ∨
  registered (consul (Deregister s in_time x).1) id = None.
Proof.
  unfold Deregister. case_decide; [by left|]. destruct (agent_ServiceDeregister (consul s) x) as [c [e|]] eqn:E; cbn.
  - left. by eapply deregister_failed.
  - rewrite (deregister_ok _ _ _ E id). case_decide; [by right|by left].
Qed.

Lemma Deregister_frame s in_time x : now (Deregister s in_time x).1 = now s ∧ beats (Deregister s in_time x).1 = beats s ∧
  d_cancelled (Deregister s in_time x).1 = d_cancelled s.
Proof. unfold Deregister. case_decide; [done|]. by destruct (agent_ServiceDeregister (consul s) x). Qed.

Lemma elem_of_insert_or {A} (x y : A) (n : nat) (l : list A) : x ∈ <[n := y]> l → x = y ∨ x ∈ l.
Proof.
  intros [i Hi]%list_elem_of_lookup. destruct (decide (i = n)) as [->|Hne].
  - apply list_lookup_insert_Some in Hi as [(_ & <- & _)|(? & ?)]; [by left|done].
  - rewrite list_lookup_insert_ne in Hi by done. right. by eapply list_elem_of_lookup_2.
Qed.

(** No heartbeat of [id] is due before [until]; before it the check of [id] has not passed. *)
Definition silent (id : string) (until : Z) (s : dstate) : Prop :=
  (∀ b, b ∈ beats s → si_ID (hb_instance b) = id → until <= hb_next b) ∧
  (now s < until → ∀ r p, registered (consul s) id = Some (r, p) → p = None) ∧
  until <= now s + DefaultTTLUpdateInterval.

Lemma silent_step id until s s' : silent id until s → d_step s s' → silent id until s'.
Proof.
  intros (Hb & Hr & Hu) Hs.
  destruct Hs as [s ctx i|s in_time x|s t Ht|s c|s n b En Hret Hdue|s in_time n b En Hret Hc].
  - unfold Register. destruct i as [i|]; [|by repeat split]. case_decide; [by repeat split|].
    destruct (agent_ServiceRegister (consul s) (now s) (registration_of i)) as [c [e|]] eqn:E.
    + split; [done|]. split; [|done]. cbn. intros Hn r p. rewrite (register_failed _ _ _ _ _ E). by apply Hr.
    + split; [|split; [|done]]; cbn.
      * intros b [Hin|Hin]%elem_of_app Hid; [by apply Hb|]. apply list_elem_of_singleton in Hin as ->. cbn. lia.
      * intros Hn r p. rewrite (register_ok _ _ _ _ E id). case_decide; [congruence|by apply Hr].
  - destruct (Deregister_frame s in_time x) as (En & Ebt & _). split; [by rewrite Ebt|]. rewrite En. split; [|done].
    intros Hn r p E. destruct (Deregister_registered s in_time x id) as [H|H]; [|congruence]. rewrite H in E. by eapply Hr.
  - split; [done|]. cbn. split; [|lia]. intros Hn. apply Hr. lia.
  - split; [done|]. split; [done|]. done.
  - unfold beat. destruct (agent_UpdateTTL (consul s) (now s) ("service:" +:+ si_ID (hb_instance b))) as [c [e|]] eqn:E; cbn.
    + split; [|split; [|done]]; cbn.
      * intros x Hx Hid. apply elem_of_insert_or in Hx as [->|Hx]; [|by apply Hb]. cbn in *.
        assert (until <= hb_next b) by (apply Hb; [by eapply list_elem_of_lookup_2|done]). unfold DefaultTTLUpdateInterval, second. lia.
      * intros Hn r p. rewrite (update_failed _ _ _ _ _ E). by apply Hr.
    + destruct (update_ok _ _ _ _ E) as (r0 & t0 & Er0 & Hupd). split; [|split; [|done]]; cbn.
      * intros x Hx Hid. apply elem_of_insert_or in Hx as [->|Hx]; [|by apply Hb]. cbn in *.
        assert (until <= hb_next b) by (apply Hb; [by eapply list_elem_of_lookup_2|done]). unfold DefaultTTLUpdateInterval, second. lia.
      * intros Hn r p. rewrite Hupd. case_decide as Hid; [|by apply Hr]. subst id. exfalso.
        assert (until <= hb_next b) by (apply Hb; [by eapply list_elem_of_lookup_2|done]). lia.
  - unfold beat_end. cbv zeta. destruct (Deregister_frame s in_time (si_ID (hb_instance b))) as (Enow & Ebt & _).
    split; [|split]; cbn.
    + intros x Hx Hid. rewrite Ebt in Hx. apply elem_of_insert_or in Hx as [->|Hx]; [|by apply Hb]. cbn in *.
      apply Hb; [by eapply list_elem_of_lookup_2|done].
    + rewrite Enow. intros Hn r p E. destruct (Deregister_registered s in_time (si_ID (hb_instance b)) id) as [H|H]; [|congruence].
      rewrite H in E. by eapply Hr.
    + by rewrite Enow.
Qed.

Lemma silent_run id until s s' : silent id until s → rtc d_step s s' → silent id until s'.
Proof. intros H Hr. induction Hr; [done|]. eauto using silent_step. Qed.

End health.

(** A new registration is invisible for five seconds. [Register] returns at once, but the
    check of the service starts critical and its goroutine updates it first when its ticker
    fires: whatever happens meanwhile, no discovery in the first five seconds returns the
    service, when no other heartbeat serves its identifier. *)
Theorem Register_hidden_until_first_beat `{C : ConsulClient} `{!ConsulLaws C} s ctx i s1 s2 name l :
  (∀ b, b ∈ beats s → si_ID (hb_instance b) ≠ si_ID i) →
  Register s ctx (Some i) = (s1, Ok ()) → rtc d_step s1 s2 →
  now s2 < now s + DefaultTTLUpdateInterval → Discover s2 name = Ret (Ok l) →
  ∀ j, si_ID j = si_ID i → j ∉ l.
Proof.
  intros Hfresh E Hrun Hnow Hd j Hj Hin.
  assert (silent (si_ID i) (now s + DefaultTTLUpdateInterval) s1) as H1.
  { unfold Register in E. case_decide; [done|].
    destruct (agent_ServiceRegister (consul s) (now s) (registration_of i)) as [c [e|]] eqn:Er; [done|].
    injection E as <-. split; [|split; [|cbn; lia]]; cbn.
    - intros b [Hb|Hb]%elem_of_app Hid; [by destruct (Hfresh b Hb)|]. apply list_elem_of_singleton in Hb as ->. cbn. lia.
    - intros _ r p. rewrite (register_ok _ _ _ _ Er). rewrite decide_True by done. congruence. }
  destruct (silent_run _ _ _ _ H1 Hrun) as (_ & Hr & _).
  apply (Discover_passing _ _ _ Hd) in Hin as (r & t & Er & _). rewrite Hj in Er. by apply Hr in Er.
Qed.

(** A heartbeat that is as late as the one before comes too late. The interval of the ticker
    equals the TTL of the check: when a tick was handled [d] after it was due and the next one
    is about to be handled at least [d] after it is due, the check has expired in between, and
    a discovery at that moment does not return the service. *)
Theorem heartbeat_interval_too_long `{C : ConsulClient} `{!ConsulLaws C} s n b r t d name l :
  beats s !! n = Some b → registered (consul s) (si_ID (hb_instance b)) = Some (r, Some t) →
  reg_TTL r = DefaultHealthCheckTTL → t = hb_next b - DefaultTTLUpdateInterval + d → hb_next b + d <= now s →
  Discover s name = Ret (Ok l) → ∀ j, si_ID j = si_ID (hb_instance b) → j ∉ l.
Proof.
  intros En Er Httl Ht Hnow Hd j Hj Hin. apply (Discover_passing _ _ _ Hd) in Hin as (r' & t' & Er' & _ & _ & Hlt).
  rewrite Hj, Er in Er'. injection Er' as <- <-. rewrite Httl in Hlt.
  unfold DefaultHealthCheckTTL, DefaultTTLUpdateInterval in *. lia.
Qed.

Lemma unregistered_beat `{C : ConsulClient} `{!ConsulLaws C} s n b id :
  registered (consul s) id = None → registered (consul (beat s n b)) id = None.
Proof.
  intros Hn. unfold beat. destruct (agent_UpdateTTL _ _ _) as [c [e|]] eqn:E; cbn.
  - by rewrite (update_failed _ _ _ _ _ E).
  - destruct (update_ok _ _ _ _ E) as (r & t & Er & ->). case_decide as Hid; [|done]. subst. congruence.
Qed.

(** An old heartbeat removes a new registration. [Deregister] does not stop the heartbeat of
    the registration it removes: when the instance is registered again under a new context and
    the old context ends, the old goroutine deregisters the instance, while the heartbeat of
    the new one runs on and its updates bring nothing back. *)
Theorem old_heartbeat_removes_new_registration `{C : ConsulClient} `{!ConsulLaws C} s n b i c1 c2 s1 s2 cs :
  beats s !! n = Some b → hb_returned b = false → hb_instance b = i → hb_ctx b = c1 → c1 ≠ c2 →
  c2 ∉ d_cancelled s →
  Deregister s true (si_ID i) = (s1, Ok ()) → Register s1 c2 (Some i) = (s2, Ok ()) →
  agent_ServiceDeregister (consul s2) (si_ID i) = (cs, None) →
  let s3 := {| consul := consul s2; now := now s2; beats := beats s2; d_cancelled := {[ c1 ]} ∪ d_cancelled s2 |} in
  let s4 := beat_end s3 true n b in
  rtc d_step s s4 ∧ is_Some (registered (consul s3) (si_ID i)) ∧ registered (consul s4) (si_ID i) = None ∧
  ∃ m b2, beats s4 !! m = Some b2 ∧ hb_instance b2 = i ∧ hb_ctx b2 = c2 ∧ hb_returned b2 = false ∧ (c2 ∉ d_cancelled s4) ∧
    ∀ s5, registered (consul s5) (si_ID i) = None → registered (consul (beat s5 m b2)) (si_ID i) = None.
Proof.
  intros En Hret Hi Hc1 Hne Hlive Ed Er Ec s3 s4.
  destruct (Deregister_frame s true (si_ID i)) as (_ & Hb1 & Hcan1). rewrite Ed in Hb1, Hcan1. cbn [fst] in Hb1, Hcan1.
  unfold Register in Er. case_decide as Hid; [done|]. assert (si_ID i ≠ "") as Hid' by naive_solver.
  destruct (agent_ServiceRegister (consul s1) (now s1) (registration_of i)) as [c [e|]] eqn:Ereg; [done|]. injection Er as <-.
  assert (n < length (beats s))%nat as Hn by (by apply lookup_lt_Some in En).
  assert (consul s4 = cs) as Hc4.
  { unfold s4, beat_end. rewrite Hi. unfold Deregister. rewrite decide_False by done. cbn [consul s3 with_consul with_beats] in *.
    by rewrite Ec. }
  split; [|split; [|split]].
  - eapply rtc_l; [apply (d_deregister s true (si_ID i))|]. rewrite Ed. cbn [fst].
    eapply rtc_l; [apply (d_register s1 c2 (Some i))|]. unfold Register. rewrite decide_False by naive_solver. rewrite Ereg. cbn [fst].
    eapply rtc_l; [apply (d_cancel _ c1)|]. apply rtc_once. apply d_end; [|done|cbn; set_solver].
    cbn. rewrite Hb1. by rewrite lookup_app_l.
  - cbn. rewrite (register_ok _ _ _ _ Ereg). rewrite decide_True by done. eauto.
  - rewrite Hc4. rewrite (deregister_ok _ _ _ Ec). by rewrite decide_True.
  - assert (beats s4 = <[n := {| hb_instance := hb_instance b; hb_ctx := hb_ctx b; hb_next := hb_next b; hb_returned := true |}]>
      (beats s3)) as Hb4.
    { unfold s4, beat_end. cbn [beats with_beats]. by destruct (Deregister_frame s3 true (si_ID (hb_instance b))) as (_ & -> & _). }
    eexists (length (beats s)), _. split.
    { rewrite Hb4, list_lookup_insert_ne by lia. cbn. rewrite Hb1. by rewrite lookup_app_r, Nat.sub_diag by lia. }
    split; [done|]. split; [done|]. split; [done|]. split.
    + unfold s4, beat_end. cbn [d_cancelled with_beats]. destruct (Deregister_frame s3 true (si_ID (hb_instance b))) as (_ & _ & ->).
      cbn. rewrite Hcan1. set_solver.
    + intros s5 Hs5. by apply unregistered_beat.
Qed.

(** [Discover] fails on an entry without a service, which [Watch] skips. *)
Lemma Discover_nil_service `{C : ConsulClient} s name entries index :
  name ≠ "" → health_Service (consul s) (now s) name 0 = Ok (entries, index) → None ∈ entries →
  Discover s name = Panic nil_dereference ∧ ∀ i, i ∈ watch_instances entries ↔ Some i ∈ entries.
Proof.
  intros Hn E Hin. split.
  - unfold Discover. rewrite decide_False, E by done. unfold mbind, outcome_bind.
    assert (instances entries = Panic nil_dereference) as ->; [|done]. clear E. induction entries as [|[x|] entries IH]; [set_solver| |done].
    cbn. unfold mbind, outcome_bind. rewrite IH; [done|]. apply elem_of_cons in Hin as [?|?]; done.
  - intros i. unfold watch_instances. rewrite list_elem_of_omap. split; [intros (x & Hx & Hi); cbn in Hi; by subst|eauto].
Qed.

(** ** An agent in memory: the laws hold of it *)

Module MemoryConsul.
Abbreviation state := (gmap string (registration * option Z)).

Definition strip_service (check : string) : string := String.substring 8 (String.length check - 8) check.
Definition service_check (check : string) : bool := bool_decide (String.substring 0 8 check = "service:").

Definition register (s : state) (now : Z) (r : registration) : state * option string :=
  (<[si_ID (reg_instance r) := (r, None)]> s, None).
Definition deregister (s : state) (id : string) : state * option string := (delete id s, None).
Definition update (s : state) (now : Z) (check : string) : state * option string :=
  match s !! strip_service check with
  | Some (r, _) => (<[strip_service check := (r, Some now)]> s, None)
  | None => (s, Some "unknown check")
  end.
Definition passing (now : Z) (name : string) (kv : string * (registration * option Z)) : option (option ServiceInstance) :=
  match kv.2.2 with
  | Some t =>
      if decide (kv.1 = si_ID (reg_instance kv.2.1) ∧ si_Name (reg_instance kv.2.1) = name ∧ now - t < reg_TTL kv.2.1)
      then Some (Some (reg_instance kv.2.1)) else None
  | None => None
  end.
Definition health (s : state) (now : Z) (name : string) (w : Z) : result string (list (option ServiceInstance) * option Z) :=
  Ok (omap (passing now name) (map_to_list s), Some 1).

#[export] Instance client : ConsulClient := {|
  consul_state := state; agent_ServiceRegister := register; agent_ServiceDeregister := deregister;
  agent_UpdateTTL := update; health_Service := health |}.

Lemma substring_all s : String.substring 0 (String.length s) s = s.
Proof. induction s as [|c s IH]; [done|]. cbn. by rewrite IH. Qed.
Lemma strip_service_join x : strip_service ("service:" +:+ x) = x.
Proof.
  unfold strip_service. rewrite string_length_app. change (String.length "service:") with 8%nat.
  replace (8 + String.length x - 8)%nat with (String.length x) by lia.
  change ("service:" +:+ x) with (String.append "service:" x). cbn [String.append String.substring]. apply substring_all.
Qed.

Lemma update_Some (s : state) now x s' : update s now ("service:" +:+ x) = (s', None) →
  ∃ r t, s !! x = Some (r, t) ∧ ∀ id, s' !! id = if decide (id = x) then Some (r, Some now) else s !! id.
Proof.
  unfold update. rewrite strip_service_join. destruct (s !! x) as [[r t]|] eqn:E; [|done]. intros [= <-].
  exists r, t. split; [done|]. intros id. case_decide as Hid; [subst; apply lookup_insert_eq|by apply lookup_insert_ne].
Qed.

Lemma update_None (s : state) now x s' e : update s now ("service:" +:+ x) = (s', Some e) → ∀ id, s' !! id = s !! id.
Proof. unfold update. rewrite strip_service_join. destruct (s !! x) as [[r t]|]; [done|]. by intros [= <- <-]. Qed.

Lemma health_spec (s : state) now name w entries index : health s now name w = Ok (entries, index) →
  ∀ i, Some i ∈ entries ↔ ∃ r t, s !! si_ID i = Some (r, Some t) ∧ reg_instance r = i ∧ si_Name i = name ∧ now - t < reg_TTL r.
Proof.
  intros [= <- <-] i. rewrite list_elem_of_omap. split.
  - intros ([k [r [t|]]] & Hin & Hp); unfold passing in Hp; cbn in Hp; [|done]. apply elem_of_map_to_list in Hin.
    case_decide as Hd; [|done]. destruct Hd as (-> & Hn & Ht). injection Hp as <-. by exists r, t.
  - intros (r & t & E & Hr & Hn & Ht). exists (si_ID i, (r, Some t)). split; [by apply elem_of_map_to_list|].
    unfold passing. cbn. rewrite decide_True; [by rewrite Hr|]. by rewrite Hr.
Qed.

Definition lookup_id (s : state) (id : string) : option (registration * option Z) := s !! id.

#[export] Instance laws : ConsulLaws client.
Proof.
  refine (Build_ConsulLaws client lookup_id _ _ _ _ _ _ _); unfold lookup_id.
  - intros s now r s'. cbn. intros [= <-] id. case_decide as Hid; [subst; apply lookup_insert_eq|by apply lookup_insert_ne].
  - intros s now r s' e. done.
  - intros s x s'. cbn. intros [= <-] id. case_decide as Hid; [subst; apply lookup_delete_eq|by apply lookup_delete_ne].
  - intros s x s' e. done.
  - exact update_Some.
  - exact update_None.
  - exact health_spec.
Defined.
End MemoryConsul.
#[local] Existing Instances MemoryConsul.client MemoryConsul.laws.

Module DiscoveryDemo.
Definition api : ServiceInstance :=
  {| si_ID := "api-1"; si_Name := "api"; si_Address := "10.0.0.1"; si_Port := 80; si_Tags := []; si_Metadata := ∅ |}.
Definition start : dstate (H := MemoryConsul.client) :=
  {| consul := (∅ : MemoryConsul.state); now := 0; beats := []; d_cancelled := ∅ |}.
Definition up : dstate := (Register start 0 (Some api)).1.
Definition later (s : dstate) (t : Z) : dstate := {| consul := consul s; now := now s + t; beats := beats s; d_cancelled := d_cancelled s |}.
Definition first_beat : heartbeat :=
  {| hb_instance := api; hb_ctx := 0; hb_next := 5 * second; hb_returned := false |}.
(** The first tick on time, then five seconds. *)
Definition beaten : dstate := later (beat (later up (5 * second)) 0 first_beat) (5 * second).
Definition second_beat : heartbeat :=
  {| hb_instance := api; hb_ctx := 0; hb_next := 10 * second; hb_returned := false |}.
End DiscoveryDemo.

Lemma Watch_current_witness :
  let a := Ok ([Some DiscoveryDemo.api; None], Some 7) : watch_answer in
  last (changes_seen (watch_run [Err "timeout"; a; a; Err "timeout"])) = Some [DiscoveryDemo.api].
Proof.
  intros a. apply (Watch_current [Err "timeout"; a; a; Err "timeout"] [Err "timeout"; a] [Err "timeout"]
    [Some DiscoveryDemo.api; None] 7).
  - intros e i. unfold a. rewrite !elem_of_cons. intros [?|[E|[E|[?|?%elem_of_nil]]]]; try done; by injection E as _ ->.
  - intros e1 e2 i. unfold a. rewrite !elem_of_cons.
    intros [?|[E|[E|[?|?%elem_of_nil]]]] [?|[E'|[E'|[?|?%elem_of_nil]]]]; try done; injection E as -> _; by injection E' as ->.
  - done.
  - by repeat constructor.
Defined.

(** Four seconds after its registration the service is not discovered. *)
Lemma Register_hidden_until_first_beat_witness :
  ∃ l, Discover (DiscoveryDemo.later DiscoveryDemo.up (4 * second)) "api" = Ret (Ok l) ∧ DiscoveryDemo.api ∉ l.
Proof.
  exists []. assert (Discover (DiscoveryDemo.later DiscoveryDemo.up (4 * second)) "api" = Ret (Ok [])) as E by (by vm_compute).
  split; [exact E|].
  apply (Register_hidden_until_first_beat (C := MemoryConsul.client) DiscoveryDemo.start 0 DiscoveryDemo.api DiscoveryDemo.up
    (DiscoveryDemo.later DiscoveryDemo.up (4 * second)) "api" []).
  - intros b Hb. exfalso. exact (not_elem_of_nil b Hb).
  - reflexivity.
  - apply rtc_once. apply (d_time DiscoveryDemo.up). unfold second. lia.
  - change (now (DiscoveryDemo.later DiscoveryDemo.up (4 * second))) with (4 * second). change (now DiscoveryDemo.start) with 0.
    unfold DefaultTTLUpdateInterval, second. lia.
  - exact E.
  - done.
Defined.

(** The first tick on time, the second about to be handled on time: the service is not discovered. *)
Lemma heartbeat_interval_too_long_witness :
  ∃ l, Discover DiscoveryDemo.beaten "api" = Ret (Ok l) ∧ DiscoveryDemo.api ∉ l.
Proof.
  exists []. assert (Discover DiscoveryDemo.beaten "api" = Ret (Ok [])) as E by (by vm_compute).
  split; [exact E|].
  apply (heartbeat_interval_too_long (C := MemoryConsul.client) DiscoveryDemo.beaten 0 DiscoveryDemo.second_beat
    (registration_of DiscoveryDemo.api) (5 * second) 0 "api" []); [by vm_compute|by vm_compute|done|done|by vm_compute|exact E|done].
Defined.

Lemma old_heartbeat_removes_new_registration_witness :
  let s := DiscoveryDemo.up in
  let s1 := (Deregister s true "api-1").1 in
  let s2 := (Register s1 1 (Some DiscoveryDemo.api)).1 in
  let s3 := {| consul := consul s2; now := now s2; beats := beats s2; d_cancelled := {[ 0%nat ]} ∪ d_cancelled s2 |} in
  registered (consul (beat_end s3 true 0 DiscoveryDemo.first_beat)) "api-1" = None.
Proof.
  intros s s1 s2 s3.
  apply (old_heartbeat_removes_new_registration (C := MemoryConsul.client) s 0 DiscoveryDemo.first_beat DiscoveryDemo.api 0 1 s1 s2
    (MemoryConsul.deregister (consul s2) "api-1").1); [by vm_compute|done|done|done|done|set_solver|reflexivity..].
Defined.
