(* ===== verification/MySqlConn.v ===== *)
(** * MySQL connections and casts ([src/storage/mysql/mysql.go], [entity.go], [cast.go])

    Connection settings, opening a pool, the registry of one pool per cluster, and the
    conversion of result columns, read from the database or from the cache. The connector's
    [Open], the ping, [strconv.ParseFloat] and [time.Parse] are parameters. Durations are in
    nanoseconds. *)

From Stdlib Require Import ZArith Lia Ascii.
From stdpp Require Import base numbers strings gmap list relations.
From S2P Require Import Prelude GoValue SqlText Url.
Local Open Scope Z_scope.

Module MySqlConn.

(** ** Settings ([entity.go]) *)

Record ConnectionConfig : Type := mkConfig {
  Host : text; Port : text; UserName : text; Password : text; DbName : text;
  MaxOpenConn : Z; MaxIdleConn : Z; MaxConnLifetime : Z; ConnMaxIdleTime : Z;
}.

(** [fmt.Sprintf("%s:%s@tcp(%s:%s)/%s", ...)] *)
Definition connString (c : ConnectionConfig) : text :=
  UserName c ++ str ":" ++ Password c ++ str "@tcp(" ++ Host c ++ str ":" ++ Port c ++ str ")/" ++ DbName c.

(** [time.Duration(int(n)) * time.Second] *)
Definition seconds (n : Z) : Z := i64 (n * 1000000000).

(** ** The registry *)

Record pool : Type := mkPool {
  pool_dsn : text; pool_MaxOpenConns : Z; pool_MaxIdleConns : Z; pool_ConnMaxLifetime : Z; pool_ConnMaxIdleTime : Z;
  pool_closed : bool;
}.

Record world : Type := mkWorld {
  instances : gmap string nat;
  connectionConfigMap : gmap string (option ConnectionConfig);
  pools : list pool;
}.

Definition no_connections : world := mkWorld ∅ ∅ [].

(** What [Open] answers for a data source name: an error, a nil interface, or a pool with
    the outcome of pinging it. *)
Inductive opened : Type := OpenErr (e : string) | OpenNil | Opened (ping : option string).
Definition connector : Type := text → opened.

(** The error of the context when [ConnectContext] starts and when it has the lock; a nil
    context is the background one. *)
Record ctx : Type := mkCtx { err_before : option string; err_locked : option string }.
Definition Background : ctx := mkCtx None None.

Inductive mysql_conn_error : Type :=
  | ErrContext (e : string)
  | ErrNotInitialised
  | ErrDriver (e : string).

Definition SetConnectionConfig (clusterName : string) (config : option ConnectionConfig) (w : world) : world :=
  mkWorld (instances w) (<[clusterName := config]> (connectionConfigMap w)) (pools w).

(** A missing entry reads as nil; the copy is a value here. *)
Definition GetConnectionConfig (clusterName : string) (w : world) : option ConnectionConfig :=
  mjoin (connectionConfigMap w !! clusterName).

(** A nil configuration, connector or pool panics. *)
Definition newInstanceContext (err : option string) (con : option connector) (dbconfig : option ConnectionConfig) (w : world)
  : world * outcome (result mysql_conn_error nat) :=
  match err with
  | Some e => (w, Ret (Err (ErrContext e)))
  | None =>
      match dbconfig, con with
      | None, _ | _, None => (w, Panic nil_dereference)
      | Some cfg, Some open =>
          match open (connString cfg) with
          | OpenErr e => (w, Ret (Err (ErrDriver e)))
          | OpenNil => (w, Panic nil_dereference)
          | Opened ping =>
              let p := mkPool (connString cfg) (MaxOpenConn cfg) (MaxIdleConn cfg)
                         (seconds (MaxConnLifetime cfg)) (seconds (ConnMaxIdleTime cfg)) false in
              (mkWorld (instances w) (connectionConfigMap w) (pools w ++ [p]),
               match ping with
               | Some e => Ret (Err (ErrDriver e))
               | None => Ret (Ok (length (pools w)))
               end)
          end
      end
  end.

Definition ConnectContext (c : ctx) (con : option connector) (clusterName : string) (w : world)
  : world * outcome (result mysql_conn_error nat) :=
  match err_before c with
  | Some e => (w, Ret (Err (ErrContext e)))
  | None =>
      match instances w !! clusterName with
      | Some db => (w, Ret (Ok db))
      | None =>
          match connectionConfigMap w !! clusterName with
          | None => (w, Ret (Err ErrNotInitialised))
          | Some dbconfig =>
              match newInstanceContext (err_locked c) con dbconfig w with
              | (w, Ret (Ok db)) => (mkWorld (<[clusterName := db]> (instances w)) (connectionConfigMap w) (pools w), Ret (Ok db))
              | r => r
              end
          end
      end
  end.

Definition Connect (con : option connector) (clusterName : string) (w : world) : world * outcome (result mysql_conn_error nat) :=
  ConnectContext Background con clusterName w.

(** [MySqlDb.Close], which callers have: the package has no function that closes. *)
Definition Close (db : nat) (w : world) : world :=
  mkWorld (instances w) (connectionConfigMap w)
    (alter (λ p, mkPool (pool_dsn p) (pool_MaxOpenConns p) (pool_MaxIdleConns p) (pool_ConnMaxLifetime p)
                   (pool_ConnMaxIdleTime p) true) db (pools w)).

Inductive mysql_step (w : world) : world → Prop :=
  | step_config c cfg : mysql_step w (SetConnectionConfig c cfg w)
  | step_connect cx con c : mysql_step w (ConnectContext cx con c w).1
  | step_close db : mysql_step w (Close db w).

(** ** Casts ([cast.go]) *)

(** A column: [sql.NullString] from the database, or any value from the cache. *)
Inductive column : Type := NullString (String_ : string) (Valid : bool) | Cached (v : any).

Fixpoint map_get (k : string) (m : list (string * any)) : option any :=
  match m with
  | [] => None
  | (k', v) :: m => if decide (k = k') then Some v else map_get k m
  end.

(** The string of a cached [sql.NullString], if it is there and valid. *)
Definition cached_string (v : any) : option string :=
  match v with
  | AnyMap m =>
      match map_get "Valid" m, map_get "String" m with
      | Some (AnyBool true), Some (AnyString s) => Some s
      | _, _ => None
      end
  | _ => None
  end.

Definition CastSQLStringToString (value : column) : string :=
  match value with
  | NullString s v => if v then s else ""
  | Cached v => match cached_string v with Some s => s | None => "" end
  end.

Definition CastSQLStringToInt (value : column) : Z :=
  match value with
  | NullString s v => if v then match Url.Atoi (str s) with Some i => i | None => 0 end else 0
  | Cached v =>
      match cached_string v with
      | Some s => match Url.Atoi (str s) with Some i => i | None => 0 end
      | None => 0
      end
  end.

Section casts.
(** [strconv.ParseFloat(_, 64)], [time.Parse(time.DateTime, _)] and the time it returns
    with its error on the empty string. *)
Context {time : Type} (ParseFloat : string → option float64) (ParseTime : string → option time) (defaultVal : time).

Definition CastSQLStringToFloat (value : column) : float64 :=
  match value with
  | NullString s v => if v then match ParseFloat s with Some f => f | None => f64_of_Z 0 end else f64_of_Z 0
  | Cached v =>
      match cached_string v with
      | Some s => match ParseFloat s with Some f => f | None => f64_of_Z 0 end
      | None => f64_of_Z 0
      end
  end.

Definition CastSQLStringToTime (value : column) : time :=
  match value with
  | NullString s v => if v then match ParseTime s with Some t => t | None => defaultVal end else defaultVal
  | Cached v =>
      match cached_string v with
      | Some s => match ParseTime s with Some t => t | None => defaultVal end
      | None => defaultVal
      end
  end.

(** How a column is read back from the cache: the decoded form of [sql.NullString], its
    two fields in some order. *)
Inductive cached_as (s : string) (valid : bool) : any → Prop :=
  | cached_sv : cached_as s valid (AnyMap [("String", AnyString s); ("Valid", AnyBool valid)])
  | cached_vs : cached_as s valid (AnyMap [("Valid", AnyBool valid); ("String", AnyString s)]).

Lemma cached_string_spec s valid v : cached_as s valid v → cached_string v = if valid then Some s else None.
Proof. by intros []; destruct valid. Qed.

(** A column casts to the same string, integer, float or time whether it comes from the
    database or from the cache, and to the zero value when it is null or cannot be parsed; the
    integer is one of [int64]. *)
Theorem casts_agree_when_cached s valid v :
  cached_as s valid v →
  CastSQLStringToString (Cached v) = CastSQLStringToString (NullString s valid) ∧
  CastSQLStringToInt (Cached v) = CastSQLStringToInt (NullString s valid) ∧
  CastSQLStringToFloat (Cached v) = CastSQLStringToFloat (NullString s valid) ∧
  CastSQLStringToTime (Cached v) = CastSQLStringToTime (NullString s valid) ∧
  is_i64 (CastSQLStringToInt (Cached v)).
Proof.
  intros H%cached_string_spec. unfold CastSQLStringToString, CastSQLStringToInt, CastSQLStringToFloat, CastSQLStringToTime.
  rewrite H. destruct valid; (split_and!; [done..|]); [|in_range].
  destruct (Url.Atoi (str s)) eqn:E; [by eapply Url.Atoi_range|in_range].
Qed.
End casts.

(** ** The registry: one pool per cluster, for good *)

(** Registered pools exist, one per cluster. *)
Definition registry_ok (w : world) : Prop :=
  (∀ c i, instances w !! c = Some i → (i < length (pools w))%nat) ∧
  (∀ c c' i, instances w !! c = Some i → instances w !! c' = Some i → c = c').

Lemma ConnectContext_cases cx con c w :
  let w' := (ConnectContext cx con c w).1 in
  connectionConfigMap w' = connectionConfigMap w ∧ (∃ ps, pools w' = pools w ++ ps) ∧
  (instances w' = instances w ∨
   instances w !! c = None ∧ instances w' = <[c := length (pools w)]> (instances w) ∧ (length (pools w) < length (pools w'))%nat).
Proof.
  assert (∃ ps, pools w = pools w ++ ps) as Hsame by (exists []; by rewrite app_nil_r).
  unfold ConnectContext. destruct (err_before cx); [by split_and!; [|exact Hsame|left]|].
  destruct (instances w !! c) eqn:Ei; [by split_and!; [|exact Hsame|left]|].
  destruct (connectionConfigMap w !! c) as [cfg|] eqn:Em; [|by split_and!; [|exact Hsame|left]].
  unfold newInstanceContext. destruct (err_locked cx); [by split_and!; [|exact Hsame|left]|].
  destruct cfg as [cfg|]; [|by split_and!; [|exact Hsame|left]]. destruct con as [open|]; [|by split_and!; [|exact Hsame|left]].
  destruct (open _) as [e| |ping]; [by split_and!; [|exact Hsame|left]..|].
  destruct ping as [e|]; cbn; (split_and!; [done|by eexists|]); [by left|].
  right. split; [done|]. split; [done|]. rewrite length_app. cbn. lia.
Qed.

Lemma mysql_step_ok w w' : mysql_step w w' → registry_ok w →
  registry_ok w' ∧ (length (pools w) <= length (pools w'))%nat ∧
  (∀ c i, instances w !! c = Some i → instances w' !! c = Some i) ∧
  (∀ c i, instances w' !! c = Some i → instances w !! c = Some i ∨ (length (pools w) <= i)%nat).
Proof.
  intros Hs [Hlt Hinj]. destruct Hs as [c cfg|cx con c|db].
  - cbn. split_and!; [by split|done|done|by left].
  - destruct (ConnectContext_cases cx con c w) as (_ & [ps Ep] & [Ei|(Hn & Ei & Hl)]); cbn zeta in *;
      unfold registry_ok; rewrite Ei; rewrite Ep, length_app in *.
    + split_and!; [|done|lia|done|by left]. intros c' i E. specialize (Hlt _ _ E). lia.
    + split_and!; [| |lia| |].
      * intros c' i [[<- <-]|[_ E]]%lookup_insert_Some; [lia|]. specialize (Hlt _ _ E). lia.
      * intros c1 c2 i [[<- <-]|[H1 E1]]%lookup_insert_Some [[<- E]|[H2 E2]]%lookup_insert_Some; try done; [..|by eapply Hinj].
        -- specialize (Hlt _ _ E2). lia.
        -- specialize (Hlt _ _ E1). lia.
      * intros c' i E. rewrite lookup_insert_ne; [done|congruence].
      * intros c' i [[<- <-]|[_ E]]%lookup_insert_Some; [by right|by left].
  - cbn. unfold registry_ok. cbn. rewrite length_alter. split_and!; [done..|by left].
Qed.

Lemma mysql_steps_ok w w' : rtc mysql_step w w' → registry_ok w →
  registry_ok w' ∧ (length (pools w) <= length (pools w'))%nat ∧
  (∀ c i, instances w !! c = Some i → instances w' !! c = Some i) ∧
  (∀ c i, instances w' !! c = Some i → instances w !! c = Some i ∨ (length (pools w) <= i)%nat).
Proof.
  induction 1 as [w|w1 w2 w3 Hs _ IH]; intros Hok; [by split_and!; [| |by intros|by left]|].
  destruct (mysql_step_ok w1 w2 Hs Hok) as (Hok2 & Hl & Hk & Hn). destruct (IH Hok2) as (Hok3 & Hl' & Hk' & Hn').
  split_and!; [done|lia|by auto|]. intros c i [E|?]%Hn'; [by apply Hn|right; lia].
Qed.

Lemma no_connections_ok : registry_ok no_connections.
Proof. by split. Qed.

(** The pool of a cluster, once registered, is what every later [ConnectContext] with a live
    context returns, whatever was configured, connected or closed in between, and it is no
    other cluster's. The package never forgets it: a pool its user closed is handed out
    closed. *)
Theorem mysql_pool_for_good w w' c i :
  rtc mysql_step no_connections w → instances w !! c = Some i → rtc mysql_step w w' →
  (∀ cx con, err_before cx = None → ConnectContext cx con c w' = (w', Ret (Ok i))) ∧
  (∀ cx con c' w'', err_before cx = None → ConnectContext cx con c' w' = (w'', Ret (Ok i)) → c' = c) ∧
  (∀ p, pools w' !! i = Some p → ∃ p', pools (Close i w') !! i = Some p' ∧ pool_closed p' = true ∧
     ∀ con, Connect con c (Close i w') = (Close i w', Ret (Ok i))).
Proof.
  intros Hr Hi Hw. pose proof (proj1 (mysql_steps_ok _ _ Hr no_connections_ok)) as Hok.
  destruct (mysql_steps_ok _ _ Hw Hok) as ([Hlt Hinj] & _ & Hk & _). specialize (Hk _ _ Hi). split_and!.
  - intros cx con E. unfold ConnectContext. by rewrite E, Hk.
  - intros cx con c' w'' E. unfold ConnectContext. rewrite E. destruct (instances w' !! c') eqn:Ec.
    { intros [= <- ->]. by eapply Hinj. }
    destruct (connectionConfigMap w' !! c') as [cfg|]; [|done]. destruct (newInstanceContext _ _ _ _) as [w2 r] eqn:En.
    destruct r as [[db|]|]; [|done..]. intros [= _ ->]. exfalso. unfold newInstanceContext in En.
    destruct (err_locked cx), cfg as [cfg|], con as [open|]; try done. destruct (open _); [done..|].
    destruct ping; [done|]. injection En as _ <-. specialize (Hlt _ _ Hk). lia.
  - intros p Hp. eexists. split; [cbn; by rewrite list_lookup_alter_eq, Hp|]. split; [done|].
    intros con. unfold Connect, ConnectContext. cbn. by rewrite Hk.
Qed.

(** [n] calls of [Connect] for one cluster. *)
Fixpoint attempts (n : nat) (con : connector) (c : string) (w : world) : world :=
  match n with O => w | S n => attempts n con c (Connect (Some con) c w).1 end.

Definition pool_of (cfg : ConnectionConfig) : pool :=
  mkPool (connString cfg) (MaxOpenConn cfg) (MaxIdleConn cfg) (seconds (MaxConnLifetime cfg)) (seconds (ConnMaxIdleTime cfg)) false.

Lemma attempts_pools (con : connector) c cfg e n w :
  instances w !! c = None → connectionConfigMap w !! c = Some (Some cfg) → con (connString cfg) = Opened (Some e) →
  attempts n con c w = mkWorld (instances w) (connectionConfigMap w) (pools w ++ replicate n (pool_of cfg)).
Proof.
  revert w. induction n as [|n IH]; intros w Hi Hm Hc; cbn [attempts replicate]; [rewrite app_nil_r; by destruct w|].
  assert ((Connect (Some con) c w).1 = mkWorld (instances w) (connectionConfigMap w) (pools w ++ [pool_of cfg])) as E.
  { unfold Connect, ConnectContext. cbn. rewrite Hi, Hm. unfold newInstanceContext. cbn. by rewrite Hc. }
  rewrite E, IH by done. cbn. by rewrite <- app_assoc.
Qed.

(** A pool whose first ping fails is not closed. While a cluster does not answer, [n] calls
    of [Connect] leave [n] open pools that no name of the registry refers to, then or
    later. *)
Theorem mysql_failed_ping_leaks (con : connector) c cfg e n w :
  rtc mysql_step no_connections w → instances w !! c = None → connectionConfigMap w !! c = Some (Some cfg) →
  con (connString cfg) = Opened (Some e) →
  let w' := attempts n con c w in
  (Connect (Some con) c w').2 = Ret (Err (ErrDriver e)) ∧
  ∀ i, (length (pools w) <= i < length (pools w) + n)%nat →
    (∃ p, pools w' !! i = Some p ∧ pool_closed p = false) ∧
    ∀ w'', rtc mysql_step w' w'' → ∀ c', instances w'' !! c' ≠ Some i.
Proof.
  intros Hr Hi Hm Hc w'. pose proof (attempts_pools con c cfg e n w Hi Hm Hc) as E. fold w' in E.
  pose proof (proj1 (mysql_steps_ok _ _ Hr no_connections_ok)) as [Hlt Hinj].
  split. { rewrite E. unfold Connect, ConnectContext. cbn. rewrite Hi, Hm. unfold newInstanceContext. cbn. by rewrite Hc. }
  intros i Hlen. split.
  - exists (pool_of cfg). rewrite E. cbn. rewrite lookup_app_r by lia. split; [|done]. apply lookup_replicate. split; [done|lia].
  - intros w'' Hs c' Hc'. destruct (mysql_steps_ok _ _ Hs) as (_ & _ & _ & Hn).
    { rewrite E. split; cbn; [|done]. intros c1 i1 E1. specialize (Hlt _ _ E1). rewrite length_app. lia. }
    destruct (Hn _ _ Hc') as [Hin|Hge]; rewrite E in *; cbn in *.
    + specialize (Hlt _ _ Hin). lia.
    + rewrite length_app, length_replicate in Hge. lia.
Qed.

(** The fields of the data source name are not delimited: settings that differ in the user,
    the host or the port share one name. *)
Theorem connString_ambiguous u v p q h port db o i l t :
  connString (mkConfig h port (u ++ str ":" ++ v) p db o i l t) = connString (mkConfig h port u (v ++ str ":" ++ p) db o i l t) ∧
  connString (mkConfig h port u (p ++ str "@tcp(" ++ q) db o i l t) = connString (mkConfig (q ++ str "@tcp(" ++ h) port u p db o i l t) ∧
  connString (mkConfig (h ++ str ":" ++ q) port u p db o i l t) = connString (mkConfig h (q ++ str ":" ++ port) u p db o i l t).
Proof. unfold connString. cbn [UserName Password Host Port DbName]. by rewrite <- !app_assoc. Qed.

Module Demo.
Definition cfg : ConnectionConfig := mkConfig (str "db") (str "3306") (str "app") (str "secret") (str "shop") 10 2 60 30.
Definition down : connector := λ _, Opened (Some "refused"%string).
Definition up : connector := λ _, Opened None.
Definition w0 : world := SetConnectionConfig "main" (Some cfg) no_connections.
Definition w1 : world := (Connect (Some up) "main" w0).1.
Lemma w0_reachable : rtc mysql_step no_connections w0.
Proof. exact (rtc_once _ _ (step_config no_connections "main" (Some cfg))). Qed.
Lemma w1_reachable : rtc mysql_step no_connections w1.
Proof. eapply rtc_r; [exact w0_reachable|]. exact (step_connect w0 Background (Some up) "main"). Qed.
End Demo.

Lemma casts_agree_when_cached_witness :
  CastSQLStringToInt (Cached (AnyMap [("String"%string, AnyString "42"); ("Valid"%string, AnyBool true)])) = 42.
Proof.
  destruct (casts_agree_when_cached (λ _, None) (λ _, None) tt "42" true _ (cached_sv "42" true)) as (_ & E & _).
  rewrite E. by vm_compute.
Defined.

Lemma mysql_pool_for_good_witness :
  Connect (Some Demo.down) "main" (Close 0 Demo.w1) = (Close 0 Demo.w1, Ret (Ok 0%nat)).
Proof.
  destruct (mysql_pool_for_good Demo.w1 (Close 0 Demo.w1) "main" 0) as [H _].
  - exact Demo.w1_reachable.
  - reflexivity.
  - exact (rtc_once _ _ (step_close Demo.w1 0)).
  - exact (H Background (Some Demo.down) eq_refl).
Defined.

Lemma mysql_failed_ping_leaks_witness :
  (Connect (Some Demo.down) "main" (attempts 3 Demo.down "main" Demo.w0)).2 = Ret (Err (ErrDriver "refused")).
Proof.
  apply (mysql_failed_ping_leaks Demo.down "main" Demo.cfg "refused" 3 Demo.w0);
    [exact Demo.w0_reachable|reflexivity..].
Defined.

End MySqlConn.
