(* ===== verification/Qdrant.v ===== *)
(** * The Qdrant client ([src/storage/qdrant])

    The REST client: its settings and base URL, the requests it builds, the retry loop with
    its backoff, point identifiers and collection settings. [url.Parse], the JSON codec and
    the transport are parameters: each attempt has an answer, the bytes of its random source
    and what the context says during the sleep that follows. Durations are in
    nanoseconds. *)

From Stdlib Require Import ZArith Lia Ascii.
From stdpp Require Import base numbers strings list pretty.
From S2P Require Import Prelude GoValue SqlText Url.
Local Open Scope Z_scope.

Module Qdrant.

Definition millisecond : Z := 1000000.
Definition second : Z := 1000 * millisecond.

(** ** Errors ([errors.go]) *)

Inductive sentinel : Type :=
  | ErrUnauthorized | ErrForbidden | ErrNotFound | ErrBadRequest | ErrConflict | ErrRateLimited | ErrServer.

(** An error of the transport or of a read: a [net.Error] with its [Timeout()], or another
    one. *)
Inductive go_error : Type := NetError (timeout : bool) (msg : text) | OtherError (msg : text).

Inductive qdrant_error : Type :=
  | EInvalid (why : string)                             (* refused before anything is sent *)
  | EInvalidPointID
  | EJson (e : string)
  | ETransport (e : go_error)
  | EContext (e : string)
  | EHttp (mapped : option sentinel) (StatusCode : Z) (Body : text)
  | ERequestFailed.

Definition mapHTTPStatus (code : Z) : option sentinel :=
  if code =? 401 then Some ErrUnauthorized
  else if code =? 403 then Some ErrForbidden
  else if code =? 404 then Some ErrNotFound
  else if code =? 400 then Some ErrBadRequest
  else if code =? 409 then Some ErrConflict
  else if code =? 429 then Some ErrRateLimited
  else if 500 <=? code then Some ErrServer
  else None.

Definition qdrantStatusError (statusCode : Z) (body : text) : option qdrant_error :=
  if (200 <=? statusCode) && (statusCode <? 300) then None
  else Some (EHttp (mapHTTPStatus statusCode) statusCode body).

Definition isRetryableStatus (statusCode : Z) : bool := (statusCode =? 429) || (500 <=? statusCode).

(** [strings.ToLower] and [strings.Contains] on ASCII messages. *)
Definition lower (c : ascii) : ascii := if between 65 90 c then char (nat_of_ascii c + 32) else c.
Definition ToLower (s : text) : text := lower <$> s.
Fixpoint Contains (s sub : text) : bool :=
  HasPrefix s sub || match s with [] => false | _ :: s => Contains s sub end.

Definition isRetryableNetErr (err : go_error) : bool :=
  match err with
  | NetError timeout _ => timeout
  | OtherError msg =>
      let s := ToLower msg in
      Contains s (str "connection reset") || Contains s (str "broken pipe") || Contains s (str "timeout")
      || Contains s (str "tls handshake") || Contains s (str "connection refused")
  end.

(** ** Settings ([NewRESTClient]) *)

Record ConnectionConfig : Type := mkConfig {
  BaseURL : text; APIKey : text; Timeout : Z; DialTimeout : Z; IdleConnTimeout : Z;
  RetryMaxAttempts : Z; RetryBaseDelay : Z; RetryMaxDelay : Z; RetryJitter : float64;
}.

Record restClient : Type := mkClient {
  baseURL : text; apiKey : text;
  http_Timeout : Z; http_DialTimeout : Z; http_IdleConnTimeout : Z;       (* of the transport *)
  retryMaxAttempts : Z; retryBaseDelay : Z; retryMaxDelay : Z; retryJitter : float64;
}.

Definition or_default (v d : Z) : Z := if v <=? 0 then d else v.

Fixpoint drop_slashes (s : text) : text :=
  match s with [] => [] | c :: s' => if Ascii.eqb c Url.char_slash then drop_slashes s' else s end.
(** [strings.TrimRight(_, "/")] *)
Definition TrimRightSlash (s : text) : text := reverse (drop_slashes (reverse s)).

(** [strings.Cut(_, "?")] *)
Fixpoint Cut (s : text) : text * text :=
  match s with
  | [] => ([], [])
  | c :: s' => if Ascii.eqb c char_mark then ([], s') else let '(a, b) := Cut s' in (c :: a, b)
  end.

Definition with_path (u : Url.URL) (path query : text) : Url.URL :=
  Url.mkURL (Url.Scheme u) (Url.User u) (Url.Host u) path (Url.ForceQuery u) query [].

Section client.
(** [url.Parse]; [None] is an error. *)
Context (Parse : text → option Url.URL).

(** [IsAbs] is a scheme. *)
Definition validateBaseURL (raw : text) : result qdrant_error text :=
  match Parse (TrimSpace raw) with
  | None => Err (EInvalid "qdrant: invalid BaseURL")
  | Some u =>
      if bool_decide (Url.Scheme u = []) || bool_decide (Url.Host u = []) then Err (EInvalid "qdrant: invalid BaseURL")
      else if bool_decide (Url.Scheme u ≠ str "http") && bool_decide (Url.Scheme u ≠ str "https") then
        Err (EInvalid "qdrant: BaseURL must use http or https")
      else if bool_decide (Url.User u ≠ None) then Err (EInvalid "qdrant: BaseURL must not include credentials")
      else if bool_decide (Url.RawQuery u ≠ []) || bool_decide (Url.Fragment u ≠ []) then
        Err (EInvalid "qdrant: BaseURL must not include query or fragment")
      else Ok (Url.String (Url.mkURL (Url.Scheme u) (Url.User u) (Url.Host u) (TrimRightSlash (Url.Path u))
                             (Url.ForceQuery u) (Url.RawQuery u) (Url.Fragment u)))
  end.

Definition NewRESTClient (cfg : option ConnectionConfig) : result qdrant_error restClient :=
  match cfg with
  | None => Err (EInvalid "qdrant: nil config")
  | Some cfg =>
      let base := TrimSpace (BaseURL cfg) in
      if decide (base = []) then Err (EInvalid "qdrant: BaseURL is required")
      else match validateBaseURL base with
      | Err e => Err e
      | Ok url =>
          Ok {| baseURL := url; apiKey := APIKey cfg;
                http_Timeout := or_default (Timeout cfg) (10 * second);
                http_DialTimeout := or_default (DialTimeout cfg) (5 * second);
                http_IdleConnTimeout := or_default (IdleConnTimeout cfg) (90 * second);
                retryMaxAttempts := or_default (RetryMaxAttempts cfg) 3;
                retryBaseDelay := or_default (RetryBaseDelay cfg) (150 * millisecond);
                retryMaxDelay := or_default (RetryMaxDelay cfg) (2 * second);
                retryJitter :=
                  if f64_ltb (RetryJitter cfg) (f64_of_Z 0) || f64_ltb (f64_of_Z 1) (RetryJitter cfg)
                  then f64_div (f64_of_Z 2) (f64_of_Z 10) else RetryJitter cfg |}
      end
  end.

(** [CheckRedirect]: whether a redirect is followed, given the URLs requested so far.
    Hosts are compared without case. *)
Definition sameURLAuthority (a b : Url.URL) : bool :=
  bool_decide (Url.Scheme a = Url.Scheme b) && bool_decide (ToLower (Url.Host a) = ToLower (Url.Host b)).

Definition CheckRedirect (req : Url.URL) (via : list Url.URL) : bool :=
  match via with [] => true | first :: _ => sameURLAuthority req first end.

(** ** Requests *)

Inductive method : Type := GET | PUT | POST | DELETE.

Record request : Type := mkRequest {
  req_method : method; req_url : text; req_payload : text; req_headers : list (string * text);
}.

Definition requestURL (c : restClient) (path : text) : result qdrant_error text :=
  if negb (HasPrefix path (str "/")) then Err (EInvalid "qdrant: request path must be absolute")
  else match Parse (baseURL c) with
  | None => Err (EInvalid "qdrant: invalid BaseURL")
  | Some base =>
      let '(pathPart, query) := Cut path in
      Ok (Url.String (with_path base (TrimRightSlash (Url.Path base) ++ pathPart) query))
  end.

(** [http.NewRequestWithContext] refuses a URL it cannot parse. *)
Definition newRequest (c : restClient) (m : method) (path : text) (payload : text) (hasPayload : bool)
  : result qdrant_error request :=
  match requestURL c path with
  | Err e => Err e
  | Ok target =>
      match Parse target with
      | None => Err (EInvalid "parse")
      | Some _ =>
          Ok (mkRequest m target payload
                ((if hasPayload then [("Content-Type"%string, str "application/json")] else []) ++
                 (if decide (apiKey c = []) then [] else [("api-key"%string, apiKey c)])))
      end
  end.

(** ** The retry loop ([doJSON]) *)

(** What one attempt meets: the error of [http.Client.Do] or a status with the body read, up
    to its cap, or the error of reading it; eight random bytes; and the error of the context
    if it ends during the sleep. *)
Inductive answer : Type := DoErr (e : go_error) | Answer (StatusCode : Z) (body : result go_error text).
Record attempt_env : Type := mkEnv { env_answer : answer; env_rnd : option Z; env_sleep : option string }.

Definition doRequest (a : answer) : Z * text * option go_error :=
  match a with
  | DoErr e => (0, [], Some e)
  | Answer code (Err e) => (code, [], Some e)
  | Answer code (Ok body) => (code, body, None)
  end.

Definition cryptoFloat64 (rnd : option Z) : float64 :=
  match rnd with None => f64_of_Z 1 | Some u => f64_div (f64_of_Z u) (f64_of_Z maxUint64) end.

(** The delay before the next attempt; a float that is not finite has no conversion. *)
Definition backoff (c : restClient) (attempt : Z) (rnd : option Z) : option Z :=
  let d := i64 (retryBaseDelay c * i64 (Z.shiftl 1 (attempt - 1))) in
  let d := if retryMaxDelay c <? d then retryMaxDelay c else d in
  if f64_ltb (f64_of_Z 0) (retryJitter c) then
    let j := f64_mul (f64_sub (f64_mul (cryptoFloat64 rnd) (f64_of_Z 2)) (f64_of_Z 1)) (retryJitter c) in
    (λ d, if d <? 0 then 0 else d) <$> f64_trunc (f64_mul (f64_of_Z d) (f64_add (f64_of_Z 1) j))
  else Some d.

(** [sleepCtx] after an attempt: the error of the context, if it ends first. The second
    component lists the delays slept. *)
Definition retryAfter (c : restClient) (attempt : Z) (e : attempt_env) (originalErr : qdrant_error)
  : bool * qdrant_error * list (option Z) :=
  if attempt =? retryMaxAttempts c then (false, originalErr, [])
  else match env_sleep e with
       | Some err => (false, EContext err, [backoff c attempt (env_rnd e)])
       | None => (true, originalErr, [backoff c attempt (env_rnd e)])
       end.

Definition handleRequestError (c : restClient) (attempt : Z) (e : attempt_env) (requestErr : option go_error)
  : option (bool * qdrant_error * list (option Z)) :=
  match requestErr with
  | None => None
  | Some err =>
      Some (if negb (isRetryableNetErr err) || (attempt =? retryMaxAttempts c) then (false, ETransport err, [])
            else match env_sleep e with
                 | Some err => (false, EContext err, [backoff c attempt (env_rnd e)])
                 | None => (true, ETransport err, [backoff c attempt (env_rnd e)])
                 end)
  end.

Definition handleResponse (c : restClient) (attempt : Z) (e : attempt_env) (statusCode : Z) (body : text)
  : option (bool * qdrant_error * list (option Z)) :=
  match qdrantStatusError statusCode body with
  | None => None
  | Some err => Some (if isRetryableStatus statusCode then retryAfter c attempt e err else (false, err, []))
  end.

(** One pass of the loop after the request is built: a success with its body, or an error
    with whether to go on. *)
Definition one_attempt (c : restClient) (attempt : Z) (e : attempt_env) : text + (bool * qdrant_error * list (option Z)) :=
  let '(statusCode, body, err) := doRequest (env_answer e) in
  match err, bool_decide (statusCode ≠ 0) with
  | Some err, true => inr (retryAfter c attempt e (ETransport err))
  | _, _ =>
      match handleRequestError c attempt e err with
      | Some r => inr r
      | None =>
          match handleResponse c attempt e statusCode body with
          | Some r => inr r
          | None => inl body
          end
      end
  end.

Section doJSON.
Context {A : Type} (zero : A) (Unmarshal : text → result string A).

Definition decodeJSONBody (body : text) : result qdrant_error A :=
  if decide (TrimSpace body = []) then Ok zero
  else match Unmarshal body with Ok a => Ok a | Err e => Err (EJson e) end.

(** What a call leaves: the requests sent, the delays slept, and its answer. *)
Record trace : Type := mkTrace { sent : list request; slept : list (option Z); answered : result qdrant_error A }.

Fixpoint attempts_loop (n : nat) (c : restClient) (req : result qdrant_error request) (env : nat → attempt_env)
    (attempt : nat) (lastErr : option qdrant_error) : trace :=
  match n with
  | O => mkTrace [] [] (Err (default ERequestFailed lastErr))
  | S n =>
      match req with
      | Err e => mkTrace [] [] (Err e)
      | Ok r =>
          match one_attempt c (Z.of_nat attempt) (env attempt) with
          | inl body => mkTrace [r] [] (decodeJSONBody body)
          | inr (retry, err, ds) =>
              if retry : bool then
                let t := attempts_loop n c req env (S attempt) (Some err) in
                mkTrace (r :: sent t) (ds ++ slept t) (answered t)
              else mkTrace [r] ds (Err err)
          end
      end
  end.

(** [payload] is what [json.Marshal] gives for the body, [None] for no body. *)
Definition doJSON (c : restClient) (m : method) (path : text) (payload : option (result string text)) (env : nat → attempt_env)
  : trace :=
  match payload with
  | Some (Err e) => mkTrace [] [] (Err (EJson e))
  | Some (Ok b) => attempts_loop (Z.to_nat (retryMaxAttempts c)) c (newRequest c m path b true) env 1 None
  | None => attempts_loop (Z.to_nat (retryMaxAttempts c)) c (newRequest c m path [] false) env 1 None
  end.

End doJSON.
End client.

(** ** Point identifiers ([entity.go]) *)

(** The kind is 1 for a string, 2 for an integer; a zero value is neither. *)
Inductive PointID : Type := PointIDNone | PointIDString (v : string) | PointIDInt (v : Z).

Section ids.
(** [json.Marshal] and [json.Unmarshal] of a string. *)
Context (EncodeString : string → text) (DecodeString : text → result string string).

Definition PointID_MarshalJSON (id : PointID) : result qdrant_error text :=
  match id with
  | PointIDString v => Ok (EncodeString v)
  | PointIDInt v => Ok (Itoa v)
  | PointIDNone => Err EInvalidPointID
  end.

(** The new value of [id]. *)
Definition PointID_UnmarshalJSON (data : text) (id : PointID) : PointID * option qdrant_error :=
  if decide (data = []) then (id, None)
  else if decide (data = str "null") then (id, None)
  else match data with
  | [] => (id, None)
  | c :: _ =>
      if Ascii.eqb c char_dquote then
        match DecodeString data with
        | Ok s => (PointIDString s, None)
        | Err e => (id, Some (EJson e))
        end
      else if isDigit c || Ascii.eqb c (char 45) then
        match Url.Atoi data with
        | Some i => (PointIDInt i, None)
        | None => (id, Some EInvalidPointID)
        end
      else (id, Some EInvalidPointID)
  end.
End ids.

(** ** Collection settings ([collection_config.go]) *)

Definition DistanceCosine : string := "Cosine".

Record VectorParams : Type := mkVector { Size : Z; Distance : string }.
Record HNSWConfig : Type := mkHNSW { M : Z; EfConstruct : Z }.
Record OptimizersConfig : Type := mkOptimizers { DefaultSegmentNumber : Z }.

(** What [Vectors] points to is shared by the copies of a configuration: [Single] is a
    pointer and [Named] a map, its entries in iteration order. *)
Record VectorsConfig : Type := mkVectors { Single : option VectorParams; Named : list (string * VectorParams) }.

Record CollectionConfig : Type := mkCollection {
  HNSW : option HNSWConfig; Optimizers : option OptimizersConfig;
  ShardNumber : Z; ReplicationFactor : Z; OnDiskPayload : option bool;
  Extras : list (string * any);
}.

Record Defaults : Type := mkDefaults { def_Distance : string; def_HNSW : HNSWConfig; def_Optim : OptimizersConfig }.
Definition DefaultCollectionDefaults : Defaults := mkDefaults DistanceCosine (mkHNSW 16 128) (mkOptimizers 2).

Definition default_distance (d : Defaults) (p : VectorParams) : VectorParams :=
  if decide (Distance p = "") then mkVector (Size p) (def_Distance d) else p.

(** The loop over [Named]: it stops at the first size that is not positive, with the
    entries before it already changed. *)
Fixpoint default_named (d : Defaults) (m : list (string * VectorParams)) : list (string * VectorParams) * option qdrant_error :=
  match m with
  | [] => ([], None)
  | (name, vp) :: m =>
      if Size vp <=? 0 then
        ((name, vp) :: m, Some (EInvalid ("qdrant: named vector '" +:+ name +:+ "' size must be > 0")))
      else let '(m, e) := default_named d m in ((name, default_distance d vp) :: m, e)
  end.

Definition no_vectors (v : VectorsConfig) : bool := bool_decide (Single v = None) && bool_decide (Named v = []).
Definition bad_single (v : VectorsConfig) : bool := match Single v with Some p => Size p <=? 0 | None => false end.
Definition vectors_required : qdrant_error := EInvalid "qdrant: vectors config is required".

(** [ApplyDefaults]: the shared vectors and the configuration, changed in place. *)
Definition ApplyDefaults (d : Defaults) (v : VectorsConfig) (c : CollectionConfig)
  : VectorsConfig * CollectionConfig * option qdrant_error :=
  if no_vectors v then (v, c, Some vectors_required)
  else if bad_single v then
    (v, c, Some (EInvalid "qdrant: vector size must be > 0"))
  else
    let single := default_distance d <$> Single v in
    match default_named d (Named v) with
    | (named, Some e) => (mkVectors single named, c, Some e)
    | (named, None) =>
        (mkVectors single named,
         mkCollection (Some (default (def_HNSW d) (HNSW c))) (Some (default (def_Optim d) (Optimizers c)))
           (ShardNumber c) (ReplicationFactor c) (OnDiskPayload c) (Extras c), None)
    end.

(** Numbers decoded from JSON are floats. *)
Definition num (z : Z) : any := AnyFloat64 (f64_of_Z z).
Definition num_field (k : string) (z : Z) : list (string * any) := if z =? 0 then [] else [(k, num z)].

Definition vector_json (p : VectorParams) : any := AnyMap [("size", num (Size p)); ("distance", AnyString (Distance p))].

(** [VectorsConfig.MarshalJSON], read back. *)
Definition Vectors_MarshalJSON (v : VectorsConfig) : result qdrant_error any :=
  match Single v, Named v with
  | Some _, _ :: _ => Err (EInvalid "qdrant: cannot specify both single and named vectors")
  | None, [] => Err vectors_required
  | Some p, [] => Ok (vector_json p)
  | None, named => Ok (AnyMap ((λ nv, (nv.1, vector_json nv.2)) <$> named))
  end.

(** [json.Marshal] of the configuration, unmarshalled into a map. *)
Definition typed_json (v : any) (c : CollectionConfig) : list (string * any) :=
  [("vectors", v)] ++
  match HNSW c with Some h => [("hnsw_config", AnyMap (num_field "m" (M h) ++ num_field "ef_construct" (EfConstruct h)))] | None => [] end ++
  match Optimizers c with Some o => [("optimizers_config", AnyMap (num_field "default_segment_number" (DefaultSegmentNumber o)))] | None => [] end ++
  num_field "shard_number" (ShardNumber c) ++ num_field "replication_factor" (ReplicationFactor c) ++
  match OnDiskPayload c with Some b => [("on_disk_payload", AnyBool b)] | None => [] end.

Definition has_key (k : string) (m : list (string * any)) : bool := existsb (λ kv, bool_decide (kv.1 = k)) m.

(** The loop over [Extras]. *)
Definition merge_extras (m extras : list (string * any)) : list (string * any) :=
  foldl (λ m kv, if has_key kv.1 m then m else m ++ [kv]) m extras.

(** [ToJSON] on a copy of [c] that shares its vectors, whose new value comes first. *)
Definition ToJSON (v : VectorsConfig) (c : CollectionConfig) : VectorsConfig * result qdrant_error (list (string * any)) :=
  match ApplyDefaults DefaultCollectionDefaults v c with
  | (v, _, Some e) => (v, Err e)
  | (v, cc, None) =>
      (v, match Vectors_MarshalJSON v with
          | Err e => Err e
          | Ok j => Ok (merge_extras (typed_json j cc) (Extras cc))
          end)
  end.

(** ** Operations ([qdrant.go]) *)

Section operations.
Context (Parse : text → option Url.URL).
(** The vectors are lists of [float32]; [Marshal] is [json.Marshal] of a body. *)
Context {float32 payload filter scored : Type}.

Record Point : Type := mkPoint { ID : PointID; Vector : list float32; Payload : payload }.

Inductive body : Type :=
  | PointsBody (points : list Point)                       (* {"points": [...]} *)
  | IDsBody (ids : list PointID)                           (* {"points": {"ids": [...]}} *)
  | SearchBody (vector : list float32) (limit offset : Z) (with_payload with_vector : bool)
      (score_threshold : option float32) (f : option filter)
  | CollectionBody (m : list (string * any)).

Context (Marshal : body → result string text) (UnmarshalAny : text → result string unit)
  (UnmarshalFilter : text → option filter) (UnmarshalPoints : text → result string (list scored))
  (UnmarshalStatus : text → result string string).

Definition collection_path (collection : text) : text := str "/collections/" ++ Url.PathEscape collection.
Definition wait_suffix (wait : bool) : text := if wait then str "?wait=true" else [].

(** Refused before anything is sent. *)
Definition refuse {A} (why : string) : trace (A := A) := mkTrace [] [] (Err (EInvalid why)).

Definition call (c : restClient) m path b env := doJSON Parse tt UnmarshalAny c m path b env.

Definition Health (c : restClient) env : trace (A := unit) := call c GET (str "/healthz") None env.

Definition UpsertPoints (c : restClient) (collection : text) (points : list Point) (wait : bool) env : trace (A := unit) :=
  if bool_decide (collection = []) || bool_decide (length points = O) then refuse "qdrant: UpsertPoints invalid request"
  else call c PUT (collection_path collection ++ str "/points" ++ wait_suffix wait) (Some (Marshal (PointsBody points))) env.

Definition DeletePoints (c : restClient) (collection : text) (ids : list PointID) (wait : bool) env : trace (A := unit) :=
  if bool_decide (collection = []) || bool_decide (length ids = O) then refuse "qdrant: DeletePoints invalid request"
  else call c POST (collection_path collection ++ str "/points/delete" ++ wait_suffix wait) (Some (Marshal (IDsBody ids))) env.

Definition Search (c : restClient) (collection : text) (vector : list float32) (limit offset : Z)
    (with_payload with_vector : bool) (score_threshold : option float32) (rawFilter : text) env : trace (A := list scored) :=
  if bool_decide (collection = []) || bool_decide (length vector = O) || (limit <=? 0) then refuse "qdrant: Search invalid request"
  else
    let go f := doJSON Parse [] UnmarshalPoints c POST (collection_path collection ++ str "/points/search")
                  (Some (Marshal (SearchBody vector limit offset with_payload with_vector score_threshold f))) env in
    if decide (rawFilter = []) then go None
    else match UnmarshalFilter rawFilter with
         | None => refuse "qdrant: invalid filter JSON"
         | Some f => go (Some f)
         end.

Definition CreateCollection (c : restClient) (collection : text) (v : VectorsConfig) (cfg : CollectionConfig) env
  : VectorsConfig * trace (A := unit) :=
  if decide (TrimSpace collection = []) then (v, refuse "qdrant: CreateCollection invalid collection")
  else match ToJSON v cfg with
       | (v, Err e) => (v, mkTrace [] [] (Err e))
       | (v, Ok b) => (v, call c PUT (collection_path collection) (Some (Marshal (CollectionBody b))) env)
       end.

Definition DeleteCollection (c : restClient) (collection : text) env : trace (A := unit) :=
  if decide (TrimSpace collection = []) then refuse "qdrant: DeleteCollection invalid collection"
  else call c DELETE (collection_path collection) None env.

Definition GetCollectionInfo (c : restClient) (collection : text) env : trace (A := string) :=
  if decide (TrimSpace collection = []) then refuse "qdrant: GetCollectionInfo invalid collection"
  else doJSON Parse ""%string UnmarshalStatus c GET (collection_path collection) None env.

End operations.

End Qdrant.
