(* ===== verification/QdrantProps.v ===== *)
(** * Properties of the Qdrant client

    The retry loop against its reference (the first attempt that is not retried), the
    backoff, the URLs of collections, point identifiers and collection settings. *)

From Stdlib Require Import ZArith Lia Ascii.
From stdpp Require Import base numbers strings list pretty.
From S2P Require Import Prelude GoValue SqlText Url Qdrant.
Local Open Scope Z_scope.

Module QdrantProps.
Import Qdrant.

(** ** The retry loop *)

(** Answers worth another attempt. *)
Definition retryable (a : answer) : bool :=
  match a with
  | DoErr e => isRetryableNetErr e
  | Answer code (Err e) => bool_decide (code ≠ 0) || isRetryableNetErr e
  | Answer code (Ok _) => isRetryableStatus code
  end.

Lemma status_error code body : isRetryableStatus code = true →
  qdrantStatusError code body = Some (EHttp (mapHTTPStatus code) code body).
Proof. unfold isRetryableStatus, qdrantStatusError. intros H. destruct (_ && _) eqn:E; [lia|done]. Qed.

(** An attempt asks for another one exactly when it is not the last, its answer is worth
    it and the context outlives the sleep. *)
Lemma one_attempt_retries c k e :
  (∃ err ds, one_attempt c k e = inr (true, err, ds)) ↔
  k ≠ retryMaxAttempts c ∧ retryable (env_answer e) = true ∧ env_sleep e = None.
Proof.
  unfold one_attempt, retryable, retryAfter, handleRequestError. destruct (env_answer e) as [err|code [body|err]]; cbn [doRequest].
  - rewrite bool_decide_eq_false_2 by lia. destruct (isRetryableNetErr err); cbn; [|naive_solver].
    destruct (k =? retryMaxAttempts c) eqn:E; [naive_solver lia|]. destruct (env_sleep e); naive_solver lia.
  - unfold handleResponse. destruct (isRetryableStatus code) eqn:Er.
    + rewrite (status_error code body Er). unfold retryAfter. destruct (k =? retryMaxAttempts c) eqn:E; [naive_solver lia|].
      destruct (env_sleep e); naive_solver lia.
    + destruct (qdrantStatusError code body); naive_solver.
  - case_bool_decide; cbn.
    + destruct (k =? retryMaxAttempts c) eqn:E; [naive_solver lia|]. destruct (env_sleep e); naive_solver lia.
    + destruct (isRetryableNetErr err); cbn; [|naive_solver].
      destruct (k =? retryMaxAttempts c) eqn:E; [naive_solver lia|]. destruct (env_sleep e); naive_solver lia.
Qed.

Definition goes_on (c : restClient) (env : nat → attempt_env) (k : nat) : Prop :=
  Z.of_nat k ≠ retryMaxAttempts c ∧ retryable (env_answer (env k)) = true ∧ env_sleep (env k) = None.

Section loop.
Context (Parse : text → option Url.URL) {A : Type} (zero : A) (Unmarshal : text → result string A).

Definition verdict (c : restClient) (env : nat → attempt_env) (k : nat) : result qdrant_error A :=
  match one_attempt c (Z.of_nat k) (env k) with
  | inl body => decodeJSONBody zero Unmarshal body
  | inr (_, err, _) => Err err
  end.

Lemma loop_spec c r env n : ∀ k0 lastErr,
  (0 < n)%nat → Z.of_nat (k0 + n) = retryMaxAttempts c + 1 →
  let t := attempts_loop zero Unmarshal n c (Ok r) env k0 lastErr in
  ∃ k, (k0 <= k < k0 + n)%nat ∧ (∀ j, (k0 <= j < k)%nat → goes_on c env j) ∧ ¬ goes_on c env k ∧
    sent t = replicate (k - k0 + 1) r ∧ answered t = verdict c env k.
Proof.
  induction n as [|n IH]; intros k0 lastErr Hn Hk; [lia|]. cbn zeta. cbn [attempts_loop]. unfold verdict.
  destruct (one_attempt c (Z.of_nat k0) (env k0)) as [body|[[retry err] ds]] eqn:E.
  - exists k0. split_and!; [lia|lia|lia| |by rewrite Nat.sub_diag|by rewrite E].
    intros Hg. apply one_attempt_retries in Hg as (? & ? & ?). congruence.
  - destruct retry.
    + assert (goes_on c env k0) as Hg by (apply one_attempt_retries; by eexists _, _).
      destruct (IH (S k0) (Some err)) as (k & Hk1 & Hk2 & Hk3 & Hs & Ha); [destruct Hg; lia|lia|]. exists k. cbn zeta in *.
      cbn [sent answered]. rewrite Hs, Ha. split_and!; [lia|lia| |done| |done].
      * intros j Hj. destruct (decide (j = k0)) as [->|?]; [done|]. apply Hk2. lia.
      * replace (k - k0 + 1)%nat with (S (k - S k0 + 1)) by lia. done.
    + exists k0. split_and!; [lia|lia|lia| |by rewrite Nat.sub_diag|by rewrite E].
      intros Hg. apply one_attempt_retries in Hg as (? & ? & ?). congruence.
Qed.

(** (C29) [doJSON] with a request it can build: it sends that request once per attempt up to the
    first attempt that is not retried, and answers with that attempt. The number of requests
    is between one and [retryMaxAttempts]; an attempt is retried exactly when it is not the
    last one, its answer is retryable (a timeout, a failed read, status 429 or 500 and
    above) and the context outlives the sleep. *)
Theorem doJSON_first_decisive c m path payload env r :
  0 < retryMaxAttempts c →
  newRequest Parse c m path (default [] payload) (bool_decide (is_Some payload)) = Ok r →
  let t := doJSON Parse zero Unmarshal c m path (Ok <$> payload) env in
  ∃ k, (1 <= Z.of_nat k <= retryMaxAttempts c) ∧ (∀ j, (1 <= j < k)%nat → goes_on c env j) ∧ ¬ goes_on c env k ∧
    sent t = replicate k r ∧ answered t = verdict c env k.
Proof.
  intros Hmax Hr. cbn zeta.
  assert (doJSON Parse zero Unmarshal c m path (Ok <$> payload) env =
            attempts_loop zero Unmarshal (Z.to_nat (retryMaxAttempts c)) c (Ok r) env 1 None) as ->.
  { unfold doJSON. destruct payload; cbn in *; by rewrite Hr. }
  destruct (loop_spec c r env (Z.to_nat (retryMaxAttempts c)) 1 None) as (k & Hk & Hj & Hn & Hs & Ha); [lia|lia|].
  exists k. split_and!; [lia|lia|done|done| |done]. rewrite Hs. f_equal. lia.
Qed.

(** Every error of [http.Client.Do] is a [net.Error], so the messages [isRetryableNetErr]
    lists are never looked at: a refused or reset connection, which is no timeout, ends the
    call after one request, whatever the settings say. *)
Theorem refused_connection_not_retried c m path payload env r msg :
  0 < retryMaxAttempts c →
  newRequest Parse c m path (default [] payload) (bool_decide (is_Some payload)) = Ok r →
  env_answer (env 1%nat) = DoErr (NetError false msg) →
  let t := doJSON Parse zero Unmarshal c m path (Ok <$> payload) env in
  sent t = [r] ∧ slept t = [] ∧ answered t = Err (ETransport (NetError false msg)).
Proof.
  intros Hmax Hr He. cbn zeta.
  assert (doJSON Parse zero Unmarshal c m path (Ok <$> payload) env =
            attempts_loop zero Unmarshal (Z.to_nat (retryMaxAttempts c)) c (Ok r) env 1 None) as ->.
  { unfold doJSON. destruct payload; cbn in *; by rewrite Hr. }
  destruct (Z.to_nat (retryMaxAttempts c)) as [|n] eqn:En; [lia|]. cbn [attempts_loop].
  unfold one_attempt. rewrite He. done.
Qed.

(** ** Backoff *)

(** Without jitter: while the doubled delay fits in 63 bits it is capped at
    [retryMaxDelay]; from attempt 65 on the shift has dropped every bit and there is no
    delay at all. *)
Theorem backoff_spec c attempt rnd :
  f64_ltb (f64_of_Z 0) (retryJitter c) = false → 1 <= attempt → 0 < retryBaseDelay c → 0 <= retryMaxDelay c →
  (retryBaseDelay c * 2 ^ (attempt - 1) < 2 ^ 63 →
     backoff c attempt rnd = Some (Z.min (retryBaseDelay c * 2 ^ (attempt - 1)) (retryMaxDelay c))) ∧
  (65 <= attempt → backoff c attempt rnd = Some 0).
Proof.
  intros Hj Ha Hb Hm. unfold backoff. rewrite Hj, Z.shiftl_1_l. split.
  - intros Hlt. assert (0 < 2 ^ (attempt - 1)) by lia. assert (2 ^ (attempt - 1) <= retryBaseDelay c * 2 ^ (attempt - 1)) by nia.
    rewrite (i64_id (2 ^ (attempt - 1))) by (unfold is_i64; lia). rewrite i64_id by (unfold is_i64; lia).
    f_equal. destruct (_ <? _) eqn:E; lia.
  - intros H65. assert (i64 (2 ^ (attempt - 1)) = 0) as ->.
    { unfold i64, swrap. replace (2 ^ (attempt - 1)) with (2 ^ (attempt - 65) * 2 ^ 64) by (rewrite <- Z.pow_add_r; f_equal; lia).
      rewrite Z.add_comm, Z_mod_plus_full. reflexivity. }
    rewrite Z.mul_0_r. change (i64 0) with 0. destruct (_ <? 0) eqn:E; [lia|done].
Qed.
End loop.

(** ** The URL of a collection *)

Lemma Cut_none s : char_mark ∉ s → Cut s = (s, []).
Proof.
  induction s as [|c s IH]; [done|]. rewrite not_elem_of_cons. intros [Hc Hs]. cbn.
  rewrite (proj2 (Ascii.eqb_neq c char_mark)) by done. by rewrite IH.
Qed.

Lemma collection_path_no_mark name : char_mark ∉ collection_path name.
Proof.
  unfold collection_path, Url.PathEscape. rewrite elem_of_app.
  intros [H|H]; [by apply Url.one_of_spec in H|by apply Url.escape_avoids in H; [|vm_compute]].
Qed.

Lemma EscapedPath_decodes path : Url.char_slash ∈ path → Url.unescape (Url.EscapedPath path) = Some path.
Proof.
  intros Hin. unfold Url.EscapedPath. case_decide as E; [subst; by apply Url.one_of_spec in Hin|]. by apply Url.unescape_escape.
Qed.

(** The name of a collection is escaped when the path is built and again when the URL is
    printed. A server that decodes the path once reads the escaped name: the collection the
    caller named when no byte of it needs escaping, and another one otherwise. *)
Theorem collection_name_escaped_twice Parse c base name rest :
  Parse (baseURL c) = Some base → char_mark ∉ rest →
  let path := TrimRightSlash (Url.Path base) ++ str "/collections/" ++ Url.PathEscape name ++ rest in
  requestURL Parse c (collection_path name ++ rest) = Ok (Url.String (with_path base path [])) ∧
  Url.unescape (Url.EscapedPath path) = Some path ∧
  (Url.PathEscape name = name ↔ Forall (λ ch, Url.shouldEscape ch Url.encodePathSegment = false) name).
Proof.
  intros Hp Hrest path. split_and!.
  - unfold requestURL. rewrite Hp. change (HasPrefix (collection_path name ++ rest) (str "/")) with true. cbn [negb].
    rewrite Cut_none; [|rewrite elem_of_app; intros [?|?]; [by eapply collection_path_no_mark|done]].
    unfold collection_path, path. by rewrite <- !app_assoc.
  - apply EscapedPath_decodes. unfold path. rewrite !elem_of_app. right. left. left.
  - unfold Url.PathEscape. split; [|by apply Url.escape_id]. intros E.
    apply (Url.escape_length Url.encodePathSegment name); [done|]. by rewrite E.
Qed.

(** ** Point identifiers *)

(** A point identifier survives JSON: an integer of 64 bits always, a string whenever the
    codec gives it back (and quotes it); a zero value is refused. *)
Theorem PointID_roundtrip EncodeString DecodeString id old :
  (∀ v, id = PointIDString v →
     DecodeString (EncodeString v) = Ok v ∧ head (EncodeString v) = Some char_dquote) →
  (∀ v, id = PointIDInt v → is_i64 v) →
  match PointID_MarshalJSON EncodeString id with
  | Ok data => PointID_UnmarshalJSON DecodeString data old = (id, None)
  | Err e => id = PointIDNone ∧ e = EInvalidPointID
  end.
Proof.
  intros Hs Hi. destruct id as [|v|v]; cbn; [done| |].
  - destruct (Hs v eq_refl) as [Hd Hq]. unfold PointID_UnmarshalJSON. destruct (EncodeString v) as [|c s] eqn:E; [done|].
    injection Hq as ->. rewrite decide_False by done. rewrite decide_False by done. cbn. by rewrite Hd.
  - pose proof (Url.Atoi_Itoa v (Hi v eq_refl)) as Ha. unfold PointID_UnmarshalJSON.
    assert (∃ c s, Itoa v = c :: s ∧ Ascii.eqb c char_dquote = false ∧ isDigit c || Ascii.eqb c (char 45) = true) as (c & s & E & Hq & Hc).
    { destruct (Url.Itoa_cases v) as [[_ ->]|[_ ->]]; [|by eexists _, _].
      destruct (Url.digits_pretty_N (Z.to_N v)) as (_ & Hne & Hd). destruct (str (pretty (Z.to_N v))) as [|c s]; [done|].
      injection Hd as Hd. exists c, s. split; [done|]. rewrite Hd. split; [|done]. apply Ascii.eqb_neq. intros ->. by vm_compute in Hd. }
    rewrite E in *. rewrite decide_False by done. rewrite decide_False.
    + by rewrite Hq, Hc, Ha.
    + intros En. rewrite En in Ha. by vm_compute in Ha.
Qed.

(** ** Collection settings *)

Definition get (k : string) (m : list (string * any)) : option any := snd <$> List.find (λ kv, bool_decide (kv.1 = k)) m.

Lemma get_app k m m' : get k (m ++ m') = match get k m with Some v => Some v | None => get k m' end.
Proof. unfold get. induction m as [|[k' v] m IH]; cbn; [done|]. by case_bool_decide. Qed.

Lemma has_key_get k m : has_key k m = true ↔ is_Some (get k m).
Proof.
  unfold has_key, get. induction m as [|[k' v] m IH]; cbn; [split; [done|by intros [? ?]]|].
  case_bool_decide; cbn; [split; [by eexists|done]|done].
Qed.

Lemma get_merge k extras : ∀ m,
  get k (merge_extras m extras) = match get k m with Some v => Some v | None => get k extras end.
Proof.
  unfold merge_extras. induction extras as [|[k' v] extras IH]; intros m; cbn [foldl].
  { by destruct (get k m). }
  rewrite IH. cbn [fst]. destruct (has_key k' m) eqn:E.
  - destruct (get k m) eqn:Ek; [done|]. unfold get at 2. cbn. case_bool_decide as Hkk; [|done]. subst.
    apply has_key_get in E as [? ?]. congruence.
  - rewrite get_app. destruct (get k m); [done|]. unfold get at 1 3. cbn. by case_bool_decide.
Qed.

Definition filled (v : VectorsConfig) : VectorsConfig :=
  mkVectors (default_distance DefaultCollectionDefaults <$> Single v)
    ((λ nv, (nv.1, default_distance DefaultCollectionDefaults nv.2)) <$> Named v).

Lemma default_distance_idem d p : def_Distance d ≠ ""%string → default_distance d (default_distance d p) = default_distance d p.
Proof. intros Hd. unfold default_distance. do 2 case_decide; done. Qed.

Lemma default_distance_size d p : Size (default_distance d p) = Size p.
Proof. unfold default_distance. by case_decide. Qed.

Lemma default_named_ok d m m' :
  default_named d m = (m', None) → m' = (λ nv, (nv.1, default_distance d nv.2)) <$> m ∧ Forall (λ nv, 0 < Size nv.2) m.
Proof.
  revert m'. induction m as [|[n vp] m IH]; intros m'; cbn; [by intros [= <-]|].
  destruct (Size vp <=? 0) eqn:E; [done|]. destruct (default_named d m) as [m1 e]. intros [= <- ->].
  destruct (IH m1 eq_refl) as [-> Hf]. split; [done|]. constructor; [cbn; lia|done].
Qed.

Lemma default_named_positive d m : Forall (λ nv, 0 < Size nv.2) m →
  default_named d m = ((λ nv, (nv.1, default_distance d nv.2)) <$> m, None).
Proof.
  induction 1 as [|[n vp] m Hp _ IH]; cbn in *; [done|]. destruct (Size vp <=? 0) eqn:E; [lia|]. by rewrite IH.
Qed.

Lemma filled_idem v : filled (filled v) = filled v.
Proof.
  unfold filled. cbn [Single Named]. f_equal.
  - destruct (Single v); [|done]. cbn. by rewrite default_distance_idem.
  - rewrite <- list_fmap_compose. apply list_fmap_ext. intros i [n p] _. cbn. by rewrite default_distance_idem.
Qed.

(** Positive sizes, and something to build. *)
Definition sized (v : VectorsConfig) : Prop :=
  no_vectors v = false ∧ (∀ p, Single v = Some p → 0 < Size p) ∧ Forall (λ nv, 0 < Size nv.2) (Named v).

Lemma ApplyDefaults_ok v c v' c' :
  ApplyDefaults DefaultCollectionDefaults v c = (v', c', None) →
  sized v ∧ v' = filled v ∧
  c' = mkCollection (Some (default (mkHNSW 16 128) (HNSW c))) (Some (default (mkOptimizers 2) (Optimizers c)))
         (ShardNumber c) (ReplicationFactor c) (OnDiskPayload c) (Extras c).
Proof.
  unfold ApplyDefaults. destruct (no_vectors v) eqn:E1; [done|]. destruct (bad_single v) eqn:E2; [done|].
  destruct (default_named _ _) as [named [e|]] eqn:E3; [done|]. apply default_named_ok in E3 as [-> Hf].
  intros [= <- <-]. split; [|done]. split; [done|]. split; [|done]. intros p Hp. unfold bad_single in E2. rewrite Hp in E2. lia.
Qed.

Lemma ApplyDefaults_sized v c :
  sized v → ApplyDefaults DefaultCollectionDefaults v c =
    (filled v, mkCollection (Some (default (mkHNSW 16 128) (HNSW c))) (Some (default (mkOptimizers 2) (Optimizers c)))
                 (ShardNumber c) (ReplicationFactor c) (OnDiskPayload c) (Extras c), None).
Proof.
  intros (H1 & H2 & H3). unfold ApplyDefaults. rewrite H1, default_named_positive by done.
  destruct (bad_single v) eqn:E; [|done]. unfold bad_single in E. destruct (Single v) eqn:Es; [specialize (H2 _ eq_refl); lia|done].
Qed.

Lemma filled_sized v : sized v → sized (filled v).
Proof.
  intros (H1 & H2 & H3). unfold sized, filled, no_vectors in *. cbn. split_and!.
  - destruct (Single v), (Named v); done.
  - intros p Hp. apply fmap_Some in Hp as (q & Hq & ->). rewrite default_distance_size. by apply H2.
  - apply Forall_fmap. eapply Forall_impl; [done|]. intros nv. cbn. by rewrite default_distance_size.
Qed.

(** A body [ToJSON] builds: the typed settings, with the defaults filled in, win over
    [Extras], which supply every other key. The vectors, which the copy of the settings
    shares with the caller's, are left with their default distances written in; building
    the body again gives the same result. *)
Theorem ToJSON_spec v c v' m :
  ToJSON v c = (v', Ok m) →
  sized v ∧ v' = filled v ∧ ToJSON v' c = (v', Ok m) ∧
  ∃ j, Vectors_MarshalJSON v' = Ok j ∧
    ∀ k, get k m =
      match get k (typed_json j (mkCollection (Some (default (mkHNSW 16 128) (HNSW c))) (Some (default (mkOptimizers 2) (Optimizers c)))
                                   (ShardNumber c) (ReplicationFactor c) (OnDiskPayload c) (Extras c)))
      with Some x => Some x | None => get k (Extras c) end.
Proof.
  unfold ToJSON. destruct (ApplyDefaults _ v c) as [[v1 cc] [e|]] eqn:E; [done|].
  apply ApplyDefaults_ok in E as (Hs & -> & ->). intros Ht.
  destruct (Vectors_MarshalJSON (filled v)) as [j|e] eqn:Ej; [|done]. injection Ht as <- <-.
  split; [done|]. split; [done|]. split.
  - rewrite ApplyDefaults_sized by by apply filled_sized. by rewrite filled_idem, Ej.
  - exists j. split; [done|]. intros k. apply get_merge.
Qed.

(** ** A client *)
Module Demo.
Definition base : Url.URL := Url.mkURL (str "http") None (str "localhost:6333") [] false [] [].
Definition parse (s : text) : option Url.URL := Some base.
Definition client (n : Z) : restClient :=
  mkClient (str "http://localhost:6333") (str "key") (10 * second) (5 * second) (90 * second) n (150 * millisecond) (2 * second) (f64_of_Z 0).
(** Busy twice, then an empty answer. *)
Definition env (k : nat) : attempt_env :=
  mkEnv (if (k <? 3)%nat then Answer 503 (Ok []) else Answer 200 (Ok [])) None None.
Definition refused (k : nat) : attempt_env := mkEnv (DoErr (NetError false (str "connection refused"))) None None.
Definition request : request := mkRequest GET (str "http://localhost:6333/healthz") [] [("api-key"%string, str "key")].
Definition decode (_ : text) : result string unit := Ok tt.
Definition vectors : VectorsConfig := mkVectors (Some (mkVector 4 "")) [].
Definition settings : CollectionConfig :=
  mkCollection None None 0 0 None [("hnsw_config"%string, AnyNil); ("on_disk"%string, AnyBool true)].
End Demo.

(** Three requests, with 150 and 300 milliseconds between them. *)
Example Demo_run :
  let t := doJSON Demo.parse tt Demo.decode (Demo.client 5) GET (str "/healthz") None Demo.env in
  length (sent t) = 3%nat ∧ slept t = [Some 150000000; Some 300000000] ∧ answered t = Ok tt.
Proof. by vm_compute. Qed.

(** The collection "a b" is asked for as "a%20b". *)
Example Demo_space :
  requestURL Demo.parse (Demo.client 5) (collection_path (str "a b")) =
    Ok (str "http://localhost:6333/collections/a%2520b").
Proof. by vm_compute. Qed.

(** The same text in an error that is not a [net.Error] would have been retried. *)
Example Demo_refused : isRetryableNetErr (OtherError (str "dial tcp: Connection refused")) = true.
Proof. by vm_compute. Qed.

(** After 36 doublings of 150 milliseconds the delay is negative. *)
Example Demo_overflow : ∃ d, backoff (Demo.client 100) 37 None = Some d ∧ d < 0.
Proof. eexists. split; [by vm_compute|]. by vm_compute. Qed.

Lemma doJSON_first_decisive_witness :
  ∃ k, 1 <= Z.of_nat k <= 5 ∧
    sent (doJSON Demo.parse tt Demo.decode (Demo.client 5) GET (str "/healthz") None Demo.env) = replicate k Demo.request.
Proof.
  destruct (doJSON_first_decisive Demo.parse tt Demo.decode (Demo.client 5) GET (str "/healthz") None Demo.env Demo.request)
    as (k & Hk & _ & _ & Hs & _); [by vm_compute|by vm_compute|]. exists k. split; [exact Hk|exact Hs].
Defined.

Lemma refused_connection_not_retried_witness :
  sent (doJSON Demo.parse tt Demo.decode (Demo.client 5) GET (str "/healthz") None Demo.refused) = [Demo.request].
Proof.
  apply (refused_connection_not_retried Demo.parse tt Demo.decode (Demo.client 5) GET (str "/healthz") None Demo.refused
           Demo.request (str "connection refused")); by vm_compute.
Defined.

Lemma backoff_spec_witness : backoff (Demo.client 100) 5 None = Some (2 * second) ∧ backoff (Demo.client 100) 70 None = Some 0.
Proof.
  split.
  - rewrite (proj1 (backoff_spec (Demo.client 100) 5 None ltac:(by vm_compute) ltac:(lia) ltac:(by vm_compute) ltac:(by vm_compute)));
      by vm_compute.
  - apply (proj2 (backoff_spec (Demo.client 100) 70 None ltac:(by vm_compute) ltac:(lia) ltac:(by vm_compute) ltac:(by vm_compute))). lia.
Defined.

Lemma collection_name_escaped_twice_witness :
  requestURL Demo.parse (Demo.client 5) (collection_path (str "a b") ++ str "/points") =
    Ok (str "http://localhost:6333/collections/a%2520b/points").
Proof.
  destruct (collection_name_escaped_twice Demo.parse (Demo.client 5) Demo.base (str "a b") (str "/points")) as (E & _);
    [reflexivity|by intros ?%Url.one_of_spec|]. rewrite E. by vm_compute.
Defined.

Lemma PointID_roundtrip_witness :
  PointID_UnmarshalJSON (λ _, Err ""%string) (Itoa (-42)) PointIDNone = (PointIDInt (-42), None).
Proof.
  apply (PointID_roundtrip (λ _, []) (λ _, Err ""%string) (PointIDInt (-42)) PointIDNone); [done|].
  intros v [= <-]. in_range.
Defined.

Lemma ToJSON_spec_witness : (ToJSON Demo.vectors Demo.settings).1 = filled Demo.vectors ∧ sized Demo.vectors.
Proof.
  split; [by vm_compute|].
  destruct (ToJSON Demo.vectors Demo.settings) as [v' [m|e]] eqn:E; [|by vm_compute in E].
  exact (proj1 (ToJSON_spec Demo.vectors Demo.settings v' m E)).
Defined.

End QdrantProps.
