(* ===== verification/Oidc.v ===== *)
(** * OpenID Connect logins ([src/core/auth/oidc])

    The client of the authorization-code flow with PKCE: state, nonce and verifier are drawn
    at random and kept in the session, the callback is checked against them. The session
    store is an interface ([SessionStore], the code's [sessionStore]) with its laws
    ([SessionLaws]); the provider is a parameter: what an exchange of a code gives, what
    verifying an identity token gives, and the URL the OAuth2 library prints. *)

From Stdlib Require Import ZArith Lia Ascii.
From stdpp Require Import base numbers strings gmap list.
From S2P Require Import Prelude Collections GoValue SqlText Messaging MySqlConn.
Local Open Scope Z_scope.

Module Oidc.

(** ** Errors and settings ([errors.go], [config.go], [types.go]) *)

Inductive oidc_error : Type :=
  | ErrNilConfig | ErrMissingIssuer | ErrMissingClientID | ErrMissingRedirectURL | ErrMissingSession
  | ErrMissingState | ErrInvalidState | ErrMissingCode | ErrMissingNonce | ErrMissingVerifier | ErrMissingIDToken
  | ErrEndpointsRequired
  | ErrNoLogout
  | ErrExternal (e : string).         (* of the random source, the session, the provider or the JSON decoder *)

Record Endpoints : Type := mkEndpoints { AuthURL : string; TokenURL : string; LogoutURL : string; JWKsURL : string }.

Record Config : Type := mkConfig {
  Issuer : string; ClientID : string; ClientSecret : string; RedirectURL : string; Scopes : list string;
  cfg_Endpoints : option Endpoints; cfg_Session : bool;     (* a session manager is given *)
}.

Record IDTokenClaims : Type := mkClaims {
  iss : string; sub : string; aud : list string; exp : Z; iat : Z; nonce : string; email : string; email_verified : bool;
  name : string; given_name : string; family_name : string; picture : string; locale : string;
}.

(** ** PKCE ([pkce.go]) *)

Definition pkceVerifierLen : Z := 32.

(** [base64.RawURLEncoding.EncodeToString] *)
Fixpoint raw_encode (bs : list Z) : text :=
  match bs with
  | [] => []
  | [a] => [b64_char (Z.shiftr a 2); b64_char (Z.shiftl a 4)]
  | [a; b] => [b64_char (Z.shiftr a 2); b64_char (Z.lor (Z.shiftl a 4) (Z.shiftr b 4)); b64_char (Z.shiftl b 2)]
  | a :: b :: c :: bs =>
      b64_char (Z.shiftr a 2) :: b64_char (Z.lor (Z.shiftl a 4) (Z.shiftr b 4)) ::
      b64_char (Z.lor (Z.shiftl b 2) (Z.shiftr c 6)) :: b64_char c :: raw_encode bs
  end.

(** [random] is what reading 32 random bytes gives. *)
Definition generateVerifier (random : result string (list Z)) : result oidc_error string :=
  match random with
  | Err e => Err (ErrExternal e)
  | Ok b => Ok (String.string_of_list_ascii (raw_encode b))
  end.

(** [sha256.Sum256] is a parameter. *)
Definition challengeFromVerifier (Sum256 : string → list Z) (verifier : string) : string :=
  String.string_of_list_ascii (raw_encode (Sum256 verifier)).

(** ** The client ([client.go]) *)

Definition sessionStateKey : string := "oidc_state".
Definition sessionNonceKey : string := "oidc_nonce".
Definition sessionVerifierKey : string := "oidc_verifier".

(** [sessionStore]; a store decides itself when a call fails. *)
Class SessionStore (S : Type) : Type := {
  Put : S → string → string → S * option string;
  GetString : S → string → result string string;
  Remove : S → string → S * option string;
}.

(** A call that succeeds is seen by later reads, a missing key reads as the empty string,
    and a call on one key leaves the others alone. *)
Class SessionLaws (S : Type) `{SessionStore S} : Prop := {
  get_put s k v s' : Put s k v = (s', None) → GetString s' k = Ok v;
  get_put_ne s k v s' r k' : Put s k v = (s', r) → k ≠ k' → GetString s' k' = GetString s k';
  get_remove s k s' : Remove s k = (s', None) → GetString s' k = Ok "";
  get_remove_ne s k s' r k' : Remove s k = (s', r) → k ≠ k' → GetString s' k' = GetString s k';
}.

Record Client : Type := mkClient { c_issuer : string; c_ClientID : string; c_RedirectURL : string; c_Scopes : list string;
  c_endpoints : Endpoints }.

Definition normalizeScopes (scopes : list string) : list string :=
  "openid" :: filter (λ s, s ≠ "" ∧ s ≠ "openid") scopes.

Definition or_else (s d : string) : string := if decide (s = "") then d else s.

(** [NewProvider] discovers the endpoints of the issuer, or fails. *)
Definition New (NewProvider : string → result string (string * string)) (cfg : option Config) : result oidc_error Client :=
  match cfg with
  | None => Err ErrNilConfig
  | Some cfg =>
      if decide (ClientID cfg = "") then Err ErrMissingClientID
      else if decide (RedirectURL cfg = "") then Err ErrMissingRedirectURL
      else if negb (cfg_Session cfg) then Err ErrMissingSession
      else if decide (Issuer cfg = "") then Err ErrMissingIssuer
      else match NewProvider (Issuer cfg) with
      | Err e => Err (ErrExternal e)
      | Ok (auth, token) =>
          let e := default (mkEndpoints "" "" "" "") (cfg_Endpoints cfg) in
          let e := mkEndpoints (or_else (AuthURL e) auth) (or_else (TokenURL e) token) (LogoutURL e) (JWKsURL e) in
          if bool_decide (AuthURL e = "") || bool_decide (TokenURL e = "") then Err ErrEndpointsRequired
          else Ok (mkClient (Issuer cfg) (ClientID cfg) (RedirectURL cfg) (normalizeScopes (Scopes cfg)) e)
      end
  end.

Section flow.
Context {S : Type} `{SessionStore S}.
Context (Sum256 : string → list Z).

(** The parameters handed to [oauth2.Config.AuthCodeURL]: the state, and the options in
    order, the caller's last. *)
Definition auth_request : Type := string * list (string * string).

(** Three puts, stopping at the first that fails. *)
Definition put_all (s : S) (kvs : list (string * string)) : S * option oidc_error :=
  foldl (λ acc kv, match acc with
                   | (s, None) => let '(s, e) := Put s kv.1 kv.2 in (s, ErrExternal <$> e)
                   | (s, Some e) => (s, Some e)
                   end) (s, None) kvs.

(** [r1], [r2], [r3] are the three reads of random bytes; [c] is [None] for a nil client. *)
Definition AuthCodeURL (c : option Client) (r1 r2 r3 : result string (list Z)) (opts : list (string * string)) (s : S)
  : S * result oidc_error auth_request :=
  match c with
  | None => (s, Err ErrNilConfig)
  | Some _ =>
      match generateVerifier r1, generateVerifier r2, generateVerifier r3 with
      | Ok state, Ok nonce, Ok verifier =>
          match put_all s [(sessionStateKey, state); (sessionNonceKey, nonce); (sessionVerifierKey, verifier)] with
          | (s, Some e) => (s, Err e)
          | (s, None) =>
              (s, Ok (state, [("nonce", nonce); ("code_challenge", challengeFromVerifier Sum256 verifier);
                              ("code_challenge_method", "S256")] ++ opts))
          end
      | Err e, _, _ | Ok _, Err e, _ | Ok _, Ok _, Err e => (s, Err e)
      end
  end.

(** *** The callback *)

(** An identity token the provider's verifier accepted: its nonce, and its claims as JSON. *)
Record id_token : Type := mkIDToken { id_Nonce : string; id_claims : list (string * any) }.

(** [encoding/json] into the fields of [IDTokenClaims]: a missing or null field keeps its
    zero value, a value of another type is an error. *)
Definition json_string (v : option any) : option string :=
  match v with None | Some AnyNil => Some "" | Some (AnyString s) => Some s | _ => None end.
Definition json_bool (v : option any) : option bool :=
  match v with None | Some AnyNil => Some false | Some (AnyBool b) => Some b | _ => None end.
(** A number whose value is an integer of 64 bits. *)
Definition json_int64 (v : option any) : option Z :=
  match v with
  | None | Some AnyNil => Some 0
  | Some (AnyInt64 z) => Some z
  | _ => None
  end.
Definition json_strings (v : option any) : option (list string) :=
  match v with
  | None | Some AnyNil => Some []
  | Some (AnyList l) => mapM (λ x, json_string (Some x)) l
  | _ => None
  end.

Definition decode_claims (m : list (string * any)) : option IDTokenClaims :=
  let get k := MySqlConn.map_get k m in
  i ← json_string (get "iss"); s ← json_string (get "sub"); a ← json_strings (get "aud");
  e ← json_int64 (get "exp"); t ← json_int64 (get "iat"); n ← json_string (get "nonce");
  em ← json_string (get "email"); ev ← json_bool (get "email_verified");
  na ← json_string (get "name"); gn ← json_string (get "given_name"); fn ← json_string (get "family_name");
  pi ← json_string (get "picture"); lo ← json_string (get "locale");
  Some (mkClaims i s a e t n em ev na gn fn pi lo).

(** What the token endpoint answers: the [id_token] of the response, if it is a string. *)
Definition token_response : Type := option string.

Record provider : Type := mkProvider {
  Exchange : string → string → result string token_response;      (* code, code verifier *)
  VerifyIDToken : string → result string id_token;
}.

(** The query of the callback request: code and state. [None] is a nil request. *)
Definition callback : Type := option (string * string).

Definition remove_ (k : string) (s : S) : S := (Remove s k).1.

Definition forget (s : S) : S := remove_ sessionVerifierKey (remove_ sessionNonceKey (remove_ sessionStateKey s)).

(** The session, the exchanges made (code and verifier), and the answer. *)
Definition HandleCallback (c : option Client) (P : provider) (r : callback) (s : S)
  : S * list (string * string) * result oidc_error (string * IDTokenClaims) :=
  match c, r with
  | None, _ => (s, [], Err ErrNilConfig)
  | Some _, None => (s, [], Err ErrMissingCode)
  | Some _, Some (code, state) =>
      if decide (code = "") then (s, [], Err ErrMissingCode)
      else match GetString s sessionStateKey with
      | Err e => (s, [], Err (ErrExternal e))
      | Ok expectedState =>
          if decide (expectedState = "") then (s, [], Err ErrMissingState)
          else if decide (state ≠ expectedState) then (s, [], Err ErrInvalidState)
          else match GetString s sessionVerifierKey with
          | Err e => (s, [], Err (ErrExternal e))
          | Ok verifier =>
              if decide (verifier = "") then (s, [], Err ErrMissingVerifier)
              else
                let calls := [(code, verifier)] in
                match Exchange P code verifier with
                | Err e => (s, calls, Err (ErrExternal e))
                | Ok None => (s, calls, Err ErrMissingIDToken)
                | Ok (Some rawID) =>
                    if decide (rawID = "") then (s, calls, Err ErrMissingIDToken)
                    else match VerifyIDToken P rawID with
                    | Err e => (s, calls, Err (ErrExternal e))
                    | Ok idToken =>
                        match GetString s sessionNonceKey with
                        | Err e => (s, calls, Err (ErrExternal e))
                        | Ok nonce =>
                            if decide (nonce = "") then (s, calls, Err ErrMissingNonce)
                            else if decide (id_Nonce idToken ≠ nonce) then (s, calls, Err ErrInvalidState)
                            else match decode_claims (id_claims idToken) with
                            | None => (s, calls, Err (ErrExternal "json"))
                            | Some claims => (forget s, calls, Ok (rawID, claims))
                            end
                        end
                    end
                end
          end
      end
  end.

Definition VerifyToken (c : option Client) (P : provider) (raw : string) : result oidc_error IDTokenClaims :=
  match c with
  | None => Err ErrNilConfig
  | Some _ =>
      if decide (raw = "") then Err ErrMissingIDToken
      else match VerifyIDToken P raw with
      | Err e => Err (ErrExternal e)
      | Ok idToken =>
          match decode_claims (id_claims idToken) with
          | None => Err (ErrExternal "json")
          | Some claims => Ok claims
          end
      end
  end.

End flow.

(** ** Verifiers *)

(** The 64 characters are distinct. *)
Lemma b64_char_inj x y : b64_char x = b64_char y → Z.land x 63 = Z.land y 63.
Proof.
  unfold b64_char. assert (∀ z, 0 <= Z.land z 63 < 64) as Hr.
  { intros z. change 63 with (Z.ones 6). rewrite Z.land_ones by lia. apply Z.mod_pos_bound. lia. }
  pose proof (Hr x) as Hx. pose proof (Hr y) as Hy. intros E.
  assert (NoDup base64_url) as Hnd by (apply (bool_decide_unpack _); by vm_compute).
  assert (length base64_url = 64%nat) as Hl by reflexivity.
  assert (∀ i, (i < 64)%nat → base64_url !! i = Some (nth i base64_url "A"%char)) as Hn.
  { intros i Hi. destruct (lookup_lt_is_Some_2 base64_url i) as [c Hc]; [lia|].
    rewrite Hc. f_equal. symmetry. by apply nth_lookup_Some. }
  assert (Z.to_nat (Z.land x 63) = Z.to_nat (Z.land y 63)).
  { eapply NoDup_lookup; [exact Hnd|apply Hn; lia|]. rewrite E. apply Hn. lia. }
  lia.
Qed.

(** One group of three bytes is read back from its four characters. *)
Lemma first_byte_inj a b a' b' :
  is_u8 a → is_u8 b → is_u8 a' → is_u8 b' →
  b64_char (Z.shiftr a 2) = b64_char (Z.shiftr a' 2) →
  b64_char (Z.lor (Z.shiftl a 4) (Z.shiftr b 4)) = b64_char (Z.lor (Z.shiftl a' 4) (Z.shiftr b' 4)) →
  a = a' ∧ b / 16 = b' / 16.
Proof.
  unfold is_u8. intros Ha Hb Ha' Hb' E1%b64_char_inj E2%b64_char_inj.
  rewrite !Z.shiftr_div_pow2 in * by lia. change 63 with (Z.ones 6) in *. rewrite !Z.land_ones in * by lia.
  rewrite !lor_shiftl_add in E2 by (try split; try apply Z.div_pos; try apply Z.div_lt_upper_bound; lia).
  change (2 ^ 2) with 4 in *. change (2 ^ 4) with 16 in *. change (2 ^ 6) with 64 in *. change (2 ^ 8) with 256 in *.
  split; Z.to_euclidean_division_equations; lia.
Qed.

Lemma second_byte_inj b c b' c' :
  is_u8 b → is_u8 c → is_u8 b' → is_u8 c' → b / 16 = b' / 16 →
  b64_char (Z.lor (Z.shiftl b 2) (Z.shiftr c 6)) = b64_char (Z.lor (Z.shiftl b' 2) (Z.shiftr c' 6)) →
  b64_char c = b64_char c' → b = b' ∧ c = c'.
Proof.
  unfold is_u8. intros Hb Hc Hb' Hc' E0 E1%b64_char_inj E2%b64_char_inj.
  rewrite !Z.shiftr_div_pow2 in * by lia. change 63 with (Z.ones 6) in *. rewrite !Z.land_ones in * by lia.
  rewrite !lor_shiftl_add in E1 by (try split; try apply Z.div_pos; try apply Z.div_lt_upper_bound; lia).
  change (2 ^ 2) with 4 in *. change (2 ^ 6) with 64 in *. change (2 ^ 8) with 256 in *.
  split; Z.to_euclidean_division_equations; lia.
Qed.

Lemma raw_encode_length bs : length (raw_encode bs) = ((4 * length bs + 2) / 3)%nat.
Proof.
  revert bs. fix IH 1. intros [|a [|b [|c bs]]]; [done..|]. cbn [raw_encode length]. rewrite IH.
  replace (4 * S (S (S (length bs))) + 2)%nat with (4 * length bs + 2 + 4 * 3)%nat by lia. rewrite Nat.div_add by lia. lia.
Qed.

Lemma raw_encode_inj bs : ∀ bs', Forall is_u8 bs → Forall is_u8 bs' → raw_encode bs = raw_encode bs' → bs = bs'.
Proof.
  assert (is_u8 0) as H0 by (unfold is_u8; lia).
  revert bs. fix IH 1. intros [|a [|b [|c bs]]] [|a' [|b' [|c' bs']]] Hu Hu'; cbn [raw_encode]; intros E; try done;
    repeat match goal with H : Forall _ (_ :: _) |- _ => apply Forall_cons in H as [? H] end.
  - injection E as E1 E2. rewrite <- (Z.lor_0_r (Z.shiftl a 4)), <- (Z.lor_0_r (Z.shiftl a' 4)) in E2.
    destruct (first_byte_inj a 0 a' 0) as [-> _]; done.
  - injection E as E1 E2 E3. destruct (first_byte_inj a b a' b') as [-> Eb]; [done..|].
    rewrite <- (Z.lor_0_r (Z.shiftl b 2)), <- (Z.lor_0_r (Z.shiftl b' 2)) in E3.
    destruct (second_byte_inj b 0 b' 0) as [-> _]; done.
  - injection E as E1 E2 E3 E4 E5. destruct (first_byte_inj a b a' b') as [-> Eb]; [done..|].
    destruct (second_byte_inj b c b' c') as [-> ->]; [done..|]. do 3 f_equal. by apply IH.
Qed.

Lemma b64_char_in x : b64_char x ∈ base64_url.
Proof.
  unfold b64_char. assert (0 <= Z.land x 63 < 64) as Hr.
  { change 63 with (Z.ones 6). rewrite Z.land_ones by lia. apply Z.mod_pos_bound. lia. }
  apply list_elem_of_In, nth_In. change (length base64_url) with 64%nat. lia.
Qed.

Lemma raw_encode_chars bs : Forall (λ c, c ∈ base64_url) (raw_encode bs).
Proof.
  revert bs. fix IH 1. intros [|a [|b [|c bs]]]; cbn [raw_encode];
    repeat (apply Forall_cons_2; [apply b64_char_in|]); [apply Forall_nil_2..|apply IH].
Qed.

Lemma string_of_list_length (l : text) : String.length (String.string_of_list_ascii l) = length l.
Proof. induction l; cbn; congruence. Qed.

(** A verifier, a state or a nonce made of 32 random bytes has 43 characters, all letters,
    digits, [-] or [_] (what RFC 7636 asks of a code verifier, and safe in a URL as they
    are), and no other 32 bytes give it: it is as unpredictable as the bytes. *)
Theorem generateVerifier_spec b :
  Z.of_nat (length b) = pkceVerifierLen → Forall is_u8 b →
  ∃ v, generateVerifier (Ok b) = Ok v ∧ String.length v = 43%nat ∧
    Forall (λ c, c ∈ base64_url) (String.list_ascii_of_string v) ∧
    ∀ b', Forall is_u8 b' → generateVerifier (Ok b') = Ok v → b' = b.
Proof.
  intros Hl Hu. eexists. split; [reflexivity|]. unfold pkceVerifierLen in Hl.
  rewrite string_of_list_length, raw_encode_length. replace (length b) with 32%nat by lia. split; [done|].
  rewrite String.list_ascii_of_string_of_list_ascii. split; [apply raw_encode_chars|].
  intros b' Hu' [= E]. apply (f_equal String.list_ascii_of_string) in E. rewrite !String.list_ascii_of_string_of_list_ascii in E.
  by apply raw_encode_inj in E.
Qed.

(** ** The flow *)

Section properties.
Context {S : Type} `{SessionLaws S}.
Context (Sum256 : string → list Z).

Lemma forget_clears s s1 s2 s3 :
  Remove s sessionStateKey = (s1, None) → Remove s1 sessionNonceKey = (s2, None) → Remove s2 sessionVerifierKey = (s3, None) →
  forget s = s3 ∧ GetString s3 sessionStateKey = Ok "".
Proof.
  intros E1 E2 E3. unfold forget, remove_. rewrite E1. cbn. rewrite E2. cbn. rewrite E3. split; [done|].
  rewrite (get_remove_ne _ _ _ _ _ E3) by done. rewrite (get_remove_ne _ _ _ _ _ E2) by done. by eapply get_remove.
Qed.

Lemma forget_ne s k : k ≠ sessionStateKey → k ≠ sessionNonceKey → k ≠ sessionVerifierKey → GetString (forget s) k = GetString s k.
Proof.
  intros H1 H2 H3. unfold forget, remove_.
  destruct (Remove s sessionStateKey) as [s1 r1] eqn:E1. cbn. destruct (Remove s1 sessionNonceKey) as [s2 r2] eqn:E2. cbn.
  destruct (Remove s2 sessionVerifierKey) as [s3 r3] eqn:E3. cbn.
  rewrite (get_remove_ne _ _ _ _ _ E3) by done. rewrite (get_remove_ne _ _ _ _ _ E2) by done. by rewrite (get_remove_ne _ _ _ _ _ E1) by done.
Qed.

(** An answer before the exchange, and one after it, that leave the session alone. *)
#[local] Ltac refused := simplify_eq/=; split_and!; [done..|set_solver|done].
#[local] Ltac refused_after H := simplify_eq/=; split_and!; [done..|by apply H|done].

(** Every way a callback can end. *)
Lemma HandleCallback_cases c P r s s' calls res :
  HandleCallback c P r s = (s', calls, res) →
  (∀ k, k ≠ sessionStateKey → k ≠ sessionNonceKey → k ≠ sessionVerifierKey → GetString s' k = GetString s k) ∧
  (∀ e, res = Err e → s' = s) ∧
  (∀ code verifier, (code, verifier) ∈ calls →
     ∃ state, state ≠ "" ∧ r = Some (code, state) ∧ GetString s sessionStateKey = Ok state ∧
       GetString s sessionVerifierKey = Ok verifier ∧ calls = [(code, verifier)]) ∧
  (∀ raw claims, res = Ok (raw, claims) →
     ∃ code state verifier idt, r = Some (code, state) ∧ state ≠ "" ∧ GetString s sessionStateKey = Ok state ∧
       calls = [(code, verifier)] ∧ Exchange P code verifier = Ok (Some raw) ∧ VerifyIDToken P raw = Ok idt ∧
       GetString s sessionNonceKey = Ok (id_Nonce idt) ∧ id_Nonce idt ≠ "" ∧ decode_claims (id_claims idt) = Some claims).
Proof.
  unfold HandleCallback. intros E.
  destruct c as [c|]; [|refused].
  destruct r as [[code state]|]; [|refused].
  case_decide; [refused|].
  destruct (GetString s sessionStateKey) as [st|] eqn:Es; [|refused].
  case_decide; [refused|].
  case_decide as Hst; [refused|]. subst state.
  destruct (GetString s sessionVerifierKey) as [v|] eqn:Ev; [|refused].
  case_decide; [refused|]. cbn zeta in E.
  assert (∀ calls, calls = [(code, v)] → ∀ code' verifier, (code', verifier) ∈ calls →
     ∃ state, state ≠ "" ∧ Some (code, st) = Some (code', state) ∧ @Ok string string st = Ok state ∧
       @Ok string string v = Ok verifier ∧ calls = [(code', verifier)]) as Hcalls.
  { intros l -> code' v' [= -> ->]%list_elem_of_singleton. by exists st. }
  destruct (Exchange P code v) as [[raw|]|] eqn:Ex; [|refused_after Hcalls..].
  case_decide; [refused_after Hcalls|].
  destruct (VerifyIDToken P raw) as [idt|] eqn:Evt; [|refused_after Hcalls].
  destruct (GetString s sessionNonceKey) as [n|] eqn:En; [|refused_after Hcalls].
  case_decide; [refused_after Hcalls|].
  case_decide as Hn; [refused_after Hcalls|].
  destruct (decode_claims _) as [cl|] eqn:Ed; [|refused_after Hcalls].
  injection E as <- <- <-. split_and!; [intros k; apply forget_ne|done|by apply Hcalls|].
  intros raw' cl' [= <- <-]. exists code, st, v, idt. subst n. split_and!; done.
Qed.
(** (C27) A callback is accepted only with the state of the session; the code is exchanged, at
    most once and only after that check, with the session's verifier; and the identity token
    was verified and carries the session's nonce. Other keys of the session are left alone,
    and a callback that fails changes nothing. *)
Theorem callback_checked c P r s s' calls res :
  HandleCallback c P r s = (s', calls, res) →
  (∀ k, k ≠ sessionStateKey → k ≠ sessionNonceKey → k ≠ sessionVerifierKey → GetString s' k = GetString s k) ∧
  (∀ e, res = Err e → s' = s) ∧
  (∀ code verifier, (code, verifier) ∈ calls →
     ∃ state, state ≠ "" ∧ r = Some (code, state) ∧ GetString s sessionStateKey = Ok state ∧
       GetString s sessionVerifierKey = Ok verifier ∧ calls = [(code, verifier)]) ∧
  (∀ raw claims, res = Ok (raw, claims) →
     ∃ code state verifier idt, r = Some (code, state) ∧ state ≠ "" ∧ GetString s sessionStateKey = Ok state ∧
       calls = [(code, verifier)] ∧ Exchange P code verifier = Ok (Some raw) ∧ VerifyIDToken P raw = Ok idt ∧
       GetString s sessionNonceKey = Ok (id_Nonce idt) ∧ id_Nonce idt ≠ "" ∧ decode_claims (id_claims idt) = Some claims).
Proof. apply HandleCallback_cases. Qed.

Lemma put_three s s' k1 k2 k3 v1 v2 v3 :
  k1 ≠ k2 → k1 ≠ k3 → k2 ≠ k3 → put_all s [(k1, v1); (k2, v2); (k3, v3)] = (s', None) →
  GetString s' k1 = Ok v1 ∧ GetString s' k2 = Ok v2 ∧ GetString s' k3 = Ok v3.
Proof.
  intros H12 H13 H23. unfold put_all. cbn. destruct (Put s k1 v1) as [s1 [e|]] eqn:E1; [done|]. cbn.
  destruct (Put s1 k2 v2) as [s2 [e|]] eqn:E2; [done|]. cbn. destruct (Put s2 k3 v3) as [s3 [e|]] eqn:E3; [done|].
  intros [= <-]. split_and!.
  - rewrite (get_put_ne _ _ _ _ _ _ E3) by done. rewrite (get_put_ne _ _ _ _ _ _ E2) by done. by eapply get_put.
  - rewrite (get_put_ne _ _ _ _ _ _ E3) by done. by eapply get_put.
  - by eapply get_put.
Qed.

Lemma AuthCodeURL_Ok c r1 r2 r3 opts s s1 state params :
  AuthCodeURL Sum256 (Some c) r1 r2 r3 opts s = (s1, Ok (state, params)) →
  ∃ nonce verifier, generateVerifier r1 = Ok state ∧ generateVerifier r2 = Ok nonce ∧ generateVerifier r3 = Ok verifier ∧
    params = [("nonce", nonce); ("code_challenge", challengeFromVerifier Sum256 verifier); ("code_challenge_method", "S256")] ++ opts ∧
    GetString s1 sessionStateKey = Ok state ∧ GetString s1 sessionNonceKey = Ok nonce ∧ GetString s1 sessionVerifierKey = Ok verifier.
Proof.
  unfold AuthCodeURL. destruct (generateVerifier r1) as [st|], (generateVerifier r2) as [n|], (generateVerifier r3) as [v|]; try done.
  destruct (put_all _ _) as [s' [e|]] eqn:E; [done|]. intros [= <- <- <-]. exists n, v. apply put_three in E as (? & ? & ?); [|done..].
  split_and!; done.
Qed.

(** A login: the browser comes back with the state of the authorization URL, the provider
    exchanges the code for the verifier whose challenge the URL carried, and its identity
    token has the URL's nonce. The callback succeeds with the token's claims; and once the
    three keys are removed from the session, every further callback is refused before
    anything is exchanged. *)
Theorem login_completes_once c P code raw idt claims r1 r2 r3 opts s s1 state params :
  AuthCodeURL Sum256 (Some c) r1 r2 r3 opts s = (s1, Ok (state, params)) →
  state ≠ "" → code ≠ "" → raw ≠ "" → id_Nonce idt ≠ "" →
  ("nonce", id_Nonce idt) ∈ take 1 params →
  (∀ verifier, Exchange P code verifier = if decide (verifier ≠ "" ∧ ("code_challenge", challengeFromVerifier Sum256 verifier) ∈ params)
                                           then Ok (Some raw) else Err "invalid_grant") →
  VerifyIDToken P raw = Ok idt → decode_claims (id_claims idt) = Some claims →
  (∀ v, generateVerifier r3 = Ok v → v ≠ "") →
  HandleCallback (Some c) P (Some (code, state)) s1 =
    (forget s1, [(code, match GetString s1 sessionVerifierKey with Ok v => v | Err _ => "" end)], Ok (raw, claims)) ∧
  ∀ s2 s3 s4, Remove s1 sessionStateKey = (s2, None) → Remove s2 sessionNonceKey = (s3, None) → Remove s3 sessionVerifierKey = (s4, None) →
    forget s1 = s4 ∧
    ∀ P' code' state', code' ≠ "" → HandleCallback (Some c) P' (Some (code', state')) s4 = (s4, [], Err ErrMissingState).
Proof.
  intros (n & v & _ & _ & Hv & -> & Es & En & Ev)%AuthCodeURL_Ok Hst Hc Hraw Hn Hin Hx Hvt Hd Hne. specialize (Hne v Hv).
  cbn in Hin. apply list_elem_of_singleton in Hin. injection Hin as Hnn. split.
  - unfold HandleCallback. rewrite (decide_False (P := code = "")), Es by done. rewrite (decide_False (P := state = "")) by done.
    rewrite (decide_False (P := state ≠ state)) by (intros Hf; by apply Hf). rewrite Ev, (decide_False (P := v = "")), Hx by done.
    rewrite decide_True by (split; [done|set_solver]). cbn zeta. rewrite (decide_False (P := raw = "")), Hvt, En by done.
    rewrite (decide_False (P := n = "")) by congruence. rewrite (decide_False (P := id_Nonce idt ≠ n)) by (intros Hf; by apply Hf).
    by rewrite Hd.
  - intros s2 s3 s4 E1 E2 E3. destruct (forget_clears s1 s2 s3 s4 E1 E2 E3) as [-> Eg]. split; [done|].
    intros P' code' state' Hc'. unfold HandleCallback. rewrite (decide_False (P := code' = "")), Eg by done. done.
Qed.

Lemma aud_string m a : MySqlConn.map_get "aud" m = Some (AnyString a) → decode_claims m = None.
Proof.
  intros E. unfold decode_claims. rewrite E. destruct (json_string (MySqlConn.map_get "iss" m)); [|done].
  by destruct (json_string (MySqlConn.map_get "sub" m)).
Qed.

(** The claim [aud] of an identity token may be one string or a list of them; the field it
    is decoded into is a list. With a provider that writes it as a string, no callback is
    accepted and no token verified, after the code has been exchanged. *)
Theorem single_audience_rejected c P :
  (∀ raw idt, VerifyIDToken P raw = Ok idt → ∃ a, MySqlConn.map_get "aud" (id_claims idt) = Some (AnyString a)) →
  (∀ r s s' calls res raw claims, HandleCallback c P r s = (s', calls, res) → res ≠ Ok (raw, claims)) ∧
  (∀ raw claims, VerifyToken c P raw ≠ Ok claims).
Proof.
  intros Ha. split.
  - intros r s s' calls res raw claims (_ & _ & _ & Hok)%HandleCallback_cases ->.
    destruct (Hok raw claims eq_refl) as (_ & _ & _ & idt & _ & _ & _ & _ & _ & Hv & _ & _ & Hd).
    apply Ha in Hv as [a Haud]. by rewrite (aud_string _ _ Haud) in Hd.
  - intros raw claims. unfold VerifyToken. destruct c; [|done]. case_decide; [done|].
    destruct (VerifyIDToken P raw) as [idt|] eqn:E; [|done]. apply Ha in E as [a Haud]. by rewrite (aud_string _ _ Haud).
Qed.

End properties.

(** ** A session in memory *)

Definition session : Type := gmap string string.

#[export] Instance map_store : SessionStore session := {
  Put s k v := (<[k := v]> (s : gmap string string), None);
  GetString s k := Ok (default "" ((s : gmap string string) !! k));
  Remove s k := (delete k (s : gmap string string), None);
}.

#[export] Instance map_laws : SessionLaws session.
Proof.
  split; cbn; intros; simplify_eq/=.
  - by rewrite lookup_insert_eq.
  - by rewrite lookup_insert_ne.
  - by rewrite lookup_delete_eq.
  - by rewrite lookup_delete_ne.
Qed.

Module Demo.
Definition bytes (n : Z) : list Z := replicate 32 n.
Definition client : Client :=
  mkClient "https://idp" "app" "https://app/callback" (normalizeScopes ["email"; "openid"]) (mkEndpoints "https://idp/auth" "https://idp/token" "" "").
Definition sum (v : string) : list Z := [1; 2; 3].
Definition word (n : Z) : string := String.string_of_list_ascii (raw_encode (bytes n)).
Definition claims (aud : any) : list (string * any) :=
  [("iss"%string, AnyString "https://idp"); ("sub"%string, AnyString "u1"); ("aud"%string, aud); ("exp"%string, AnyInt64 100)].
Definition token (aud : any) : id_token := mkIDToken (word 2) (claims aud).
Definition params : list (string * string) :=
  [("nonce"%string, word 2); ("code_challenge"%string, challengeFromVerifier sum (word 3)); ("code_challenge_method"%string, "S256"%string)] ++ [].
Definition provider (aud : any) : provider :=
  mkProvider (λ _ verifier, if decide (verifier ≠ ""%string ∧ ("code_challenge"%string, challengeFromVerifier sum verifier) ∈ params)
                            then Ok (Some "raw"%string) else Err "invalid_grant"%string)
    (λ _, Ok (token aud)).
Definition list_aud : any := AnyList [AnyString "app"].
Definition started : session :=
  <[sessionVerifierKey := word 3]> (<[sessionNonceKey := word 2]> (<[sessionStateKey := word 1]> ∅)).
Definition decoded : IDTokenClaims := mkClaims "https://idp" "u1" ["app"%string] 100 0 "" "" false "" "" "" "" "".
End Demo.

Lemma generateVerifier_spec_witness : ∃ v, generateVerifier (Ok (Demo.bytes 255)) = Ok v ∧ String.length v = 43%nat.
Proof.
  destruct (generateVerifier_spec (Demo.bytes 255)) as (v & E & Hl & _).
  - reflexivity.
  - apply Forall_replicate. unfold is_u8. lia.
  - exists v. split; [exact E|exact Hl].
Defined.

(** A callback with another state, and the one the login leads to. *)
Lemma callback_checked_witness :
  (HandleCallback (Some Demo.client) (Demo.provider Demo.list_aud) (Some ("c"%string, "forged"%string)) Demo.started =
    (Demo.started, [], Err ErrInvalidState) ∧
   ∀ code verifier, (code, verifier) ∈ ([] : list (string * string)) → False) ∧
  ∃ s' calls, HandleCallback (Some Demo.client) (Demo.provider Demo.list_aud) (Some ("code"%string, Demo.word 1)) Demo.started =
    (s', calls, Ok ("raw"%string, Demo.decoded)) ∧
  ∃ verifier, calls = [("code"%string, verifier)] ∧ GetString Demo.started sessionVerifierKey = Ok verifier.
Proof.
  split.
  - assert (HandleCallback (Some Demo.client) (Demo.provider Demo.list_aud) (Some ("c"%string, "forged"%string)) Demo.started =
      (Demo.started, [], Err ErrInvalidState)) as E by reflexivity. split; [exact E|].
    destruct (callback_checked (Some Demo.client) (Demo.provider Demo.list_aud) (Some ("c"%string, "forged"%string)) Demo.started _ _ _ E)
      as (_ & _ & Hc & _).
    intros code verifier Hin. destruct (Hc code verifier Hin) as (st & _ & _ & _ & _ & Hd). discriminate Hd.
  - destruct (HandleCallback (Some Demo.client) (Demo.provider Demo.list_aud) (Some ("code"%string, Demo.word 1)) Demo.started)
      as [[s' calls] res] eqn:E.
    assert (res = Ok ("raw"%string, Demo.decoded)) as -> by (injection E as _ _ <-; reflexivity).
    exists s', calls. split; [reflexivity|].
    destruct (callback_checked _ _ _ _ _ _ _ E) as (_ & _ & Hc & Hok).
    destruct (Hok _ _ eq_refl) as (code & st & verifier & idt & [= <- <-] & _ & _ & Ecalls & _). exists verifier. split; [exact Ecalls|].
    destruct (Hc "code"%string verifier) as (st' & _ & _ & _ & Ev & _); [rewrite Ecalls; apply list_elem_of_singleton; reflexivity|exact Ev].
Defined.

Lemma login_completes_once_witness :
  AuthCodeURL Demo.sum (Some Demo.client) (Ok (Demo.bytes 1)) (Ok (Demo.bytes 2)) (Ok (Demo.bytes 3)) [] (∅ : session)
    = (Demo.started, Ok (Demo.word 1, Demo.params)) ∧
  (HandleCallback (Some Demo.client) (Demo.provider Demo.list_aud) (Some ("code"%string, Demo.word 1)) Demo.started).2
    = Ok ("raw"%string, Demo.decoded).
Proof.
  assert (AuthCodeURL Demo.sum (Some Demo.client) (Ok (Demo.bytes 1)) (Ok (Demo.bytes 2)) (Ok (Demo.bytes 3)) [] (∅ : session)
    = (Demo.started, Ok (Demo.word 1, Demo.params))) as E by reflexivity. split; [exact E|].
  destruct (login_completes_once Demo.sum Demo.client (Demo.provider Demo.list_aud) "code" "raw" (Demo.token Demo.list_aud) Demo.decoded
    (Ok (Demo.bytes 1)) (Ok (Demo.bytes 2)) (Ok (Demo.bytes 3)) [] (∅ : session) Demo.started (Demo.word 1) Demo.params) as [Eh _].
  - exact E.
  - done.
  - done.
  - done.
  - done.
  - left.
  - reflexivity.
  - reflexivity.
  - reflexivity.
  - intros v [= <-]. done.
  - rewrite Eh. reflexivity.
Defined.

Lemma single_audience_rejected_witness :
  ∀ raw claims, VerifyToken (Some Demo.client) (Demo.provider (AnyString "app")) raw ≠ Ok claims.
Proof.
  apply (single_audience_rejected (S := session) (Some Demo.client) (Demo.provider (AnyString "app"))).
  intros raw idt [= <-]. exists "app"%string. reflexivity.
Defined.

End Oidc.
