(* ===== verification/Jwt.v ===== *)
(** * JSON Web Tokens ([src/core/auth/jwt])

    Signing and verifying tokens with ECDSA and HMAC keys chosen by their identifier. The JWT
    library is an interface ([JwtLib]) with its documented behaviour. Parsing with claims
    accepts a token exactly when its algorithm is allowed, the key function gives a key, the
    signature is that key's and the registered claims pass ([JwtLaws]); verification needs no
    more. Parsing what signing wrote gives the claims as JSON keeps them, numbers becoming
    floating-point ones ([JwtSigning]). *)

From Stdlib Require Import ZArith Lia Ascii.
From stdpp Require Import base numbers strings gmap list.
From S2P Require Import Prelude GoValue SqlText.
Local Open Scope Z_scope.

Module Jwt.

Definition SigningMethodES256 : string := "ES256".
Definition SigningMethodES384 : string := "ES384".
Definition SigningMethodES512 : string := "ES512".
Definition SigningMethodHS256 : string := "HS256".
Definition SigningMethodHS384 : string := "HS384".
Definition SigningMethodHS512 : string := "HS512".
Definition ecdsa_methods : list string := [SigningMethodES256; SigningMethodES384; SigningMethodES512].
Definition hmac_methods : list string := [SigningMethodHS256; SigningMethodHS384; SigningMethodHS512].

(** A token: its algorithm, the [kid] header if there is one, and its claims. *)
Record Token : Type := mkToken { alg : string; kid_header : option any; claims : list (string * any) }.

Record JwtFeed : Type := mkFeed {
  Subject : string; Audience : string; Issuer : string; IssuedAt : Z; Expiration : Z; NotBefore : Z;
  CustomClaims : list (string * any);
}.

Record VerifyConfig : Type := mkVerifyConfig {
  ECDSAPublicKeys : gmap string string;
  HMACSecrets : gmap string string;
  ExpectedIssuer : string;
  ExpectedAudience : string;
}.

Inductive jwt_error : Type :=
  | ErrMethodRequired | ErrKidRequired | ErrKeyRequired
  | ErrTokenRequired
  | ErrUnexpectedMethod (alg : string)
  | ErrNoKeys
  | ErrMissingKid | ErrInvalidKid
  | ErrUnknownKid (kid : string)
  | ErrLib (e : string).

(** [strings.TrimSpace(s) == ""] *)
Definition blank (s : string) : bool := bool_decide (TrimSpace (str s) = []).

Inductive method_kind : Type := ECDSA | HMAC | OtherMethod.

(** Keys are the library's; [verifying] is the key that checks what a signing key signs,
    an HMAC secret its own. [signed] says that a token string carries a signature of a key
    under an algorithm, and [claims_ok] that the registered claims pass at a time, with the
    expected issuer and audience if any. *)
Class JwtLib (key : Type) : Type := {
  kind : string → method_kind;
  HmacKey : string → key;
  ParseECPrivateKey : string → result string key;        (* of base64-encoded PEM text *)
  ParseECPublicKey : string → result string key;
  verifying : key → key;
  SignedString : Token → key → result string string;
  ParseUnverified : string → result string Token;
  (* a token with its [Valid] flag, and an error *)
  ParseWithClaims : string → list string → (Token → result jwt_error key) → option string → option string → Z →
                    option (Token * bool) * option jwt_error;
  signed : string → string → key → Prop;
  claims_ok : option string → option string → Z → list (string * any) → Prop;
}.

Class JwtLaws (key : Type) `{JwtLib key} : Prop := {
  kind_ecdsa a : a ∈ ecdsa_methods → kind a = ECDSA;
  kind_hmac a : a ∈ hmac_methods → kind a = HMAC;
  parse_sound s ms kf iss aud now r :
    ParseWithClaims s ms kf iss aud now = (r, None) →
    ∃ t k, r = Some (t, true) ∧ ParseUnverified s = Ok t ∧ alg t ∈ ms ∧ claims_ok iss aud now (claims t) ∧
      kf t = Ok k ∧ signed s (alg t) k;
  parse_complete s ms kf iss aud now t k :
    ParseUnverified s = Ok t → alg t ∈ ms → kf t = Ok k → signed s (alg t) k → claims_ok iss aud now (claims t) →
    ParseWithClaims s ms kf iss aud now = (Some (t, true), None);
}.

Definition find_claim (k : string) (cs : list (string * any)) : option any :=
  snd <$> List.find (λ kv, bool_decide (kv.1 = k)) cs.

(** [reread] is what claims become when they are written as JSON and read again; a string
    comes back as it was when JSON can carry it ([plain], valid UTF-8). *)
Class JwtSigning (key : Type) `{JwtLib key} : Type := {
  plain : string → Prop;
  reread : list (string * any) → list (string * any);
  reread_string k v cs : plain v → find_claim k cs = Some (AnyString v) → find_claim k (reread cs) = Some (AnyString v);
  hmac_verifying s : verifying (HmacKey s) = HmacKey s;
  parse_signed a kid cs k s :
    plain kid → SignedString (mkToken a (Some (AnyString kid)) cs) k = Ok s →
    ParseUnverified s = Ok (mkToken a (Some (AnyString kid)) (reread cs)) ∧ signed s a (verifying k);
}.

Section jwt.
Context {key : Type} `{JwtLib key}.

(** [NewToken], with the [kid] header the signers set. *)
Definition NewToken (feed : JwtFeed) (signingMethod : string) (kid : option string) : Token :=
  mkToken signingMethod (AnyString <$> kid)
    [("aud", AnyString (Audience feed)); ("iss", AnyString (Issuer feed)); ("sub", AnyString (Subject feed));
     ("iat", AnyInt64 (IssuedAt feed)); ("exp", AnyInt64 (Expiration feed)); ("nbf", AnyInt64 (NotBefore feed));
     ("data", AnyMap (CustomClaims feed))].

(** A nil method is [None]. *)
Definition SignECDSA (feed : JwtFeed) (privateKey kid : string) (signingMethod : option string) : result jwt_error string :=
  match signingMethod with
  | None => Err ErrMethodRequired
  | Some m =>
      if blank kid then Err ErrKidRequired
      else if blank privateKey then Err ErrKeyRequired
      else match ParseECPrivateKey privateKey with
      | Err e => Err (ErrLib e)
      | Ok k => match SignedString (NewToken feed m (Some kid)) k with Ok s => Ok s | Err e => Err (ErrLib e) end
      end
  end.

Definition SignHMAC (feed : JwtFeed) (secret kid : string) (signingMethod : option string) : result jwt_error string :=
  match signingMethod with
  | None => Err ErrMethodRequired
  | Some m =>
      if blank kid then Err ErrKidRequired
      else if blank secret then Err ErrKeyRequired
      else match SignedString (NewToken feed m (Some kid)) (HmacKey secret) with Ok s => Ok s | Err e => Err (ErrLib e) end
  end.

Definition tokenKID (token : Token) : result jwt_error string :=
  match kid_header token with
  | None => Err ErrMissingKid
  | Some (AnyString kid) => if blank kid then Err ErrInvalidKid else Ok kid
  | Some _ => Err ErrInvalidKid
  end.

(** An expectation that is not blank. *)
Definition expectation (s : string) : option string := if blank s then None else Some s.

(** What [Verify] and its two halves return: the flag, the token and the error. *)
Definition verified : Type := bool * option Token * option jwt_error.

Definition verifyWithConfig (now : Z) (tokenString : string) (cfg : VerifyConfig) (validMethods : list string)
    (resolver : Token → result jwt_error key) : verified :=
  match ParseWithClaims tokenString validMethods resolver (expectation (ExpectedIssuer cfg)) (expectation (ExpectedAudience cfg)) now with
  | (t, Some e) => (false, fst <$> t, Some e)
  | (None, None) => (false, None, None)
  | (Some (t, Valid), None) => (Valid, Some t, None)
  end.

Definition ecdsa_key (cfg : VerifyConfig) (token : Token) : result jwt_error key :=
  match tokenKID token with
  | Err e => Err e
  | Ok kid =>
      let k := default "" (ECDSAPublicKeys cfg !! kid) in
      if blank k then Err (ErrUnknownKid kid)
      else match ParseECPublicKey k with Ok k => Ok k | Err e => Err (ErrLib e) end
  end.

Definition VerifyECDSA (now : Z) (tokenString : string) (cfg : VerifyConfig) : verified :=
  if decide (size (ECDSAPublicKeys cfg) = O) then (false, None, Some ErrNoKeys)
  else verifyWithConfig now tokenString cfg ecdsa_methods (ecdsa_key cfg).

Definition hmac_key (cfg : VerifyConfig) (token : Token) : result jwt_error key :=
  match tokenKID token with
  | Err e => Err e
  | Ok kid =>
      let secret := default "" (HMACSecrets cfg !! kid) in
      if blank secret then Err (ErrUnknownKid kid) else Ok (HmacKey secret)
  end.

Definition VerifyHMAC (now : Z) (tokenString : string) (cfg : VerifyConfig) : verified :=
  if decide (size (HMACSecrets cfg) = O) then (false, None, Some ErrNoKeys)
  else verifyWithConfig now tokenString cfg hmac_methods (hmac_key cfg).

Definition Verify (now : Z) (tokenString : string) (cfg : VerifyConfig) : verified :=
  if blank tokenString then (false, None, Some ErrTokenRequired)
  else match ParseUnverified tokenString with
  | Err e => (false, None, Some (ErrLib e))
  | Ok t =>
      match kind (alg t) with
      | ECDSA => VerifyECDSA now tokenString cfg
      | HMAC => VerifyHMAC now tokenString cfg
      | OtherMethod => (false, None, Some (ErrUnexpectedMethod (alg t)))
      end
  end.

(** [Verifier.VerifyToken] looks at the error only. *)
Definition VerifyToken (now : Z) (cfg : VerifyConfig) (token : string) : result jwt_error (option Token) :=
  match Verify now token cfg with
  | (_, _, Some e) => Err e
  | (_, parsed, None) => Ok parsed
  end.

Definition GetClaim (token : option Token) (k : string) : option any :=
  match token with
  | None => None
  | Some t => find_claim k (claims t)
  end.

(** ** Properties *)

(** The key that has to have signed a token: the configured one of its identifier, of the
    token's own family of algorithms. *)
Definition trusted (cfg : VerifyConfig) (t : Token) (k : key) : Prop :=
  ∃ kid, kid_header t = Some (AnyString kid) ∧ blank kid = false ∧
  (alg t ∈ ecdsa_methods ∧ (∃ pem, ECDSAPublicKeys cfg !! kid = Some pem ∧ blank pem = false ∧ ParseECPublicKey pem = Ok k) ∨
   alg t ∈ hmac_methods ∧ ∃ secret, HMACSecrets cfg !! kid = Some secret ∧ blank secret = false ∧ k = HmacKey secret).

Lemma tokenKID_Ok t kid : tokenKID t = Ok kid ↔ kid_header t = Some (AnyString kid) ∧ blank kid = false.
Proof.
  unfold tokenKID. split; [|by intros [-> ->]]. destruct (kid_header t) as [[]|]; try done. destruct (blank s) eqn:E; [done|]. by intros [= <-].
Qed.

Lemma not_blank_default (m : gmap string string) kid s :
  default "" (m !! kid) = s ∧ blank s = false ↔ m !! kid = Some s ∧ blank s = false.
Proof.
  destruct (m !! kid) as [x|]; cbn; split; intros [E Hs]; [by subst|by simplify_eq|subst; by vm_compute in Hs|done].
Qed.

Lemma ecdsa_key_Ok cfg t k : ecdsa_key cfg t = Ok k ↔
  ∃ kid pem, kid_header t = Some (AnyString kid) ∧ blank kid = false ∧
    ECDSAPublicKeys cfg !! kid = Some pem ∧ blank pem = false ∧ ParseECPublicKey pem = Ok k.
Proof.
  unfold ecdsa_key. split.
  - destruct (tokenKID t) as [kid|] eqn:E; [|done]. apply tokenKID_Ok in E as [E1 E2]. cbn zeta.
    destruct (blank (default _ _)) eqn:Eb; [done|]. destruct (ParseECPublicKey _) eqn:Ep; [|done]. intros [= <-].
    destruct (proj1 (not_blank_default (ECDSAPublicKeys cfg) kid _) (conj eq_refl Eb)) as [Hl _]. eauto 10.
  - intros (kid & pem & E1 & E2 & E3 & E4 & E5). rewrite (proj2 (tokenKID_Ok t kid) (conj E1 E2)). cbn zeta.
    rewrite E3. change (default "" (Some pem)) with pem. by rewrite E4, E5.
Qed.

Lemma hmac_key_Ok cfg t k : hmac_key cfg t = Ok k ↔
  ∃ kid secret, kid_header t = Some (AnyString kid) ∧ blank kid = false ∧
    HMACSecrets cfg !! kid = Some secret ∧ blank secret = false ∧ k = HmacKey secret.
Proof.
  unfold hmac_key. split.
  - destruct (tokenKID t) as [kid|] eqn:E; [|done]. apply tokenKID_Ok in E as [E1 E2]. cbn zeta.
    destruct (blank (default _ _)) eqn:Eb; [done|]. intros [= <-].
    destruct (proj1 (not_blank_default (HMACSecrets cfg) kid _) (conj eq_refl Eb)) as [Hl _]. eauto 10.
  - intros (kid & secret & E1 & E2 & E3 & E4 & ->). rewrite (proj2 (tokenKID_Ok t kid) (conj E1 E2)). cbn zeta.
    rewrite E3. change (default "" (Some secret)) with secret. by rewrite E4.
Qed.

Context `{!JwtLaws key}.

Lemma verifyWithConfig_cases now s cfg ms resolver b t e :
  verifyWithConfig now s cfg ms resolver = (b, t, e) → (b = true ↔ e = None) ∧
  (b = true → ∃ t' k, t = Some t' ∧ ParseUnverified s = Ok t' ∧ alg t' ∈ ms ∧
     claims_ok (expectation (ExpectedIssuer cfg)) (expectation (ExpectedAudience cfg)) now (claims t') ∧
     resolver t' = Ok k ∧ signed s (alg t') k).
Proof.
  unfold verifyWithConfig. destruct (ParseWithClaims _ _ _ _ _ _) as [r [err|]] eqn:E.
  - destruct r as [[]|]; intros [= <- <- <-]; done.
  - apply parse_sound in E as (t' & k & -> & ? & ? & ? & ? & ?). intros [= <- <- <-]. split; [done|]. intros _. by exists t', k.
Qed.

(** What makes a token acceptable. *)
Definition acceptable (now : Z) (cfg : VerifyConfig) (s : string) (t : Token) : Prop :=
  blank s = false ∧ ParseUnverified s = Ok t ∧ ∃ k, trusted cfg t k ∧ signed s (alg t) k ∧
  claims_ok (expectation (ExpectedIssuer cfg)) (expectation (ExpectedAudience cfg)) now (claims t).

Lemma Verify_sound now s cfg b t e :
  Verify now s cfg = (b, t, e) → (b = true ↔ e = None) ∧ (b = true → ∃ t', t = Some t' ∧ acceptable now cfg s t').
Proof.
  unfold Verify, acceptable. destruct (blank s); [intros [= <- <- <-]; done|].
  destruct (ParseUnverified s) as [t0|] eqn:E0; [|intros [= <- <- <-]; done].
  destruct (kind (alg t0)); [| |intros [= <- <- <-]; done].
  - unfold VerifyECDSA. case_decide; [intros [= <- <- <-]; done|]. intros [Hf Ht]%verifyWithConfig_cases. split; [done|].
    intros Hb. destruct (Ht Hb) as (t' & k & -> & Hp & Ha & Hc & (kid & pem & ? & ? & ? & ? & ?)%ecdsa_key_Ok & Hs).
    exists t'. split_and!; [done|done|congruence|]. exists k. split; [|done]. exists kid. eauto 10.
  - unfold VerifyHMAC. case_decide; [intros [= <- <- <-]; done|]. intros [Hf Ht]%verifyWithConfig_cases. split; [done|].
    intros Hb. destruct (Ht Hb) as (t' & k & -> & Hp & Ha & Hc & (kid & sec & ? & ? & ? & ? & ?)%hmac_key_Ok & Hs).
    exists t'. split_and!; [done|done|congruence|]. exists k. split; [|done]. exists kid. eauto 10.
Qed.

Lemma Verify_complete now s cfg t : acceptable now cfg s t → Verify now s cfg = (true, Some t, None).
Proof.
  intros (Hb & Hp & k & (kid & Hkid & Hkb & Hfam) & Hs & Hc). unfold Verify. rewrite Hb, Hp.
  destruct Hfam as [[Ha (pem & Hl & Hpb & Hk)]|[Ha (secret & Hl & Hsb & ->)]].
  - rewrite (kind_ecdsa _ Ha). unfold VerifyECDSA, verifyWithConfig.
    rewrite decide_False by (intros Hz%map_size_empty_iff; by rewrite Hz in Hl).
    erewrite (parse_complete s); [reflexivity|done|done| |done|done]. apply ecdsa_key_Ok. eauto 10.
  - rewrite (kind_hmac _ Ha). unfold VerifyHMAC, verifyWithConfig.
    rewrite decide_False by (intros Hz%map_size_empty_iff; by rewrite Hz in Hl).
    erewrite (parse_complete s); [reflexivity|done|done| |done|done]. apply hmac_key_Ok. eauto 10.
Qed.

(** (C35) [Verify] accepts a token exactly when it is acceptable: a configured key signed it,
    the key of its identifier and of its own family of algorithms, so that a public ECDSA key
    is never used as an HMAC secret, and the registered claims pass, with the expected issuer
    and audience. It then returns that token. [VerifyToken], which looks at the error only,
    returns a token exactly when the flag of [Verify] is set. *)
Theorem Verify_trusted now s cfg b t e :
  Verify now s cfg = (b, t, e) →
  (b = true ↔ ∃ t', t = Some t' ∧ acceptable now cfg s t') ∧
  (∀ t', acceptable now cfg s t' → b = true ∧ t = Some t') ∧
  (b = true ↔ VerifyToken now cfg s = Ok t).
Proof.
  intros E. pose proof (Verify_sound now s cfg b t e E) as [Hf Ht]. split_and!.
  - split; [done|]. intros (t' & _ & Ha). apply Verify_complete in Ha. congruence.
  - intros t' Ha%Verify_complete. split; congruence.
  - unfold VerifyToken. rewrite E. destruct e; [|naive_solver]. destruct b; [discriminate (proj1 Hf eq_refl)|]. by split.
Qed.

(** A token signed with an HMAC secret under an identifier is accepted where that secret is
    configured under it, while the claims JSON keeps of the feed's pass; its subject is the
    feed's. *)
Theorem SignHMAC_then_Verify `{!JwtSigning key} feed secret kid m s cfg now :
  SignHMAC feed secret kid (Some m) = Ok s → m ∈ hmac_methods → blank s = false → HMACSecrets cfg !! kid = Some secret →
  plain kid → plain (Subject feed) →
  let cs := reread (claims (NewToken feed m (Some kid))) in
  claims_ok (expectation (ExpectedIssuer cfg)) (expectation (ExpectedAudience cfg)) now cs →
  Verify now s cfg = (true, Some (mkToken m (Some (AnyString kid)) cs), None) ∧
  GetClaim (Some (mkToken m (Some (AnyString kid)) cs)) "sub" = Some (AnyString (Subject feed)).
Proof.
  intros Hs Hm Hb Hk Hpk Hps cs Hc. unfold SignHMAC in Hs. destruct (blank kid) eqn:Ek; [done|]. destruct (blank secret) eqn:Esec; [done|].
  destruct (SignedString _ _) as [s'|] eqn:E; [|done]. injection Hs as ->. apply parse_signed in E as [Hp Hsig]; [|done].
  rewrite hmac_verifying in Hsig. split; [|by apply reread_string]. apply Verify_complete. split_and!; [done|done|].
  exists (HmacKey secret). split; [|done]. exists kid. cbn. eauto 10.
Qed.
End jwt.

(** ** A library in which a token string spells its token and its key *)
Module Demo.
Definition kind (a : string) : method_kind :=
  if decide (a ∈ ecdsa_methods) then ECDSA else if decide (a ∈ hmac_methods) then HMAC else OtherMethod.

(** Two strings name all there is: a token of the feed below signed with the secret "s3cret",
    and anything else. *)
Definition feed : JwtFeed := mkFeed "u1" "app" "idp" 1 100 1 [].
(** JSON numbers are read as floating-point ones. *)
Definition as_json (v : any) : any := match v with AnyInt64 z => AnyFloat64 (f64_of_Z z) | v => v end.
Definition good : Token :=
  mkToken SigningMethodHS256 (Some (AnyString "k1"))
    [("aud"%string, AnyString "app"); ("iss"%string, AnyString "idp"); ("sub"%string, AnyString "u1"); ("iat"%string, AnyFloat64 (f64_of_Z 1));
     ("exp"%string, AnyFloat64 (f64_of_Z 100)); ("nbf"%string, AnyFloat64 (f64_of_Z 1)); ("data"%string, AnyMap [])].
Definition parse (s : string) : result string Token := if decide (s = "token"%string) then Ok good else Err "malformed"%string.
Definition is_signed (s a k : string) : Prop := s = "token"%string ∧ a = SigningMethodHS256 ∧ k = "s3cret"%string.
Definition passes (iss aud : option string) (now : Z) (c : list (string * any)) : Prop :=
  iss = None ∧ aud = None ∧ now < 100.
#[export] Instance passes_dec iss aud now c : Decision (passes iss aud now c).
Proof. unfold passes. apply _. Defined.

(** Only the one token is ever signed. *)
Definition sign (t : Token) (k : string) : result string string :=
  match t with
  | mkToken a (Some (AnyString kid))
      [(_, AnyString au); (_, AnyString issuer); (_, AnyString su); (_, AnyInt64 i); (_, AnyInt64 e); (_, AnyInt64 n); (_, AnyMap [])] =>
      if decide (a = SigningMethodHS256 ∧ kid = "k1"%string ∧ au = "app"%string ∧ issuer = "idp"%string ∧ su = "u1"%string ∧
                 i = 1 ∧ e = 100 ∧ n = 1 ∧ k = "s3cret"%string ∧
                 map fst (claims t) = ["aud"; "iss"; "sub"; "iat"; "exp"; "nbf"; "data"]%string)
      then Ok "token"%string else Err "unsupported"%string
  | _ => Err "unsupported"%string
  end.

Definition parse_with (s : string) (ms : list string) (kf : Token → result jwt_error string) (iss aud : option string) (now : Z)
  : option (Token * bool) * option jwt_error :=
  match parse s with
  | Err e => (None, Some (ErrLib e))
  | Ok t =>
      if decide (alg t ∈ ms) then
        match kf t with
        | Err e => (Some (t, false), Some e)
        | Ok k => if decide (k = "s3cret"%string ∧ passes iss aud now (claims t)) then (Some (t, true), None)
                  else (Some (t, false), Some (ErrLib "invalid"))
        end
      else (Some (t, false), Some (ErrLib "method"))
  end.

#[export] Instance lib : JwtLib string := {
  Jwt.kind := kind; HmacKey s := s; ParseECPrivateKey _ := Err "pem"%string; ParseECPublicKey _ := Err "pem"%string; verifying k := k;
  SignedString := sign; ParseUnverified := parse; ParseWithClaims := parse_with; signed := is_signed; claims_ok := passes;
}.

#[export] Instance laws : JwtLaws string.
Proof.
  split; cbn.
  - intros a Ha. unfold kind. by rewrite decide_True.
  - intros a Ha. unfold kind. rewrite decide_False, decide_True by set_solver. done.
  - intros s ms kf iss aud now r. unfold parse_with, parse. case_decide as Hs; [|done]. case_decide; [|done].
    destruct (kf good) as [k|] eqn:Ek; [|done]. case_decide as Hk; [|done]. intros [= <-]. destruct Hk as [-> Hk].
    exists good, "s3cret"%string. split_and!; done.
  - intros s ms kf iss aud now t k. unfold parse_with, parse. case_decide; [|done]. intros [= <-] Hin Hk (_ & _ & ->) Hc.
    rewrite decide_True, Hk by done. by rewrite decide_True.
Qed.

Lemma find_as_json k v cs : find_claim k cs = Some (AnyString v) → find_claim k (prod_map id as_json <$> cs) = Some (AnyString v).
Proof.
  unfold find_claim. induction cs as [|[k' v'] cs IH]; [done|]. cbn. destruct (bool_decide (k' = k)); [|done]. cbn. by intros [= ->].
Qed.

#[export] Instance signing : JwtSigning string.
Proof.
  refine {| plain := λ _, True; reread := fmap (prod_map id as_json) |}; cbn.
  - intros k v cs _. apply find_as_json.
  - done.
  - intros a kid cs k s _. unfold sign. repeat case_match; try done. cbn in *. destruct_and?. intros [= <-].
    repeat match goal with E : decide _ = left _ |- _ => clear E end. simplify_eq/=. by repeat split.
Defined.

Definition cfg : VerifyConfig := mkVerifyConfig ∅ {["k1"%string := "s3cret"%string]} "" "".
End Demo.

#[local] Existing Instances Demo.lib Demo.laws Demo.signing.

Lemma SignHMAC_then_Verify_witness :
  SignHMAC (key := string) Demo.feed "s3cret" "k1" (Some SigningMethodHS256) = Ok "token"%string ∧
  Verify (key := string) 50 "token" Demo.cfg = (true, Some Demo.good, None).
Proof.
  assert (SignHMAC (key := string) Demo.feed "s3cret" "k1" (Some SigningMethodHS256) = Ok "token"%string) as E by reflexivity.
  split; [exact E|].
  destruct (SignHMAC_then_Verify Demo.feed "s3cret" "k1" SigningMethodHS256 "token" Demo.cfg 50 E) as [Hv _];
    [left|reflexivity|reflexivity|exact I|exact I| |exact Hv].
  split; [reflexivity|]. split; [reflexivity|lia].
Defined.

Lemma Verify_trusted_witness :
  Verify (key := string) 50 "token" Demo.cfg = (true, Some Demo.good, None) ∧ VerifyToken (key := string) 50 Demo.cfg "token" = Ok (Some Demo.good).
Proof.
  assert (Verify (key := string) 50 "token" Demo.cfg = (true, Some Demo.good, None)) as E by reflexivity. split; [exact E|].
  by apply (Verify_trusted 50 "token" Demo.cfg true (Some Demo.good) None).
Defined.

End Jwt.
