(* ===== verification/FileSys.v ===== *)
(** * File helpers ([src/utils/filesys/filesystem.go])

    Copying a file through a temporary one, walking a tree, zipping and unzipping, and the
    small checks. A file system is modelled twice: with inodes, where handles and names must
    be told apart (the atomic copy), and as a map from cleaned absolute paths to files and
    directories (the archives). Which system calls fail is an argument. The zip format is a
    list of entries; [filepath.Match] and SHA-256 are parameters. *)

From Stdlib Require Import ZArith Lia Ascii.
From stdpp Require Import base numbers strings gmap list.
From S2P Require Import Prelude SqlText Url.
Local Open Scope Z_scope.

Module FileSys.

Abbreviation bytes := (list Z).

(** ** Copying through a temporary file *)

(** Names of files, the contents of inodes, the next free inode, and the inodes whose
    contents are on the disk. *)
Record inode_fs : Type := mkFs { entries : gmap text nat; inodes : gmap nat bytes; next : nat; synced : gset nat }.

Definition content (w : inode_fs) (path : text) : option bytes := entries w !! path ≫= λ i, inodes w !! i.

(** [os.Create]: an existing file is truncated, whoever has it open. *)
Definition osCreate (path : text) (w : inode_fs) : inode_fs * nat :=
  match entries w !! path with
  | Some i => (mkFs (entries w) (<[i := []]> (inodes w)) (next w) (synced w ∖ {[i]}), i)
  | None => (mkFs (<[path := next w]> (entries w)) (<[next w := []]> (inodes w)) (S (next w)) (synced w ∖ {[next w]}), next w)
  end.

Definition write_inode (i : nat) (b : bytes) (w : inode_fs) : inode_fs :=
  mkFs (entries w) (<[i := b]> (inodes w)) (next w) (synced w ∖ {[i]}).

(** [File.Sync]. *)
Definition fileSync (i : nat) (w : inode_fs) : inode_fs := mkFs (entries w) (inodes w) (next w) ({[i]} ∪ synced w).

(** What a crash may leave of a state. Names reach the disk in the order they are changed and
    a rename does so as a whole; an inode that was not synced may hold anything. *)
Definition crashed (w w' : inode_fs) : Prop :=
  entries w' = entries w ∧ ∀ i, i ∈ synced w → inodes w' !! i = inodes w !! i.

Definition osRename (old new : text) (w : inode_fs) : inode_fs :=
  match entries w !! old with
  | Some i => mkFs (<[new := i]> (delete old (entries w))) (inodes w) (next w) (synced w)
  | None => w
  end.

Definition osRemove (path : text) (w : inode_fs) : inode_fs := mkFs (delete path (entries w)) (inodes w) (next w) (synced w).

(** What fails: each call with its error; [fail_copy] is the number of bytes copied before
    the copy failed; [fail_remove] says that the temporary file could not be removed. *)
Record copy_env : Type := mkCopyEnv {
  fail_open : option string; fail_create : option string; fail_copy : option nat; fail_sync : option string;
  fail_close : option string; fail_rename : option string; fail_remove : bool;
}.

Definition tmp_name (dest : text) : text := dest ++ str ".tmp".

Definition removeFile (env : copy_env) (path : text) (w : inode_fs) : inode_fs :=
  if fail_remove env then w else osRemove path w.

(** The states the file system goes through, a byte at a time, and the error. What is
    copied is what the open source file holds by then. *)
Definition AtomicCopyFileContent (env : copy_env) (src dest : text) (w : inode_fs) : list inode_fs * inode_fs * option string :=
  match fail_open env, entries w !! src with
  | Some e, _ => ([], w, Some e)
  | None, None => ([], w, Some "no such file"%string)
  | None, Some srcFile =>
      match fail_create env with
      | Some e => ([], w, Some e)
      | None =>
          let tmp := tmp_name dest in
          let '(w1, tmpFile) := osCreate tmp w in
          let data := default [] (inodes w1 !! srcFile) in
          let written n := write_inode tmpFile (take n data) w1 in
          match fail_copy env with
          | Some n =>
              let w' := removeFile env tmp (written n) in
              (w1 :: (written <$> seq 0 (S n)) ++ [w'], w', Some "copy"%string)
          | None =>
              let w2 := written (length data) in
              let states := w1 :: (written <$> seq 0 (S (length data))) in
              match fail_sync env with
              | Some e => let w' := removeFile env tmp w2 in (states ++ [w'], w', Some e)
              | None =>
                  let w3 := fileSync tmpFile w2 in
                  let states := states ++ [w3] in
                  match fail_close env, fail_rename env with
                  | Some e, _ | None, Some e =>
                      let w' := removeFile env tmp w3 in (states ++ [w'], w', Some e)
                  | None, None =>
                      let w' := osRename tmp dest w3 in (states ++ [w'], w', None)
                  end
              end
          end
      end
  end.

(** ** Paths *)

Definition slash : ascii := char 47.
Definition dot : text := str ".".
Definition dotdot : text := str "..".

(** [filepath.Clean] of a rooted path: its elements. *)
Definition clean_step (acc : list text) (s : text) : list text :=
  if decide (s = [] ∨ s = dot) then acc else if decide (s = dotdot) then removelast acc else acc ++ [s].
Definition clean (p : text) : list text := foldl clean_step [] (Split p slash).
Definition render (segs : list text) : text := slash :: Join segs [slash].

(** [filepath.Join] with a rooted first element, and [filepath.Abs] with the working
    directory. *)
Definition path_join (root name : text) : text := render (clean (root ++ slash :: name)).
Definition filepathAbs (cwd p : text) : text :=
  match p with
  | c :: _ => if Ascii.eqb c slash then render (clean p) else path_join cwd p
  | [] => path_join cwd p
  end.

(** ** Trees *)

(** What [filepath.Walk] meets: a file, a directory with its children in lexical order, an
    entry that cannot be examined, a directory that cannot be listed. *)
#[warnings="-register-all"] Inductive node : Type :=
  | NFile (content : bytes)
  | NDir (children : list (text * node))
  | NBad (e : string)
  | NUnlisted (e : string).

Definition is_dir (t : node) : bool := match t with NDir _ | NUnlisted _ => true | _ => false end.

(** [filepath.Walk]: paths are relative to the root, which is the empty list. *)
Section walk.
Context {S : Type} (fn : list text → node → option string → S → S * option string).

Fixpoint walk (t : node) (path : list text) (s : S) : S * option string :=
  match t with
  | NFile _ => fn path t None s
  | NBad e | NUnlisted e => fn path t (Some e) s
  | NDir children =>
      match fn path t None s with
      | (s, Some e) => (s, Some e)
      | (s, None) =>
          (fix visit (children : list (text * node)) (s : S) : S * option string :=
             match children with
             | [] => (s, None)
             | (name, child) :: children =>
                 match walk child (path ++ [name]) s with
                 | (s, Some e) => (s, Some e)
                 | (s, None) => visit children s
                 end
             end) children s
      end
  end.
End walk.

(** ** Globbing *)

(** [Match] is [filepath.Match] of the pattern, a malformed one matching nothing; [base] is
    the last element of the root. *)
Definition glob_step (Match : text → bool) (base : text) (path : list text) (t : node) (err : option string) (matches : list (list text))
  : list (list text) * option string :=
  match err with
  | Some e => (matches, Some e)
  | None =>
      if negb (is_dir t) && Match (default base (last path)) then (matches ++ [path], None) else (matches, None)
  end.

Definition GlobWithDepth (Match : text → bool) (base : text) (t : node) : list (list text) * option string :=
  match walk (glob_step Match base) t [] [] with
  | (_, Some e) => ([], Some e)
  | (matches, None) => (matches, None)
  end.

(** ** Archives *)

Record zip_entry : Type := mkEntry { ze_Name : text; ze_IsDir : bool; ze_content : bytes }.

(** The step of [CreateZipFile]: [source != path] holds except at the root. [fail p] is the
    error of opening or copying a file. *)
Definition zip_step (fail : list text → option string) (path : list text) (t : node) (err : option string) (out : list zip_entry)
  : list zip_entry * option string :=
  if decide (path = []) then (out, None)
  else match err with
  | Some e => (out, Some e)
  | None =>
      let name := Join path [slash] in
      match t with
      | NFile c =>
          match fail path with
          | Some e => (out ++ [mkEntry name false []], Some e)
          | None => (out ++ [mkEntry name false c], None)
          end
      | _ => (out ++ [mkEntry (name ++ [slash]) true []], None)
      end
  end.

(** The entries written, whether the archive was closed ([fail_close_zip] is ignored by the
    code), and the error. *)
Definition CreateZipFile (fail_create_target : option string) (fail : list text → option string) (fail_close_zip : bool) (t : node)
  : option (list zip_entry) * option string :=
  match fail_create_target with
  | Some e => (None, Some e)
  | None =>
      let '(out, e) := walk (zip_step fail) t [] [] in
      (if fail_close_zip then None else Some out, e)
  end.

(** Files ([Some]) and directories ([None]) by their elements. *)
Abbreviation tree_fs := (gmap (list text) (option bytes)).

(** The directories that lead to a path, itself last. *)
Fixpoint leading (p : list text) : list (list text) :=
  match p with
  | [] => [[]]
  | s :: p => [] :: (cons s <$> leading p)
  end.

(** [os.MkdirAll]: nothing is created when a file is in the way. *)
Definition osMkdirAll (p : list text) (w : tree_fs) : tree_fs * option string :=
  if existsb (λ q, match w !! q with Some (Some _) => true | _ => false end) (leading p) then (w, Some "not a directory"%string)
  else (foldl (λ w q, <[q := None]> w) w (leading p), None).

(** [os.OpenFile] with create and truncate. *)
Definition osOpenFile (p : list text) (w : tree_fs) : option string :=
  match w !! p with Some None => Some "is a directory"%string | _ => None end.

(** One entry of the loop; [fail] is an error of the archive or the disk. *)
Definition unzip_step (root : text) (fail : zip_entry → option string) (w : tree_fs) (f : zip_entry) : tree_fs * option string :=
  let path := path_join root (ze_Name f) in
  if bool_decide (path ≠ root) && negb (HasPrefix path (root ++ [slash])) then (w, Some "illegal target path"%string)
  else if ze_IsDir f then osMkdirAll (clean path) w
  else match osMkdirAll (removelast (clean path)) w with
  | (w, Some e) => (w, Some e)
  | (w, None) =>
      match osOpenFile (clean path) w with
      | Some e => (w, Some e)
      | None =>
          match fail f with
          | Some e => (<[clean path := Some []]> w, Some e)
          | None => (<[clean path := Some (ze_content f)]> w, None)
          end
      end
  end.

Fixpoint unzip_loop (root : text) (fail : zip_entry → option string) (fs : list zip_entry) (w : tree_fs) : tree_fs * option string :=
  match fs with
  | [] => (w, None)
  | f :: fs =>
      match unzip_step root fail w f with
      | (w, Some e) => (w, Some e)
      | (w, None) => unzip_loop root fail fs w
      end
  end.

(** [reader] is what opening the archive gives. *)
Definition UnzipFile (cwd : text) (reader : result string (list zip_entry)) (target : text) (fail : zip_entry → option string) (w : tree_fs)
  : tree_fs * option string :=
  match reader with
  | Err e => (w, Some e)
  | Ok files => unzip_loop (filepathAbs cwd target) fail files w
  end.

(** ** Small checks *)

(** [os.Stat] gives whether the path is a directory, [None] when it does not exist. *)
Definition IsDirectory (stat : result string (option bool)) : bool * option string :=
  match stat with
  | Err e => (false, Some e)
  | Ok None => (false, Some "no such file"%string)
  | Ok (Some dir) => (dir, None)
  end.

(** [os.Lstat] gives whether the path is a symbolic link. *)
Definition IsSymlink (lstat : result string (option bool)) : bool * option string :=
  match lstat with
  | Err e => (false, Some e)
  | Ok None => (false, Some "no such file"%string)
  | Ok (Some link) => (link, None)
  end.

(** The error, and whether the directory is made. *)
Definition CreateDirIfNotExists (stat : result string (option bool)) (mkdir : option string) : bool * option string :=
  match stat with
  | Ok (Some true) => (false, None)
  | Ok (Some false) => (false, Some "path exists and is not a directory"%string)
  | Ok None => (true, mkdir)
  | Err e => (false, Some e)
  end.

Definition GetFileChecksum (Sum256 : bytes → list Z) (hex : list Z → text) (opened : result string (result string bytes))
  : result string text :=
  match opened with
  | Err e => Err ("failed to open file: " +:+ e)
  | Ok (Err e) => Err ("failed to read file for hashing: " +:+ e)
  | Ok (Ok b) => Ok (hex (Sum256 b))
  end.

(** [SanitizeFilename] on a valid UTF-8 name: the bytes of multi-byte characters are above
    0x7F and kept. *)
Definition sanitize_byte (c : ascii) : text :=
  if Url.one_of [char_dquote; char 92; char 13; char 10] c then str "_"
  else if (byte_of_ascii c <? 32) || (byte_of_ascii c =? 127) then []
  else [c].

Definition SanitizeFilename (name defaultName : text) : text * text :=
  match name ≫= sanitize_byte with
  | [] => (defaultName, Url.PathEscape defaultName)
  | s => (s, Url.PathEscape s)
  end.

(** ** The atomic copy *)

(** Every name has an inode in use. *)
Definition fs_ok (w : inode_fs) : Prop := ∀ p i, entries w !! p = Some i → (i < next w)%nat ∧ is_Some (inodes w !! i).

(** The temporary name is nobody else's file. *)
Definition tmp_free (dest : text) (w : inode_fs) : Prop :=
  ∀ p i, entries w !! tmp_name dest = Some i → entries w !! p = Some i → p = tmp_name dest.

Lemma tmp_name_ne dest : tmp_name dest ≠ dest.
Proof. unfold tmp_name. intros E. apply (f_equal length) in E. rewrite length_app in E. cbn in E. lia. Qed.

(** A state in which only the temporary file differs from [w]. *)
Definition scratch (dest : text) (i : nat) (w w' : inode_fs) : Prop :=
  (∀ p, p ≠ tmp_name dest → entries w' !! p = entries w !! p) ∧
  (∀ p j, p ≠ tmp_name dest → entries w !! p = Some j →
     j ≠ i ∧ inodes w' !! j = inodes w !! j ∧ (j ∈ synced w → j ∈ synced w')).

Lemma scratch_content dest i w w' p : scratch dest i w w' → p ≠ tmp_name dest → content w' p = content w p.
Proof.
  intros [H1 H2] Hp. unfold content. rewrite H1 by done. destruct (entries w !! p) as [j|] eqn:E; [|done]. cbn.
  by apply (H2 p j Hp E).
Qed.

(** The contents of a name are on the disk. *)
Definition on_disk (w : inode_fs) (p : text) : Prop := ∀ i, entries w !! p = Some i → i ∈ synced w.

Lemma scratch_crash dest i w v v' p :
  scratch dest i w v → crashed v v' → p ≠ tmp_name dest → on_disk w p → content v' p = content w p.
Proof.
  intros [H1 H2] [He Hi] Hp Hd. unfold content. rewrite He, H1 by done. destruct (entries w !! p) as [j|] eqn:E; [|done]. cbn.
  destruct (H2 p j Hp E) as (_ & Hj & Hs). rewrite Hi; [done|]. by apply Hs, Hd.
Qed.

Lemma osCreate_scratch dest w w1 i :
  fs_ok w → tmp_free dest w → osCreate (tmp_name dest) w = (w1, i) →
  scratch dest i w w1 ∧ entries w1 !! tmp_name dest = Some i ∧ is_Some (inodes w1 !! i).
Proof.
  intros Hok Hf. unfold osCreate. destruct (entries w !! tmp_name dest) as [j|] eqn:E; intros [= <- <-]; cbn.
  - split; [|split; [done|by rewrite lookup_insert_eq]]. split; [done|]. intros p k Hp Ek. assert (k ≠ j) as Hkj by (intros ->; by apply Hp, (Hf p j)).
    split; [done|]. cbn. rewrite lookup_insert_ne by done. set_solver.
  - split; [|split; by rewrite lookup_insert_eq]. split; cbn.
    + intros p Hp. by rewrite lookup_insert_ne.
    + intros p k Hp Ek. destruct (Hok p k Ek) as [Hlt _]. assert (k ≠ next w) as Hne by lia. split; [done|].
      rewrite lookup_insert_ne by done. set_solver.
Qed.

Lemma write_scratch dest i w w1 b : scratch dest i w w1 → scratch dest i w (write_inode i b w1).
Proof.
  intros [H1 H2]. split; [done|]. intros p j Hp E. destruct (H2 p j Hp E) as (Hne & Hj & Hs). split; [done|]. cbn.
  rewrite lookup_insert_ne by done. set_solver.
Qed.

Lemma sync_scratch dest i w w1 : scratch dest i w w1 → scratch dest i w (fileSync i w1).
Proof.
  intros [H1 H2]. split; [done|]. intros p j Hp E. destruct (H2 p j Hp E) as (Hne & Hj & Hs). cbn. set_solver.
Qed.

Lemma remove_scratch dest env i w w1 : scratch dest i w w1 → scratch dest i w (removeFile env (tmp_name dest) w1).
Proof.
  intros [H1 H2]. unfold removeFile. destruct (fail_remove env); [done|]. split; cbn; [|done].
  intros p Hp. rewrite lookup_delete_ne by done. by apply H1.
Qed.

(** The temporary file while it is written. *)
Definition written (i : nat) (data : bytes) (w : inode_fs) (n : nat) : inode_fs := write_inode i (take n data) w.

Lemma written_states dest i w w1 data l :
  scratch dest i w w1 → Forall (scratch dest i w) (w1 :: (written i data w1 <$> l)).
Proof.
  intros Hs. constructor; [done|]. apply Forall_forall. intros v (n & -> & _)%list_elem_of_fmap. by apply write_scratch.
Qed.

(** A copy that is renamed. *)
Lemma renamed_copy dest i w w1 data :
  scratch dest i w w1 → entries w1 !! tmp_name dest = Some i →
  let w' := osRename (tmp_name dest) dest (fileSync i (written i data w1 (length data))) in
  entries w' !! tmp_name dest = None ∧
  (∀ v', crashed w' v' → content v' dest = Some data) ∧
  (∀ v' p, crashed w' v' → p ≠ dest → p ≠ tmp_name dest → on_disk w p → content v' p = content w p) ∧
  (∀ p, p ≠ dest → p ≠ tmp_name dest → content w' p = content w p).
Proof.
  intros Hs He w'. set (w3 := fileSync i (written i data w1 (length data))) in w'.
  assert (scratch dest i w w3) as Hs3 by by apply sync_scratch, write_scratch.
  assert (w' = mkFs (<[dest := i]> (delete (tmp_name dest) (entries w1))) (inodes w3) (next w3) (synced w3)) as Ew
    by (unfold w', osRename; change (entries w3) with (entries w1); rewrite He; reflexivity).
  rewrite Ew. clear Ew. split_and!.
  - cbn. rewrite lookup_insert_ne by (apply not_eq_sym, tmp_name_ne). by rewrite lookup_delete_eq.
  - intros v' [Ev Hv]. unfold content. rewrite Ev. cbn. rewrite lookup_insert_eq. cbn.
    rewrite Hv by (cbn; set_solver). cbn. by rewrite lookup_insert_eq, firstn_all.
  - intros v' p [Ev Hv] Hp Hp' Hd. apply (scratch_crash dest i w w3 (mkFs (entries w3) (inodes v') (next v') (synced v'))) in Hd; [|done|by split|done].
    rewrite <- Hd. unfold content. rewrite Ev. cbn. by rewrite lookup_insert_ne, lookup_delete_ne.
  - intros p Hp Hp'. rewrite <- (scratch_content dest i w w3 p Hs3 Hp'). unfold content. cbn. by rewrite lookup_insert_ne, lookup_delete_ne.
Qed.

Lemma crashed_refl w : crashed w w.
Proof. by split. Qed.

(** What holds of a copy: the states it goes through, the last one and its error. *)
Definition atomic_copy (env : copy_env) (dest : text) (w : inode_fs) (data : bytes) (states : list inode_fs) (w' : inode_fs) (e : option string) : Prop :=
  (∀ v, v ∈ w :: states → content v dest = content w dest ∨ content v dest = Some data) ∧
  (∀ v v', v ∈ w :: states → crashed v v' → on_disk w dest → content v' dest = content w dest ∨ content v' dest = Some data) ∧
  (∀ v v' p, v ∈ w :: states → crashed v v' → p ≠ dest → p ≠ tmp_name dest → on_disk w p → content v' p = content w p) ∧
  match e with
  | None => entries w' !! tmp_name dest = None ∧ ∀ v', crashed w' v' → content v' dest = Some data
  | Some _ => content w' dest = content w dest ∧ (fail_create env = None → fail_open env = None → fail_remove env = false → entries w' !! tmp_name dest = None)
  end.

Lemma scratch_states dest i w states data :
  Forall (scratch dest i w) states →
  (∀ v, v ∈ states → content v dest = content w dest ∨ content v dest = Some data) ∧
  (∀ v v', v ∈ states → crashed v v' → on_disk w dest → content v' dest = content w dest ∨ content v' dest = Some data) ∧
  (∀ v v' p, v ∈ states → crashed v v' → p ≠ dest → p ≠ tmp_name dest → on_disk w p → content v' p = content w p).
Proof.
  intros Hall. rewrite Forall_forall in Hall. pose proof (not_eq_sym (tmp_name_ne dest)) as Htmp. split_and!.
  - intros v Hv. left. by apply (scratch_content dest i w v dest (Hall v Hv)).
  - intros v v' Hv Hc Hd. left. by apply (scratch_crash dest i w v v' dest (Hall v Hv)).
  - intros v v' p Hv Hc _ Hp Hd. by apply (scratch_crash dest i w v v' p (Hall v Hv)).
Qed.

(** A copy that gives up before it has a temporary file, or in a state [u]. *)
Lemma refused_copy env dest i w data err :
  scratch dest i w w → fail_create env ≠ None ∨ fail_open env ≠ None → atomic_copy env dest w data [] w (Some err).
Proof.
  intros Hs Hf. destruct (scratch_states dest i w [w] data) as (H1 & H2 & H3); [by constructor|].
  split_and!; [done..|]. intros ? ?. by destruct Hf.
Qed.

Lemma failed_copy env dest i w data l u err :
  Forall (scratch dest i w) (w :: l) → scratch dest i w u →
  let w' := removeFile env (tmp_name dest) u in atomic_copy env dest w data (l ++ [w']) w' (Some err).
Proof.
  intros Hall Hs w'. assert (scratch dest i w w') as Hs' by by apply remove_scratch.
  destruct (scratch_states dest i w (w :: l ++ [w']) data) as (H1 & H2 & H3).
  { inversion_clear Hall. constructor; [done|]. apply Forall_app. split; [done|by constructor]. }
  split_and!; [done..| |].
  - eapply scratch_content; [done|]. apply not_eq_sym, tmp_name_ne.
  - intros _ _ Hr. unfold w', removeFile. rewrite Hr. cbn. by rewrite lookup_delete_eq.
Qed.

(** A copy that is renamed. *)
Lemma finished_copy env dest i w w1 data l :
  Forall (scratch dest i w) (w :: l) → scratch dest i w w1 → entries w1 !! tmp_name dest = Some i →
  let w' := osRename (tmp_name dest) dest (fileSync i (written i data w1 (length data))) in
  atomic_copy env dest w data (l ++ [w']) w' None.
Proof.
  intros Hall Hs He w'. destruct (renamed_copy dest i w w1 data Hs He) as (R1 & R2 & R3 & R4). fold w' in R1, R2, R3, R4.
  destruct (scratch_states dest i w (w :: l) data Hall) as (H1 & H2 & H3). split_and!; [| | |done|done].
  - intros v. rewrite app_comm_cons, elem_of_app, list_elem_of_singleton. intros [Hv| ->]; [by apply H1|]. right. apply R2, crashed_refl.
  - intros v v'. rewrite app_comm_cons, elem_of_app, list_elem_of_singleton. intros [Hv| ->] Hc Hd; [by apply (H2 v)|]. right. by apply R2.
  - intros v v' p. rewrite app_comm_cons, elem_of_app, list_elem_of_singleton. intros [Hv| ->] Hc Hp Hp' Hd; [by apply (H3 v)|by apply R3].
Qed.

(** (C40) The copy is atomic, also against crashes. The temporary name must be no other file's and
    not the source's, and what the destination held must have been on the disk. In every
    state the file system goes through, and in whatever a crash leaves of such a state, the
    destination holds what it held, or the whole source, and no file but the destination and
    the temporary one has changed. The copy that returns no error has put the source's
    content there for good, and left no temporary file; one that returns an error has changed
    nothing, and left no temporary file if it could be removed. *)
Theorem AtomicCopy_all_or_nothing env src dest w states w' e data :
  fs_ok w → tmp_free dest w → src ≠ tmp_name dest → content w src = Some data →
  AtomicCopyFileContent env src dest w = (states, w', e) →
  (∀ v, v ∈ w :: states → content v dest = content w dest ∨ content v dest = Some data) ∧
  (∀ v v', v ∈ w :: states → crashed v v' → on_disk w dest → content v' dest = content w dest ∨ content v' dest = Some data) ∧
  (∀ v v' p, v ∈ w :: states → crashed v v' → p ≠ dest → p ≠ tmp_name dest → on_disk w p → content v' p = content w p) ∧
  match e with
  | None => entries w' !! tmp_name dest = None ∧ ∀ v', crashed w' v' → content v' dest = Some data
  | Some _ => content w' dest = content w dest ∧ (fail_create env = None → fail_open env = None → fail_remove env = false → entries w' !! tmp_name dest = None)
  end.
Proof.
  intros Hok Hf Hsrc Hd Hcopy. change (atomic_copy env dest w data states w' e). revert Hcopy. unfold content in Hd.
  destruct (entries w !! src) as [isrc|] eqn:Es; [|done]. cbn in Hd. unfold AtomicCopyFileContent. rewrite Es.
  destruct (osCreate (tmp_name dest) w) as [w1 it] eqn:Ec. destruct (osCreate_scratch dest w w1 it Hok Hf Ec) as (Hs1 & He1 & Hi1).
  assert (scratch dest it w w) as Hw by (split; [done|]; intros p j Hp E; split; [apply (proj2 Hs1 p j Hp E)|done]).
  destruct (fail_open env) eqn:Eo; [intros [= <- <- <-]; apply (refused_copy _ _ it); [done|right; by rewrite Eo]|].
  destruct (fail_create env) eqn:Ecr; [intros [= <- <- <-]; apply (refused_copy _ _ it); [done|left; by rewrite Ecr]|].
  assert (default [] (inodes w1 !! isrc) = data) as Ed by (rewrite (proj1 (proj2 (proj2 Hs1 src isrc Hsrc Es))); by rewrite Hd).
  cbn zeta. rewrite Ed. change (λ n, write_inode it (take n data) w1) with (written it data w1).
  assert (∀ l, Forall (scratch dest it w) (w :: w1 :: (written it data w1 <$> l))) as Hl by (intros l; constructor; [done|by apply written_states]).
  assert (∀ n, scratch dest it w (written it data w1 n)) as Hwr by (intros n; by apply write_scratch).
  pose proof (sync_scratch _ _ _ _ (Hwr (length data))) as Hsy.
  destruct (fail_copy env) as [n|]; [intros [= <- <- <-]; exact (failed_copy env dest it w data (w1 :: (written it data w1 <$> seq 0 (S n))) (written it data w1 n) "copy"%string (Hl _) (Hwr n))|].
  set (l := w1 :: (written it data w1 <$> seq 0 (S (length data)))) in *. specialize (Hl (seq 0 (S (length data)))). fold l in Hl.
  assert (Forall (scratch dest it w) (w :: l ++ [fileSync it (written it data w1 (length data))])) as Hl'
    by (rewrite app_comm_cons; apply Forall_app; split; [done|by constructor]).
  destruct (fail_sync env) as [err|]; [intros [= <- <- <-]; exact (failed_copy env dest it w data l _ err Hl (Hwr (length data)))|].
  destruct (fail_close env) as [err|]; [intros [= <- <- <-]; exact (failed_copy env dest it w data _ _ err Hl' Hsy)|].
  destruct (fail_rename env) as [err|]; [intros [= <- <- <-]; exact (failed_copy env dest it w data _ _ err Hl' Hsy)|].
  intros [= <- <- <-]. exact (finished_copy env dest it w w1 data _ Hl' Hs1 He1).
Qed.

Definition demo_fs : inode_fs := mkFs {[str "a" := 0%nat; str "b" := 1%nat]} {[0%nat := [7; 8]; 1%nat := [9]]} 2 {[0%nat; 1%nat]}.

Lemma demo_fs_ok : fs_ok demo_fs ∧ tmp_free (str "b") demo_fs.
Proof.
  split; [|by intros p i]. intros p i. unfold demo_fs. cbn [entries inodes next].
  rewrite lookup_insert_Some. intros [[<- <-]|[_ Hp]]; [split; [lia|by exists [7; 8]]|].
  apply lookup_singleton_Some in Hp as [<- <-]. split; [lia|by exists [9]].
Qed.

Lemma AtomicCopy_all_or_nothing_witness :
  let '(states, w', e) := AtomicCopyFileContent (mkCopyEnv None None None None None None false) (str "a") (str "b") demo_fs in
  e = None ∧ (∀ v', crashed w' v' → content v' (str "b") = Some [7; 8]) ∧
  ∀ v v', v ∈ states → crashed v v' → content v' (str "b") = Some [9] ∨ content v' (str "b") = Some [7; 8].
Proof.
  destruct (AtomicCopyFileContent (mkCopyEnv None None None None None None false) (str "a") (str "b") demo_fs) as [[states w'] e] eqn:E.
  assert (e = None) as -> by (injection E as _ _ <-; reflexivity).
  destruct (AtomicCopy_all_or_nothing (mkCopyEnv None None None None None None false) (str "a") (str "b") demo_fs states w' None [7; 8]
              (proj1 demo_fs_ok) (proj2 demo_fs_ok) ltac:(discriminate) eq_refl E) as (_ & H1 & _ & _ & H2).
  split; [reflexivity|]. split; [exact H2|]. intros v v' Hv Hc. apply (H1 v v'); [by apply elem_of_cons; right|exact Hc|].
  intros i Hi. vm_compute in Hi. injection Hi as <-. vm_compute. reflexivity.
Defined.

(** Copying a file onto the name it is the temporary file of: creating the temporary file
    empties the source before it is read; the copy reports success, the destination is
    empty, and the source's name is gone. *)
Theorem AtomicCopy_of_its_own_tmp dest w i :
  entries w !! tmp_name dest = Some i →
  let '(_, w', e) := AtomicCopyFileContent (mkCopyEnv None None None None None None false) (tmp_name dest) dest w in
  e = None ∧ content w' dest = Some [] ∧ entries w' !! tmp_name dest = None.
Proof.
  intros E. unfold AtomicCopyFileContent. cbn [fail_open fail_create fail_copy fail_sync fail_close fail_rename]. unfold osCreate. rewrite E.
  cbn [inodes]. rewrite lookup_insert_eq. cbn [default length take]. unfold osRename, fileSync, write_inode. cbn [entries inodes]. rewrite E.
  split; [done|]. unfold content. cbn [entries inodes].
  rewrite lookup_insert_eq, lookup_insert_ne, lookup_delete_eq by apply not_eq_sym, tmp_name_ne. cbn. by rewrite lookup_insert_eq.
Qed.

Lemma AtomicCopy_of_its_own_tmp_witness :
  let w := mkFs {[str "b.tmp" := 0%nat]} {[0%nat := [7; 8]]} 1 ∅ in
  let '(_, w', e) := AtomicCopyFileContent (mkCopyEnv None None None None None None false) (str "b.tmp") (str "b") w in
  e = None ∧ content w' (str "b") = Some [] ∧ entries w' !! str "b.tmp" = None.
Proof. exact (AtomicCopy_of_its_own_tmp (str "b") (mkFs {[str "b.tmp" := 0%nat]} {[0%nat := [7; 8]]} 1 ∅) 0 eq_refl). Defined.

End FileSys.
