(* ===== verification/FileProps.v ===== *)
(** * Archives and walks: properties of [FileSys.v]

    Cleaned paths and their elements, the confinement of [UnzipFile], the round trip of
    [CreateZipFile] and [UnzipFile], and [GlobWithDepth]. *)

From Stdlib Require Import ZArith Lia Ascii.
From stdpp Require Import base numbers strings gmap list.
From S2P Require Import Prelude SqlText FileSys.
Local Open Scope Z_scope.

Module FileProps.
Import FileSys.

(** ** Paths and their elements *)

(** An element of a cleaned path. *)
Definition seg_ok (s : text) : Prop := s ≠ [] ∧ s ≠ dot ∧ s ≠ dotdot ∧ slash ∉ s.

Lemma clean_step_ok acc s : Forall seg_ok acc → slash ∉ s → Forall seg_ok (clean_step acc s).
Proof.
  intros Ha Hs. unfold clean_step. case_decide as H1; [done|]. case_decide as H2.
  - destruct acc as [|x acc _] using rev_ind; [done|]. rewrite removelast_last. by apply Forall_app in Ha as [? _].
  - apply Forall_app. split; [done|]. apply Forall_singleton. unfold seg_ok. tauto.
Qed.

Lemma clean_steps_ok ss : ∀ acc, Forall seg_ok acc → Forall (λ s, slash ∉ s) ss → Forall seg_ok (foldl clean_step acc ss).
Proof.
  induction ss as [|s ss IH]; intros acc Ha Hs; cbn; [done|]. apply Forall_cons in Hs as [? ?]. apply IH; [by apply clean_step_ok|done].
Qed.

Lemma clean_ok p : Forall seg_ok (clean p).
Proof. apply clean_steps_ok; [constructor|apply Split_no_sep]. Qed.

Lemma clean_steps_id segs : ∀ acc, Forall seg_ok segs → foldl clean_step acc segs = acc ++ segs.
Proof.
  induction segs as [|s segs IH]; intros acc Hs; cbn; [by rewrite app_nil_r|]. apply Forall_cons in Hs as [(H1 & H2 & H3 & _) Hs].
  unfold clean_step at 2. rewrite decide_False, decide_False by tauto. rewrite IH by done. by rewrite <- app_assoc.
Qed.

Lemma seg_ok_no_slash segs : Forall seg_ok segs → Forall (λ s, slash ∉ s) segs.
Proof. intros H. eapply Forall_impl; [exact H|]. by intros s (_ & _ & _ & ?). Qed.

Lemma Split_slash s : Split (slash :: s) slash = [] :: Split s slash.
Proof. cbn. by rewrite bool_decide_eq_true_2. Qed.

Lemma Split_render segs : Forall seg_ok segs → Split (render segs) slash = [] :: match segs with [] => [[]] | _ => segs end.
Proof.
  intros Hs. unfold render. rewrite Split_slash. f_equal. destruct segs as [|s segs]; [done|].
  apply Split_Join; [done|by apply seg_ok_no_slash].
Qed.

Lemma clean_render segs : Forall seg_ok segs → clean (render segs) = segs.
Proof.
  intros Hs. unfold clean. rewrite Split_render by done. destruct segs as [|s segs]; [done|].
  change (foldl clean_step [] ([] :: s :: segs)) with (foldl clean_step [] (s :: segs)). by rewrite clean_steps_id.
Qed.

(** Splitting on both sides of a separator. *)
Lemma Split_app_sep a b : Split (a ++ slash :: b) slash = Split a slash ++ Split b slash.
Proof.
  induction a as [|c a IH]; [cbn; by rewrite bool_decide_eq_true_2|]. cbn [Split app]. case_bool_decide; [by rewrite IH|].
  rewrite IH. destruct (Split a slash) as [|p ps] eqn:E; [by apply Split_nonempty in E|done].
Qed.

(** Joining a name to a cleaned root: the name's elements are applied one by one. *)
Lemma clean_join rs name : Forall seg_ok rs → clean (render rs ++ slash :: name) = foldl clean_step rs (Split name slash).
Proof.
  intros Hs. unfold clean. rewrite Split_app_sep, foldl_app, Split_render by done.
  destruct rs as [|r rs]; [done|].
  change (foldl clean_step [] ([] :: r :: rs)) with (foldl clean_step [] (r :: rs)). by rewrite (clean_steps_id (r :: rs)).
Qed.

Lemma path_join_clean rs name : Forall seg_ok rs → clean (path_join (render rs) name) = foldl clean_step rs (Split name slash).
Proof. intros Hs. unfold path_join. rewrite clean_render by apply clean_ok. by apply clean_join. Qed.

Lemma filepathAbs_render cwd p : ∃ rs, filepathAbs cwd p = render rs ∧ Forall seg_ok rs.
Proof.
  unfold filepathAbs, path_join. destruct p as [|c p]; [|destruct (Ascii.eqb c slash)]; eexists; (split; [reflexivity|apply clean_ok]).
Qed.

(** The test of the loop on strings is a test on elements. *)
Lemma under_root segs rs :
  Forall seg_ok segs → Forall seg_ok rs → HasPrefix (render segs) (render rs ++ [slash]) = true → rs `prefix_of` segs.
Proof.
  intros Hs Hr [t E]%HasPrefix_true. destruct rs as [|r rs]; [apply prefix_nil|].
  apply (f_equal (λ s, Split s slash)) in E. rewrite <- app_assoc in E. cbn [app] in E.
  rewrite Split_app_sep, !Split_render in E by done. cbn [app] in E. injection E as E. destruct segs as [|s segs].
  - assert (r = []) by congruence. apply Forall_cons in Hr as [(? & _) _]. done.
  - rewrite E. rewrite app_comm_cons. apply prefix_app_r. done.
Qed.

Lemma elem_of_leading q p : q ∈ leading p ↔ q `prefix_of` p.
Proof.
  revert q. induction p as [|s p IH]; intros q; cbn.
  - rewrite list_elem_of_singleton. split; [by intros ->|]. by intros ?%prefix_nil_inv.
  - rewrite elem_of_cons, list_elem_of_fmap. split.
    + intros [->|(x & -> & Hx%IH)]; [apply prefix_nil|by apply prefix_cons].
    + destruct q as [|s' q]; [by left|]. intros H. right. pose proof (prefix_cons_inv_1 _ _ _ _ H) as ->.
      exists q. split; [done|]. apply IH. by eapply prefix_cons_inv_2.
Qed.

(** ** Effects on the tree *)

Lemma mkdirs_lookup ps : ∀ (w : tree_fs) q,
  foldl (λ w q, <[q := None]> w) w ps !! q = if decide (q ∈ ps) then Some None else w !! q.
Proof.
  induction ps as [|p ps IH]; intros w q; cbn; [by rewrite decide_False by set_solver|].
  rewrite IH. destruct (decide (q ∈ ps)); [by rewrite decide_True by set_solver|].
  destruct (decide (p = q)) as [->|Hne]; [by rewrite lookup_insert_eq, decide_True by set_solver|].
  rewrite lookup_insert_ne by done. by rewrite decide_False by set_solver.
Qed.

(** [osMkdirAll] fails and changes nothing, or makes directories of the leading paths, none
    of which was a file. *)
Lemma osMkdirAll_cases p w w' e : osMkdirAll p w = (w', e) →
  (w' = w ∧ is_Some e) ∨
  (e = None ∧ (∀ q c, q `prefix_of` p → w !! q ≠ Some (Some c)) ∧
   ∀ q, w' !! q = if decide (q `prefix_of` p) then Some None else w !! q).
Proof.
  unfold osMkdirAll. destruct (existsb _ _) eqn:E; intros [= <- <-]; [by left|]. right. split; [done|]. split.
  - intros q c Hq Hf. apply not_true_iff_false in E. apply E. apply existsb_exists. exists q.
    split; [by apply list_elem_of_In, elem_of_leading|]. by rewrite Hf.
  - intros q. rewrite mkdirs_lookup. destruct (decide (q ∈ leading p)) as [H|H]; rewrite elem_of_leading in H;
      [by rewrite decide_True|by rewrite decide_False].
Qed.

(** Below a root, on the way to it, or untouched. *)
Definition confined (rs : list text) (w w' : tree_fs) : Prop :=
  ∀ q, w' !! q = w !! q ∨ rs `prefix_of` q ∨ (q `prefix_of` rs ∧ w !! q = None ∧ w' !! q = Some None).

Lemma confined_refl rs w : confined rs w w.
Proof. intros q. by left. Qed.

Lemma confined_trans rs w1 w2 w3 : confined rs w1 w2 → confined rs w2 w3 → confined rs w1 w3.
Proof.
  intros H1 H2 q. destruct (H2 q) as [E2|[?|(Hp & E2 & E3)]]; [|by right; left|].
  - destruct (H1 q) as [E1|[?|(Hp & E1 & E1')]]; [left; congruence|by right; left|]. right. right. split; [done|]. split; [done|congruence].
  - destruct (H1 q) as [E1|[?|(_ & _ & E1')]]; [|by right; left|congruence]. right. right. split; [done|]. split; [congruence|done].
Qed.

Lemma mkdir_confined rs p w w' e : rs `prefix_of` p ∨ p `prefix_of` rs → osMkdirAll p w = (w', e) → confined rs w w'.
Proof.
  intros Hp [[-> _]|(_ & Hno & Hl)]%osMkdirAll_cases; [apply confined_refl|]. intros q. rewrite Hl. case_decide as Hq; [|by left].
  destruct (w !! q) as [[c|]|] eqn:E; [by destruct (Hno q c)|by left|].
  right. destruct Hp as [Hp|Hp].
  - destruct (prefix_weak_total q rs p Hq Hp) as [?|?]; [by right|by left].
  - right. split; [by etrans|done].
Qed.

Lemma removelast_prefix {A} (l : list A) : removelast l `prefix_of` l.
Proof. destruct l as [|x l _] using rev_ind; [done|]. rewrite removelast_last. by apply prefix_app_r. Qed.

Lemma removelast_confined (rs p : list text) : rs `prefix_of` p → rs `prefix_of` removelast p ∨ removelast p `prefix_of` rs.
Proof. intros H. destruct (prefix_weak_total rs (removelast p) p H (removelast_prefix p)); auto. Qed.

Lemma unzip_step_confined rs fail w f w' e :
  Forall seg_ok rs → unzip_step (render rs) fail w f = (w', e) → confined rs w w'.
Proof.
  intros Hr. unfold unzip_step. destruct (_ && _) eqn:E; [intros [= <- <-]; apply confined_refl|].
  assert (rs `prefix_of` clean (path_join (render rs) (ze_Name f))) as Hp.
  { apply andb_false_iff in E as [E|E].
    - apply bool_decide_eq_false, dec_stable in E. rewrite E. by rewrite clean_render.
    - apply negb_false_iff in E. unfold path_join in *. rewrite clean_render by apply clean_ok. by apply under_root; [apply clean_ok|..]. }
  destruct (ze_IsDir f); [intros Hm; eapply mkdir_confined; [by left|exact Hm]|].
  destruct (osMkdirAll _ w) as [w1 [e1|]] eqn:Em; apply (mkdir_confined rs) in Em; try by apply removelast_confined.
  { by intros [= <- <-]. }
  assert (∀ c, confined rs w (<[clean (path_join (render rs) (ze_Name f)) := Some c]> w1)) as Hw.
  { intros c. eapply confined_trans; [exact Em|]. intros q.
    destruct (decide (clean (path_join (render rs) (ze_Name f)) = q)) as [<-|Hne]; [by right; left|left; by rewrite lookup_insert_ne]. }
  destruct (osOpenFile _ w1); [by intros [= <- <-]|]. destruct (fail f); intros [= <- <-]; apply Hw.
Qed.

(** Whatever names the entries of an archive have, [UnzipFile] changes nothing outside its
    target, error or not: every path it touches is below the target, or a missing directory
    on the way to it. *)
Theorem UnzipFile_confined cwd reader target fail w w' e :
  UnzipFile cwd reader target fail w = (w', e) →
  ∀ q, w' !! q = w !! q ∨ clean (filepathAbs cwd target) `prefix_of` q ∨
       (q `prefix_of` clean (filepathAbs cwd target) ∧ w !! q = None ∧ w' !! q = Some None).
Proof.
  unfold UnzipFile. destruct reader as [files|err]; [|intros [= <- <-]; by left].
  destruct (filepathAbs_render cwd target) as (rs & -> & Hr). rewrite clean_render by done. change (unzip_loop (render rs) fail files w = (w', e) → confined rs w w').
  revert w. induction files as [|f files IH]; intros w; cbn; [intros [= <- <-]; apply confined_refl|].
  destruct (unzip_step (render rs) fail w f) as [w1 [e1|]] eqn:E; apply unzip_step_confined in E; try done.
  - by intros [= <- <-].
  - intros Hl. eapply confined_trans; [exact E|by apply IH].
Qed.

(** The root directory as a target: its path ends in the separator already, no cleaned path
    starts with two of them, and the first entry is refused. *)
Theorem UnzipFile_refuses_root cwd target fail f files w :
  clean (filepathAbs cwd target) = [] → foldl clean_step [] (Split (ze_Name f) slash) ≠ [] →
  UnzipFile cwd (Ok (f :: files)) target fail w = (w, Some "illegal target path"%string).
Proof.
  intros Hroot Hf. unfold UnzipFile. destruct (filepathAbs_render cwd target) as (rs & E & Hr). rewrite E in *.
  rewrite clean_render in Hroot by done. subst rs. cbn [unzip_loop]. unfold unzip_step.
  pose proof (path_join_clean [] (ze_Name f) Hr) as Hc. unfold path_join in *. rewrite clean_render in Hc by apply clean_ok.
  rewrite Hc in *. set (segs := foldl clean_step [] (Split (ze_Name f) slash)) in *.
  assert (Forall seg_ok segs) as Hs by (apply clean_steps_ok; [constructor|apply Split_no_sep]).
  rewrite bool_decide_eq_true_2.
  - assert (HasPrefix (render segs) (render [] ++ [slash]) = false) as ->; [|done].
    apply not_true_iff_false. intros [t Et]%HasPrefix_true. destruct segs as [|s segs']; [done|].
    apply Forall_cons in Hs as [(Hne & _ & _ & Hsl) _]. destruct s as [|c s]; [done|].
    assert (c = slash) as -> by (unfold render in Et; destruct segs'; cbn [Join app] in Et; congruence). apply Hsl. left.
  - intros Er. apply (f_equal clean) in Er. rewrite !clean_render in Er by (done || constructor). done.
Qed.

(** ** Trees and archives *)

(** The nodes of a tree, root first. *)
Fixpoint flatten (t : node) (path : list text) : list (list text * option bytes) :=
  match t with
  | NFile c => [(path, Some c)]
  | NDir ch => (path, None) :: List.flat_map (λ nc, flatten nc.2 (path ++ [nc.1])) ch
  | _ => []
  end.

Definition below (ch : list (text * node)) (path : list text) : list (list text * option bytes) :=
  List.flat_map (λ nc, flatten nc.2 (path ++ [nc.1])) ch.

(** A tree that can be read: proper names, no two alike in a directory. *)
#[warnings="-register-all"] Inductive healthy : node → Prop :=
  | healthy_file c : healthy (NFile c)
  | healthy_dir ch : NoDup ch.*1 → Forall seg_ok ch.*1 → Forall (λ nc, healthy nc.2) ch → healthy (NDir ch).

Lemma node_tree_ind (P : node → Prop) :
  (∀ c, P (NFile c)) → (∀ ch, Forall (λ nc, P nc.2) ch → P (NDir ch)) → (∀ e, P (NBad e)) → (∀ e, P (NUnlisted e)) → ∀ t, P t.
Proof.
  intros Hf Hd Hb Hu. fix IH 1. intros [c|ch|e|e]; [apply Hf| |apply Hb|apply Hu]. apply Hd.
  induction ch as [|[n c] ch IHch]; constructor; [apply IH|apply IHch].
Qed.

Definition entry_of (x : list text * option bytes) : zip_entry :=
  match x.2 with
  | Some c => mkEntry (Join x.1 [slash]) false c
  | None => mkEntry (Join x.1 [slash] ++ [slash]) true []
  end.

(** [walk] on a directory goes over its children. *)
Lemma walk_dir {S} (fn : list text → node → option string → S → S * option string) ch path s s' :
  fn path (NDir ch) None s = (s', None) →
  walk fn (NDir ch) path s = foldl (λ acc nc, match acc with
                                              | (s, None) => walk fn nc.2 (path ++ [nc.1]) s
                                              | (s, Some e) => (s, Some e)
                                              end) (s', None) ch.
Proof.
  intros E. cbn. rewrite E. clear E. revert s'. induction ch as [|[n c] ch IH]; intros s'; cbn; [done|].
  destruct (walk fn c (path ++ [n]) s') as [s1 [e|]]; [|by apply IH]. clear. by induction ch.
Qed.

Definition writes (t : node) : Prop := ∀ path out, path ≠ [] →
  walk (zip_step (λ _, None)) t path out = (out ++ (entry_of <$> flatten t path), None).

Lemma zip_children ch path : Forall (λ nc, writes nc.2) ch → ∀ out,
  foldl (λ acc nc, match acc with
                   | (s, None) => walk (zip_step (λ _, None)) nc.2 (path ++ [nc.1]) s
                   | (s, Some e) => (s, Some e)
                   end) (out, None) ch = (out ++ (entry_of <$> below ch path), None).
Proof.
  induction 1 as [|[n c] ch Hc _ IH]; intros out; cbn; [by rewrite app_nil_r|]. cbn in Hc.
  rewrite Hc by by destruct path. rewrite IH. by rewrite fmap_app, <- app_assoc.
Qed.

(** Walking a readable tree writes its nodes in order. *)
Lemma walk_zip t : healthy t → writes t.
Proof.
  induction t as [c|ch IH|e|e] using node_tree_ind; intros Hh path out Hp; [| |by inversion Hh..].
  - cbn. unfold zip_step. by rewrite decide_False.
  - inversion Hh as [|? _ _ Hch]; subst.
    rewrite (walk_dir _ ch path out (out ++ [entry_of (path, None)])) by (unfold zip_step; by rewrite decide_False).
    rewrite zip_children; [by rewrite <- app_assoc|]. apply Forall_forall. intros nc Hin. rewrite Forall_forall in IH, Hch.
    apply IH; [done|]. by apply Hch.
Qed.

(** The archive of a readable directory lists what is below it. *)
Lemma CreateZipFile_lists ch : healthy (NDir ch) →
  CreateZipFile None (λ _, None) false (NDir ch) = (Some (entry_of <$> below ch []), None).
Proof.
  intros Hh. unfold CreateZipFile. rewrite (walk_dir _ ch [] [] []) by done. rewrite zip_children; [done|].
  inversion Hh; subst. eapply Forall_impl; [done|]. intros nc. apply walk_zip.
Qed.

(** ** Lists in which a directory comes before what it holds *)

Inductive listed : list (list text * option bytes) → Prop :=
  | listed_nil : listed []
  | listed_snoc l p s k : listed l → Forall seg_ok (p ++ [s]) → p ++ [s] ∉ l.*1 → (p = [] ∨ (p, None) ∈ l) →
      listed (l ++ [(p ++ [s], k)]).

Lemma prefix_snoc_inv (q p : list text) s : q `prefix_of` p ++ [s] → q = p ++ [s] ∨ q `prefix_of` p.
Proof.
  intros [x E]. destruct x as [|y x _] using rev_ind; [left; by rewrite app_nil_r in E|].
  rewrite app_assoc in E. apply app_inj_tail in E as [-> _]. right. by apply prefix_app_r.
Qed.

(** Every proper ancestor of a listed path is a listed directory. *)
Lemma listed_ancestors l : listed l → ∀ p k q, (p, k) ∈ l → q `prefix_of` p → q ≠ [] → q = p ∨ (q, None) ∈ l.
Proof.
  induction 1 as [|l p s k Hl IH _ _ Hp]; intros p' k' q Hin Hq Hne; [by apply elem_of_nil in Hin|].
  rewrite elem_of_app, list_elem_of_singleton in Hin. destruct Hin as [Hin|[= -> ->]].
  - destruct (IH p' k' q Hin Hq Hne) as [?|?]; [by left|right; apply elem_of_app; by left].
  - apply prefix_snoc_inv in Hq as [->|Hq]; [by left|]. right. apply elem_of_app. left.
    destruct Hp as [->|Hp]; [by apply prefix_nil_inv in Hq|]. destruct (IH p None q Hp Hq Hne) as [->|?]; done.
Qed.

Lemma flatten_keys t : ∀ path q k, (q, k) ∈ flatten t path → path `prefix_of` q.
Proof.
  induction t as [c|ch IH|e|e] using node_tree_ind; intros path q k; cbn; try by intros ?%elem_of_nil.
  - by intros [= -> ->]%list_elem_of_singleton.
  - intros [[= -> ->]|Hin]%elem_of_cons; [done|]. apply list_elem_of_In, in_flat_map in Hin as ([n c] & Hc & Hin).
    apply list_elem_of_In in Hc, Hin. rewrite Forall_forall in IH. apply (IH _ Hc) in Hin. cbn in Hin.
    etrans; [|exact Hin]. by apply prefix_app_r.
Qed.

Lemma same_child (p q : list text) n n' : p ++ [n] `prefix_of` q → p ++ [n'] `prefix_of` q → n = n'.
Proof.
  intros [x ->] [y E]. rewrite <- !app_assoc in E. apply app_inv_head in E. cbn in E. congruence.
Qed.

(** A tree may be added where nothing is listed below its path. *)
Definition addable (t : node) : Prop := ∀ l p s,
  listed l → (p = [] ∨ (p, None) ∈ l) → Forall seg_ok (p ++ [s]) → (∀ q, p ++ [s] `prefix_of` q → q ∉ l.*1) →
  listed (l ++ flatten t (p ++ [s])).

Lemma add_children ch p : Forall (λ nc, addable nc.2) ch → NoDup ch.*1 → Forall seg_ok ch.*1 → Forall seg_ok p → ∀ l,
  listed l → (p = [] ∨ (p, None) ∈ l) → (∀ n q, n ∈ ch.*1 → p ++ [n] `prefix_of` q → q ∉ l.*1) → listed (l ++ below ch p).
Proof.
  induction 1 as [|[n c] ch Hc _ IH]; intros Hnd Hok Hp l Hl Hpar Hfree; cbn; [by rewrite app_nil_r|].
  apply NoDup_cons in Hnd as [Hn Hnd]. apply Forall_cons in Hok as [Hnok Hok]. cbn in *. rewrite app_assoc. apply IH; try done.
  - apply Hc; try done; [apply Forall_app; split; [done|by apply Forall_singleton]|]. intros q. apply Hfree. left.
  - destruct Hpar as [?|?]; [by left|right; apply elem_of_app; by left].
  - intros n' q Hn' Hq. rewrite fmap_app, not_elem_of_app. split; [apply (Hfree n'); [by right|done]|].
    intros Hin. apply list_elem_of_fmap in Hin as ([q' k] & -> & Hin). apply flatten_keys in Hin. cbn in Hq.
    pose proof (same_child p q' n n' Hin Hq) as ->. done.
Qed.

Lemma healthy_addable t : healthy t → addable t.
Proof.
  induction t as [c|ch IH|e|e] using node_tree_ind; intros Hh l p s Hl Hpar Hok Hfree; [| |by inversion Hh..].
  - cbn. apply listed_snoc; try done. by apply Hfree.
  - inversion Hh as [|? Hnd Hseg Hch]; subst. cbn [flatten]. fold (below ch (p ++ [s])).
    change ((p ++ [s], None) :: below ch (p ++ [s])) with ([(p ++ [s], @None bytes)] ++ below ch (p ++ [s])). rewrite app_assoc.
    apply add_children; try done.
    + rewrite Forall_forall in *. intros nc Hin. apply IH; [done|]. by apply Hch.
    + apply listed_snoc; try done. by apply Hfree.
    + right. apply elem_of_app. right. by apply list_elem_of_singleton.
    + intros n q _ Hq. rewrite fmap_app, not_elem_of_app. split; [apply Hfree; etrans; [|exact Hq]; by apply prefix_app_r|].
      cbn. rewrite list_elem_of_singleton. intros ->. destruct Hq as [x Hx]. apply (f_equal length) in Hx. rewrite !length_app in Hx. cbn in Hx. lia.
Qed.

Lemma below_listed ch : healthy (NDir ch) → listed (below ch []).
Proof.
  inversion 1 as [|? Hnd Hseg Hch]; subst. apply (add_children ch [] ) with (l := []); try done.
  - eapply Forall_impl; [done|]. intros nc. apply healthy_addable.
  - constructor.
  - by left.
  - intros n q _ _. apply not_elem_of_nil.
Qed.
(** ** Extracting a list of nodes *)

Abbreviation nodes := (list (list text * option bytes)).

Lemma Split_dir_name p : Forall seg_ok p → p ≠ [] → Split (Join p [slash] ++ [slash]) slash = p ++ [[]].
Proof.
  intros Hp Hne. rewrite Split_app_sep. f_equal. apply Split_Join; [done|by apply seg_ok_no_slash].
Qed.

(** Where an entry goes: its elements below those of the target. *)
Lemma entry_path rs p k :
  Forall seg_ok rs → Forall seg_ok p → p ≠ [] → clean (path_join (render rs) (ze_Name (entry_of (p, k)))) = rs ++ p.
Proof.
  intros Hr Hp Hne. rewrite path_join_clean by done. destruct k as [c|]; cbn [entry_of snd fst ze_Name].
  - rewrite Split_Join by (done || by apply seg_ok_no_slash). by apply clean_steps_id.
  - rewrite Split_dir_name by done. rewrite foldl_app, (clean_steps_id p) by done. cbn. unfold clean_step. rewrite decide_True; [done|by left].
Qed.

Lemma Join_app_slash (a b : list text) : a ≠ [] → b ≠ [] → Join (a ++ b) [slash] = Join a [slash] ++ slash :: Join b [slash].
Proof.
  intros Ha Hb. induction a as [|x a IH]; [done|]. destruct a as [|y a].
  - destruct b as [|z b]; [done|]. reflexivity.
  - change (Join ((x :: y :: a) ++ b) [slash]) with (x ++ [slash] ++ Join ((y :: a) ++ b) [slash]). rewrite IH by done.
    change (Join (x :: y :: a) [slash]) with (x ++ [slash] ++ Join (y :: a) [slash]). by rewrite <- !app_assoc.
Qed.

Lemma below_accepted rs p : rs ≠ [] → p ≠ [] → HasPrefix (render (rs ++ p)) (render rs ++ [slash]) = true.
Proof.
  intros Hr Hp. apply HasPrefix_true. exists (Join p [slash]). unfold render. rewrite Join_app_slash by done.
  cbn. by rewrite <- app_assoc.
Qed.

(** A target that is there as far as it goes, is no file, and holds what [l] lists. *)
Definition holds (rs : list text) (l : list (list text * option bytes)) (w : tree_fs) : Prop :=
  (∀ q c, q `prefix_of` rs → w !! q ≠ Some (Some c)) ∧ ∀ p k, p ≠ [] → w !! (rs ++ p) = Some k ↔ (p, k) ∈ l.

Lemma osMkdirAll_ok p w : (∀ q c, q `prefix_of` p → w !! q ≠ Some (Some c)) →
  ∃ w', osMkdirAll p w = (w', None) ∧ ∀ q, w' !! q = if decide (q `prefix_of` p) then Some None else w !! q.
Proof.
  intros Hno. destruct (osMkdirAll p w) as [w' e] eqn:E. pose proof (osMkdirAll_cases p w w' e E) as [[-> He]|(-> & _ & Hl)]; [|by eauto].
  exfalso. revert E. unfold osMkdirAll. destruct (existsb _ _) eqn:Ex; [|intros [= _ <-]; by destruct He].
  apply existsb_exists in Ex as (q & Hq%list_elem_of_In%elem_of_leading & Hf). destruct (w !! q) as [[c|]|] eqn:Eq; try done.
  by destruct (Hno q c Hq).
Qed.

Lemma prefix_app_cases (q rs p : list text) : q `prefix_of` rs ++ p → q `prefix_of` rs ∨ ∃ x, x ≠ [] ∧ q = rs ++ x ∧ x `prefix_of` p.
Proof.
  intros H. destruct (prefix_weak_total q rs (rs ++ p) H (prefix_app_r rs rs p (reflexivity _))) as [?|[x ->]]; [by left|].
  destruct x as [|s x]; [left; by rewrite app_nil_r|]. right. exists (s :: x). split; [done|]. split; [done|].
  by apply prefix_app_inv in H.
Qed.

Lemma entry_join rs p k :
  Forall seg_ok rs → Forall seg_ok p → p ≠ [] → path_join (render rs) (ze_Name (entry_of (p, k))) = render (rs ++ p).
Proof.
  intros Hr Hp Hne. rewrite <- (entry_path rs p k) by done. unfold path_join at 1 2. by rewrite clean_render by apply clean_ok.
Qed.

(** The directories above a place where something may be added. *)
Lemma parent_chain l p x : listed l → (p = [] ∨ (p, None) ∈ l) → x ≠ [] → x `prefix_of` p → (x, None) ∈ l.
Proof.
  intros Hl [->|Hp] Hx Hpre; [by apply prefix_nil_inv in Hpre|].
  by destruct (listed_ancestors l Hl p None x Hp Hpre Hx) as [->|?].
Qed.

Lemma no_file_above (rs : list text) (l : nodes) (w : tree_fs) (p : list text) : holds rs l w → listed l → (p = [] ∨ (p, None) ∈ l) →
  ∀ q c, q `prefix_of` rs ++ p → w !! q ≠ Some (Some c).
Proof.
  intros [Hn Hh] Hl Hp q c [Hq|(x & Hx & -> & Hq)]%prefix_app_cases; [by apply Hn|].
  pose proof (parent_chain l p x Hl Hp Hx Hq) as Hin. apply (Hh x None Hx) in Hin. by rewrite Hin.
Qed.

(** Making the directories above an entry adds nothing to what is held. *)
Lemma holds_mkdir (rs : list text) (l : nodes) (w w1 : tree_fs) (p : list text) : holds rs l w → listed l → (p = [] ∨ (p, None) ∈ l) →
  (∀ q, w1 !! q = if decide (q `prefix_of` rs ++ p) then Some None else w !! q) → holds rs l w1.
Proof.
  intros [Hn Hh] Hl Hp Hw. split.
  - intros q c Hq. rewrite Hw. case_decide; [done|by apply Hn].
  - intros x k Hx. rewrite Hw, <- Hh by done. case_decide as Hd; [|done]. apply prefix_app_inv in Hd.
    pose proof (parent_chain l p x Hl Hp Hx Hd) as Hin. apply (Hh x None Hx) in Hin. by rewrite Hin.
Qed.

Lemma holds_add (rs : list text) (l : nodes) (w : tree_fs) (p : list text) (k : option bytes) : holds rs l w → p ∉ l.*1 → p ≠ [] → holds rs (l ++ [(p, k)]) (<[rs ++ p := k]> w).
Proof.
  intros [Hn Hh] Hnew Hp. split.
  - intros q c Hq. rewrite lookup_insert_ne; [by apply Hn|]. intros <-. apply Hp. destruct Hq as [x E].
    rewrite <- app_assoc in E. apply (f_equal length) in E. rewrite !length_app in E. apply length_zero_iff_nil. lia.
  - intros x k' Hx. rewrite elem_of_app, list_elem_of_singleton. destruct (decide (p = x)) as [->|Hne].
    + rewrite lookup_insert_eq. split; [intros [= ->]; by right|]. intros [Hin|[= ->]]; [|done].
      destruct Hnew. by apply (list_elem_of_fmap_2 fst) in Hin.
    + rewrite lookup_insert_ne by (intros E%app_inv_head; done). rewrite Hh by done. split; [by left|]. by intros [?|[= -> ->]].
Qed.

(** One entry. *)
Lemma extract_one (rs : list text) (l : nodes) (w : tree_fs) (p : list text) (s : text) (k : option bytes) :
  Forall seg_ok rs → rs ≠ [] → holds rs l w → listed l → Forall seg_ok (p ++ [s]) → p ++ [s] ∉ l.*1 → (p = [] ∨ (p, None) ∈ l) →
  ∃ w', unzip_step (render rs) (λ _, None) w (entry_of (p ++ [s], k)) = (w', None) ∧ holds rs (l ++ [(p ++ [s], k)]) w'.
Proof.
  intros Hr Hne Hh Hl Hseg Hnew Hp. assert (p ++ [s] ≠ []) as Hps by by destruct p.
  unfold unzip_step. rewrite entry_join, below_accepted, andb_false_r by done.
  rewrite clean_render by by apply Forall_app. pose proof (no_file_above rs l w p Hh Hl Hp) as Hno. destruct k as [c|]; cbn.
  - rewrite app_assoc, removelast_last. destruct (osMkdirAll_ok (rs ++ p) w Hno) as (w1 & -> & Hw1).
    pose proof (holds_mkdir rs l w w1 p Hh Hl Hp Hw1) as Hh1. rewrite <- app_assoc.
    assert (osOpenFile (rs ++ p ++ [s]) w1 = None) as ->.
    { unfold osOpenFile. destruct (w1 !! (rs ++ p ++ [s])) as [[c'|]|] eqn:E; try done.
      apply (proj2 Hh1) in E; [|done]. by apply (list_elem_of_fmap_2 fst) in E. }
    eexists. split; [reflexivity|]. by apply holds_add.
  - destruct (osMkdirAll_ok (rs ++ p ++ [s]) w) as (w1 & -> & Hw1).
    { intros q c Hq. rewrite app_assoc in Hq. apply prefix_snoc_inv in Hq as [->|Hq]; [|by apply Hno]. rewrite <- app_assoc.
      intros E. apply (proj2 Hh) in E; [|done]. by apply (list_elem_of_fmap_2 fst) in E. }
    eexists. split; [reflexivity|]. destruct (osMkdirAll_ok (rs ++ p) w Hno) as (w0 & _ & Hw0).
    pose proof (holds_add rs l w0 (p ++ [s]) None (holds_mkdir rs l w w0 p Hh Hl Hp Hw0) Hnew Hps) as Hadd.
    assert (w1 = <[rs ++ p ++ [s] := None]> w0) as ->; [|done]. apply map_eq. intros q.
    destruct (decide (rs ++ p ++ [s] = q)) as [<-|Hq]; [rewrite lookup_insert_eq, Hw1; by rewrite decide_True|].
    rewrite lookup_insert_ne, Hw0, Hw1 by done. destruct (decide (q `prefix_of` rs ++ p)) as [H|H].
    + rewrite decide_True; [done|]. rewrite app_assoc. etrans; [exact H|]. by apply prefix_app_r.
    + rewrite decide_False; [done|]. rewrite app_assoc. intros [->|?]%prefix_snoc_inv; [|done]. by rewrite <- app_assoc in Hq.
Qed.

Lemma unzip_loop_app root fail a b w w' : unzip_loop root fail a w = (w', None) → unzip_loop root fail (a ++ b) w = unzip_loop root fail b w'.
Proof.
  revert w. induction a as [|f a IH]; intros w; cbn; [by intros [= <-]|]. destruct (unzip_step root fail w f) as [w1 [e|]]; [done|]. apply IH.
Qed.

Lemma extract_listed rs l : listed l → ∀ w, Forall seg_ok rs → rs ≠ [] → holds rs [] w →
  ∃ w', unzip_loop (render rs) (λ _, None) (entry_of <$> l) w = (w', None) ∧ holds rs l w'.
Proof.
  induction 1 as [|l p s k Hl IH Hseg Hnew Hp]; intros w Hr Hne Hh; [by exists w|].
  destruct (IH w Hr Hne Hh) as (w1 & E & Hh1). destruct (extract_one rs l w1 p s k Hr Hne Hh1 Hl Hseg Hnew Hp) as (w' & E' & Hh').
  exists w'. split; [|done]. rewrite fmap_app, (unzip_loop_app _ _ _ _ _ _ E). cbn. by rewrite E'.
Qed.

(** (C31) Zipping a directory that can be read and extracting the archive where nothing is yet,
    with no file on the way: both succeed, and the target then holds the files with their
    contents and the directories, empty ones too, that the source held, and nothing else. *)
Theorem zip_unzip_roundtrip (ch : list (text * node)) (cwd target : text) (w : tree_fs) :
  let root := clean (filepathAbs cwd target) in
  healthy (NDir ch) → root ≠ [] → (∀ q c, q `prefix_of` root → w !! q ≠ Some (Some c)) → (∀ p, p ≠ [] → w !! (root ++ p) = None) →
  ∃ out w', CreateZipFile None (λ _, None) false (NDir ch) = (Some out, None) ∧
    UnzipFile cwd (Ok out) target (λ _, None) w = (w', None) ∧
    ∀ p k, p ≠ [] → w' !! (root ++ p) = Some k ↔ (p, k) ∈ flatten (NDir ch) [].
Proof.
  intros root Hh Hne Hno Hempty. exists (entry_of <$> below ch []). destruct (filepathAbs_render cwd target) as (rs & E & Hr).
  assert (root = rs) as Er by (unfold root; by rewrite E, clean_render). clearbody root. subst root.
  destruct (extract_listed rs (below ch []) (below_listed ch Hh) w Hr Hne) as (w' & Ew & _ & Hw').
  { split; [done|]. intros p k Hp. rewrite Hempty by done. rewrite elem_of_nil. done. }
  exists w'. split; [by apply CreateZipFile_lists|]. split; [unfold UnzipFile; by rewrite E|].
  intros p k Hp. rewrite Hw' by done. cbn [flatten]. rewrite elem_of_cons. unfold below. cbn.
  split; [by right|]. by intros [[= -> ->]|?].
Qed.

Definition demo_tree : list (text * node) :=
  [(str "a", NFile [1; 2]); (str "d", NDir [(str "e", NDir []); (str "f", NFile [])])].

Lemma demo_healthy : healthy (NDir demo_tree).
Proof.
  assert (∀ s, s ≠ [] → s ≠ dot → s ≠ dotdot → slash ∉ s → seg_ok s) as Hs by done.
  repeat first [apply healthy_dir|apply healthy_file|apply Forall_cons; split|apply Forall_nil; exact I|apply NoDup_cons; split|apply NoDup_nil_2
    |apply Hs; (discriminate || (apply (bool_decide_unpack _); exact I))|apply (bool_decide_unpack _); exact I].
Qed.

Lemma zip_unzip_roundtrip_witness :
  ∃ out w', CreateZipFile None (λ _, None) false (NDir demo_tree) = (Some out, None) ∧
    UnzipFile (str "/home") (Ok out) (str "x/../out") (λ _, None) ∅ = (w', None) ∧
    w' !! [str "home"; str "out"; str "d"; str "f"] = Some (Some []) ∧ w' !! [str "home"; str "out"; str "d"; str "e"] = Some None.
Proof.
  destruct (zip_unzip_roundtrip demo_tree (str "/home") (str "x/../out") ∅ demo_healthy) as (out & w' & H1 & H2 & H3).
  - discriminate.
  - intros q c _ E. by rewrite lookup_empty in E.
  - intros p _. apply lookup_empty.
  - exists out, w'. split; [exact H1|]. split; [exact H2|]. split.
    + apply (H3 [str "d"; str "f"]); [discriminate|]. apply (bool_decide_unpack _). exact I.
    + apply (H3 [str "d"; str "e"]); [discriminate|]. apply (bool_decide_unpack _). exact I.
Defined.

Lemma UnzipFile_confined_witness :
  let r := UnzipFile (str "/") (Ok [mkEntry (str "a") false [1]; mkEntry (str "../etc") false [2]]) (str "out") (λ _, None) {[[] := None]} in
  r.1 !! [str "etc"] = None ∧ r.1 !! [str "out"; str "a"] = Some (Some [1]).
Proof.
  intros r. split; [|vm_compute; reflexivity].
  destruct (UnzipFile_confined (str "/") (Ok [mkEntry (str "a") false [1]; mkEntry (str "../etc") false [2]]) (str "out") (λ _, None) {[[] := None]}
              r.1 r.2 (surjective_pairing r) [str "etc"]) as [E|[[x E]|([x E] & _)]].
  - rewrite E. reflexivity.
  - discriminate E.
  - discriminate E.
Defined.

Lemma UnzipFile_refuses_root_witness :
  UnzipFile (str "/") (Ok [mkEntry (str "a") false [1]]) (str ".") (λ _, None) ∅ = (∅, Some "illegal target path"%string).
Proof. apply (UnzipFile_refuses_root (str "/") (str ".") (λ _, None) (mkEntry (str "a") false [1]) [] ∅); [reflexivity|discriminate]. Defined.

(** ** What is not reported *)

(** A source that does not exist or cannot be listed gives an empty archive and no error,
    and that the archive could not be finished is never reported. *)
Theorem CreateZipFile_hides_failures fail e t :
  CreateZipFile None fail false (NBad e) = (Some [], None) ∧ CreateZipFile None fail false (NUnlisted e) = (Some [], None) ∧
  CreateZipFile None fail true t = (None, (CreateZipFile None fail false t).2).
Proof. split; [reflexivity|]. split; [reflexivity|]. unfold CreateZipFile. by destruct (walk (zip_step fail) t [] []). Qed.

(** ** Globbing *)

(** Whether everything below can be examined and listed. *)
Fixpoint readable (t : node) : bool :=
  match t with
  | NFile _ => true
  | NDir ch => forallb (λ nc, readable nc.2) ch
  | _ => false
  end.

Definition globbed (Match : text → bool) (base : text) (x : list text * option bytes) : bool :=
  match x.2 with Some _ => Match (default base (last x.1)) | None => false end.

Definition globs (Match : text → bool) (base : text) (t : node) : Prop := ∀ path out,
  if readable t
  then walk (glob_step Match base) t path out = (out ++ (List.filter (globbed Match base) (flatten t path)).*1, None)
  else is_Some (walk (glob_step Match base) t path out).2.

Lemma glob_children Match base ch path : Forall (λ nc, globs Match base nc.2) ch → ∀ out,
  let r := foldl (λ acc nc, match acc with
                            | (s, None) => walk (glob_step Match base) nc.2 (path ++ [nc.1]) s
                            | (s, Some e) => (s, Some e)
                            end) (out, None) ch in
  if forallb (λ nc, readable nc.2) ch then r = (out ++ (List.filter (globbed Match base) (below ch path)).*1, None) else is_Some r.2.
Proof.
  induction 1 as [|[n c] ch Hc _ IH]; intros out; cbn; [by rewrite app_nil_r|]. specialize (Hc (path ++ [n]) out). cbn in Hc.
  destruct (readable c); cbn.
  - rewrite Hc. pose proof (IH (out ++ (List.filter (globbed Match base) (flatten c (path ++ [n]))).*1)) as IH'. cbn in IH'.
    destruct (forallb _ ch); [|done]. rewrite IH'. f_equal. by rewrite List.filter_app, fmap_app, <- app_assoc.
  - destruct (walk _ c (path ++ [n]) out) as [out' [e|]]; [|by destruct Hc]. clear. revert out'. induction ch as [|nc ch IH]; intros out'; cbn; [done|apply IH].
Qed.

Lemma walk_glob Match base t : globs Match base t.
Proof.
  induction t as [c|ch IH|e|e] using node_tree_ind; intros path out; [| |cbn; by eexists..].
  - cbn. unfold glob_step, globbed. cbn. destruct (Match _); cbn; [done|by rewrite app_nil_r].
  - cbn [readable]. rewrite (walk_dir _ ch path out out) by done. pose proof (glob_children Match base ch path IH out) as H. cbn zeta in H.
    by destruct (forallb _ ch).
Qed.

(** [GlobWithDepth] returns the files at any depth whose base name matches, each once and in
    the order of the walk, or nothing and an error when something cannot be read. *)
Theorem GlobWithDepth_spec Match base t :
  match GlobWithDepth Match base t with
  | (found, None) => readable t = true ∧ found = (List.filter (globbed Match base) (flatten t [])).*1
  | (found, Some _) => readable t = false ∧ found = []
  end.
Proof.
  pose proof (walk_glob Match base t [] []) as H. unfold GlobWithDepth. destruct (readable t).
  - rewrite H. done.
  - destruct (walk _ t [] []) as [? [e|]]; [done|by destruct H].
Qed.

End FileProps.
