(* ===== verification/SqlStruct.v ===== *)
(** * Rows as structs ([src/storage/{postgres/pghelper,mysql/helper}.go], [src/utils/types/empty.go])

    What both SQL packages share when they turn tagged structs into statements: values as
    reflection sees them, [types.IsEmpty], [types.UCFirst], the [db] tags, rows as structs
    or pointers to them; and the meaning of a statement: which value each row gives each of
    its columns. [PgStruct.v] and [MyStruct.v] have the two packages' own code. *)

From Stdlib Require Import ZArith Lia Ascii.
From stdpp Require Import base gmap list strings.
From S2P Require Import Prelude GoValue SqlText.
Local Open Scope Z_scope.

Module SqlStruct.

(** ** Values *)

(** A field's value by its kind; integers of every width are one kind here. An interface
    holds nothing or a value that is no interface. *)
#[warnings="-register-all"] Inductive goval : Type :=
  | VBool (b : bool)
  | VInt (z : Z)
  | VFloat (f : float64)
  | VString (s : text)
  | VPtr (p : option goval)
  | VIface (v : option goval)
  | VMap (m : option (list (goval * goval)))
  | VSlice (l : option (list goval))
  | VArray (l : list goval)
  | VStruct (fields : list goval)
  | VFunc (is_nil : bool).

(** [reflect.DeepEqual] with the zero value of the same type. *)
Fixpoint is_zero (v : goval) : bool :=
  match v with
  | VBool b => negb b
  | VInt z => z =? 0
  | VFloat f => f64_eqb f (f64_of_Z 0)
  | VString s => bool_decide (s = [])
  | VPtr p => match p with None => true | Some _ => false end
  | VIface p => match p with None => true | Some _ => false end
  | VMap m => match m with None => true | Some _ => false end
  | VSlice l => match l with None => true | Some _ => false end
  | VArray l | VStruct l => forallb is_zero l
  | VFunc is_nil => is_nil
  end.

(** [types.IsEmpty] of [Value.Interface()], which looks inside an interface. *)
Definition IsEmpty_value (v : goval) : bool :=
  match v with
  | VString s => bool_decide (s = [])
  | VPtr p => match p with None => true | Some _ => false end
  | VMap m => match m with None | Some [] => true | _ => false end
  | VArray l => match l with [] => true | _ => false end
  | VSlice l => match l with None | Some [] => true | _ => false end
  | v => is_zero v
  end.
Definition IsEmpty (v : goval) : bool :=
  match v with
  | VIface None => true
  | VIface (Some v) => IsEmpty_value v
  | v => IsEmpty_value v
  end.

Definition kind_struct (v : goval) : bool := match v with VStruct _ => true | _ => false end.

(** [types.UCFirst]: [strings.ToUpper] turns a byte that is no character into the encoding
    of the replacement character. *)
Definition UCFirst (value : text) : text :=
  match value with
  | [] => []
  | c :: rest =>
      (if between 97 122 c then [char (Z.to_nat (byte_of_ascii c - 32))]
       else if 128 <=? byte_of_ascii c then [char 239; char 191; char 189] else [c]) ++ rest
  end.

(** ** Tags and rows *)

(** A struct's field: its [db] tag, empty when there is none, and whether it is exported. *)
Record field : Type := mkField { tag : text; exported : bool }.
Record struct_type : Type := mkType { type_name : string; type_fields : list field }.

#[export] Instance field_eq_dec : EqDecision field.
Proof. solve_decision. Defined.
#[export] Instance struct_type_eq_dec : EqDecision struct_type.
Proof. solve_decision. Defined.

Definition comma : ascii := char 44.
Definition tag_parts (f : field) : list text := Split (tag f) comma.
Definition has_option (f : field) (o : text) : bool := bool_decide (o ∈ tag_parts f).
Definition column (f : field) : text := default [] (head (tag_parts f)).

(** What a row is: a struct, a pointer, or something else. *)
#[warnings="-register-all"] Inductive row : Type :=
  | RStruct (t : struct_type) (vals : list goval)
  | RPtr (p : option row)
  | ROther (kind : string).

(** [reflect.ValueOf(row)], one pointer removed: the struct, or the kind found instead. *)
Definition struct_of (r : row) : result string (struct_type * list goval) :=
  match r with
  | RStruct t vals | RPtr (Some (RStruct t vals)) => Ok (t, vals)
  | RPtr None => Err "invalid"%string
  | RPtr (Some (RPtr _)) => Err "ptr"%string
  | RPtr (Some (ROther k)) | ROther k => Err k
  end.

(** [sv.Field(i).Interface()] panics on an index out of range or an unexported field. *)
Definition field_value (t : struct_type) (vals : list goval) (i : nat) : outcome goval :=
  match type_fields t !! i, vals !! i with
  | Some f, Some v => if exported f then Ret v else Panic "reflect: unexported field"
  | _, _ => Panic "reflect: Field index out of range"
  end.

Inductive struct_error (E : Type) : Type :=
  | NotStruct (kind : string)
  | OtherType
  | NoFields
  | EmptyData
  | NilContext
  | Marshal (e : string)
  | Ident (e : E)
  | Generating (e : struct_error E)
  | Driver (e : E)
  | ExecInsert (e : E)
  | Affected (e : E).
Arguments NotStruct {E}. Arguments OtherType {E}. Arguments NoFields {E}. Arguments EmptyData {E}. Arguments NilContext {E}.
Arguments Marshal {E}. Arguments Ident {E}. Arguments Generating {E}. Arguments Driver {E}. Arguments ExecInsert {E}. Arguments Affected {E}.

Definition lift_ident {E A} (r : result E A) : result (struct_error E) A :=
  match r with Ok a => Ok a | Err e => Err (Ident e) end.

(** A step that may panic or fail. *)
Definition try {E A B} (m : outcome (result E A)) (k : A → outcome (result E B)) : outcome (result E B) :=
  match m with
  | Panic s => Panic s
  | Ret (Err e) => Ret (Err e)
  | Ret (Ok a) => k a
  end.

(** ** What a statement means *)

(** What a row gives a column: its default, or a value. *)
Abbreviation cell := (option any).

(** A place in the VALUES clause: DEFAULT or the argument of a position. *)
Inductive place : Type := PDefault | PArg (n : nat).

(** The places of the cells of a row, numbered from [n], and the next number. *)
Fixpoint number (n : nat) (cells : list cell) : list place * nat :=
  match cells with
  | [] => ([], n)
  | None :: cells => let '(ps, m) := number n cells in (PDefault :: ps, m)
  | Some _ :: cells => let '(ps, m) := number (S n) cells in (PArg n :: ps, m)
  end.

Fixpoint number_rows (n : nat) (rows : list (list cell)) : list (list place) :=
  match rows with
  | [] => []
  | cells :: rows => let '(ps, m) := number n cells in ps :: number_rows m rows
  end.

Fixpoint arguments (cells : list cell) : list any :=
  match cells with
  | [] => []
  | None :: cells => arguments cells
  | Some a :: cells => a :: arguments cells
  end.

(** What the database reads at a place, given the arguments: positions count from one. *)
Definition read_place (args : list any) (p : place) : option cell :=
  match p with
  | PDefault => Some None
  | PArg n => Some <$> args !! (n - 1)%nat
  end.

Fixpoint numbers (ps : list place) : list nat :=
  match ps with
  | [] => []
  | PDefault :: ps => numbers ps
  | PArg n :: ps => n :: numbers ps
  end.

Lemma number_end n cells : (number n cells).2 = (n + length (arguments cells))%nat.
Proof.
  revert n. induction cells as [|[a|] cells IH]; intros n; cbn; [lia| |].
  - specialize (IH (S n)). destruct (number (S n) cells) as [ps m]. cbn in *. rewrite IH. cbn. lia.
  - specialize (IH n). by destruct (number n cells).
Qed.

Lemma number_reads cells : ∀ n pre post, n = S (length pre) →
  read_place (pre ++ arguments cells ++ post) <$> (number n cells).1 = Some <$> cells.
Proof.
  induction cells as [|[a|] cells IH]; intros n pre post Hn; cbn; [done| |].
  - specialize (IH (S n) (pre ++ [a]) post). destruct (number (S n) cells) as [ps m]. cbn in *. f_equal.
    + rewrite list_lookup_middle by lia. done.
    + rewrite <- app_assoc in IH. cbn in IH. apply IH. rewrite length_app. cbn. lia.
  - specialize (IH n pre post Hn). destruct (number n cells) as [ps m]. cbn in *. by f_equal.
Qed.

Lemma number_numbers cells : ∀ n, numbers (number n cells).1 = seq n (length (arguments cells)).
Proof.
  induction cells as [|[a|] cells IH]; intros n; cbn; [done| |].
  - specialize (IH (S n)). destruct (number (S n) cells) as [ps m]. cbn in *. by f_equal.
  - specialize (IH n). by destruct (number n cells).
Qed.

(** Reading the places of all rows with the arguments of all rows gives the cells back, and
    the positions are 1, 2, 3, ... in the order they are written. *)
Lemma number_rows_reads rows : ∀ n pre, n = S (length pre) →
  (λ ps, read_place (pre ++ List.concat (arguments <$> rows)) <$> ps) <$> number_rows n rows = (λ cells, Some <$> cells) <$> rows.
Proof.
  induction rows as [|cells rows IH]; intros n pre Hn; cbn; [done|].
  pose proof (number_reads cells n pre (List.concat (arguments <$> rows)) Hn) as H1. pose proof (number_end n cells) as H2.
  destruct (number n cells) as [ps m]. cbn in *. f_equal; [exact H1|].
  rewrite app_assoc. apply IH. rewrite length_app. lia.
Qed.

Lemma number_rows_numbers rows : ∀ n, List.concat (numbers <$> number_rows n rows) = seq n (length (List.concat (arguments <$> rows))).
Proof.
  induction rows as [|cells rows IH]; intros n; cbn; [done|].
  pose proof (number_numbers cells n) as H1. pose proof (number_end n cells) as H2. destruct (number n cells) as [ps m]. cbn in *.
  rewrite H1, IH, H2, length_app, seq_app. done.
Qed.

(** ** Cells by column *)

(** The last cell a row gives a column. *)
Fixpoint last_cell (name : text) (cs : list (text * cell)) : option cell :=
  match cs with
  | [] => None
  | (n, c) :: cs => match last_cell name cs with
                    | Some c' => Some c'
                    | None => if bool_decide (n = name) then Some c else None
                    end
  end.

Lemma last_cell_snoc name cs n c :
  last_cell name (cs ++ [(n, c)]) = if bool_decide (n = name) then Some c else last_cell name cs.
Proof.
  induction cs as [|[n' c'] cs IH]; cbn; [by destruct (bool_decide (n = name))|]. rewrite IH. by destruct (bool_decide (n = name)).
Qed.

Lemma last_cell_None name cs : last_cell name cs = None ↔ name ∉ cs.*1.
Proof.
  induction cs as [|[n c] cs IH]; cbn; [split; [intros _; apply not_elem_of_nil|done]|]. rewrite not_elem_of_cons.
  destruct (last_cell name cs) as [c'|]; [split; [done|]; by intros [_ ?%IH]|].
  case_bool_decide; split; try done; [by intros [? _]|]. intros _. split; [done|by apply IH].
Qed.

(** With distinct columns the cells of the columns are the cells in order. *)
Lemma last_cell_distinct cs : NoDup cs.*1 → (λ name, last_cell name cs) <$> cs.*1 = Some <$> cs.*2.
Proof.
  induction cs as [|[n c] cs IH]; cbn; [done|]. intros [Hn Hnd]%NoDup_cons. pose proof (proj2 (last_cell_None n cs) Hn) as E.
  rewrite E, bool_decide_eq_true_2 by done. f_equal. rewrite <- IH by done. apply list_fmap_ext. intros i x Hx.
  destruct (last_cell x cs) as [c'|] eqn:Ex; [done|]. apply last_cell_None in Ex. destruct Ex. by eapply list_elem_of_lookup_2.
Qed.

(** The columns that get a value, with the value. *)
Fixpoint assigned (cs : list (text * cell)) : list (text * any) :=
  match cs with
  | [] => []
  | (n, Some v) :: cs => (n, v) :: assigned cs
  | (_, None) :: cs => assigned cs
  end.

Lemma arguments_assigned cs : arguments cs.*2 = (assigned cs).*2.
Proof. induction cs as [|[n [v|]] cs IH]; cbn; [done|by f_equal|done]. Qed.

(** ** What a row gives its columns *)

(** The two maps a row is collected in, its values and whether its defaults are used, hold
    the last cell of each column. *)
Definition maps_hold (m : gmap text any * gmap text bool) (cs : list (text * cell)) : Prop := ∀ name,
  match last_cell name cs with
  | Some None => m.2 !! name = Some true
  | Some (Some a) => m.2 !! name = Some false ∧ m.1 !! name = Some a
  | None => m.2 !! name = None
  end.

Lemma maps_hold_empty : maps_hold (∅, ∅) [].
Proof. intros name. cbn. apply lookup_empty. Qed.

Lemma maps_hold_add m cs name c v : maps_hold m cs → match c with Some a => a = v | None => True end →
  maps_hold (<[name := v]> m.1, <[name := bool_decide (c = None)]> m.2) (cs ++ [(name, c)]).
Proof.
  intros Hm Hc n. rewrite last_cell_snoc. specialize (Hm n). case_bool_decide as E.
  - subst n. cbn. rewrite !lookup_insert_eq. destruct c as [a|]; [subst; by rewrite bool_decide_eq_false_2|by rewrite bool_decide_eq_true_2].
  - cbn. by rewrite !lookup_insert_ne.
Qed.

Lemma field_value_mid (pre : list field) (f : field) (fs : list field) (n : string) (vpre : list goval) (v : goval) (vs : list goval) :
  length vpre = length pre → exported f = true → field_value (mkType n (pre ++ f :: fs)) (vpre ++ v :: vs) (length pre) = Ret v.
Proof.
  intros Hl He. unfold field_value. cbn. rewrite list_lookup_middle by done. rewrite list_lookup_middle by done. by rewrite He.
Qed.

(** [name_of] is the column of a field, if it has one, and [cell_of] what a value gives it. *)
Section cells.
Context {E : Type} (name_of : field → option text) (cell_of : field → goval → result E cell).

Fixpoint row_cells (fs : list field) (vals : list goval) : result E (list (text * cell)) :=
  match fs, vals with
  | f :: fs, v :: vals =>
      match name_of f with
      | None => row_cells fs vals
      | Some name =>
          c ← cell_of f v;
          cs ← row_cells fs vals;
          Ok ((name, c) :: cs)
      end
  | _, _ => Ok []
  end.

(** Every field with a column can be read. *)
Definition columns_exported (fs : list field) : Prop := Forall (λ f, is_Some (name_of f) → exported f = true) fs.

Lemma row_cells_columns fs : ∀ vals cs, length vals = length fs → row_cells fs vals = Ok cs → cs.*1 = omap name_of fs.
Proof.
  induction fs as [|f fs IH]; intros [|v vals] cs Hl; cbn; try done; [by intros [= <-]|]. injection Hl as Hl.
  destruct (name_of f) as [name|]; [|by apply IH]. destruct (cell_of f v) as [c|]; cbn; [|done].
  destruct (row_cells fs vals) as [cs'|] eqn:Ec; cbn; [|done]. intros [= <-]. cbn. f_equal. by eapply IH.
Qed.

(** A row of type [t] that gives its columns the cells [cs]. *)
Definition row_of (t : struct_type) (r : row) (cs : list (text * cell)) : Prop :=
  ∃ vals, struct_of r = Ok (t, vals) ∧ length vals = length (type_fields t) ∧ row_cells (type_fields t) vals = Ok cs.

Lemma row_of_columns t data css : Forall2 (row_of t) data css → Forall (λ cs : list (text * cell), cs.*1 = omap name_of (type_fields t)) css.
Proof. induction 1 as [|r cs data css (vals & _ & Hl & Hc) _ IH]; constructor; [by eapply row_cells_columns|done]. Qed.
End cells.

(** The cells of the columns of a statement. *)
Definition statement_cells (fields : list text) (cs : list (text * cell)) : list cell := (λ name, default None (last_cell name cs)) <$> fields.

Lemma statement_reads fields cs : Forall (λ c, c ∈ cs.*1) fields → Some <$> statement_cells fields cs = (λ name, last_cell name cs) <$> fields.
Proof.
  intros Hf. unfold statement_cells. rewrite <- list_fmap_compose. apply list_fmap_ext. intros i c Hc.
  rewrite Forall_forall in Hf. specialize (Hf c (list_elem_of_lookup_2 _ _ _ Hc)). cbn.
  destruct (last_cell c cs) eqn:E; [done|]. by apply last_cell_None in E.
Qed.

(** The places of a statement for rows with these cells, read with its arguments. *)
Lemma statement_meaning fields css : Forall (λ cs : list (text * cell), Forall (λ c, c ∈ cs.*1) fields) css →
  let cells := statement_cells fields <$> css in let args := List.concat (arguments <$> cells) in
  (λ ps, read_place args <$> ps) <$> number_rows 1 cells = (λ cs, (λ name, last_cell name cs) <$> fields) <$> css ∧
  List.concat (numbers <$> number_rows 1 cells) = seq 1 (length args).
Proof.
  intros Hf cells args. split; [|apply number_rows_numbers]. pose proof (number_rows_reads cells 1 [] eq_refl) as Hreads. cbn [app] in Hreads.
  unfold args. rewrite Hreads. unfold cells. rewrite <- list_fmap_compose. apply list_fmap_ext. intros i cs Hi. rewrite Forall_forall in Hf.
  apply statement_reads. apply Hf. by eapply list_elem_of_lookup_2.
Qed.

End SqlStruct.
