(* ===== verification/PgStruct.v ===== *)
(** * Struct inserts, reads and hash keys of the Postgres helpers ([src/storage/postgres/pghelper.go])

    Statements from tagged structs, one row or many; reading rows into maps; [HashKey].
    Encoding a struct as JSON and what the driver is handed for a value are parameters. *)

From Stdlib Require Import ZArith Lia Ascii.
From stdpp Require Import base gmap list strings pretty.
From S2P Require Import Prelude GoValue SqlText PgHelper SqlStruct.
Local Open Scope Z_scope.

Module PgStruct.
Import SqlStruct.

Abbreviation err := (struct_error pg_error).
Definition dash : text := str "-".
Definition omitempty : text := str "omitempty".
Definition marshaljson : text := str "marshaljson".

(** ** Columns of a struct type *)

Definition dbTagName (f : field) : option text :=
  if bool_decide (tag f = []) then None
  else if bool_decide (column f = dash) then None
  else Some (column f).

(** [fields] has the keys of the map of names seen. *)
Fixpoint dbFields_loop (fs : list field) (fields : list text) (estimatedFieldCount : Z) : list text * Z :=
  match fs with
  | [] => (fields, estimatedFieldCount)
  | f :: fs =>
      match dbTagName f with
      | None => dbFields_loop fs fields estimatedFieldCount
      | Some name =>
          if bool_decide (name ∈ fields) then dbFields_loop fs fields (estimatedFieldCount + 1)
          else dbFields_loop fs (fields ++ [name]) (estimatedFieldCount + 1)
      end
  end.
Definition dbFields (t : struct_type) : list text * Z := dbFields_loop (type_fields t) [] 0.

Fixpoint quoteIdentifiers (fields : list text) : result pg_error (list text) :=
  match fields with
  | [] => Ok []
  | c :: fields =>
      qc ← safeIdent c;
      quotedCols ← quoteIdentifiers fields;
      Ok (qc :: quotedCols)
  end.

Definition structTypeOf (r : row) : result err struct_type :=
  match struct_of r with
  | Ok (t, _) => Ok t
  | Err k => Err (NotStruct k)
  end.

Section values.
(** What the driver is handed for a value, and [json.Marshal]. *)
Context (iface : goval → any) (json_Marshal : goval → result string string).

(** ** Many rows *)

Definition encode (f : field) (value : goval) : result err any :=
  if has_option f marshaljson && kind_struct value
  then match json_Marshal value with Ok s => Ok (AnyString s) | Err e => Err (Marshal e) end
  else Ok (iface value).

(** The field of [t] decides the tag; the value is the field of the row's own type. *)
Definition setMultiInsertFieldValue (st : struct_type) (vals : list goval) (f : field) (index : nat)
    (m : gmap text any * gmap text bool) : outcome (result err (gmap text any * gmap text bool)) :=
  if bool_decide (tag f = []) then Ret (Ok m)
  else if bool_decide (column f = dash) then Ret (Ok m)
  else match field_value st vals index with
  | Panic s => Panic s
  | Ret value =>
      if has_option f omitempty && IsEmpty value then Ret (Ok (<[column f := iface value]> m.1, <[column f := true]> m.2))
      else match encode f value with
      | Err e => Ret (Err e)
      | Ok v => Ret (Ok (<[column f := v]> m.1, <[column f := false]> m.2))
      end
  end.

Fixpoint row_loop (st : struct_type) (vals : list goval) (fs : list field) (i : nat) (m : gmap text any * gmap text bool)
    : outcome (result err (gmap text any * gmap text bool)) :=
  match fs with
  | [] => Ret (Ok m)
  | f :: fs => try (setMultiInsertFieldValue st vals f i m) (row_loop st vals fs (S i))
  end.

Definition multiInsertRowValues (r : row) (t : struct_type) : outcome (result err (gmap text any * gmap text bool)) :=
  match struct_of r with
  | Err k => Ret (Err (NotStruct k))
  | Ok (st, vals) => row_loop st vals (type_fields t) 0 (∅, ∅)
  end.

Definition dollar (n : Z) : text := "$" ++ Itoa n.

Fixpoint multiInsertPlaceholders (fields : list text) (m : gmap text any * gmap text bool) (argPos : Z) : list text * list any * Z :=
  match fields with
  | [] => ([], [], argPos)
  | name :: fields =>
      if default false (m.2 !! name) then
        let '(placeholders, values, argPos) := multiInsertPlaceholders fields m argPos in
        (str "DEFAULT" :: placeholders, values, argPos)
      else
        let '(placeholders, values, argPos') := multiInsertPlaceholders fields m (argPos + 1) in
        (dollar argPos :: placeholders, default AnyNil (m.1 !! name) :: values, argPos')
  end.

Definition tuple (placeholders : list text) : text := "(" ++ Join placeholders ", " ++ ")".

Fixpoint rows_loop (data : list row) (t : struct_type) (fields : list text) (argPos : Z) : outcome (result err (list text * list any)) :=
  match data with
  | [] => Ret (Ok ([], []))
  | r :: data =>
      try (multiInsertRowValues r t) (λ m,
        let '(placeholders, values, argPos) := multiInsertPlaceholders fields m argPos in
        try (rows_loop data t fields argPos) (λ '(valueTuples, allValues),
          Ret (Ok (tuple placeholders :: valueTuples, values ++ allValues))))
  end.

Definition generateMultiInsertQueriesFromStructArray (tableName : text) (data : list row) : outcome (result err (text * list any)) :=
  try (Ret (lift_ident (safeIdent tableName))) (λ tbl,
  match data with
  | [] => Panic "index out of range"
  | row0 :: _ =>
      try (Ret (structTypeOf row0)) (λ t,
      let fields := (dbFields t).1 in
      try (Ret (lift_ident (quoteIdentifiers fields))) (λ quotedCols,
      try (rows_loop data t fields 1) (λ '(valueTuples, allValues),
      Ret (Ok ("INSERT INTO " ++ tbl ++ " (" ++ Join quotedCols ", " ++ ") VALUES " ++ Join valueTuples ", ", allValues)))))
  end).

(** ** One row *)

Fixpoint insert_loop (st : struct_type) (vals : list goval) (fs : list field) (i : nat) (argPos : Z)
    : outcome (result err (list text * list text * list any)) :=
  match fs with
  | [] => Ret (Ok ([], [], []))
  | f :: fs =>
      if bool_decide (tag f = []) then insert_loop st vals fs (S i) argPos
      else if bool_decide (column f = dash) then insert_loop st vals fs (S i) argPos
      else match field_value st vals i with
      | Panic s => Panic s
      | Ret value =>
          if has_option f omitempty && IsEmpty value then insert_loop st vals fs (S i) argPos
          else
            try (Ret (encode f value)) (λ value,
            try (Ret (lift_ident (safeIdent (column f)))) (λ qc,
            try (insert_loop st vals fs (S i) (argPos + 1)) (λ '(cols, phs, vals),
            Ret (Ok (qc :: cols, dollar argPos :: phs, value :: vals)))))
      end
  end.

Definition insert_statement (tbl : text) (data : row) : outcome (result err (text * list any)) :=
  match struct_of data with
  | Err k => Ret (Err (NotStruct k))
  | Ok (t, vals) =>
      try (insert_loop t vals (type_fields t) 0 1) (λ '(cols, phs, values),
      if bool_decide (cols = []) then Ret (Err NoFields)
      else Ret (Ok ("INSERT INTO " ++ tbl ++ " (" ++ Join cols ", " ++ ") VALUES (" ++ Join phs ", " ++ ")", values)))
  end.

(** ** Executing *)

Section exec.
Context {W : Type} (Connect : string → result pg_error (exec_fn W)).

Definition MultiInsertFromStructsArrayContext (dbctx : option (DBContext W)) (w : W) (tableName : text) (data : list row)
    : outcome (W * result err Z) :=
  match data, dbctx with
  | [], _ => Ret (w, Err EmptyData)
  | _, None => Ret (w, Err NilContext)
  | _, Some ctx =>
      match generateMultiInsertQueriesFromStructArray tableName data with
      | Panic s => Panic s
      | Ret (Err e) => Ret (w, Err (Generating e))
      | Ret (Ok (query, allValues)) =>
          match ExecContext Connect ctx w query allValues with
          | (w, Err e) => Ret (w, Err (ExecInsert e))
          | (w, Ok result) =>
              match RowsAffected result with
              | (_, Some e) => Ret (w, Err (Affected e))
              | (rowsAffected, None) => Ret (w, Ok rowsAffected)
              end
          end
      end
  end.

Definition InsertFromStructContext (dbctx : option (DBContext W)) (w : W) (tableName : text) (data : row)
    : outcome (W * result err (Z * Z)) :=
  match dbctx with
  | None => Ret (w, Err NilContext)
  | Some ctx =>
      match safeIdent tableName with
      | Err e => Ret (w, Err (Ident e))
      | Ok tbl =>
          match insert_statement tbl data with
          | Panic s => Panic s
          | Ret (Err e) => Ret (w, Err e)
          | Ret (Ok (query, vals)) =>
              match ExecContext Connect ctx w query vals with
              | (w, Err e) => Ret (w, Err (Driver e))
              | (w, Ok res) => Ret (w, Ok ((RowsAffected res).1, or_zero (LastInsertId res)))
              end
          end
      end
  end.
End exec.
End values.

(** ** Reading *)

(** What a row's column is scanned into. *)
Inductive dbval : Type := DNil | DBytes (b : text) | DVal (v : any).

Definition normalizePgValue (v : dbval) : any :=
  match v with
  | DNil => AnyNil
  | DBytes x => AnyString (String.string_of_list_ascii x)
  | DVal x => x
  end.

(** An open cursor: its columns, the rows [Next] finds with what scanning each gives, and
    [Err] once it finds no more. *)
Record rows : Type := mkRows { Columns : result pg_error (list text); Scans : list (result pg_error (list dbval)); rows_Err : option pg_error }.

(** The query side of a context. *)
Definition query_fn : Type := text → list any → result pg_error (option rows).
Record QueryContext : Type := mkQueryContext { q_Tx : option query_fn; q_Conn : option query_fn; q_Cluster : string; QueryFn : option query_fn }.

Definition queryContext (Connect : string → result pg_error query_fn) (ctx : QueryContext) (q : text) (args : list any) : result pg_error (option rows) :=
  match q_Tx ctx, q_Conn ctx with
  | Some tx, _ => tx q args
  | None, Some conn => conn q args
  | None, None =>
      if bool_decide (q_Cluster ctx = ""%string) then Err ErrNoTarget
      else match Connect (q_Cluster ctx) with
      | Err e => Err e
      | Ok conn => conn q args
      end
  end.

Definition QueryContext_run (Connect : string → result pg_error query_fn) (ctx : QueryContext) (q : text) (args : list any) : result pg_error (option rows) :=
  match QueryFn ctx with
  | Some f => f q args
  | None => queryContext Connect ctx q args
  end.

Record ReadQueryInput : Type := mkReadInput { Query : text; Params : list any; CapitaliseColumns : bool }.

(** A row's map, column by column. *)
Fixpoint row_map (capitalise : bool) (cols : list text) (values : list dbval) (m : gmap text any) : gmap text any :=
  match cols, values with
  | c :: cols, v :: values => row_map capitalise cols values (<[(if capitalise then UCFirst c else c) := normalizePgValue v]> m)
  | _, _ => m
  end.

Fixpoint read_loop (capitalise : bool) (cols : list text) (scans : list (result pg_error (list dbval))) : result pg_error (list (gmap text any)) :=
  match scans with
  | [] => Ok []
  | Err e :: _ => Err e
  | Ok values :: scans =>
      out ← read_loop capitalise cols scans;
      Ok (row_map capitalise cols values ∅ :: out)
  end.

Definition ExecuteReadQueryContext (Connect : string → result pg_error query_fn) (dbctx : option QueryContext) (input : ReadQueryInput)
    : outcome (result pg_error (list (gmap text any))) :=
  match dbctx with
  | None => Ret (Err ErrNilContext)
  | Some ctx =>
      match QueryContext_run Connect ctx (Query input) (Params input) with
      | Err e => Ret (Err e)
      | Ok None => Panic "nil pointer dereference"
      | Ok (Some rs) =>
          match Columns rs with
          | Err e => Ret (Err e)
          | Ok cols =>
              match read_loop (CapitaliseColumns input) cols (Scans rs) with
              | Err e => Ret (Err e)
              | Ok out => Ret (match rows_Err rs with Some e => Err e | None => Ok out end)
              end
          end
      end
  end.

(** ** Hash keys *)

Definition hash_part (sprint : any → text) (k : text) (v : any) : text := k ++ ":" ++ sprint v ++ "|".

(** The text hashed: [sprint] is [fmt]'s [%v]. *)
Definition hash_input (sprint : any → text) (query : text) (args : list (text * any)) : text :=
  query ++ List.concat ((λ k, hash_part sprint k (column_value args k)) <$> Strings args.*1).

Definition HashKey (Sum256 : text → text) (EncodeToString : text → text) (sprint : any → text) (query : text) (args : list (text * any)) : text :=
  EncodeToString (Sum256 (hash_input sprint query args)).

(** ** What the statements mean *)

Section meaning.
Context (iface : goval → any) (json_Marshal : goval → result string string).

Definition cell_of (f : field) (v : goval) : result err cell :=
  if has_option f omitempty && IsEmpty v then Ok None
  else match encode iface json_Marshal f v with Ok a => Ok (Some a) | Err e => Err e end.

Lemma cell_of_eq f v : cell_of f v = if has_option f omitempty && IsEmpty v then Ok None
                                     else match encode iface json_Marshal f v with Ok a => Ok (Some a) | Err e => Err e end.
Proof. reflexivity. Qed.

Lemma dbTagName_tag f name : dbTagName f = Some name → bool_decide (tag f = []) = false ∧ bool_decide (column f = dash) = false ∧ name = column f.
Proof. unfold dbTagName. destruct (bool_decide (tag f = [])); [done|]. destruct (bool_decide (column f = dash)); [done|]. by intros [= <-]. Qed.

Lemma setMulti_skip st vals f i m : dbTagName f = None → setMultiInsertFieldValue iface json_Marshal st vals f i m = Ret (Ok m).
Proof. unfold dbTagName, setMultiInsertFieldValue. destruct (bool_decide (tag f = [])); [done|]. by destruct (bool_decide (column f = dash)). Qed.

Lemma setMulti_holds st vals f i m cs name v :
  dbTagName f = Some name → field_value st vals i = Ret v → maps_hold m cs →
  match cell_of f v with
  | Err e => setMultiInsertFieldValue iface json_Marshal st vals f i m = Ret (Err e)
  | Ok c => ∃ m', setMultiInsertFieldValue iface json_Marshal st vals f i m = Ret (Ok m') ∧ maps_hold m' (cs ++ [(name, c)])
  end.
Proof.
  intros (H1 & H2 & ->)%dbTagName_tag Hv Hm. unfold setMultiInsertFieldValue, cell_of. rewrite H1, H2, Hv.
  destruct (has_option f omitempty && IsEmpty v).
  - eexists. split; [reflexivity|]. by apply (maps_hold_add m cs (column f) None (iface v)).
  - destruct (encode iface json_Marshal f v) as [a|e]; [|done]. eexists. split; [reflexivity|]. by apply (maps_hold_add m cs (column f) (Some a) a).
Qed.

(** Filling the maps of a row. *)
Lemma row_loop_holds fs : ∀ n pre vpre vs m cs0,
  length vpre = length pre → length vs = length fs → columns_exported dbTagName fs → maps_hold m cs0 →
  match row_cells dbTagName cell_of fs vs with
  | Err e => row_loop iface json_Marshal (mkType n (pre ++ fs)) (vpre ++ vs) fs (length pre) m = Ret (Err e)
  | Ok cs => ∃ m', row_loop iface json_Marshal (mkType n (pre ++ fs)) (vpre ++ vs) fs (length pre) m = Ret (Ok m') ∧ maps_hold m' (cs0 ++ cs)
  end.
Proof.
  induction fs as [|f fs IH]; intros n pre vpre vs m cs0 Hl Hl' He Hm; [destruct vs; [|done]; cbn; exists m; by rewrite app_nil_r|].
  destruct vs as [|v vs]; [done|]. apply Forall_cons in He as [Hf He]. cbn [row_cells row_loop].
  specialize (λ m cs0, IH n (pre ++ [f]) (vpre ++ [v]) vs m cs0 ltac:(rewrite !length_app; cbn; lia) ltac:(cbn in Hl'; lia) He) as IH'.
  rewrite <- !app_assoc, length_app, Nat.add_1_r in IH'. cbn [app] in IH'.
  destruct (dbTagName f) as [name|] eqn:En; [|rewrite setMulti_skip by done; by apply IH'].
  pose proof (setMulti_holds _ _ f (length pre) m cs0 name v En (field_value_mid pre f fs n vpre v vs Hl (Hf ltac:(done))) Hm) as Hs.
  destruct (cell_of f v) as [c|e]; cbn; [|by rewrite Hs]. destruct Hs as (m' & -> & Hm'). cbn.
  specialize (IH' m' (cs0 ++ [(name, c)]) Hm'). destruct (row_cells dbTagName cell_of fs vs) as [cs|e]; cbn; [|done].
  destruct IH' as (m2 & -> & Hm2). exists m2. split; [done|]. by rewrite <- app_assoc in Hm2.
Qed.

Definition pg_place_text (p : place) : text := match p with PDefault => str "DEFAULT" | PArg n => dollar (Z.of_nat n) end.

Lemma placeholders_number fields m cs n : maps_hold m cs → Forall (λ c, c ∈ cs.*1) fields →
  let cells := (λ name, default None (last_cell name cs)) <$> fields in
  multiInsertPlaceholders fields m (Z.of_nat n) = (pg_place_text <$> (number n cells).1, arguments cells, Z.of_nat (number n cells).2).
Proof.
  intros Hm Hf. revert n. induction Hf as [|c fields Hc Hf IH]; intros n; cbn; [done|]. specialize (Hm c).
  destruct (last_cell c cs) as [[a|]|] eqn:E; [| |by apply last_cell_None in E]; cbn.
  - destruct Hm as [-> ->]. cbn. replace (Z.of_nat n + 1) with (Z.of_nat (S n)) by lia. specialize (IH (S n)). cbn in IH. rewrite IH.
    by destruct (number (S n) _).
  - rewrite Hm. cbn. specialize (IH n). cbn in IH. rewrite IH. by destruct (number n _).
Qed.

Definition columns (t : struct_type) : list text := omap dbTagName (type_fields t).

Lemma row_of_maps t r cs : columns_exported dbTagName (type_fields t) → row_of dbTagName cell_of t r cs →
  (∃ m, multiInsertRowValues iface json_Marshal r t = Ret (Ok m) ∧ maps_hold m cs) ∧ cs.*1 = columns t.
Proof.
  intros He (vals & Hs & Hl & Hc). split; [|by eapply row_cells_columns]. unfold multiInsertRowValues. rewrite Hs.
  destruct t as [n fs]. cbn in *.
  pose proof (row_loop_holds fs n [] [] vals (∅, ∅) [] eq_refl Hl He) as H. rewrite Hc in H. apply H.
  intros name. cbn. apply lookup_empty.
Qed.

Lemma dbFields_loop_spec fs : ∀ fields k, NoDup fields →
  NoDup (dbFields_loop fs fields k).1 ∧ (∀ c, c ∈ (dbFields_loop fs fields k).1 ↔ c ∈ fields ∨ c ∈ omap dbTagName fs) ∧
  (dbFields_loop fs fields k).2 = k + Z.of_nat (length (omap dbTagName fs)).
Proof.
  induction fs as [|f fs IH]; intros fields k Hnd; cbn; [split_and!; [done|set_solver|lia]|].
  destruct (dbTagName f) as [name|]; cbn; [|by apply IH]. case_bool_decide as Hin.
  - destruct (IH fields (k + 1) Hnd) as (H1 & H2 & H3). split_and!; [done| |rewrite H3; lia]. intros c. rewrite H2, elem_of_cons. naive_solver.
  - destruct (IH (fields ++ [name]) (k + 1)) as (H1 & H2 & H3).
    { apply NoDup_app. split_and!; [done| |apply NoDup_singleton]. intros x Hx ->%list_elem_of_singleton. done. }
    split_and!; [done| |rewrite H3; lia]. intros c. rewrite H2, elem_of_cons, elem_of_app, list_elem_of_singleton. tauto.
Qed.

Lemma dbFields_spec t : NoDup (dbFields t).1 ∧ ∀ c, c ∈ (dbFields t).1 ↔ c ∈ columns t.
Proof.
  destruct (dbFields_loop_spec (type_fields t) [] 0 (NoDup_nil_2)) as (H1 & H2 & _). split; [done|]. intros c. unfold dbFields. rewrite H2, elem_of_nil.
  unfold columns. tauto.
Qed.

Lemma dbFields_distinct_loop fs : ∀ fields k, NoDup (fields ++ omap dbTagName fs) → (dbFields_loop fs fields k).1 = fields ++ omap dbTagName fs.
Proof.
  induction fs as [|f fs IH]; intros fields k; cbn; [by rewrite app_nil_r|]. destruct (dbTagName f) as [name|]; cbn; [|apply IH]. intros Hnd.
  rewrite bool_decide_eq_false_2.
  - rewrite IH by by rewrite <- app_assoc. by rewrite <- app_assoc.
  - apply NoDup_app in Hnd as (_ & Hd & _). intros Hin. apply (Hd name Hin). by left.
Qed.

Lemma rows_loop_means t fields data css : columns_exported dbTagName (type_fields t) → Forall (λ c, c ∈ columns t) fields → Forall2 (row_of dbTagName cell_of t) data css → ∀ n,
  rows_loop iface json_Marshal data t fields (Z.of_nat n) =
  Ret (Ok ((λ ps, tuple (pg_place_text <$> ps)) <$> number_rows n (statement_cells fields <$> css), List.concat (arguments <$> (statement_cells fields <$> css)))).
Proof.
  intros He Hf. induction 1 as [|r cs data css Hr _ IH]; intros n; cbn; [done|].
  destruct (row_of_maps t r cs He Hr) as [(m & -> & Hm) Ec]. cbn.
  pose proof (placeholders_number fields m cs n Hm) as Hp. rewrite Ec in Hp. specialize (Hp Hf). cbn in Hp. rewrite Hp.
  fold (statement_cells fields cs). rewrite IH. cbn. by destruct (number n (statement_cells fields cs)).
Qed.

Definition statement (tbl : text) (cols : list text) (tuples : list text) : text :=
  "INSERT INTO " ++ tbl ++ " (" ++ Join cols ", " ++ ") VALUES " ++ Join tuples ", ".

(** The statement of many rows: the columns of the struct type, each once, and for every
    row a tuple of places. The places are numbered from one without gaps in the order they
    are written, one per argument, and reading them with the arguments gives every row's
    column the value of its field, the JSON of a marked struct, or the default where an
    empty field may be left out; of several fields of one column the last counts. *)
Theorem pg_multi_insert_means tableName tbl t data css cols :
  data ≠ [] → Forall2 (row_of dbTagName cell_of t) data css → columns_exported dbTagName (type_fields t) →
  safeIdent tableName = Ok tbl → quoteIdentifiers (dbFields t).1 = Ok cols →
  ∃ places args,
    generateMultiInsertQueriesFromStructArray iface json_Marshal tableName data =
      Ret (Ok (statement tbl cols ((λ ps, tuple (pg_place_text <$> ps)) <$> places), args)) ∧
    (NoDup (dbFields t).1 ∧ ∀ c, c ∈ (dbFields t).1 ↔ c ∈ columns t) ∧
    (λ ps, read_place args <$> ps) <$> places = (λ cs, (λ name, last_cell name cs) <$> (dbFields t).1) <$> css ∧
    List.concat (numbers <$> places) = seq 1 (length args).
Proof.
  intros Hne Hd He Ht Hc. set (fields := (dbFields t).1) in *. set (cells := statement_cells fields <$> css).
  assert (Forall (λ c, c ∈ columns t) fields) as Hf by (apply Forall_forall; intros c ?; by apply dbFields_spec).
  assert (Forall (λ cs : list (text * cell), Forall (λ c, c ∈ cs.*1) fields) css) as Hcols.
  { eapply Forall_impl; [exact (row_of_columns _ _ t data css Hd)|]. cbn. by intros cs ->. }
  exists (number_rows 1 cells), (List.concat (arguments <$> cells)). split; [|split; [apply dbFields_spec|by apply statement_meaning]].
  unfold generateMultiInsertQueriesFromStructArray. rewrite Ht. cbn [lift_ident try].
  pose proof (rows_loop_means t fields data css He Hf Hd 1) as Hloop. change (Z.of_nat 1) with 1 in Hloop. fold cells in Hloop.
  clear Hcols. destruct Hd as [|r cs data css (vals & Hs & _) _]; [done|]. unfold structTypeOf. rewrite Hs. cbn [try].
  fold fields. rewrite Hc. cbn [lift_ident try]. rewrite Hloop. reflexivity.
Qed.

End meaning.

Section agree.
Context (iface : goval → any) (json_Marshal : goval → result string string).

(** ** One row and many *)

Lemma quoteIdentifiers_cons c cols q : quoteIdentifiers (c :: cols) = Ok q → ∃ qc qcols, safeIdent c = Ok qc ∧ quoteIdentifiers cols = Ok qcols ∧ q = qc :: qcols.
Proof.
  cbn. destruct (safeIdent c) as [qc|]; cbn; [|done]. destruct (quoteIdentifiers cols) as [qcols|]; cbn; [|done]. intros [= <-]. by exists qc, qcols.
Qed.

Fixpoint dollars (n : nat) (k : nat) : list text :=
  match k with
  | O => []
  | S k => dollar (Z.of_nat n) :: dollars (S n) k
  end.

(** The columns, placeholders and values of one row. *)
Lemma insert_loop_means fs : ∀ n pre vpre vs cs q k,
  length vpre = length pre → length vs = length fs → columns_exported dbTagName fs → row_cells dbTagName (cell_of iface json_Marshal) fs vs = Ok cs →
  quoteIdentifiers (assigned cs).*1 = Ok q →
  insert_loop iface json_Marshal (mkType n (pre ++ fs)) (vpre ++ vs) fs (length pre) (Z.of_nat k) =
  Ret (Ok (q, dollars k (length (assigned cs)), (assigned cs).*2)).
Proof.
  induction fs as [|f fs IH]; intros n pre vpre vs cs q k Hl Hl' He; [destruct vs; [|done]; cbn; intros [= <-]; cbn; by intros [= <-]|].
  destruct vs as [|v vs]; [done|]. apply Forall_cons in He as [Hf He]. cbn [row_cells insert_loop].
  specialize (λ cs q k, IH n (pre ++ [f]) (vpre ++ [v]) vs cs q k ltac:(rewrite !length_app; cbn; lia) ltac:(cbn in Hl'; lia) He) as IH'.
  rewrite <- !app_assoc, length_app, Nat.add_1_r in IH'. cbn [app] in IH'.
  destruct (dbTagName f) as [name|] eqn:En.
  - pose proof (field_value_mid pre f fs n vpre v vs Hl (Hf ltac:(done))) as ->. apply dbTagName_tag in En as (-> & -> & ->). rewrite (cell_of_eq iface json_Marshal f v).
    destruct (has_option f omitempty && IsEmpty v); cbn.
    + destruct (row_cells dbTagName (cell_of iface json_Marshal) fs vs) as [cs'|] eqn:Er; cbn; [|done]. intros [= <-]. cbn [assigned]. by apply IH'.
    + destruct (encode iface json_Marshal f v) as [a|]; cbn; [|done]. destruct (row_cells dbTagName (cell_of iface json_Marshal) fs vs) as [cs'|] eqn:Er; cbn; [|done].
      intros [= <-]. cbn [assigned fmap list_fmap fst]. intros (qc & qcols & -> & Hq & ->)%quoteIdentifiers_cons. cbn. replace (Z.of_nat k + 1) with (Z.of_nat (S k)) by lia.
      by rewrite (IH' cs' qcols (S k) eq_refl Hq).
  - unfold dbTagName in En. destruct (bool_decide (tag f = [])); [by apply IH'|]. destruct (bool_decide (column f = dash)); [by apply IH'|done].
Qed.

Lemma assigned_columns cs : (assigned cs).*1 ⊆+ cs.*1.
Proof. induction cs as [|[n [v|]] cs IH]; cbn; [done|by apply submseteq_skip|by apply submseteq_cons]. Qed.

Lemma quoteIdentifiers_Forall cols q : quoteIdentifiers cols = Ok q → Forall (λ c, ∃ qc, safeIdent c = Ok qc) cols.
Proof.
  revert q. induction cols as [|c cols IH]; intros q; [done|]. intros (qc & qcols & Hc & Hq & _)%quoteIdentifiers_cons. constructor; [by exists qc|by eapply IH].
Qed.

Lemma quoteIdentifiers_ok cols : Forall (λ c, ∃ qc, safeIdent c = Ok qc) cols → ∃ q, quoteIdentifiers cols = Ok q.
Proof. induction 1 as [|c cols (qc & Hc) _ (q & Hq)]; [by eexists|]. cbn. rewrite Hc. cbn. rewrite Hq. by eexists. Qed.

(** (C33) Inserting one row either way, with distinct columns: the same arguments in the same
    order. The single insert names the columns that get a value and numbers their places
    from one; the statement for many rows names every column and says DEFAULT for the
    others. *)
Theorem pg_single_and_multi_agree tableName tbl t r cs cols :
  row_of dbTagName (cell_of iface json_Marshal) t r cs → columns_exported dbTagName (type_fields t) → NoDup (columns t) → assigned cs ≠ [] →
  safeIdent tableName = Ok tbl → quoteIdentifiers (columns t) = Ok cols →
  let args := (assigned cs).*2 in
  ∃ cols1 places,
    insert_statement iface json_Marshal tbl r = Ret (Ok (statement tbl cols1 [tuple (dollars 1 (length args))], args)) ∧
    quoteIdentifiers (assigned cs).*1 = Ok cols1 ∧
    generateMultiInsertQueriesFromStructArray iface json_Marshal tableName [r] = Ret (Ok (statement tbl cols [tuple (pg_place_text <$> places)], args)) ∧
    read_place args <$> places = Some <$> cs.*2.
Proof.
  intros Hr He Hnd Hne Ht Hq args. destruct (row_of_maps iface json_Marshal t r cs He Hr) as [_ Ec].
  assert ((dbFields t).1 = columns t) as Ef by (unfold dbFields; by rewrite dbFields_distinct_loop).
  destruct (quoteIdentifiers_ok (assigned cs).*1) as (cols1 & Hq1).
  { apply quoteIdentifiers_Forall in Hq. rewrite Forall_forall in *. intros c Hc. apply Hq. rewrite <- Ec. by apply (elem_of_submseteq (assigned cs).*1), assigned_columns. }
  assert (statement_cells (columns t) cs = cs.*2) as Es.
  { apply (inj (fmap Some)). rewrite statement_reads, <- Ec by (rewrite Ec; by apply Forall_forall). apply last_cell_distinct. by rewrite Ec. }
  exists cols1, (number 1 cs.*2).1. split_and!.
  - unfold insert_statement. destruct Hr as (vals & Hs & Hl & Hc). rewrite Hs. destruct t as [n fs]. cbn in *.
    pose proof (insert_loop_means fs n [] [] vals cs cols1 1 eq_refl Hl He Hc Hq1) as H. cbn [app length] in H. change (Z.of_nat 1) with 1 in H.
    rewrite H. cbn. rewrite bool_decide_eq_false_2.
    + unfold statement, tuple, args. cbn [Join]. by rewrite length_fmap.
    + intros ->. destruct (assigned cs) as [|[c v] rest]; [done|]. by apply quoteIdentifiers_cons in Hq1 as (? & ? & _ & _ & ?).
  - done.
  - unfold generateMultiInsertQueriesFromStructArray. rewrite Ht. cbn [lift_ident try].
    assert (structTypeOf r = Ok t) as -> by (destruct Hr as (vals & Hs & _); unfold structTypeOf; by rewrite Hs). cbn [try]. rewrite Ef, Hq. cbn [lift_ident try].
    pose proof (rows_loop_means iface json_Marshal t (columns t) [r] [cs] He) as H.
    specialize (H ltac:(apply Forall_forall; done) ltac:(repeat constructor; done) 1%nat). change (Z.of_nat 1) with 1 in H. rewrite H. cbn. rewrite Es, app_nil_r.
    rewrite arguments_assigned. by destruct (number 1 cs.*2).
  - pose proof (number_reads cs.*2 1 [] [] eq_refl) as H. rewrite app_nil_r, arguments_assigned in H. exact H.
Qed.

(** ** Rows of other types *)

Lemma row_loop_ext st st' vals fs : (∀ i, field_value st' vals i = field_value st vals i) → ∀ i m,
  row_loop iface json_Marshal st' vals fs i m = row_loop iface json_Marshal st vals fs i m.
Proof.
  intros H. induction fs as [|f fs IH]; intros i m; cbn; [done|].
  assert (setMultiInsertFieldValue iface json_Marshal st' vals f i m = setMultiInsertFieldValue iface json_Marshal st vals f i m) as ->
    by (unfold setMultiInsertFieldValue; by rewrite H).
  destruct (setMultiInsertFieldValue iface json_Marshal st vals f i m) as [[m'|e]|s]; cbn; [apply IH|done|done].
Qed.

(** A row of another struct type is not refused: the tags of the first row's type are
    applied to its fields by position, as if it were a row of that type. *)
Theorem pg_mixed_rows_by_position t t' vals :
  Forall (λ f, exported f = true) (type_fields t) → Forall (λ f, exported f = true) (type_fields t') →
  length (type_fields t') = length (type_fields t) →
  multiInsertRowValues iface json_Marshal (RStruct t' vals) t = multiInsertRowValues iface json_Marshal (RStruct t vals) t.
Proof.
  intros He He' Hl. apply row_loop_ext. intros i. unfold field_value.
  destruct (type_fields t !! i) as [f|] eqn:E1, (type_fields t' !! i) as [f'|] eqn:E2; try done.
  - rewrite Forall_lookup in He, He'. rewrite (He i f E1), (He' i f' E2). done.
  - apply lookup_ge_None in E2. apply lookup_lt_Some in E1. lia.
  - apply lookup_ge_None in E1. apply lookup_lt_Some in E2. lia.
Qed.

End agree.

(** ** Reading *)

Definition named (capitalise : bool) (c : text) : text := if capitalise then UCFirst c else c.

(** The cells of a row that is read. *)
Definition read_cells (capitalise : bool) (cols : list text) (values : list dbval) : list (text * cell) :=
  zip (named capitalise <$> cols) ((λ v, Some (normalizePgValue v)) <$> values).

Lemma row_map_lookup capitalise cols : ∀ values m c,
  row_map capitalise cols values m !! c = match last_cell c (read_cells capitalise cols values) with Some x => x | None => m !! c end.
Proof.
  induction cols as [|col cols IH]; intros [|v values] m c; cbn; try done. rewrite IH. unfold read_cells.
  destruct (last_cell c _) as [x|]; [done|]. fold (named capitalise col). case_bool_decide as E; [subst; by rewrite lookup_insert_eq|by rewrite lookup_insert_ne].
Qed.

Lemma read_loop_spec capitalise cols scans :
  match read_loop capitalise cols scans with
  | Ok out => ∃ vals, scans = Ok <$> vals ∧ out = (λ values, row_map capitalise cols values ∅) <$> vals
  | Err e => Err e ∈ scans
  end.
Proof.
  induction scans as [|[values|e] scans IH]; cbn; [by exists []| |left].
  destruct (read_loop capitalise cols scans) as [out|e]; cbn; [|by right]. destruct IH as (vals & -> & ->). by exists (values :: vals).
Qed.

(** A read returns every row the cursor gave, in order, or an error: a row that cannot be
    scanned or a cursor that ends with an error gives no rows. Each row maps a column, its
    first letter raised where that is asked for, to its value, bytes as a string; of
    columns with one name the last counts. *)
Theorem pg_read_all_or_nothing Connect ctx input rs cols :
  QueryContext_run Connect ctx (Query input) (Params input) = Ok (Some rs) → Columns rs = Ok cols →
  match ExecuteReadQueryContext Connect (Some ctx) input with
  | Panic _ => False
  | Ret (Err e) => Err e ∈ Scans rs ∨ rows_Err rs = Some e
  | Ret (Ok out) => rows_Err rs = None ∧ ∃ vals, Scans rs = Ok <$> vals ∧ length out = length vals ∧
      ∀ i values m, vals !! i = Some values → out !! i = Some m → ∀ c, m !! c = last_cell c (read_cells (CapitaliseColumns input) cols values) ≫= id
  end.
Proof.
  intros Hq Hc. cbn. rewrite Hq, Hc. pose proof (read_loop_spec (CapitaliseColumns input) cols (Scans rs)) as H.
  destruct (read_loop (CapitaliseColumns input) cols (Scans rs)) as [out|e]; [|by left]. destruct (rows_Err rs) as [e|]; [by right|].
  destruct H as (vals & Hs & ->). split; [done|]. exists vals. split; [done|]. split; [apply length_fmap|].
  intros i values m Hi Hm c. rewrite list_lookup_fmap, Hi in Hm. injection Hm as <-. rewrite row_map_lookup, lookup_empty.
  by destruct (last_cell c _) as [[x|]|].
Qed.

(** ** Hash keys *)

(** The key does not tell an argument from the end of the query: a query with one argument
    has the key of a longer query without arguments. *)
Theorem HashKey_ambiguous Sum256 EncodeToString sprint query k v :
  HashKey Sum256 EncodeToString sprint query [(k, v)] = HashKey Sum256 EncodeToString sprint (query ++ hash_part sprint k v) [].
Proof.
  assert (column_value [(k, v)] k = v) as E by (unfold column_value; cbn; by rewrite lookup_insert_eq).
  unfold HashKey, hash_input. change (Strings [(k, v)].*1) with [k]. cbn [fmap list_fmap List.concat fst]. rewrite E.
  change (Strings (@nil (text * any)).*1) with (@nil text). cbn. by rewrite !app_nil_r.
Qed.


(** The order in which the arguments are given does not matter. *)
Theorem HashKey_order Sum256 EncodeToString sprint query args args' :
  args ≡ₚ args' → NoDup args.*1 →
  HashKey Sum256 EncodeToString sprint query args = HashKey Sum256 EncodeToString sprint query args'.
Proof.
  intros Hp Hnd. unfold HashKey, hash_input. rewrite (Strings_Permutation _ _ (fmap_Permutation fst _ _ Hp)). do 4 f_equal.
  apply list_fmap_ext. intros i k _. unfold column_value. by rewrite (list_to_map_proper args args' Hnd Hp).
Qed.

Module Demo.
Definition t : struct_type := mkType "user" [mkField (str "id,omitempty") true; mkField (str "name") true; mkField [] false; mkField (str "-") true; mkField (str "meta,marshaljson") true].
Definition u : struct_type := mkType "pair" [mkField (str "name") true; mkField (str "id") true].
Definition v : struct_type := mkType "swapped" [mkField (str "id") true; mkField (str "name") true].
Definition ada : row := RStruct t [VInt 0; VString (str "ada"); VInt 5; VInt 6; VStruct [VInt 1]].
Definition bob : row := RPtr (Some (RStruct t [VInt 7; VString (str "bob"); VInt 5; VInt 6; VStruct []])).
Definition iface (v : goval) : any := match v with VInt z => AnyInt z | VString s => AnyString (String.string_of_list_ascii s) | _ => AnyNil end.
Definition json (v : goval) : result string string := Ok "{}"%string.
Definition ada_cells : list (text * cell) := [(str "id", None); (str "name", Some (AnyString "ada")); (str "meta", Some (AnyString "{}"))].
Definition bob_cells : list (text * cell) := [(str "id", Some (AnyInt 7)); (str "name", Some (AnyString "bob")); (str "meta", Some (AnyString "{}"))].

Lemma exported_t : columns_exported dbTagName (type_fields t).
Proof. repeat first [apply Forall_cons; split|apply Forall_nil; exact I]; try (intros _; reflexivity). intros [x E]. discriminate E. Qed.
Lemma ada_row : row_of dbTagName (cell_of iface json) t ada ada_cells.
Proof. eexists. split; [reflexivity|]. split; reflexivity. Qed.
Lemma bob_row : row_of dbTagName (cell_of iface json) t bob bob_cells.
Proof. eexists. split; [reflexivity|]. split; reflexivity. Qed.
End Demo.

Lemma pg_multi_insert_means_witness : ∃ places args,
  generateMultiInsertQueriesFromStructArray Demo.iface Demo.json (str "users") [Demo.ada; Demo.bob] =
    Ret (Ok (statement (char_dquote :: str "users" ++ [char_dquote])
      ((λ c, char_dquote :: c ++ [char_dquote]) <$> [str "id"; str "name"; str "meta"]) ((λ ps, tuple (pg_place_text <$> ps)) <$> places), args)) ∧
  length args = 5%nat.
Proof.
  destruct (pg_multi_insert_means Demo.iface Demo.json (str "users") (char_dquote :: str "users" ++ [char_dquote]) Demo.t [Demo.ada; Demo.bob] [Demo.ada_cells; Demo.bob_cells]
    ((λ c, char_dquote :: c ++ [char_dquote]) <$> [str "id"; str "name"; str "meta"])) as (places & args & H1 & _).
  - discriminate.
  - constructor; [apply Demo.ada_row|]. constructor; [apply Demo.bob_row|constructor].
  - apply Demo.exported_t.
  - vm_compute. reflexivity.
  - vm_compute. reflexivity.
  - exists places, args. split; [exact H1|]. assert (∃ q, generateMultiInsertQueriesFromStructArray Demo.iface Demo.json (str "users") [Demo.ada; Demo.bob] =
      Ret (Ok (q, [AnyString "ada"; AnyString "{}"; AnyInt 7; AnyString "bob"; AnyString "{}"]))) as [q E] by (eexists; vm_compute; reflexivity).
    rewrite E in H1. injection H1 as _ <-. reflexivity.
Defined.

Lemma pg_single_and_multi_agree_witness : ∃ cols1 places,
  insert_statement Demo.iface Demo.json (char_dquote :: str "users" ++ [char_dquote]) Demo.ada =
    Ret (Ok (statement (char_dquote :: str "users" ++ [char_dquote]) cols1 [tuple (dollars 1 2)], [AnyString "ada"; AnyString "{}"])) ∧
  read_place [AnyString "ada"; AnyString "{}"] <$> places = [Some None; Some (Some (AnyString "ada")); Some (Some (AnyString "{}"))].
Proof.
  destruct (pg_single_and_multi_agree Demo.iface Demo.json (str "users") (char_dquote :: str "users" ++ [char_dquote]) Demo.t Demo.ada Demo.ada_cells
    ((λ c, char_dquote :: c ++ [char_dquote]) <$> [str "id"; str "name"; str "meta"]) Demo.ada_row Demo.exported_t) as (cols1 & places & H1 & _ & _ & H2).
  - apply (bool_decide_unpack _). vm_compute. exact I.
  - discriminate.
  - vm_compute. reflexivity.
  - vm_compute. reflexivity.
  - exists cols1, places. split; [exact H1|exact H2].
Defined.

Lemma pg_mixed_rows_by_position_witness :
  multiInsertRowValues Demo.iface Demo.json (RStruct Demo.v [VInt 1; VString (str "ada")]) Demo.u =
  multiInsertRowValues Demo.iface Demo.json (RStruct Demo.u [VInt 1; VString (str "ada")]) Demo.u.
Proof. apply (pg_mixed_rows_by_position Demo.iface Demo.json Demo.u Demo.v [VInt 1; VString (str "ada")]); [repeat constructor|repeat constructor|reflexivity]. Defined.

Lemma pg_read_all_or_nothing_witness :
  let rs := mkRows (Ok [str "id"; str "name"]) [Ok [DVal (AnyInt 1); DBytes (str "ada")]] None in
  let ctx := mkQueryContext None None "" (Some (λ _ _, Ok (Some rs))) in
  ∃ m, ExecuteReadQueryContext (λ _, Err ErrNoTarget) (Some ctx) (mkReadInput (str "q") [] true) = Ret (Ok [m]) ∧ m !! str "Name" = Some (AnyString "ada").
Proof.
  intros rs ctx. pose proof (pg_read_all_or_nothing (λ _, Err ErrNoTarget) ctx (mkReadInput (str "q") [] true) rs [str "id"; str "name"] eq_refl eq_refl) as H.
  destruct (ExecuteReadQueryContext _ (Some ctx) _) as [[out|e]|s]; [|destruct H as [H|H]; [apply elem_of_cons in H as [H|H]; [discriminate|by apply elem_of_nil in H]|discriminate]|destruct H].
  destruct H as (_ & vals & Hv & Hl & H). destruct vals as [|values [|]]; try discriminate Hv. destruct out as [|m [|]]; try discriminate Hl.
  exists m. split; [reflexivity|]. specialize (H 0%nat values m eq_refl eq_refl (str "Name")). injection Hv as <-. exact H.
Defined.

Lemma HashKey_order_witness : HashKey id id (λ _, str "x") (str "q") [(str "a", AnyInt 1); (str "b", AnyInt 2)] = HashKey id id (λ _, str "x") (str "q") [(str "b", AnyInt 2); (str "a", AnyInt 1)].
Proof. apply (HashKey_order id id (λ _, str "x") (str "q") [(str "a", AnyInt 1); (str "b", AnyInt 2)]); [apply Permutation_swap|apply (bool_decide_unpack _); exact I]. Defined.

End PgStruct.
