(* ===== verification/MyStruct.v ===== *)
(** * Struct inserts, reads and hash keys of the MySQL helpers ([src/storage/mysql/helper.go])

    Statements from tagged structs, one row or many; reading rows into maps; [HashKey].
    The two ways of inserting treat tags differently, which the theorems make precise.
    Encoding a value as JSON and what the driver is handed for a value are parameters. *)

From Stdlib Require Import ZArith Lia Ascii.
From stdpp Require Import base gmap list strings pretty.
From S2P Require Import Prelude GoValue SqlText MySqlHelper SqlStruct.
Local Open Scope Z_scope.

Module MyStruct.
Import SqlStruct.

Abbreviation err := (struct_error mysql_error).
Definition dash : text := str "-".
Definition omitempty : text := str "omitempty".
Definition marshaljson : text := str "marshaljson".

(** ** Columns of a struct type *)

Definition mysqlDBTagName (f : field) : text :=
  if bool_decide (tag f = []) then []
  else if bool_decide (column f = dash) then []
  else column f.

Definition mysqlTaggedFieldCount (t : struct_type) : nat := length (filter (λ f, mysqlDBTagName f ≠ []) (type_fields t)).

Fixpoint tagged (fs : list field) : list text :=
  match fs with
  | [] => []
  | f :: fs => if bool_decide (mysqlDBTagName f = []) then tagged fs else mysqlDBTagName f :: tagged fs
  end.

Definition mysqlInsertFields (t : struct_type) : result err (list text * list text) :=
  let fields := tagged (type_fields t) in
  quotedFields ← lift_ident (quoteMySQLIdentifiers fields);
  if bool_decide (quotedFields = []) then Err NoFields else Ok (fields, quotedFields).

(** A nil pointer has a message of its own. *)
Definition mysqlStructValue (r : row) : result err (struct_type * list goval) :=
  match struct_of r with
  | Ok s => Ok s
  | Err k => Err (NotStruct (match r with RPtr None => "nil pointer"%string | _ => k end))
  end.

Section values.
Context (iface : goval → any) (json_Marshal : goval → result string string).

Definition marshal (value : goval) : result err any :=
  match json_Marshal value with Ok s => Ok (AnyString s) | Err e => Err (Marshal e) end.

(** ** Many rows *)

(** The value of a field and whether its default is used. *)
Definition mysqlInsertFieldValue (f : field) (value : goval) : result err (any * bool) :=
  let useDefault := has_option f omitempty && IsEmpty value in
  if useDefault || negb (has_option f marshaljson) || negb (kind_struct value) then Ok (iface value, useDefault)
  else
    v ← marshal value;
    Ok (v, false).

Fixpoint row_loop (t : struct_type) (vals : list goval) (fs : list field) (i : nat) (m : gmap text any * gmap text bool)
    : outcome (result err (gmap text any * gmap text bool)) :=
  match fs with
  | [] => Ret (Ok m)
  | f :: fs =>
      let fieldName := mysqlDBTagName f in
      if bool_decide (fieldName = []) then row_loop t vals fs (S i) m
      else match field_value t vals i with
      | Panic s => Panic s
      | Ret value =>
          try (Ret (mysqlInsertFieldValue f value)) (λ '(v, useDefault),
          row_loop t vals fs (S i) (<[fieldName := v]> m.1, <[fieldName := useDefault]> m.2))
      end
  end.

Fixpoint placeholders_loop (fields : list text) (m : gmap text any * gmap text bool) : list text * list any :=
  match fields with
  | [] => ([], [])
  | fieldName :: fields =>
      let '(rowPlaceholders, rowValues) := placeholders_loop fields m in
      if default false (m.2 !! fieldName) then (str "DEFAULT" :: rowPlaceholders, rowValues)
      else ([char_mark] :: rowPlaceholders, default AnyNil (m.1 !! fieldName) :: rowValues)
  end.

Definition mysqlInsertRowValues (t : struct_type) (vals : list goval) (fields : list text) : outcome (result err (list text * list any)) :=
  try (row_loop t vals (type_fields t) 0 (∅, ∅)) (λ m, Ret (Ok (placeholders_loop fields m))).

Definition tuple (placeholders : list text) : text := "(" ++ Join placeholders ", " ++ ")".

Fixpoint rows_loop (data : list row) (t : struct_type) (fields : list text) : outcome (result err (list text * list any)) :=
  match data with
  | [] => Ret (Ok ([], []))
  | r :: data =>
      try (Ret (mysqlStructValue r)) (λ '(st, vals),
      if bool_decide (st = t) then
        try (mysqlInsertRowValues st vals fields) (λ '(rowPlaceholders, rowValues),
        try (rows_loop data t fields) (λ '(valueStrings, allValues),
        Ret (Ok (tuple rowPlaceholders :: valueStrings, rowValues ++ allValues))))
      else Ret (Err OtherType))
  end.

Definition generateMultiInsertQueriesFromStructArray (tableName : text) (data : list row) : outcome (result err (text * list any)) :=
  match data with
  | [] => Ret (Err EmptyData)
  | row0 :: _ =>
      try (Ret (lift_ident (safeMySQLIdent tableName))) (λ quotedTableName,
      try (Ret (mysqlStructValue row0)) (λ '(t, _),
      try (Ret (mysqlInsertFields t)) (λ '(fields, quotedFields),
      try (rows_loop data t fields) (λ '(valueStrings, allValues),
      Ret (Ok ("INSERT INTO " ++ quotedTableName ++ " (" ++ Join quotedFields ", " ++ ") VALUES " ++ Join valueStrings ", ", allValues))))))
  end.

(** ** One row *)

(** The test on the kind is on the struct itself: every marked field is encoded. *)
Fixpoint insert_loop (t : struct_type) (vals : list goval) (fs : list field) (i : nat) : outcome (result err (list text * list text * list any)) :=
  match fs with
  | [] => Ret (Ok ([], [], []))
  | f :: fs =>
      if bool_decide (tag f = []) then insert_loop t vals fs (S i)
      else match field_value t vals i with
      | Panic s => Panic s
      | Ret value =>
          if negb (has_option f omitempty) || negb (IsEmpty value) then
            try (Ret (if has_option f marshaljson then marshal value else Ok (iface value))) (λ value,
            try (Ret (lift_ident (safeMySQLIdent (column f)))) (λ quotedField,
            try (insert_loop t vals fs (S i)) (λ '(fields, placeholders, values),
            Ret (Ok (quotedField :: fields, [char_mark] :: placeholders, value :: values)))))
          else insert_loop t vals fs (S i)
      end
  end.

Definition insert_statement (tableName : text) (data : row) : outcome (result err (text * list any)) :=
  try (Ret (lift_ident (safeMySQLIdent tableName))) (λ quotedTableName,
  match struct_of data with
  | Err k => Ret (Err (NotStruct k))
  | Ok (t, vals) =>
      try (insert_loop t vals (type_fields t) 0) (λ '(fields, placeholders, values),
      if bool_decide (fields = []) then Ret (Err NoFields)
      else Ret (Ok ("INSERT INTO " ++ quotedTableName ++ " (" ++ Join fields ", " ++ ") VALUES (" ++ Join placeholders ", " ++ ")", values)))
  end).

(** ** Executing *)

Section exec.
Context {W : Type} (ConnectContext : string → result mysql_error (exec_fn W)).

Definition MultiInsertFromStructsArrayContext (dbctx : option (DBContext W)) (w : W) (tableName : text) (data : list row)
    : outcome (W * result err Z) :=
  match data with
  | [] => Ret (w, Err EmptyData)
  | _ =>
      match generateMultiInsertQueriesFromStructArray tableName data, dbctx with
      | Panic s, _ => Panic s
      | Ret (Err e), _ => Ret (w, Err (Generating e))
      | Ret (Ok _), None => Ret (w, Err NilContext)
      | Ret (Ok (query, allValues)), Some ctx =>
          match ExecContext ConnectContext ctx w query allValues with
          | (w, Err e) => Ret (w, Err (ExecInsert e))
          | (w, Ok result) =>
              match RowsAffected result with
              | (_, Some e) => Ret (w, Err (Affected e))
              | (rowsAffected, None) => Ret (w, Ok rowsAffected)
              end
          end
      end
  end.

Definition InsertFromStructContext (dbctx : option (DBContext W)) (w : W) (tableName : text) (data : row)
    : outcome (W * result err (Z * Z)) :=
  match insert_statement tableName data, dbctx with
  | Panic s, _ => Panic s
  | Ret (Err e), _ => Ret (w, Err e)
  | Ret (Ok _), None => Ret (w, Err NilContext)
  | Ret (Ok (query, values)), Some ctx =>
      match ExecContext ConnectContext ctx w query values with
      | (w, Err e) => Ret (w, Err (Driver e))
      | (w, Ok result) => Ret (w, Ok (or_zero (RowsAffected result), or_zero (LastInsertId result)))
      end
  end.
End exec.
End values.

(** ** Reading *)

(** [sql.NullString]: the text, and whether it is not NULL. *)
Record NullString : Type := mkNullString { ns_String : text; Valid : bool }.

Record rows : Type := mkRows { Columns : result mysql_error (list text); Scans : list (result mysql_error (list NullString)); rows_Err : option mysql_error }.

Definition query_fn : Type := text → list any → result mysql_error (option rows).
Record QueryContext : Type := mkQueryContext { q_Tx : option query_fn; q_Conn : option query_fn; q_Cluster : string; QueryContextFn : option query_fn }.

Definition queryContext (ConnectContext : string → result mysql_error query_fn) (ctx : QueryContext) (q : text) (args : list any)
    : result mysql_error (option rows) :=
  match q_Tx ctx, q_Conn ctx with
  | Some tx, _ => tx q args
  | None, Some conn => conn q args
  | None, None =>
      match ConnectContext (q_Cluster ctx) with
      | Err e => Err e
      | Ok conn => conn q args
      end
  end.

Definition QueryContext_run (ConnectContext : string → result mysql_error query_fn) (ctx : QueryContext) (q : text) (args : list any)
    : result mysql_error (option rows) :=
  match QueryContextFn ctx with
  | Some f => f q args
  | None => queryContext ConnectContext ctx q args
  end.

Record ReadQueryInput : Type := mkReadInput { Query : text; Params : list any; UseCache : bool; CapitaliseColumns : bool }.

Fixpoint row_map (capitalise : bool) (cols : list text) (values : list NullString) (m : gmap text NullString) : gmap text NullString :=
  match cols, values with
  | c :: cols, v :: values => row_map capitalise cols values (<[(if capitalise then UCFirst c else c) := v]> m)
  | _, _ => m
  end.

Fixpoint read_loop (capitalise : bool) (cols : list text) (scans : list (result mysql_error (list NullString)))
    : result mysql_error (list (gmap text NullString)) :=
  match scans with
  | [] => Ok []
  | Err e :: _ => Err e
  | Ok values :: scans =>
      output ← read_loop capitalise cols scans;
      Ok (row_map capitalise cols values ∅ :: output)
  end.

Definition ExecuteReadQueryContext (ConnectContext : string → result mysql_error query_fn) (dbctx : option QueryContext) (input : ReadQueryInput)
    : outcome (result mysql_error (list (gmap text NullString))) :=
  match dbctx with
  | None => Ret (Err MyNilContext)
  | Some ctx =>
      match QueryContext_run ConnectContext ctx (Query input) (Params input) with
      | Err e => Ret (Err e)
      | Ok None => Panic "nil pointer dereference"
      | Ok (Some rs) =>
          match Columns rs with
          | Err e => Ret (Err e)
          | Ok cols =>
              match read_loop (CapitaliseColumns input) cols (Scans rs) with
              | Err e => Ret (Err e)
              | Ok output => Ret (match rows_Err rs with Some e => Err e | None => Ok output end)
              end
          end
      end
  end.

(** ** Hash keys *)

Definition arg_text (sprint : any → text) (args : list (text * any)) : text :=
  List.concat ((λ k, k ++ ":" ++ sprint (column_value args k) ++ "|") <$> Strings args.*1).

(** [write] is what writing to the hash gives: an error or nothing. *)
Definition HashKey (sum : text → text) (EncodeToString : text → text) (write : text → option string) (sprint : any → text)
    (query : text) (args : list (text * any)) : result string text :=
  let hashKey := query ++ arg_text sprint args in
  match write hashKey with
  | Some e => Err e
  | None => Ok (EncodeToString (sum hashKey))
  end.

(** ** What the statements mean *)

Definition name_of (f : field) : option text := if bool_decide (mysqlDBTagName f = []) then None else Some (mysqlDBTagName f).

Lemma tagged_columns fs : tagged fs = omap name_of fs.
Proof. induction fs as [|f fs IH]; cbn; [done|]. unfold name_of. destruct (bool_decide (mysqlDBTagName f = [])); cbn; [done|by f_equal]. Qed.

Section meaning.
Context (iface : goval → any) (json_Marshal : goval → result string string).

Definition cell_of (f : field) (v : goval) : result err cell :=
  if has_option f omitempty && IsEmpty v then Ok None
  else if has_option f marshaljson && kind_struct v then a ← marshal json_Marshal v; Ok (Some a)
  else Ok (Some (iface v)).

Lemma field_value_cell f v :
  match cell_of f v with
  | Err e => mysqlInsertFieldValue iface json_Marshal f v = Err e
  | Ok c => ∃ a, mysqlInsertFieldValue iface json_Marshal f v = Ok (a, bool_decide (c = None)) ∧ match c with Some b => b = a | None => True end
  end.
Proof.
  unfold cell_of, mysqlInsertFieldValue. generalize (has_option f omitempty && IsEmpty v) (has_option f marshaljson) (kind_struct v). intros [] mj ks; [by eexists|].
  destruct mj; [|by eexists]. destruct ks; [|by eexists]. cbn. destruct (marshal json_Marshal v); [by eexists|done].
Qed.

Lemma my_row_loop_holds fs : ∀ n pre vpre vs m cs0,
  length vpre = length pre → length vs = length fs → columns_exported name_of fs → maps_hold m cs0 →
  match row_cells name_of cell_of fs vs with
  | Err e => row_loop iface json_Marshal (mkType n (pre ++ fs)) (vpre ++ vs) fs (length pre) m = Ret (Err e)
  | Ok cs => ∃ m', row_loop iface json_Marshal (mkType n (pre ++ fs)) (vpre ++ vs) fs (length pre) m = Ret (Ok m') ∧ maps_hold m' (cs0 ++ cs)
  end.
Proof.
  induction fs as [|f fs IH]; intros n pre vpre vs m cs0 Hl Hl' He Hm; [destruct vs; [|done]; cbn; exists m; by rewrite app_nil_r|].
  destruct vs as [|v vs]; [done|]. apply Forall_cons in He as [Hf He]. cbn [row_cells row_loop].
  specialize (λ m cs0, IH n (pre ++ [f]) (vpre ++ [v]) vs m cs0 ltac:(rewrite !length_app; cbn; lia) ltac:(cbn in Hl'; lia) He) as IH'.
  rewrite <- !app_assoc, length_app, Nat.add_1_r in IH'. cbn [app] in IH'. unfold name_of in Hf |- * at 1.
  destruct (bool_decide (mysqlDBTagName f = [])) eqn:En; [by apply IH'|].
  rewrite (field_value_mid pre f fs n vpre v vs Hl (Hf ltac:(done))). pose proof (field_value_cell f v) as Hc.
  destruct (cell_of f v) as [c|e]; [|by rewrite Hc]. destruct Hc as (a & -> & Ha).
  specialize (IH' (<[mysqlDBTagName f := a]> m.1, <[mysqlDBTagName f := bool_decide (c = None)]> m.2) (cs0 ++ [(mysqlDBTagName f, c)]) (maps_hold_add m cs0 _ c a Hm Ha)).
  cbn [try mbind result_bind]. destruct (row_cells name_of cell_of fs vs) as [cs|e]; [|exact IH']. destruct IH' as (m2 & -> & Hm2).
  exists m2. split; [done|]. by rewrite <- app_assoc in Hm2.
Qed.

Definition my_place_text (p : place) : text := match p with PDefault => str "DEFAULT" | PArg _ => [char_mark] end.

Lemma my_placeholders_number fields m cs n : maps_hold m cs → Forall (λ c, c ∈ cs.*1) fields →
  let cells := statement_cells fields cs in
  placeholders_loop fields m = (my_place_text <$> (number n cells).1, arguments cells).
Proof.
  intros Hm Hf. revert n. induction Hf as [|c fields Hc Hf IH]; intros n; cbn; [done|]. specialize (Hm c).
  destruct (last_cell c cs) as [[a|]|] eqn:E; [| |by apply last_cell_None in E]; cbn.
  - rewrite (IH (S n)). destruct Hm as [-> ->]. cbn. fold (statement_cells fields cs). by destruct (number (S n) (statement_cells fields cs)).
  - rewrite (IH n). rewrite Hm. cbn. fold (statement_cells fields cs). by destruct (number n (statement_cells fields cs)).
Qed.

Lemma my_rows_loop_means t fields data css : columns_exported name_of (type_fields t) → Forall (λ c, c ∈ omap name_of (type_fields t)) fields →
  Forall2 (row_of name_of cell_of t) data css → ∀ n,
  rows_loop iface json_Marshal data t fields =
  Ret (Ok ((λ ps, tuple (my_place_text <$> ps)) <$> number_rows n (statement_cells fields <$> css), List.concat (arguments <$> (statement_cells fields <$> css)))).
Proof.
  intros He Hf. induction 1 as [|r cs data css (vals & Hs & Hl & Hc) _ IH]; intros n; cbn; [done|].
  unfold mysqlStructValue. rewrite Hs. cbn [try]. rewrite bool_decide_eq_true_2 by done. unfold mysqlInsertRowValues.
  pose proof (row_cells_columns name_of cell_of _ _ _ Hl Hc) as Ec. destruct t as [nm fs]. cbn in *.
  pose proof (my_row_loop_holds fs nm [] [] vals (∅, ∅) [] eq_refl Hl He maps_hold_empty) as H. rewrite Hc in H. destruct H as (m & H & Hm). cbn in H.
  rewrite H. cbn [try]. pose proof (my_placeholders_number fields m cs n Hm) as Hp. rewrite Ec in Hp. specialize (Hp Hf). cbn in Hp. rewrite Hp.
  destruct (number n (statement_cells fields cs)) as [ps k]. cbn. by rewrite (IH k).
Qed.

Definition my_statement (tbl : text) (cols : list text) (tuples : list text) : text :=
  "INSERT INTO " ++ tbl ++ " (" ++ Join cols ", " ++ ") VALUES " ++ Join tuples ", ".

(** The statement of many rows: the columns of the tagged fields in order, and for every row
    a tuple of marks and defaults. The n-th mark stands for the n-th argument, there are as
    many arguments as marks, and reading them gives every row's column the value of its
    field, the JSON of a marked struct, or the default where an empty field may be left out. *)
Theorem my_multi_insert_means tableName tbl t data css cols :
  data ≠ [] → Forall2 (row_of name_of cell_of t) data css → columns_exported name_of (type_fields t) →
  safeMySQLIdent tableName = Ok tbl → mysqlInsertFields t = Ok cols →
  ∃ places args,
    generateMultiInsertQueriesFromStructArray iface json_Marshal tableName data =
      Ret (Ok (my_statement tbl cols.2 ((λ ps, tuple (my_place_text <$> ps)) <$> places), args)) ∧
    (λ ps, read_place args <$> ps) <$> places = (λ cs, (λ name, last_cell name cs) <$> cols.1) <$> css ∧
    List.concat (numbers <$> places) = seq 1 (length args).
Proof.
  intros Hne Hd He Ht Hc. set (cells := statement_cells cols.1 <$> css).
  assert (cols.1 = omap name_of (type_fields t)) as Ef.
  { unfold mysqlInsertFields in Hc. destruct (quoteMySQLIdentifiers _); cbn in Hc; [|done]. case_bool_decide; [done|]. injection Hc as <-. apply tagged_columns. }
  assert (Forall (λ cs : list (text * cell), Forall (λ c, c ∈ cs.*1) cols.1) css) as Hcols.
  { eapply Forall_impl; [exact (row_of_columns _ _ t data css Hd)|]. cbn. intros cs ->. rewrite Ef. by apply Forall_forall. }
  exists (number_rows 1 cells), (List.concat (arguments <$> cells)). split; [|by apply statement_meaning].
  unfold generateMultiInsertQueriesFromStructArray.
  pose proof (my_rows_loop_means t cols.1 data css He ltac:(rewrite Ef; by apply Forall_forall) Hd 1) as Hloop. fold cells in Hloop.
  clear Hcols. destruct Hd as [|r cs data css (vals & Hs & _) _]; [done|]. rewrite Ht. cbn [lift_ident try]. unfold mysqlStructValue at 1. rewrite Hs. cbn [try].
  rewrite Hc. destruct cols as [fields quoted]. cbn [try fst snd] in *. by rewrite Hloop.
Qed.

End meaning.

(** ** One row and many *)

Lemma quoteMySQL_cons c cols q : quoteMySQLIdentifiers (c :: cols) = Ok q →
  ∃ qc qcols, safeMySQLIdent c = Ok qc ∧ quoteMySQLIdentifiers cols = Ok qcols ∧ q = qc :: qcols.
Proof.
  cbn. destruct (safeMySQLIdent c) as [qc|]; cbn; [|done]. destruct (quoteMySQLIdentifiers cols) as [qcols|]; cbn; [|done]. intros [= <-]. by exists qc, qcols.
Qed.

Section agree.
Context (iface : goval → any) (json_Marshal : goval → result string string).

(** Where both ways of inserting treat a field alike: a tag names a column, and only
    structs are marked for JSON. *)
Definition alike (f : field) (v : goval) : Prop :=
  tag f ≠ [] → column f ≠ [] ∧ column f ≠ dash ∧ (has_option f marshaljson = true → kind_struct v = true).

Lemma my_insert_loop_means fs : ∀ n pre vpre vs cs q,
  length vpre = length pre → Forall2 alike fs vs → columns_exported name_of fs →
  row_cells name_of (cell_of iface json_Marshal) fs vs = Ok cs → quoteMySQLIdentifiers (assigned cs).*1 = Ok q →
  insert_loop iface json_Marshal (mkType n (pre ++ fs)) (vpre ++ vs) fs (length pre) =
  Ret (Ok (q, replicate (length (assigned cs)) [char_mark], (assigned cs).*2)).
Proof.
  induction fs as [|f fs IH]; intros n pre vpre vs cs q Hl Ha He.
  { apply Forall2_nil_inv_l in Ha as ->. cbn. intros [= <-]. cbn. by intros [= <-]. }
  apply Forall2_cons_inv_l in Ha as (v & vs' & Hal & Ha & ->). apply Forall_cons in He as [Hf He]. cbn [row_cells insert_loop].
  specialize (λ cs q, IH n (pre ++ [f]) (vpre ++ [v]) vs' cs q ltac:(rewrite !length_app; cbn; lia) Ha He) as IH'.
  rewrite <- !app_assoc, length_app, Nat.add_1_r in IH'. cbn [app] in IH'.
  assert (name_of f = if bool_decide (tag f = []) then None else Some (column f)) as En.
  { unfold name_of, mysqlDBTagName. destruct (decide (tag f = [])) as [E|E]; [by rewrite (bool_decide_eq_true_2 _ E)|].
    destruct (Hal E) as (H1 & H2 & _). by rewrite (bool_decide_eq_false_2 _ E), (bool_decide_eq_false_2 _ H2), (bool_decide_eq_false_2 _ H1). }
  rewrite En in Hf |- *. destruct (bool_decide (tag f = [])) eqn:Et; [apply IH'|]. apply bool_decide_eq_false in Et. destruct (Hal Et) as (_ & _ & Hk).
  rewrite (field_value_mid pre f fs n vpre v vs' Hl (Hf ltac:(done))). change (cell_of iface json_Marshal f v) with
    (if has_option f omitempty && IsEmpty v then Ok None else if has_option f marshaljson && kind_struct v then a ← marshal json_Marshal v; Ok (Some a) else Ok (Some (iface v)) : result err cell).
  rewrite <- negb_andb. destruct (has_option f omitempty && IsEmpty v).
  { cbn [negb]. destruct (row_cells name_of _ fs vs') as [cs'|]; cbn [mbind result_bind]; [|done]. intros [= <-]. cbn [assigned]. by apply IH'. }
  cbn [negb]. assert ((if has_option f marshaljson && kind_struct v then a ← marshal json_Marshal v; Ok (Some a) else Ok (Some (iface v)) : result err cell) =
    a ← (if has_option f marshaljson then marshal json_Marshal v else Ok (iface v)); Ok (Some a)) as ->.
  { destruct (has_option f marshaljson); [|done]. by rewrite Hk. }
  destruct (if has_option f marshaljson then marshal json_Marshal v else Ok (iface v)) as [a|]; cbn [mbind result_bind try]; [|done].
  destruct (row_cells name_of _ fs vs') as [cs'|]; cbn [mbind result_bind]; [|done]. intros [= <-]. cbn [assigned fmap list_fmap fst snd length replicate].
  intros (qc & qcols & -> & Hq & ->)%quoteMySQL_cons. cbn [lift_ident try]. by rewrite (IH' cs' qcols eq_refl Hq).
Qed.

(** Where both ways treat the fields alike, the single insert has exactly the arguments of
    the statement for many rows: it names the columns that get a value. *)
Theorem my_single_and_multi_agree tableName tbl t r vals cs cols cols1 :
  struct_of r = Ok (t, vals) → Forall2 alike (type_fields t) vals → columns_exported name_of (type_fields t) →
  row_cells name_of (cell_of iface json_Marshal) (type_fields t) vals = Ok cs →
  NoDup (tagged (type_fields t)) → assigned cs ≠ [] → safeMySQLIdent tableName = Ok tbl → mysqlInsertFields t = Ok cols →
  quoteMySQLIdentifiers (assigned cs).*1 = Ok cols1 →
  let args := (assigned cs).*2 in
  ∃ places,
    insert_statement iface json_Marshal tableName r = Ret (Ok (my_statement tbl cols1 [tuple (replicate (length args) [char_mark])], args)) ∧
    generateMultiInsertQueriesFromStructArray iface json_Marshal tableName [r] = Ret (Ok (my_statement tbl cols.2 [tuple (my_place_text <$> places)], args)) ∧
    read_place args <$> places = Some <$> cs.*2.
Proof.
  intros Hs Ha He Hc Hnd Hne Ht Hm Hq1 args. pose proof (Forall2_length _ _ _ Ha) as Hl.
  pose proof (row_cells_columns name_of _ _ _ _ (eq_sym Hl) Hc) as Ec. rewrite tagged_columns in Hnd.
  assert (cols.1 = omap name_of (type_fields t)) as Ef.
  { unfold mysqlInsertFields in Hm. destruct (quoteMySQLIdentifiers _); cbn in Hm; [|done]. case_bool_decide; [done|]. injection Hm as <-. apply tagged_columns. }
  assert (statement_cells cols.1 cs = cs.*2) as Es.
  { apply (inj (fmap Some)). rewrite statement_reads by (rewrite Ec, Ef; by apply Forall_forall). rewrite Ef, <- Ec. apply last_cell_distinct. by rewrite Ec. }
  exists (number 1 cs.*2).1. split_and!.
  - unfold insert_statement. rewrite Ht. cbn [lift_ident try]. rewrite Hs. destruct t as [n fs]. cbn in *.
    pose proof (my_insert_loop_means fs n [] [] vals cs cols1 eq_refl Ha He Hc Hq1) as H. cbn [app length] in H.
    rewrite H. cbn [try]. rewrite bool_decide_eq_false_2.
    + unfold my_statement, tuple, args. cbn [Join]. by rewrite length_fmap.
    + intros ->. destruct (assigned cs) as [|[c v] rest]; [done|]. by apply quoteMySQL_cons in Hq1 as (? & ? & _ & _ & ?).
  - unfold generateMultiInsertQueriesFromStructArray. rewrite Ht. cbn [lift_ident try].
    assert (mysqlStructValue r = Ok (t, vals)) as -> by (unfold mysqlStructValue; by rewrite Hs). cbn [try]. rewrite Hm. destruct cols as [fields quoted]. cbn [try fst snd] in *.
    rewrite (my_rows_loop_means iface json_Marshal t fields [r] [cs] He ltac:(rewrite Ef; by apply Forall_forall)
      ltac:(constructor; [by exists vals|constructor]) 1). cbn. rewrite Es, app_nil_r, arguments_assigned. by destruct (number 1 cs.*2).
  - pose proof (number_reads cs.*2 1 [] [] eq_refl) as H. rewrite app_nil_r, arguments_assigned in H. exact H.
Qed.

(** A field tagged to be left out makes the single insert fail, whatever it holds. *)
Theorem my_dash_never_inserted tableName n pre f post vals :
  tag f = dash → ∀ q args, insert_statement iface json_Marshal tableName (RStruct (mkType n (pre ++ f :: post)) vals) ≠ Ret (Ok (q, args)).
Proof.
  intros Ht q args. unfold insert_statement. destruct (safeMySQLIdent tableName) as [tbl|]; cbn [lift_ident try]; [|done]. cbn [struct_of type_fields].
  set (t := mkType n (pre ++ f :: post)). generalize 0%nat as i.
  assert (∀ i x, insert_loop iface json_Marshal t vals (pre ++ f :: post) i ≠ Ret (Ok x)) as H.
  { clearbody t. induction pre as [|g pre IH]; intros i x; cbn [app insert_loop].
    - rewrite Ht. rewrite (bool_decide_eq_false_2 (dash = [])) by done. destruct (field_value t vals i) as [v|]; [|done].
      assert (has_option f omitempty = false ∧ has_option f marshaljson = false ∧ column f = dash) as (-> & -> & ->)
        by (unfold has_option, column, tag_parts; rewrite Ht; done). cbn [negb orb try].
      assert (safeMySQLIdent dash = Err (MyInvalidIdent dash)) as -> by reflexivity. done.
    - destruct (bool_decide (tag g = [])); [apply IH|]. destruct (field_value t vals i) as [v|]; [|done].
      destruct (negb _ || negb _); [|apply IH].
      destruct (if has_option g marshaljson then _ else _) as [a|]; cbn [try]; [|done]. destruct (safeMySQLIdent (column g)) as [qc|]; cbn [lift_ident try]; [|done].
      specialize (IH (S i)). destruct (insert_loop iface json_Marshal t vals (pre ++ f :: post) (S i)) as [[[[fs ps] vs]|]|]; cbn [try]; try done. by destruct (IH (fs, ps, vs)). }
  intros i. destruct (insert_loop iface json_Marshal t vals (pre ++ f :: post) i) as [[[[fs ps] vs]|]|] eqn:E; cbn [try]; try done. by destruct (H i (fs, ps, vs)).
Qed.
End agree.

(** ** Reading *)

(** The last column of a name. *)
Fixpoint last_value (name : text) (cols : list text) (values : list NullString) : option NullString :=
  match cols, values with
  | c :: cols, v :: values => match last_value name cols values with
                              | Some v' => Some v'
                              | None => if bool_decide (c = name) then Some v else None
                              end
  | _, _ => None
  end.

Definition my_named (capitalise : bool) (c : text) : text := if capitalise then UCFirst c else c.

Lemma my_row_map_lookup capitalise cols : ∀ values m c,
  row_map capitalise cols values m !! c = match last_value c (my_named capitalise <$> cols) values with Some v => Some v | None => m !! c end.
Proof.
  induction cols as [|col cols IH]; intros [|v values] m c; cbn; try done. rewrite IH.
  destruct (last_value c _ values) as [x|]; [done|]. fold (my_named capitalise col). case_bool_decide as E; [subst; by rewrite lookup_insert_eq|by rewrite lookup_insert_ne].
Qed.

Lemma my_read_loop_spec capitalise cols scans :
  match read_loop capitalise cols scans with
  | Ok out => ∃ vals, scans = Ok <$> vals ∧ out = (λ values, row_map capitalise cols values ∅) <$> vals
  | Err e => Err e ∈ scans
  end.
Proof.
  induction scans as [|[values|e] scans IH]; cbn; [by exists []| |left].
  destruct (read_loop capitalise cols scans) as [out|e]; cbn; [|by right]. destruct IH as (vals & -> & ->). by exists (values :: vals).
Qed.

(** A read returns every row the cursor gave, in order, each column as text or NULL, or an
    error and no rows; of columns with one name the last counts. *)
Theorem my_read_all_or_nothing ConnectContext ctx input rs cols :
  QueryContext_run ConnectContext ctx (Query input) (Params input) = Ok (Some rs) → Columns rs = Ok cols →
  match ExecuteReadQueryContext ConnectContext (Some ctx) input with
  | Panic _ => False
  | Ret (Err e) => Err e ∈ Scans rs ∨ rows_Err rs = Some e
  | Ret (Ok out) => rows_Err rs = None ∧ ∃ vals, Scans rs = Ok <$> vals ∧ length out = length vals ∧
      ∀ i values m, vals !! i = Some values → out !! i = Some m → ∀ c, m !! c = last_value c (my_named (CapitaliseColumns input) <$> cols) values
  end.
Proof.
  intros Hq Hc. cbn. rewrite Hq, Hc. pose proof (my_read_loop_spec (CapitaliseColumns input) cols (Scans rs)) as H.
  destruct (read_loop (CapitaliseColumns input) cols (Scans rs)) as [out|e]; [|by left]. destruct (rows_Err rs) as [e|]; [by right|].
  destruct H as (vals & Hs & ->). split; [done|]. exists vals. split; [done|]. split; [apply length_fmap|].
  intros i values m Hi Hm c. rewrite list_lookup_fmap, Hi in Hm. injection Hm as <-. rewrite my_row_map_lookup, lookup_empty.
  by destruct (last_value c _ values).
Qed.

(** Two columns that differ in the case of their first letter become one. *)
Example capitalised_columns_collide :
  ∃ m, read_loop true [str "id"; str "Id"] [Ok [mkNullString (str "1") true; mkNullString (str "2") true]] = Ok [m] ∧ size m = 1%nat.
Proof. eexists. split; reflexivity. Qed.

Module Demo.
Definition t : struct_type := mkType "user" [mkField (str "id,omitempty") true; mkField (str "name") true; mkField [] false; mkField (str "meta,marshaljson") true].
Definition ada_vals : list goval := [VInt 0; VString (str "ada"); VInt 5; VStruct [VInt 1]].
Definition ada : row := RStruct t ada_vals.
Definition bob : row := RPtr (Some (RStruct t [VInt 7; VString (str "bob"); VInt 5; VStruct []])).
Definition iface (v : goval) : any := match v with VInt z => AnyInt z | VString s => AnyString (String.string_of_list_ascii s) | _ => AnyNil end.
Definition json (v : goval) : result string string := Ok "{}"%string.
Definition ada_cells : list (text * cell) := [(str "id", None); (str "name", Some (AnyString "ada")); (str "meta", Some (AnyString "{}"))].
Definition bob_cells : list (text * cell) := [(str "id", Some (AnyInt 7)); (str "name", Some (AnyString "bob")); (str "meta", Some (AnyString "{}"))].
Definition q (c : text) : text := char_backtick :: c ++ [char_backtick].

Lemma my_exported_t : columns_exported name_of (type_fields t).
Proof. repeat first [apply Forall_cons; split|apply Forall_nil; exact I]; try (intros _; reflexivity). intros [x E]. discriminate E. Qed.
Lemma my_ada_row : row_of name_of (cell_of iface json) t ada ada_cells.
Proof. eexists. split; [reflexivity|]. split; reflexivity. Qed.
Lemma my_bob_row : row_of name_of (cell_of iface json) t bob bob_cells.
Proof. eexists. split; [reflexivity|]. split; reflexivity. Qed.
Lemma my_ada_alike : Forall2 alike (type_fields t) ada_vals.
Proof. repeat constructor; intros E; try discriminate; try (split; [discriminate|split; [discriminate|intros; (reflexivity || discriminate)]]). by destruct E. Qed.
End Demo.

Lemma my_multi_insert_means_witness : ∃ places args,
  generateMultiInsertQueriesFromStructArray Demo.iface Demo.json (str "users") [Demo.ada; Demo.bob] =
    Ret (Ok (my_statement (Demo.q (str "users")) (Demo.q <$> [str "id"; str "name"; str "meta"]) ((λ ps, tuple (my_place_text <$> ps)) <$> places), args)) ∧
  List.concat (numbers <$> places) = seq 1 (length args).
Proof.
  destruct (my_multi_insert_means Demo.iface Demo.json (str "users") (Demo.q (str "users")) Demo.t [Demo.ada; Demo.bob] [Demo.ada_cells; Demo.bob_cells]
    ([str "id"; str "name"; str "meta"], Demo.q <$> [str "id"; str "name"; str "meta"])) as (places & args & H1 & _ & H2).
  - discriminate.
  - constructor; [apply Demo.my_ada_row|]. constructor; [apply Demo.my_bob_row|constructor].
  - apply Demo.my_exported_t.
  - vm_compute. reflexivity.
  - vm_compute. reflexivity.
  - exists places, args. split; [exact H1|exact H2].
Defined.

Lemma my_single_and_multi_agree_witness : ∃ places,
  insert_statement Demo.iface Demo.json (str "users") Demo.ada =
    Ret (Ok (my_statement (Demo.q (str "users")) (Demo.q <$> [str "name"; str "meta"]) [tuple [[char_mark]; [char_mark]]], [AnyString "ada"; AnyString "{}"])) ∧
  read_place [AnyString "ada"; AnyString "{}"] <$> places = [Some None; Some (Some (AnyString "ada")); Some (Some (AnyString "{}"))].
Proof.
  destruct (my_single_and_multi_agree Demo.iface Demo.json (str "users") (Demo.q (str "users")) Demo.t Demo.ada Demo.ada_vals Demo.ada_cells
    ([str "id"; str "name"; str "meta"], Demo.q <$> [str "id"; str "name"; str "meta"]) (Demo.q <$> [str "name"; str "meta"])
    eq_refl Demo.my_ada_alike Demo.my_exported_t eq_refl) as (places & H1 & _ & H2).
  - apply (bool_decide_unpack _). vm_compute. exact I.
  - discriminate.
  - vm_compute. reflexivity.
  - vm_compute. reflexivity.
  - vm_compute. reflexivity.
  - exists places. split; [exact H1|exact H2].
Defined.

Lemma my_dash_never_inserted_witness : ∀ q args,
  insert_statement Demo.iface Demo.json (str "users") (RStruct (mkType "u" [mkField (str "id") true; mkField (str "-") true]) [VInt 1; VInt 2]) ≠ Ret (Ok (q, args)).
Proof. exact (my_dash_never_inserted Demo.iface Demo.json (str "users") "u" [mkField (str "id") true] (mkField (str "-") true) [] [VInt 1; VInt 2] eq_refl). Defined.

Lemma my_read_all_or_nothing_witness :
  let rs := mkRows (Ok [str "id"; str "name"]) [Ok [mkNullString (str "1") true; mkNullString [] false]] None in
  let ctx := mkQueryContext None None "" (Some (λ _ _, Ok (Some rs))) in
  ∃ m, ExecuteReadQueryContext (λ _, Err MyNilContext) (Some ctx) (mkReadInput (str "q") [] false true) = Ret (Ok [m]) ∧ m !! str "Name" = Some (mkNullString [] false).
Proof.
  intros rs ctx. pose proof (my_read_all_or_nothing (λ _, Err MyNilContext) ctx (mkReadInput (str "q") [] false true) rs [str "id"; str "name"] eq_refl eq_refl) as H.
  destruct (ExecuteReadQueryContext _ (Some ctx) _) as [[out|e]|s]; [|destruct H as [H|H]; [apply elem_of_cons in H as [H|H]; [discriminate|by apply elem_of_nil in H]|discriminate]|destruct H].
  destruct H as (_ & vals & Hv & Hl & H). destruct vals as [|values [|]]; try discriminate Hv. destruct out as [|m [|]]; try discriminate Hl.
  exists m. split; [reflexivity|]. specialize (H 0%nat values m eq_refl eq_refl (str "Name")). injection Hv as <-. exact H.
Defined.

(** ** Hash keys *)

(** As in the Postgres helper, a query with one argument has the key of a longer query. *)
Theorem my_HashKey_ambiguous sum EncodeToString write sprint query k v :
  HashKey sum EncodeToString write sprint query [(k, v)] = HashKey sum EncodeToString write sprint (query ++ k ++ ":" ++ sprint v ++ "|") [].
Proof.
  assert (column_value [(k, v)] k = v) as E by (unfold column_value; cbn; by rewrite lookup_insert_eq).
  unfold HashKey, arg_text. change (Strings [(k, v)].*1) with [k]. cbn [fmap list_fmap List.concat fst]. rewrite E.
  change (Strings (@nil (text * any)).*1) with (@nil text). cbn [fmap list_fmap List.concat]. by rewrite !app_nil_r.
Qed.

End MyStruct.
