(* ===== verification/Conv.v ===== *)
(** * Conversions of dynamic values ([src/utils/types/{numbers,boolean,strings,lists,map}.go])

    [ToInt] and its kin on interface values, with the two float formats; [ToString]; the
    small helpers on lists and maps. Printing and parsing floats, [time.Time.Format] and
    [fmt] are parameters, and so is what the processor gives when a float is converted to
    an integer that does not fit. *)

From Stdlib Require Import ZArith Lia Ascii Floats.SpecFloat.
From stdpp Require Import base gmap list strings pretty.
From S2P Require Import Prelude GoValue SqlText Url.
Local Open Scope Z_scope.

Module Conv.

(** ** Floats and integers *)

Definition f32_of_Z (z : Z) : spec_float := binary_normalize 24 128 z 0 false.

Definition cvt (prec emax : Z) (f : spec_float) : spec_float :=
  match f with
  | S754_finite s m e => binary_normalize prec emax (if s then Zneg m else Zpos m) e s
  | f => f
  end.
Definition f32_of_f64 : float64 → spec_float := cvt 24 128.
Definition f64_of_f32 : spec_float → float64 := cvt 53 1024.

(** [math.Round], half away from zero, as an integer; none for infinities and NaN. *)
Definition f64_round (f : float64) : option Z :=
  match f with
  | S754_zero _ => Some 0
  | S754_finite s m e =>
      let n := if 0 <=? e then Zpos m * 2 ^ e else (Zpos m + 2 ^ (- e - 1)) / 2 ^ (- e) in
      Some (if s then - n else n)
  | _ => None
  end.

Section conv.
(** What converting a float to an integer gives when the result does not fit. *)
Context (indefinite : Z).

Definition int_of (z : option Z) : Z :=
  match z with
  | Some z => if (- 2 ^ 63 <=? z) && (z <? 2 ^ 63) then z else indefinite
  | None => indefinite
  end.

(** ** Values *)

(** The types the conversions tell apart. *)
Inductive dyn : Type :=
  | DNil
  | DBool (b : bool)
  | DInt (z : Z)
  | DInt64 (z : Z)
  | DFloat32 (f : spec_float)
  | DFloat64 (f : float64)
  | DString (s : text)
  | DOther (type : string).

Inductive conv_error : Type := Unsupported | Syntax | OutOfRange.

Definition maxIntValue : Z := 2 ^ 63 - 1.
Definition minIntValue : Z := - maxIntValue - 1.

Definition ToInt (value : dyn) : result conv_error Z :=
  match value with
  | DInt v => Ok v
  | DInt64 v => if (maxIntValue <? v) || (v <? minIntValue) then Err OutOfRange else Ok v
  | DString v => match Url.Atoi v with Some i => Ok i | None => Err Syntax end
  | DFloat32 v => Ok (int_of (f64_round (f64_of_f32 v)))
  | DFloat64 v => Ok (int_of (f64_round v))
  | _ => Err Unsupported
  end.

Definition ToInt64 (value : dyn) : result conv_error Z :=
  match value with
  | DInt v => Ok v
  | DInt64 v => Ok v
  | DString v => match Url.Atoi v with Some i => Ok i | None => Err Syntax end
  | DFloat32 v => Ok (int_of (f64_round (f64_of_f32 v)))
  | DFloat64 v => Ok (int_of (f64_round v))
  | _ => Err Unsupported
  end.

(** [strconv.ParseFloat] with its bit size; a value for 32 bits is a float32 already. *)
Context (ParseFloat : text → Z → option float64).

Definition ToFloat32 (value : dyn) : result conv_error spec_float :=
  match value with
  | DInt v | DInt64 v => Ok (f32_of_Z v)
  | DFloat32 v => Ok v
  | DFloat64 v => Ok (f32_of_f64 v)
  | DString v => match ParseFloat v 32 with Some f => Ok (f32_of_f64 f) | None => Err Syntax end
  | _ => Err Unsupported
  end.

Definition ToFloat64 (value : dyn) : result conv_error float64 :=
  match value with
  | DInt v | DInt64 v => Ok (f64_of_Z v)
  | DFloat32 v => Ok (f64_of_f32 v)
  | DFloat64 v => Ok v
  | DString v => match ParseFloat v 64 with Some f => Ok f | None => Err Syntax end
  | _ => Err Unsupported
  end.

Definition ToBool (value : dyn) : result conv_error bool :=
  match value with
  | DBool v => Ok v
  | DInt v | DInt64 v => Ok (negb (v =? 0))
  | DString v =>
      if bool_decide (v ∈ str <$> ["1"; "true"; "TRUE"; "True"]%string) then Ok true
      else if bool_decide (v ∈ str <$> ["0"; "false"; "FALSE"; "False"]%string) then Ok false
      else Err Syntax
  | _ => Err Unsupported
  end.

(** ** [ToString] *)

(** What [ToString] tells apart; pointers and interfaces hold nothing or a value. *)
#[warnings="-register-all"] Inductive sval : Type :=
  | SPtr (p : option sval)
  | SIface (p : option sval)
  | SInt (z : Z)
  | SUint (z : Z)
  | SFloat (f : float64) (bits : Z)
  | SText (s : text)
  | SBytes (s : text)
  | SBoolean (b : bool)
  | STime (t : Z)
  | SStringer (s : text)
  | SOther (printed : text).

Context (FormatFloat : float64 → Z → text) (Format : Z → text → text).

Definition FormatBool (b : bool) : text := if b then str "true" else str "false".

(** The argument is an interface itself; [None] is nil. *)
Fixpoint ToString (arg : sval) (timeFormat : list text) : text :=
  match arg with
  | SPtr None | SIface None => []
  | SPtr (Some v) | SIface (Some v) => ToString v timeFormat
  | SInt z | SUint z => Itoa z
  | SFloat f bits => FormatFloat f bits
  | SText s | SBytes s => s
  | SBoolean b => FormatBool b
  | STime t => Format t (default (str "2006-01-02 15:04:05") (head timeFormat))
  | SStringer s => s
  | SOther printed => printed
  end.
End conv.

(** ** Lists and maps *)

(** [IsNumber] looks the kind up in a list, in which uint is missing; nil has no type. *)
Inductive kind : Type :=
  | KInt | KInt8 | KInt16 | KInt32 | KInt64 | KUint | KUint8 | KUint16 | KUint32 | KUint64 | KUintptr | KFloat32 | KFloat64 | KString | KBool | KOtherKind.
#[export] Instance kind_eq_dec : EqDecision kind.
Proof. solve_decision. Defined.

Definition NumberTypes : list kind :=
  [KInt; KInt8; KInt16; KInt32; KInt64; KInt32; KInt64; KUint8; KUint16; KUint32; KUint64; KInt32; KInt64; KFloat32; KFloat64].

Definition IsNumber (datatype : option kind) : outcome bool :=
  match datatype with
  | None => Panic "nil pointer dereference"
  | Some k => Ret (bool_decide (k ∈ NumberTypes))
  end.

Section lists.
Context {A : Type} `{EqDecision A}.

(** [reflect.DeepEqual] on the values compared. *)
Fixpoint exists_loop (val : A) (s : list A) (i : Z) : bool * Z :=
  match s with
  | [] => (false, -1)
  | x :: s => if bool_decide (val = x) then (true, i) else exists_loop val s (i + 1)
  end.

(** [None] is an argument that is no slice. *)
Definition ExistsInList (val : A) (array : option (list A)) : bool * Z :=
  match array with
  | Some s => exists_loop val s 0
  | None => (false, -1)
  end.
End lists.

(** [cast] is the type assertion. *)
Fixpoint cast_loop {A B : Type} (cast : A → option B) (l : list A) : option (list B) :=
  match l with
  | [] => Some []
  | v :: l => match cast v with
              | Some x => (cons x) <$> cast_loop cast l
              | None => None
              end
  end.

Definition CastInterfaceSlice {A B : Type} (cast : A → option B) (slice : option (list A)) : option (list B) :=
  match slice with
  | None => None
  | Some l => cast_loop cast l
  end.

(** Later entries win. *)
Definition MergeMaps {T : Type} (map1 map2 : gmap text T) : gmap text T :=
  map_fold (λ k v merged, <[k := v]> merged) (map_fold (λ k v merged, <[k := v]> merged) ∅ map1) map2.

(** A value in which maps may have keys of any type. *)
#[warnings="-register-all"] Inductive tree (K : Type) : Type :=
  | TLeaf (v : any)
  | TMap (m : list (K * tree K)).
Arguments TLeaf {K}. Arguments TMap {K}.

(** The converters change the keys of nested maps; [sprint] is [fmt]'s [%v], which leaves a
    string key as it is. The entries stay in the order the map gave them. *)
Fixpoint convert_keys {K L : Type} (f : K → L) (t : tree K) : tree L :=
  match t with
  | TLeaf v => TLeaf v
  | TMap m => TMap ((λ kv, (f kv.1, convert_keys f kv.2)) <$> m)
  end.

Definition ConvertToMapStringInterface {K : Type} (sprint : K → text) (m : list (K * tree K)) : tree text := convert_keys sprint (TMap m).
Definition ConvertToMapInterface {K : Type} (iface : text → K) (m : list (text * tree text)) : tree K := convert_keys iface (TMap m).

Definition NullableString (value : option (option text)) : text :=
  match value with
  | Some (Some vstr) => vstr
  | _ => []
  end.

Definition IsASCII (s : text) : bool := forallb (λ c, byte_of_ascii c <=? 127) s.

(** ** Properties *)

(** On a 64-bit machine the two integer conversions are the same, whatever the value. *)
Theorem ToInt_ToInt64_agree indefinite value :
  match value with DInt64 z => is_i64 z | _ => True end → ToInt indefinite value = ToInt64 indefinite value.
Proof.
  destruct value; try done. unfold is_i64. intros H. unfold ToInt, ToInt64, minIntValue, maxIntValue.
  destruct (Z.ltb_spec (2 ^ 63 - 1) z); [lia|]. destruct (Z.ltb_spec z (- (2 ^ 63 - 1) - 1)); [lia|done].
Qed.

Lemma ToInt_ToInt64_agree_witness : ToInt 0 (DInt64 (- 2 ^ 63)) = ToInt64 0 (DInt64 (- 2 ^ 63)).
Proof. apply (ToInt_ToInt64_agree 0 (DInt64 (- 2 ^ 63))). unfold is_i64. lia. Defined.

(** ** Integers that a float64 holds exactly *)

Lemma digits2_bound p : 2 ^ (Zpos (digits2_pos p) - 1) <= Zpos p < 2 ^ Zpos (digits2_pos p).
Proof.
  induction p as [p IH|p IH|]; cbn [digits2_pos]; [| |lia]; rewrite Pos2Z.inj_succ, Z.pow_succ_r by lia;
    replace (Z.succ (Zpos (digits2_pos p)) - 1) with (Z.succ (Zpos (digits2_pos p) - 1)) by lia; rewrite Z.pow_succ_r by lia; lia.
Qed.

Lemma shifted_digits p d : digits2_pos (Pos.iter xO p d) = (digits2_pos p + d)%positive.
Proof.
  induction d as [|d IH] using Pos.peano_ind; [cbn; lia|]. rewrite Pos.iter_succ. cbn [digits2_pos]. rewrite IH. lia.
Qed.

Lemma shifted_value p d : Zpos (Pos.iter xO p d) = Zpos p * 2 ^ Zpos d.
Proof.
  induction d as [|d IH] using Pos.peano_ind; [cbn; lia|]. rewrite Pos.iter_succ, Pos2Z.inj_xO, IH, Pos2Z.inj_succ, Z.pow_succ_r by lia. lia.
Qed.

(** A mantissa of 53 digits with a small exponent is left as it is. *)
Lemma round_aux_exact s m e : Zpos (digits2_pos m) = 53 → - 52 <= e <= 0 → binary_round_aux 53 1024 s (Zpos m) e loc_Exact = S754_finite s m e.
Proof.
  intros Hd He. assert (fexp 53 1024 (Zpos (digits2_pos m) + e) - e = 0) as E by (unfold fexp, emin; lia).
  unfold binary_round_aux, shr_fexp. cbn [Zdigits2]. rewrite E. cbn [shr shr_record_of_loc shr_m loc_of_shr_record round_nearest_even Zdigits2].
  rewrite E. cbn [shr shr_record_of_loc shr_m]. rewrite (proj2 (Z.leb_le e (1024 - 53))) by lia. done.
Qed.

Lemma binary_round_small s p : Zpos p < 2 ^ 53 → ∃ m d, binary_round 53 1024 s p 0 = S754_finite s m (- d) ∧ Zpos m = Zpos p * 2 ^ d ∧ 0 <= d <= 52.
Proof.
  intros Hp. pose proof (digits2_bound p) as Hb. set (k := Zpos (digits2_pos p)) in *.
  assert (1 <= k <= 53) as Hk.
  { split; [lia|]. destruct (Z.le_gt_cases k 53) as [?|Hgt]; [done|]. assert (2 ^ 53 <= 2 ^ (k - 1)) by (apply Z.pow_le_mono_r; lia). lia. }
  unfold binary_round, shl_align. fold k. replace (fexp 53 1024 (k + 0) - 0) with (- (53 - k)) by (unfold fexp, emin; lia).
  replace (fexp 53 1024 (k + 0)) with (- (53 - k)) by (unfold fexp, emin; lia).
  destruct (53 - k) as [|d|d] eqn:Ed; [| |lia].
  - change (- 0) with 0. cbv beta iota. exists p, 0. rewrite round_aux_exact by (fold k; lia). split; [done|]. lia.
  - change (- Zpos d) with (Zneg d). cbv beta iota. exists (Pos.iter xO p d), (Zpos d). rewrite round_aux_exact; [|rewrite shifted_digits; fold k in Ed |- *; lia|lia].
    split; [done|]. split; [apply shifted_value|lia].
Qed.

(** Integers below 2^53 survive: both the truncation and the rounding of the float give
    them back. *)
Lemma f64_of_Z_exact z : Z.abs z < 2 ^ 53 → f64_trunc (f64_of_Z z) = Some z ∧ f64_round (f64_of_Z z) = Some z.
Proof.
  intros Hz. unfold f64_of_Z, binary_normalize.
  assert (∀ s p, Zpos p < 2 ^ 53 → f64_trunc (binary_round 53 1024 s p 0) = Some (if s then Zneg p else Zpos p) ∧
    f64_round (binary_round 53 1024 s p 0) = Some (if s then Zneg p else Zpos p)) as H.
  { intros s p Hp. destruct (binary_round_small s p Hp) as (m & d & -> & Hm & Hd). unfold f64_trunc, f64_round. rewrite Z.opp_involutive, Hm.
    destruct (Z.leb_spec 0 (- d)) as [Hle|Hlt].
    - assert (d = 0) as -> by lia. change (2 ^ (- 0)) with 1. change (2 ^ 0) with 1. rewrite !Z.mul_1_r. by destruct s.
    - rewrite Z.quot_mul by (apply Z.pow_nonzero; lia). assert (0 < 2 ^ (d - 1) < 2 ^ d) as Hhalf.
      { split; [apply Z.pow_pos_nonneg; lia|apply Z.pow_lt_mono_r; lia]. }
      rewrite Z.add_comm, Z.div_add by lia. rewrite Z.div_small by lia. by destruct s. }
  destruct z as [|p|p]; [done|apply (H false); lia|apply (H true); lia].
Qed.

(** [ToFloat64] followed by [ToInt64] gives an integer below 2^53 back. *)
Theorem ToFloat64_ToInt64_roundtrip indefinite ParseFloat z :
  Z.abs z < 2 ^ 53 → ∃ f, ToFloat64 ParseFloat (DInt64 z) = Ok f ∧ ToInt64 indefinite (DFloat64 f) = Ok z.
Proof.
  intros Hz. exists (f64_of_Z z). split; [done|]. cbn [ToInt64]. rewrite (proj2 (f64_of_Z_exact z Hz)). unfold int_of.
  destruct (Z.leb_spec (- 2 ^ 63) z); [|lia]. destruct (Z.ltb_spec z (2 ^ 63)); [done|lia].
Qed.

Lemma ToFloat64_ToInt64_roundtrip_witness : ∃ f, ToFloat64 (λ _ _, None) (DInt64 (-7)) = Ok f ∧ ToInt64 0 (DFloat64 f) = Ok (-7).
Proof. apply (ToFloat64_ToInt64_roundtrip 0 (λ _ _, None) (-7)). lia. Defined.

(** ** Lists and maps *)

(** The index is that of the first equal element. *)
Theorem ExistsInList_spec {A : Type} `{EqDecision A} (val : A) (l : list A) :
  match ExistsInList val (Some l) with
  | (true, i) => 0 <= i ∧ l !! Z.to_nat i = Some val ∧ val ∉ take (Z.to_nat i) l
  | (false, i) => i = -1 ∧ val ∉ l
  end.
Proof.
  cbn. assert (∀ i, 0 <= i → match exists_loop val l i with
    | (true, j) => i <= j ∧ l !! Z.to_nat (j - i) = Some val ∧ val ∉ take (Z.to_nat (j - i)) l
    | (false, j) => j = -1 ∧ val ∉ l end) as H.
  { induction l as [|x l IH]; intros i Hi; cbn; [split; [done|apply not_elem_of_nil]|]. case_bool_decide as Hx.
    - subst x. rewrite Z.sub_diag. cbn. split; [lia|]. split; [done|apply not_elem_of_nil].
    - specialize (IH (i + 1) ltac:(lia)). destruct (exists_loop val l (i + 1)) as [[] j].
      + destruct IH as (H1 & H2 & H3). replace (Z.to_nat (j - i)) with (S (Z.to_nat (j - (i + 1)))) by lia. cbn.
        split; [lia|]. split; [done|]. by rewrite not_elem_of_cons.
      + destruct IH as [-> ?]. split; [done|]. by rewrite not_elem_of_cons. }
  specialize (H 0 ltac:(lia)). destruct (exists_loop val l 0) as [[] j]; [|done]. by rewrite Z.sub_0_r in H.
Qed.

Lemma fold_insert_union {T} (m acc : gmap text T) : map_fold (λ k v merged, <[k := v]> merged) acc m = m ∪ acc.
Proof.
  revert m. apply (map_fold_weak_ind (λ r m, r = m ∪ acc)); [by rewrite (left_id_L ∅ (∪))|].
  intros k v m r Hk ->. by rewrite insert_union_l.
Qed.

(** [MergeMaps] has the entries of both maps; where both have a key the second's counts. *)
Theorem MergeMaps_spec {T : Type} (map1 map2 : gmap text T) k :
  MergeMaps map1 map2 !! k = match map2 !! k with Some v => Some v | None => map1 !! k end.
Proof.
  unfold MergeMaps. rewrite !fold_insert_union, (right_id_L ∅ (∪)), lookup_union. by destruct (map2 !! k), (map1 !! k).
Qed.

(** Converting the keys to interfaces and back gives the same tree. *)
Theorem convert_keys_roundtrip {K : Type} (sprint : K → text) (iface : text → K) (m : list (text * tree text)) :
  (∀ s, sprint (iface s) = s) →
  match ConvertToMapInterface iface m with
  | TMap m' => ConvertToMapStringInterface sprint m' = TMap m
  | TLeaf _ => False
  end.
Proof.
  intros Hs. unfold ConvertToMapInterface, ConvertToMapStringInterface. cbn. f_equal.
  assert (∀ t, convert_keys sprint (convert_keys iface t) = t) as H.
  { fix IH 1. intros [v|l]; [done|]. cbn. f_equal. induction l as [|[k t] l IHl]; cbn; [done|]. by rewrite Hs, IH, IHl. }
  induction m as [|[k t] m IHm]; cbn; [done|]. by rewrite Hs, H, IHm.
Qed.

Lemma convert_keys_roundtrip_witness :
  ConvertToMapStringInterface (λ k : text + nat, match k with inl s => s | inr _ => str "n" end) [(inl (str "a"), TMap [(inl (str "b"), TLeaf AnyNil)])] =
  TMap [(str "a", TMap [(str "b", TLeaf AnyNil)])].
Proof. exact (convert_keys_roundtrip (λ k : text + nat, match k with inl s => s | inr _ => str "n" end) inl [(str "a", TMap [(str "b", TLeaf AnyNil)])] (λ s, eq_refl)). Defined.

(** The list of number kinds leaves out uint, so [IsNumber] denies it. *)
Theorem IsNumber_spec k : IsNumber (Some k) = Ret (bool_decide (k ∉ [KUint; KUintptr; KString; KBool; KOtherKind])).
Proof. by destruct k. Qed.

End Conv.
