(* ===== verification/JsonCustom.v ===== *)
(** * Decoding JSON into structs ([src/utils/types/json.go])

    [UnmarshalCustom] and the conversions it makes field by field, over JSON values and
    struct types as trees; the round trip with the encoding of a struct, and which values
    make it panic. Encoding a decoded value and decoding it again, which the code does for
    every nested struct, gives the same value: it is the value itself here. *)

From Stdlib Require Import ZArith Lia Ascii Floats.SpecFloat.
From stdpp Require Import base gmap list strings pretty.
From S2P Require Import Prelude GoValue SqlText Conv.
Local Open Scope Z_scope.

Module JsonCustom.
Import Conv.

(** ** JSON values, types and Go values *)

#[warnings="-register-all"] Inductive json : Type :=
  | JNull
  | JBool (b : bool)
  | JNum (f : float64)
  | JStr (s : text)
  | JArr (l : list json)
  | JObj (m : list (text * json)).

Record sfield : Type := mkSField { fname : text; json_tag : text; settable : bool }.

(** The type of a field by kind; [TMap] says whether a string converts to the type of its
    keys; [TOther] is a kind that is not supported. *)
#[warnings="-register-all"] Inductive ty : Type :=
  | TString | TInt | TInt64 | TFloat32 | TFloat64 | TBool | TIface | TOther
  | TPtr (t : ty)
  | TMap (key_ok : bool) (elem : ty)
  | TSlice (elem : ty)
  | TStruct (fields : list (sfield * ty)).

#[warnings="-register-all"] Inductive gov : Type :=
  | GStr (s : text)
  | GInt (z : Z)
  | GFloat (f : spec_float)
  | GBool (b : bool)
  | GIface (v : option json)
  | GPtr (p : option gov)
  | GMap (m : option (list (text * gov)))
  | GSlice (l : option (list gov))
  | GStruct (fields : list gov)
  | GOther.

Fixpoint zero (t : ty) : gov :=
  match t with
  | TString => GStr []
  | TInt | TInt64 => GInt 0
  | TFloat32 | TFloat64 => GFloat (S754_zero false)
  | TBool => GBool false
  | TIface => GIface None
  | TOther => GOther
  | TPtr _ => GPtr None
  | TMap _ _ => GMap None
  | TSlice _ => GSlice None
  | TStruct fields => GStruct ((λ ft, zero ft.2) <$> fields)
  end.

Inductive json_error : Type :=
  | NotObject
  | MissingField (name : text)
  | Field (name : text) (e : json_error)
  | ExpectedMap
  | ExpectedSlice
  | MapType (key : text)
  | MapElement (key : text) (e : json_error)
  | MapUnsupported
  | SliceElement (e : json_error)
  | ToStruct (e : json_error)
  | NotParsed
  | UnsupportedKind.

(** What a conversion leaves in the field, and its error; it may panic. *)
Definition conv : Type := outcome (gov * option json_error).

Definition lookup_json (name : text) (m : list (text * json)) : option json := snd <$> List.find (λ kv, bool_decide (kv.1 = name)) m.

(** [json.Unmarshal] into a map of interfaces: null is an empty map. *)
Definition as_object (j : json) : option (list (text * json)) :=
  match j with
  | JObj m => Some m
  | JNull => Some []
  | _ => None
  end.

Section decode.
Context (indefinite : Z) (ParseFloat : text → Z → option float64) (FormatFloat : float64 → Z → text) (sprint : json → text).

Definition to_dyn (j : json) : dyn :=
  match j with
  | JNull => DNil
  | JBool b => DBool b
  | JNum f => DFloat64 f
  | JStr s => DString s
  | JArr _ => DOther "[]interface {}"
  | JObj _ => DOther "map[string]interface {}"
  end.

Definition json_ToString (j : json) : text :=
  ToString FormatFloat (λ _ _, [])
    (match j with
     | JNull => SIface None
     | JBool b => SBoolean b
     | JNum f => SFloat f 64
     | JStr s => SText s
     | j => SOther (sprint j)
     end) [].

(** ** Scalars *)

Definition as_scalar (cur : gov) (r : result conv_error gov) : gov * option json_error :=
  match r with
  | Ok v => (v, None)
  | Err _ => (cur, Some NotParsed)
  end.

Definition map_ok {A B} (f : A → B) (r : result conv_error A) : result conv_error B :=
  match r with Ok a => Ok (f a) | Err e => Err e end.

Definition convertScalarField (t : ty) (cur : gov) (j : json) : gov * option json_error :=
  match t with
  | TString => (GStr (json_ToString j), None)
  | TInt64 =>
      match j with
      | JNum f => (GInt (int_of indefinite (f64_trunc f)), None)
      | _ => as_scalar cur (map_ok GInt (ToInt64 indefinite (to_dyn j)))
      end
  | TInt =>
      match j with
      | JNum f => (GInt (int_of indefinite (f64_trunc f)), None)
      | _ => as_scalar cur (map_ok GInt (ToInt indefinite (to_dyn j)))
      end
  | TFloat64 => as_scalar cur (map_ok GFloat (ToFloat64 ParseFloat (to_dyn j)))
  | TFloat32 => as_scalar cur (map_ok GFloat (ToFloat32 ParseFloat (to_dyn j)))
  | TBool => as_scalar cur (map_ok GBool (ToBool (to_dyn j)))
  | _ => (cur, Some UnsupportedKind)
  end.

(** ** Maps *)

Definition isPrimitive (t : ty) : bool := match t with TString | TInt | TInt64 | TFloat32 | TFloat64 | TBool => true | _ => false end.

(** The kind of a nil interface is asked for without a test. *)
Definition convertPrimitiveMapValue (elem : ty) (key : text) (value : json) : conv :=
  match value, elem with
  | JNull, _ => Panic "nil pointer dereference"
  | JStr s, TString => Ret (GStr s, None)
  | JNum f, TFloat64 => Ret (GFloat f, None)
  | JBool b, TBool => Ret (GBool b, None)
  | JNum f, TInt64 => Ret (GInt (int_of indefinite (f64_trunc f)), None)
  | _, _ => Ret (zero elem, Some (MapType key))
  end.

(** [to_struct] is [convertToStruct] into a fresh element. For a pointer to a struct it is
    given the address of the pointer, which is no struct once the value is an object. *)
Definition convertMapValue (to_struct : json → conv) (elem : ty) (key : text) (value : json) : conv :=
  match elem with
  | TIface => match value with
              | JNull => Panic "reflect: call of reflect.Value.Set on zero Value"
              | v => Ret (GIface (Some v), None)
              end
  | TStruct _ =>
      match to_struct value with
      | Ret (v, Some e) => Ret (v, Some (MapElement key e))
      | r => r
      end
  | TPtr (TStruct _) =>
      match as_object value with
      | None => Ret (zero elem, Some (MapElement key (ToStruct NotObject)))
      | Some _ => Panic "reflect: call of reflect.Value.NumField on ptr Value"
      end
  | elem => if isPrimitive elem then convertPrimitiveMapValue elem key value else Ret (zero elem, Some MapUnsupported)
  end.

Fixpoint map_loop (value_of : text → json → conv) (key_ok : bool) (m : list (text * json)) : outcome (result json_error (list (text * gov))) :=
  match m with
  | [] => Ret (Ok [])
  | (key, value) :: m =>
      match value_of key value with
      | Panic s => Panic s
      | Ret (_, Some e) => Ret (Err e)
      | Ret (v, None) =>
          if key_ok then
            match map_loop value_of key_ok m with
            | Ret (Ok rest) => Ret (Ok ((key, v) :: rest))
            | r => r
            end
          else Panic "reflect.Value.Convert: value of type string cannot be converted"
      end
  end.

Fixpoint slice_loop (elem_of : json → conv) (l : list json) : outcome (result json_error (list gov)) :=
  match l with
  | [] => Ret (Ok [])
  | value :: l =>
      match elem_of value with
      | Panic s => Panic s
      | Ret (_, Some e) => Ret (Err (SliceElement e))
      | Ret (v, None) =>
          match slice_loop elem_of l with
          | Ret (Ok rest) => Ret (Ok (v :: rest))
          | r => r
          end
      end
  end.

(** Setting a field; an unexported one cannot be set. *)
Definition set_field (ro : bool) (r : gov * option json_error) : conv :=
  match r with
  | (v, None) => if ro then Panic "reflect: value obtained using unexported field" else Ret (v, None)
  | r => Ret r
  end.

(** ** Fields *)

Definition tag_name (f : sfield) : text := default [] (head (Split (json_tag f) (char 44))).
Definition omitempty (f : sfield) : bool := bool_decide (Split (json_tag f) (char 44) !! 1%nat = Some (str "omitempty")).

(** A field of type [t] that holds [cur], unexported when [ro]. A struct is decoded in place:
    what was set before an error stays. *)
Fixpoint convertField (t : ty) (ro : bool) (cur : gov) (j : json) {struct t} : conv :=
  match t with
  | TPtr t =>
      let wrap (r : conv) : conv := match r with Ret (v, e) => Ret (GPtr (Some v), e) | Panic s => Panic s end in
      match cur with
      | GPtr (Some v) => wrap (convertField t ro v j)
      | _ => if ro then Panic "reflect: value obtained using unexported field" else wrap (convertField t false (zero t) j)
      end
  | TMap key_ok elem =>
      match j with
      | JObj m =>
          match map_loop (convertMapValue (convertField elem false (zero elem)) elem) key_ok m with
          | Panic s => Panic s
          | Ret (Err e) => Ret (cur, Some e)
          | Ret (Ok m) => set_field ro (GMap (Some m), None)
          end
      | _ => Ret (cur, Some ExpectedMap)
      end
  | TSlice elem =>
      match j with
      | JArr l =>
          match slice_loop (convertField elem false (zero elem)) l with
          | Panic s => Panic s
          | Ret (Err e) => Ret (cur, Some e)
          | Ret (Ok l) => set_field ro (GSlice (Some l), None)
          end
      | _ => Ret (cur, Some ExpectedSlice)
      end
  | TStruct fields =>
      if ro then Panic "reflect: value obtained using unexported field"
      else match as_object j, cur with
      | None, _ => Ret (cur, Some (ToStruct NotObject))
      | Some m, GStruct curs =>
          let r :=
            (fix decode (fields : list (sfield * ty)) (curs : list gov) : outcome (list gov * option json_error) :=
               match fields, curs with
               | (f, t) :: fields, cur :: curs =>
                   let go (v : gov) :=
                     match decode fields curs with
                     | Ret (rest, e) => Ret (v :: rest, e)
                     | Panic s => Panic s
                     end in
                   if bool_decide (json_tag f = str "-") then go cur
                   else match lookup_json (tag_name f) m with
                   | None => if omitempty f then go cur else Ret (cur :: curs, Some (MissingField (tag_name f)))
                   | Some value =>
                       match convertField t (negb (settable f)) cur value with
                       | Panic s => Panic s
                       | Ret (v, Some e) => Ret (v :: curs, Some (Field (fname f) e))
                       | Ret (v, None) => go v
                       end
                   end
               | _, curs => Ret (curs, None)
               end) fields curs in
          match r with
          | Panic s => Panic s
          | Ret (curs, e) => Ret (GStruct curs, ToStruct <$> e)
          end
      | Some _, cur => Ret (cur, None)
      end
  | t => set_field ro (convertScalarField t cur j)
  end.

(** The loop over the fields of a struct. *)
Fixpoint decode_fields (m : list (text * json)) (fields : list (sfield * ty)) (curs : list gov) : outcome (list gov * option json_error) :=
  match fields, curs with
  | (f, t) :: fields, cur :: curs =>
      let go (v : gov) :=
        match decode_fields m fields curs with
        | Ret (rest, e) => Ret (v :: rest, e)
        | Panic s => Panic s
        end in
      if bool_decide (json_tag f = str "-") then go cur
      else match lookup_json (tag_name f) m with
      | None => if omitempty f then go cur else Ret (cur :: curs, Some (MissingField (tag_name f)))
      | Some value =>
          match convertField t (negb (settable f)) cur value with
          | Panic s => Panic s
          | Ret (v, Some e) => Ret (v :: curs, Some (Field (fname f) e))
          | Ret (v, None) => go v
          end
      end
  | _, curs => Ret (curs, None)
  end.

(** [data] is what [json.Unmarshal] makes of the bytes, none when they are no JSON. *)
Definition UnmarshalCustom (data : option json) (fields : list (sfield * ty)) (curs : list gov) : outcome (list gov * option json_error) :=
  match data ≫= as_object with
  | None => Ret (curs, Some NotObject)
  | Some m => decode_fields m fields curs
  end.

Lemma convertField_struct fields curs j :
  convertField (TStruct fields) false (GStruct curs) j =
  match as_object j with
  | None => Ret (GStruct curs, Some (ToStruct NotObject))
  | Some m => match decode_fields m fields curs with
              | Panic s => Panic s
              | Ret (curs, e) => Ret (GStruct curs, ToStruct <$> e)
              end
  end.
Proof.
  cbn [convertField]. destruct (as_object j) as [m|]; [|done].
  match goal with |- match ?F fields curs with Ret _ => _ | Panic _ => _ end = _ => assert (∀ fields curs, F fields curs = decode_fields m fields curs) as -> end; [|done].
  clear. induction fields as [|[f t] fields IH]; intros [|cur curs]; try done. cbn [decode_fields]. by rewrite <- IH.
Qed.

End decode.
(** ** The encoding of a value *)

Definition encode_field (encode : ty → gov → json) (ft : sfield * ty) (v : gov) : text * json := (tag_name ft.1, encode ft.2 v).

(** [json.Marshal] and [json.Unmarshal] into an interface: numbers become float64. *)
Fixpoint encode (t : ty) (v : gov) {struct t} : json :=
  match t, v with
  | TString, GStr s => JStr s
  | TInt, GInt z | TInt64, GInt z => JNum (f64_of_Z z)
  | TFloat64, GFloat f => JNum f
  | TBool, GBool b => JBool b
  | TPtr t, GPtr (Some v) => encode t v
  | TMap _ elem, GMap (Some m) => JObj ((λ kv, (kv.1, encode elem kv.2)) <$> m)
  | TSlice elem, GSlice (Some l) => JArr (encode elem <$> l)
  | TStruct fields, GStruct vs => JObj (zip_with (λ ft v, (tag_name ft.1, encode ft.2 v)) fields vs)
  | _, _ => JNull
  end.

(** Elements of maps that can be decoded. *)
Definition map_elem (t : ty) : Prop := match t with TString | TInt64 | TFloat64 | TBool | TStruct _ => True | _ => False end.

(** Values of a type that can be encoded and decoded: integers a float holds, pointers,
    slices and maps that are not nil, structs whose fields are exported and have distinct
    names. *)
#[warnings="-register-all"] Inductive fits : ty → gov → Prop :=
  | fits_string s : fits TString (GStr s)
  | fits_int z : Z.abs z < 2 ^ 53 → fits TInt (GInt z)
  | fits_int64 z : Z.abs z < 2 ^ 53 → fits TInt64 (GInt z)
  | fits_float f : fits TFloat64 (GFloat f)
  | fits_bool b : fits TBool (GBool b)
  | fits_ptr t v : fits t v → fits (TPtr t) (GPtr (Some v))
  | fits_map elem m : map_elem elem → Forall (λ kv, fits elem kv.2) m → fits (TMap true elem) (GMap (Some m))
  | fits_slice elem l : Forall (fits elem) l → fits (TSlice elem) (GSlice (Some l))
  | fits_struct fields vs :
      Forall2 (λ ft v, fits ft.2 v) fields vs → NoDup (tag_name <$> fields.*1) →
      Forall (λ f, settable f = true ∧ json_tag f ≠ str "-") fields.*1 → fits (TStruct fields) (GStruct vs).

Lemma ty_tree_ind (P : ty → Prop) :
  P TString → P TInt → P TInt64 → P TFloat32 → P TFloat64 → P TBool → P TIface → P TOther →
  (∀ t, P t → P (TPtr t)) → (∀ k t, P t → P (TMap k t)) → (∀ t, P t → P (TSlice t)) →
  (∀ fields, Forall (λ ft, P ft.2) fields → P (TStruct fields)) → ∀ t, P t.
Proof.
  intros H1 H2 H3 H4 H5 H6 H7 H8 Hp Hm Hs Hst. fix IH 1. intros t. destruct t as [| | | | | | | |t|k t|t|fields]; try assumption.
  - apply Hp, IH.
  - apply Hm, IH.
  - apply Hs, IH.
  - apply Hst. induction fields as [|[f t] fields IHf]; constructor; [apply IH|apply IHf].
Qed.

Section roundtrip.
Context (indefinite : Z) (ParseFloat : text → Z → option float64) (FormatFloat : float64 → Z → text) (sprint : json → text).
Abbreviation convertField := (convertField indefinite ParseFloat FormatFloat sprint).
Abbreviation decode_fields := (decode_fields indefinite ParseFloat FormatFloat sprint).
Abbreviation UnmarshalCustom := (UnmarshalCustom indefinite ParseFloat FormatFloat sprint).

Lemma int_roundtrip z : Z.abs z < 2 ^ 53 → int_of indefinite (f64_trunc (f64_of_Z z)) = z.
Proof.
  intros Hz. rewrite (proj1 (f64_of_Z_exact z Hz)). unfold int_of.
  destruct (Z.leb_spec (- 2 ^ 63) z); [|lia]. destruct (Z.ltb_spec z (2 ^ 63)); [done|lia].
Qed.

Lemma lookup_json_entry m k j : NoDup m.*1 → (k, j) ∈ m → lookup_json k m = Some j.
Proof.
  unfold lookup_json. induction m as [|[k' j'] m IH]; cbn; [by intros _ ?%elem_of_nil|]. intros [Hk Hnd]%NoDup_cons.
  rewrite elem_of_cons. intros [[= -> ->]|Hin]; [by rewrite bool_decide_eq_true_2|].
  rewrite bool_decide_eq_false_2; [by apply IH|]. intros ->. apply Hk. by apply (list_elem_of_fmap_2 fst) in Hin.
Qed.

(** The loop over the fields, given what each field's entry decodes to. *)
Lemma decode_fields_ok m fields vs :
  Forall2 (λ ft v, settable ft.1 = true ∧ json_tag ft.1 ≠ str "-" ∧ ∃ j, lookup_json (tag_name ft.1) m = Some j ∧ convertField ft.2 false (zero ft.2) j = Ret (v, None)) fields vs →
  decode_fields m fields ((λ ft, zero ft.2) <$> fields) = Ret (vs, None).
Proof.
  induction 1 as [|[f t] v fields vs (Hs & Hd & j & Hl & Hc) _ IH]; [done|]. cbn in Hs, Hd, Hl, Hc. cbn.
  rewrite bool_decide_eq_false_2, Hl, Hs by done. cbn [negb]. rewrite Hc. cbn in IH. by rewrite IH.
Qed.

Lemma map_loop_ok value_of (key_of : gov → json) m :
  Forall (λ kv, value_of kv.1 (key_of kv.2) = Ret (kv.2, None)) m → map_loop value_of true ((λ kv, (kv.1, key_of kv.2)) <$> m) = Ret (Ok m).
Proof. induction 1 as [|[k v] m Hv _ IH]; cbn; [done|]. cbn in Hv. by rewrite Hv, IH. Qed.

Lemma slice_loop_ok elem_of (enc : gov → json) l : Forall (λ v, elem_of (enc v) = Ret (v, None)) l → slice_loop elem_of (enc <$> l) = Ret (Ok l).
Proof. induction 1 as [|v l Hv _ IH]; cbn; [done|]. by rewrite Hv, IH. Qed.

Lemma decode_encode t : ∀ v, fits t v → convertField t false (zero t) (encode t v) = Ret (v, None).
Proof.
  induction t as [| | | | | | | |t IH|k t IH|t IH|fields IH] using ty_tree_ind; intros v Hv; inversion Hv; subst; try done.
  - cbn. by rewrite int_roundtrip.
  - cbn. by rewrite int_roundtrip.
  - cbn. by rewrite IH.
  - cbn. rewrite map_loop_ok; [done|]. eapply Forall_impl; [eassumption|]. intros [key v] Hf. cbn in *. pose proof (IH v Hf) as Hd.
    destruct t; try done; unfold convertMapValue; cbn [isPrimitive]; try (by rewrite Hd); inversion Hf; subst; cbn; try done.
  - cbn. rewrite slice_loop_ok; [done|]. eapply Forall_impl; [eassumption|]. apply IH.
  - rename select (Forall2 _ _ _) into Hfv. rename select (NoDup _) into Hnd. rename select (Forall _ fields.*1) into Hok.
    cbn [zero]. rewrite convertField_struct. cbn [encode as_object].
    rewrite (decode_fields_ok _ fields vs); [done|].
    assert ((zip_with (λ ft v, (tag_name ft.1, encode ft.2 v)) fields vs).*1 = tag_name <$> fields.*1) as En.
    { clear -Hfv. induction Hfv as [|[f t] v fields vs _ _ IHf]; cbn; [done|]. by f_equal. }
    apply Forall2_same_length_lookup. split; [by eapply Forall2_length|]. intros i [f t] v Hi Hvi. cbn.
    rewrite Forall_fmap, Forall_lookup in Hok. destruct (Hok i (f, t) Hi) as [Hs Hd]. cbn in Hs, Hd. split; [done|]. split; [done|].
    exists (encode t v). split.
    + apply lookup_json_entry; [by rewrite En|]. apply (list_elem_of_lookup_2 _ i). rewrite lookup_zip_with, Hi. cbn. by rewrite Hvi.
    + rewrite Forall_lookup in IH. apply (IH i (f, t) Hi). by apply (Forall2_lookup_lr _ _ _ _ _ _ Hfv Hi Hvi).
Qed.

(** Decoding the encoding of a struct into a fresh one gives the struct back, with nested
    structs, pointers, slices and maps, provided integers are below 2^53 and nothing is nil. *)
Theorem UnmarshalCustom_roundtrip fields vs :
  fits (TStruct fields) (GStruct vs) →
  UnmarshalCustom (Some (encode (TStruct fields) (GStruct vs))) fields ((λ ft, zero ft.2) <$> fields) = Ret (vs, None).
Proof.
  intros Hf. pose proof (decode_encode _ _ Hf) as H. cbn [zero] in H. rewrite convertField_struct in H. cbn [encode as_object] in H.
  unfold UnmarshalCustom. cbn. destruct (decode_fields _ fields _) as [[curs [e|]]|s]; [done| |done]. by injection H as ->.
Qed.

(** ** Panics *)

(** A map of pointers to structs makes any object panic. *)
Theorem map_of_struct_pointers_panics fields key m cur rest :
  ∃ s, convertField (TMap true (TPtr (TStruct fields))) false cur (JObj ((key, JObj m) :: rest)) = Panic s.
Proof. by eexists. Qed.

(** A null in a map of strings, numbers, booleans or interfaces panics. *)
Theorem map_null_panics elem key cur rest :
  isPrimitive elem = true ∨ elem = TIface → ∃ s, convertField (TMap true elem) false cur (JObj ((key, JNull) :: rest)) = Panic s.
Proof. intros [H| ->]; [|by eexists]. destruct elem; try done; by eexists. Qed.

(** No JSON number can be stored in a map of int or float32. *)
Theorem map_int_refused elem key f cur rest :
  elem = TInt ∨ elem = TFloat32 → convertField (TMap true elem) false cur (JObj ((key, JNum f) :: rest)) = Ret (cur, Some (MapType key)).
Proof. by intros [->| ->]. Qed.

(** Null does not clear a pointer to a number: it allocates one and reports an error. *)
Theorem null_pointer_refused t :
  t = TInt ∨ t = TInt64 ∨ t = TFloat64 ∨ t = TBool → convertField (TPtr t) false (GPtr None) JNull = Ret (GPtr (Some (zero t)), Some NotParsed).
Proof. by intros [->|[->|[->| ->]]]. Qed.
(** Types all of whose fields are exported and whose maps have string keys and no pointers to
    structs. *)
Fixpoint safe (t : ty) : bool :=
  match t with
  | TPtr t | TSlice t => safe t
  | TMap key_ok elem => key_ok && safe elem && match elem with TPtr (TStruct _) => false | _ => true end
  | TStruct fields => forallb (λ ft, settable ft.1 && safe ft.2) fields
  | _ => true
  end.

(** No object has a null entry. *)
Fixpoint null_free (j : json) : bool :=
  match j with
  | JArr l => forallb null_free l
  | JObj m => forallb (λ kv, negb (match kv.2 with JNull => true | _ => false end) && null_free kv.2) m
  | _ => true
  end.

Definition returns (c : conv) : Prop := match c with Ret _ => True | Panic _ => False end.

Lemma null_free_entry m k j : null_free (JObj m) = true → (k, j) ∈ m → j ≠ JNull ∧ null_free j = true.
Proof. cbn. rewrite forallb_forall. intros H Hin%list_elem_of_In. specialize (H _ Hin). cbn in H. by destruct j. Qed.

Lemma lookup_json_in k m j : lookup_json k m = Some j → ∃ k', (k', j) ∈ m.
Proof.
  unfold lookup_json. destruct (List.find _ m) as [[k' j']|] eqn:E; [|done]. cbn. intros [= ->]. apply find_some in E as [Hin _].
  exists k'. by apply list_elem_of_In.
Qed.

Lemma map_loop_returns value_of m : (∀ k j, (k, j) ∈ m → returns (value_of k j)) → ∃ r, map_loop value_of true m = Ret r.
Proof.
  induction m as [|[k j] m IH]; intros H; cbn; [by eexists|]. pose proof (H k j (list_elem_of_here _ _)) as Hr.
  destruct (value_of k j) as [[v [e|]]|s]; [by eexists| |done]. destruct IH as [[rest|e] ->]; [|by eexists..]. intros k' j' Hin. apply H. by right.
Qed.

Lemma slice_loop_returns elem_of l : (∀ j, j ∈ l → returns (elem_of j)) → ∃ r, slice_loop elem_of l = Ret r.
Proof.
  induction l as [|j l IH]; intros H; cbn; [by eexists|]. pose proof (H j (list_elem_of_here _ _)) as Hr.
  destruct (elem_of j) as [[v [e|]]|s]; [by eexists| |done]. destruct IH as [[rest|e] ->]; [|by eexists..]. intros j' Hin. apply H. by right.
Qed.

Lemma decode_fields_returns m fields : null_free (JObj m) = true → Forall (λ ft, settable ft.1 = true) fields →
  Forall (λ ft, ∀ cur j, null_free j = true → returns (convertField ft.2 false cur j)) fields → ∀ curs, ∃ r, decode_fields m fields curs = Ret r.
Proof.
  intros Hm Hs Hc. induction Hc as [|[f t] fields Hft _ IH]; intros curs; [by eexists|]. apply Forall_cons in Hs as [Hf Hs]. cbn in Hf, Hft.
  destruct curs as [|cur curs]; [by eexists|]. cbn [JsonCustom.decode_fields]. destruct (IH Hs curs) as [[rest e] Hr].
  destruct (bool_decide (json_tag f = str "-")); [rewrite Hr; by eexists|]. destruct (lookup_json (tag_name f) m) as [j|] eqn:El.
  - apply lookup_json_in in El as [k Hin]. apply (null_free_entry m k j Hm) in Hin as [_ Hj]. rewrite Hf. cbn [negb]. pose proof (Hft cur j Hj) as Hret.
    destruct (convertField t false cur j) as [[v [e'|]]|s]; [by eexists|rewrite Hr; by eexists|done].
  - destruct (omitempty f); [rewrite Hr|]; by eexists.
Qed.

Lemma set_field_returns r : returns (set_field false r).
Proof. by destruct r as [v [e|]]. Qed.

Lemma map_value_returns to_struct elem key j :
  (∀ j, null_free j = true → returns (to_struct j)) → match elem with TPtr (TStruct _) => false | _ => true end = true → j ≠ JNull → null_free j = true →
  returns (convertMapValue indefinite to_struct elem key j).
Proof.
  intros Hs He Hj Hn. destruct elem as [| | | | | | | |t|k t|t|fs]; cbn; try (by destruct j).
  - by destruct t.
  - pose proof (Hs j Hn). by destruct (to_struct j) as [[v [e|]]|s].
Qed.

Lemma convert_returns t : ∀ cur j, safe t = true → null_free j = true → returns (convertField t false cur j).
Proof.
  induction t as [| | | | | | | |t IH|k t IH|t IH|fields IH] using ty_tree_ind; intros cur j Hs Hj; try apply set_field_returns.
  - cbn in Hs |- *. destruct cur as [| | | | |[v|]| | | |];
      match goal with |- returns (match convertField t false ?c j with _ => _ end) => pose proof (IH c j Hs Hj) as H; by destruct (convertField t false c j) as [[? ?]|] end.
  - cbn in Hs |- *. apply andb_true_iff in Hs as [[Hk Hs]%andb_true_iff He]. subst k. destruct j as [| | | | |m]; try done.
    destruct (map_loop_returns (convertMapValue indefinite (convertField t false (zero t)) t) m) as [[r|e] ->]; [|done..].
    intros k j Hin. apply (null_free_entry m k j Hj) in Hin as [Hn Hf]. apply map_value_returns; try done. intros j' Hj'. by apply IH.
  - cbn in Hs |- *. destruct j as [| | | |l|]; try done. destruct (slice_loop_returns (convertField t false (zero t)) l) as [[r|e] ->]; [|done..].
    intros j Hin. apply IH; [done|]. cbn in Hj. rewrite forallb_forall in Hj. apply Hj. by apply list_elem_of_In.
  - cbn [safe] in Hs. rewrite forallb_forall in Hs. assert (∀ ft, ft ∈ fields → settable ft.1 = true ∧ safe ft.2 = true) as Hall.
    { intros ft Hin%list_elem_of_In. by apply andb_true_iff, Hs. }
    destruct cur as [| | | | | | | |curs|]; try (cbn; by destruct (as_object j)). rewrite convertField_struct.
    assert (∀ m, null_free (JObj m) = true → ∃ r, decode_fields m fields curs = Ret r) as Hd.
    { intros m Hm. apply decode_fields_returns; [done|apply Forall_forall; intros ft Hin; by apply Hall|].
      rewrite Forall_forall in *. intros ft Hin cur' j' Hj'. apply IH; try done. by apply Hall. }
    destruct j as [| | | | |m]; cbn [as_object]; try done; [destruct (Hd [] eq_refl) as [[cs e] ->]; done|destruct (Hd m Hj) as [[cs e] ->]; done].
Qed.

(** Decoding into a safe type a value without null entries returns, with an error or not. *)
Theorem UnmarshalCustom_returns data fields curs :
  safe (TStruct fields) = true → (∀ j, data = Some j → null_free j = true) → ∃ r, UnmarshalCustom data fields curs = Ret r.
Proof.
  intros Hs Hn. unfold UnmarshalCustom. destruct data as [j|]; cbn; [|by eexists]. specialize (Hn j eq_refl).
  pose proof (convert_returns (TStruct fields) (GStruct curs) j Hs Hn) as H. rewrite convertField_struct in H.
  destruct (as_object j) as [m|]; [|by eexists]. destruct (decode_fields m fields curs); [by eexists|done].
Qed.
End roundtrip.

Module Demo.
Definition inner : ty := TStruct [(mkSField (str "N") (str "n") true, TInt64)].
Definition fields : list (sfield * ty) :=
  [(mkSField (str "Id") (str "id") true, TInt); (mkSField (str "Tags") (str "tags,omitempty") true, TSlice TString);
   (mkSField (str "By") (str "by") true, TMap true inner); (mkSField (str "P") (str "p") true, TPtr inner)].
Definition vs : list gov := [GInt 5; GSlice (Some [GStr (str "x")]); GMap (Some [(str "k", GStruct [GInt (-3)])]); GPtr (Some (GStruct [GInt 9]))].

Lemma demo_fits : fits (TStruct fields) (GStruct vs).
Proof.
  repeat first [apply fits_struct|apply fits_int; lia|apply fits_int64; lia|apply fits_slice|apply fits_string|apply fits_map; [exact I|]|apply fits_ptr
    |apply Forall2_cons; split|apply Forall2_nil; exact I|apply Forall_cons; split|apply Forall_nil; exact I|split; [reflexivity|discriminate]
    |apply (bool_decide_unpack _); vm_compute; exact I].
Qed.
End Demo.

Lemma UnmarshalCustom_roundtrip_witness :
  UnmarshalCustom 0 (λ _ _, None) (λ _ _, []) (λ _, []) (Some (encode (TStruct Demo.fields) (GStruct Demo.vs))) Demo.fields ((λ ft, zero ft.2) <$> Demo.fields) = Ret (Demo.vs, None).
Proof. apply (UnmarshalCustom_roundtrip 0 (λ _ _, None) (λ _ _, []) (λ _, []) Demo.fields Demo.vs Demo.demo_fits). Defined.

Lemma UnmarshalCustom_returns_witness : ∃ r,
  UnmarshalCustom 0 (λ _ _, None) (λ _ _, []) (λ _, []) (Some (JObj [(str "id", JStr (str "x"))])) Demo.fields ((λ ft, zero ft.2) <$> Demo.fields) = Ret r.
Proof.
  apply (UnmarshalCustom_returns 0 (λ _ _, None) (λ _ _, []) (λ _, []) (Some (JObj [(str "id", JStr (str "x"))])) Demo.fields); [reflexivity|].
  intros j [= <-]. reflexivity.
Defined.

Lemma map_null_panics_witness : ∃ s, convertField 0 (λ _ _, None) (λ _ _, []) (λ _, []) (TMap true TString) false (GMap None) (JObj [(str "k", JNull)]) = Panic s.
Proof. apply (map_null_panics 0 (λ _ _, None) (λ _ _, []) (λ _, []) TString (str "k") (GMap None) []). left. reflexivity. Defined.

Lemma map_int_refused_witness :
  convertField 0 (λ _ _, None) (λ _ _, []) (λ _, []) (TMap true TInt) false (GMap None) (JObj [(str "k", JNum (f64_of_Z 1))]) = Ret (GMap None, Some (MapType (str "k"))).
Proof. apply (map_int_refused 0 (λ _ _, None) (λ _ _, []) (λ _, []) TInt (str "k") (f64_of_Z 1) (GMap None) []). left. reflexivity. Defined.

Lemma null_pointer_refused_witness :
  convertField 0 (λ _ _, None) (λ _ _, []) (λ _, []) (TPtr TInt) false (GPtr None) JNull = Ret (GPtr (Some (GInt 0)), Some NotParsed).
Proof. apply (null_pointer_refused 0 (λ _ _, None) (λ _ _, []) (λ _, []) TInt). left. reflexivity. Defined.

End JsonCustom.
