(* ===== verification/Unicode.v ===== *)
(** * Unicode helpers ([src/utils/encoding/unicode.go])

    UTF-8 and UTF-16 as the Go library decodes and encodes them, on lists of bytes and of
    16-bit units, and the helpers that repair, strip and convert text. Normal forms and
    Latin-1 are calls of a third-party package and left out. *)

From Stdlib Require Import ZArith Lia.
From stdpp Require Import base list.
From S2P Require Import Prelude Collections.
Local Open Scope Z_scope.

Module Unicode.

(** ** UTF-8 *)

Definition RuneError : Z := 65533.

Definition in_range (lo hi b : Z) : bool := (lo <=? b) && (b <=? hi).
Definition cont : Z → bool := in_range 128 191.

(** The second byte allowed after a first byte of three or four. *)
Definition second3 (b0 : Z) : Z → bool := in_range (if b0 =? 224 then 160 else 128) (if b0 =? 237 then 159 else 191).
Definition second4 (b0 : Z) : Z → bool := in_range (if b0 =? 240 then 144 else 128) (if b0 =? 244 then 143 else 191).

(** [utf8.DecodeRune]: the rune and its width; an error has width one, or none at the end. *)
Definition DecodeRune (p : list Z) : Z * nat :=
  match p with
  | [] => (RuneError, 0%nat)
  | b0 :: p =>
      if b0 <? 128 then (b0, 1%nat)
      else if in_range 194 223 b0 then
        match p with
        | b1 :: _ => if cont b1 then ((b0 - 192) * 64 + (b1 - 128), 2%nat) else (RuneError, 1%nat)
        | _ => (RuneError, 1%nat)
        end
      else if in_range 224 239 b0 then
        match p with
        | b1 :: b2 :: _ =>
            if second3 b0 b1 && cont b2 then ((b0 - 224) * 4096 + (b1 - 128) * 64 + (b2 - 128), 3%nat) else (RuneError, 1%nat)
        | _ => (RuneError, 1%nat)
        end
      else if in_range 240 244 b0 then
        match p with
        | b1 :: b2 :: b3 :: _ =>
            if second4 b0 b1 && cont b2 && cont b3
            then ((b0 - 240) * 262144 + (b1 - 128) * 4096 + (b2 - 128) * 64 + (b3 - 128), 4%nat) else (RuneError, 1%nat)
        | _ => (RuneError, 1%nat)
        end
      else (RuneError, 1%nat)
  end.

Definition surrogate (r : Z) : bool := in_range 55296 57343 r.
Definition valid_rune (r : Z) : bool := in_range 0 1114111 r && negb (surrogate r).

(** [utf8.AppendRune]: a rune that is none is written as the replacement character. *)
Definition EncodeRune (r : Z) : list Z :=
  let r := if valid_rune r then r else RuneError in
  if r <? 128 then [r]
  else if r <? 2048 then [192 + r / 64; 128 + r mod 64]
  else if r <? 65536 then [224 + r / 4096; 128 + (r / 64) mod 64; 128 + r mod 64]
  else [240 + r / 262144; 128 + (r / 4096) mod 64; 128 + (r / 64) mod 64; 128 + r mod 64].

(** An encoding error: the replacement character with width one. *)
Definition broken (rn : Z * nat) : bool := (rn.1 =? RuneError) && (rn.2 =? 1)%nat.

(** [range] over a string: its runes, an error for a byte that starts none. *)
Fixpoint runes_loop (fuel : nat) (p : list Z) : list Z :=
  match fuel, p with
  | O, _ | _, [] => []
  | S fuel, p => let '(r, n) := DecodeRune p in r :: runes_loop fuel (drop n p)
  end.
Definition runes (p : list Z) : list Z := runes_loop (length p) p.
Definition string_of_runes (rs : list Z) : list Z := List.concat (EncodeRune <$> rs).

Fixpoint valid_loop (fuel : nat) (p : list Z) : bool :=
  match fuel, p with
  | _, [] => true
  | O, _ => false
  | S fuel, p => let rn := DecodeRune p in negb (broken rn) && valid_loop fuel (drop rn.2 p)
  end.
Definition IsValidUTF8 (data : list Z) : bool := valid_loop (length data) data.

Fixpoint fix_loop (fuel : nat) (data : list Z) : list Z :=
  match fuel, data with
  | O, _ | _, [] => []
  | S fuel, data =>
      let '(r, size) := DecodeRune data in
      if (r =? RuneError) && (size =? 1)%nat then EncodeRune RuneError ++ fix_loop fuel (drop 1 data)
      else EncodeRune r ++ fix_loop fuel (drop size data)
  end.
Definition FixUTF8 (data : list Z) : list Z := fix_loop (length data) data.

Definition ConvertToValidUTF8String (data : list Z) : list Z := if IsValidUTF8 data then data else FixUTF8 data.

Definition CountUnicodeCharacters (s : list Z) : Z := Z.of_nat (length (runes s)).

Fixpoint strip_loop (fuel : nat) (data : list Z) : list Z :=
  match fuel, data with
  | O, _ | _, [] => []
  | S fuel, data =>
      let '(r, size) := DecodeRune data in
      if (r =? RuneError) && (size =? 1)%nat then strip_loop fuel (drop 1 data)
      else EncodeRune r ++ strip_loop fuel (drop size data)
  end.
Definition StripInvalidUTF8 (data : list Z) : list Z := strip_loop (length data) data.

(** ** UTF-16 *)

Definition utf16_encode_rune (r : Z) : list Z :=
  if (in_range 0 55295 r) || (in_range 57344 65535 r) then [r]
  else if in_range 65536 1114111 r then [55296 + (r - 65536) / 1024; 56320 + (r - 65536) mod 1024]
  else [RuneError].
Definition utf16_Encode (rs : list Z) : list Z := List.concat (utf16_encode_rune <$> rs).

Fixpoint utf16_Decode (us : list Z) : list Z :=
  match us with
  | [] => []
  | u :: us' =>
      if (u <? 55296) || (57344 <=? u) then u :: utf16_Decode us'
      else if u <? 56320 then
        match us' with
        | v :: us'' =>
            if (56320 <=? v) && (v <? 57344) then ((u - 55296) * 1024 + (v - 56320) + 65536) :: utf16_Decode us''
            else RuneError :: utf16_Decode us'
        | [] => [RuneError]
        end
      else RuneError :: utf16_Decode us'
  end.

Definition ConvertUTF8ToUTF16 (s : list Z) : list Z := utf16_Encode (runes s).
Definition ConvertUTF16ToUTF8 (u16 : list Z) : list Z := string_of_runes (utf16_Decode u16).

Inductive bom : Type := LE | BE | NoBOM.

Definition DetectUTF16BOM (data : list Z) : bom :=
  match data with
  | b0 :: b1 :: _ => if (b0 =? 255) && (b1 =? 254) then LE else if (b0 =? 254) && (b1 =? 255) then BE else NoBOM
  | _ => NoBOM
  end.

Inductive utf16_error : Type := OddLength | MissingBOM.

(** The units of pairs of bytes, swapped for big endian. *)
Fixpoint units (swap : bool) (data : list Z) : list Z :=
  match data with
  | a :: b :: data => (if swap then Z.lor b (Z.shiftl a 8) else Z.lor a (Z.shiftl b 8)) :: units swap data
  | _ => []
  end.

Definition ConvertUTF16BytesToUTF8 (data : list Z) : result utf16_error (list Z) :=
  if negb (Nat.even (length data)) then Err OddLength
  else match DetectUTF16BOM data with
  | LE => Ok (ConvertUTF16ToUTF8 (units false (drop 2 data)))
  | BE => Ok (ConvertUTF16ToUTF8 (units true (drop 2 data)))
  | NoBOM => Err MissingBOM
  end.

(** ** Properties of UTF-8 *)

Ltac ranges := unfold valid_rune, surrogate, second3, second4, cont, in_range, RuneError in *.

(** Bytes and code points by cases on their comparisons. *)
Ltac bool_cases :=
  repeat match goal with
  | |- context [?a =? ?b] => destruct (Z.eqb_spec a b); cbn [andb orb negb]; try lia
  | |- context [?a <? ?b] => destruct (Z.ltb_spec a b); cbn [andb orb negb]; try lia
  | |- context [?a <=? ?b] => destruct (Z.leb_spec a b); cbn [andb orb negb]; try lia
  end.

Lemma valid_rune_spec r : valid_rune r = true ↔ 0 <= r <= 1114111 ∧ ~ (55296 <= r <= 57343).
Proof. ranges. rewrite andb_true_iff, negb_true_iff, andb_true_iff, andb_false_iff, !Z.leb_le, !Z.leb_gt. lia. Qed.

Lemma RuneError_valid : valid_rune RuneError = true.
Proof. reflexivity. Qed.

Lemma EncodeRune_length r : (1 <= length (EncodeRune r) <= 4)%nat.
Proof. unfold EncodeRune. repeat case_match; cbn; lia. Qed.

(** Decoding what was encoded, whatever follows. *)
Lemma decode_encode_rune r rest : valid_rune r = true → DecodeRune (EncodeRune r ++ rest) = (r, length (EncodeRune r)).
Proof.
  intros Hv. unfold EncodeRune. rewrite Hv. apply valid_rune_spec in Hv. destruct (Z.ltb_spec r 128) as [H1|H1].
  { cbn [app DecodeRune length]. destruct (Z.ltb_spec r 128); [done|lia]. }
  destruct (Z.ltb_spec r 2048) as [H2|H2].
  { cbn [app DecodeRune length]. ranges. Z.div_mod_to_equations. bool_cases. f_equal. lia. }
  destruct (Z.ltb_spec r 65536) as [H3|H3].
  { cbn [app DecodeRune length]. ranges. Z.div_mod_to_equations. bool_cases; try (f_equal; lia). }
  cbn [app DecodeRune length]. ranges. Z.div_mod_to_equations. bool_cases; try (f_equal; lia).
Qed.

Definition bytes (p : list Z) : Prop := Forall (λ b, 0 <= b <= 255) p.

Lemma encode2 r a b : 128 <= r < 2048 → a = 192 + r / 64 → b = 128 + r mod 64 → EncodeRune r = [a; b].
Proof.
  intros Hr -> ->. unfold EncodeRune. rewrite (proj2 (valid_rune_spec r)) by lia.
  destruct (Z.ltb_spec r 128); [lia|]. destruct (Z.ltb_spec r 2048); [done|lia].
Qed.

Lemma encode3 r a b c : 2048 <= r < 65536 → ~ (55296 <= r <= 57343) → a = 224 + r / 4096 → b = 128 + (r / 64) mod 64 → c = 128 + r mod 64 →
  EncodeRune r = [a; b; c].
Proof.
  intros Hr Hs -> -> ->. unfold EncodeRune. rewrite (proj2 (valid_rune_spec r)) by lia.
  destruct (Z.ltb_spec r 128); [lia|]. destruct (Z.ltb_spec r 2048); [lia|]. destruct (Z.ltb_spec r 65536); [done|lia].
Qed.

Lemma encode4 r a b c d : 65536 <= r <= 1114111 → a = 240 + r / 262144 → b = 128 + (r / 4096) mod 64 → c = 128 + (r / 64) mod 64 → d = 128 + r mod 64 →
  EncodeRune r = [a; b; c; d].
Proof.
  intros Hr -> -> -> ->. unfold EncodeRune. rewrite (proj2 (valid_rune_spec r)) by lia.
  destruct (Z.ltb_spec r 128); [lia|]. destruct (Z.ltb_spec r 2048); [lia|]. destruct (Z.ltb_spec r 65536); [lia|done].
Qed.

(** What is decoded at the start of a text: an error of width one, or a rune, and then the
    text starts with the encoding of that rune and no other. *)
Definition decoded (p : list Z) (rn : Z * nat) : Prop :=
  rn = (RuneError, 1%nat) ∨ (valid_rune rn.1 = true ∧ rn.2 = length (EncodeRune rn.1) ∧ take rn.2 p = EncodeRune rn.1).

Lemma decoded_ok p r : valid_rune r = true → take (length (EncodeRune r)) p = EncodeRune r → decoded p (r, length (EncodeRune r)).
Proof. intros Hv Ht. right. done. Qed.

Lemma in_range_spec lo hi b : in_range lo hi b = true ↔ lo <= b <= hi.
Proof. unfold in_range. rewrite andb_true_iff, !Z.leb_le. done. Qed.

Lemma decode_sound p : bytes p → p ≠ [] → decoded p (DecodeRune p).
Proof.
  intros Hb Hne. destruct p as [|b0 p]; [done|]. apply Forall_cons in Hb as [H0 Hb]. cbn [DecodeRune].
  destruct (Z.ltb_spec b0 128) as [Hlt|Hge].
  { right. cbn. assert (EncodeRune b0 = [b0]) as ->; [|split; [apply valid_rune_spec; lia|done]].
    unfold EncodeRune. rewrite (proj2 (valid_rune_spec b0)) by lia. destruct (Z.ltb_spec b0 128); [done|lia]. }
  destruct (in_range 194 223 b0) eqn:E2.
  { apply in_range_spec in E2. destruct p as [|b1 p]; [by left|]. destruct (cont b1) eqn:C1; [|by left]. apply in_range_spec in C1.
    right. cbn [fst snd]. assert (EncodeRune ((b0 - 192) * 64 + (b1 - 128)) = [b0; b1]) as ->; [|split; [apply valid_rune_spec; lia|done]].
    apply encode2; Z.div_mod_to_equations; lia. }
  destruct (in_range 224 239 b0) eqn:E3.
  { apply in_range_spec in E3. destruct p as [|b1 [|b2 p]]; [by left..|]. destruct (second3 b0 b1 && cont b2) eqn:C; [|by left].
    apply andb_true_iff in C as [C1 C2]. unfold second3, cont in C1, C2. apply in_range_spec in C1, C2.
    assert (2048 <= (b0 - 224) * 4096 + (b1 - 128) * 64 + (b2 - 128) < 65536 ∧ ~ (55296 <= (b0 - 224) * 4096 + (b1 - 128) * 64 + (b2 - 128) <= 57343)) as [Hr Hs].
    { destruct (Z.eqb_spec b0 224), (Z.eqb_spec b0 237); lia. }
    assert (128 <= b1 <= 191) as C1' by (destruct (Z.eqb_spec b0 224), (Z.eqb_spec b0 237); lia). clear C1.
    right. cbn [fst snd]. assert (EncodeRune ((b0 - 224) * 4096 + (b1 - 128) * 64 + (b2 - 128)) = [b0; b1; b2]) as ->; [|split; [apply valid_rune_spec; lia|done]].
    apply encode3; [done|done|..]; Z.div_mod_to_equations; lia. }
  destruct (in_range 240 244 b0) eqn:E4; [|by left].
  apply in_range_spec in E4. destruct p as [|b1 [|b2 [|b3 p]]]; [by left..|]. destruct (second4 b0 b1 && cont b2 && cont b3) eqn:C; [|by left].
  apply andb_true_iff in C as [[C1 C2]%andb_true_iff C3]. unfold second4, cont in C1, C2, C3. apply in_range_spec in C1, C2, C3.
  assert (65536 <= (b0 - 240) * 262144 + (b1 - 128) * 4096 + (b2 - 128) * 64 + (b3 - 128) <= 1114111) as Hr
    by (destruct (Z.eqb_spec b0 240), (Z.eqb_spec b0 244); lia).
  assert (128 <= b1 <= 191) as C1' by (destruct (Z.eqb_spec b0 240), (Z.eqb_spec b0 244); lia). clear C1.
  right. cbn [fst snd]. assert (EncodeRune ((b0 - 240) * 262144 + (b1 - 128) * 4096 + (b2 - 128) * 64 + (b3 - 128)) = [b0; b1; b2; b3]) as ->;
    [|split; [apply valid_rune_spec; lia|done]].
  apply encode4; [done|..]; Z.div_mod_to_equations; lia.
Qed.

(** ** Texts as runes and stray bytes *)

(** How a text is cut: a rune where one is encoded, a stray byte elsewhere. *)
Inductive cut : list Z → list (option Z) → Prop :=
  | cut_nil : cut [] []
  | cut_rune r p cs : valid_rune r = true → cut p cs → cut (EncodeRune r ++ p) (Some r :: cs)
  | cut_stray b p cs : DecodeRune (b :: p) = (RuneError, 1%nat) → cut p cs → cut (b :: p) (None :: cs).

Lemma bytes_drop n p : bytes p → bytes (drop n p).
Proof. apply Forall_drop. Qed.

Lemma cut_exists p : bytes p → ∃ cs, cut p cs.
Proof.
  remember (length p) as n eqn:Hn. revert p Hn. induction (lt_wf n) as [n _ IH]. intros p -> Hb. destruct p as [|b p]; [exists []; constructor|].
  destruct (decode_sound (b :: p) Hb ltac:(done)) as [E|(Hv & Hn & Ht)].
  - apply Forall_cons in Hb as [_ Hb]. destruct (IH (length p) ltac:(cbn; lia) p eq_refl Hb) as [cs Hcs]. exists (None :: cs). by apply cut_stray.
  - set (r := (DecodeRune (b :: p)).1) in *. rewrite Hn in Ht. pose proof (EncodeRune_length r) as Hl.
    destruct (IH (length (drop (length (EncodeRune r)) (b :: p))) ltac:(rewrite length_drop; cbn in *; lia) _ eq_refl (Forall_drop _ _ _ Hb)) as [cs Hcs].
    exists (Some r :: cs). rewrite <- (take_drop (length (EncodeRune r)) (b :: p)), Ht. by apply cut_rune.
Qed.

Lemma not_broken r : valid_rune r = true → broken (r, length (EncodeRune r)) = false.
Proof. intros Hv. unfold broken. cbn. destruct (Z.eqb_spec r RuneError) as [->|?]; [reflexivity|done]. Qed.

(** The four loops read the cut of a text, whatever fuel of at least its length they have. *)
Lemma loops_cut p cs : cut p cs → ∀ fuel, (length p <= fuel)%nat →
  runes_loop fuel p = default RuneError <$> cs ∧
  valid_loop fuel p = forallb (λ c, bool_decide (is_Some c)) cs ∧
  fix_loop fuel p = string_of_runes (default RuneError <$> cs) ∧
  strip_loop fuel p = string_of_runes (omap id cs).
Proof.
  induction 1 as [|r p cs Hv _ IH|b p cs Hd _ IH]; intros fuel Hf; [by destruct fuel| |].
  - pose proof (EncodeRune_length r) as Hl. rewrite length_app in Hf. destruct fuel as [|fuel]; [lia|]. destruct (IH fuel ltac:(lia)) as (H1 & H2 & H3 & H4).
    pose proof (decode_encode_rune r p Hv) as Hdec. pose proof (not_broken r Hv) as Hnb. unfold broken in Hnb. cbn [fst snd] in Hnb.
    assert (∃ b q, EncodeRune r ++ p = b :: q) as (b & q & Eq) by (destruct (EncodeRune r); [cbn in Hl; lia|by do 2 eexists]).
    assert (drop (length (EncodeRune r)) (b :: q) = p) as Hdrop by (rewrite <- Eq; by rewrite drop_app_length). rewrite Eq in Hdec |- *.
    cbn [runes_loop valid_loop fix_loop strip_loop]. rewrite Hdec. unfold broken. cbn [fst snd]. rewrite Hnb, Hdrop, H1, H2, H3, H4. done.
  - cbn in Hf. destruct fuel as [|fuel]; [lia|]. destruct (IH fuel ltac:(lia)) as (H1 & H2 & H3 & H4).
    cbn [runes_loop valid_loop fix_loop strip_loop]. rewrite Hd. unfold broken. cbn [fst snd Nat.eqb]. rewrite Z.eqb_refl. cbn [andb negb]. change (drop 1 (b :: p)) with p.
    rewrite H1, H3, H4. done.
Qed.

Lemma cut_runes rs : Forall (λ r, valid_rune r = true) rs → cut (string_of_runes rs) (Some <$> rs).
Proof. induction 1 as [|r rs Hr _ IH]; cbn; [constructor|]. by apply cut_rune. Qed.

Lemma cut_valid p cs : cut p cs → Forall (λ r, valid_rune r = true) (default RuneError <$> cs) ∧ Forall (λ r, valid_rune r = true) (omap id cs).
Proof. induction 1 as [|r p cs Hv _ [IH1 IH2]|b p cs _ _ [IH1 IH2]]; cbn; [by split|split; by constructor|split; [by constructor|done]]. Qed.

Lemma cut_all_runes p cs : cut p cs → forallb (λ c, bool_decide (is_Some c)) cs = true → p = string_of_runes (default RuneError <$> cs) ∧ p = string_of_runes (omap id cs).
Proof.
  induction 1 as [|r p cs Hv _ IH|b p cs _ _ IH]; cbn; [done| |done]. intros H. destruct (IH H) as [E1 E2]. split; [by rewrite E1 at 1|by rewrite E2 at 1].
Qed.

Lemma valid_string rs : Forall (λ r, valid_rune r = true) rs → IsValidUTF8 (string_of_runes rs) = true.
Proof.
  intros Hr. unfold IsValidUTF8. destruct (loops_cut _ _ (cut_runes rs Hr) _ (reflexivity _)) as (_ & -> & _). clear Hr. by induction rs.
Qed.

(** A text is valid exactly when it is the encoding of a list of runes, which is then what
    decoding gives. *)
Theorem IsValidUTF8_spec p : bytes p →
  IsValidUTF8 p = true ↔ (Forall (λ r, valid_rune r = true) (runes p) ∧ p = string_of_runes (runes p)).
Proof.
  intros Hb. destruct (cut_exists p Hb) as [cs Hc]. destruct (loops_cut p cs Hc (length p) (reflexivity _)) as (Hr & Hv & _).
  unfold IsValidUTF8, runes. rewrite Hr. split.
  - intros E. rewrite Hv in E. split; [apply (cut_valid p cs Hc)|apply (cut_all_runes p cs Hc E)].
  - intros [Hall E]. rewrite E at 1 2. apply (valid_string _ Hall).
Qed.

(** Repairing and stripping always give valid text and leave valid text alone; repairing
    puts one replacement character for every stray byte and keeps the number of
    characters, stripping removes exactly those. *)
Theorem FixUTF8_spec p : bytes p →
  IsValidUTF8 (FixUTF8 p) = true ∧ IsValidUTF8 (StripInvalidUTF8 p) = true ∧
  (IsValidUTF8 p = true → FixUTF8 p = p ∧ StripInvalidUTF8 p = p) ∧
  ConvertToValidUTF8String p = FixUTF8 p ∧ CountUnicodeCharacters (FixUTF8 p) = CountUnicodeCharacters p ∧
  ∃ cs, cut p cs ∧ FixUTF8 p = string_of_runes (default RuneError <$> cs) ∧ StripInvalidUTF8 p = string_of_runes (omap id cs).
Proof.
  intros Hb. destruct (cut_exists p Hb) as [cs Hc]. destruct (loops_cut p cs Hc (length p) (reflexivity _)) as (Hr & Hv & Hf & Hs).
  destruct (cut_valid p cs Hc) as [V1 V2]. fold (FixUTF8 p) in Hf. fold (StripInvalidUTF8 p) in Hs. fold (IsValidUTF8 p) in Hv. fold (runes p) in Hr.
  assert (IsValidUTF8 p = true → FixUTF8 p = p ∧ StripInvalidUTF8 p = p) as Hid.
  { intros E. rewrite Hv in E. destruct (cut_all_runes p cs Hc E) as [E1 E2]. by rewrite Hf, Hs, <- E1, <- E2. }
  split_and!; [rewrite Hf; by apply valid_string|rewrite Hs; by apply valid_string|done| | |by exists cs].
  - unfold ConvertToValidUTF8String. destruct (IsValidUTF8 p); [by destruct (Hid eq_refl) as [-> _]|done].
  - unfold CountUnicodeCharacters. rewrite Hf, Hr. destruct (loops_cut _ _ (cut_runes _ V1) _ (reflexivity _)) as (E & _). fold (runes (string_of_runes (default RuneError <$> cs))) in E.
    rewrite E. by rewrite !length_fmap.
Qed.

(** ** Properties of UTF-16 *)

Lemma utf16_decode_encode rs : Forall (λ r, valid_rune r = true) rs → utf16_Decode (utf16_Encode rs) = rs.
Proof.
  induction 1 as [|r rs Hr _ IH]; [done|]. apply valid_rune_spec in Hr. unfold utf16_Encode in *. cbn [fmap list_fmap List.concat].
  unfold utf16_encode_rune at 1. destruct (in_range 0 55295 r || in_range 57344 65535 r) eqn:E1.
  - cbn [app utf16_Decode]. assert ((r <? 55296) || (57344 <=? r) = true) as ->; [|by rewrite IH].
    apply orb_true_iff. rewrite Z.ltb_lt, Z.leb_le. apply orb_true_iff in E1 as [E1|E1]; apply in_range_spec in E1; lia.
  - apply orb_false_iff in E1 as [E1 E2]. apply not_true_iff_false in E1, E2. rewrite in_range_spec in E1, E2.
    rewrite (proj2 (in_range_spec 65536 1114111 r)) by lia. cbn [app utf16_Decode].
    assert (0 <= (r - 65536) / 1024 <= 1023 ∧ 0 <= (r - 65536) mod 1024 <= 1023 ∧ r - 65536 = (r - 65536) / 1024 * 1024 + (r - 65536) mod 1024) as (H1 & H2 & H3)
      by (Z.div_mod_to_equations; lia).
    assert ((55296 + (r - 65536) / 1024 <? 55296) || (57344 <=? 55296 + (r - 65536) / 1024) = false) as ->
      by (apply orb_false_iff; rewrite Z.ltb_ge, Z.leb_gt; lia).
    rewrite (proj2 (Z.ltb_lt (55296 + (r - 65536) / 1024) 56320)) by lia.
    assert ((56320 <=? 56320 + (r - 65536) mod 1024) && (56320 + (r - 65536) mod 1024 <? 57344) = true) as ->
      by (apply andb_true_iff; rewrite Z.leb_le, Z.ltb_lt; lia).
    rewrite IH. f_equal. lia.
Qed.

(** Valid text survives UTF-16. *)
Theorem utf16_roundtrip s : bytes s → IsValidUTF8 s = true → ConvertUTF16ToUTF8 (ConvertUTF8ToUTF16 s) = s.
Proof.
  intros Hb Hv. destruct (cut_exists s Hb) as [cs Hc]. destruct (loops_cut s cs Hc (length s) (reflexivity _)) as (Hr & Hvl & _).
  fold (IsValidUTF8 s) in Hvl. fold (runes s) in Hr. rewrite Hvl in Hv. unfold ConvertUTF16ToUTF8, ConvertUTF8ToUTF16. rewrite Hr.
  rewrite utf16_decode_encode by apply (cut_valid s cs Hc). symmetry. apply (cut_all_runes s cs Hc Hv).
Qed.

(** The bytes of units, little or big endian. *)
Definition unit_bytes (swap : bool) (u : Z) : list Z := if swap then [u / 256; u mod 256] else [u mod 256; u / 256].
Definition units_bytes (swap : bool) (us : list Z) : list Z := List.concat (unit_bytes swap <$> us).

Lemma units_of_bytes swap us : Forall (λ u, 0 <= u < 65536) us → units swap (units_bytes swap us) = us ∧ Nat.even (length (units_bytes swap us)) = true.
Proof.
  induction 1 as [|u us Hu _ [IH1 IH2]]; [done|]. assert (0 <= u mod 256 < 256 ∧ 0 <= u / 256 ∧ u = u mod 256 + u / 256 * 256) as (H1 & H2 & H3) by (Z.div_mod_to_equations; lia).
  unfold units_bytes in *. destruct swap; cbn [fmap list_fmap List.concat unit_bytes app units length Nat.even].
  - rewrite IH1, Z.lor_comm, lor_shiftl_add by lia. split; [f_equal; lia|done].
  - rewrite IH1, Z.lor_comm, lor_shiftl_add by lia. split; [f_equal; lia|done].
Qed.

Lemma utf16_units rs : Forall (λ u, 0 <= u < 65536) (utf16_Encode rs).
Proof.
  induction rs as [|r rs IH]; [constructor|]. unfold utf16_Encode in *. cbn [fmap list_fmap List.concat]. apply Forall_app. split; [|done]. unfold utf16_encode_rune.
  destruct (in_range 0 55295 r || in_range 57344 65535 r) eqn:E1; [|destruct (in_range 65536 1114111 r) eqn:E2].
  - apply Forall_singleton. apply orb_true_iff in E1 as [E1|E1]; apply in_range_spec in E1; lia.
  - apply in_range_spec in E2. repeat constructor; Z.div_mod_to_equations; lia.
  - apply Forall_singleton. unfold RuneError. lia.
Qed.

(** The bytes of the UTF-16 form of a valid text, with a mark of either byte order before
    them, convert to the text; without a mark, or with an odd number, they are refused. *)
Theorem utf16_bytes_roundtrip s (swap : bool) : bytes s → IsValidUTF8 s = true →
  ConvertUTF16BytesToUTF8 ((if swap then [254; 255] else [255; 254]) ++ units_bytes swap (ConvertUTF8ToUTF16 s)) = Ok s.
Proof.
  intros Hb Hv. destruct (cut_exists s Hb) as [cs Hc]. destruct (loops_cut s cs Hc (length s) (reflexivity _)) as (Hr & Hvl & _).
  fold (IsValidUTF8 s) in Hvl. fold (runes s) in Hr. rewrite Hvl in Hv.
  assert (ConvertUTF16ToUTF8 (ConvertUTF8ToUTF16 s) = s) as Hs.
  { unfold ConvertUTF16ToUTF8, ConvertUTF8ToUTF16. rewrite Hr, utf16_decode_encode by apply (cut_valid s cs Hc). symmetry. apply (cut_all_runes s cs Hc Hv). }
  destruct (units_of_bytes swap (ConvertUTF8ToUTF16 s) (utf16_units _)) as [Hu He]. unfold ConvertUTF16BytesToUTF8. rewrite length_app.
  destruct swap; cbn [length Nat.add Nat.even app]; rewrite He; cbn [negb DetectUTF16BOM Z.eqb Pos.eqb andb]; rewrite <- Hs at 2; rewrite <- Hu at 2; reflexivity.
Qed.

Definition demo : list Z := [65; 226; 130; 172; 240; 159; 152; 128].

Lemma demo_bytes : bytes demo.
Proof. repeat constructor; lia. Qed.

Lemma IsValidUTF8_spec_witness : IsValidUTF8 demo = true ∧ runes demo = [65; 8364; 128512] ∧ demo = string_of_runes (runes demo).
Proof. split; [reflexivity|]. split; [reflexivity|]. apply (IsValidUTF8_spec demo demo_bytes). reflexivity. Defined.

Lemma FixUTF8_spec_witness : FixUTF8 [65; 255; 226; 130] = [65; 239; 191; 189; 239; 191; 189; 239; 191; 189] ∧ IsValidUTF8 (FixUTF8 [65; 255; 226; 130]) = true.
Proof. split; [reflexivity|]. apply (FixUTF8_spec [65; 255; 226; 130]). repeat constructor; lia. Defined.

Lemma utf16_roundtrip_witness : ConvertUTF16ToUTF8 (ConvertUTF8ToUTF16 demo) = demo ∧ ConvertUTF8ToUTF16 demo = [65; 8364; 55357; 56832].
Proof. split; [apply (utf16_roundtrip demo demo_bytes eq_refl)|reflexivity]. Defined.

Lemma utf16_bytes_roundtrip_witness : ConvertUTF16BytesToUTF8 ([254; 255] ++ [0; 65; 32; 172; 216; 61; 222; 0]) = Ok demo.
Proof. exact (utf16_bytes_roundtrip demo true demo_bytes eq_refl). Defined.

End Unicode.
