(* ===== verification/RestUrl.v ===== *)
(** * URL and address helpers ([src/utils/rest/{httpurls,ip_utils}.go])

    Query strings and path segments over the encoding of [Url.v], with [url.Values.Encode]
    and [url.ParseQuery]; private ranges, versions and masks of IP addresses. Parsing and
    printing an address are parameters: an address is the sixteen bytes [net.ParseIP]
    gives. *)

From Stdlib Require Import ZArith Lia Ascii.
From stdpp Require Import base gmap list strings pretty.
From S2P Require Import Prelude SqlText Url.
Local Open Scope Z_scope.

Module RestUrl.
Import Url.

(** ** Query strings *)

Definition amp : ascii := char 38.
Definition semicolon : ascii := char 59.
Definition equals : ascii := char 61.
Definition plus : ascii := char 43.

(** [url.QueryUnescape]: a plus sign is a space. *)
Definition QueryUnescape (s : text) : option text := unescape ((λ c, if Ascii.eqb c plus then char_space else c) <$> s).

Definition pair_text (k v : text) : text := QueryEscape k ++ equals :: QueryEscape v.

(** [url.Values.Encode] of a map with one value for each key: sorted by key. *)
Definition Encode (m : gmap text text) : text :=
  Join ((λ k, pair_text k (default [] (m !! k))) <$> Strings (map_to_list m).*1) [amp].

(** [strings.Cut] at a byte. *)
Fixpoint Cut (s : text) (sep : ascii) : text * option text :=
  match s with
  | [] => ([], None)
  | c :: s => if Ascii.eqb c sep then ([], Some s) else let '(a, b) := Cut s sep in (c :: a, b)
  end.

(** One part of a query: nothing, an error, or a key and a value. *)
Definition parse_part (part : text) : option (option (text * text)) :=
  if one_of part semicolon then None
  else if decide (part = []) then Some None
  else
    let '(k, v) := Cut part equals in
    match QueryUnescape k, QueryUnescape (default [] v) with
    | Some k, Some v => Some (Some (k, v))
    | _, _ => None
    end.

(** [url.ParseQuery]: the values of each key in order; an error of any part is an error, though the others are kept. *)
Fixpoint parse_parts (parts : list text) (m : gmap text (list text)) : gmap text (list text) * bool :=
  match parts with
  | [] => (m, true)
  | part :: parts =>
      match parse_part part with
      | None => ((parse_parts parts m).1, false)
      | Some None => parse_parts parts m
      | Some (Some (k, v)) => parse_parts parts (<[k := default [] (m !! k) ++ [v]]> m)
      end
  end.
Definition url_ParseQuery (query : text) : option (gmap text (list text)) :=
  match parse_parts (Split query amp) ∅ with
  | (m, true) => Some m
  | _ => None
  end.

(** ** The helpers *)

Definition EncodePathSegment (segment : text) : text := PathEscape segment.
Definition DecodePathSegment (segment : text) : option text := unescape segment.

Definition BuildQuery (params : gmap text text) : text := Encode (map_fold (λ k v values, <[k := v]> values) ∅ params).

Definition ParseQuery (query : text) : option (gmap text text) :=
  match url_ParseQuery query with
  | None => None
  | Some values => Some (omap (λ v, head v) values)
  end.

(** [parse] is [url.Parse] and [print] its inverse; [ParseRequestURI] gives the scheme and
    the host. *)
Definition NormalizeURL {U : Type} (parse : text → option U) (drop_fragment : U → U) (print : U → text) (raw : text) : option text :=
  match parse raw with
  | None => None
  | Some u => Some (print (drop_fragment u))
  end.

Definition IsValidURL (ParseRequestURI : text → option (text * text)) (raw : text) : bool :=
  match ParseRequestURI raw with
  | Some (scheme, host) => bool_decide (scheme ≠ []) && bool_decide (host ≠ [])
  | None => false
  end.

(** ** Addresses *)

(** [IP.To4] *)
Definition To4 (ip : list Z) : option (list Z) :=
  if bool_decide (length ip = 4%nat) then Some ip
  else if bool_decide (length ip = 16%nat) && bool_decide (take 12 ip = replicate 10 0 ++ [255; 255]) then Some (drop 12 ip)
  else None.

Record IPNet : Type := mkNet { net_IP : list Z; net_Mask : list Z }.

(** [IPNet.Contains] *)
Definition Contains (n : IPNet) (ip : list Z) : bool :=
  let ip := default ip (To4 ip) in
  bool_decide (length ip = length (net_IP n)) &&
  forallb (λ '(nn, (m, x)), Z.land nn m =? Z.land x m) (zip (net_IP n) (zip (net_Mask n) ip)).

Definition privateBlocks : list IPNet :=
  [mkNet [10; 0; 0; 0] [255; 0; 0; 0]; mkNet [172; 16; 0; 0] [255; 240; 0; 0]; mkNet [192; 168; 0; 0] [255; 255; 0; 0];
   mkNet (252 :: replicate 15 0) (254 :: replicate 15 0)].

Section parse.
Context (parseIP : text → option (list Z)) (print : list Z → text).

Definition IsPrivateIP (ipStr : text) : bool :=
  match parseIP ipStr with
  | None => false
  | Some ip => existsb (λ block, Contains block ip) privateBlocks
  end.

Definition NormalizeIP (ip : text) : text :=
  match parseIP (TrimSpace ip) with
  | None => []
  | Some parsed => print parsed
  end.

Definition IsValidIP (ipStr : text) : bool := bool_decide (is_Some (parseIP ipStr)).

Definition GetIPVersion (ipStr : text) : Z :=
  match parseIP ipStr with
  | None => 0
  | Some ip => match To4 ip with Some _ => 4 | None => 6 end
  end.

(** Lower-case hexadecimal without leading zeros. *)
Definition hex_digit (n : Z) : ascii := nth (Z.to_nat n) (str "0123456789abcdef") (char 48).
Fixpoint hex_loop (fuel : nat) (n : Z) (acc : text) : text :=
  match fuel with
  | O => acc
  | S fuel => if n =? 0 then acc else hex_loop fuel (n / 16) (hex_digit (n mod 16) :: acc)
  end.
Definition hex (n : Z) : text := if n =? 0 then str "0" else hex_loop 16 n [].

Definition byte_at (ip : list Z) (i : nat) : Z := default 0 (ip !! i).

Definition MaskIP (ipStr : text) : text :=
  match parseIP ipStr with
  | None => []
  | Some ip =>
      match To4 ip with
      | Some ipv4 => Itoa (byte_at ipv4 0) ++ str "." ++ Itoa (byte_at ipv4 1) ++ str ".*.*"
      | None =>
          if bool_decide (length ip = 16%nat) then
            hex (Z.lor (Z.shiftl (byte_at ip 0) 8) (byte_at ip 1)) ++ str ":" ++ hex (Z.lor (Z.shiftl (byte_at ip 2) 8) (byte_at ip 3)) ++ str "::*"
          else []
      end
  end.
End parse.

(** ** Properties of query strings *)

(** A path segment survives. *)
Theorem PathSegment_roundtrip segment : DecodePathSegment (EncodePathSegment segment) = Some segment.
Proof. by apply unescape_escape. Qed.

Definition query_decodes (c : ascii) : bool :=
  match (λ c, if Ascii.eqb c plus then char_space else c) <$> escape1 encodeQueryComponent c with
  | [a] => Ascii.eqb a c && negb (Ascii.eqb a char_percent)
  | [p; a; b] =>
      Ascii.eqb p char_percent &&
      match unhex a, unhex b with Some x, Some y => Ascii.eqb (char (16 * x + y)) c | _, _ => false end
  | _ => false
  end.

Lemma query_escape1_decodes c : query_decodes c = true.
Proof. revert c. apply every_byte. vm_compute. reflexivity. Qed.

Lemma QueryUnescape_QueryEscape s : QueryUnescape (QueryEscape s) = Some s.
Proof.
  unfold QueryUnescape, QueryEscape, escape. induction s as [|c s IH]; [done|]. cbn [mbind list_bind]. rewrite fmap_app.
  pose proof (query_escape1_decodes c) as Hd. unfold query_decodes in Hd.
  destruct ((λ c, if Ascii.eqb c plus then char_space else c) <$> escape1 encodeQueryComponent c) as [|a [|b [|d [|]]]]; try done.
  - apply andb_true_iff in Hd as [->%Ascii.eqb_eq Hp%negb_true_iff]. cbn. rewrite Hp. cbn in IH. by rewrite IH.
  - apply andb_true_iff in Hd as [->%Ascii.eqb_eq Hd]. cbn -[unhex] in *.
    destruct (unhex b), (unhex d); try done. apply Ascii.eqb_eq in Hd as <-. by rewrite IH.
Qed.

Lemma query_avoids : avoids encodeQueryComponent amp = true ∧ avoids encodeQueryComponent equals = true ∧ avoids encodeQueryComponent semicolon = true.
Proof. split_and!; vm_compute; reflexivity. Qed.

Lemma Cut_at a b sep : sep ∉ a → Cut (a ++ sep :: b) sep = (a, Some b).
Proof.
  induction a as [|c a IH]; cbn; [by rewrite Ascii.eqb_refl|]. rewrite not_elem_of_cons. intros [Hc Ha].
  destruct (Ascii.eqb_spec c sep) as [->|_]; [done|]. by rewrite IH.
Qed.

Lemma parse_pair k v : parse_part (pair_text k v) = Some (Some (k, v)).
Proof.
  destruct query_avoids as (_ & He & Hs). unfold parse_part, pair_text.
  assert (one_of (QueryEscape k ++ equals :: QueryEscape v) semicolon = false) as ->.
  { apply not_true_iff_false. rewrite one_of_spec, elem_of_app, elem_of_cons. intros [H|[H|H]]; [exact (escape_avoids _ _ _ Hs H)|discriminate H|exact (escape_avoids _ _ _ Hs H)]. }
  rewrite decide_False by by destruct (QueryEscape k). rewrite Cut_at by by apply escape_avoids. cbv beta iota.
  change (default [] (Some (QueryEscape v))) with (QueryEscape v). by rewrite !QueryUnescape_QueryEscape.
Qed.

Lemma parse_pairs (l : list (text * text)) : ∀ m, NoDup l.*1 → (∀ k, k ∈ l.*1 → m !! k = None) →
  parse_parts ((λ kv, pair_text kv.1 kv.2) <$> l) m = (foldl (λ m kv, <[kv.1 := [kv.2]]> m) m l, true).
Proof.
  induction l as [|[k v] l IH]; intros m Hnd Hm; cbn [fmap list_fmap parse_parts foldl fst snd]; [done|]. cbn in Hnd. apply NoDup_cons in Hnd as [Hk Hnd].
  rewrite (parse_pair k v). cbv beta iota. rewrite (Hm k) by (cbn; left). change (default [] None ++ [v]) with [v]. rewrite IH; [done|done|].
  intros k' Hk'. rewrite lookup_insert_ne by (intros ->; done). apply Hm. cbn. by right.
Qed.

Lemma fold_pairs (l : list (text * text)) (m : gmap text (list text)) k : NoDup l.*1 →
  foldl (λ m kv, <[kv.1 := [kv.2]]> m) m l !! k = match (list_to_map l : gmap text text) !! k with Some v => Some [v] | None => m !! k end.
Proof.
  revert m. induction l as [|[k' v] l IH]; intros m; cbn; [done|]. intros [Hk Hnd]%NoDup_cons. rewrite IH by done.
  destruct (decide (k' = k)) as [->|Hne].
  - rewrite lookup_insert_eq. apply not_elem_of_list_to_map_1 in Hk. rewrite Hk. by rewrite lookup_insert_eq.
  - by rewrite !lookup_insert_ne.
Qed.

Lemma map_fold_insert_id (m : gmap text text) : map_fold (λ k v values, <[k := v]> values) ∅ m = m.
Proof. apply (map_fold_weak_ind (λ r m, r = m)); [done|]. by intros k v r m' _ ->. Qed.

(** The query built from a map parses to the map, whatever bytes its keys and values have. *)
Theorem Query_roundtrip params : params ≠ ∅ → ParseQuery (BuildQuery params) = Some params.
Proof.
  intros Hne. unfold BuildQuery. rewrite map_fold_insert_id. unfold Encode. set (keys := Strings (map_to_list params).*1).
  set (l := (λ k, (k, default [] (params !! k))) <$> keys).
  assert (keys ≡ₚ (map_to_list params).*1) as Hperm by apply Strings_perm.
  assert ((λ k, pair_text k (default [] (params !! k))) <$> keys = (λ kv, pair_text kv.1 kv.2) <$> l) as -> by (unfold l; by rewrite <- list_fmap_compose).
  assert (l.*1 = keys) as Hk by (unfold l; rewrite <- list_fmap_compose; apply list_fmap_id).
  assert (NoDup l.*1) as Hnd by (rewrite Hk, Hperm; apply NoDup_fst_map_to_list).
  assert (l ≠ []) as Hl.
  { intros E. rewrite E in Hk. cbn in Hk. rewrite <- Hk in Hperm. apply Permutation_nil_l in Hperm. symmetry in Hperm. apply fmap_nil_inv in Hperm. by apply map_to_list_empty_iff in Hperm. }
  unfold ParseQuery, url_ParseQuery. rewrite Split_Join; [|by destruct l|].
  - rewrite (parse_pairs l ∅ Hnd) by (intros; apply lookup_empty). f_equal. apply map_eq. intros k. rewrite lookup_omap, fold_pairs by done.
    assert ((list_to_map l : gmap text text) !! k = params !! k) as ->.
    { destruct (params !! k) as [v|] eqn:E.
      - apply elem_of_list_to_map_1; [done|]. apply list_elem_of_fmap. exists k. rewrite E. split; [done|]. rewrite Hperm.
        apply elem_of_map_to_list in E. by apply (list_elem_of_fmap_2 fst) in E.
      - apply not_elem_of_list_to_map_1. rewrite Hk, Hperm. intros ([k' v] & -> & Hin)%list_elem_of_fmap. apply elem_of_map_to_list in Hin. cbn in E. congruence. }
    rewrite lookup_empty. by destruct (params !! k).
  - apply Forall_fmap, Forall_forall. intros [k v] _. cbn. unfold pair_text. rewrite elem_of_app, elem_of_cons. destruct query_avoids as (Ha & _).
    intros [H|[H|H]]; [exact (escape_avoids _ _ _ Ha H)|discriminate H|exact (escape_avoids _ _ _ Ha H)].
Qed.

Lemma Query_roundtrip_witness : ParseQuery (BuildQuery {[str "a&b" := str "x=y z"; str "q" := []]}) = Some {[str "a&b" := str "x=y z"; str "q" := []]}.
Proof. apply (Query_roundtrip {[str "a&b" := str "x=y z"; str "q" := []]}). discriminate. Defined.

(** The empty map is the only one that needs care: its query is empty, and parses to it. *)
Example empty_query : BuildQuery ∅ = [] ∧ ParseQuery [] = Some ∅.
Proof. split; reflexivity. Qed.

(** ** Properties of addresses *)

Definition is_byte (b : Z) : Prop := 0 <= b <= 255.

Lemma mask_240 b : is_byte b → (Z.land 16 240 =? Z.land b 240) = (16 <=? b) && (b <=? 31).
Proof.
  intros Hb. assert (forallb (λ n, Bool.eqb (Z.land 16 240 =? Z.land (Z.of_nat n) 240) ((16 <=? Z.of_nat n) && (Z.of_nat n <=? 31))) (seq 0 256) = true) as H by (vm_compute; reflexivity).
  rewrite forallb_forall in H. specialize (H (Z.to_nat b)). rewrite Z2Nat.id in H by (unfold is_byte in Hb; lia). apply eqb_prop, H. apply in_seq. unfold is_byte in Hb. lia.
Qed.

Lemma mask_254 b : is_byte b → (Z.land 252 254 =? Z.land b 254) = (252 <=? b) && (b <=? 253).
Proof.
  intros Hb. assert (forallb (λ n, Bool.eqb (Z.land 252 254 =? Z.land (Z.of_nat n) 254) ((252 <=? Z.of_nat n) && (Z.of_nat n <=? 253))) (seq 0 256) = true) as H by (vm_compute; reflexivity).
  rewrite forallb_forall in H. specialize (H (Z.to_nat b)). rewrite Z2Nat.id in H by (unfold is_byte in Hb; lia). apply eqb_prop, H. apply in_seq. unfold is_byte in Hb. lia.
Qed.

Lemma mask_255 n b : is_byte b → (Z.land n 255 =? Z.land b 255) = (Z.land n 255 =? b).
Proof. intros Hb. change 255 with (Z.ones 8) at 2. rewrite (Z.land_ones b) by lia. rewrite Z.mod_small; [done|]. unfold is_byte in Hb. change (2 ^ 8) with 256. lia. Qed.

(** Which addresses count as private: for IPv4, also written as IPv6, the three ranges of
    RFC 1918; for IPv6 the unique local addresses. Loopback and link-local ones do not. *)
Theorem IsPrivateIP_spec parseIP s ip : parseIP s = Some ip → length ip = 16%nat → Forall is_byte ip →
  IsPrivateIP parseIP s =
  match To4 ip with
  | Some v4 =>
      let a := byte_at v4 0 in let b := byte_at v4 1 in
      (a =? 10) || ((a =? 172) && ((16 <=? b) && (b <=? 31))) || ((a =? 192) && (b =? 168))
  | None => let a := byte_at ip 0 in (252 <=? a) && (a <=? 253)
  end.
Proof.
  intros Hp Hl Hb. unfold IsPrivateIP. rewrite Hp. unfold privateBlocks, Contains. destruct (To4 ip) as [v4|] eqn:E4; cbn [default existsb].
  - assert (∃ a b c d, v4 = [a; b; c; d] ∧ is_byte a ∧ is_byte b) as (a & b & c & d & -> & Ha & Hb').
    { unfold To4 in E4. rewrite Hl in E4. destruct (bool_decide (16%nat = 4%nat)) eqn:E; [by apply bool_decide_eq_true in E|]. cbn in E4.
      destruct (bool_decide (take 12 ip = _)); [|done]. injection E4 as <-. pose proof (length_drop ip 12) as Hd. rewrite Hl in Hd.
      apply (Forall_drop _ 12) in Hb. destruct (drop 12 ip) as [|a [|b [|c [|d [|]]]]]; try done. exists a, b, c, d.
      apply Forall_cons in Hb as [? Hb]. apply Forall_cons in Hb as [? _]. done. }
    cbn -[Z.land Z.eqb Z.leb]. rewrite (bool_decide_eq_true_2 (4%nat = 4%nat)), (bool_decide_eq_false_2 (4%nat = 16%nat)) by done.
    rewrite !Z.land_0_r, !Z.eqb_refl, !andb_true_r. cbn [andb orb]. rewrite !mask_255, mask_240 by done. change (Z.land 10 255) with 10. change (Z.land 172 255) with 172. change (Z.land 192 255) with 192. change (Z.land 168 255) with 168.
    cbn [andb]. rewrite (Z.eqb_sym 10 a), (Z.eqb_sym 172 a), (Z.eqb_sym 192 a), (Z.eqb_sym 168 b), orb_false_r, orb_assoc. done.
  - rewrite Hl. cbn [net_IP length replicate]. rewrite !(bool_decide_eq_false_2 (16%nat = 4%nat)) by done. rewrite bool_decide_eq_true_2 by done. cbn [andb orb].
    destruct ip as [|a ip]; [done|]. apply Forall_cons in Hb as [Ha _]. do 15 (destruct ip as [|? ip]; [done|]).
    cbn -[Z.land Z.eqb Z.leb]. rewrite !Z.land_0_r, !Z.eqb_refl, !andb_true_r, mask_254, orb_false_r by done. done.
Qed.

Lemma IsPrivateIP_spec_witness :
  let ip := replicate 10 0 ++ [255; 255; 172; 31; 0; 1] in IsPrivateIP (λ _, Some ip) (str "172.31.0.1") = true.
Proof.
  intros ip. rewrite (IsPrivateIP_spec (λ _, Some ip) (str "172.31.0.1") ip eq_refl eq_refl); [reflexivity|].
  apply Forall_forall. intros b Hb. apply list_elem_of_In in Hb. cbn in Hb. unfold is_byte. intuition lia.
Defined.

End RestUrl.
