(* ===== verification/Rest.v ===== *)
(** * Outgoing requests, stubs, parameters and downloads ([src/utils/rest/{http,validator}.go], [src/utils/rest/httpstub/stub.go])

    The registry of response stubs with its shared entries; [MakeHTTPRequest] on top of it
    and of an HTTP client; parameters and forms; the headers of a download. The client,
    [url.Parse], [json.Unmarshal], content sniffing, struct validation and randomness are
    parameters. *)

From Stdlib Require Import ZArith Lia Ascii Floats.SpecFloat.
From stdpp Require Import base gmap list strings pretty.
From S2P Require Import Prelude GoValue SqlText Url FileSys.
Local Open Scope Z_scope.

Module Rest.

(** ** Stubs *)

(** The fields of an entry that have an effect; the others are kept for reference. *)
Record StubEntry : Type := mkStub {
  ID : text; Endpoint : text; Method : text; ResponseCode : Z; ResponseHeaders : option (gmap text text); PositiveResponse : text;
  ContentType : text; Latency : Z; ErrorResponseCode : Z; NegativeResponse : text; Probability : float64; MaxHits : Z; HitCount : Z;
  Labels : option (gmap text text);
}.

(** Entries are pointers: the registry has the caller's own. *)
Record registry : Type := mkRegistry { enableStubs : bool; httpStubs : gmap text nat; entries : gmap nat StubEntry }.

Definition or_text (s d : text) : text := if decide (s = []) then d else s.
Definition or_Z (n d : Z) : Z := if n =? 0 then d else n.

Definition addDefaultValues (e : StubEntry) : StubEntry :=
  mkStub (ID e) (Endpoint e) (or_text (Method e) (str "GET")) (or_Z (ResponseCode e) 200) (Some (default ∅ (ResponseHeaders e))) (PositiveResponse e)
    (or_text (ContentType e) (str "application/json")) (Latency e)
    (if decide (NegativeResponse e = []) then ErrorResponseCode e else or_Z (ErrorResponseCode e) 500)
    (NegativeResponse e) (Probability e) (MaxHits e) (HitCount e) (Some (default ∅ (Labels e))).

Definition with_ID (id : text) (e : StubEntry) : StubEntry :=
  mkStub id (Endpoint e) (Method e) (ResponseCode e) (ResponseHeaders e) (PositiveResponse e) (ContentType e) (Latency e) (ErrorResponseCode e)
    (NegativeResponse e) (Probability e) (MaxHits e) (HitCount e) (Labels e).
Definition hit (e : StubEntry) : StubEntry :=
  mkStub (ID e) (Endpoint e) (Method e) (ResponseCode e) (ResponseHeaders e) (PositiveResponse e) (ContentType e) (Latency e) (ErrorResponseCode e)
    (NegativeResponse e) (Probability e) (MaxHits e) (i64 (HitCount e + 1)) (Labels e).

Definition InitStubConfig (enable : bool) (w : registry) : registry := mkRegistry enable ∅ (entries w).
Definition IsStubbingEnabled (w : registry) : bool := enableStubs w.

Inductive stub_error : Type := EmptyEndpoint | NoStub (id : text) | EmptyID | MaxHitsReached (id : text) | CtxErr (e : string).

Definition set_entry (l : nat) (e : StubEntry) (w : registry) : registry := mkRegistry (enableStubs w) (httpStubs w) (<[l := e]> (entries w)).

(** [random] is the random string of an entry without an identifier. The defaults are
    written into the entry even when it is refused. *)
Definition AddStub (l : nat) (random : text) (w : registry) : outcome (registry * result stub_error text) :=
  match entries w !! l with
  | None => Panic "nil pointer dereference"
  | Some e =>
      let e := addDefaultValues e in
      if decide (Endpoint e = []) then Ret (set_entry l e w, Err EmptyEndpoint)
      else
        let e := if decide (ID e = []) then with_ID (str "stub-" ++ random) e else e in
        Ret (mkRegistry (enableStubs w) (<[ID e := l]> (httpStubs w)) (<[l := e]> (entries w)), Ok (ID e))
  end.

Definition RemoveStub (id : text) (w : registry) : registry * option stub_error :=
  match httpStubs w !! id with
  | None => (w, Some (NoStub id))
  | Some _ => (mkRegistry (enableStubs w) (delete id (httpStubs w)) (entries w), None)
  end.

Definition ListAllStubs (w : registry) : list nat := (map_to_list (httpStubs w)).*2.
Definition ClearAllStubs (w : registry) : registry := mkRegistry (enableStubs w) ∅ (entries w).

Definition GetHttpStubByID (id : text) (w : registry) : result stub_error nat :=
  if decide (id = []) then Err EmptyID
  else match httpStubs w !! id with
  | Some l => Ok l
  | None => Err (NoStub id)
  end.

(** Eight random bytes as a number, or none when reading them fails. *)
Definition cryptoFloat64 (random : option Z) : float64 :=
  match random with
  | None => f64_of_Z 1
  | Some u => f64_div (f64_of_Z u) (f64_of_Z (2 ^ 64 - 1))
  end.

(** A response: reading its body and closing it may fail. *)
Record response : Type := mkResponse { StatusCode : Z; Status : text; Header : gmap text text; Body : result string text; CloseErr : option string }.

(** [StatusText] is the text of a status code; [canonical] is how headers are keyed. *)
Section http.
Context (StatusText : Z → text) (canonical : text → text).

(** Two names that are the same header: one of them is kept, as the order of the map has
    it. *)
Definition set_headers (hs : gmap text text) : gmap text text := map_fold (λ k v m, <[canonical k := v]> m) ∅ hs.

(** [done] is the error of a context that ends before the latency is over. *)
Definition CallStub (random : option Z) (done : option string) (id : text) (w : registry) : registry * result stub_error (option response) :=
  if negb (enableStubs w) then (w, Ok None)
  else match httpStubs w !! id ≫= λ l, pair l <$> entries w !! l with
  | None => (w, Err (NoStub id))
  | Some (l, stub) =>
      if (0 <? MaxHits stub) && (MaxHits stub <=? HitCount stub) then (w, Err (MaxHitsReached id))
      else
        let w := set_entry l (hit stub) w in
        let usePositive := f64_leb (cryptoFloat64 random) (Probability stub) in
        let negative := negb usePositive && bool_decide (NegativeResponse stub ≠ []) in
        let respCode := if negative then ErrorResponseCode stub else ResponseCode stub in
        let respBody := if negative then NegativeResponse stub else PositiveResponse stub in
        match (if 0 <? Latency stub then done else None) with
        | Some e => (w, Err (CtxErr e))
        | None =>
            let header := set_headers (default ∅ (ResponseHeaders stub)) in
            let header := if decide (ContentType stub = []) then header else <[str "Content-Type" := ContentType stub]> header in
            (w, Ok (Some (mkResponse respCode (StatusText respCode) header (Ok respBody) None)))
        end
  end.

(** ** Requests *)

(** The timeout of a request ends the context of the stub or of the client, whose answers are
    arguments. *)
Record RequestEntity : Type := mkRequest { Url : text; req_Method : text; Headers : gmap text text; QueryParams : gmap text (list text); req_Body : text; StubID : text }.

(** A parsed URL: what is before the query, and the query. *)
Record parsed : Type := mkParsed { base : text; query : gmap text (list text) }.

Record sent : Type := mkSent { s_method : text; s_url : parsed; s_headers : gmap text text; s_body : text }.

Inductive request_error : Type := BadURL (e : string) | Stub (e : stub_error) | BadRequest (e : string) | Transport (e : string) | NoResponse | ReadErr (e : string)
  | StatusErr (s : text) | JsonErr | CloseFailed (e : string).

Context {J : Type} (Unmarshal : text → option J) (parse : text → result string parsed) (NewRequest : text → parsed → option string)
        (Do : sent → result string (option response)).

Definition add_query (params : gmap text (list text)) (u : parsed) : parsed :=
  mkParsed (base u) (map_fold (λ k v q, <[k := [Join v ","]]> q) (query u) params).

(** Reading a response: the object, which is there also for an error of the status, and the
    error; the error of closing counts when there is no other. *)
Definition read_response (res : response) : option J * option request_error :=
  let '(obj, err) :=
    match Body res with
    | Err e => (None, Some (ReadErr e))
    | Ok data =>
        let obj := Unmarshal data in
        if negb (bool_decide (StatusCode res ∈ [200; 201])) then (obj, Some (StatusErr (Status res)))
        else match obj with
        | None => (obj, Some JsonErr)
        | Some _ => (obj, None)
        end
    end in
  match err, CloseErr res with
  | None, Some e => (obj, Some (CloseFailed e))
  | _, _ => (obj, err)
  end.

(** The world: the registry of stubs and the requests sent. *)
Definition MakeHTTPRequest (random : option Z) (done : option string) (request : RequestEntity) (w : registry * list sent)
    : (registry * list sent) * (option J * option request_error) :=
  match parse (Url request) with
  | Err e => (w, (None, Some (BadURL e)))
  | Ok u =>
      let u := if decide (req_Method request = str "GET") then add_query (QueryParams request) u else u in
      let call (w : registry * list sent) :=
        match NewRequest (req_Method request) u with
        | Some e => (w, (None, Some (BadRequest e)))
        | None =>
            let req := mkSent (req_Method request) u (set_headers (Headers request)) (req_Body request) in
            let w := (w.1, w.2 ++ [req]) in
            match Do req with
            | Err e => (w, (None, Some (Transport e)))
            | Ok None => (w, (None, Some NoResponse))
            | Ok (Some res) => (w, read_response res)
            end
        end in
      if bool_decide (StubID request ≠ []) && enableStubs w.1 then
        match CallStub random done (StubID request) w.1 with
        | (reg, Err e) => ((reg, w.2), (None, Some (Stub e)))
        | (reg, Ok (Some stubResp)) => ((reg, w.2), read_response stubResp)
        | (reg, Ok None) => call (reg, w.2)
        end
      else call w
  end.

(** ** Incoming parameters *)

Inductive param_error : Type := Required (key : text) | InvalidInt (key : text) | BadForm.
Inductive param : Type := PInt (z : Z) | PText (s : text).

(** The keys in the order the map gives them, each with whether an integer is wanted. *)
Fixpoint params_loop (form : gmap text (list text)) (keys : list (text * bool)) (values : gmap text param) : result param_error (gmap text param) :=
  match keys with
  | [] => Ok values
  | (key, int) :: keys =>
      match form !! key with
      | None => Err (Required key)
      | Some vs =>
          let val := default [] (head vs) in
          if int : bool then
            match Url.Atoi val with
            | None => Err (InvalidInt key)
            | Some intval => params_loop form keys (<[key := PInt intval]> values)
            end
          else params_loop form keys (<[key := PText val]> values)
      end
  end.

Definition ValidateAndFetchGetParams (query : gmap text (list text)) (keys : list (text * bool)) : result param_error (gmap text param) := params_loop query keys ∅.

(** [form] is what [ParseForm] gives. *)
Definition ValidateAndFetchPostParams (form : option (gmap text (list text))) (keys : list (text * bool)) : result param_error (gmap text param) :=
  match form with
  | None => Err BadForm
  | Some form => params_loop form keys ∅
  end.

(** The body as it is read and what closing it gives. *)
Definition ReadJsonPayload (body : result string text) (close : option string) : result string J :=
  match body, close with
  | Err _, _ => Err "error reading request body"%string
  | Ok _, Some e => Err e
  | Ok b, None => match Unmarshal b with Some j => Ok j | None => Err "error parsing JSON data"%string end
  end.

(** ** Forms into structs *)

Inductive fkind : Type := FString | FInt | FBool | FOther.
Record ffield : Type := mkFField { form_tag : text; f_name : text; f_kind : fkind; f_settable : bool }.
Inductive fvalue : Type := FVText (s : text) | FVInt (z : Z) | FVBool (b : bool) | FVOther.

Definition ParseBool (s : text) : option bool :=
  if bool_decide (s ∈ str <$> ["1"; "t"; "T"; "TRUE"; "true"; "True"]%string) then Some true
  else if bool_decide (s ∈ str <$> ["0"; "f"; "F"; "FALSE"; "false"; "False"]%string) then Some false
  else None.

(** What a parameter sets a field to, if anything. *)
Definition form_value (f : ffield) (paramValue : text) : option fvalue :=
  if decide (paramValue = []) then None
  else match f_kind f with
  | FString => Some (FVText paramValue)
  | FInt => FVInt <$> Url.Atoi paramValue
  | FBool => FVBool <$> ParseBool paramValue
  | FOther => None
  end.

Fixpoint form_loop (get : text → text) (fs : list ffield) (obj : list fvalue) : outcome (list fvalue) :=
  match fs, obj with
  | f :: fs, v :: obj =>
      let fieldName := or_text (form_tag f) (f_name f) in
      match form_value f (get fieldName) with
      | Some v' =>
          if f_settable f then match form_loop get fs obj with Ret rest => Ret (v' :: rest) | Panic s => Panic s end
          else Panic "reflect: value obtained using unexported field"
      | None => match form_loop get fs obj with Ret rest => Ret (v :: rest) | Panic s => Panic s end
      end
  | _, obj => Ret obj
  end.

(** [validate] is the third-party validation of the struct. *)
Definition ValidateGET (validate : list fvalue → option string) (get : text → text) (fs : list ffield) (obj : list fvalue) : outcome (list fvalue * option string) :=
  match form_loop get fs obj with
  | Panic s => Panic s
  | Ret obj => Ret (obj, validate obj)
  end.

Definition ValidatePOST (validate : list fvalue → option string) (form : result string (text → text)) (fs : list ffield) (obj : list fvalue)
    : outcome (list fvalue * option string) :=
  match form with
  | Err e => Ret (obj, Some ("invalid POST params: " +:+ e))
  | Ok get =>
      match form_loop get fs obj with
      | Panic s => Panic s
      | Ret obj => Ret (obj, validate obj)
      end
  end.

(** [decode] is what decoding the body into the object gives. *)
Definition ValidateJson {O : Type} (validate : O → option string) (decode : result string O) : option string :=
  match decode with
  | Err e => Some ("invalid JSON: " +:+ e)
  | Ok obj => validate obj
  end.

(** ** Downloads *)

(** The headers set before the content is served. *)
Definition DownloadBytes (DetectContentType : list Z → text) (filename contentType : text) (data : list Z) : list (text * text) :=
  let ct :=
    if decide (contentType = []) then
      if decide (data = []) then str "application/octet-stream" else DetectContentType (take 512 data)
    else contentType in
  let '(safe, encoded) := FileSys.SanitizeFilename filename (str "download") in
  [(str "X-Content-Type-Options", str "nosniff"); (str "Content-Type", ct);
   (str "Content-Disposition", str "attachment; filename=" ++ char_dquote :: safe ++ char_dquote :: str "; filename*=UTF-8''" ++ encoded);
   (str "Access-Control-Expose-Headers", str "Content-Disposition"); (str "Cache-Control", str "private, max-age=0, must-revalidate")].
End http.

(** ** Stubs and their budget *)

(** A call of a stub: the randomness, the context and the identifier. *)
Abbreviation stub_call := (option Z * option string * text)%type.

Section stub_calls.
Context (StatusText : Z → text) (canonical : text → text).

Fixpoint CallStubs (cs : list stub_call) (w : registry) : registry * list (result stub_error (option response)) :=
  match cs with
  | [] => (w, [])
  | (random, cancel, id) :: cs =>
      let '(w, r) := CallStub StatusText canonical random cancel id w in
      let '(w, rs) := CallStubs cs w in (w, r :: rs)
  end.

(** A call that reaches the entry at [l]: its identifier is one of those registered for it. *)
Definition reaches (w : registry) (l : nat) (c : stub_call) : bool := bool_decide (httpStubs w !! c.2 = Some l).

Definition refused (r : result stub_error (option response)) : bool := match r with Err (MaxHitsReached _) => true | _ => false end.

(** The calls of an entry that are not refused. *)
Definition served (w : registry) (l : nat) (cs : list stub_call) (rs : list (result stub_error (option response))) : Z :=
  Z.of_nat (length (filter (λ x, reaches w l x.1 = true ∧ refused x.2 = false) (zip cs rs))).

Definition calls_of (w : registry) (l : nat) (cs : list stub_call) : Z := Z.of_nat (length (filter (λ c, reaches w l c = true) cs)).

Lemma CallStub_registry random cancel id w : httpStubs (CallStub StatusText canonical random cancel id w).1 = httpStubs w ∧
  enableStubs (CallStub StatusText canonical random cancel id w).1 = enableStubs w.
Proof. unfold CallStub. repeat case_match; split; done. Qed.

Lemma CallStub_other random cancel id w l : httpStubs w !! id ≠ Some l →
  entries (CallStub StatusText canonical random cancel id w).1 !! l = entries w !! l.
Proof.
  intros Hl. unfold CallStub. destruct (enableStubs w); [|done]. cbn [negb].
  destruct (httpStubs w !! id) as [l'|] eqn:E; [|done]. cbn. destruct (entries w !! l') as [e|]; [|done]. cbn.
  assert (Hne : l' ≠ l) by congruence.
  repeat case_match; try done; cbn; by rewrite lookup_insert_ne.
Qed.

(** A call of an entry with a limit: refused without a trace at the limit, a hit below it. *)
Lemma CallStub_limited random cancel id w l e : enableStubs w = true → httpStubs w !! id = Some l → entries w !! l = Some e → 0 < MaxHits e →
  let '(w', r) := CallStub StatusText canonical random cancel id w in
  if MaxHits e <=? HitCount e then entries w' !! l = Some e ∧ refused r = true
  else entries w' !! l = Some (hit e) ∧ refused r = false.
Proof.
  intros Hen Hid Hl HM. unfold CallStub. rewrite Hen, Hid. cbn [negb option_bind mbind]. rewrite Hl. cbn [fmap option_fmap option_map].
  replace (0 <? MaxHits e) with true by lia. destruct (MaxHits e <=? HitCount e); cbn [andb]; [done|].
  destruct (if 0 <? Latency e then cancel else None); (split; [apply lookup_insert_eq|done]).
Qed.

(** With stubs on, a call is answered or refused. *)
Lemma CallStub_some random cancel id w : enableStubs w = true → (CallStub StatusText canonical random cancel id w).2 ≠ Ok None.
Proof. intros Hen. unfold CallStub. rewrite Hen. cbn [negb]. by repeat case_match. Qed.

Lemma CallStubs_length cs w : length (CallStubs cs w).2 = length cs.
Proof.
  revert w. induction cs as [|[[random cancel] id] cs IH]; intros w; [done|]. cbn.
  destruct (CallStub _ _ _ _ _ _) as [w' r]. specialize (IH w'). destruct (CallStubs cs w') as [w'' rs]. cbn in *. lia.
Qed.

Lemma served_cons w l c cs r rs : served w l (c :: cs) (r :: rs) = (if reaches w l c && negb (refused r) then 1 else 0) + served w l cs rs.
Proof.
  unfold served. change (zip (c :: cs) (r :: rs)) with ((c, r) :: zip cs rs). rewrite filter_cons. cbn [fst snd].
  destruct (reaches w l c), (refused r); cbn [andb negb]; case_decide; try (cbn [length]; lia); naive_solver.
Qed.

Lemma calls_cons w l c cs : calls_of w l (c :: cs) = (if reaches w l c then 1 else 0) + calls_of w l cs.
Proof. unfold calls_of. rewrite filter_cons. destruct (reaches w l c); case_decide; try (cbn [length]; lia); done. Qed.

(** Every call of a limited entry, under whichever of its identifiers, takes from the same
    budget: of the calls that reach it, as many are served as the budget allows, and the
    counter has them all. *)
Theorem stub_budget cs w l e : enableStubs w = true → entries w !! l = Some e → 0 < MaxHits e → 0 <= HitCount e <= MaxHits e → is_i64 (MaxHits e) →
  let '(w', rs) := CallStubs cs w in
  served w l cs rs = Z.min (calls_of w l cs) (MaxHits e - HitCount e) ∧
  ∃ e', entries w' !! l = Some e' ∧ HitCount e' = HitCount e + served w l cs rs ∧ MaxHits e' = MaxHits e.
Proof.
  revert w e. induction cs as [|[[random cancel] id] cs IH]; intros w e Hen Hl HM HH HI.
  { cbn [CallStubs]. unfold served, calls_of. cbn [zip zip_with]. rewrite !filter_nil. cbn [length Z.of_nat]. split; [lia|]. exists e. split; [done|]. lia. }
  cbn [CallStubs].
  pose proof (CallStub_registry random cancel id w) as [Hreg Hen'].
  pose proof (CallStub_other random cancel id w l) as Hother.
  pose proof (CallStub_limited random cancel id w l e Hen) as Hlim.
  destruct (CallStub StatusText canonical random cancel id w) as [w1 r]. cbn [fst] in *.
  assert (Hr : ∀ c, reaches w1 l c = reaches w l c) by (intros c; unfold reaches; by rewrite Hreg).
  assert (Hc : calls_of w1 l cs = calls_of w l cs).
  { unfold calls_of. do 2 f_equal. apply list_filter_iff. intros c. by rewrite Hr. }
  assert (Hs : ∀ rs, served w1 l cs rs = served w l cs rs).
  { intros rs. unfold served. do 2 f_equal. apply list_filter_iff. intros x. by rewrite Hr. }
  assert (Hgo : ∀ e1 : StubEntry, entries w1 !! l = Some e1 → MaxHits e1 = MaxHits e → HitCount e <= HitCount e1 <= MaxHits e →
    let '(w', rs) := CallStubs cs w1 in
    served w l cs rs = Z.min (calls_of w l cs) (MaxHits e - HitCount e1) ∧
    ∃ e', entries w' !! l = Some e' ∧ HitCount e' = HitCount e1 + served w l cs rs ∧ MaxHits e' = MaxHits e).
  { intros e1 H1 H2 H3. specialize (IH w1 e1). rewrite H2, Hc in IH. destruct (CallStubs cs w1) as [w' rs]. rewrite Hs in IH.
    apply IH; auto; [congruence|lia]. }
  assert (Hpos : 0 <= calls_of w l cs) by (unfold calls_of; lia).
  assert (Hreach : reaches w l (random, cancel, id) = bool_decide (httpStubs w !! id = Some l)) by done.
  destruct (decide (httpStubs w !! id = Some l)) as [Hid|Hid].
  - rewrite bool_decide_true in Hreach by done.
    specialize (Hlim Hid Hl HM). destruct (MaxHits e <=? HitCount e) eqn:Hfull; destruct Hlim as [H1 H2].
    + specialize (Hgo e H1 eq_refl ltac:(lia)). destruct (CallStubs cs w1) as [w' rs].
      rewrite served_cons, calls_cons, Hreach, H2. cbn [andb negb]. destruct Hgo as [Hg1 Hg2]. split; [lia|exact Hg2].
    + assert (HC : HitCount (hit e) = HitCount e + 1) by (cbn; apply i64_id; unfold is_i64 in *; lia).
      specialize (Hgo (hit e) H1 eq_refl ltac:(lia)). rewrite HC in Hgo. destruct (CallStubs cs w1) as [w' rs].
      rewrite served_cons, calls_cons, Hreach, H2. cbn [andb negb]. destruct Hgo as (Hg1&e'&Hg2&Hg3&Hg4). split; [lia|]. exists e'. split; [done|]. lia.
  - rewrite bool_decide_false in Hreach by done.
    specialize (Hgo e (eq_trans (Hother Hid) Hl) eq_refl ltac:(lia)). destruct (CallStubs cs w1) as [w' rs].
    rewrite served_cons, calls_cons, Hreach. exact Hgo.
Qed.
End stub_calls.

(** ** Requests *)

Section requests.
Context (StatusText : Z → text) (canonical : text → text) {J : Type} (Unmarshal : text → option J) (parse : text → result string parsed)
        (NewRequest : text → parsed → option string) (Do : sent → result string (option response)).

Local Abbreviation Make := (MakeHTTPRequest StatusText canonical Unmarshal parse NewRequest Do).

(** The URL a request goes to and the request that is sent. *)
Definition target (request : RequestEntity) (u : parsed) : parsed :=
  if decide (req_Method request = str "GET") then add_query (QueryParams request) u else u.
Definition to_send (request : RequestEntity) (u : parsed) : sent :=
  mkSent (req_Method request) (target request u) (set_headers canonical (Headers request)) (req_Body request).

(** A response that counts as a success with the object [obj]. *)
Definition good (res : response) (obj : J) : Prop :=
  StatusCode res ∈ [200; 201] ∧ CloseErr res = None ∧ ∃ data, Body res = Ok data ∧ Unmarshal data = Some obj.

Lemma read_response_good res r : read_response Unmarshal res = (r, None) ↔ ∃ obj, r = Some obj ∧ good res obj.
Proof.
  unfold read_response, good. destruct (Body res) as [data|e]; cbn.
  2: { split; [done|]. intros (obj & _ & _ & _ & data & ? & _). done. }
  case_bool_decide as Hs; cbn.
  2: { split; [done|]. intros (obj & _ & Hs' & _). done. }
  destruct (Unmarshal data) as [obj|] eqn:HU; destruct (CloseErr res) eqn:HC.
  - split; [done|]. intros (? & _ & _ & ? & _). done.
  - split; [intros [= <-]; exists obj; eauto 10|]. intros (obj' & -> & _ & _ & data' & [= <-] & ?). congruence.
  - split; [done|]. intros (obj' & _ & _ & _ & data' & [= <-] & ?). congruence.
  - split; [done|]. intros (obj' & _ & _ & _ & data' & [= <-] & ?). congruence.
Qed.

(** A request succeeds exactly when its URL is read and there is an answer, of its stub when
    it names one and stubs are on, of the client otherwise, whose status is 200 or 201, whose
    body is read, is JSON and is closed. *)
Theorem MakeHTTPRequest_success random cancel request reg out obj :
  (Make random cancel request (reg, out)).2 = (obj, None) ↔
  ∃ o u res, obj = Some o ∧ parse (Url request) = Ok u ∧ good res o ∧
    if bool_decide (StubID request ≠ []) && enableStubs reg
    then (CallStub StatusText canonical random cancel (StubID request) reg).2 = Ok (Some res)
    else NewRequest (req_Method request) (target request u) = None ∧ Do (to_send request u) = Ok (Some res).
Proof.
  unfold MakeHTTPRequest. destruct (parse (Url request)) as [u|e]; cbn [fst snd].
  2: { split; [done|]. intros (? & ? & ? & _ & ? & _). done. }
  fold (target request u) (to_send request u).
  destruct (bool_decide _ && enableStubs reg) eqn:Hb; cbn [fst snd].
  - apply andb_true_iff in Hb as [_ Hen].
    pose proof (CallStub_some StatusText canonical random cancel (StubID request) reg Hen) as Hsome.
    destruct (CallStub _ _ _ _ _ _) as [reg' [[res|]|e]]; cbn [fst snd] in *; [|done|].
    + rewrite read_response_good. split; [intros (o & -> & Hg); exists o, u, res; done|].
      intros (o & u' & res' & -> & _ & Hg & [= <-]). eauto.
    + split; [done|]. intros (? & ? & ? & _ & _ & _ & ?). done.
  - destruct (NewRequest _ _) eqn:HN; cbn [fst snd].
    { split; [done|]. intros (? & ? & ? & _ & [= <-] & _ & ? & _). congruence. }
    destruct (Do _) as [[res|]|e] eqn:HD; cbn [fst snd].
    + rewrite read_response_good. split; [intros (o & -> & Hg); exists o, u, res; done|].
      intros (o & u' & res' & -> & [= <-] & Hg & _ & HD'). rewrite HD in HD'. injection HD' as <-. eauto.
    + split; [done|]. intros (? & ? & ? & _ & [= <-] & _ & _ & HD'). congruence.
    + split; [done|]. intros (? & ? & ? & _ & [= <-] & _ & _ & HD'). congruence.
Qed.

(** What goes out: nothing for a request that its stub answers or refuses, whatever the stub
    does; otherwise the one request, once its URL is read and it can be built; and no stub is
    touched by a request that goes out. *)
Theorem MakeHTTPRequest_sends random cancel request reg out :
  let '((reg', out'), _) := Make random cancel request (reg, out) in
  out' = out ++ match parse (Url request) with
                | Ok u => if bool_decide (StubID request ≠ []) && enableStubs reg then []
                          else if NewRequest (req_Method request) (target request u) is Some _ then [] else [to_send request u]
                | Err _ => []
                end ∧
  (out' ≠ out → reg' = reg).
Proof.
  unfold MakeHTTPRequest. destruct (parse (Url request)) as [u|e]; [|cbn; by rewrite app_nil_r]. cbn [fst snd].
  fold (target request u) (to_send request u).
  destruct (bool_decide _ && enableStubs reg) eqn:Hb; cbn [fst snd].
  - apply andb_true_iff in Hb as [_ Hen].
    pose proof (CallStub_some StatusText canonical random cancel (StubID request) reg Hen) as Hsome.
    destruct (CallStub _ _ _ _ _ _) as [reg' [[res|]|e]]; cbn [fst snd] in *; [|done|]; cbv beta iota; rewrite app_nil_r; (split; [done|congruence]).
  - destruct (NewRequest _ _); cbn [fst snd]; [by rewrite app_nil_r|].
    by destruct (Do _) as [[res|]|e].
Qed.
End requests.

(** ** Parameters and forms *)

(** What a wanted parameter reads as. *)
Definition read_param (form : gmap text (list text)) (k : text * bool) : option param :=
  vs ← form !! k.1; (if k.2 then PInt <$> Url.Atoi (default [] (head vs)) else Some (PText (default [] (head vs)))).

Lemma params_loop_step form key int keys m : params_loop form ((key, int) :: keys) m =
  match read_param form (key, int) with
  | Some v => params_loop form keys (<[key := v]> m)
  | None => Err (if (form !! key) is Some _ then InvalidInt key else Required key)
  end.
Proof. cbn. unfold read_param. cbn. destruct (form !! key) as [vs|]; [|done]. cbn. destruct int; [|done]. by destruct (Url.Atoi _). Qed.

(** What the loop over [keys] leaves under [key], from the values [m]. *)
Definition collected (form : gmap text (list text)) (keys : list (text * bool)) (m : gmap text param) (key : text) (v : param) : Prop :=
  (∃ int, (key, int) ∈ keys ∧ read_param form (key, int) = Some v) ∨ (m !! key = Some v ∧ key ∉ keys.*1).

Lemma collected_cons form key int keys m v key' v' : key ∉ keys.*1 → read_param form (key, int) = Some v →
  collected form keys (<[key := v]> m) key' v' ↔ collected form ((key, int) :: keys) m key' v'.
Proof.
  intros Hnew Hv. unfold collected. rewrite fmap_cons, not_elem_of_cons. setoid_rewrite elem_of_cons. cbn [fst].
  destruct (decide (key' = key)) as [->|Hne].
  - rewrite lookup_insert_eq. split.
    + intros [(i & Hi & Hr)|[[= <-] _]]; left; eauto.
    + intros [(i & [[= ->]|Hi] & Hr)|[_ [? _]]]; [right; split; [congruence|done] | left; eauto | done].
  - rewrite lookup_insert_ne by done. naive_solver.
Qed.

Lemma params_loop_ok form keys m values : NoDup keys.*1 →
  params_loop form keys m = Ok values ↔ (∀ k, k ∈ keys → is_Some (read_param form k)) ∧ (∀ key v, values !! key = Some v ↔ collected form keys m key v).
Proof.
  revert m. induction keys as [|[key int] keys IH]; intros m; rewrite ?fmap_cons, ?NoDup_cons.
  - intros _. cbn [params_loop]. unfold collected. split.
    + intros [= <-]. split; [by intros ? ?%not_elem_of_nil|]. intros key v. set_solver.
    + intros [_ H]. f_equal. apply map_eq. intros key. apply option_eq. intros v. rewrite H. set_solver.
  - intros [Hnew Hnd]. rewrite params_loop_step. cbn [fst] in Hnew.
    destruct (read_param form (key, int)) as [v|] eqn:Hv.
    2: { split; [done|]. intros [H _]. destruct (H (key, int)) as [? ?]; [left|congruence]. }
    rewrite IH by done. setoid_rewrite (collected_cons form key int keys m v _ _ Hnew Hv). setoid_rewrite elem_of_cons.
    split; intros [H1 H2]; (split; [|done]); [|by auto]. intros k [->|Hk]; [by rewrite Hv|auto].
Qed.

(** The parameters of a request, of the query as of the form: they are there exactly when
    every wanted one is present and, where an integer is wanted, is one; each then has its
    first value, and nothing else is returned. *)
Theorem GetParams_spec form keys values : NoDup keys.*1 →
  ValidateAndFetchGetParams form keys = ValidateAndFetchPostParams (Some form) keys ∧
  (ValidateAndFetchGetParams form keys = Ok values ↔
   (∀ k, k ∈ keys → is_Some (read_param form k)) ∧
   (∀ key v, values !! key = Some v ↔ ∃ int, (key, int) ∈ keys ∧ read_param form (key, int) = Some v)).
Proof.
  intros Hnd. split; [done|]. unfold ValidateAndFetchGetParams. rewrite params_loop_ok by done. unfold collected.
  setoid_rewrite lookup_empty. naive_solver.
Qed.

(** The order in which the map of wanted parameters is walked has no effect on the
    parameters, or on whether there are any: it only chooses the error. *)
Theorem GetParams_any_order form keys keys' values : NoDup keys.*1 → keys ≡ₚ keys' →
  ValidateAndFetchGetParams form keys = Ok values ↔ ValidateAndFetchGetParams form keys' = Ok values.
Proof.
  intros Hnd Hp. unfold ValidateAndFetchGetParams. assert (Hnd' : NoDup keys'.*1) by (by rewrite <- Hp).
  rewrite !params_loop_ok by done. unfold collected. by setoid_rewrite Hp.
Qed.

(** A form sets the fields its parameters can set and leaves the others: a parameter that is
    absent, empty or malformed is not reported, and the field keeps what it had. *)
Theorem form_loop_spec get fs obj obj' : length fs = length obj → form_loop get fs obj = Ret obj' →
  length obj' = length obj ∧
  ∀ i f v, fs !! i = Some f → obj !! i = Some v → obj' !! i = Some (default v (form_value f (get (or_text (form_tag f) (f_name f))))).
Proof.
  revert obj obj'. induction fs as [|f fs IH]; intros [|v obj] obj' Hl E; try done.
  { injection E as <-. split; [done|]. by intros [] ???. }
  cbn [form_loop] in E. injection Hl as Hl.
  destruct (form_value f _) as [v'|] eqn:Hv; [destruct (f_settable f); [|done]|];
    (destruct (form_loop get fs obj) as [rest|] eqn:Er; [|done]; injection E as <-; destruct (IH obj rest Hl Er) as [IH1 IH2];
     split; [cbn; lia|]; intros [|i] f' w; [intros [= <-] [= <-]; cbn [lookup list_lookup]; by rewrite Hv | apply IH2]).
Qed.

(** ** Downloads *)

(** A byte that may stand inside the quotes of a header. *)
Definition header_safe (c : ascii) : bool :=
  negb (Url.one_of [char_dquote; char 92] c) && (32 <=? byte_of_ascii c) && negb (byte_of_ascii c =? 127).

Lemma safe_forallb s : forallb header_safe s = true → Forall (λ c, header_safe c = true) s.
Proof. rewrite forallb_forall. intros H. apply Forall_forall. intros c Hc. by apply H, list_elem_of_In. Qed.

Lemma sanitize_byte_safe c : forallb header_safe (FileSys.sanitize_byte c) = true.
Proof. revert c. apply Url.every_byte. by vm_compute. Qed.

Lemma escape_safe s : Forall (λ c, header_safe c = true) (Url.PathEscape s).
Proof.
  apply Forall_forall. intros c (d & Hc & _)%list_elem_of_bind. revert c Hc. apply Forall_forall, safe_forallb.
  revert d. apply Url.every_byte. by vm_compute.
Qed.

Lemma Sanitize_safe name safe encoded : FileSys.SanitizeFilename name (str "download") = (safe, encoded) →
  Forall (λ c, header_safe c = true) safe ∧ safe ≠ [] ∧ encoded = Url.PathEscape safe.
Proof.
  unfold FileSys.SanitizeFilename. destruct (name ≫= FileSys.sanitize_byte) as [|c s] eqn:E; intros [= <- <-].
  - split; [by apply safe_forallb|done].
  - split; [|done]. rewrite <- E. apply Forall_forall. intros d (x & Hd & _)%list_elem_of_bind.
    revert d Hd. apply Forall_forall, safe_forallb, sanitize_byte_safe.
Qed.

(** Whatever the name of a download, its header has a quoted name with no quote, backslash or
    control byte in it, so that nothing can be added to the header or after it, and an encoded
    name that reads back as the same one. *)
Theorem Download_header_safe Detect name contentType data :
  ∃ safe encoded,
    (str "Content-Disposition", str "attachment; filename=" ++ char_dquote :: safe ++ char_dquote :: str "; filename*=UTF-8''" ++ encoded)
      ∈ DownloadBytes Detect name contentType data ∧
    safe ≠ [] ∧ Forall (λ c, header_safe c = true) safe ∧ Forall (λ c, header_safe c = true) encoded ∧ Url.unescape encoded = Some safe.
Proof.
  unfold DownloadBytes. destruct (FileSys.SanitizeFilename name (str "download")) as [safe encoded] eqn:E.
  destruct (Sanitize_safe _ _ _ E) as (H1 & H2 & ->). exists safe, (Url.PathEscape safe).
  split; [right; right; left|]. split; [done|]. split; [done|]. split; [apply escape_safe|by apply Url.unescape_escape].
Qed.

(** ** Witnesses *)

Definition demo_stub : StubEntry :=
  mkStub (str "a") (str "/x") (str "GET") 200 None (str "{}") [] 0 0 [] (f64_of_Z 1) 2 0 None.
Definition demo_registry : registry := mkRegistry true (<[str "a" := 0%nat]> {[str "b" := 0%nat]}) {[0%nat := demo_stub]}.
Definition demo_calls : list stub_call := [(Some 0, None, str "a"); (Some 0, None, str "b"); (Some 0, None, str "a"); (Some 0, None, str "c")].

(** Three calls of an entry of two hits, under two names. *)
Lemma stub_budget_witness : served demo_registry 0 demo_calls (CallStubs (λ _, []) id demo_calls demo_registry).2 = 2.
Proof.
  assert (served demo_registry 0 demo_calls (CallStubs (λ _, []) id demo_calls demo_registry).2
          = Z.min (calls_of demo_registry 0 demo_calls) (MaxHits demo_stub - HitCount demo_stub)) as ->.
  { assert (H := stub_budget (λ _, []) id demo_calls demo_registry 0 demo_stub eq_refl ltac:(by vm_compute) ltac:(done) ltac:(done) ltac:(done)).
    destruct (CallStubs (λ _, []) id demo_calls demo_registry) as [w rs]. exact (proj1 H). }
  by vm_compute.
Defined.

Definition demo_form : gmap text (list text) := <[str "i" := [str "7"]]> {[str "q" := [str "x"; str "y"]]}.
Definition demo_keys : list (text * bool) := [(str "i", true); (str "q", false)].

Lemma GetParams_spec_witness : ∀ k, k ∈ demo_keys → is_Some (read_param demo_form k).
Proof.
  destruct (GetParams_spec demo_form demo_keys (<[str "q" := PText (str "x")]> {[str "i" := PInt 7]})) as [_ H]; [apply (bool_decide_unpack _); by vm_compute|].
  by destruct H as [[H _] _]; [vm_compute|].
Defined.

Lemma GetParams_any_order_witness : ValidateAndFetchGetParams demo_form (reverse demo_keys) = Ok (<[str "q" := PText (str "x")]> {[str "i" := PInt 7]}).
Proof.
  apply (GetParams_any_order demo_form demo_keys); [apply (bool_decide_unpack _); by vm_compute|by rewrite reverse_Permutation|by vm_compute].
Defined.

(** A malformed number leaves the field as it was. *)
Definition demo_fields : list ffield := [mkFField (str "age") (str "Age") FInt true; mkFField [] (str "Name") FString true].
Definition demo_get (k : text) : text := if decide (k = str "age") then str "12x" else if decide (k = str "Name") then str "ada" else [].

Lemma form_loop_spec_witness : length [FVInt 3; FVText (str "ada")] = 2%nat.
Proof.
  apply (form_loop_spec demo_get demo_fields [FVInt 3; FVText []] [FVInt 3; FVText (str "ada")]); [done|by vm_compute].
Defined.

End Rest.
