(* ===== verification/Encoding.v ===== *)
(** * Encodings, checksums and encryption ([src/utils/encoding/{html,hash,encryption,compression,urlencode}.go])

    HTML entities through [strings.ReplaceAll], tags, the FNV, CRC-32 and Adler-32 functions
    of the standard library, the framing of AES-GCM on top of an authenticated cipher, and
    gzip's writer and reader. The SHA functions, gzip and the cipher are parameters. *)

From Stdlib Require Import ZArith Lia Ascii.
From stdpp Require Import base list strings.
From S2P Require Import Prelude SqlText Url Collections RestUrl Unicode.
Local Open Scope Z_scope.

Module Encoding.

(** ** HTML *)

(** [strings.ReplaceAll] for a non-empty [old], with a unit of fuel for each byte. *)
Fixpoint replace_loop (fuel : nat) (s old new : text) : text :=
  match fuel with
  | O => s
  | S fuel =>
      match strip_prefix old s with
      | Some rest => new ++ replace_loop fuel rest old new
      | None => match s with [] => [] | c :: s => c :: replace_loop fuel s old new end
      end
  end.
Definition ReplaceAll (s old new : text) : text := replace_loop (length s) s old new.

Fixpoint Contains (s p : text) : bool :=
  HasPrefix s p || match s with [] => false | _ :: s => Contains s p end.

Definition quote : ascii := char 39.
Definition amp : text := str "&".
Definition e_amp : text := str "&amp;".
Definition e_quot : text := str "&quot;".
Definition e_39 : text := str "&#39;".
Definition e_lt : text := str "&lt;".
Definition e_gt : text := str "&gt;".

Definition EncodeSpecialChars (s : text) : text :=
  let s := ReplaceAll s amp e_amp in
  let s := ReplaceAll s [char_dquote] e_quot in
  let s := ReplaceAll s [quote] e_39 in
  let s := ReplaceAll s (str "<") e_lt in
  ReplaceAll s (str ">") e_gt.

Definition DecodeSpecialChars (s : text) : text :=
  let s := ReplaceAll s e_quot [char_dquote] in
  let s := ReplaceAll s e_39 [quote] in
  let s := ReplaceAll s e_lt (str "<") in
  let s := ReplaceAll s e_gt (str ">") in
  ReplaceAll s e_amp amp.

(** [html.EscapeString] replaces in one pass. *)
Definition html_escape1 (c : ascii) : text :=
  if Ascii.eqb c (char 38) then e_amp
  else if Ascii.eqb c quote then e_39
  else if Ascii.eqb c (char 60) then e_lt
  else if Ascii.eqb c (char 62) then e_gt
  else if Ascii.eqb c char_dquote then str "&#34;"
  else [c].
Definition HTMLEscape (s : text) : text := s ≫= html_escape1.

(** [html.UnescapeString] knows all the named entities. *)
Definition HTMLUnescape (UnescapeString : text → text) (s : text) : text := UnescapeString s.

Definition IsHTMLEscaped (s : text) : bool :=
  Contains s e_lt || Contains s e_gt || Contains s e_amp || Contains s e_quot || Contains s e_39.
Definition ContainsHTMLTags (s : text) : bool := Contains s (str "<") && Contains s (str ">").

(** The loop goes over characters. *)
Fixpoint strip_tags (inTag : bool) (rs : list Z) : list Z :=
  match rs with
  | [] => []
  | r :: rs =>
      if r =? 60 then strip_tags true rs
      else if r =? 62 then strip_tags false rs
      else if inTag then strip_tags inTag rs
      else r :: strip_tags inTag rs
  end.
Definition StripHTMLTags (s : list Z) : list Z := Unicode.string_of_runes (strip_tags false (Unicode.runes s)).

Definition URLEncode (input : text) : text := Url.QueryEscape input.
Definition URLDecode (input : text) : option text := RestUrl.QueryUnescape input.

(** ** Checksums *)

Definition hex_byte (b : Z) : text := [RestUrl.hex_digit (Z.shiftr b 4); RestUrl.hex_digit (Z.land b 15)].
Definition EncodeToString (bs : list Z) : text := bs ≫= hex_byte.

(** The [n] bytes of a number, the most significant first. *)
Definition big_endian (n : nat) (x : Z) : list Z := (λ i, Z.land (Z.shiftr x (8 * Z.of_nat i)) 255) <$> reverse (seq 0 n).

Definition HashSHA256 (Sum256 : list Z → list Z) (input : list Z) : text := EncodeToString (Sum256 input).
Definition HashSHA512 (Sum512 : list Z → list Z) (input : list Z) : text := EncodeToString (Sum512 input).

(** [fnv.New32] and [fnv.New64]: multiply, then exclusive or. *)
Definition fnv (w offset prime : Z) (input : list Z) : Z := foldl (λ h b, Z.lxor (wrap w (h * prime)) b) offset input.
Definition HashFNV32 (input : list Z) : text := EncodeToString (big_endian 4 (fnv 32 2166136261 16777619 input)).
Definition HashFNV64 (input : list Z) : text := EncodeToString (big_endian 8 (fnv 64 14695981039346656037 1099511628211 input)).

(** CRC-32 with the reversed IEEE polynomial, a bit at a time. *)
Definition IEEE : Z := 0xedb88320.
Definition crc_bit (x : Z) : Z := Z.lxor (Z.shiftr x 1) (if Z.odd x then IEEE else 0).
Definition crc_byte (crc b : Z) : Z := Nat.iter 8 crc_bit (Z.lxor crc b).
Definition ChecksumCRC32 (input : list Z) : Z := Z.lxor (foldl crc_byte 0xffffffff input) 0xffffffff.

(** Adler-32: two sums modulo a prime. *)
Definition adler_mod : Z := 65521.
Definition adler_step (s : Z * Z) (b : Z) : Z * Z :=
  let s1 := (s.1 + b) mod adler_mod in (s1, (s.2 + s1) mod adler_mod).
Definition ChecksumAdler32 (input : list Z) : Z :=
  let '(s1, s2) := foldl adler_step (1, 0) input in Z.lor (Z.shiftl s2 16) s1.

(** ** Encryption *)

(** [cipher.AEAD] for a key: sizes, [Seal] and [Open] without additional data. *)
Class AEAD (K : Type) : Type := {
  NewCipher : list Z → option K;
  NonceSize : nat;
  Overhead : nat;
  Seal : K → list Z → list Z → list Z;
  Open : K → list Z → list Z → option (list Z);
}.

(** What a cipher promises: the tag adds its size, and what opens is what was sealed. *)
Class AEADLaws (K : Type) `{AEAD K} : Prop := {
  Seal_length : ∀ k nonce plain, length (Seal k nonce plain) = (length plain + Overhead)%nat;
  Open_Seal : ∀ k nonce plain c, length nonce = NonceSize → Open k nonce c = Some plain ↔ c = Seal k nonce plain;
}.

Definition aesGCMCiphertextPrefix : list Z := [80; 65; 71; 49].

Inductive aes_error : Type := BadKey | NoNonce (e : string) | TooShort | BadFormat | AuthFailed.

Section aes.
Context {K : Type} `{AEAD K}.

Definition newAESGCM (key : list Z) : result aes_error K := match NewCipher key with Some k => Ok k | None => Err BadKey end.

(** [random] is what reading the nonce gives. *)
Definition EncryptAES (random : result string (list Z)) (plain key : list Z) : result aes_error (list Z) :=
  match newAESGCM key with
  | Err e => Err e
  | Ok gcm =>
      match random with
      | Err e => Err (NoNonce e)
      | Ok nonce => Ok (aesGCMCiphertextPrefix ++ nonce ++ Seal gcm nonce plain)
      end
  end.

Definition DecryptAES (ciphertext key : list Z) : result aes_error (list Z) :=
  match newAESGCM key with
  | Err e => Err e
  | Ok gcm =>
      let prefixLen := length aesGCMCiphertextPrefix in
      if (length ciphertext <? prefixLen + NonceSize + Overhead)%nat then Err TooShort
      else if negb (bool_decide (take prefixLen ciphertext = aesGCMCiphertextPrefix)) then Err BadFormat
      else
        let nonce := take NonceSize (drop prefixLen ciphertext) in
        let encrypted := drop (prefixLen + NonceSize) ciphertext in
        match Open gcm nonce encrypted with
        | None => Err AuthFailed
        | Some plain => Ok plain
        end
  end.
End aes.

(** ** Compression *)

(** What writing and closing give, and the bytes then in the buffer. *)
Definition CompressGzip (write close : option string) (buf : list Z) : result string (list Z) :=
  match write with
  | Some e => Err e
  | None => match close with Some e => Err e | None => Ok buf end
  end.

(** The reader, what is read and its error, and the error of closing. *)
Definition DecompressGzip (reader : result string (list Z * option string)) (close : option string) : list Z * option string :=
  match reader with
  | Err e => ([], Some e)
  | Ok (decompressed, err) =>
      match close with
      | Some e => (decompressed, Some e)
      | None => (decompressed, err)
      end
  end.

(** ** Known values *)

Definition check_input : list Z := byte_of_ascii <$> str "123456789".

(** The check values of the algorithms. *)
Example checksums : ChecksumCRC32 check_input = 0xcbf43926 ∧ ChecksumAdler32 check_input = 0x091e01de ∧
  HashFNV32 [97] = str "050c5d7e" ∧ HashFNV64 [97] = str "af63bd4c8601b7be".
Proof. by vm_compute. Qed.

(** FNV-1a takes the exclusive or first: it is another function. *)
Definition fnv1a (w offset prime : Z) (input : list Z) : Z := foldl (λ h b, wrap w (Z.lxor h b * prime)) offset input.

(** The 32-bit and 64-bit hashes are FNV-1 and not FNV-1a. *)
Theorem HashFNV_is_not_1a : ∃ input, HashFNV32 input ≠ EncodeToString (big_endian 4 (fnv1a 32 2166136261 16777619 input)) ∧
  HashFNV64 input ≠ EncodeToString (big_endian 8 (fnv1a 64 14695981039346656037 1099511628211 input)).
Proof. exists [97]. by vm_compute. Qed.

(** ** Replacing *)

Lemma replace_enough old new : old ≠ [] → ∀ n m s, (length s ≤ n)%nat → (length s ≤ m)%nat → replace_loop n s old new = replace_loop m s old new.
Proof.
  intros Hold. induction n as [|n IH]; intros [|m] s Hn Hm.
  - done.
  - destruct s; [|cbn in Hn; lia]. cbn. by destruct old.
  - destruct s; [|cbn in Hm; lia]. cbn. by destruct old.
  - cbn [replace_loop]. destruct (strip_prefix old s) as [rest|] eqn:E.
    + apply strip_prefix_Some in E as ->. destruct old as [|c old]; [done|]. rewrite !length_app in *. cbn [length] in *. f_equal. apply IH; lia.
    + destruct s as [|c s]; [done|]. cbn in Hn, Hm. f_equal. apply IH; lia.
Qed.

Lemma ReplaceAll_here old new rest : old ≠ [] → ReplaceAll (old ++ rest) old new = new ++ ReplaceAll rest old new.
Proof.
  intros Hold. unfold ReplaceAll. rewrite (replace_enough old new Hold _ (S (length rest + length old))) by (rewrite ?length_app; lia).
  cbn [replace_loop]. assert (strip_prefix old (old ++ rest) = Some rest) as -> by (by apply strip_prefix_Some).
  f_equal. apply replace_enough; [done|lia..].
Qed.

(** [p] does not match the beginning of [t], whatever follows it. *)
Fixpoint clash (p t : text) : bool :=
  match p, t with
  | a :: p, b :: t => if Ascii.eqb a b then clash p t else true
  | _, _ => false
  end.

(** No match of [p] begins in [t], whatever follows it. *)
Fixpoint free (p t : text) : bool := match t with [] => true | _ :: t' => clash p t && free p t' end.

Lemma clash_none p t rest : clash p t = true → strip_prefix p (t ++ rest) = None.
Proof.
  revert t. induction p as [|a p IH]; intros [|b t]; cbn; try done. intros Hc.
  destruct (Ascii.eqb_spec a b) as [->|Hne]; [rewrite bool_decide_true by done; auto|by rewrite bool_decide_false].
Qed.

Lemma ReplaceAll_free old new t rest : old ≠ [] → free old t = true → ReplaceAll (t ++ rest) old new = t ++ ReplaceAll rest old new.
Proof.
  intros Hold. induction t as [|c t IH]; [done|]. cbn [free]. intros [Hc Hf]%andb_true_iff.
  unfold ReplaceAll at 1. cbn [app length replace_loop]. rewrite (clash_none old (c :: t) rest Hc : strip_prefix old (c :: t ++ rest) = None).
  f_equal. by apply IH.
Qed.

(** Replacing turns the text written with the table [T] into the one written with [T']. *)
Definition table_step (old new : text) (T T' : ascii → text) (c : ascii) : bool :=
  if bool_decide (T c = old) then bool_decide (T' c = new) else free old (T c) && bool_decide (T' c = T c).

Lemma ReplaceAll_table old new T T' s : old ≠ [] → forallb (table_step old new T T') Url.all_ascii = true →
  ReplaceAll (s ≫= T) old new = s ≫= T'.
Proof.
  intros Hold Ht. induction s as [|c s IH]; [by destruct old|]. cbn [mbind list_bind].
  pose proof (Url.every_byte _ Ht c) as Hc. unfold table_step in Hc. case_bool_decide as E.
  - rewrite E, ReplaceAll_here by done. apply bool_decide_eq_true in Hc as ->. f_equal. exact IH.
  - apply andb_true_iff in Hc as [Hf Hc%bool_decide_eq_true]. rewrite ReplaceAll_free, Hc by done. f_equal. exact IH.
Qed.

(** A table: some bytes are written as entities, the others as themselves. *)
Fixpoint table (l : list (ascii * text)) (c : ascii) : text :=
  match l with [] => [c] | (d, e) :: l => if Ascii.eqb d c then e else table l c end.

Lemma table_nil s : s ≫= table [] = s.
Proof. induction s as [|c s IH]; [done|]. cbn. f_equal. exact IH. Qed.

Definition t1 := [(char 38, e_amp)].
Definition t2 := (char_dquote, e_quot) :: t1.
Definition t3 := (quote, e_39) :: t2.
Definition t4 := (char 60, e_lt) :: t3.
Definition t5 := (char 62, e_gt) :: t4.

(** The five passes of encoding are one pass over the bytes. *)
Lemma Encode_table s : EncodeSpecialChars s = s ≫= table t5.
Proof.
  unfold EncodeSpecialChars. rewrite <- (table_nil s) at 1.
  rewrite (ReplaceAll_table amp e_amp _ (table t1)), (ReplaceAll_table [char_dquote] e_quot _ (table t2)), (ReplaceAll_table [quote] e_39 _ (table t3)),
    (ReplaceAll_table (str "<") e_lt _ (table t4)), (ReplaceAll_table (str ">") e_gt _ (table t5)); done.
Qed.

(** Decoding undoes encoding, on text that has entities in it too. *)
Theorem SpecialChars_roundtrip s : DecodeSpecialChars (EncodeSpecialChars s) = s.
Proof.
  rewrite Encode_table. unfold DecodeSpecialChars.
  rewrite (ReplaceAll_table e_quot [char_dquote] _ (table [(quote, e_39); (char 60, e_lt); (char 62, e_gt); (char 38, e_amp)])),
    (ReplaceAll_table e_39 [quote] _ (table [(char 60, e_lt); (char 62, e_gt); (char 38, e_amp)])),
    (ReplaceAll_table e_lt (str "<") _ (table [(char 62, e_gt); (char 38, e_amp)])), (ReplaceAll_table e_gt (str ">") _ (table t1)),
    (ReplaceAll_table e_amp amp _ (table [])) by done.
  apply table_nil.
Qed.

(** Nothing that opens or closes a tag or an attribute is left by either escaping. *)
Theorem escaped_is_safe s c : c ∈ [char 60; char 62; char_dquote; quote] → (c ∉ EncodeSpecialChars s) ∧ (c ∉ HTMLEscape s).
Proof.
  intros Hc. rewrite Encode_table. unfold HTMLEscape.
  assert (Hall : ∀ d, negb (Url.one_of (table t5 d) c) && negb (Url.one_of (html_escape1 d) c) = true).
  { repeat (apply elem_of_cons in Hc as [->|Hc]; [apply Url.every_byte; by vm_compute|]). by apply not_elem_of_nil in Hc. }
  split; intros (d & Hd%Url.one_of_spec & _)%list_elem_of_bind; specialize (Hall d); rewrite Hd in Hall; [done|].
  by apply andb_true_iff in Hall as [_ ?].
Qed.

(** What is outside tags is kept and nothing of a tag is: text without brackets is kept as it
    is, and no bracket is left. *)
Theorem StripHTMLTags_spec s :
  strip_tags false (Unicode.runes s) = strip_tags false (strip_tags false (Unicode.runes s)) ∧
  (60 ∉ strip_tags false (Unicode.runes s)) ∧ (62 ∉ strip_tags false (Unicode.runes s)) ∧
  (60 ∉ Unicode.runes s → 62 ∉ Unicode.runes s → StripHTMLTags s = Unicode.string_of_runes (Unicode.runes s)).
Proof.
  assert (Hid : ∀ rs, 60 ∉ rs → 62 ∉ rs → strip_tags false rs = rs).
  { induction rs as [|r rs IH]; [done|]. rewrite !not_elem_of_cons. intros [H1 H2] [H3 H4]. cbn.
    rewrite !(proj2 (Z.eqb_neq _ _)) by done. f_equal. auto. }
  assert (Hout : ∀ b rs, (60 ∉ strip_tags b rs) ∧ (62 ∉ strip_tags b rs)).
  { intros b rs. revert b. induction rs as [|r rs IH]; intros b; [split; apply not_elem_of_nil|]. cbn.
    destruct (Z.eqb_spec r 60); [auto|]. destruct (Z.eqb_spec r 62); [auto|]. destruct b; [auto|]. rewrite !not_elem_of_cons. destruct (IH false). auto. }
  split; [symmetry; apply Hid; apply Hout|]. split; [apply Hout|]. split; [apply Hout|]. intros H1 H2. unfold StripHTMLTags. by rewrite Hid.
Qed.

(** ** Checksums *)

Definition is_byte (b : Z) : Prop := 0 <= b < 2 ^ 8.

Lemma lxor_cancel a b c : Z.lxor a c = Z.lxor b c → a = b.
Proof. intros E. apply (f_equal (λ x, Z.lxor x c)) in E. by rewrite !Z.lxor_assoc, !Z.lxor_nilpotent, !Z.lxor_0_r in E. Qed.

Lemma shiftr1_range x : 0 <= x < 2 ^ 32 → 0 <= Z.shiftr x 1 < 2 ^ 31.
Proof. intros Hx. rewrite Z.shiftr_div_pow2 by lia. split; [apply Z.div_pos; lia|apply Z.div_lt_upper_bound; lia]. Qed.

Lemma crc_bit_range x : 0 <= x < 2 ^ 32 → 0 <= crc_bit x < 2 ^ 32.
Proof. intros Hx. apply shiftr1_range in Hx. unfold crc_bit. apply lxor_u; [lia|lia|]. by destruct (Z.odd x). Qed.

(** The top bit says whether the polynomial was added. *)
Lemma crc_bit_top x : 0 <= x < 2 ^ 32 → Z.testbit (crc_bit x) 31 = Z.odd x.
Proof.
  intros Hx%shiftr1_range. unfold crc_bit. rewrite Z.lxor_spec.
  rewrite (testbit_high 31) by lia. by destruct (Z.odd x).
Qed.

Lemma crc_bit_inj x y : 0 <= x < 2 ^ 32 → 0 <= y < 2 ^ 32 → crc_bit x = crc_bit y → x = y.
Proof.
  intros Hx Hy E. assert (Z.odd x = Z.odd y) as Ho by (rewrite <- !crc_bit_top, E by done; done).
  unfold crc_bit in E. rewrite Ho in E. apply lxor_cancel in E. rewrite <- !Z.div2_spec in E.
  rewrite (Z.div2_odd x), (Z.div2_odd y). by rewrite E, Ho.
Qed.

Lemma crc_iter n x y : 0 <= x < 2 ^ 32 → 0 <= y < 2 ^ 32 →
  (0 <= Nat.iter n crc_bit x < 2 ^ 32) ∧ (Nat.iter n crc_bit x = Nat.iter n crc_bit y → x = y).
Proof.
  intros Hx Hy. assert (Hr : ∀ z m, 0 <= z < 2 ^ 32 → 0 <= Nat.iter m crc_bit z < 2 ^ 32).
  { intros z m Hz. induction m as [|m IH]; [done|]. by apply crc_bit_range. }
  split; [auto|]. induction n as [|n IH]; [done|]. intros E. apply IH, crc_bit_inj; auto.
Qed.

Lemma crc_byte_unfold x b : crc_byte x b = Nat.iter 8 crc_bit (Z.lxor x b).
Proof. reflexivity. Qed.

Lemma is_byte_32 b : is_byte b → 0 <= b < 2 ^ 32.
Proof. unfold is_byte. lia. Qed.

Lemma crc_byte_range x b : 0 <= x < 2 ^ 32 → is_byte b → 0 <= crc_byte x b < 2 ^ 32.
Proof. intros Hx Hb%is_byte_32. rewrite crc_byte_unfold. apply (crc_iter 8 _ 0); [by apply lxor_u|done]. Qed.

Lemma crc_fold q x y : Forall is_byte q → 0 <= x < 2 ^ 32 → 0 <= y < 2 ^ 32 →
  (0 <= foldl crc_byte x q < 2 ^ 32) ∧ (foldl crc_byte x q = foldl crc_byte y q → x = y).
Proof.
  intros Hq. revert x y. induction Hq as [|b q Hb _ IH]; intros x y Hx Hy; [done|]. cbn [foldl].
  destruct (IH (crc_byte x b) (crc_byte y b)) as [H1 H2]; [by apply crc_byte_range..|]. split; [done|].
  intros E%H2. apply is_byte_32 in Hb. rewrite !crc_byte_unfold in E. apply crc_iter in E; [by apply lxor_cancel in E|by apply lxor_u..].
Qed.

Lemma adler_close x y : x mod adler_mod = y mod adler_mod → - adler_mod < x - y < adler_mod → x = y.
Proof.
  intros E Hd. assert ((x - y) mod adler_mod = 0) as H by (by rewrite Zminus_mod, E, Z.sub_diag).
  unfold adler_mod in *. apply Z.mod_divide in H as [k Hk]; lia.
Qed.

Lemma adler_fold q s1 s2 s1' s2' : 0 <= s1 < adler_mod → 0 <= s1' < adler_mod →
  0 <= (foldl adler_step (s1, s2) q).1 < adler_mod ∧
  ((foldl adler_step (s1, s2) q).1 = (foldl adler_step (s1', s2') q).1 → s1 = s1').
Proof.
  assert (Hp : ∀ z, 0 <= z mod adler_mod < adler_mod) by (intros z; by apply Z.mod_pos_bound).
  revert s1 s2 s1' s2'. induction q as [|b q IH]; intros s1 s2 s1' s2' H1 H2; [done|]. cbn [foldl]. unfold adler_step at 2 4 6. cbn [fst snd].
  destruct (IH ((s1 + b) mod adler_mod) ((s2 + (s1 + b) mod adler_mod) mod adler_mod) ((s1' + b) mod adler_mod) ((s2' + (s1' + b) mod adler_mod) mod adler_mod))
    as [IH1 IH2]; [apply Hp..|]. split; [done|]. intros E%IH2.
  apply adler_close in E; lia.
Qed.

Lemma crc_byte_inj x b b' : 0 <= x < 2 ^ 32 → is_byte b → is_byte b' → crc_byte x b = crc_byte x b' → b = b'.
Proof.
  intros Hx Hb%is_byte_32 Hb'%is_byte_32 E. rewrite !crc_byte_unfold in E. apply crc_iter in E; [|by apply lxor_u..].
  rewrite !(Z.lxor_comm x) in E. by apply lxor_cancel in E.
Qed.

Lemma crc_detects p b b' q x : 0 <= x < 2 ^ 32 → Forall is_byte p → is_byte b → is_byte b' → Forall is_byte q →
  foldl crc_byte x (p ++ b :: q) = foldl crc_byte x (p ++ b' :: q) → b = b'.
Proof.
  intros Hx Hp Hb Hb' Hq. rewrite !foldl_app. cbn [foldl]. destruct (crc_fold p x x Hp Hx Hx) as [Hr _].
  intros E. apply crc_fold in E; [|done|by apply crc_byte_range..]. by apply crc_byte_inj in E.
Qed.

Lemma adler_step_range s b : 0 <= (adler_step s b).1 < adler_mod.
Proof. by apply Z.mod_pos_bound. Qed.

Lemma adler_detects p b b' q : is_byte b → is_byte b' →
  (foldl adler_step (1, 0) (p ++ b :: q)).1 = (foldl adler_step (1, 0) (p ++ b' :: q)).1 → b = b'.
Proof.
  intros Hb Hb'. rewrite !foldl_app. cbn [foldl]. generalize (foldl adler_step (1, 0) p). intros s E.
  pose proof (adler_step_range s b) as H1. pose proof (adler_step_range s b') as H2.
  assert ((adler_step s b).1 = (adler_step s b').1) as E'.
  { destruct (adler_step s b) as [s1 s2], (adler_step s b') as [s1' s2']. by apply adler_fold in E. }
  unfold adler_step in E'. cbn [fst] in E'. apply adler_close in E'; unfold is_byte, adler_mod in *; lia.
Qed.

Lemma adler_low input : ChecksumAdler32 input mod 2 ^ 16 = (foldl adler_step (1, 0) input).1.
Proof.
  unfold ChecksumAdler32. destruct (adler_fold input 1 0 1 0) as [H _]; [done..|].
  destruct (foldl adler_step (1, 0) input) as [s1 s2]. cbn [fst] in *. assert (adler_mod = 65521) as Hm by done.
  rewrite lor_shiftl_add, Z.add_comm, Z_mod_plus_full by lia. apply Z.mod_small. lia.
Qed.

(** A single byte that is changed is seen by both checksums. *)
Theorem checksums_detect_a_byte p b b' q : Forall is_byte p → is_byte b → is_byte b' → Forall is_byte q → b ≠ b' →
  ChecksumCRC32 (p ++ b :: q) ≠ ChecksumCRC32 (p ++ b' :: q) ∧ ChecksumAdler32 (p ++ b :: q) ≠ ChecksumAdler32 (p ++ b' :: q).
Proof.
  intros Hp Hb Hb' Hq Hne. split; intros E; apply Hne.
  - unfold ChecksumCRC32 in E. apply lxor_cancel in E. by apply crc_detects in E.
  - apply (f_equal (λ x, x mod 2 ^ 16)) in E. rewrite !adler_low in E. by apply adler_detects in E.
Qed.

(** ** Encryption *)

Section aes_laws.
Context {K : Type} `{AEADLaws K}.

(** What decrypts is exactly what could have been encrypted under the key with some nonce;
    in particular, what [EncryptAES] gives. *)
Theorem DecryptAES_spec key gcm c plain : newAESGCM key = Ok gcm →
  DecryptAES c key = Ok plain ↔ ∃ nonce, length nonce = NonceSize ∧ EncryptAES (Ok nonce) plain key = Ok c.
Proof.
  intros Hk. unfold DecryptAES, EncryptAES. rewrite Hk. split.
  - destruct (_ <? _)%nat eqn:Hlen; [done|]. apply Nat.ltb_ge in Hlen. case_bool_decide as Hpre; cbn [negb]; [|done].
    destruct (Open gcm _ _) as [p|] eqn:HO; [|done]. intros [= ->].
    assert (Hn : length (take NonceSize (drop (length aesGCMCiphertextPrefix) c)) = NonceSize) by (rewrite length_take, length_drop; lia).
    apply Open_Seal in HO; [|done]. exists (take NonceSize (drop (length aesGCMCiphertextPrefix) c)). split; [done|]. f_equal.
    rewrite <- HO, <- Hpre at 1. rewrite <- drop_drop, take_drop, take_drop. done.
  - intros (nonce & Hn & E). assert (c = aesGCMCiphertextPrefix ++ nonce ++ Seal gcm nonce plain) as -> by congruence. cbv zeta. rewrite !length_app, Seal_length, Hn.
    rewrite (proj2 (Nat.ltb_ge _ _)) by lia. rewrite take_app_length, bool_decide_true by done. cbn [negb].
    rewrite <- drop_drop, drop_app_length, <- Hn, take_app_length, drop_app_length.
    by rewrite (proj2 (Open_Seal gcm nonce plain _ Hn) eq_refl).
Qed.
End aes_laws.

(** ** Witnesses *)

Lemma escaped_is_safe_witness : (char 60 ∉ EncodeSpecialChars (str "<b>&lt;")) ∧ (char 60 ∉ HTMLEscape (str "<b>&lt;")).
Proof. apply escaped_is_safe. left. Defined.

Lemma StripHTMLTags_spec_witness : StripHTMLTags [97; 98] = [97; 98].
Proof.
  destruct (StripHTMLTags_spec [97; 98]) as (_ & _ & _ & H). rewrite H; [done|..]; apply (bool_decide_unpack _); by vm_compute.
Defined.

Lemma checksums_detect_a_byte_witness : ChecksumCRC32 [1; 2; 3] ≠ ChecksumCRC32 [1; 4; 3] ∧ ChecksumAdler32 [1; 2; 3] ≠ ChecksumAdler32 [1; 4; 3].
Proof. apply (checksums_detect_a_byte [1] 2 4 [3]); repeat constructor; done. Defined.

(** A cipher that adds the key and the nonce as a tag. *)
#[local] Instance demo_AEAD : AEAD Z := {
  NewCipher key := match key with [k] => Some k | _ => None end;
  NonceSize := 2;
  Overhead := 3;
  Seal k nonce plain := plain ++ k :: take 2 (nonce ++ [0; 0]);
  Open k nonce c := let p := take (length c - 3) c in if bool_decide (c = p ++ k :: take 2 (nonce ++ [0; 0])) then Some p else None;
}.
#[local] Instance demo_AEADLaws : AEADLaws Z.
Proof.
  split.
  - intros k [|a [|b nonce]] plain; cbn [Seal demo_AEAD]; rewrite length_app; done.
  - intros k nonce plain c Hn. cbn [Seal Open NonceSize demo_AEAD] in *. cbv zeta. case_bool_decide as E.
    + split; [by intros [= <-]|]. intros ->. f_equal. rewrite length_app. cbn [length]. rewrite take_app_length'; [done|].
      rewrite length_take, length_app, Hn. cbn. lia.
    + split; [done|]. intros ->. destruct E. do 2 f_equal. rewrite take_app_length'; [done|].
      rewrite length_app. cbn [length]. rewrite length_take, length_app, Hn. cbn. lia.
Qed.

Lemma DecryptAES_spec_witness : DecryptAES (80 :: 65 :: 71 :: 49 :: [7; 8; 1; 2; 5; 7; 8]) [5] = Ok [1; 2].
Proof. apply (DecryptAES_spec [5] 5); [done|]. by exists [7; 8]. Defined.

End Encoding.
