(* ===== verification/SafeLru.v ===== *)
(** * The wrapper of the LRU cache that is to be threadsafe ([src/utils/stdlib/lru.go], [SafeLRU])

    Goroutines that call the wrapper, as a step relation: each calls the lock, does its
    operation on the shared core and calls the lock again. [Set] reads the index in one step
    and acts on what it read in the next; the other operations take one step. The lock is the
    one the file declares, [syncRWMutexImpl], whose methods do nothing, so that a goroutine is
    never made to wait. *)

From Stdlib Require Import ZArith Lia.
From stdpp Require Import base gmap sets list strings functions.
From S2P Require Import Prelude Lru.
Local Open Scope Z_scope.

Module SafeLru.

(** ** The lock *)

(** An empty struct. *)
Inductive syncRWMutexImpl : Type := mkRWMutexImpl.

Definition Lock (m : syncRWMutexImpl) : syncRWMutexImpl := m.
Definition Unlock (m : syncRWMutexImpl) : syncRWMutexImpl := m.
Definition RLock (m : syncRWMutexImpl) : syncRWMutexImpl := m.
Definition RUnlock (m : syncRWMutexImpl) : syncRWMutexImpl := m.

Section safe.
Context {K V : Type} `{Countable K}.

(** ** Operations *)

Inductive safe_op : Type := SOp (op : lru_op (K := K) (V := V)) | SLen | SCapacity | SKeys.
Inductive safe_res : Type := SRes (r : lru_res (V := V)) | SInt (n : Z) | SList (ks : list K).

(** The operations that take the lock to write. *)
Definition writes (op : safe_op) : bool :=
  match op with
  | SOp (OPeek _) | SLen | SCapacity | SKeys => false
  | SOp _ => true
  end.

(** The call of the core. *)
Definition exec (c : LRU K V) (op : safe_op) : LRU K V * safe_res :=
  match op with
  | SOp op => let r := lru_step c op in (r.1, SRes r.2)
  | SLen => (c, SInt (LRU_Len c))
  | SCapacity => (c, SInt (LRU_Capacity c))
  | SKeys => (c, SList (LRU_Keys c))
  end.

(** [Set] after it has read the index. *)
Definition finish_set (c : LRU K V) (k : K) (v : V) (found : option ptr) : LRU K V * bool :=
  match found with
  | Some e => (mkLRU (cap c) (MoveToFront e (ll c)) (<[e := (k, v)]> (heap c)) (items c) (evict c) (evictLog c) (next c), false)
  | None =>
      let element := next c in
      let c := mkLRU (cap c) (element :: ll c) (<[element := (k, v)]> (heap c)) (<[k := element]> (items c)) (evict c) (evictLog c) (S element) in
      if (0 <? cap c) && (cap c <? LRU_Len c) then (evictTail c, true) else (c, false)
  end.

Lemma finish_set_now c k v : finish_set c k v (items c !! k) = LRU_Set c k v.
Proof. reflexivity. Qed.

(** ** Goroutines *)

(** Where a goroutine is: outside, in a call, in [Set] with what it read, about to leave. *)
Inductive pc : Type := Outside | Inside (op : safe_op) | Looked (k : K) (v : V) (found : option ptr) | Leaving (op : safe_op).

(** The wrapper, the goroutines, and the operations in the order they took effect. *)
Record state : Type := mkState { core : LRU K V; lock : syncRWMutexImpl; pcs : nat → pc; history : list (safe_op * safe_res) }.

(** [NewSafeLRU] refuses a nil core. *)
Definition NewSafeLRU (core : option (LRU K V)) : outcome state :=
  match core with
  | None => Panic "lru: nil core"
  | Some c => Ret (mkState c mkRWMutexImpl (λ _, Outside) [])
  end.

Definition at_pc (t : nat) (p : pc) (s : state) : state := mkState (core s) (lock s) (<[t := p]> (pcs s)) (history s).

(** An operation takes effect. *)
Definition commit (t : nat) (op : safe_op) (c : LRU K V) (r : safe_res) (s : state) : state :=
  mkState c (lock s) (<[t := Leaving op]> (pcs s)) (history s ++ [(op, r)]).

Inductive step : state → state → Prop :=
  | step_enter t op s : pcs s t = Outside →
      step s (mkState (core s) (if writes op then Lock (lock s) else RLock (lock s)) (<[t := Inside op]> (pcs s)) (history s))
  | step_look t k v s : pcs s t = Inside (SOp (OSet k v)) → step s (at_pc t (Looked k v (items (core s) !! k)) s)
  | step_set t k v found s : pcs s t = Looked k v found →
      step s (commit t (SOp (OSet k v)) (finish_set (core s) k v found).1 (SRes (RBool (finish_set (core s) k v found).2)) s)
  | step_exec t op s : pcs s t = Inside op → (∀ k v, op ≠ SOp (OSet k v)) →
      step s (commit t op (exec (core s) op).1 (exec (core s) op).2 s)
  | step_leave t op s : pcs s t = Leaving op →
      step s (mkState (core s) (if writes op then Unlock (lock s) else RUnlock (lock s)) (<[t := Outside]> (pcs s)) (history s)).

(** ** Callers that do not overlap *)

(** The core run on operations one after the other. *)
Fixpoint run_safe (c : LRU K V) (ops : list safe_op) : LRU K V * list safe_res :=
  match ops with
  | [] => (c, [])
  | op :: ops => let r := exec c op in let rs := run_safe r.1 ops in (rs.1, r.2 :: rs.2)
  end.

Lemma run_safe_snoc c ops op : run_safe c (ops ++ [op]) =
  ((exec (run_safe c ops).1 op).1, (run_safe c ops).2 ++ [(exec (run_safe c ops).1 op).2]).
Proof. revert c. induction ops as [|o ops IH]; intros c; [done|]. cbn -[exec]. by rewrite IH. Qed.

Lemma exec_reads c op : writes op = false → (exec c op).1 = c.
Proof. by destruct op as [[]| | |]. Qed.

Lemma safe_exec_wf c op : LRU_wf c → LRU_wf (exec c op).1.
Proof. intros Hwf. destruct op as [op| | |]; [|done..]. by destruct (lru_step_refines c op Hwf). Qed.

(** The operation a goroutine is in. *)
Definition doing (p : pc) : option safe_op :=
  match p with
  | Outside => None
  | Inside op | Leaving op => Some op
  | Looked k v _ => Some (SOp (OSet k v))
  end.

(** A goroutine inside a writing call is alone. *)
Definition exclusive (s : state) : Prop :=
  ∀ t op t' op', doing (pcs s t) = Some op → writes op = true → doing (pcs s t') = Some op' → t' = t.

(** A step after which no call overlaps a writing one. *)
Definition serialised (s s' : state) : Prop := step s s' ∧ exclusive s'.

(** What [Set] read is still so; the core is the sequential run of the history. *)
Record inv (c0 : LRU K V) (s : state) : Prop := {
  inv_excl : exclusive s;
  inv_looked : ∀ t k v found, pcs s t = Looked k v found → found = items (core s) !! k;
  inv_run : run_safe c0 (history s).*1 = (core s, (history s).*2);
}.

(** A goroutine that goes to a place where it has read nothing. *)
Lemma looked_elsewhere (f : nat → pc) t p t' k v found :
  (∀ k v found, p ≠ Looked k v found) → (<[t := p]> f) t' = Looked k v found → t' ≠ t ∧ f t' = Looked k v found.
Proof.
  intros Hp. destruct (decide (t = t')) as [<-|Hne]; rewrite ?fn_lookup_insert, ?fn_lookup_insert_ne by done; [by intros ?%Hp|auto].
Qed.

Lemma commit_inv c0 s t op :
  inv c0 s → doing (pcs s t) = Some op → exclusive (commit t op (exec (core s) op).1 (exec (core s) op).2 s) →
  inv c0 (commit t op (exec (core s) op).1 (exec (core s) op).2 s).
Proof.
  intros Hi Ht Hex. split; [done| |]; cbn [core pcs history commit].
  - intros t' k v found [Hne Hl]%looked_elsewhere; [|done]. destruct (writes op) eqn:Hw.
    + destruct Hne. apply (inv_excl _ _ Hi t op t' (SOp (OSet k v))); [done..|]. by rewrite Hl.
    + rewrite exec_reads by done. by apply (inv_looked _ _ Hi t' k v).
  - rewrite !fmap_app. cbn [fmap list_fmap fst snd]. rewrite run_safe_snoc, (inv_run _ _ Hi). done.
Qed.

Lemma serialised_inv c0 s s' : inv c0 s → serialised s s' → inv c0 s'.
Proof.
  intros Hi [Hs Hex]. destruct Hs as [t op s Ht|t k v s Ht|t k v found s Ht|t op s Ht _|t op s Ht].
  - split; [done| |apply Hi]. cbn [core pcs]. intros t' k v found [_ Hl]%looked_elsewhere; [|done]. by apply (inv_looked _ _ Hi t' k v).
  - split; [done| |apply Hi]. cbn [core pcs at_pc]. intros t' k' v' found Hl.
    destruct (decide (t = t')) as [<-|Hne]; rewrite ?fn_lookup_insert, ?fn_lookup_insert_ne in Hl by done.
    + by injection Hl as <- <- <-.
    + by apply (inv_looked _ _ Hi t' k' v').
  - rewrite (inv_looked _ _ Hi t k v found Ht), finish_set_now in *. apply (commit_inv c0 s t (SOp (OSet k v))); [done|by rewrite Ht|done].
  - apply commit_inv; [done|by rewrite Ht|done].
  - split; [done| |apply Hi]. cbn [core pcs]. intros t' k v found [_ Hl]%looked_elsewhere; [|done]. by apply (inv_looked _ _ Hi t' k v).
Qed.

Lemma start_inv c0 s0 : NewSafeLRU (Some c0) = Ret s0 → inv c0 s0.
Proof. intros [= <-]. by split. Qed.

Lemma run_safe_wf c ops : LRU_wf c → LRU_wf (run_safe c ops).1.
Proof. revert c. induction ops as [|op ops IH]; intros c Hwf; [done|]. cbn. by apply IH, safe_exec_wf. Qed.

Lemma serialised_run c0 s0 s :
  LRU_wf c0 → NewSafeLRU (Some c0) = Ret s0 → rtc serialised s0 s →
  run_safe c0 (history s).*1 = (core s, (history s).*2) ∧ LRU_wf (core s).
Proof.
  intros Hwf H0%start_inv Hr. assert (inv c0 s) as Hi.
  { induction Hr as [|s1 s2 s3 Hs _ IH]; [done|]. by eapply IH, serialised_inv. }
  split; [apply Hi|]. pose proof (run_safe_wf c0 (history s).*1 Hwf) as Hw. by rewrite (inv_run _ _ Hi) in Hw.
Qed.

(** ** Callers that overlap *)

Section race.
Context (k : K) (v1 v2 : V).

Definition raced (c : LRU K V) : LRU K V * bool := finish_set (finish_set c k v1 None).1 k v2 None.
Definition race_end (c : LRU K V) : state :=
  mkState (raced c).1 mkRWMutexImpl
    (<[1%nat := Outside]> (<[0%nat := Outside]> (<[1%nat := Leaving (SOp (OSet k v2))]> (<[0%nat := Leaving (SOp (OSet k v1))]>
      (<[1%nat := Looked k v2 None]> (<[0%nat := Looked k v1 None]> (<[1%nat := Inside (SOp (OSet k v2))]>
        (<[0%nat := Inside (SOp (OSet k v1))]> (λ _, Outside)))))))))
    [(SOp (OSet k v1), SRes (RBool (finish_set c k v1 None).2)); (SOp (OSet k v2), SRes (RBool (raced c).2))].

(** Both are let in, both read that the key is absent, both insert it, both leave. *)
Lemma race_steps c : items c !! k = None → rtc step (mkState c mkRWMutexImpl (λ _, Outside) []) (race_end c).
Proof.
  intros Hk.
  eapply rtc_l; [by apply (step_enter 0%nat (SOp (OSet k v1)))|].
  eapply rtc_l; [by apply (step_enter 1%nat (SOp (OSet k v2)))|].
  eapply rtc_l; [by apply (step_look 0%nat k v1)|].
  eapply rtc_l; [by apply (step_look 1%nat k v2)|]. cbn [core at_pc]. rewrite Hk.
  eapply rtc_l; [by apply (step_set 0%nat k v1 None)|].
  eapply rtc_l; [by apply (step_set 1%nat k v2 None)|].
  eapply rtc_l; [by apply (step_leave 0%nat (SOp (OSet k v1)))|].
  eapply rtc_l; [by apply (step_leave 1%nat (SOp (OSet k v2)))|]. apply rtc_refl.
Qed.

Lemma race_outside c t : pcs (race_end c) t = Outside.
Proof. by destruct t as [|[|t]]. Qed.

(** Without an eviction, the key is inserted twice and indexed once. *)
Lemma finish_set_room c v :
  cap c <= 0 ∨ LRU_Len c + 1 <= cap c →
  (finish_set c k v None).1 =
  mkLRU (cap c) (next c :: ll c) (<[next c := (k, v)]> (heap c)) (<[k := next c]> (items c)) (evict c) (evictLog c) (S (next c)).
Proof.
  intros Hroom. unfold finish_set. cbn [cap ll]. unfold LRU_Len in *. cbn [ll]. cbn [length].
  destruct (_ && _) eqn:E; [|done]. apply andb_true_iff in E as [E1%Z.ltb_lt E2%Z.ltb_lt]. lia.
Qed.

Lemma raced_room c : cap c <= 0 ∨ LRU_Len c + 2 <= cap c →
  (raced c).1 =
  mkLRU (cap c) (S (next c) :: next c :: ll c) (<[S (next c) := (k, v2)]> (<[next c := (k, v1)]> (heap c)))
    (<[k := S (next c)]> (<[k := next c]> (items c))) (evict c) (evictLog c) (S (S (next c))).
Proof.
  intros Hroom. unfold raced. rewrite (finish_set_room c v1) by lia. rewrite finish_set_room; [done|].
  unfold LRU_Len in *. cbn [cap ll length]. lia.
Qed.

Lemma raced_keys c : LRU_wf c → cap c <= 0 ∨ LRU_Len c + 2 <= cap c → LRU_Keys (raced c).1 = k :: k :: LRU_Keys c.
Proof.
  intros Hwf Hroom. rewrite raced_room by done. unfold LRU_Keys, key_of. cbn [ll heap omap list_omap].
  rewrite lookup_insert_eq, lookup_insert_ne, lookup_insert_eq by lia. cbn [fmap option_fmap option_map fst]. do 2 f_equal.
  apply list_omap_ext, Forall2_same_length_lookup. split; [done|]. intros i x y Hx Hy. simplify_eq.
  apply list_elem_of_lookup_2 in Hx. destruct (wf_listed c Hwf x Hx) as (k' & v' & Hk & _). pose proof (wf_fresh c Hwf x _ Hk).
  rewrite !lookup_insert_ne by lia. done.
Qed.

Lemma raced_broken c : cap c <= 0 ∨ LRU_Len c + 2 <= cap c → ¬ LRU_wf (raced c).1.
Proof.
  intros Hroom Hwf. rewrite raced_room in Hwf by done.
  destruct (wf_listed _ Hwf (next c)) as (k' & v' & Hk & Hi); cbn [ll heap items] in *; [set_solver|].
  rewrite lookup_insert_ne, lookup_insert_eq in Hk by lia. injection Hk as <- <-. rewrite lookup_insert_eq in Hi. injection Hi. lia.
Qed.
End race.

End safe.
Arguments state K V {_ _}.

Definition fresh : LRU Z Z := mkLRU 4 [] ∅ ∅ false [] 0%nat.


End SafeLru.
