(* ===== verification/StructMap.v ===== *)
(** * Structs from maps and back ([src/utils/types/struct.go])

    [PopulateStructFromMap] with everything it does by reflection: the normalisation of the
    source, tags, pointers, maps of structs, strings into typed fields, and Go's conversions
    between types; [StructToMap]; [ConvertMapToTypedMap]. Maps are lists of entries in the
    order in which they are walked. *)

From Stdlib Require Import ZArith Lia Ascii Floats.SpecFloat.
From stdpp Require Import base gmap list strings pretty.
From S2P Require Import Prelude GoValue SqlText Url Conv Unicode Rest.
Local Open Scope Z_scope.

Module StructMap.

(** ** Values and types *)

(** The width of an integer type: [int], [int8], ... *)
Inductive ikind : Type := I | I8 | I16 | I32 | I64.
Inductive fkind : Type := F32 | F64.
#[export] Instance ikind_eq_dec : EqDecision ikind.
Proof. solve_decision. Defined.
#[export] Instance fkind_eq_dec : EqDecision fkind.
Proof. solve_decision. Defined.
Definition bits (k : ikind) : Z := match k with I | I64 => 64 | I8 => 8 | I16 => 16 | I32 => 32 end.

(** An [interface{}]: [AMap] is a [map[string]interface{}], [AIMap] a
    [map[interface{}]interface{}], [AOther] a value of another type. *)
#[warnings="-register-all"] Inductive any : Type :=
  | ANil
  | ABool (b : bool)
  | AInt (k : ikind) (z : Z)
  | AUint (k : ikind) (z : Z)
  | AFloat (k : fkind) (f : spec_float)
  | AStr (s : text)
  | ATime (t : Z)
  | ASlice (l : list any)
  | AMap (m : list (text * any))
  | AIMap (m : list (any * any))
  | AOther (id : nat).

Record sfield : Type := mkSField { fname : text; json_tag : text; exported : bool }.

(** The keys of a map type: [string], another type of kind string, or something else. *)
Inductive kkind : Type := KString | KNamed | KOther.

#[warnings="-register-all"] Inductive ty : Type :=
  | TStr | TBool | TInt (k : ikind) | TUint (k : ikind) | TFloat (k : fkind) | TTime | TIface | TAnys
  | TPtr (t : ty)
  | TMap (key : kkind) (elem : ty)
  | TStruct (fields : list (sfield * ty))
  | TOther (id : nat).

#[warnings="-register-all"] Inductive gov : Type :=
  | GStr (s : text)
  | GBool (b : bool)
  | GInt (z : Z)
  | GUint (z : Z)
  | GFloat (f : spec_float)
  | GTime (t : Z)
  | GIface (v : any)
  | GAnys (l : option (list any))
  | GPtr (p : option gov)
  | GMap (m : option (list (text * gov)))
  | GStruct (fields : list gov)
  | GOther (id : option nat).

Definition zero_time : Z := 0.

Fixpoint zero (t : ty) : gov :=
  match t with
  | TStr => GStr []
  | TBool => GBool false
  | TInt _ => GInt 0
  | TUint _ => GUint 0
  | TFloat _ => GFloat (S754_zero false)
  | TTime => GTime zero_time
  | TIface => GIface ANil
  | TAnys => GAnys None
  | TPtr _ => GPtr None
  | TMap _ _ => GMap None
  | TStruct fields => GStruct ((λ ft, zero ft.2) <$> fields)
  | TOther _ => GOther None
  end.

Inductive set_error : Type :=
  | Field (name : text) (e : set_error)
  | MapStruct (key : text) (e : set_error)
  | Mismatch
  | NotParsed (s : text).

Abbreviation conv := (outcome (gov * option set_error)).

(** ** Normalising the source *)

(** A store under a key: an entry that is there is overwritten. *)
Fixpoint store {A : Type} (k : text) (v : A) (m : list (text * A)) : list (text * A) :=
  match m with
  | [] => [(k, v)]
  | (k', v') :: m => if bool_decide (k' = k) then (k, v) :: m else (k', v') :: store k v m
  end.

Definition lookup {A : Type} (k : text) (m : list (text * A)) : option A := snd <$> List.find (λ kv, bool_decide (kv.1 = k)) m.

(** [sprint] is [fmt.Sprintf] with [%v]. *)
Section normal.
Context (sprint : any → text).

Definition key_string (k : any) : text := match k with AStr s => s | k => sprint k end.

Fixpoint normalizeInterfaceData (v : any) : any :=
  match v with
  | AIMap m => AMap (foldl (λ acc kv, store kv.1 kv.2 acc) [] ((λ kv, (key_string kv.1, normalizeInterfaceData kv.2)) <$> m))
  | AMap m => AMap ((λ kv, (kv.1, normalizeInterfaceData kv.2)) <$> m)
  | ASlice l => ASlice (normalizeInterfaceData <$> l)
  | v => v
  end.

(** ** Conversions *)

(** [time.Parse], [strconv.ParseFloat], the conversion of floats to unsigned integers and
    conversions between other types. *)
Context (indefinite : Z) (ParseTime : text → option Z) (ParseFloat : text → option float64) (float_uint : spec_float → Z)
        (other : any → ty → option gov).

Definition to_float (k : fkind) (f : float64) : spec_float := match k with F32 => Conv.f32_of_f64 f | F64 => f end.

(** The text of one character, or of the replacement character. *)
Definition rune_text (z : Z) : text :=
  (λ b, char (Z.to_nat b)) <$> Unicode.EncodeRune z.

(** [Type.ConvertibleTo] and [Value.Convert]. *)
Definition convert (v : any) (t : ty) : option gov :=
  match v, t with
  | ANil, _ => None
  | v, TIface => Some (GIface v)
  | (AInt _ z | AUint _ z), TInt k => Some (GInt (swrap (bits k) z))
  | (AInt _ z | AUint _ z), TUint k => Some (GUint (wrap (bits k) z))
  | (AInt _ z | AUint _ z), TFloat k => Some (GFloat (to_float k (f64_of_Z z)))
  | (AInt _ z | AUint _ z), TStr => Some (GStr (rune_text z))
  | AFloat _ f, TInt k => Some (GInt (swrap (bits k) (Conv.int_of indefinite (f64_trunc f))))
  | AFloat _ f, TUint k => Some (GUint (wrap (bits k) (float_uint f)))
  | AFloat k f, TFloat k' => Some (GFloat (if decide (k = k') then f else match k' with F32 => Conv.f32_of_f64 f | F64 => Conv.f64_of_f32 f end))
  | AStr s, TStr => Some (GStr s)
  | ABool b, TBool => Some (GBool b)
  | ATime t, TTime => Some (GTime t)
  | ASlice l, TAnys => Some (GAnys (Some l))
  | AMap m, TMap KString TIface => Some (GMap (Some ((λ kv, (kv.1, GIface kv.2)) <$> m)))
  | v, t => other v t
  end.

Definition ParseUint (s : text) : option Z :=
  match s with
  | [] => None
  | _ => n ← Url.digits 0 s; (if n <? 2 ^ 64 then Some n else None)
  end.

Definition parsed (cur : gov) (s : text) (r : option gov) : gov * option set_error :=
  match r with Some v => (v, None) | None => (cur, Some (NotParsed s)) end.

(** [SetInt], [SetUint] and [SetFloat] store what fits the field. *)
Definition setStringField (t : ty) (cur : gov) (s : text) : gov * option set_error :=
  match t with
  | TStr => (GStr s, None)
  | TBool => parsed cur s (GBool <$> Rest.ParseBool s)
  | TInt k => parsed cur s ((λ z, GInt (swrap (bits k) z)) <$> Url.Atoi s)
  | TUint k => parsed cur s ((λ z, GUint (wrap (bits k) z)) <$> ParseUint s)
  | TFloat k => parsed cur s ((λ f, GFloat (to_float k f)) <$> ParseFloat s)
  | TTime => parsed cur s (GTime <$> ParseTime s)
  | _ => (cur, Some Mismatch)
  end.

Definition setSpecialNumericField (t : ty) (v : any) : option gov :=
  match v, t with
  | AFloat F64 f, TInt I => Some (GInt (Conv.int_of indefinite (f64_trunc f)))
  | AInt I z, TBool => Some (GBool (negb (z =? 0)))
  | _, _ => None
  end.

(** What is left when the field is neither a map nor a struct that the value fills. *)
Definition set_scalar (t : ty) (cur : gov) (v : any) : gov * option set_error :=
  match v with
  | AStr s => setStringField t cur s
  | v =>
      match setSpecialNumericField t v with
      | Some g => (g, None)
      | None => match convert v t with Some g => (g, None) | None => (cur, Some Mismatch) end
      end
  end.

(** ** Maps and structs *)

(** [fill] fills a fresh element; it is there when the elements are structs. *)
Definition convertStructMapElement (fill : option (list (text * any) → conv)) (elem : ty) (key : text) (raw : any) : conv :=
  match fill with
  | Some fill =>
      match raw with
      | AMap sub =>
          match fill sub with
          | Ret (v, Some e) => Ret (v, Some (MapStruct key e))
          | r => r
          end
      | _ => Ret (zero elem, None)
      end
  | None =>
      match raw with
      | ANil => Panic "reflect: call of reflect.Value.Type on zero Value"
      | raw => Ret (default (zero elem) (convert raw elem), None)
      end
  end.

Fixpoint map_loop (element : text → any → conv) (key : kkind) (raw : list (text * any)) : outcome (result set_error (list (text * gov))) :=
  match raw with
  | [] => Ret (Ok [])
  | (k, v) :: raw =>
      match element k v with
      | Panic s => Panic s
      | Ret (_, Some e) => Ret (Err e)
      | Ret (g, None) =>
          match key with
          | KString =>
              match map_loop element key raw with
              | Ret (Ok rest) => Ret (Ok ((k, g) :: rest))
              | r => r
              end
          | _ => Panic "reflect.Value.SetMapIndex: value of type string is not assignable"
          end
      end
  end.

(** The key of a field: the tag up to the first comma, or the name. *)
Definition map_key (f : sfield) : text :=
  match head (Split (json_tag f) (char 44)) with
  | Some (c :: tag) => c :: tag
  | _ => fname f
  end.

(** The loop over the fields: what was set before an error stays. *)
Definition populate_loop (set : ty → gov → any → conv) (m : list (text * any)) :=
  fix loop (fields : list (sfield * ty)) (curs : list gov) : outcome (list gov * option set_error) :=
  match fields, curs with
  | (f, t) :: fields, cur :: curs =>
      let go (v : gov) :=
        match loop fields curs with
        | Ret (rest, e) => Ret (v :: rest, e)
        | Panic s => Panic s
        end in
      if exported f then
        match lookup (map_key f) m with
        | None => go cur
        | Some raw =>
            match set t cur raw with
            | Panic s => Panic s
            | Ret (v, Some e) => Ret (v :: curs, Some (Field (fname f) e))
            | Ret (v, None) => go v
            end
        end
      else go cur
  | _, curs => Ret (curs, None)
  end.

Definition cleaned (src : list (text * any)) : list (text * any) := (λ kv, (kv.1, normalizeInterfaceData kv.2)) <$> src.

Definition populate_with (set : ty → gov → any → conv) (fields : list (sfield * ty)) (src : list (text * any)) (cur : gov) : conv :=
  match cur with
  | GStruct curs =>
      match populate_loop set (cleaned src) fields curs with
      | Panic s => Panic s
      | Ret (curs, e) => Ret (GStruct curs, e)
      end
  | cur => Ret (cur, None)
  end.

(** A pointer is followed once, and made when it is nil. *)
Definition through_pointer (set : ty → gov → any → conv) (t : ty) (cur : gov) (v : any) : conv :=
  match v with
  | ANil => Ret (zero t, None)
  | v =>
      match t with
      | TPtr t =>
          match set t (match cur with GPtr (Some c) => c | _ => zero t end) v with
          | Ret (c, e) => Ret (GPtr (Some c), e)
          | Panic s => Panic s
          end
      | t => set t cur v
      end
  end.

Definition string_keys (key : kkind) : bool := match key with KOther => false | _ => true end.

(** Setting a field that is no pointer, or what a pointer leads to. [time.Time] is a struct
    with no field that can be set. *)
Fixpoint set_plain (t : ty) (cur : gov) (v : any) {struct t} : conv :=
  match t, v with
  | TMap key elem, AMap m =>
      let fill :=
        match elem with
        | TStruct fields => Some (λ sub, populate_with (λ t cur v, through_pointer set_plain t cur v) fields sub (zero elem))
        | TTime => Some (λ _, Ret (zero elem, None))
        | _ => None
        end in
      if string_keys key then
        match map_loop (convertStructMapElement fill elem) key m with
        | Panic s => Panic s
        | Ret (Err e) => Ret (cur, Some e)
        | Ret (Ok m) => Ret (GMap (Some m), None)
        end
      else Ret (set_scalar (TMap key elem) cur (AMap m))
  | TStruct fields, AMap m => populate_with (λ t cur v, through_pointer set_plain t cur v) fields m cur
  | TTime, AMap _ => Ret (cur, None)
  | t, v => Ret (set_scalar t cur v)
  end.

Definition setValueForStructToMap (t : ty) (cur : gov) (v : any) : conv := through_pointer set_plain t cur v.

(** A destination that is not a pointer to a struct is refused. *)
Inductive destination : Type := NotAStruct | ToStruct (fields : list (sfield * ty)) (cur : list gov).

(** The error: [Some None] for the destination, [Some (Some e)] for a field. *)
Definition PopulateStructFromMap (dst : destination) (src : list (text * any)) : outcome (destination * option (option set_error)) :=
  match dst with
  | NotAStruct => Ret (NotAStruct, Some None)
  | ToStruct fields curs =>
      match populate_loop setValueForStructToMap (cleaned src) fields curs with
      | Panic s => Panic s
      | Ret (curs, e) => Ret (ToStruct fields curs, Some <$> e)
      end
  end.

(** ** Structs to maps *)

(** [iface] is the value of a field as an interface. *)
Definition StructToMap (iface : ty → gov → any) (dst : destination) : option (list (text * any)) :=
  match dst with
  | NotAStruct => None
  | ToStruct fields vs => Some ((λ '((f, t), v), (fname f, iface t v)) <$> filter (λ x, exported x.1.1 = true) (zip fields vs))
  end.

(** The map by its type: with the wanted keys and values, with string keys, with values of any
    type, or another. [typed] is the test of the dynamic type. *)
Inductive raw_map (V : Type) : Type := RNil | RTyped (m : list (text * V)) | RString (m : list (text * V)) | RIface (m : list (text * any)) | ROther.

Definition ConvertMapToTypedMap {V : Type} (typed : any → option V) (raw : raw_map V) : list (text * V) :=
  match raw with
  | RNil _ | ROther _ => []
  | RTyped _ m | RString _ m => m
  | RIface _ m => omap (λ kv, pair kv.1 <$> typed kv.2) m
  end.
End normal.

(** ** Normalisation *)

Section any_ind.
Context (P : any → Prop) (Hnil : P ANil) (Hb : ∀ b, P (ABool b)) (Hi : ∀ k z, P (AInt k z)) (Hu : ∀ k z, P (AUint k z)) (Hf : ∀ k f, P (AFloat k f))
        (Hs : ∀ s, P (AStr s)) (Ht : ∀ t, P (ATime t)) (Hl : ∀ l, Forall P l → P (ASlice l)) (Hm : ∀ m, Forall (λ kv, P kv.2) m → P (AMap m))
        (Him : ∀ m, Forall (λ kv, P kv.2) m → P (AIMap m)) (Ho : ∀ n, P (AOther n)).

Fixpoint any_rect' (v : any) : P v :=
  match v with
  | ANil => Hnil | ABool b => Hb b | AInt k z => Hi k z | AUint k z => Hu k z | AFloat k f => Hf k f | AStr s => Hs s | ATime t => Ht t
  | ASlice l => Hl l ((fix go l := match l return Forall P l with [] => Forall_nil_2 _ | v :: l => Forall_cons_2 _ _ _ (any_rect' v) (go l) end) l)
  | AMap m => Hm m ((fix go (m : list (text * any)) := match m return Forall (λ kv, P kv.2) m with [] => Forall_nil_2 _ | kv :: m => Forall_cons_2 _ _ _ (any_rect' kv.2) (go m) end) m)
  | AIMap m => Him m ((fix go (m : list (any * any)) := match m return Forall (λ kv, P kv.2) m with [] => Forall_nil_2 _ | kv :: m => Forall_cons_2 _ _ _ (any_rect' kv.2) (go m) end) m)
  | AOther n => Ho n
  end.
End any_ind.

(** Every map in the value has string keys. *)
Fixpoint plain (v : any) : bool :=
  match v with
  | AIMap _ => false
  | AMap m => forallb (λ kv, plain kv.2) m
  | ASlice l => forallb plain l
  | _ => true
  end.

Lemma store_plain k v m : plain v = true → forallb (λ kv, plain kv.2) m = true → forallb (λ kv, plain kv.2) (store k v m) = true.
Proof.
  intros Hv. induction m as [|[k' v'] m IH]; cbn; [by rewrite Hv|]. intros [H1 H2]%andb_true_iff.
  case_bool_decide; cbn; [by rewrite Hv|]. rewrite H1. auto.
Qed.

Lemma normalize_plain sprint v : plain (normalizeInterfaceData sprint v) = true.
Proof.
  induction v as [| | | | | | |l IH|m IH|m IH|] using any_rect'; try done; cbn.
  - induction IH as [|v l Hv _ IHl]; [done|]. cbn. by rewrite Hv.
  - induction IH as [|kv m Hv _ IHm]; [done|]. cbn. by rewrite Hv.
  - assert (Hacc : forallb (λ kv : text * any, plain kv.2) [] = true) by done. revert Hacc. generalize (@nil (text * any)).
    induction IH as [|kv m Hv _ IHm]; intros acc Hacc; [done|]. cbn. apply IHm. by apply store_plain.
Qed.

Lemma normalize_id sprint v : plain v = true → normalizeInterfaceData sprint v = v.
Proof.
  induction v as [| | | | | | |l IH|m IH|m IH|] using any_rect'; try done; cbn; intros Hp.
  - f_equal. induction IH as [|v l Hv _ IHl]; [done|]. cbn in *. apply andb_true_iff in Hp as [H1 H2]. by rewrite Hv, IHl.
  - f_equal. induction IH as [|[k v] m Hv _ IHm]; [done|]. cbn in *. apply andb_true_iff in Hp as [H1 H2]. by rewrite Hv, IHm.
Qed.

(** Normalising leaves no map with keys other than strings, at any depth, and is done once and
    for all: nested structs normalise what is normal already. *)
Theorem normalize_spec sprint v :
  plain (normalizeInterfaceData sprint v) = true ∧
  normalizeInterfaceData sprint (normalizeInterfaceData sprint v) = normalizeInterfaceData sprint v ∧
  (plain v = true → normalizeInterfaceData sprint v = v).
Proof. split; [apply normalize_plain|]. split; [apply normalize_id, normalize_plain|apply normalize_id]. Qed.

(** ** Filling a struct *)

Section fill.
Context (sprint : any → text) (indefinite : Z) (ParseTime : text → option Z) (ParseFloat : text → option float64) (float_uint : spec_float → Z)
        (other : any → ty → option gov).
Local Abbreviation Populate := (PopulateStructFromMap sprint indefinite ParseTime ParseFloat float_uint other).
Local Abbreviation set_value := (setValueForStructToMap sprint indefinite ParseTime ParseFloat float_uint other).

(** What the source has for a field, if the field can be set. *)
Definition source (src : list (text * any)) (f : sfield) : option any := if exported f then lookup (map_key f) (cleaned sprint src) else None.

(** What a field that held [cur] becomes. *)
Definition filled (src : list (text * any)) (f : sfield) (t : ty) (cur v : gov) : Prop :=
  match source src f with
  | None => v = cur
  | Some raw => set_value t cur raw = Ret (v, None)
  end.

(** The fields before the [n]th are filled, those after it are as they were; with no error
    there is none after it, otherwise the [n]th is the one that failed. *)
Definition filled_to (src : list (text * any)) (fields : list (sfield * ty)) (curs vs : list gov) (e : option set_error) (n : nat) : Prop :=
  length vs = length curs ∧
  (∀ i f t cur, (i < n)%nat → fields !! i = Some (f, t) → curs !! i = Some cur → ∃ v, vs !! i = Some v ∧ filled src f t cur v) ∧
  (∀ i, (n < i)%nat → vs !! i = curs !! i) ∧
  match e with
  | None => n = length fields
  | Some err => ∃ f t cur v raw e', fields !! n = Some (f, t) ∧ curs !! n = Some cur ∧ vs !! n = Some v ∧ source src f = Some raw ∧
      set_value t cur raw = Ret (v, Some e') ∧ err = Field (fname f) e'
  end.

Lemma filled_to_cons src f t fields cur curs v vs e n : filled src f t cur v → filled_to src fields curs vs e n →
  filled_to src ((f, t) :: fields) (cur :: curs) (v :: vs) e (S n).
Proof.
  intros Hv (H1 & H2 & H3 & H4). split_and!.
  - cbn. by rewrite H1.
  - intros [|i] f0 t0 cur0 Hi; [intros [= <- <-] [= <-]; by exists v|]. apply H2. lia.
  - intros [|i] Hi; [lia|]. apply H3. lia.
  - destruct e; [exact H4|cbn; by rewrite H4].
Qed.

Lemma populate_loop_spec src fields curs vs e : length fields = length curs →
  populate_loop set_value (cleaned sprint src) fields curs = Ret (vs, e) → ∃ n, filled_to src fields curs vs e n.
Proof.
  revert curs vs e. induction fields as [|[f t] fields IH]; intros [|cur curs] vs e Hl E; try done.
  { injection E as <- <-. exists 0%nat. split_and!; [done| |done|done]. intros i f t cur Hi. lia. }
  injection Hl as Hl. cbn [populate_loop] in E. fold (populate_loop set_value (cleaned sprint src)) in E.
  assert (Hgo : ∀ v, filled src f t cur v →
    match populate_loop set_value (cleaned sprint src) fields curs with Ret (rest, e) => Ret (v :: rest, e) | Panic s => Panic s end = Ret (vs, e) →
    ∃ n, filled_to src ((f, t) :: fields) (cur :: curs) vs e n).
  { intros v Hv Er. destruct (populate_loop _ _ fields curs) as [[rest e']|] eqn:Ep; [|done]. injection Er as <- <-.
    destruct (IH curs rest e' Hl Ep) as [n Hn]. exists (S n). by apply filled_to_cons. }
  destruct (exported f) eqn:Hx; [|apply (Hgo cur); [unfold filled, source; by rewrite Hx|done]].
  destruct (lookup (map_key f) (cleaned sprint src)) as [raw|] eqn:Hr; [|apply (Hgo cur); [unfold filled, source; by rewrite Hx, Hr|done]].
  destruct (set_value t cur raw) as [[v [e'|]]|] eqn:Hs; [|apply (Hgo v); [unfold filled, source; by rewrite Hx, Hr|done]|done].
  injection E as <- <-. exists 0%nat. split_and!; [done|intros i; lia|by intros [|i] ?; [lia|]|].
  exists f, t, cur, v, raw, e'. unfold source. by rewrite Hx.
Qed.

(** (C34) Filling a struct: the fields are taken in order, each from its key, those the source does
    not name or that cannot be set stay, and the first that cannot take its value ends the
    call with the earlier ones already set and the later ones untouched. *)
Theorem Populate_spec src fields curs vs e : length fields = length curs →
  Populate (ToStruct fields curs) src = Ret (ToStruct fields vs, Some <$> e) → ∃ n, filled_to src fields curs vs e n.
Proof.
  intros Hl E. unfold PopulateStructFromMap in E. destruct (populate_loop _ _ fields curs) as [[vs' e']|] eqn:Ep; [|done].
  injection E as -> He. apply (inj (fmap Some)) in He as ->. by apply populate_loop_spec.
Qed.

(** ** Values into fields *)

(** A number in a string is cut to the width of the field, and no error says so: the field
    has the number exactly when it fits. *)
Theorem string_into_int k cur s z : Url.Atoi s = Some z →
  set_value (TInt k) cur (AStr s) = Ret (GInt (swrap (bits k) z), None) ∧
  (swrap (bits k) z = z ↔ - 2 ^ (bits k - 1) <= z < 2 ^ (bits k - 1)).
Proof.
  intros Hz. split; [cbn -[Url.Atoi swrap]; by rewrite Hz|]. split; [|by apply swrap_id; destruct k].
  intros <-. unfold swrap. assert (0 < bits k) as Hb by (by destruct k).
  assert (2 ^ bits k = 2 * 2 ^ (bits k - 1)) as Hp by (rewrite <- Z.pow_succ_r by lia; f_equal; lia).
  pose proof (Z.mod_pos_bound (z + 2 ^ (bits k - 1)) (2 ^ bits k)). lia.
Qed.

(** An integer in a string field is not written in digits: it becomes the character it is the
    code of. *)
Theorem int_into_string k cur z : 0 <= z < 128 → set_value TStr cur (AInt k z) = Ret (GStr [char (Z.to_nat z)], None).
Proof.
  intros Hz. cbn -[rune_text]. assert (rune_text z = [char (Z.to_nat z)]) as ->; [|by destruct k].
  assert (Unicode.valid_rune z = true) as Hv by (unfold Unicode.valid_rune, Unicode.surrogate, Unicode.in_range; lia).
  unfold rune_text, Unicode.EncodeRune. rewrite Hv. replace (z <? 128) with true by lia. done.
Qed.

Definition is_struct (t : ty) : bool := match t with TStruct _ | TTime => true | _ => false end.

(** A nil value inside a map is not skipped: it makes the call panic, unless the elements are
    structs. *)
Theorem nil_in_map_panics elem cur m k : is_struct elem = false → (k, ANil) ∈ m → ∃ s, set_value (TMap KString elem) cur (AMap m) = Panic s.
Proof.
  intros Hs Hin.
  assert (∃ s, map_loop (convertStructMapElement indefinite float_uint other None elem) KString m = Panic s) as [s E].
  { induction m as [|[k' v] m IH]; [by apply not_elem_of_nil in Hin|]. apply elem_of_cons in Hin as [[= <- <-]|Hin]; [by eexists|].
    destruct (IH Hin) as [s E]. cbn [map_loop]. destruct v; [by eexists|..]; cbn [convertStructMapElement]; rewrite E; by eexists. }
  exists s. unfold setValueForStructToMap, through_pointer. by destruct elem; try done; cbn [set_plain string_keys]; rewrite E.
Qed.

(** ** Round trip *)

(** A scalar field, its value, and the value as an interface. *)
Definition iface_scalar (t : ty) (v : gov) : any :=
  match t, v with
  | TStr, GStr s => AStr s
  | TBool, GBool b => ABool b
  | TInt k, GInt z => AInt k z
  | TUint k, GUint z => AUint k z
  | TFloat k, GFloat f => AFloat k f
  | TTime, GTime t => ATime t
  | _, _ => ANil
  end.

Definition scalar_value (t : ty) (v : gov) : Prop :=
  match t, v with
  | TStr, GStr _ | TBool, GBool _ | TFloat _, GFloat _ | TTime, GTime _ => True
  | TInt k, GInt z => - 2 ^ (bits k - 1) <= z < 2 ^ (bits k - 1)
  | TUint k, GUint z => 0 <= z < 2 ^ bits k
  | _, _ => False
  end.

Lemma set_scalar_back t v cur : scalar_value t v → set_value t cur (iface_scalar t v) = Ret (v, None).
Proof.
  destruct t as [| |k|k|k| | | | | | |], v; try done; cbn -[swrap wrap]; intros Hv.
  - assert (swrap (bits k) z = z) as -> by (apply swrap_id; [by destruct k|done]). by destruct k.
  - assert (wrap (bits k) z = z) as -> by (by apply Z.mod_small). by destruct k.
  - rewrite decide_True by done. by destruct k.
Qed.
(** The fields of a struct of scalars with no tags. *)
Definition plain_field (f : sfield) : Prop := exported f = true ∧ json_tag f = [].

Lemma map_key_name f : plain_field f → map_key f = fname f.
Proof. intros [_ Ht]. unfold map_key. by rewrite Ht. Qed.

Definition scalars (fields : list (sfield * ty)) (vs : list gov) : Prop := Forall2 (λ ft v, plain_field ft.1 ∧ scalar_value ft.2 v) fields vs.

(** The map of such a struct, as the code builds it and as it is cleaned. *)
Definition entries_of (fields : list (sfield * ty)) (vs : list gov) : list (text * any) :=
  zip_with (λ ft v, (fname ft.1, iface_scalar ft.2 v)) fields vs.

Lemma StructToMap_scalars fields vs : scalars fields vs → StructToMap iface_scalar (ToStruct fields vs) = Some (entries_of fields vs).
Proof.
  intros Hs. unfold StructToMap. f_equal. induction Hs as [|[f t] v fields vs [[Hx _] _] _ IH]; [done|].
  cbn [zip zip_with entries_of]. rewrite filter_cons, decide_True by done. cbn. f_equal. exact IH.
Qed.

Lemma cleaned_scalars fields vs : cleaned sprint (entries_of fields vs) = entries_of fields vs.
Proof.
  unfold cleaned, entries_of. revert vs. induction fields as [|[f t] fields IH]; intros [|v vs]; try done. cbn [zip_with fmap list_fmap fst snd].
  f_equal; [|apply IH]. f_equal. by destruct t, v.
Qed.

Lemma entries_lookup fields vs i f t v : NoDup ((λ ft, fname ft.1) <$> fields) → fields !! i = Some (f, t) → vs !! i = Some v →
  lookup (fname f) (entries_of fields vs) = Some (iface_scalar t v).
Proof.
  revert vs i. induction fields as [|[f0 t0] fields IH]; intros [|v0 vs] [|i] Hnd; try done; cbn in Hnd; apply NoDup_cons in Hnd as [Hnew Hnd].
  - intros [= <- <-] [= <-]. unfold lookup. cbn. by rewrite bool_decide_true.
  - intros Hf Hv. cbn in Hf, Hv. unfold lookup in *. cbn. rewrite bool_decide_false; [by eapply IH|].
    intros E. destruct Hnew. rewrite E. apply (list_elem_of_fmap_2 (λ ft, fname ft.1) fields (f, t)). by eapply list_elem_of_lookup_2.
Qed.

Lemma populate_scalars m fields curs vs : scalars fields vs → length curs = length vs →
  (∀ i f t v, fields !! i = Some (f, t) → vs !! i = Some v → lookup (fname f) m = Some (iface_scalar t v)) →
  populate_loop set_value m fields curs = Ret (vs, None).
Proof.
  intros Hs. revert curs. induction Hs as [|[f t] v fields vs [Hp Hv] Hs IH]; intros [|cur curs] Hl Hm; try done.
  cbn [fst snd] in *. cbn [populate_loop]. fold (populate_loop set_value m). destruct Hp as [Hx Htag].
  rewrite Hx, map_key_name by done. rewrite (Hm 0%nat f t v eq_refl eq_refl). cbv beta iota.
  rewrite set_scalar_back by done. cbv beta iota. rewrite IH; [done|by injection Hl|]. intros i. apply (Hm (S i)).
Qed.

(** A struct of strings, booleans, numbers of any width and times, turned into a map and back
    into any struct of its type, is the same. *)
Theorem struct_map_roundtrip fields vs curs src : NoDup ((λ ft, fname ft.1) <$> fields) → scalars fields vs → length curs = length vs →
  StructToMap iface_scalar (ToStruct fields vs) = Some src → Populate (ToStruct fields curs) src = Ret (ToStruct fields vs, None).
Proof.
  intros Hnd Hs Hl Hsrc. rewrite StructToMap_scalars in Hsrc by done. injection Hsrc as <-.
  unfold PopulateStructFromMap. rewrite cleaned_scalars. erewrite populate_scalars; [done|done|done|].
  intros i f t v Hf Hv. by eapply entries_lookup.
Qed.
End fill.

(** ** Witnesses *)

Lemma normalize_spec_witness : normalizeInterfaceData (λ _, []) (ASlice [AMap [(str "a", AInt I 1)]]) = ASlice [AMap [(str "a", AInt I 1)]].
Proof. apply (normalize_spec (λ _, [])). reflexivity. Defined.

Definition demo_fields : list (sfield * ty) :=
  [(mkSField (str "Name") [] true, TStr); (mkSField (str "Age") [] true, TInt I8); (mkSField (str "On") [] true, TBool)].
Local Abbreviation demo_set := (setValueForStructToMap (λ _, []) 0 (λ _, None) (λ _, None) (λ _, 0) (λ _ _, None)).
Local Abbreviation demo_populate := (PopulateStructFromMap (λ _, []) 0 (λ _, None) (λ _, None) (λ _, 0) (λ _ _, None)).

(** The second field fails: the first is set, the third is not reached. *)
Lemma Populate_spec_witness : ∃ n, filled_to (λ _, []) 0 (λ _, None) (λ _, None) (λ _, 0) (λ _ _, None)
  [(str "Age", AStr (str "x")); (str "Name", AStr (str "ada")); (str "On", ABool true)] demo_fields
  [GStr []; GInt 0; GBool false] [GStr (str "ada"); GInt 0; GBool false] (Some (Field (str "Age") (NotParsed (str "x")))) n.
Proof. apply Populate_spec; [reflexivity|by vm_compute]. Defined.

(** 300 into an eight-bit field is 44. *)
Lemma string_into_int_witness : demo_set (TInt I8) (GInt 0) (AStr (str "300")) = Ret (GInt 44, None).
Proof. rewrite (proj1 (string_into_int _ _ _ _ _ _ I8 (GInt 0) (str "300") 300 ltac:(by vm_compute))). reflexivity. Defined.

Lemma int_into_string_witness : demo_set TStr (GStr []) (AInt I 65) = Ret (GStr (str "A"), None).
Proof. rewrite int_into_string by lia. reflexivity. Defined.

Lemma nil_in_map_panics_witness : ∃ s, demo_set (TMap KString TStr) (GMap None) (AMap [(str "a", ANil)]) = Panic s.
Proof. apply (nil_in_map_panics _ _ _ _ _ _ TStr (GMap None) _ (str "a")); [reflexivity|left]. Defined.

Lemma struct_map_roundtrip_witness : demo_populate (ToStruct demo_fields [GStr []; GInt 0; GBool false])
  [(str "Name", AStr (str "ada")); (str "Age", AInt I8 36); (str "On", ABool true)] = Ret (ToStruct demo_fields [GStr (str "ada"); GInt 36; GBool true], None).
Proof.
  apply struct_map_roundtrip; [apply (bool_decide_unpack _); by vm_compute| |reflexivity|by vm_compute].
  repeat constructor; cbn; lia.
Defined.

End StructMap.
