(* ===== verification/RequestLog.v ===== *)
(** * The request logger ([src/middleware/request_logger.go])

    The wrapper that records the status and the size of a response, on top of the response of
    [net/http], and the middleware that logs them whether the handler returns or panics. *)

From Stdlib Require Import ZArith Lia.
From stdpp Require Import base list strings.
From S2P Require Import Prelude.
Local Open Scope Z_scope.

Module RequestLog.

(** ** The response of the server *)

(** The final status once it is set, the informational ones before it, the bytes of the body. *)
Record response : Type := mkResponse { final : option Z; infos : list Z; sent : Z }.
Definition new_response : response := mkResponse None [] 0.

Definition informational (code : Z) : bool := (100 <=? code) && (code <=? 199) && negb (code =? 101).

(** The error of a panic is with the state it leaves. *)
Definition server_WriteHeader (code : Z) (r : response) : response * option string :=
  match final r with
  | Some _ => (r, None)
  | None =>
      if (code <? 100) || (999 <? code) then (r, Some "invalid WriteHeader code"%string)
      else if informational code then (mkResponse None (infos r ++ [code]) (sent r), None)
      else (mkResponse (Some code) (infos r) (sent r), None)
  end.

Definition server_body (n : Z) (r : response) : response := mkResponse (Some (default 200 (final r))) (infos r) (sent r + n).
Definition server_flush (r : response) : response := mkResponse (Some (default 200 (final r))) (infos r) (sent r).

(** What a handler does: the body grows by the bytes that are accepted. *)
Inductive act : Type := DoWriteHeader (code : Z) | DoWrite (n : Z) | DoFlush | DoReadFrom (n : Z).

Definition server_step (a : act) (r : response) : response * option string :=
  match a with
  | DoWriteHeader code => server_WriteHeader code r
  | DoWrite n | DoReadFrom n => (server_body n r, None)
  | DoFlush => (server_flush r, None)
  end.

(** ** The wrapper *)

Record WrapResponseWriter : Type := mkWrap { under : response; status : Z; bytes : Z; wroteHeader : bool }.

Definition NewWrapResponseWriter (w : response) : WrapResponseWriter := mkWrap w 200 0 false.

Definition WriteHeader (code : Z) (ww : WrapResponseWriter) : WrapResponseWriter * option string :=
  if wroteHeader ww then (ww, None)
  else
    let '(r, e) := server_WriteHeader code (under ww) in
    (mkWrap r code (bytes ww) true, e).

(** The header before a body: 200 never panics. *)
Definition implicit_header (ww : WrapResponseWriter) : WrapResponseWriter := if wroteHeader ww then ww else (WriteHeader 200 ww).1.

Definition Write (n : Z) (ww : WrapResponseWriter) : WrapResponseWriter :=
  let ww := implicit_header ww in mkWrap (server_body n (under ww)) (status ww) (i64 (bytes ww + n)) (wroteHeader ww).

Definition Status (ww : WrapResponseWriter) : Z := status ww.
Definition BytesWritten (ww : WrapResponseWriter) : Z := bytes ww.

(** [flusher]: the writer below can flush. *)
Definition Flush (flusher : bool) (ww : WrapResponseWriter) : WrapResponseWriter :=
  let ww := implicit_header ww in
  if flusher then mkWrap (server_flush (under ww)) (status ww) (bytes ww) (wroteHeader ww) else ww.

(** Both ways of copying write the same bytes. *)
Definition ReadFrom (n : Z) (ww : WrapResponseWriter) : WrapResponseWriter :=
  let ww := implicit_header ww in mkWrap (server_body n (under ww)) (status ww) (i64 (bytes ww + n)) (wroteHeader ww).

Definition Hijack {C : Type} (hijacker : option (result string C)) : result string C :=
  match hijacker with None => Err "http.Hijacker is unavailable on the writer"%string | Some r => r end.
Definition Push (pusher : option (option string)) : option string :=
  match pusher with None => Some "http.Pusher is unavailable on the writer"%string | Some e => e end.

Definition wrap_step (a : act) (ww : WrapResponseWriter) : WrapResponseWriter * option string :=
  match a with
  | DoWriteHeader code => WriteHeader code ww
  | DoWrite n => (Write n ww, None)
  | DoFlush => (Flush true ww, None)
  | DoReadFrom n => (ReadFrom n ww, None)
  end.

(** A handler runs to its end or to a panic. *)
Fixpoint run {S : Type} (step : act → S → S * option string) (acts : list act) (s : S) : S * option string :=
  match acts with
  | [] => (s, None)
  | a :: acts =>
      let '(s, e) := step a s in
      match e with
      | Some e => (s, Some e)
      | None => run step acts s
      end
  end.

(** ** The middleware *)

(** The fields of an entry that come from the wrapper; the others are those of the request. *)
Record entry : Type := mkEntry { e_status : Z; e_bytes : Z }.

(** The entries logged, the response and the panic that goes on to the server. *)
Definition RequestLogger (acts : list act) : list entry * response * option string :=
  let '(ww, e) := run wrap_step acts (NewWrapResponseWriter new_response) in
  ([mkEntry (Status ww) (BytesWritten ww)], under ww, e).

(** ** What is logged is what was sent *)

(** The actions of a handler that sends no informational status and valid codes. *)
Definition ordinary (a : act) : bool :=
  match a with
  | DoWriteHeader code => (100 <=? code) && (code <=? 999) && negb (informational code)
  | DoWrite n | DoReadFrom n => 0 <=? n
  | DoFlush => true
  end.

Definition size (acts : list act) : Z := foldr (λ a n, (match a with DoWrite k | DoReadFrom k => k | _ => 0 end) + n) 0 acts.

(** The wrapper agrees with the response below it. *)
Definition agrees (ww : WrapResponseWriter) : Prop :=
  wroteHeader ww = bool_decide (is_Some (final (under ww))) ∧ status ww = default 200 (final (under ww)) ∧ bytes ww = sent (under ww).

Lemma implicit_agrees ww : agrees ww → agrees (implicit_header ww) ∧ under (implicit_header ww) = (if wroteHeader ww then under ww else server_flush (under ww)) ∧
  wroteHeader (implicit_header ww) = true.
Proof.
  intros (H1 & H2 & H3). unfold implicit_header, WriteHeader. destruct (wroteHeader ww) eqn:Hw; [by rewrite Hw; unfold agrees; rewrite Hw|]. cbn.
  symmetry in H1. apply bool_decide_eq_false in H1. unfold agrees, server_WriteHeader, server_flush.
  destruct (final (under ww)) eqn:Hf; [by destruct H1; eexists|]. split_and!; try reflexivity; exact H3.
Qed.

Lemma step_agrees a ww : agrees ww → ordinary a = true → 0 <= bytes ww → bytes ww + size [a] < 2 ^ 63 →
  let '(ww', e) := wrap_step a ww in
  e = None ∧ agrees ww' ∧ server_step a (under ww) = (under ww', None) ∧ bytes ww' = bytes ww + size [a] ∧ 0 <= size [a].
Proof.
  intros Ha Ho Hb Hs. destruct (implicit_agrees ww Ha) as (Hi & Hu & Hw).
  assert (Hbody : ∀ n, 0 <= n → bytes ww + n < 2 ^ 63 →
    let ww' := mkWrap (server_body n (under (implicit_header ww))) (status (implicit_header ww)) (i64 (bytes (implicit_header ww) + n)) (wroteHeader (implicit_header ww)) in
    agrees ww' ∧ server_body n (under ww) = under ww' ∧ bytes ww' = bytes ww + n).
  { intros n Hn Hlt. destruct Hi as (I1 & I2 & I3). destruct Ha as (A1 & A2 & A3).
    assert (Hbytes : bytes (implicit_header ww) = bytes ww) by (rewrite I3, Hu; by destruct (wroteHeader ww)).
    cbn [under bytes]. rewrite Hbytes, i64_id by (unfold is_i64; lia). rewrite Hu in *. split_and!; [|by destruct (wroteHeader ww)|done].
    split_and!; cbn; [done| |]; [by rewrite I2|]. rewrite A3. by destruct (wroteHeader ww). }
  destruct a as [code|n| |n]; cbn in Ho, Hs |- *.
  - destruct Ha as (A1 & A2 & A3). unfold WriteHeader, server_WriteHeader. rewrite A1. apply andb_true_iff in Ho as [Ho Hinf]. apply andb_true_iff in Ho as [Ho1 Ho2].
    destruct (final (under ww)) eqn:Hf; cbn.
    + split_and!; try done; [|lia]. unfold agrees. by rewrite Hf.
    + replace (code <? 100) with false by lia. replace (999 <? code) with false by lia. apply negb_true_iff in Hinf. rewrite Hinf. cbn. split_and!; try done; lia.
  - destruct (Hbody n) as (B1 & B2 & B3); [lia..|]. split_and!; try done; [by f_equal|cbn in *; lia|lia].
  - unfold Flush. destruct Hi as (I1 & I2 & I3). destruct Ha as (A1 & A2 & A3). split_and!; try done.
    + rewrite Hu. by destruct (wroteHeader ww).
    + rewrite I3, Hu, A3. destruct (wroteHeader ww); cbn; lia.
  - destruct (Hbody n) as (B1 & B2 & B3); [lia..|]. split_and!; try done; [by f_equal|cbn in *; lia|lia].
Qed.

Lemma run_agrees acts ww : agrees ww → Forall (λ a, ordinary a = true) acts → 0 <= bytes ww → bytes ww + size acts < 2 ^ 63 →
  let '(ww', e) := run wrap_step acts ww in e = None ∧ agrees ww' ∧ run server_step acts (under ww) = (under ww', None).
Proof.
  revert ww. induction acts as [|a acts IH]; intros ww Ha Hf Hb Hs; [done|]. apply Forall_cons in Hf as [Ho Hf].
  assert (Hpos : 0 <= size acts).
  { clear -Hf. induction Hf as [|x l Hx _ IH]; [done|]. unfold size in *. destruct x; cbn in *; lia. }
  assert (Hsz : size (a :: acts) = size [a] + size acts) by (unfold size; cbn; lia). rewrite Hsz in Hs.
  pose proof (step_agrees a ww Ha Ho Hb ltac:(lia)) as Hst. cbn [run]. destruct (wrap_step a ww) as [ww1 e]. destruct Hst as (-> & H1 & H2 & H3 & H4).
  rewrite H2. apply IH; [done|done|lia|lia].
Qed.

(** A handler that sends no informational status is logged once, with the status and the size
    the client gets, and the client gets what it would get without the wrapper. *)
Theorem RequestLogger_faithful acts : Forall (λ a, ordinary a = true) acts → size acts < 2 ^ 63 →
  ∃ r, RequestLogger acts = ([mkEntry (default 200 (final r)) (sent r)], r, None) ∧ run server_step acts new_response = (r, None).
Proof.
  intros Hf Hs. pose proof (run_agrees acts (NewWrapResponseWriter new_response)) as H. unfold RequestLogger.
  destruct (run wrap_step acts (NewWrapResponseWriter new_response)) as [ww e]. destruct H as (-> & (_ & A2 & A3) & Hr); [done|done|done|cbn; lia|].
  exists (under ww). unfold Status, BytesWritten. by rewrite A2, A3.
Qed.

(** Whatever a handler does, also when it panics, there is one entry. *)
Theorem RequestLogger_logs_once acts : length (RequestLogger acts).1.1 = 1%nat ∧ (RequestLogger acts).2 = (run wrap_step acts (NewWrapResponseWriter new_response)).2.
Proof. unfold RequestLogger. by destruct (run _ _ _). Qed.

(** An informational status counts as the header: the status that follows it is dropped, the
    client gets 200 in its place, and the informational one is logged. *)
Theorem informational_drops_status code n : ordinary (DoWriteHeader code) = true → 0 <= n < 2 ^ 63 →
  ∃ r r', RequestLogger [DoWriteHeader 103; DoWriteHeader code; DoWrite n] = ([mkEntry 103 n], r, None) ∧ final r = Some 200 ∧
    run server_step [DoWriteHeader 103; DoWriteHeader code; DoWrite n] new_response = (r', None) ∧ final r' = Some code.
Proof.
  intros Ho Hn. cbn in Ho. apply andb_true_iff in Ho as [Ho Hinf]. apply andb_true_iff in Ho as [Ho1 Ho2]. apply negb_true_iff in Hinf.
  exists (mkResponse (Some 200) [103] n), (mkResponse (Some code) [103] n). split_and!; try done.
  - unfold RequestLogger. cbn -[i64]. rewrite i64_id; [done|unfold is_i64; lia].
  - cbn. unfold server_WriteHeader. cbn. replace (code <? 100) with false by lia. replace (999 <? code) with false by lia. by rewrite Hinf.
Qed.

Lemma RequestLogger_faithful_witness : ∃ r, RequestLogger [DoWriteHeader 404; DoWriteHeader 500; DoWrite 5; DoFlush; DoReadFrom 7] = ([mkEntry 404 12], r, None).
Proof.
  destruct (RequestLogger_faithful [DoWriteHeader 404; DoWriteHeader 500; DoWrite 5; DoFlush; DoReadFrom 7]) as (r & E & Hr); [repeat constructor|done|].
  exists r. rewrite E. injection Hr as <-. reflexivity.
Defined.

Lemma informational_drops_status_witness : ∃ r r', RequestLogger [DoWriteHeader 103; DoWriteHeader 404; DoWrite 5] = ([mkEntry 103 5], r, None) ∧ final r = Some 200 ∧
    run server_step [DoWriteHeader 103; DoWriteHeader 404; DoWrite 5] new_response = (r', None) ∧ final r' = Some 404.
Proof. apply informational_drops_status; [reflexivity|lia]. Defined.

End RequestLog.
