(* ===== verification/Notifiers.v ===== *)
(** * Chat notifiers ([src/notifier/notifier.go], [src/notifier/slack], [src/notifier/teams])

    The messages, what is posted for them by the Slack API, the Slack webhook and the Teams
    webhook, and the errors of sending. The HTTP client, the Slack client and JSON encoding
    are parameters; the payloads are JSON values. *)

From Stdlib Require Import ZArith Lia Ascii.
From stdpp Require Import base list strings.
From S2P Require Import Prelude SqlText JsonCustom.
Local Open Scope Z_scope.

Module Notifiers.
Import JsonCustom.

(** ** Messages *)

Record SlackField : Type := mkSlackField { sf_Title : text; sf_Value : text; sf_Short : bool }.
Record SlackAttachment : Type := mkSlackAttachment {
  a_Color : text; a_Title : text; a_TitleLink : text; a_Text : text; a_Fields : list SlackField; a_Footer : text;
  a_AuthorName : text; a_AuthorIcon : text; a_ImageURL : text; a_Timestamp : text;
}.
Record SlackMessage : Type := mkSlackMessage {
  m_Channel : text; m_Text : text; m_Username : text; m_IconURL : text; m_ThreadTS : text; m_Attachments : list SlackAttachment;
}.

Record Fact : Type := mkFact { f_Name : text; f_Value : text }.
Record Section_ : Type := mkSection { ActivityTitle : text; ActivitySubtitle : text; ActivityImage : text; Facts : list Fact; s_Text : text }.
Record Target : Type := mkTarget { OS : text; URI : text }.
Record TeamsAction : Type := mkAction { act_Type : text; act_Name : text; Targets : list Target }.
Record TeamsMessage : Type := mkTeamsMessage {
  t_Type : text; Summary : text; ThemeColor : text; t_Title : text; t_Text : text; Sections : list Section_; PotentialAction : list TeamsAction;
}.

(** What implements the [Message] interface. *)
Inductive Message : Type := OfSlack (m : SlackMessage) | OfTeams (m : TeamsMessage) | OfOther.

Record Request : Type := mkRequest { Platform : text; Token : text; UseWebhook : bool; WebhookURL : text; DefaultChannel : text }.

Inductive notify_error : Type := NilRequest | Unsupported (p : text) | WrongType | NoURL | MarshalErr | PostErr (e : string) | BadStatus (s : text) | ApiErr (e : string).

(** ** Sending *)

(** What leaves the process. *)
Inductive sent : Type :=
  | Posted (url contentType body : text)
  | Api (channel text thread : text) (attachments : list SlackAttachment).

(** [encode] is [json.Marshal]; [post] what the server answers, as status code and text;
    [api] the error of the Slack client. *)
Section send.
Context (encode : json → option text) (post : text → text → result string (Z * text)) (api : text → option string)
        (encode_attachments : list SlackAttachment → json).

Definition jtext (s : string) : text := str s.

(** The attachment of the Slack client has the same fields; a time stamp that is not empty is
    copied, and one that is empty leaves it empty. *)
Definition api_attachment (a : SlackAttachment) : SlackAttachment :=
  mkSlackAttachment (a_Color a) (a_Title a) (a_TitleLink a) (a_Text a) ((λ f, mkSlackField (sf_Title f) (sf_Value f) (sf_Short f)) <$> a_Fields a) (a_Footer a)
    (a_AuthorName a) (a_AuthorIcon a) (a_ImageURL a) (if bool_decide (a_Timestamp a ≠ []) then a_Timestamp a else []).

Definition sendViaToken (r : Request) (m : SlackMessage) : list sent * option notify_error :=
  let channel := if decide (m_Channel m = []) then DefaultChannel r else m_Channel m in
  ([Api channel (m_Text m) (m_ThreadTS m) (api_attachment <$> m_Attachments m)],
   match api channel with Some e => Some (ApiErr e) | None => None end).

(** A post of a payload: the body, then the status. *)
Definition post_json (url : text) (payload : json) : list sent * option notify_error :=
  match encode payload with
  | None => ([], Some MarshalErr)
  | Some body =>
      ([Posted url (str "application/json") body],
       match post url body with
       | Err e => Some (PostErr e)
       | Ok (code, status) => if 300 <=? code then Some (BadStatus status) else None
       end)
  end.

Definition slack_payload (m : SlackMessage) : json :=
  JObj ([(jtext "text", JStr (m_Text m)); (jtext "username", JStr (m_Username m)); (jtext "icon_url", JStr (m_IconURL m))] ++
        (if decide (m_Attachments m = []) then [] else [(jtext "attachments", encode_attachments (m_Attachments m))])).

Definition sendViaWebhook (r : Request) (m : SlackMessage) : list sent * option notify_error :=
  if decide (WebhookURL r = []) then ([], Some NoURL) else post_json (WebhookURL r) (slack_payload m).

Definition Slack_Send (r : Request) (message : Message) : list sent * option notify_error :=
  match message with
  | OfSlack m => if UseWebhook r then sendViaWebhook r m else sendViaToken r m
  | _ => ([], Some WrongType)
  end.

(** ** The Teams card *)

Definition fact_json (f : Fact) : json := JObj [(jtext "name", JStr (f_Name f)); (jtext "value", JStr (f_Value f))].
Definition unless_empty (key : string) (s : text) : list (text * json) := if decide (s = []) then [] else [(jtext key, JStr s)].
Definition section_json (s : Section_) : json :=
  JObj ((jtext "facts", JArr (fact_json <$> Facts s)) :: unless_empty "activityTitle" (ActivityTitle s) ++
        unless_empty "activitySubtitle" (ActivitySubtitle s) ++ unless_empty "activityImage" (ActivityImage s)).
Definition target_json (t : Target) : json := JObj [(jtext "os", JStr (OS t)); (jtext "uri", JStr (URI t))].
Definition action_json (a : TeamsAction) : json :=
  JObj [(jtext "@type", JStr (act_Type a)); (jtext "name", JStr (act_Name a)); (jtext "targets", JArr (target_json <$> Targets a))].

Definition buildCardStructure (m : TeamsMessage) : json :=
  JObj ([(jtext "@type", JStr (str "MessageCard")); (jtext "@context", JStr (str "http://schema.org/extensions")); (jtext "title", JStr (t_Title m));
         (jtext "summary", JStr (Summary m)); (jtext "text", JStr (t_Text m)); (jtext "themeColor", JStr (ThemeColor m))] ++
        (if decide (length (Sections m) = 0%nat) then [] else [(jtext "sections", JArr (section_json <$> Sections m))]) ++
        (if decide (length (PotentialAction m) = 0%nat) then [] else [(jtext "potentialAction", JArr (action_json <$> PotentialAction m))])).

Definition Teams_Send (r : option Request) (message : Message) : list sent * option notify_error :=
  match r with
  | None => ([], Some NoURL)
  | Some r =>
      if decide (WebhookURL r = []) then ([], Some NoURL)
      else match message with
      | OfTeams m => post_json (WebhookURL r) (buildCardStructure m)
      | _ => ([], Some WrongType)
      end
  end.

(** ** The factory *)

Inductive notifier : Type := Slack (r : Request) | Teams (r : option Request).

Definition NewNotifier (request : option Request) : result notify_error notifier :=
  match request with
  | None => Err NilRequest
  | Some r =>
      if decide (Platform r = str "slack") then Ok (Slack r)
      else if decide (Platform r = str "teams") then Ok (Teams (Some r))
      else Err (Unsupported (Platform r))
  end.

Definition Send (n : notifier) (message : Message) : list sent * option notify_error :=
  match n with
  | Slack r => Slack_Send r message
  | Teams r => Teams_Send r message
  end.

(** ** Properties *)

(** The message of a notifier. *)
Definition suits (n : notifier) (message : Message) : bool :=
  match n, message with
  | Slack _, OfSlack _ | Teams _, OfTeams _ => true
  | _, _ => false
  end.

Lemma post_json_one url payload : (length (post_json url payload).1 ≤ 1)%nat ∧
  ((post_json url payload).2 = None → ∃ body code status, encode payload = Some body ∧ (post_json url payload).1 = [Posted url (str "application/json") body] ∧
     post url body = Ok (code, status) ∧ code < 300).
Proof.
  unfold post_json. destruct (encode payload) as [body|]; cbn; [|split; [lia|done]]. split; [lia|].
  destruct (post url body) as [[code status]|e] eqn:HP; [|done]. destruct (Z.leb_spec 300 code); [done|]. intros _. by exists body, code, status.
Qed.

(** Whatever the platform, a message is sent at most once, nothing is sent for a message of
    another platform, and success means that one thing was sent and accepted. *)
Theorem Send_spec request n message : NewNotifier request = Ok n →
  (length (Send n message).1 ≤ 1)%nat ∧
  (suits n message = false → (Send n message).1 = [] ∧ (Send n message).2 ≠ None) ∧
  ((Send n message).2 = None →
    (∃ url body code status, (Send n message).1 = [Posted url (str "application/json") body] ∧ post url body = Ok (code, status) ∧ code < 300) ∨
    (∃ channel text thread atts, (Send n message).1 = [Api channel text thread atts] ∧ api channel = None)).
Proof.
  intros Hn. destruct n as [r|r]; cbn [Send].
  - unfold Slack_Send. destruct message as [m|m|]; cbn; [|split_and!; [lia|done|done]..].
    destruct (UseWebhook r).
    + unfold sendViaWebhook. destruct (decide (WebhookURL r = [])); cbn; [split_and!; [lia|done|done]|].
      destruct (post_json_one (WebhookURL r) (slack_payload m)) as [H1 H2]. split_and!; [done|done|].
      intros (body & code & status & _ & ? & ? & ?)%H2. left. by exists (WebhookURL r), body, code, status.
    + split_and!; [cbn; lia|done|]. cbn. destruct (api _) eqn:Ha; [done|]. intros _. right. by repeat eexists.
  - unfold Teams_Send. destruct r as [r|]; cbn; [|split_and!; [lia|done|done]].
    destruct (decide (WebhookURL r = [])); cbn; [split_and!; [lia|done|done]|]. destruct message as [m|m|]; cbn; [split_and!; [lia|done|done]| |split_and!; [lia|done|done]].
    destruct (post_json_one (WebhookURL r) (buildCardStructure m)) as [H1 H2]. split_and!; [done|done|].
    intros (body & code & status & _ & ? & ? & ?)%H2. left. by exists (WebhookURL r), body, code, status.
Qed.

(** The Slack client gets the attachments as they are, fields and time stamps included. *)
Theorem token_keeps_attachments r m : (sendViaToken r m).1 =
  [Api (if decide (m_Channel m = []) then DefaultChannel r else m_Channel m) (m_Text m) (m_ThreadTS m) (m_Attachments m)].
Proof.
  unfold sendViaToken. cbn [fst]. do 2 f_equal. induction (m_Attachments m) as [|a l IH]; [done|]. cbn [fmap list_fmap]. f_equal; [|exact IH].
  destruct a as [c t tl tx fs fo an ai im ts]. unfold api_attachment. cbn. f_equal; [|by destruct ts].
  induction fs as [|[] fs IHf]; [done|]. cbn. by rewrite IHf.
Qed.

(** The message with the text of its sections removed. *)
Definition without_section_text (m : TeamsMessage) : TeamsMessage :=
  mkTeamsMessage (t_Type m) (Summary m) (ThemeColor m) (t_Title m) (t_Text m)
    ((λ s, mkSection (ActivityTitle s) (ActivitySubtitle s) (ActivityImage s) (Facts s) []) <$> Sections m) (PotentialAction m).

(** The text of a section never reaches the card; the channel and the thread of a Slack
    message never reach the webhook. *)
Theorem payload_drops m s channel thread :
  buildCardStructure m = buildCardStructure (without_section_text m) ∧
  slack_payload s = slack_payload (mkSlackMessage channel (m_Text s) (m_Username s) (m_IconURL s) thread (m_Attachments s)).
Proof.
  split; [|done]. unfold buildCardStructure. cbn [Sections without_section_text PotentialAction t_Title Summary t_Text ThemeColor].
  rewrite length_fmap. do 3 f_equal. case_decide; [done|]. do 3 f_equal. rewrite <- list_fmap_compose. by apply list_fmap_ext.
Qed.
End send.

Definition demo_request : Request := mkRequest (str "teams") [] true (str "u") [].
Lemma Send_spec_witness : ∃ url body code status,
  (Send (λ _, Some []) (λ _ _, Ok (200, [])) (λ _, None) (λ _, JNull) (Teams (Some demo_request)) (OfTeams (mkTeamsMessage [] [] [] [] [] [] []))).1
    = [Posted url (str "application/json") body] ∧ Ok (E := string) (200, @nil ascii) = Ok (code, status) ∧ code < 300.
Proof.
  destruct (Send_spec (λ _, Some []) (λ _ _, Ok (200, [])) (λ _, None) (λ _, JNull) (Some demo_request) (Teams (Some demo_request))
    (OfTeams (mkTeamsMessage [] [] [] [] [] [] []))) as (_ & _ & H); [reflexivity|].
  destruct (H eq_refl) as [(url & body & code & status & E)|(? & ? & ? & ? & E & _)]; [by exists url, body, code, status|discriminate E].
Defined.

End Notifiers.
