(* ===== verification/Email.v ===== *)
(** * Email ([src/cloud/service/aws/ses.go], [src/cloud/entity/email])

    Simple and raw messages and the request they make to the mail service: the header block
    written by hand, the parts written by [mime/multipart], attachments in base64. The client
    and [net/mail]'s form of an address with a name are parameters. *)

From Stdlib Require Import ZArith Lia Ascii.
From stdpp Require Import base list strings.
From S2P Require Import Prelude SqlText.
Local Open Scope Z_scope.

Module Email.

(** ** Messages *)

Record Attachment : Type := mkAttachment { FileName : text; ContentType : text; Content : list Z }.

(** The fields the two inputs share, and those of a raw message. *)
Record SendSimpleEmailInput : Type := mkSimple {
  FromName : text; FromAddress : text; ToAddresses : list text; CcAddresses : list text; BccAddresses : list text; ReplyToAddress : list text;
  Subject : text; HtmlBody : text; TextBody : text; Headers : list (text * text); Tags : list (text * text); PixelTrackingURL : text;
}.
Record SendRawEmailInput : Type := mkRaw { common : SendSimpleEmailInput; Attachments : list Attachment; InlineImages : list (text * Attachment) }.

Definition LF : ascii := char 10.
Definition CRLF : text := [char 13; char 10].

Record HeaderParams : Type := mkHeader { h_From : text; h_To : text; h_Subject : text; MIMEVersion : text; h_ContentType : text; Boundary : text }.

Definition HeaderParams_ToString (h : HeaderParams) : text :=
  str "From: " ++ h_From h ++ LF :: str "To: " ++ h_To h ++ LF :: str "Subject: " ++ h_Subject h ++ LF :: str "MIME-Version: " ++ MIMEVersion h ++
  LF :: str "Content-Type: " ++ h_ContentType h ++ str "; boundary=" ++ Boundary h ++ [LF; LF].

Definition formatAddresses (addresses : list text) : text := Join addresses (str ", ").

Definition getRawEmailHeader (subject from : text) (to : list text) (boundary : text) : text :=
  HeaderParams_ToString (mkHeader from (formatAddresses to) subject (str "1.0") (str "multipart/form-data") boundary).

Definition getPixelTrackingMarkup (url : text) : text :=
  str "<img src=" ++ char_dquote :: url ++ char_dquote :: str " width=" ++ char_dquote :: str "1" ++ char_dquote :: str " height=" ++ char_dquote :: str "1" ++
  char_dquote :: str " style=" ++ char_dquote :: str "display:none;" ++ char_dquote :: str " />".

Definition html_body (input : SendSimpleEmailInput) : text :=
  HtmlBody input ++ (if decide (PixelTrackingURL input = []) then [] else getPixelTrackingMarkup (PixelTrackingURL input)).

(** ** Parts *)

(** [base64.StdEncoding] *)
Definition base64_std : text := str "ABCDEFGHIJKLMNOPQRSTUVWXYZabcdefghijklmnopqrstuvwxyz0123456789+/".
Definition std_char (n : Z) : ascii := nth (Z.to_nat (Z.land n 63)) base64_std (char 65).
Definition pad : ascii := char 61.

Fixpoint EncodeToString (bs : list Z) : text :=
  match bs with
  | [] => []
  | [a] => [std_char (Z.shiftr a 2); std_char (Z.shiftl a 4); pad; pad]
  | [a; b] => [std_char (Z.shiftr a 2); std_char (Z.lor (Z.shiftl a 4) (Z.shiftr b 4)); std_char (Z.shiftl b 2); pad]
  | a :: b :: c :: bs =>
      std_char (Z.shiftr a 2) :: std_char (Z.lor (Z.shiftl a 4) (Z.shiftr b 4)) ::
      std_char (Z.lor (Z.shiftl b 2) (Z.shiftr c 6)) :: std_char c :: EncodeToString bs
  end.

(** A part: its header in the order it is written in, by name, and its body. *)
Record part : Type := mkPart { p_header : list (text * text); p_body : text }.

Definition html_part (body : text) : part := mkPart [(str "Content-Disposition", str "text/html; charset=UTF-8")] body.
Definition quoted (s : text) : text := char_dquote :: s ++ [char_dquote].
Definition attachment_part (a : Attachment) : part :=
  mkPart [(str "Content-Disposition", str "attachment; filename=" ++ quoted (FileName a)); (str "Content-Type", ContentType a ++ str "; name=" ++ quoted (FileName a))]
    (EncodeToString (Content a)).

Definition raw_parts (input : SendRawEmailInput) : list part :=
  (if decide (html_body (common input) = []) then [] else [html_part (html_body (common input))]) ++ (attachment_part <$> Attachments input).

(** [multipart.Writer]: [CreatePart], the writes to the part, [Close]. *)
Definition write_part (boundary : text) (first : bool) (p : part) : text :=
  (if first then [] else CRLF) ++ str "--" ++ boundary ++ CRLF ++ (p_header p ≫= λ kv, kv.1 ++ str ": " ++ kv.2 ++ CRLF) ++ CRLF ++ p_body p.
Definition write_parts (boundary : text) (ps : list part) : text :=
  match ps with
  | [] => []
  | p :: ps => write_part boundary true p ++ (ps ≫= write_part boundary false)
  end.
Definition close_parts (boundary : text) : text := CRLF ++ str "--" ++ boundary ++ str "--" ++ CRLF.

(** A buffer takes every write. *)
Definition writeRawEmailContent (boundary : text) (input : SendRawEmailInput) : text :=
  getRawEmailHeader (Subject (common input)) (FromAddress (common input)) (ToAddresses (common input)) boundary ++
  write_parts boundary (raw_parts input) ++ close_parts boundary.

(** ** Sending *)

Inductive content : Type := Simple (subject html text : text) | RawData (data : text).
Record request : Type := mkRequest { r_From : text; r_To : list text; r_Cc : list text; r_Bcc : list text; r_ReplyTo : list text; r_Content : content }.

Section send.
Context (address : text → text → text) (SendEmail : request → result string (option text)).

Definition formatEmailFrom (name addr : text) : text :=
  let trimmedAddress := TrimSpace addr in
  if decide (trimmedAddress = []) then []
  else
    let trimmedName := TrimSpace name in
    if decide (trimmedName = []) then trimmedAddress else address trimmedName trimmedAddress.

Definition simple_request (input : SendSimpleEmailInput) : request :=
  mkRequest (formatEmailFrom (FromName input) (FromAddress input)) (ToAddresses input) (CcAddresses input) (BccAddresses input) (ReplyToAddress input)
    (Simple (Subject input) (html_body input) (TextBody input)).

Definition raw_request (boundary : text) (input : SendRawEmailInput) : request :=
  mkRequest (formatEmailFrom (FromName (common input)) (FromAddress (common input))) (ToAddresses (common input)) [] [] []
    (RawData (writeRawEmailContent boundary input)).

(** A missing identifier is the empty one. *)
Definition send_request (failed : string) (r : request) : result string text :=
  match SendEmail r with
  | Err e => Err (failed +:+ e)
  | Ok id => Ok (default [] id)
  end.

Definition SendSimpleEmail (input : SendSimpleEmailInput) : result string text := send_request "failed to send simple email: " (simple_request input).
Definition SendRawEmail (boundary : text) (input : SendRawEmailInput) : result string text := send_request "failed to send raw email: " (raw_request boundary input).
End send.

(** ** The header block *)

(** The lines of a text. *)
Definition lines (s : text) : list text := Split s LF.

Lemma Split_line s t : LF ∉ s → lines (s ++ LF :: t) = s :: lines t.
Proof.
  unfold lines. intros Hs. induction s as [|c s IH]; cbn; [done|]. rewrite not_elem_of_cons in Hs. destruct Hs as [Hc Hs].
  rewrite bool_decide_false by (intros ->; done). by rewrite IH.
Qed.

Lemma clean_app s t : LF ∉ s → LF ∉ t → LF ∉ s ++ t.
Proof. rewrite elem_of_app. tauto. Qed.

Lemma clean_const s : bool_decide (LF ∈ str s) = false → LF ∉ str s.
Proof. by rewrite bool_decide_eq_false. Qed.

(** With no line feed in the fields, the block is the five lines and the empty one, and each
    field has its own line. *)
Theorem header_lines subject from to boundary : LF ∉ subject → LF ∉ from → LF ∉ formatAddresses to → LF ∉ boundary →
  lines (getRawEmailHeader subject from to boundary) =
  [str "From: " ++ from; str "To: " ++ formatAddresses to; str "Subject: " ++ subject; str "MIME-Version: 1.0";
   str "Content-Type: multipart/form-data; boundary=" ++ boundary; []; []].
Proof.
  intros H1 H2 H3 H4. unfold getRawEmailHeader, HeaderParams_ToString. cbn [h_From h_To h_Subject MIMEVersion h_ContentType Boundary].
  rewrite (app_assoc (str "From: ")), (Split_line (str "From: " ++ from)) by (apply clean_app; [by apply clean_const|done]).
  rewrite (app_assoc (str "To: ")), (Split_line (str "To: " ++ formatAddresses to)) by (apply clean_app; [by apply clean_const|done]).
  rewrite (app_assoc (str "Subject: ")), (Split_line (str "Subject: " ++ subject)) by (apply clean_app; [by apply clean_const|done]).
  rewrite (app_assoc (str "MIME-Version: ")), (Split_line (str "MIME-Version: " ++ str "1.0")) by (exact (clean_const "MIME-Version: 1.0" eq_refl)).
  change (str "Content-Type: " ++ str "multipart/form-data" ++ str "; boundary=" ++ boundary ++ [LF; LF])
    with (str "Content-Type: multipart/form-data; boundary=" ++ boundary ++ LF :: [LF]).
  rewrite (app_assoc (str "Content-Type: multipart/form-data; boundary=")).
  rewrite (Split_line (str "Content-Type: multipart/form-data; boundary=" ++ boundary)); [done|]. apply clean_app; [by apply clean_const|done].
Qed.

(** A subject with a line feed adds a line of its choice to the header: a recipient, or the
    end of the header. *)
Theorem subject_adds_a_header subject line from to boundary : LF ∉ subject → LF ∉ line → LF ∉ from → LF ∉ formatAddresses to → LF ∉ boundary →
  line ∈ lines (getRawEmailHeader (subject ++ LF :: line) from to boundary).
Proof.
  intros H1 Hl H2 H3 H4. unfold getRawEmailHeader, HeaderParams_ToString. cbn [h_From h_To h_Subject MIMEVersion h_ContentType Boundary].
  rewrite (app_assoc (str "From: ")), (Split_line (str "From: " ++ from)) by (apply clean_app; [by apply clean_const|done]). right.
  rewrite (app_assoc (str "To: ")), (Split_line (str "To: " ++ formatAddresses to)) by (apply clean_app; [by apply clean_const|done]). right.
  rewrite <- (app_assoc subject), (app_assoc (str "Subject: ")). cbn [app].
  rewrite (Split_line (str "Subject: " ++ subject)) by (apply clean_app; [by apply clean_const|done]). right. rewrite Split_line by done. left.
Qed.

(** ** What a receiver makes of a part *)

(** A part whose header does not say otherwise is taken as it is (RFC 2045, 6.1); [decode]
    is what the named encodings do. *)
Definition received (decode : text → text → text) (p : part) : text :=
  match List.find (λ kv, bool_decide (kv.1 = str "Content-Transfer-Encoding")) (p_header p) with
  | Some (_, enc) => decode enc (p_body p)
  | None => p_body p
  end.

Lemma three_ind (P : list Z → Prop) : P [] → (∀ a, P [a]) → (∀ a b, P [a; b]) → (∀ a b c l, P l → P (a :: b :: c :: l)) → ∀ l, P l.
Proof.
  intros H0 H1 H2 H3. fix IH 1. intros [|a [|b [|c l]]]; [exact H0|apply H1|apply H2|apply H3, IH].
Qed.

Lemma EncodeToString_longer bs : bs ≠ [] → (length bs < length (EncodeToString bs))%nat.
Proof.
  induction bs as [|a|a b|a b c bs IH] using three_ind; intros Hb; try done; [cbn; lia..|].
  change (length (a :: b :: c :: bs)) with (3 + length bs)%nat. change (length (EncodeToString (a :: b :: c :: bs))) with (4 + length (EncodeToString bs))%nat.
  destruct bs as [|d bs]; [cbn; lia|]. specialize (IH ltac:(done)). lia.
Qed.

(** No part names its encoding: the receiver of an attachment gets the base64 text in place of
    the content, and the page is in a part with no content type. *)
Theorem raw_parts_undeclared decode input a : a ∈ Attachments input → Content a ≠ [] →
  ∃ p, p ∈ raw_parts input ∧ p_body p = EncodeToString (Content a) ∧
    length (received decode p) ≠ length (Content a) ∧
    ∀ p', p' ∈ raw_parts input → p' ∉ attachment_part <$> Attachments input → str "Content-Type" ∉ (p_header p').*1.
Proof.
  intros Ha Hc. exists (attachment_part a). unfold raw_parts. split_and!.
  - apply elem_of_app. right. by apply list_elem_of_fmap_2.
  - done.
  - change (received decode (attachment_part a)) with (EncodeToString (Content a)). pose proof (EncodeToString_longer _ Hc). lia.
  - intros p' [Hp|Hp]%elem_of_app Hn; [|done]. case_decide; [by apply not_elem_of_nil in Hp|]. apply list_elem_of_singleton in Hp as ->.
    cbn [html_part p_header fmap list_fmap fst]. rewrite list_elem_of_singleton. by vm_compute.
Qed.

(** What a raw message says besides these is not sent: copies, replies, the plain text, the
    custom headers, the tags and the inline images. *)
Theorem raw_email_ignores address boundary input cc bcc replyTo txt headers tags images :
  let c := common input in
  raw_request address boundary input =
  raw_request address boundary
    (mkRaw (mkSimple (FromName c) (FromAddress c) (ToAddresses c) cc bcc replyTo (Subject c) (HtmlBody c) txt headers tags (PixelTrackingURL c)) (Attachments input) images).
Proof. done. Qed.

(** ** Witnesses *)

Lemma header_lines_witness : lines (getRawEmailHeader (str "hi") (str "a@b") [str "c@d"] (str "xyz")) !! 2%nat = Some (str "Subject: hi").
Proof. rewrite header_lines; [done|apply (bool_decide_eq_false_1 _); by vm_compute..]. Defined.

Lemma subject_adds_a_header_witness : str "Bcc: e@f" ∈ lines (getRawEmailHeader (str "hi" ++ LF :: str "Bcc: e@f") (str "a@b") [str "c@d"] (str "xyz")).
Proof. apply subject_adds_a_header; apply (bool_decide_eq_false_1 _); by vm_compute. Defined.

Lemma raw_parts_undeclared_witness : ∃ p, p ∈ raw_parts (mkRaw (mkSimple [] [] [] [] [] [] [] [] [] [] [] []) [mkAttachment (str "a") (str "b") [1; 2; 3]] []) ∧
  p_body p = str "AQID".
Proof.
  destruct (raw_parts_undeclared (λ _ b, b) (mkRaw (mkSimple [] [] [] [] [] [] [] [] [] [] [] []) [mkAttachment (str "a") (str "b") [1; 2; 3]] [])
    (mkAttachment (str "a") (str "b") [1; 2; 3])) as (p & Hp & E & _); [left|done|]. by exists p.
Defined.

End Email.
