(* ===== verification/I18n.v ===== *)
(** * Translations and tables ([src/utils/i18n/i18n.go], [src/utils/cli/table.go])

    The stores of translations and [T] with its placeholders, replaced one after the other in
    the order a Go map is walked; the text table of the command line. Reading a locale and
    printing values are parameters. *)

From Stdlib Require Import ZArith Lia Ascii.
From stdpp Require Import base gmap list strings.
From S2P Require Import Prelude SqlText Url Unicode Encoding.
Local Open Scope Z_scope.

Module I18n.
Import Encoding.

(** ** State *)

Record I18nConfig : Type := mkConfig { cfg_Enabled : bool; cfg_Default : text; cfg_Locales : list text; cfg_Translations : gmap text (gmap text text) }.

(** [translators] has the locales with a printer. *)
Record i18n : Type := mkI18n {
  isEnabled : bool; defaultLocale : text; supportedLocales : list text; translators : gset text; messageStore : gmap text (gmap text text);
}.

Section i18n.
Context (parses : text → bool).

Fixpoint populateTranslators (localeList : list text) (translations : gmap text (gmap text text)) (w : i18n) : i18n :=
  match localeList with
  | [] => w
  | locale :: localeList =>
      populateTranslators localeList translations
        (if parses locale then
           mkI18n (isEnabled w) (defaultLocale w) (supportedLocales w) ({[locale]} ∪ translators w)
             (match translations !! locale with Some msgs => <[locale := msgs]> (messageStore w) | None => messageStore w end)
         else w)
  end.

Definition Init (config : I18nConfig) (w : i18n) : i18n :=
  if cfg_Enabled config then
    populateTranslators (cfg_Locales config) (cfg_Translations config) (mkI18n true (cfg_Default config) (cfg_Locales config) (translators w) (messageStore w))
  else mkI18n false (defaultLocale w) (supportedLocales w) (translators w) (messageStore w).

Definition IsI18nEnabled (w : i18n) : bool := isEnabled w.
Definition FixLocaleFormat (locale : text) : text := ReplaceAll locale (str "_") (str "-").

(** ** Translating *)

Context {V : Type} (IsNumber : V → bool) (Sprint : V → text) (Decimal : text → V → text).

(** [strings.ReplaceAll] of an empty text: around every character. *)
Fixpoint around (fuel : nat) (s new : text) : text :=
  match fuel, s with
  | S fuel, _ :: _ => let n := (Unicode.DecodeRune (byte_of_ascii <$> s)).2 in take n s ++ new ++ around fuel (drop n s) new
  | _, _ => []
  end.
Definition replace_all (s old new : text) : text := if decide (old = []) then new ++ around (length s) s new else ReplaceAll s old new.

(** The text of a value: a number is printed by the locale's printer, if it has one. *)
Definition formatted (w : i18n) (locale : text) (v : V) : text :=
  if IsNumber v && bool_decide (locale ∈ translators w) then Decimal locale v else Sprint v.

Definition fill_placeholders (w : i18n) (locale : text) (placeholders : list (text * V)) (message : text) : text :=
  foldl (λ m kv, replace_all m kv.1 (formatted w locale kv.2)) message placeholders.

(** [ctx_locale] is the locale of the context. *)
Definition T (w : i18n) (ctx_locale : text) (key : text) (placeholders : list (text * V)) : text :=
  let locale := if decide (ctx_locale = []) then defaultLocale w else ctx_locale in
  match messageStore w !! locale with
  | None => key
  | Some messagesMap =>
      match messagesMap !! key with
      | None => key
      | Some messageString => fill_placeholders w locale placeholders messageString
      end
  end.
End i18n.

(** ** Templates *)

(** A message of literal text and of names between percent signs. *)
Inductive token : Type := Lit (s : text) | Hole (n : text).
Definition percent : ascii := char 37.
Definition mark (n : text) : text := percent :: n ++ [percent].
Definition render1 (t : token) : text := match t with Lit s => s | Hole n => mark n end.
Definition render (ts : list token) : text := ts ≫= render1.

Definition isUpper (c : ascii) : bool := between 65 90 c.

(** A name is in capitals; a literal has no percent sign, and is empty or not all capitals. *)
Definition name_ok (n : text) : Prop := n ≠ [] ∧ Forall (λ c, isUpper c = true) n.
Definition lit_ok (s : text) : Prop := (percent ∉ s) ∧ (s = [] ∨ Exists (λ c, isUpper c = false) s).
Definition token_ok (t : token) : Prop := match t with Lit s => lit_ok s | Hole n => name_ok n end.

Definition subst1 (n v : text) (t : token) : token := match t with Hole m => if decide (m = n) then Lit v else Hole m | t => t end.

Lemma name_percent n : name_ok n → percent ∉ n.
Proof. intros [_ Hn] Hp. rewrite Forall_forall in Hn. apply Hn in Hp. done. Qed.

Lemma ReplaceAll_skip c s old new : old ≠ [] → strip_prefix old (c :: s) = None → ReplaceAll (c :: s) old new = c :: ReplaceAll s old new.
Proof. intros Ho E. unfold ReplaceAll at 1. cbn [length replace_loop]. by rewrite E. Qed.

(** Text without percent signs is passed over. *)
Lemma ReplaceAll_plain s rest n v : percent ∉ s → ReplaceAll (s ++ rest) (mark n) v = s ++ ReplaceAll rest (mark n) v.
Proof.
  intros Hs. induction s as [|c s IH]; [done|]. rewrite not_elem_of_cons in Hs. destruct Hs as [Hc Hs]. cbn [app].
  rewrite ReplaceAll_skip; [by rewrite IH|done|]. unfold mark. cbn [strip_prefix]. by rewrite bool_decide_false.
Qed.

(** A name does not stand between the percent sign of one mark and that of the next. *)
Lemma not_between ts n r : Forall token_ok ts → name_ok n → render ts ≠ n ++ percent :: r.
Proof.
  intros Hts Hn. induction Hts as [|t ts Ht _ IH]; [by destruct n|]. unfold render in *. cbn [mbind list_bind]. destruct t as [s|m]; cbn [render1].
  - destruct Ht as [Hp [->|He]]; [done|]. intros E.
    assert (Hup : ¬ Forall (λ c, isUpper c = true) s).
    { intros Hs. rewrite Forall_forall in Hs. apply Exists_exists in He as (c & Hc & He'). apply Hs in Hc. congruence. }
    destruct Hn as [_ Hn]. apply app_eq_inv in E as [(k & Es & Ek)|(k & -> & _)].
    + destruct k as [|c k]; [rewrite app_nil_r in Es; by subst s|]. injection Ek as <- _. destruct Hp. subst s. apply elem_of_app. right. left.
    + by apply Forall_app in Hn as [Hn _].
  - destruct Hn as [Hne Hn]. destruct n as [|c n]; [done|]. intros [= Hc _]. apply Forall_cons in Hn as [Hu _]. subst c. done.
Qed.

(** Two marks that begin alike are one. *)
Lemma mark_prefix n m rest : percent ∉ n → percent ∉ m → is_Some (strip_prefix (mark n) (mark m ++ rest)) → n = m.
Proof.
  intros Hn Hm [s E]. apply strip_prefix_Some in E. unfold mark in E. injection E as E. rewrite <- !app_assoc in E. cbn [app] in E.
  symmetry. by apply (Url.split_at percent m rest n s).
Qed.

(** Replacing the mark of a name replaces its holes and nothing else. *)
Lemma ReplaceAll_render ts n v : Forall token_ok ts → name_ok n → ReplaceAll (render ts) (mark n) v = render (subst1 n v <$> ts).
Proof.
  intros Hts Hn. induction Hts as [|t ts Ht Hts IH]; [done|]. unfold render in *. cbn [mbind list_bind fmap list_fmap]. destruct t as [s|m]; cbn [render1 subst1].
  - destruct Ht as [Hp _]. rewrite ReplaceAll_plain by done. f_equal. exact IH.
  - case_decide as E; [subst m|]; cbn [render1].
    + rewrite ReplaceAll_here by done. f_equal. exact IH.
    + pose proof (name_percent m Ht) as Hm. pose proof (name_percent n Hn) as Hpn.
      assert (Hnone : strip_prefix (mark n) (mark m ++ ts ≫= render1) = None).
      { apply eq_None_not_Some. intros Hs. apply E. symmetry. by eapply mark_prefix. }
      unfold mark at 1 3. rewrite <- !app_comm_cons, <- !app_assoc. rewrite ReplaceAll_skip; [|done|unfold mark at 2 in Hnone; by rewrite <- app_comm_cons, <- app_assoc in Hnone].
      f_equal. rewrite ReplaceAll_plain by done. f_equal. cbn [app]. rewrite ReplaceAll_skip; [f_equal; exact IH|done|].
      apply eq_None_not_Some. intros [r Er]. apply strip_prefix_Some in Er. unfold mark in Er. injection Er as Er. rewrite <- app_assoc in Er.
      by apply (not_between ts n r Hts Hn).
Qed.

(** The text a template stands for: holes that have a value are filled. *)
Definition filled (values : list (text * text)) (t : token) : text :=
  match t with
  | Lit s => s
  | Hole n => default (mark n) (snd <$> List.find (λ nv, bool_decide (nv.1 = n)) values)
  end.

Lemma subst_ok n v ts : lit_ok v → Forall token_ok ts → Forall token_ok (subst1 n v <$> ts).
Proof. intros Hv. induction 1 as [|t ts Ht _ IH]; [done|]. cbn. constructor; [|done]. destruct t; cbn; [done|]. by case_decide. Qed.

Lemma filled_cons n v values ts : (ts ≫= filled ((n, v) :: values)) = (subst1 n v <$> ts) ≫= filled values.
Proof.
  induction ts as [|t ts IH]; [done|]. cbn [mbind list_bind fmap list_fmap]. f_equal; [|exact IH]. destruct t as [s|m]; [done|]. cbn.
  case_bool_decide; case_decide; try congruence; done.
Qed.

Section fill.
Context {V : Type} (IsNumber : V → bool) (Sprint : V → text) (Decimal : text → V → text).
Local Abbreviation fill := (fill_placeholders IsNumber Sprint Decimal).
Local Abbreviation shown := (formatted IsNumber Sprint Decimal).

(** The placeholders of [T] as names and texts. *)
Definition values_of (w : i18n) (locale : text) (ps : list (text * V)) : list (text * text) := (λ nv, (nv.1, shown w locale nv.2)) <$> ps.

(** A message whose placeholders are names in capitals between percent signs, with text and
    values that have no percent sign and are not all capitals, is filled as it reads, in
    whatever order the placeholders come. *)
Theorem placeholders_fill w locale ts ps : Forall token_ok ts → Forall (λ nv, name_ok nv.1 ∧ lit_ok (shown w locale nv.2)) ps →
  fill w locale ((λ nv, (mark nv.1, nv.2)) <$> ps) (render ts) = ts ≫= filled (values_of w locale ps).
Proof.
  intros Hts Hps. revert ts Hts. induction Hps as [|[n v] ps [Hn Hv] _ IH]; intros ts Hts.
  - cbn. unfold render. induction ts as [|[] ts IHt]; [done|..]; apply Forall_cons in Hts as [_ Hts]; cbn [mbind list_bind]; f_equal; auto.
  - unfold fill_placeholders, values_of in *. cbn [fmap list_fmap foldl fst snd] in *. unfold replace_all at 2. rewrite decide_False by done.
    rewrite ReplaceAll_render by done. rewrite IH by (by apply subst_ok). by rewrite filled_cons.
Qed.

(** Otherwise the order counts: a value that has another mark in it is filled again, or not. *)
Theorem placeholders_order (name value : V) : (IsNumber name = false ∧ IsNumber value = false) → Sprint name = str "%B%" → Sprint value = str "b" →
  ∀ w locale, fill w locale [(str "%A%", name); (str "%B%", value)] (str "x %A%") = str "x b" ∧
              fill w locale [(str "%B%", value); (str "%A%", name)] (str "x %A%") = str "x %B%".
Proof. intros [H1 H2] E1 E2 w locale. unfold fill_placeholders, formatted. cbn [foldl fst snd]. rewrite H1, H2, E1, E2. cbn [andb]. by vm_compute. Qed.

(** What is not there is shown as its key. *)
Theorem T_spec w ctx_locale key ps :
  let locale := if decide (ctx_locale = []) then defaultLocale w else ctx_locale in
  T IsNumber Sprint Decimal w ctx_locale key ps = default key (fill w locale ps <$> (messageStore w !! locale ≫= λ ms : gmap text text, ms !! key)).
Proof. unfold T. cbv zeta. destruct (messageStore w !! _) as [ms|]; [|done]. cbn. by destruct (ms !! key). Qed.
End fill.

(** ** Tables *)

Record Table : Type := mkTable { headers : list text; rows : list (list text); padding : Z; border : bool }.
Definition NewTable (headers : list text) : Table := mkTable headers [] 2 true.
Definition AddRow (columns : list text) (t : Table) : Table := mkTable (headers t) (rows t ++ [columns]) (padding t) (border t).
Definition SetPadding (p : Z) (t : Table) : Table := if 0 <=? p then mkTable (headers t) (rows t) p (border t) else t.
Definition SetBorder (enabled : bool) (t : Table) : Table := mkTable (headers t) (rows t) (padding t) enabled.

(** The cells of a row into the widths; [None]: an index out of range. *)
Fixpoint widen (row : list text) (widths : list nat) : option (list nat) :=
  match row, widths with
  | [], _ => Some widths
  | _ :: _, [] => None
  | col :: row, w :: widths => cons (w `max` length col)%nat <$> widen row widths
  end.
Fixpoint widen_rows (rows : list (list text)) (widths : list nat) : option (list nat) :=
  match rows with
  | [] => Some widths
  | row :: rows => widths ← widen row widths; widen_rows rows widths
  end.
Definition calculateColWidths (t : Table) : option (list nat) := widen_rows (rows t) (length <$> headers t).

Definition spaces (n : nat) : text := replicate n (char 32).

(** [%-*s] counts characters. *)
Definition rune_count (s : text) : nat := length (Unicode.runes (byte_of_ascii <$> s)).
Definition cell (t : Table) (w : nat) (col : text) : text :=
  let pad := Z.to_nat (Z.quot (padding t) 2) in
  spaces pad ++ col ++ spaces (w - rune_count col) ++ spaces (Z.to_nat (padding t) - pad) ++ (if border t then str "|" else []).
Definition printLine (t : Table) (widths : list nat) (row : list text) : text :=
  (if border t then str "|" else []) ++ List.concat (zip_with (cell t) widths row).
Definition printSeparator (t : Table) (widths : list nat) : list text :=
  if border t then [str "+" ++ (widths ≫= λ w, replicate (w + Z.to_nat (padding t)) (char 45) ++ str "+")] else [].

(** The lines, or the panic of a row that is too long. *)
Definition Render (t : Table) : outcome (list text) :=
  match calculateColWidths t with
  | None => Panic "index out of range"
  | Some widths => Ret (printSeparator t widths ++ [printLine t widths (headers t)] ++ printSeparator t widths ++ (printLine t widths <$> rows t) ++ printSeparator t widths)
  end.

(** ** Properties of tables *)

Lemma widen_spec row ws :
  match widen row ws with
  | Some ws' => (length row ≤ length ws)%nat ∧ length ws' = length ws ∧ Forall2 le ws ws' ∧ (∀ i col w, row !! i = Some col → ws' !! i = Some w → (length col ≤ w)%nat)
  | None => (length ws < length row)%nat
  end.
Proof.
  revert ws. induction row as [|col row IH]; intros [|w ws]; cbn [widen]; try (cbn; lia).
  - cbn. by split_and!; [lia| |constructor|].
  - split_and!; [cbn; lia|done| |done]. apply reflexivity.
  - specialize (IH ws). destruct (widen row ws) as [ws'|]; cbn; [|lia]. destruct IH as (H1 & H2 & H3 & H4). split_and!; [lia|lia|constructor; [lia|done]|].
    intros [|i] c x; cbn; [intros [= <-] [= <-]; lia|]. apply H4.
Qed.

Lemma Forall2_le_lookup ws ws' i w' : Forall2 le ws ws' → ws' !! i = Some w' → ∃ w, ws !! i = Some w ∧ (w ≤ w')%nat.
Proof. intros HF Hi. destruct (Forall2_lookup_r _ _ _ _ _ HF Hi) as (w & ? & ?). eauto. Qed.

Lemma widen_rows_spec rs ws :
  match widen_rows rs ws with
  | Some ws' => Forall (λ row : list text, (length row ≤ length ws)%nat) rs ∧ length ws' = length ws ∧ Forall2 le ws ws' ∧
      Forall (λ row : list text, ∀ i col w, row !! i = Some col → ws' !! i = Some w → (length col ≤ w)%nat) rs
  | None => Exists (λ row : list text, (length ws < length row)%nat) rs
  end.
Proof.
  revert ws. induction rs as [|row rs IH]; intros ws; cbn [widen_rows].
  - split_and!; [constructor|done|apply reflexivity|constructor].
  - pose proof (widen_spec row ws) as Hw. destruct (widen row ws) as [ws1|]; cbn [mbind option_bind]; [|by left].
    destruct Hw as (H1 & H2 & H3 & H4). specialize (IH ws1). destruct (widen_rows rs ws1) as [ws'|]; [|right; by rewrite <- H2].
    destruct IH as (I1 & I2 & I3 & I4). rewrite H2 in *. split_and!; [by constructor|done|by etrans|].
    constructor; [|done]. intros i col w Hc Hw. destruct (Forall2_le_lookup ws1 ws' i w I3 Hw) as (w1 & Hw1 & ?). specialize (H4 i col w1 Hc Hw1). lia.
Qed.

(** Rendering panics exactly when a row has more cells than there are headers. *)
Theorem Render_panics t : (∃ s, Render t = Panic s) ↔ ∃ row, row ∈ rows t ∧ (length (headers t) < length row)%nat.
Proof.
  unfold Render, calculateColWidths. pose proof (widen_rows_spec (rows t) (length <$> headers t)) as H. rewrite length_fmap in H.
  destruct (widen_rows _ _) as [ws|].
  - destruct H as (H & _). rewrite Forall_forall in H. split; [by intros [s ?]|]. intros (row & Hr & Hl). apply H in Hr. lia.
  - apply Exists_exists in H. split; [intros _; done|by eexists].
Qed.

(** Text of one byte per character. *)
Definition ascii_text (s : text) : Prop := Forall (λ c, byte_of_ascii c < 128) s.

Lemma byte_nonneg c : 0 <= byte_of_ascii c.
Proof. unfold byte_of_ascii. lia. Qed.

Lemma ascii_runes s : ascii_text s → rune_count s = length s.
Proof.
  intros Hs. unfold rune_count. transitivity (length (byte_of_ascii <$> s)); [|by rewrite length_fmap]. f_equal. unfold Unicode.runes. rewrite length_fmap.
  induction Hs as [|c s Hc _ IH]; [done|]. cbn [length fmap list_fmap Unicode.runes_loop].
  assert (Unicode.DecodeRune (byte_of_ascii c :: (byte_of_ascii <$> s)) = (byte_of_ascii c, 1%nat)) as E.
  { pose proof (byte_nonneg c). unfold Unicode.DecodeRune. replace (byte_of_ascii c <? 128) with true by lia. done. }
  rewrite E. cbn. f_equal. exact IH.
Qed.

Definition line_width (t : Table) (widths : list nat) : nat := S (sum_list ((λ w, w + Z.to_nat (padding t) + 1)%nat <$> widths)).

Lemma half_padding p : 0 <= p → (Z.to_nat (Z.quot p 2) ≤ Z.to_nat p)%nat.
Proof. intros Hp. rewrite Z.quot_div_nonneg by lia. apply Z2Nat.inj_le; [apply Z.div_pos; lia|lia|apply Z.div_le_upper_bound; lia]. Qed.

Lemma printLine_width t ws row : border t = true → 0 <= padding t → Forall ascii_text row → length row = length ws →
  (∀ i col w, row !! i = Some col → ws !! i = Some w → (length col ≤ w)%nat) → length (printLine t ws row) = line_width t ws.
Proof.
  intros Hb Hp Hr Hl Hw. unfold printLine, line_width. rewrite Hb. change (str "|") with [char 124]. cbn [app length]. f_equal.
  revert ws Hl Hw. induction Hr as [|col row Hc _ IH]; intros [|w ws] Hl Hw; try done. injection Hl as Hl.
  cbn [zip_with List.concat fmap list_fmap sum_list]. rewrite length_app, (IH ws Hl) by (intros i; apply (Hw (S i))).
  f_equal. unfold cell. rewrite Hb. rewrite !length_app. unfold spaces. rewrite !length_replicate, ascii_runes by done.
  pose proof (Hw 0%nat col w eq_refl eq_refl). pose proof (half_padding (padding t) Hp). unfold id. change (length (str "|")) with 1%nat. lia.
Qed.

Lemma printSeparator_width t ws : border t = true → Forall (λ l, length l = line_width t ws) (printSeparator t ws).
Proof.
  intros Hb. unfold printSeparator, line_width. rewrite Hb. constructor; [|done]. change (str "+") with [char 43]. cbn [app length]. f_equal.
  induction ws as [|w ws IH]; [done|]. unfold mbind in *. cbn [list_bind fmap list_fmap sum_list].
  rewrite !length_app, length_replicate. cbn [length]. rewrite IH. cbn. lia.
Qed.

(** A table with a border whose rows have a cell for every header has lines of one width. *)
Theorem table_aligned t : border t = true → 0 <= padding t → Forall ascii_text (headers t) → Forall (Forall ascii_text) (rows t) →
  Forall (λ row, length row = length (headers t)) (rows t) → ∃ ls n, Render t = Ret ls ∧ Forall (λ l, length l = n) ls.
Proof.
  intros Hb Hp Hh Hr Hl. unfold Render, calculateColWidths. pose proof (widen_rows_spec (rows t) (length <$> headers t)) as H. rewrite length_fmap in H.
  destruct (widen_rows _ _) as [ws|].
  2: { apply Exists_exists in H as (row & Hrow & Hlt). rewrite Forall_forall in Hl. specialize (Hl row Hrow). lia. }
  destruct H as (_ & H2 & H3 & H4). eexists _, (line_width t ws). split; [done|].
  pose proof (printSeparator_width t ws Hb) as Hsep.
  assert (Hhead : length (printLine t ws (headers t)) = line_width t ws).
  { apply printLine_width; [done..|]. intros i col w Hc Hw. destruct (Forall2_le_lookup _ ws i w H3 Hw) as (w0 & Hw0 & ?).
    rewrite list_lookup_fmap, Hc in Hw0. injection Hw0 as <-. done. }
  rewrite !Forall_app. split_and!; try done; [by constructor|]. apply Forall_fmap. rewrite Forall_forall in *. intros row Hrow. cbn.
  apply printLine_width; [done|done|by apply Hr|by rewrite H2, Hl|by apply H4].
Qed.

(** ** Witnesses *)

Definition demo_i18n : i18n := mkI18n true [] [] ∅ ∅.
Lemma placeholders_fill_witness : fill_placeholders (λ _, false) id (λ _ v, v) demo_i18n [] [(str "%NAME%", str "Ada")] (str "Hi %NAME%!") = str "Hi Ada!".
Proof.
  pose proof (placeholders_fill (λ _, false) id (λ _ v, v) demo_i18n [] [Lit (str "Hi "); Hole (str "NAME"); Lit (str "!")] [(str "NAME", str "Ada")]) as H.
  apply H.
  - repeat constructor; try done; try (apply (bool_decide_eq_false_1 _); by vm_compute); right; apply (bool_decide_unpack _); by vm_compute.
  - repeat constructor; try done; try (apply (bool_decide_eq_false_1 _); by vm_compute); right; apply (bool_decide_unpack _); by vm_compute.
Defined.

Lemma placeholders_order_witness : fill_placeholders (λ _, false) id (λ _ v, v) demo_i18n [] [(str "%B%", str "b"); (str "%A%", str "%B%")] (str "x %A%") = str "x %B%".
Proof. apply (placeholders_order (λ _, false) id (λ _ v, v) (str "%B%") (str "b")); done. Defined.

Lemma table_aligned_witness : ∃ ls n, Render (AddRow [str "1"; str "Ada"] (NewTable [str "id"; str "name"])) = Ret ls ∧ Forall (λ l, length l = n) ls.
Proof. apply table_aligned; [done|done|..]; repeat constructor. Defined.

End I18n.
