(* ===== verification/Grpc.v ===== *)
(** * The gRPC server and client ([src/server/grpc])

    The interceptors of the server and their chain, with panics; the retries of the client;
    the options with their defaults and the checks before a server listens or a client
    connects. The gRPC library is a parameter: what it answers, and how a call ends. *)

From Stdlib Require Import ZArith Lia Ascii Floats.SpecFloat.
From stdpp Require Import base gmap list strings.
From S2P Require Import Prelude GoValue SqlText.
Local Open Scope Z_scope.

Module Grpc.

(** ** Server interceptors *)

(** The metadata of a request and the request identifier in the context. *)
Record ctx : Type := mkCtx { metadata : option (gmap text (list text)); rid : option text }.

Definition requestIDKey : text := str "x-request-id".

Definition GetRequestID (md : gmap text (list text)) : text :=
  match md !! requestIDKey with
  | Some ((c :: id) :: _) => TrimSpace (c :: id)
  | _ => []
  end.

(** [uuid] is the new identifier. *)
Definition contextWithRequestID (uuid : text) (c : ctx) : ctx :=
  let md := default ∅ (metadata c) in
  let id := GetRequestID md in
  if decide (id = []) then mkCtx (Some (<[requestIDKey := [uuid]]> md)) (Some uuid) else mkCtx (metadata c) (Some id).

Inductive code : Type := Unavailable | ResourceExhausted | DeadlineExceeded | Internal | OtherCode (n : Z).

(** An error: of gRPC with its code, or another. *)
Inductive call_error : Type := StatusErr (c : code) (msg : string) | PlainErr (msg : string).

Inductive log_entry : Type := Completed | Failed (e : call_error) | Recovered (panic : string).

(** A handler reads the context and logs; it answers or panics. *)
Section server.
Context {R : Type}.
Abbreviation handler := (ctx → list log_entry → list log_entry * outcome (result call_error R)).
Abbreviation interceptor := (handler → handler).

Definition RequestIDInterceptor (uuid : text) : interceptor := λ h c log, h (contextWithRequestID uuid c) log.

(** A panic passes without an entry. *)
Definition LoggingInterceptor : interceptor := λ h c log,
  match h c log with
  | (log, Ret (Ok r)) => (log ++ [Completed], Ret (Ok r))
  | (log, Ret (Err e)) => (log ++ [Failed e], Ret (Err e))
  | (log, Panic s) => (log, Panic s)
  end.

Definition RecoverInterceptor : interceptor := λ h c log,
  match h c log with
  | (log, Panic s) => (log ++ [Recovered s], Ret (Err (StatusErr Internal "internal server error")))
  | r => r
  end.

(** [grpc.ChainUnaryInterceptor]: the first is the outermost. *)
Definition Chain (ics : list interceptor) (h : handler) : handler := foldr (λ i h, i h) h ics.

(** The interceptors of a server: the caller's come before its own. Those of streams are the
    same, on a handler without an answer. *)
Definition server_interceptors (user : list interceptor) (uuid : text) : list interceptor :=
  user ++ [RequestIDInterceptor uuid; LoggingInterceptor; RecoverInterceptor].

(** ** Properties of the chain *)

Lemma Chain_app ics js h : Chain (ics ++ js) h = Chain ics (Chain js h).
Proof. unfold Chain. by rewrite foldr_app. Qed.

Definition answers (h : handler) : Prop := ∀ c log, ∃ log' r, h c log = (log', Ret r).

(** The part of the server's own: the handler runs with an identifier, answers whatever it
    does, and is logged once, after the entry of its panic if it panics. *)
Lemma builtin_chain uuid h c log :
  Chain [RequestIDInterceptor uuid; LoggingInterceptor; RecoverInterceptor] h c log =
  match h (contextWithRequestID uuid c) log with
  | (log, Ret (Ok r)) => (log ++ [Completed], Ret (Ok r))
  | (log, Ret (Err e)) => (log ++ [Failed e], Ret (Err e))
  | (log, Panic s) => (log ++ [Recovered s; Failed (StatusErr Internal "internal server error")], Ret (Err (StatusErr Internal "internal server error")))
  end.
Proof.
  unfold Chain. cbn [foldr]. unfold RequestIDInterceptor, LoggingInterceptor, RecoverInterceptor.
  destruct (h _ log) as [log' [[r|e]|s]]; [done..|]. by rewrite <- app_assoc.
Qed.

(** Whatever the handler does, a server whose own interceptors answer whenever what they wrap
    answers never panics. *)
Theorem chain_never_panics user uuid h : Forall (λ i : interceptor, ∀ h, answers h → answers (i h)) user → answers (Chain (server_interceptors user uuid) h).
Proof.
  intros Hu. unfold server_interceptors. rewrite Chain_app.
  assert (answers (Chain [RequestIDInterceptor uuid; LoggingInterceptor; RecoverInterceptor] h)) as Hb.
  { intros c log. rewrite builtin_chain. destruct (h _ log) as [log' [[r|e]|s]]; eauto. }
  revert Hb. generalize (Chain [RequestIDInterceptor uuid; LoggingInterceptor; RecoverInterceptor] h). intros g Hg.
  induction Hu as [|i user Hi _ IH]; [done|]. by apply Hi.
Qed.

(** With no interceptors of the caller, a handler that panics is answered with an internal
    error that says nothing of the panic, and both are logged, the panic first. *)
Theorem handler_panic_is_internal uuid h c log log' s : h (contextWithRequestID uuid c) log = (log', Panic s) →
  Chain (server_interceptors [] uuid) h c log =
    (log' ++ [Recovered s; Failed (StatusErr Internal "internal server error")], Ret (Err (StatusErr Internal "internal server error"))).
Proof. intros E. unfold server_interceptors. cbn [app]. by rewrite builtin_chain, E. Qed.

(** A panic in an interceptor of the caller is outside of the recovery: nothing catches it. *)
Theorem interceptor_panic_escapes uuid h c log s : Chain (server_interceptors [λ _ _ log, (log, Panic s)] uuid) h c log = (log, Panic s).
Proof. done. Qed.

(** The handler always has an identifier, the one of the request when that has one. *)
Theorem request_id_spec uuid c : uuid ≠ [] →
  ∃ id, rid (contextWithRequestID uuid c) = Some id ∧ id ≠ [] ∧
    (GetRequestID (default ∅ (metadata c)) ≠ [] → id = GetRequestID (default ∅ (metadata c)) ∧ metadata (contextWithRequestID uuid c) = metadata c) ∧
    (GetRequestID (default ∅ (metadata c)) = [] → id = uuid ∧ (metadata (contextWithRequestID uuid c) ≫= (!!) requestIDKey) = Some [uuid]).
Proof.
  intros Hu. unfold contextWithRequestID. destruct (decide (GetRequestID (default ∅ (metadata c)) = [])) as [E|E].
  - exists uuid. cbn [rid metadata]. split_and!; [done|done|done|]. intros _. split; [done|]. cbn. apply lookup_insert_eq.
  - exists (GetRequestID (default ∅ (metadata c))). by split_and!.
Qed.
End server.

(** ** Retries *)

Definition retryable (c : code) : bool := match c with Unavailable | ResourceExhausted | DeadlineExceeded => true | _ => false end.
Definition should_retry (e : call_error) : bool := match e with StatusErr c _ => retryable c | PlainErr _ => false end.

Section retry.
(** What the [i]th call answers, and the error of a context that ends in the wait after it. *)
Context (invoke : nat → option call_error) (ended : nat → option string) (maxRetries : Z).

Definition base_backoff : Z := 100000000.

(** The iterations that are left, the number of the next, the wait and the last error: the
    waits, the calls made, and the error. *)
Fixpoint retry_loop (more : nat) (i : nat) (backoff : Z) (err : option call_error) : list Z * nat * option call_error :=
  match more with
  | O => ([], i, err)
  | S more =>
      match invoke i with
      | None => ([], S i, None)
      | Some e =>
          if should_retry e then
            if Z.of_nat i <? maxRetries then
              match ended i with
              | Some s => ([backoff], S i, Some (PlainErr s))
              | None => let '(waits, n, err) := retry_loop more (S i) (i64 (backoff * 2)) (Some e) in (backoff :: waits, n, err)
              end
            else retry_loop more (S i) backoff (Some e)
          else ([], S i, Some e)
      end
  end.

Definition RetryInterceptor : list Z * nat * option call_error := retry_loop (Z.to_nat (maxRetries + 1)) 0 base_backoff None.

Lemma retry_loop_spec more i backoff err : (0 < more)%nat → Z.of_nat i + Z.of_nat more = maxRetries + 1 →
  let '(waits, n, err') := retry_loop more i backoff err in
  (i < n ≤ i + more)%nat ∧ (length waits ≤ more - 1)%nat ∧
  (∀ j, (i ≤ j)%nat → (S j < n)%nat → ∃ e, invoke j = Some e ∧ should_retry e = true) ∧
  (err' = None ↔ invoke (n - 1) = None) ∧
  (∀ k w, waits !! k = Some w → w = Nat.iter k (λ b, i64 (b * 2)) backoff).
Proof.
  revert i backoff err. induction more as [|more IH]; intros i backoff err Hl Hi; [lia|]. cbn [retry_loop].
  destruct (invoke i) as [e|] eqn:Ei.
  2: { split_and!; [lia|lia|cbn; lia|intros j; lia| |by intros k w ?]. replace (S i - 1)%nat with i by lia. by rewrite Ei. }
  destruct (should_retry e) eqn:Er.
  2: { split_and!; [lia|lia|cbn; lia|intros j; lia| |by intros k w ?]. replace (S i - 1)%nat with i by lia. by rewrite Ei. }
  destruct (Z.ltb_spec (Z.of_nat i) maxRetries) as [Hlt|Hge].
  - destruct (ended i) as [s|].
    { split_and!; [lia|lia|cbn; lia|intros j; lia| |].
      - replace (S i - 1)%nat with i by lia. by rewrite Ei.
      - intros [|k] w; [by intros [= <-]|done]. }
    specialize (IH (S i) (i64 (backoff * 2)) (Some e) ltac:(lia) ltac:(lia)).
    destruct (retry_loop more (S i) (i64 (backoff * 2)) (Some e)) as [[waits n] err']. destruct IH as (H1 & H2 & H3 & H4 & H5).
    split_and!; [lia|lia|cbn; lia| |done|].
    + intros j Hj Hn. destruct (decide (j = i)) as [->|Hne]; [by exists e|]. apply H3; lia.
    + intros [|k] w; [by intros [= <-]|]. cbn [lookup list_lookup]. intros Hw. rewrite (H5 k w Hw). symmetry. exact (Nat.iter_succ_r k (λ b, i64 (b * 2)) backoff).
  - assert (more = 0%nat) as -> by lia. cbn [retry_loop]. split_and!; [lia|lia|cbn; lia|intros j; lia| |by intros k w ?].
    replace (S i - 1)%nat with i by lia. by rewrite Ei.
Qed.

(** A call is made at least once and at most one more time than the retries; only transient
    errors are followed by another call; the result is that of the last call, or of the
    context; and each wait is twice the one before. *)
Theorem RetryInterceptor_spec : 0 <= maxRetries →
  let '(waits, n, err) := RetryInterceptor in
  (1 <= Z.of_nat n <= maxRetries + 1) ∧ (Z.of_nat (length waits) <= maxRetries) ∧
  (∀ j, (S j < n)%nat → ∃ e, invoke j = Some e ∧ should_retry e = true) ∧
  (err = None ↔ invoke (n - 1) = None) ∧
  (∀ k w, waits !! k = Some w → w = Nat.iter k (λ b, i64 (b * 2)) base_backoff).
Proof.
  intros Hm. pose proof (retry_loop_spec (Z.to_nat (maxRetries + 1)) 0 base_backoff None ltac:(lia) ltac:(lia)) as H.
  unfold RetryInterceptor. destruct (retry_loop _ 0 base_backoff None) as [[waits n] err]. destruct H as (H1 & H2 & H3 & H4 & H5).
  split_and!; [lia|lia|lia| |done|done]. intros j Hj. apply H3; lia.
Qed.

(** With a negative number of retries nothing is called, and no error says so. *)
Theorem negative_retries_skip_the_call : maxRetries < 0 → RetryInterceptor = ([], 0%nat, None).
Proof. intros Hm. unfold RetryInterceptor. by replace (Z.to_nat (maxRetries + 1)) with 0%nat by lia. Qed.
End retry.

(** The wait doubles exactly up to the thirty-sixth retry; the thirty-seventh is negative,
    which is no wait at all. *)
Theorem backoff_overflows : (∀ k, (k ≤ 36)%nat → Nat.iter k (λ b, i64 (b * 2)) base_backoff = base_backoff * 2 ^ Z.of_nat k) ∧
  Nat.iter 37 (λ b, i64 (b * 2)) base_backoff < 0.
Proof.
  split; [|by vm_compute]. intros k Hk. do 37 (destruct k as [|k]; [by vm_compute|]). lia.
Qed.

(** ** Options *)

Definition or_Z (n d : Z) : Z := if n =? 0 then d else n.
Definition Second : Z := 1000000000.

(** [TLSConfig] says whether there is one, as [HasRegister] and [HasHook] do for the
    callbacks; the interceptors are those of [server_interceptors], and a missing logger is
    replaced by one that prints. *)
Record ServerOptions : Type := mkServerOptions {
  Port : Z; Insecure : bool; TLSConfig : bool; HasRegister : bool; HasHook : bool; EnableReflection : bool; Environment : text; AllowReflectionInProduction : bool;
  ShutdownTimeout : Z; MaxRecvMsgSize : Z; MaxSendMsgSize : Z; KeepaliveTime : Z; KeepaliveTimeout : Z;
}.

Definition DefaultServerOptions (opts : option ServerOptions) : ServerOptions :=
  let o := default (mkServerOptions 0 false false false false false [] false 0 0 0 0 0) opts in
  mkServerOptions (or_Z (Port o) 9090) (Insecure o) (TLSConfig o) (HasRegister o) (HasHook o) (EnableReflection o) (Environment o) (AllowReflectionInProduction o)
    (or_Z (ShutdownTimeout o) (10 * Second)) (or_Z (MaxRecvMsgSize o) (4 * 1024 * 1024)) (or_Z (MaxSendMsgSize o) (4 * 1024 * 1024))
    (or_Z (KeepaliveTime o) (7200 * Second)) (or_Z (KeepaliveTimeout o) (20 * Second)).

Inductive start_error : Type := NeedsTLS | ReflectionInProduction | ListenErr (e : string) | ServeErr (e : string).

(** How the run ends: the context is done, with whether the graceful stop is in time; or
    serving ends, with the error it has other than being stopped. *)
Inductive ending : Type := Cancelled (graceful : bool) | Served (e : option string).

Inductive event : Type :=
  | Listen (port : Z) | Credentials (tls : bool) | Interceptors | Limits (recv send time timeout : Z) | Health | Register_ | Reflection
  | Hook | GracefulStop | ForcedStop.

(** [is_production] is [strings.EqualFold] with the name of the production environment. *)
Section start.
Context (is_production : text → bool).

Definition stopGracefully (graceful : bool) : list event := if graceful then [GracefulStop] else [GracefulStop; ForcedStop].

Definition setup (o : ServerOptions) : list event :=
  [Listen (Port o); Credentials (TLSConfig o); Interceptors; Limits (MaxRecvMsgSize o) (MaxSendMsgSize o) (KeepaliveTime o) (KeepaliveTimeout o); Health] ++
  (if HasRegister o then [Register_] else []) ++ (if EnableReflection o then [Reflection] else []).

Definition StartGRPCServerContext (opts : option ServerOptions) (listen : option string) (e : ending) : list event * option start_error :=
  let o := DefaultServerOptions opts in
  if negb (TLSConfig o) && negb (Insecure o) then ([], Some NeedsTLS)
  else if EnableReflection o && is_production (TrimSpace (Environment o)) && negb (AllowReflectionInProduction o) then ([], Some ReflectionInProduction)
  else match listen with
  | Some err => ([], Some (ListenErr err))
  | None =>
      let evs := setup o in
      match e with
      | Cancelled graceful => (evs ++ (if HasHook o then [Hook] else []) ++ stopGracefully graceful, None)
      | Served None => (evs, None)
      | Served (Some err) => (evs, Some (ServeErr err))
      end
  end.

Lemma setup_events o : (ForcedStop ∉ setup o) ∧ (∀ tls, Credentials tls ∈ setup o → tls = TLSConfig o) ∧ (Reflection ∈ setup o → EnableReflection o = true) ∧ setup o ≠ [].
Proof. unfold setup. destruct (HasRegister o), (EnableReflection o); (split_and!; [set_solver..|done]). Qed.

Lemma stop_events (hook graceful : bool) : let evs := (if hook then [Hook] else []) ++ stopGracefully graceful in
  (ForcedStop ∈ evs ↔ graceful = false) ∧ (∀ tls, Credentials tls ∉ evs) ∧ (Reflection ∉ evs).
Proof. destruct hook, graceful; cbn; (split_and!; set_solver). Qed.

(** A server listens only with TLS or when plain text was asked for, and offers reflection in
    production only when that was allowed; a cancelled one runs its hook once, before it
    stops, and is stopped by force exactly when it does not stop in time. *)
Theorem Start_spec opts listen e evs err : StartGRPCServerContext opts listen e = (evs, err) →
  let o := DefaultServerOptions opts in
  (evs ≠ [] → TLSConfig o = true ∨ Insecure o = true) ∧
  (Credentials false ∈ evs → Insecure o = true) ∧
  (Reflection ∈ evs → is_production (TrimSpace (Environment o)) = true → AllowReflectionInProduction o = true) ∧
  (ForcedStop ∈ evs → e = Cancelled false) ∧
  (evs ≠ [] → e = Cancelled false → ForcedStop ∈ evs).
Proof.
  unfold StartGRPCServerContext. cbv zeta. generalize (DefaultServerOptions opts). intros o.
  assert (Hnone : ∀ x : event, x ∉ []) by (intros x; apply not_elem_of_nil).
  destruct (negb (TLSConfig o) && negb (Insecure o)) eqn:Hc; [intros [= <- <-]; naive_solver|].
  destruct (EnableReflection o && _ && _) eqn:Hr; [intros [= <- <-]; naive_solver|]. destruct listen as [l|]; [intros [= <- <-]; naive_solver|].
  assert (Hcred : TLSConfig o = true ∨ Insecure o = true) by (destruct (TLSConfig o), (Insecure o); auto).
  destruct (setup_events o) as (S1 & S2 & S3 & S4).
  assert (Hrefl : Reflection ∈ setup o → is_production (TrimSpace (Environment o)) = true → AllowReflectionInProduction o = true).
  { intros He%S3 Hp. rewrite He, Hp in Hr. by destruct (AllowReflectionInProduction o). }
  assert (Hins : Credentials false ∈ setup o → Insecure o = true) by (intros Ht%S2; destruct Hcred; congruence).
  destruct e as [graceful|[err'|]]; [|intros [= <- <-]; split_and!; naive_solver..].
  pose proof (stop_events (HasHook o) graceful) as Hs. cbv zeta in Hs. intros E. apply (f_equal fst) in E. cbn [fst] in E. rewrite <- E. clear E.
  revert Hs. generalize ((if HasHook o then [Hook] else []) ++ stopGracefully graceful). intros tl (T1 & T2 & T3).
  rewrite !elem_of_app, T1.
  split_and!; [done|naive_solver|naive_solver| |].
  - intros [?| ->]; [done|done].
  - intros _ [= ->]. by right.
Qed.
End start.

(** ** The client *)

Record BackoffConfig : Type := mkBackoff { BaseDelay : Z; Multiplier : float64; Jitter : float64; MaxDelay : Z }.

(** [m] and [j] are 1.6 and 0.2. *)
Definition or_float (f d : float64) : float64 := match f with S754_zero _ => d | f => f end.
Definition constructBackoffConfig (m j : float64) (opts : option BackoffConfig) : BackoffConfig :=
  match opts with
  | None => mkBackoff 100000000 m j (5 * Second)
  | Some b => mkBackoff (or_Z (BaseDelay b) 100000000) (or_float (Multiplier b) m) (or_float (Jitter b) j) (or_Z (MaxDelay b) (5 * Second))
  end.

Record ClientOptions : Type := mkClientOptions {
  c_Target : text; c_TLSConfig : bool; c_Insecure : bool; MinConnectTimeout : Z; MaxRetries : Z; EnableLoadBalancing : bool; c_Backoff : option BackoffConfig;
  c_DialOptions : list nat; c_Dialer : bool;
}.

(** The options of the connection; those of the caller by number. *)
Inductive dial_option : Type :=
  | ConnectParams (b : BackoffConfig) (minTimeout : Z) | LogAndRetry (maxRetries : Z) | TransportTLS | TransportInsecure | RoundRobin | ContextDialer | UserOption (n : nat).
Inductive client_error : Type := NilOptions | NoTarget | NoCredentials | DialErr (e : string).

(** [dial] is what the library answers for a target and the options. *)
Definition NewGRPCClient {C : Type} (m j : float64) (dial : text → list dial_option → result string C) (opts : option ClientOptions) : result client_error C :=
  match opts with
  | None => Err NilOptions
  | Some o =>
      if decide (c_Target o = []) then Err NoTarget
      else if c_TLSConfig o || c_Insecure o then
        match dial (c_Target o)
                ([ConnectParams (constructBackoffConfig m j (c_Backoff o)) (MinConnectTimeout o); LogAndRetry (MaxRetries o);
                  if c_TLSConfig o then TransportTLS else TransportInsecure] ++
                 (if EnableLoadBalancing o then [RoundRobin] else []) ++ (if c_Dialer o then [ContextDialer] else []) ++ (UserOption <$> c_DialOptions o)) with
        | Ok c => Ok c
        | Err e => Err (DialErr e)
        end
      else Err NoCredentials
  end.

(** The status of the health service, [1] being SERVING; [name] is how the library prints one. *)
Definition HealthCheck (name : Z → string) (check : result string Z) : option string :=
  match check with
  | Err e => Some ("health check failed: " +:+ e)
  | Ok st => if st =? 1 then None else Some ("service not healthy: " +:+ name st)
  end.

(** A client connects only to a named target, with TLS whenever there is a configuration of it,
    and in plain text only when that was asked for. *)
Theorem client_transport {C : Type} m j (dial : text → list dial_option → result string C) opts c : NewGRPCClient m j dial opts = Ok c →
  ∃ o ds, opts = Some o ∧ c_Target o ≠ [] ∧ dial (c_Target o) ds = Ok c ∧
    (TransportTLS ∈ ds ↔ c_TLSConfig o = true) ∧ (TransportInsecure ∈ ds → c_TLSConfig o = false ∧ c_Insecure o = true).
Proof.
  unfold NewGRPCClient. destruct opts as [o|]; [|done]. destruct (decide (c_Target o = [])) as [|Ht]; [done|].
  destruct (c_TLSConfig o || c_Insecure o) eqn:Hc; [|done]. destruct (dial _ _) as [c'|] eqn:Hd; [|done]. intros [= <-].
  eexists o, _. split_and!; [done|done|exact Hd|..].
  - destruct (c_TLSConfig o), (EnableLoadBalancing o), (c_Dialer o); set_solver.
  - destruct (c_TLSConfig o), (c_Insecure o), (EnableLoadBalancing o), (c_Dialer o); try done; set_solver.
Qed.

(** ** Witnesses *)

Lemma client_transport_witness : ∃ o (ds : list dial_option), Some (mkClientOptions (str "h:1") true false 0 3 true None [] false) = Some o ∧ c_Target o ≠ [] ∧ Ok (E := string) tt = Ok tt ∧
  (TransportTLS ∈ ds ↔ c_TLSConfig o = true) ∧ (TransportInsecure ∈ ds → c_TLSConfig o = false ∧ c_Insecure o = true).
Proof. apply (client_transport (f64_of_Z 1) (f64_of_Z 0) (λ _ _, Ok tt) (Some (mkClientOptions (str "h:1") true false 0 3 true None [] false)) tt). reflexivity. Defined.

Lemma chain_never_panics_witness : answers (Chain (server_interceptors [λ h, h] (str "u")) (λ _ log, (log, Panic "boom"%string : outcome (result call_error nat)))).
Proof. apply chain_never_panics. repeat constructor. by intros h. Defined.

Lemma handler_panic_is_internal_witness :
  Chain (server_interceptors [] (str "u")) (λ _ log, (log, Panic "boom"%string : outcome (result call_error nat))) (mkCtx None None) [] =
  ([Recovered "boom"; Failed (StatusErr Internal "internal server error")], Ret (Err (StatusErr Internal "internal server error"))).
Proof. by apply (handler_panic_is_internal _ _ _ _ []). Defined.

Lemma request_id_spec_witness : ∃ id, rid (contextWithRequestID (str "u") (mkCtx None None)) = Some id ∧ id ≠ [].
Proof. destruct (request_id_spec (str "u") (mkCtx None None)) as (id & H1 & H2 & _); [done|]. by exists id. Defined.

(** Two transient errors, then an answer. *)
Lemma RetryInterceptor_spec_witness : (RetryInterceptor (λ i, if (i <? 2)%nat then Some (StatusErr Unavailable "") else None) (λ _, None) 3).2 = None.
Proof.
  pose proof (RetryInterceptor_spec (λ i, if (i <? 2)%nat then Some (StatusErr Unavailable "") else None) (λ _, None) 3 ltac:(lia)) as H.
  destruct (RetryInterceptor _ _ 3) as [[waits n] err] eqn:E. destruct H as (_ & _ & _ & H & _). apply H. vm_compute in E. injection E as <- <- <-. reflexivity.
Defined.

Lemma negative_retries_skip_the_call_witness : RetryInterceptor (λ _, Some (StatusErr Internal "")) (λ _, None) (-1) = ([], 0%nat, None).
Proof. apply negative_retries_skip_the_call. lia. Defined.

Lemma Start_spec_witness : ForcedStop ∈ (StartGRPCServerContext (λ _, false) (Some (mkServerOptions 0 true false true true false [] false 0 0 0 0 0)) None (Cancelled false)).1.
Proof. apply (Start_spec (λ _, false) (Some (mkServerOptions 0 true false true true false [] false 0 0 0 0 0)) None (Cancelled false) _ None); [reflexivity|done|done]. Defined.

End Grpc.
