(* ===== verification/HttpStart.v ===== *)
(** * Starting an HTTP server ([src/server/http/httpserver.go], [src/workers/options.go])

    The check of the runtime version, the listener [net/http] is given, the methods of the
    server handle, and [StartHttpServer], which composes the construction of [HttpServer.v]
    with the overseer of [Workers.v]: the workers are started through a [sync.Once] of the
    process. A handle is an option, [None] standing for a nil one and for one that was not
    made by the constructor, which the methods refuse alike. *)

From Stdlib Require Import ZArith Lia String.
From stdpp Require Import base numbers strings gmap list relations pretty.
From S2P Require Import Prelude CacheApi Redis RedisClient Minifier Session Http Workers HttpServer.
Local Open Scope Z_scope.

Module HttpStart.

(** ** The runtime *)

Definition minimumGoVersion : string := "go1.27.1".

(** [valid] and [compare] are those of [go/version]; other versions compare as strings. *)
Section runtime.
Context (valid : string → bool) (compare : string → string → Z).

Definition goVersionLess (current minimum : string) : bool :=
  if valid current && valid minimum then compare current minimum <? 0 else String.ltb current minimum.

Definition validateEnvironmentError (current : string) : option string :=
  if goVersionLess current minimumGoVersion then Some ("go runtime version is too old; please update to at least " +:+ minimumGoVersion) else None.

Definition validateEnvironment (current : string) : outcome unit :=
  match validateEnvironmentError current with
  | Some _ => Panic ("Go runtime version is too old. Please update to at least " +:+ minimumGoVersion)
  | None => Ret tt
  end.

(** Whatever the version of its sources, a runtime that calls itself a development build is
    too old, since the name is compared as a string. *)
Theorem devel_runtime_too_old rest : valid ("devel" +:+ rest) = false → ∃ e, validateEnvironmentError ("devel" +:+ rest) = Some e.
Proof. intros Hv. unfold validateEnvironmentError, goVersionLess. rewrite Hv. by eexists. Qed.
End runtime.

(** ** The listener *)

(** The fields of [http.Server] that have a number or a name. *)
Record http_Server : Type := mkHttpServer {
  Addr_ : string; h_ReadTimeout : Z; h_ReadHeaderTimeout : Z; h_WriteTimeout : Z; h_IdleTimeout : Z; h_MaxHeaderBytes : Z;
}.

Inductive listen_call : Type := ListenPlain (l : http_Server) | ListenTLS (l : http_Server) (cert key : string).

Definition not_initialized : string := "HTTP server is not initialized".

(** ** Background workers *)

(** The fields of the configuration [runBackgroundWorkers] reads and writes. *)
Record background : Type := mkBackground { BGWorkers : list (option WorkerConfig); WorkerSleepTimeout : Z }.

(** The package variables of the overseer, and whether [startOnce] has run. *)
Record process : Type := mkProcess { p_overseer : Overseer; p_started : bool }.

Definition cloneWorkerConfigs (workers : list (option WorkerConfig)) : list (option WorkerConfig) :=
  map (λ cfg, match cfg with None => None | Some c => Some (mkWorkerConfig (cfgName c) (hasNew c) (MaxCount c) (IsEnabled c)) end) workers.

Definition StartOverseer_once (workers : list (option WorkerConfig)) (p : process) : process :=
  if p_started p then p else mkProcess (StartOverseer (p_overseer p) (cloneWorkerConfigs workers) None) true.

Definition runBackgroundWorkers (b : background) (p : process) : background * process :=
  match BGWorkers b with
  | [] => (b, p)
  | workers =>
      let timeout := if WorkerSleepTimeout b <? 5 * Second then 5 * Second else WorkerSleepTimeout b in
      (mkBackground workers timeout, StartOverseer_once workers (mkProcess (SetOverseerSleepTimeout (p_overseer p) timeout) (p_started p)))
  end.

(** ** The handle *)

Section handle.
Context {S : Type}.
Implicit Types (s : option (HTTPServer S)).

Definition newHTTPServer (c : ServerConfig S) : http_Server :=
  mkHttpServer (":" +:+ pretty (ServerPort c)) (ReadTimeout c) (ReadHeaderTimeout c) (WriteTimeout c) (IdleTimeout c) (MaxHeaderBytes c).

Definition Addr s : string := match s with None => "" | Some s => Addr_ (newHTTPServer (hs_config s)) end.
Definition Router s : option (list (registration S)) := hs_router <$> s.
Definition SessionManager s : option scs_settings := s ≫= hs_sessionManager.

(** [serve] is what the listener comes to. *)
Context (serve : listen_call → option string).

Definition ListenAndServe s : option string :=
  match s with
  | None => Some not_initialized
  | Some s =>
      let l := newHTTPServer (hs_config s) in
      serve (if decide (TLSCertFile (hs_config s) ≠ "") then ListenTLS l (TLSCertFile (hs_config s)) (TLSKeyFile (hs_config s)) else ListenPlain l)
  end.

Definition Start s (b : background) (p : process) : (background * process) * option string :=
  match s with
  | None => ((b, p), Some not_initialized)
  | Some _ => (runBackgroundWorkers b p, ListenAndServe s)
  end.

(** [down] is the error of [http.Server.Shutdown]. *)
Definition Shutdown (down : option string) s (w : redis_registry) : option (HTTPServer S) * redis_registry * list string :=
  match s with
  | None => (None, w, [not_initialized])
  | Some s => let '(s, w, _, e) := closeOwnedSession s w in (Some s, w, joined [down; e])
  end.

(** The panic of a refused configuration is the error whose text it has; a server that was
    accepted goes on as a [life]. *)
Definition StartHttpServer (recent : bool) (f : fate) (config : option (ServerConfig S)) (b : background) (w : server_world) (p : process)
    : outcome (server_world * result server_error (background * process * life (S := S))) :=
  x ← NewHTTPServer recent f config w;
  match x with
  | (w, Err e) => Ret (w, Err e)
  | (w, Ok s) => let '(b, p) := runBackgroundWorkers b p in Ret (w, Ok (b, p, starting s (w_redis w)))
  end.
End handle.

(** ** Properties *)

Lemma clone_same workers : cloneWorkerConfigs workers = workers.
Proof. induction workers as [|[[]|] workers IH]; [done|..]; unfold cloneWorkerConfigs in *; cbn; by rewrite IH. Qed.

Lemma sleep_timeout t : (if t <? 5 * Second then 5 * Second else t) = Z.max (5 * Second) t.
Proof. destruct (Z.ltb_spec t (5 * Second)); lia. Qed.

Lemma set_sleep (o : Overseer) t : SetOverseerSleepTimeout o (Z.max (5 * Second) t) = with_sleep o (Z.max (5 * Second) t).
Proof.
  unfold SetOverseerSleepTimeout. unfold minOverseerSleep, Second, Millisecond. rewrite (proj2 (Z.leb_gt (Z.max _ _) 0)) by lia.
  by rewrite (proj2 (Z.ltb_ge (Z.max _ _) _)) by lia.
Qed.

Lemma StartOverseer_sleep (o : Overseer) workers : overseerSleepTimeout (StartOverseer o workers None) = overseerSleepTimeout o.
Proof. by destruct o. Qed.

Lemma NewHTTPServer_served {S : Type} recent f (config : option (ServerConfig S)) w w' s : NewHTTPServer recent f config w = Ret (w', Ok s) →
  recent = true ∧ served_config (hs_config s) ∧ hs_closed s = false.
Proof.
  unfold NewHTTPServer. destruct recent; [cbn [negb]|done]. destruct config as [c|]; [|done]. cbn [Normalize].
  destruct (ServerConfig_Validate _) eqn:Ev; [done|]. pose proof (Validate_served c Ev) as Hc. destruct (NewRouter _); [|done].
  destruct (handleHttpRoutes _ _ _ _) as [[redis [[[r sm] owns]|e]]|]; [|done..]. by intros [= _ <-].
Qed.

(** The listener of a server that was constructed has a port, positive limits, and TLS exactly
    when there is a certificate, which then has its key. *)
Theorem listener_spec {S : Type} recent f (config : option (ServerConfig S)) w w' s : NewHTTPServer recent f config w = Ret (w', Ok s) →
  ∃ port l, 1 <= port <= 65535 ∧ Addr_ l = ":" +:+ pretty port ∧ Addr (Some s) = Addr_ l ∧
    Forall (λ t, 0 < t) [h_ReadTimeout l; h_ReadHeaderTimeout l; h_WriteTimeout l; h_IdleTimeout l; h_MaxHeaderBytes l] ∧
    ((TLSCertFile (hs_config s) = "" ∧ ∀ serve, ListenAndServe serve (Some s) = serve (ListenPlain l)) ∨
     ∃ cert key, cert ≠ "" ∧ key ≠ "" ∧ cert = TLSCertFile (hs_config s) ∧ ∀ serve, ListenAndServe serve (Some s) = serve (ListenTLS l cert key)).
Proof.
  intros (_ & (_ & Hport & Hpos & Htls & _) & _)%NewHTTPServer_served. exists (ServerPort (hs_config s)), (newHTTPServer (hs_config s)).
  split_and!; [lia|lia|done|done| |].
  - rewrite !Forall_cons in Hpos. rewrite !Forall_cons. naive_solver.
  - unfold ListenAndServe. case_decide as Hc; [right|left].
    + exists (TLSCertFile (hs_config s)), (TLSKeyFile (hs_config s)). split_and!; [done| |done|done]. intros Hk%Htls. exact (Hc Hk).
    + split; [|done]. destruct (decide (TLSCertFile (hs_config s) = "")); done.
Qed.

(** A server that starts runs on a recent runtime and a complete configuration; its workers, if it has any, are under an overseer that sleeps at least
    five seconds between rounds, and without any the overseer is left alone. *)
Theorem StartHttpServer_spec {S : Type} recent f (config : option (ServerConfig S)) b w p w' b' p' x :
  StartHttpServer recent f config b w p = Ret (w', Ok (b', p', x)) →
  recent = true ∧ served_config (hs_config (l_server x)) ∧ x = starting (l_server x) (w_redis w') ∧ hs_closed (l_server x) = false ∧
  BGWorkers b' = BGWorkers b ∧ (BGWorkers b = [] → p' = p) ∧
  (BGWorkers b ≠ [] → p_started p' = true ∧ overseerSleepTimeout (p_overseer p') = Z.max (5 * Second) (WorkerSleepTimeout b) ∧
     (p_started p = false → workerList (p_overseer p') = BGWorkers b)).
Proof.
  unfold StartHttpServer. destruct (NewHTTPServer recent f config w) as [[w1 [s|e]]|why] eqn:En; [|done..]. cbn [mbind outcome_bind].
  destruct (NewHTTPServer_served _ _ _ _ _ _ En) as (Hr & Hs & Hc).
  destruct (runBackgroundWorkers b p) as [b1 p1] eqn:Eb. intros [= -> <- <- <-]. cbn [l_server starting].
  do 4 (split; [done|]). revert Eb. unfold runBackgroundWorkers. destruct (BGWorkers b) as [|c cs] eqn:Ew; [by intros [= -> ->]|].
  rewrite sleep_timeout, set_sleep. intros [= <- <-]. split_and!; [done|done|]. intros _. unfold StartOverseer_once. cbn [p_started p_overseer].
  assert (Hsl : ∀ o t, overseerSleepTimeout (with_sleep o t) = t) by by intros [].
  destruct (p_started p) eqn:Ep; cbn [p_started p_overseer]; rewrite ?StartOverseer_sleep, Hsl; [done|]. split_and!; [done|done|]. intros _. exact (clone_same (c :: cs)).
Qed.

(** The overseer starts once in a process: the workers of a second server are never started,
    while its sleep time replaces that of the first. *)
Theorem second_server_has_no_workers b1 b2 p : p_started p = false → BGWorkers b1 ≠ [] → BGWorkers b2 ≠ [] →
  let p1 := (runBackgroundWorkers b1 p).2 in let p2 := (runBackgroundWorkers b2 p1).2 in
  workerList (p_overseer p1) = BGWorkers b1 ∧
  p_overseer p2 = with_sleep (p_overseer p1) (Z.max (5 * Second) (WorkerSleepTimeout b2)).
Proof.
  destruct b1 as [[|c1 l1] t1]; [done|]. destruct b2 as [[|c2 l2] t2]; [done|]. intros Hp _ _. cbn [runBackgroundWorkers BGWorkers snd p_started p_overseer WorkerSleepTimeout].
  unfold StartOverseer_once. cbn [p_started p_overseer]. rewrite Hp. cbn [p_started p_overseer]. split; [exact (clone_same (c1 :: l1))|].
  by rewrite !sleep_timeout, !set_sleep.
Qed.

(** Shutting down again closes nothing again, and reports the error of the session the first
    time gave. *)
Theorem Shutdown_again {S : Type} (s : HTTPServer S) w down1 down2 s' w' errs : Shutdown down1 (Some s) w = (s', w', errs) →
  ∃ e, errs = joined [down1; e] ∧ Shutdown down2 s' w' = (s', w', joined [down2; e]).
Proof.
  unfold Shutdown. unfold closeOwnedSession. destruct (owned s) eqn:Eo; cbn [negb].
  2: { intros [= <- <- <-]. exists None. split; [done|]. by rewrite Eo. }
  destruct (hs_closed s) eqn:Ec.
  { intros [= <- <- <-]. exists (hs_sessionCloseErr s). split; [done|]. by rewrite Eo, Ec. }
  destruct (Session_Close (hs_sessionManager s) w) as [w1 e]. intros [= <- <- <-]. exists e. split; [done|].
  unfold owned in *. cbn. by rewrite Eo.
Qed.

(** ** Witnesses *)

Definition demo_workers : background := mkBackground [Some (mkWorkerConfig "mailer" true 2 true)] 0.

Lemma devel_runtime_too_old_witness : ∃ e, validateEnvironmentError (λ _, false) (λ _ _, 0) "devel go1.99-0f1e2d" = Some e.
Proof. apply (devel_runtime_too_old (λ _, false) (λ _ _, 0) " go1.99-0f1e2d"). reflexivity. Defined.

Lemma second_server_has_no_workers_witness :
  let p1 := (runBackgroundWorkers demo_workers (mkProcess initial_overseer false)).2 in
  workerList (p_overseer (runBackgroundWorkers (mkBackground [Some (mkWorkerConfig "indexer" true 1 true)] 0) p1).2) = BGWorkers demo_workers.
Proof.
  cbv zeta. pose proof (second_server_has_no_workers demo_workers (mkBackground [Some (mkWorkerConfig "indexer" true 1 true)] 0) (mkProcess initial_overseer false)
    ltac:(reflexivity) ltac:(discriminate) ltac:(discriminate)) as [H1 H2]. cbv zeta in H1, H2. rewrite H2, <- H1. reflexivity.
Defined.

Definition demo_config : ServerConfig unit := mkServerConfig 0 0 0 0 0 0 0 "" "" None None "" [] [] None None false false false true.
Definition demo_world : server_world := mkWorld (SetupApiKeyMinifierConfig false None) ServerDemo.redis.

Lemma listener_spec_witness : match NewHTTPServer true Delivered (Some demo_config) demo_world with
  | Ret (_, Ok s) => ∃ port, 1 <= port <= 65535 ∧ Addr (Some s) = ":" +:+ pretty port
  | _ => False
  end.
Proof.
  destruct (NewHTTPServer true Delivered (Some demo_config) demo_world) as [[w' [s|e]]|why] eqn:E; [|discriminate E|discriminate E].
  destruct (listener_spec _ _ _ _ _ _ E) as (port & l & H1 & H2 & H3 & _). exists port. split; [exact H1|]. by rewrite H3.
Defined.

Lemma StartHttpServer_spec_witness : match StartHttpServer true Delivered (Some demo_config) demo_workers demo_world (mkProcess initial_overseer false) with
  | Ret (_, Ok (_, p, _)) => workerList (p_overseer p) = BGWorkers demo_workers
  | _ => False
  end.
Proof.
  destruct (StartHttpServer true Delivered (Some demo_config) demo_workers demo_world (mkProcess initial_overseer false)) as [[w' [[[b p] x]|e]]|why] eqn:E;
    [|discriminate E|discriminate E].
  destruct (StartHttpServer_spec _ _ _ _ _ _ _ _ _ _ E) as (_ & _ & _ & _ & _ & _ & H). apply H; [discriminate|reflexivity].
Defined.

Lemma Shutdown_again_witness : ∃ e, Shutdown (Some "timeout"%string) (Some ServerDemo.server) ServerDemo.redis =
    (Some (mkHTTPServer [] ServerDemo.config (Some ServerDemo.manager) true true e),
     (Session_Close (Some ServerDemo.manager) ServerDemo.redis).1, joined [Some "timeout"%string; e]) ∧
  Shutdown None (Some (mkHTTPServer [] ServerDemo.config (Some ServerDemo.manager) true true e)) (Session_Close (Some ServerDemo.manager) ServerDemo.redis).1 =
    (Some (mkHTTPServer [] ServerDemo.config (Some ServerDemo.manager) true true e), (Session_Close (Some ServerDemo.manager) ServerDemo.redis).1, joined [None; e]).
Proof.
  exists (Session_Close (Some ServerDemo.manager) ServerDemo.redis).2.
  destruct (Shutdown_again ServerDemo.server ServerDemo.redis (Some "timeout"%string) None _ _ _ eq_refl) as (e & H1 & H2).
  split; [reflexivity|]. vm_compute in H2 |- *. vm_compute in H1. destruct e as [e|]; [|exact H2]. discriminate H1.
Defined.
End HttpStart.
